(* ===== verification/_CoqProject ===== *)
-Q . S2P
Prelude.v
Crates.v
StdPath.v
StdText.v
BTreeMap.v
NixBase32.v
NixHash.v
StorePath.v
Io.v
Nom.v
Aterm.v
Derivation.v
DerivationAterm.v
NarInfo.v
NarInfoKeys.v
NarWire.v
NarWriter.v
NarReader.v
AsyncIo.v
WireBytes.v
NarAsync.v
CastorePath.v
Castore.v
CastoreProto.v
CastoreOrder.v
PetGraph.v
DirectoryGraph.v
DirectoryDownload.v
DirectoryService.v
DirectoryCache.v
BlobService.v
Ingest.v
IngestSpec.v
UploadSpec.v
RefScan.v
PathInfo.v
PathInfoSpec.v
Fs.v
NarStore.v
NarStoreSpec.v
Faults.v
Seekable.v
NixHttp.v
NixHttpSpec.v
SeekableSpec.v
FsSpec.v
Bytecode.v
Scope.v
NixString.v
NixAttrs.v
Value.v
Compiler.v
Bindings.v
Compile.v
BindingsSpec.v
Generators.v
Vm.v
EvalSpec.v
VmSteps.v
EvalCode.v
EvalCompile.v
EvalCorrect.v
EvalForce.v
EvalLists.v
Versions.v
Builtins.v
BuiltinRuns.v
BuiltinSort.v
BuiltinSpecs.v
