(* ===== verification/Prelude.v ===== *)
(** * A verification library for Tvix

    Tvix is an implementation of the Nix package manager in Rust. This library
    models, as executable definitions, those of its parts that decide what a
    path, a hash, an archive, a cache entry or a directory *is*; the store that
    archives go into and come out of, with its services for blobs, directories
    and path infos, as a filesystem and as a client of binary caches; and the
    evaluator of the Nix language from its syntax tree to its values: compiler,
    bytecode, virtual machine, builtins. It proves what makes them correct. Every definition follows one Rust item, with its
    branches, early returns, integer widths and panics.

    ** Outcomes, integers, effects

    Fallible code returns [outcome E A]: [Ok], [Err e] or [Panic]. [Panic] is
    what an index out of range, a failed [unwrap], an [assert!] or a
    [debug_assert!] does, and arithmetic overflow where overflow checks are on.
    Code whose behaviour depends on the build profile takes a boolean [dbg]
    ([debug_assertions] and overflow checks), and theorems quantify over it.
    Machine integers are [Z] with their wrap-around or range test written out;
    bytes are [Byte.byte], strings of Rust and byte strings are lists of bytes.
    [&mut] receivers are state passing; the NAR reader threads its archive
    through a state and outcome monad ([Io]). A future is the polls it is made
    of: asynchronous sources answer polls with bytes, faults or nothing yet
    ([AsyncIo]); services are state passed through their calls.

    ** Files

    - [Prelude]: outcomes, byte strings, splitting and joining, [RustOrd] (the
      lexicographic order of slices), little-endian integers, tactics, the
      hint database of the library.
    - [Crates]: interfaces of code that is not in the repository, each a class
      of operations with a class of the documented laws and an instance that
      computes: [data_encoding] (base16, base64), [sha2], [bstr]. Files have
      such classes of their own: [vu128] ([Bytecode]), [bstr] ([Versions]),
      [blake3] ([BlobService]), [wu_manber] ([RefScan]), [reqwest] and the
      decoders ([NixHttp]), and [binary_search_by_key] ([Seekable]), of which the
      Standard Library leaves open what it finds among equal keys.
    - [StdPath], [StdText], [BTreeMap], [Io]: what the sources use of the
      standard library: path components; decimal integers, lines and splitting
      of text; ordered maps; [Read] with arbitrary chunks, interruptions and
      faults, [BufRead], [Write].
    - [NixBase32]: nix-compat/src/nixbase32.rs.
    - [NixHash]: nix-compat/src/nixhash (mod.rs, algos.rs, ca_hash.rs).
    - [StorePath]: nix-compat/src/store_path (mod.rs, utils.rs).
    - [Nom]: the combinators of the [nom] crate as a class with the behaviour
      its documentation states, and an instance.
    - [Aterm]: nix-compat/src/aterm (escape.rs, parser.rs).
    - [Derivation]: nix-compat/src/derivation (mod.rs, output.rs, validate.rs,
      write.rs, parser.rs, parse_error.rs, errors.rs); [DerivationAterm] holds
      its theorems.
    - [NarInfo], [NarInfoKeys]: nix-compat/src/narinfo (mod.rs, signature.rs,
      fingerprint.rs; verifying_keys.rs, signing_keys.rs).
    - [NarWire], [NarWriter], [NarReader]: nix-compat/src/nar (wire, writer/sync.rs,
      reader/mod.rs, reader/read.rs). [NarWriter] also states the grammar of
      the format: [nar t] is the archive of the tree [t].
    - [CastorePath], [Castore], [CastoreProto], [CastoreOrder]:
      castore/src (path, nodes, digests.rs, errors.rs, proto/mod.rs,
      directoryservice/order_validator.rs).
    - [AsyncIo]: what the sources use of [tokio::io]; [WireBytes], [NarAsync]:
      nix-compat/src/wire/bytes and nar/reader/async.
    - [PetGraph]: the [petgraph] crate as a class with laws and an instance;
      [DirectoryGraph], [DirectoryDownload]: castore/src/directoryservice/
      directory_graph.rs, filled towards the root and from it.
    - [DirectoryService]: castore/src/directoryservice (mod.rs, memory.rs,
      simple_putter.rs, traverse.rs, utils.rs, combinators.rs), with
      [DirectoryCache] for its theorems.
    - [BlobService]: castore/src/blobservice (mod.rs, memory.rs, chunked_reader.rs).
    - [Ingest]: castore/src/import (mod.rs, blobs.rs); [IngestSpec] and
      [UploadSpec] state what it leaves in the services.
    - [RefScan]: castore/src/refscan.rs.
    - [Fs], [FsSpec]: castore/src/fs (mod.rs, inodes.rs, inode_tracker.rs,
      root_nodes.rs, file_attr.rs).
    - [NarStore], [NarStoreSpec]: store/src/nar (import.rs, renderer.rs);
      [Seekable], [SeekableSpec]: store/src/nar/seekable.rs.
    - [PathInfo], [PathInfoSpec]: store/src (path_info.rs, proto/mod.rs,
      import.rs, proto/grpc_pathinfoservice_wrapper.rs) and pathinfoservice
      (memory.rs, lru.rs, combinators.rs, signing_wrapper.rs, grpc.rs).
    - [Faults]: reading from a source that fails is reading what came before;
      [NixHttp], [NixHttpSpec]: store/src/pathinfoservice/nix_http.rs with
      [ingest_nar_and_hash] of nar/import.rs.
    - [Bytecode]: eval/src/opcode.rs and chunk.rs.
    - [Scope]: eval/src/compiler/scope.rs.
    - [NixString], [NixAttrs], [Value]: eval/src/value (string/mod.rs and
      context.rs, attrs.rs, mod.rs and arithmetic.rs, thunk.rs, function.rs,
      builtin.rs, list.rs). Thunks are cells of a heap, so that sharing and
      memoisation are visible.
    - [Compiler]: eval/src/compiler (mod.rs, optimiser.rs) over a syntax tree
      [Expr] with the node kinds of rnix; [Bindings] and [BindingsSpec]:
      compiler/bindings.rs, functions with argument patterns; [Compile]: the
      dispatch over expressions.
    - [Generators]: eval/src/vm/generators.rs, vm/macros.rs and the generators of
      value/mod.rs (forcing, equality, ordering, coercion): a generator is a
      tree of the requests it makes of the machine ([Gen]).
    - [Vm]: eval/src/vm/mod.rs: frames, stacks, the heap, [execute_op] with a
      case per instruction, the loop that schedules frames.
    - [EvalSpec]: a reference semantics of expressions, [eval_ref], and the
      optimiser of the compiler judged by it. [VmSteps] (runs of the machine),
      [EvalCode] (layout of code in a chunk), [EvalCompile] (what the compiler
      emits), [EvalCorrect] (the refinement theorem), [EvalForce] (deep
      forcing), [EvalLists] (order of lists) hold the proofs.
    - [Versions]: eval/src/builtins/versions.rs and the two builtins of
      builtins/mod.rs that use it; [Builtins]: the pure builtins of builtins/mod.rs
      and hash.rs as generators, with the argument forcing of their macro
      (builtin-macros/src/lib.rs). [BuiltinRuns] (how they run on the machine),
      [BuiltinSort], [BuiltinSpecs] hold their theorems.

    ** How the parts interact

    Store paths print their digest with [NixBase32] and are built from the
    fingerprints of a [NixHash]; a [Derivation] refers to store paths, is written
    and parsed as ATerm, and its outputs get store paths from its hash; the
    writer and the reader of archives meet in that grammar; castore directories hold [CastorePath] names and
    are exchanged as protobuf messages, whose order on the wire the validators
    of [CastoreOrder] check; a [NarInfo] names a store path, hashes and signs it.
    [ingest_nar] reads an archive from an asynchronous source with [NarAsync],
    whose file contents are packets of [WireBytes], uploads the files to a
    [BlobService] and hands the entries to [ingest_entries], which sends
    directories to the putter of a [DirectoryService]; the putter and every
    traversal check what passes with a [DirectoryGraph]. A node that came in is
    rendered as an archive by [NarStore], read piecewise by [Seekable], and shown as
    files by [Fs]. A [PathInfo] is a node with the fields of a [NarInfo]; services
    of path infos are put behind gRPC messages, in front of each other as caches,
    and [NixHttp] fills them from a binary cache: NARInfo, signature check,
    download, ingestion, comparison of digests.
    The compiler resolves names in a [Scope] and emits [Bytecode] into a chunk;
    the machine runs bytecode frames and generators in turn, a generator
    suspends with a request that the machine answers, possibly by pushing a
    frame; both work on one heap of thunks.

    ** What the theorems show

    - The evaluator: on the fragment [simple] (literals, global constants,
      operators other than those on lists and sets, conditionals, assertions),
      compiling an expression and running the machine always ends, with every
      value that is not a failure that the reference semantics [eval_ref] gives,
      and with its failures and errors too where the optimiser has nothing to
      choose ([evaluate_correct], [no_choice]); an operand taken for dead code that has
      jumps makes the compiler panic ([dead_code_panics]), and is excluded. Deep
      forcing ends on cyclic heaps ([deep_force_terminates]); lists compare
      lexicographically ([list_order_lexicographic]); the three representations
      of attribute sets implement a finite map ([attrs_refine_map]); merging
      and nesting bindings keeps every entry and ends
      ([declare_bindings_keeps_entries], [compile_bindings_terminates]); sort is a
      stable sort for every comparator that answers ([sort_stable]), and
      replaceStrings the left-to-right replacement ([replace_strings_spec]).
    - The store: an archive survives ingestion and rendering
      ([nar_store_roundtrip]), only archives of valid trees are accepted
      ([ingest_nar_canonical]), directories of a tree are what is left in the
      service ([ingest_tree]); closures are validated on the way in and out
      ([upload_closure], [download_closure], [putter_roundtrip]), and caches are
      transparent ([cache_refines_far], [cached_gets_answer_far]); readers of
      chunked blobs and of seekable archives refine one string of bytes
      ([chunked_reader_refines_blob], [seekable_reader_refines_nar]); the
      filesystem keeps inodes, finds paths, pages directories and reads blobs
      ([fs_inodes_stable], [fs_lookup_path], [readdir_pages], [fs_reads_blob]);
      the reference scanner sees across its reads ([reference_reader_spec]).
    - Trust: what a binary cache can make the store believe is signed and is what its
      digest says, whatever is sent and wherever it breaks off
      ([nix_http_get_sound]), and a cache that has what it should is answered
      ([nix_http_get_serves]); path infos are canonical messages
      ([path_info_canonical]) and gRPC is invisible ([grpc_service_refines]).
    - Encodings are canonical and lossless: nixbase32 ([decode_encode],
      [decode_canonical]), hashes ([from_str_roundtrip], [ca_hash_roundtrip]),
      store paths ([from_bytes_iff], [from_absolute_path_iff]), derivations
      ([aterm_roundtrip], for keys that need no escape), archives
      ([write_nar_grammar], [nar_roundtrip], [read_nar_canonical]), protobuf
      directories ([proto_directory_canonical]), castore paths
      ([from_bytes_bijection]), varint operands ([uvarint_roundtrip]), narinfo
      files ([narinfo_roundtrip]), string literals
      ([nix_escape_string_roundtrip]); a signed narinfo verifies and a
      fingerprint determines what is signed ([signed_narinfo_verifies],
      [fingerprint_injective]).
    - Invariants: castore directories ([try_from_iter_spec], [add_spec]), the
      status protocol of the NAR reader ([dir_next_stack], [file_read_stack]),
      compiler scopes across blocks ([block_restores_scope]).
    - Functional behaviour against a specification: path operations as lists
      of names, host path resolution, name resolution, order validators, jump
      patching, spans, version splitting and comparison, hash folding,
      validation, hashes and output paths of derivations.
    - Exact failure conditions: the inputs on which a function panics or does
      something else than its comment says ([decode_digest_panics],
      [from_sri_str_panics], [compare_versions_number_panics],
      [split_version_invalid_utf8_panics], [size_counts_twice],
      [add_after_size_overflow], [end_scope_reports_used],
      [build_ca_path_self_reference_guard], [cmp_printed_order],
      [environment_keys_not_escaped], [narinfo_uncompressed_misread],
      [signature_parse_panics], [new_contents], [dead_code_panics],
      [empty_read_fails], [first_of_equal_fails], [missing_blob_panics],
      [executable_lost], [overlap_missed], [other_path_accepted]).

    ** Fuel

    Loops that are not structural take fuel and answer [None] without it; the
    theorems show that the stated fuel always suffices. [read_nar] gets twice
    the length of the input plus 2 (every turn of a directory loop and every
    level of nesting consumes at least one token); the version iterator's
    [collect] gets one turn per character plus 2, the comparison [iter_cmp]
    one per character of the first version plus 3 (each turn takes a part of
    it, and a version has at most one part per character).
    Loops over a slice, a map or a reader's chunks are structural.
    The machine's loop takes fuel for frames and instructions: a theorem that a
    run ends gives a fuel and shows that every larger one has the same result.
    Following a chain of thunk cells ([cast_fuel] and its users) gets the size
    of the heap: a chain that is longer has a cycle.
    An async function takes as fuel the number of polls it is given; theorems
    give a number from which on the result is the same, and what is accepted is
    accepted with any. The traversal of a closure gets one turn per directory
    in the service plus 2, the compiler of bindings the number of entries with
    their nesting ([compile_bindings_terminates] shows it is never used up), the
    loop of replaceStrings two turns per byte.

    ** Not modelled

    The async writer of archives (the body of the sync one with suspension
    points), [BytesWriter] and the daemon protocol, which so far reads
    handshakes; serde map forms (of content-addressing hashes, outputs and narinfo);
    the protobuf byte encoding of [prost] (the digest of a directory is a
    parameter); services over object stores, databases and networks, and the registry
    that builds them from configuration: adapters around calls of other
    systems; the sessions of FUSE and virtiofs; the walk of the local file system
    and of tar archives on import; glue, build, cli, nar-bridge and tracing,
    which connect these parts and do I/O. Of the store: the sizes and times
    that only go into traces. Polls of [BlobService] readers, [Seekable] and
    [Fs] are ones that are ready. A concurrent call of the filesystem takes
    its locks call by call, so that calls are steps; the counters of inodes and
    handles are unbounded.
    Of values: JSON and XML forms, printing and explaining, reference counts and
    the layout of the string allocation. Of the machine: spans attached to errors,
    observers, runtime warnings, import cache and the requests impure
    builtins make. The sign of a NaN is not tracked. *)

From Stdlib Require Export ZArith Lia ZifyNat.
From Stdlib Require Import Strings.Byte Strings.String.
From stdpp Require Export base list gmap.
From stdpp Require Import strings.

#[global] Set Warnings "-clear-no-such-hyp,-register-all".
#[local] Open Scope Z_scope.

(** ** Outcomes of Rust code

    [Ok]/[Err] are the two constructors of [std::result::Result]; [Panic] is
    what an out-of-range index, a failed [unwrap] or an [assert!] does. A
    function that cannot panic is proved never to return [Panic]. *)

Inductive outcome (E A : Type) : Type :=
| Ok (a : A)
| Err (e : E)
| Panic.
Arguments Ok {E A} a.
Arguments Err {E A} e.
Arguments Panic {E A}.

Definition obind {E A B} (m : outcome E A) (f : A → outcome E B) : outcome E B :=
  match m with
  | Ok a => f a
  | Err e => Err e
  | Panic => Panic
  end.

Definition omap_err {E E' A} (f : E → E') (m : outcome E A) : outcome E' A :=
  match m with
  | Ok a => Ok a
  | Err e => Err (f e)
  | Panic => Panic
  end.

Definition omap_ok {E A B} (f : A → B) (m : outcome E A) : outcome E B :=
  match m with
  | Ok a => Ok (f a)
  | Err e => Err e
  | Panic => Panic
  end.

(** [ok_or]: [Option::ok_or]. *)
Definition ok_or {E A} (e : E) (o : option A) : outcome E A :=
  match o with Some a => Ok a | None => Err e end.

(** [r.ok()] on code that does not panic. *)
Definition to_option {E A} (m : outcome E A) : option A :=
  match m with Ok a => Some a | _ => None end.

(** An indexing expression: [None] is out of range, so it panics. *)
Definition or_panic {E A} (o : option A) : outcome E A :=
  match o with Some a => Ok a | None => Panic end.

Definition is_ok {E A} (m : outcome E A) : bool :=
  match m with Ok _ => true | _ => false end.

Definition is_err {E A} (m : outcome E A) : bool :=
  match m with Err _ => true | _ => false end.

Declare Scope rust_scope.
Delimit Scope rust_scope with rust.
Notation "'let?' x ':=' m 'in' k" := (obind m (fun x => k))
  (at level 10, x pattern, m at level 100, k at level 200)
  : rust_scope.
#[global] Open Scope rust_scope.

Lemma obind_Ok {E A B} (m : outcome E A) (f : A → outcome E B) (b : B) :
  obind m f = Ok b ↔ ∃ a, m = Ok a ∧ f a = Ok b.
Proof. destruct m; simpl; split; intros H; try destruct H as (?&?&?); simplify_eq; eauto. Qed.

Lemma omap_err_Ok {E E' A} (f : E → E') (m : outcome E A) a :
  omap_err f m = Ok a ↔ m = Ok a.
Proof. destruct m; simpl; naive_solver. Qed.

Lemma omap_err_compose {E E' E'' A} (f : E' → E'') (g : E → E') (m : outcome E A) :
  omap_err f (omap_err g m) = omap_err (λ e, f (g e)) m.
Proof. by destruct m. Qed.

(** Splits a successful chain of [let?] into its successful steps. *)
Ltac inv_ok :=
  repeat match goal with
  | H : obind _ _ = Ok _ |- _ =>
      let a := fresh "a" in let Ha := fresh "Ha" in
      apply obind_Ok in H as (a & Ha & H)
  | H : omap_err _ _ = Ok _ |- _ => apply omap_err_Ok in H
  | H : Ok _ = Ok _ |- _ => injection H as H
  | H : Err _ = Ok _ |- _ => discriminate H
  | H : Panic = Ok _ |- _ => discriminate H
  end.

(** [lia] with the Euclidean equations of every [/] and [mod] in sight. *)
Ltac liad := zify; Z.to_euclidean_division_equations; lia.

(** ** Bytes

    A [u8] inside a buffer is Rocq's [byte]; arithmetic on it goes through
    [b2z] (zero extension) and [z2b] (truncation, Rust's [as u8]). *)

Abbreviation byte := Byte.byte.
Abbreviation bytes := (list Byte.byte).

Definition b2z (b : byte) : Z := Z.of_N (Byte.to_N b).

Definition z2b (z : Z) : byte :=
  match Byte.of_N (Z.to_N (z mod 256)) with
  | Some b => b
  | None => Byte.x00
  end.

(** The bytes of a string literal. *)
Definition B (s : string) : bytes := list_byte_of_string s.
Arguments B s%_string.

#[global] Instance byte_eq_decision : EqDecision byte := Byte.byte_eq_dec.

#[global] Program Instance byte_countable : Countable byte :=
  inj_countable Byte.to_N Byte.of_N _.
Next Obligation. intros b. apply Byte.of_to_N. Qed.

Lemma b2z_range b : 0 ≤ b2z b < 256.
Proof.
  unfold b2z. pose proof (Byte.to_N_bounded b). lia.
Qed.

Lemma z2b_b2z b : z2b (b2z b) = b.
Proof.
  unfold z2b. rewrite Z.mod_small by apply b2z_range.
  unfold b2z. by rewrite N2Z.id, Byte.of_to_N.
Qed.

Lemma b2z_z2b z : b2z (z2b z) = z mod 256.
Proof.
  unfold z2b. pose proof (Z.mod_pos_bound z 256 ltac:(lia)) as Hz.
  destruct (Byte.of_N _) as [b|] eqn:Hb.
  - apply Byte.to_of_N in Hb. unfold b2z. rewrite Hb. lia.
  - apply Byte.of_N_None_iff in Hb. lia.
Qed.

#[global] Instance b2z_inj : Inj (=) (=) b2z.
Proof. intros a b H. rewrite <- (z2b_b2z a), H. apply z2b_b2z. Qed.

Lemma b2z_z2b_small z : 0 ≤ z < 256 → b2z (z2b z) = z.
Proof. intros. rewrite b2z_z2b. by apply Z.mod_small. Qed.

Create HintDb bytes discriminated.
Create Rewrite HintDb bytes.
#[export] Hint Resolve b2z_range : bytes.
#[export] Hint Rewrite @z2b_b2z : bytes.

(** ** Little-endian numbers

    The value of a byte string read least significant byte first, and the
    first [k] bytes of a number ([to_le_bytes]). *)

Fixpoint le_val (bs : bytes) : Z :=
  match bs with
  | [] => 0
  | b :: bs => b2z b + 256 * le_val bs
  end.

Fixpoint le_bytes (k : nat) (z : Z) : bytes :=
  match k with
  | O => []
  | S k => z2b z :: le_bytes k (z / 256)
  end.

Lemma pow256_S (k : nat) : 256 ^ Z.of_nat (S k) = 256 * 256 ^ Z.of_nat k.
Proof. rewrite Nat2Z.inj_succ, Z.pow_succ_r; lia. Qed.

Lemma le_val_range bs : 0 ≤ le_val bs < 256 ^ Z.of_nat (length bs).
Proof.
  induction bs as [|b bs IH]; [simpl; lia|].
  cbn [length le_val]. rewrite pow256_S. pose proof (b2z_range b). lia.
Qed.

Lemma le_val_app xs ys :
  le_val (xs ++ ys) = le_val xs + 256 ^ Z.of_nat (length xs) * le_val ys.
Proof.
  induction xs as [|x xs IH]; [cbn [app le_val length]; change (Z.of_nat 0) with 0; lia|].
  cbn [length le_val app]. rewrite IH, pow256_S. lia.
Qed.

Lemma length_le_bytes k z : length (le_bytes k z) = k.
Proof. revert z. induction k; intros; simpl; auto. Qed.

Lemma le_val_le_bytes k z : le_val (le_bytes k z) = z mod 256 ^ Z.of_nat k.
Proof.
  revert z. induction k as [|k IH]; intros z; [simpl; by rewrite Z.mod_1_r|].
  cbn [le_bytes le_val]. rewrite IH, b2z_z2b, pow256_S.
  rewrite Z.rem_mul_r; lia.
Qed.

Lemma le_bytes_le_val bs : le_bytes (length bs) (le_val bs) = bs.
Proof.
  induction bs as [|b bs IH]; [done|]. cbn [length le_bytes le_val].
  pose proof (b2z_range b). f_equal.
  - apply (inj b2z). rewrite b2z_z2b.
    rewrite Z.mul_comm, Z_mod_plus_full. by apply Z.mod_small.
  - rewrite Z.mul_comm, Z.div_add by lia.
    by rewrite Z.div_small, Z.add_0_l.
Qed.

Lemma le_val_inj xs ys : length xs = length ys → le_val xs = le_val ys → xs = ys.
Proof.
  intros Hl Hv. rewrite <- (le_bytes_le_val xs), <- (le_bytes_le_val ys).
  by rewrite Hl, Hv.
Qed.

Lemma le_val_replicate0 k : le_val (replicate k Byte.x00) = 0.
Proof. induction k; simpl; auto. rewrite IHk. reflexivity. Qed.

#[export] Hint Rewrite length_le_bytes le_val_app le_val_replicate0 : bytes.

(** The number cut at byte [i]: its low bytes and the rest. *)
Lemma le_val_take_drop i bs :
  (i ≤ length bs)%nat →
  le_val bs = le_val (take i bs) + 256 ^ Z.of_nat i * le_val (drop i bs).
Proof.
  intros Hi. rewrite <- (take_drop i bs) at 1. rewrite le_val_app.
  by rewrite length_take_le by done.
Qed.

Lemma le_val_take i bs :
  (i ≤ length bs)%nat → le_val (take i bs) = le_val bs mod 256 ^ Z.of_nat i.
Proof.
  intros Hi. rewrite (le_val_take_drop i bs Hi).
  rewrite Z.mul_comm, Z_mod_plus_full, Z.mod_small; [done|].
  pose proof (le_val_range (take i bs)) as H. by rewrite length_take_le in H.
Qed.

Lemma le_val_drop i bs :
  (i ≤ length bs)%nat → le_val (drop i bs) = le_val bs / 256 ^ Z.of_nat i.
Proof.
  intros Hi. rewrite (le_val_take_drop i bs Hi).
  pose proof (le_val_range (take i bs)) as H. rewrite length_take_le in H by done.
  rewrite Z.mul_comm, Z.div_add by lia. rewrite (Z.div_small (le_val _)); lia.
Qed.

(** ** Bit operations *)

Lemma land_shiftl_0 a b n : 0 ≤ n → 0 ≤ a < 2 ^ n → Z.land a (Z.shiftl b n) = 0.
Proof.
  intros Hn Ha. apply Z.bits_inj'. intros m Hm.
  rewrite Z.land_spec, Z.bits_0. destruct (decide (m < n)).
  - by rewrite Z.shiftl_spec_low, andb_false_r.
  - rewrite <- (Z.mod_small a (2 ^ n)) by done.
    by rewrite Z.mod_pow2_bits_high by lia.
Qed.

(** Or-ing disjoint bit ranges is addition. *)
Lemma lor_shiftl_add a b n :
  0 ≤ n → 0 ≤ a < 2 ^ n → Z.lor a (Z.shiftl b n) = a + b * 2 ^ n.
Proof.
  intros Hn Ha. pose proof (land_shiftl_0 a b n Hn Ha) as H0.
  rewrite <- Z.lxor_lor by done. rewrite <- Z.add_nocarry_lxor by done.
  by rewrite Z.shiftl_mul_pow2.
Qed.

Lemma land_0x1f z : Z.land z 0x1f = z mod 32.
Proof. apply (Z.land_ones z 5). lia. Qed.

(** ** Rust's [Ord]

    [rcmp] is [Ord::cmp]. The laws are those of a total preorder: [Eq] may
    identify values that differ, as the [Ord] of store paths does. *)

Class RustOrd (A : Type) := rcmp : A → A → comparison.

Class RustOrdLaws (A : Type) `{RustOrd A} : Prop := {
  rcmp_refl x : rcmp x x = Eq;
  rcmp_antisym x y : rcmp y x = CompOpp (rcmp x y);
  rcmp_lt_trans x y z : rcmp x y = Lt → rcmp y z = Lt → rcmp x z = Lt;
  rcmp_eq_l x y z : rcmp x y = Eq → rcmp x z = rcmp y z;
}.

(** An [Ord] whose [Eq] is equality. *)
Class RustOrdEq (A : Type) `{RustOrd A} : Prop :=
  rcmp_eq x y : rcmp x y = Eq → x = y.

(** The [Ord] of slices: lexicographic, a proper prefix being smaller. *)
Fixpoint lex_cmp `{RustOrd A} (xs ys : list A) : comparison :=
  match xs, ys with
  | [], [] => Eq
  | [], _ => Lt
  | _, [] => Gt
  | x :: xs, y :: ys =>
      match rcmp x y with
      | Eq => lex_cmp xs ys
      | c => c
      end
  end.

#[global] Instance list_RustOrd `{RustOrd A} : RustOrd (list A) := lex_cmp.
#[global] Instance Z_RustOrd : RustOrd Z := Z.compare.
#[global] Instance byte_RustOrd : RustOrd byte := λ a b, Z.compare (b2z a) (b2z b).

#[global] Instance Z_RustOrdLaws : RustOrdLaws Z.
Proof.
  constructor; unfold rcmp, Z_RustOrd; intros.
  - apply Z.compare_refl.
  - apply Z.compare_antisym.
  - rewrite Z.compare_lt_iff in *. lia.
  - apply Z.compare_eq in H. by subst.
Qed.
#[global] Instance Z_RustOrdEq : RustOrdEq Z.
Proof. intros x y. apply Z.compare_eq. Qed.

#[global] Instance byte_RustOrdLaws : RustOrdLaws byte.
Proof.
  constructor; intros *.
  - apply (rcmp_refl (A := Z)).
  - apply (rcmp_antisym (A := Z)).
  - apply (rcmp_lt_trans (A := Z)).
  - apply (rcmp_eq_l (A := Z)).
Qed.
#[global] Instance byte_RustOrdEq : RustOrdEq byte.
Proof. intros x y H%Z.compare_eq. by apply (inj b2z). Qed.

Lemma rcmp_eq_sym `{RustOrdLaws A} (x y : A) : rcmp x y = Eq → rcmp y x = Eq.
Proof. intros E. by rewrite rcmp_antisym, E. Qed.

Lemma rcmp_gt_lt `{RustOrdLaws A} (x y : A) : rcmp x y = Gt ↔ rcmp y x = Lt.
Proof. rewrite (rcmp_antisym x y). destruct (rcmp x y); simpl; naive_solver. Qed.

Lemma rcmp_eq_r `{RustOrdLaws A} (x y z : A) : rcmp y z = Eq → rcmp x y = rcmp x z.
Proof.
  intros E. rewrite (rcmp_antisym y x), (rcmp_antisym z x). f_equal. by apply rcmp_eq_l.
Qed.

#[global] Instance list_RustOrdLaws `{RustOrdLaws A} : RustOrdLaws (list A).
Proof.
  constructor; unfold rcmp, list_RustOrd.
  - intros x. induction x as [|a x IH]; simpl; [done|]. by rewrite rcmp_refl.
  - intros x. induction x as [|a x IH]; intros [|b y]; simpl; try done.
    rewrite (rcmp_antisym a b). destruct (rcmp a b); simpl; auto.
  - intros x. induction x as [|a x IH]; intros [|b y] [|c z]; simpl; try done.
    destruct (rcmp a b) eqn:Eab; [|intros _|done].
    + rewrite (rcmp_eq_l _ _ c Eab). destruct (rcmp b c); eauto.
    + destruct (rcmp b c) eqn:Ebc; [|intros _|done].
      * by rewrite <- (rcmp_eq_r a _ _ Ebc), Eab.
      * by rewrite (rcmp_lt_trans _ _ _ Eab Ebc).
  - intros x. induction x as [|a x IH]; intros [|b y] [|c z]; simpl; try done.
    destruct (rcmp a b) eqn:Eab; try done. intros E.
      rewrite (rcmp_eq_l _ _ c Eab). destruct (rcmp b c); auto.
Qed.

#[global] Instance list_RustOrdEq `{RustOrdEq A} : RustOrdEq (list A).
Proof.
  intros x. induction x as [|a x IH]; intros [|b y]; try done.
  unfold rcmp, list_RustOrd. simpl. destruct (rcmp a b) eqn:E; try done.
  intros E'. apply rcmp_eq in E as ->. f_equal. by apply IH.
Qed.

Lemma lex_cmp_app `{RustOrd A} (xs ys xs' ys' : list A) :
  length xs = length ys →
  lex_cmp (xs ++ xs') (ys ++ ys') =
    match lex_cmp xs ys with Eq => lex_cmp xs' ys' | c => c end.
Proof.
  revert ys. induction xs as [|x xs IH]; intros [|y ys] Hl; try done.
  simpl. destruct (rcmp x y); auto.
Qed.

(** ** Positional notation

    Comparing numbers written most significant digit first, in a fixed
    number of digits, is comparing their values. *)

Fixpoint base_val (base : Z) (ds : list Z) : Z :=
  match ds with
  | [] => 0
  | d :: ds => d + base * base_val base ds
  end.

Lemma lex_cmp_base_val base ds es :
  Forall (λ d, 0 ≤ d < base) ds → Forall (λ d, 0 ≤ d < base) es →
  length ds = length es →
  lex_cmp (rev ds) (rev es) = (base_val base ds ?= base_val base es).
Proof.
  intros Hds. revert es. induction Hds as [|d ds Hd Hds IH]; intros [|e es] Hes Hl; try done.
  apply Forall_cons in Hes as [He Hes]. injection Hl as Hl. simpl.
  rewrite lex_cmp_app by (by rewrite !length_rev). rewrite IH by done.
  destruct (Z.compare_spec (base_val base ds) (base_val base es)) as [E|E|E]; symmetry.
  - rewrite E. simpl. unfold rcmp, Z_RustOrd.
    destruct (Z.compare_spec d e); [by subst; apply Z.compare_refl|..].
    + apply Z.compare_lt_iff. lia.
    + apply Z.compare_gt_iff. lia.
  - apply Z.compare_lt_iff. nia.
  - apply Z.compare_gt_iff. nia.
Qed.

(** Comparison commutes with an order embedding of the elements. *)
Lemma lex_cmp_fmap `{RustOrd A, RustOrd C} (f : A → C) xs ys :
  (∀ x y, x ∈ xs → y ∈ ys → rcmp (f x) (f y) = rcmp x y) →
  lex_cmp (f <$> xs) (f <$> ys) = lex_cmp xs ys.
Proof.
  revert ys. induction xs as [|x xs IH]; intros [|y ys] Hf; try done.
  simpl. rewrite Hf by set_solver. destruct (rcmp x y); [|done..].
  apply IH. set_solver.
Qed.

Lemma le_val_base_val bs : le_val bs = base_val 256 (b2z <$> bs).
Proof. induction bs as [|b bs IH]; simpl; [done|]. by rewrite IH. Qed.

Lemma lex_cmp_rev_le_val xs ys :
  length xs = length ys → lex_cmp (rev xs) (rev ys) = (le_val xs ?= le_val ys).
Proof.
  intros Hl. rewrite !le_val_base_val, <- lex_cmp_base_val.
  - rewrite <- !map_rev. symmetry. by apply lex_cmp_fmap.
  - apply Forall_fmap, Forall_forall. intros; apply b2z_range.
  - apply Forall_fmap, Forall_forall. intros; apply b2z_range.
  - by rewrite !length_fmap.
Qed.

(** ** Byte strings: the [str]/slice operations the source uses *)

(** [s.strip_prefix(p)] *)
Fixpoint strip_prefix (p s : bytes) : option bytes :=
  match p, s with
  | [], _ => Some s
  | a :: p, b :: s => if decide (a = b) then strip_prefix p s else None
  | _, [] => None
  end.

(** [s.starts_with(p)] *)
Definition starts_with (p s : bytes) : bool :=
  match strip_prefix p s with Some _ => true | None => false end.

(** [s.ends_with(p)] *)
Definition ends_with (p s : bytes) : bool := starts_with (rev p) (rev s).

(** [s.split_once(c)]: around the first occurrence of [c]. *)
Fixpoint split_once (c : byte) (s : bytes) : option (bytes * bytes) :=
  match s with
  | [] => None
  | b :: s =>
      if decide (b = c) then Some ([], s)
      else '(l, r) ← split_once c s; Some (b :: l, r)
  end.

(** [s.split(c)]: the pieces between the occurrences of [c], at least one. *)
Fixpoint split_on (c : byte) (s : bytes) : list bytes :=
  match s with
  | [] => [[]]
  | b :: s =>
      if decide (b = c) then [] :: split_on c s
      else match split_on c s with
           | p :: ps => (b :: p) :: ps
           | [] => [[b]]
           end
  end.

(** The pieces with [c] between them. *)
Fixpoint join_with (c : byte) (ps : list bytes) : bytes :=
  match ps with
  | [] => []
  | [p] => p
  | p :: ps => p ++ c :: join_with c ps
  end.

(** [s.rsplit_once(c)]: around the last occurrence of [c]. *)
Definition rsplit_once (c : byte) (s : bytes) : option (bytes * bytes) :=
  '(r, l) ← split_once c (rev s); Some (rev l, rev r).

(** [s.is_char_boundary(i)] of a [str]: the end, or not a continuation byte. *)
Definition is_char_boundary (s : bytes) (i : nat) : bool :=
  match s !! i with
  | None => (i =? length s)%nat
  | Some b => negb (Z.land (b2z b) 0xC0 =? 0x80)
  end.

(** [&s[..i]] of a [str]: panics off a character boundary. *)
Definition str_slice_to (s : bytes) (i : nat) : option bytes :=
  if is_char_boundary s i then Some (take i s) else None.

(** A byte below 0x80. *)
Definition is_ascii (b : byte) : bool := b2z b <? 0x80.

Lemma strip_prefix_app p s : strip_prefix p (p ++ s) = Some s.
Proof. induction p as [|a p IH]; [done|]. simpl. by rewrite decide_True. Qed.

Lemma strip_prefix_Some p s r : strip_prefix p s = Some r ↔ s = p ++ r.
Proof.
  split; [|intros ->; apply strip_prefix_app].
  revert s. induction p as [|a p IH]; intros s; simpl; [congruence|].
  destruct s as [|b s]; [done|]. case_decide; [|done]. subst. intros ?. f_equal. by apply IH.
Qed.

Lemma split_once_app c l r : c ∉ l → split_once c (l ++ c :: r) = Some (l, r).
Proof.
  induction l as [|a l IH]; simpl; intros Hc; [by rewrite decide_True|].
  rewrite decide_False by set_solver. rewrite IH by set_solver. done.
Qed.

Lemma split_once_Some c s l r : split_once c s = Some (l, r) → s = l ++ c :: r ∧ c ∉ l.
Proof.
  revert l r. induction s as [|b s IH]; intros l r; simpl; [done|].
  case_decide; [intros; simplify_eq/=; split; [done|set_solver]|].
  destruct (split_once c s) as [[l' r']|]; [|done]. intros; simplify_eq/=.
  destruct (IH _ _ eq_refl) as [-> ?]. split; [done|set_solver].
Qed.

Lemma starts_with_app p s : starts_with p (p ++ s) = true.
Proof. unfold starts_with. by rewrite strip_prefix_app. Qed.

Lemma split_on_cons c s : ∃ p ps, split_on c s = p :: ps.
Proof.
  induction s as [|b s (p & ps & IH)]; simpl; [eauto|]. case_decide; [eauto|]. rewrite IH. eauto.
Qed.

Lemma join_split_on c s : join_with c (split_on c s) = s.
Proof.
  induction s as [|b s IH]; [done|]. simpl. destruct (split_on_cons c s) as (p & ps & E).
  rewrite E in *. case_decide; [subst; simpl; by f_equal|]. rewrite <- IH. by destruct ps.
Qed.

Lemma split_on_free c s p : p ∈ split_on c s → c ∉ p.
Proof.
  revert p. induction s as [|b s IH]; intros p; simpl.
  { intros ->%list_elem_of_singleton. apply not_elem_of_nil. }
  destruct (split_on_cons c s) as (q & ps & E). rewrite E in *.
  case_decide; intros [->|Hp]%elem_of_cons.
  - apply not_elem_of_nil.
  - by apply IH.
  - apply not_elem_of_cons. split; [done|]. apply IH. by left.
  - apply IH. by right.
Qed.

Lemma split_on_none c s : c ∉ s → split_on c s = [s].
Proof.
  induction s as [|b s IH]; intros Hc; [done|]. simpl. rewrite decide_False by set_solver.
  rewrite IH by set_solver. done.
Qed.

Lemma split_on_app c s t : split_on c (s ++ c :: t) = split_on c s ++ split_on c t.
Proof.
  induction s as [|b s IH]; cbn [app split_on]; [by rewrite decide_True|].
  case_decide; [by rewrite IH|]. rewrite IH. destruct (split_on_cons c s) as (p & ps & ->). done.
Qed.

Lemma split_on_join c p ps :
  Forall (λ q, c ∉ q) (p :: ps) → split_on c (join_with c (p :: ps)) = p :: ps.
Proof.
  revert p. induction ps as [|q ps IH]; intros p [Hp Hps]%Forall_cons.
  - by apply split_on_none.
  - change (join_with c (p :: q :: ps)) with (p ++ c :: join_with c (q :: ps)).
    by rewrite split_on_app, (split_on_none c p), IH.
Qed.

Lemma join_with_snoc c ps q :
  ps ≠ [] → join_with c (ps ++ [q]) = join_with c ps ++ c :: q.
Proof.
  induction ps as [|p ps IH]; [done|]. intros _. destruct ps as [|p' ps]; [done|].
  change (join_with c ((p :: p' :: ps) ++ [q])) with (p ++ c :: join_with c ((p' :: ps) ++ [q])).
  rewrite IH by done. change (join_with c (p :: p' :: ps)) with (p ++ c :: join_with c (p' :: ps)).
  by rewrite <- app_assoc.
Qed.

Lemma split_once_None c s : split_once c s = None ↔ c ∉ s.
Proof.
  split.
  - induction s as [|b s IH]; simpl; [intros _ ?%not_elem_of_nil; done|].
    case_decide; [done|]. destruct (split_once c s) as [[]|]; [done|]. intros _. set_solver.
  - induction s as [|b s IH]; simpl; [done|]. intros Hc.
    rewrite decide_False by set_solver. rewrite IH by set_solver. done.
Qed.

Lemma rsplit_once_app c l r : c ∉ r → rsplit_once c (l ++ c :: r) = Some (l, r).
Proof.
  intros Hc. unfold rsplit_once. rewrite rev_app_distr. cbn [rev]. rewrite <- app_assoc. cbn [app].
  rewrite (split_once_app c (rev r)).
  - simpl. by rewrite !rev_involutive.
  - by rewrite list_elem_of_In, <- in_rev, <- list_elem_of_In.
Qed.

Lemma rsplit_once_None c s : c ∉ s → rsplit_once c s = None.
Proof.
  intros Hc. unfold rsplit_once. rewrite (proj2 (split_once_None c (rev s))); [done|].
  by rewrite list_elem_of_In, <- in_rev, <- list_elem_of_In.
Qed.

#[export] Hint Rewrite strip_prefix_app starts_with_app : bytes.

(** ** u64 arithmetic *)

Definition u64_MAX : Z := 2 ^ 64 - 1.

(** [a + b]: a panic with debug assertions, wrapping without. *)
Definition u64_add {E} (debug_assertions : bool) (a b : Z) : outcome E Z :=
  if a + b <=? u64_MAX then Ok (a + b)
  else if debug_assertions then Panic else Ok ((a + b) mod 2 ^ 64).

(** [a - b] *)
Definition u64_sub {E} (debug_assertions : bool) (a b : Z) : outcome E Z :=
  if b <=? a then Ok (a - b)
  else if debug_assertions then Panic else Ok ((a - b) mod 2 ^ 64).

Definition u64_checked_add (a b : Z) : option Z :=
  if a + b <=? u64_MAX then Some (a + b) else None.
