(* ===== verification/Crates.v ===== *)
(** * Third-party crates the modelled code calls

    Each crate is a class of operations, with a class of the laws its
    documentation states; the components take them as arguments. The module
    [Models] gives a concrete instance of every class, so that hypotheses made
    of them can be met. *)

From stdpp Require Import strings.
From S2P Require Import Prelude.
#[local] Open Scope Z_scope.

(** ** [regex]

    A compiled expression is known by its pattern. [captures_read_at] gives the
    first match at or after a position: its range, and the ranges of the groups
    that took part. *)

Class Regex := {
  regex_valid : bytes → bool;
  captures_read_at : bytes → bytes → nat → option (nat * nat * list (option (nat * nat)));
}.

(** The first place at or after [pos] where the text goes on with [lit]. *)
Fixpoint find_literal (lit text : bytes) (pos : nat) : option nat :=
  if decide (take (length lit) text = lit) then Some pos
  else match text with
       | [] => None
       | _ :: text => find_literal lit text (S pos)
       end.

(** Expressions that are plain text. *)
Definition literal_regex : Regex := {|
  regex_valid _ := true;
  captures_read_at re text pos :=
    i ← find_literal re (drop pos text) pos; Some (i, (i + length re)%nat, []);
|}.

(** ** [data_encoding] *)

Inductive DecodeKind := Length | Symbol | Trailing | Padding.

Record DecodeError := mkDecodeError {
  position : nat;
  kind : DecodeKind;
}.

#[global] Instance DecodeKind_eq_dec : EqDecision DecodeKind.
Proof. solve_decision. Defined.
#[global] Instance DecodeError_eq_dec : EqDecision DecodeError.
Proof. solve_decision. Defined.

(** [BASE64_NOPAD_lax] is [BASE64_NOPAD] with [check_trailing_bits] off. *)
Class DataEncoding := {
  HEXLOWER_encode_len : nat → nat;
  HEXLOWER_encode : bytes → bytes;
  HEXLOWER_decode : bytes → DecodeError + bytes;
  BASE64_encode_len : nat → nat;
  BASE64_encode : bytes → bytes;
  BASE64_decode : bytes → DecodeError + bytes;
  BASE64_NOPAD_encode_len : nat → nat;
  BASE64_NOPAD_encode : bytes → bytes;
  BASE64_NOPAD_lax_decode : bytes → DecodeError + bytes;
}.

Definition hex_alphabet : bytes := B "0123456789abcdef".

Definition base64_alphabet : bytes :=
  B "ABCDEFGHIJKLMNOPQRSTUVWXYZabcdefghijklmnopqrstuvwxyz0123456789+/".

Class DataEncodingLaws `{DataEncoding} : Prop := {
  hex_len n : HEXLOWER_encode_len n = (2 * n)%nat;
  hex_encode_length x : length (HEXLOWER_encode x) = HEXLOWER_encode_len (length x);
  hex_roundtrip x : HEXLOWER_decode (HEXLOWER_encode x) = inr x;
  hex_decode_length s x : HEXLOWER_decode s = inr x → length s = HEXLOWER_encode_len (length x);
  hex_symbols x : Forall (.∈ hex_alphabet) (HEXLOWER_encode x);
  base64_len n : BASE64_encode_len n = (4 * ((n + 2) / 3))%nat;
  base64_nopad_len n : BASE64_NOPAD_encode_len n = ((4 * n + 2) / 3)%nat;
  base64_encode_length x : length (BASE64_encode x) = BASE64_encode_len (length x);
  base64_roundtrip x : BASE64_decode (BASE64_encode x) = inr x;
  base64_nopad_encode_length x :
    length (BASE64_NOPAD_encode x) = BASE64_NOPAD_encode_len (length x);
  base64_nopad_no_pad x : Forall (.≠ Byte.x3d) (BASE64_NOPAD_encode x);
  base64_symbols x : Forall (.∈ base64_alphabet) (BASE64_NOPAD_encode x);
  base64_pads x : ∃ k, BASE64_encode x = BASE64_NOPAD_encode x ++ replicate k Byte.x3d;
  base64_lax_roundtrip x : BASE64_NOPAD_lax_decode (BASE64_NOPAD_encode x) = inr x;
}.

(** ** [sha2] *)

Class Sha2 := Sha256 : bytes → bytes.

Class Sha2Laws `{Sha2} : Prop := sha256_length x : length (Sha256 x) = 32%nat.

(** ** [bstr]: [replace] on byte strings and [trim_end_with] *)

Class Bstr := {
  bstr_replace : bytes → bytes → bytes → bytes;
  bstr_trim_end_with : (byte → bool) → bytes → bytes;
}.

Class BstrLaws `{Bstr} : Prop := {
  replace_byte s c by_ :
    bstr_replace s [c] by_ = s ≫= (λ x, if decide (x = c) then by_ else [x]);
  trim_end_spec p s t :
    Forall (λ c, p c = true) t → (∀ c, last s = Some c → p c = false) →
    bstr_trim_end_with p (s ++ t) = s;
}.

(** ** Concrete instances *)

(** [ByteSlice::split_str] and [rsplit_once_str]: the pieces of a byte string
    around a separator, as [str::split] and [str::rsplit_once] do it. *)
Class BstrSplit := {
  split_str : bytes → bytes → list bytes;
  rsplit_once_str : bytes → bytes → option (bytes * bytes);
}.
Class BstrSplitLaws `{BstrSplit} : Prop := {
  split_str_byte s c : split_str s [c] = split_on c s;
  rsplit_once_str_byte s c : rsplit_once_str s [c] = rsplit_once c s;
}.

Module Models.

Definition hex_digit (z : Z) : byte := default Byte.x00 (hex_alphabet !! Z.to_nat z).

Fixpoint hex_encode (x : bytes) : bytes :=
  match x with
  | [] => []
  | b :: x => hex_digit (b2z b / 16) :: hex_digit (b2z b mod 16) :: hex_encode x
  end.

Fixpoint index_of (c : byte) (l : bytes) : option Z :=
  match l with
  | [] => None
  | a :: l => if decide (a = c) then Some 0 else Z.add 1 <$> index_of c l
  end.

Definition bad (k : DecodeKind) : DecodeError := mkDecodeError 0 k.

Fixpoint hex_decode (s : bytes) : DecodeError + bytes :=
  match s with
  | [] => inr []
  | [_] => inl (bad Length)
  | h :: l :: s =>
      match index_of h hex_alphabet, index_of l hex_alphabet, hex_decode s with
      | Some h, Some l, inr r => inr (z2b (16 * h + l) :: r)
      | Some _, Some _, inl e => inl e
      | _, _, _ => inl (bad Symbol)
      end
  end.

Definition b64 (z : Z) : byte := default Byte.x00 (base64_alphabet !! Z.to_nat z).
Definition of_b64 (c : byte) : option Z := index_of c base64_alphabet.

Fixpoint nopad_encode (x : bytes) : bytes :=
  match x with
  | a :: b :: c :: x =>
      let a := b2z a in let b := b2z b in let c := b2z c in
      b64 (a / 4) :: b64 (a mod 4 * 16 + b / 16) :: b64 (b mod 16 * 4 + c / 64)
        :: b64 (c mod 64) :: nopad_encode x
  | [a; b] =>
      let a := b2z a in let b := b2z b in
      [b64 (a / 4); b64 (a mod 4 * 16 + b / 16); b64 (b mod 16 * 4)]
  | [a] => let a := b2z a in [b64 (a / 4); b64 (a mod 4 * 16)]
  | [] => []
  end.

Fixpoint nopad_decode (s : bytes) : DecodeError + bytes :=
  match s with
  | w :: x :: y :: z :: s =>
      match of_b64 w, of_b64 x, of_b64 y, of_b64 z, nopad_decode s with
      | Some w, Some x, Some y, Some z, inr r =>
          inr (z2b (w * 4 + x / 16) :: z2b (x mod 16 * 16 + y / 4)
                 :: z2b (y mod 4 * 64 + z) :: r)
      | Some _, Some _, Some _, Some _, inl e => inl e
      | _, _, _, _, _ => inl (bad Symbol)
      end
  | [w; x; y] =>
      match of_b64 w, of_b64 x, of_b64 y with
      | Some w, Some x, Some y => inr [z2b (w * 4 + x / 16); z2b (x mod 16 * 16 + y / 4)]
      | _, _, _ => inl (bad Symbol)
      end
  | [w; x] =>
      match of_b64 w, of_b64 x with
      | Some w, Some x => inr [z2b (w * 4 + x / 16)]
      | _, _ => inl (bad Symbol)
      end
  | [_] => inl (bad Length)
  | [] => inr []
  end.

Definition pad_encode (x : bytes) : bytes :=
  nopad_encode x ++ replicate ((3 - length x mod 3) mod 3)%nat Byte.x3d.

Definition trim_end_with (p : byte → bool) (s : bytes) : bytes :=
  let fix go (r : bytes) := match r with
    | c :: r' => if p c then go r' else r
    | [] => []
    end in rev (go (rev s)).

(** Padded input: whole groups of four, the padding at the end, no stray bits. *)
Definition pad_decode (s : bytes) : DecodeError + bytes :=
  match nopad_decode (trim_end_with (λ c, bool_decide (c = Byte.x3d)) s) with
  | inr x => if decide (pad_encode x = s) then inr x else inl (bad Padding)
  | inl e => inl e
  end.

#[export] Instance data_encoding : DataEncoding := {|
  HEXLOWER_encode_len n := (2 * n)%nat;
  HEXLOWER_encode := hex_encode;
  HEXLOWER_decode := hex_decode;
  BASE64_encode_len n := (4 * ((n + 2) / 3))%nat;
  BASE64_encode := pad_encode;
  BASE64_decode := pad_decode;
  BASE64_NOPAD_encode_len n := ((4 * n + 2) / 3)%nat;
  BASE64_NOPAD_encode := nopad_encode;
  BASE64_NOPAD_lax_decode := nopad_decode;
|}.

Fixpoint replace_all (s : bytes) (c : byte) (by_ : bytes) : bytes :=
  match s with
  | [] => []
  | x :: s => (if decide (x = c) then by_ else [x]) ++ replace_all s c by_
  end.

#[export] Instance bstr : Bstr := {|
  bstr_replace s needle by_ := match needle with [c] => replace_all s c by_ | _ => s end;
  bstr_trim_end_with := trim_end_with;
|}.

(** Splitting at the first byte of the separator, enough for one of length 1. *)
#[export] Instance bstr_split : BstrSplit := {|
  split_str s sep := split_on (hd Byte.x00 sep) s;
  rsplit_once_str s sep := rsplit_once (hd Byte.x00 sep) s;
|}.
#[export] Instance bstr_split_laws : BstrSplitLaws.
Proof. by constructor. Qed.

(** Any function into 32 bytes; not a hash. *)
#[export] Instance sha2 : Sha2 := λ x, le_bytes 32 (le_val x + 7 * Z.of_nat (length x)).

#[export] Instance sha2_laws : Sha2Laws.
Proof. intros x. apply length_le_bytes. Qed.

Example base64_vector : pad_encode (B "fooba") = B "Zm9vYmE=" ∧ pad_decode (B "Zm9vYmE=") = inr (B "fooba").
Proof. by vm_compute. Qed.

(** A decidable fact about every [z] below [n], by evaluation. *)
Lemma range_check (n : nat) (P : Z → Prop) `{∀ z, Decision (P z)} :
  forallb (λ z, bool_decide (P z)) (Z.of_nat <$> seq 0 n) = true →
  ∀ z, 0 ≤ z < Z.of_nat n → P z.
Proof.
  rewrite forallb_forall. intros Hall z Hz. apply (bool_decide_eq_true_1 (P z)), Hall.
  apply list_elem_of_In, list_elem_of_fmap. exists (Z.to_nat z). rewrite elem_of_seq. lia.
Qed.

Lemma of_hex_digit z : 0 ≤ z < 16 → index_of (hex_digit z) hex_alphabet = Some z.
Proof. revert z. apply (range_check 16 _). by vm_compute. Qed.

Lemma hex_digit_symbol z : 0 ≤ z < 16 → hex_digit z ∈ hex_alphabet.
Proof. revert z. apply (range_check 16 _). by vm_compute. Qed.

Lemma of_b64_b64 z : 0 ≤ z < 64 → of_b64 (b64 z) = Some z.
Proof. revert z. apply (range_check 64 _). by vm_compute. Qed.

Lemma b64_not_pad z : 0 ≤ z < 64 → b64 z ≠ Byte.x3d.
Proof. revert z. apply (range_check 64 _). by vm_compute. Qed.

Lemma b64_symbol z : 0 ≤ z < 64 → b64 z ∈ base64_alphabet.
Proof. revert z. apply (range_check 64 _). by vm_compute. Qed.

Lemma z2b_eq z b : z = b2z b → z2b z = b.
Proof. intros ->. apply z2b_b2z. Qed.

Lemma hex_encode_decode x : hex_decode (hex_encode x) = inr x.
Proof.
  induction x as [|b x IH]; [done|]. cbn [hex_encode hex_decode].
  pose proof (b2z_range b). rewrite !of_hex_digit by liad. rewrite IH.
  do 2 f_equal. apply z2b_eq. liad.
Qed.

Lemma bytes_ind2 (P : bytes → Prop) :
  P [] → (∀ a, P [a]) → (∀ a b x, P x → P (a :: b :: x)) → ∀ x, P x.
Proof. intros H0 H1 H2. fix IH 1. intros [|a [|b x]]; [done|done|]. apply H2, IH. Qed.

(** Induction by groups of three, the shape of base64. *)
Lemma bytes_ind3 (P : bytes → Prop) :
  P [] → (∀ a, P [a]) → (∀ a b, P [a; b]) → (∀ a b c x, P x → P (a :: b :: c :: x)) →
  ∀ x, P x.
Proof.
  intros H0 H1 H2 H3. fix IH 1. intros [|a [|b [|c x]]]; [done|done|done|].
  apply H3, IH.
Qed.

Ltac byte_ranges :=
  repeat match goal with
  | b : Byte.byte |- _ =>
      lazymatch goal with
      | _ : 0 ≤ b2z b < 256 |- _ => fail
      | _ => pose proof (b2z_range b)
      end
  end.

Lemma nopad_encode_decode x : nopad_decode (nopad_encode x) = inr x.
Proof.
  induction x as [|a|a b|a b c x IH] using bytes_ind3; [done|..];
    cbn [nopad_encode nopad_decode]; byte_ranges;
    rewrite !of_b64_b64 by liad; rewrite ?IH; repeat f_equal; apply z2b_eq; liad.
Qed.

Lemma length_nopad_encode x : length (nopad_encode x) = ((4 * length x + 2) / 3)%nat.
Proof.
  induction x as [|a|a b|a b c x IH] using bytes_ind3; try reflexivity.
  cbn [nopad_encode length]. rewrite IH. liad.
Qed.

Lemma nopad_encode_no_pad x : Forall (.≠ Byte.x3d) (nopad_encode x).
Proof.
  induction x as [|a|a b|a b c x IH] using bytes_ind3; cbn [nopad_encode]; byte_ranges;
    repeat (constructor; [apply b64_not_pad; liad|]); done.
Qed.

Lemma nopad_encode_symbols x : Forall (.∈ base64_alphabet) (nopad_encode x).
Proof.
  induction x as [|a|a b|a b c x IH] using bytes_ind3; cbn [nopad_encode]; byte_ranges;
    repeat (constructor; [apply b64_symbol; liad|]); done.
Qed.

Lemma trim_end_with_spec p s t :
  Forall (λ c, p c = true) t → (∀ c, last s = Some c → p c = false) →
  trim_end_with p (s ++ t) = s.
Proof.
  intros Ht Hs. unfold trim_end_with. rewrite rev_app_distr. apply Forall_rev in Ht.
  induction Ht as [|c r Hc Hr IH]; cbn [app].
  - destruct s as [|c s _] using rev_ind; [done|]. rewrite rev_app_distr. simpl.
    rewrite Hs by apply last_snoc. simpl. by rewrite rev_involutive.
  - by rewrite Hc.
Qed.

Lemma trim_pad_encode x :
  trim_end_with (λ c, bool_decide (c = Byte.x3d)) (pad_encode x) = nopad_encode x.
Proof.
  apply trim_end_with_spec.
  - apply Forall_replicate. by apply bool_decide_eq_true.
  - intros c Hc. apply last_Some_elem_of in Hc. apply bool_decide_eq_false.
    by apply (proj1 (Forall_forall _ _) (nopad_encode_no_pad x)).
Qed.

Lemma pad_encode_decode x : pad_decode (pad_encode x) = inr x.
Proof.
  unfold pad_decode. rewrite trim_pad_encode, nopad_encode_decode. by rewrite decide_True.
Qed.

Lemma hex_decode_len s x : hex_decode s = inr x → length s = (2 * length x)%nat.
Proof.
  revert x. induction s as [|a|h l s IH] using bytes_ind2; intros x;
    cbn [hex_decode]; [intros; by simplify_eq|done|].
  repeat case_match; intros; simplify_eq; try done. simpl. rewrite (IH _ eq_refl). simpl. lia.
Qed.

#[export] Instance data_encoding_laws : DataEncodingLaws.
Proof.
  constructor; try done; cbn -[Nat.div Nat.mul Nat.add].
  - induction x as [|b x IH]; simpl in *; lia.
  - apply hex_encode_decode.
  - apply hex_decode_len.
  - induction x as [|b x IH]; [constructor|]. pose proof (b2z_range b). cbn [hex_encode].
    repeat (constructor; [apply hex_digit_symbol; liad|]). done.
  - intros x. unfold pad_encode. rewrite length_app, length_replicate, length_nopad_encode. liad.
  - apply pad_encode_decode.
  - apply length_nopad_encode.
  - apply nopad_encode_no_pad.
  - apply nopad_encode_symbols.
  - unfold pad_encode. eauto.
  - apply nopad_encode_decode.
Qed.

#[export] Instance bstr_laws : BstrLaws.
Proof.
  constructor; [|apply trim_end_with_spec]. intros s c by_. simpl.
  induction s as [|x s IH]; [done|]. cbn [replace_all]. by rewrite IH.
Qed.

End Models.
