(* ===== verification/StdPath.v ===== *)
(** * [std::path] on Unix: a path as its components *)

From stdpp Require Import strings.
From S2P Require Import Prelude.
#[local] Open Scope nat_scope.

(** [std::path::Component]; a [Prefix] does not occur on Unix. *)
Inductive StdComponent := RootDir | CurDir | ParentDir | Normal (s : bytes).

#[global] Instance StdComponent_eq_dec : EqDecision StdComponent.
Proof. solve_decision. Defined.

Definition component_of (s : bytes) : option StdComponent :=
  if decide (s = [] ∨ s = B ".") then None
  else if decide (s = B "..") then Some ParentDir
  else Some (Normal s).

(** [Path::components]: empty and [.] parts vanish, but for a leading [.]. *)
Definition std_components (path : bytes) : list StdComponent :=
  let parts := split_on Byte.x2f path in
  (match path with
   | c :: _ => if decide (c = Byte.x2f) then [RootDir] else
       match parts with p :: _ => if decide (p = B ".") then [CurDir] else [] | [] => [] end
   | [] => []
   end) ++ omap component_of parts.

(** [Component::as_os_str] *)
Definition as_os_str (c : StdComponent) : bytes :=
  match c with RootDir => B "/" | CurDir => B "." | ParentDir => B ".." | Normal s => s end.

(** [Path::strip_prefix], by components. *)
Fixpoint strip_components (p s : list StdComponent) : option (list StdComponent) :=
  match p, s with
  | [], _ => Some s
  | a :: p, b :: s => if decide (a = b) then strip_components p s else None
  | _, [] => None
  end.

(** [PathBuf::push] *)
Definition path_push (buf p : bytes) : bytes :=
  if starts_with (B "/") p then p
  else if (length buf =? 0)%nat || ends_with (B "/") buf then buf ++ p
  else buf ++ B "/" ++ p.

Example std_components_relative :
  std_components (B "./a//b/../c/.") = [CurDir; Normal (B "a"); Normal (B "b"); ParentDir; Normal (B "c")].
Proof. by vm_compute. Qed.
