(* ===== verification/StdText.v ===== *)
(** * Text of the standard library: decimal [u64]s, [str::lines], [str::chars] *)

From stdpp Require Import strings.
From S2P Require Import Prelude.
#[local] Open Scope Z_scope.

(** ** Decimal numbers *)

Definition dec_digit (d : Z) : byte := z2b (0x30 + d).

(** [Display for u64]: 20 digits are enough. *)
Fixpoint dec_digits (fuel : nat) (n : Z) (acc : bytes) : bytes :=
  match fuel with
  | O => acc
  | S fuel =>
      let acc := dec_digit (n mod 10) :: acc in
      if n <? 10 then acc else dec_digits fuel (n / 10) acc
  end.
Definition u64_to_string (n : Z) : bytes := dec_digits 20 n [].

Definition is_digit (b : byte) : bool := (0x30 <=? b2z b) && (b2z b <=? 0x39).

(** [u64::from_str]: an optional sign, at least one digit, checked arithmetic. *)
Fixpoint parse_digits (acc : Z) (s : bytes) : option Z :=
  match s with
  | [] => Some acc
  | b :: s =>
      if is_digit b then
        let v := acc * 10 + (b2z b - 0x30) in
        if v <? 2 ^ 64 then parse_digits v s else None
      else None
  end.
Definition u64_from_str (s : bytes) : option Z :=
  let ds := match s with b :: ds => if decide (b = Byte.x2b) then ds else s | [] => s end in
  if bool_decide (ds = []) then None else parse_digits 0 ds.

Lemma b2z_dec_digit d : 0 ≤ d < 10 → b2z (dec_digit d) = 0x30 + d.
Proof. intros. unfold dec_digit. apply b2z_z2b_small. lia. Qed.

Lemma dec_digit_digit d : 0 ≤ d < 10 → is_digit (dec_digit d) = true.
Proof.
  intros. unfold is_digit. rewrite b2z_dec_digit by done. apply andb_true_iff.
  split; apply Z.leb_le; lia.
Qed.

Lemma parse_dec_digit n d rest :
  0 ≤ d < 10 → n * 10 + d < 2 ^ 64 →
  parse_digits n (dec_digit d :: rest) = parse_digits (n * 10 + d) rest.
Proof.
  intros Hd Hn. cbn [parse_digits]. rewrite dec_digit_digit, b2z_dec_digit by done.
  replace (n * 10 + (0x30 + d - 0x30)) with (n * 10 + d) by lia.
  by rewrite (proj2 (Z.ltb_lt _ _) Hn).
Qed.

Lemma parse_dec_digits fuel n rest :
  0 ≤ n < 10 ^ Z.of_nat fuel → n < 2 ^ 64 → (0 < fuel)%nat →
  parse_digits 0 (dec_digits fuel n rest) = parse_digits n rest.
Proof.
  revert n rest. induction fuel as [|fuel IH]; intros n rest Hn Hm Hf; [lia|]. cbn [dec_digits].
  rewrite Nat2Z.inj_succ, Z.pow_succ_r in Hn by lia.
  pose proof (Z.mod_pos_bound n 10 ltac:(lia)). pose proof (Z.div_mod n 10 ltac:(lia)).
  destruct (Z.ltb_spec n 10) as [Hs|Hs].
  - rewrite parse_dec_digit by lia. f_equal. rewrite Z.mod_small; lia.
  - assert (0 < fuel)%nat by (destruct fuel; [simpl in Hn; lia|lia]).
    rewrite IH; [|split; [apply Z.div_pos|apply Z.div_lt_upper_bound]; lia|lia|done].
    rewrite parse_dec_digit by lia. f_equal. lia.
Qed.

Lemma dec_digits_Forall (P : byte → Prop) fuel n acc :
  (∀ d, 0 ≤ d < 10 → P (dec_digit d)) → Forall P acc → Forall P (dec_digits fuel n acc).
Proof.
  intros HP. revert n acc. induction fuel as [|fuel IH]; intros n acc Hacc; [done|]. cbn [dec_digits].
  assert (Forall P (dec_digit (n mod 10) :: acc)).
  { constructor; [|done]. apply HP. apply Z.mod_pos_bound. lia. }
  case_match; [done|]. by apply IH.
Qed.

Lemma u64_to_string_digits n : Forall (λ b, is_digit b = true) (u64_to_string n).
Proof. apply dec_digits_Forall; [apply dec_digit_digit|constructor]. Qed.

Lemma dec_digits_cons fuel n acc : (0 < fuel)%nat → dec_digits fuel n acc ≠ [].
Proof.
  revert n acc. induction fuel as [|fuel IH]; intros n acc Hf; [lia|]. cbn [dec_digits].
  case_match; [done|]. destruct fuel; [done|]. apply IH. lia.
Qed.

(** What is printed parses back. *)
Lemma u64_roundtrip n : 0 ≤ n < 2 ^ 64 → u64_from_str (u64_to_string n) = Some n.
Proof.
  intros Hn. pose proof (u64_to_string_digits n) as Hd. unfold u64_from_str.
  assert (u64_to_string n ≠ []) as Hne by (apply dec_digits_cons; lia).
  assert (parse_digits 0 (u64_to_string n) = Some n) as Hp.
  { unfold u64_to_string. rewrite parse_dec_digits; [done| |lia|lia].
    change (10 ^ Z.of_nat 20) with 100000000000000000000. change (2 ^ 64) with 18446744073709551616 in Hn. lia. }
  destruct (u64_to_string n) as [|b ds]; [done|]. rewrite decide_False.
  - by rewrite bool_decide_eq_false_2.
  - intros ->. by apply Forall_inv in Hd.
Qed.

(** ** [str::lines] *)

(** One carriage return before the line feed is dropped with it. *)
Definition strip_cr (l : bytes) : bytes :=
  match rev l with
  | c :: r => if decide (c = Byte.x0d) then rev r else l
  | [] => l
  end.

(** The pieces between line feeds; the last one counts if it is not empty. *)
Fixpoint lines_of (ps : list bytes) : list bytes :=
  match ps with
  | [] => []
  | [p] => if bool_decide (p = []) then [] else [p]
  | p :: ps => strip_cr p :: lines_of ps
  end.
Definition lines (s : bytes) : list bytes := lines_of (split_on Byte.x0a s).

(** A line that is given back as it is. *)
Definition line_ok (l : bytes) : Prop := (Byte.x0a ∉ l) ∧ last l ≠ Some Byte.x0d.

Lemma strip_cr_ok l : line_ok l → strip_cr l = l.
Proof.
  intros [_ Hl]. unfold strip_cr. destruct l as [|c l _] using rev_ind; [done|].
  rewrite rev_app_distr. simpl. rewrite last_snoc in Hl. rewrite decide_False by congruence. done.
Qed.

Lemma lines_cons l s : line_ok l → lines (l ++ Byte.x0a :: s) = l :: lines s.
Proof.
  intros Hl. unfold lines. rewrite split_on_app, split_on_none by apply Hl. cbn [app lines_of].
  destruct (split_on_cons Byte.x0a s) as (p & ps & ->). by rewrite strip_cr_ok.
Qed.

Lemma lines_concat ls : Forall line_ok ls → lines (ls ≫= (λ l, l ++ [Byte.x0a])) = ls.
Proof.
  induction 1 as [|l ls Hl Hls IH]; [done|]. rewrite bind_cons, <- app_assoc. cbn [app].
  rewrite lines_cons by done. by rewrite IH.
Qed.

(** ** [str::strip_suffix] *)

Definition strip_suffix (p s : bytes) : option bytes :=
  r ← strip_prefix (rev p) (rev s); Some (rev r).

Lemma strip_suffix_app p s : strip_suffix p (s ++ p) = Some s.
Proof.
  unfold strip_suffix. rewrite rev_app_distr, strip_prefix_app. simpl. by rewrite rev_involutive.
Qed.

(** ** [str::chars]: the code points of valid UTF-8 *)

Fixpoint chars (s : bytes) : list Z :=
  match s with
  | [] => []
  | a :: s =>
      if is_ascii a then b2z a :: chars s else
      match s with
      | [] => []
      | b :: s =>
          let b' := Z.land (b2z b) 0x3f in
          if b2z a <? 0xE0 then Z.land (b2z a) 0x1f * 64 + b' :: chars s else
          match s with
          | [] => []
          | c :: s =>
              let c' := Z.land (b2z c) 0x3f in
              if b2z a <? 0xF0 then Z.land (b2z a) 0x0f * 4096 + b' * 64 + c' :: chars s else
              match s with
              | [] => []
              | d :: s =>
                  Z.land (b2z a) 0x07 * 262144 + b' * 4096 + c' * 64 + Z.land (b2z d) 0x3f :: chars s
              end
          end
      end
  end.

Lemma chars_ascii s : Forall (λ b, is_ascii b = true) s → chars s = b2z <$> s.
Proof. induction 1 as [|b s Hb Hs IH]; [done|]. cbn [chars]. rewrite Hb, IH. done. Qed.

Example chars_euro : chars (z2b <$> [0x61; 0xE2; 0x82; 0xAC]) = [0x61; 0x20AC].
Proof. by vm_compute. Qed.
