(* ===== verification/BTreeMap.v ===== *)
(** * [std::collections::BTreeMap]

    A map is its list of entries in iteration order. Searching compares with
    [Ord] only, so keys that compare equal are one key; [insert] on a present
    key replaces the value and keeps the old key. *)

From stdpp Require Import strings sorting.
From S2P Require Import Prelude.
#[local] Open Scope nat_scope.

Section BTreeMap.
Context {K V : Type} `{RustOrd K}.
Implicit Types m : list (K * V).

(** [BTreeMap::get_key_value] *)
Fixpoint bt_entry (k : K) m : option (K * V) :=
  match m with
  | [] => None
  | (k', v) :: m =>
      match rcmp k k' with
      | Eq => Some (k', v)
      | _ => bt_entry k m
      end
  end.

(** [BTreeMap::get] *)
Definition bt_get (k : K) m : option V := snd <$> bt_entry k m.

(** [BTreeMap::insert] *)
Fixpoint bt_insert (k : K) (v : V) m : list (K * V) :=
  match m with
  | [] => [(k, v)]
  | (k', v') :: m' =>
      match rcmp k k' with
      | Lt => (k, v) :: m
      | Eq => (k', v) :: m'
      | Gt => (k', v') :: bt_insert k v m'
      end
  end.

(** [BTreeMap::from_iter] *)
Definition bt_of_list (l : list (K * V)) : list (K * V) :=
  foldl (λ m x, bt_insert x.1 x.2 m) [] l.

Definition bt_lt (x y : K * V) : Prop := rcmp x.1 y.1 = Lt.

Definition bt_sorted m : Prop := StronglySorted bt_lt m.

Context `{!RustOrdLaws K}.

#[global] Instance bt_lt_trans : Transitive bt_lt.
Proof. intros x y z. apply rcmp_lt_trans. Qed.

#[global] Instance bt_lt_antisym : AntiSymm (=) bt_lt.
Proof.
  intros x y Hxy Hyx. unfold bt_lt in *. rewrite (rcmp_antisym x.1 y.1), Hxy in Hyx. done.
Qed.

Lemma bt_insert_elem k v m x :
  x ∈ bt_insert k v m → x.2 = v ∧ rcmp k x.1 = Eq ∨ x ∈ m.
Proof.
  induction m as [|[k' v'] m IH]; simpl.
  - intros ->%list_elem_of_singleton. left. simpl. by rewrite rcmp_refl.
  - destruct (rcmp k k') eqn:E; rewrite !elem_of_cons; intros Hx.
    + destruct Hx as [->|?]; [left; simpl; auto|auto].
    + destruct Hx as [->|Hx]; [left; simpl; by rewrite rcmp_refl|auto].
    + naive_solver.
Qed.

Lemma bt_insert_sorted k v m : bt_sorted m → bt_sorted (bt_insert k v m).
Proof.
  induction 1 as [|[k' v'] m Hm IH Hall]; simpl; [repeat constructor|].
  destruct (rcmp k k') eqn:E.
  - constructor; [done|]. eapply Forall_impl; [exact Hall|]. intros y. done.
  - constructor; [by constructor|]. constructor; [done|].
    eapply Forall_impl; [exact Hall|]. intros y Hy. unfold bt_lt in *. simpl in *.
    by eapply rcmp_lt_trans.
  - constructor; [done|]. apply Forall_forall. intros y [[_ Hy]|Hy]%bt_insert_elem.
    + unfold bt_lt. simpl. rewrite <- (rcmp_eq_r k' _ _ Hy). by apply rcmp_gt_lt.
    + by apply (proj1 (Forall_forall _ _) Hall).
Qed.

Lemma bt_of_list_sorted l : bt_sorted (bt_of_list l).
Proof.
  unfold bt_of_list. assert (bt_sorted []) as Hs by constructor. revert Hs.
  generalize (@nil (K * V)). induction l as [|x l IH]; intros m Hm; [done|].
  apply IH. by apply bt_insert_sorted.
Qed.

Lemma bt_entry_None k m : bt_entry k m = None ↔ ∀ x, x ∈ m → rcmp k x.1 ≠ Eq.
Proof.
  induction m as [|[k' v'] m IH]; simpl.
  - split; [|done]. intros _ x Hx. by apply not_elem_of_nil in Hx.
  - destruct (rcmp k k') eqn:E.
    + split; [done|]. intros Hx. by destruct (Hx (k', v') ltac:(left) E).
    + rewrite IH. split; intros Hx x; [|by intros; apply Hx; right].
      intros [->|?]%elem_of_cons; [simpl; by rewrite E|by apply Hx].
    + rewrite IH. split; intros Hx x; [|by intros; apply Hx; right].
      intros [->|?]%elem_of_cons; [simpl; by rewrite E|by apply Hx].
Qed.

Lemma bt_insert_fresh k v m : bt_entry k m = None → bt_insert k v m ≡ₚ (k, v) :: m.
Proof.
  induction m as [|[k' v'] m IH]; simpl; [done|].
  destruct (rcmp k k'); [done|done|]. intros E. rewrite IH by done. apply Permutation_swap.
Qed.

Lemma bt_get_insert_eq k k' v m : rcmp k k' = Eq → bt_get k' (bt_insert k v m) = Some v.
Proof.
  intros E. unfold bt_get. induction m as [|[k0 v0] m IH]; simpl.
  - by rewrite (rcmp_eq_sym _ _ E).
  - destruct (rcmp k k0) eqn:E0; simpl.
    + by rewrite <- (rcmp_eq_l _ _ k0 E), E0.
    + by rewrite (rcmp_eq_sym _ _ E).
    + by rewrite <- (rcmp_eq_l _ _ k0 E), E0.
Qed.

Lemma bt_get_insert_ne k k' v m :
  rcmp k k' ≠ Eq → bt_get k' (bt_insert k v m) = bt_get k' m.
Proof.
  intros E. assert (rcmp k' k ≠ Eq) as E' by (intros E'; by apply E, rcmp_eq_sym).
  unfold bt_get. induction m as [|[k0 v0] m IH]; simpl.
  - by destruct (rcmp k' k).
  - destruct (rcmp k k0) eqn:E0; simpl.
    + destruct (rcmp k' k0) eqn:E1; [|done..].
      exfalso. apply E. by rewrite (rcmp_eq_r k k' k0) by done.
    + by destruct (rcmp k' k).
    + by destruct (rcmp k' k0).
Qed.

(** Two sorted maps with the same entries are the same. *)
Lemma bt_sorted_perm m1 m2 : bt_sorted m1 → bt_sorted m2 → m1 ≡ₚ m2 → m1 = m2.
Proof. intros. by apply (StronglySorted_unique bt_lt). Qed.

Lemma bt_sorted_cons x m : bt_sorted (x :: m) ↔ Forall (bt_lt x) m ∧ bt_sorted m.
Proof. split; [by inversion 1|]. intros [? ?]. by constructor. Qed.

(** A sorted list inserted in any order gives itself. *)
Lemma bt_insert_last k v m : Forall (λ x, rcmp x.1 k = Lt) m → bt_insert k v m = m ++ [(k, v)].
Proof.
  induction 1 as [|[k' v'] m E Hm IH]; simpl; [done|]. simpl in E.
  rewrite (proj2 (rcmp_gt_lt k k') E). by rewrite IH.
Qed.

Lemma bt_entry_last k m : Forall (λ x, rcmp x.1 k = Lt) m → bt_entry k m = None.
Proof.
  intros Hm. apply bt_entry_None. intros x Hx E. apply (proj1 (Forall_forall _ _) Hm) in Hx.
  by rewrite (rcmp_eq_sym _ _ E) in Hx.
Qed.

Lemma bt_sorted_middle m x l : bt_sorted (m ++ x :: l) → Forall (λ y, rcmp y.1 x.1 = Lt) m.
Proof.
  induction m as [|y m IH]; cbn [app]; [constructor|]. intros [Hy Hm]%bt_sorted_cons.
  constructor; [|by apply IH]. apply Forall_app in Hy as [_ Hy]. by inversion Hy.
Qed.

(** Inserting the next entry of a sorted list, which is not there yet. *)
Lemma bt_insert_next k v m l :
  bt_sorted (m ++ (k, v) :: l) → bt_entry k m = None ∧ bt_insert k v m = m ++ [(k, v)].
Proof.
  intros Hm%bt_sorted_middle. split; [by apply bt_entry_last|by apply bt_insert_last].
Qed.

Lemma bt_of_list_id l : bt_sorted l → bt_of_list l = l.
Proof.
  unfold bt_of_list. change l with ([] ++ l) at 1. rewrite <- (app_nil_l l) at 3.
  generalize (@nil (K * V)). induction l as [|[k v] l IH]; intros m Hl; [by rewrite app_nil_r|].
  cbn [foldl fst snd]. rewrite (proj2 (bt_insert_next _ _ _ _ Hl)).
  rewrite (app_assoc m [(k, v)] l : m ++ (k, v) :: l = _) in Hl |- *. by apply IH.
Qed.

(** With an [Ord] that agrees with equality. *)
Context `{!RustOrdEq K}.

Lemma bt_entry_key k m k' v : bt_entry k m = Some (k', v) → k' = k ∧ (k, v) ∈ m.
Proof.
  induction m as [|[k0 v0] m IH]; simpl; [done|]. destruct (rcmp k k0) eqn:E.
  - intros [= <- <-]. apply rcmp_eq in E as <-. split; [done|left].
  - intros [-> ?]%IH. split; [done|]. by right.
  - intros [-> ?]%IH. split; [done|]. by right.
Qed.

Lemma bt_entry_fresh k m : bt_entry k m = None ↔ k ∉ m.*1.
Proof.
  rewrite bt_entry_None, list_elem_of_fmap. split.
  - intros Hn (x & -> & Hx). apply (Hn x Hx), rcmp_refl.
  - intros Hn x Hx E. apply Hn. exists x. split; [by apply rcmp_eq|done].
Qed.

Lemma bt_sorted_NoDup m : bt_sorted m → NoDup m.*1.
Proof.
  induction 1 as [|x m Hm IH Hall]; simpl; constructor; [|done].
  rewrite list_elem_of_fmap. intros (y & E & Hy). apply (proj1 (Forall_forall _ _) Hall) in Hy.
  unfold bt_lt in Hy. by rewrite E, rcmp_refl in Hy.
Qed.

End BTreeMap.

(** ** [std::collections::BTreeSet]: a map to [()] *)

Abbreviation BTreeSet K := (list (K * unit)).

Definition bs_insert `{RustOrd K} (k : K) (s : BTreeSet K) : BTreeSet K := bt_insert k tt s.

Definition bs_contains `{RustOrd K} (k : K) (s : BTreeSet K) : bool :=
  match bt_entry k s with Some _ => true | None => false end.

(** [BTreeSet::from_iter] *)
Definition bs_of_list `{RustOrd K} (l : list K) : BTreeSet K :=
  bt_of_list ((λ k, (k, tt)) <$> l).

#[export] Hint Resolve bt_insert_sorted bt_of_list_sorted : core.
