(* ===== verification/NixBase32.v ===== *)
(** * [nix-compat/src/nixbase32.rs]: Nix's own base32

    The encoder reads 5-bit words out of the input, most significant word
    first; the decoder rebuilds the bytes with a carry and rejects a wrong
    length, an unknown symbol and left-over high bits. Lengths ([usize]) are
    [nat]; [u8]/[u16] words are [Z] with the Rust shifts and masks. *)

From stdpp Require Import strings.
From S2P Require Import Prelude Crates.
#[local] Open Scope Z_scope.

Definition ALPHABET : bytes := B "0123456789abcdfghijklmnpqrsvwxyz".

Definition decode_len (len : nat) : nat := (len * 5) / 8.

Definition encode_len (len : nat) : nat := (len * 8 + 4) / 5.

(** One iteration of the loop of [encode]; [None] is an index out of range. *)
Definition encode_char (input : bytes) (n : nat) : option byte :=
  let b := (n * 5)%nat in
  let i := (b / 8)%nat in
  let j := (b mod 8)%nat in
  lo ← input !! i;
  let word :=
    match input !! (i + 1)%nat with
    | Some msb => Z.lor (b2z lo) (Z.shiftl (b2z msb) 8)
    | None => b2z lo
    end in
  let c := Z.land (Z.shiftr word (Z.of_nat j)) 0x1f in
  ALPHABET !! Z.to_nat c.

(** [encode], with [None] for a panic; [encode] is its value, which
    [encode_checked_Some] shows to exist for every input. *)
Definition encode_checked (input : bytes) : option bytes :=
  mapM (encode_char input) (rev (seq 0 (encode_len (length input)))).

Definition encode (input : bytes) : bytes := default [] (encode_checked input).

(** The [while let] that fills [BASE32_ORD]. *)
Fixpoint base32_ord_fill (ord : list Z) (alphabet : bytes) (i : Z) : list Z :=
  match alphabet with
  | [] => ord
  | c :: tail => base32_ord_fill (<[Z.to_nat (b2z c) := i]> ord) tail (i + 1)
  end.

Definition BASE32_ORD : list Z :=
  Eval vm_compute in base32_ord_fill (replicate 256 0xFF) ALPHABET 0.

(** [BASE32_ORD[c as usize]]: the table has 256 entries, so no index panics. *)
Definition base32_ord (c : byte) : Z := default 0 (BASE32_ORD !! Z.to_nat (b2z c)).

(** The [for] loop of [decode_inner] over the reversed input, from count [n]. *)
Fixpoint decode_loop (n : nat) (cs : bytes) (output : bytes) (carry mask : Z)
    : option (bytes * Z * Z) :=
  match cs with
  | [] => Some (output, carry, mask)
  | c :: cs =>
      let b := (n * 5)%nat in
      let i := (b / 8)%nat in
      let j := (b mod 8)%nat in
      let digit := base32_ord c in
      let value := Z.shiftl digit (Z.of_nat j) in
      o ← output !! i;
      let output := <[i := z2b (Z.lor (b2z o) (Z.lor (value mod 256) carry))]> output in
      decode_loop (S n) cs output (Z.shiftr value 8 mod 256) (Z.lor mask digit)
  end.

Fixpoint find_invalid_from (i : nat) (input : bytes) : option nat :=
  match input with
  | [] => None
  | c :: input =>
      if decide (c ∈ ALPHABET) then find_invalid_from (S i) input else Some i
  end.

(** [None] is the final [unreachable!()]. *)
Definition find_invalid (input : bytes) : option nat := find_invalid_from 0 input.

Definition decode_inner (input output : bytes) : outcome DecodeError bytes :=
  let? (output, carry, mask) := or_panic (decode_loop 0 (rev input) output 0 0) in
  if Z.eqb mask 0xFF then
    let? p := or_panic (find_invalid input) in
    Err (mkDecodeError p Symbol)
  else if negb (Z.eqb carry 0) then Err (mkDecodeError 0 Trailing)
  else Ok output.

Definition decode (input : bytes) : outcome DecodeError bytes :=
  let output_len := decode_len (length input) in
  if negb (length input =? encode_len output_len)%nat then
    Err (mkDecodeError (Nat.min (length input) (encode_len output_len)) Length)
  else decode_inner input (replicate output_len Byte.x00).

Definition decode_fixed (K : nat) (input : bytes) : outcome DecodeError bytes :=
  if negb (length input =? encode_len K)%nat then
    Err (mkDecodeError (Nat.min (length input) (encode_len K)) Length)
  else decode_inner input (replicate K Byte.x00).

(** Test vectors of the source. *)
Definition hex_test := map z2b [0x8a;0x12;0x32;0x15;0x22;0xfd;0x91;0xef;0xbd;0x60;0xeb;0xb2;0x48;0x1a;0xf8;0x85;0x80;0xf6;0x16;0x00].
Example encode_vector : encode hex_test = B "00bgd045z0d4icpbc2yyz4gx48ak44la".
Proof. vm_compute. reflexivity. Qed.
Example decode_vector : decode (B "00bgd045z0d4icpbc2yyz4gx48ak44la") = Ok hex_test.
Proof. vm_compute. reflexivity. Qed.
Example decode_vector_zz : decode (B "zz") = Err (mkDecodeError 0 Trailing).
Proof. vm_compute. reflexivity. Qed.
Example decode_vector_0zz : decode (B "0zz") = Err (mkDecodeError 2 Length).
Proof. vm_compute. reflexivity. Qed.

(** ** The encoder reads base-32 digits of the little-endian value *)

Lemma encode_index_bound k n : (n < encode_len k)%nat → (n * 5 / 8 < k)%nat.
Proof. unfold encode_len. intros. liad. Qed.

Lemma word_le_val input i lo :
  input !! i = Some lo →
  match input !! (i + 1)%nat with
  | Some msb => Z.lor (b2z lo) (Z.shiftl (b2z msb) 8)
  | None => b2z lo
  end = (le_val input / 256 ^ Z.of_nat i) mod 65536.
Proof.
  intros Hlo. pose proof (lookup_lt_Some _ _ _ Hlo) as Hi.
  rewrite <- le_val_drop by lia. rewrite (drop_S _ _ _ Hlo). cbn [le_val].
  replace (i + 1)%nat with (S i) by lia.
  pose proof (b2z_range lo).
  destruct (input !! S i) as [msb|] eqn:Hm.
  - rewrite (drop_S _ _ _ Hm). cbn [le_val]. pose proof (b2z_range msb).
    rewrite lor_shiftl_add by lia. liad.
  - apply lookup_ge_None in Hm. rewrite drop_ge by lia. simpl. liad.
Qed.

Lemma digit_of_word (D j : Z) :
  0 ≤ j < 8 →
  Z.land (Z.shiftr (D mod 65536) j) 0x1f = (D / 2 ^ j) mod 32.
Proof.
  intros Hj. rewrite land_0x1f, Z.shiftr_div_pow2 by lia.
  assert (j = 0 ∨ j = 1 ∨ j = 2 ∨ j = 3 ∨ j = 4 ∨ j = 5 ∨ j = 6 ∨ j = 7)
    as [-> | [-> | [-> | [-> | [-> | [-> | [-> | ->]]]]]]] by lia;
    simpl Z.pow; liad.
Qed.

Lemma pow_split (n : nat) :
  32 ^ Z.of_nat n = 256 ^ Z.of_nat (n * 5 / 8) * 2 ^ Z.of_nat (n * 5 mod 8).
Proof.
  change 32 with (2 ^ 5). change 256 with (2 ^ 8).
  rewrite <- !Z.pow_mul_r, <- Z.pow_add_r by lia. f_equal.
  pose proof (Nat.div_mod_eq (n * 5) 8). lia.
Qed.

Lemma encode_char_spec input n :
  (n < encode_len (length input))%nat →
  encode_char input n = ALPHABET !! Z.to_nat ((le_val input / 32 ^ Z.of_nat n) mod 32).
Proof.
  intros Hn. unfold encode_char.
  destruct (lookup_lt_is_Some_2 input (n * 5 / 8)) as [lo Hlo];
    [by apply encode_index_bound|].
  rewrite Hlo. cbn [mbind option_bind].
  rewrite (word_le_val _ _ _ Hlo), digit_of_word by liad.
  by rewrite pow_split, Z.div_div by lia.
Qed.

(** ** The alphabet and its table are inverse to each other *)

Lemma base32_ord_symbol c : c ∈ ALPHABET ↔ base32_ord c < 32.
Proof.
  rewrite <- (bool_decide_spec (c ∈ ALPHABET)), <- (bool_decide_spec (base32_ord c < 32)).
  by destruct c.
Qed.

Lemma base32_ord_range c : 0 ≤ base32_ord c < 32 ∨ base32_ord c = 0xFF.
Proof. destruct c; vm_compute; intuition congruence. Qed.

Lemma ALPHABET_base32_ord c :
  base32_ord c < 32 → ALPHABET !! Z.to_nat (base32_ord c) = Some c.
Proof. destruct c; vm_compute; congruence. Qed.

Lemma digit_cases (P : Z → Prop) :
  Forall P (Z.of_nat <$> seq 0 32) → ∀ d, 0 ≤ d < 32 → P d.
Proof.
  rewrite Forall_forall. intros H d Hd. apply H.
  apply list_elem_of_fmap. exists (Z.to_nat d). rewrite elem_of_seq. lia.
Qed.

Lemma ALPHABET_lookup d :
  0 ≤ d < 32 → ∃ c, ALPHABET !! Z.to_nat d = Some c ∧ base32_ord c = d.
Proof.
  revert d. apply digit_cases. repeat constructor; vm_compute; eauto.
Qed.

Lemma mod32_digit z : 0 ≤ z mod 32 < 32.
Proof. apply Z.mod_pos_bound. lia. Qed.
#[local] Hint Resolve mod32_digit : bytes.

(** The symbol for a digit, total on digits. *)
Definition symbol (d : Z) : byte := default Byte.x00 (ALPHABET !! Z.to_nat d).

Lemma base32_ord_symbol_of d : 0 ≤ d < 32 → base32_ord (symbol d) = d.
Proof. intros Hd. destruct (ALPHABET_lookup d Hd) as (c & Hc & ?). unfold symbol. by rewrite Hc. Qed.

Lemma symbol_base32_ord c : base32_ord c < 32 → symbol (base32_ord c) = c.
Proof. intros Hc. unfold symbol. by rewrite ALPHABET_base32_ord. Qed.

(** The base-32 digits of a value, least significant first. *)
Definition digits_of (len : nat) (V : Z) : list Z :=
  (λ n : nat, (V / 32 ^ Z.of_nat n) mod 32) <$> seq 0 len.

Lemma encode_checked_Some input :
  encode_checked input =
    Some (rev (symbol <$> digits_of (encode_len (length input)) (le_val input))).
Proof.
  unfold encode_checked, digits_of. rewrite <- list_fmap_compose, <- map_rev.
  apply mapM_Some, Forall2_fmap_r. apply Forall_Forall2_diag, Forall_forall.
  intros n Hn. apply list_elem_of_In, in_rev, list_elem_of_In, elem_of_seq in Hn.
  rewrite encode_char_spec by lia. unfold symbol, compose.
  destruct (ALPHABET_lookup ((le_val input / 32 ^ Z.of_nat n) mod 32)) as (c & -> & _);
    auto with bytes.
Qed.

Lemma encode_digits input :
  encode input = rev (symbol <$> digits_of (encode_len (length input)) (le_val input)).
Proof. unfold encode. by rewrite encode_checked_Some. Qed.

Lemma length_encode input : length (encode input) = encode_len (length input).
Proof. rewrite encode_digits. unfold digits_of. by rewrite length_rev, !length_fmap, length_seq. Qed.

Lemma encode_symbols input : Forall (λ c, base32_ord c < 32) (encode input).
Proof.
  rewrite encode_digits. apply Forall_rev, Forall_fmap. unfold digits_of.
  apply Forall_fmap, Forall_forall. intros n _. unfold compose.
  rewrite base32_ord_symbol_of; apply mod32_digit.
Qed.

(** ** The decoder accumulates those digits *)

Fixpoint digits_val (ds : list Z) : Z :=
  match ds with
  | [] => 0
  | d :: ds => d + 32 * digits_val ds
  end.

Lemma pow32_S (n : nat) : 32 ^ Z.of_nat (S n) = 32 * 32 ^ Z.of_nat n.
Proof. rewrite Nat2Z.inj_succ, Z.pow_succ_r; lia. Qed.

Lemma digits_val_range ds :
  Forall (λ d, 0 ≤ d < 32) ds → 0 ≤ digits_val ds < 32 ^ Z.of_nat (length ds).
Proof.
  induction 1; [simpl; lia|]. cbn [length digits_val]. rewrite pow32_S. lia.
Qed.

Lemma digits_of_S len V : digits_of (S len) V = V mod 32 :: digits_of len (V / 32).
Proof.
  unfold digits_of. cbn [seq fmap list_fmap]. f_equal.
  - by rewrite Z.div_1_r.
  - rewrite <- fmap_S_seq, <- list_fmap_compose. apply list_fmap_ext. intros _ n _.
    unfold compose. by rewrite pow32_S, Z.div_div by lia.
Qed.

Lemma digits_val_of len V : digits_val (digits_of len V) = V mod 32 ^ Z.of_nat len.
Proof.
  revert V. induction len as [|len IH]; intros V; [simpl; by rewrite Z.mod_1_r|].
  rewrite digits_of_S. cbn [digits_val]. rewrite IH, pow32_S, Z.rem_mul_r; lia.
Qed.

Lemma digits_of_val ds :
  Forall (λ d, 0 ≤ d < 32) ds → digits_of (length ds) (digits_val ds) = ds.
Proof.
  induction 1; [done|]. cbn [length digits_val]. rewrite digits_of_S. f_equal.
  - liad.
  - transitivity (digits_of (length l) (digits_val l)); [f_equal; liad|done].
Qed.

(** One digit [d] shifted by [j] onto the [j] bits [v] already in the byte. *)
Lemma decode_step_byte (j d v : Z) :
  0 ≤ j < 8 → 0 ≤ d < 32 → 0 ≤ v < 2 ^ j →
  Z.lor v (Z.shiftl d j mod 256) = (v + d * 2 ^ j) mod 256 ∧
  Z.shiftr (Z.shiftl d j) 8 mod 256 = (v + d * 2 ^ j) / 256.
Proof.
  intros Hj Hd Hv.
  assert (Z.shiftl d j mod 256 = Z.shiftl (d mod 2 ^ (8 - j)) j) as Hm.
  { rewrite !Z.shiftl_mul_pow2 by lia. change 256 with (2 ^ 8).
    replace 8 with ((8 - j) + j) at 1 by lia.
    rewrite Z.pow_add_r by lia. by rewrite Z.mul_mod_distr_r by lia. }
  rewrite Hm, lor_shiftl_add by lia. rewrite Z.shiftr_div_pow2, Z.shiftl_mul_pow2 by lia.
  clear Hm.
  assert (j = 0 ∨ j = 1 ∨ j = 2 ∨ j = 3 ∨ j = 4 ∨ j = 5 ∨ j = 6 ∨ j = 7)
    as [-> | [-> | [-> | [-> | [-> | [-> | [-> | ->]]]]]]] by lia;
    simpl Z.sub in *; simpl Z.pow in *; split; liad.
Qed.

(** The state of the loop after [n] digits of total value [W]: the bytes below
    the current one are final, the current byte and the carry hold the rest. *)
Record decode_inv (n : nat) (output : bytes) (carry W : Z) : Prop := {
  di_range : 0 ≤ W < 32 ^ Z.of_nat n;
  di_low : le_val (take (n * 5 / 8) output) = W mod 256 ^ Z.of_nat (n * 5 / 8);
  di_cur : Z.lor (b2z (default Byte.x00 (output !! (n * 5 / 8)%nat))) carry
           = W / 256 ^ Z.of_nat (n * 5 / 8);
  di_high : le_val (drop (S (n * 5 / 8)) output) = 0;
}.

Lemma decode_value_step (n : nat) (W d : Z) :
  let i := (n * 5 / 8)%nat in
  let j := Z.of_nat (n * 5 mod 8) in
  0 ≤ d < 32 → 0 ≤ W < 32 ^ Z.of_nat n →
  0 ≤ W / 256 ^ Z.of_nat i < 2 ^ j ∧
  (W + d * 32 ^ Z.of_nat n) / 256 ^ Z.of_nat i = W / 256 ^ Z.of_nat i + d * 2 ^ j ∧
  (W + d * 32 ^ Z.of_nat n) mod 256 ^ Z.of_nat i = W mod 256 ^ Z.of_nat i ∧
  0 ≤ W + d * 32 ^ Z.of_nat n < 32 ^ Z.of_nat (S n).
Proof.
  intros i j Hd HW. assert (0 < 256 ^ Z.of_nat i) as Hp by lia.
  assert (W + d * 32 ^ Z.of_nat n = W + (d * 2 ^ j) * 256 ^ Z.of_nat i) as E.
  { rewrite pow_split. fold i. fold j. lia. }
  split_and!.
  - apply Z.div_pos; lia.
  - apply Z.div_lt_upper_bound; [lia|]. rewrite pow_split in HW. fold i j in HW. lia.
  - by rewrite E, Z.div_add by lia.
  - by rewrite E, Z_mod_plus_full.
  - nia.
  - rewrite pow32_S. nia.
Qed.

Lemma le_val_drop_zero k bs :
  le_val (drop k bs) = 0 →
  b2z (default Byte.x00 (bs !! k)) = 0 ∧ le_val (drop (S k) bs) = 0.
Proof.
  intros H. destruct (bs !! k) as [o|] eqn:Ho.
  - rewrite (drop_S _ _ _ Ho) in H. cbn [le_val] in H. simpl.
    pose proof (b2z_range o). pose proof (le_val_range (drop (S k) bs)). lia.
  - apply lookup_ge_None in Ho. by rewrite drop_ge by lia.
Qed.

Lemma digit_fits (j : nat) (v d : Z) :
  (j < 3)%nat → 0 ≤ d < 32 → 0 ≤ v < 2 ^ Z.of_nat j → 0 ≤ v + d * 2 ^ Z.of_nat j < 256.
Proof.
  intros Hj Hd. destruct j as [|[|[|j]]]; [simpl; lia..|lia].
Qed.

Lemma next_index (n : nat) :
  (S n * 5 / 8 = n * 5 / 8 ∧ n * 5 mod 8 < 3 ∨ S n * 5 / 8 = S (n * 5 / 8))%nat.
Proof. liad. Qed.

(** The digit stays inside the current byte. *)
Lemma decode_inv_same n output carry W W' x carry' :
  let i := (n * 5 / 8)%nat in
  (S n * 5 / 8)%nat = i → (i < length output)%nat →
  decode_inv n output carry W → 0 ≤ W' < 32 ^ Z.of_nat (S n) →
  W' mod 256 ^ Z.of_nat i = W mod 256 ^ Z.of_nat i →
  0 ≤ W' / 256 ^ Z.of_nat i < 256 →
  x = z2b ((W' / 256 ^ Z.of_nat i) mod 256) → carry' = W' / 256 ^ Z.of_nat i / 256 →
  decode_inv (S n) (<[i := x]> output) carry' W'.
Proof.
  intros i Hi' Hi [HW Hlow Hcur Hhigh] HW' Hm Hs -> ->. fold i in Hlow, Hcur, Hhigh.
  constructor; [done|rewrite Hi'..].
  - rewrite take_insert_ge by lia. by rewrite Hlow, Hm.
  - rewrite list_lookup_insert_eq by done. simpl.
    rewrite b2z_z2b, Z.mod_mod, (Z.div_small _ 256), Z.lor_0_r, Z.mod_small; lia.
  - by rewrite drop_insert_lt by lia.
Qed.

(** The digit completes the current byte. *)
Lemma decode_inv_next n output carry W W' x carry' :
  let i := (n * 5 / 8)%nat in
  (S n * 5 / 8)%nat = S i → (i < length output)%nat →
  decode_inv n output carry W → 0 ≤ W' < 32 ^ Z.of_nat (S n) →
  W' mod 256 ^ Z.of_nat i = W mod 256 ^ Z.of_nat i →
  x = z2b ((W' / 256 ^ Z.of_nat i) mod 256) → carry' = W' / 256 ^ Z.of_nat i / 256 →
  decode_inv (S n) (<[i := x]> output) carry' W'.
Proof.
  intros i Hi' Hi [HW Hlow Hcur Hhigh] HW' Hm -> ->. fold i in Hlow, Hcur, Hhigh.
  apply le_val_drop_zero in Hhigh as [Hz Hhigh].
  constructor; [done|rewrite Hi'..].
  - erewrite take_S_r by (by apply list_lookup_insert_eq).
    rewrite take_insert_ge, le_val_app, length_take_le by lia. cbn [le_val].
    rewrite b2z_z2b, Z.mod_mod, Hlow, <- Hm by lia.
    rewrite pow256_S, (Z.mul_comm 256 (256 ^ _)), Z.rem_mul_r by lia. lia.
  - rewrite list_lookup_insert_ne, Hz, Z.lor_0_l by lia.
    by rewrite pow256_S, (Z.mul_comm 256 (256 ^ _)), <- Z.div_div by lia.
  - by rewrite drop_insert_lt by lia.
Qed.

Lemma decode_inv_step n output carry W d o :
  let i := (n * 5 / 8)%nat in
  let value := Z.shiftl d (Z.of_nat (n * 5 mod 8)) in
  0 ≤ d < 32 → output !! i = Some o →
  decode_inv n output carry W →
  decode_inv (S n)
    (<[i := z2b (Z.lor (b2z o) (Z.lor (value mod 256) carry))]> output)
    (Z.shiftr value 8 mod 256) (W + d * 32 ^ Z.of_nat n).
Proof.
  intros i value Hd Ho Hinv. pose proof (lookup_lt_Some _ _ _ Ho) as Hi.
  pose proof (di_cur _ _ _ _ Hinv) as Hcur. fold i in Hcur. rewrite Ho in Hcur. simpl in Hcur.
  destruct (decode_value_step n W d Hd (di_range _ _ _ _ Hinv)) as (Hv & Hdiv & Hmod & HW').
  fold i in Hv, Hdiv, Hmod. set (j := (n * 5 mod 8)%nat) in *.
  destruct (decode_step_byte (Z.of_nat j) d (W / 256 ^ Z.of_nat i)) as [Hb Hc];
    [unfold j; liad|done|done|].
  fold value in Hb, Hc. rewrite <- Hdiv in Hb, Hc.
  rewrite (Z.lor_comm (value mod 256)), Z.lor_assoc, Hcur, Hb, Hc.
  destruct (next_index n) as [[Hi' Hj] | Hi'].
  - apply (decode_inv_same _ _ _ _ _ _ _ Hi' Hi Hinv HW' Hmod); [|done..]. fold i.
    rewrite Hdiv. by apply digit_fits.
  - by apply (decode_inv_next _ _ _ _ _ _ _ Hi' Hi Hinv HW' Hmod).
Qed.

(** Every index of the loop is in range, and the mask collects the digits. *)
Lemma decode_loop_total n cs output carry mask k :
  (n + length cs ≤ encode_len k)%nat → length output = k →
  ∃ output' carry',
    decode_loop n cs output carry mask =
      Some (output', carry', foldl Z.lor mask (base32_ord <$> cs)) ∧
    length output' = k.
Proof.
  revert n output carry mask. induction cs as [|c cs IH]; intros n output carry mask Hn Hk;
    cbn [decode_loop]; [eauto|].
  cbn [length] in Hn.
  destruct (lookup_lt_is_Some_2 output (n * 5 / 8)) as [o Ho];
    [rewrite Hk; apply encode_index_bound; lia|].
  rewrite Ho. apply IH; [lia|]. by rewrite length_insert.
Qed.

Lemma decode_loop_inv n cs output carry mask W k output' carry' mask' :
  (n + length cs ≤ encode_len k)%nat → length output = k →
  Forall (λ c, base32_ord c < 32) cs →
  decode_inv n output carry W →
  decode_loop n cs output carry mask = Some (output', carry', mask') →
  decode_inv (n + length cs) output' carry'
    (W + 32 ^ Z.of_nat n * digits_val (base32_ord <$> cs)).
Proof.
  revert n output carry mask W.
  induction cs as [|c cs IH]; intros n output carry mask W Hn Hk Hcs Hinv Hl.
  { cbn in Hl. simplify_eq. cbn [length fmap list_fmap digits_val].
    by rewrite Nat.add_0_r, Z.mul_0_r, Z.add_0_r. }
  cbn [length] in Hn. apply Forall_cons in Hcs as [Hc Hcs].
  destruct (lookup_lt_is_Some_2 output (n * 5 / 8)) as [o Ho];
    [rewrite Hk; apply encode_index_bound; lia|].
  cbn [decode_loop] in Hl. rewrite Ho in Hl.
  assert (0 ≤ base32_ord c < 32) as Hd by (destruct (base32_ord_range c); lia).
  cbn [length fmap list_fmap digits_val]. rewrite <- Nat.add_succ_comm.
  apply (IH (S n)) with (W := W + base32_ord c * 32 ^ Z.of_nat n) in Hl;
    [|lia|by rewrite length_insert|done|by apply decode_inv_step].
  rewrite pow32_S in Hl. revert Hl. by match goal with |- decode_inv _ _ _ ?a → decode_inv _ _ _ ?b =>
    replace b with a by lia end.
Qed.

Lemma decode_inv_0 k : decode_inv 0 (replicate k Byte.x00) 0 0.
Proof.
  constructor; simpl; [lia|done| |].
  - destruct k; reflexivity.
  - rewrite drop_replicate. apply le_val_replicate0.
Qed.

Lemma lor_digits a b : 0 ≤ a < 32 → 0 ≤ b < 32 → 0 ≤ Z.lor a b < 32.
Proof.
  intros Ha Hb. rewrite <- (Z.mod_small a 32), <- (Z.mod_small b 32) by done.
  rewrite <- !(Z.land_ones _ 5), <- Z.land_lor_distr_l, Z.land_ones by lia.
  apply mod32_digit.
Qed.

Lemma lor_ff a : 0 ≤ a < 32 → Z.lor a 0xFF = 0xFF.
Proof. revert a. apply digit_cases. repeat constructor. Qed.

Lemma lor_ff_l c : Z.lor 0xFF (base32_ord c) = 0xFF.
Proof. destruct c; reflexivity. Qed.

Lemma mask_invalid cs : foldl Z.lor 0xFF (base32_ord <$> cs) = 0xFF.
Proof. induction cs as [|c cs IH]; [done|]. cbn [fmap list_fmap foldl]. by rewrite lor_ff_l. Qed.

(** The digits are below 32 or 0xFF, so the accumulated mask is 0xFF exactly
    when some symbol was unknown. *)
Lemma mask_ff_from cs m :
  0 ≤ m < 32 →
  foldl Z.lor m (base32_ord <$> cs) = 0xFF ↔ ¬ Forall (λ c, base32_ord c < 32) cs.
Proof.
  revert m. induction cs as [|c cs IH]; intros m Hm; cbn [fmap list_fmap foldl].
  - split; [lia|]. intros H. by destruct H.
  - rewrite Forall_cons. destruct (base32_ord_range c) as [Hc | Hc].
    + rewrite IH by (by apply lor_digits). tauto.
    + rewrite Hc, lor_ff, mask_invalid by done. split; [intros _ [? _]; lia|done].
Qed.

(** ** The decoder against a reference

    The reference reads the symbols as one base-32 number and answers its
    bytes, if the number fits into [k] of them. *)

Definition decode_reference (k : nat) (input : bytes) : outcome DecodeError bytes :=
  match list_find (λ c, c ∉ ALPHABET) input with
  | Some (p, _) => Err (mkDecodeError p Symbol)
  | None =>
      let W := digits_val (base32_ord <$> rev input) in
      if decide (W < 256 ^ Z.of_nat k) then Ok (le_bytes k W)
      else Err (mkDecodeError 0 Trailing)
  end.

Lemma find_invalid_list_find input :
  find_invalid input = fst <$> list_find (λ c, c ∉ ALPHABET) input.
Proof.
  unfold find_invalid. enough (∀ i, find_invalid_from i input =
    (λ x, i + fst x)%nat <$> list_find (λ c, c ∉ ALPHABET) input) as ->.
  { by destruct (list_find _ _) as [[??]|]. }
  induction input as [|c input IH]; intros i; [done|].
  cbn [find_invalid_from list_find]. destruct (decide (c ∈ ALPHABET)).
  - rewrite decide_False by naive_solver. rewrite IH.
    destruct (list_find _ _) as [[p c']|]; [|done]. cbn. f_equal. lia.
  - rewrite decide_True by done. cbn. f_equal. lia.
Qed.

Lemma encode_len_index k : (encode_len k * 5 / 8 = k)%nat.
Proof. unfold encode_len. liad. Qed.

Lemma list_find_valid input :
  list_find (λ c, c ∉ ALPHABET) input = None ↔ Forall (λ c, base32_ord c < 32) (rev input).
Proof.
  rewrite list_find_None. split; intros H.
  - apply Forall_rev. eapply Forall_impl; [exact H|]. simpl. intros c Hc.
    apply base32_ord_symbol. destruct (decide (c ∈ ALPHABET)); naive_solver.
  - apply Forall_rev in H. rewrite rev_involutive in H.
    eapply Forall_impl; [exact H|]. simpl. intros c Hc. apply base32_ord_symbol in Hc. naive_solver.
Qed.

Lemma decode_inner_spec k input :
  length input = encode_len k →
  decode_inner input (replicate k Byte.x00) = decode_reference k input.
Proof.
  intros Hl. unfold decode_inner, decode_reference.
  destruct (decode_loop_total 0 (rev input) (replicate k Byte.x00) 0 0 k)
    as (output & carry & Hloop & Hk); [rewrite length_rev; lia|apply length_replicate|].
  rewrite Hloop. cbn [or_panic obind].
  destruct (list_find _ input) as [[p c]|] eqn:Hf.
  - rewrite (proj2 (Z.eqb_eq _ _)).
    + by rewrite find_invalid_list_find, Hf.
    + apply (mask_ff_from _ 0); [lia|]. intros H%list_find_valid. congruence.
  - apply list_find_valid in Hf.
    rewrite (proj2 (Z.eqb_neq _ _)).
    2: { intros E%(mask_ff_from _ 0); [done|lia]. }
    apply (decode_loop_inv _ _ _ _ _ 0 k) in Hloop as [HW Hlow Hcur _];
      [|rewrite length_rev; lia|apply length_replicate|done|apply decode_inv_0].
    rewrite length_rev, Hl in *. cbn [Nat.add] in *.
    rewrite encode_len_index in Hlow, Hcur.
    rewrite Z.add_0_l, Z.mul_1_l in *. set (W := digits_val _) in *.
    rewrite (lookup_ge_None_2 output k) in Hcur by lia.
    change (Z.lor 0 carry = W / 256 ^ Z.of_nat k) in Hcur. rewrite Z.lor_0_l in Hcur.
    rewrite take_ge in Hlow by lia. case_decide as HWk.
    + rewrite Z.div_small in Hcur by lia. subst carry. simpl. f_equal.
      apply le_val_inj; [by rewrite length_le_bytes|]. by rewrite le_val_le_bytes.
    + rewrite (proj2 (Z.eqb_neq carry 0)); [done|]. rewrite Hcur.
      intros E%Z.div_small_iff; lia.
Qed.

(** ** Properties *)

Lemma decode_len_encode_len k : decode_len (encode_len k) = k.
Proof. apply encode_len_index. Qed.

Lemma encode_capacity k : 256 ^ Z.of_nat k ≤ 32 ^ Z.of_nat (encode_len k).
Proof.
  change 256 with (2 ^ 8). change 32 with (2 ^ 5). rewrite <- !Z.pow_mul_r by lia.
  apply Z.pow_le_mono_r; [lia|]. unfold encode_len. liad.
Qed.

Lemma symbol_digits ds :
  Forall (λ d, 0 ≤ d < 32) ds → base32_ord <$> (symbol <$> ds) = ds.
Proof.
  induction 1; [done|]. cbn [fmap list_fmap]. by rewrite base32_ord_symbol_of, IHForall.
Qed.

Lemma digits_of_digits len V : Forall (λ d, 0 ≤ d < 32) (digits_of len V).
Proof. unfold digits_of. apply Forall_fmap, Forall_forall. intros; apply mod32_digit. Qed.

Lemma length_digits_of len V : length (digits_of len V) = len.
Proof. unfold digits_of. by rewrite length_fmap, length_seq. Qed.

Lemma decode_inner_encode x :
  decode_inner (encode x) (replicate (length x) Byte.x00) = Ok x.
Proof.
  rewrite decode_inner_spec by apply length_encode. unfold decode_reference.
  pose proof (encode_symbols x) as Hs. apply Forall_rev, list_find_valid in Hs as ->.
  rewrite encode_digits, rev_involutive, symbol_digits by apply digits_of_digits.
  rewrite digits_val_of. pose proof (le_val_range x). pose proof (encode_capacity (length x)).
  rewrite Z.mod_small by lia. rewrite decide_True by lia. by rewrite le_bytes_le_val.
Qed.

Lemma decode_reference_inv k s x :
  length s = encode_len k → decode_reference k s = Ok x → length x = k ∧ encode x = s.
Proof.
  unfold decode_reference. intros Hl Hd.
  destruct (list_find _ s) as [[??]|] eqn:Hf; [done|].
  case_decide as HW; [|done]. injection Hd as <-. rewrite length_le_bytes. split; [done|].
  apply list_find_valid in Hf.
  assert (Forall (λ d, 0 ≤ d < 32) (base32_ord <$> rev s)) as Hds.
  { apply Forall_fmap. eapply Forall_impl; [exact Hf|]. unfold compose. intros c ?.
    destruct (base32_ord_range c); lia. }
  pose proof (digits_val_range _ Hds) as Hr.
  rewrite encode_digits, length_le_bytes, le_val_le_bytes, Z.mod_small by lia.
  rewrite <- Hl, <- (length_rev s), <- (length_fmap base32_ord (rev s)), digits_of_val by done.
  rewrite <- list_fmap_compose. rewrite (Forall_fmap_ext_1 _ id), list_fmap_id, rev_involutive;
    [done|]. eapply Forall_impl; [exact Hf|]. intros c. apply symbol_base32_ord.
Qed.

(** Decoding inverts encoding. *)
Lemma decode_of_encode (x : bytes) : decode (encode x) = Ok x.
Proof.
  unfold decode. rewrite length_encode, decode_len_encode_len, Nat.eqb_refl.
  apply decode_inner_encode.
Qed.

(** Decoding undoes encoding, for every byte string. *)
Theorem decode_encode (x : bytes) : decode (encode x) = Ok x.
Proof. apply decode_of_encode. Qed.

(** What [decode] accepts. *)
Lemma decode_Ok_encode (s x : bytes) : decode s = Ok x → s = encode x.
Proof.
  unfold decode. destruct (Nat.eqb_spec (length s) (encode_len (decode_len (length s))))
    as [Hl|]; [|done].
  simpl. rewrite decode_inner_spec by done. intros H. symmetry.
  by apply (decode_reference_inv (decode_len (length s))).
Qed.

(** C8: the decoder accepts canonical encodings only: what it accepts is the
    encoding of what it answers, so no two strings decode alike. *)
Theorem decode_canonical (s x : bytes) : decode s = Ok x → s = encode x.
Proof. apply decode_Ok_encode. Qed.

Lemma decode_canonical_witness :
  decode (B "0z") = Ok [Byte.x1f] ∧ B "0z" = encode [Byte.x1f].
Proof. split; [reflexivity|]. apply (decode_canonical (B "0z") [Byte.x1f]). reflexivity. Defined.

(** [decode_fixed] never panics and is, on every input, a length check
    followed by the reference decoder: the first unknown symbol is reported
    with its position, then left-over bits, else the [K] bytes of the number. *)
Theorem decode_fixed_reference (K : nat) (s : bytes) :
  decode_fixed K s =
    if decide (length s = encode_len K) then decode_reference K s
    else Err (mkDecodeError (Nat.min (length s) (encode_len K)) Length).
Proof.
  unfold decode_fixed. case_decide as H.
  - rewrite H, Nat.eqb_refl. by apply decode_inner_spec.
  - by rewrite (proj2 (Nat.eqb_neq _ _) H).
Qed.

Lemma symbol_monotone d e : 0 ≤ d < 32 → 0 ≤ e < 32 → rcmp (symbol d) (symbol e) = rcmp d e.
Proof.
  intros Hd He. revert d Hd. apply digit_cases.
  repeat (apply Forall_cons; split; [revert e He; apply digit_cases; vm_compute; repeat constructor|]).
  constructor.
Qed.

Lemma digits_val_base_val ds : digits_val ds = base_val 32 ds.
Proof. induction ds; simpl; congruence. Qed.

(** The order of encodings. *)
Lemma encode_lex_cmp (x y : bytes) :
  length x = length y → lex_cmp (encode x) (encode y) = lex_cmp (rev x) (rev y).
Proof.
  intros Hl. rewrite lex_cmp_rev_le_val by done. rewrite !encode_digits, Hl, <- !map_rev.
  set (len := encode_len (length y)).
  transitivity (lex_cmp (rev (digits_of len (le_val x))) (rev (digits_of len (le_val y)))).
  { apply lex_cmp_fmap. intros d e Hd He.
    apply symbol_monotone; eapply (Forall_forall (λ d, 0 ≤ d < 32));
      [|exact Hd| |exact He]; apply Forall_rev, digits_of_digits. }
  rewrite (lex_cmp_base_val 32) by (rewrite ?length_digits_of; auto using digits_of_digits).
  rewrite <- !digits_val_base_val, !digits_val_of.
  pose proof (le_val_range x). pose proof (le_val_range y).
  pose proof (encode_capacity (length y)). rewrite Hl in *.
  by rewrite !Z.mod_small by (subst len; lia).
Qed.

(** Nixbase32 strings of digests of one length sort as the reversed
    digests do. *)
Theorem encode_order (x y : bytes) :
  length x = length y → lex_cmp (encode x) (encode y) = lex_cmp (rev x) (rev y).
Proof. apply encode_lex_cmp. Qed.

Lemma encode_order_witness :
  lex_cmp (encode (B "ab")) (encode (B "ba")) = lex_cmp (rev (B "ab")) (rev (B "ba")).
Proof. apply (encode_order (B "ab") (B "ba")). reflexivity. Defined.
