(* ===== verification/NixHash.v ===== *)
(** * [nix-compat/src/nixhash]: hashes and content-addressing hashes

    [HashAlgo], [NixHash] and [CAHash] with their parsers and printers. A
    digest array [[u8; N]] is a byte string whose length [NixHash_wf] fixes.
    Hex and base64 are the [data_encoding] crate's. *)

From stdpp Require Import strings.
From S2P Require Import Prelude Crates NixBase32.
#[local] Open Scope nat_scope.

(** ** algos.rs *)

Inductive HashAlgo := Md5 | Sha1 | Sha256 | Sha512.

#[global] Instance HashAlgo_eq_dec : EqDecision HashAlgo.
Proof. solve_decision. Defined.

Definition digest_length (a : HashAlgo) : nat :=
  match a with Sha1 => 20 | Sha256 => 32 | Sha512 => 64 | Md5 => 16 end.

(** [Display for HashAlgo] *)
Definition algo_to_string (a : HashAlgo) : bytes :=
  match a with
  | Md5 => B "md5"
  | Sha1 => B "sha1"
  | Sha256 => B "sha256"
  | Sha512 => B "sha512"
  end.

(** ** mod.rs: data *)

Inductive NixHash :=
| NHMd5 (digest : bytes)
| NHSha1 (digest : bytes)
| NHSha256 (digest : bytes)
| NHSha512 (digest : bytes).

#[global] Instance NixHash_eq_dec : EqDecision NixHash.
Proof. solve_decision. Defined.

Inductive Error :=
| InvalidAlgo (s : bytes)
| InvalidSRI (s : bytes)
| InvalidEncodedDigestLength (len : nat) (a : HashAlgo)
| InvalidBase16Encoding (e : DecodeError)
| InvalidBase32Encoding (e : DecodeError)
| InvalidBase64Encoding (e : DecodeError)
| ConflictingHashAlgos (a b : HashAlgo)
| MissingInlineHashAlgo (s : bytes).

(** [TryFrom<&str> for HashAlgo] *)
Definition algo_try_from (s : bytes) : outcome Error HashAlgo :=
  if decide (s = B "md5") then Ok Md5
  else if decide (s = B "sha1") then Ok Sha1
  else if decide (s = B "sha256") then Ok Sha256
  else if decide (s = B "sha512") then Ok Sha512
  else Err (InvalidAlgo s).

Definition algo (h : NixHash) : HashAlgo :=
  match h with
  | NHMd5 _ => Md5 | NHSha1 _ => Sha1 | NHSha256 _ => Sha256 | NHSha512 _ => Sha512
  end.

Definition digest_as_bytes (h : NixHash) : bytes :=
  match h with
  | NHMd5 d => d | NHSha1 d => d | NHSha256 d => d | NHSha512 d => d
  end.

(** The constructor for an algo. *)
Definition mk_hash (a : HashAlgo) : bytes → NixHash :=
  match a with Md5 => NHMd5 | Sha1 => NHSha1 | Sha256 => NHSha256 | Sha512 => NHSha512 end.

(** The array type of each constructor. *)
Definition NixHash_wf (h : NixHash) : Prop :=
  length (digest_as_bytes h) = digest_length (algo h).

(** [Ord for NixHash] *)
#[global] Instance NixHash_cmp : RustOrd NixHash :=
  λ x y, lex_cmp (digest_as_bytes x) (digest_as_bytes y).

(** [NixHash::from_nix_hex_str] *)
Definition from_nix_hex_str (s : bytes) : option NixHash :=
  '(tag, digest) ← split_once Byte.x3a s;
  if decide (tag = B "md5") then to_option (omap_ok NHMd5 (decode_fixed 16 digest))
  else if decide (tag = B "sha1") then to_option (omap_ok NHSha1 (decode_fixed 20 digest))
  else if decide (tag = B "sha256") then to_option (omap_ok NHSha256 (decode_fixed 32 digest))
  else if decide (tag = B "sha512") then to_option (omap_ok NHSha512 (decode_fixed 64 digest))
  else None.

(** [NixHash::to_nix_nixbase32_string] *)
Definition to_nix_nixbase32_string (h : NixHash) : bytes :=
  algo_to_string (algo h) ++ B ":" ++ encode (digest_as_bytes h).

(** [Display for NixHash] *)
Definition NixHash_fmt (h : NixHash) : bytes :=
  algo_to_string (algo h) ++ B "-" ++ encode (digest_as_bytes h).

(** [from_algo_and_digest]; its [try_into().unwrap()] follow the length check. *)
Definition from_algo_and_digest (a : HashAlgo) (digest : bytes) : outcome Error NixHash :=
  if negb (length digest =? digest_length a) then
    Err (InvalidEncodedDigestLength (length digest) a)
  else Ok (match a with
    | Md5 => NHMd5 digest
    | Sha1 => NHSha1 digest
    | Sha256 => NHSha256 digest
    | Sha512 => NHSha512 digest
    end).

(** The result of a crate decoder as the outcome of the call. *)
Definition from_sum {E A} (r : E + A) : outcome E A :=
  match r with inl e => Err e | inr a => Ok a end.

Definition unwrap {E A} (m : outcome E A) : outcome E A :=
  match m with Ok a => Ok a | _ => Panic end.

Section WithCrates.
Context `{!DataEncoding, !Bstr}.

Definition to_plain_hex_string (h : NixHash) : bytes := HEXLOWER_encode (digest_as_bytes h).

Definition to_nix_hex_string (h : NixHash) : bytes :=
  algo_to_string (algo h) ++ B ":" ++ to_plain_hex_string h.

(** [Serialize for NixHash]: the SRI string. *)
Definition NixHash_serialize (h : NixHash) : bytes :=
  algo_to_string (algo h) ++ B "-" ++ BASE64_encode (digest_as_bytes h).

(** [decode_digest]: the encoding is chosen by the length of the input. *)
Definition decode_digest (s : bytes) (a : HashAlgo) : outcome Error NixHash :=
  let? digest :=
    if length s =? HEXLOWER_encode_len (digest_length a) then
      omap_err InvalidBase16Encoding (from_sum (HEXLOWER_decode s))
    else if length s =? encode_len (digest_length a) then
      omap_err InvalidBase32Encoding (decode s)
    else if length s =? BASE64_encode_len (digest_length a) then
      omap_err InvalidBase64Encoding (from_sum (BASE64_decode s))
    else Err (InvalidEncodedDigestLength (length s) a) in
  unwrap (from_algo_and_digest a digest).

Definition from_nix_str (s : bytes) : outcome Error NixHash :=
  match strip_prefix (B "sha1:") s with
  | Some rest => decode_digest rest Sha1
  | None =>
  match strip_prefix (B "sha256:") s with
  | Some rest => decode_digest rest Sha256
  | None =>
  match strip_prefix (B "sha512:") s with
  | Some rest => decode_digest rest Sha512
  | None =>
  match strip_prefix (B "md5:") s with
  | Some rest => decode_digest rest Md5
  | None => Err (InvalidAlgo s)
  end end end end.

Definition from_sri_str (s : bytes) : outcome Error NixHash :=
  let? (algo_str, digest_str) := ok_or (InvalidSRI s) (split_once Byte.x2d s) in
  let? a := algo_try_from algo_str in
  let encoded_max_len := BASE64_encode_len (digest_length a) in
  let? digest_str :=
    if encoded_max_len <? length digest_str then
      or_panic (str_slice_to digest_str encoded_max_len)
    else Ok digest_str in
  if length digest_str <? BASE64_NOPAD_encode_len (digest_length a) then
    Err (InvalidEncodedDigestLength (length digest_str) a)
  else
    let? digest := omap_err InvalidBase64Encoding
      (from_sum (BASE64_NOPAD_lax_decode
        (bstr_trim_end_with (λ c, bool_decide (c = Byte.x3d)) digest_str))) in
    from_algo_and_digest a digest.

(** The check against an externally given algo, shared by two branches. *)
Definition check_algo (a : option HashAlgo) (h : NixHash) : outcome Error NixHash :=
  match a with
  | Some a => if decide (a ≠ algo h) then Err (ConflictingHashAlgos a (algo h)) else Ok h
  | None => Ok h
  end.

Definition from_str (s : bytes) (algo_str : option bytes) : outcome Error NixHash :=
  let? a := match algo_str with
            | Some algo_str => omap_ok Some (algo_try_from algo_str)
            | None => Ok None
            end in
  if starts_with (B "sha1-") s || starts_with (B "sha256-") s
     || starts_with (B "sha512-") s || starts_with (B "md5-") s then
    let? h := from_sri_str s in check_algo a h
  else if starts_with (B "sha1:") s || starts_with (B "sha256:") s
     || starts_with (B "sha512:") s || starts_with (B "md5:") s then
    let? h := from_nix_str s in check_algo a h
  else match a with
       | None => Err (MissingInlineHashAlgo s)
       | Some a => decode_digest s a
       end.

End WithCrates.

(** ** ca_hash.rs *)

Inductive CAHash :=
| Flat (h : NixHash)
| Nar (h : NixHash)
| Text (digest : bytes).

Inductive HashMode := ModeFlat | ModeNar | ModeText.

#[global] Instance CAHash_eq_dec : EqDecision CAHash.
Proof. solve_decision. Defined.

Definition ca_hash (c : CAHash) : NixHash :=
  match c with Flat h => h | Nar h => h | Text d => NHSha256 d end.

Definition ca_mode (c : CAHash) : HashMode :=
  match c with Flat _ => ModeFlat | Nar _ => ModeNar | Text _ => ModeText end.

Definition CAHash_wf (c : CAHash) : Prop := NixHash_wf (ca_hash c).

Definition algo_str (c : CAHash) : bytes :=
  match ca_mode c with
  | ModeFlat =>
      match ca_hash c with
      | NHMd5 _ => B "fixed:md5"
      | NHSha1 _ => B "fixed:sha1"
      | NHSha256 _ => B "fixed:sha256"
      | NHSha512 _ => B "fixed:sha512"
      end
  | ModeNar =>
      match ca_hash c with
      | NHMd5 _ => B "fixed:r:md5"
      | NHSha1 _ => B "fixed:r:sha1"
      | NHSha256 _ => B "fixed:r:sha256"
      | NHSha512 _ => B "fixed:r:sha512"
      end
  | ModeText => B "text:sha256"
  end.

(** [CAHash::from_nix_hex_str] *)
Definition ca_from_nix_hex_str (s : bytes) : option CAHash :=
  '(tag, s) ← split_once Byte.x3a s;
  if decide (tag = B "text") then
    digest ← strip_prefix (B "sha256:") s;
    digest ← to_option (decode_fixed 32 digest);
    Some (Text digest)
  else if decide (tag = B "fixed") then
    match strip_prefix (B "r:") s with
    | Some s => Nar <$> from_nix_hex_str s
    | None => Flat <$> from_nix_hex_str s
    end
  else None.

(** [CAHash::to_nix_nixbase32_string] *)
Definition ca_to_nix_nixbase32_string (c : CAHash) : bytes :=
  algo_str c ++ B ":" ++ encode (digest_as_bytes (ca_hash c)).

(** ** Printing and parsing *)

Lemma decode_fixed_encode K d : length d = K → decode_fixed K (encode d) = Ok d.
Proof.
  intros <-. unfold decode_fixed. rewrite length_encode, Nat.eqb_refl.
  apply decode_inner_encode.
Qed.

Lemma algo_no_colon a : Byte.x3a ∉ algo_to_string a.
Proof. destruct a; apply (bool_decide_unpack _); by vm_compute. Qed.

Lemma algo_no_dash a : Byte.x2d ∉ algo_to_string a.
Proof. destruct a; apply (bool_decide_unpack _); by vm_compute. Qed.

Lemma algo_try_from_to_string a : algo_try_from (algo_to_string a) = Ok a.
Proof. by destruct a. Qed.

Lemma split_colon a r :
  split_once Byte.x3a (algo_to_string a ++ B ":" ++ r) = Some (algo_to_string a, r).
Proof. apply split_once_app, algo_no_colon. Qed.

Lemma split_dash a r :
  split_once Byte.x2d (algo_to_string a ++ B "-" ++ r) = Some (algo_to_string a, r).
Proof. apply split_once_app, algo_no_dash. Qed.

(** What [from_nix_hex_str] does with a known tag. *)
Lemma from_nix_hex_str_algo a r :
  from_nix_hex_str (algo_to_string a ++ B ":" ++ r) =
    to_option (omap_ok (mk_hash a) (decode_fixed (digest_length a) r)).
Proof.
  unfold from_nix_hex_str. rewrite split_colon. cbn [mbind option_bind]. by destruct a.
Qed.

Lemma mk_hash_digest h : mk_hash (algo h) (digest_as_bytes h) = h.
Proof. by destruct h. Qed.

Lemma from_nix_hex_str_roundtrip h :
  NixHash_wf h → from_nix_hex_str (to_nix_nixbase32_string h) = Some h.
Proof.
  intros Hwf. unfold to_nix_nixbase32_string. rewrite from_nix_hex_str_algo.
  rewrite decode_fixed_encode by done. simpl. by rewrite mk_hash_digest.
Qed.

(** [algo_str] is the mode prefix and the algo. *)
Lemma algo_str_eq c :
  algo_str c = match c with
               | Flat h => B "fixed:" ++ algo_to_string (algo h)
               | Nar h => B "fixed:r:" ++ algo_to_string (algo h)
               | Text _ => B "text:sha256"
               end.
Proof. by destruct c as [[]|[]|]. Qed.

Lemma strip_r_algo a r : strip_prefix (B "r:") (algo_to_string a ++ r) = None.
Proof. by destruct a. Qed.

(** Printing the way NARInfo files do, and parsing. *)
Lemma ca_roundtrip c : CAHash_wf c → ca_from_nix_hex_str (ca_to_nix_nixbase32_string c) = Some c.
Proof.
  intros Hwf. unfold ca_to_nix_nixbase32_string, ca_from_nix_hex_str.
  rewrite algo_str_eq. destruct c as [h|h|d].
  - rewrite <- app_assoc.
    change (split_once Byte.x3a _) with
      (Some (B "fixed", algo_to_string (algo h) ++ B ":" ++ encode (digest_as_bytes h))).
    cbn [mbind option_bind]. rewrite decide_False by done. rewrite decide_True by done.
    rewrite strip_r_algo. by setoid_rewrite from_nix_hex_str_roundtrip.
  - rewrite <- app_assoc.
    change (split_once Byte.x3a _) with
      (Some (B "fixed", B "r:" ++ algo_to_string (algo h) ++ B ":" ++ encode (digest_as_bytes h))).
    cbn [mbind option_bind]. rewrite decide_False by done. rewrite decide_True by done.
    rewrite strip_prefix_app. by setoid_rewrite from_nix_hex_str_roundtrip.
  - change (split_once Byte.x3a _) with (Some (B "text", B "sha256:" ++ encode d)).
    cbn [mbind option_bind]. rewrite decide_True by done.
    rewrite strip_prefix_app. cbn [mbind option_bind]. by rewrite decode_fixed_encode.
Qed.

(** Printing a content-addressing hash the way NARInfo files do and
    parsing it back gives the hash, in every mode and for every algorithm. *)
Theorem ca_hash_roundtrip (c : CAHash) :
  CAHash_wf c → ca_from_nix_hex_str (ca_to_nix_nixbase32_string c) = Some c.
Proof. apply ca_roundtrip. Qed.

Lemma ca_hash_roundtrip_witness :
  let c := Nar (NHSha1 (replicate 20 Byte.xa7)) in
  CAHash_wf c ∧ ca_from_nix_hex_str (ca_to_nix_nixbase32_string c) = Some c.
Proof. split; [reflexivity|]. apply ca_hash_roundtrip. reflexivity. Defined.

(** [NixHash]'s [Ord] is documented as the order of the nixbase32 strings,
    but compares digests from their first byte: two sha256 digests exist that
    it orders the other way round. *)
Theorem nixhash_order_differs_from_nixbase32 :
  ∃ x y, NixHash_wf x ∧ NixHash_wf y ∧ rcmp x y = Lt ∧
    lex_cmp (encode (digest_as_bytes x)) (encode (digest_as_bytes y)) = Gt.
Proof.
  exists (NHSha256 (replicate 31 Byte.x00 ++ [Byte.x01])),
         (NHSha256 (Byte.x01 :: replicate 31 Byte.x00)).
  split_and!; by vm_compute.
Qed.

Section Theorems.
Context `{!DataEncoding, !DataEncodingLaws, !Bstr, !BstrLaws}.

Lemma from_algo_and_digest_wf h :
  NixHash_wf h → from_algo_and_digest (algo h) (digest_as_bytes h) = Ok h.
Proof.
  intros Hwf. unfold from_algo_and_digest. rewrite Hwf, Nat.eqb_refl. by destruct h.
Qed.

Lemma from_algo_and_digest_algo a d h :
  from_algo_and_digest a d = Ok h → algo h = a ∧ digest_as_bytes h = d ∧ NixHash_wf h.
Proof.
  unfold from_algo_and_digest, NixHash_wf.
  destruct (Nat.eqb_spec (length d) (digest_length a)); [|done].
  simpl. intros E. injection E as <-. by destruct a.
Qed.

Lemma lens_distinct a :
  HEXLOWER_encode_len (digest_length a) ≠ encode_len (digest_length a) ∧
  HEXLOWER_encode_len (digest_length a) ≠ BASE64_encode_len (digest_length a) ∧
  encode_len (digest_length a) ≠ BASE64_encode_len (digest_length a).
Proof. rewrite hex_len, base64_len. destruct a; by vm_compute. Qed.

Lemma decode_digest_hex h :
  NixHash_wf h → decode_digest (HEXLOWER_encode (digest_as_bytes h)) (algo h) = Ok h.
Proof.
  intros Hwf. unfold decode_digest. rewrite hex_encode_length, Hwf, Nat.eqb_refl.
  rewrite hex_roundtrip. simpl. by rewrite from_algo_and_digest_wf.
Qed.

Lemma decode_digest_nixbase32 h :
  NixHash_wf h → decode_digest (encode (digest_as_bytes h)) (algo h) = Ok h.
Proof.
  intros Hwf. unfold decode_digest. rewrite length_encode, Hwf, Nat.eqb_refl.
  destruct (lens_distinct (algo h)) as (? & _ & _).
  rewrite (proj2 (Nat.eqb_neq _ _)) by done.
  rewrite decode_of_encode. simpl. by rewrite from_algo_and_digest_wf.
Qed.

Lemma decode_digest_base64 h :
  NixHash_wf h → decode_digest (BASE64_encode (digest_as_bytes h)) (algo h) = Ok h.
Proof.
  intros Hwf. unfold decode_digest. rewrite base64_encode_length, Hwf, Nat.eqb_refl.
  destruct (lens_distinct (algo h)) as (_ & ? & ?).
  rewrite !(proj2 (Nat.eqb_neq _ _)) by done.
  rewrite base64_roundtrip. simpl. by rewrite from_algo_and_digest_wf.
Qed.

Lemma from_nix_str_algo a r :
  from_nix_str (algo_to_string a ++ B ":" ++ r) = decode_digest r a.
Proof. by destruct a. Qed.

Lemma from_sri_str_serialize h :
  NixHash_wf h → from_sri_str (NixHash_serialize h) = Ok h.
Proof.
  intros Hwf. unfold from_sri_str, NixHash_serialize. rewrite split_dash.
  cbn [ok_or obind]. rewrite algo_try_from_to_string. cbn [obind].
  rewrite base64_encode_length, Hwf, Nat.ltb_irrefl. cbn [obind].
  rewrite base64_encode_length, Hwf.
  rewrite (proj2 (Nat.ltb_ge _ _)) by (rewrite base64_len, base64_nopad_len; destruct (algo h); vm_compute; lia).
  destruct (base64_pads (digest_as_bytes h)) as [k ->].
  rewrite trim_end_spec.
  - rewrite base64_lax_roundtrip. simpl. by apply from_algo_and_digest_wf.
  - apply Forall_replicate. by apply bool_decide_eq_true.
  - intros c Hc%last_Some_elem_of. apply bool_decide_eq_false.
    by apply (proj1 (Forall_forall _ _) (base64_nopad_no_pad (digest_as_bytes h))).
Qed.

(** The prefix tests of [from_str] on a tagged string. *)
Lemma from_str_sri a r o :
  from_str (algo_to_string a ++ B "-" ++ r) None =
    from_sri_str (algo_to_string a ++ B "-" ++ r) ∧
  from_str (algo_to_string a ++ B "-" ++ r) (Some (algo_to_string o)) =
    let? h := from_sri_str (algo_to_string a ++ B "-" ++ r) in check_algo (Some o) h.
Proof.
  unfold from_str. rewrite algo_try_from_to_string. cbn [omap_ok obind].
  assert (starts_with (B "sha1-") (algo_to_string a ++ B "-" ++ r)
    || starts_with (B "sha256-") (algo_to_string a ++ B "-" ++ r)
    || starts_with (B "sha512-") (algo_to_string a ++ B "-" ++ r)
    || starts_with (B "md5-") (algo_to_string a ++ B "-" ++ r) = true) as ->
    by (by destruct a).
  split; [|done]. by destruct (from_sri_str _).
Qed.

Lemma from_str_nix a r :
  from_str (algo_to_string a ++ B ":" ++ r) None = from_nix_str (algo_to_string a ++ B ":" ++ r).
Proof.
  unfold from_str. cbn [obind].
  assert (starts_with (B "sha1-") (algo_to_string a ++ B ":" ++ r)
    || starts_with (B "sha256-") (algo_to_string a ++ B ":" ++ r)
    || starts_with (B "sha512-") (algo_to_string a ++ B ":" ++ r)
    || starts_with (B "md5-") (algo_to_string a ++ B ":" ++ r) = false) as ->
    by (by destruct a).
  assert (starts_with (B "sha1:") (algo_to_string a ++ B ":" ++ r)
    || starts_with (B "sha256:") (algo_to_string a ++ B ":" ++ r)
    || starts_with (B "sha512:") (algo_to_string a ++ B ":" ++ r)
    || starts_with (B "md5:") (algo_to_string a ++ B ":" ++ r) = true) as ->
    by (by destruct a).
  cbn [orb]. by destruct (from_nix_str _).
Qed.

(** [from_str] reads back every textual form of a hash: the SRI string
    serde writes, and the tagged hex, nixbase32 and base64 forms. *)
Theorem from_str_roundtrip (h : NixHash) :
  NixHash_wf h →
  from_str (NixHash_serialize h) None = Ok h ∧
  from_str (to_nix_hex_string h) None = Ok h ∧
  from_str (to_nix_nixbase32_string h) None = Ok h ∧
  from_str (algo_to_string (algo h) ++ B ":" ++ BASE64_encode (digest_as_bytes h)) None = Ok h.
Proof.
  intros Hwf. split_and!.
  - unfold NixHash_serialize. rewrite (proj1 (from_str_sri _ _ Md5)).
    by apply from_sri_str_serialize.
  - unfold to_nix_hex_string. rewrite from_str_nix, from_nix_str_algo. by apply decode_digest_hex.
  - unfold to_nix_nixbase32_string. rewrite from_str_nix, from_nix_str_algo.
    by apply decode_digest_nixbase32.
  - rewrite from_str_nix, from_nix_str_algo. by apply decode_digest_base64.
Qed.

(** [NixHash::from_nix_hex_str] is documented as the inverse of
    [to_nix_hex_string], but decodes nixbase32: it rejects the hex string of
    every hash. *)
Theorem from_nix_hex_str_rejects_hex (h : NixHash) :
  NixHash_wf h → from_nix_hex_str (to_nix_hex_string h) = None.
Proof.
  intros Hwf. unfold to_nix_hex_string. rewrite from_nix_hex_str_algo.
  rewrite decode_fixed_reference. unfold to_plain_hex_string.
  rewrite hex_encode_length, Hwf, decide_False; [done|].
  apply (proj1 (lens_distinct (algo h))).
Qed.

(** [decode_digest] panics exactly on a string of the length of a padded
    base64 digest whose base64 decoding has another length, and [unwrap] meets
    the length error. *)
Theorem decode_digest_panics (s : bytes) (a : HashAlgo) :
  decode_digest s a = Panic ↔
  length s = BASE64_encode_len (digest_length a) ∧
  ∃ d, BASE64_decode s = inr d ∧ length d ≠ digest_length a.
Proof.
  destruct (lens_distinct a) as (Hne1 & Hne2 & Hne3). unfold decode_digest.
  destruct (Nat.eqb_spec (length s) (HEXLOWER_encode_len (digest_length a))) as [E|N1].
  { destruct (HEXLOWER_decode s) as [e|d] eqn:Hd; simpl; [naive_solver congruence|].
    apply hex_decode_length in Hd. rewrite !hex_len in *.
    unfold from_algo_and_digest. rewrite (proj2 (Nat.eqb_eq _ _)) by lia. naive_solver congruence. }
  destruct (Nat.eqb_spec (length s) (encode_len (digest_length a))) as [E|N2].
  { destruct (decode s) as [d|e|] eqn:Hd; simpl; [|naive_solver congruence|].
    - apply decode_Ok_encode in Hd as ->. rewrite length_encode in *.
      assert (length d = digest_length a) as Hl.
      { apply (f_equal decode_len) in E. by rewrite !decode_len_encode_len in E. }
      unfold from_algo_and_digest. rewrite (proj2 (Nat.eqb_eq _ _)) by done. naive_solver congruence.
    - exfalso. revert Hd. unfold decode.
      rewrite E, decode_len_encode_len, Nat.eqb_refl. simpl.
      rewrite decode_inner_spec by done. unfold decode_reference. repeat case_match; done. }
  destruct (Nat.eqb_spec (length s) (BASE64_encode_len (digest_length a))) as [E|N3];
    [|simpl; naive_solver].
  destruct (BASE64_decode s) as [e|d]; simpl; [naive_solver congruence|].
  unfold from_algo_and_digest.
  destruct (Nat.eqb_spec (length d) (digest_length a)); simpl; naive_solver.
Qed.

(** [from_sri_str] panics exactly when the digest part is longer than the
    padded base64 digest and the cut falls inside a UTF-8 character. *)
Theorem from_sri_str_panics (s : bytes) :
  from_sri_str s = Panic ↔
  ∃ a d, s = algo_to_string a ++ B "-" ++ d ∧
    BASE64_encode_len (digest_length a) < length d ∧
    is_char_boundary d (BASE64_encode_len (digest_length a)) = false.
Proof.
  assert (∀ a d, from_algo_and_digest a d ≠ Panic) as Hfa.
  { intros a d. unfold from_algo_and_digest. by case_match. }
  split.
  - unfold from_sri_str. destruct (split_once Byte.x2d s) as [[t d]|] eqn:Hs; [|done].
    apply split_once_Some in Hs as [-> _]. cbn [ok_or obind].
    destruct (algo_try_from t) as [a| |] eqn:Ha; [| done |].
    2: { revert Ha. unfold algo_try_from. by repeat case_decide. }
    assert (t = algo_to_string a) as ->.
    { revert Ha. unfold algo_try_from. repeat case_decide; intros; simplify_eq; done. }
    cbn [obind]. destruct (Nat.ltb_spec (BASE64_encode_len (digest_length a)) (length d)) as [Hl|Hl].
    + unfold str_slice_to. destruct (is_char_boundary _ _) eqn:Hb; [|intros _; by exists a, d].
      cbn [or_panic obind]. case_match; [done|]. destruct (BASE64_NOPAD_lax_decode _); simpl; [done|].
      intros H'. by apply Hfa in H'.
    + cbn [obind]. case_match; [done|]. destruct (BASE64_NOPAD_lax_decode _); simpl; [done|].
      intros H'. by apply Hfa in H'.
  - intros (a & d & -> & Hl & Hb). unfold from_sri_str. rewrite split_dash.
    cbn [ok_or obind]. rewrite algo_try_from_to_string. cbn [obind].
    rewrite (proj2 (Nat.ltb_lt _ _)) by done. unfold str_slice_to. by rewrite Hb.
Qed.
End Theorems.

Import Models.

Lemma from_str_roundtrip_witness :
  let h := NHSha256 (replicate 32 Byte.x5a) in
  NixHash_wf h ∧ from_str (NixHash_serialize h) None = Ok h.
Proof.
  split; [reflexivity|].
  exact (proj1 (from_str_roundtrip (NHSha256 (replicate 32 Byte.x5a)) eq_refl)).
Defined.

Lemma from_nix_hex_str_rejects_hex_witness :
  from_nix_hex_str (to_nix_hex_string (NHMd5 (replicate 16 Byte.x11))) = None.
Proof. apply from_nix_hex_str_rejects_hex. reflexivity. Defined.

(** 44 base64 symbols without padding are the 33 bytes the panic needs. *)
Lemma decode_digest_panics_witness :
  decode_digest (replicate 44 Byte.x41) Sha256 = Panic.
Proof.
  apply (proj2 (decode_digest_panics (replicate 44 Byte.x41) Sha256)).
  split; [reflexivity|]. exists (replicate 33 Byte.x00). split; [by vm_compute|done].
Defined.

(** 43 base64 symbols and an e with an acute accent. *)
Lemma from_sri_str_panics_witness :
  from_sri_str (B "sha256-" ++ replicate 43 Byte.x41 ++ [Byte.xc3; Byte.xa9]) = Panic.
Proof.
  apply (proj2 (from_sri_str_panics
    (B "sha256-" ++ replicate 43 Byte.x41 ++ [Byte.xc3; Byte.xa9]))).
  exists Sha256, (replicate 43 Byte.x41 ++ [Byte.xc3; Byte.xa9]).
  split_and!; [reflexivity|vm_compute; lia|by vm_compute].
Defined.
