(* ===== verification/StorePath.v ===== *)
(** * [nix-compat/src/store_path]: store paths

    Parsing, printing, ordering ([mod.rs]) and the construction of store paths
    from content and input hashes ([utils.rs]). The digest array [[u8; 20]] is
    a byte string whose length [StorePath_wf] fixes; [std::path] is modelled by
    the component list of a unix path. *)

From stdpp Require Import strings.
From S2P Require Import Prelude Crates StdPath NixBase32 NixHash.
#[local] Open Scope nat_scope.

Definition DIGEST_SIZE : nat := 20.
Definition ENCODED_DIGEST_SIZE : nat := encode_len DIGEST_SIZE.
Definition STORE_DIR : bytes := B "/nix/store".
Definition STORE_DIR_WITH_SLASH : bytes := B "/nix/store/".

Module StorePath.

Inductive Error :=
| MissingDash
| InvalidHashEncoding (e : DecodeError)
| InvalidLength
| InvalidName (name : bytes) (pos : Z)
| MissingStoreDir.

#[global] Instance Error_eq_dec : EqDecision Error.
Proof. solve_decision. Defined.

Record StorePath := mkStorePath {
  digest : bytes;
  name : bytes;
}.

#[global] Instance StorePath_eq_dec : EqDecision StorePath.
Proof. solve_decision. Defined.

(** [matches!(c, ...)], the entry of [NAME_CHARS] for [c]. *)
Definition name_char (c : Z) : bool :=
  ((0x61 <=? c) && (c <=? 0x7a) || (0x41 <=? c) && (c <=? 0x5a)
  || (0x30 <=? c) && (c <=? 0x39) || (c =? 0x2b) || (c =? 0x2d) || (c =? 0x5f)
  || (c =? 0x3f) || (c =? 0x3d) || (c =? 0x2e))%Z.

(** The [loop] that fills the table, [c] running over the [u8]s. *)
Definition NAME_CHARS : list bool :=
  Eval vm_compute in (λ c, name_char (Z.of_nat c)) <$> seq 0 256.

(** [NAME_CHARS[c as usize]]; 256 entries, so no index panics. *)
Definition valid_name_char (c : byte) : bool :=
  default false (NAME_CHARS !! Z.to_nat (b2z c)).

(** The position of the first byte outside the table; [None] is the
    [unreachable!()] after the loop. *)
Fixpoint first_invalid (i : nat) (s : bytes) : option nat :=
  match s with
  | [] => None
  | c :: s => if negb (valid_name_char c) then Some i else first_invalid (S i) s
  end.

Definition validate_name (s : bytes) : outcome Error bytes :=
  if (length s =? 0) || (211 <? length s) then Err InvalidLength
  else
    let valid := foldl (λ valid c, valid && valid_name_char c) true s in
    if negb valid then
      let? i := or_panic (first_invalid 0 s) in
      Err (InvalidName s (Z.of_nat i mod 256))
    else Ok s.

Definition from_bytes (s : bytes) : outcome Error StorePath :=
  if length s <? ENCODED_DIGEST_SIZE + 2 then Err InvalidLength
  else
    let? digest := omap_err InvalidHashEncoding
      (decode_fixed DIGEST_SIZE (take ENCODED_DIGEST_SIZE s)) in
    let? sep := or_panic (s !! ENCODED_DIGEST_SIZE) in
    if negb (bool_decide (sep = Byte.x2d)) then Err MissingDash
    else
      let? name := validate_name (drop (ENCODED_DIGEST_SIZE + 1) s) in
      Ok (mkStorePath digest name).

Definition from_name_and_digest_fixed (name digest : bytes) : outcome Error StorePath :=
  let? name := validate_name name in
  Ok (mkStorePath digest name).

Definition from_name_and_digest (name digest : bytes) : outcome Error StorePath :=
  let? digest_fixed :=
    if length digest =? DIGEST_SIZE then Ok digest else Err InvalidLength in
  from_name_and_digest_fixed name digest_fixed.

Definition from_absolute_path (s : bytes) : outcome Error StorePath :=
  match strip_prefix STORE_DIR_WITH_SLASH s with
  | Some s_stripped => from_bytes s_stripped
  | None => Err MissingStoreDir
  end.

(** [Display for StorePath] *)
Definition to_string (p : StorePath) : bytes :=
  encode (digest p) ++ B "-" ++ name p.

Definition to_absolute_path (p : StorePath) : bytes :=
  STORE_DIR_WITH_SLASH ++ to_string p.

(** [Ord for StorePath]: the reversed digests; the name is not looked at. *)
#[global] Instance StorePath_cmp : RustOrd StorePath :=
  λ a b, lex_cmp (rev (digest a)) (rev (digest b)).

(** The store path and the rest of the path, as components. *)
Definition from_absolute_path_full (path : bytes)
    : outcome Error (StorePath * list StdComponent) :=
  let? p := ok_or MissingStoreDir
    (strip_components (std_components STORE_DIR_WITH_SLASH) (std_components path)) in
  match p with
  | [] => Err InvalidLength
  | first_component :: rest =>
      let? store_path := from_bytes (as_os_str first_component) in
      Ok (store_path, rest)
  end.

(** [FromStr], [Deserialize] (its error values carry only text) and [Serialize]. *)
Definition from_str (s : bytes) : outcome Error StorePath := from_bytes s.

Definition deserialize (s : bytes) : option StorePath :=
  stripped ← strip_prefix STORE_DIR_WITH_SLASH s;
  to_option (from_bytes stripped).

Definition serialize (p : StorePath) : bytes := to_absolute_path p.

(** *** utils.rs *)

Inductive BuildStorePathError :=
| InvalidStorePath (e : Error)
| InvalidReference.

#[global] Instance BuildStorePathError_eq_dec : EqDecision BuildStorePathError.
Proof. solve_decision. Defined.

Fixpoint compress_loop (size ii : nat) (input output : bytes) : bytes :=
  match input with
  | [] => output
  | ch :: input =>
      let i := ii mod size in
      let o := default Byte.x00 (output !! i) in
      compress_loop size (S ii) input (<[i := z2b (Z.lxor (b2z o) (b2z ch))]> output)
  end.

(** [output[ii % OUTPUT_SIZE] ^= ch] over the input; the index is in range. *)
Definition compress_hash (OUTPUT_SIZE : nat) (input : bytes) : bytes :=
  compress_loop OUTPUT_SIZE 0 input (replicate OUTPUT_SIZE Byte.x00).

Definition make_references_string (ty : bytes) (references : list bytes) (self_ref : bool)
    : bytes :=
  foldl (λ s reference, s ++ B ":" ++ reference) ty references
    ++ (if self_ref then B ":self" else []).

Section WithCrates.
Context `{!Sha2, !DataEncoding}.

Definition build_store_path_from_fingerprint_parts (ty inner_digest name : bytes)
    : outcome Error StorePath :=
  let fingerprint :=
    ty ++ B ":sha256:" ++ HEXLOWER_encode inner_digest ++ B ":" ++ STORE_DIR
       ++ B ":" ++ name in
  from_name_and_digest_fixed name (compress_hash DIGEST_SIZE (Crates.Sha256 fingerprint)).

Definition build_output_path (drv_sha256 output_name output_path_name : bytes)
    : outcome Error StorePath :=
  build_store_path_from_fingerprint_parts (B "output:" ++ output_name) drv_sha256
    output_path_name.

Definition fixed_out_digest (prefix : bytes) (hash : NixHash) : bytes :=
  Crates.Sha256 (prefix ++ B ":" ++ to_nix_hex_string hash ++ B ":").

Definition build_ca_path (name : bytes) (ca_hash : CAHash) (references : list bytes)
    (self_reference : bool) : outcome BuildStorePathError StorePath :=
  if self_reference && (match ca_hash with Nar (NHSha256 _) => true | _ => false end) then
    Err InvalidReference
  else
    let? (ty, inner_digest) :=
      match ca_hash with
      | Text digest => Ok (make_references_string (B "text") references false, digest)
      | Nar (NHSha256 digest) =>
          Ok (make_references_string (B "source") references self_reference, digest)
      | Nar hash =>
          match references with
          | _ :: _ => Err InvalidReference
          | [] => Ok (B "output:out", fixed_out_digest (B "fixed:out:r") hash)
          end
      | Flat hash =>
          match references with
          | _ :: _ => Err InvalidReference
          | [] => Ok (B "output:out", fixed_out_digest (B "fixed:out") hash)
          end
      end in
    omap_err InvalidStorePath (build_store_path_from_fingerprint_parts ty inner_digest name).

Definition build_text_path (name content : bytes) (references : list bytes)
    : outcome BuildStorePathError StorePath :=
  build_ca_path name (Text (Crates.Sha256 content)) references false.

Definition hash_placeholder (name : bytes) : bytes :=
  B "/" ++ encode (Crates.Sha256 (B "nix-output:" ++ name)).

End WithCrates.

(** ** Well-formedness: what the constructors of the module guarantee *)

Definition name_ok (s : bytes) : Prop :=
  1 ≤ length s ≤ 211 ∧ Forall (λ c, valid_name_char c = true) s.

Record StorePath_wf (p : StorePath) : Prop := {
  wf_digest : length (digest p) = DIGEST_SIZE;
  wf_name : name_ok (name p);
}.

#[global] Instance name_ok_dec s : Decision (name_ok s).
Proof. unfold name_ok. apply _. Defined.

Lemma valid_name_char_spec c : valid_name_char c = name_char (b2z c).
Proof. by destruct c. Qed.

Lemma foldl_valid b s :
  foldl (λ valid c, valid && valid_name_char c) b s = true ↔
  b = true ∧ Forall (λ c, valid_name_char c = true) s.
Proof.
  revert b. induction s as [|c s IH]; intros b; cbn [foldl]; [by rewrite Forall_nil; tauto|].
  rewrite IH, andb_true_iff, Forall_cons. tauto.
Qed.

Lemma first_invalid_spec i s :
  ¬ Forall (λ c, valid_name_char c = true) s →
  ∃ p c, first_invalid i s = Some (i + p) ∧ s !! p = Some c ∧ valid_name_char c = false ∧
    Forall (λ c, valid_name_char c = true) (take p s).
Proof.
  revert i. induction s as [|c s IH]; intros i Hs; [by destruct Hs|]. cbn [first_invalid].
  destruct (valid_name_char c) eqn:Hc; simpl.
  - destruct (IH (S i)) as (p & c' & -> & ? & ? & ?).
    { intros ?. apply Hs. by constructor. }
    exists (S p), c'. split_and!; [f_equal; lia|done|done|by constructor].
  - exists 0, c. split_and!; [f_equal; lia|done|done|constructor].
Qed.

Lemma validate_name_ok s : name_ok s → validate_name s = Ok s.
Proof.
  intros [Hl Hv]. unfold validate_name.
  rewrite (proj2 (Nat.eqb_neq _ _)), (proj2 (Nat.ltb_ge _ _)) by lia. cbn [orb].
  by rewrite (proj2 (foldl_valid true s)).
Qed.

(** A name is accepted, unchanged, iff it has 1 to 211 of the allowed
    characters; a bad length comes first, else the first bad character is
    reported with its exact position, which fits the [u8]. No input panics. *)
Theorem validate_name_spec (s : bytes) :
  (name_ok s ∧ validate_name s = Ok s) ∨
  (¬ 1 ≤ length s ≤ 211 ∧ validate_name s = Err InvalidLength) ∨
  (∃ p c, (Z.of_nat p < 211)%Z ∧ s !! p = Some c ∧ valid_name_char c = false ∧
     Forall (λ c, valid_name_char c = true) (take p s) ∧
     validate_name s = Err (InvalidName s (Z.of_nat p))).
Proof.
  destruct (decide (1 ≤ length s ≤ 211)) as [Hl|Hl].
  - destruct (decide (Forall (λ c, valid_name_char c = true) s)) as [Hv|Hv].
    + left. split; [by split|]. apply validate_name_ok. by split.
    + right; right. destruct (first_invalid_spec 0 s Hv) as (p & c & Hf & Hp & Hc & Ht).
      pose proof (lookup_lt_Some _ _ _ Hp). exists p, c. split_and!; [lia|done..|].
      unfold validate_name. rewrite (proj2 (Nat.eqb_neq _ _)), (proj2 (Nat.ltb_ge _ _)) by lia.
      cbn [orb]. rewrite (not_true_is_false (foldl _ _ _)) by (by rewrite foldl_valid; tauto).
      rewrite Hf. cbn [negb or_panic obind]. rewrite Z.mod_small by lia. done.
  - right; left. split; [done|]. unfold validate_name.
    destruct (Nat.eqb_spec (length s) 0); [done|].
    by rewrite (proj2 (Nat.ltb_lt _ _)) by lia.
Qed.

Lemma validate_name_Ok s n : validate_name s = Ok n ↔ name_ok s ∧ n = s.
Proof.
  destruct (validate_name_spec s) as [[H ->]|[[H ->]|(p & c & _ & Hp & Hc & _ & ->)]];
    unfold name_ok in *; split; try naive_solver.
  intros [[_ Hv] _]. pose proof (Forall_lookup_1 _ _ _ _ Hv Hp). simpl in *. congruence.
Qed.

Lemma length_to_string p :
  StorePath_wf p → length (to_string p) = ENCODED_DIGEST_SIZE + 1 + length (name p).
Proof.
  intros [Hd _]. unfold to_string. rewrite !length_app, length_encode, Hd. simpl. lia.
Qed.

Lemma from_bytes_to_string p : StorePath_wf p → from_bytes (to_string p) = Ok p.
Proof.
  intros Hwf. pose proof (length_to_string p Hwf) as Hlen. destruct Hwf as [Hd Hn].
  assert (length (encode (digest p)) = ENCODED_DIGEST_SIZE) as He.
  { by rewrite length_encode, Hd. }
  unfold from_bytes. pose proof (proj1 Hn) as Hn1.
  rewrite (proj2 (Nat.ltb_ge _ _)) by lia. unfold to_string.
  rewrite take_app_length' by done. rewrite decode_fixed_encode by done. cbn [omap_err obind].
  rewrite lookup_app_r, He, Nat.sub_diag by lia. cbn [lookup or_panic obind app B list_lookup].
  rewrite app_assoc, drop_app_length' by (rewrite length_app, He; done).
  simpl. rewrite validate_name_ok by done. by destruct p.
Qed.

Lemma from_bytes_inv s p : from_bytes s = Ok p → StorePath_wf p ∧ s = to_string p.
Proof.
  unfold from_bytes. destruct (Nat.ltb_spec (length s) (ENCODED_DIGEST_SIZE + 2)) as [|Hl]; [done|].
  intros H. inv_ok. destruct (s !! ENCODED_DIGEST_SIZE) as [sep|] eqn:Hs; [|done].
  simpl in Ha0. simplify_eq. case_bool_decide; [|done]. simpl in H. inv_ok. subst.
  apply validate_name_Ok in Ha0 as [Hn ->].
  rewrite decode_fixed_reference in Ha. case_decide as Ht; [|done].
  apply decode_reference_inv in Ha as [Hd He]; [|done].
  split; [by split|]. unfold to_string. simpl. rewrite He.
  rewrite <- (take_drop ENCODED_DIGEST_SIZE s) at 1. f_equal.
  rewrite (drop_S _ _ _ Hs). done.
Qed.

(** C6: store path parsing is exact. [from_bytes] accepts a string iff it is
    the printed form of a well-formed store path, and answers that path; so
    parsing and printing are inverse, and every rejected string prints none. *)
Theorem from_bytes_iff (s : bytes) (p : StorePath) :
  from_bytes s = Ok p ↔ StorePath_wf p ∧ s = to_string p.
Proof.
  split; [apply from_bytes_inv|]. intros [Hwf ->]. by apply from_bytes_to_string.
Qed.

(** An absolute path parses to [p] iff it is [/nix/store/] and the printed
    form of [p]; the same for the serde form. *)
Theorem from_absolute_path_iff (s : bytes) (p : StorePath) :
  (from_absolute_path s = Ok p ↔ StorePath_wf p ∧ s = to_absolute_path p) ∧
  (deserialize s = Some p ↔ StorePath_wf p ∧ s = serialize p).
Proof.
  assert (from_absolute_path s = Ok p ↔ StorePath_wf p ∧ s = to_absolute_path p) as H.
  { unfold from_absolute_path, to_absolute_path. destruct (strip_prefix _ s) as [r|] eqn:Hr.
    - apply strip_prefix_Some in Hr as ->. split.
      + by intros [? ->]%from_bytes_inv.
      + intros [Hwf ->%app_inv_head]. by apply from_bytes_to_string.
    - split; [done|]. intros [_ ->]. by rewrite strip_prefix_app in Hr. }
  split; [done|]. rewrite <- H. unfold deserialize, from_absolute_path.
  destruct (strip_prefix _ s) as [r|]; [|done]. cbn [mbind option_bind].
  destruct (from_bytes r); simpl; naive_solver.
Qed.

Lemma decode_inner_not_panic k s : length s = encode_len k → decode_inner s (replicate k Byte.x00) ≠ Panic.
Proof. intros H. rewrite decode_inner_spec by done. unfold decode_reference. by repeat case_match. Qed.

(** No byte string makes [from_bytes] panic. *)
Theorem from_bytes_no_panic (s : bytes) : ~ (from_bytes s = Panic).
Proof.
  unfold from_bytes. destruct (Nat.ltb_spec (length s) (ENCODED_DIGEST_SIZE + 2)) as [|Hl]; [done|].
  rewrite decode_fixed_reference. case_decide; [|done].
  unfold decode_reference. destruct (list_find _ _) as [[??]|]; [done|]. case_decide; [|done].
  cbn [omap_err obind]. destruct (lookup_lt_is_Some_2 s ENCODED_DIGEST_SIZE) as [sep ->]; [lia|].
  cbn [or_panic obind]. case_bool_decide; [|done]. simpl.
  destruct (validate_name_spec (drop (ENCODED_DIGEST_SIZE + 1) s))
    as [[_ E]|[[_ E]|(? & ? & _ & _ & _ & _ & E)]]; simpl in E; rewrite E; done.
Qed.

(** The printed paths compare by digest, then by name. *)
Lemma to_string_cmp a b :
  StorePath_wf a → StorePath_wf b →
  lex_cmp (to_string a) (to_string b) =
    match rcmp a b with Eq => lex_cmp (name a) (name b) | c => c end.
Proof.
  intros [Ha _] [Hb _]. unfold to_string.
  rewrite lex_cmp_app by (by rewrite !length_encode, Ha, Hb).
  rewrite encode_lex_cmp by congruence. unfold rcmp, StorePath_cmp.
  by destruct (lex_cmp (rev (digest a)) (rev (digest b))).
Qed.

(** [Ord for StorePath] agrees with the order of the printed paths as
    soon as the digests differ; on equal digests it answers [Eq] whatever the
    names are, where the printed paths compare by name. *)
Theorem cmp_printed_order (a b : StorePath) :
  StorePath_wf a → StorePath_wf b →
  lex_cmp (to_string a) (to_string b) =
    match rcmp a b with Eq => lex_cmp (name a) (name b) | c => c end.
Proof. apply to_string_cmp. Qed.

Lemma from_absolute_to_absolute p : StorePath_wf p → from_absolute_path (to_absolute_path p) = Ok p.
Proof.
  intros Hwf. unfold from_absolute_path, to_absolute_path. rewrite strip_prefix_app.
  by apply from_bytes_to_string.
Qed.

(** Only letters, digits and a few signs, and the slashes of the prefix. *)
Lemma to_absolute_path_chars p :
  StorePath_wf p →
  Forall (λ c, valid_name_char c = true ∨ c = Byte.x2f) (to_absolute_path p).
Proof.
  intros [_ [_ Hn]]. unfold to_absolute_path, to_string. rewrite !Forall_app. split_and!.
  - apply (bool_decide_unpack _). by vm_compute.
  - eapply Forall_impl; [apply encode_symbols|]. intros c Hc. left. simpl in Hc.
    destruct c; (by vm_compute) || (exfalso; by vm_compute in Hc).
  - apply (bool_decide_unpack _). by vm_compute.
  - eapply Forall_impl; [exact Hn|]. auto.
Qed.

#[global] Instance StorePath_cmp_laws : RustOrdLaws StorePath.
Proof.
  constructor; unfold rcmp, StorePath_cmp; intros *.
  - apply (rcmp_refl (A := bytes)).
  - apply (rcmp_antisym (A := bytes)).
  - apply (rcmp_lt_trans (A := bytes)).
  - apply (rcmp_eq_l (A := bytes)).
Qed.

(** *** Absolute paths with a rest *)

Lemma to_string_no_slash p : StorePath_wf p → Byte.x2f ∉ to_string p.
Proof.
  intros Hwf. unfold to_string. rewrite !elem_of_app. intros [Hin | [Hin | Hin]].
  - pose proof (proj1 (Forall_forall _ _) (encode_symbols (digest p)) _ Hin) as Hs.
    by vm_compute in Hs.
  - apply list_elem_of_singleton in Hin. done.
  - pose proof (proj1 (Forall_forall _ _) (proj2 (wf_name _ Hwf)) _ Hin) as Hs. done.
Qed.

Lemma component_of_to_string p :
  StorePath_wf p → split_on Byte.x2f (to_string p) = [to_string p] ∧
  component_of (to_string p) = Some (Normal (to_string p)).
Proof.
  intros Hwf. pose proof (length_to_string p Hwf) as Hlen. split.
  - by apply split_on_none, to_string_no_slash.
  - unfold component_of. change ENCODED_DIGEST_SIZE with 32 in Hlen.
    rewrite !decide_False; [done|..].
    + intros E. by rewrite E in Hlen.
    + intros [E|E]; by rewrite E in Hlen.
Qed.

(** [from_absolute_path_full] splits [/nix/store/P/rest] into [P] and the
    components of [rest], for every well-formed [P] and every [rest]. *)
Theorem from_absolute_path_full_spec (p : StorePath) (rest : bytes) :
  StorePath_wf p →
  from_absolute_path_full (to_absolute_path p ++ B "/" ++ rest) =
    Ok (p, omap component_of (split_on Byte.x2f rest)).
Proof.
  intros Hwf. destruct (component_of_to_string p Hwf) as [Hs Hc].
  unfold from_absolute_path_full, to_absolute_path.
  assert (std_components ((STORE_DIR_WITH_SLASH ++ to_string p) ++ B "/" ++ rest) =
    [RootDir; Normal (B "nix"); Normal (B "store"); Normal (to_string p)]
      ++ omap component_of (split_on Byte.x2f rest)) as ->.
  { unfold std_components. rewrite <- app_assoc.
    change (STORE_DIR_WITH_SLASH ++ to_string p ++ B "/" ++ rest)
      with (STORE_DIR ++ Byte.x2f :: (to_string p ++ Byte.x2f :: rest)).
    rewrite !split_on_app, Hs, !omap_app. cbn [omap list_omap app]. rewrite Hc.
    by vm_compute (omap component_of (split_on Byte.x2f STORE_DIR)). }
  change (std_components STORE_DIR_WITH_SLASH) with [RootDir; Normal (B "nix"); Normal (B "store")].
  cbn [app strip_components]. rewrite !decide_True by done. cbn [ok_or obind as_os_str].
  by rewrite from_bytes_to_string.
Qed.

(** *** Constructed paths *)

Lemma compress_loop_length size ii input output :
  length (compress_loop size ii input output) = length output.
Proof.
  revert ii output. induction input as [|c input IH]; intros ii output; [done|].
  cbn [compress_loop]. by rewrite IH, length_insert.
Qed.

(** The exclusive or of the bytes at positions [≡ i] modulo [size]. *)
Fixpoint xor_column (size i ii : nat) (input : bytes) : Z :=
  match input with
  | [] => 0
  | c :: input =>
      Z.lxor (if ii mod size =? i then b2z c else 0%Z) (xor_column size i (S ii) input)
  end.

Lemma lxor_byte a b : (0 ≤ a < 256 → 0 ≤ b < 256 → 0 ≤ Z.lxor a b < 256)%Z.
Proof.
  intros Ha Hb. rewrite <- (Z.mod_small a 256), <- (Z.mod_small b 256) by done.
  change 256%Z with (2 ^ 8)%Z. rewrite <- !Z.land_ones by lia.
  assert (Z.lxor (Z.land a (Z.ones 8)) (Z.land b (Z.ones 8)) =
          Z.land (Z.lxor a b) (Z.ones 8)) as ->.
  { apply Z.bits_inj'. intros n _. rewrite Z.lxor_spec, !Z.land_spec, Z.lxor_spec.
    by destruct (Z.testbit a n), (Z.testbit b n), (Z.testbit (Z.ones 8) n). }
  rewrite Z.land_ones by lia. apply Z.mod_pos_bound. lia.
Qed.

Lemma compress_loop_lookup size ii input output i o :
  output !! i = Some o → length output = size →
  b2z <$> compress_loop size ii input output !! i =
    Some (Z.lxor (b2z o) (xor_column size i ii input)).
Proof.
  revert ii output o. induction input as [|c input IH]; intros ii output o Ho Hs.
  { cbn [compress_loop xor_column]. by rewrite Ho, Z.lxor_0_r. }
  cbn [compress_loop xor_column].
  pose proof (lookup_lt_Some _ _ _ Ho). assert (ii mod size < size) by (apply Nat.mod_upper_bound; lia).
  destruct (Nat.eqb_spec (ii mod size) i) as [E|E].
  - rewrite E, Ho. simpl. erewrite IH; [|apply list_lookup_insert_eq; lia|by rewrite length_insert].
    rewrite b2z_z2b_small by (apply lxor_byte; apply b2z_range). by rewrite Z.lxor_assoc.
  - rewrite Z.lxor_0_l. apply IH; [by rewrite list_lookup_insert_ne|by rewrite length_insert].
Qed.

(** [compress_hash] folds its input to the output size: byte [i] is the
    exclusive or of the input bytes at positions congruent to [i]. *)
Theorem compress_hash_spec (size : nat) (input : bytes) (i : nat) :
  length (compress_hash size input) = size ∧
  (i < size → b2z <$> compress_hash size input !! i = Some (xor_column size i 0 input)).
Proof.
  unfold compress_hash. split; [by rewrite compress_loop_length, length_replicate|].
  intros Hi. erewrite compress_loop_lookup;
    [|by apply lookup_replicate_2|apply length_replicate]. done.
Qed.

Lemma compress_hash_length size input : length (compress_hash size input) = size.
Proof. unfold compress_hash. by rewrite compress_loop_length, length_replicate. Qed.

Section BuildTheorems.
Context `{!Sha2, !DataEncoding}.

Lemma from_fingerprint_Ok ty d n p :
  build_store_path_from_fingerprint_parts ty d n = Ok p →
  StorePath_wf p ∧ name p = n.
Proof.
  unfold build_store_path_from_fingerprint_parts, from_name_and_digest_fixed.
  intros Hb. inv_ok. apply validate_name_Ok in Ha as [Hn ->]. subst p.
  split; [|done]. split; [|done]. apply compress_hash_length.
Qed.

Lemma from_fingerprint_name_ok ty d n :
  name_ok n → ∃ p, build_store_path_from_fingerprint_parts ty d n = Ok p.
Proof.
  intros Hn. unfold build_store_path_from_fingerprint_parts, from_name_and_digest_fixed.
  rewrite validate_name_ok by done. simpl. eauto.
Qed.

(** Every path the builders answer is well formed and carries the given
    name, so it prints and parses back. *)
Theorem built_paths_parse (n : bytes) (c : CAHash) (refs : list bytes) (self : bool) (p : StorePath) :
  build_ca_path n c refs self = Ok p →
  name p = n ∧ from_absolute_path (to_absolute_path p) = Ok p.
Proof.
  unfold build_ca_path. intros Hb. case_match; [done|]. apply obind_Ok in Hb as ([ty d] & _ & Hb).
  apply omap_err_Ok, from_fingerprint_Ok in Hb as [Hwf Hn]. split; [done|].
  by apply from_absolute_to_absolute.
Qed.

(** The guard on self references is the negation of its comment. The one
    hash kind that may have them, recursive sha256, is refused; a flat hash
    with a self reference is accepted and the flag ignored. *)
Theorem build_ca_path_self_reference_guard (n : bytes) (refs : list bytes) (d : bytes) (h : NixHash) :
  build_ca_path n (Nar (NHSha256 d)) refs true = Err InvalidReference ∧
  (name_ok n → ∃ p, build_ca_path n (Flat h) [] true = Ok p ∧
                    build_ca_path n (Flat h) [] false = Ok p).
Proof.
  split; [done|]. intros Hn. unfold build_ca_path. cbn [andb obind].
  destruct (from_fingerprint_name_ok (B "output:out") (fixed_out_digest (B "fixed:out") h) n Hn)
    as [p Hp]. exists p. by rewrite Hp.
Qed.

End BuildTheorems.

Import Models.

(** *** Witnesses *)

Definition sample : StorePath :=
  mkStorePath hex_test (B "net-tools-1.60_p20170221182432").

Lemma sample_wf : StorePath_wf sample.
Proof. split; [reflexivity|]. apply (bool_decide_unpack _). by vm_compute. Qed.

Example sample_parses :
  from_absolute_path (B "/nix/store/00bgd045z0d4icpbc2yyz4gx48ak44la-net-tools-1.60_p20170221182432")
    = Ok sample.
Proof. by vm_compute. Qed.

Lemma cmp_printed_order_witness :
  lex_cmp (to_string sample) (to_string (mkStorePath hex_test (B "a"))) = Gt.
Proof.
  rewrite (cmp_printed_order sample (mkStorePath hex_test (B "a")) sample_wf).
  - by vm_compute.
  - split; [reflexivity|]. apply (bool_decide_unpack _). by vm_compute.
Defined.

Lemma from_absolute_path_full_witness :
  from_absolute_path_full (to_absolute_path sample ++ B "/" ++ B "bin//./arp/") =
    Ok (sample, [Normal (B "bin"); Normal (B "arp")]).
Proof. exact (from_absolute_path_full_spec sample (B "bin//./arp/") sample_wf). Defined.

Lemma built_paths_parse_witness :
  ∃ p, build_ca_path (B "foo") (Text (B "0123456789abcdef0123456789abcdef")) [] false = Ok p ∧
       from_absolute_path (to_absolute_path p) = Ok p.
Proof.
  eexists. split; [reflexivity|].
  eapply (built_paths_parse (B "foo") (Text (B "0123456789abcdef0123456789abcdef")) [] false).
  reflexivity.
Defined.

Lemma compress_hash_witness :
  b2z <$> compress_hash 20 (B "0123456789abcdef0123456789abcdef") !! 3 =
    Some (xor_column 20 3 0 (B "0123456789abcdef0123456789abcdef")).
Proof. apply compress_hash_spec. lia. Defined.

Lemma build_ca_path_self_reference_witness :
  ∃ p, build_ca_path (B "foo") (Flat (NHSha1 [])) [] true = Ok p.
Proof.
  destruct (proj2 (build_ca_path_self_reference_guard (B "foo") [] [] (NHSha1 []))) as (p & Hp & _).
  - apply (bool_decide_unpack _). by vm_compute.
  - by exists p.
Defined.

End StorePath.
