(* ===== verification/Io.v ===== *)
(** * [std::io] as the source uses it

    A [BufRead] is the sequence of what its source will deliver: chunks (one
    per [fill_buf], so every splitting of the data is a reader) and I/O faults.
    A writer is a type with [write_all]. *)

From stdpp Require Import strings.
From S2P Require Import Prelude.
#[local] Open Scope nat_scope.

(** [std::io::ErrorKind], as far as the code tells kinds apart. *)
Create HintDb nar.

Inductive ErrorKind :=
| Interrupted | UnexpectedEof | InvalidData | InvalidInput | Other
| NotFound | NotConnected | BrokenPipe.

#[global] Instance ErrorKind_eq_dec : EqDecision ErrorKind.
Proof. solve_decision. Defined.

(** ** Readers *)

Inductive event :=
| Chunk (b : byte) (bs : bytes)   (** a non-empty buffer *)
| Fault (k : ErrorKind).

Abbreviation reader := (list event).

(** Calls that may fail and change a state [S]: the outcome and the state
    after it, which survives a failure. *)
Definition sm (S A : Type) : Type := S → outcome ErrorKind A * S.

Definition sret {S A} (a : A) : sm S A := λ s, (Ok a, s).
Definition sthrow {S A} (e : ErrorKind) : sm S A := λ s, (Err e, s).
Definition spanic {S A} : sm S A := λ s, (Panic, s).

Definition sbind {S A B} (m : sm S A) (f : A → sm S B) : sm S B := λ s,
  match m s with
  | (Ok a, s) => f a s
  | (Err e, s) => (Err e, s)
  | (Panic, s) => (Panic, s)
  end.

(** [assert!(b)] *)
Definition sassert {S} (b : bool) : sm S unit := if b then sret tt else spanic.

Notation "'let!' x ':=' m 'in' k" := (sbind m (fun x => k))
  (at level 10, x pattern, m at level 100, k at level 200) : rust_scope.

Abbreviation io := (sm reader).

Lemma sbind_Ok {S A B} (m : sm S A) (f : A → sm S B) s b s'' :
  sbind m f s = (Ok b, s'') ↔ ∃ a s', m s = (Ok a, s') ∧ f a s' = (Ok b, s'').
Proof.
  unfold sbind. destruct (m s) as [[a|e|] s']; split.
  - intros H. by exists a, s'.
  - intros (? & ? & ? & H). by simplify_eq.
  - done.
  - intros (? & ? & ? & H). by simplify_eq.
  - done.
  - intros (? & ? & ? & H). by simplify_eq.
Qed.

(** Runs the first step of a chain whose outcome is known. *)
Lemma sbind_step {S A B} (m : sm S A) (f : A → sm S B) s a s' :
  m s = (Ok a, s') → sbind m f s = f a s'.
Proof. intros H. unfold sbind. by rewrite H. Qed.

(** [BufRead::fill_buf]: empty at the end of the data. *)
Definition fill_buf : io bytes := λ r,
  match r with
  | [] => (Ok [], [])
  | Chunk b bs :: _ => (Ok (b :: bs), r)
  | Fault k :: r => (Err k, r)
  end.

(** [BufRead::consume]: drops from the current buffer. *)
Definition consume (n : nat) (r : reader) : reader :=
  match r with
  | Chunk b bs :: r' =>
      match drop n (b :: bs) with
      | [] => r'
      | b :: bs => Chunk b bs :: r'
      end
  | _ => r
  end.

(** [Read::read] into a buffer of [n] bytes: what the current chunk has. *)
Definition read (n : nat) : io bytes := λ r,
  if n =? 0 then (Ok [], r) else
  match fill_buf r with
  | (Ok buf, r) => (Ok (take n buf), consume (Nat.min n (length buf)) r)
  | (e, r) => (e, r)
  end.

(** [Read::read_exact]: [n] bytes or an error; an interrupted read is retried. *)
Fixpoint read_exact_from (r : reader) (n : nat) {struct r} : outcome ErrorKind bytes * reader :=
  match n with
  | O => (Ok [], r)
  | _ =>
    match r with
    | [] => (Err UnexpectedEof, [])
    | Chunk b bs :: r' =>
        if n <=? length bs then
          (Ok (take n (b :: bs)), consume n (Chunk b bs :: r'))
        else
          match read_exact_from r' (n - S (length bs)) with
          | (Ok rest, r'') => (Ok (b :: bs ++ rest), r'')
          | (e, r'') => (e, r'')
          end
    | Fault Interrupted :: r' => read_exact_from r' n
    | Fault k :: r' => (Err k, r')
    end
  end.

Definition read_exact (n : nat) : io bytes := λ r, read_exact_from r n.

(** The data a reader will deliver, and readers that never fail. *)
Fixpoint contents (r : reader) : bytes :=
  match r with
  | [] => []
  | Chunk b bs :: r => (b :: bs) ++ contents r
  | Fault _ :: r => contents r
  end.

Definition is_chunk (e : event) : bool :=
  match e with Chunk _ _ => true | Fault _ => false end.

Definition no_fault (r : reader) : Prop := Forall (λ e, is_chunk e = true) r.

(** The reader that delivers [bs] in one chunk. *)
Definition of_bytes (bs : bytes) : reader :=
  match bs with [] => [] | b :: bs => [Chunk b bs] end.

Lemma no_fault_nil : no_fault [].
Proof. constructor. Qed.

Lemma no_fault_cons e r : no_fault (e :: r) ↔ is_chunk e = true ∧ no_fault r.
Proof. unfold no_fault. by rewrite Forall_cons. Qed.

Lemma of_bytes_no_fault bs : no_fault (of_bytes bs).
Proof. destruct bs; repeat constructor. Qed.

Lemma contents_of_bytes bs : contents (of_bytes bs) = bs.
Proof. destruct bs; simpl; [done|]. by rewrite app_nil_r. Qed.

Lemma contents_nil r : no_fault r → contents r = [] → r = [].
Proof. intros H. destruct H as [|[b bs|] r]; done. Qed.

Lemma consume_contents n b bs r :
  n ≤ S (length bs) →
  contents (consume n (Chunk b bs :: r)) = drop n (contents (Chunk b bs :: r)).
Proof.
  intros Hn. unfold consume. cbn [contents].
  rewrite drop_app_le by (simpl; lia). by destruct (drop n (b :: bs)).
Qed.

Lemma consume_no_fault n r : no_fault r → no_fault (consume n r).
Proof.
  destruct r as [|[b bs|k] r]; [done| |done]. intros [_ Hr]%no_fault_cons. unfold consume.
  destruct (drop n (b :: bs)); [done|]. by constructor.
Qed.

(** [read_exact] sees only the data, not how it is split into chunks. *)
Lemma read_exact_spec n r :
  no_fault r →
  (n ≤ length (contents r) ∧ ∃ r', read_exact n r = (Ok (take n (contents r)), r') ∧
     no_fault r' ∧ contents r' = drop n (contents r)) ∨
  (length (contents r) < n ∧ read_exact n r = (Err UnexpectedEof, [])).
Proof.
  unfold read_exact. intros Hr. revert n. induction Hr as [|e r He Hr IH]; intros n.
  { destruct n; [left|right]; simpl; eauto using no_fault_nil with lia. }
  destruct n as [|n]; [left; split; [lia|]; exists (e :: r); repeat split; by constructor|].
  destruct e as [b bs|]; [|done]. cbn [read_exact_from].
  destruct (Nat.leb_spec (S n) (length bs)) as [Hn|Hn].
  - left. cbn [contents]. rewrite length_app. split; [simpl; lia|].
    exists (consume (S n) (Chunk b bs :: r)). split_and!.
    + rewrite take_app_le by (simpl; lia). done.
    + apply consume_no_fault. by constructor.
    + apply consume_contents. lia.
  - cbn [contents]. rewrite length_app. cbn [length].
    destruct (IH (S n - S (length bs))) as [(Hl & r' & -> & Hr' & Hc)|(Hl & ->)].
    + left. split; [lia|]. exists r'. split_and!; [|done|].
      * do 2 f_equal. rewrite take_app_ge by (simpl; lia). simpl. do 2 f_equal.
      * rewrite Hc, drop_app_ge by (simpl; lia). done.
    + right. split; [lia|done].
Qed.

Lemma read_exact_app n r xs ys :
  no_fault r → contents r = xs ++ ys → length xs = n →
  ∃ r', read_exact n r = (Ok xs, r') ∧ no_fault r' ∧ contents r' = ys.
Proof.
  intros Hr Hc <-. destruct (read_exact_spec (length xs) r Hr) as [(_ & r' & E & ? & Hc')|(Hl & _)].
  - exists r'. rewrite E, Hc', Hc, take_app_length, drop_app_length. done.
  - rewrite Hc, length_app in Hl. lia.
Qed.

Lemma read_exact_Ok n r xs r' :
  no_fault r → read_exact n r = (Ok xs, r') →
  no_fault r' ∧ contents r = xs ++ contents r' ∧ length xs = n.
Proof.
  intros Hr E. destruct (read_exact_spec n r Hr) as [(Hl & r'' & E' & ? & Hc')|(_ & E')];
    rewrite E in E'; simplify_eq.
  split_and!; [done| |by apply length_take_le]. by rewrite Hc', take_drop.
Qed.

(** ** Writers *)

Class Write (W : Type) := write_all : bytes → W → outcome ErrorKind W.

(** [Write for Vec<u8>] *)
#[global] Instance Vec_Write : Write bytes := λ data w, Ok (w ++ data).

(** ** Reading a given string

    [reads m xs a]: on any splitting of [xs ++ ys] into chunks, [m] consumes
    exactly [xs] and answers [a]. [accepts m P]: whatever [m] answers on a
    reader without faults, it consumed a string [xs] with [P a xs]. *)

Definition reads {A} (m : io A) (xs : bytes) (a : A) : Prop :=
  ∀ r ys, no_fault r → contents r = xs ++ ys →
    ∃ r', m r = (Ok a, r') ∧ no_fault r' ∧ contents r' = ys.

Definition accepts {A} (m : io A) (P : A → bytes → Prop) : Prop :=
  ∀ r a r', no_fault r → m r = (Ok a, r') →
    no_fault r' ∧ ∃ xs, contents r = xs ++ contents r' ∧ P a xs.

(** No outcome of [m] is a panic, on any reader. *)
Definition panic_free {S A} (m : sm S A) : Prop := ∀ s, (m s).1 ≠ Panic.

Lemma reads_ret {A} (a : A) : reads (sret a) [] a.
Proof. intros r ys Hr Hc. by exists r. Qed.

Lemma reads_bind {A B} (m : io A) (f : A → io B) xs ys a b :
  reads m xs a → reads (f a) ys b → reads (sbind m f) (xs ++ ys) b.
Proof.
  intros Hm Hf r zs Hr Hc. rewrite <- app_assoc in Hc.
  destruct (Hm r _ Hr Hc) as (r' & E & Hr' & Hc').
  rewrite (sbind_step _ _ _ _ _ E). by apply Hf.
Qed.

Lemma reads_bind_nil {A B} (m : io A) (f : A → io B) ys a b :
  reads m [] a → reads (f a) ys b → reads (sbind m f) ys b.
Proof. apply reads_bind. Qed.

Lemma reads_bind_last {A B} (m : io A) (f : A → io B) xs a b :
  reads m xs a → reads (f a) [] b → reads (sbind m f) xs b.
Proof. rewrite <- (app_nil_r xs) at 2. apply reads_bind. Qed.

Lemma accepts_ret {A} (a : A) (P : A → bytes → Prop) : P a [] → accepts (sret a) P.
Proof. intros HP r a' r' Hr E. injection E as -> ->. split; [done|]. by exists []. Qed.

Lemma accepts_throw {A} e (P : A → bytes → Prop) : accepts (sthrow e) P.
Proof. by intros r a r' Hr E. Qed.

Lemma accepts_panic {A} (P : A → bytes → Prop) : accepts spanic P.
Proof. by intros r a r' Hr E. Qed.

Lemma accepts_bind {A B} (m : io A) (f : A → io B) (P : A → bytes → Prop) (Q : B → bytes → Prop) :
  accepts m P →
  (∀ a xs, P a xs → accepts (f a) (λ b ys, Q b (xs ++ ys))) →
  accepts (sbind m f) Q.
Proof.
  intros Hm Hf r b r'' Hr (a & r' & E & E')%sbind_Ok.
  destruct (Hm _ _ _ Hr E) as (Hr' & xs & Hc & HP).
  destruct (Hf _ _ HP _ _ _ Hr' E') as (Hr'' & ys & Hc' & HQ).
  split; [done|]. exists (xs ++ ys). by rewrite Hc, Hc', app_assoc.
Qed.

Lemma accepts_assert (b : bool) (P : unit → bytes → Prop) : P tt [] → accepts (sassert b) P.
Proof. destruct b; [apply accepts_ret|intros; apply accepts_panic]. Qed.

Lemma reads_read_exact xs : reads (read_exact (length xs)) xs xs.
Proof. intros r ys Hr Hc. by apply read_exact_app. Qed.

Lemma accepts_read_exact n : accepts (read_exact n) (λ a xs, xs = a ∧ length a = n).
Proof.
  intros r a r' Hr E. destruct (read_exact_Ok _ _ _ _ Hr E) as (? & ? & ?). eauto.
Qed.

Lemma panic_free_bind {S A B} (m : sm S A) (f : A → sm S B) :
  panic_free m → (∀ a, panic_free (f a)) → panic_free (sbind m f).
Proof.
  intros Hm Hf s. unfold sbind. specialize (Hm s). destruct (m s) as [[a|e|] s']; simpl in *; [|done|done].
  apply Hf.
Qed.

Lemma panic_free_ret {S A} (a : A) : panic_free (S := S) (sret a).
Proof. done. Qed.
Lemma panic_free_throw {S A} e : panic_free (S := S) (A := A) (sthrow e).
Proof. done. Qed.

Lemma panic_free_read_exact n : panic_free (read_exact n).
Proof.
  intros r. unfold read_exact. revert n. induction r as [|[b bs|[]] r IH]; intros [|n]; try done.
  - cbn [read_exact_from]. case_match; [done|]. specialize (IH (S n - S (length bs))).
    by destruct (read_exact_from r _) as [[]].
  - apply (IH (S n)).
Qed.

#[export] Hint Resolve panic_free_ret panic_free_throw panic_free_read_exact : nar.
#[export] Hint Resolve panic_free_bind : nar.

Lemma read_exact_length n r xs r' : read_exact n r = (Ok xs, r') → length xs = n.
Proof.
  unfold read_exact. revert n xs r'. induction r as [|[b bs|[]] r IH]; intros [|n] xs r' E;
    cbn [read_exact_from] in E; try by simplify_eq.
  - destruct (Nat.leb_spec (S n) (length bs)).
    + simplify_eq. simpl. rewrite length_take_le; lia.
    + destruct (read_exact_from r _) as [[ys|e|] r''] eqn:E'; simplify_eq.
      apply IH in E'. simpl. rewrite length_app. lia.
  - by apply IH in E.
Qed.

Lemma panic_free_read_exact_bind {A} n (f : bytes → io A) :
  (∀ xs, length xs = n → panic_free (f xs)) → panic_free (sbind (read_exact n) f).
Proof.
  intros Hf r. unfold sbind. pose proof (panic_free_read_exact n r) as Hp.
  destruct (read_exact n r) as [[xs|e|] r'] eqn:E; simpl in *; [|done|done].
  apply Hf. by eapply read_exact_length.
Qed.

Lemma panic_free_assert {S A} (b : bool) (f : unit → sm S A) :
  b = true → panic_free (f tt) → panic_free (sbind (sassert b) f).
Proof. intros -> Hf s. apply Hf. Qed.
