(* ===== verification/Nom.v ===== *)
(** * The [nom] parser combinators the ATerm parser is built from

    [nom] is a third-party crate: its combinators are a class of operations,
    with a class of what its documentation says of them on complete input. The
    kinds of errors are left open; so is which of them a combinator reports.
    The module [NomModel] gives an instance that computes. *)

From stdpp Require Import strings.
From S2P Require Import Prelude.
#[local] Open Scope nat_scope.

(** [nom::Err] *)
Inductive nom_err (E : Type) :=
| Incomplete
| Error (e : E)
| Failure (e : E).
Arguments Incomplete {E}.
Arguments Error {E} e.
Arguments Failure {E} e.

(** [nom::IResult]: the rest of the input and the value. *)
Definition parser (E A : Type) : Type := bytes → outcome (nom_err E) (bytes * A).

(** [nom::error::ParseError] and [FromExternalError]; [K] is
    [nom::error::ErrorKind]. *)
Class ParseError (K E : Type) := {
  from_error_kind : bytes → K → E;
  append : bytes → K → E → E;
}.
Class FromExternalError (K E : Type) := from_external_error : ∀ X, bytes → K → X → E.

(** [nom::error::Error] *)
Record NomErr (K : Type) := mkNomErr {
  err_input : bytes;
  err_code : K;
}.
Arguments mkNomErr {K} _ _.
Arguments err_input {K} _.
Arguments err_code {K} _.

Class Nom (K : Type) := {
  nom_Error_ParseError :: ParseError K (NomErr K);
  tag : ∀ {E} `{!ParseError K E}, bytes → parser E bytes;
  nomchar : ∀ {E} `{!ParseError K E}, byte → parser E byte;
  is_not : ∀ {E} `{!ParseError K E}, bytes → parser E bytes;
  alt : ∀ {E A} `{!ParseError K E}, list (parser E A) → parser E A;
  map : ∀ {E A C}, parser E A → (A → C) → parser E C;
  value : ∀ {E A C}, C → parser E A → parser E C;
  map_opt : ∀ {E A C} `{!ParseError K E}, parser E A → (A → option C) → parser E C;
  map_res : ∀ {E X A C} `{!FromExternalError K E},
    parser E A → (A → outcome X C) → parser E C;
  delimited : ∀ {E A1 A A2}, parser E A1 → parser E A → parser E A2 → parser E A;
  preceded : ∀ {E A1 A}, parser E A1 → parser E A → parser E A;
  terminated : ∀ {E A A2}, parser E A → parser E A2 → parser E A;
  separated_pair : ∀ {E A S C}, parser E A → parser E S → parser E C → parser E (A * C);
  tuple4 : ∀ {E A1 A2 A3 A4}, parser E A1 → parser E A2 → parser E A3 → parser E A4 →
    parser E (A1 * A2 * A3 * A4);
  tuple7 : ∀ {E A1 A2 A3 A4 A5 A6 A7}, parser E A1 → parser E A2 → parser E A3 → parser E A4 →
    parser E A5 → parser E A6 → parser E A7 → parser E (A1 * A2 * A3 * A4 * A5 * A6 * A7);
  separated_list0 : ∀ {E S A} `{!ParseError K E}, parser E S → parser E A → parser E (list A);
  separated_list1 : ∀ {E S A} `{!ParseError K E}, parser E S → parser E A → parser E (list A);
  escaped_transform : ∀ {E} `{!ParseError K E},
    parser E bytes → byte → parser E bytes → parser E bytes;
  all_consuming : ∀ {E A} `{!ParseError K E}, parser E A → parser E A;
}.

(** ** What the documentation says *)

(** A recoverable failure. *)
Definition fails {E A} (p : parser E A) (i : bytes) : Prop := ∃ e, p i = Err (Error e).

(** Elements alternating with separators: [items sep p i l r] parses the list
    [l] from [i] and stops at [r], where no separator and element follow. *)
Inductive items {E S A} (sep : parser E S) (p : parser E A) : bytes → list A → bytes → Prop :=
| items_last i a r :
    p i = Ok (r, a) → length r ≤ length i → fails sep r → items sep p i [a] r
| items_more i i1 i2 a s l r :
    p i = Ok (i1, a) → length i1 ≤ length i → sep i1 = Ok (i2, s) → length i2 < length i1 →
    items sep p i2 l r → items sep p i (a :: l) r.

(** Runs of [normal] and escapes, up to where neither goes on. *)
Inductive transformed {E} (normal : parser E bytes) (control : byte) (transform : parser E bytes)
    : bytes → bytes → bytes → Prop :=
| transformed_stop c i :
    fails normal (c :: i) → c ≠ control → transformed normal control transform (c :: i) [] (c :: i)
| transformed_normal i i1 o out r :
    normal i = Ok (i1, o) → length i1 < length i → i1 ≠ [] →
    transformed normal control transform i1 out r →
    transformed normal control transform i (o ++ out) r
| transformed_escape i i1 o out r :
    fails normal (control :: i) → transform i = Ok (i1, o) → length i1 ≤ length i → i1 ≠ [] →
    transformed normal control transform i1 out r →
    transformed normal control transform (control :: i) (o ++ out) r.

Class NomLaws (K : Type) `{!Nom K} : Prop := {
  tag_eq E `{!ParseError K E} t i r : strip_prefix t i = Some r → tag t i = Ok (r, t);
  tag_fails E `{!ParseError K E} t i : strip_prefix t i = None → fails (tag (E := E) t) i;
  nomchar_eq E `{!ParseError K E} c i : nomchar (E := E) c (c :: i) = Ok (i, c);
  nomchar_fails E `{!ParseError K E} c i :
    hd_error i ≠ Some c → fails (nomchar (E := E) c) i;
  is_not_eq E `{!ParseError K E} cs xs c i :
    xs ≠ [] → Forall (.∉ cs) xs → c ∈ cs →
    is_not (E := E) cs (xs ++ c :: i) = Ok (c :: i, xs);
  is_not_fails E `{!ParseError K E} cs c i : c ∈ cs → fails (is_not (E := E) cs) (c :: i);
  alt_eq E A `{!ParseError K E} (ps qs : list (parser E A)) p i r :
    Forall (λ p, fails p i) ps → p i = Ok r → alt (ps ++ p :: qs) i = Ok r;
  map_eq E A C (p : parser E A) (f : A → C) i :
    map p f i = let? (i, a) := p i in Ok (i, f a);
  value_eq E A C (p : parser E A) (c : C) i : value c p i = let? (i, _) := p i in Ok (i, c);
  map_opt_eq E A C `{!ParseError K E} (p : parser E A) (f : A → option C) i i1 a c :
    p i = Ok (i1, a) → f a = Some c → map_opt p f i = Ok (i1, c);
  map_opt_fails E A C `{!ParseError K E} (p : parser E A) (f : A → option C) i :
    (fails p i ∨ ∃ i1 a, p i = Ok (i1, a) ∧ f a = None) → fails (map_opt p f) i;
  map_res_eq E X A C `{!FromExternalError K E} (p : parser E A) (f : A → outcome X C) i i1 a c :
    p i = Ok (i1, a) → f a = Ok c → map_res p f i = Ok (i1, c);
  map_res_error E X A C `{!FromExternalError K E} (p : parser E A) (f : A → outcome X C) i i1 a x :
    p i = Ok (i1, a) → f a = Err x →
    ∃ k, map_res p f i = Err (Error (from_external_error X i k x));
  delimited_eq E A1 A A2 (p1 : parser E A1) (p : parser E A) (p2 : parser E A2) i :
    delimited p1 p p2 i =
      let? (i, _) := p1 i in let? (i, a) := p i in let? (i, _) := p2 i in Ok (i, a);
  preceded_eq E A1 A (p1 : parser E A1) (p : parser E A) i :
    preceded p1 p i = let? (i, _) := p1 i in p i;
  terminated_eq E A A2 (p : parser E A) (p2 : parser E A2) i :
    terminated p p2 i = let? (i, a) := p i in let? (i, _) := p2 i in Ok (i, a);
  separated_pair_eq E A S C (p : parser E A) (s : parser E S) (q : parser E C) i :
    separated_pair p s q i =
      let? (i, a) := p i in let? (i, _) := s i in let? (i, c) := q i in Ok (i, (a, c));
  tuple4_eq E A1 A2 A3 A4 (p1 : parser E A1) (p2 : parser E A2) (p3 : parser E A3)
      (p4 : parser E A4) i :
    tuple4 p1 p2 p3 p4 i =
      let? (i, a1) := p1 i in let? (i, a2) := p2 i in let? (i, a3) := p3 i in
      let? (i, a4) := p4 i in Ok (i, (a1, a2, a3, a4));
  tuple7_eq E A1 A2 A3 A4 A5 A6 A7 (p1 : parser E A1) (p2 : parser E A2) (p3 : parser E A3)
      (p4 : parser E A4) (p5 : parser E A5) (p6 : parser E A6) (p7 : parser E A7) i :
    tuple7 p1 p2 p3 p4 p5 p6 p7 i =
      let? (i, a1) := p1 i in let? (i, a2) := p2 i in let? (i, a3) := p3 i in
      let? (i, a4) := p4 i in let? (i, a5) := p5 i in let? (i, a6) := p6 i in
      let? (i, a7) := p7 i in Ok (i, (a1, a2, a3, a4, a5, a6, a7));
  separated_list0_nil E S A `{!ParseError K E} (sep : parser E S) (p : parser E A) i :
    fails p i → separated_list0 sep p i = Ok (i, []);
  separated_list0_items E S A `{!ParseError K E} (sep : parser E S) (p : parser E A) i l r :
    items sep p i l r → separated_list0 sep p i = Ok (r, l);
  separated_list1_items E S A `{!ParseError K E} (sep : parser E S) (p : parser E A) i l r :
    items sep p i l r → separated_list1 sep p i = Ok (r, l);
  separated_list1_fails E S A `{!ParseError K E} (sep : parser E S) (p : parser E A) i :
    fails p i → fails (separated_list1 sep p) i;
  escaped_transform_eq E `{!ParseError K E} (normal : parser E bytes) control transform i out r :
    transformed normal control transform i out r → length r < length i →
    escaped_transform normal control transform i = Ok (r, out);
  escaped_transform_fails E `{!ParseError K E} (normal : parser E bytes) control transform c i :
    fails normal (c :: i) → c ≠ control →
    fails (escaped_transform normal control transform) (c :: i);
  all_consuming_eq E A `{!ParseError K E} (p : parser E A) i a :
    p i = Ok ([], a) → all_consuming p i = Ok ([], a);
  all_consuming_rest E A `{!ParseError K E} (p : parser E A) i r a :
    p i = Ok (r, a) → r ≠ [] → fails (all_consuming p) i;
  all_consuming_err E A `{!ParseError K E} (p : parser E A) i e :
    p i = Err e → all_consuming p i = Err e;
}.

(** ** An instance *)

Module NomModel.

Section Loops.
Context {E : Type} (bad : bytes → E).

(** After an element: a separator and an element, or the end of the list. *)
Fixpoint sep_more {S A} (fuel : nat) (sep : parser E S) (p : parser E A) : parser E (list A) := λ i,
  match fuel with
  | O => Ok (i, [])
  | S fuel =>
      match sep i with
      | Err (Error _) => Ok (i, [])
      | Err e => Err e
      | Panic => Panic
      | Ok (i1, _) =>
          if length i1 =? length i then Err (Error (bad i)) else
          match p i1 with
          | Err (Error _) => Ok (i, [])
          | Err e => Err e
          | Panic => Panic
          | Ok (i2, a) => let? (r, l) := sep_more fuel sep p i2 in Ok (r, a :: l)
          end
      end
  end.

Definition sep1 {S A} (sep : parser E S) (p : parser E A) : parser E (list A) := λ i,
  let? (i1, a) := p i in
  let? (r, l) := sep_more (Datatypes.S (length i1)) sep p i1 in Ok (r, a :: l).

Definition sep0 {S A} (sep : parser E S) (p : parser E A) : parser E (list A) := λ i,
  match p i with Err (Error _) => Ok (i, []) | _ => sep1 sep p i end.

Fixpoint escape_loop (fuel : nat) (first : bool) (normal : parser E bytes) (control : byte)
    (transform : parser E bytes) (i : bytes) : outcome (nom_err E) (bytes * bytes) :=
  match fuel, i with
  | O, _ | _, [] => Ok (i, [])
  | S fuel, c :: i' =>
      match normal i with
      | Ok ([], o) => Ok ([], o)
      | Ok (i2, o) =>
          if length i2 =? length i then Ok (i, o) else
          let? (r, out) := escape_loop fuel false normal control transform i2 in Ok (r, o ++ out)
      | Err (Error _) =>
          if decide (c = control) then
            match i' with
            | [] => Err (Error (bad i))
            | _ :: _ =>
                let? (i2, o) := transform i' in
                match i2 with
                | [] => Ok ([], o)
                | _ :: _ =>
                    let? (r, out) := escape_loop fuel false normal control transform i2 in
                    Ok (r, o ++ out)
                end
            end
          else if first then Err (Error (bad i)) else Ok (i, [])
      | Err e => Err e
      | Panic => Panic
      end
  end.

Fixpoint alternatives {A} (i : bytes) (ps : list (parser E A)) : outcome (nom_err E) (bytes * A) :=
  match ps with
  | [] => Err (Error (bad i))
  | p :: ps => match p i with Err (Error _) => alternatives i ps | o => o end
  end.

Fixpoint span_not (cs i : bytes) : bytes * bytes :=
  match i with
  | [] => ([], [])
  | c :: i' => if decide (c ∈ cs) then ([], i) else
      let '(xs, r) := span_not cs i' in (c :: xs, r)
  end.

Lemma sep_more_items {S A} (sep : parser E S) (p : parser E A) i l r :
  items sep p i l r →
  ∃ a i1 l', l = a :: l' ∧ p i = Ok (i1, a) ∧ length i1 ≤ length i ∧
    ∀ fuel, length i1 < fuel → sep_more fuel sep p i1 = Ok (r, l').
Proof.
  induction 1 as [i a r Hp Hl [e Hs]
    |i i1 i2 a s l r Hp Hl Hs Hl2 _ (a' & i3 & l' & -> & Hp' & Hl' & IH)].
  - exists a, r, []. split_and!; [done..|]. intros [|fuel] Hf; [lia|]. simpl. by rewrite Hs.
  - exists a, i1, (a' :: l'). split_and!; [done..|]. intros [|fuel] Hf; [lia|]. simpl.
    rewrite Hs. rewrite (proj2 (Nat.eqb_neq _ _)) by lia. rewrite Hp'. rewrite IH by lia. done.
Qed.

Lemma sep1_items {S A} (sep : parser E S) (p : parser E A) i l r :
  items sep p i l r → sep1 sep p i = Ok (r, l).
Proof.
  intros (a & i1 & l' & -> & Hp & _ & Hm)%sep_more_items. unfold sep1. rewrite Hp. cbn [obind].
  rewrite Hm by lia. done.
Qed.

Lemma sep0_items {S A} (sep : parser E S) (p : parser E A) i l r :
  items sep p i l r → sep0 sep p i = Ok (r, l).
Proof.
  intros H. unfold sep0. destruct (sep_more_items _ _ _ _ _ H) as (a & i1 & l' & -> & -> & _).
  by apply sep1_items.
Qed.

Lemma escape_loop_transformed normal control transform i out r :
  transformed normal control transform i out r →
  ∀ fuel first, (first = true → length r < length i) → length i < fuel →
  escape_loop fuel first normal control transform i = Ok (r, out).
Proof.
  induction 1 as [c i [e He] Hc|i i1 o out r Hn Hl Hi1 _ IH|i i1 o out r [e He] Ht Hl Hi1 _ IH];
    intros [|fuel] first Hf Hlen; try lia; cbn [escape_loop].
  - rewrite He, decide_False by done. destruct first; [|done]. specialize (Hf eq_refl). lia.
  - destruct i as [|c i]; [simpl in *; lia|]. rewrite Hn.
    destruct i1 as [|c1 i1]; [done|]. rewrite (proj2 (Nat.eqb_neq _ _)) by lia.
    rewrite IH; [done|done|lia].
  - rewrite He, decide_True by done. destruct i as [|c' i]; [by destruct i1; simpl in *; try lia|].
    rewrite Ht. cbn [obind]. destruct i1 as [|c1 i1]; [done|].
    rewrite IH; [done|done|simpl in *; lia].
Qed.

Lemma alternatives_hit {A} i (ps qs : list (parser E A)) p r :
  Forall (λ p, fails p i) ps → p i = Ok r → alternatives i (ps ++ p :: qs) = Ok r.
Proof.
  induction 1 as [|q ps [e Hq] Hps IH]; intros Hp; simpl; [by rewrite Hp|]. rewrite Hq. auto.
Qed.

Lemma span_not_app cs xs c i :
  Forall (.∉ cs) xs → c ∈ cs → span_not cs (xs ++ c :: i) = (xs, c :: i).
Proof.
  induction 1 as [|x xs Hx Hxs IH]; intros Hc; simpl; [by rewrite decide_True|].
  rewrite decide_False by done. by rewrite IH.
Qed.

End Loops.

(** The kinds of errors are not told apart. *)
Definition nom_fail {E} `{!ParseError unit E} (i : bytes) : E := from_error_kind i tt.

#[export] Instance nom : Nom unit := {|
  nom_Error_ParseError := {| from_error_kind := mkNomErr; append _ _ e := e |};
  tag E _ t i := match strip_prefix t i with
                 | Some r => Ok (r, t) | None => Err (Error (nom_fail i)) end;
  nomchar E _ c i := match i with
                     | c' :: i' => if decide (c = c') then Ok (i', c) else Err (Error (nom_fail i))
                     | [] => Err (Error (nom_fail i)) end;
  is_not E _ cs i := match span_not cs i with
                     | ([], _) => Err (Error (nom_fail i)) | (xs, r) => Ok (r, xs) end;
  alt E A _ ps i := alternatives nom_fail i ps;
  map E A C p f i := let? (i, a) := p i in Ok (i, f a);
  value E A C c p i := let? (i, _) := p i in Ok (i, c);
  map_opt E A C _ p f i :=
    let? (i1, a) := p i in
    match f a with Some c => Ok (i1, c) | None => Err (Error (nom_fail i)) end;
  map_res E X A C _ p f i :=
    let? (i1, a) := p i in
    match f a with
    | Ok c => Ok (i1, c) | Err x => Err (Error (from_external_error X i tt x)) | Panic => Panic
    end;
  delimited E A1 A A2 p1 p p2 i :=
    let? (i, _) := p1 i in let? (i, a) := p i in let? (i, _) := p2 i in Ok (i, a);
  preceded E A1 A p1 p i := let? (i, _) := p1 i in p i;
  terminated E A A2 p p2 i := let? (i, a) := p i in let? (i, _) := p2 i in Ok (i, a);
  separated_pair E A S C p s q i :=
    let? (i, a) := p i in let? (i, _) := s i in let? (i, c) := q i in Ok (i, (a, c));
  tuple4 E A1 A2 A3 A4 p1 p2 p3 p4 i :=
    let? (i, a1) := p1 i in let? (i, a2) := p2 i in let? (i, a3) := p3 i in
    let? (i, a4) := p4 i in Ok (i, (a1, a2, a3, a4));
  tuple7 E A1 A2 A3 A4 A5 A6 A7 p1 p2 p3 p4 p5 p6 p7 i :=
    let? (i, a1) := p1 i in let? (i, a2) := p2 i in let? (i, a3) := p3 i in
    let? (i, a4) := p4 i in let? (i, a5) := p5 i in let? (i, a6) := p6 i in
    let? (i, a7) := p7 i in Ok (i, (a1, a2, a3, a4, a5, a6, a7));
  separated_list0 E S A _ sep p := sep0 nom_fail sep p;
  separated_list1 E S A _ sep p := sep1 nom_fail sep p;
  escaped_transform E _ normal control transform i :=
    escape_loop nom_fail (S (length i)) true normal control transform i;
  all_consuming E A _ p i :=
    let? (r, a) := p i in
    match r with [] => Ok ([], a) | _ :: _ => Err (Error (nom_fail r)) end;
|}.

#[export] Instance nom_laws : NomLaws unit.
Proof.
  constructor; intros; try done.
  - simpl. by rewrite H.
  - unfold fails. simpl. rewrite H. eauto.
  - simpl. by rewrite decide_True.
  - unfold fails. simpl. destruct i as [|c' i]; [eauto|]. rewrite decide_False by naive_solver. eauto.
  - simpl. rewrite span_not_app by done. by destruct xs.
  - unfold fails. simpl. rewrite decide_True by done. eauto.
  - simpl. by apply alternatives_hit.
  - simpl. rewrite H. simpl. by rewrite H0.
  - unfold fails. simpl. destruct H as [[e ->]|(i1 & a & -> & Hf)]; simpl; rewrite ?Hf; eauto.
  - simpl. rewrite H. simpl. by rewrite H0.
  - simpl. rewrite H. simpl. rewrite H0. eauto.
  - simpl. unfold sep0. by destruct H as [e ->].
  - by apply sep0_items.
  - by apply sep1_items.
  - unfold fails. simpl. unfold sep1. destruct H as [e ->]. simpl. eauto.
  - apply (escape_loop_transformed nom_fail _ _ _ _ _ _ H); [auto|lia].
  - unfold fails. simpl. destruct H as [e ->]. rewrite decide_False by done. eauto.
  - simpl. by rewrite H.
  - unfold fails. simpl. rewrite H. simpl. destruct r; [done|]. eauto.
  - simpl. by rewrite H.
Qed.

End NomModel.
