(* ===== verification/Aterm.v ===== *)
(** * [nix-compat/src/aterm]: strings of the ATerm format

    [escape.rs] and [parser.rs]. A Rust [String] is a byte string that is valid
    UTF-8, which [String::from_utf8] checks. *)

From stdpp Require Import strings.
From S2P Require Import Prelude Crates Nom.
#[local] Open Scope nat_scope.

(** ** [String::from_utf8] *)

Definition cont (b : byte) : bool := (0x80 <=? b2z b)%Z && (b2z b <=? 0xBF)%Z.
Definition between (lo : Z) (b : byte) (hi : Z) : bool := (lo <=? b2z b)%Z && (b2z b <=? hi)%Z.

(** The well-formed sequences of the Unicode standard, by their first byte. *)
Fixpoint utf8_valid (s : bytes) : bool :=
  match s with
  | [] => true
  | a :: s =>
      if is_ascii a then utf8_valid s else
      match s with
      | [] => false
      | b :: s =>
          if between 0xC2 a 0xDF then cont b && utf8_valid s else
          match s with
          | [] => false
          | c :: s =>
              if between 0xE0 a 0xE0 then between 0xA0 b 0xBF && cont c && utf8_valid s
              else if between 0xED a 0xED then between 0x80 b 0x9F && cont c && utf8_valid s
              else if between 0xE1 a 0xEF then cont b && cont c && utf8_valid s else
              match s with
              | [] => false
              | d :: s =>
                  cont c && cont d && utf8_valid s &&
                  (if between 0xF0 a 0xF0 then between 0x90 b 0xBF
                   else if between 0xF1 a 0xF3 then cont b
                   else if between 0xF4 a 0xF4 then between 0x80 b 0x8F
                   else false)
              end
          end
      end
  end.

Definition from_utf8 (s : bytes) : option bytes := if utf8_valid s then Some s else None.

Lemma utf8_valid_ascii s : Forall (λ b, is_ascii b = true) s → utf8_valid s = true.
Proof. induction 1 as [|b s Hb Hs IH]; [done|]. simpl. by rewrite Hb. Qed.

Lemma utf8_valid_ascii_app s t :
  Forall (λ b, is_ascii b = true) s → utf8_valid (s ++ t) = utf8_valid t.
Proof. induction 1 as [|b s Hb Hs IH]; [done|]. cbn [app utf8_valid]. by rewrite Hb. Qed.

(** ** escape.rs *)

Definition QUOTE : byte := Byte.x22.
Definition BACKSLASH : byte := Byte.x5c.

Section Aterm.
Context `{!Bstr}.

Definition escape_bytes (s : bytes) : bytes :=
  let s := bstr_replace s [BACKSLASH] [BACKSLASH; BACKSLASH] in
  let s := bstr_replace s [Byte.x0a] [BACKSLASH; Byte.x6e] in
  let s := bstr_replace s [Byte.x0d] [BACKSLASH; Byte.x72] in
  let s := bstr_replace s [Byte.x09] [BACKSLASH; Byte.x74] in
  bstr_replace s [QUOTE] [BACKSLASH; QUOTE].

(** What is written for one byte: the letter after a backslash, or itself. *)
Definition escape_letter (b : byte) : option byte :=
  if decide (b = BACKSLASH) then Some BACKSLASH
  else if decide (b = Byte.x0a) then Some Byte.x6e
  else if decide (b = Byte.x0d) then Some Byte.x72
  else if decide (b = Byte.x09) then Some Byte.x74
  else if decide (b = QUOTE) then Some QUOTE
  else None.

Definition escape_byte (b : byte) : bytes :=
  match escape_letter b with Some l => [BACKSLASH; l] | None => [b] end.

Lemma escape_bytes_spec `{!BstrLaws} s : escape_bytes s = s ≫= escape_byte.
Proof.
  unfold escape_bytes. rewrite !replace_byte.
  induction s as [|b s IH]; [done|]. rewrite (bind_cons escape_byte), <- IH.
  rewrite (bind_cons _ b), !bind_app. f_equal. by destruct b.
Qed.

(** ** parser.rs *)

Context {K : Type} `{!Nom K}.

Definition parse_escaped_bytes : parser (NomErr K) bytes :=
  escaped_transform (is_not [QUOTE; BACKSLASH]) BACKSLASH
    (alt [value [BACKSLASH] (nomchar BACKSLASH);
          value [Byte.x0a] (nomchar Byte.x6e);
          value [Byte.x09] (nomchar Byte.x74);
          value [Byte.x0d] (nomchar Byte.x72);
          value [QUOTE] (nomchar QUOTE)]).

Definition parse_bytes_field : parser (NomErr K) bytes :=
  delimited (nomchar QUOTE)
    (alt [parse_escaped_bytes; map (tag []) (λ _, [])])
    (nomchar QUOTE).

Definition parse_string_field : parser (NomErr K) bytes :=
  delimited (nomchar QUOTE)
    (alt [map_opt parse_escaped_bytes from_utf8; map (tag []) (λ _, [])])
    (nomchar QUOTE).

Definition parse_string_list : parser (NomErr K) (list bytes) :=
  delimited (nomchar Byte.x5b)
    (separated_list0 (nomchar Byte.x2c) parse_string_field)
    (nomchar Byte.x5d).

(** ** Reading back what was escaped *)

Context `{!BstrLaws, !NomLaws K}.

Lemma bind_plain xs : Forall (λ b, escape_letter b = None) xs → xs ≫= escape_byte = xs.
Proof.
  induction 1 as [|b xs Hb Hxs IH]; [done|]. rewrite bind_cons, IH. unfold escape_byte. by rewrite Hb.
Qed.

Lemma plain_not_stop b : escape_letter b = None → b ∉ [QUOTE; BACKSLASH].
Proof. intros Hb. apply (bool_decide_unpack _). by destruct b. Qed.

(** A run of plain bytes, as long as possible. *)
Lemma plain_run s :
  ∃ xs ys, s = xs ++ ys ∧ Forall (λ b, escape_letter b = None) xs ∧
    (ys = [] ∨ ∃ b l ys', ys = b :: ys' ∧ escape_letter b = Some l).
Proof.
  induction s as [|b s (xs & ys & -> & Hxs & Hys)]; [by exists [], []; auto|].
  destruct (escape_letter b) as [l|] eqn:Hb; [exists [], (b :: xs ++ ys)|exists (b :: xs), ys];
    split_and!; eauto 10.
Qed.

(** Every parser before the one that matches fails. *)
Ltac all_fail Hf := repeat first [apply Forall_cons_2; [by apply Hf|] | apply Forall_nil_2].

Lemma letter_parsed b l i :
  escape_letter b = Some l →
  alt (E := NomErr K)
    [value [BACKSLASH] (nomchar BACKSLASH); value [Byte.x0a] (nomchar Byte.x6e);
     value [Byte.x09] (nomchar Byte.x74); value [Byte.x0d] (nomchar Byte.x72);
     value [QUOTE] (nomchar QUOTE)] (l :: i) = Ok (i, [b]).
Proof.
  assert (∀ (v : bytes) (c c' : byte), c ≠ c' → fails (value (E := NomErr K) v (nomchar c)) (c' :: i)) as Hf.
  { intros v c c' Hc. destruct (nomchar_fails (NomErr K) c (c' :: i)) as [e He]; [naive_solver|].
    exists e. by rewrite value_eq, He. }
  assert (∀ (v : bytes) (c : byte), value (E := NomErr K) v (nomchar c) (c :: i) = Ok (i, v)) as Ho.
  { intros v c. by rewrite value_eq, nomchar_eq. }
  unfold escape_letter. repeat case_decide; intros; simplify_eq.
  - by apply (alt_eq _ _ []).
  - apply (alt_eq _ _ [_]); [|done]. by all_fail Hf.
  - apply (alt_eq _ _ [_; _; _]); [|done]. by all_fail Hf.
  - apply (alt_eq _ _ [_; _]); [|done]. by all_fail Hf.
  - apply (alt_eq _ _ [_; _; _; _]); [|done]. by all_fail Hf.
Qed.

(** Escaped text before a closing quote, as [escaped_transform] sees it. *)
Lemma escaped_transformed s i :
  transformed (E := NomErr K) (is_not [QUOTE; BACKSLASH]) BACKSLASH
    (alt [value [BACKSLASH] (nomchar BACKSLASH); value [Byte.x0a] (nomchar Byte.x6e);
          value [Byte.x09] (nomchar Byte.x74); value [Byte.x0d] (nomchar Byte.x72);
          value [QUOTE] (nomchar QUOTE)])
    ((s ≫= escape_byte) ++ QUOTE :: i) s (QUOTE :: i).
Proof.
  remember (length s) as n eqn:Hn. revert s Hn.
  induction (lt_wf n) as [n _ IH]. intros s ->.
  destruct (plain_run s) as (xs & ys & -> & Hxs & Hys).
  destruct xs as [|x xs]; cbn [app].
  - destruct Hys as [->|(b & l & ys' & -> & Hb)].
    + apply transformed_stop; [|done]. apply is_not_fails. set_solver.
    + rewrite bind_cons. unfold escape_byte at 1. rewrite Hb. cbn [app].
      apply (transformed_escape _ _ _ _ ((ys' ≫= escape_byte) ++ QUOTE :: i) [b]).
      * apply is_not_fails. set_solver.
      * by apply letter_parsed.
      * simpl. lia.
      * by destruct (ys' ≫= escape_byte).
      * apply (IH (length ys')); [simpl; lia|done].
  - change (x :: xs ++ ys) with ((x :: xs) ++ ys). rewrite bind_app, (bind_plain (x :: xs)) by done.
    rewrite <- app_assoc. set (tail := (ys ≫= escape_byte) ++ QUOTE :: i).
    assert (∃ c r, tail = c :: r ∧ c ∈ [QUOTE; BACKSLASH]) as (c & r & Ht & Hc).
    { unfold tail. destruct Hys as [->|(b & l & ys' & -> & Hb)].
      - exists QUOTE, i. split; [done|set_solver].
      - rewrite bind_cons. unfold escape_byte at 1. rewrite Hb. eexists _, _. split; [done|set_solver]. }
    apply (transformed_normal _ _ _ _ tail (x :: xs)).
    + rewrite Ht. apply is_not_eq; [done| |done].
      eapply Forall_impl; [exact Hxs|]. apply plain_not_stop.
    + rewrite length_app. simpl. lia.
    + by rewrite Ht.
    + apply (IH (length ys)); [rewrite length_app; simpl; lia|done].
Qed.

Lemma parse_escaped_bytes_eq s i :
  s ≠ [] → parse_escaped_bytes (escape_bytes s ++ QUOTE :: i) = Ok (QUOTE :: i, s).
Proof.
  intros Hs. rewrite escape_bytes_spec. apply escaped_transform_eq; [apply escaped_transformed|].
  rewrite length_app. destruct s as [|b s]; [done|]. rewrite bind_cons, length_app.
  unfold escape_byte at 1. destruct (escape_letter b); simpl; lia.
Qed.

Lemma parse_escaped_bytes_empty i : fails parse_escaped_bytes (QUOTE :: i).
Proof. apply escaped_transform_fails; [apply is_not_fails; set_solver|done]. Qed.

Lemma empty_parsed i : map (E := NomErr K) (tag []) (λ _, @nil byte) i = Ok (i, []).
Proof. rewrite map_eq. by rewrite (tag_eq _ [] i i). Qed.

Lemma parse_bytes_field_eq s i :
  parse_bytes_field (QUOTE :: escape_bytes s ++ QUOTE :: i) = Ok (i, s).
Proof.
  unfold parse_bytes_field. rewrite delimited_eq, nomchar_eq. cbn [obind].
  assert (alt (E := NomErr K) [parse_escaped_bytes; map (tag []) (λ _, [])]
            (escape_bytes s ++ QUOTE :: i) = Ok (QUOTE :: i, s)) as ->.
  { destruct s as [|b s].
    - rewrite escape_bytes_spec. apply (alt_eq _ _ [_]); [|apply empty_parsed].
      apply Forall_singleton, parse_escaped_bytes_empty.
    - apply (alt_eq _ _ []); [done|]. by apply parse_escaped_bytes_eq. }
  cbn [obind]. by rewrite nomchar_eq.
Qed.

Lemma parse_string_field_eq s i :
  utf8_valid s = true → parse_string_field (QUOTE :: escape_bytes s ++ QUOTE :: i) = Ok (i, s).
Proof.
  intros Hs. unfold parse_string_field. rewrite delimited_eq, nomchar_eq. cbn [obind].
  assert (alt (E := NomErr K) [map_opt parse_escaped_bytes from_utf8; map (tag []) (λ _, [])]
            (escape_bytes s ++ QUOTE :: i) = Ok (QUOTE :: i, s)) as ->.
  { destruct s as [|b s].
    - rewrite escape_bytes_spec. apply (alt_eq _ _ [_]); [|apply empty_parsed].
      apply Forall_singleton, map_opt_fails. left. apply parse_escaped_bytes_empty.
    - apply (alt_eq _ _ []); [done|]. eapply map_opt_eq; [by apply parse_escaped_bytes_eq|].
      unfold from_utf8. by rewrite Hs. }
  cbn [obind]. by rewrite nomchar_eq.
Qed.

End Aterm.
