(* ===== verification/Derivation.v ===== *)
(** * [nix-compat/src/derivation]: derivations

    The data ([mod.rs], [output.rs]), validation ([validate.rs]), the ATerm
    writer ([write.rs]), hashes and output paths ([mod.rs]) and the ATerm
    parser ([parser.rs], [parse_error.rs]). A [BTreeMap] is its sorted list of
    entries, a [BTreeSet] a map to [()]; a [String] field is a byte string. *)

From stdpp Require Import strings.
From S2P Require Import Prelude Crates BTreeMap NixBase32 NixHash StorePath Io Nom Aterm.
#[local] Open Scope nat_scope.

Abbreviation SPath := StorePath.StorePath.

(** ** Data *)

Record Output := mkOutput {
  path : option SPath;
  output_ca_hash : option CAHash;
}.

Record Derivation := mkDerivation {
  arguments : list bytes;
  builder : bytes;
  environment : list (bytes * bytes);
  input_derivations : list (SPath * BTreeSet bytes);
  input_sources : BTreeSet SPath;
  outputs : list (bytes * Output);
  system : bytes;
}.

Inductive OutputError :=
| InvalidOutputPath (s : bytes) (e : StorePath.Error)
| MissingOutputPath
| InvalidCAHash (c : CAHash).

Inductive DerivationError :=
| NoOutputs
| InvalidOutputName (s : bytes)
| MoreThanOneOutputButFixed
| InvalidOutputNameForFixed (s : bytes)
| InvalidOutput (s : bytes) (e : OutputError)
| InvalidOutputDerivationPath (s : bytes) (e : StorePath.BuildStorePathError)
| InvalidInputDerivationPath (s : bytes) (e : StorePath.Error)
| InvalidInputDerivationPrefix (s : bytes)
| EmptyInputDerivationOutputNames (s : bytes)
| InvalidInputDerivationOutputName (s n : bytes)
| InvalidInputSourcesPath (s : bytes) (e : StorePath.Error)
| InvalidPlatform (s : bytes)
| InvalidBuilder (s : bytes)
| InvalidEnvironmentKey (s : bytes).

#[global] Instance Output_eq_dec : EqDecision Output.
Proof. solve_decision. Defined.
#[global] Instance Derivation_eq_dec : EqDecision Derivation.
Proof. solve_decision. Defined.

(** ** output.rs *)

Definition is_fixed (o : Output) : bool := bool_decide (is_Some (output_ca_hash o)).

Definition path_str (o : Output) : bytes :=
  match path o with
  | None => []
  | Some p => StorePath.to_absolute_path p
  end.

Definition Output_validate (o : Output) (validate_output_paths : bool)
    : outcome OutputError unit :=
  let? _ := match output_ca_hash o with
            | Some (Flat _) | Some (Nar _) | None => Ok tt
            | Some c => Err (InvalidCAHash c)
            end in
  if validate_output_paths && bool_decide (path o = None) then Err MissingOutputPath
  else Ok tt.

(** ** validate.rs *)

(** The condition on an output name, written twice in the source. *)
Definition bad_output_name (n : bytes) : bool :=
  (length n =? 0) || bool_decide (n = B "drv") || is_err (StorePath.validate_name n).

(** The loop over the outputs; [len] is [self.outputs.len()]. *)
Fixpoint validate_outputs (len : nat) (validate_output_paths : bool) (os : list (bytes * Output))
    : outcome DerivationError unit :=
  match os with
  | [] => Ok tt
  | (n, o) :: os =>
      if bad_output_name n then Err (InvalidOutputName n)
      else if is_fixed o && negb (len =? 1) then Err MoreThanOneOutputButFixed
      else if is_fixed o && negb (bool_decide (n = B "out")) then Err (InvalidOutputNameForFixed n)
      else match Output_validate o validate_output_paths with
           | Ok _ => validate_outputs len validate_output_paths os
           | Err e => Err (InvalidOutput n e)
           | Panic => Panic
           end
  end.

Fixpoint validate_output_names (p : SPath) (ns : BTreeSet bytes) : outcome DerivationError unit :=
  match ns with
  | [] => Ok tt
  | (n, _) :: ns =>
      if bad_output_name n then Err (InvalidInputDerivationOutputName (StorePath.to_string p) n)
      else validate_output_names p ns
  end.

(** The loop over the input derivations. *)
Fixpoint validate_input_derivations (ds : list (SPath * BTreeSet bytes))
    : outcome DerivationError unit :=
  match ds with
  | [] => Ok tt
  | (p, ns) :: ds =>
      if negb (ends_with (B ".drv") (StorePath.name p))
      then Err (InvalidInputDerivationPrefix (StorePath.to_string p))
      else if length ns =? 0
      then Err (EmptyInputDerivationOutputNames (StorePath.to_string p))
      else
        let? _ := validate_output_names p ns in
        validate_input_derivations ds
  end.

Fixpoint validate_environment (env : list (bytes * bytes)) : outcome DerivationError unit :=
  match env with
  | [] => Ok tt
  | (k, _) :: env =>
      if length k =? 0 then Err (InvalidEnvironmentKey k) else validate_environment env
  end.

(** [Derivation::validate] *)
Definition validate (d : Derivation) (validate_output_paths : bool)
    : outcome DerivationError unit :=
  if length (outputs d) =? 0 then Err NoOutputs else
  let? _ := validate_outputs (length (outputs d)) validate_output_paths (outputs d) in
  let? _ := validate_input_derivations (input_derivations d) in
  if length (system d) =? 0 then Err (InvalidPlatform (system d)) else
  if length (builder d) =? 0 then Err (InvalidBuilder (builder d)) else
  validate_environment (environment d).

(** ** write.rs *)

Definition DERIVATION_PREFIX : bytes := B "Derive".
Definition PAREN_OPEN : byte := Byte.x28.
Definition PAREN_CLOSE : byte := Byte.x29.
Definition BRACKET_OPEN : byte := Byte.x5b.
Definition BRACKET_CLOSE : byte := Byte.x5d.
Definition COMMA : byte := Byte.x2c.

(** [ca_kind_prefix]; [None] is its panic. *)
Definition ca_kind_prefix (c : CAHash) : option bytes :=
  match c with
  | Flat _ => Some []
  | Nar _ => Some (B "r:")
  | Text _ => None
  end.

(** A [[u8; 32]] as a key of the replaced input derivations. *)
Inductive Digest32 := mkDigest32 (d : bytes).
#[global] Instance Digest32_cmp : RustOrd Digest32 :=
  λ '(mkDigest32 a) '(mkDigest32 b), lex_cmp a b.

Section Write.
Context `{!Bstr, !DataEncoding} {W : Type} `{!Write W}.

(** [writer.write_all(data)?] *)
Definition write_bytes (data : bytes) : sm W unit := λ w,
  match write_all data w with
  | Ok w => (Ok tt, w)
  | Err e => (Err e, w)
  | Panic => (Panic, w)
  end.

(** The characters written are ASCII: one byte of UTF-8. *)
Definition write_char (c : byte) : sm W unit := write_bytes [c].

Definition write_field (s : bytes) (escape : bool) : sm W unit :=
  let! _ := write_char QUOTE in
  let! _ := (if negb escape then write_bytes s else write_bytes (escape_bytes s)) in
  write_char QUOTE.

(** [for (index, x) in l.enumerate()], counting from [index]. *)
Fixpoint for_enumerate {A} (f : nat → A → sm W unit) (index : nat) (l : list A) : sm W unit :=
  match l with
  | [] => sret tt
  | a :: l =>
      let! _ := f index a in
      for_enumerate f (S index) l
  end.

(** The comma before all elements but the first. *)
Definition comma_before (index : nat) : sm W unit :=
  if 0 <? index then write_char COMMA else sret tt.

Definition write_array_elements (elements : list bytes) : sm W unit :=
  for_enumerate (λ index element,
    let! _ := comma_before index in
    write_field element true) 0 elements.

(** [trait AtermWriteable] *)
Class AtermWriteable (A : Type) := aterm_write : A → sm W unit.

#[global] Instance StorePath_aterm_write : AtermWriteable SPath := λ p,
  let! _ := write_char QUOTE in
  let! _ := write_bytes STORE_DIR_WITH_SLASH in
  let! _ := write_bytes (encode (StorePath.digest p)) in
  let! _ := write_char Byte.x2d in
  let! _ := write_bytes (StorePath.name p) in
  write_char QUOTE.

#[global] Instance String_aterm_write : AtermWriteable bytes := λ s, write_field s true.

#[global] Instance Digest32_aterm_write : AtermWriteable Digest32 := λ '(mkDigest32 d),
  write_field (HEXLOWER_encode d) false.

(** Mode, algo and digest of an output. *)
Definition output_hash_fields (o : Output) : sm W (bytes * bytes) :=
  match output_ca_hash o with
  | Some c =>
      match ca_kind_prefix c with
      | Some prefix =>
          sret (prefix ++ algo_to_string (algo (ca_hash c)),
                HEXLOWER_encode (digest_as_bytes (ca_hash c)))
      | None => spanic
      end
  | None => sret ([], [])
  end.

Definition write_outputs (outputs : list (bytes * Output)) : sm W unit :=
  let! _ := write_char BRACKET_OPEN in
  let! _ := for_enumerate (λ ii '(output_name, output),
    let! _ := comma_before ii in
    let! _ := write_char PAREN_OPEN in
    let! (mode_and_algo, digest) := output_hash_fields output in
    let! _ := write_array_elements [output_name; path_str output; mode_and_algo; digest] in
    write_char PAREN_CLOSE) 0 outputs in
  write_char BRACKET_CLOSE.

Definition write_input_derivations {A} `{!AtermWriteable A} (ds : list (A * BTreeSet bytes))
    : sm W unit :=
  let! _ := write_char BRACKET_OPEN in
  let! _ := for_enumerate (λ ii '(input_derivation_aterm, output_names),
    let! _ := comma_before ii in
    let! _ := write_char PAREN_OPEN in
    let! _ := aterm_write input_derivation_aterm in
    let! _ := write_char COMMA in
    let! _ := write_char BRACKET_OPEN in
    let! _ := write_array_elements (output_names.*1) in
    let! _ := write_char BRACKET_CLOSE in
    write_char PAREN_CLOSE) 0 ds in
  write_char BRACKET_CLOSE.

Definition write_input_sources (input_sources : BTreeSet SPath) : sm W unit :=
  let! _ := write_char BRACKET_OPEN in
  let! _ := write_array_elements (StorePath.to_absolute_path <$> input_sources.*1) in
  write_char BRACKET_CLOSE.

Definition write_system (platform : bytes) : sm W unit := write_field platform true.

Definition write_builder (builder : bytes) : sm W unit := write_field builder true.

Definition write_arguments (arguments : list bytes) : sm W unit :=
  let! _ := write_char BRACKET_OPEN in
  let! _ := write_array_elements arguments in
  write_char BRACKET_CLOSE.

Definition write_environment (environment : list (bytes * bytes)) : sm W unit :=
  let! _ := write_char BRACKET_OPEN in
  let! _ := for_enumerate (λ i '(k, v),
    let! _ := comma_before i in
    let! _ := write_char PAREN_OPEN in
    let! _ := write_field k false in
    let! _ := write_char COMMA in
    let! _ := write_field v true in
    write_char PAREN_CLOSE) 0 environment in
  write_char BRACKET_CLOSE.

(** *** mod.rs: serialization *)

Definition serialize_with_replacements (d : Derivation) {A} `{!AtermWriteable A}
    (input_derivations : list (A * BTreeSet bytes)) : sm W unit :=
  let! _ := write_bytes DERIVATION_PREFIX in
  let! _ := write_char PAREN_OPEN in
  let! _ := write_outputs (outputs d) in
  let! _ := write_char COMMA in
  let! _ := write_input_derivations input_derivations in
  let! _ := write_char COMMA in
  let! _ := write_input_sources (input_sources d) in
  let! _ := write_char COMMA in
  let! _ := write_system (system d) in
  let! _ := write_char COMMA in
  let! _ := write_builder (builder d) in
  let! _ := write_char COMMA in
  let! _ := write_arguments (arguments d) in
  let! _ := write_char COMMA in
  let! _ := write_environment (environment d) in
  write_char PAREN_CLOSE.

Definition serialize (d : Derivation) : sm W unit :=
  serialize_with_replacements d (input_derivations d).

End Write.

(** ** mod.rs: paths and hashes *)

Section Paths.
Context `{!Bstr, !DataEncoding, !Sha2}.

(** Serializing into a [Vec]; the [unwrap] has no error to meet. *)
Definition to_aterm_bytes_with_replacements {E} (d : Derivation) {A}
    `{!AtermWriteable (W := bytes) A} (input_derivations : list (A * BTreeSet bytes))
    : outcome E bytes :=
  match serialize_with_replacements d input_derivations [] with
  | (Ok _, buffer) => Ok buffer
  | (Err _, _) | (Panic, _) => Panic
  end.

Definition to_aterm_bytes {E} (d : Derivation) : outcome E bytes :=
  to_aterm_bytes_with_replacements d (input_derivations d).

Definition calculate_derivation_path (d : Derivation) (name : bytes)
    : outcome DerivationError SPath :=
  let name := name ++ B ".drv" in
  let references := bs_of_list
    (StorePath.to_absolute_path <$> (input_sources d).*1 ++ (input_derivations d).*1) in
  let? aterm := to_aterm_bytes d in
  omap_err (λ _, InvalidOutputName name)
    (StorePath.build_text_path name aterm references.*1).

(** [fod_digest]; its panic is the one of [ca_kind_prefix]. *)
Definition fod_digest {E} (d : Derivation) : outcome E (option bytes) :=
  if negb (length (outputs d) =? 1) then Ok None else
  match bt_get (B "out") (outputs d) with
  | None => Ok None
  | Some out_output =>
      match output_ca_hash out_output with
      | None => Ok None
      | Some c =>
          let? prefix := or_panic (ca_kind_prefix c) in
          Ok (Some (Crates.Sha256
            (B "fixed:out:" ++ prefix ++ to_nix_hex_string (ca_hash c) ++ B ":"
               ++ match path out_output with
                  | Some p => StorePath.to_absolute_path p
                  | None => []
                  end)))
      end
  end.

(** [hash_derivation_modulo]; the argument of [unwrap_or] is evaluated first. *)
Definition hash_derivation_modulo {E} (d : Derivation) (lookup_hash : SPath → bytes)
    : outcome E bytes :=
  let? fod := fod_digest d in
  let? aterm_bytes := to_aterm_bytes_with_replacements d
    (bt_of_list ((λ '(drv_path, output_names), (mkDigest32 (lookup_hash drv_path), output_names))
       <$> input_derivations d)) in
  Ok (default (Crates.Sha256 aterm_bytes) fod).

Definition output_path_name (derivation_name output_name : bytes) : bytes :=
  derivation_name ++
  (if negb (bool_decide (output_name = B "out")) then B "-" ++ output_name else []).

(** The path of one output. *)
Definition output_store_path (name hash_derivation_modulo output_name : bytes) (o : Output)
    : outcome DerivationError SPath :=
  let path_name := output_path_name name output_name in
  match output_ca_hash o with
  | Some hwm =>
      omap_err (InvalidOutputDerivationPath output_name)
        (StorePath.build_ca_path path_name hwm [] false)
  | None =>
      omap_err (λ e, InvalidOutputDerivationPath output_name (StorePath.InvalidStorePath e))
        (StorePath.build_output_path hash_derivation_modulo output_name path_name)
  end.

(** The loop over [self.outputs.iter_mut()]: the outputs already visited, those
    to come, and the environment. An error leaves the updates before it. *)
Fixpoint output_paths_loop (name hash_derivation_modulo : bytes)
    (done_ todo : list (bytes * Output)) (env : list (bytes * bytes))
    : outcome DerivationError unit * (list (bytes * Output) * list (bytes * bytes)) :=
  match todo with
  | [] => (Ok tt, (done_, env))
  | (output_name, output) :: todo' =>
      if bool_decide (is_Some (path output)) then (Panic, (done_ ++ todo, env)) else
      match output_store_path name hash_derivation_modulo output_name output with
      | Ok store_path =>
          output_paths_loop name hash_derivation_modulo
            (done_ ++ [(output_name, mkOutput (Some store_path) (output_ca_hash output))]) todo'
            (bt_insert output_name (StorePath.to_absolute_path store_path) env)
      | Err e => (Err e, (done_ ++ todo, env))
      | Panic => (Panic, (done_ ++ todo, env))
      end
  end.

Definition calculate_output_paths (name hash_derivation_modulo : bytes)
    (d : Derivation) : outcome DerivationError unit * Derivation :=
  match output_paths_loop name hash_derivation_modulo [] (outputs d) (environment d) with
  | (r, (outs, env)) =>
      (r, mkDerivation (arguments d) (builder d) env (input_derivations d) (input_sources d)
            outs (system d))
  end.

End Paths.

(** ** parse_error.rs *)

Inductive ErrorKind (K : Type) :=
| DuplicateMapKey (k : bytes)
| DuplicateInputDerivationOutputName (p n : bytes)
| DuplicateInputSource (p : SPath)
| NixHashError (e : NixHash.Error)
| StorePathError (e : StorePath.Error)
| Nom_ (k : K).
Arguments DuplicateMapKey {K} k.
Arguments DuplicateInputDerivationOutputName {K} p n.
Arguments DuplicateInputSource {K} p.
Arguments NixHashError {K} e.
Arguments StorePathError {K} e.
Arguments Nom_ {K} k.

Record NomError (K : Type) := mkNomError {
  input : bytes;
  code : ErrorKind K;
}.
Arguments mkNomError {K} _ _.

#[global] Instance NomError_ParseError K : ParseError K (NomError K) := {|
  from_error_kind i k := mkNomError i (Nom_ k);
  append _ _ other := other;
|}.

#[global] Instance NomError_FromExternalError K : FromExternalError K (NomError K) :=
  λ _ i k _, mkNomError i (Nom_ k).

(** [From<nom::error::Error>] *)
Definition NomError_from {K} (e : NomErr K) : NomError K :=
  mkNomError (err_input e) (Nom_ (err_code e)).

Definition into_nomerror {K} (e : nom_err (NomErr K)) : nom_err (NomError K) :=
  match e with
  | Incomplete => Incomplete
  | Error e => Error (NomError_from e)
  | Failure e => Failure (NomError_from e)
  end.

(** ** parser.rs *)

Inductive ParserError (K : Type) :=
| Parser (e : NomError K)
| ParserIncomplete
| Validation (e : DerivationError).
Arguments Parser {K} e.
Arguments ParserIncomplete {K}.
Arguments Validation {K} e.

Definition from_algo_and_mode_and_digest (algo_and_mode digest : bytes)
    : outcome NixHash.Error CAHash :=
  match strip_prefix (B "r:") algo_and_mode with
  | Some algo =>
      let? a := algo_try_from algo in omap_ok Nar (from_algo_and_digest a digest)
  | None =>
      let? a := algo_try_from algo_and_mode in omap_ok Flat (from_algo_and_digest a digest)
  end.

Section Parser.
Context `{!Bstr, !DataEncoding} {K : Type} `{!Nom K} (debug_assertions : bool).

Abbreviation parser_ := (parser (NomError K)).

Definition string_to_store_path (i path_str : bytes) : outcome (nom_err (NomError K)) SPath :=
  let? path := omap_err (λ e, Failure (mkNomError i (StorePathError e)))
                 (StorePath.from_absolute_path path_str) in
  if debug_assertions && negb (bool_decide (path_str = StorePath.to_absolute_path path))
  then Panic else Ok path.

(** The closure of [parse_output]: four fields into an [Output]. *)
Definition output_of_fields (i : bytes) (fields : bytes * bytes * bytes * bytes)
    : outcome (nom_err (NomError K)) (bytes * Output) :=
  let '(output_name, output_path, algo_and_mode, encoded_digest) := fields in
  let ca_hash_res :=
    if (length algo_and_mode =? 0) && (length encoded_digest =? 0) then Ok None
    else match HEXLOWER_decode encoded_digest with
         | inr digest => omap_ok Some (from_algo_and_mode_and_digest algo_and_mode digest)
         | inl e => Err (InvalidBase64Encoding e)
         end in
  match ca_hash_res with
  | Ok hash_with_mode =>
      let? path := if length output_path =? 0 then Ok None
                   else omap_ok Some (string_to_store_path i output_path) in
      Ok (output_name, mkOutput path hash_with_mode)
  | Err e => Err (Failure (mkNomError i (NixHashError e)))
  | Panic => Panic
  end.

Definition parse_output : parser_ (bytes * Output) := λ i,
  delimited (nomchar PAREN_OPEN)
    (map_res
       (λ i, omap_err into_nomerror
          (tuple4 (terminated parse_string_field (nomchar COMMA))
                  (terminated parse_string_field (nomchar COMMA))
                  (terminated parse_string_field (nomchar COMMA))
                  parse_bytes_field i))
       (output_of_fields i))
    (nomchar PAREN_CLOSE) i.

(** The loop that fills the map of outputs. *)
Fixpoint collect_outputs (i : bytes) (outputs : list (bytes * Output))
    (outputs_lst : list (bytes * Output)) : outcome (nom_err (NomError K)) (list (bytes * Output)) :=
  match outputs_lst with
  | [] => Ok outputs
  | (output_name, output) :: outputs_lst =>
      if bool_decide (is_Some (bt_get output_name outputs))
      then Err (Failure (mkNomError i (DuplicateMapKey output_name)))
      else collect_outputs i (bt_insert output_name output outputs) outputs_lst
  end.

Definition parse_outputs : parser_ (list (bytes * Output)) := λ i,
  let? (rst, outputs_lst) :=
    delimited (nomchar BRACKET_OPEN) (separated_list1 (tag [COMMA]) parse_output)
      (nomchar BRACKET_CLOSE) i in
  let? outputs := collect_outputs i [] outputs_lst in
  Ok (rst, outputs).

(** The loop of [parse_kv]. *)
Fixpoint collect_kv {V} (i : bytes) (kvs : list (bytes * V)) (pairs : list (bytes * V))
    : outcome (nom_err (NomError K)) (list (bytes * V)) :=
  match pairs with
  | [] => Ok kvs
  | (k, v) :: pairs =>
      match bt_entry k kvs with
      | None => collect_kv i (bt_insert k v kvs) pairs
      | Some (key, _) => Err (Failure (mkNomError i (DuplicateMapKey key)))
      end
  end.

Definition parse_kv {V} (vf : parser (NomErr K) V) : parser_ (list (bytes * V)) := λ i,
  delimited (nomchar BRACKET_OPEN)
    (λ ii,
       let? (rest, pairs) := omap_err into_nomerror
         (separated_list0 (nomchar COMMA)
            (delimited (nomchar PAREN_OPEN)
               (separated_pair parse_string_field (nomchar COMMA) vf)
               (nomchar PAREN_CLOSE)) ii) in
       let? kvs := collect_kv i [] pairs in
       Ok (rest, kvs))
    (nomchar BRACKET_CLOSE) i.

Fixpoint collect_output_names (i input_derivation : bytes) (new_output_names : BTreeSet bytes)
    (output_names : list bytes) : outcome (nom_err (NomError K)) (BTreeSet bytes) :=
  match output_names with
  | [] => Ok new_output_names
  | output_name :: output_names =>
      if bs_contains output_name new_output_names
      then Err (Failure (mkNomError i
             (DuplicateInputDerivationOutputName input_derivation output_name)))
      else collect_output_names i input_derivation (bs_insert output_name new_output_names)
             output_names
  end.

Fixpoint collect_input_derivations (i : bytes) (input_derivations : list (SPath * BTreeSet bytes))
    (l : list (bytes * list bytes))
    : outcome (nom_err (NomError K)) (list (SPath * BTreeSet bytes)) :=
  match l with
  | [] => Ok input_derivations
  | (input_derivation, output_names) :: l =>
      let? new_output_names := collect_output_names i input_derivation [] output_names in
      let? input_derivation := string_to_store_path i input_derivation in
      collect_input_derivations i (bt_insert input_derivation new_output_names input_derivations) l
  end.

Definition parse_input_derivations : parser_ (list (SPath * BTreeSet bytes)) := λ i,
  let? (i, input_derivations_list) := parse_kv parse_string_list i in
  let? input_derivations := collect_input_derivations i [] input_derivations_list in
  Ok (i, input_derivations).

Fixpoint collect_input_sources (i : bytes) (input_sources : BTreeSet SPath) (l : list bytes)
    : outcome (nom_err (NomError K)) (BTreeSet SPath) :=
  match l with
  | [] => Ok input_sources
  | input_source :: l =>
      let? input_source := string_to_store_path i input_source in
      if bs_contains input_source input_sources
      then Err (Failure (mkNomError i (DuplicateInputSource input_source)))
      else collect_input_sources i (bs_insert input_source input_sources) l
  end.

Definition parse_input_sources : parser_ (BTreeSet SPath) := λ i,
  let? (i, input_sources_lst) := omap_err into_nomerror (parse_string_list i) in
  let? input_sources := collect_input_sources i [] input_sources_lst in
  Ok (i, input_sources).

Definition parse_derivation : parser_ Derivation :=
  preceded (tag DERIVATION_PREFIX)
    (map
       (delimited (nomchar PAREN_OPEN)
          (tuple7
             (terminated parse_outputs (nomchar COMMA))
             (terminated parse_input_derivations (nomchar COMMA))
             (terminated parse_input_sources (nomchar COMMA))
             (λ i, omap_err into_nomerror (terminated parse_string_field (nomchar COMMA) i))
             (λ i, omap_err into_nomerror (terminated parse_string_field (nomchar COMMA) i))
             (λ i, omap_err into_nomerror (terminated parse_string_list (nomchar COMMA) i))
             (parse_kv parse_bytes_field))
          (nomchar PAREN_CLOSE))
       (λ '(outputs, input_derivations, input_sources, system, builder, arguments, environment),
          mkDerivation arguments builder environment input_derivations input_sources outputs system)).

Definition parse (i : bytes) : outcome (ParserError K) Derivation :=
  match all_consuming parse_derivation i with
  | Ok (rest, derivation) =>
      if debug_assertions && negb (length rest =? 0) then Panic else
      let? _ := omap_err Validation (validate derivation true) in
      Ok derivation
  | Err Incomplete => Err ParserIncomplete
  | Err (Error e) | Err (Failure e) => Err (Parser e)
  | Panic => Panic
  end.

(** [Derivation::from_aterm_bytes] *)
Definition from_aterm_bytes (b : bytes) : outcome (ParserError K) Derivation := parse b.

End Parser.
