(* ===== verification/DerivationAterm.v ===== *)
(** * Derivations and their ATerm

    The text the writer of [Derivation] produces, as a pure function; that the
    parser reads it back; and what validation and output paths amount to. *)

From stdpp Require Import strings.
From S2P Require Import Prelude Crates BTreeMap NixBase32 NixHash StorePath Io Nom Aterm Derivation.
#[local] Open Scope nat_scope.

(** ** The text of a derivation *)

Section Text.
Context `{!Bstr, !DataEncoding}.

Definition field (s : bytes) : bytes := QUOTE :: escape_bytes s ++ [QUOTE].
Definition raw_field (s : bytes) : bytes := QUOTE :: s ++ [QUOTE].
Definition commas (l : list bytes) : bytes := join_with COMMA l.
Definition parens (s : bytes) : bytes := PAREN_OPEN :: s ++ [PAREN_CLOSE].
Definition brackets (s : bytes) : bytes := BRACKET_OPEN :: s ++ [BRACKET_CLOSE].

(** Mode and algo of a hash a derivation may have, and its digest. *)
Definition mode_and_algo (o : Output) : bytes :=
  match output_ca_hash o with
  | Some c => default [] (ca_kind_prefix c) ++ algo_to_string (algo (ca_hash c))
  | None => []
  end.

Definition hex_digest (o : Output) : bytes :=
  match output_ca_hash o with
  | Some c => HEXLOWER_encode (digest_as_bytes (ca_hash c))
  | None => []
  end.

Definition output_text (x : bytes * Output) : bytes :=
  parens (commas (field <$> [x.1; path_str x.2; mode_and_algo x.2; hex_digest x.2])).

Definition input_text {A} (key : A → bytes) (x : A * BTreeSet bytes) : bytes :=
  parens (key x.1 ++ COMMA :: brackets (commas (field <$> x.2.*1))).

Definition env_text (x : bytes * bytes) : bytes := parens (raw_field x.1 ++ COMMA :: field x.2).

Definition strings_text (l : list bytes) : bytes := brackets (commas (field <$> l)).

Definition aterm_text (d : Derivation) (inputs : list bytes) : bytes :=
  DERIVATION_PREFIX ++ parens (commas
    [brackets (commas (output_text <$> outputs d));
     brackets (commas inputs);
     strings_text (StorePath.to_absolute_path <$> (input_sources d).*1);
     field (system d);
     field (builder d);
     strings_text (arguments d);
     brackets (commas (env_text <$> environment d))]).

(** Outputs whose hash a derivation can express. *)
Definition hash_expressible (o : Output) : Prop :=
  ∀ c, output_ca_hash o = Some c → is_Some (ca_kind_prefix c).

(** ** The writer writes that text *)

(** A call that only appends [out] to the buffer. *)
Definition writes (m : sm bytes unit) (out : bytes) : Prop := ∀ w, m w = (Ok tt, w ++ out).

Lemma writes_bind m (k : unit → sm bytes unit) x y :
  writes m x → writes (k tt) y → writes (sbind m k) (x ++ y).
Proof. intros Hm Hk w. rewrite (sbind_step _ _ _ _ _ (Hm w)), Hk. by rewrite app_assoc. Qed.

Lemma writes_bind_cons m (k : unit → sm bytes unit) c y :
  writes m [c] → writes (k tt) y → writes (sbind m k) (c :: y).
Proof. apply (writes_bind m k [c]). Qed.

Lemma writes_nil : writes (sret tt) [].
Proof. intros w. by rewrite app_nil_r. Qed.

Lemma writes_bytes s : writes (write_bytes s) s.
Proof. done. Qed.

Lemma writes_char c : writes (write_char c) [c].
Proof. done. Qed.

Lemma writes_field s : writes (write_field s true) (field s).
Proof.
  apply writes_bind_cons; [apply writes_char|]. apply writes_bind; [done|]. apply writes_char.
Qed.

Lemma writes_raw_field s : writes (write_field s false) (raw_field s).
Proof.
  apply writes_bind_cons; [apply writes_char|]. apply writes_bind; [done|]. apply writes_char.
Qed.

Lemma writes_comma_before i : writes (comma_before i) (if 0 <? i then [COMMA] else []).
Proof. unfold comma_before. destruct (0 <? i); [done|apply writes_nil]. Qed.

Lemma writes_for_enumerate {A} (f : nat → A → sm bytes unit) (text : A → bytes) l :
  (∀ i a, a ∈ l → writes (f i a) ((if 0 <? i then [COMMA] else []) ++ text a)) →
  writes (for_enumerate f 0 l) (commas (text <$> l)).
Proof.
  intros Hf. destruct l as [|a l]; [apply writes_nil|].
  assert (∀ i, 0 < i → writes (for_enumerate f i l) (l ≫= λ a, COMMA :: text a)) as Hrest.
  { assert (∀ i a', a' ∈ l → writes (f i a') ((if 0 <? i then [COMMA] else []) ++ text a')) as Hf'.
    { intros i a' Ha. apply Hf. by right. }
    clear Hf. induction l as [|a' l IH]; intros i Hi; [apply writes_nil|].
    cbn [for_enumerate]. rewrite bind_cons. apply writes_bind.
    - specialize (Hf' i a' ltac:(left)). by rewrite (proj2 (Nat.ltb_lt _ _) Hi) in Hf'.
    - apply IH; [|lia]. intros j a'' Ha. apply Hf'. by right. }
  assert (commas (text <$> a :: l) = text a ++ (l ≫= λ a, COMMA :: text a)) as ->.
  { clear. revert a. induction l as [|b l IH]; intros a; [unfold commas; simpl; by rewrite app_nil_r|].
    change (commas (text <$> a :: b :: l)) with (text a ++ COMMA :: commas (text <$> b :: l)).
    rewrite IH. done. }
  cbn [for_enumerate]. apply writes_bind; [apply (Hf 0 a ltac:(left))|apply Hrest; lia].
Qed.

Lemma writes_array_elements l : writes (write_array_elements l) (commas (field <$> l)).
Proof.
  apply writes_for_enumerate. intros i a _. apply writes_bind; [apply writes_comma_before|].
  apply writes_field.
Qed.

Lemma writes_eq m x y : writes m x → x = y → writes m y.
Proof. by intros ? <-. Qed.

Lemma writes_output_hash_fields o (k : bytes * bytes → sm bytes unit) x :
  hash_expressible o → writes (k (mode_and_algo o, hex_digest o)) x →
  writes (sbind (output_hash_fields o) k) x.
Proof.
  intros Ho Hk w. unfold output_hash_fields, mode_and_algo, hex_digest in *.
  destruct (output_ca_hash o) as [c|] eqn:Hc; [|exact (Hk w)].
  destruct (Ho c Hc) as [prefix Hp]. rewrite Hp in *. exact (Hk w).
Qed.

Lemma writes_store_path p :
  writes (aterm_write p) (raw_field (StorePath.to_absolute_path p)).
Proof.
  eapply writes_eq.
  - unfold aterm_write, StorePath_aterm_write.
    repeat (apply writes_bind; [first [apply writes_char|apply writes_bytes]|]). apply writes_char.
  - unfold raw_field, StorePath.to_absolute_path, StorePath.to_string.
    cbn [app]. by rewrite <- !app_assoc.
Qed.

Create HintDb aterm.
Hint Resolve writes_char writes_bytes writes_field writes_raw_field writes_comma_before
  writes_array_elements writes_store_path : aterm.

(** Equal texts, up to the grouping of appends. *)
Ltac flatten_text := repeat progress (cbn [app]; rewrite <- ?app_assoc).

(** A chain of calls whose texts are known, up to the grouping of appends. *)
Ltac write_chain :=
  eapply writes_eq;
  [repeat (eapply writes_bind; [eauto with aterm|]); eauto with aterm|].

Lemma writes_outputs os :
  Forall (λ x, hash_expressible x.2) os →
  writes (write_outputs os) (brackets (commas (output_text <$> os))).
Proof.
  intros Hos. apply writes_bind_cons; [done|]. apply writes_bind; [|done].
  apply writes_for_enumerate. intros i [n o] Hx. apply (proj1 (Forall_forall _ _) Hos) in Hx.
  apply writes_bind; [apply writes_comma_before|]. apply writes_bind_cons; [done|].
  apply writes_output_hash_fields; [done|]. apply writes_bind; [apply writes_array_elements|done].
Qed.

Lemma writes_input_derivations {A} `{!AtermWriteable (W := bytes) A} (key : A → bytes) ds :
  (∀ a, writes (aterm_write a) (key a)) →
  writes (write_input_derivations ds) (brackets (commas (input_text key <$> ds))).
Proof.
  intros Hkey. apply writes_bind_cons; [done|]. apply writes_bind; [|done].
  apply writes_for_enumerate. intros i [a ns] _.
  apply writes_bind; [apply writes_comma_before|]. write_chain.
  unfold input_text, parens, brackets. cbn [fst snd]. by flatten_text.
Qed.

Lemma writes_strings l :
  writes (let! _ := write_char BRACKET_OPEN in let! _ := write_array_elements l in
          write_char BRACKET_CLOSE) (strings_text l).
Proof. write_chain. done. Qed.

Lemma writes_environment env :
  writes (write_environment env) (brackets (commas (env_text <$> env))).
Proof.
  apply writes_bind_cons; [done|]. apply writes_bind; [|done].
  apply writes_for_enumerate. intros i [k v] _.
  apply writes_bind; [apply writes_comma_before|]. write_chain.
  unfold env_text, parens. cbn [fst snd]. by flatten_text.
Qed.

Lemma serialize_text {A} `{!AtermWriteable (W := bytes) A} (key : A → bytes) d ds :
  (∀ a, writes (aterm_write a) (key a)) → Forall (λ x, hash_expressible x.2) (outputs d) →
  writes (serialize_with_replacements d ds) (aterm_text d (input_text key <$> ds)).
Proof.
  intros Hkey Hos. pose proof (writes_outputs _ Hos). pose proof (writes_input_derivations key ds Hkey).
  pose proof (writes_environment (environment d)).
  pose proof (writes_strings (StorePath.to_absolute_path <$> (input_sources d).*1)).
  pose proof (writes_strings (arguments d)).
  unfold serialize_with_replacements, write_system, write_builder, write_input_sources, write_arguments.
  write_chain. unfold aterm_text, parens, commas. cbn [join_with].
  by flatten_text.
Qed.

Lemma to_aterm_bytes_text {E} d :
  Forall (λ x, hash_expressible x.2) (outputs d) →
  to_aterm_bytes (E := E) d =
    Ok (aterm_text d (input_text (raw_field ∘ StorePath.to_absolute_path) <$> input_derivations d)).
Proof.
  intros Hos. unfold to_aterm_bytes, to_aterm_bytes_with_replacements.
  by rewrite (serialize_text (raw_field ∘ StorePath.to_absolute_path) d _ writes_store_path Hos []).
Qed.

End Text.

(** ** The parser reads it back *)

(** [p] consumes exactly [text], whatever follows, and answers [a]. *)
Definition parses {E A} (p : parser E A) (text : bytes) (a : A) : Prop :=
  ∀ i, p (text ++ i) = Ok (i, a).

(** A key that is written as it is and a [String]: valid UTF-8 that needs no
    escape. *)
Definition plain_key (k : bytes) : Prop :=
  utf8_valid k = true ∧ Forall (λ b, escape_letter b = None) k.

Section Parse.
Context `{!Bstr, !BstrLaws, !DataEncoding, !DataEncodingLaws} {K : Type} `{!Nom K, !NomLaws K}.

Lemma parses_terminated {E A} `{!ParseError K E} (p : parser E A) text a c i :
  parses p text a → terminated p (nomchar c) (text ++ c :: i) = Ok (i, a).
Proof. intros Hp. rewrite terminated_eq, Hp. cbn [obind]. by rewrite nomchar_eq. Qed.

Lemma delimited_fails {E A1 A A2} (p1 : parser E A1) (p : parser E A) (p2 : parser E A2) i :
  fails p1 i → fails (delimited p1 p p2) i.
Proof. intros [e He]. exists e. by rewrite delimited_eq, He. Qed.

Lemma parses_delimited {E A} `{!ParseError K E} (p : parser E A) text a c1 c2 :
  parses p text a → parses (delimited (nomchar c1) p (nomchar c2)) (c1 :: text ++ [c2]) a.
Proof.
  intros Hp i. rewrite delimited_eq. cbn [app]. rewrite nomchar_eq. cbn [obind].
  rewrite <- app_assoc, Hp. cbn [obind app]. by rewrite nomchar_eq.
Qed.

(** Elements between commas, up to a closing character. *)
Lemma items_commas {E S A} (sep : parser E S) (p : parser E A) text l c i :
  (∀ i, ∃ s, sep (COMMA :: i) = Ok (i, s)) → fails sep (c :: i) → l ≠ [] →
  (∀ a, a ∈ l → parses p (text a) a) →
  items sep p (commas (text <$> l) ++ c :: i) l (c :: i).
Proof.
  intros Hsep Hstop Hl Hp. induction l as [|a [|b l] IH]; [done|..].
  - apply items_last; [apply Hp; left| |done]. rewrite length_app. lia.
  - change (commas (text <$> a :: b :: l)) with (text a ++ COMMA :: commas (text <$> b :: l)).
    rewrite <- app_assoc. cbn [app]. destruct (Hsep (commas (text <$> b :: l) ++ c :: i)) as [s Hs].
    eapply items_more; [apply Hp; left| |exact Hs| |].
    + rewrite length_app. lia.
    + simpl. lia.
    + apply IH; [done|]. intros x Hx. apply Hp. by right.
Qed.

Lemma parses_list0 {E A} `{!ParseError K E} (p : parser E A) text l c1 c2 :
  c2 ≠ COMMA → (∀ i, fails p (c2 :: i)) → (∀ a, a ∈ l → parses p (text a) a) →
  parses (delimited (nomchar c1) (separated_list0 (nomchar COMMA) p) (nomchar c2))
    (c1 :: commas (text <$> l) ++ [c2]) l.
Proof.
  intros Hc Hstop Hp i. rewrite delimited_eq. cbn [app]. rewrite nomchar_eq. cbn [obind].
  assert (separated_list0 (nomchar COMMA) p ((commas (text <$> l) ++ [c2]) ++ i) = Ok (c2 :: i, l))
    as ->; [|cbn [obind]; by rewrite nomchar_eq].
  rewrite <- app_assoc. cbn [app]. destruct l as [|a l]; [by apply separated_list0_nil|].
  apply separated_list0_items, items_commas; [|apply nomchar_fails; naive_solver|done|done].
  intros j. exists COMMA. apply nomchar_eq.
Qed.

Lemma field_fails i c : c ≠ QUOTE → fails (parse_string_field (K := K)) (c :: i).
Proof. intros Hc. apply delimited_fails, nomchar_fails. naive_solver. Qed.

Lemma parses_string_field s : utf8_valid s = true → parses (parse_string_field (K := K)) (field s) s.
Proof.
  intros Hs i. unfold field. cbn [app]. rewrite <- app_assoc. by apply parse_string_field_eq.
Qed.

Lemma parses_bytes_field s : parses (parse_bytes_field (K := K)) (field s) s.
Proof. intros i. unfold field. cbn [app]. rewrite <- app_assoc. apply parse_bytes_field_eq. Qed.

Lemma raw_field_plain k : plain_key k → raw_field k = field k.
Proof.
  intros [_ Hk]. unfold raw_field, field. by rewrite escape_bytes_spec, (bind_plain k Hk).
Qed.

Lemma parses_string_list l :
  Forall (λ s, utf8_valid s = true) l → parses (parse_string_list (K := K)) (strings_text l) l.
Proof.
  intros Hl. apply parses_list0; [done|intros; by apply field_fails|].
  intros s Hs. apply parses_string_field. by apply (proj1 (Forall_forall _ _) Hl).
Qed.

(** *** Maps *)

Lemma collect_kv_sorted {V} i (m l : list (bytes * V)) :
  bt_sorted (m ++ l) → collect_kv (K := K) i m l = Ok (m ++ l).
Proof.
  revert m. induction l as [|[k v] l IH]; intros m Hs; cbn [collect_kv]; [by rewrite app_nil_r|].
  destruct (bt_insert_next _ _ _ _ Hs) as [-> ->].
  rewrite (app_assoc m [(k, v)] l : m ++ (k, v) :: l = _) in Hs |- *. by apply IH.
Qed.

Lemma collect_outputs_sorted i (m l : list (bytes * Output)) :
  bt_sorted (m ++ l) → collect_outputs (K := K) i m l = Ok (m ++ l).
Proof.
  revert m. induction l as [|[k v] l IH]; intros m Hs; cbn [collect_outputs]; [by rewrite app_nil_r|].
  destruct (bt_insert_next _ _ _ _ Hs) as [Hk ->]. unfold bt_get. rewrite Hk. cbn [fmap option_fmap option_map].
  rewrite bool_decide_eq_false_2 by (by intros []).
  rewrite (app_assoc m [(k, v)] l : m ++ (k, v) :: l = _) in Hs |- *. by apply IH.
Qed.

(** A map whose keys are written by [ktext] and read as strings. *)
Lemma parses_kv {V} (vf : parser (NomErr K) V) ktext vtext l :
  bt_sorted l →
  Forall (λ x, parses (parse_string_field (K := K)) (ktext x.1) x.1 ∧ parses vf (vtext x.2) x.2) l →
  parses (parse_kv vf)
    (brackets (commas ((λ x, parens (ktext x.1 ++ COMMA :: vtext x.2)) <$> l))) l.
Proof.
  intros Hs Hl i. unfold parse_kv. rewrite delimited_eq. unfold brackets. cbn [app].
  rewrite nomchar_eq. cbn [obind]. rewrite <- app_assoc. cbn [app].
  match goal with |- context [separated_list0 ?sep ?p ?j] =>
    assert (separated_list0 sep p j = Ok (BRACKET_CLOSE :: i, l)) as -> end.
  { destruct l as [|x l].
    { apply separated_list0_nil, delimited_fails, nomchar_fails. naive_solver. }
    apply separated_list0_items, items_commas; [intros j; exists COMMA; apply nomchar_eq| |done|].
    { apply nomchar_fails. naive_solver. }
    intros [k v] Hx. apply (proj1 (Forall_forall _ _) Hl) in Hx as [Hk Hv].
    apply parses_delimited. intros j. cbn [fst snd] in *.
    rewrite <- app_assoc, separated_pair_eq, Hk. cbn [obind app].
    rewrite nomchar_eq. cbn [obind]. by rewrite Hv. }
  cbn [omap_err obind]. rewrite (collect_kv_sorted _ [] l) by done. cbn [obind app].
  by rewrite nomchar_eq.
Qed.

(** *** Store paths *)

Lemma absolute_path_plain p : StorePath.StorePath_wf p → plain_key (StorePath.to_absolute_path p).
Proof.
  intros Hp%StorePath.to_absolute_path_chars.
  assert (∀ c, StorePath.valid_name_char c = true ∨ c = Byte.x2f →
    is_ascii c = true ∧ escape_letter c = None) as Hc.
  { intros c Hc. destruct c; try (by vm_compute); exfalso; destruct Hc as [Hc|Hc]; by vm_compute in Hc. }
  split.
  - apply utf8_valid_ascii. eapply Forall_impl; [exact Hp|]. intros c ?. by apply Hc.
  - eapply Forall_impl; [exact Hp|]. intros c ?. by apply Hc.
Qed.

Lemma string_to_store_path_eq dbg i p :
  StorePath.StorePath_wf p →
  string_to_store_path (K := K) dbg i (StorePath.to_absolute_path p) = Ok p.
Proof.
  intros Hp. unfold string_to_store_path. rewrite StorePath.from_absolute_to_absolute by done.
  cbn [omap_err obind]. rewrite bool_decide_eq_true_2 by done. by rewrite andb_false_r.
Qed.

(** Smaller paths print smaller. *)
Lemma absolute_path_lt p q :
  StorePath.StorePath_wf p → StorePath.StorePath_wf q → rcmp p q = Lt →
  lex_cmp (StorePath.to_absolute_path p) (StorePath.to_absolute_path q) = Lt.
Proof.
  intros Hp Hq E. unfold StorePath.to_absolute_path. rewrite lex_cmp_app by done.
  rewrite StorePath.to_string_cmp, E by done. done.
Qed.

Lemma paths_sorted {V V'} (f : V → V') (l : list (SPath * V)) :
  Forall (λ x, StorePath.StorePath_wf x.1) l → bt_sorted l →
  bt_sorted ((λ x, (StorePath.to_absolute_path x.1, f x.2)) <$> l).
Proof.
  intros Hwf Hs. induction Hs as [|x l Hs IH Hall]; [constructor|].
  apply Forall_cons in Hwf as [Hx Hwf]. cbn [fmap list_fmap]. constructor; [by apply IH|].
  apply Forall_fmap. rewrite Forall_forall in Hall, Hwf |- *. intros y Hy.
  apply absolute_path_lt; [done|by apply Hwf|by apply Hall].
Qed.

Lemma collect_output_names_sorted i p (m l : BTreeSet bytes) :
  bt_sorted (m ++ l) → collect_output_names (K := K) i p m l.*1 = Ok (m ++ l).
Proof.
  revert m. induction l as [|[k []] l IH]; intros m Hs; cbn [collect_output_names fmap list_fmap fst];
    [by rewrite app_nil_r|].
  destruct (bt_insert_next _ _ _ _ Hs) as [Hk Hi]. unfold bs_contains, bs_insert. rewrite Hk, Hi.
  rewrite (app_assoc m [(k, tt)] l : m ++ (k, tt) :: l = _) in Hs |- *. by apply IH.
Qed.

Lemma collect_input_derivations_sorted dbg i (m l : list (SPath * BTreeSet bytes)) :
  Forall (λ x, StorePath.StorePath_wf x.1 ∧ bt_sorted x.2) l → bt_sorted (m ++ l) →
  collect_input_derivations (K := K) dbg i m
    ((λ x, (StorePath.to_absolute_path x.1, x.2.*1)) <$> l) = Ok (m ++ l).
Proof.
  intros Hl. revert m. induction Hl as [|[p ns] l [Hp Hns] Hl IH]; intros m Hs;
    cbn [collect_input_derivations fmap list_fmap fst snd]; [by rewrite app_nil_r|].
  rewrite (collect_output_names_sorted _ _ [] ns) by done. cbn [obind app].
  rewrite string_to_store_path_eq by done. cbn [obind].
  rewrite (proj2 (bt_insert_next _ _ _ _ Hs)).
  rewrite (app_assoc m [(p, ns)] l : m ++ (p, ns) :: l = _) in Hs |- *. by apply IH.
Qed.

Lemma collect_input_sources_sorted dbg i (m l : BTreeSet SPath) :
  Forall (λ x, StorePath.StorePath_wf x.1) l → bt_sorted (m ++ l) →
  collect_input_sources (K := K) dbg i m (StorePath.to_absolute_path <$> l.*1) = Ok (m ++ l).
Proof.
  intros Hl. revert m. induction Hl as [|[p []] l Hp Hl IH]; intros m Hs;
    cbn [collect_input_sources fmap list_fmap fst]; [by rewrite app_nil_r|].
  rewrite string_to_store_path_eq by done. cbn [obind].
  destruct (bt_insert_next _ _ _ _ Hs) as [Hk Hi]. unfold bs_contains, bs_insert. rewrite Hk, Hi.
  rewrite (app_assoc m [(p, tt)] l : m ++ (p, tt) :: l = _) in Hs |- *. by apply IH.
Qed.

Lemma parses_input_derivations dbg (l : list (SPath * BTreeSet bytes)) :
  bt_sorted l →
  Forall (λ x, StorePath.StorePath_wf x.1 ∧ bt_sorted x.2 ∧
            Forall (λ s, utf8_valid s = true) x.2.*1) l →
  parses (parse_input_derivations (K := K) dbg)
    (brackets (commas (input_text (raw_field ∘ StorePath.to_absolute_path) <$> l))) l.
Proof.
  intros Hs Hl i. unfold parse_input_derivations.
  pose proof (parses_kv (parse_string_list (K := K)) raw_field strings_text
    ((λ x, (StorePath.to_absolute_path x.1, x.2.*1)) <$> l)) as Hkv.
  rewrite <- list_fmap_compose in Hkv.
  unfold input_text. rewrite (Hkv : ∀ _ _, parses _ (brackets (commas (_ <$> l))) _).
  - cbn [obind]. rewrite (collect_input_derivations_sorted _ _ [] l); [done| |done].
    eapply Forall_impl; [exact Hl|]. naive_solver.
  - apply paths_sorted; [|done]. eapply Forall_impl; [exact Hl|]. naive_solver.
  - apply Forall_fmap. eapply Forall_impl; [exact Hl|]. intros x (Hx & _ & Hn). split.
    + rewrite raw_field_plain by by apply absolute_path_plain.
      by apply parses_string_field, absolute_path_plain.
    + by apply parses_string_list.
Qed.

(** Two inputs whose paths share the digest are one key: the first path is kept
    with the output names of the second. *)
Lemma same_digest_inputs_merge dbg i p q (ns ms : BTreeSet bytes) :
  StorePath.StorePath_wf p → StorePath.StorePath_wf q → StorePath.digest p = StorePath.digest q →
  bt_sorted ns → bt_sorted ms →
  collect_input_derivations (K := K) dbg i []
    [(StorePath.to_absolute_path p, ns.*1); (StorePath.to_absolute_path q, ms.*1)] = Ok [(p, ms)].
Proof.
  intros Hp Hq E Hns Hms. cbn [collect_input_derivations].
  rewrite (collect_output_names_sorted _ _ [] ns), (collect_output_names_sorted _ _ [] ms) by done.
  cbn [obind]. rewrite !string_to_store_path_eq by done. cbn [obind bt_insert].
  assert (rcmp q p = Eq) as ->; [|done]. unfold rcmp, StorePath.StorePath_cmp. rewrite E.
  apply (rcmp_refl (A := bytes)).
Qed.

Lemma parses_input_sources dbg (l : BTreeSet SPath) :
  bt_sorted l → Forall (λ x, StorePath.StorePath_wf x.1) l →
  parses (parse_input_sources (K := K) dbg)
    (strings_text (StorePath.to_absolute_path <$> l.*1)) l.
Proof.
  intros Hs Hl i. unfold parse_input_sources. rewrite parses_string_list.
  - cbn [omap_err obind]. by rewrite (collect_input_sources_sorted _ _ [] l).
  - rewrite <- list_fmap_compose. apply Forall_fmap. eapply Forall_impl; [exact Hl|].
    intros x Hx. by apply absolute_path_plain.
Qed.

(** *** Outputs *)

Definition output_ok (o : Output) : Prop :=
  (∀ p, path o = Some p → StorePath.StorePath_wf p) ∧
  (∀ c, output_ca_hash o = Some c → CAHash_wf c ∧ is_Some (ca_kind_prefix c)).

Lemma path_str_utf8 o : output_ok o → utf8_valid (path_str o) = true.
Proof.
  intros [Hp _]. unfold path_str. destruct (path o) as [p|]; [|done].
  by apply absolute_path_plain, Hp.
Qed.

Lemma mode_and_algo_utf8 o : utf8_valid (mode_and_algo o) = true.
Proof.
  unfold mode_and_algo. destruct (output_ca_hash o) as [[[]|[]|]|]; by vm_compute.
Qed.

Lemma from_mode_eq c :
  CAHash_wf c → is_Some (ca_kind_prefix c) →
  from_algo_and_mode_and_digest (default [] (ca_kind_prefix c) ++ algo_to_string (algo (ca_hash c)))
    (digest_as_bytes (ca_hash c)) = Ok c.
Proof.
  assert (∀ h, NixHash_wf h → from_algo_and_digest (algo h) (digest_as_bytes h) = Ok h) as Hh.
  { intros h Hh. unfold from_algo_and_digest. rewrite Hh, Nat.eqb_refl. by destruct h. }
  intros Hc [prefix Hp]. unfold from_algo_and_mode_and_digest.
  destruct c as [h|h|]; [| |done]; injection Hp as <-; unfold CAHash_wf in Hc;
    cbn [ca_kind_prefix ca_hash default option_map from_option id app] in *.
  - pose proof (strip_r_algo (algo h) []) as Hr. rewrite app_nil_r in Hr. rewrite Hr.
    rewrite algo_try_from_to_string. cbn [obind]. by rewrite Hh.
  - rewrite strip_prefix_app, algo_try_from_to_string. cbn [obind]. by rewrite Hh.
Qed.

Lemma output_of_fields_eq dbg i n o :
  output_ok o →
  output_of_fields (K := K) dbg i (n, path_str o, mode_and_algo o, hex_digest o) = Ok (n, o).
Proof.
  intros [Hp Hc]. unfold output_of_fields.
  assert (omap_ok Some (string_to_store_path (K := K) dbg i (path_str o)) = Ok (path o) ∧ path_str o ≠ []
          ∨ path o = None ∧ path_str o = []) as Hpath.
  { unfold path_str. destruct (path o) as [p|] eqn:E; [left|by right].
    by rewrite string_to_store_path_eq by by apply Hp. }
  assert ((let? p := if length (path_str o) =? 0 then Ok None
           else omap_ok Some (string_to_store_path (K := K) dbg i (path_str o)) in
           Ok (n, mkOutput p (output_ca_hash o))) = Ok (n, o)) as Hlet.
  { destruct Hpath as [[-> Hne]|[Hn ->]]; [|rewrite <- Hn; by destruct o].
    destruct (path_str o); [done|]. by destruct o. }
  unfold mode_and_algo, hex_digest. destruct (output_ca_hash o) as [c|] eqn:E; [|by rewrite <- E in *].
  destruct (Hc c eq_refl) as [Hwf Hk].
  assert (length (default [] (ca_kind_prefix c) ++ algo_to_string (algo (ca_hash c))) ≠ 0) as Hlen.
  { rewrite length_app. destruct (algo (ca_hash c)); simpl; lia. }
  rewrite (proj2 (Nat.eqb_neq _ _) Hlen). cbn [andb].
  rewrite hex_roundtrip, from_mode_eq by done. cbn [omap_ok]. by rewrite <- E in *.
Qed.

Lemma parses_output dbg n o :
  utf8_valid n = true → output_ok o → parses (parse_output (K := K) dbg) (output_text (n, o)) (n, o).
Proof.
  intros Hn Ho i. unfold parse_output. generalize (output_text (n, o) ++ i) at 1. intros i0.
  revert i. apply (parses_delimited _ _ (n, o)). intros i.
  eapply map_res_eq; [|by apply output_of_fields_eq].
  cbn [fmap list_fmap commas join_with fst snd]. rewrite tuple4_eq.
  rewrite <- !app_assoc. cbn [app].
  do 3 (rewrite terminated_eq, parses_string_field
    by (done || by apply path_str_utf8 || apply mode_and_algo_utf8);
    cbn [obind]; rewrite nomchar_eq; cbn [obind]; rewrite <- ?app_assoc; cbn [app]).
  by rewrite parses_bytes_field.
Qed.

Lemma parses_outputs dbg (l : list (bytes * Output)) :
  l ≠ [] → bt_sorted l → Forall (λ x, utf8_valid x.1 = true ∧ output_ok x.2) l →
  parses (parse_outputs (K := K) dbg) (brackets (commas (output_text <$> l))) l.
Proof.
  intros Hne Hs Hl i. unfold parse_outputs, brackets. rewrite delimited_eq. cbn [app].
  rewrite nomchar_eq. cbn [obind]. rewrite <- app_assoc. cbn [app].
  rewrite (separated_list1_items _ _ _ _ _ _ l (BRACKET_CLOSE :: i)).
  - cbn [obind]. rewrite nomchar_eq. cbn [obind]. by rewrite (collect_outputs_sorted _ [] l).
  - apply items_commas; [| |done|].
    + intros j. exists [COMMA]. by apply tag_eq.
    + apply tag_fails. done.
    + intros [n o] Hx. apply (proj1 (Forall_forall _ _) Hl) in Hx as [??]. by apply parses_output.
Qed.

(** ** Derivations *)

(** What the types of the fields guarantee: sorted maps and sets, valid UTF-8
    in every [String], well-formed store paths, digests of the right size. *)
Record derivation_typed (d : Derivation) : Prop := {
  typed_outputs : bt_sorted (outputs d);
  typed_output : Forall (λ x, utf8_valid x.1 = true ∧
    (∀ p, path x.2 = Some p → StorePath.StorePath_wf p) ∧
    (∀ c, output_ca_hash x.2 = Some c → CAHash_wf c)) (outputs d);
  typed_inputs : bt_sorted (input_derivations d);
  typed_input : Forall (λ x, StorePath.StorePath_wf x.1 ∧ bt_sorted x.2 ∧
    Forall (λ s, utf8_valid s = true) x.2.*1) (input_derivations d);
  typed_sources : bt_sorted (input_sources d);
  typed_source : Forall (λ x, StorePath.StorePath_wf x.1) (input_sources d);
  typed_env : bt_sorted (environment d);
  typed_env_keys : Forall (λ x, utf8_valid x.1 = true) (environment d);
  typed_arguments : Forall (λ s, utf8_valid s = true) (arguments d);
  typed_system : utf8_valid (system d) = true;
  typed_builder : utf8_valid (builder d) = true;
}.

Definition set_environment (env : list (bytes * bytes)) (d : Derivation) : Derivation :=
  mkDerivation (arguments d) (builder d) env (input_derivations d) (input_sources d)
    (outputs d) (system d).

Lemma validate_outputs_expressible len b os :
  validate_outputs len b os = Ok tt → Forall (λ x, hash_expressible x.2) os.
Proof.
  induction os as [|[n o] os IH]; cbn [validate_outputs]; [constructor|].
  repeat (case_match; [done|]). destruct (Output_validate o b) as [[]| |] eqn:Ho; [|done|done].
  intros Hos. constructor; [|by apply IH]. unfold Output_validate in Ho. cbn [snd]. intros c Hc.
  rewrite Hc in Ho. by destruct c.
Qed.

Lemma validate_Ok_outputs d b :
  validate d b = Ok tt → outputs d ≠ [] ∧ Forall (λ x, hash_expressible x.2) (outputs d).
Proof.
  unfold validate. destruct (outputs d) as [|x os] eqn:E; [done|]. cbn [length Nat.eqb].
  intros Hd. split; [done|]. apply obind_Ok in Hd as ([] & Hv & _).
  by eapply validate_outputs_expressible.
Qed.

(** One field and the comma after it. *)
Ltac terminated_step Hp :=
  rewrite (parses_terminated _ _ _ _ _ (Hp ltac:(done) ltac:(done) ltac:(done)))
  || rewrite (parses_terminated _ _ _ _ _ (Hp ltac:(done) ltac:(done)))
  || rewrite (parses_terminated _ _ _ _ _ (Hp ltac:(done)));
  cbn [omap_err obind]; rewrite <- ?app_assoc; cbn [app].

(** The text of [d] with the environment printed with other keys. *)
Lemma parse_text dbg d env :
  derivation_typed d → validate d true = Ok tt →
  parses (parse_kv (parse_bytes_field (K := K))) (brackets (commas (env_text <$> env))) (environment d) →
  from_aterm_bytes (K := K) dbg
    (aterm_text (set_environment env d)
       (input_text (raw_field ∘ StorePath.to_absolute_path) <$> input_derivations d)) = Ok d.
Proof.
  intros [] Hv Henv. destruct (validate_Ok_outputs _ _ Hv) as [Hne Hos].
  unfold from_aterm_bytes, parse.
  rewrite (all_consuming_eq _ _ _ _ d); [by rewrite andb_false_r, Hv|].
  unfold parse_derivation, aterm_text. cbn [outputs input_sources system builder arguments
    environment set_environment]. rewrite preceded_eq.
  erewrite tag_eq by apply strip_prefix_app. cbn [obind]. rewrite map_eq.
  rewrite <- (app_nil_r (parens _)). unfold parens.
  rewrite (parses_delimited _ _ (outputs d, input_derivations d, input_sources d, system d, builder d,
    arguments d, environment d)); [by destruct d|].
  intros i. rewrite tuple7_eq. unfold commas at 1. cbn [join_with]. rewrite <- !app_assoc. cbn [app].
  assert (Forall (λ x, utf8_valid x.1 = true ∧ output_ok x.2) (outputs d)) as Hout.
  { rewrite Forall_forall in typed_output0, Hos |- *. intros x Hx. specialize (Hos x Hx).
    destruct (typed_output0 x Hx) as (? & ? & ?). split; [done|]. split; [done|].
    intros c Hc. split; [auto|by apply Hos]. }
  terminated_step (parses_outputs dbg (outputs d)).
  terminated_step (parses_input_derivations dbg (input_derivations d)).
  terminated_step (parses_input_sources dbg (input_sources d)).
  terminated_step (parses_string_field (system d)).
  terminated_step (parses_string_field (builder d)).
  terminated_step (parses_string_list (arguments d)).
  by rewrite Henv.
Qed.

(** C7: a derivation that validates and whose environment keys need no
    escaping survives being written as ATerm and parsed, in both build
    profiles: no assertion fires and every field is read back. *)
Theorem aterm_roundtrip (dbg : bool) (d : Derivation) :
  derivation_typed d → validate d true = Ok tt → Forall (λ x, plain_key x.1) (environment d) →
  ∃ text, to_aterm_bytes (E := Empty_set) d = Ok text ∧
    from_aterm_bytes (K := K) dbg text = Ok d.
Proof.
  intros Hd Hv Hk. destruct (validate_Ok_outputs _ _ Hv) as [_ Hos]. eexists.
  split; [by apply to_aterm_bytes_text|].
  pose proof (parse_text dbg d (environment d) Hd Hv) as Hp. destruct d. apply Hp.
  apply (parses_kv _ raw_field field); [apply Hd|].
  eapply Forall_impl; [exact Hk|]. intros x Hx. split; [|apply parses_bytes_field].
  rewrite raw_field_plain by done. apply parses_string_field, Hx.
Qed.

(** C38: environment keys are written without escaping but read with it. So
    when the keys of one derivation are the escaped keys of another, the text
    of the first one is parsed as the second. *)
Theorem environment_keys_not_escaped (dbg : bool) (d : Derivation) :
  derivation_typed d → validate d true = Ok tt →
  ∃ text, to_aterm_bytes (E := Empty_set)
      (set_environment ((λ x, (escape_bytes x.1, x.2)) <$> environment d) d) = Ok text ∧
    from_aterm_bytes (K := K) dbg text = Ok d.
Proof.
  intros Hd Hv. destruct (validate_Ok_outputs _ _ Hv) as [_ Hos].
  set (env := _ <$> _). rewrite (to_aterm_bytes_text (set_environment env d) Hos).
  eexists. split; [done|]. apply (parse_text dbg d env); [done|done|]. unfold env.
  rewrite <- list_fmap_compose. apply (parses_kv _ field field); [apply Hd|].
  eapply Forall_impl; [apply typed_env_keys, Hd|]. intros x Hx.
  split; [by apply parses_string_field|apply parses_bytes_field].
Qed.

End Parse.

(** ** Validation *)

Definition output_name_ok (n : bytes) : Prop := StorePath.name_ok n ∧ n ≠ B "drv".

Lemma bad_output_name_false n : bad_output_name n = false ↔ output_name_ok n.
Proof.
  unfold bad_output_name, output_name_ok. rewrite !orb_false_iff, bool_decide_eq_false, Nat.eqb_neq.
  destruct (StorePath.validate_name_spec n) as [[Hn ->]|[[Hn ->]|(p & c & _ & Hp & Hc & _ & ->)]].
  - split; [naive_solver|]. intros [[[??] _] ?]. split_and!; [lia|done|done].
  - split; [naive_solver|]. intros [[? _] _]. done.
  - split; [naive_solver|]. intros [[_ Hv] _].
    pose proof (Forall_lookup_1 _ _ _ _ Hv Hp). simpl in *. congruence.
Qed.

(** What is required of one output of a derivation with [len] of them. *)
Definition output_valid (len : nat) (paths : bool) (x : bytes * Output) : Prop :=
  output_name_ok x.1 ∧
  (is_Some (output_ca_hash x.2) → len = 1 ∧ x.1 = B "out") ∧
  hash_expressible x.2 ∧
  (paths = true → is_Some (path x.2)).

Lemma Output_validate_Ok o b :
  Output_validate o b = Ok tt ↔ hash_expressible o ∧ (b = true → is_Some (path o)).
Proof.
  unfold Output_validate. assert ((∀ c, output_ca_hash o = Some c → is_Some (ca_kind_prefix c)) ↔
    (match output_ca_hash o with
     | Some (Flat _) | Some (Nar _) | None => Ok tt
     | Some c => Err (InvalidCAHash c)
     end) = Ok tt) as ->.
  { destruct (output_ca_hash o) as [[h|h|t]|]; split; try done; intros Hc; try (by intros c [= <-]).
    by destruct (Hc _ eq_refl). }
  destruct (match output_ca_hash o with Some (Text _) => _ | _ => _ end) as [[]| |]; [|naive_solver..].
  cbn [obind]. destruct b, (path o) as [p|]; cbn; split; intros; try done; try split; try done.
  destruct H as [_ Hp]. by destruct (Hp eq_refl).
Qed.

Lemma validate_outputs_Ok len b os :
  validate_outputs len b os = Ok tt ↔ Forall (output_valid len b) os.
Proof.
  induction os as [|[n o] os IH]; cbn [validate_outputs]; [by rewrite Forall_nil|].
  rewrite Forall_cons, <- IH. unfold output_valid. cbn [fst snd].
  rewrite <- bad_output_name_false, <- Output_validate_Ok.
  destruct (bad_output_name n); [naive_solver|]. unfold is_fixed.
  destruct (bool_decide_reflect (is_Some (output_ca_hash o))) as [Hf|Hf]; cbn [andb].
  - destruct (Nat.eqb_spec len 1); cbn [negb]; [|naive_solver].
    destruct (bool_decide_reflect (n = B "out")); cbn [negb]; [|naive_solver].
    destruct (Output_validate o b) as [[]| |]; naive_solver.
  - destruct (Output_validate o b) as [[]| |]; naive_solver.
Qed.

Lemma validate_output_names_Ok p ns :
  validate_output_names p ns = Ok tt ↔ Forall (λ x, output_name_ok x.1) ns.
Proof.
  induction ns as [|[n u] ns IH]; cbn [validate_output_names]; [by rewrite Forall_nil|].
  rewrite Forall_cons, <- IH. cbn [fst]. rewrite <- bad_output_name_false.
  destruct (bad_output_name n); naive_solver.
Qed.

Definition input_valid (x : SPath * BTreeSet bytes) : Prop :=
  ends_with (B ".drv") (StorePath.name x.1) = true ∧ x.2 ≠ [] ∧ Forall (λ n, output_name_ok n.1) x.2.

Lemma validate_input_derivations_Ok ds :
  validate_input_derivations ds = Ok tt ↔ Forall input_valid ds.
Proof.
  induction ds as [|[p ns] ds IH]; cbn [validate_input_derivations]; [by rewrite Forall_nil|].
  rewrite Forall_cons, <- IH. unfold input_valid. cbn [fst snd]. rewrite <- (validate_output_names_Ok p).
  destruct (ends_with (B ".drv") (StorePath.name p)); cbn [negb]; [|naive_solver].
  destruct ns as [|x ns]; cbn [length Nat.eqb]; [naive_solver|].
  destruct (validate_output_names p (x :: ns)) as [[]| |]; cbn [obind]; naive_solver.
Qed.

Lemma validate_environment_Ok env :
  validate_environment env = Ok tt ↔ Forall (λ x, x.1 ≠ []) env.
Proof.
  induction env as [|[k v] env IH]; cbn [validate_environment]; [by rewrite Forall_nil|].
  rewrite Forall_cons, <- IH. destruct k; cbn [length Nat.eqb fst]; naive_solver.
Qed.

Lemma validate_outputs_no_panic len b os : validate_outputs len b os ≠ Panic.
Proof.
  induction os as [|[n o] os IH]; cbn [validate_outputs]; [done|].
  repeat (case_match; [done|]). destruct (Output_validate o b) eqn:Ho; [done|done|].
  unfold Output_validate in Ho. destruct (output_ca_hash o) as [[]|]; cbn [obind] in Ho; try done; by case_match.
Qed.

Lemma validate_input_derivations_no_panic ds : validate_input_derivations ds ≠ Panic.
Proof.
  induction ds as [|[p ns] ds IH]; cbn [validate_input_derivations]; [done|].
  repeat (case_match; [done|]).
  assert (validate_output_names p ns ≠ Panic) as Hn.
  { clear. induction ns as [|[n u] ns IHn]; cbn [validate_output_names]; [done|]. by case_match. }
  by destruct (validate_output_names p ns) as [[]| |].
Qed.

Lemma validate_no_panic d paths : validate d paths ≠ Panic.
Proof.
  unfold validate. case_match; [done|].
  pose proof (validate_outputs_no_panic (length (outputs d)) paths (outputs d)).
  destruct (validate_outputs _ _ _) as [[]| |]; [|done..]. cbn [obind].
  pose proof (validate_input_derivations_no_panic (input_derivations d)).
  destruct (validate_input_derivations _) as [[]| |]; [|done..]. cbn [obind].
  repeat (case_match; [done|]). generalize (environment d).
  induction l as [|[k v] env IH]; cbn [validate_environment]; [done|]. by case_match.
Qed.

(** C12: [Derivation::validate] accepts exactly the derivations with at least
    one output (its comment says more than one: the code refuses the empty map
    only); good output names, of which none is "drv"; a fixed output only
    alone, called "out" and with a flat or recursive hash; output paths if they
    are asked for; input derivations that end in ".drv" and name at least one
    good output; and no empty platform, builder or environment key. It never
    panics. *)
Theorem validate_exact (d : Derivation) (paths : bool) :
  (validate d paths = Ok tt ↔
   outputs d ≠ [] ∧ Forall (output_valid (length (outputs d)) paths) (outputs d) ∧
   Forall input_valid (input_derivations d) ∧ system d ≠ [] ∧ builder d ≠ [] ∧
   Forall (λ x, x.1 ≠ []) (environment d)) ∧
  ~ (validate d paths = Panic).
Proof.
  split; [|apply validate_no_panic].
  unfold validate. rewrite <- validate_outputs_Ok, <- validate_input_derivations_Ok, <- validate_environment_Ok.
  destruct (outputs d) as [|x os]; cbn [length Nat.eqb]; [naive_solver|].
  destruct (validate_outputs _ _ _) as [[]| |]; cbn [obind]; [|naive_solver..].
  destruct (validate_input_derivations _) as [[]| |]; cbn [obind]; [|naive_solver..].
  destruct (system d), (builder d); cbn [length Nat.eqb]; naive_solver.
Qed.

(** ** Output paths *)

Section OutputPaths.
Context `{!Sha2, !DataEncoding, !Bstr}.

Lemma fingerprint_cases ty digest n :
  (∃ p, StorePath.build_store_path_from_fingerprint_parts ty digest n = Ok p ∧
     StorePath.StorePath_wf p ∧ StorePath.name p = n) ∨
  (∃ e, StorePath.build_store_path_from_fingerprint_parts ty digest n = Err e ∧
     ¬ StorePath.name_ok n).
Proof.
  destruct (StorePath.build_store_path_from_fingerprint_parts ty digest n) as [p|e|] eqn:E.
  - left. exists p. split; [done|]. by apply StorePath.from_fingerprint_Ok in E.
  - right. exists e. split; [done|]. intros Hn.
    destruct (StorePath.from_fingerprint_name_ok ty digest n Hn) as [p Hp]. congruence.
  - exfalso. revert E.
    unfold StorePath.build_store_path_from_fingerprint_parts, StorePath.from_name_and_digest_fixed.
    by destruct (StorePath.validate_name_spec n) as [[_ ->]|[[_ ->]|(? & ? & _ & _ & _ & _ & ->)]].
Qed.

(** An output gets a path exactly when its path name is a good one. *)
Lemma output_store_path_cases name h n o :
  (∃ p, output_store_path name h n o = Ok p ∧ StorePath.StorePath_wf p ∧
     StorePath.name p = output_path_name name n) ∨
  (∃ e, output_store_path name h n o =
          Err (InvalidOutputDerivationPath n (StorePath.InvalidStorePath e)) ∧
     ¬ StorePath.name_ok (output_path_name name n)).
Proof.
  assert (∃ ty digest, output_store_path name h n o =
    omap_err (λ e, InvalidOutputDerivationPath n (StorePath.InvalidStorePath e))
      (StorePath.build_store_path_from_fingerprint_parts ty digest (output_path_name name n)))
    as (ty & digest & ->).
  { unfold output_store_path.
    destruct (output_ca_hash o) as [c|]; [|by eexists _, _].
    unfold StorePath.build_ca_path. cbn [andb].
    destruct c as [[]|[]|]; cbn [obind]; rewrite omap_err_compose; by eexists _, _. }
  destruct (fingerprint_cases ty digest (output_path_name name n)) as [(p & -> & ? & ?)|(e & -> & ?)]; eauto 10.
Qed.

(** The outputs [outs'] are those of [outs] with paths, which [env'] holds and
    which are all that changed against [env]. *)
Definition outputs_filled (name h : bytes) (outs outs' : list (bytes * Output))
    (env env' : list (bytes * bytes)) : Prop :=
  outs'.*1 = outs.*1 ∧
  (∀ n o', (n, o') ∈ outs' → ∃ o p, (n, o) ∈ outs ∧ output_store_path name h n o = Ok p ∧
     o' = mkOutput (Some p) (output_ca_hash o) ∧ StorePath.StorePath_wf p ∧
     StorePath.name p = output_path_name name n ∧
     bt_get n env' = Some (StorePath.to_absolute_path p)) ∧
  (∀ k, k ∉ outs.*1 → bt_get k env' = bt_get k env).

Lemma output_paths_loop_spec name h done_ todo env :
  NoDup todo.*1 → Forall (λ x, path x.2 = None) todo →
  match output_paths_loop name h done_ todo env with
  | (Ok _, (outs', env')) =>
      ∃ new, outs' = done_ ++ new ∧ outputs_filled name h todo new env env'
  | (Err (InvalidOutputDerivationPath n (StorePath.InvalidStorePath _)), _) =>
      n ∈ todo.*1 ∧ ¬ StorePath.name_ok (output_path_name name n)
  | _ => False
  end.
Proof.
  intros Hnd Hnone. revert done_ env.
  induction todo as [|[n o] todo IH]; intros done_ env; cbn [output_paths_loop].
  { exists []. rewrite app_nil_r. split; [done|]. split_and!; [done| |done].
    by intros n o' ?%not_elem_of_nil. }
  cbn [fmap list_fmap fst] in Hnd. apply NoDup_cons in Hnd as [Hn Hnd].
  apply Forall_cons in Hnone as [Ho Hnone]. cbn [snd] in Ho.
  rewrite bool_decide_eq_false_2 by (rewrite Ho; by intros []).
  destruct (output_store_path_cases name h n o) as [(p & Hp & Hwf & Hname)|(e & -> & He)].
  2: { split; [left|done]. }
  rewrite Hp. specialize (IH Hnd Hnone (done_ ++ [(n, mkOutput (Some p) (output_ca_hash o))])
    (bt_insert n (StorePath.to_absolute_path p) env)).
  destruct (output_paths_loop _ _ _ _ _) as [[[]|err|] [outs' env']]; [|by repeat case_match; try done; destruct IH; split; [right|]|done].
  destruct IH as (new & -> & Hk & Hnew & Henv).
  exists ((n, mkOutput (Some p) (output_ca_hash o)) :: new). split; [by rewrite <- app_assoc|].
  split_and!; cbn [fmap list_fmap fst]; [by f_equal| |].
  - intros n' o' [[= -> ->]|Hx]%elem_of_cons.
    + exists o, p. split_and!; [left|done..|]. rewrite Henv by done.
      apply bt_get_insert_eq, rcmp_refl.
    + destruct (Hnew _ _ Hx) as (o1 & p1 & ? & ?). exists o1, p1. split; [by right|done].
  - intros k Hk'. apply not_elem_of_cons in Hk' as [Hne Hk']. rewrite Henv by done.
    apply bt_get_insert_ne. intros E%rcmp_eq. congruence.
Qed.

(** [calculate_output_paths] on a derivation without output paths. It
    fails only on an output whose path name is not a good store path name.
    Otherwise every output, and nothing else, gets the path that belongs to
    its hash or to the hash of the derivation, well formed and with the right
    name; the environment variable of its name holds it; all other variables
    keep their value. *)
Theorem calculate_output_paths_spec (name h : bytes) (d : Derivation) :
  bt_sorted (outputs d) → Forall (λ x, path x.2 = None) (outputs d) →
  match calculate_output_paths name h d with
  | (Ok _, d') =>
      d' = mkDerivation (arguments d) (builder d) (environment d') (input_derivations d)
             (input_sources d) (outputs d') (system d) ∧
      outputs_filled name h (outputs d) (outputs d') (environment d) (environment d')
  | (Err (InvalidOutputDerivationPath n (StorePath.InvalidStorePath _)), _) =>
      n ∈ (outputs d).*1 ∧ ¬ StorePath.name_ok (output_path_name name n)
  | _ => False
  end.
Proof.
  intros Hs Hnone. unfold calculate_output_paths.
  pose proof (output_paths_loop_spec name h [] (outputs d) (environment d)
    (bt_sorted_NoDup _ Hs) Hnone) as Hloop.
  destruct (output_paths_loop _ _ _ _ _) as [[[]|err|] [outs' env']]; [|done..].
  destruct Hloop as (new & -> & Hf). done.
Qed.

(** ** The hash of a derivation *)

(** The text hashed for a fixed output. *)
Definition fixed_text (c : CAHash) (o : Output) : bytes :=
  B "fixed:out:" ++ default [] (ca_kind_prefix c) ++ to_nix_hex_string (ca_hash c) ++ B ":" ++ path_str o.

Lemma writes_digest32 d : writes (aterm_write d) (let '(mkDigest32 d) := d in raw_field (HEXLOWER_encode d)).
Proof. destruct d as [d]. apply writes_raw_field. Qed.

(** The hash of a derivation with expressible hashes. It does not panic. A
    fixed output alone determines it: neither inputs nor builder matter. Any
    other derivation is hashed by its ATerm, in which the inputs are the
    hashes the caller gives for them, sorted; so it depends on the paths of
    the inputs through these hashes only. *)
Theorem hash_derivation_modulo_spec (d : Derivation) (lookup_hash : SPath → bytes) :
  Forall (λ x, hash_expressible x.2) (outputs d) →
  hash_derivation_modulo (E := Empty_set) d lookup_hash = Ok (Crates.Sha256
    match outputs d with
    | [(n, mkOutput p (Some c))] =>
        if bool_decide (n = B "out") then fixed_text c (mkOutput p (Some c))
        else aterm_text d (input_text (λ '(mkDigest32 h), raw_field (HEXLOWER_encode h)) <$>
               bt_of_list ((λ x, (mkDigest32 (lookup_hash x.1), x.2)) <$> input_derivations d))
    | _ => aterm_text d (input_text (λ '(mkDigest32 h), raw_field (HEXLOWER_encode h)) <$>
             bt_of_list ((λ x, (mkDigest32 (lookup_hash x.1), x.2)) <$> input_derivations d))
    end).
Proof.
  intros Hos. unfold hash_derivation_modulo, to_aterm_bytes_with_replacements.
  set (ins := bt_of_list _).
  assert (ins = bt_of_list ((λ x, (mkDigest32 (lookup_hash x.1), x.2)) <$> input_derivations d)) as <-.
  { unfold ins. f_equal. apply list_fmap_ext. by intros _ [p ns] _. }
  rewrite (serialize_text _ d ins writes_digest32 Hos []). cbn [app].
  set (text := aterm_text d _). unfold fod_digest.
  destruct (outputs d) as [|[n [p c]] [|x os]]; cbn [length Nat.eqb negb obind default]; [done| |by destruct c].
  destruct (bool_decide_reflect (n = B "out")) as [->|Hn].
  - unfold bt_get, bt_entry. rewrite rcmp_refl. cbn [fmap option_fmap option_map snd output_ca_hash].
    destruct c as [c|]; [|done]. apply Forall_inv in Hos. destruct (Hos c eq_refl) as [pre Hpre].
    unfold fixed_text, path_str. rewrite Hpre. cbn [or_panic obind default from_option id path].
    by destruct p.
  - unfold bt_get. rewrite (proj2 (bt_entry_fresh _ _)); [by destruct c|].
    cbn [fmap list_fmap fst]. by intros ?%list_elem_of_singleton.
Qed.

End OutputPaths.

(** ** Witnesses *)

Import Models NomModel.

(** A derivation with one fixed output, as in the tests of the source. *)
Definition sample_output (p : option SPath) : Output :=
  mkOutput p (Some (Nar (NHSha256 (replicate 32 Byte.x42)))).

Definition sample_drv (key : bytes) : Derivation :=
  mkDerivation [B "-c"; B "echo"] (B "/bin/sh") [(key, B "x y"); (B "out", B "/nix/store")]
    [(StorePath.mkStorePath hex_test (B "bar.drv"), [(B "out", tt)])]
    [(StorePath.mkStorePath (replicate 20 Byte.x07) (B "builder.sh"), tt)]
    [(B "out", sample_output (Some (StorePath.mkStorePath hex_test (B "bar"))))]
    (B "x86_64-linux").

Lemma path_wf_check p :
  (length (StorePath.digest p) =? DIGEST_SIZE) && bool_decide (StorePath.name_ok (StorePath.name p)) = true →
  StorePath.StorePath_wf p.
Proof. intros [H1%Nat.eqb_eq H2%bool_decide_eq_true]%andb_true_iff. by split. Qed.

(** Sorted maps and lists given element by element. *)
Ltac sorted_check :=
  repeat first [apply Sorted.SSorted_cons | apply Sorted.SSorted_nil | apply Forall_cons_2 | apply Forall_nil_2].

Lemma sample_drv_typed key :
  utf8_valid key = true → lex_cmp key (B "out") = Lt → derivation_typed (sample_drv key).
Proof.
  intros Hk Hlt.
  split; cbn [sample_drv outputs environment input_derivations input_sources arguments system builder];
    sorted_check; try done; cbn [fst snd fmap list_fmap]; split_and?; sorted_check; try done.
  - intros p [= <-]. by apply path_wf_check; vm_compute.
  - by intros c [= <-].
  - by apply path_wf_check; vm_compute.
  - by apply path_wf_check; vm_compute.
Qed.

Lemma aterm_roundtrip_witness :
  ∃ text, to_aterm_bytes (E := Empty_set) (sample_drv (B "env")) = Ok text ∧
    from_aterm_bytes (K := unit) true text = Ok (sample_drv (B "env")).
Proof.
  apply (aterm_roundtrip true (sample_drv (B "env"))).
  - by apply sample_drv_typed.
  - by vm_compute.
  - apply Forall_cons_2; [|apply Forall_cons_2; [|apply Forall_nil_2]]; split;
      try (by vm_compute); apply (bool_decide_unpack _); by vm_compute.
Defined.

(** Both derivations are valid and differ: a key that ends in a backslash and
    the letter n comes back with a line feed. *)
Lemma environment_keys_not_escaped_witness :
  let d := sample_drv [Byte.x61; Byte.x0a] in
  let d' := sample_drv [Byte.x61; BACKSLASH; Byte.x6e] in
  derivation_typed d' ∧ validate d' true = Ok tt ∧ d' ≠ d ∧
  ∃ text, to_aterm_bytes (E := Empty_set) d' = Ok text ∧
    from_aterm_bytes (K := unit) true text = Ok d.
Proof.
  intros d d'. split_and!; [by apply sample_drv_typed|by vm_compute|done|].
  assert (d' = set_environment ((λ x, (escape_bytes x.1, x.2)) <$> environment d) d) as ->.
  { by vm_compute. }
  apply (environment_keys_not_escaped true d).
  - by apply sample_drv_typed.
  - by vm_compute.
Defined.

Definition sample_unfilled (names : list bytes) : Derivation :=
  mkDerivation [] (B "/bin/sh") [] [] [] ((λ n, (n, mkOutput None None)) <$> names) (B "x86_64-linux").

Lemma calculate_output_paths_spec_witness :
  let d := sample_unfilled [B "dev"; B "out"] in
  let d' := (calculate_output_paths (B "foo") (replicate 32 Byte.x00) d).2 in
  outputs_filled (B "foo") (replicate 32 Byte.x00) (outputs d) (outputs d') [] (environment d').
Proof.
  apply (calculate_output_paths_spec (B "foo") (replicate 32 Byte.x00) (sample_unfilled [B "dev"; B "out"]));
    cbn [sample_unfilled outputs fmap list_fmap]; by sorted_check.
Defined.

Lemma hash_derivation_modulo_spec_witness :
  hash_derivation_modulo (E := Empty_set) (sample_drv (B "env")) (λ _, []) =
    Ok (Crates.Sha256 (B "fixed:out:r:sha256:4242424242424242424242424242424242424242424242424242424242424242:/nix/store/00bgd045z0d4icpbc2yyz4gx48ak44la-bar")).
Proof.
  refine (eq_trans (hash_derivation_modulo_spec (sample_drv (B "env")) (λ _, []) _) _).
  - apply Forall_cons_2; [|apply Forall_nil_2]. intros c [= <-]. by exists (B "r:").
  - by vm_compute.
Defined.
