(* ===== verification/NarInfo.v ===== *)
(** * [nix-compat/src/narinfo]: the files that describe store paths

    [signature.rs], [fingerprint.rs] and [mod.rs]: parsing and printing of
    signatures and of NARInfo files, and the string that is signed. Ed25519
    signing is a function of the signing key; which characters beyond ASCII are
    letters is left to the Unicode tables of the standard library. *)

From stdpp Require Import strings.
From S2P Require Import Prelude Crates StdText NixBase32 NixHash StorePath.
#[local] Open Scope nat_scope.

(** [char::is_alphanumeric] *)
Class UnicodeTables := is_alphanumeric : Z → bool.

Definition ascii_alphanumeric (c : Z) : bool :=
  ((0x30 <=? c) && (c <=? 0x39) || (0x41 <=? c) && (c <=? 0x5a) || (0x61 <=? c) && (c <=? 0x7a))%Z.

Class UnicodeLaws `{UnicodeTables} : Prop :=
  is_alphanumeric_ascii c : (0 ≤ c < 0x80)%Z → is_alphanumeric c = ascii_alphanumeric c.

(** ** signature.rs *)

Module Signature.

Definition SIGNATURE_LENGTH : nat := 64.

Record Signature := mkSignature {
  name : bytes;
  signature_bytes : bytes;
}.

Inductive Error :=
| InvalidName (s : bytes)
| MissingSeparator
| InvalidSignatureLen (len : nat)
| DecodeError (s : bytes).

Section Signature.
Context `{!DataEncoding, !UnicodeTables}.

(** The condition on names, on the characters of the string. *)
Definition name_chars_ok (name : bytes) : bool :=
  forallb (λ c, is_alphanumeric c || (c =? 0x2d)%Z || (c =? 0x2e)%Z) (chars name).

(** [Signature::parse]; a decoding of another length is the [unreachable!()]. *)
Definition parse (input : bytes) : outcome Error Signature :=
  let? (name, bytes64) := ok_or MissingSeparator (split_once Byte.x3a input) in
  if (length name =? 0) || negb (name_chars_ok name) then Err (InvalidName name)
  else if negb (length bytes64 =? BASE64_encode_len SIGNATURE_LENGTH)
  then Err (InvalidSignatureLen (length bytes64))
  else match BASE64_decode bytes64 with
       | inr buf => if length buf =? SIGNATURE_LENGTH then Ok (mkSignature name buf) else Panic
       | inl _ => Err (DecodeError input)
       end.

(** [Display for Signature] *)
Definition to_string (s : Signature) : bytes :=
  name s ++ B ":" ++ BASE64_encode (signature_bytes s).

End Signature.
End Signature.

(** ** fingerprint.rs *)

Abbreviation SPath := StorePath.StorePath.

Definition fingerprint_of (store_path : SPath) (nar_sha256 : bytes) (nar_size : Z)
    (references : list SPath) : bytes :=
  B "1;" ++ StorePath.to_absolute_path store_path ++ B ";sha256:" ++ encode nar_sha256 ++ B ";"
    ++ u64_to_string nar_size ++ B ";"
    ++ join_with Byte.x2c (StorePath.to_absolute_path <$> references).

(** ** mod.rs *)

Definition UNKNOWN_FIELD : Z := 1.
Definition COMPRESSION_DEFAULT : Z := 2.
Definition REFERENCES_OUT_OF_ORDER : Z := 4.
Definition NAR_HASH_HEX : Z := 8.

Record NarInfo := mkNarInfo {
  flags : Z;
  store_path : SPath;
  nar_hash : bytes;
  nar_size : Z;
  references : list SPath;
  signatures : list Signature.Signature;
  ca : option CAHash;
  system : option bytes;
  deriver : option SPath;
  url : bytes;
  compression : option bytes;
  file_hash : option bytes;
  file_size : option Z;
}.

Inductive Error :=
| DuplicateField (tag : bytes)
| MissingField (tag : bytes)
| InvalidLine (line : bytes)
| InvalidStorePath (e : StorePath.Error)
| EmptyField (tag : bytes)
| UnableToParseSize (tag val : bytes)
| InvalidReference (i : nat) (e : StorePath.Error)
| InvalidDeriverStorePath (e : StorePath.Error)
| InvalidDeriverStorePathMissingSuffix
| MissingPrefixForHash (tag : bytes)
| UnableToDecodeHash (tag : bytes) (e : DecodeError)
| UnableToParseSignature (i : nat) (e : Signature.Error)
| UnableToParseCA (val : bytes).

(** The mutable variables of [parse]. *)
Record Fields := mkFields {
  f_flags : Z;
  f_store_path : option SPath;
  f_url : option bytes;
  f_compression : option bytes;
  f_file_hash : option bytes;
  f_file_size : option Z;
  f_nar_hash : option bytes;
  f_nar_size : option Z;
  f_references : option (list SPath);
  f_system : option bytes;
  f_deriver : option SPath;
  f_signatures : list Signature.Signature;
  f_ca : option CAHash;
}.

Definition no_fields : Fields :=
  mkFields 0 None None None None None None None None None None [] None.

(** [field.replace(val).is_some()] makes the field a duplicate. *)
Definition replace {A} (tag : bytes) (field : option A) (val : A) : outcome Error (option A) :=
  match field with Some _ => Err (DuplicateField tag) | None => Ok (Some val) end.

Definition non_empty (tag val : bytes) : outcome Error unit :=
  if length val =? 0 then Err (EmptyField tag) else Ok tt.

Definition parse_size (tag val : bytes) : outcome Error Z :=
  ok_or (UnableToParseSize tag val) (u64_from_str val).

(** The iterator over the references: a name that is not above the one before
    it raises the flag. *)
Fixpoint parse_references (i : nat) (prev : bytes) (flags : Z) (ss : list bytes)
    : outcome Error (Z * list SPath) :=
  match ss with
  | [] => Ok (flags, [])
  | s :: ss =>
      let flags := match lex_cmp prev s with
                   | Lt => flags
                   | _ => Z.lor flags REFERENCES_OUT_OF_ORDER
                   end in
      let? p := omap_err (InvalidReference i) (StorePath.from_bytes s) in
      let? (flags, ps) := parse_references (S i) s flags ss in
      Ok (flags, p :: ps)
  end.

(** Assignments to one of the variables. *)
Definition set_flags (v : Z) (f : Fields) : Fields :=
  mkFields v (f_store_path f) (f_url f) (f_compression f) (f_file_hash f) (f_file_size f)
    (f_nar_hash f) (f_nar_size f) (f_references f) (f_system f) (f_deriver f) (f_signatures f)
    (f_ca f).
Definition set_store_path (v : option SPath) (f : Fields) : Fields :=
  mkFields (f_flags f) v (f_url f) (f_compression f) (f_file_hash f) (f_file_size f)
    (f_nar_hash f) (f_nar_size f) (f_references f) (f_system f) (f_deriver f) (f_signatures f) (f_ca f).
Definition set_url (v : option bytes) (f : Fields) : Fields :=
  mkFields (f_flags f) (f_store_path f) v (f_compression f) (f_file_hash f) (f_file_size f)
    (f_nar_hash f) (f_nar_size f) (f_references f) (f_system f) (f_deriver f) (f_signatures f)
    (f_ca f).
Definition set_compression (v : option bytes) (f : Fields) : Fields :=
  mkFields (f_flags f) (f_store_path f) (f_url f) v (f_file_hash f) (f_file_size f) (f_nar_hash f)
    (f_nar_size f) (f_references f) (f_system f) (f_deriver f) (f_signatures f) (f_ca f).
Definition set_file_hash (v : option bytes) (f : Fields) : Fields :=
  mkFields (f_flags f) (f_store_path f) (f_url f) (f_compression f) v (f_file_size f)
    (f_nar_hash f) (f_nar_size f) (f_references f) (f_system f) (f_deriver f) (f_signatures f) (f_ca f).
Definition set_file_size (v : option Z) (f : Fields) : Fields :=
  mkFields (f_flags f) (f_store_path f) (f_url f) (f_compression f) (f_file_hash f) v
    (f_nar_hash f) (f_nar_size f) (f_references f) (f_system f) (f_deriver f) (f_signatures f) (f_ca f).
Definition set_nar_hash (v : option bytes) (f : Fields) : Fields :=
  mkFields (f_flags f) (f_store_path f) (f_url f) (f_compression f) (f_file_hash f)
    (f_file_size f) v (f_nar_size f) (f_references f) (f_system f) (f_deriver f) (f_signatures f) (f_ca f).
Definition set_nar_size (v : option Z) (f : Fields) : Fields :=
  mkFields (f_flags f) (f_store_path f) (f_url f) (f_compression f) (f_file_hash f)
    (f_file_size f) (f_nar_hash f) v (f_references f) (f_system f) (f_deriver f) (f_signatures f) (f_ca f).
Definition set_references (v : option (list SPath)) (f : Fields) : Fields :=
  mkFields (f_flags f) (f_store_path f) (f_url f) (f_compression f) (f_file_hash f)
    (f_file_size f) (f_nar_hash f) (f_nar_size f) v (f_system f) (f_deriver f) (f_signatures f) (f_ca f).
Definition set_system (v : option bytes) (f : Fields) : Fields :=
  mkFields (f_flags f) (f_store_path f) (f_url f) (f_compression f) (f_file_hash f)
    (f_file_size f) (f_nar_hash f) (f_nar_size f) (f_references f) v (f_deriver f) (f_signatures f) (f_ca f).
Definition set_deriver (v : option SPath) (f : Fields) : Fields :=
  mkFields (f_flags f) (f_store_path f) (f_url f) (f_compression f) (f_file_hash f)
    (f_file_size f) (f_nar_hash f) (f_nar_size f) (f_references f) (f_system f) v (f_signatures f) (f_ca f).
Definition set_signatures (v : list Signature.Signature) (f : Fields) : Fields :=
  mkFields (f_flags f) (f_store_path f) (f_url f) (f_compression f) (f_file_hash f)
    (f_file_size f) (f_nar_hash f) (f_nar_size f) (f_references f) (f_system f) (f_deriver f) v (f_ca f).
Definition set_ca (v : option CAHash) (f : Fields) : Fields :=
  mkFields (f_flags f) (f_store_path f) (f_url f) (f_compression f) (f_file_hash f)
    (f_file_size f) (f_nar_hash f) (f_nar_size f) (f_references f) (f_system f) (f_deriver f) (f_signatures f)
    v.

Section NarInfo.
Context `{!DataEncoding, !UnicodeTables}.

(** The [match] on the tag: the field is parsed and stored. *)
Definition parse_field (f : Fields) (tag val : bytes) : outcome Error Fields :=
  if decide (tag = B "StorePath") then
    let? val := ok_or (InvalidStorePath StorePath.MissingStoreDir)
                  (strip_prefix (B "/nix/store/") val) in
    let? val := omap_err InvalidStorePath (StorePath.from_bytes val) in
    let? v := replace tag (f_store_path f) val in
    Ok (set_store_path v f)
  else if decide (tag = B "URL") then
    let? _ := non_empty tag val in
    let? v := replace tag (f_url f) val in
    Ok (set_url v f)
  else if decide (tag = B "Compression") then
    let? _ := non_empty tag val in
    let? v := replace tag (f_compression f) val in
    Ok (set_compression v f)
  else if decide (tag = B "FileHash") then
    let? val := ok_or (MissingPrefixForHash tag) (strip_prefix (B "sha256:") val) in
    let? val := omap_err (UnableToDecodeHash tag) (decode_fixed 32 val) in
    let? v := replace tag (f_file_hash f) val in
    Ok (set_file_hash v f)
  else if decide (tag = B "FileSize") then
    let? val := parse_size tag val in
    let? v := replace tag (f_file_size f) val in
    Ok (set_file_size v f)
  else if decide (tag = B "NarHash") then
    let? val := ok_or (MissingPrefixForHash tag) (strip_prefix (B "sha256:") val) in
    let '(f, val) :=
      if negb (length val =? HEXLOWER_encode_len 32) then (f, decode_fixed 32 val)
      else (set_flags (Z.lor (f_flags f) NAR_HASH_HEX) f, from_sum (HEXLOWER_decode val)) in
    let? val := omap_err (UnableToDecodeHash tag) val in
    let? v := replace tag (f_nar_hash f) val in
    Ok (set_nar_hash v f)
  else if decide (tag = B "NarSize") then
    let? val := parse_size tag val in
    let? v := replace tag (f_nar_size f) val in
    Ok (set_nar_size v f)
  else if decide (tag = B "References") then
    let? (flags, val) :=
      if negb (length val =? 0) then parse_references 0 [] (f_flags f) (split_on Byte.x20 val)
      else Ok (f_flags f, []) in
    let f := set_flags flags f in
    let? v := replace tag (f_references f) val in
    Ok (set_references v f)
  else if decide (tag = B "System") then
    let? _ := non_empty tag val in
    let? v := replace tag (f_system f) val in
    Ok (set_system v f)
  else if decide (tag = B "Deriver") then
    match strip_suffix (B ".drv") val with
    | Some val =>
        let? val := omap_err InvalidDeriverStorePath (StorePath.from_bytes val) in
        let? v := replace tag (f_deriver f) val in
        Ok (set_deriver v f)
    | None => Err InvalidDeriverStorePathMissingSuffix
    end
  else if decide (tag = B "Sig") then
    let? val := omap_err (UnableToParseSignature (length (f_signatures f))) (Signature.parse val) in
    Ok (set_signatures (f_signatures f ++ [val]) f)
  else if decide (tag = B "CA") then
    let? val := ok_or (UnableToParseCA val) (ca_from_nix_hex_str val) in
    let? v := replace tag (f_ca f) val in
    Ok (set_ca v f)
  else Ok (set_flags (Z.lor (f_flags f) UNKNOWN_FIELD) f).

Definition parse_line (f : Fields) (line : bytes) : outcome Error Fields :=
  let? (tag, val) := ok_or (InvalidLine line) (split_once Byte.x3a line) in
  let? val := ok_or (InvalidLine line) (strip_prefix (B " ") val) in
  parse_field f tag val.

(** The loop over the lines. *)
Fixpoint parse_lines (f : Fields) (ls : list bytes) : outcome Error Fields :=
  match ls with
  | [] => Ok f
  | l :: ls => let? f := parse_line f l in parse_lines f ls
  end.

(** The [NarInfo] of the fields, in the order of the struct literal: the first
    required field that is missing is the error. *)
Definition finish (f : Fields) : outcome Error NarInfo :=
  let? sp := ok_or (MissingField (B "StorePath")) (f_store_path f) in
  let? nh := ok_or (MissingField (B "NarHash")) (f_nar_hash f) in
  let? ns := ok_or (MissingField (B "NarSize")) (f_nar_size f) in
  let? refs := ok_or (MissingField (B "References")) (f_references f) in
  let? u := ok_or (MissingField (B "URL")) (f_url f) in
  let '(flags, comp) :=
    match f_compression f with
    | Some c => if decide (c = B "none") then (f_flags f, None) else (f_flags f, Some c)
    | None => (Z.lor (f_flags f) COMPRESSION_DEFAULT, Some (B "bzip2"))
    end in
  Ok (mkNarInfo flags sp nh ns refs (f_signatures f) (f_ca f) (f_system f) (f_deriver f) u comp
        (f_file_hash f) (f_file_size f)).

(** [NarInfo::parse] *)
Definition parse (input : bytes) : outcome Error NarInfo :=
  let? f := parse_lines no_fields (lines input) in
  finish f.

(** [NarInfo::fingerprint] *)
Definition fingerprint (n : NarInfo) : bytes :=
  fingerprint_of (store_path n) (nar_hash n) (nar_size n) (references n).

(** [SigningKey], and [NarInfo::add_signature] with [SigningKey::sign] *)
Record SigningKey := mkSigningKey {
  key_name : bytes;
  key_sign : bytes → bytes;
}.

Definition sign (k : SigningKey) (fp : bytes) : Signature.Signature :=
  Signature.mkSignature (key_name k) (key_sign k fp).

Definition add_signature (k : SigningKey) (n : NarInfo) : NarInfo :=
  mkNarInfo (flags n) (store_path n) (nar_hash n) (nar_size n) (references n)
    (signatures n ++ [sign k (fingerprint n)]) (ca n) (system n) (deriver n) (url n)
    (compression n) (file_hash n) (file_size n).

(** [writeln!] *)
Definition writeln (s : bytes) : bytes := s ++ [Byte.x0a].

Definition write_opt {A} (o : option A) (text : A → bytes) : bytes :=
  match o with Some a => writeln (text a) | None => [] end.

(** The references after their tag: each behind a space, or one space. *)
Definition write_references (refs : list SPath) : bytes :=
  match refs with
  | [] => B " "
  | _ => refs ≫= (λ p, B " " ++ StorePath.to_string p)
  end.

(** [Display for NarInfo] *)
Definition to_string (n : NarInfo) : bytes :=
  writeln (B "StorePath: /nix/store/" ++ StorePath.to_string (store_path n)) ++
  writeln (B "URL: " ++ url n) ++
  write_opt (compression n) (λ c, B "Compression: " ++ c) ++
  write_opt (file_hash n) (λ h, B "FileHash: sha256:" ++ encode h) ++
  write_opt (file_size n) (λ s, B "FileSize: " ++ u64_to_string s) ++
  writeln (B "NarHash: sha256:" ++ encode (nar_hash n)) ++
  writeln (B "NarSize: " ++ u64_to_string (nar_size n)) ++
  writeln (B "References:" ++ write_references (references n)) ++
  write_opt (deriver n) (λ p, B "Deriver: " ++ StorePath.to_string p ++ B ".drv") ++
  write_opt (system n) (λ s, B "System: " ++ s) ++
  (signatures n ≫= (λ s, writeln (B "Sig: " ++ Signature.to_string s))) ++
  write_opt (ca n) (λ c, B "CA: " ++ ca_to_nix_nixbase32_string c).

End NarInfo.

(** ** Lines *)

(** Characters that neither end a line nor separate the fields of one. *)
Definition safe_char (c : byte) : bool :=
  negb (bool_decide (c ∈ [Byte.x0a; Byte.x0d; Byte.x20; Byte.x2c; Byte.x3b])).
Definition safe (s : bytes) : Prop := Forall (λ c, safe_char c = true) s.

Lemma safe_not c s : safe s → safe_char c = false → c ∉ s.
Proof. intros Hs Hc Hin. apply (proj1 (Forall_forall _ _) Hs) in Hin. simpl in Hin. congruence. Qed.

Lemma safe_line s : safe s → line_ok s.
Proof.
  intros Hs. split; [by apply (safe_not _ _ Hs)|].
  intros Hl%last_Some_elem_of. by apply (safe_not Byte.x0d) in Hs.
Qed.

Lemma safe_app s t : safe s → safe t → safe (s ++ t).
Proof. intros. by apply Forall_app. Qed.

(** A value on a line of its own: not empty, no line end. *)
Definition value_ok (v : bytes) : Prop := v ≠ [] ∧ line_ok v.

Lemma line_ok_value s v : (Byte.x0a ∉ s) → value_ok v → line_ok (s ++ v).
Proof.
  intros Hs [Hv [Hn Hl]]. split; [by rewrite elem_of_app; intros [?|?]|].
  destruct v as [|c v _] using rev_ind; [done|]. rewrite last_snoc in Hl. by rewrite app_assoc, last_snoc.
Qed.

Lemma safe_encode d : safe (encode d).
Proof.
  eapply Forall_impl; [apply encode_symbols|]. intros c Hc. simpl in Hc.
  destruct c; (by vm_compute) || (exfalso; by vm_compute in Hc).
Qed.

Lemma safe_name_chars s : Forall (λ c, StorePath.valid_name_char c = true) s → safe s.
Proof.
  intros Hs. eapply Forall_impl; [exact Hs|]. intros c Hc. simpl in Hc.
  destruct c; (by vm_compute) || (exfalso; by vm_compute in Hc).
Qed.

Lemma safe_store_path p : StorePath.StorePath_wf p → safe (StorePath.to_string p).
Proof.
  intros [_ [_ Hn]]. unfold StorePath.to_string.
  apply safe_app; [apply safe_encode|]. apply safe_app; [by repeat constructor|].
  by apply safe_name_chars.
Qed.

Lemma safe_u64 n : safe (u64_to_string n).
Proof.
  eapply Forall_impl; [apply u64_to_string_digits|]. intros c Hc. simpl in Hc.
  destruct c; (by vm_compute) || (exfalso; by vm_compute in Hc).
Qed.

Lemma split_at_colon n r : (Byte.x3a ∉ n) → split_once Byte.x3a (n ++ B ":" ++ r) = Some (n, r).
Proof. apply split_once_app. Qed.

(** ** Signatures *)

Definition name_char (c : byte) : bool :=
  ascii_alphanumeric (b2z c) || (b2z c =? 0x2d)%Z || (b2z c =? 0x2e)%Z.

Definition signature_ok (s : Signature.Signature) : Prop :=
  Signature.name s ≠ [] ∧ Forall (λ c, name_char c = true) (Signature.name s) ∧
  length (Signature.signature_bytes s) = Signature.SIGNATURE_LENGTH.

Section SignatureFacts.
Context `{!DataEncoding, !DataEncodingLaws, !UnicodeTables, !UnicodeLaws}.

Lemma name_char_facts c : name_char c = true → is_ascii c = true ∧ c ≠ Byte.x3a ∧ safe_char c = true.
Proof. intros Hc. destruct c; (by vm_compute) || (exfalso; by vm_compute in Hc). Qed.

Lemma name_chars_ok_ascii s :
  Forall (λ c, name_char c = true) s → Signature.name_chars_ok s = true.
Proof.
  intros Hs. unfold Signature.name_chars_ok. rewrite chars_ascii.
  - apply forallb_forall. intros z Hz. apply list_elem_of_In, list_elem_of_fmap in Hz as (c & -> & Hc).
    apply (proj1 (Forall_forall _ _) Hs) in Hc. simpl in Hc. rewrite is_alphanumeric_ascii; [done|].
    apply name_char_facts in Hc as [Hc _]. unfold is_ascii in Hc. apply Z.ltb_lt in Hc.
    pose proof (b2z_range c). lia.
  - eapply Forall_impl; [exact Hs|]. intros c Hc. by apply name_char_facts.
Qed.

Lemma base64_safe x : Forall (λ c, safe_char c = true) (BASE64_encode x).
Proof.
  destruct (base64_pads x) as [k ->]. apply Forall_app. split.
  - eapply Forall_impl; [apply base64_symbols|]. intros c Hc.
    assert (Forall (λ c, safe_char c = true) base64_alphabet) as Ha by (by repeat constructor).
    by apply (proj1 (Forall_forall _ _) Ha).
  - by apply Forall_replicate.
Qed.

Lemma signature_roundtrip s :
  signature_ok s → Signature.parse (Signature.to_string s) = Ok s.
Proof.
  intros (Hn & Hc & Hl). unfold Signature.parse, Signature.to_string.
  rewrite split_at_colon.
  - cbn [ok_or obind]. destruct (Signature.name s) as [|c n] eqn:E; [done|]. cbn [length Nat.eqb orb].
    rewrite name_chars_ok_ascii by done. cbn [negb].
    rewrite base64_encode_length, Hl, Nat.eqb_refl. cbn [negb].
    rewrite base64_roundtrip, Hl, Nat.eqb_refl. rewrite <- E. by destruct s.
  - intros Hin. apply (proj1 (Forall_forall _ _) Hc) in Hin. simpl in Hin.
    by apply name_char_facts in Hin as (_ & Hin & _).
Qed.

(** [Signature::parse] panics, in the branch marked unreachable, exactly on
    a good name followed by a string of the length of a padded signature that
    is base64 of another number of bytes. *)
Theorem signature_parse_panics (s : bytes) :
  Signature.parse s = Panic ↔
  ∃ name b64 d, s = name ++ B ":" ++ b64 ∧ (Byte.x3a ∉ name) ∧ name ≠ [] ∧
    Signature.name_chars_ok name = true ∧
    length b64 = BASE64_encode_len Signature.SIGNATURE_LENGTH ∧
    BASE64_decode b64 = inr d ∧ length d ≠ Signature.SIGNATURE_LENGTH.
Proof.
  unfold Signature.parse. split.
  - destruct (split_once Byte.x3a s) as [[name b64]|] eqn:Hs; [|done]. cbn [ok_or obind].
    apply split_once_Some in Hs as [-> Hn]. destruct name as [|c name]; [done|]. cbn [length Nat.eqb orb].
    destruct (Signature.name_chars_ok (c :: name)) eqn:Hc; [|done]. cbn [negb].
    destruct (Nat.eqb_spec (length b64) (BASE64_encode_len Signature.SIGNATURE_LENGTH)); [|done]. cbn [negb].
    destruct (BASE64_decode b64) as [|d] eqn:Hd; [done|].
    destruct (Nat.eqb_spec (length d) Signature.SIGNATURE_LENGTH); [done|].
    intros _. by exists (c :: name), b64, d.
  - intros (name & b64 & d & -> & Hn & Hne & Hc & Hl & Hd & Hlen).
    rewrite (split_at_colon name b64 Hn). cbn [ok_or obind]. destruct name as [|c name]; [done|].
    cbn [length Nat.eqb orb]. rewrite Hc, Hl, Nat.eqb_refl, Hd. cbn [negb].
    by rewrite (proj2 (Nat.eqb_neq _ _) Hlen).
Qed.

End SignatureFacts.

(** ** NARInfo files *)

(** What the types and the format require of the fields. *)
Record narinfo_ok (n : NarInfo) : Prop := {
  ok_store_path : StorePath.StorePath_wf (store_path n);
  ok_nar_hash : length (nar_hash n) = 32;
  ok_nar_size : (0 ≤ nar_size n < 2 ^ 64)%Z;
  ok_references : Forall StorePath.StorePath_wf (references n);
  ok_signatures : Forall signature_ok (signatures n);
  ok_ca c : ca n = Some c → CAHash_wf c;
  ok_system s : system n = Some s → value_ok s;
  ok_deriver p : deriver n = Some p → StorePath.StorePath_wf p;
  ok_url : value_ok (url n);
  ok_compression c : compression n = Some c → value_ok c ∧ c ≠ B "none";
  ok_file_hash h : file_hash n = Some h → length h = 32;
  ok_file_size s : file_size n = Some s → (0 ≤ s < 2 ^ 64)%Z;
}.

(** The reference names increase strictly. *)
Fixpoint increasing (ss : list bytes) : bool :=
  match ss with
  | [] => true
  | s :: ss =>
      match ss with
      | [] => true
      | t :: _ => bool_decide (lex_cmp s t = Lt)
      end && increasing ss
  end.

Definition reference_flags (n : NarInfo) : Z :=
  if increasing (StorePath.to_string <$> references n) then 0 else REFERENCES_OUT_OF_ORDER.

(** [n] as it is read back: its flags are recomputed. *)
Definition with_flags (fl : Z) (n : NarInfo) : NarInfo :=
  mkNarInfo fl (store_path n) (nar_hash n) (nar_size n) (references n) (signatures n) (ca n)
    (system n) (deriver n) (url n) (compression n) (file_hash n) (file_size n).

Section NarInfoFacts.
Context `{!DataEncoding, !DataEncodingLaws, !UnicodeTables, !UnicodeLaws}.

Definition tag_line (tag val : bytes) : bytes := tag ++ B ": " ++ val.

Definition opt_line {A} (tag : bytes) (o : option A) (val : A → bytes) : list bytes :=
  match o with Some a => [tag_line tag (val a)] | None => [] end.

(** The lines of the printed form. *)
Definition info_lines (n : NarInfo) : list bytes :=
  [tag_line (B "StorePath") (B "/nix/store/" ++ StorePath.to_string (store_path n))] ++
  [tag_line (B "URL") (url n)] ++
  opt_line (B "Compression") (compression n) (λ c, c) ++
  opt_line (B "FileHash") (file_hash n) (λ h, B "sha256:" ++ encode h) ++
  opt_line (B "FileSize") (file_size n) u64_to_string ++
  [tag_line (B "NarHash") (B "sha256:" ++ encode (nar_hash n))] ++
  [tag_line (B "NarSize") (u64_to_string (nar_size n))] ++
  [tag_line (B "References") (join_with Byte.x20 (StorePath.to_string <$> references n))] ++
  opt_line (B "Deriver") (deriver n) (λ p, StorePath.to_string p ++ B ".drv") ++
  opt_line (B "System") (system n) (λ s, s) ++
  ((λ s, tag_line (B "Sig") (Signature.to_string s)) <$> signatures n) ++
  opt_line (B "CA") (ca n) ca_to_nix_nixbase32_string.

Lemma write_opt_lines {A} tag (o : option A) val text :
  (∀ a, text a = tag_line tag (val a)) → write_opt o text = opt_line tag o val ≫= writeln.
Proof. intros Ht. destruct o; [|done]. cbn. by rewrite Ht, app_nil_r. Qed.

Lemma references_text (refs : list SPath) :
  write_references refs = B " " ++ join_with Byte.x20 (StorePath.to_string <$> refs).
Proof.
  destruct refs as [|p refs]; [done|]. unfold write_references. revert p.
  induction refs as [|q refs IH]; intros p; [cbn; by rewrite app_nil_r|].
  rewrite bind_cons, IH. done.
Qed.

Lemma to_string_lines n : to_string n = info_lines n ≫= writeln.
Proof.
  unfold to_string, info_lines. rewrite !bind_app.
  assert (∀ l, [l] ≫= writeln = writeln l) as Hone by (intros l; cbn; by rewrite app_nil_r).
  rewrite !Hone, references_text.
  rewrite (write_opt_lines (B "Compression") (compression n) (λ c, c)) by done.
  rewrite (write_opt_lines (B "FileHash") (file_hash n) (λ h, B "sha256:" ++ encode h)) by done.
  rewrite (write_opt_lines (B "FileSize") (file_size n) u64_to_string) by done.
  rewrite (write_opt_lines (B "Deriver") (deriver n) (λ p, StorePath.to_string p ++ B ".drv")) by done.
  rewrite (write_opt_lines (B "System") (system n) (λ s, s)) by done.
  rewrite (write_opt_lines (B "CA") (ca n) ca_to_nix_nixbase32_string) by done.
  assert ((((λ s, tag_line (B "Sig") (Signature.to_string s)) <$> signatures n) ≫= writeln) =
    (signatures n ≫= (λ s, writeln (B "Sig: " ++ Signature.to_string s)))) as ->; [|done].
  induction (signatures n) as [|s ss IH]; [done|]. cbn [fmap list_fmap]. by rewrite !bind_cons, IH.
Qed.

(** No line feed and no carriage return. *)
Definition one_line (s : bytes) : Prop := Forall (λ c, c ≠ Byte.x0a ∧ c ≠ Byte.x0d) s.

Lemma one_line_ok s : one_line s → line_ok s.
Proof.
  intros Hs. unfold one_line in Hs. rewrite Forall_forall in Hs. split.
  - intros Hin%Hs. naive_solver.
  - intros Hl%last_Some_elem_of%Hs. naive_solver.
Qed.

Lemma safe_one_line s : safe s → one_line s.
Proof.
  intros Hs. eapply Forall_impl; [exact Hs|]. intros c Hc. simpl in Hc.
  split; intros ->; by vm_compute in Hc.
Qed.

Lemma Forall_join (P : byte → Prop) c ps : P c → Forall (Forall P) ps → Forall P (join_with c ps).
Proof.
  intros Hc. induction 1 as [|p ps Hp Hps IH]; [constructor|]. destruct ps as [|q ps]; [done|].
  change (join_with c (p :: q :: ps)) with (p ++ c :: join_with c (q :: ps)).
  apply Forall_app. split; [done|]. by constructor.
Qed.

Lemma tag_line_one_line tag v : one_line tag → one_line v → line_ok (tag_line tag v).
Proof.
  intros Ht Hv. apply one_line_ok, Forall_app. split; [done|]. apply Forall_app. split; [|done].
  by repeat constructor.
Qed.

Lemma tag_line_value tag v : one_line tag → value_ok v → line_ok (tag_line tag v).
Proof.
  intros Ht Hv. unfold tag_line. rewrite app_assoc. apply line_ok_value; [|done].
  rewrite elem_of_app. intros [Hin|Hin].
  - by apply (proj1 (Forall_forall _ _) Ht) in Hin as [??].
  - revert Hin. apply (bool_decide_unpack _). by vm_compute.
Qed.

Lemma opt_line_ok {A} tag (o : option A) val :
  (∀ a, o = Some a → line_ok (tag_line tag (val a))) → Forall line_ok (opt_line tag o val).
Proof. intros Ho. destruct o; [|constructor]. constructor; [by apply Ho|constructor]. Qed.

Lemma one_line_literal (s : bytes) :
  bool_decide (Byte.x0a ∉ s) && bool_decide (Byte.x0d ∉ s) = true → one_line s.
Proof.
  intros [Hn%bool_decide_eq_true Hr%bool_decide_eq_true]%andb_true_iff.
  apply Forall_forall. intros c Hc. split; intros ->; done.
Qed.

Lemma one_line_app s t : one_line s → one_line t → one_line (s ++ t).
Proof. intros. by apply Forall_app. Qed.

Create HintDb narinfo.
Hint Resolve one_line_app safe_one_line safe_encode safe_u64 safe_store_path tag_line_one_line : narinfo.
Hint Extern 1 (one_line (B _)) => (apply one_line_literal; reflexivity) : narinfo.

Lemma ca_one_line c : one_line (ca_to_nix_nixbase32_string c).
Proof.
  unfold ca_to_nix_nixbase32_string. apply one_line_app; [|auto with narinfo].
  destruct c as [[]|[]|]; apply one_line_literal; reflexivity.
Qed.

Lemma info_lines_ok n : narinfo_ok n → Forall line_ok (info_lines n).
Proof.
  intros []. unfold info_lines. rewrite !Forall_app, !Forall_singleton. split_and!.
  - auto with narinfo.
  - apply tag_line_value; auto with narinfo.
  - apply opt_line_ok. intros c Hc. apply tag_line_value; [auto with narinfo|]. by apply ok_compression0.
  - apply opt_line_ok. auto with narinfo.
  - apply opt_line_ok. auto with narinfo.
  - auto with narinfo.
  - auto with narinfo.
  - apply tag_line_one_line; [auto with narinfo|]. apply Forall_join; [done|].
    apply Forall_fmap. eapply Forall_impl; [exact ok_references0|]. intros p Hp.
    by apply safe_one_line, safe_store_path.
  - apply opt_line_ok. intros p Hp%ok_deriver0. auto with narinfo.
  - apply opt_line_ok. intros s Hs. apply tag_line_value; auto with narinfo.
  - apply Forall_fmap. eapply Forall_impl; [exact ok_signatures0|]. intros s (_ & Hs & _).
    apply tag_line_one_line; [auto with narinfo|]. unfold Signature.to_string.
    apply one_line_app; [|apply one_line_app; [auto with narinfo|apply safe_one_line, base64_safe]].
    apply safe_one_line. eapply Forall_impl; [exact Hs|]. intros c Hc. by apply name_char_facts.
  - apply opt_line_ok. intros c _. apply tag_line_one_line; [auto with narinfo|]. apply ca_one_line.
Qed.

(** *** Reading the lines back *)

Lemma parse_line_tag f tag val :
  (Byte.x3a ∉ tag) → parse_line f (tag_line tag val) = parse_field f tag val.
Proof.
  intros Ht. unfold parse_line, tag_line.
  change (tag ++ B ": " ++ val) with (tag ++ B ":" ++ B " " ++ val).
  rewrite split_at_colon by done. cbn [ok_or obind]. by rewrite strip_prefix_app.
Qed.

Lemma parse_lines_app f xs ys :
  parse_lines f (xs ++ ys) = let? f := parse_lines f xs in parse_lines f ys.
Proof.
  revert f. induction xs as [|x xs IH]; intros f; [done|]. cbn [app parse_lines].
  destruct (parse_line f x); cbn [obind]; auto.
Qed.

Lemma parse_one f tag val f' :
  (Byte.x3a ∉ tag) → parse_field f tag val = Ok f' → parse_lines f [tag_line tag val] = Ok f'.
Proof. intros Ht Hf. cbn [parse_lines]. by rewrite parse_line_tag, Hf. Qed.

(** A line that is there or not, and the field it sets. *)
Lemma parse_opt {A} f tag (o : option A) val (set : option A → Fields → Fields) :
  (Byte.x3a ∉ tag) → set None f = f →
  (∀ a, o = Some a → parse_field f tag (val a) = Ok (set (Some a) f)) →
  parse_lines f (opt_line tag o val) = Ok (set o f).
Proof.
  intros Ht Hn Hf. destruct o as [a|]; [|cbn; by rewrite Hn]. apply parse_one; [done|auto].
Qed.

(** Selects the branch of a known tag. *)
Ltac field_branch := unfold parse_field; rewrite ?decide_False by done; rewrite decide_True by done.

Lemma parse_store_path f p :
  StorePath.StorePath_wf p → f_store_path f = None →
  parse_field f (B "StorePath") (B "/nix/store/" ++ StorePath.to_string p) =
    Ok (set_store_path (Some p) f).
Proof.
  intros Hp Hf. field_branch. rewrite strip_prefix_app. cbn [ok_or obind].
  rewrite StorePath.from_bytes_to_string by done. cbn [omap_err obind]. by rewrite Hf.
Qed.

Lemma non_empty_value tag v : value_ok v → non_empty tag v = Ok tt.
Proof. intros [Hv _]. by destruct v. Qed.

Lemma decode_prefixed h : length h = 32 → decode_fixed 32 (encode h) = Ok h.
Proof. apply decode_fixed_encode. Qed.

Lemma parse_nar_hash f h :
  length h = 32 → f_nar_hash f = None →
  parse_field f (B "NarHash") (B "sha256:" ++ encode h) = Ok (set_nar_hash (Some h) f).
Proof.
  intros Hh Hf. field_branch. rewrite strip_prefix_app. cbn [ok_or obind].
  rewrite length_encode, Hh, hex_len. change (encode_len 32 =? 2 * 32) with false. cbn [negb].
  rewrite decode_prefixed by done. cbn [omap_err obind]. by rewrite Hf.
Qed.

Lemma parse_references_eq i prev fl refs :
  Forall StorePath.StorePath_wf refs →
  parse_references i prev fl (StorePath.to_string <$> refs) =
    Ok (if increasing (prev :: (StorePath.to_string <$> refs)) then fl
        else Z.lor fl REFERENCES_OUT_OF_ORDER, refs).
Proof.
  intros Hr. revert i prev fl. induction Hr as [|p refs Hp Hr IH]; intros i prev fl; [done|].
  cbn [fmap list_fmap parse_references]. rewrite StorePath.from_bytes_to_string by done.
  cbn [omap_err obind]. rewrite IH. cbn [obind increasing].
  destruct (lex_cmp prev (StorePath.to_string p)); cbn [bool_decide andb];
    repeat (rewrite bool_decide_eq_true_2 by done || rewrite bool_decide_eq_false_2 by done);
    cbn [andb]; [|done|]; by case_match; rewrite <- ?Z.lor_assoc.
Qed.

Lemma parse_references_field f refs :
  Forall StorePath.StorePath_wf refs → f_references f = None →
  parse_field f (B "References") (join_with Byte.x20 (StorePath.to_string <$> refs)) =
    Ok (set_references (Some refs)
          (set_flags (if increasing (StorePath.to_string <$> refs) then f_flags f
                      else Z.lor (f_flags f) REFERENCES_OUT_OF_ORDER) f)).
Proof.
  intros Hr Hf. field_branch. destruct refs as [|p refs].
  { cbn. rewrite Hf. by destruct f. }
  assert (length (join_with Byte.x20 (StorePath.to_string <$> p :: refs)) ≠ 0) as Hl.
  { pose proof (StorePath.length_to_string p (Forall_inv Hr)) as Hp. cbn [fmap list_fmap join_with].
    destruct (StorePath.to_string <$> refs); rewrite ?length_app; lia. }
  rewrite (proj2 (Nat.eqb_neq _ _) Hl). cbn [negb].
  assert (split_on Byte.x20 (join_with Byte.x20 (StorePath.to_string <$> p :: refs))
            = StorePath.to_string <$> p :: refs) as ->.
  { apply split_on_join. change (Forall (λ q, Byte.x20 ∉ q) (StorePath.to_string <$> p :: refs)).
    apply Forall_fmap. eapply Forall_impl; [exact Hr|]. intros q Hq.
    apply safe_not; [by apply safe_store_path|done]. }
  rewrite parse_references_eq by done. cbn [obind increasing fmap list_fmap].
  assert (lex_cmp [] (StorePath.to_string p) = Lt) as ->.
  { pose proof (StorePath.length_to_string p (Forall_inv Hr)). by destruct (StorePath.to_string p). }
  rewrite bool_decide_eq_true_2 by done. cbn [andb set_flags f_references]. by rewrite Hf.
Qed.

Lemma parse_signatures f sigs :
  Forall signature_ok sigs →
  parse_lines f ((λ s, tag_line (B "Sig") (Signature.to_string s)) <$> sigs) =
    Ok (set_signatures (f_signatures f ++ sigs) f).
Proof.
  intros Hs. revert f. induction Hs as [|s sigs Hs Hsigs IH]; intros f; cbn [fmap list_fmap parse_lines].
  { rewrite app_nil_r. by destruct f. }
  rewrite parse_line_tag by (apply (bool_decide_unpack _); by vm_compute). field_branch.
  rewrite signature_roundtrip by done. cbn [omap_err obind]. rewrite IH.
  cbn [set_signatures f_signatures]. by rewrite <- app_assoc.
Qed.

Lemma tag_no_colon (tag : bytes) : bool_decide (Byte.x3a ∉ tag) = true → Byte.x3a ∉ tag.
Proof. apply bool_decide_eq_true_1. Qed.

(** The lines before and after one that sets a field. *)
Lemma parse_lines_step f f' xs ys :
  parse_lines f xs = Ok f' → parse_lines f (xs ++ ys) = parse_lines f' ys.
Proof. intros Hx. by rewrite parse_lines_app, Hx. Qed.

(** The fields after an assignment. *)
Ltac fields_norm :=
  cbv beta iota delta [no_fields set_flags set_store_path set_url set_compression set_file_hash set_file_size set_nar_hash set_nar_size set_references set_system set_deriver set_signatures set_ca
       f_flags f_store_path f_url f_compression f_file_hash f_file_size f_nar_hash f_nar_size f_references f_system f_deriver f_signatures f_ca].

Lemma parse_info_lines n :
  narinfo_ok n →
  parse_lines no_fields (info_lines n) =
    Ok (mkFields (reference_flags n) (Some (store_path n)) (Some (url n)) (compression n)
          (file_hash n) (file_size n) (Some (nar_hash n)) (Some (nar_size n)) (Some (references n))
          (system n) (deriver n) (signatures n) (ca n)).
Proof.
  intros []. unfold info_lines, no_fields.
  erewrite parse_lines_step by (apply parse_one; [by apply tag_no_colon|]; by apply parse_store_path); fields_norm.
  erewrite parse_lines_step by (apply parse_one; [by apply tag_no_colon|]; field_branch;
    rewrite non_empty_value by done; reflexivity); fields_norm.
  erewrite parse_lines_step by (apply (parse_opt _ _ _ _ set_compression); [by apply tag_no_colon|done|];
    intros c [Hc _]%ok_compression0; field_branch; by rewrite non_empty_value); fields_norm.
  erewrite parse_lines_step by (apply (parse_opt _ _ _ _ set_file_hash); [by apply tag_no_colon|done|];
    intros h Hh%ok_file_hash0; field_branch; rewrite strip_prefix_app; cbn [ok_or obind];
    by rewrite decode_prefixed); fields_norm.
  erewrite parse_lines_step by (apply (parse_opt _ _ _ _ set_file_size); [by apply tag_no_colon|done|];
    intros s Hs%ok_file_size0; field_branch; unfold parse_size; by rewrite u64_roundtrip); fields_norm.
  erewrite parse_lines_step by (apply parse_one; [by apply tag_no_colon|]; by apply parse_nar_hash); fields_norm.
  erewrite parse_lines_step by (apply parse_one; [by apply tag_no_colon|]; field_branch; unfold parse_size;
    rewrite u64_roundtrip by done; reflexivity); fields_norm.
  erewrite parse_lines_step by (apply parse_one; [by apply tag_no_colon|]; by apply parse_references_field); fields_norm.
  erewrite parse_lines_step by (apply (parse_opt _ _ _ _ set_deriver); [by apply tag_no_colon|done|];
    intros p Hp%ok_deriver0; field_branch; rewrite strip_suffix_app, StorePath.from_bytes_to_string by done;
    reflexivity); fields_norm.
  erewrite parse_lines_step by (apply (parse_opt _ _ _ _ set_system); [by apply tag_no_colon|done|];
    intros s Hs%ok_system0; field_branch; by rewrite non_empty_value); fields_norm.
  erewrite parse_lines_step by (by apply parse_signatures); fields_norm.
  unfold reference_flags.
  rewrite (parse_opt _ (B "CA") (ca n) ca_to_nix_nixbase32_string set_ca); fields_norm.
  - by destruct (increasing _).
  - by apply tag_no_colon.
  - reflexivity.
  - intros c Hc%ok_ca0. field_branch. rewrite ca_roundtrip by done. reflexivity.
Qed.

Lemma parse_to_string_fields n :
  narinfo_ok n →
  parse (to_string n) =
    finish (mkFields (reference_flags n) (Some (store_path n)) (Some (url n)) (compression n)
          (file_hash n) (file_size n) (Some (nar_hash n)) (Some (nar_size n)) (Some (references n))
          (system n) (deriver n) (signatures n) (ca n)).
Proof.
  intros Hn. unfold parse. rewrite to_string_lines.
  change (info_lines n ≫= writeln) with (info_lines n ≫= (λ l, l ++ [Byte.x0a])).
  rewrite lines_concat by (by apply info_lines_ok). by rewrite parse_info_lines.
Qed.

Lemma parse_to_string_compressed n c :
  narinfo_ok n → compression n = Some c →
  parse (to_string n) = Ok (with_flags (reference_flags n) n).
Proof.
  intros Hn Hc. rewrite parse_to_string_fields by done.
  destruct (ok_compression n Hn c Hc) as [_ Hne]. destruct n; cbn in *. subst. unfold finish.
  cbn. by rewrite decide_False.
Qed.

(** The printed form of a NARInfo that names its compression is parsed back
    to it; the flags it gets are those its references deserve, whatever the
    flags were. *)
Theorem narinfo_roundtrip (n : NarInfo) (c : bytes) :
  narinfo_ok n → compression n = Some c →
  parse (to_string n) = Ok (with_flags (reference_flags n) n).
Proof. apply parse_to_string_compressed. Qed.

(** An uncompressed NARInfo ([compression] is [None], what parsing
    [Compression: none] gives) is printed without the field, and its text is
    read back as one compressed with bzip2. *)
Theorem narinfo_uncompressed_misread (n : NarInfo) :
  narinfo_ok n → compression n = None →
  ∃ n', parse (to_string n) = Ok n' ∧ compression n' = Some (B "bzip2") ∧
    flags n' = Z.lor (reference_flags n) COMPRESSION_DEFAULT.
Proof.
  intros Hn Hc. rewrite parse_to_string_fields by done. rewrite Hc.
  eexists. split; [reflexivity|done].
Qed.

End NarInfoFacts.

(** ** Fingerprints *)

Lemma split_unique (c : byte) l r l' r' :
  (c ∉ l) → (c ∉ l') → l ++ c :: r = l' ++ c :: r' → l = l' ∧ r = r'.
Proof.
  intros Hl Hl' E. assert (Some (l, r) = Some (l', r')) as [= -> ->]; [|done].
  by rewrite <- (split_once_app c l r), <- (split_once_app c l' r'), E.
Qed.

Lemma absolute_path_free c p :
  StorePath.StorePath_wf p → StorePath.valid_name_char c = false → c ≠ Byte.x2f →
  c ∉ StorePath.to_absolute_path p.
Proof.
  intros Hp Hc Hs Hin. apply StorePath.to_absolute_path_chars in Hp.
  apply (proj1 (Forall_forall _ _) Hp) in Hin. simpl in Hin. destruct Hin; congruence.
Qed.

Lemma to_absolute_path_inj p q :
  StorePath.StorePath_wf p → StorePath.StorePath_wf q →
  StorePath.to_absolute_path p = StorePath.to_absolute_path q → p = q.
Proof.
  intros Hp Hq E. apply StorePath.from_absolute_to_absolute in Hp, Hq. congruence.
Qed.

Lemma join_absolute_split refs :
  Forall StorePath.StorePath_wf refs → refs ≠ [] →
  split_on Byte.x2c (join_with Byte.x2c (StorePath.to_absolute_path <$> refs)) =
    StorePath.to_absolute_path <$> refs.
Proof.
  intros Hr Hne. destruct refs as [|p refs]; [done|]. apply split_on_join.
  change (Forall (λ q, Byte.x2c ∉ q) (StorePath.to_absolute_path <$> p :: refs)).
  apply Forall_fmap. eapply Forall_impl; [exact Hr|]. intros q Hq. by apply absolute_path_free.
Qed.

Lemma join_absolute_inj refs refs' :
  Forall StorePath.StorePath_wf refs → Forall StorePath.StorePath_wf refs' →
  join_with Byte.x2c (StorePath.to_absolute_path <$> refs) =
  join_with Byte.x2c (StorePath.to_absolute_path <$> refs') → refs = refs'.
Proof.
  intros Hr Hr' E.
  assert (∀ p ps, join_with Byte.x2c (StorePath.to_absolute_path <$> p :: ps) ≠ []) as Hne.
  { intros p ps. cbn [fmap list_fmap join_with]. by destruct (StorePath.to_absolute_path <$> ps). }
  destruct refs as [|p refs], refs' as [|p' refs']; [done|exfalso; by eapply Hne|exfalso; by eapply Hne|].
  apply (f_equal (split_on Byte.x2c)) in E. rewrite !join_absolute_split in E by done.
  clear Hne. revert Hr' E. generalize (p' :: refs'). clear p' refs'.
  induction Hr as [|q qs Hq Hqs IH]; intros [|q' qs']; [done..|].
  intros [Hq' Hqs']%Forall_cons [E1 E2]%(inj2 cons). f_equal; [|by apply IH].
  by apply to_absolute_path_inj.
Qed.

(** The signed string determines what it stands for: two fingerprints are
    equal only if store path, NAR hash, NAR size and reference list (with its
    order) are. *)
Theorem fingerprint_injective (n n' : NarInfo) :
  narinfo_ok n → narinfo_ok n' → fingerprint n = fingerprint n' →
  store_path n = store_path n' ∧ nar_hash n = nar_hash n' ∧ nar_size n = nar_size n' ∧
  references n = references n'.
Proof.
  intros [] []. unfold fingerprint, fingerprint_of. intros E%app_inv_head.
  apply (split_unique Byte.x3b _ (B "sha256:" ++ _) _ (B "sha256:" ++ _)) in E as [E1 E%app_inv_head];
    [|by apply absolute_path_free..].
  apply (split_unique Byte.x3b) in E as [E2 E]; [|by apply safe_not; [apply safe_encode|]..].
  apply (split_unique Byte.x3b) in E as [E3 E]; [|by apply safe_not; [apply safe_u64|]..].
  split_and!; [by apply to_absolute_path_inj| | |by apply join_absolute_inj].
  - apply (f_equal (decode_fixed 32)) in E2. rewrite !decode_prefixed in E2 by done. congruence.
  - apply (f_equal u64_from_str) in E3. rewrite !u64_roundtrip in E3 by done. congruence.
Qed.

(** ** Witnesses *)

Import Crates.Models.

(** Tables that know ASCII only. *)
#[local] Instance ascii_tables : UnicodeTables := ascii_alphanumeric.
#[local] Instance ascii_laws : UnicodeLaws.
Proof. intros c _. reflexivity. Qed.

Lemma signature_parse_panics_witness :
  Signature.parse (B "cache.nixos.org-1:" ++ replicate 88 Byte.x41) = Panic.
Proof.
  apply (proj2 (signature_parse_panics (B "cache.nixos.org-1:" ++ replicate 88 Byte.x41))).
  exists (B "cache.nixos.org-1"), (replicate 88 Byte.x41), (replicate 66 Byte.x00).
  split_and!; try (by vm_compute). apply (bool_decide_unpack _). by vm_compute.
Defined.

Definition sample_info (comp : option bytes) : NarInfo :=
  mkNarInfo 0 StorePath.sample (replicate 32 Byte.xa7) 196040
    [StorePath.mkStorePath hex_test (B "zlib"); StorePath.sample]
    [Signature.mkSignature (B "cache.nixos.org-1") (replicate 64 Byte.x2a)]
    (Some (Nar (NHSha1 (replicate 20 Byte.xa7)))) None (Some StorePath.sample)
    (B "nar/0i.nar") comp (Some (replicate 32 Byte.x11)) (Some 50364%Z).

Lemma value_ok_dec v :
  bool_decide (v ≠ [] ∧ (Byte.x0a ∉ v) ∧ last v ≠ Some Byte.x0d) = true → value_ok v.
Proof. apply bool_decide_eq_true_1. Qed.

Lemma sample_info_ok comp :
  (∀ c, comp = Some c → value_ok c ∧ c ≠ B "none") → narinfo_ok (sample_info comp).
Proof.
  intros Hc. split; cbn; try (intros ? [= <-]); try done.
  - apply StorePath.sample_wf.
  - constructor; [|constructor; [apply StorePath.sample_wf|constructor]].
    split; [done|]. apply (bool_decide_unpack _). by vm_compute.
  - constructor; [|constructor]. split_and!; [done| |done].
    apply (bool_decide_unpack _). by vm_compute.
  - apply StorePath.sample_wf.
  - by apply value_ok_dec.
Qed.

Lemma xz_ok c : Some (B "xz") = Some c → value_ok c ∧ c ≠ B "none".
Proof. intros [= <-]. split; [by apply value_ok_dec|done]. Qed.

(** The references are out of order, which the parser records. *)
Lemma narinfo_roundtrip_witness :
  parse (to_string (sample_info (Some (B "xz")))) =
    Ok (with_flags REFERENCES_OUT_OF_ORDER (sample_info (Some (B "xz")))).
Proof.
  exact (narinfo_roundtrip (sample_info (Some (B "xz"))) (B "xz") (sample_info_ok _ xz_ok) eq_refl).
Defined.

Lemma narinfo_uncompressed_misread_witness :
  ∃ n', parse (to_string (sample_info None)) = Ok n' ∧ compression n' = Some (B "bzip2") ∧
    flags n' = 6%Z.
Proof.
  apply (narinfo_uncompressed_misread (sample_info None)); [|reflexivity].
  by apply sample_info_ok.
Defined.

Lemma fingerprint_injective_witness :
  fingerprint (sample_info None) = fingerprint (sample_info (Some (B "xz"))) ∧
  nar_size (sample_info None) = nar_size (sample_info (Some (B "xz"))).
Proof.
  split; [reflexivity|].
  apply (fingerprint_injective (sample_info None) (sample_info (Some (B "xz")))); [..|reflexivity].
  - by apply sample_info_ok.
  - apply sample_info_ok, xz_ok.
Defined.
