(* ===== verification/NarInfoKeys.v ===== *)
(** * [nix-compat/src/narinfo]: signing and verifying keys

    [signing_keys.rs] and [verifying_keys.rs]: the textual form of ed25519 keys,
    and signing followed by verification through a NARInfo file. The curve is a
    parameter: a class of its operations with the laws the code relies on. *)

From stdpp Require Import strings.
From S2P Require Import Prelude Crates StdText NixBase32 NixHash StorePath NarInfo.
#[local] Open Scope nat_scope.

Definition PUBLIC_KEY_LENGTH : nat := 32.
Definition SECRET_KEY_LENGTH : nat := 32.

(** [ed25519_dalek]: keys from bytes, signing, strict verification. *)
Class Ed25519 := {
  SecretKey : Type;
  PublicKey : Type;
  KeyError : Type;
  sk_from_bytes : bytes → SecretKey;
  sk_sign : SecretKey → bytes → bytes;
  vk_from_bytes : bytes → KeyError + PublicKey;
  vk_as_bytes : PublicKey → bytes;
  vk_verify_strict : PublicKey → bytes → bytes → bool;
}.

(** A signature has its fixed length; a key is made of the bytes it was read
    from, and reading its bytes gives the key. *)
Class Ed25519Laws `{Ed25519} : Prop := {
  sk_sign_length k m : length (sk_sign k m) = Signature.SIGNATURE_LENGTH;
  vk_as_bytes_length v : length (vk_as_bytes v) = PUBLIC_KEY_LENGTH;
  vk_from_as_bytes v : vk_from_bytes (vk_as_bytes v) = inr v;
}.

(** The two halves of a key pair belong together. *)
Definition key_pair `{Ed25519} (k : SecretKey) (v : PublicKey) : Prop :=
  ∀ m, vk_verify_strict v m (sk_sign k m) = true.

Section Keys.
Context `{!DataEncoding, !UnicodeTables, !Ed25519}.

(** [Signature::verify] *)
Definition signature_verify (s : Signature.Signature) (fp : bytes) (v : PublicKey) : bool :=
  vk_verify_strict v fp (Signature.signature_bytes s).

(** ** verifying_keys.rs *)

Record VerifyingKey := mkVerifyingKey {
  vk_name : bytes;
  verifying_key : PublicKey;
}.

Inductive VerifyingKeyError :=
| VkInvalidName (s : bytes)
| VkMissingSeparator
| InvalidVerifyingKeyLen (len : nat)
| InvalidVerifyingKey (e : KeyError)
| VkDecodeError (s : bytes).

Definition VerifyingKey_parse (input : bytes) : outcome VerifyingKeyError VerifyingKey :=
  let? (name, bytes64) := ok_or VkMissingSeparator (split_once Byte.x3a input) in
  if (length name =? 0) || negb (Signature.name_chars_ok name) then Err (VkInvalidName name)
  else if negb (length bytes64 =? BASE64_encode_len PUBLIC_KEY_LENGTH)
  then Err (InvalidVerifyingKeyLen (length bytes64))
  else match BASE64_decode bytes64 with
       | inr buf =>
           if length buf =? PUBLIC_KEY_LENGTH then
             let? v := omap_err InvalidVerifyingKey (from_sum (vk_from_bytes buf)) in
             Ok (mkVerifyingKey name v)
           else Panic
       | inl _ => Err (VkDecodeError input)
       end.

(** [VerifyingKey::verify] *)
Definition VerifyingKey_verify (k : VerifyingKey) (fp : bytes) (s : Signature.Signature) : bool :=
  if negb (bool_decide (vk_name k = Signature.name s)) then false
  else signature_verify s fp (verifying_key k).

(** [Display for VerifyingKey] *)
Definition VerifyingKey_to_string (k : VerifyingKey) : bytes :=
  vk_name k ++ B ":" ++ BASE64_encode (vk_as_bytes (verifying_key k)).

(** ** signing_keys.rs *)

Inductive SigningKeyError :=
| SkInvalidName (s : bytes)
| SkMissingSeparator
| InvalidSigningKeyLen (len : nat)
| SkDecodeError (s : bytes)
| SkInvalidVerifyingKey (e : KeyError).

Definition DECODED_BYTES_LEN : nat := SECRET_KEY_LENGTH + PUBLIC_KEY_LENGTH.

Definition parse_keypair (input : bytes) : outcome SigningKeyError (SigningKey * VerifyingKey) :=
  let? (name, bytes64) := ok_or SkMissingSeparator (split_once Byte.x3a input) in
  if (length name =? 0) || negb (Signature.name_chars_ok name) then Err (SkInvalidName name)
  else if negb (length bytes64 =? BASE64_encode_len DECODED_BYTES_LEN)
  then Err (InvalidSigningKeyLen (length bytes64))
  else match BASE64_decode bytes64 with
       | inr buf =>
           if length buf =? DECODED_BYTES_LEN then
             let signing_key := mkSigningKey name (sk_sign (sk_from_bytes (take SECRET_KEY_LENGTH buf))) in
             let? v := omap_err SkInvalidVerifyingKey (from_sum (vk_from_bytes (drop SECRET_KEY_LENGTH buf))) in
             Ok (signing_key, mkVerifyingKey name v)
           else Panic
       | inl _ => Err (SkDecodeError input)
       end.

(** ** What the keys guarantee *)

Context `{!DataEncodingLaws, !UnicodeLaws, !Ed25519Laws}.

(** A name that the textual forms of keys and signatures accept. *)
Definition key_name_ok (n : bytes) : Prop := n ≠ [] ∧ Forall (λ c, NarInfo.name_char c = true) n.

Lemma key_name_split n r :
  key_name_ok n →
  split_once Byte.x3a (n ++ B ":" ++ r) = Some (n, r) ∧
  (length n =? 0) || negb (Signature.name_chars_ok n) = false.
Proof.
  intros [Hn Hc]. split.
  - apply split_at_colon. intros Hin. apply (proj1 (Forall_forall _ _) Hc) in Hin. simpl in Hin.
    by apply name_char_facts in Hin as (_ & Hin & _).
  - destruct n as [|c n]; [done|]. by rewrite name_chars_ok_ascii.
Qed.

Lemma VerifyingKey_roundtrip k :
  key_name_ok (vk_name k) → VerifyingKey_parse (VerifyingKey_to_string k) = Ok k.
Proof.
  destruct k as [n v]. cbn [vk_name]. intros Hn. pose proof (vk_as_bytes_length v) as Hv.
  unfold VerifyingKey_parse, VerifyingKey_to_string. cbn [vk_name verifying_key].
  destruct (key_name_split n (BASE64_encode (vk_as_bytes v)) Hn) as [-> Hok]. cbn [ok_or obind].
  rewrite Hok, base64_encode_length, Hv, Nat.eqb_refl. cbn [negb].
  by rewrite base64_roundtrip, Hv, Nat.eqb_refl, vk_from_as_bytes.
Qed.

(** The form [nix-store --generate-binary-cache-key] writes. *)
Lemma parse_keypair_printed n sk v :
  key_name_ok n → length sk = SECRET_KEY_LENGTH →
  parse_keypair (n ++ B ":" ++ BASE64_encode (sk ++ vk_as_bytes v)) =
    Ok (mkSigningKey n (sk_sign (sk_from_bytes sk)), mkVerifyingKey n v).
Proof.
  intros Hn Hsk. pose proof (vk_as_bytes_length v) as Hv. unfold parse_keypair.
  destruct (key_name_split n (BASE64_encode (sk ++ vk_as_bytes v)) Hn) as [-> Hok]. cbn [ok_or obind].
  rewrite Hok, base64_encode_length, length_app, Hsk, Hv, Nat.eqb_refl. cbn [negb].
  rewrite base64_roundtrip, length_app, Hsk, Hv, Nat.eqb_refl.
  rewrite take_app_length', drop_app_length' by done. by rewrite vk_from_as_bytes.
Qed.

Lemma add_signature_ok n k :
  narinfo_ok n → key_name_ok (key_name k) → (∀ m, length (key_sign k m) = Signature.SIGNATURE_LENGTH) →
  narinfo_ok (add_signature k n).
Proof.
  intros [] [Hk Hc] Hl. split; cbn; try done. apply Forall_app. split; [done|].
  constructor; [|constructor]. split_and!; [done..|]. apply Hl.
Qed.

(** A NARInfo signed with a parsed key pair, printed and parsed by someone
    else, has as its last signature one that the verifying key, itself printed
    and parsed, accepts for the fingerprint of what was parsed, when the two
    halves of the pair belong together. *)
Theorem signed_narinfo_verifies (n : NarInfo) (c kn sk : bytes) (v : PublicKey) :
  narinfo_ok n → compression n = Some c → key_name_ok kn → length sk = SECRET_KEY_LENGTH →
  key_pair (sk_from_bytes sk) v →
  ∃ k vk n' s,
    parse_keypair (kn ++ B ":" ++ BASE64_encode (sk ++ vk_as_bytes v)) = Ok (k, vk) ∧
    VerifyingKey_parse (VerifyingKey_to_string vk) = Ok vk ∧
    parse (to_string (add_signature k n)) = Ok n' ∧
    last (signatures n') = Some s ∧ VerifyingKey_verify vk (fingerprint n') s = true.
Proof.
  intros Hn Hc Hkn Hsk Hp. eexists _, _, _, _. split; [by apply parse_keypair_printed|].
  split; [by apply VerifyingKey_roundtrip|]. split.
  - apply (parse_to_string_compressed _ c); [|done].
    apply add_signature_ok; [done..|]. intros m. apply sk_sign_length.
  - cbn [with_flags signatures add_signature]. rewrite last_snoc. split; [reflexivity|].
    unfold VerifyingKey_verify. rewrite bool_decide_eq_true_2 by done. apply Hp.
Qed.

End Keys.

(** ** Witnesses *)

Import Crates.Models.

#[local] Instance ascii_tables : UnicodeTables := ascii_alphanumeric.
#[local] Instance ascii_laws : UnicodeLaws.
Proof. intros c _. reflexivity. Qed.

(** Keys with a checksum for a signature: no security, but the laws. *)
#[local] Instance toy_ed25519 : Ed25519 := {|
  SecretKey := bytes;
  PublicKey := { v : bytes | bool_decide (length v = PUBLIC_KEY_LENGTH) };
  KeyError := unit;
  sk_from_bytes := λ b, b;
  sk_sign := λ k m, le_bytes 64 (le_val k + le_val m);
  vk_from_bytes := λ b, match decide (bool_decide (length b = PUBLIC_KEY_LENGTH)) with
                        | left H => inr (exist _ b H)
                        | right _ => inl tt
                        end;
  vk_as_bytes := λ v, proj1_sig v;
  vk_verify_strict := λ v m s, bool_decide (s = le_bytes 64 (le_val (proj1_sig v) + le_val m));
|}.

#[local] Instance toy_ed25519_laws : Ed25519Laws.
Proof.
  split.
  - intros k m. apply length_le_bytes.
  - intros [v Hv]. exact (bool_decide_unpack _ Hv).
  - intros [v Hv]. cbn. destruct (decide _) as [H|H]; [|done]. do 2 f_equal. apply proof_irrel.
Qed.

Definition sample_public : PublicKey :=
  exist (λ v : bytes, bool_decide (length v = PUBLIC_KEY_LENGTH)) (replicate 32 Byte.x42) I.

Lemma signed_narinfo_verifies_witness :
  ∃ k vk n' s,
    parse_keypair (B "cache.nixos.org-1:" ++ BASE64_encode (replicate 64 Byte.x42)) = Ok (k, vk) ∧
    VerifyingKey_parse (VerifyingKey_to_string vk) = Ok vk ∧
    parse (to_string (add_signature k (sample_info (Some (B "xz"))))) = Ok n' ∧
    last (signatures n') = Some s ∧ VerifyingKey_verify vk (fingerprint n') s = true.
Proof.
  apply (signed_narinfo_verifies (sample_info (Some (B "xz"))) (B "xz") (B "cache.nixos.org-1")
           (replicate 32 Byte.x42) sample_public).
  - apply sample_info_ok, xz_ok.
  - reflexivity.
  - split; [done|]. apply (bool_decide_unpack _). by vm_compute.
  - reflexivity.
  - intros m. by apply bool_decide_eq_true_2.
Defined.
