(* ===== verification/NarWire.v ===== *)
(** * [nix-compat/src/nar/wire] and [nar/reader/read.rs]: the NAR wire format

    The merged tokens, the perfect-hash tags the macro [make!] generates for
    them, and the reading primitives over an arbitrarily chunked reader. *)

From stdpp Require Import strings.
From S2P Require Import Prelude Io.
#[local] Open Scope nat_scope.

(** ** wire/mod.rs *)

Definition MAX_NAME_LEN : nat := 255.
Definition MAX_TARGET_LEN : nat := 4095.

(** A length of the literals: one byte and seven zeroes. *)
Definition l8 (n : byte) : bytes := n :: replicate 7 Byte.x00.
Definition zeroes (n : nat) : bytes := replicate n Byte.x00.

Lemma zeroes_app a b : zeroes a ++ zeroes b = zeroes (a + b).
Proof. unfold zeroes. by rewrite replicate_add. Qed.

Lemma length_zeroes n : length (zeroes n) = n.
Proof. apply length_replicate. Qed.

Definition TOK_NAR : bytes := Eval compute in
  l8 Byte.x0d ++ B "nix-archive-1" ++ zeroes 3 ++ l8 Byte.x01 ++ B "(" ++ zeroes 7
  ++ l8 Byte.x04 ++ B "type" ++ zeroes 4.
Definition TOK_SYM : bytes := Eval compute in
  l8 Byte.x07 ++ B "symlink" ++ zeroes 1 ++ l8 Byte.x06 ++ B "target" ++ zeroes 2.
Definition TOK_REG : bytes := Eval compute in
  l8 Byte.x07 ++ B "regular" ++ zeroes 1 ++ l8 Byte.x08 ++ B "contents".
Definition TOK_EXE : bytes := Eval compute in
  l8 Byte.x07 ++ B "regular" ++ zeroes 1 ++ l8 Byte.x0a ++ B "executable" ++ zeroes 6
  ++ zeroes 8 ++ l8 Byte.x08 ++ B "contents".
Definition TOK_DIR : bytes := Eval compute in
  l8 Byte.x09 ++ B "directory" ++ zeroes 7.
Definition TOK_ENT : bytes := Eval compute in
  l8 Byte.x05 ++ B "entry" ++ zeroes 3 ++ l8 Byte.x01 ++ B "(" ++ zeroes 7
  ++ l8 Byte.x04 ++ B "name" ++ zeroes 4.
Definition TOK_NOD : bytes := Eval compute in
  l8 Byte.x04 ++ B "node" ++ zeroes 4 ++ l8 Byte.x01 ++ B "(" ++ zeroes 7
  ++ l8 Byte.x04 ++ B "type" ++ zeroes 4.
Definition TOK_PAR : bytes := Eval compute in
  l8 Byte.x01 ++ B ")" ++ zeroes 7.

#[global] Arguments TOK_NAR : simpl never.
#[global] Arguments TOK_SYM : simpl never.
#[global] Arguments TOK_REG : simpl never.
#[global] Arguments TOK_EXE : simpl never.
#[global] Arguments TOK_DIR : simpl never.
#[global] Arguments TOK_ENT : simpl never.
#[global] Arguments TOK_NOD : simpl never.
#[global] Arguments TOK_PAR : simpl never.

(** ** wire/tag.rs *)

(** [max_of], [min_of] and [buf_of]; [usize::MAX] is 2^64 - 1. *)
Definition max_of (xs : list Z) : Z := foldl (λ y x, if (x >? y)%Z then x else y) 0%Z xs.
Definition min_of (xs : list Z) : Z :=
  foldl (λ y x, if (x <? y)%Z then x else y) (2 ^ 64 - 1)%Z xs.
Definition buf_of (xs : list Z) : Z := max_of [min_of xs; (max_of xs - min_of xs)%Z].

(** The trait [Tag] as [make!] implements it, from the discriminant offset and
    the table of variants and tokens. *)
Class Tag (T : Type) := {
  tag_OFF : nat;
  tag_table : list (T * bytes);
}.

Section Tag.
Context (T : Type) `{Tag T, EqDecision T}.

Definition tag_lens : list Z := (λ v, Z.of_nat (length v.2)) <$> tag_table (T := T).
Definition tag_MIN : nat := Z.to_nat (min_of tag_lens).
Definition tag_BUF : nat := Z.to_nat (buf_of tag_lens).

(** [from_u8]: the variant whose token has [x] at the offset. *)
Definition tag_from_u8 (x : byte) : option T :=
  (λ v, (snd v).1) <$> list_find (λ v, snd v !! tag_OFF (T := T) = Some x) tag_table.

(** [as_bytes]; every variant is in the table. *)
Definition tag_as_bytes (t : T) : bytes :=
  match list_find (λ v, fst v = t) tag_table with
  | Some (_, v) => snd v
  | None => []
  end.
End Tag.

Inductive NodeTag := Sym | Reg | Exe | Dir.
Inductive EntryTag := ENone | ESome.

#[global] Instance NodeTag_eq_dec : EqDecision NodeTag.
Proof. solve_decision. Defined.
#[global] Instance EntryTag_eq_dec : EqDecision EntryTag.
Proof. solve_decision. Defined.

#[global] Instance Tag_Node : Tag NodeTag := {|
  tag_OFF := 16;
  tag_table := [(Sym, TOK_SYM); (Reg, TOK_REG); (Exe, TOK_EXE); (Dir, TOK_DIR)];
|}.

#[global] Instance Tag_Entry : Tag EntryTag := {|
  tag_OFF := 0;
  tag_table := [(ENone, TOK_PAR); (ESome, TOK_ENT)];
|}.

(** ** reader/read.rs *)

(** [read::u64] *)
Definition read_u64 : io Z :=
  let! buf := read_exact 8 in
  sret (le_val buf).

(** [(len + 7) & !7] on 64-bit words, for a [len] below 2^63. *)
Definition round_up_8 (len : nat) : nat :=
  Z.to_nat (Z.land (Z.of_nat len + 7) (Z.lnot 7)).

(** The rest of [bytes_buf] and [bytes] after their assertions: the length
    within [max_len], the data, and padding of zeroes. *)
Definition read_padded (max_len : nat) : io bytes :=
  let! len := read_u64 in
  if (len >? Z.of_nat max_len)%Z then sthrow InvalidData else
  let len := Z.to_nat len in
  let! buf := read_exact (round_up_8 len) in
  if forallb (λ b, bool_decide (b = Byte.x00)) (drop len buf)
  then sret (take len buf) else sthrow InvalidData.

(** [read::bytes_buf] with a buffer of [N] bytes. *)
Definition bytes_buf (N max_len : nat) : io bytes :=
  let! _ := sassert (N mod 8 =? 0) in
  let! _ := sassert (max_len <=? N) in
  read_padded max_len.

(** [read::bytes]; [isize::MAX] is 2^63 - 1. *)
Definition read_bytes (max_len : nat) : io bytes :=
  let! _ := sassert (Z.of_nat max_len <=? 2 ^ 63 - 1)%Z in
  read_padded max_len.

(** [read::token]: the loop reads at most the rest of the token, so a chunk
    longer than it ends the loop, and a shorter one is used up. *)
Fixpoint token_from (r : reader) (tok : bytes) {struct r} : outcome ErrorKind unit * reader :=
  match tok with
  | [] => (Ok tt, r)
  | _ =>
    match r with
    | [] => (Err UnexpectedEof, [])
    | Chunk b bs :: r' =>
        let n := Nat.min (length tok) (length (b :: bs)) in
        if bool_decide (take n tok = take n (b :: bs)) then
          if n <? length (b :: bs) then (Ok tt, consume n r)
          else token_from r' (drop n tok)
        else (Err InvalidData, consume n r)
    | Fault Interrupted :: r' => token_from r' tok
    | Fault k :: r' => (Err k, r')
    end
  end.

Definition token (tok : bytes) : io unit := λ r, token_from r tok.

(** [read::tag]: the common minimum, the discriminant, the rest. The slices
    of [buf] panic if the buffer is too small. *)
Definition read_tag (T : Type) `{Tag T, EqDecision T} : io T :=
  let! _ := sassert (tag_MIN T <=? tag_BUF T) in
  let! buf := read_exact (tag_MIN T) in
  let! d := (match buf !! tag_OFF (T := T) with Some d => sret d | None => spanic end) in
  match tag_from_u8 T d with
  | None => sthrow InvalidData
  | Some tag =>
      let head := take (tag_MIN T) (tag_as_bytes T tag) in
      let tail := drop (tag_MIN T) (tag_as_bytes T tag) in
      if negb (bool_decide (buf = head)) then sthrow InvalidData else
      match tail with
      | [] => sret tag
      | _ =>
          let! _ := sassert (length tail <=? tag_BUF T) in
          let! rest := read_exact (length tail) in
          if bool_decide (rest = tail) then sret tag else sthrow InvalidData
      end
  end.

Example read_tag_node : read_tag NodeTag (of_bytes (TOK_EXE ++ B "x")) = (Ok Exe, of_bytes (B "x")).
Proof. by vm_compute. Qed.

(** ** What the primitives read *)

(** The encoding of a string: length, data, zero padding to 8 bytes. *)
Definition pad_len (n : nat) : nat := (8 - n mod 8) mod 8.

Definition str (x : bytes) : bytes :=
  le_bytes 8 (Z.of_nat (length x)) ++ x ++ zeroes (pad_len (length x)).

Lemma round_up_8_pad n : round_up_8 n = n + pad_len n.
Proof.
  unfold round_up_8, pad_len. rewrite <- Z.ldiff_land. change 7%Z with (Z.ones 3) at 2.
  rewrite Z.ldiff_ones_r, Z.shiftl_mul_pow2, Z.shiftr_div_pow2 by lia.
  change (2 ^ 3)%Z with 8%Z. liad.
Qed.

Lemma reads_token tok : reads (token tok) tok tt.
Proof.
  unfold token. intros r. revert tok. induction r as [|[b bs|k] r IH]; intros tok ys Hr Hc.
  - destruct tok; [|done]. by exists [].
  - apply no_fault_cons in Hr as [_ Hr].
    destruct tok as [|t tok]; [exists (Chunk b bs :: r); split_and!; [done|by constructor|done]|].
    cbn [token_from]. set (tk := t :: tok) in *. set (ck := b :: bs) in *.
    cbn [contents] in Hc. fold ck in Hc.
    assert (take (Nat.min (length tk) (length ck)) tk = take (Nat.min (length tk) (length ck)) ck) as Ht.
    { apply (f_equal (take (Nat.min (length tk) (length ck)))) in Hc.
      rewrite !take_app_le in Hc by lia. done. }
    rewrite bool_decide_eq_true_2 by done.
    destruct (Nat.ltb_spec (Nat.min (length tk) (length ck)) (length ck)) as [Hlt|Hge].
    + rewrite Nat.min_l by lia. exists (consume (length tk) (Chunk b bs :: r)).
      split_and!; [done|by apply consume_no_fault; constructor|].
      rewrite consume_contents by (unfold ck in *; simpl in *; lia).
      cbn [contents]. fold ck. by rewrite Hc, drop_app_length.
    + rewrite Nat.min_r by lia. apply IH; [done|].
      apply (f_equal (drop (length ck))) in Hc.
      rewrite drop_app_length, drop_app_le in Hc by lia. done.
  - by apply no_fault_cons in Hr as [? _].
Qed.

Lemma accepts_token tok : accepts (token tok) (λ _ xs, xs = tok).
Proof.
  unfold token. intros r. revert tok. induction r as [|[b bs|k] r IH]; intros tok [] r' Hr E.
  - destruct tok; simpl in E; simplify_eq. split; [done|]. by exists [].
  - destruct tok as [|t tok]; [simpl in E; simplify_eq; split; [done|]; by exists []|].
    apply no_fault_cons in Hr as [_ Hr].
    cbn [token_from] in E. set (tk := t :: tok) in *. set (ck := b :: bs) in *.
    case_bool_decide as Ht; [|done].
    destruct (Nat.ltb_spec (Nat.min (length tk) (length ck)) (length ck)) as [Hlt|Hge].
    + rewrite Nat.min_l in * by lia.
      assert (r' = consume (length tk) (Chunk b bs :: r)) as -> by congruence. clear E.
      split; [apply consume_no_fault; by constructor|]. exists tk. split; [|done].
      rewrite consume_contents by (unfold ck in *; simpl in *; lia).
      cbn [contents]. fold ck. rewrite drop_app_le by lia.
      rewrite (take_ge tk) in Ht by lia. rewrite Ht at 1. by rewrite app_assoc, take_drop.
    + assert (Nat.min (length tk) (length ck) = length ck) as Hm by lia.
      rewrite Hm in Ht, E. destruct (IH _ _ _ Hr E) as (Hr' & xs & Hc & ->).
      split; [done|]. exists tk. split; [|done]. cbn [contents]. fold ck. rewrite Hc.
      rewrite (take_ge ck (length ck)) in Ht by done. rewrite <- Ht at 1. by rewrite app_assoc, take_drop.
  - by apply no_fault_cons in Hr as [? _].
Qed.

Lemma panic_free_token tok : panic_free (token tok).
Proof.
  intros r. unfold token. revert tok. induction r as [|[b bs|[]] r IH]; intros [|t tok]; try done.
  - cbn [token_from]. by repeat case_match.
  - apply (IH (t :: tok)).
Qed.

Lemma reads_u64 z : (0 ≤ z < 2 ^ 64)%Z → reads read_u64 (le_bytes 8 z) z.
Proof.
  intros Hz. unfold read_u64. eapply reads_bind_last.
  - rewrite <- (length_le_bytes 8 z) at 1. apply reads_read_exact.
  - rewrite le_val_le_bytes. rewrite Z.mod_small by (change (256 ^ Z.of_nat 8)%Z with (2 ^ 64)%Z; lia).
    apply reads_ret.
Qed.

Lemma accepts_u64 : accepts read_u64 (λ z xs, (0 ≤ z < 2 ^ 64)%Z ∧ xs = le_bytes 8 z).
Proof.
  eapply accepts_bind; [apply accepts_read_exact|]. intros a xs [-> Hl].
  apply accepts_ret. rewrite app_nil_r. pose proof (le_val_range a) as Hr. rewrite Hl in Hr.
  split; [exact Hr|]. rewrite <- Hl. by rewrite le_bytes_le_val.
Qed.

Lemma zeroes_forallb k : forallb (λ b, bool_decide (b = Byte.x00)) (zeroes k) = true.
Proof. induction k; simpl; [done|]. done. Qed.

Lemma forallb_zeroes (l : bytes) :
  forallb (λ b, bool_decide (b = Byte.x00)) l = true → l = zeroes (length l).
Proof.
  induction l as [|b l IH]; simpl; [done|]. intros [->%bool_decide_eq_true ?]%andb_true_iff.
  unfold zeroes. cbn [replicate]. f_equal. by apply IH.
Qed.

Lemma reads_padded max_len x :
  length x ≤ max_len → (Z.of_nat (length x) < 2 ^ 64)%Z → reads (read_padded max_len) (str x) x.
Proof.
  intros Hl H64. unfold read_padded, str. eapply reads_bind; [apply reads_u64; lia|].
  rewrite Z.gtb_ltb, (proj2 (Z.ltb_ge _ _)) by lia.
  rewrite Nat2Z.id, round_up_8_pad. eapply reads_bind_last.
  - assert (length x + pad_len (length x) = length (x ++ zeroes (pad_len (length x)))) as ->.
    { unfold zeroes. by rewrite length_app, length_replicate. }
    apply reads_read_exact.
  - rewrite drop_app_length, zeroes_forallb, take_app_length. apply reads_ret.
Qed.

Lemma accepts_padded max_len :
  accepts (read_padded max_len)
    (λ x xs, xs = str x ∧ length x ≤ max_len ∧ (Z.of_nat (length x) < 2 ^ 64)%Z).
Proof.
  eapply accepts_bind; [apply accepts_u64|]. intros z xs [Hz ->].
  destruct (Z.gtb_spec z (Z.of_nat max_len)); [apply accepts_throw|].
  eapply accepts_bind; [apply accepts_read_exact|]. intros buf xs [-> Hl].
  rewrite round_up_8_pad in Hl. destruct (forallb _ _) eqn:Hf; [|apply accepts_throw].
  apply forallb_zeroes in Hf. rewrite length_drop, Hl in Hf.
  apply accepts_ret. rewrite app_nil_r. unfold str.
  rewrite length_take_le by lia. split_and!; [|lia|lia].
  rewrite Z2Nat.id by lia. f_equal.
  rewrite <- (take_drop (Z.to_nat z) buf) at 1. f_equal. rewrite Hf. f_equal. lia.
Qed.

(** The table of a tag type is a perfect hash, within the buffer. *)
Class TagOk (T : Type) `{Tag T, EqDecision T} : Prop := {
  tag_ok_off : tag_OFF (T := T) < tag_MIN T;
  tag_ok_buf : tag_MIN T ≤ tag_BUF T;
  tag_ok_variant t :
    tag_MIN T ≤ length (tag_as_bytes T t) ∧
    length (tag_as_bytes T t) - tag_MIN T ≤ tag_BUF T ∧
    (tag_as_bytes T t !! tag_OFF (T := T)) ≫= tag_from_u8 T = Some t;
}.

#[global] Instance TagOk_Node : TagOk NodeTag.
Proof. constructor; [..|intros []]; vm_compute; repeat split; lia. Qed.
#[global] Instance TagOk_Entry : TagOk EntryTag.
Proof. constructor; [..|intros []]; vm_compute; repeat split; lia. Qed.

Section ReadTag.
Context (T : Type) `{TagOk T}.

Lemma reads_tag t : reads (read_tag T) (tag_as_bytes T t) t.
Proof.
  destruct (tag_ok_variant t) as (Hmin & Hbuf & Hd). pose proof tag_ok_off as Hoff.
  set (w := tag_as_bytes T t) in *. unfold read_tag.
  rewrite <- (take_drop (tag_MIN T) w). eapply reads_bind_nil.
  { rewrite (proj2 (Nat.leb_le _ _)) by apply tag_ok_buf. apply reads_ret. }
  eapply reads_bind.
  { rewrite <- (length_take_le w (tag_MIN T)) at 1 by done. apply reads_read_exact. }
  rewrite lookup_take_lt by done. destruct (w !! tag_OFF) as [d|]; [|done]. simpl in Hd.
  eapply reads_bind_nil; [apply reads_ret|]. rewrite Hd. fold w.
  rewrite bool_decide_eq_true_2 by done. cbn [negb].
  destruct (drop (tag_MIN T) w) as [|c tl] eqn:Htl; [apply reads_ret|].
  eapply reads_bind_nil.
  { rewrite (proj2 (Nat.leb_le _ _)); [apply reads_ret|]. by rewrite <- Htl, length_drop. }
  eapply reads_bind_last; [apply reads_read_exact|].
  rewrite bool_decide_eq_true_2 by done. apply reads_ret.
Qed.

Lemma accepts_tag : accepts (read_tag T) (λ t xs, xs = tag_as_bytes T t).
Proof.
  unfold read_tag.
  eapply accepts_bind; [by apply (accepts_assert _ (λ _ xs, xs = []))|]. intros [] ? ->.
  eapply accepts_bind; [apply accepts_read_exact|]. intros buf xs [-> Hl].
  destruct (buf !! tag_OFF) as [d|]; [|by intros r a' r' _ E].
  eapply (accepts_bind _ _ (λ a xs, a = d ∧ xs = [])); [by apply accepts_ret|]. intros ? ? [-> ->].
  destruct (tag_from_u8 T d) as [t|]; [|apply accepts_throw].
  case_bool_decide as Hh; [|apply accepts_throw]. cbn [negb].
  destruct (drop (tag_MIN T) (tag_as_bytes T t)) as [|c tl] eqn:Htl.
  - apply accepts_ret. rewrite Hh. cbn [app].
    by rewrite <- (take_drop (tag_MIN T) (tag_as_bytes T t)) at 2; rewrite Htl, !app_nil_r.
  - eapply accepts_bind; [by apply (accepts_assert _ (λ _ xs, xs = []))|]. intros [] ? ->.
    eapply accepts_bind; [apply accepts_read_exact|]. intros rest xs [-> _].
    case_bool_decide as Hr; [|apply accepts_throw]. apply accepts_ret.
    rewrite Hh, Hr, <- Htl, !app_nil_r. cbn [app]. apply take_drop.
Qed.
End ReadTag.

Lemma panic_free_padded max_len : panic_free (read_padded max_len).
Proof.
  unfold read_padded, read_u64. repeat (apply panic_free_bind; [auto with nar|intros]);
    auto with nar. case_match; auto with nar. apply panic_free_bind; [auto with nar|].
  intros. case_match; auto with nar.
Qed.

Lemma panic_free_tag T `{TagOk T} : panic_free (read_tag T).
Proof.
  unfold read_tag. apply panic_free_assert; [apply Nat.leb_le, tag_ok_buf|].
  apply panic_free_read_exact_bind. intros buf Hl.
  destruct (lookup_lt_is_Some_2 buf (tag_OFF (T := T))) as [d ->]; [rewrite Hl; apply tag_ok_off|].
  apply panic_free_bind; [auto with nar|]. intros d'.
  destruct (tag_from_u8 T d') as [t|]; [|auto with nar]. case_match; [auto with nar|].
  destruct (tag_ok_variant t) as (_ & Hb & _).
  destruct (drop _ _) as [|c tl] eqn:Htl; [auto with nar|].
  apply panic_free_assert; [apply Nat.leb_le; by rewrite <- Htl, length_drop|].
  apply panic_free_bind; [auto with nar|]. intros. case_match; auto with nar.
Qed.

Lemma panic_free_bytes_buf : panic_free (bytes_buf (MAX_NAME_LEN + 1) MAX_NAME_LEN).
Proof. do 2 (apply panic_free_assert; [done|]). apply panic_free_padded. Qed.

Lemma panic_free_read_bytes : panic_free (read_bytes MAX_TARGET_LEN).
Proof. apply panic_free_assert; [done|]. apply panic_free_padded. Qed.

#[export] Hint Resolve panic_free_token panic_free_padded panic_free_tag
  panic_free_bytes_buf panic_free_read_bytes : nar.

Lemma tag_bytes_node :
  tag_as_bytes NodeTag Sym = TOK_SYM ∧ tag_as_bytes NodeTag Reg = TOK_REG ∧
  tag_as_bytes NodeTag Exe = TOK_EXE ∧ tag_as_bytes NodeTag Dir = TOK_DIR.
Proof. by vm_compute. Qed.

Lemma tag_bytes_entry :
  tag_as_bytes EntryTag ENone = TOK_PAR ∧ tag_as_bytes EntryTag ESome = TOK_ENT.
Proof. by vm_compute. Qed.

(** What closes the entry before, if there is one. *)
Definition sep (p : bytes) : bytes := if length p =? 0 then [] else TOK_PAR.
