(* ===== verification/NarWriter.v ===== *)
(** * [nix-compat/src/nar/writer/sync.rs]: the NAR writer

    The writer's calls over any [Write]; [debug_assertions] is the build
    profile, whose assertions panic. The state of [Directory] is [prev_name]. *)

From stdpp Require Import strings.
From S2P Require Import Prelude Io NarWire.
#[local] Open Scope nat_scope.

Section Writer.
Context {W : Type} `{!Write W} (debug_assertions : bool).

Definition debug_assert {S} (b : bool) : sm S unit :=
  if debug_assertions then sassert b else sret tt.

(** [Node::write] *)
Definition write (data : bytes) : sm W unit := λ w,
  match write_all data w with
  | Ok w => (Ok tt, w)
  | Err e => (Err e, w)
  | Panic => (Panic, w)
  end.

(** [open] *)
Definition open : sm W unit := write TOK_NAR.

(** [Node::pad]; [&[0; 8][n..]] is in range, as [n] is below 8. *)
Definition pad (n : Z) : sm W unit :=
  let n := Z.to_nat (Z.land n 7) in
  if n =? 0 then sret tt else write (drop n (zeroes 8)).

Definition contains (b : byte) (s : bytes) : bool := bool_decide (b ∈ s).

(** [usize::to_le_bytes] of a length *)
Definition len_bytes (s : bytes) : bytes := le_bytes 8 (Z.of_nat (length s)).

(** [Node::symlink] *)
Definition symlink (target : bytes) : sm W unit :=
  let! _ := debug_assert (length target <=? MAX_TARGET_LEN) in
  let! _ := debug_assert (negb (length target =? 0)) in
  let! _ := debug_assert (negb (contains Byte.x00 target)) in
  let! _ := write TOK_SYM in
  let! _ := write (len_bytes target) in
  let! _ := write target in
  let! _ := pad (Z.of_nat (length target)) in
  write TOK_PAR.

(** The [while] of [Node::file]: [n] is the rest of the chunk or all that is
    still needed, so a chunk that is not used up ends the loop. *)
Fixpoint file_loop (r : reader) (need : Z) (w : W) {struct r}
    : outcome ErrorKind unit * (W * reader) :=
  if (need =? 0)%Z then (Ok tt, (w, r)) else
  match r with
  | [] => (Err UnexpectedEof, (w, []))
  | Chunk b bs :: r' =>
      let n := Z.to_nat (Z.min need (Z.of_nat (length (b :: bs)))) in
      match write (take n (b :: bs)) w with
      | (Ok _, w) =>
          if n <? length (b :: bs) then (Ok tt, (w, consume n r))
          else file_loop r' (need - Z.of_nat n) w
      | (Err e, w) => (Err e, (w, r))
      | (Panic, w) => (Panic, (w, r))
      end
  | Fault k :: r' => (Err k, (w, r'))
  end.

(** A writer call beside a content reader. *)
Definition on_writer {A} (m : sm W A) : sm (W * reader) A := λ s,
  match m s.1 with (o, w) => (o, (w, s.2)) end.

(** [Node::file] *)
Definition file (executable : bool) (size : Z) : sm (W * reader) unit :=
  let! _ := on_writer (write (if executable then TOK_EXE else TOK_REG)) in
  let! _ := on_writer (write (le_bytes 8 size)) in
  let! _ := (λ s, file_loop s.2 size s.1) in
  let! more := (λ s, match fill_buf s.2 with (o, r) => (o, (s.1, r)) end) in
  match more with
  | _ :: _ => sthrow InvalidInput
  | [] =>
      let! _ := on_writer (pad size) in
      on_writer (write TOK_PAR)
  end.

(** [Node::file_manual_write]; its result is the size to close with. *)
Definition file_manual_write (executable : bool) (size : Z) : sm W Z :=
  let! _ := write (if executable then TOK_EXE else TOK_REG) in
  let! _ := write (le_bytes 8 size) in
  sret size.

(** [FileManualWrite::close] *)
Definition file_manual_close (size : Z) : sm W unit :=
  let! _ := pad size in
  write TOK_PAR.

(** [Directory]: its [prev_name]. *)
Abbreviation Directory := (option bytes).

(** [Node::directory] *)
Definition directory : sm W Directory :=
  let! _ := write TOK_DIR in
  sret None.

(** [Directory::entry]: the updated directory; the node is written next. *)
Definition entry (prev_name : Directory) (name : bytes) : sm W Directory :=
  let! _ := debug_assert (length name <=? MAX_NAME_LEN) in
  let! _ := debug_assert (negb (length name =? 0)) in
  let! _ := debug_assert (negb (contains Byte.x00 name)) in
  let! _ := debug_assert (negb (contains Byte.x2f name)) in
  let! _ := debug_assert (negb (bool_decide (name = B "."))) in
  let! _ := debug_assert (negb (bool_decide (name = B ".."))) in
  let! _ := match prev_name with
            | None => sret tt
            | Some prev =>
                let! _ := debug_assert (bool_decide (lex_cmp prev name = Lt)) in
                write TOK_PAR
            end in
  let! _ := write TOK_ENT in
  let! _ := write (len_bytes name) in
  let! _ := write name in
  let! _ := pad (Z.of_nat (length name)) in
  let! _ := write TOK_NOD in
  sret (Some name).

(** [Directory::close] *)
Definition close (prev_name : Directory) : sm W unit :=
  let! _ := match prev_name with Some _ => write TOK_PAR | None => sret tt end in
  write TOK_PAR.

End Writer.

(** ** The archived tree and its grammar *)

Inductive tree :=
| TSymlink (target : bytes)
| TFile (executable : bool) (data : bytes)
| TDir (entries : list (bytes * tree)).

(** Induction with the hypothesis for every entry. *)
Lemma tree_ind' (P : tree → Prop) :
  (∀ target, P (TSymlink target)) → (∀ x data, P (TFile x data)) →
  (∀ es, Forall (λ e, P e.2) es → P (TDir es)) → ∀ t, P t.
Proof.
  intros Hs Hf Hd. fix IH 1. intros [target|x data|es]; [apply Hs|apply Hf|].
  apply Hd. induction es as [|[n t] es IHes]; constructor; [apply IH|exact IHes].
Qed.

(** The grammar of the format's documentation, as its strings in order. *)
Fixpoint node_strings (t : tree) : list bytes :=
  match t with
  | TSymlink target => [B "("; B "type"; B "symlink"; B "target"; target; B ")"]
  | TFile x data =>
      [B "("; B "type"; B "regular"] ++ (if x then [B "executable"; []] else [])
        ++ [B "contents"; data; B ")"]
  | TDir es =>
      [B "("; B "type"; B "directory"] ++
      (fix go es := match es with
         | [] => []
         | (n, t) :: es =>
             [B "entry"; B "("; B "name"; n; B "node"] ++ node_strings t ++ [B ")"] ++ go es
         end) es ++ [B ")"]
  end.

(** The bytes of an archive, by the grammar. *)
Definition nar (t : tree) : bytes := (B "nix-archive-1" :: node_strings t) ≫= str.

(** What the documentation requires of an archive. *)
Definition entry_name_ok (n : bytes) : Prop :=
  1 ≤ length n ≤ MAX_NAME_LEN ∧ (Byte.x00 ∉ n) ∧ (Byte.x2f ∉ n) ∧ n ≠ B "." ∧ n ≠ B "..".

Fixpoint tree_ok (t : tree) : Prop :=
  match t with
  | TSymlink target => 1 ≤ length target ≤ MAX_TARGET_LEN ∧ Byte.x00 ∉ target
  | TFile _ data => (Z.of_nat (length data) < 2 ^ 64)%Z
  | TDir es =>
      (fix go prev es := match es with
         | [] => True
         | (n, t) :: es =>
             entry_name_ok n ∧ lex_cmp prev n = Lt ∧ tree_ok t ∧ go n es
         end) [] es
  end.

(** The same by entries: the entries after [prev]. *)
Fixpoint entries_ok (prev : bytes) (es : list (bytes * tree)) : Prop :=
  match es with
  | [] => True
  | (n, t) :: es => entry_name_ok n ∧ lex_cmp prev n = Lt ∧ tree_ok t ∧ entries_ok n es
  end.

Lemma tree_ok_dir es : tree_ok (TDir es) = entries_ok [] es.
Proof.
  unfold tree_ok. fold tree_ok. generalize (@nil byte).
  induction es as [|[n t] es IH]; intros prev; [done|]. simpl. by rewrite IH.
Qed.

(** The merged tokens: what follows the "(" "type" of a node. *)
Fixpoint node_bytes (t : tree) : bytes :=
  match t with
  | TSymlink target => TOK_SYM ++ str target ++ TOK_PAR
  | TFile x data => (if x then TOK_EXE else TOK_REG) ++ str data ++ TOK_PAR
  | TDir es =>
      TOK_DIR ++
      (fix go es := match es with
         | [] => []
         | (n, t) :: es => TOK_ENT ++ str n ++ TOK_NOD ++ node_bytes t ++ TOK_PAR ++ go es
         end) es ++ TOK_PAR
  end.

Definition entry_bytes (e : bytes * tree) : bytes :=
  TOK_ENT ++ str e.1 ++ TOK_NOD ++ node_bytes e.2 ++ TOK_PAR.

Lemma node_bytes_dir es : node_bytes (TDir es) = TOK_DIR ++ (es ≫= entry_bytes) ++ TOK_PAR.
Proof.
  unfold node_bytes. fold node_bytes. f_equal. f_equal.
  induction es as [|[n t] es IH]; [done|]. cbn [mbind list_bind]. rewrite <- IH.
  unfold entry_bytes. cbn [fst snd]. by rewrite <- !app_assoc.
Qed.

Definition entry_strings (e : bytes * tree) : list bytes :=
  [B "entry"; B "("; B "name"; e.1; B "node"] ++ node_strings e.2 ++ [B ")"].

Lemma node_strings_dir es :
  node_strings (TDir es) =
    [B "("; B "type"; B "directory"] ++ (es ≫= entry_strings) ++ [B ")"].
Proof.
  unfold node_strings. fold node_strings. f_equal. f_equal.
  induction es as [|[n t] es IH]; [done|]. cbn [mbind list_bind]. rewrite <- IH.
  unfold entry_strings. cbn [fst snd app]. by rewrite <- !app_assoc.
Qed.

(** The encoding of a sequence of strings. *)
Definition strs (l : list bytes) : bytes := l ≫= str.

Lemma strs_app l l' : strs (l ++ l') = strs l ++ strs l'.
Proof. apply bind_app. Qed.

(** The merged tokens are runs of grammar strings. *)
Lemma tokens_strings :
  TOK_NAR = strs [B "nix-archive-1"; B "("; B "type"] ∧
  TOK_SYM = strs [B "symlink"; B "target"] ∧
  TOK_REG = strs [B "regular"; B "contents"] ∧
  TOK_EXE = strs [B "regular"; B "executable"; []; B "contents"] ∧
  TOK_DIR = strs [B "directory"] ∧
  TOK_ENT = strs [B "entry"; B "("; B "name"] ∧
  TOK_NOD = strs [B "node"; B "("; B "type"] ∧
  TOK_PAR = strs [B ")"].
Proof. by vm_compute. Qed.

Lemma strs_node t :
  strs (node_strings t) = strs [B "("; B "type"] ++ node_bytes t.
Proof.
  destruct tokens_strings as (_ & Hsym & Hreg & Hexe & Hdir & Hent & Hnod & Hpar).
  induction t as [target|x data|es IH] using tree_ind'.
  - cbn [node_strings node_bytes]. rewrite Hsym, Hpar. unfold strs. cbn [mbind list_bind].
    by rewrite ?app_nil_r, <- ?app_assoc.
  - cbn [node_strings node_bytes]. rewrite Hpar. destruct x.
    + rewrite Hexe. unfold strs. cbn [mbind list_bind app]. by rewrite ?app_nil_r, <- ?app_assoc.
    + rewrite Hreg. unfold strs. cbn [mbind list_bind app]. by rewrite ?app_nil_r, <- ?app_assoc.
  - rewrite node_strings_dir, node_bytes_dir, !strs_app.
    change (strs [B "("; B "type"; B "directory"])
      with (strs [B "("; B "type"] ++ strs [B "directory"]).
    rewrite <- Hdir, <- Hpar, <- app_assoc. do 2 f_equal. f_equal.
    induction IH as [|[n t] es Ht IHes IH']; [done|]. cbn [mbind list_bind]. rewrite strs_app, IH'.
    f_equal. unfold entry_strings, entry_bytes. cbn [fst snd] in *.
    rewrite !strs_app, Ht, Hent, Hnod, Hpar. unfold strs. cbn [mbind list_bind].
    by rewrite ?app_nil_r, <- ?app_assoc.
Qed.

Lemma nar_node_bytes t : nar t = TOK_NAR ++ node_bytes t.
Proof.
  change (nar t) with (str (B "nix-archive-1") ++ strs (node_strings t)).
  rewrite strs_node. destruct tokens_strings as (-> & _). unfold strs. cbn [mbind list_bind].
  by rewrite ?app_nil_r, <- ?app_assoc.
Qed.

(** ** A caller that follows the documented protocol

    It fills a node from a tree: entries in order, then [close]. The contents
    of a file come from a reader chosen by [source]. *)

Section Caller.
Context (debug_assertions : bool) (source : bytes → reader).

Definition write_file (x : bool) (data : bytes) : sm bytes unit := λ w,
  match file x (Z.of_nat (length data)) (w, source data) with (o, (w, _)) => (o, w) end.

Fixpoint write_node (t : tree) : sm bytes unit :=
  match t with
  | TSymlink target => symlink debug_assertions target
  | TFile x data => write_file x data
  | TDir es =>
      let! d := directory in
      (fix go (d : option bytes) es := match es with
         | [] => close d
         | (n, t) :: es =>
             let! d := entry debug_assertions d n in
             let! _ := write_node t in
             go d es
         end) d es
  end.

Fixpoint write_entries (d : option bytes) (es : list (bytes * tree)) : sm bytes unit :=
  match es with
  | [] => close d
  | (n, t) :: es =>
      let! d := entry debug_assertions d n in
      let! _ := write_node t in
      write_entries d es
  end.

Definition write_nar (t : tree) : sm bytes unit :=
  let! _ := open in
  write_node t.

Lemma write_node_dir es w :
  write_node (TDir es) w = (let! d := directory in write_entries d es) w.
Proof.
  unfold write_node. fold write_node. unfold sbind.
  destruct (directory w) as [[d|e|] w']; [|done|done]. revert d w'.
  induction es as [|[n t] es IH]; intros d w'; [done|]. cbn [write_entries]. unfold sbind.
  destruct (entry _ _ _ _) as [[d'|e|] w'']; [|done|done].
  destruct (write_node t w'') as [[[]|e|] w3]; [|done|done]. apply IH.
Qed.
End Caller.

(** [m] appends exactly [out] and answers [a]. *)
Definition appends {A} (m : sm bytes A) (out : bytes) (a : A) : Prop :=
  ∀ w, m w = (Ok a, w ++ out).

Lemma appends_ret {A} (a : A) : appends (sret a) [] a.
Proof. intros w. by rewrite app_nil_r. Qed.

Lemma appends_bind {A B} (m : sm bytes A) (f : A → sm bytes B) xs ys a b :
  appends m xs a → appends (f a) ys b → appends (sbind m f) (xs ++ ys) b.
Proof. intros Hm Hf w. unfold sbind. rewrite Hm, Hf. by rewrite app_assoc. Qed.

Lemma appends_bind_nil {A B} (m : sm bytes A) (f : A → sm bytes B) ys a b :
  appends m [] a → appends (f a) ys b → appends (sbind m f) ys b.
Proof. apply appends_bind. Qed.

Lemma appends_write data : appends (write data) data tt.
Proof. done. Qed.

Lemma appends_debug_assert dbg (b : bool) : b = true → appends (debug_assert dbg b) [] tt.
Proof. intros ->. destruct dbg; apply appends_ret. Qed.

Lemma land7 n : Z.land (Z.of_nat n) 7 = Z.of_nat (n mod 8).
Proof. change 7%Z with (Z.ones 3). rewrite Z.land_ones by lia. change (2 ^ 3)%Z with 8%Z. lia. Qed.

Lemma appends_pad (n : nat) : appends (pad (Z.of_nat n)) (zeroes (pad_len n)) tt.
Proof.
  unfold pad. rewrite land7, Nat2Z.id. unfold pad_len.
  destruct (Nat.eqb_spec (n mod 8) 0) as [->|Hn]; [apply appends_ret|].
  pose proof (Nat.mod_upper_bound n 8 ltac:(lia)).
  rewrite (Nat.mod_small (8 - n mod 8)) by lia.
  unfold zeroes. rewrite drop_replicate. apply appends_write.
Qed.

Lemma appends_str (s : bytes) (k : unit → sm bytes unit) out :
  appends (k tt) out tt →
  appends (let! _ := write (len_bytes s) in
           let! _ := write s in
           let! _ := pad (Z.of_nat (length s)) in k tt) (str s ++ out) tt.
Proof.
  intros Hk. unfold str. rewrite <- !app_assoc.
  repeat (eapply appends_bind; [first [apply appends_write | apply appends_pad]|]). done.
Qed.

Lemma contains_false b s : b ∉ s → negb (contains b s) = true.
Proof. intros H. unfold contains. by rewrite bool_decide_eq_false_2. Qed.

(** Passes one [debug_assert!] whose condition the context gives. *)
Ltac appends_assert :=
  eapply appends_bind_nil;
    [apply appends_debug_assert;
     first [ by apply contains_false
           | apply Nat.leb_le; lia
           | by rewrite (proj2 (Nat.eqb_neq _ _)) by lia
           | by rewrite bool_decide_eq_false_2 ]|].

Lemma appends_symlink dbg target :
  tree_ok (TSymlink target) → appends (symlink dbg target) (node_bytes (TSymlink target)) tt.
Proof.
  intros [Hl Hz]. unfold symlink. cbn [node_bytes].
  repeat appends_assert.
  eapply appends_bind; [apply appends_write|].
  apply (appends_str target (λ _, write TOK_PAR)). apply appends_write.
Qed.

Lemma file_loop_spec r data ys w :
  no_fault r → contents r = data ++ ys →
  ∃ r', file_loop r (Z.of_nat (length data)) w = (Ok tt, (w ++ data, r')) ∧
        no_fault r' ∧ contents r' = ys.
Proof.
  revert data w. induction r as [|[b bs|k] r IH]; intros data w Hr Hc.
  - destruct data; [|done]. exists []. by rewrite app_nil_r.
  - cbn [file_loop]. destruct (Z.eqb_spec (Z.of_nat (length data)) 0) as [E|E].
    { destruct data; [|done]. exists (Chunk b bs :: r). by rewrite app_nil_r. }
    apply no_fault_cons in Hr as [_ Hr]. cbn [contents] in Hc. set (ck := b :: bs) in *.
    set (n := Z.to_nat (Z.min (Z.of_nat (length data)) (Z.of_nat (length ck)))).
    change (write (take n ck) w) with (@Ok ErrorKind unit tt, w ++ take n ck). cbn beta iota.
    destruct (Nat.ltb_spec n (length ck)) as [Hlt|Hge].
    + assert (n = length data) as Hn by lia. exists (consume n (Chunk b bs :: r)).
      assert (take n ck = data) as ->.
      { apply (f_equal (take n)) in Hc. rewrite take_app_le in Hc by lia. rewrite Hc, Hn.
        by rewrite take_app_length. }
      split_and!; [done|apply consume_no_fault; by constructor|].
      rewrite consume_contents by (unfold ck in *; simpl in *; lia). cbn [contents]. fold ck.
      by rewrite Hc, Hn, drop_app_length.
    + rewrite take_ge by lia. assert (length ck ≤ length data) by lia.
      assert (n = length ck) as -> by lia.
      assert (ck ++ drop (length ck) data = data) as Hd.
      { rewrite <- (take_drop (length ck) data) at 2. f_equal.
        apply (f_equal (take (length ck))) in Hc. rewrite take_app_length, take_app_le in Hc by lia. done. }
      destruct (IH (drop (length ck) data) (w ++ ck)) as (r' & E' & ? & ?); [done| |].
      { apply (app_inv_head ck). by rewrite app_assoc, Hd. }
      exists r'. rewrite length_drop in E'.
      replace (Z.of_nat (length data) - Z.of_nat (length ck))%Z
        with (Z.of_nat (length data - length ck)) by lia.
      by rewrite E', <- app_assoc, Hd.
  - by apply no_fault_cons in Hr as [? _].
Qed.

Lemma file_spec x data r w :
  no_fault r → contents r = data →
  ∃ r', file x (Z.of_nat (length data)) (w, r) = (Ok tt, (w ++ node_bytes (TFile x data), r')).
Proof.
  intros Hr Hc. unfold file, sbind, on_writer. cbn [fst snd].
  set (tok := if x then TOK_EXE else TOK_REG).
  change (write tok w) with (@Ok ErrorKind unit tt, w ++ tok). cbn beta iota. cbn [fst snd].
  set (lb := le_bytes 8 (Z.of_nat (length data))).
  change (write lb (w ++ tok)) with (@Ok ErrorKind unit tt, (w ++ tok) ++ lb). cbn beta iota. cbn [fst snd].
  destruct (file_loop_spec r data [] ((w ++ tok) ++ lb)) as (r' & -> & Hr' & Hc');
    [done|by rewrite app_nil_r|].
  cbn [fst snd]. rewrite (contents_nil r' Hr' Hc'). cbn [fill_buf].
  unfold on_writer. cbn [fst snd]. rewrite appends_pad. cbn beta iota. cbn [fst snd].
  exists []. unfold write, write_all, Vec_Write. do 2 f_equal. cbn [node_bytes]. unfold str.
  subst tok lb. by rewrite <- !app_assoc.
Qed.

Lemma appends_entry dbg d n :
  entry_name_ok n → (∀ p, d = Some p → lex_cmp p n = Lt) →
  appends (entry dbg d n)
    ((match d with Some _ => TOK_PAR | None => [] end) ++ TOK_ENT ++ str n ++ TOK_NOD) (Some n).
Proof.
  intros (Hl & H0 & Hs & Hd & Hdd) Hp. unfold entry.
  repeat appends_assert. eapply appends_bind.
  { destruct d as [p|]; [|apply appends_ret]. eapply appends_bind_nil; [|apply appends_write].
    apply appends_debug_assert. by apply bool_decide_eq_true_2, Hp. }
  eapply appends_bind; [apply appends_write|]. unfold str. rewrite <- !app_assoc.
  repeat (eapply appends_bind; [first [apply appends_write | apply appends_pad]|]).
  rewrite <- (app_nil_r TOK_NOD). eapply appends_bind; [apply appends_write|]. apply appends_ret.
Qed.

Lemma lex_cmp_nil n : 1 ≤ length n → lex_cmp [] n = Lt.
Proof. by destruct n; simpl; [lia|]. Qed.

Lemma appends_close d : appends (close d) (match d with Some _ => TOK_PAR | None => [] end ++ TOK_PAR) tt.
Proof. unfold close. destruct d; (eapply appends_bind; [first [apply appends_write|apply appends_ret]|apply appends_write]). Qed.

(** The bytes of the entries after [d]. *)
Definition rest_bytes (d : option bytes) (es : list (bytes * tree)) : bytes :=
  match d with
  | Some _ => TOK_PAR ++ (es ≫= entry_bytes)
  | None => es ≫= entry_bytes
  end ++ TOK_PAR.

Lemma rest_bytes_nil d : rest_bytes d [] = match d with Some _ => TOK_PAR | None => [] end ++ TOK_PAR.
Proof. by destruct d. Qed.

Lemma rest_bytes_cons d n t es :
  rest_bytes d ((n, t) :: es) =
    (match d with Some _ => TOK_PAR | None => [] end ++ TOK_ENT ++ str n ++ TOK_NOD) ++ node_bytes t ++ rest_bytes (Some n) es.
Proof.
  unfold rest_bytes. change (((n, t) :: es) ≫= entry_bytes) with (entry_bytes (n, t) ++ (es ≫= entry_bytes)).
  generalize (es ≫= entry_bytes). intros bs. unfold entry_bytes. cbn [fst snd]. destruct d; by rewrite <- ?app_assoc.
Qed.

Section CallerTheorem.
Context (dbg : bool) (source : bytes → reader).
Hypothesis source_ok : ∀ data, no_fault (source data) ∧ contents (source data) = data.

Lemma appends_entries es d :
  Forall (λ e, tree_ok e.2 → appends (write_node dbg source e.2) (node_bytes e.2) tt) es →
  entries_ok (default [] d) es → appends (write_entries dbg source d es) (rest_bytes d es) tt.
Proof.
  intros Hes. revert d. induction Hes as [|[n t] es Ht Hes IH]; intros d Hok.
  - rewrite rest_bytes_nil. apply appends_close.
  - cbn [write_entries]. destruct Hok as (Hn & Hlt & Hok & Hrest). cbn [snd] in Ht. rewrite rest_bytes_cons.
    eapply appends_bind; [apply appends_entry; [done|]; by intros p ->|].
    eapply appends_bind; [by apply Ht|]. by apply (IH (Some n)).
Qed.

Lemma appends_node t : tree_ok t → appends (write_node dbg source t) (node_bytes t) tt.
Proof.
  induction t as [target|x data|es IH] using tree_ind'; intros Hok.
  - by apply appends_symlink.
  - intros w. cbn [write_node]. unfold write_file. destruct (source_ok data) as [Hn Hc].
    destruct (file_spec x data (source data) w Hn Hc) as [r' ->]. done.
  - intros w. rewrite write_node_dir. revert w. rewrite node_bytes_dir.
    eapply appends_bind.
    + unfold directory. rewrite <- (app_nil_r TOK_DIR).
      eapply appends_bind; [apply appends_write|apply appends_ret].
    + apply (appends_entries es None); [done|]. by rewrite tree_ok_dir in Hok.
Qed.

Lemma appends_nar t : tree_ok t → appends (write_nar dbg source t) (nar t) tt.
Proof.
  intros Hok. rewrite nar_node_bytes.
  eapply appends_bind; [apply appends_write|by apply appends_node].
Qed.

(** C11: writing a valid tree through the writer's calls appends exactly the
    archive the grammar prescribes, in debug and in release builds, however
    the file contents are split into reads; no assertion fires. *)
Theorem write_nar_grammar (t : tree) (w : bytes) :
  tree_ok t → write_nar dbg source t w = (Ok tt, w ++ nar t).
Proof.
  intros Hok. by apply appends_nar.
Qed.
End CallerTheorem.

(** A small tree used by witnesses. *)
Definition sample_tree : tree :=
  TDir [(B "bin", TDir [(B "x", TFile true (B "abc")); (B "y", TFile false (B "12345678"))]);
        (B "link", TSymlink (B "bin/x"))].

Lemma sample_tree_ok : tree_ok sample_tree.
Proof.
  repeat (split || (apply (bool_decide_unpack _); by vm_compute) || (simpl; lia) || done).
Qed.

Lemma write_nar_grammar_witness :
  write_nar true of_bytes sample_tree [] = (Ok tt, [] ++ nar sample_tree).
Proof.
  apply (write_nar_grammar true of_bytes).
  - intros data. split; [apply of_bytes_no_fault|apply contents_of_bytes].
  - apply sample_tree_ok.
Defined.

Lemma file_loop_short r size (w : bytes) :
  no_fault r → (Z.of_nat (length (contents r)) < size)%Z →
  (file_loop r size w).1 = Err UnexpectedEof.
Proof.
  revert size w. induction r as [|[b bs|k] r IH]; intros size w Hr Hlt.
  - cbn [file_loop]. by rewrite (proj2 (Z.eqb_neq _ _)) by (simpl in Hlt; lia).
  - apply no_fault_cons in Hr as [_ Hr]. cbn [contents] in Hlt. rewrite length_app in Hlt.
    cbn [file_loop]. rewrite (proj2 (Z.eqb_neq _ _)) by lia.
    rewrite Z.min_r, Nat2Z.id by lia. unfold write, write_all, Vec_Write.
    rewrite Nat.ltb_irrefl. apply IH; [done|lia].
  - by apply no_fault_cons in Hr as [? _].
Qed.

(** The size check of [file]: a source shorter than the announced size
    ends in [UnexpectedEof], a longer one in [InvalidInput]; no archive is
    completed with a wrong size. *)
Theorem file_size_checked (x : bool) (size : Z) (r : reader) (w : bytes) :
  (0 ≤ size)%Z → no_fault r → Z.of_nat (length (contents r)) ≠ size →
  (file x size (w, r)).1 =
    Err (if (Z.of_nat (length (contents r)) <? size)%Z then UnexpectedEof else InvalidInput).
Proof.
  intros Hs Hr Hne. unfold file, sbind, on_writer. cbn [fst snd].
  destruct (Z.ltb_spec (Z.of_nat (length (contents r))) size) as [Hlt|Hge].
  - rewrite appends_write. cbn [fst snd]. rewrite appends_write. cbn [fst snd].
    match goal with |- context [file_loop r size ?w0] => pose proof (file_loop_short r size w0 Hr Hlt) as Hshort;
      destruct (file_loop r size w0) as [[]] end; simpl in *; congruence.
  - rewrite appends_write. cbn [fst snd]. rewrite appends_write. cbn [fst snd].
    match goal with |- context [file_loop r size ?w0] =>
      destruct (file_loop_spec r (take (Z.to_nat size) (contents r)) (drop (Z.to_nat size) (contents r)) w0)
        as (r' & E & Hr' & Hc'); [done|by rewrite take_drop|] end.
    rewrite length_take_le, Z2Nat.id in E by lia. rewrite E. cbn [fst snd].
    destruct r' as [|[b bs|k] r']; [|done|by apply no_fault_cons in Hr' as [? _]].
    apply (f_equal length) in Hc'. rewrite length_drop in Hc'. simpl in Hc'. lia.
Qed.

Lemma file_size_checked_witness :
  (file false 4 ([], of_bytes (B "abc"))).1 = Err UnexpectedEof.
Proof. apply (file_size_checked false 4 (of_bytes (B "abc")) []); [lia|by constructor|done]. Defined.
