(* ===== verification/NarReader.v ===== *)
(** * [nix-compat/src/nar/reader/mod.rs]: the NAR reader

    [ArchiveReader] with its debug status is the state [archive]: the
    underlying reader, the poison flag all objects share and the [ready] flag
    of each object on the stack, by depth (the [&mut] links to the parent flag
    become the index below). A node, file or directory reader knows its depth.
    In release builds [check_correct] does nothing. *)

From stdpp Require Import strings.
From S2P Require Import Prelude Io NarWire NarWriter.
#[local] Open Scope nat_scope.

Record archive := mkArchive {
  inner : reader;
  poisoned : bool;
  ready : list bool;
}.

Record FileReader := mkFileReader {
  fr_depth : nat;
  fr_len : Z;
  fr_pad : Z;
}.

Record DirReader := mkDirReader {
  dr_depth : nat;
  prev_name : bytes;
}.

Inductive Node :=
| Symlink (target : bytes)
| File (executable : bool) (fr : FileReader)
| Directory (dr : DirReader).

(** ** Status *)

(** [ArchiveReaderStatus::top] *)
Definition top (r : reader) : archive := mkArchive r false [true].

Definition poison (s : archive) : archive := mkArchive (inner s) true (ready s).

(** [ready_parent] of the object at depth [d] *)
Definition ready_parent (d : nat) : sm archive unit := λ s,
  let own := <[d := false]> (ready s) in
  (Ok tt, mkArchive (inner s) (poisoned s)
            (match d with S p => <[p := true]> own | O => own end)).

(** [ArchiveReader::child] of the object at depth [d]: the depth of the child.
    Objects above [d] no longer exist: [&mut self] ends their borrows. *)
Definition child (d : nat) : sm archive nat := λ s,
  (Ok (S d), mkArchive (inner s) (poisoned s)
    (<[d := false]> (take (S d) (ready s)) ++ [true])).

(** A call on the underlying reader. *)
Definition lift {A} (m : io A) : sm archive A := λ s,
  match m (inner s) with (o, r) => (o, mkArchive r (poisoned s) (ready s)) end.

(** [try_or_poison!] *)
Definition try_or_poison {A} (m : sm archive A) : sm archive A := λ s,
  match m s with
  | (Err e, s) => (Err e, poison s)
  | r => r
  end.

Definition poison_throw {A} (e : ErrorKind) : sm archive A := λ s, (Err e, poison s).

Section Reader.
Context (debug_assertions : bool).

(** [ArchiveReader::check_correct] *)
Definition check_correct (d : nat) : sm archive unit := λ s,
  if debug_assertions && (poisoned s || negb (default false (ready s !! d)))
  then (Panic, s) else (Ok tt, s).

(** ** Nodes and files *)

(** [FileReader::new] *)
Definition file_new (d : nat) (len : Z) : sm archive FileReader :=
  let! _ := (if (len =? 0)%Z then
               let! _ := lift (token TOK_PAR) in
               ready_parent d
             else sret tt) in
  sret (mkFileReader d len (len mod 256)).

(** [Node::new] *)
Definition node_new (d : nat) : sm archive Node :=
  let! tag := lift (read_tag NodeTag) in
  match tag with
  | Sym =>
      let! target := try_or_poison (lift (read_bytes MAX_TARGET_LEN)) in
      if (length target =? 0) || contains Byte.x00 target then poison_throw InvalidData else
      let! _ := try_or_poison (lift (token TOK_PAR)) in
      let! _ := ready_parent d in
      sret (Symlink target)
  | Reg | Exe =>
      let! len := try_or_poison (lift read_u64) in
      let! fr := file_new d len in
      sret (File (bool_decide (tag = Exe)) fr)
  | Dir => sret (Directory (mkDirReader d []))
  end.

(** [open] *)
Definition open_reader : sm archive Node :=
  let! _ := lift (token TOK_NAR) in
  node_new 0.

Definition fr_is_empty (fr : FileReader) : bool := (fr_len fr =? 0)%Z.

(** [FileReader::fill_buf] *)
Definition file_fill_buf (fr : FileReader) : sm archive bytes :=
  if fr_is_empty fr then sret [] else
  let! _ := check_correct (fr_depth fr) in
  let! buf := try_or_poison (lift fill_buf) in
  match buf with
  | [] => poison_throw UnexpectedEof
  | _ =>
      if (Z.of_nat (length buf) >? fr_len fr)%Z
      then sret (take (Z.to_nat (fr_len fr)) buf) else sret buf
  end.

(** [FileReader::finish]: padding and the closing token. *)
Definition file_finish (fr : FileReader) : sm archive unit :=
  let pad := Z.to_nat (Z.land (fr_pad fr) 7) in
  let! _ := (if pad =? 0 then sret tt else
               let! buf := try_or_poison (lift (read_exact (8 - pad))) in
               if bool_decide (zeroes pad ++ buf = zeroes 8) then sret tt
               else poison_throw InvalidData) in
  let! _ := try_or_poison (lift (token TOK_PAR)) in
  ready_parent (fr_depth fr).

(** [FileReader::consume]; a [checked_sub] below zero is the panic. *)
Definition file_consume (fr : FileReader) (n : nat) : sm archive FileReader :=
  if n =? 0 then sret fr else
  let! _ := check_correct (fr_depth fr) in
  if (Z.of_nat n >? fr_len fr)%Z then spanic else
  let fr := mkFileReader (fr_depth fr) (fr_len fr - Z.of_nat n) (fr_pad fr) in
  let! _ := (λ s, (Ok tt, mkArchive (consume n (inner s)) (poisoned s) (ready s))) in
  let! _ := (if fr_is_empty fr then file_finish fr else sret tt) in
  sret fr.

(** [Read for FileReader]: the bytes read into a buffer of [n]. *)
Definition file_read (fr : FileReader) (n : nat) : sm archive (FileReader * bytes) :=
  if (n =? 0) || fr_is_empty fr then sret (fr, []) else
  let! _ := check_correct (fr_depth fr) in
  let n := if (Z.of_nat n >? fr_len fr)%Z then Z.to_nat (fr_len fr) else n in
  let! data := try_or_poison (lift (read n)) in
  let fr := mkFileReader (fr_depth fr) (fr_len fr - Z.of_nat (length data)) (fr_pad fr) in
  match data with
  | [] => poison_throw UnexpectedEof
  | _ =>
      let! _ := (if fr_is_empty fr then file_finish fr else sret tt) in
      sret (fr, data)
  end.

(** [FileReader::copy] into a [Vec<u8>], whose [write] takes all it is given;
    [None] when the fuel ends before the loop does. *)
Fixpoint file_copy (fuel : nat) (fr : FileReader) (dst : bytes) (s : archive)
    : option (outcome ErrorKind bytes * archive) :=
  if fr_is_empty fr then Some (Ok dst, s) else
  match fuel with
  | O => None
  | S fuel =>
      match (let! buf := file_fill_buf fr in
             let! fr := file_consume fr (length buf) in
             sret (fr, dst ++ buf)) s with
      | (Ok (fr, dst), s) => file_copy fuel fr dst s
      | (Err e, s) => Some (Err e, s)
      | (Panic, s) => Some (Panic, s)
      end
  end.

(** ** Directories *)

Definition bad_entry_name (name : bytes) : bool :=
  (length name =? 0) || contains Byte.x00 name || contains Byte.x2f name
  || bool_decide (name = B ".") || bool_decide (name = B "..").

(** [DirReader::next]: the directory reader after the call and the entry. *)
Definition dir_next (dr : DirReader) : sm archive (DirReader * option (bytes * Node)) :=
  let! _ := check_correct (dr_depth dr) in
  let! _ := (if negb (length (prev_name dr) =? 0)
             then try_or_poison (lift (token TOK_PAR)) else sret tt) in
  let! tag := try_or_poison (lift (read_tag EntryTag)) in
  match tag with
  | ENone =>
      let! _ := ready_parent (dr_depth dr) in
      sret (dr, None)
  | ESome =>
      let! name := try_or_poison (lift (bytes_buf (MAX_NAME_LEN + 1) MAX_NAME_LEN)) in
      if bad_entry_name name then poison_throw InvalidData else
      if negb (bool_decide (lex_cmp (prev_name dr) name = Lt)) then poison_throw InvalidData else
      let! _ := try_or_poison (lift (token TOK_NOD)) in
      let! d := child (dr_depth dr) in
      let! node := node_new d in
      sret (mkDirReader (dr_depth dr) name, Some (name, node))
  end.

(** ** A consumer that follows the documented protocol

    Files are read to their end, directories until [None]. *)

Definition obind_fuel {A C} (m : option (outcome ErrorKind A * archive))
    (f : A → archive → option (outcome ErrorKind C * archive))
    : option (outcome ErrorKind C * archive) :=
  match m with
  | None => None
  | Some (Ok a, s) => f a s
  | Some (Err e, s) => Some (Err e, s)
  | Some (Panic, s) => Some (Panic, s)
  end.

Fixpoint read_node (fuel : nat) (n : Node) (s : archive)
    : option (outcome ErrorKind tree * archive) :=
  match fuel with
  | O => None
  | S fuel =>
      match n with
      | Symlink target => Some (Ok (TSymlink target), s)
      | File x fr =>
          obind_fuel (file_copy (length (contents (inner s)) + 1) fr [] s)
            (λ data s, Some (Ok (TFile x data), s))
      | Directory dr =>
          obind_fuel (read_dir fuel dr s) (λ es s, Some (Ok (TDir es), s))
      end
  end
with read_dir (fuel : nat) (dr : DirReader) (s : archive)
    : option (outcome ErrorKind (list (bytes * tree)) * archive) :=
  match fuel with
  | O => None
  | S fuel =>
      obind_fuel (Some (dir_next dr s)) (λ x s,
        match x with
        | (_, None) => Some (Ok [], s)
        | (dr, Some (name, node)) =>
            obind_fuel (read_node fuel node s) (λ t s,
              obind_fuel (read_dir fuel dr s) (λ es s,
                Some (Ok ((name, t) :: es), s)))
        end)
  end.

Definition read_nar (fuel : nat) (r : reader) : option (outcome ErrorKind tree * archive) :=
  obind_fuel (Some (open_reader (top r))) (λ n s, read_node fuel n s).

End Reader.

Example read_nar_sample :
  match read_nar true 10 (of_bytes (nar sample_tree)) with
  | Some (Ok t, s) => t = sample_tree ∧ inner s = []
  | _ => False
  end.
Proof. by vm_compute. Qed.

(** ** Reasoning about archive calls

    [status] is the debug bookkeeping. [areads]: from a status in [P] and the
    bytes [xs ++ ys], the call succeeds with [a], having used [xs], in a status
    in [Q]. [aaccepts]: from a status in [P] the call does not panic, and if it
    succeeds it used bytes described by [R] and ends in a status in [Q]. *)

Definition status : Type := bool * list bool.
Definition st (s : archive) : status := (poisoned s, ready s).

Definition areads {A} (m : sm archive A) (P : status → Prop) (xs : bytes) (a : A)
    (Q : status → Prop) : Prop :=
  ∀ s ys, no_fault (inner s) → contents (inner s) = xs ++ ys → P (st s) →
    ∃ s', m s = (Ok a, s') ∧ no_fault (inner s') ∧ contents (inner s') = ys ∧ Q (st s').

Definition post {A} (s : archive) (R : A → bytes → Prop) (Q : A → status → Prop)
    (res : outcome ErrorKind A * archive) : Prop :=
  match res with
  | (Ok a, s') =>
      no_fault (inner s') ∧
      ∃ xs, contents (inner s) = xs ++ contents (inner s') ∧ R a xs ∧ Q a (st s')
  | (Err _, _) => True
  | (Panic, _) => False
  end.

Definition aaccepts {A} (m : sm archive A) (P : status → Prop) (R : A → bytes → Prop)
    (Q : A → status → Prop) : Prop :=
  ∀ s, no_fault (inner s) → P (st s) → post s R Q (m s).

Lemma areads_bind {A C} (m : sm archive A) (f : A → sm archive C) P Q Q' xs ys a c :
  areads m P xs a Q → areads (f a) Q ys c Q' → areads (sbind m f) P (xs ++ ys) c Q'.
Proof.
  intros Hm Hf s zs Hn Hc HP. rewrite <- app_assoc in Hc.
  destruct (Hm s _ Hn Hc HP) as (s' & E & Hn' & Hc' & HQ).
  rewrite (sbind_step _ _ _ _ _ E). by apply Hf.
Qed.

Lemma areads_bind_nil {A C} (m : sm archive A) (f : A → sm archive C) P Q Q' ys a c :
  areads m P [] a Q → areads (f a) Q ys c Q' → areads (sbind m f) P ys c Q'.
Proof. apply areads_bind. Qed.

Lemma areads_bind_last {A C} (m : sm archive A) (f : A → sm archive C) P Q Q' xs a c :
  areads m P xs a Q → areads (f a) Q [] c Q' → areads (sbind m f) P xs c Q'.
Proof. rewrite <- (app_nil_r xs) at 2. apply areads_bind. Qed.

Lemma areads_ret {A} (a : A) P : areads (sret a) P [] a P.
Proof. intros s ys Hn Hc HP. by exists s. Qed.

Lemma aaccepts_bind {A C} (m : sm archive A) (f : A → sm archive C) P R Q (R' : C → bytes → Prop) Q' :
  aaccepts m P R Q →
  (∀ a xs, R a xs → aaccepts (f a) (Q a) (λ c ys, R' c (xs ++ ys)) Q') →
  aaccepts (sbind m f) P R' Q'.
Proof.
  intros Hm Hf s Hn HP. specialize (Hm s Hn HP). unfold sbind, post in *.
  destruct (m s) as [[a|e|] s']; [|done|done]. destruct Hm as (Hn' & xs & Hc & HR & HQ).
  specialize (Hf a xs HR s' Hn' HQ). unfold post in Hf.
  destruct (f a s') as [[c|e|] s'']; [|done|done]. destruct Hf as (Hn'' & ys & Hc' & HR' & HQ').
  split; [done|]. exists (xs ++ ys). by rewrite Hc, Hc', app_assoc.
Qed.

Lemma aaccepts_ret {A} (a : A) P (R : A → bytes → Prop) (Q : A → status → Prop) :
  R a [] → (∀ x, P x → Q a x) → aaccepts (sret a) P R Q.
Proof. intros HR HQ s Hn HP. split; [done|]. exists []. auto. Qed.

Lemma aaccepts_poison_throw {A} e P (R : A → bytes → Prop) Q : aaccepts (poison_throw e) P R Q.
Proof. by intros s Hn HP. Qed.

Lemma areads_lift {A} (m : io A) P xs a : reads m xs a → areads (lift m) P xs a P.
Proof.
  intros Hm s ys Hn Hc HP. destruct (Hm _ _ Hn Hc) as (r' & E & Hn' & Hc').
  unfold lift. rewrite E. by eexists.
Qed.

Lemma aaccepts_lift {A} (m : io A) P (R : A → bytes → Prop) :
  accepts m R → panic_free m → aaccepts (lift m) P R (λ _, P).
Proof.
  intros Hm Hp s Hn HP. specialize (Hm (inner s)). specialize (Hp (inner s)).
  unfold lift, post. destruct (m (inner s)) as [[a|e|] r'] eqn:E; [|done|done].
  destruct (Hm a r' Hn eq_refl) as (? & xs & ? & ?). eauto.
Qed.

Lemma areads_try {A} (m : sm archive A) P xs a Q : areads m P xs a Q → areads (try_or_poison m) P xs a Q.
Proof.
  intros Hm s ys Hn Hc HP. destruct (Hm s ys Hn Hc HP) as (s' & E & ?).
  exists s'. unfold try_or_poison. by rewrite E.
Qed.

Lemma aaccepts_try {A} (m : sm archive A) P R Q : aaccepts m P R Q → aaccepts (try_or_poison m) P R Q.
Proof.
  intros Hm s Hn HP. specialize (Hm s Hn HP). unfold try_or_poison.
  by destruct (m s) as [[]].
Qed.

(** An object at depth [d] may be used; an object at depth [d] is finished. *)
Definition live (d : nat) : status → Prop := λ x, x.1 = false ∧ x.2 !! d = Some true.
Definition finished (d : nat) : status → Prop := λ x,
  x.1 = false ∧ ∀ p, d = S p → x.2 !! p = Some true.

Lemma finished_live d x : finished (S d) x → live d x.
Proof. intros [? H]. split; [done|]. by apply H. Qed.

Lemma ready_parent_status d s : live d (st s) →
  ∃ s', ready_parent d s = (Ok tt, s') ∧ inner s' = inner s ∧ finished d (st s').
Proof.
  intros [Hp Hd]. unfold ready_parent. eexists. split; [done|]. split; [done|].
  split; [done|]. intros p ->. simpl. apply list_lookup_insert_eq.
  rewrite length_insert. apply lookup_lt_Some in Hd. simpl in Hd. lia.
Qed.

Lemma areads_ready_parent d : areads (ready_parent d) (live d) [] tt (finished d).
Proof.
  intros s ys Hn Hc HP. destruct (ready_parent_status d s HP) as (s' & E & Hi & HQ).
  exists s'. by rewrite E, Hi.
Qed.

Lemma aaccepts_ready_parent d :
  aaccepts (ready_parent d) (live d) (λ _ xs, xs = []) (λ _, finished d).
Proof.
  intros s Hn HP. destruct (ready_parent_status d s HP) as (s' & E & Hi & HQ).
  rewrite E. simpl. rewrite Hi. split; [done|]. by exists [].
Qed.

Lemma child_status d s : live d (st s) →
  ∃ s', child d s = (Ok (S d), s') ∧ inner s' = inner s ∧ live (S d) (st s').
Proof.
  intros [Hp Hd]. unfold child. eexists. split; [done|]. split; [done|]. split; [done|]. simpl in *.
  apply lookup_lt_Some in Hd.
  rewrite lookup_app_r; rewrite length_insert, length_take_le by lia; [|lia].
  by rewrite Nat.sub_diag.
Qed.

Lemma areads_child d : areads (child d) (live d) [] (S d) (live (S d)).
Proof.
  intros s ys Hn Hc HP. destruct (child_status d s HP) as (s' & E & Hi & HQ).
  exists s'. by rewrite E, Hi.
Qed.

Lemma aaccepts_child d :
  aaccepts (child d) (live d) (λ c xs, c = S d ∧ xs = []) (λ _, live (S d)).
Proof.
  intros s Hn HP. destruct (child_status d s HP) as (s' & E & Hi & HQ).
  rewrite E. simpl. rewrite Hi. split; [done|]. by exists [].
Qed.

Section ReaderProofs.
Context (dbg : bool).

Lemma check_correct_live d s : live d (st s) → check_correct dbg d s = (Ok tt, s).
Proof.
  intros [Hp Hd]. unfold check_correct. simpl in *. rewrite Hp, Hd. simpl. by rewrite andb_false_r.
Qed.

Lemma areads_check d : areads (check_correct dbg d) (live d) [] tt (live d).
Proof. intros s ys Hn Hc HP. exists s. by rewrite check_correct_live. Qed.

Lemma aaccepts_check d :
  aaccepts (check_correct dbg d) (live d) (λ _ xs, xs = []) (λ _, live d).
Proof. intros s Hn HP. rewrite check_correct_live by done. split; [done|]. by exists []. Qed.

(** *** Opening a node *)

(** The node object for a tree, and the bytes before and after it exists. *)
Definition open_node (d : nat) (t : tree) : Node :=
  match t with
  | TSymlink target => Symlink target
  | TFile x data => File x (mkFileReader d (Z.of_nat (length data)) (Z.of_nat (length data) mod 256))
  | TDir _ => Directory (mkDirReader d [])
  end.

Definition node_pre (t : tree) : bytes :=
  match t with
  | TSymlink target => TOK_SYM ++ str target ++ TOK_PAR
  | TFile x data =>
      (if x then TOK_EXE else TOK_REG) ++ le_bytes 8 (Z.of_nat (length data))
        ++ (if length data =? 0 then TOK_PAR else [])
  | TDir _ => TOK_DIR
  end.

Definition file_rest (len : nat) (data : bytes) : bytes :=
  data ++ zeroes (pad_len len) ++ TOK_PAR.

Definition node_rest (t : tree) : bytes :=
  match t with
  | TSymlink _ => []
  | TFile _ data => if length data =? 0 then [] else file_rest (length data) data
  | TDir es => (es ≫= entry_bytes) ++ TOK_PAR
  end.

Lemma node_pre_rest t : node_bytes t = node_pre t ++ node_rest t.
Proof.
  destruct t as [target|x data|es].
  - by rewrite app_nil_r.
  - cbn [node_bytes node_pre node_rest]. unfold str, file_rest. destruct data as [|b data].
    + simpl. by rewrite app_nil_r.
    + cbn [length Nat.eqb]. by rewrite app_nil_r, <- !app_assoc.
  - by rewrite node_bytes_dir.
Qed.

(** The status in which an opened node object is. *)
Definition node_status (d : nat) (n : Node) : status → Prop :=
  match n with
  | Symlink _ => finished d
  | File _ fr => if (fr_len fr =? 0)%Z then finished d else live d
  | Directory _ => live d
  end.

Definition node_wf (d : nat) (n : Node) : Prop :=
  match n with
  | Symlink target => tree_ok (TSymlink target)
  | File _ fr =>
      (0 ≤ fr_len fr < 2 ^ 64)%Z ∧ fr = mkFileReader d (fr_len fr) (fr_len fr mod 256)
  | Directory dr => dr = mkDirReader d []
  end.

Lemma areads_file_new d len :
  areads (file_new d len) (live d) (if (len =? 0)%Z then TOK_PAR else [])
    (mkFileReader d len (len mod 256)) (if (len =? 0)%Z then finished d else live d).
Proof.
  unfold file_new. eapply areads_bind_last; [|apply areads_ret].
  destruct (len =? 0)%Z; [|apply areads_ret].
  eapply areads_bind_last; [apply areads_lift, reads_token|apply areads_ready_parent].
Qed.

Lemma reads_read_bytes target :
  length target ≤ MAX_TARGET_LEN → reads (read_bytes MAX_TARGET_LEN) (str target) target.
Proof.
  intros Hl. eapply reads_bind_nil; [apply reads_ret|]. apply reads_padded; [done|].
  unfold MAX_TARGET_LEN in Hl. lia.
Qed.

Lemma accepts_read_bytes :
  accepts (read_bytes MAX_TARGET_LEN) (λ x xs, xs = str x ∧ length x ≤ MAX_TARGET_LEN).
Proof.
  eapply accepts_bind; [by apply (accepts_assert _ (λ _ xs, xs = []))|]. intros [] ? ->.
  intros r a r' Hr E. destruct (accepts_padded _ r a r' Hr E) as (? & xs & ? & ? & ? & ?). eauto.
Qed.

Lemma areads_node_new d t :
  tree_ok t → areads (node_new d) (live d) (node_pre t) (open_node d t) (node_status d (open_node d t)).
Proof.
  destruct tag_bytes_node as (HS & HR & HE & HD).
  intros Hok. unfold node_new. destruct t as [target|x data|es].
  - cbn [node_pre open_node node_status]. destruct Hok as [Hl Hz]. rewrite <- HS.
    eapply areads_bind; [apply areads_lift, (reads_tag NodeTag)|].
    eapply areads_bind; [apply areads_try, areads_lift, reads_read_bytes; lia|].
    rewrite (proj2 (Nat.eqb_neq _ _)) by lia. unfold contains.
    rewrite bool_decide_eq_false_2 by done. cbn [orb].
    eapply areads_bind_last; [apply areads_try, areads_lift, reads_token|].
    eapply areads_bind_nil; [apply areads_ready_parent|apply areads_ret].
  - cbn [node_pre open_node node_status fr_len].
    set (tag := if x then Exe else Reg).
    assert ((if x then TOK_EXE else TOK_REG) = tag_as_bytes NodeTag tag) as ->.
    { subst tag. destruct x; by rewrite ?HE, ?HR. }
    eapply areads_bind; [apply areads_lift, (reads_tag NodeTag)|].
    assert (∀ k, match tag with
      | Sym => k
      | Reg | Exe => let! len := try_or_poison (lift read_u64) in
                     let! fr := file_new d len in sret (File (bool_decide (tag = Exe)) fr)
      | Dir => sret (Directory (mkDirReader d []))
      end = (let! len := try_or_poison (lift read_u64) in
             let! fr := file_new d len in sret (File x fr))) as ->.
    { subst tag. by destruct x. }
    simpl in Hok. eapply areads_bind; [apply areads_try, areads_lift, reads_u64; lia|].
    eapply areads_bind_last; [|apply areads_ret].
    pose proof (areads_file_new d (Z.of_nat (length data))) as Hf. destruct data; exact Hf.
  - cbn [node_pre open_node node_status]. rewrite <- HD.
    eapply areads_bind_last; [apply areads_lift, (reads_tag NodeTag)|apply areads_ret].
Qed.

Lemma aaccepts_file_new d len :
  aaccepts (file_new d len) (live d)
    (λ fr xs, fr = mkFileReader d len (len mod 256) ∧ xs = if (len =? 0)%Z then TOK_PAR else [])
    (λ _, if (len =? 0)%Z then finished d else live d).
Proof.
  unfold file_new. destruct (len =? 0)%Z.
  - eapply aaccepts_bind.
    { eapply (aaccepts_bind _ _ _ _ _ (λ _ xs, xs = TOK_PAR) (λ _, finished d)).
      - apply aaccepts_lift; [apply accepts_token|auto with nar].
      - intros [] xs ->. intros s Hn HP. pose proof (aaccepts_ready_parent d s Hn HP) as H.
        unfold post in *. destruct (ready_parent d s) as [[]]; [|done|done].
        destruct H as (? & xs & ? & -> & ?). split; [done|]. exists []. by rewrite app_nil_r. }
    intros [] xs ->. apply aaccepts_ret; [by rewrite app_nil_r|done].
  - eapply aaccepts_bind; [apply (aaccepts_ret tt _ (λ _ xs, xs = []) (λ _, live d)); done|].
    intros [] xs ->. by apply aaccepts_ret.
Qed.

(** A primitive of the wire format, which poisons the archive when it fails. *)
Lemma aaccepts_io {A} (m : io A) P (R : A → bytes → Prop) :
  accepts m R → panic_free m → aaccepts (try_or_poison (lift m)) P R (λ _, P).
Proof. intros. by apply aaccepts_try, aaccepts_lift. Qed.

Definition node_accepts (d : nat) (n : Node) (xs : bytes) : Prop :=
  node_wf d n ∧ ∀ t, open_node d t = n → xs = node_pre t.

Lemma panic_free_u64 : panic_free read_u64.
Proof. unfold read_u64. auto with nar. Qed.
#[local] Hint Resolve panic_free_u64 : nar.

Lemma aaccepts_symlink d :
  aaccepts
    (let! target := try_or_poison (lift (read_bytes MAX_TARGET_LEN)) in
     if (length target =? 0) || contains Byte.x00 target then poison_throw InvalidData else
     let! _ := try_or_poison (lift (token TOK_PAR)) in
     let! _ := ready_parent d in
     sret (Symlink target)) (live d) (λ n xs, node_accepts d n (TOK_SYM ++ xs)) (node_status d).
Proof.
  eapply aaccepts_bind; [apply aaccepts_io; [apply accepts_read_bytes|auto with nar]|].
  intros target xs [-> Hl]. destruct (Nat.eqb_spec (length target) 0); [apply aaccepts_poison_throw|].
  unfold contains. case_bool_decide; [apply aaccepts_poison_throw|]. cbn [orb].
  eapply aaccepts_bind; [apply aaccepts_io; [apply accepts_token|auto with nar]|]. intros [] ? ->.
  eapply aaccepts_bind; [apply aaccepts_ready_parent|]. intros [] ? ->.
  apply aaccepts_ret; [|done]. split; [simpl; split; [lia|done]|].
  intros [] E; cbn [open_node] in E; simplify_eq. cbn [node_pre app]. by rewrite !app_nil_r.
Qed.

Lemma aaccepts_file d (x : bool) :
  aaccepts
    (let! len := try_or_poison (lift read_u64) in
     let! fr := file_new d len in
     sret (File x fr)) (live d)
    (λ n xs, node_accepts d n ((if x then TOK_EXE else TOK_REG) ++ xs)) (node_status d).
Proof.
  eapply aaccepts_bind; [apply aaccepts_io; [apply accepts_u64|auto with nar]|].
  intros len xs [Hlen ->]. eapply aaccepts_bind; [apply aaccepts_file_new|].
  intros fr xs [-> ->]. apply aaccepts_ret; [|done]. split; [done|].
  intros [] E; cbn [open_node] in E; simplify_eq. cbn [node_pre]. rewrite app_nil_r.
  do 2 f_equal. by destruct data.
Qed.

Lemma aaccepts_node_new d :
  aaccepts (node_new d) (live d) (node_accepts d) (node_status d).
Proof.
  destruct tag_bytes_node as (HS & HR & HE & HD). unfold node_new.
  eapply aaccepts_bind; [apply aaccepts_lift; [exact (accepts_tag NodeTag)|exact (panic_free_tag NodeTag)]|].
  intros [] xs ->.
  - rewrite HS. apply aaccepts_symlink.
  - rewrite HR. apply (aaccepts_file d false).
  - rewrite HE. apply (aaccepts_file d true).
  - rewrite HD. apply aaccepts_ret; [|done]. split; [done|]. rewrite app_nil_r.
    by intros [] E; simplify_eq/=.
Qed.

(** *** Reading a file *)

(** What follows the length word of a file of [L] bytes when [data] is left. *)
Definition data_rest (L : nat) (data : bytes) : bytes :=
  if length data =? 0 then [] else file_rest L data.

Definition file_status (fr : FileReader) : status → Prop :=
  if fr_is_empty fr then finished (fr_depth fr) else live (fr_depth fr).

Lemma pad_land (L : nat) : Z.to_nat (Z.land (Z.of_nat L mod 256) 7) = L mod 8.
Proof.
  change 7%Z with (Z.ones 3). rewrite Z.land_ones by lia. change (2 ^ 3)%Z with 8%Z. liad.
Qed.

Section Finish.
Context (L : nat) (fr : FileReader) (Hpad : fr_pad fr = (Z.of_nat L mod 256)%Z).
Local Abbreviation d := (fr_depth fr).

Lemma pad_len_mod : L mod 8 ≠ 0 → pad_len L = 8 - L mod 8.
Proof. intros. unfold pad_len. pose proof (Nat.mod_upper_bound L 8). by rewrite Nat.mod_small by lia. Qed.

Lemma areads_file_finish :
  areads (file_finish fr) (live d) (zeroes (pad_len L) ++ TOK_PAR) tt (finished d).
Proof.
  unfold file_finish. rewrite Hpad, pad_land. eapply areads_bind.
  - destruct (Nat.eqb_spec (L mod 8) 0) as [E|E].
    { unfold pad_len. rewrite E. apply areads_ret. }
    rewrite pad_len_mod by done. eapply areads_bind_last.
    + apply areads_try, areads_lift. rewrite <- (length_zeroes (8 - L mod 8)) at 1.
      apply reads_read_exact.
    + rewrite zeroes_app, bool_decide_eq_true_2; [apply areads_ret|]. f_equal.
      pose proof (Nat.mod_upper_bound L 8). lia.
  - eapply areads_bind_last; [apply areads_try, areads_lift, reads_token|apply areads_ready_parent].
Qed.

Lemma aaccepts_file_finish :
  aaccepts (file_finish fr) (live d) (λ _ xs, xs = zeroes (pad_len L) ++ TOK_PAR) (λ _, finished d).
Proof.
  unfold file_finish. rewrite Hpad, pad_land.
  eapply (aaccepts_bind _ _ _ (λ _ xs, xs = zeroes (pad_len L)) (λ _, live d)).
  - destruct (Nat.eqb_spec (L mod 8) 0) as [E|E].
    { apply aaccepts_ret; [|done]. unfold pad_len. by rewrite E. }
    eapply aaccepts_bind; [apply aaccepts_io; [apply accepts_read_exact|auto with nar]|].
    intros buf ? [-> Hl]. case_bool_decide as Hz; [|apply aaccepts_poison_throw].
    apply aaccepts_ret; [|done]. rewrite app_nil_r, pad_len_mod by done.
    apply (f_equal (drop (L mod 8))) in Hz.
    rewrite drop_app_ge, length_zeroes, Nat.sub_diag in Hz by (by rewrite length_zeroes).
    rewrite drop_0 in Hz. rewrite Hz. unfold zeroes. by rewrite drop_replicate.
  - intros [] xs ->. eapply aaccepts_bind; [apply aaccepts_io; [apply accepts_token|auto with nar]|].
    intros [] ? ->. intros s Hn HP. pose proof (aaccepts_ready_parent d s Hn HP) as H.
    unfold post in *. destruct (ready_parent d s) as [[]]; [|done|done].
    destruct H as (? & xs & ? & -> & ?). split; [done|]. exists []. by rewrite app_nil_r.
Qed.
End Finish.

(** One turn of [file_copy]: some bytes, at most all that is left. *)
Definition file_after (fr : FileReader) (k : nat) : FileReader :=
  mkFileReader (fr_depth fr) (fr_len fr - Z.of_nat k) (fr_pad fr).

Definition file_turn (fr : FileReader) (dst : bytes) : sm archive (FileReader * bytes) :=
  let! buf := file_fill_buf dbg fr in
  let! fr := file_consume dbg fr (length buf) in
  sret (fr, dst ++ buf).

(** The end of a turn: after the last byte, padding and closing token. *)
Definition file_end (fr : FileReader) (dst : bytes) : sm archive (FileReader * bytes) :=
  let! _ := (if fr_is_empty fr then file_finish fr else sret tt) in
  sret (fr, dst).

Lemma file_turn_spec fr dst s :
  no_fault (inner s) → live (fr_depth fr) (st s) → (0 < fr_len fr)%Z → contents (inner s) ≠ [] →
  ∃ k r', 1 ≤ k ≤ length (contents (inner s)) ∧ (Z.of_nat k ≤ fr_len fr)%Z ∧
    no_fault r' ∧ contents r' = drop k (contents (inner s)) ∧
    file_turn fr dst s =
      file_end (file_after fr k) (dst ++ take k (contents (inner s))) (mkArchive r' (poisoned s) (ready s)).
Proof.
  destruct s as [r p rd]. cbn [inner poisoned ready]. intros Hn Hl H0 Hc.
  destruct r as [|[b bs|e] r]; [done| |by apply no_fault_cons in Hn as [? _]].
  set (k := Nat.min (S (length bs)) (Z.to_nat (fr_len fr))).
  exists k, (consume k (Chunk b bs :: r)).
  assert (1 ≤ k ≤ S (length bs)) as Hk by lia.
  split_and!; [lia| |lia|by apply consume_no_fault|apply consume_contents; lia|].
  { cbn [contents]. rewrite length_app. simpl. lia. }
  assert (fr_is_empty fr = false) as He by (apply Z.eqb_neq; lia).
  unfold file_turn. rewrite (sbind_step _ _ _ (take k (b :: bs)) (mkArchive (Chunk b bs :: r) p rd)).
  - assert (length (take k (b :: bs)) = k) as -> by (rewrite length_take_le; simpl; lia).
    unfold file_consume. rewrite (proj2 (Nat.eqb_neq k 0)) by lia.
    unfold sbind at 2. unfold sbind at 1. rewrite check_correct_live by done.
    destruct (Z.gtb_spec (Z.of_nat k) (fr_len fr)); [lia|].
    unfold file_end, file_after. unfold sbind. cbn [inner poisoned ready].
    destruct (if fr_is_empty _ then _ else _) as [[]]; [|done|done].
    cbn [contents]. by rewrite take_app_le by (simpl; lia).
  - unfold file_fill_buf. rewrite He. unfold sbind at 1. rewrite check_correct_live by done.
    unfold sbind, try_or_poison, lift. cbn [inner fill_buf poisoned ready].
    destruct (Z.gtb_spec (Z.of_nat (length (b :: bs))) (fr_len fr)) as [Hg|Hg]; cbn [length] in Hg;
      unfold sret; do 3 f_equal; [lia|]. by rewrite take_ge by (simpl; lia).
Qed.

Lemma file_copy_turn fuel fr dst s :
  fr_is_empty fr = false →
  file_copy dbg (S fuel) fr dst s =
    match file_turn fr dst s with
    | (Ok (fr, dst), s) => file_copy dbg fuel fr dst s
    | (Err e, s) => Some (Err e, s)
    | (Panic, s) => Some (Panic, s)
    end.
Proof. intros H. cbn [file_copy]. rewrite H. done. Qed.

Lemma file_copy_empty fuel fr dst s :
  fr_is_empty fr = true → file_copy dbg fuel fr dst s = Some (Ok dst, s).
Proof. intros H. destruct fuel; cbn [file_copy]; by rewrite H. Qed.

Lemma file_end_reads L fr dst s data ys :
  no_fault (inner s) → live (fr_depth fr) (st s) → fr_pad fr = (Z.of_nat L mod 256)%Z →
  fr_len fr = Z.of_nat (length data) →
  contents (inner s) = data ++ zeroes (pad_len L) ++ TOK_PAR ++ ys →
  ∃ s', file_end fr dst s = (Ok (fr, dst), s') ∧ no_fault (inner s') ∧
        contents (inner s') = data_rest L data ++ ys ∧ file_status fr (st s').
Proof.
  intros Hn Hs Hpad Hlen Hc. unfold file_end, file_status, data_rest.
  destruct (fr_is_empty fr) eqn:He.
  - apply Z.eqb_eq in He. destruct data; [|simpl in *; lia]. cbn [app length Nat.eqb] in *.
    destruct (areads_file_finish L fr Hpad s ys) as (s1 & E & ? & ? & ?);
      [done|by rewrite <- app_assoc|done|].
    exists s1. by rewrite (sbind_step _ _ _ _ _ E).
  - apply Z.eqb_neq in He. rewrite (proj2 (Nat.eqb_neq _ _)) by lia.
    exists s. unfold file_rest. by rewrite <- !app_assoc.
Qed.

Lemma file_copy_reads L fuel fr dst s data ys :
  no_fault (inner s) → file_status fr (st s) → fr_len fr = Z.of_nat (length data) →
  fr_pad fr = (Z.of_nat L mod 256)%Z → contents (inner s) = data_rest L data ++ ys →
  length data ≤ fuel →
  ∃ s', file_copy dbg fuel fr dst s = Some (Ok (dst ++ data), s') ∧ no_fault (inner s') ∧
        contents (inner s') = ys ∧ finished (fr_depth fr) (st s').
Proof.
  revert fr dst s data. induction fuel as [|fuel IH]; intros fr dst s data Hn Hs Hlen Hpad Hc Hfuel.
  { destruct data; [|simpl in *; lia]. assert (fr_is_empty fr = true) as He by by apply Z.eqb_eq.
    unfold file_status in Hs. rewrite He in Hs. rewrite file_copy_empty, app_nil_r by done. eauto. }
  unfold file_status in Hs. destruct (fr_is_empty fr) eqn:He.
  { apply Z.eqb_eq in He. destruct data; [|simpl in *; lia].
    rewrite file_copy_empty, app_nil_r by (by apply Z.eqb_eq). eauto. }
  pose proof (proj1 (Z.eqb_neq _ _) He) as Hne. rewrite file_copy_turn by done.
  unfold data_rest, file_rest in Hc. rewrite (proj2 (Nat.eqb_neq _ _)) in Hc by lia.
  rewrite <- !app_assoc in Hc.
  destruct (file_turn_spec fr dst s) as (k & r' & Hk & Hkf & Hn' & Hc' & ->);
    [done|done|lia|by rewrite Hc; destruct data; simpl in *|].
  assert (k ≤ length data) as Hkd by lia. rewrite Hc, drop_app_le in Hc' by done.
  rewrite Hc, take_app_le by done.
  destruct (file_end_reads L (file_after fr k) (dst ++ take k data) (mkArchive r' (poisoned s) (ready s))
              (drop k data) ys) as (s1 & -> & Hn1 & Hc1 & Hs1); [done|done|done| |exact Hc'|].
  { simpl. rewrite length_drop. lia. }
  destruct (IH (file_after fr k) (dst ++ take k data) s1 (drop k data)) as (s' & E & ?);
    [done|done|simpl; rewrite length_drop; lia|done|done|rewrite length_drop; lia|].
  exists s'. rewrite E. rewrite <- app_assoc, take_drop. done.
Qed.

(** The same for calls with fuel, which must not run out. *)
Definition fpost {A} (s : archive) (R : A → bytes → Prop) (Q : A → status → Prop)
    (res : option (outcome ErrorKind A * archive)) : Prop :=
  match res with Some r => post s R Q r | None => False end.

(** A step that used [xs], then a rest that used [ys]. *)
Lemma fpost_after {A} s s1 xs (R R' : A → bytes → Prop) (Q : A → status → Prop) res :
  contents (inner s) = xs ++ contents (inner s1) →
  fpost s1 R' Q res → (∀ a ys, R' a ys → R a (xs ++ ys)) → fpost s R Q res.
Proof.
  intros Hc H HR. destruct res as [[[a|e|] s']|]; [|done..]. destruct H as (Hn & ys & Hc' & HR' & HQ).
  split; [done|]. exists (xs ++ ys). split_and!; [|by apply HR|done]. by rewrite Hc, Hc', app_assoc.
Qed.

Lemma fpost_bind {A C} s (m : option (outcome ErrorKind A * archive)) f R Q (R' : C → bytes → Prop) Q' :
  fpost s R Q m →
  (∀ a s' xs, no_fault (inner s') → contents (inner s) = xs ++ contents (inner s') →
     R a xs → Q a (st s') → fpost s' (λ c ys, R' c (xs ++ ys)) Q' (f a s')) →
  fpost s R' Q' (obind_fuel m f).
Proof.
  intros Hm Hf. destruct m as [[[a|e|] s']|]; [|done..]. destruct Hm as (Hn & xs & Hc & HR & HQ).
  eapply (fpost_after s s' xs); [done|by apply Hf|done].
Qed.

Lemma fpost_ret {A} s (a : A) (R : A → bytes → Prop) (Q : A → status → Prop) :
  no_fault (inner s) → R a [] → Q a (st s) → fpost s R Q (Some (Ok a, s)).
Proof. intros. split; [done|]. by exists []. Qed.

Lemma file_end_accepts L fr dst :
  fr_pad fr = (Z.of_nat L mod 256)%Z →
  aaccepts (file_end fr dst) (live (fr_depth fr))
    (λ a xs, a = (fr, dst) ∧ xs = if fr_is_empty fr then zeroes (pad_len L) ++ TOK_PAR else [])
    (λ _, file_status fr).
Proof.
  intros Hpad. unfold file_end, file_status. destruct (fr_is_empty fr).
  - eapply aaccepts_bind; [by apply (aaccepts_file_finish L)|]. intros [] xs ->.
    apply aaccepts_ret; [by rewrite app_nil_r|done].
  - eapply aaccepts_bind; [apply (aaccepts_ret tt _ (λ _ xs, xs = []) (λ _, live (fr_depth fr))); done|].
    intros [] xs ->. by apply aaccepts_ret.
Qed.

Lemma file_turn_eof fr dst s :
  live (fr_depth fr) (st s) → (0 < fr_len fr)%Z → inner s = [] →
  file_turn fr dst s = (Err UnexpectedEof, poison s).
Proof.
  intros Hl H0 Hi. unfold file_turn, file_fill_buf, fr_is_empty.
  rewrite (proj2 (Z.eqb_neq _ _)) by lia. unfold sbind. rewrite check_correct_live by done.
  unfold try_or_poison, lift. rewrite Hi. unfold poison_throw, poison. simpl. by rewrite Hi.
Qed.

Lemma file_copy_accepts L fuel fr dst s :
  no_fault (inner s) → file_status fr (st s) → (0 ≤ fr_len fr)%Z →
  fr_pad fr = (Z.of_nat L mod 256)%Z → length (contents (inner s)) < fuel →
  fpost s (λ out xs, ∃ data, out = dst ++ data ∧ Z.of_nat (length data) = fr_len fr ∧
                             xs = data_rest L data)
    (λ _, finished (fr_depth fr)) (file_copy dbg fuel fr dst s).
Proof.
  revert fr dst s. induction fuel as [|fuel IH]; intros fr dst s Hn Hs H0 Hpad Hfuel; [lia|].
  unfold file_status in Hs. destruct (fr_is_empty fr) eqn:He.
  { rewrite file_copy_empty by done. apply Z.eqb_eq in He. apply fpost_ret; [done| |done].
    exists []. by rewrite app_nil_r, He. }
  pose proof (proj1 (Z.eqb_neq _ _) He) as Hne. rewrite file_copy_turn by done.
  destruct (decide (contents (inner s) = [])) as [Hc|Hc].
  { apply contents_nil in Hc; [|done]. rewrite file_turn_eof by (done || lia). done. }
  destruct (file_turn_spec fr dst s) as (k & r' & Hk & Hkf & Hn' & Hc' & ->); [done|done|lia|done|].
  set (c := contents (inner s)) in *. set (s0 := mkArchive r' (poisoned s) (ready s)).
  pose proof (file_end_accepts L (file_after fr k) (dst ++ take k c) Hpad s0 Hn' Hs) as Hend.
  destruct (file_end _ _ _) as [[[fr' dst']|e|] s1]; [|done|done].
  destruct Hend as (Hn1 & xs1 & Hc1 & [[= -> ->] ->] & Hs1).
  assert (contents (inner s) = (take k c ++
    (if fr_is_empty (file_after fr k) then zeroes (pad_len L) ++ TOK_PAR else [])) ++ contents (inner s1))
    as Hcs.
  { rewrite <- app_assoc, <- Hc1. subst s0. simpl. by rewrite Hc', take_drop. }
  eapply (fpost_after s s1); [exact Hcs| |].
  1: apply (IH (file_after fr k) (dst ++ take k c) s1); [done|done|simpl; lia|done|].
  - pose proof (f_equal length Hcs) as Hl. rewrite !length_app, length_take_le in Hl by lia.
    subst c. lia.
  - cbn beta. intros out ys (data & -> & Hlen & ->). exists (take k c ++ data). simpl in Hlen.
    rewrite length_app, length_take_le by lia. split_and!; [by rewrite app_assoc|lia|].
    unfold data_rest. rewrite length_app, length_take_le by lia.
    rewrite (proj2 (Nat.eqb_neq (k + _) 0)) by lia. unfold file_rest, fr_is_empty. simpl.
    destruct (Z.eqb_spec (fr_len fr - Z.of_nat k) 0) as [Ez|Ez].
    + destruct data; [|simpl in *; lia]. simpl. by rewrite !app_nil_r.
    + rewrite (proj2 (Nat.eqb_neq (length data) 0)) by lia. by rewrite app_nil_r, <- app_assoc.
Qed.

(** *** Reading a directory *)

(** The closing token of the entry named [p], before the next one. *)

Lemma areads_sep p P :
  areads (if negb (length p =? 0) then try_or_poison (lift (token TOK_PAR)) else sret tt) P (sep p) tt P.
Proof.
  unfold sep. destruct (length p =? 0); simpl; [apply areads_ret|].
  apply areads_try, areads_lift, reads_token.
Qed.

Lemma aaccepts_sep p P :
  aaccepts (if negb (length p =? 0) then try_or_poison (lift (token TOK_PAR)) else sret tt) P
    (λ _ xs, xs = sep p) (λ _, P).
Proof.
  unfold sep. destruct (length p =? 0); simpl; [by apply aaccepts_ret|].
  apply aaccepts_io; [apply accepts_token|auto with nar].
Qed.

Lemma bad_entry_name_ok n :
  length n ≤ MAX_NAME_LEN → bad_entry_name n = false ↔ entry_name_ok n.
Proof.
  intros Hl. unfold bad_entry_name, entry_name_ok, contains.
  rewrite !orb_false_iff, Nat.eqb_neq, !bool_decide_eq_false. intuition lia.
Qed.

Lemma reads_name n :
  length n ≤ MAX_NAME_LEN → reads (bytes_buf (MAX_NAME_LEN + 1) MAX_NAME_LEN) (str n) n.
Proof.
  intros Hl. do 2 (eapply reads_bind_nil; [apply reads_ret|]).
  apply reads_padded; [done|]. unfold MAX_NAME_LEN in Hl. lia.
Qed.

Lemma accepts_name :
  accepts (bytes_buf (MAX_NAME_LEN + 1) MAX_NAME_LEN) (λ n xs, xs = str n ∧ length n ≤ MAX_NAME_LEN).
Proof.
  do 2 (eapply accepts_bind; [by apply (accepts_assert _ (λ _ xs, xs = []))|]; intros [] ? ->).
  intros r a r' Hr E. destruct (accepts_padded _ r a r' Hr E) as (? & xs & ? & ? & ? & ?). eauto.
Qed.

Lemma areads_dir_end d p :
  areads (dir_next dbg (mkDirReader d p)) (live d) (sep p ++ TOK_PAR) (mkDirReader d p, None) (finished d).
Proof.
  unfold dir_next. eapply areads_bind_nil; [apply areads_check|].
  eapply areads_bind; [apply areads_sep|]. rewrite <- (proj1 tag_bytes_entry).
  eapply areads_bind_last; [apply areads_try, areads_lift, (reads_tag EntryTag)|].
  eapply areads_bind_nil; [apply areads_ready_parent|apply areads_ret].
Qed.

Lemma areads_dir_entry d p n t :
  entry_name_ok n → lex_cmp p n = Lt → tree_ok t →
  areads (dir_next dbg (mkDirReader d p)) (live d)
    (sep p ++ TOK_ENT ++ str n ++ TOK_NOD ++ node_pre t)
    (mkDirReader d n, Some (n, open_node (S d) t)) (node_status (S d) (open_node (S d) t)).
Proof.
  intros Hn Hlt Ht. unfold dir_next. eapply areads_bind_nil; [apply areads_check|].
  eapply areads_bind; [apply areads_sep|]. rewrite <- (proj2 tag_bytes_entry).
  eapply areads_bind; [apply areads_try, areads_lift, (reads_tag EntryTag)|].
  pose proof Hn as Hn'. destruct Hn' as [Hlen _].
  eapply areads_bind; [apply areads_try, areads_lift, reads_name; lia|].
  rewrite (proj2 (bad_entry_name_ok n ltac:(lia)) Hn). cbn [prev_name dr_depth].
  rewrite bool_decide_eq_true_2 by done. cbn [negb].
  eapply areads_bind; [apply areads_try, areads_lift, reads_token|].
  eapply areads_bind_nil; [apply areads_child|].
  eapply areads_bind_last; [by apply areads_node_new|apply areads_ret].
Qed.

(** What [dir_next] accepts: the end, or an entry that is in order. *)
Definition next_accepts (d : nat) (p : bytes) (x : DirReader * option (bytes * Node)) (xs : bytes) : Prop :=
  match x.2 with
  | None => xs = sep p ++ TOK_PAR
  | Some (n, node) =>
      x.1 = mkDirReader d n ∧ entry_name_ok n ∧ lex_cmp p n = Lt ∧ node_wf (S d) node ∧
      ∃ pre, xs = sep p ++ TOK_ENT ++ str n ++ TOK_NOD ++ pre ∧
        ∀ t, open_node (S d) t = node → pre = node_pre t
  end.

Definition next_status (d : nat) (x : DirReader * option (bytes * Node)) : status → Prop :=
  match x.2 with None => finished d | Some (_, node) => node_status (S d) node end.

Lemma aaccepts_dir_next d p :
  aaccepts (dir_next dbg (mkDirReader d p)) (live d) (next_accepts d p) (next_status d).
Proof.
  unfold dir_next. cbn [dr_depth prev_name]. destruct tag_bytes_entry as [HN HS].
  eapply aaccepts_bind; [apply aaccepts_check|]. intros [] ? ->.
  eapply aaccepts_bind; [apply aaccepts_sep|]. intros [] ? ->.
  eapply aaccepts_bind; [apply aaccepts_io; [exact (accepts_tag EntryTag)|exact (panic_free_tag EntryTag)]|].
  intros [] xs ->.
  { rewrite HN. eapply aaccepts_bind; [apply aaccepts_ready_parent|]. intros [] ? ->.
    apply aaccepts_ret; [|done]. unfold next_accepts. cbn [snd app]. by rewrite ?app_nil_r. }
  rewrite HS. eapply aaccepts_bind; [apply aaccepts_io; [apply accepts_name|auto with nar]|].
  intros n ? [-> Hl]. destruct (bad_entry_name n) eqn:Hb; [apply aaccepts_poison_throw|].
  apply bad_entry_name_ok in Hb; [|done].
  case_bool_decide as Hlt; [|apply aaccepts_poison_throw]. cbn [negb].
  eapply aaccepts_bind; [apply aaccepts_io; [apply accepts_token|auto with nar]|]. intros [] ? ->.
  eapply aaccepts_bind; [apply aaccepts_child|]. intros ? ? [-> ->].
  eapply aaccepts_bind; [apply aaccepts_node_new|]. intros node pre [Hwf Hpre].
  apply aaccepts_ret; [|done]. unfold next_accepts. cbn [fst snd]. split_and!; [done..|].
  exists pre. split; [|done]. by rewrite app_nil_r.
Qed.

(** *** Whole nodes *)

Lemma len_ENT : length TOK_ENT = 48.
Proof. done. Qed.
Lemma len_PAR : length TOK_PAR = 16.
Proof. done. Qed.

Definition reads_tree (t : tree) : Prop := ∀ d fuel s ys,
  no_fault (inner s) → contents (inner s) = node_rest t ++ ys →
  node_status d (open_node d t) (st s) → 2 * length (node_rest t) + 2 ≤ fuel →
  ∃ s', read_node dbg fuel (open_node d t) s = Some (Ok t, s') ∧ no_fault (inner s') ∧
        contents (inner s') = ys ∧ finished d (st s').

Lemma sep_cons n : entry_name_ok n → sep n = TOK_PAR.
Proof. intros [? _]. unfold sep. by rewrite (proj2 (Nat.eqb_neq _ _)) by lia. Qed.

Lemma read_dir_reads es : Forall (λ e, tree_ok e.2 → reads_tree e.2) es →
  ∀ d p fuel s ys, entries_ok p es → no_fault (inner s) →
  contents (inner s) = sep p ++ (es ≫= entry_bytes) ++ TOK_PAR ++ ys → live d (st s) →
  2 * length (sep p ++ (es ≫= entry_bytes) ++ TOK_PAR) + 1 ≤ fuel →
  ∃ s', read_dir dbg fuel (mkDirReader d p) s = Some (Ok es, s') ∧ no_fault (inner s') ∧
        contents (inner s') = ys ∧ finished d (st s').
Proof.
  induction 1 as [|[n t] es Ht _ IH]; intros d p fuel s ys Hok Hn Hc Hs Hfuel;
    (destruct fuel as [|fuel]; [lia|]); cbn [read_dir].
  - destruct (areads_dir_end d p s ys) as (s' & -> & ?); [done|by rewrite <- app_assoc|done|].
    simpl. eauto.
  - destruct Hok as (Hname & Hlt & Htok & Hes). specialize (Ht Htok). simpl in Ht.
    cbn [mbind list_bind] in Hc, Hfuel. unfold entry_bytes at 1 in Hc.
    unfold entry_bytes at 1 in Hfuel. cbn [fst snd] in Hc, Hfuel. rewrite node_pre_rest in Hc, Hfuel.
    rewrite !length_app, len_ENT in Hfuel.
    destruct (areads_dir_entry d p n t Hname Hlt Htok s (node_rest t ++ TOK_PAR ++ (es ≫= entry_bytes) ++ TOK_PAR ++ ys))
      as (s1 & -> & Hn1 & Hc1 & Hs1); [done|by rewrite Hc, <- !app_assoc|done|]. cbn [obind_fuel].
    destruct (Ht (S d) fuel s1 _ Hn1 Hc1 Hs1) as (s2 & -> & Hn2 & Hc2 & Hs2); [lia|]. cbn [obind_fuel].
    destruct (IH d n fuel s2 ys) as (s3 & -> & ?);
      [done|done|by rewrite sep_cons|by apply finished_live| |].
    { rewrite sep_cons by done. rewrite !length_app. lia. }
    cbn [obind_fuel]. eauto.
Qed.

Lemma entries_ok_Forall p es : entries_ok p es → Forall (λ e, tree_ok e.2) es.
Proof.
  revert p. induction es as [|[n t] es IH]; intros p; simpl; [constructor|].
  intros (_ & _ & ? & ?). constructor; eauto.
Qed.

Lemma read_node_reads t : tree_ok t → reads_tree t.
Proof.
  induction t as [target|x data|es IH] using tree_ind'; intros Hok d fuel s ys Hn Hc Hs Hfuel;
    (destruct fuel as [|fuel]; [lia|]); cbn [open_node read_node].
  - eauto.
  - destruct (file_copy_reads (length data) (length (contents (inner s)) + 1)
      (mkFileReader d (Z.of_nat (length data)) (Z.of_nat (length data) mod 256)) [] s data ys)
      as (s' & -> & ?); [done|exact Hs|done|done|exact Hc| |].
    + rewrite Hc. simpl. destruct data as [|b data]; [simpl; lia|].
      cbn [length Nat.eqb]. unfold file_rest. rewrite !length_app. cbn [length]. lia.
    + cbn [obind_fuel]. eauto.
  - rewrite tree_ok_dir in Hok. cbn [node_rest] in *.
    destruct (read_dir_reads es IH d [] fuel s ys Hok Hn) as (s' & -> & ?);
      [by rewrite Hc, <- app_assoc|exact Hs|cbn [sep length Nat.eqb app]; lia|].
    cbn [obind_fuel]. eauto.
Qed.

Definition accepts_node (fuel : nat) : Prop := ∀ d n s,
  no_fault (inner s) → node_wf d n → node_status d n (st s) →
  2 * length (contents (inner s)) + 2 ≤ fuel →
  fpost s (λ t xs, open_node d t = n ∧ tree_ok t ∧ xs = node_rest t) (λ _, finished d)
    (read_node dbg fuel n s).

Definition accepts_dir (fuel : nat) : Prop := ∀ d p s,
  no_fault (inner s) → live d (st s) → 2 * length (contents (inner s)) + 1 ≤ fuel →
  fpost s (λ es xs, entries_ok p es ∧ xs = sep p ++ (es ≫= entry_bytes) ++ TOK_PAR)
    (λ _, finished d) (read_dir dbg fuel (mkDirReader d p) s).

Lemma read_node_accepts_step fuel : accepts_dir fuel → accepts_node (S fuel).
Proof.
  intros Hdir d n s Hn Hwf Hs Hfuel. cbn [read_node]. destruct n as [target|x fr|dr].
  - by apply fpost_ret.
  - destruct Hwf as [Hlen Hfr]. set (L := Z.to_nat (fr_len fr)).
    assert (Z.of_nat L = fr_len fr) as HL by lia.
    eapply fpost_bind; [apply (file_copy_accepts L)|].
    + done.
    + rewrite Hfr. simpl in Hs. unfold file_status, fr_is_empty. exact Hs.
    + lia.
    + rewrite Hfr. simpl. by rewrite HL.
    + lia.
    + rewrite Hfr. cbn [fr_len fr_depth]. intros data s' xs Hn' Hc (? & -> & Hl & ->) Hfin.
      apply fpost_ret; [done| |done]. cbn [app open_node tree_ok node_rest].
      rewrite Hl. split_and!; [done|lia|]. rewrite app_nil_r. unfold data_rest.
      by replace L with (length x0) by lia.
  - simpl in Hwf. subst dr. eapply fpost_bind; [apply Hdir; [done|exact Hs|lia]|].
    intros es s' xs Hn' Hc [Hok ->] Hfin. apply fpost_ret; [done| |done].
    rewrite tree_ok_dir, app_nil_r. done.
Qed.

Lemma read_dir_accepts_step fuel : accepts_node fuel → accepts_dir fuel → accepts_dir (S fuel).
Proof.
  intros Hnode Hdir d p s Hn Hs Hfuel. cbn [read_dir].
  eapply (fpost_bind s (Some (dir_next dbg (mkDirReader d p) s))); [by apply aaccepts_dir_next|].
  intros [dr [[n node]|]] s1 xs Hn1 Hc1 Hx Hs1; unfold next_accepts, next_status in *; cbn [fst snd] in *.
  - destruct Hx as (-> & Hname & Hlt & Hwf & pre & -> & Hpre).
    assert (length (contents (inner s1)) + 1 ≤ length (contents (inner s))) as Hl1.
    { rewrite Hc1, !length_app, len_ENT. lia. }
    eapply fpost_bind; [apply (Hnode (S d)); [done..|lia]|].
    intros t s2 xs2 Hn2 Hc2 (Ht & Htok & ->) Hs2.
    assert (length (contents (inner s2)) ≤ length (contents (inner s1))) as Hl2.
    { rewrite Hc2, length_app. lia. }
    eapply fpost_bind; [apply (Hdir d n s2); [done|by apply finished_live|lia]|].
    intros es s3 xs3 Hn3 Hc3 [Hes ->] Hs3. apply fpost_ret; [done| |done].
    rewrite (Hpre t Ht), (sep_cons n Hname). split; [done|]. cbn [mbind list_bind].
    unfold entry_bytes at 2. cbn [fst snd]. rewrite node_pre_rest.
    by rewrite ?app_nil_r, <- !app_assoc.
  - subst xs. apply fpost_ret; [done| |done]. cbn [entries_ok mbind list_bind app].
    by rewrite app_nil_r.
Qed.

Lemma read_accepts fuel : accepts_node fuel ∧ accepts_dir fuel.
Proof.
  induction fuel as [|fuel [IHn IHd]].
  - split; intros ? ? ? ?; intros; lia.
  - split; [by apply read_node_accepts_step|by apply read_dir_accepts_step].
Qed.

Lemma top_live r : live 0 (st (top r)).
Proof. done. Qed.

Lemma read_nar_reads t r rest fuel :
  tree_ok t → no_fault r → contents r = nar t ++ rest → 2 * length (nar t) + 2 ≤ fuel →
  ∃ s, read_nar dbg fuel r = Some (Ok t, s) ∧ no_fault (inner s) ∧ contents (inner s) = rest.
Proof.
  intros Hok Hr Hc Hfuel. unfold read_nar. rewrite nar_node_bytes, node_pre_rest in Hc, Hfuel.
  assert (areads open_reader (live 0) (TOK_NAR ++ node_pre t) (open_node 0 t)
            (node_status 0 (open_node 0 t))) as Ho.
  { unfold open_reader. eapply areads_bind; [apply areads_lift, reads_token|by apply areads_node_new]. }
  destruct (Ho (top r) (node_rest t ++ rest)) as (s1 & -> & Hn1 & Hc1 & Hs1);
    [done|by rewrite <- !app_assoc in *|apply top_live|]. cbn [obind_fuel].
  rewrite !length_app in Hfuel.
  destruct (read_node_reads t Hok 0 fuel s1 rest Hn1 Hc1 Hs1) as (s' & E & ? & ? & _); [lia|]. eauto.
Qed.

Lemma read_nar_accepts r fuel :
  no_fault r → 2 * length (contents r) + 2 ≤ fuel →
  fpost (top r) (λ t xs, tree_ok t ∧ xs = nar t) (λ _, finished 0) (read_nar dbg fuel r).
Proof.
  intros Hr Hfuel. unfold read_nar.
  assert (aaccepts open_reader (live 0) (λ n xs, ∃ pre, xs = TOK_NAR ++ pre ∧ node_accepts 0 n pre)
            (node_status 0)) as Ho.
  { unfold open_reader. eapply aaccepts_bind; [apply aaccepts_lift; [apply accepts_token|auto with nar]|].
    intros [] ? ->. intros s Hn HP. pose proof (aaccepts_node_new 0 s Hn HP) as H. unfold post in *.
    destruct (node_new 0 s) as [[]]; [|done|done]. destruct H as (? & xs & ? & ? & ?).
    split; [done|]. exists xs. split_and!; [done|by exists xs|done]. }
  eapply fpost_bind; [exact (Ho (top r) Hr (top_live r))|].
  intros n s xs Hn Hc (pre & -> & Hwf & Hpre) Hs.
  apply (f_equal length) in Hc. rewrite length_app in Hc. cbn [top inner] in Hc.
  eapply (fpost_after s s []); [done|apply (proj1 (read_accepts fuel) 0 n); [done|done|done|lia]|].
  cbn beta. intros t ys (Ht & Hok & ->). split; [done|].
  rewrite (Hpre t Ht), nar_node_bytes, node_pre_rest. by rewrite <- app_assoc.
Qed.

End ReaderProofs.

(** ** The stack discipline of the debug status

    [stack d]: not poisoned, and of the objects up to depth [d] only the one
    at [d] is ready. [abandoned d]: none of them passes [check_correct].
    The calls are followed on any reader, faults included. *)

Definition stack (d : nat) (x : status) : Prop :=
  x.1 = false ∧ take (S d) x.2 = replicate d false ++ [true].

Definition abandoned (d : nat) (x : status) : Prop :=
  x.1 = true ∨ ∀ d', d' ≤ d → x.2 !! d' ≠ Some true.

(** From a status in [P]: [Q] after success, [F] after an error, no panic. *)
Definition tracks {A} (m : sm archive A) (P : status → Prop) (Q : A → status → Prop)
    (F : status → Prop) : Prop :=
  ∀ s, P (st s) → match m s with
                  | (Ok a, s') => Q a (st s')
                  | (Err _, s') => F (st s')
                  | (Panic, _) => False
                  end.

Lemma tracks_bind {A C} (m : sm archive A) (f : A → sm archive C) P Q Q' F :
  tracks m P Q F → (∀ a, tracks (f a) (Q a) Q' F) → tracks (sbind m f) P Q' F.
Proof.
  intros Hm Hf s HP. specialize (Hm s HP). unfold sbind.
  destruct (m s) as [[a|e|] s']; [by apply Hf|done..].
Qed.

Lemma tracks_ret {A} (a : A) (P : status → Prop) (Q : A → status → Prop) F :
  (∀ x, P x → Q a x) → tracks (sret a) P Q F.
Proof. intros H s HP. by apply H. Qed.

Lemma tracks_throw {A} e P (Q : A → status → Prop) d : tracks (poison_throw e) P Q (abandoned d).
Proof. intros s HP. by left. Qed.

Lemma tracks_io {A} (m : io A) P d :
  panic_free m → tracks (try_or_poison (lift m)) P (λ _, P) (abandoned d).
Proof.
  intros Hp s HP. specialize (Hp (inner s)). unfold try_or_poison, lift.
  destruct (m (inner s)) as [[]]; [done|by left|done].
Qed.

(** A failing call that does not poison, made by a child of the object at [d]. *)
Lemma tracks_child_io {A} (m : io A) d :
  panic_free m → tracks (lift m) (stack (S d)) (λ _, stack (S d)) (abandoned d).
Proof.
  intros Hp s HP. specialize (Hp (inner s)). unfold lift.
  destruct (m (inner s)) as [[]]; [done| |done]. destruct HP as [_ HP]. right. intros d' Hd' E.
  assert (take (S (S d)) (ready s) !! d' = Some false) as E'.
  { change (take (S (S d)) (ready s) = replicate (S d) false ++ [true]) in HP.
    rewrite HP, lookup_app_l by (rewrite length_replicate; lia). apply lookup_replicate. split; [done|lia]. }
  rewrite lookup_take_lt in E' by lia. simpl in E. congruence.
Qed.

Definition closed (d : nat) (x : status) : Prop := ∀ p, d = S p → stack p x.

Lemma tracks_ready_parent d F : tracks (ready_parent d) (stack d) (λ _, closed d) F.
Proof.
  intros s [Hp Ht] p ->. split; [done|]. unfold st in *. cbn [poisoned ready fst snd] in *.
  apply list_eq. intros i. destruct (decide (i < S p)) as [Hi|Hi].
  2:{ rewrite !lookup_ge_None_2; [done|..]; rewrite ?length_app, ?length_replicate, ?length_take; cbn [length]; lia. }
  rewrite lookup_take_lt by done.
  assert (∀ j, j < S (S p) → ready s !! j = (replicate (S p) false ++ [true]) !! j) as Hj.
  { intros j ?. rewrite <- Ht. by rewrite lookup_take_lt. }
  assert (p < length (ready s)) as Hlen.
  { apply lookup_lt_is_Some. rewrite Hj by lia. apply lookup_lt_is_Some.
    rewrite length_app, length_replicate. simpl. lia. }
  destruct (decide (i = p)) as [->|Hne].
  - rewrite list_lookup_insert_eq by (by rewrite length_insert).
    rewrite lookup_app_r; rewrite length_replicate; [|done]. by rewrite Nat.sub_diag.
  - rewrite !list_lookup_insert_ne by lia. rewrite Hj by lia.
    rewrite !lookup_app_l by (rewrite length_replicate; lia).
    by rewrite !lookup_replicate_2 by lia.
Qed.

Lemma tracks_child d F : tracks (child d) (stack d) (λ c x, c = S d ∧ stack (S d) x) F.
Proof.
  intros s [Hp Ht]. split; [done|]. split; [done|]. unfold st in *. cbn [poisoned ready fst snd] in *.
  rewrite Ht.
  rewrite insert_app_r_alt by (by rewrite length_replicate). rewrite length_replicate, Nat.sub_diag.
  rewrite replicate_S_end. apply take_ge. rewrite !length_app, length_replicate. simpl. lia.
Qed.

(** The status of a node object that was just opened. *)
Definition node_stack (d : nat) (n : Node) : status → Prop :=
  match n with
  | Symlink _ => closed d
  | File _ fr => if fr_is_empty fr then closed d else stack d
  | Directory _ => stack d
  end.

Lemma tracks_check d F : tracks (check_correct true d) (stack d) (λ _, stack d) F.
Proof.
  intros s HP. rewrite check_correct_live; [done|]. destruct HP as [Hp Ht]. split; [done|].
  rewrite <- (lookup_take_lt _ (S d)) by lia. rewrite Ht.
  rewrite lookup_app_r; rewrite length_replicate; [|done]. by rewrite Nat.sub_diag.
Qed.

Lemma tracks_file_new d len :
  tracks (file_new (S d) len) (stack (S d))
    (λ fr, if fr_is_empty fr then closed (S d) else stack (S d)) (abandoned d).
Proof.
  unfold file_new.
  eapply (tracks_bind _ _ _ (λ _, if (len =? 0)%Z then closed (S d) else stack (S d)));
    [|intros []; by apply tracks_ret].
  destruct (len =? 0)%Z; [|by apply tracks_ret].
  eapply tracks_bind; [apply tracks_child_io; auto with nar|]. intros []. apply tracks_ready_parent.
Qed.

Lemma tracks_node_new d :
  tracks (node_new (S d)) (stack (S d)) (λ n, node_stack (S d) n) (abandoned d).
Proof.
  assert (∀ x, tracks (let! len := try_or_poison (lift read_u64) in
     let! fr := file_new (S d) len in sret (File x fr)) (stack (S d))
     (λ n, node_stack (S d) n) (abandoned d)) as Hfile.
  { intros x. eapply tracks_bind; [apply tracks_io; auto using panic_free_u64|]. intros len.
    eapply tracks_bind; [apply tracks_file_new|]. intros fr. by apply tracks_ret. }
  unfold node_new. eapply tracks_bind; [apply tracks_child_io, (panic_free_tag NodeTag)|].
  intros []; [|apply Hfile..|by apply tracks_ret].
  eapply tracks_bind; [apply tracks_io; auto with nar|]. intros target.
  case_match; [apply tracks_throw|].
  eapply tracks_bind; [apply tracks_io; auto with nar|]. intros [].
  eapply tracks_bind; [apply tracks_ready_parent|]. intros []. by apply tracks_ret.
Qed.

Lemma tracks_dir_next dr :
  tracks (dir_next true dr) (stack (dr_depth dr))
    (λ x, match x.2 with
          | None => closed (dr_depth dr)
          | Some (_, node) => node_stack (S (dr_depth dr)) node
          end) (abandoned (dr_depth dr)).
Proof.
  unfold dir_next. eapply tracks_bind; [apply tracks_check|]. intros [].
  eapply (tracks_bind _ _ _ (λ _, stack (dr_depth dr))).
  { case_match; [apply tracks_io; auto with nar|by apply tracks_ret]. }
  intros []. eapply tracks_bind; [apply tracks_io, (panic_free_tag EntryTag)|]. intros [].
  { eapply tracks_bind; [apply tracks_ready_parent|]. intros []. by apply tracks_ret. }
  eapply tracks_bind; [apply tracks_io; auto with nar|]. intros name.
  case_match; [apply tracks_throw|]. case_match; [apply tracks_throw|].
  eapply tracks_bind; [apply tracks_io; auto with nar|]. intros [].
  eapply tracks_bind; [apply tracks_child|]. intros c s [-> Hs]. revert s Hs.
  eapply tracks_bind; [apply tracks_node_new|]. intros node. by apply tracks_ret.
Qed.

Lemma tracks_file_finish fr :
  tracks (file_finish fr) (stack (fr_depth fr)) (λ _, closed (fr_depth fr)) (abandoned (fr_depth fr)).
Proof.
  unfold file_finish. eapply (tracks_bind _ _ _ (λ _, stack (fr_depth fr))).
  { case_match; [by apply tracks_ret|].
    eapply tracks_bind; [apply tracks_io; auto with nar|]. intros buf.
    case_match; [by apply tracks_ret|apply tracks_throw]. }
  intros []. eapply tracks_bind; [apply tracks_io; auto with nar|]. intros [].
  apply tracks_ready_parent.
Qed.

Lemma panic_free_read n : panic_free (read n).
Proof. intros r. unfold read. destruct (n =? 0); [done|]. by destruct r as [|[]]. Qed.

Lemma tracks_file_read fr n :
  fr_is_empty fr = false →
  tracks (file_read true fr n) (stack (fr_depth fr))
    (λ x, if fr_is_empty x.1 then closed (fr_depth fr) else stack (fr_depth fr))
    (abandoned (fr_depth fr)).
Proof.
  intros He. unfold file_read. rewrite He, orb_false_r.
  destruct (n =? 0); [apply tracks_ret; simpl; by rewrite He|].
  eapply tracks_bind; [apply tracks_check|]. intros [].
  eapply tracks_bind; [apply tracks_io, panic_free_read|]. intros data.
  destruct data as [|b data]; [apply tracks_throw|]. set (fr' := mkFileReader _ _ _).
  eapply (tracks_bind _ _ _ (λ _, if fr_is_empty fr' then closed (fr_depth fr) else stack (fr_depth fr)));
    [|intros []; by apply tracks_ret].
  destruct (fr_is_empty fr'); [apply (tracks_file_finish fr')|by apply tracks_ret].
Qed.

Lemma abandoned_panics d s : abandoned d (st s) →
  ∀ d', d' ≤ d → check_correct true d' s = (Panic, s).
Proof.
  intros [Hp|Hr] d' Hd'; unfold check_correct; cbn [andb].
  - simpl in Hp. by rewrite Hp.
  - specialize (Hr d' Hd'). simpl in Hr. destruct (ready s !! d') as [[]|]; [done|..];
      simpl; by rewrite orb_true_r.
Qed.

(** ** Properties *)

(** C2: what the writer writes for a valid tree, the reader reads back as that
    tree, in every build profile, wherever the data and the file contents are
    split into chunks, and it leaves whatever follows the archive unread. The
    recursion depth and turns are within twice the length of the archive. *)
Theorem nar_roundtrip (dbg : bool) (source : bytes → reader) (t : tree) :
  tree_ok t → (∀ data, no_fault (source data) ∧ contents (source data) = data) →
  ∃ out, write_nar dbg source t [] = (Ok tt, out) ∧
    ∀ r rest, no_fault r → contents r = out ++ rest →
      ∃ s, read_nar dbg (2 * length out + 2) r = Some (Ok t, s) ∧ contents (inner s) = rest.
Proof.
  intros Hok Hsrc. exists (nar t). split; [by apply (appends_nar dbg source Hsrc t Hok)|].
  intros r rest Hr Hc.
  destruct (read_nar_reads dbg t r rest (2 * length (nar t) + 2)) as (s & E & _ & ?); eauto.
Qed.

Lemma nar_roundtrip_witness :
  ∃ out, write_nar true of_bytes sample_tree [] = (Ok tt, out) ∧
    ∀ r rest, no_fault r → contents r = out ++ rest →
      ∃ s, read_nar true (2 * length out + 2) r = Some (Ok sample_tree, s) ∧ contents (inner s) = rest.
Proof.
  apply (nar_roundtrip true of_bytes sample_tree).
  - exact sample_tree_ok.
  - intros data. split; [apply of_bytes_no_fault|apply contents_of_bytes].
Defined.

(** C1: on every input without I/O faults, split in any way, and in every
    build profile, reading terminates without a panic, and what it accepts is
    canonical: the bytes used are exactly the one archive of the returned
    tree, and that tree satisfies the limits on names, targets and order. *)
Theorem read_nar_canonical (dbg : bool) (r : reader) :
  no_fault r →
  match read_nar dbg (2 * length (contents r) + 2) r with
  | Some (Ok t, s) => tree_ok t ∧ contents r = nar t ++ contents (inner s)
  | Some (Err _, _) => True
  | Some (Panic, _) | None => False
  end.
Proof.
  intros Hr. pose proof (read_nar_accepts dbg r _ Hr (Nat.le_refl _)) as H. unfold fpost, post in H.
  destruct (read_nar _ _ _) as [[[t|e|] s]|]; [|done..].
  destruct H as (_ & xs & Hc & [Hok ->] & _). done.
Qed.

Lemma read_nar_canonical_witness :
  match read_nar true (2 * length (contents (of_bytes (nar sample_tree ++ B "tail"))) + 2)
          (of_bytes (nar sample_tree ++ B "tail")) with
  | Some (Ok t, s) =>
      tree_ok t ∧ contents (of_bytes (nar sample_tree ++ B "tail")) = nar t ++ contents (inner s)
  | Some (Err _, _) => True
  | Some (Panic, _) | None => False
  end.
Proof. apply (read_nar_canonical true (of_bytes (nar sample_tree ++ B "tail"))), of_bytes_no_fault. Defined.

(** The debug status guards the documented protocol. From a status where
    only the object at the directory's depth is ready, [DirReader::next] on
    any reader, faulty ones included, does not panic; a returned entry becomes
    the only ready object (or hands readiness back at once), the end of the
    directory hands it to the parent, and after an error every object up to
    this depth fails its check from then on. *)
Theorem dir_next_stack (dr : DirReader) (s : archive) :
  stack (dr_depth dr) (st s) →
  match dir_next true dr s with
  | (Ok (_, Some (_, node)), s') => node_stack (S (dr_depth dr)) node (st s')
  | (Ok (_, None), s') => closed (dr_depth dr) (st s')
  | (Err _, s') => ∀ d, d ≤ dr_depth dr → check_correct true d s' = (Panic, s')
  | (Panic, _) => False
  end.
Proof.
  intros Hs. pose proof (tracks_dir_next dr s Hs) as H.
  destruct (dir_next true dr s) as [[[dr' [[n node]|]]|e|] s']; try done. by apply abandoned_panics.
Qed.

Lemma dir_next_stack_witness :
  match dir_next true (mkDirReader 0 []) (top (of_bytes (B "garbage"))) with
  | (Ok (_, Some (_, node)), s') => node_stack 1 node (st s')
  | (Ok (_, None), s') => closed 0 (st s')
  | (Err _, s') => ∀ d, d ≤ 0 → check_correct true d s' = (Panic, s')
  | (Panic, _) => False
  end.
Proof. apply (dir_next_stack (mkDirReader 0 []) (top (of_bytes (B "garbage")))). done. Defined.

(** The same for reading a file that is not at its end: no panic, the
    last byte hands readiness back to the parent (the padding and closing
    token being checked then), and an error leaves nothing usable. *)
Theorem file_read_stack (fr : FileReader) (n : nat) (s : archive) :
  fr_is_empty fr = false → stack (fr_depth fr) (st s) →
  match file_read true fr n s with
  | (Ok (fr', _), s') =>
      if fr_is_empty fr' then closed (fr_depth fr) (st s') else stack (fr_depth fr) (st s')
  | (Err _, s') => ∀ d, d ≤ fr_depth fr → check_correct true d s' = (Panic, s')
  | (Panic, _) => False
  end.
Proof.
  intros He Hs. pose proof (tracks_file_read fr n He s Hs) as H.
  destruct (file_read true fr n s) as [[[fr' data]|e|] s']; [simpl in H; by destruct (fr_is_empty fr')| |done].
  by apply abandoned_panics.
Qed.

Lemma file_read_stack_witness :
  match file_read true (mkFileReader 0 3 3) 2 (top (of_bytes (B "abc"))) with
  | (Ok (fr', _), s') => if fr_is_empty fr' then closed 0 (st s') else stack 0 (st s')
  | (Err _, s') => ∀ d, d ≤ 0 → check_correct true d s' = (Panic, s')
  | (Panic, _) => False
  end.
Proof. by apply (file_read_stack (mkFileReader 0 3 3) 2 (top (of_bytes (B "abc")))). Defined.
