(* ===== verification/AsyncIo.v ===== *)
(** * [tokio::io] as the source uses it

    A source of bytes is what its polls will answer: chunks, faults, and turns
    in which it is not ready. An async function is polled until it is ready;
    how often is its fuel, so that one that never ends answers nothing. *)

From stdpp Require Import strings.
From S2P Require Import Prelude Io.
#[local] Open Scope nat_scope.

(** ** Sources *)

(** [None] is a poll that is not ready. *)
Abbreviation areader := (list (option event)).

(** What the source delivers in the end. *)
Definition deliver (r : areader) : reader := omap id r.

(** [Poll::Ready] with a result, or [Poll::Pending]. *)
Abbreviation poll S A := (S → option (outcome ErrorKind A) * S).

Definition aconsume (n : nat) (r : areader) : areader :=
  match r with
  | Some (Chunk b bs) :: r' =>
      match drop n (b :: bs) with
      | [] => r'
      | b :: bs => Some (Chunk b bs) :: r'
      end
  | _ => r
  end.

(** [AsyncRead::poll_read] into a buffer with room for [n] bytes. *)
Definition apoll_read (n : nat) : poll areader bytes := λ r,
  if n =? 0 then (Some (Ok []), r) else
  match r with
  | [] => (Some (Ok []), [])
  | None :: r => (None, r)
  | Some (Chunk b bs) :: _ => (Some (Ok (take n (b :: bs))), aconsume n r)
  | Some (Fault k) :: r => (Some (Err k), r)
  end.

(** [AsyncBufRead::poll_fill_buf] *)
Definition apoll_fill_buf : poll areader bytes := λ r,
  match r with
  | [] => (Some (Ok []), [])
  | None :: r => (None, r)
  | Some (Chunk b bs) :: _ => (Some (Ok (b :: bs)), r)
  | Some (Fault k) :: r => (Some (Err k), r)
  end.

(** ** Async functions *)

Definition am (S A : Type) : Type := nat → S → option (outcome ErrorKind A * S).

Definition aret {S A} (a : A) : am S A := λ _ s, Some (Ok a, s).
Definition athrow {S A} (e : ErrorKind) : am S A := λ _ s, Some (Err e, s).
Definition apanic {S A} : am S A := λ _ s, Some (Panic, s).
Definition abind {S A C} (m : am S A) (f : A → am S C) : am S C := λ fuel s,
  match m fuel s with
  | None => None
  | Some (Ok a, s) => f a fuel s
  | Some (Err e, s) => Some (Err e, s)
  | Some (Panic, s) => Some (Panic, s)
  end.
Definition alift {S A} (o : outcome ErrorKind A) : am S A := λ _ s, Some (o, s).

Notation "'await!' x ':=' m 'in' k" := (abind m (fun x => k))
  (at level 10, x pattern, m at level 100, k at level 200) : rust_scope.

(** [.await] on what one polls. *)
Fixpoint await_ {S A} (p : poll S A) (fuel : nat) (s : S) : option (outcome ErrorKind A * S) :=
  match fuel with
  | O => None
  | Datatypes.S fuel =>
      match p s with
      | (None, s) => await_ p fuel s
      | (Some o, s) => Some (o, s)
      end
  end.
Definition await {S A} (p : poll S A) : am S A := await_ p.

(** [AsyncReadExt::read_exact]; unlike in [std], an interrupted read is not retried. *)
Fixpoint read_exact_loop (fuel : nat) (n : nat) (buf : bytes) (r : areader) : option (outcome ErrorKind bytes * areader) :=
  match fuel with
  | O => None
  | S fuel =>
      if n =? 0 then Some (Ok buf, r) else
      match apoll_read n r with
      | (None, r) => read_exact_loop fuel n buf r
      | (Some (Ok []), r) => Some (Err UnexpectedEof, r)
      | (Some (Ok bs), r) => read_exact_loop fuel (n - length bs) (buf ++ bs) r
      | (Some (Err e), r) => Some (Err e, r)
      | (Some Panic, r) => Some (Panic, r)
      end
  end.
Definition aread_exact (n : nat) : am areader bytes := λ fuel r, read_exact_loop fuel n [] r.

(** [AsyncReadExt::read_u64_le] *)
Definition aread_u64_le : am areader Z := await! buf := aread_exact 8 in aret (le_val buf).

(** [read_to_end] on [r.take(n)] *)
Fixpoint read_limited_loop (fuel : nat) (n : nat) (buf : bytes) (r : areader) : option (outcome ErrorKind bytes * areader) :=
  match fuel with
  | O => None
  | S fuel =>
      if n =? 0 then Some (Ok buf, r) else
      match apoll_read n r with
      | (None, r) => read_limited_loop fuel n buf r
      | (Some (Ok []), r) => Some (Ok buf, r)
      | (Some (Ok bs), r) => read_limited_loop fuel (n - length bs) (buf ++ bs) r
      | (Some (Err e), r) => Some (Err e, r)
      | (Some Panic, r) => Some (Panic, r)
      end
  end.
Definition aread_limited (n : nat) : am areader bytes := λ fuel r, read_limited_loop fuel n [] r.

(** ** What is left of a source *)

(** No faults are to come, and the bytes [xs]. *)
Definition rest (r : areader) (xs : bytes) : Prop := no_fault (deliver r) ∧ contents (deliver r) = xs.

(** Polls and bytes to come. *)
Definition weight (r : areader) : nat :=
  sum_list (map (λ e, match e with Some (Chunk _ bs) => S (S (length bs)) | _ => 1 end) r).

Lemma aconsume_chunk n b bs r :
  0 < n →
  deliver (aconsume n (Some (Chunk b bs) :: r)) = consume n (Chunk b bs :: deliver r) ∧
  weight (aconsume n (Some (Chunk b bs) :: r)) < weight (Some (Chunk b bs) :: r).
Proof.
  intros Hn. unfold aconsume, consume, deliver, weight. cbn [omap list_omap id].
  destruct (drop n (b :: bs)) as [|b' bs'] eqn:E; cbn; [split; [done|lia]|].
  split; [done|]. apply (f_equal length) in E. rewrite length_drop in E. cbn in E. lia.
Qed.

Lemma rest_pending r xs : rest (None :: r) xs → rest r xs.
Proof. done. Qed.

Lemma rest_end xs : rest [] xs → xs = [].
Proof. by intros [_ <-]. Qed.

Lemma rest_chunk b bs r xs : rest (Some (Chunk b bs) :: r) xs → ∃ ys, xs = (b :: bs) ++ ys ∧ rest r ys.
Proof. intros [[_ Hr]%no_fault_cons <-]. by exists (contents (deliver r)). Qed.

Lemma rest_fault k r xs : ¬ rest (Some (Fault k) :: r) xs.
Proof. intros [Hr _]. unfold deliver in Hr. cbn in Hr. by apply no_fault_cons in Hr as [? _]. Qed.

Lemma rest_consume n b bs r xs :
  0 < n → n ≤ S (length bs) → rest (Some (Chunk b bs) :: r) xs → rest (aconsume n (Some (Chunk b bs) :: r)) (drop n xs).
Proof.
  intros Hn Hle [Hr <-]. destruct (aconsume_chunk n b bs r Hn) as [E _]. unfold rest. rewrite E. split.
  - by apply consume_no_fault.
  - by rewrite consume_contents.
Qed.

(** What one poll of a source without faults does. *)
Lemma apoll_read_case n r xs :
  0 < n → rest r xs →
  (∃ r', apoll_read n r = (None, r') ∧ rest r' xs ∧ weight r' < weight r) ∨
  (xs = [] ∧ r = [] ∧ apoll_read n r = (Some (Ok []), [])) ∨
  (∃ b bs ys r', apoll_read n r = (Some (Ok (b :: bs)), r') ∧ xs = (b :: bs) ++ ys ∧ S (length bs) ≤ n ∧
    rest r' ys ∧ weight r' < weight r).
Proof.
  intros Hn Hr. unfold apoll_read. rewrite (proj2 (Nat.eqb_neq n 0)) by lia.
  destruct r as [|[[b bs|k]|] r].
  - right. left. by apply rest_end in Hr.
  - right. right. destruct n as [|n]; [lia|]. cbn [take]. destruct (rest_chunk _ _ _ _ Hr) as (ys & -> & Hys).
    exists b, (take n bs), (drop n bs ++ ys), (aconsume (S n) (Some (Chunk b bs) :: r)).
    split_and!; [done| |rewrite length_take; lia| |apply aconsume_chunk; lia].
    { cbn [app]. by rewrite app_assoc, take_drop. }
    destruct (decide (n ≤ length bs)).
    + assert (drop n bs ++ ys = drop (S n) ((b :: bs) ++ ys)) as -> by (cbn; by rewrite drop_app_le).
      apply rest_consume; [lia..|done].
    + unfold aconsume. cbn [drop]. by rewrite !drop_ge by lia.
  - by apply rest_fault in Hr.
  - left. exists r. split_and!; [done|done|]. unfold weight. cbn. lia.
Qed.

(** ** Reading a given string

    [areads m xs a]: on any source of [xs ++ ys] without faults, [m] ends,
    consumes exactly [xs] and answers [a]. *)

Definition areads {A} (m : am areader A) (xs : bytes) (a : A) : Prop :=
  ∀ r ys, rest r (xs ++ ys) → ∃ f0 r', (∀ f, f0 ≤ f → m f r = Some (Ok a, r')) ∧ rest r' ys.

Lemma pulls_ret {A} (a : A) : areads (aret a) [] a.
Proof. intros r ys Hr. by exists 0, r. Qed.

Lemma pulls_bind {A C} (m : am areader A) (f : A → am areader C) xs ys a c :
  areads m xs a → areads (f a) ys c → areads (abind m f) (xs ++ ys) c.
Proof.
  intros Hm Hf r zs Hr. rewrite <- app_assoc in Hr. destruct (Hm r _ Hr) as (f1 & r1 & E1 & Hr1).
  destruct (Hf r1 _ Hr1) as (f2 & r2 & E2 & Hr2). exists (f1 `max` f2), r2. split; [|done].
  intros fuel Hfuel. unfold abind. rewrite E1 by lia. apply E2. lia.
Qed.

Lemma pulls_bind_nil {A C} (m : am areader A) (f : A → am areader C) ys a c :
  areads m [] a → areads (f a) ys c → areads (abind m f) ys c.
Proof. apply pulls_bind. Qed.

Lemma pulls_bind_last {A C} (m : am areader A) (f : A → am areader C) xs a c :
  areads m xs a → areads (f a) [] c → areads (abind m f) xs c.
Proof. rewrite <- (app_nil_r xs) at 2. apply pulls_bind. Qed.

(** A loop that reads from what a poll answers ends if each turn does. *)
Lemma poll_ind (P : areader → bytes → Prop) :
  (∀ r xs, rest r xs → (∀ r' ys, weight r' < weight r → rest r' ys → P r' ys) → P r xs) → ∀ r xs, rest r xs → P r xs.
Proof.
  intros Hstep r xs Hr. remember (weight r) as w eqn:Ew. revert r xs Hr Ew.
  induction (lt_wf w) as [w _ IH]. intros r xs Hr ->. apply Hstep; [done|]. intros r' ys Hw Hr'. by eapply IH.
Qed.

(** Either of the two loops, on what is there. *)
Lemma read_loops r xs :
  rest r xs → ∀ n buf,
  if n <=? length xs then
    ∃ r', rest r' (drop n xs) ∧ ∃ f0, ∀ f, f0 ≤ f →
      read_exact_loop f n buf r = Some (Ok (buf ++ take n xs), r') ∧
      read_limited_loop f n buf r = Some (Ok (buf ++ take n xs), r')
  else
    ∃ f0, ∀ f, f0 ≤ f →
      read_exact_loop f n buf r = Some (Err UnexpectedEof, []) ∧
      read_limited_loop f n buf r = Some (Ok (buf ++ xs), []).
Proof.
  revert r xs. refine (poll_ind _ _). intros r xs Hr IH n buf. destruct (decide (n = 0)) as [->|Hn].
  { cbn. exists r. split; [done|]. exists 1. intros [|f] ?; [lia|]. cbn. by rewrite app_nil_r. }
  destruct (apoll_read_case n r xs ltac:(lia) Hr) as [(r1 & E & Hr1 & Hw)|[(-> & -> & E)|(b & bs & ys & r1 & E & -> & Hle & Hr1 & Hw)]].
  - specialize (IH r1 xs Hw Hr1 n buf). destruct (n <=? length xs).
    + destruct IH as (r' & Hr' & f0 & IH). exists r'. split; [done|]. exists (S f0). intros [|f] ?; [lia|].
      cbn. rewrite (proj2 (Nat.eqb_neq n 0)) by done. rewrite E. apply IH. lia.
    + destruct IH as (f0 & IH). exists (S f0). intros [|f] ?; [lia|].
      cbn. rewrite (proj2 (Nat.eqb_neq n 0)) by done. rewrite E. apply IH. lia.
  - rewrite (proj2 (Nat.leb_gt n _)) by (cbn; lia). exists 1. intros [|f] ?; [lia|].
    cbn [read_exact_loop read_limited_loop]. rewrite (proj2 (Nat.eqb_neq n 0)) by done. rewrite E. by rewrite app_nil_r.
  - specialize (IH r1 ys Hw Hr1 (n - S (length bs)) (buf ++ b :: bs)). rewrite length_app. cbn [length].
    assert ((n <=? S (length bs) + length ys) = (n - S (length bs) <=? length ys)) as -> by (apply eq_true_iff_eq; rewrite !Nat.leb_le; lia).
    assert (take n ((b :: bs) ++ ys) = (b :: bs) ++ take (n - S (length bs)) ys) as -> by (rewrite take_app_ge by (cbn; lia); done).
    assert (drop n ((b :: bs) ++ ys) = drop (n - S (length bs)) ys) as -> by (rewrite drop_app_ge by (cbn; lia); done).
    destruct (n - S (length bs) <=? length ys).
    + destruct IH as (r' & Hr' & f0 & IH). exists r'. split; [done|]. exists (S f0). intros [|f] ?; [lia|].
      cbn [read_exact_loop read_limited_loop]. rewrite (proj2 (Nat.eqb_neq n 0)) by done. rewrite E.
      rewrite (app_assoc buf). apply IH. lia.
    + destruct IH as (f0 & IH). exists (S f0). intros [|f] ?; [lia|].
      cbn [read_exact_loop read_limited_loop]. rewrite (proj2 (Nat.eqb_neq n 0)) by done. rewrite E.
      rewrite (app_assoc buf). apply IH. lia.
Qed.

(** [read_exact] on any source without faults. *)
Lemma aread_exact_spec n r xs :
  rest r xs → ∃ f0 r', if n <=? length xs
    then (∀ f, f0 ≤ f → aread_exact n f r = Some (Ok (take n xs), r')) ∧ rest r' (drop n xs)
    else ∀ f, f0 ≤ f → aread_exact n f r = Some (Err UnexpectedEof, r').
Proof.
  intros Hr. pose proof (read_loops r _ Hr n []) as H. destruct (n <=? length xs).
  - destruct H as (r' & Hr' & f0 & H). exists f0, r'. split; [|done]. intros f Hf. by apply H.
  - destruct H as (f0 & H). exists f0, []. intros f Hf. by apply H.
Qed.

Lemma read_exact_more f f' n buf r x : read_exact_loop f n buf r = Some x → f ≤ f' → read_exact_loop f' n buf r = Some x.
Proof.
  revert f' n buf r. induction f as [|f IH]; intros [|f'] n buf r; cbn; [done|done|lia|]. intros E Hf.
  destruct (n =? 0); [done|]. destruct (apoll_read n r) as [[[[|b bs]|e|]|] r']; [done| |done|done|]; apply (IH f'); try done; lia.
Qed.

Lemma areads_read_exact xs : areads (aread_exact (length xs)) xs xs.
Proof.
  intros r ys Hr. pose proof (read_loops r _ Hr (length xs) []) as H.
  rewrite (proj2 (Nat.leb_le _ _)), take_app_length, drop_app_length in H by (rewrite length_app; lia).
  destruct H as (r' & Hr' & f0 & H). exists f0, r'. split; [|done]. intros f Hf. by apply H.
Qed.

Lemma areads_read_limited xs : areads (aread_limited (length xs)) xs xs.
Proof.
  intros r ys Hr. pose proof (read_loops r _ Hr (length xs) []) as H.
  rewrite (proj2 (Nat.leb_le _ _)), take_app_length, drop_app_length in H by (rewrite length_app; lia).
  destruct H as (r' & Hr' & f0 & H). exists f0, r'. split; [|done]. intros f Hf. by apply H.
Qed.

Lemma areads_u64_le z : (0 ≤ z < 2 ^ 64)%Z → areads aread_u64_le (le_bytes 8 z) z.
Proof.
  intros Hz. unfold aread_u64_le. eapply pulls_bind_last.
  - rewrite <- (length_le_bytes 8 z) at 1. apply areads_read_exact.
  - rewrite le_val_le_bytes. rewrite Z.mod_small by done. apply pulls_ret.
Qed.

(** ** What is accepted

    [aonly m P]: whatever [m] answers on a source without faults, it consumed
    a string [ys] with [P a ys]. *)

Definition aonly {A} (m : am areader A) (P : A → bytes → Prop) : Prop :=
  ∀ r xs fuel a r', rest r xs → m fuel r = Some (Ok a, r') → ∃ ys zs, xs = ys ++ zs ∧ rest r' zs ∧ P a ys.

Lemma aonly_ret {A} (a : A) (P : A → bytes → Prop) : P a [] → aonly (aret a) P.
Proof. intros HP r xs fuel a' r' Hr [= <- <-]. by exists [], xs. Qed.

Lemma aonly_throw {A} e (P : A → bytes → Prop) : aonly (athrow e) P.
Proof. by intros r xs fuel a r' _ E. Qed.

Lemma aonly_panic {A} (P : A → bytes → Prop) : aonly apanic P.
Proof. by intros r xs fuel a r' _ E. Qed.

Lemma abind_Ok {S A C} (m : am S A) (f : A → am S C) fuel s c s'' :
  abind m f fuel s = Some (Ok c, s'') ↔ ∃ a s', m fuel s = Some (Ok a, s') ∧ f a fuel s' = Some (Ok c, s'').
Proof. unfold abind. destruct (m fuel s) as [[[a|e|] s']|]; naive_solver. Qed.

Lemma aonly_bind {A C} (m : am areader A) (f : A → am areader C) (P : A → bytes → Prop) (Q : C → bytes → Prop) :
  aonly m P → (∀ a xs, P a xs → aonly (f a) (λ c ys, Q c (xs ++ ys))) → aonly (abind m f) Q.
Proof.
  intros Hm Hf r xs fuel c r'' Hr (a & r' & E1 & E2)%abind_Ok. destruct (Hm _ _ _ _ _ Hr E1) as (ys & zs & -> & Hr' & HP).
  destruct (Hf a ys HP _ _ _ _ _ Hr' E2) as (ys' & zs' & -> & Hr'' & HQ). exists (ys ++ ys'), zs'. by rewrite app_assoc.
Qed.

Lemma aonly_impl {A} (m : am areader A) (P Q : A → bytes → Prop) : aonly m P → (∀ a xs, P a xs → Q a xs) → aonly m Q.
Proof. intros Hm H r xs fuel a r' Hr E. destruct (Hm _ _ _ _ _ Hr E) as (ys & zs & ? & ? & ?). eauto 10. Qed.

(** More fuel changes nothing. *)
Definition steady {S A} (m : am S A) : Prop := ∀ f f' s x, m f s = Some x → f ≤ f' → m f' s = Some x.

Create HintDb steady discriminated.

Lemma steady_ret {S A} (a : A) : steady (S := S) (aret a).
Proof. by intros f f' s x. Qed.
Lemma steady_throw {S A} e : steady (S := S) (A := A) (athrow e).
Proof. by intros f f' s x. Qed.
Lemma steady_panic {S A} : steady (S := S) (A := A) apanic.
Proof. by intros f f' s x. Qed.
Lemma steady_lift {S A} o : steady (S := S) (A := A) (alift o).
Proof. by intros f f' s x. Qed.
Lemma steady_bind {S A C} (m : am S A) (f : A → am S C) : steady m → (∀ a, steady (f a)) → steady (abind m f).
Proof.
  intros Hm Hf n n' s x E Hn. unfold abind in *. destruct (m n s) as [y|] eqn:Em; [|done].
  rewrite (Hm _ _ _ _ Em Hn). destruct y as [[a|e|] s']; [|done..]. by eapply Hf.
Qed.
Lemma steady_await {S A} (p : poll S A) : steady (await p).
Proof.
  intros f. induction f as [|f IH]; intros [|f'] s x E Hf; [done|done|lia|]. unfold await in *. cbn in *.
  destruct (p s) as [[o|] s']; [done|]. apply IH; [done|lia].
Qed.
Lemma steady_read_exact n : steady (aread_exact n).
Proof. intros f f' s x. apply read_exact_more. Qed.
Lemma steady_read_limited n : steady (aread_limited n).
Proof.
  intros f. unfold aread_limited. generalize (@nil byte). revert n.
  induction f as [|f IH]; intros n buf [|f'] s x E Hf; [done|done|lia|]. cbn in *.
  destruct (n =? 0); [done|]. destruct (apoll_read n s) as [[[[|b bs]|e|]|] r']; [done| |done|done|]; (eapply IH; [done|lia]).
Qed.

#[export] Hint Resolve steady_ret steady_throw steady_panic steady_lift steady_bind steady_await steady_read_exact
  steady_read_limited : steady.

Ltac steady := intros; repeat first
  [ progress eauto with steady nocore | apply steady_bind; [|intros] | case_match ].

Lemma steady_u64_le : steady aread_u64_le.
Proof. unfold aread_u64_le. steady. Qed.
#[export] Hint Resolve steady_u64_le : steady.

(** What a function ends with is all it can answer. *)
Lemma aonly_ends {A} (m : am areader A) (P : A → bytes → Prop) :
  steady m →
  (∀ r xs, rest r xs → ∃ f0 o r', (∀ f, f0 ≤ f → m f r = Some (o, r')) ∧
     ∀ a, o = Ok a → ∃ ys zs, xs = ys ++ zs ∧ rest r' zs ∧ P a ys) →
  aonly m P.
Proof.
  intros Hm H r xs fuel a r' Hr E. destruct (H r xs Hr) as (f0 & o & r0 & Hrun & Ho).
  specialize (Hrun (fuel `max` f0) ltac:(lia)). rewrite (Hm _ _ _ _ E) in Hrun by lia. simplify_eq. eauto.
Qed.

Lemma aonly_read_exact n : aonly (aread_exact n) (λ a ys, ys = a ∧ length a = n).
Proof.
  apply aonly_ends; [apply steady_read_exact|]. intros r xs Hr. destruct (aread_exact_spec n r xs Hr) as (f0 & r' & H).
  destruct (Nat.leb_spec n (length xs)).
  - destruct H as [H Hr']. exists f0, (Ok (take n xs)), r'. split; [done|]. intros a [= <-].
    exists (take n xs), (drop n xs). rewrite take_drop, length_take_le by done. eauto.
  - exists f0, (Err UnexpectedEof), r'. by split.
Qed.

Lemma aonly_read_limited n : aonly (aread_limited n) (λ a ys, ys = a).
Proof.
  apply aonly_ends; [apply steady_read_limited|]. intros r xs Hr. pose proof (read_loops r xs Hr n []) as H.
  destruct (n <=? length xs).
  - destruct H as (r' & Hr' & f0 & H). exists f0, (Ok (take n xs)), r'. split; [intros; by apply H|]. intros a [= <-].
    exists (take n xs), (drop n xs). rewrite take_drop. eauto.
  - destruct H as (f0 & H). exists f0, (Ok xs), []. split; [intros; by apply H|]. intros a [= <-].
    exists xs, []. rewrite app_nil_r. split_and!; [done|by repeat constructor|done].
Qed.

Lemma aonly_u64_le : aonly aread_u64_le (λ z ys, (0 ≤ z < 2 ^ 64)%Z ∧ ys = le_bytes 8 z).
Proof.
  unfold aread_u64_le. eapply aonly_bind; [apply aonly_read_exact|]. intros buf ys [-> Hl]. apply aonly_ret.
  rewrite app_nil_r. split; [|by rewrite <- Hl, le_bytes_le_val].
  pose proof (le_val_range buf) as H. by rewrite Hl in H.
Qed.
