(* ===== verification/WireBytes.v ===== *)
(** * [nix-compat/src/wire/bytes]: packets of bytes

    A packet is a length, the bytes, and zeroes up to a multiple of eight. It
    is read and written in one piece, or read through a state machine that is
    driven by polls. *)

From stdpp Require Import strings.
From S2P Require Import Prelude Io NarWire NarWriter AsyncIo.
#[local] Open Scope nat_scope.

(** ** [mod.rs] *)

Definition LEN_SIZE : nat := 8.
Definition EMPTY_BYTES : bytes := zeroes 8.

(** [padding_len]; [len] and the results are [u64]s. *)
Definition padding_len (len : Z) : Z :=
  let aligned := Z.land ((len + 7) mod 2 ^ 64) (Z.lnot 7) in
  (((aligned - len) mod 2 ^ 64) mod 256)%Z.

(** A length in the allowed range. *)
Definition read_len (lo hi : Z) : am areader nat :=
  await! len := aread_u64_le in
  if (lo <=? len)%Z && (len <=? hi)%Z then aret (Z.to_nat len) else athrow InvalidData.

Definition all_zero (bs : bytes) : bool := forallb (λ b, bool_decide (b = Byte.x00)) bs.

(** [read_bytes]; a sum beyond 2^64 panics with debug assertions, and without
    them at [split_at]. *)
Definition read_bytes (dbg : bool) (lo hi : Z) : am areader bytes :=
  await! len := read_len lo hi in
  await! padded_len := alift (u64_add dbg (padding_len (Z.of_nat len)) (Z.of_nat len)) in
  let padded_len := Z.to_nat padded_len in
  await! buf := aread_limited padded_len in
  if negb (length buf =? padded_len) then athrow UnexpectedEof else
  if length buf <? len then apanic else
  if negb (all_zero (drop len buf)) then athrow InvalidData else
  aret (take len buf).

(** [read_buf] until the buffer is full. Where the source has ended nothing is
    read, and the loop goes on. *)
Fixpoint fill_loop (fuel : nat) (n : nat) (buf : bytes) (r : areader) : option (outcome ErrorKind bytes * areader) :=
  match fuel with
  | O => None
  | S fuel =>
      if n =? 0 then Some (Ok buf, r) else
      match apoll_read n r with
      | (None, r) => fill_loop fuel n buf r
      | (Some (Ok bs), r) => fill_loop fuel (n - length bs) (buf ++ bs) r
      | (Some (Err e), r) => Some (Err e, r)
      | (Some Panic, r) => Some (Panic, r)
      end
  end.

(** [read_bytes_buf] into a buffer of [N] bytes *)
Definition read_bytes_buf (N : nat) (lo hi : Z) : am areader bytes :=
  if negb (N mod 8 =? 0) then apanic else
  if negb (hi <=? Z.of_nat N)%Z then apanic else
  await! len := read_len lo hi in
  let buf_len := round_up_8 len in
  if N <? buf_len then apanic else
  await! buf := (λ fuel r, fill_loop fuel buf_len [] r) in
  if negb (all_zero (drop len buf)) then athrow InvalidData else
  aret (take len buf).

Section Write.
Context {W : Type} `{!Write W}.

(** [write_bytes] *)
Definition write_bytes (b : bytes) : sm W unit :=
  let! _ := write (le_bytes 8 (Z.of_nat (length b))) in
  let! _ := write b in
  let padding_len := Z.to_nat (padding_len (Z.of_nat (length b))) in
  if negb (padding_len =? 0) then write (take padding_len EMPTY_BYTES) else sret tt.

End Write.

(** ** [reader/trailer.rs] *)

(** The trait [Tag]: the bytes that end the packet, of which the first eight
    are those of the padding. *)
Class PacketTag := PATTERN : bytes.

(** [Pad], and [PadPar] of [nar/wire/mod.rs] *)
Definition Pad : PacketTag := zeroes 8.
Definition PadPar : PacketTag := zeroes 8 ++ TOK_PAR.

Section Reader.
Context {tag : PacketTag}.

Record ReadTrailer := mkReadTrailer { data_len : nat; filled : nat; buf : bytes }.

(** [read_trailer] *)
Definition read_trailer (data_len : nat) : outcome ErrorKind ReadTrailer :=
  if negb (data_len <=? 8) then Panic else
  if negb (length PATTERN mod 8 =? 0) then Panic else
  Ok (mkReadTrailer data_len (if data_len =? 0 then 8 else 0) (zeroes (length PATTERN))).

Definition slice (a b : nat) (bs : bytes) : bytes := drop a (take b bs).

(** [ReadTrailer::poll]: a [Trailer] is the bytes it derefs to. There are at
    most as many turns as bytes to read. *)
Fixpoint poll_trailer (turns : nat) : poll (ReadTrailer * areader) bytes := λ '(t, r),
  match turns with
  | O => (Some Panic, (t, r))
  | S turns =>
      if (data_len t <=? filled t) && negb (bool_decide (slice (data_len t) (filled t) (buf t) = slice (data_len t) (filled t) PATTERN))
      then (Some (Err InvalidData), (t, r))
      else if filled t =? length PATTERN then (Some (Ok (take (data_len t) (take 8 (buf t)))), (t, r))
      else
        match apoll_read (length PATTERN - filled t) r with
        | (None, r) => (None, (t, r))
        | (Some (Err e), r) => (Some (Err e), (t, r))
        | (Some Panic, r) => (Some Panic, (t, r))
        | (Some (Ok []), r) => (Some (Err UnexpectedEof), (t, r))
        | (Some (Ok bs), r) =>
            poll_trailer turns (mkReadTrailer (data_len t) (filled t + length bs)
              (take (filled t) (buf t) ++ bs ++ drop (filled t + length bs) (buf t)), r)
        end
  end.

Definition trailer_turns : nat := S (length PATTERN).

(** ** [reader/mod.rs] *)

Inductive State :=
| Body (consumed user_len : Z)
| InTrailer (fut : ReadTrailer)
| ReleaseTrailer (consumed : nat) (data : bytes).

(** [split_user_len] *)
Definition split_user_len (user_len : Z) : Z * Z :=
  let n := (user_len - 1)%Z in
  (Z.land n (Z.lnot 7), (Z.land n 7 + 1)%Z).

(** The state a reader starts in. *)
Definition start (size : Z) : am areader State :=
  if (size =? 0)%Z then
    await! t := alift (read_trailer 0) in
    await! data := (λ fuel r,
      match await (poll_trailer trailer_turns) fuel (t, r) with
      | Some (o, (_, r)) => Some (o, r)
      | None => None
      end) in
    aret (ReleaseTrailer 0 data)
  else aret (Body 0 size).

(** [BytesReader::new_internal] *)
Definition new_internal (lo hi : Z) : am areader State :=
  await! size := aread_u64_le in
  if negb ((lo <=? size)%Z && (size <=? hi)%Z) then athrow InvalidData else start size.

(** [BytesReader::len] *)
Definition remaining_len (st : State) : Z :=
  match st with
  | Body consumed user_len => user_len - consumed
  | InTrailer fut => Z.of_nat (data_len fut)
  | ReleaseTrailer consumed data => Z.of_nat (length data) - Z.of_nat consumed
  end.

Definition is_empty (st : State) : bool := (remaining_len st =? 0)%Z.

(** [poll_read] once the trailer is there. *)
Definition release (n consumed : nat) (data : bytes) (r : areader) : option (outcome ErrorKind bytes) * (State * areader) :=
  let bs := take n (drop consumed data) in
  (Some (Ok bs), (ReleaseTrailer (consumed + length bs) data, r)).

(** The trailer is polled, and if it is there, so is its data. *)
Definition in_trailer {A} (t : ReadTrailer) (r : areader)
    (k : bytes → areader → option (outcome ErrorKind A) * (State * areader)) : option (outcome ErrorKind A) * (State * areader) :=
  match poll_trailer trailer_turns (t, r) with
  | (None, (t, r)) => (None, (InTrailer t, r))
  | (Some (Ok data), (_, r)) => k data r
  | (Some (Err e), (t, r)) => (Some (Err e), (InTrailer t, r))
  | (Some Panic, (t, r)) => (Some Panic, (InTrailer t, r))
  end.

(** The body is read: on to the trailer. *)
Definition to_trailer {A} (st : State) (tail_len : Z) (r : areader)
    (k : bytes → areader → option (outcome ErrorKind A) * (State * areader)) : option (outcome ErrorKind A) * (State * areader) :=
  match read_trailer (Z.to_nat tail_len) with
  | Ok t => in_trailer t r k
  | Err e => (Some (Err e), (st, r))
  | Panic => (Some Panic, (st, r))
  end.

(** [BytesReader::poll_read] into a buffer with room for [n] bytes *)
Definition poll_read (n : nat) : poll (State * areader) bytes := λ '(st, r),
  match st with
  | Body consumed user_len =>
      let '(body_len, tail_len) := split_user_len user_len in
      let remaining := (body_len - consumed)%Z in
      if (remaining =? 0)%Z then to_trailer st tail_len r (release n 0)
      else
        match apoll_read (Nat.min n (Z.to_nat remaining)) r with
        | (None, r) => (None, (st, r))
        | (Some (Err e), r) => (Some (Err e), (st, r))
        | (Some Panic, r) => (Some Panic, (st, r))
        | (Some (Ok bs), r) =>
            (Some (match bs with [] => Err UnexpectedEof | _ => Ok bs end),
             (Body (consumed + Z.of_nat (length bs)) user_len, r))
        end
  | InTrailer fut => in_trailer fut r (release n 0)
  | ReleaseTrailer consumed data => release n consumed data r
  end.

(** [BytesReader::poll_fill_buf] *)
Definition poll_fill_buf : poll (State * areader) bytes := λ '(st, r),
  let release data r := (Some (Ok data), (ReleaseTrailer 0 data, r)) in
  match st with
  | Body consumed user_len =>
      let '(body_len, tail_len) := split_user_len user_len in
      let remaining := (body_len - consumed)%Z in
      if (remaining =? 0)%Z then to_trailer st tail_len r release
      else
        match apoll_fill_buf r with
        | (None, r) => (None, (st, r))
        | (Some (Err e), r) => (Some (Err e), (st, r))
        | (Some Panic, r) => (Some Panic, (st, r))
        | (Some (Ok []), r) => (Some (Err UnexpectedEof), (st, r))
        | (Some (Ok b), r) => (Some (Ok (take (Z.to_nat remaining) b)), (st, r))
        end
  | InTrailer fut => in_trailer fut r release
  | ReleaseTrailer consumed data => (Some (Ok (drop consumed data)), (st, r))
  end.

(** [BytesReader::consume] *)
Definition consume_bytes (amt : nat) : State * areader → outcome ErrorKind (State * areader) := λ '(st, r),
  match st with
  | Body consumed user_len =>
      let '(body_len, _) := split_user_len user_len in
      if (consumed + Z.of_nat amt <=? body_len)%Z
      then Ok (Body (consumed + Z.of_nat amt) user_len, aconsume amt r) else Panic
  | InTrailer _ => Panic
  | ReleaseTrailer consumed data =>
      if consumed + amt <=? length data then Ok (ReleaseTrailer (consumed + amt) data, r) else Panic
  end.

(** [tokio::io::copy] to a [Vec<u8>], with a buffer of [cap] bytes: reads to the end. *)
Fixpoint copy_loop (cap : nat) (fuel : nat) (dst : bytes) (s : State * areader) : option (outcome ErrorKind bytes * (State * areader)) :=
  match fuel with
  | O => None
  | S fuel =>
      match poll_read cap s with
      | (None, s) => copy_loop cap fuel dst s
      | (Some (Ok []), s) => Some (Ok dst, s)
      | (Some (Ok bs), s) => copy_loop cap fuel (dst ++ bs) s
      | (Some (Err e), s) => Some (Err e, s)
      | (Some Panic, s) => Some (Panic, s)
      end
  end.

Definition read_all (cap : nat) (st : State) : am areader bytes := λ fuel r,
  match copy_loop cap fuel [] (st, r) with
  | Some (o, (_, r)) => Some (o, r)
  | None => None
  end.

End Reader.

(** ** Lengths *)

Lemma split_spec u :
  (0 < u)%Z → ((split_user_len u).1 = 8 * ((u - 1) / 8) ∧ (split_user_len u).2 = (u - 1) mod 8 + 1 ∧
    (split_user_len u).1 + (split_user_len u).2 = u ∧ 0 <= (split_user_len u).1 ∧ 1 <= (split_user_len u).2 <= 8)%Z.
Proof.
  intros Hu. unfold split_user_len. cbn [fst snd]. rewrite <- Z.ldiff_land. change 7%Z with (Z.ones 3) at 1 3 4.
  change 7%Z with (Z.ones 3). rewrite Z.ldiff_ones_r, Z.land_ones, Z.shiftr_div_pow2, Z.shiftl_mul_pow2 by lia.
  change (2 ^ 3)%Z with 8%Z. split_and!; liad.
Qed.

Lemma pad_len_tail (u : nat) : 0 < u → Z.to_nat (split_user_len (Z.of_nat u)).2 + pad_len u = 8.
Proof. intros Hu. destruct (split_spec (Z.of_nat u)) as (_ & E & _); [lia|]. rewrite E. unfold pad_len. liad. Qed.

(** ** What a packet reads as *)

Section Spec.
Context {tag : PacketTag}.

(** Of the bytes from the last block on. *)
Definition trailer_result (data_len : nat) (full : bytes) : outcome ErrorKind bytes :=
  let n := Nat.min (length PATTERN) (length full) in
  if bool_decide (slice data_len n full = slice data_len n PATTERN) then
    if length full <? length PATTERN then Err UnexpectedEof else Ok (take data_len full)
  else Err InvalidData.

(** What is left of the packet, and what comes after it, if [xs] is to come. *)
Definition result (st : State) (xs : bytes) : outcome ErrorKind bytes :=
  match st with
  | Body consumed user_len =>
      let need := Z.to_nat ((split_user_len user_len).1 - consumed) in
      if length xs <? need then Err UnexpectedEof else
      let? tl := trailer_result (Z.to_nat (split_user_len user_len).2) (drop need xs) in
      Ok (take need xs ++ tl)
  | InTrailer t => trailer_result (data_len t) (take (filled t) (buf t) ++ xs)
  | ReleaseTrailer consumed data => Ok (drop consumed data)
  end.

Definition after (st : State) (xs : bytes) : bytes :=
  match st with
  | Body consumed user_len => drop (Z.to_nat ((split_user_len user_len).1 - consumed) + length PATTERN) xs
  | InTrailer t => drop (length PATTERN - filled t) xs
  | ReleaseTrailer _ _ => xs
  end.

(** The pattern is that of some padding and a suffix. *)
Context (suffix : bytes) (Hpattern : PATTERN = zeroes 8 ++ suffix) (Hsuffix : length suffix mod 8 = 0).

Definition trailer_ok (t : ReadTrailer) : Prop :=
  data_len t ≤ 8 ∧ filled t ≤ length PATTERN ∧ length (buf t) = length PATTERN.

Definition state_ok (st : State) : Prop :=
  match st with
  | Body consumed user_len => (0 < user_len < 2 ^ 64 ∧ 0 ≤ consumed ≤ (split_user_len user_len).1)%Z
  | InTrailer t => trailer_ok t
  | ReleaseTrailer consumed data => consumed ≤ length data ≤ 8
  end.

Lemma slice_take a n m bs : n ≤ m → slice a n (take m bs) = slice a n bs.
Proof. intros. unfold slice. by rewrite take_take, Nat.min_l. Qed.

Lemma slice_shorter a n m xs ys : n ≤ m → slice a m xs = slice a m ys → slice a n xs = slice a n ys.
Proof.
  unfold slice. intros Hle E. destruct (decide (a ≤ n)); [|by rewrite !drop_ge by (rewrite length_take; lia)].
  apply (f_equal (take (n - a))) in E. rewrite !take_drop_commute, !take_take in E. by replace (Nat.min (a + (n - a)) m) with n in E by lia.
Qed.

Lemma length_PATTERN : 8 ≤ length PATTERN.
Proof. rewrite Hpattern, length_app, length_zeroes. lia. Qed.

Lemma poll_trailer_spec turns t r xs :
  trailer_ok t → rest r xs → length PATTERN - filled t < turns →
  let full := take (filled t) (buf t) ++ xs in
  match poll_trailer turns (t, r) with
  | (None, (t', r')) => trailer_ok t' ∧ data_len t' = data_len t ∧ filled t ≤ filled t' ∧ weight r' < weight r ∧
      ∃ ys, rest r' ys ∧ take (filled t') (buf t') ++ ys = full
  | (Some (Ok data), (_, r')) => trailer_result (data_len t) full = Ok data ∧
      rest r' (drop (length PATTERN - filled t) xs) ∧ weight r' ≤ weight r ∧ length data = data_len t
  | (Some (Err e), _) => trailer_result (data_len t) full = Err e
  | (Some Panic, _) => False
  end.
Proof.
  pose proof length_PATTERN as HP. revert t r xs. induction turns as [|turns IH]; intros t r xs (Hdl & Hfl & Hbuf) Hr Ht; [lia|].
  cbv zeta. set (full := take (filled t) (buf t) ++ xs). cbn [poll_trailer].
  assert (length (take (filled t) (buf t)) = filled t) as Hgot by (rewrite length_take; lia).
  assert (slice (data_len t) (filled t) (buf t) = slice (data_len t) (filled t) full) as ->.
  { unfold slice, full. rewrite take_app_le by lia. by rewrite take_take, Nat.min_l. }
  assert (length full = filled t + length xs) as Hfull by (unfold full; rewrite length_app; lia).
  destruct (_ && _) eqn:Echeck.
  { apply andb_prop in Echeck as [_ Hne]. apply negb_true_iff, bool_decide_eq_false in Hne.
    unfold trailer_result. rewrite bool_decide_eq_false_2; [done|]. intros E. apply Hne.
    eapply slice_shorter; [|exact E]. lia. }
  assert (slice (data_len t) (filled t) full = slice (data_len t) (filled t) PATTERN) as Hsl.
  { apply andb_false_iff in Echeck as [Hlt|He].
    - apply Nat.leb_gt in Hlt. unfold slice. by rewrite !drop_ge by (rewrite length_take; lia).
    - by apply negb_false_iff, bool_decide_eq_true in He. }
  destruct (Nat.eqb_spec (filled t) (length PATTERN)) as [Efl|Hfl'].
  { unfold trailer_result. rewrite Nat.min_l by lia. rewrite <- Efl, bool_decide_eq_true_2 by done.
    rewrite (proj2 (Nat.ltb_ge _ _)) by lia. rewrite Nat.sub_diag. split_and!; [|done|lia|].
    - unfold full. rewrite take_app_le, !take_take by lia. by replace (Nat.min (data_len t) (filled t)) with (Nat.min (data_len t) 8) by lia.
    - rewrite !length_take. lia. }
  destruct (apoll_read_case (length PATTERN - filled t) r xs ltac:(lia) Hr) as [(r1 & -> & Hr1 & Hw)|[(-> & -> & ->)|(b & bs & ys & r1 & -> & -> & Hle & Hr1 & Hw)]].
  - split_and!; [done..|lia|lia|]. by exists xs.
  - cbn [length] in Hfull. rewrite Nat.add_0_r in Hfull. unfold trailer_result. rewrite Nat.min_r by lia.
    rewrite Hfull, bool_decide_eq_true_2 by done. by rewrite (proj2 (Nat.ltb_lt _ _)) by lia.
  - set (t1 := mkReadTrailer (data_len t) (filled t + length (b :: bs)) (take (filled t) (buf t) ++ (b :: bs) ++ drop (filled t + length (b :: bs)) (buf t))).
    assert (trailer_ok t1) as Ht1.
    { split_and!; cbn [data_len filled buf t1]; [done|cbn; lia|]. rewrite !length_app, length_drop, Hgot. cbn. lia. }
    assert (take (filled t1) (buf t1) ++ ys = full) as Efull.
    { unfold full. cbn [filled buf t1]. rewrite app_assoc, take_app_length' by (rewrite length_app, Hgot; done). by rewrite <- app_assoc. }
    specialize (IH t1 r1 ys Ht1 Hr1 ltac:(cbn; lia)). cbv zeta in IH. rewrite Efull in IH.
    destruct (poll_trailer turns (t1, r1)) as [[[data|e|]|] [t2 r2]]; [|done|done|].
    + destruct IH as (E & Hr2 & Hw2 & Hlen). split_and!; [done| |lia|done].
      replace (drop (length PATTERN - filled t) ((b :: bs) ++ ys)) with (drop (length PATTERN - filled t1) ys); [done|].
      cbn [filled t1]. rewrite drop_app_ge by (cbn; lia). f_equal. cbn. lia.
    + destruct IH as (? & ? & ? & ? & IH). split_and!; [done..|cbn in *; lia|lia|done].
Qed.

(** What is released of the trailer. *)
Definition left_over (st : State) : nat :=
  match st with ReleaseTrailer consumed data => length data - consumed | _ => 9 end.

Definition measure (st : State) (r : areader) : nat := weight r + left_over st.

(** One poll that is about to wait, hand out bytes, end, or fail, in state [st]
    with [xs] to come. *)
Definition poll_ok (st : State) (r : areader) (xs : bytes) (o : option (outcome ErrorKind bytes) * (State * areader)) : Prop :=
  match o with
  | (None, (st', r')) => state_ok st' ∧ measure st' r' < measure st r ∧
      ∃ ys, rest r' ys ∧ result st' ys = result st xs ∧ after st' ys = after st xs
  | (Some (Ok []), (st', r')) => result st xs = Ok [] ∧ rest r' (after st xs)
  | (Some (Ok bs), (st', r')) => state_ok st' ∧ measure st' r' < measure st r ∧
      ∃ ys, rest r' ys ∧ result st xs = omap_ok (app bs) (result st' ys) ∧ after st' ys = after st xs
  | (Some (Err e), _) => result st xs = Err e
  | (Some Panic, _) => False
  end.

Lemma release_ok n consumed data st r r' xs :
  0 < n → consumed ≤ length data ≤ 8 → rest r' (after st xs) →
  result st xs = Ok (drop consumed data) → weight r' + (length data - consumed) ≤ measure st r →
  poll_ok st r xs (release n consumed data r').
Proof.
  intros Hn Hc Hr Hres Hm. unfold release, poll_ok. destruct (take n (drop consumed data)) as [|b bs] eqn:E.
  - assert (drop consumed data = []) as Ed by (destruct (drop consumed data), n; [done|done|lia|discriminate E]).
    by rewrite Hres, Ed.
  - pose proof (f_equal length E) as Hl. rewrite length_take, length_drop in Hl. cbn [length] in Hl.
    split_and!; [cbn; lia|unfold measure in *; cbn; lia|]. exists (after st xs). split_and!; [done| |done].
    cbn [result omap_ok]. rewrite Hres, <- E, <- drop_drop, length_take. f_equal.
    destruct (decide (n ≤ length (drop consumed data))).
    + rewrite Nat.min_l by done. by rewrite take_drop.
    + rewrite Nat.min_r, take_ge, (drop_ge (drop consumed data)) by lia. by rewrite app_nil_r.
Qed.

Lemma in_trailer_ok n t r xs :
  0 < n → trailer_ok t → rest r xs → poll_ok (InTrailer t) r xs (in_trailer t r (release n 0)).
Proof.
  intros Hn Ht Hr. unfold in_trailer. pose proof (poll_trailer_spec trailer_turns t r xs Ht Hr) as H.
  cbv zeta in H. destruct Ht as (Hdl & Hfl & Hbuf). specialize (H ltac:(unfold trailer_turns; lia)).
  destruct (poll_trailer trailer_turns (t, r)) as [[[data|e|]|] [t' r']]; [| |done|].
  - destruct H as (E & Hr' & Hw & Hlen).
    apply release_ok; [done|lia|done|done|unfold measure; cbn; lia].
  - done.
  - destruct H as (Ht' & Edl & Hle & Hw & ys & Hys & Efull). split_and!; [done|unfold measure; cbn; lia|].
    exists ys. split_and!; [done|cbn [result]; by rewrite Edl, Efull|]. cbn [after].
    destruct Ht' as (_ & Hfl' & Hbuf').
    transitivity (drop (length PATTERN) (take (filled t') (buf t') ++ ys)); [|rewrite Efull];
      rewrite drop_app_ge by (rewrite length_take; lia); f_equal; rewrite length_take; lia.
Qed.

Lemma poll_read_ok n st r xs :
  0 < n → state_ok st → rest r xs → poll_ok st r xs (poll_read n (st, r)).
Proof.
  intros Hn Hst Hr. destruct st as [c u|t|k data]; cbn [poll_read].
  - destruct Hst as [Hu Hc]. pose proof (split_spec u ltac:(lia)) as (Eb & Et & Esum & Hb & Ht).
    destruct (split_user_len u) as [body tail] eqn:Esplit. cbn [fst snd] in *.
    destruct (Z.eqb_spec (body - c) 0) as [E0|E0].
    + assert (c = body) as -> by lia. unfold to_trailer, read_trailer.
      rewrite (proj2 (Nat.leb_le _ _)) by lia. cbn [negb].
      assert (length PATTERN mod 8 = 0) as Hmod.
      { rewrite Hpattern, length_app, length_zeroes, <- Nat.Div0.add_mod_idemp_r, Hsuffix. done. }
      rewrite (proj2 (Nat.eqb_eq _ _) Hmod). cbn [negb].
      rewrite (proj2 (Nat.eqb_neq _ 0)) by lia. set (t := mkReadTrailer _ _ _).
      assert (trailer_ok t) as Htok by (split_and!; cbn; [lia|lia|apply length_zeroes]).
      pose proof (in_trailer_ok n t r xs Hn Htok Hr) as Hok.
      assert (result (Body body u) xs = result (InTrailer t) xs) as Eres.
      { cbn [result]. rewrite Esplit. cbn [fst snd t filled buf data_len take app].
        rewrite Z.sub_diag. change (Z.to_nat 0) with 0. cbn [Nat.ltb Nat.leb]. rewrite drop_0, !take_0. cbn [app].
        by destruct (trailer_result (Z.to_nat tail) xs). }
      assert (after (Body body u) xs = after (InTrailer t) xs) as Eaft.
      { cbn [after]. rewrite Esplit. cbn [fst snd t filled]. rewrite Z.sub_diag. cbn. f_equal. lia. }
      unfold poll_ok in *. rewrite Eres, Eaft. exact Hok.
    + assert (0 < Z.to_nat (body - c)) as Hneed by lia.
      assert (state_ok (Body c u)) as Hst0 by (cbn [state_ok]; rewrite Esplit; cbn [fst]; lia).
      destruct (apoll_read_case (Nat.min n (Z.to_nat (body - c))) r xs ltac:(lia) Hr)
        as [(r1 & -> & Hr1 & Hw)|[(-> & -> & ->)|(b & bs & ys & r1 & -> & -> & Hle & Hr1 & Hw)]]; cbn [poll_ok].
      * split_and!; [done|unfold measure; cbn; lia|]. by exists xs.
      * cbn [result]. rewrite Esplit. cbn [fst length]. by rewrite (proj2 (Nat.ltb_lt 0 _)).
      * set (k := S (length bs)) in *. change (length (b :: bs)) with k.
        assert (Z.to_nat (body - c) = k + Z.to_nat (body - (c + Z.of_nat k))) as Eneed by lia.
        split_and!; [cbn [state_ok]; rewrite Esplit; cbn [fst]; lia|unfold measure; cbn; lia|]. exists ys. split_and!; [done| |].
        -- cbn [result]. rewrite Esplit. cbn [fst snd]. rewrite Eneed.
           set (m := Z.to_nat (body - (c + Z.of_nat k))). rewrite length_app. change (length (b :: bs)) with k.
           assert ((k + length ys <? k + m) = (length ys <? m)) as -> by (apply eq_true_iff_eq; rewrite !Nat.ltb_lt; lia).
           destruct (length ys <? m); [done|]. rewrite drop_app_add', take_app_add' by done.
           destruct (trailer_result (Z.to_nat tail) (drop m ys)); cbn; [|done..]. by rewrite <- app_assoc.
        -- cbn [after]. rewrite Esplit. cbn [fst snd]. rewrite Eneed. by rewrite <- Nat.add_assoc, drop_app_add' by done.
  - by apply in_trailer_ok.
  - apply release_ok; [done|done|done|done|unfold measure; cbn; lia].
Qed.

(** [copy] reads what the packet has, as its bytes are read one by one or in
    large pieces, and whenever the source has to be waited for. *)
Lemma copy_loop_spec cap st r xs dst :
  0 < cap → state_ok st → rest r xs →
  ∃ f0 st' r', (∀ f, f0 ≤ f → copy_loop cap f dst (st, r) = Some (omap_ok (app dst) (result st xs), (st', r'))) ∧
    (is_ok (result st xs) = true → rest r' (after st xs)).
Proof.
  intros Hcap. remember (measure st r) as w eqn:Ew. revert st r xs dst Ew. induction (lt_wf w) as [w _ IH].
  intros st r xs dst -> Hst Hr. pose proof (poll_read_ok cap st r xs Hcap Hst Hr) as Hp. unfold poll_ok in Hp.
  destruct (poll_read cap (st, r)) as [[[[|b bs]|e|]|] [st1 r1]] eqn:Ep; [| | |done|].
  - destruct Hp as [Eres Hr1]. exists 1, st1, r1. split; [|done]. intros [|f] ?; [lia|]. cbn [copy_loop].
    rewrite Ep, Eres. cbn. by rewrite app_nil_r.
  - destruct Hp as (Hst1 & Hm & ys & Hr1 & Eres & Eaft).
    destruct (IH _ Hm st1 r1 ys (dst ++ b :: bs) eq_refl Hst1 Hr1) as (f0 & st' & r' & Hrun & Hok).
    exists (S f0), st', r'. split.
    + intros [|f] ?; [lia|]. cbn [copy_loop]. rewrite Ep, Hrun, Eres by lia. do 2 f_equal.
      destruct (result st1 ys); cbn; [|done..]. by rewrite <- app_assoc.
    + rewrite Eres, <- Eaft. intros H. apply Hok. by destruct (result st1 ys).
  - exists 1, st1, r1. rewrite Hp. split; [|done]. intros [|f] ?; [lia|]. cbn [copy_loop]. by rewrite Ep.
  - destruct Hp as (Hst1 & Hm & ys & Hr1 & Eres & Eaft).
    destruct (IH _ Hm st1 r1 ys dst eq_refl Hst1 Hr1) as (f0 & st' & r' & Hrun & Hok).
    exists (S f0), st', r'. rewrite <- Eres, <- Eaft. split; [|done].
    intros [|f] ?; [lia|]. cbn [copy_loop]. rewrite Ep. apply Hrun. lia.
Qed.

(** *** Packets *)

Lemma drop_pattern n : n ≤ 8 → drop n PATTERN = zeroes (8 - n) ++ suffix.
Proof. intros Hn. rewrite Hpattern, drop_app_le by (rewrite length_zeroes; lia). unfold zeroes. by rewrite drop_replicate. Qed.

Lemma trailer_result_Ok n full data :
  n ≤ 8 → trailer_result n full = Ok data ↔
  length data = n ∧ ∃ ys, full = data ++ zeroes (8 - n) ++ suffix ++ ys.
Proof.
  intros Hn. pose proof length_PATTERN as HP. unfold trailer_result. split.
  - case_bool_decide as E; [|done]. destruct (Nat.ltb_spec (length full) (length PATTERN)); [done|]. intros [= <-].
    rewrite Nat.min_l in E by done. split; [rewrite length_take; lia|]. exists (drop (length PATTERN) full).
    rewrite (app_assoc (zeroes _)), <- drop_pattern by done. unfold slice in E. rewrite (take_ge PATTERN) in E by done. rewrite <- E.
    rewrite <- (take_drop (length PATTERN) full) at 1. rewrite app_assoc. f_equal.
    replace (take n full) with (take n (take (length PATTERN) full)) by (rewrite take_take; f_equal; lia). by rewrite take_drop.
  - intros (Hl & ys & ->). rewrite (app_assoc (zeroes _)), <- drop_pattern, <- Hl in * by done.
    assert (length PATTERN = length data + length (drop (length data) PATTERN)) as EP by (rewrite length_drop; lia).
    rewrite Nat.min_l by (rewrite !length_app; lia). rewrite (proj2 (Nat.ltb_ge _ _)) by (rewrite !length_app; lia).
    rewrite bool_decide_eq_true_2; [by rewrite take_app_length|]. unfold slice. rewrite (take_ge PATTERN) by done.
    rewrite EP, take_app_add', take_app_length', drop_app_length by done. done.
Qed.

Lemma result_body_Ok (u : Z) xs data :
  (0 < u < 2 ^ 64)%Z → result (Body 0 u) xs = Ok data ↔
  Z.of_nat (length data) = u ∧ ∃ ys, xs = data ++ zeroes (pad_len (length data)) ++ suffix ++ ys.
Proof.
  intros Hu. destruct (split_spec u) as (Eb & Et & Esum & Hb & Ht); [lia|].
  pose proof (pad_len_tail (Z.to_nat u) ltac:(lia)) as Hpad. rewrite Z2Nat.id in Hpad by lia.
  cbn [result]. rewrite Z.sub_0_r. destruct (split_user_len u) as [body tail]. cbn [fst snd] in *.
  set (nb := Z.to_nat body). split.
  - destruct (Nat.ltb_spec (length xs) nb) as [|Hl]; [done|].
    destruct (trailer_result (Z.to_nat tail) (drop nb xs)) as [tl| |] eqn:Etr; cbn [obind]; [|done..]. intros [= <-].
    apply trailer_result_Ok in Etr as (Htl & ys & Exs); [|lia].
    assert (length (take nb xs ++ tl) = Z.to_nat u) as Hlen by (rewrite length_app, length_take; lia).
    split; [lia|]. exists ys. rewrite Hlen, <- (take_drop nb xs) at 1. rewrite Exs, <- !app_assoc.
    by replace (8 - Z.to_nat tail) with (pad_len (Z.to_nat u)) by lia.
  - intros (Hlen & ys & ->). rewrite (proj2 (Nat.ltb_ge _ _)) by (rewrite !length_app; lia).
    rewrite drop_app_le, take_app_le by lia.
    rewrite (proj2 (trailer_result_Ok (Z.to_nat tail) _ (drop nb data) ltac:(lia))); [cbn; by rewrite take_drop|].
    split; [rewrite length_drop; lia|]. exists ys. do 3 f_equal. replace (length data) with (Z.to_nat u) by lia. lia.
Qed.

Lemma await_trailer t r xs :
  trailer_ok t → rest r xs →
  let full := take (filled t) (buf t) ++ xs in
  ∃ f0 s', (∀ f, f0 ≤ f → await (poll_trailer trailer_turns) f (t, r) = Some (trailer_result (data_len t) full, s')) ∧
    (is_ok (trailer_result (data_len t) full) = true → rest s'.2 (drop (length PATTERN - filled t) xs)) ∧
    trailer_result (data_len t) full ≠ Panic.
Proof.
  cbv zeta. remember (weight r) as w eqn:Ew. revert t r xs Ew. induction (lt_wf w) as [w _ IH].
  intros t r xs -> Ht Hr. pose proof (poll_trailer_spec trailer_turns t r xs Ht Hr) as H. cbv zeta in H.
  specialize (H ltac:(unfold trailer_turns; lia)). assert (filled t ≤ length PATTERN) as Hfl by apply Ht.
  destruct (poll_trailer trailer_turns (t, r)) as [[[data|e|]|] [t1 r1]] eqn:Ep; [| |done|].
  - destruct H as (E & Hr1 & _). exists 1, (t1, r1). rewrite E. split_and!; [|done|done]. intros [|f] ?; [lia|]. unfold await. cbn [await_]. by rewrite Ep.
  - exists 1, (t1, r1). rewrite H. split_and!; [|done|done]. intros [|f] ?; [lia|]. unfold await. cbn [await_]. by rewrite Ep.
  - destruct H as (Ht1 & Edl & Hle & Hw & ys & Hys & Efull).
    destruct (IH _ Hw t1 r1 ys eq_refl Ht1 Hys) as (f0 & s' & Hrun & Hok & Hnp). rewrite Edl, Efull in *.
    exists (S f0), s'. split_and!; [|intros Hr'; specialize (Hok Hr')|done].
    + intros [|f] ?; [lia|]. unfold await. cbn [await_]. rewrite Ep. apply Hrun. lia.
    + replace (drop (length PATTERN - filled t) xs) with (drop (length PATTERN - filled t1) ys); [done|].
      destruct Ht1 as (_ & Hfl1 & Hbuf1), Ht as (_ & _ & Hbuf).
      transitivity (drop (length PATTERN) (take (filled t1) (buf t1) ++ ys)); [|rewrite Efull];
        rewrite drop_app_ge by (rewrite length_take; lia); f_equal; rewrite length_take; lia.
Qed.

Lemma trailer_result_no_panic n full : trailer_result n full ≠ Panic.
Proof. unfold trailer_result. by repeat case_match. Qed.

(** What the bytes after a length are. *)
Definition packet_result (size : Z) (xs : bytes) : outcome ErrorKind bytes :=
  if (size =? 0)%Z then trailer_result 0 (zeroes 8 ++ xs) else result (Body 0 size) xs.

Lemma packet_result_no_panic size xs : packet_result size xs ≠ Panic.
Proof.
  unfold packet_result. case_match; [apply trailer_result_no_panic|]. cbn [result]. case_match; [done|].
  pose proof (trailer_result_no_panic (Z.to_nat (split_user_len size).2) (drop (Z.to_nat ((split_user_len size).1 - 0)) xs)).
  by destruct (trailer_result _ _).
Qed.

Lemma packet_result_Ok (size : Z) xs data :
  (0 ≤ size < 2 ^ 64)%Z → packet_result size xs = Ok data ↔
  Z.of_nat (length data) = size ∧ ∃ ys, xs = data ++ zeroes (pad_len (length data)) ++ suffix ++ ys.
Proof.
  intros Hsize. unfold packet_result. destruct (Z.eqb_spec size 0) as [->|Hs]; [|apply result_body_Ok; lia].
  rewrite trailer_result_Ok by lia. split; intros [Hl (ys & E)].
  - destruct data; [|done]. split; [done|]. exists ys. change (8 - 0) with 8 in E. cbn [app] in E.
    by apply app_inv_head in E.
  - destruct data; [|done]. split; [done|]. exists ys. by rewrite E.
Qed.

Lemma read_all_start cap size r xs :
  0 < cap → (0 ≤ size < 2 ^ 64)%Z → rest r xs →
  ∃ f0 r', (∀ f, f0 ≤ f → abind (start size) (read_all cap) f r = Some (packet_result size xs, r')) ∧
    ∀ data ys, packet_result size xs = Ok data → xs = data ++ zeroes (pad_len (length data)) ++ suffix ++ ys → rest r' ys.
Proof.
  intros Hcap Hsize Hr. unfold start, packet_result. destruct (Z.eqb_spec size 0) as [->|Hs].
  - set (t := mkReadTrailer 0 8 (zeroes (length PATTERN))). pose proof length_PATTERN as HP.
    assert (trailer_ok t) as Ht by (split_and!; cbn; [lia|done|apply length_zeroes]).
    destruct (await_trailer t r xs Ht Hr) as (f0 & [t' r'] & Hrun & Hok & Hnp).
    assert (take (filled t) (buf t) = zeroes 8) as Ez by (cbn [filled buf t]; unfold zeroes; by rewrite take_replicate, Nat.min_l).
    rewrite Ez in *. cbn [data_len filled t] in *. exists (S f0), r'. split.
    + intros f Hf. unfold abind, alift, read_trailer. cbn [negb]. rewrite (proj2 (Nat.leb_le 0 8)) by lia. cbn [negb].
      assert (length PATTERN mod 8 = 0) as Hmod by (rewrite Hpattern, length_app, length_zeroes, <- Nat.Div0.add_mod_idemp_r, Hsuffix; done).
      rewrite (proj2 (Nat.eqb_eq _ _) Hmod). cbn [negb Nat.eqb]. fold t. rewrite Hrun by lia.
      destruct (trailer_result 0 (zeroes 8 ++ xs)) as [data| |] eqn:E; [|done..]. destruct f as [|f]; [lia|].
      apply trailer_result_Ok in E as [Hl _]; [|lia]. destruct data; [|done].
      unfold aret, read_all. cbn [copy_loop poll_read]. unfold release. by rewrite drop_nil, take_nil.
    + intros data ys Hres ->. apply trailer_result_Ok in Hres as Hl; [|lia]. destruct Hl as [Hl _]. destruct data; [|done].
      rewrite Hres in Hok. specialize (Hok eq_refl). cbn [length app pad_len] in Hok.
      replace (drop (length PATTERN - 8) (zeroes (pad_len 0) ++ suffix ++ ys)) with ys in Hok; [done|].
      change (zeroes (pad_len 0)) with (@nil byte). cbn [app]. rewrite drop_app_length'; [done|].
      rewrite Hpattern, length_app, length_zeroes. lia.
  - destruct (copy_loop_spec cap (Body 0 size) r xs [] Hcap) as (f0 & st' & r' & Hcopy & Hok); [|done|].
    { cbn [state_ok]. pose proof (split_spec size). lia. }
    exists f0, r'. split.
    + intros f Hf. unfold abind, aret, read_all. rewrite Hcopy by done. by destruct (result (Body 0 size) xs).
    + intros data ys Hres ->. rewrite Hres in Hok. specialize (Hok eq_refl). apply result_body_Ok in Hres as [Hl _]; [|lia].
      replace (after (Body 0 size) _) with ys in Hok; [done|]. cbn [after]. destruct (split_spec size) as (_ & _ & Esum & Hb & Ht); [lia|].
      pose proof (pad_len_tail (length data) ltac:(lia)) as Hpad. rewrite Hl in Hpad.
      replace (data ++ zeroes (pad_len (length data)) ++ suffix ++ ys) with ((data ++ zeroes (pad_len (length data)) ++ suffix) ++ ys)
        by (by rewrite <- !app_assoc).
      rewrite drop_app_length'; [done|]. rewrite Hpattern, !length_app, !length_zeroes. lia.
Qed.

(** Reading a packet that is allowed to have [lo] to [hi] bytes. *)
Definition read_packet (lo hi : Z) (cap : nat) : am areader bytes :=
  await! st := new_internal lo hi in read_all cap st.

Lemma abind_Some {S A C} (m : am S A) (f : A → am S C) fuel s a s' :
  m fuel s = Some (Ok a, s') → abind m f fuel s = f a fuel s'.
Proof. intros E. unfold abind. by rewrite E. Qed.

Lemma str_packet data ys : str data ++ ys = le_bytes 8 (Z.of_nat (length data)) ++ data ++ zeroes (pad_len (length data)) ++ ys.
Proof. unfold str. by rewrite <- !app_assoc. Qed.

Lemma read_packet_spec lo hi cap r xs :
  0 < cap → rest r xs →
  ∃ f0 o r', (∀ f, f0 ≤ f → read_packet lo hi cap f r = Some (o, r')) ∧
    match o with
    | Ok data => (lo ≤ Z.of_nat (length data) ≤ hi)%Z ∧ (Z.of_nat (length data) < 2 ^ 64)%Z ∧
        ∃ ys, xs = str data ++ suffix ++ ys ∧ rest r' ys
    | Err e => ∀ data ys, (lo ≤ Z.of_nat (length data) ≤ hi)%Z → (Z.of_nat (length data) < 2 ^ 64)%Z →
        xs ≠ str data ++ suffix ++ ys
    | Panic => False
    end.
Proof.
  intros Hcap Hr. destruct (aread_exact_spec 8 r xs Hr) as (f1 & r1 & Hread). destruct (Nat.leb_spec 8 (length xs)) as [Hlen|Hlen].
  2: { exists f1, (Err UnexpectedEof), r1. split.
       - intros f Hf. unfold read_packet, new_internal, aread_u64_le, abind. by rewrite Hread.
       - intros data ys _ _ ->. rewrite str_packet, length_app, length_le_bytes in Hlen. lia. }
  destruct Hread as [Hread Hr1]. set (size := le_val (take 8 xs)) in *. set (xs1 := drop 8 xs) in *.
  assert (∀ f, f1 ≤ f → aread_u64_le f r = Some (Ok size, r1)) as Hu by (intros f Hf; unfold aread_u64_le, abind; by rewrite Hread).
  assert (∀ data ys, (Z.of_nat (length data) < 2 ^ 64)%Z → xs = str data ++ suffix ++ ys →
    size = Z.of_nat (length data) ∧ xs1 = data ++ zeroes (pad_len (length data)) ++ suffix ++ ys) as Hxs.
  { intros data ys Hd E. unfold size, xs1. rewrite E, str_packet, take_app_length', drop_app_length' by (by rewrite length_le_bytes).
    split; [|done]. rewrite le_val_le_bytes, Z.mod_small; [done|]. change (256 ^ Z.of_nat 8)%Z with (2 ^ 64)%Z. lia. }
  assert (xs = le_bytes 8 size ++ xs1) as Exs.
  { rewrite <- (take_drop 8 xs) at 1. f_equal. unfold size. symmetry.
    rewrite <- (le_bytes_le_val (take 8 xs)) at 2. by rewrite length_take_le. }
  assert (0 ≤ size < 2 ^ 64)%Z as Hsize.
  { pose proof (le_val_range (take 8 xs)) as Hsr. rewrite length_take_le in Hsr by done. exact Hsr. }
  destruct (negb ((lo <=? size)%Z && (size <=? hi)%Z)) eqn:Eallow.
  { exists f1, (Err InvalidData), r1. split.
    - intros f Hf. unfold read_packet, new_internal. unfold abind at 1. rewrite (abind_Some _ _ _ _ _ _ (Hu f Hf)), Eallow. done.
    - intros data ys Hd Hd' [-> _]%Hxs; [|done]. lia. }
  destruct (read_all_start cap size r1 xs1 Hcap Hsize Hr1) as (f2 & r' & Hrun & Hok).
  exists (f1 `max` f2), (packet_result size xs1), r'. split.
  { intros f Hf. rewrite <- (Hrun f) by lia. unfold read_packet, new_internal. unfold abind at 1.
    rewrite (abind_Some _ _ _ _ _ _ (Hu f ltac:(lia))), Eallow. done. }
  pose proof (packet_result_no_panic size xs1). destruct (packet_result size xs1) as [data|e|] eqn:Eres; [| |done].
  - pose proof (proj1 (packet_result_Ok size xs1 data Hsize) Eres) as (Hl & ys & E1). split; [lia|]. split; [lia|]. exists ys.
    split; [|by eapply Hok]. rewrite Exs, str_packet, E1, Hl. done.
  - intros data ys Hd Hd' Exs'. apply Hxs in Exs' as [Esz Exs1]; [|done].
    rewrite (proj2 (packet_result_Ok size xs1 data Hsize)) in Eres; [done|]. eauto.
Qed.

End Spec.

(** ** Packets in one piece *)

Lemma padding_len_pad (n : nat) : (Z.of_nat n < 2 ^ 64 - 7)%Z → padding_len (Z.of_nat n) = Z.of_nat (pad_len n).
Proof.
  intros Hn. unfold padding_len, pad_len. rewrite (Z.mod_small (Z.of_nat n + 7)) by lia.
  rewrite <- Z.ldiff_land. change 7%Z with (Z.ones 3) at 2. rewrite Z.ldiff_ones_r, Z.shiftr_div_pow2, Z.shiftl_mul_pow2 by lia.
  change (2 ^ 3)%Z with 8%Z. rewrite (Z.mod_small (_ - _)) by liad. rewrite Z.mod_small by liad. liad.
Qed.

Lemma all_zero_zeroes n : all_zero (zeroes n) = true.
Proof. induction n as [|n IH]; [done|]. cbn. by rewrite bool_decide_eq_true_2. Qed.

Lemma all_zero_eq bs : all_zero bs = true → bs = zeroes (length bs).
Proof.
  induction bs as [|b bs IH]; [done|]. cbn. intros [->%bool_decide_eq_true H]%andb_prop. unfold zeroes in *. cbn. f_equal. by apply IH.
Qed.

Lemma areads_read_len lo hi (x : bytes) :
  (lo ≤ Z.of_nat (length x) ≤ hi)%Z → (Z.of_nat (length x) < 2 ^ 64)%Z →
  areads (read_len lo hi) (le_bytes 8 (Z.of_nat (length x))) (length x).
Proof.
  intros Hx Hx'. unfold read_len. eapply pulls_bind_last; [apply areads_u64_le; lia|].
  assert (((lo <=? Z.of_nat (length x))%Z && (Z.of_nat (length x) <=? hi)%Z) = true) as -> by lia.
  rewrite Nat2Z.id. apply pulls_ret.
Qed.

Lemma areads_read_bytes dbg lo hi x :
  (lo ≤ Z.of_nat (length x) ≤ hi)%Z → (Z.of_nat (length x) < 2 ^ 63)%Z → areads (read_bytes dbg lo hi) (str x) x.
Proof.
  intros Hx Hx'. unfold read_bytes, str. eapply pulls_bind; [apply areads_read_len; lia|].
  assert (pad_len (length x) < 8) as Hp by (unfold pad_len; apply Nat.mod_upper_bound; lia).
  rewrite padding_len_pad by lia. unfold u64_add. rewrite (proj2 (Z.leb_le _ u64_MAX)) by (unfold u64_MAX; lia).
  eapply (pulls_bind_nil (alift _)); [intros r ys Hr; by exists 0, r|].
  rewrite <- Nat2Z.inj_add, Nat2Z.id.
  assert (pad_len (length x) + length x = length (x ++ zeroes (pad_len (length x)))) as ->.
  { rewrite length_app, length_zeroes. lia. }
  eapply pulls_bind_last; [apply areads_read_limited|]. rewrite Nat.eqb_refl. cbn [negb].
  rewrite (proj2 (Nat.ltb_ge _ _)) by (rewrite length_app; lia).
  rewrite drop_app_length, all_zero_zeroes, take_app_length. apply pulls_ret.
Qed.

(** The loop of [read_bytes_buf], on what is there and where the source ends. *)
Lemma fill_loop_spec r xs :
  rest r xs → ∀ n buf,
  if n <=? length xs then
    ∃ f0 r', rest r' (drop n xs) ∧ ∀ f, f0 ≤ f → fill_loop f n buf r = Some (Ok (buf ++ take n xs), r')
  else ∀ f, fill_loop f n buf r = None.
Proof.
  revert r xs. refine (poll_ind _ _). intros r xs Hr IH n buf. destruct (decide (n = 0)) as [->|Hn].
  { cbn. exists 1, r. split; [done|]. intros [|f] ?; [lia|]. cbn. by rewrite app_nil_r. }
  destruct (apoll_read_case n r xs ltac:(lia) Hr) as [(r1 & E & Hr1 & Hw)|[(-> & -> & E)|(b & bs & ys & r1 & E & -> & Hle & Hr1 & Hw)]].
  - specialize (IH r1 xs Hw Hr1 n buf). destruct (n <=? length xs).
    + destruct IH as (f0 & r' & Hr' & IH). exists (S f0), r'. split; [done|]. intros [|f] ?; [lia|].
      cbn [fill_loop]. rewrite (proj2 (Nat.eqb_neq n 0)), E by done. apply IH. lia.
    + intros [|f]; [done|]. cbn [fill_loop]. rewrite (proj2 (Nat.eqb_neq n 0)), E by done. apply IH.
  - rewrite (proj2 (Nat.leb_gt n _)) by (cbn; lia). intros f. revert buf. induction f as [|f IHf]; intros buf; [done|].
    cbn [fill_loop]. rewrite (proj2 (Nat.eqb_neq n 0)), E by done. cbn [length]. rewrite Nat.sub_0_r. apply IHf.
  - specialize (IH r1 ys Hw Hr1 (n - S (length bs)) (buf ++ b :: bs)). rewrite length_app. cbn [length].
    assert ((n <=? S (length bs) + length ys) = (n - S (length bs) <=? length ys)) as -> by (apply eq_true_iff_eq; rewrite !Nat.leb_le; lia).
    assert (take n ((b :: bs) ++ ys) = (b :: bs) ++ take (n - S (length bs)) ys) as -> by (rewrite take_app_ge by (cbn; lia); done).
    assert (drop n ((b :: bs) ++ ys) = drop (n - S (length bs)) ys) as -> by (rewrite drop_app_ge by (cbn; lia); done).
    destruct (n - S (length bs) <=? length ys).
    + destruct IH as (f0 & r' & Hr' & IH). exists (S f0), r'. split; [done|]. intros [|f] ?; [lia|].
      cbn [fill_loop]. rewrite (proj2 (Nat.eqb_neq n 0)), E by done. rewrite (app_assoc buf). apply IH. lia.
    + intros [|f]; [done|]. cbn [fill_loop]. rewrite (proj2 (Nat.eqb_neq n 0)), E by done. apply IH.
Qed.

Lemma areads_read_bytes_buf N lo hi x :
  N mod 8 = 0 → (hi ≤ Z.of_nat N)%Z → (lo ≤ Z.of_nat (length x) ≤ hi)%Z → (Z.of_nat N < 2 ^ 63)%Z →
  areads (read_bytes_buf N lo hi) (str x) x.
Proof.
  intros HN HhiN Hx HN'. unfold read_bytes_buf, str. rewrite (proj2 (Nat.eqb_eq _ _) HN), (proj2 (Z.leb_le _ _) HhiN). cbn [negb].
  eapply pulls_bind; [apply areads_read_len; lia|]. rewrite round_up_8_pad.
  rewrite (proj2 (Nat.ltb_ge _ _)) by (unfold pad_len; liad).
  eapply (pulls_bind_last (λ fuel r, fill_loop fuel _ [] r)).
  - intros r ys Hr. pose proof (fill_loop_spec r _ Hr (length x + pad_len (length x)) []) as H.
    assert (length (x ++ zeroes (pad_len (length x))) = length x + pad_len (length x)) as Hl by (by rewrite length_app, length_zeroes).
    rewrite (proj2 (Nat.leb_le _ _)) in H by (rewrite length_app; lia). destruct H as (f0 & r' & Hr' & Hrun).
    rewrite <- Hl, drop_app_length in Hr'. exists f0, r'. split; [|exact Hr']. intros f Hf. rewrite Hrun by done.
    by rewrite <- Hl, take_app_length.
  - cbn [app]. rewrite drop_app_length, all_zero_zeroes, take_app_length. apply pulls_ret.
Qed.

(** *** What is accepted *)

Lemma steady_fill_loop n : steady (λ fuel r, fill_loop fuel n [] r).
Proof.
  intros f. generalize (@nil byte). revert n. induction f as [|f IH]; intros n buf [|f'] s x E Hf; [done|done|lia|]. cbn in *.
  destruct (n =? 0); [done|]. destruct (apoll_read n s) as [[[bs|e|]|] r']; [|done|done|]; (eapply IH; [done|lia]).
Qed.

Lemma aonly_fill_loop n : aonly (λ fuel r, fill_loop fuel n [] r) (λ a ys, ys = a ∧ length a = n).
Proof.
  intros r xs fuel a r' Hr E. pose proof (fill_loop_spec r xs Hr n []) as H. destruct (Nat.leb_spec n (length xs)); [|by rewrite H in E].
  destruct H as (f0 & r0 & Hr0 & H). specialize (H (fuel `max` f0) ltac:(lia)).
  pose proof (steady_fill_loop n _ (fuel `max` f0) _ _ E ltac:(lia)) as E'. cbn in E'. rewrite H in E'. simplify_eq.
  exists (take n xs), (drop n xs). rewrite take_drop, length_take_le by done. eauto.
Qed.

Lemma aonly_read_len lo hi :
  aonly (read_len lo hi) (λ len ys, (lo ≤ Z.of_nat len ≤ hi)%Z ∧ (Z.of_nat len < 2 ^ 64)%Z ∧ ys = le_bytes 8 (Z.of_nat len)).
Proof.
  unfold read_len. eapply aonly_bind; [apply aonly_u64_le|]. intros len ys [Hl ->].
  destruct (_ && _) eqn:E; [|apply aonly_throw]. apply aonly_ret. rewrite Z2Nat.id, app_nil_r by lia. split_and!; [lia..|done].
Qed.

(** A buffer that is some data and zeroes. *)
Lemma padded_buf (len : nat) buf :
  length buf = len + pad_len len → all_zero (drop len buf) = true →
  le_bytes 8 (Z.of_nat len) ++ buf = str (take len buf) ∧ length (take len buf) = len.
Proof.
  intros Hl Hz%all_zero_eq. assert (length (take len buf) = len) as Ht by (rewrite length_take_le; lia). split; [|done].
  unfold str. rewrite Ht. f_equal. rewrite <- (take_drop len buf) at 1. rewrite Hz, length_drop. do 2 f_equal. lia.
Qed.

Lemma aonly_read_bytes dbg lo hi :
  (hi < 2 ^ 63)%Z → aonly (read_bytes dbg lo hi) (λ x ys, ys = str x ∧ (lo ≤ Z.of_nat (length x) ≤ hi)%Z).
Proof.
  intros Hhi. unfold read_bytes. eapply aonly_bind; [apply aonly_read_len|]. intros len ys (Hl & Hl' & ->).
  assert (pad_len len < 8) as Hp by (unfold pad_len; apply Nat.mod_upper_bound; lia).
  rewrite padding_len_pad by lia. unfold u64_add. rewrite (proj2 (Z.leb_le _ u64_MAX)) by (unfold u64_MAX; lia).
  eapply (aonly_bind _ _ (λ z ys, z = (Z.of_nat (pad_len len) + Z.of_nat len)%Z ∧ ys = [])).
  { intros r xs fuel a r' Hr [= <- <-]. by exists [], xs. }
  intros ? ? [-> ->]. rewrite <- Nat2Z.inj_add, Nat2Z.id. eapply aonly_bind; [apply aonly_read_limited|]. intros buf ? ->.
  destruct (Nat.eqb_spec (length buf) (pad_len len + len)) as [Eb|]; [|apply aonly_throw]. cbn [negb].
  destruct (length buf <? len); [apply aonly_panic|]. destruct (all_zero _) eqn:Ez; [|apply aonly_throw]. cbn [negb].
  apply aonly_ret. destruct (padded_buf len buf) as [E1 E2]; [lia|done|]. rewrite E2, app_nil_r. cbn [app]. split; [exact E1|lia].
Qed.

Lemma aonly_read_bytes_buf N lo hi :
  aonly (read_bytes_buf N lo hi) (λ x ys, ys = str x ∧ (lo ≤ Z.of_nat (length x) ≤ hi)%Z).
Proof.
  unfold read_bytes_buf. case_match; [apply aonly_panic|]. case_match; [apply aonly_panic|].
  eapply aonly_bind; [apply aonly_read_len|]. intros len ys (Hl & Hl' & ->). case_match; [apply aonly_panic|].
  eapply aonly_bind; [apply aonly_fill_loop|]. intros buf ? [-> Hb]. destruct (all_zero _) eqn:Ez; [|apply aonly_throw]. cbn [negb].
  rewrite round_up_8_pad in Hb. apply aonly_ret. destruct (padded_buf len buf Hb Ez) as [E1 E2]. rewrite E2, app_nil_r. done.
Qed.

Lemma copy_loop_more `{PacketTag} cap f f' dst s x : copy_loop cap f dst s = Some x → f ≤ f' → copy_loop cap f' dst s = Some x.
Proof.
  revert f' dst s. induction f as [|f IH]; intros [|f'] dst s; cbn [copy_loop]; [done|done|lia|]. intros E Hf.
  destruct (poll_read cap s) as [[[[|b bs]|e|]|] s']; [done| |done|done|]; apply (IH f'); try done; lia.
Qed.

Lemma steady_read_all `{PacketTag} cap st : steady (read_all cap st).
Proof.
  intros f f' r x E Hf. unfold read_all in *. destruct (copy_loop cap f [] (st, r)) as [y|] eqn:Ec; [|done].
  by rewrite (copy_loop_more _ _ _ _ _ _ Ec Hf).
Qed.

Lemma steady_new_internal `{PacketTag} lo hi : steady (new_internal lo hi).
Proof.
  unfold new_internal, start. steady. intros f f' s x E Hf. destruct (await _ f _) as [y|] eqn:Ea; [|done].
  by rewrite (steady_await _ _ _ _ _ Ea Hf).
Qed.
#[export] Hint Resolve steady_read_all steady_new_internal : steady.

Lemma aonly_read_packet suffix lo hi cap :
  suffix = [] ∨ suffix = TOK_PAR → 0 < cap →
  aonly (read_packet (tag := zeroes 8 ++ suffix) lo hi cap) (λ x ys, ys = str x ++ suffix ∧ (lo ≤ Z.of_nat (length x) ≤ hi)%Z).
Proof.
  intros Hs Hcap. apply aonly_ends; [unfold read_packet; steady|]. intros r xs Hr.
  destruct (read_packet_spec (tag := zeroes 8 ++ suffix) suffix eq_refl ltac:(by destruct Hs as [->| ->]) lo hi cap r xs Hcap Hr)
    as (f0 & o & r' & Hrun & Ho).
  exists f0, o, r'. split; [done|]. intros a ->. destruct Ho as (Hl & _ & ys & -> & Hr'). exists (str a ++ suffix), ys.
  by rewrite <- app_assoc.
Qed.

Lemma areads_read_packet suffix lo hi cap x :
  suffix = [] ∨ suffix = TOK_PAR → 0 < cap → (lo ≤ Z.of_nat (length x) ≤ hi)%Z → (Z.of_nat (length x) < 2 ^ 64)%Z →
  areads (read_packet (tag := zeroes 8 ++ suffix) lo hi cap) (str x ++ suffix) x.
Proof.
  intros Hs Hcap Hx Hx' r ys Hr. rewrite <- app_assoc in Hr.
  destruct (read_packet_spec (tag := zeroes 8 ++ suffix) suffix eq_refl ltac:(by destruct Hs as [->| ->]) lo hi cap r _ Hcap Hr)
    as (f0 & o & r' & Hrun & Ho).
  exists f0, r'. destruct o as [a|e|]; [|by destruct (Ho x ys Hx Hx')|done]. destruct Ho as (Hl & Hl' & zs & E & Hr').
  rewrite !str_packet in E. apply app_inj_1 in E as [E1 E2]; [|by rewrite !length_le_bytes].
  assert (length x = length a) as El.
  { apply (f_equal le_val) in E1. rewrite !le_val_le_bytes in E1. change (256 ^ Z.of_nat 8)%Z with (2 ^ 64)%Z in E1.
    rewrite !Z.mod_small in E1 by lia. lia. }
  rewrite El in E2. apply app_inj_1 in E2 as [-> E2]; [|done]. apply app_inv_head, app_inv_head in E2 as ->. done.
Qed.

(** ** Theorems *)

(** C25: a [BytesReader] reads exactly the packets of the format. For every
    trailer tag of the code, on every source without faults, however its bytes
    are split and whenever it has to be waited for, and for every size of the
    buffer, reading a packet to its end ends without panic; it answers [data]
    only if the length is allowed and the source starts with the length, the
    data, the padding of zeroes and the suffix of the tag, of which nothing
    more is consumed, and it fails only if the source starts with no packet. *)
Theorem bytes_reader_canonical (suffix : bytes) (lo hi : Z) (cap : nat) (r : areader) (xs : bytes) :
  suffix = [] ∨ suffix = TOK_PAR → 0 < cap → rest r xs →
  ∃ f0 o r', (∀ f, f0 ≤ f → read_packet (tag := zeroes 8 ++ suffix) lo hi cap f r = Some (o, r')) ∧
    match o with
    | Ok data => (lo ≤ Z.of_nat (length data) ≤ hi)%Z ∧ (Z.of_nat (length data) < 2 ^ 64)%Z ∧
        ∃ ys, xs = str data ++ suffix ++ ys ∧ rest r' ys
    | Err e => ∀ data ys, (lo ≤ Z.of_nat (length data) ≤ hi)%Z → (Z.of_nat (length data) < 2 ^ 64)%Z →
        xs ≠ str data ++ suffix ++ ys
    | Panic => False
    end.
Proof. intros Hs. apply read_packet_spec; [done|]. by destruct Hs as [->| ->]. Qed.

(** [read_bytes_buf], which reads the names of archive entries, never ends
    on a source that ends within the packet: [read_buf] reads nothing at the
    end, and the loop asks again. *)
Theorem read_bytes_buf_diverges (N : nat) (lo hi : Z) (r : areader) (len : nat) (xs : bytes) :
  N mod 8 = 0 → (hi ≤ Z.of_nat N)%Z → (lo ≤ Z.of_nat len ≤ hi)%Z → (Z.of_nat N < 2 ^ 63)%Z →
  rest r (le_bytes 8 (Z.of_nat len) ++ xs) → length xs < len →
  ∀ fuel, read_bytes_buf N lo hi fuel r = None.
Proof.
  intros HN Hhi Hlen HN' Hr Hxs fuel. unfold read_bytes_buf. rewrite (proj2 (Nat.eqb_eq _ _) HN), (proj2 (Z.leb_le _ _) Hhi).
  cbn [negb]. destruct (areads_u64_le (Z.of_nat len) ltac:(lia) r xs Hr) as (f0 & r1 & Hrun & Hr1).
  unfold read_len. unfold abind at 1 2. destruct (aread_u64_le fuel r) as [x|] eqn:E; [|done].
  assert (x = (Ok (Z.of_nat len), r1)) as ->.
  { unfold aread_u64_le, abind in E, Hrun. specialize (Hrun (fuel `max` f0) ltac:(lia)).
    destruct (aread_exact 8 fuel r) as [y|] eqn:E2; [|done]. unfold aread_exact in E2, Hrun.
    rewrite (read_exact_more fuel (fuel `max` f0) 8 [] r y E2 ltac:(lia)) in Hrun.
    destruct y as [[?|?|] ?]; [|done..]. unfold aret in *. congruence. }
  rewrite (proj2 (andb_true_iff _ _)) by lia. unfold aret. rewrite Nat2Z.id.
  rewrite (proj2 (Nat.ltb_ge _ _)) by (rewrite round_up_8_pad; unfold pad_len; liad). unfold abind.
  pose proof (fill_loop_spec r1 xs Hr1 (round_up_8 len) []) as H.
  rewrite (proj2 (Nat.leb_gt _ _)) in H by (rewrite round_up_8_pad; lia). by rewrite H.
Qed.

(** ** Examples *)

Module Examples.

(** The packet of "abc" and the closing token, in pieces, with waits. *)
Definition source : areader :=
  [None; Some (Chunk Byte.x03 (zeroes 6)); None; None; Some (Chunk Byte.x00 (B "ab")); Some (Chunk Byte.x63 (zeroes 4 ++ [Byte.x00; Byte.x01]));
   None; Some (Chunk Byte.x00 (zeroes 6 ++ B ")" ++ zeroes 7 ++ B "more"))].

Lemma source_rest : rest source (str (B "abc") ++ TOK_PAR ++ B "more").
Proof. split; [repeat constructor|reflexivity]. Qed.

Example source_read :
  read_packet (tag := PadPar) 0 100 2 20 source = Some (Ok (B "abc"), [Some (Chunk Byte.x6d (B "ore"))]).
Proof. vm_compute. reflexivity. Qed.

Lemma bytes_reader_canonical_witness :
  ∃ f0 data r' ys, (∀ f, f0 ≤ f → read_packet (tag := PadPar) 0 100 2 f source = Some (Ok data, r')) ∧
    str (B "abc") ++ TOK_PAR ++ B "more" = str data ++ TOK_PAR ++ ys ∧ rest r' ys.
Proof.
  destruct (bytes_reader_canonical TOK_PAR 0 100 2 source _ (or_intror eq_refl) ltac:(lia) source_rest)
    as (f0 & o & r' & Hrun & Ho).
  destruct o as [data|e|].
  - destruct Ho as (_ & _ & ys & E1 & Hr'). exists f0, data, r', ys. split; [exact Hrun|]. split; [exact E1|exact Hr'].
  - exfalso. apply (Ho (B "abc") (B "more")); [cbn; lia|cbn; lia|reflexivity].
  - destruct Ho.
Defined.

(** A name of seven bytes of which the source has five. *)
Definition truncated : areader := [Some (Chunk Byte.x07 (zeroes 7 ++ B "trunc"))].

Lemma read_bytes_buf_diverges_witness : read_bytes_buf 256 1 255 1000 truncated = None.
Proof.
  apply (read_bytes_buf_diverges 256 1 255 truncated 7 (B "trunc")); [reflexivity|lia..| |cbn; lia].
  split; [repeat constructor|reflexivity].
Defined.

End Examples.
