(* ===== verification/NarAsync.v ===== *)
(** * [nix-compat/src/nar/reader/async]: reading archives from async sources

    The tokens and tags, the nodes, and the iterator over a directory. The
    contents of a file are a packet with the closing token in its trailer. *)

From stdpp Require Import strings.
From S2P Require Import Prelude Io NarWire NarWriter AsyncIo WireBytes.
#[local] Open Scope nat_scope.

(** ** [read.rs] *)

(** [read::token] *)
Fixpoint token_loop (fuel : nat) (tok : bytes) (r : areader) : option (outcome ErrorKind unit * areader) :=
  match fuel with
  | O => None
  | S fuel =>
      match tok with
      | [] => Some (Ok tt, r)
      | _ =>
          match apoll_read (length tok) r with
          | (None, r) => token_loop fuel tok r
          | (Some (Ok []), r) => Some (Err UnexpectedEof, r)
          | (Some (Ok b), r) =>
              let n := length b in
              if bool_decide (take n tok = b) then token_loop fuel (drop n tok) r else Some (Err InvalidData, r)
          | (Some (Err e), r) => Some (Err e, r)
          | (Some Panic, r) => Some (Panic, r)
          end
      end
  end.
Definition token (tok : bytes) : am areader unit := λ fuel r, token_loop fuel tok r.

(** [read::tag] *)
Definition read_tag (T : Type) `{Tag T, EqDecision T} : am areader T :=
  if negb (tag_MIN T <=? tag_BUF T) then apanic else
  await! buf := aread_exact (tag_MIN T) in
  match buf !! tag_OFF (T := T) with
  | None => apanic
  | Some d =>
      match tag_from_u8 T d with
      | None => athrow InvalidData
      | Some tag =>
          let head := take (tag_MIN T) (tag_as_bytes T tag) in
          let tail := drop (tag_MIN T) (tag_as_bytes T tag) in
          if negb (bool_decide (buf = head)) then athrow InvalidData else
          match tail with
          | [] => aret tag
          | _ =>
              if negb (length tail <=? tag_BUF T) then apanic else
              await! rest := aread_exact (length tail) in
              if bool_decide (rest = tail) then aret tag else athrow InvalidData
          end
      end
  end.

(** ** [mod.rs] *)

(** [DirReader]: its [prev_name]; the reader is passed along. *)
Abbreviation DirReader := bytes.

(** [FileReader] is a [BytesReader] with the tag [PadPar]. *)
Abbreviation FileReader := State.
#[local] Existing Instance PadPar.

Inductive Node :=
| Symlink (target : bytes)
| File (executable : bool) (reader : FileReader)
| Directory (dir_reader : DirReader).

Section Reader.
(** The build profile. *)
Context (dbg : bool).

(** [Node::new] *)
Definition node_new : am areader Node :=
  await! tag := read_tag NodeTag in
  match tag with
  | Sym =>
      await! target := read_bytes dbg 1 (Z.of_nat MAX_TARGET_LEN) in
      if contains Byte.x00 target then athrow InvalidData else
      await! _ := token TOK_PAR in
      aret (Symlink target)
  | Reg | Exe =>
      await! reader := new_internal 0 u64_MAX in
      aret (File (bool_decide (tag = Exe)) reader)
  | Dir => aret (Directory [])
  end.

(** [open] *)
Definition open_reader : am areader Node :=
  await! _ := token TOK_NAR in
  node_new.

Definition bad_name (name : bytes) : bool :=
  contains Byte.x00 name || contains Byte.x2f name || bool_decide (name = B ".") || bool_decide (name = B "..").

(** The name of the next entry, up to its node. *)
Definition next_name (prev_name : DirReader) : am areader (option DirReader) :=
  await! _ := (if negb (length prev_name =? 0) then token TOK_PAR else aret tt) in
  await! tag := read_tag EntryTag in
  match tag with
  | ENone => aret None
  | ESome =>
      await! name := read_bytes_buf (MAX_NAME_LEN + 1) 1 (Z.of_nat MAX_NAME_LEN) in
      if bad_name name then athrow InvalidData else
      if negb (bool_decide (lex_cmp prev_name name = Lt)) then athrow InvalidData else
      await! _ := token TOK_NOD in
      aret (Some name)
  end.

(** [DirReader::next]: the name, which is also the reader after the call, and the node. *)
Definition dir_next (prev_name : DirReader) : am areader (option (bytes * Node)) :=
  await! o := next_name prev_name in
  match o with
  | None => aret None
  | Some name => await! node := node_new in aret (Some (name, node))
  end.

End Reader.

(** ** Reading and accepting *)

Lemma token_loop_spec r xs :
  rest r xs → ∀ tok, ∃ f0 o r', (∀ f, f0 ≤ f → token_loop f tok r = Some (o, r')) ∧
    match o with
    | Ok _ => ∃ ys, xs = tok ++ ys ∧ rest r' ys
    | Err _ => ∀ ys, xs ≠ tok ++ ys
    | Panic => False
    end.
Proof.
  revert r xs. refine (poll_ind _ _). intros r xs Hr IH [|t tok].
  { exists 1, (Ok tt), r. split; [intros [|f] ?; [lia|done]|eauto]. }
  destruct (apoll_read_case (length (t :: tok)) r xs ltac:(cbn; lia) Hr)
    as [(r1 & E & Hr1 & Hw)|[(-> & -> & E)|(b & bs & ys & r1 & E & -> & Hle & Hr1 & Hw)]].
  - destruct (IH r1 xs Hw Hr1 (t :: tok)) as (f0 & o & r' & Hrun & Ho). exists (S f0), o, r'. split; [|done].
    intros [|f] ?; [lia|]. cbn [token_loop]. rewrite E. apply Hrun. lia.
  - exists 1, (Err UnexpectedEof), []. split; [|done]. intros [|f] ?; [lia|]. cbn [token_loop]. by rewrite E.
  - set (tk := t :: tok) in *. set (ck := b :: bs) in *. change (S (length bs)) with (length ck) in Hle.
    destruct (decide (take (length ck) tk = ck)) as [Ht|Ht].
    + destruct (IH r1 ys Hw Hr1 (drop (length ck) tk)) as (f0 & o & r' & Hrun & Ho). exists (S f0), o, r'. split.
      { intros [|f] ?; [lia|]. cbn [token_loop]. fold tk. rewrite E. fold ck. rewrite bool_decide_eq_true_2 by done. apply Hrun. lia. }
      assert (tk = ck ++ drop (length ck) tk) as Etk by (rewrite <- Ht at 1; by rewrite take_drop).
      destruct o; [|intros zs Ezs; apply (Ho zs)|done].
      * destruct Ho as (zs & -> & Hr'). exists zs. split; [|done]. by rewrite app_assoc, <- Etk.
      * apply (app_inv_head ck). by rewrite app_assoc, <- Etk.
    + exists 1, (Err InvalidData), r1. split.
      { intros [|f] ?; [lia|]. cbn [token_loop]. fold tk. rewrite E. fold ck. by rewrite bool_decide_eq_false_2. }
      intros zs Ezs. apply Ht. apply (f_equal (take (length ck))) in Ezs.
      rewrite take_app_length, take_app_le in Ezs by lia. done.
Qed.

Lemma steady_token tok : steady (token tok).
Proof.
  intros f. unfold token. revert tok. induction f as [|f IH]; intros tok [|f'] s x E Hf; [done|done|lia|]. cbn [token_loop] in *.
  destruct tok as [|t tok]; [done|]. destruct (apoll_read _ s) as [[[[|b bs]|e|]|] r']; [done| |done|done|].
  - case_bool_decide; [|done]. eapply IH; [done|lia].
  - eapply IH; [done|lia].
Qed.
#[export] Hint Resolve steady_token : steady.

Lemma areads_token tok : areads (token tok) tok tt.
Proof.
  intros r ys Hr. destruct (token_loop_spec r _ Hr tok) as (f0 & o & r' & Hrun & Ho). exists f0, r'.
  destruct o as [[]| |]; [|by destruct (Ho ys)|done]. destruct Ho as (zs & E & Hr'). apply app_inv_head in E as ->. done.
Qed.

Lemma aonly_token tok : aonly (token tok) (λ _ ys, ys = tok).
Proof.
  apply aonly_ends; [apply steady_token|]. intros r xs Hr. destruct (token_loop_spec r _ Hr tok) as (f0 & o & r' & Hrun & Ho).
  exists f0, o, r'. split; [done|]. intros a ->. destruct Ho as (ys & -> & Hr'). eauto.
Qed.

Section Tags.
Context {T} `{TagOk T}.

Lemma steady_tag : steady (read_tag T).
Proof. unfold read_tag. steady. Qed.

Lemma areads_tag t : areads (read_tag T) (tag_as_bytes T t) t.
Proof.
  destruct (tag_ok_variant t) as (Hmin & Hbuf & Hd). set (w := tag_as_bytes T t) in *. unfold read_tag.
  rewrite (proj2 (Nat.leb_le _ _)) by apply tag_ok_buf. cbn [negb]. rewrite <- (take_drop (tag_MIN T) w). eapply pulls_bind.
  { rewrite <- (length_take_le w (tag_MIN T)) at 1 by done. apply areads_read_exact. }
  pose proof tag_ok_off as Hoff. rewrite lookup_take_lt by done. destruct (w !! tag_OFF) as [d|]; [|done]. simpl in Hd. rewrite Hd. fold w.
  rewrite bool_decide_eq_true_2 by done. cbn [negb].
  destruct (drop (tag_MIN T) w) as [|c tl] eqn:Htl; [apply pulls_ret|].
  rewrite (proj2 (Nat.leb_le _ _)) by (by rewrite <- Htl, length_drop). cbn [negb].
  eapply pulls_bind_last; [apply areads_read_exact|]. rewrite bool_decide_eq_true_2 by done. apply pulls_ret.
Qed.

Lemma aonly_tag : aonly (read_tag T) (λ t ys, ys = tag_as_bytes T t).
Proof.
  unfold read_tag. case_match; [apply aonly_panic|]. eapply aonly_bind; [apply aonly_read_exact|]. intros buf ys [-> Hl].
  destruct (buf !! tag_OFF) as [d|]; [|apply aonly_panic]. destruct (tag_from_u8 T d) as [t|]; [|apply aonly_throw].
  case_bool_decide as Hh; [|apply aonly_throw]. cbn [negb]. destruct (drop (tag_MIN T) (tag_as_bytes T t)) as [|c tl] eqn:Htl.
  - apply aonly_ret. rewrite Hh. by rewrite <- (take_drop (tag_MIN T) (tag_as_bytes T t)) at 2; rewrite Htl, !app_nil_r.
  - case_match; [apply aonly_panic|]. eapply aonly_bind; [apply aonly_read_exact|]. intros rst ys [-> _].
    case_bool_decide as Hr; [|apply aonly_throw]. apply aonly_ret. rewrite app_nil_r, Hh, Hr, <- Htl. by rewrite take_drop.
Qed.
End Tags.

(** *** The iterator *)

Lemma bad_name_spec n : 1 ≤ length n ≤ MAX_NAME_LEN → bad_name n = false ↔ entry_name_ok n.
Proof.
  intros Hl. unfold bad_name, contains, entry_name_ok. rewrite !orb_false_iff, !bool_decide_eq_false. naive_solver.
Qed.

Lemma pulls_sep p : areads (if negb (length p =? 0) then token TOK_PAR else aret tt) (sep p) tt.
Proof. unfold sep. destruct (length p =? 0); [apply pulls_ret|apply areads_token]. Qed.

Lemma areads_next_end p : areads (next_name p) (sep p ++ TOK_PAR) None.
Proof.
  unfold next_name. eapply pulls_bind; [apply pulls_sep|]. destruct tag_bytes_entry as [<- _].
  eapply pulls_bind_last; [apply (areads_tag (T := EntryTag))|apply pulls_ret].
Qed.

Lemma areads_next_name p n :
  entry_name_ok n → lex_cmp p n = Lt → areads (next_name p) (sep p ++ TOK_ENT ++ str n ++ TOK_NOD) (Some n).
Proof.
  intros Hn Hp. unfold next_name. eapply pulls_bind; [apply pulls_sep|]. destruct tag_bytes_entry as [_ <-].
  eapply pulls_bind; [apply (areads_tag (T := EntryTag))|]. destruct Hn as (Hl & Hn').
  eapply pulls_bind; [apply areads_read_bytes_buf; unfold MAX_NAME_LEN in *; [done|lia..]|].
  rewrite (proj2 (bad_name_spec n Hl)) by done. rewrite bool_decide_eq_true_2 by done. cbn [negb].
  eapply pulls_bind_last; [apply areads_token|apply pulls_ret].
Qed.

Definition next_ok (p : bytes) (o : option bytes) (ys : bytes) : Prop :=
  match o with
  | None => ys = sep p ++ TOK_PAR
  | Some n => entry_name_ok n ∧ lex_cmp p n = Lt ∧ ys = sep p ++ TOK_ENT ++ str n ++ TOK_NOD
  end.

Lemma aonly_next_name p : aonly (next_name p) (next_ok p).
Proof.
  destruct tag_bytes_entry as [HP HE]. unfold next_name. eapply (aonly_bind _ _ (λ _ ys, ys = sep p)).
  { unfold sep. destruct (length p =? 0); [by apply aonly_ret|apply aonly_token]. }
  intros [] ? ->. eapply aonly_bind; [apply (aonly_tag (T := EntryTag))|]. intros [] ? ->.
  - apply aonly_ret. cbn. by rewrite app_nil_r, HP.
  - eapply aonly_bind; [apply aonly_read_bytes_buf|]. intros n ? [-> Hl].
    destruct (bad_name n) eqn:Eb; [apply aonly_throw|]. case_bool_decide as Ho; [|apply aonly_throw]. cbn [negb].
    eapply aonly_bind; [apply aonly_token|]. intros [] ? ->. apply aonly_ret. cbn.
    apply bad_name_spec in Eb; [|unfold MAX_NAME_LEN in *; lia]. rewrite HE, app_nil_r. done.
Qed.

(** *** Nodes *)

Section Nodes.
Context (dbg : bool) (cap : nat) (Hcap : 0 < cap).

Lemma areads_symlink target : tree_ok (TSymlink target) → areads (node_new dbg) (node_bytes (TSymlink target)) (Symlink target).
Proof.
  intros [Hl Hz]. unfold node_new. cbn [node_bytes]. destruct tag_bytes_node as (<- & _).
  eapply pulls_bind; [apply (areads_tag (T := NodeTag))|]. unfold MAX_TARGET_LEN in *.
  eapply pulls_bind; [apply areads_read_bytes; lia|]. unfold contains. rewrite bool_decide_eq_false_2 by done.
  eapply pulls_bind_last; [apply areads_token|apply pulls_ret].
Qed.

Lemma areads_dir : areads (node_new dbg) TOK_DIR (Directory []).
Proof.
  unfold node_new. destruct tag_bytes_node as (_ & _ & _ & <-).
  eapply pulls_bind_last; [apply (areads_tag (T := NodeTag))|apply pulls_ret].
Qed.

Definition file_tag (x : bool) : bytes := if x then TOK_EXE else TOK_REG.

(** The state of a reader that was just opened is that of its packet. *)
Lemma new_internal_len lo hi fuel fuel' r r1 st data r2 xs :
  rest r xs → new_internal lo hi fuel r = Some (Ok st, r1) → read_all cap st fuel' r1 = Some (Ok data, r2) →
  remaining_len st = Z.of_nat (length data).
Proof.
  intros Hr (size & r0 & E0 & E1)%abind_Ok Hall. destruct (aonly_u64_le _ _ _ _ _ Hr E0) as (ys & zs & -> & Hr0 & Hsize & ->).
  destruct (negb _); [done|]. unfold start in E1. destruct (Z.eqb_spec size 0) as [->|Hs].
  - apply abind_Ok in E1 as (t & ? & _ & E1). apply abind_Ok in E1 as (d & ? & _ & [= <- <-]). cbn [remaining_len].
    unfold read_all in Hall. destruct (copy_loop cap fuel' [] (ReleaseTrailer 0 d, x0)) as [[o [s' r']]|] eqn:Ec; [|done].
    assert (∀ f dst k r, k ≤ length d → ∀ o s', copy_loop cap f dst (ReleaseTrailer k d, r) = Some (Ok o, s') → o = dst ++ drop k d) as Hrel.
    { clear -Hcap. intros f. induction f as [|f IH]; intros dst k r Hk o s' E; [done|]. cbn [copy_loop poll_read] in E. unfold release in E.
      destruct (take cap (drop k d)) as [|b bs] eqn:Et.
      - injection E as <- <-. apply (f_equal length) in Et. rewrite length_take in Et. cbn [length] in Et.
        rewrite (nil_length_inv (drop k d)) by lia. by rewrite app_nil_r.
      - apply (f_equal length) in Et as El. rewrite length_take, length_drop in El. cbn [length] in *.
        apply IH in E as ->; [|lia]. rewrite <- app_assoc. f_equal. rewrite <- Et, <- drop_drop.
        replace (S (length bs)) with (Nat.min cap (length (drop k d))) by (rewrite length_drop; lia).
        destruct (Nat.min_spec cap (length (drop k d))) as [[? ->]|[? ->]]; [by rewrite take_drop|].
        rewrite drop_all, take_ge by done. by rewrite app_nil_r. }
    injection Hall as -> ->. apply Hrel in Ec as ->; [|lia]. rewrite drop_0. cbn. lia.
  - injection E1 as <- <-. cbn [remaining_len]. unfold read_all in Hall.
    destruct (copy_loop cap fuel' [] (Body 0 size, r0)) as [[o [s' r']]|] eqn:Ec; [|done]. injection Hall as -> ->.
    destruct (copy_loop_spec (tag := PadPar) TOK_PAR eq_refl eq_refl cap (Body 0 size) r0 zs [] Hcap) as (f0 & st' & r'' & Hrun & _); [|done|].
    { cbn [state_ok]. pose proof (split_spec size). lia. }
    specialize (Hrun (fuel' `max` f0) ltac:(lia)). rewrite (copy_loop_more _ _ _ _ _ _ Ec) in Hrun by lia.
    destruct (result (Body 0 size) zs) as [all| |] eqn:Eres; [|done..]. injection Hrun as ->.
    apply (result_body_Ok TOK_PAR eq_refl) in Eres as [Hl _]; [|done|lia]. cbn. lia.
Qed.

Lemma node_new_file (x : bool) fuel r st r1 :
  (∃ r0, read_tag NodeTag fuel r = Some (Ok (if x then Exe else Reg), r0) ∧ new_internal 0 u64_MAX fuel r0 = Some (Ok st, r1)) →
  node_new dbg fuel r = Some (Ok (File x st), r1).
Proof.
  intros (r0 & E0 & E1). unfold node_new, abind. rewrite E0. destruct x; by rewrite E1.
Qed.

Lemma file_reads x data r ys :
  tree_ok (TFile x data) → rest r (node_bytes (TFile x data) ++ ys) →
  ∃ f0 st r1 r', (∀ f, f0 ≤ f → node_new dbg f r = Some (Ok (File x st), r1) ∧ read_all cap st f r1 = Some (Ok data, r')) ∧
    remaining_len st = Z.of_nat (length data) ∧ rest r' ys.
Proof.
  intros Hok Hr. cbn [node_bytes] in Hr. fold (file_tag x) in Hr. rewrite <- app_assoc in Hr.
  assert (file_tag x = tag_as_bytes NodeTag (if x then Exe else Reg)) as Etag.
  { destruct tag_bytes_node as (_ & ER & EE & _). destruct x; by rewrite ?ER, ?EE. }
  rewrite Etag in Hr. destruct (areads_tag (T := NodeTag) _ r _ Hr) as (f1 & r0 & Htag & Hr0).
  destruct (areads_read_packet TOK_PAR 0 u64_MAX cap data (or_intror eq_refl) Hcap) with (r := r0) (ys := ys)
    as (f2 & r' & Hrun & Hr'); [unfold u64_MAX; cbn in Hok; lia|exact Hok|exact Hr0|].
  pose proof (Hrun f2 ltac:(lia)) as Hf2. apply abind_Ok in Hf2 as (st & r1 & E1 & E2).
  exists (f1 `max` f2), st, r1, r'. split_and!; [|exact (new_internal_len _ _ _ _ _ _ _ _ _ _ Hr0 E1 E2)|done]. intros f Hf. split.
  - apply node_new_file. exists r0. split; [apply Htag; lia|]. eapply steady_new_internal; [exact E1|lia].
  - eapply steady_read_all; [exact E2|lia].
Qed.

(** What [node_new] answers, on what it consumed. *)
Lemma node_new_only fuel r xs n r1 :
  rest r xs → node_new dbg fuel r = Some (Ok n, r1) →
  match n with
  | Symlink target => tree_ok (TSymlink target) ∧ ∃ zs, xs = node_bytes (TSymlink target) ++ zs ∧ rest r1 zs
  | Directory p => p = [] ∧ ∃ zs, xs = TOK_DIR ++ zs ∧ rest r1 zs
  | File x st => ∀ fuel' data r', read_all cap st fuel' r1 = Some (Ok data, r') →
      remaining_len st = Z.of_nat (length data) ∧ tree_ok (TFile x data) ∧ ∃ zs, xs = node_bytes (TFile x data) ++ zs ∧ rest r' zs
  end.
Proof.
  intros Hr (tag & r0 & E0 & E1)%abind_Ok. destruct (aonly_tag (T := NodeTag) _ _ _ _ _ Hr E0) as (ys & zs & -> & Hr0 & ->).
  destruct tag_bytes_node as (HS & HR & HE & HD).
  assert (∀ x : bool, tag = (if x then Exe else Reg) →
    (await! reader := new_internal 0 u64_MAX in aret (File (bool_decide (tag = Exe)) reader)) fuel r0 = Some (Ok n, r1) →
    match n with File x st => ∀ fuel' data r', read_all cap st fuel' r1 = Some (Ok data, r') →
      remaining_len st = Z.of_nat (length data) ∧ tree_ok (TFile x data) ∧
      ∃ zs', tag_as_bytes NodeTag tag ++ zs = node_bytes (TFile x data) ++ zs' ∧ rest r' zs' | _ => False end) as Hfile.
  { intros x -> (st & r2 & E2 & [= <- <-])%abind_Ok fuel' data r' E3.
    assert (bool_decide ((if x then Exe else Reg) = Exe) = x) as -> by by destruct x.
    split; [exact (new_internal_len _ _ _ _ _ _ _ _ _ _ Hr0 E2 E3)|].
    assert (read_packet 0 u64_MAX cap (fuel `max` fuel') r0 = Some (Ok data, r')) as E4.
    { apply abind_Ok. exists st, r2. split; [eapply steady_new_internal; [exact E2|lia]|eapply steady_read_all; [exact E3|lia]]. }
    destruct (aonly_read_packet TOK_PAR 0 u64_MAX cap (or_intror eq_refl) Hcap _ _ _ _ _ Hr0 E4) as (ys & zs' & -> & Hr' & -> & Hl).
    split; [cbn; unfold u64_MAX in Hl; lia|]. exists zs'. split; [|done]. cbn [node_bytes]. rewrite <- !app_assoc.
    f_equal. by destruct x. }
  destruct tag; [|by specialize (Hfile false eq_refl E1); destruct n|by specialize (Hfile true eq_refl E1); destruct n|].
  - apply abind_Ok in E1 as (target & r2 & E2 & E1). destruct (aonly_read_bytes dbg 1 (Z.of_nat MAX_TARGET_LEN) ltac:(done) _ _ _ _ _ Hr0 E2) as (ys & zs' & -> & Hr2 & -> & Hl).
    unfold contains in E1.
    destruct (bool_decide (Byte.x00 ∈ target)) eqn:Hc; [done|]. apply bool_decide_eq_false in Hc. apply abind_Ok in E1 as ([] & r3 & E3 & [= <- <-]).
    destruct (aonly_token _ _ _ _ _ _ Hr2 E3) as (ys & zs & -> & Hr3 & ->). unfold MAX_TARGET_LEN in Hl. split; [cbn; unfold NarWire.MAX_TARGET_LEN; split; [lia|done]|].
    exists zs. split; [|done]. cbn [node_bytes]. rewrite HS, <- !app_assoc. done.
  - injection E1 as <- <-. split; [done|]. exists zs. by rewrite HD.
Qed.

End Nodes.
