(* ===== verification/CastorePath.v ===== *)
(** * [castore/src/path]: path components and relative paths

    A [PathComponent] and a [PathBuf] are their bytes; the constructors below
    are the only ways to make one, so their invariants are [name_ok] and
    [path_ok]. *)

From stdpp Require Import strings.
From S2P Require Import Prelude Crates Io StdPath.
#[local] Open Scope nat_scope.

(** ** component.rs *)

Module Component.

Inductive PathComponentError :=
| Empty
| Null
| CurDir
| Parent
| Slashes
| TooLong
| Convert (value : bytes) (source : PathComponentError).

#[global] Instance PathComponentError_eq_dec : EqDecision PathComponentError.
Proof. solve_decision. Defined.

Definition MAX_NAME_LEN : nat := 255.

Definition validate_name (name : bytes) : outcome PathComponentError unit :=
  if bool_decide (name = []) then Err Empty
  else if bool_decide (name = B "..") then Err Parent
  else if bool_decide (name = B ".") then Err CurDir
  else if MAX_NAME_LEN <? length name then Err TooLong
  else if bool_decide (Byte.x00 ∈ name) then Err Null
  else if bool_decide (Byte.x2f ∈ name) then Err Slashes
  else Ok tt.

(** [TryFrom<Bytes>]; the impls for slices, [str] and [CStr] do the same. *)
Definition try_from (value : bytes) : outcome PathComponentError bytes :=
  match validate_name value with
  | Err e => Err (Convert value e)
  | Panic => Panic
  | Ok _ => Ok value
  end.

(** What a node name of the castore model is. *)
Definition name_ok (n : bytes) : Prop :=
  n ≠ [] ∧ n ≠ B "." ∧ n ≠ B ".." ∧ length n ≤ 255 ∧ (Byte.x00 ∉ n) ∧ (Byte.x2f ∉ n).

#[global] Instance name_ok_dec n : Decision (name_ok n).
Proof. apply _. Defined.

Lemma component_name_Ok n : validate_name n = Ok tt ↔ name_ok n.
Proof.
  unfold validate_name, name_ok, MAX_NAME_LEN. repeat case_bool_decide; try naive_solver.
  - destruct (Nat.ltb_spec 255 (length n)); naive_solver lia.
  - destruct (Nat.ltb_spec 255 (length n)); naive_solver lia.
  - destruct (Nat.ltb_spec 255 (length n)); naive_solver lia.
Qed.

Lemma component_name_cases n :
  validate_name n = Ok tt ∧ name_ok n ∨ ∃ e, validate_name n = Err e ∧ ¬ name_ok n.
Proof.
  destruct (decide (name_ok n)) as [Hn|Hn]; [left; by rewrite component_name_Ok|right].
  destruct (validate_name n) as [[]|e|] eqn:E; [by apply component_name_Ok in E|eauto|].
  unfold validate_name in E. by repeat case_match.
Qed.

Lemma component_try_from_Ok n c : try_from n = Ok c ↔ c = n ∧ name_ok n.
Proof.
  unfold try_from. destruct (component_name_cases n) as [[-> ?]|(e & -> & ?)]; naive_solver.
Qed.

End Component.

(** ** mod.rs *)

Module Path.
Import Component.

Section Path.
Context `{BstrSplit}.

Definition SLASH : bytes := B "/".

Definition ROOT : bytes := [].

(** [Path::from_bytes]; [FromStr for PathBuf] turns [None] into an error. *)
Definition from_bytes (bs : bytes) : option bytes :=
  if negb (bool_decide (bs = [])) &&
     existsb (λ c, is_err (validate_name c)) (split_str bs SLASH)
  then None else Some bs.

Definition from_str (s : bytes) : outcome ErrorKind bytes := ok_or InvalidData (from_bytes s).

(** [Path::parent] *)
Definition parent (self : bytes) : option bytes :=
  if bool_decide (self = []) then None else
  Some (match rsplit_once_str self SLASH with
        | Some (parent, _) => parent
        | None => ROOT
        end).

(** [PathBuf::try_push] *)
Definition try_push (self name : bytes) : outcome ErrorKind bytes :=
  if is_err (validate_name name) then Err InvalidData else
  Ok ((if bool_decide (self = []) then self else self ++ SLASH) ++ name).

(** [Path::try_join] *)
Definition try_join (self name : bytes) : outcome ErrorKind bytes := try_push ([] ++ self) name.

(** [Path::components_bytes], and [components], whose items are the same bytes. *)
Definition components_bytes (self : bytes) : list bytes :=
  let iter := split_str self SLASH in
  if bool_decide (self = []) then tail iter else iter.

(** [Path::file_name_bytes] and [file_name] *)
Definition file_name_bytes (self : bytes) : option bytes := last (components_bytes self).

(** One turn of the loop of [PathBuf::from_host_path]. *)
Definition host_step (canonicalize_dotdot : bool) (p : bytes) (c : StdComponent)
    : outcome ErrorKind bytes :=
  match c with
  | RootDir => Err InvalidData
  | StdPath.CurDir => Ok p
  | ParentDir =>
      if canonicalize_dotdot then ok_or InvalidData (parent p) else Err InvalidData
  | Normal s => omap_err (λ _, InvalidData) (try_push p s)
  end.

Fixpoint host_loop (canonicalize_dotdot : bool) (p : bytes) (cs : list StdComponent)
    : outcome ErrorKind bytes :=
  match cs with
  | [] => Ok p
  | c :: cs =>
      let? p := host_step canonicalize_dotdot p c in
      host_loop canonicalize_dotdot p cs
  end.

(** [PathBuf::from_host_path] *)
Definition from_host_path (host_path : bytes) (canonicalize_dotdot : bool)
    : outcome ErrorKind bytes :=
  host_loop canonicalize_dotdot [] (std_components host_path).

(** ** Paths as lists of names *)

(** The path of a list of names; a path is well formed when it is one. *)
Definition render (l : list bytes) : bytes := join_with Byte.x2f l.

Definition names_ok (l : list bytes) : Prop := Forall name_ok l.

Context `{!BstrSplitLaws}.

Lemma render_nil l : names_ok l → render l = [] ↔ l = [].
Proof.
  intros Hl. split; [|by intros ->]. destruct Hl as [|n l (Hn & _) Hl]; [done|].
  unfold render. destruct l; simpl; [done|]. by destruct n.
Qed.

Lemma split_render n l :
  names_ok (n :: l) → split_str (render (n :: l)) SLASH = n :: l.
Proof.
  intros Hl. unfold SLASH. change (B "/") with [Byte.x2f]. rewrite split_str_byte.
  apply split_on_join. eapply Forall_impl; [exact Hl|]. unfold name_ok. naive_solver.
Qed.

Lemma components_render l : names_ok l → components_bytes (render l) = l.
Proof.
  intros Hl. unfold components_bytes. destruct l as [|n l].
  - change (render []) with (@nil byte). rewrite bool_decide_eq_true_2 by done.
    unfold SLASH. change (B "/") with [Byte.x2f]. by rewrite split_str_byte.
  - rewrite bool_decide_eq_false_2 by (by rewrite render_nil). by apply split_render.
Qed.

Lemma existsb_bad l : existsb (λ c, is_err (validate_name c)) l = false ↔ names_ok l.
Proof.
  unfold names_ok. induction l as [|c l IH]; simpl; [done|].
  rewrite orb_false_iff, IH, Forall_cons.
  destruct (component_name_cases c) as [[-> ?]|(e & -> & ?)]; simpl; naive_solver.
Qed.

Lemma from_bytes_Some bs p : from_bytes bs = Some p ↔ p = bs ∧ ∃ l, names_ok l ∧ bs = render l.
Proof.
  unfold from_bytes. case_bool_decide as Hb; cbn [negb andb].
  { split; [|naive_solver]. intros [= <-]. split; [done|]. exists []. by split; [constructor|]. }
  destruct (existsb _ _) eqn:E.
  - split; [done|]. intros (_ & l & Hl & ->). destruct l as [|n l]; [done|].
    rewrite split_render in E by done. apply existsb_bad in Hl. congruence.
  - apply existsb_bad in E. split; [|naive_solver]. intros [= <-]. split; [done|].
    exists (split_str bs SLASH). split; [done|]. unfold render, SLASH.
    change (B "/") with [Byte.x2f]. by rewrite split_str_byte, join_split_on.
Qed.

Lemma push_render l n :
  names_ok l →
  try_push (render l) n =
    if bool_decide (name_ok n) then Ok (render (l ++ [n])) else Err InvalidData.
Proof.
  intros Hl. unfold try_push.
  destruct (component_name_cases n) as [[-> Hn]|(e & -> & Hn)]; simpl;
    [rewrite (bool_decide_eq_true_2 (name_ok n)) by done|by rewrite bool_decide_eq_false_2].
  f_equal. case_bool_decide as Hr.
  - apply render_nil in Hr as ->; [|done]. done.
  - rewrite render_nil in Hr by done. unfold render. rewrite join_with_snoc by done.
    unfold SLASH. by rewrite <- app_assoc.
Qed.

Lemma parent_render l n : names_ok (l ++ [n]) → parent (render (l ++ [n])) = Some (render l).
Proof.
  intros Hl. unfold parent. rewrite bool_decide_eq_false_2 by (rewrite render_nil by done; by destruct l).
  unfold SLASH. change (B "/") with [Byte.x2f]. rewrite rsplit_once_str_byte.
  apply Forall_app in Hl as [Hl (Hn & _)%Forall_cons]. unfold name_ok in Hn.
  destruct l as [|n' l'].
  - unfold render. simpl. rewrite rsplit_once_None by naive_solver. done.
  - unfold render. rewrite join_with_snoc by done. by rewrite rsplit_once_app by naive_solver.
Qed.

(** The names a host path stands for, by folding over its components. *)
Fixpoint resolve (dotdot : bool) (l : list bytes) (cs : list StdComponent) : option (list bytes) :=
  match cs with
  | [] => Some l
  | RootDir :: _ => None
  | StdPath.CurDir :: cs => resolve dotdot l cs
  | ParentDir :: cs =>
      if dotdot && negb (bool_decide (l = []))
      then resolve dotdot (removelast l) cs else None
  | Normal s :: cs => if bool_decide (name_ok s) then resolve dotdot (l ++ [s]) cs else None
  end.

Lemma host_loop_resolve dd l cs :
  names_ok l →
  host_loop dd (render l) cs = match resolve dd l cs with
                               | Some l' => Ok (render l')
                               | None => Err InvalidData
                               end ∧ (∀ l', resolve dd l cs = Some l' → names_ok l').
Proof.
  revert l. induction cs as [|c cs IH]; intros l Hl; [naive_solver|].
  cbn [host_loop resolve]. destruct c as [| | |s]; cbn [host_step]; [done|by apply IH|..].
  - destruct dd; [|done]. destruct l as [|n l' _] using rev_ind.
    + unfold parent. rewrite bool_decide_eq_true_2 by done. done.
    + rewrite parent_render by done. rewrite (bool_decide_eq_false_2 (l' ++ [n] = [])) by (by destruct l').
      simpl. rewrite removelast_last. apply IH. by apply Forall_app in Hl as [? _].
  - rewrite push_render by done. case_bool_decide as Hs; [|done]. simpl. apply IH.
    apply Forall_app. split; [done|]. by apply Forall_singleton.
Qed.
End Path.

Import Models.

(** The byte strings [Path::from_bytes] accepts are exactly the empty one
    and the valid names joined by slashes, and splitting such a path gives
    back its names: paths and lists of valid names are in bijection. *)
Theorem from_bytes_bijection `{BstrSplitLaws} (bs : bytes) :
  (∀ p, from_bytes bs = Some p ↔ p = bs ∧ ∃ l, names_ok l ∧ bs = render l) ∧
  (∀ l, names_ok l → bs = render l → components_bytes bs = l).
Proof.
  split; [intros p; apply from_bytes_Some|]. intros l Hl ->. by apply components_render.
Qed.

Lemma from_bytes_bijection_witness :
  from_bytes (B "a/b") = Some (B "a/b") ∧ components_bytes (B "a/b") = [B "a"; B "b"].
Proof.
  destruct (from_bytes_bijection (B "a/b")) as [H1 H2].
  assert (names_ok [B "a"; B "b"]) as Hl by (by apply (bool_decide_unpack _); vm_compute).
  split; [apply H1; split; [done|]; by exists [B "a"; B "b"]|by apply H2].
Defined.

(** On well-formed paths the operations are those of lists of names:
    [try_push] (and [try_join]) appends a valid name and rejects any other,
    [parent] drops the last name and fails only on the root, [file_name] is
    the last name. *)
Theorem path_operations `{BstrSplitLaws} (l : list bytes) (n : bytes) :
  names_ok l →
  try_push (render l) n =
    (if bool_decide (name_ok n) then Ok (render (l ++ [n])) else Err InvalidData) ∧
  try_join (render l) n = try_push (render l) n ∧
  parent (render l) = (if bool_decide (l = []) then None else Some (render (removelast l))) ∧
  file_name_bytes (render l) = last l.
Proof.
  intros Hl. split_and!; [by apply push_render|done| |].
  - destruct l as [|m l' _] using rev_ind; [done|].
    rewrite (bool_decide_eq_false_2 (l' ++ [m] = [])) by (by destruct l').
    by rewrite parent_render, removelast_last.
  - unfold file_name_bytes. by rewrite components_render.
Qed.

Lemma path_operations_witness :
  try_push (B "a/b") (B "c") = Ok (B "a/b/c") ∧ parent (B "a/b") = Some (B "a").
Proof.
  destruct (path_operations [B "a"; B "b"] (B "c")) as (H1 & _ & H2 & _).
  - by apply (bool_decide_unpack _); vm_compute.
  - split; [exact H1|exact H2].
Defined.

(** C40: [PathBuf::from_host_path] never panics; it succeeds exactly when the
    components of the host path resolve (no root, valid names only, ".." only
    if it is to be canonicalised and never above the start), with the path of
    the names they resolve to, which is well formed. *)
Theorem from_host_path_resolves `{BstrSplitLaws} (h : bytes) (dotdot : bool) :
  match resolve dotdot [] (std_components h) with
  | Some l => names_ok l ∧ from_host_path h dotdot = Ok (render l)
  | None => from_host_path h dotdot = Err InvalidData
  end.
Proof.
  destruct (host_loop_resolve dotdot [] (std_components h)) as [E Hok]; [by constructor|].
  unfold from_host_path. change (host_loop dotdot (render []) (std_components h))
    with (host_loop dotdot [] (std_components h)) in E. rewrite E.
  destruct (resolve _ _ _); [split; [by apply Hok|done]|done].
Qed.

Lemma from_host_path_resolves_witness :
  from_host_path (B "./a//b/../c/") true = Ok (B "a/c") ∧
  from_host_path (B "a/../..") true = Err InvalidData.
Proof.
  split.
  - exact (proj2 (from_host_path_resolves (B "./a//b/../c/") true)).
  - exact (from_host_path_resolves (B "a/../..") true).
Defined.

End Path.
