(* ===== verification/Castore.v ===== *)
(** * [castore/src]: digests, symlink targets, nodes and directories

    [digests.rs], [nodes/symlink_target.rs], [nodes/mod.rs],
    [nodes/directory.rs] and [errors.rs]. A [Directory] is its BTreeMap from
    names to nodes; sizes are [u64], with overflow as the build profile has it. *)

From stdpp Require Import strings sorting.
From S2P Require Import Prelude BTreeMap CastorePath.
Import Component.
#[local] Open Scope Z_scope.

(** ** Sums of sizes *)

(** [checked_sum], of [nodes/directory.rs] and [proto/mod.rs] *)
Fixpoint checked_sum_from (acc : Z) (l : list Z) : option Z :=
  match l with
  | [] => Some acc
  | i :: l => acc ← u64_checked_add acc i; checked_sum_from acc l
  end.
Definition checked_sum (l : list Z) : option Z := checked_sum_from 0 l.

(** ** digests.rs *)

Module Digest.
Inductive Error := InvalidDigestLen (len : nat).

Definition B3_LEN : nat := 32.

(** [TryFrom<Vec<u8>>] and [TryFrom<Bytes>] *)
Definition try_from (value : bytes) : outcome Error bytes :=
  if negb (length value =? B3_LEN)%nat then Err (InvalidDigestLen (length value)) else Ok value.
End Digest.

(** ** nodes/symlink_target.rs *)

Module SymlinkTarget.
Inductive SymlinkTargetError :=
| Empty
| Null
| TooLong
| Convert (value : bytes) (source : SymlinkTargetError).

#[global] Instance SymlinkTargetError_eq_dec : EqDecision SymlinkTargetError.
Proof. solve_decision. Defined.

Definition MAX_TARGET_LEN : nat := 4095.

Definition validate_symlink_target (v : bytes) : outcome SymlinkTargetError bytes :=
  if bool_decide (v = []) then Err Empty else
  if (MAX_TARGET_LEN <? length v)%nat then Err TooLong else
  if bool_decide (Byte.x00 ∈ v) then Err Null else
  Ok v.

(** [TryFrom<Bytes>]; the impls for slices and [str] do the same. *)
Definition try_from (value : bytes) : outcome SymlinkTargetError bytes :=
  match validate_symlink_target value with
  | Err e => Err (Convert value e)
  | Panic => Panic
  | Ok _ => Ok value
  end.

Definition target_ok (v : bytes) : Prop :=
  v ≠ [] ∧ (length v ≤ 4095)%nat ∧ (Byte.x00 ∉ v).

Lemma validate_symlink_target_spec v :
  validate_symlink_target v = Ok v ∧ target_ok v ∨
  ∃ e, validate_symlink_target v = Err e ∧ ¬ target_ok v.
Proof.
  unfold validate_symlink_target, target_ok, MAX_TARGET_LEN. case_bool_decide; [naive_solver|].
  destruct (Nat.ltb_spec 4095 (length v)); [right; eexists; split; [done|]; lia|].
  case_bool_decide; naive_solver.
Qed.

Lemma symlink_try_from_Ok v t : try_from v = Ok t ↔ t = v ∧ target_ok v.
Proof.
  unfold try_from. destruct (validate_symlink_target_spec v) as [[-> ?]|(e & -> & ?)]; naive_solver.
Qed.
End SymlinkTarget.

(** ** errors.rs *)

Inductive ValidateNodeError :=
| InvalidDigestLen (len : nat)
| InvalidSymlinkTarget (e : SymlinkTarget.SymlinkTargetError).

Inductive DirectoryError :=
| DuplicateName (name : bytes)
| InvalidNode (name : bytes) (e : ValidateNodeError)
| SizeOverflow
| InvalidName (e : PathComponentError)
| NameInAnonymousNode
| WrongSorting (name : bytes)
| NoNodeSet.

#[global] Instance ValidateNodeError_eq_dec : EqDecision ValidateNodeError.
Proof. solve_decision. Defined.
#[global] Instance DirectoryError_eq_dec : EqDecision DirectoryError.
Proof. solve_decision. Defined.

(** [From<digests::Error> for ValidateNodeError] *)
Definition from_digest_error (e : Digest.Error) : ValidateNodeError :=
  match e with Digest.InvalidDigestLen n => InvalidDigestLen n end.

(** ** nodes/mod.rs *)

Inductive Node :=
| DirectoryN (digest : bytes) (size : Z)
| FileN (digest : bytes) (size : Z) (executable : bool)
| SymlinkN (target : bytes).

#[global] Instance Node_eq_dec : EqDecision Node.
Proof. solve_decision. Defined.

(** ** nodes/directory.rs *)

Abbreviation Directory := (list (bytes * Node)).

(** [Directory::new] *)
Definition new : Directory := [].

(** [check_insert_node]: the new size and the new nodes. *)
Definition check_insert_node (current_size : Z) (nodes : Directory) (name : bytes) (node : Node)
    : outcome DirectoryError (Z * Directory) :=
  let? new_size := ok_or SizeOverflow
    (checked_sum [current_size; 1; match node with DirectoryN _ size => size | _ => 0 end]) in
  match bt_entry name nodes with
  | None => Ok (new_size, bt_insert name node nodes)
  | Some (key, _) => Err (DuplicateName key)
  end.

(** [Directory::try_from_iter] *)
Fixpoint insert_all (size : Z) (nodes : Directory) (iter : list (bytes * Node))
    : outcome DirectoryError Directory :=
  match iter with
  | [] => Ok nodes
  | (name, node) :: iter =>
      let? (size, nodes) := check_insert_node size nodes name node in
      insert_all size nodes iter
  end.

Definition try_from_iter (iter : list (bytes * Node)) : outcome DirectoryError Directory :=
  insert_all 0 new iter.

(** The [map] and [sum] of [Directory::size]. *)
Fixpoint sum_sizes {E} (dbg : bool) (acc : Z) (nodes : Directory) : outcome E Z :=
  match nodes with
  | [] => Ok acc
  | (_, n) :: nodes =>
      let? x := match n with DirectoryN _ size => u64_add dbg 1 size | _ => Ok 1 end in
      let? acc := u64_add dbg acc x in
      sum_sizes dbg acc nodes
  end.

(** [Directory::size] *)
Definition size {E} (dbg : bool) (self : Directory) : outcome E Z :=
  let? s := sum_sizes dbg 0 self in
  u64_add dbg (Z.of_nat (length self)) s.

(** [Directory::add] *)
Definition add (dbg : bool) (self : Directory) (name : bytes) (node : Node)
    : outcome DirectoryError Directory :=
  let? current := size dbg self in
  let? (_, nodes) := check_insert_node current self name node in
  Ok nodes.

(** ** What a directory promises *)

Definition node_ok (n : Node) : Prop :=
  match n with
  | DirectoryN digest size => length digest = 32%nat ∧ 0 ≤ size ≤ u64_MAX
  | FileN digest size _ => length digest = 32%nat ∧ 0 ≤ size ≤ u64_MAX
  | SymlinkN target => SymlinkTarget.target_ok target
  end.

Definition dir_size_field (n : Node) : Z := match n with DirectoryN _ s => s | _ => 0 end.

(** The size of the documentation: every element, and the sizes of the
    directories among them. *)
Fixpoint total (d : Directory) : Z :=
  match d with
  | [] => 0
  | (_, n) :: d => 1 + dir_size_field n + total d
  end.

Definition entry_ok (x : bytes * Node) : Prop := name_ok x.1 ∧ node_ok x.2.

Record dir_ok (d : Directory) : Prop := {
  dir_sorted : bt_sorted d;
  dir_entries : Forall entry_ok d;
  dir_total : total d ≤ u64_MAX;
}.

Lemma dir_size_field_nonneg n : node_ok n → 0 ≤ dir_size_field n.
Proof. destruct n; simpl; lia. Qed.

Lemma total_app d1 d2 : total (d1 ++ d2) = total d1 + total d2.
Proof. induction d1 as [|[n x] d1 IH]; simpl; lia. Qed.

#[global] Instance total_proper : Proper ((≡ₚ) ==> (=)) total.
Proof.
  intros d1 d2 Hp. induction Hp as [|[? ?] ? ? _ IH|[? ?] [? ?] ?|? ? ? _ IH1 _ IH2]; simpl; lia.
Qed.

Lemma total_length d : Forall entry_ok d → Z.of_nat (length d) ≤ total d.
Proof.
  induction 1 as [|[n x] d [_ Hx] Hd IH]; simpl; [lia|]. apply dir_size_field_nonneg in Hx.
  simpl in Hx. lia.
Qed.

Lemma total_nonneg d : Forall entry_ok d → 0 ≤ total d.
Proof. intros Hd. pose proof (total_length d Hd). lia. Qed.

Lemma checked_sum_3 a b c :
  0 ≤ a → 0 ≤ b → 0 ≤ c →
  checked_sum [a; b; c] = if a + b + c <=? u64_MAX then Some (a + b + c) else None.
Proof.
  intros. unfold checked_sum, checked_sum_from, u64_checked_add.
  destruct (Z.leb_spec (0 + a) u64_MAX), (Z.leb_spec (a + b + c) u64_MAX); simpl; try lia; try done;
    repeat (case_match; simpl; try done; rewrite ?Z.leb_le, ?Z.leb_gt in *; try lia).
Qed.

(** [check_insert_node] on every branch. *)
Lemma check_insert_node_spec cur d n x :
  0 ≤ cur → node_ok x →
  check_insert_node cur d n x =
    if cur + 1 + dir_size_field x <=? u64_MAX
    then match bt_entry n d with
         | None => Ok (cur + 1 + dir_size_field x, bt_insert n x d)
         | Some (key, _) => Err (DuplicateName key)
         end
    else Err SizeOverflow.
Proof.
  intros Hc Hx. apply dir_size_field_nonneg in Hx. unfold check_insert_node.
  fold (dir_size_field x). rewrite checked_sum_3 by lia. by destruct (_ <=? _).
Qed.

Lemma insert_all_spec cur d l :
  0 ≤ cur → Forall (λ x, node_ok x.2) l → bt_sorted d →
  match insert_all cur d l with
  | Ok d' => NoDup (l ++ d).*1 ∧ bt_sorted d' ∧ d' ≡ₚ l ++ d ∧ (l ≠ [] → cur + total l ≤ u64_MAX)
  | Err (DuplicateName n) => n ∈ l.*1 ∧ ¬ NoDup (l ++ d).*1
  | Err SizeOverflow => u64_MAX < cur + total l
  | _ => False
  end.
Proof.
  intros Hc Hl. revert cur d Hc. induction Hl as [|[n x] l Hx Hl IH]; intros cur d Hc Hd.
  { simpl. split_and!; [by apply bt_sorted_NoDup|done|done|done]. }
  cbn [insert_all]. simpl in Hx. pose proof (dir_size_field_nonneg x Hx) as Hs.
  assert (0 ≤ total l) as Ht.
  { clear -Hl. induction Hl as [|[? y] l Hy Hl IH]; simpl; [done|].
    apply dir_size_field_nonneg in Hy. simpl in Hy. lia. }
  rewrite check_insert_node_spec by done.
  destruct (Z.leb_spec (cur + 1 + dir_size_field x) u64_MAX); simpl; [|lia].
  destruct (bt_entry n d) as [[key v]|] eqn:E; simpl.
  - apply bt_entry_key in E as [-> Hin]. split; [left|]. intros [Hn _]%NoDup_cons.
    apply Hn. rewrite fmap_app, elem_of_app, !list_elem_of_fmap. right. by exists (n, v).
  - specialize (IH (cur + 1 + dir_size_field x) (bt_insert n x d) ltac:(lia)
      (bt_insert_sorted n x d Hd)).
    assert (l ++ bt_insert n x d ≡ₚ (n, x) :: l ++ d) as Hp.
    { rewrite bt_insert_fresh by done. symmetry. apply Permutation_middle. }
    assert (NoDup (l ++ bt_insert n x d).*1 ↔ NoDup (((n, x) :: l) ++ d).*1) as Hnd by (by rewrite Hp).
    destruct (insert_all _ _ _) as [d'|[]|]; try done.
    + destruct IH as (Hn & ? & Hd' & Hsz). split_and!; [by apply Hnd|done|by rewrite Hd'|].
      intros _. destruct l; [simpl in *; lia|]. specialize (Hsz ltac:(done)). lia.
    + destruct IH as [? Hn]. split; [by right|]. intros ?. by apply Hn, Hnd.
    + lia.
Qed.

Lemma entries_nodes l : Forall entry_ok l → Forall (λ x, node_ok x.2) l.
Proof. intros Hl. eapply Forall_impl; [exact Hl|]. by intros x [_ ?]. Qed.

Lemma try_from_iter_cases l :
  Forall entry_ok l →
  match try_from_iter l with
  | Ok d => NoDup l.*1 ∧ dir_ok d ∧ d ≡ₚ l
  | Err (DuplicateName n) => n ∈ l.*1 ∧ ¬ NoDup l.*1
  | Err SizeOverflow => u64_MAX < total l
  | _ => False
  end.
Proof.
  intros Hl. pose proof (insert_all_spec 0 [] l ltac:(lia) (entries_nodes l Hl) ltac:(constructor)) as H.
  rewrite app_nil_r in H. unfold try_from_iter, new.
  destruct (insert_all 0 [] l) as [d|e|]; try done.
  destruct H as (Hn & Hd & Hp & Hs). split_and!; [done| |done]. constructor; [done|by rewrite Hp|].
  rewrite Hp. destruct l; [simpl; unfold u64_MAX; lia|]. by apply Hs.
Qed.

(** ** What [size] computes *)

Lemma u64_add_spec {E} dbg a b :
  0 ≤ a → 0 ≤ b →
  u64_add (E := E) dbg a b =
    if dbg then (if a + b <=? u64_MAX then Ok (a + b) else Panic) else Ok ((a + b) mod 2 ^ 64).
Proof.
  intros. unfold u64_add. destruct (Z.leb_spec (a + b) u64_MAX), dbg; try done.
  by rewrite Z.mod_small by (unfold u64_MAX in *; lia).
Qed.

Lemma sum_sizes_debug {E} acc d :
  0 ≤ acc ≤ u64_MAX → Forall (λ x, node_ok x.2) d →
  sum_sizes (E := E) true acc d = if acc + total d <=? u64_MAX then Ok (acc + total d) else Panic.
Proof.
  intros Hacc Hd. revert acc Hacc. induction Hd as [|[n x] d Hx Hd IH]; intros acc Hacc.
  - simpl. rewrite Z.add_0_r. by rewrite (proj2 (Z.leb_le _ _)) by lia.
  - assert (0 ≤ total d) as Ht.
    { clear -Hd. induction Hd as [|[? y] l Hy Hl IH]; simpl; [done|].
      apply dir_size_field_nonneg in Hy. simpl in Hy. lia. }
    cbn [sum_sizes total]. pose proof (dir_size_field_nonneg x Hx) as Hs. simpl in Hs.
    assert ((match x with DirectoryN _ size => u64_add true 1 size | _ => Ok 1 end : outcome E Z) =
      if 1 + dir_size_field x <=? u64_MAX then Ok (1 + dir_size_field x) else Panic) as ->.
    { destruct x; simpl; [by rewrite u64_add_spec by (simpl in *; lia)|done..]. }
    destruct (Z.leb_spec (1 + dir_size_field x) u64_MAX); simpl.
    2: by rewrite (proj2 (Z.leb_gt _ _)) by lia.
    rewrite u64_add_spec by lia. destruct (Z.leb_spec (acc + (1 + dir_size_field x)) u64_MAX); simpl.
    2: by rewrite (proj2 (Z.leb_gt _ _)) by lia.
    rewrite IH by lia. by replace (acc + (1 + dir_size_field x) + total d)
      with (acc + (1 + dir_size_field x + total d)) by lia.
Qed.

Lemma sum_sizes_release {E} acc d :
  0 ≤ acc < 2 ^ 64 → Forall (λ x, node_ok x.2) d →
  sum_sizes (E := E) false acc d = Ok ((acc + total d) mod 2 ^ 64).
Proof.
  intros Hacc Hd. revert acc Hacc. induction Hd as [|[n x] d Hx Hd IH]; intros acc Hacc.
  - simpl. by rewrite Z.add_0_r, Z.mod_small.
  - cbn [sum_sizes total]. pose proof (dir_size_field_nonneg x Hx) as Hs. simpl in Hs.
    assert ((match x with DirectoryN _ size => u64_add false 1 size | _ => Ok 1 end : outcome E Z) =
      Ok ((1 + dir_size_field x) mod 2 ^ 64)) as ->.
    { destruct x; simpl; [by rewrite u64_add_spec by (simpl in *; lia)|done..]. }
    simpl. rewrite u64_add_spec by (try apply Z.mod_pos_bound; lia). simpl.
    rewrite IH by (apply Z.mod_pos_bound; lia).
    rewrite Zplus_mod_idemp_l, <- Z.add_assoc, (Z.add_comm (_ mod _)), Z.add_assoc.
    rewrite Zplus_mod_idemp_r. do 2 f_equal. lia.
Qed.

Lemma size_spec {E} dbg d :
  dir_ok d →
  size (E := E) dbg d =
    if dbg then (if Z.of_nat (length d) + total d <=? u64_MAX
                 then Ok (Z.of_nat (length d) + total d) else Panic)
    else Ok ((Z.of_nat (length d) + total d) mod 2 ^ 64).
Proof.
  intros [_ He Ht]. pose proof (total_nonneg d He) as H0. apply entries_nodes in He.
  unfold size. destruct dbg.
  - rewrite sum_sizes_debug by (done || (unfold u64_MAX; lia)).
    rewrite Z.add_0_l, (proj2 (Z.leb_le _ _)) by done. simpl. by rewrite u64_add_spec by lia.
  - rewrite sum_sizes_release by (done || lia). simpl. rewrite Z.mod_small by (unfold u64_MAX in *; lia).
    by rewrite u64_add_spec by lia.
Qed.

Lemma add_cases dbg d n x :
  dir_ok d → name_ok n → node_ok x → Z.of_nat (length d) + total d ≤ u64_MAX →
  match add dbg d n x with
  | Ok d' => dir_ok d' ∧ d' ≡ₚ (n, x) :: d
  | Err (DuplicateName k) => k = n ∧ n ∈ d.*1
  | Err SizeOverflow => u64_MAX < Z.of_nat (length d) + total d + 1 + dir_size_field x
  | _ => False
  end.
Proof.
  intros Hd Hn Hx Hb. pose proof (dir_size_field_nonneg x Hx). pose proof (total_nonneg d (dir_entries d Hd)).
  unfold add. assert (size dbg d = Ok (E := DirectoryError) (Z.of_nat (length d) + total d)) as ->.
  { rewrite size_spec by done. rewrite (proj2 (Z.leb_le _ _)), Z.mod_small by (unfold u64_MAX in *; lia).
    by destruct dbg. }
  simpl. rewrite check_insert_node_spec by (done || lia).
  destruct (Z.leb_spec (Z.of_nat (length d) + total d + 1 + dir_size_field x) u64_MAX); simpl; [|done].
  destruct (bt_entry n d) as [[key v]|] eqn:E; simpl.
  - apply bt_entry_key in E as [-> Hin]. split; [done|]. apply list_elem_of_fmap. by exists (n, v).
  - assert (bt_insert n x d ≡ₚ (n, x) :: d) as Hp by by apply bt_insert_fresh.
    split; [|done]. constructor.
    + apply bt_insert_sorted, Hd.
    + rewrite Hp. constructor; [done|apply Hd].
    + rewrite Hp. simpl. lia.
Qed.

(** ** Properties *)

(** C31: [Directory::try_from_iter] on entries with valid names and nodes: it
    never panics; it succeeds only on distinct names, with a well-formed
    directory of exactly the given entries; it reports a duplicate only for a
    name that is given twice, and a size overflow only when the documented
    size exceeds [u64::MAX]. *)
Theorem try_from_iter_spec (l : list (bytes * Node)) :
  Forall entry_ok l →
  match try_from_iter l with
  | Ok d => NoDup l.*1 ∧ dir_ok d ∧ d ≡ₚ l
  | Err (DuplicateName n) => n ∈ l.*1 ∧ ¬ NoDup l.*1
  | Err SizeOverflow => u64_MAX < total l
  | _ => False
  end.
Proof. apply try_from_iter_cases. Qed.

Definition sample_digest : bytes := replicate 32 Byte.x01.
Definition sample_entries : list (bytes * Node) :=
  [(B "z", FileN sample_digest 5 true); (B "a", DirectoryN sample_digest 7); (B "m", SymlinkN (B "a"))].

Lemma sample_entries_ok : Forall entry_ok sample_entries.
Proof.
  repeat constructor; simpl; try done; try (unfold u64_MAX; lia);
    by apply (bool_decide_unpack _); vm_compute.
Qed.

Lemma try_from_iter_spec_witness :
  match try_from_iter sample_entries with
  | Ok d => NoDup sample_entries.*1 ∧ dir_ok d ∧ d ≡ₚ sample_entries
  | Err (DuplicateName n) => n ∈ sample_entries.*1 ∧ ¬ NoDup sample_entries.*1
  | Err SizeOverflow => u64_MAX < total sample_entries
  | _ => False
  end.
Proof. apply (try_from_iter_spec sample_entries), sample_entries_ok. Defined.

(** [Directory::add] keeps a directory well formed and adds exactly the
    entry, in both build profiles, as long as [Directory::size] of the
    directory does not overflow; it fails on a present name and when the new
    size, as it computes it, exceeds [u64::MAX]. *)
Theorem add_spec (dbg : bool) (d : Directory) (n : bytes) (x : Node) :
  dir_ok d → name_ok n → node_ok x → Z.of_nat (length d) + total d ≤ u64_MAX →
  match add dbg d n x with
  | Ok d' => dir_ok d' ∧ d' ≡ₚ (n, x) :: d
  | Err (DuplicateName k) => k = n ∧ n ∈ d.*1
  | Err SizeOverflow => u64_MAX < Z.of_nat (length d) + total d + 1 + dir_size_field x
  | _ => False
  end.
Proof. apply add_cases. Qed.

Lemma add_spec_witness :
  match add true [] (B "a") (DirectoryN sample_digest 7) with
  | Ok d' => dir_ok d' ∧ d' ≡ₚ [(B "a", DirectoryN sample_digest 7)]
  | Err (DuplicateName k) => k = B "a" ∧ B "a" ∈ ([] : Directory).*1
  | Err SizeOverflow => u64_MAX < Z.of_nat (length ([] : Directory)) + total [] + 1 + 7
  | _ => False
  end.
Proof.
  apply (add_spec true [] (B "a") (DirectoryN sample_digest 7)).
  - constructor; [constructor|constructor|simpl; unfold u64_MAX; lia].
  - by apply (bool_decide_unpack _); vm_compute.
  - simpl. split; [done|unfold u64_MAX; lia].
  - simpl. unfold u64_MAX. lia.
Defined.
