(* ===== verification/CastoreProto.v ===== *)
(** * [castore/src/proto/mod.rs]: conversion from and to protobuf

    The message types of [castore.proto] as records, and the conversions
    between them and the castore data model. *)

From stdpp Require Import strings sorting.
From S2P Require Import Prelude BTreeMap CastorePath Castore.
Import Component.
#[local] Open Scope Z_scope.

(** ** The messages *)

Record DirectoryNode := mkDirectoryNode { d_name : bytes; d_digest : bytes; d_size : Z }.
Record FileNode := mkFileNode { f_name : bytes; f_digest : bytes; f_size : Z; f_executable : bool }.
Record SymlinkNode := mkSymlinkNode { s_name : bytes; s_target : bytes }.

Record Message := mkDirectory {
  directories : list DirectoryNode;
  files : list FileNode;
  symlinks : list SymlinkNode;
}.

(** The [oneof] of the message [Node]. *)
Inductive node :=
| PDirectory (n : DirectoryNode)
| PFile (n : FileNode)
| PSymlink (n : SymlinkNode).

(** ** Sizes *)

(** [Directory::size_checked]; a [usize] fits a [u64]. *)
Definition size_checked (self : Message) : option Z :=
  inner ← checked_sum (d_size <$> directories self);
  checked_sum [Z.of_nat (length (files self)); Z.of_nat (length (symlinks self));
               Z.of_nat (length (directories self)); inner].

(** [Directory::size] *)
Definition proto_size {E} (dbg : bool) (self : Message) : outcome E Z :=
  if dbg then or_panic (size_checked self)
  else Ok (default u64_MAX (size_checked self)).

(** ** Nodes *)

Definition name_error {A} (m : outcome PathComponentError A) : outcome DirectoryError A :=
  omap_err InvalidName m.

(** [Node::try_into_unchecked_name_and_checked_node] *)
Definition try_into_unchecked_name_and_checked_node (self : option node)
    : outcome DirectoryError (bytes * Node) :=
  let? n := ok_or NoNodeSet self in
  match n with
  | PDirectory n =>
      let? digest := omap_err (λ e, InvalidNode (d_name n) (from_digest_error e))
                       (Digest.try_from (d_digest n)) in
      Ok (d_name n, DirectoryN digest (d_size n))
  | PFile n =>
      let? digest := omap_err (λ e, InvalidNode (f_name n) (from_digest_error e))
                       (Digest.try_from (f_digest n)) in
      Ok (f_name n, FileN digest (f_size n) (f_executable n))
  | PSymlink n =>
      let? target := omap_err (λ e, InvalidNode (s_name n) (InvalidSymlinkTarget e))
                       (SymlinkTarget.try_from (s_target n)) in
      Ok (s_name n, SymlinkN target)
  end.

(** [Node::try_into_name_and_node] *)
Definition try_into_name_and_node (self : option node) : outcome DirectoryError (bytes * Node) :=
  let? (name_bytes, node) := try_into_unchecked_name_and_checked_node self in
  let? name := name_error (Component.try_from name_bytes) in
  Ok (name, node).

(** [Node::try_into_anonymous_node] *)
Definition try_into_anonymous_node (self : option node) : outcome DirectoryError Node :=
  let? (name, node) := try_into_unchecked_name_and_checked_node self in
  if negb (bool_decide (name = [])) then Err NameInAnonymousNode else Ok node.

(** [Node::from_name_and_node] *)
Definition from_name_and_node (name : bytes) (n : Node) : option node :=
  Some match n with
       | DirectoryN digest size => PDirectory (mkDirectoryNode name digest size)
       | FileN digest size executable => PFile (mkFileNode name digest size executable)
       | SymlinkN target => PSymlink (mkSymlinkNode name target)
       end.

(** ** Directories *)

(** The [try_fold] over each list: names strictly increase, from "". *)
Fixpoint check_sorted (prev_name : bytes) (names : list bytes) : outcome DirectoryError unit :=
  match names with
  | [] => Ok tt
  | name :: names =>
      match rcmp name prev_name with
      | Lt => Err (WrongSorting name)
      | Eq => let? name := name_error (Component.try_from name) in Err (DuplicateName name)
      | Gt => check_sorted name names
      end
  end.

(** The [for] loops that push onto [elems]. *)
Fixpoint convert_all (elems : list (bytes * Node)) (ns : list node)
    : outcome DirectoryError (list (bytes * Node)) :=
  match ns with
  | [] => Ok elems
  | n :: ns =>
      let? e := try_into_name_and_node (Some n) in
      convert_all (elems ++ [e]) ns
  end.

(** [TryFrom<proto::Directory> for Directory] *)
Definition try_from (value : Message) : outcome DirectoryError Directory :=
  let? _ := check_sorted [] (d_name <$> directories value) in
  let? _ := check_sorted [] (f_name <$> files value) in
  let? _ := check_sorted [] (s_name <$> symlinks value) in
  let? elems := convert_all [] (PDirectory <$> directories value) in
  let? elems := convert_all elems (PFile <$> files value) in
  let? elems := convert_all elems (PSymlink <$> symlinks value) in
  try_from_iter elems.

(** The [for] loop of [From<Directory>]. *)
Fixpoint from_loop (acc : Message) (nodes : Directory) : Message :=
  match nodes with
  | [] => acc
  | (name, n) :: nodes =>
      from_loop
        match n with
        | FileN digest size executable =>
            mkDirectory (directories acc) (files acc ++ [mkFileNode name digest size executable])
              (symlinks acc)
        | DirectoryN digest size =>
            mkDirectory (directories acc ++ [mkDirectoryNode name digest size]) (files acc) (symlinks acc)
        | SymlinkN target =>
            mkDirectory (directories acc) (files acc) (symlinks acc ++ [mkSymlinkNode name target])
        end nodes
  end.

(** [From<Directory> for proto::Directory] *)
Definition from (value : Directory) : Message := from_loop (mkDirectory [] [] []) value.

(** [StatBlobResponse::validate], on the digests of the chunks. *)
Inductive ValidateStatBlobResponseError := InvalidChunkDigestLen (len i : nat).

Fixpoint validate_chunks (i : nat) (chunks : list bytes) : outcome ValidateStatBlobResponseError unit :=
  match chunks with
  | [] => Ok tt
  | digest :: chunks =>
      if negb (length digest =? 32)%nat then Err (InvalidChunkDigestLen (length digest) i)
      else validate_chunks (S i) chunks
  end.
Definition StatBlobResponse_validate (chunks : list bytes) := validate_chunks 0 chunks.

(** ** The parts of a directory, by kind *)

Definition as_dir (x : bytes * Node) : option DirectoryNode :=
  match x.2 with DirectoryN g s => Some (mkDirectoryNode x.1 g s) | _ => None end.
Definition as_file (x : bytes * Node) : option FileNode :=
  match x.2 with FileN g s e => Some (mkFileNode x.1 g s e) | _ => None end.
Definition as_symlink (x : bytes * Node) : option SymlinkNode :=
  match x.2 with SymlinkN t => Some (mkSymlinkNode x.1 t) | _ => None end.

Definition of_dir (n : DirectoryNode) : bytes * Node := (d_name n, DirectoryN (d_digest n) (d_size n)).
Definition of_file (n : FileNode) : bytes * Node := (f_name n, FileN (f_digest n) (f_size n) (f_executable n)).
Definition of_symlink (n : SymlinkNode) : bytes * Node := (s_name n, SymlinkN (s_target n)).

Lemma from_parts d :
  from d = mkDirectory (omap as_dir d) (omap as_file d) (omap as_symlink d).
Proof.
  unfold from. assert (∀ acc, from_loop acc d = mkDirectory (directories acc ++ omap as_dir d)
    (files acc ++ omap as_file d) (symlinks acc ++ omap as_symlink d)) as H; [|apply H].
  induction d as [|[n [g s|g s e|t]] d IH]; intros acc; simpl.
  - rewrite !app_nil_r. by destruct acc.
  - rewrite IH. simpl. by rewrite <- app_assoc.
  - rewrite IH. simpl. by rewrite <- app_assoc.
  - rewrite IH. simpl. by rewrite <- app_assoc.
Qed.

(** All entries a message lists, in the order they are converted. *)
Definition elements (p : Message) : list (bytes * Node) :=
  (of_dir <$> directories p) ++ (of_file <$> files p) ++ (of_symlink <$> symlinks p).

Lemma elements_from d : elements (from d) ≡ₚ d.
Proof.
  rewrite from_parts. unfold elements. simpl.
  induction d as [|[n [g s|g s e|t]] d IH]; simpl; [done|..].
  - by rewrite IH.
  - rewrite <- Permutation_middle. by rewrite IH.
  - rewrite app_assoc, <- Permutation_middle, <- app_assoc. by rewrite IH.
Qed.

(** ** Sorted names *)

Definition name_lt (a b : bytes) : Prop := rcmp a b = Lt.

#[global] Instance name_lt_trans : Transitive name_lt.
Proof. intros a b c. apply rcmp_lt_trans. Qed.

Lemma name_lt_asym a b : name_lt a b → name_lt b a → False.
Proof. unfold name_lt. rewrite (rcmp_antisym a b). by intros ->. Qed.

Lemma check_sorted_Ok prev names :
  check_sorted prev names = Ok tt ↔ StronglySorted name_lt (prev :: names).
Proof.
  revert prev. induction names as [|n names IH]; intros prev; simpl.
  { split; [|done]. intros _. repeat constructor. }
  destruct (rcmp n prev) eqn:E.
  - split; [|intros Hs]. { unfold name_error. destruct (Component.try_from n); done. }
    inversion Hs as [|? ? _ Hall]; subst. apply Forall_cons in Hall as [Hlt _].
    unfold name_lt in Hlt. by rewrite rcmp_antisym, E in Hlt.
  - split; [done|]. intros Hs. inversion Hs as [|? ? _ Hall]; subst.
    apply Forall_cons in Hall as [Hlt _]. by destruct (name_lt_asym prev n).
  - apply rcmp_gt_lt in E. rewrite IH. split; intros Hs; [|by inversion Hs].
    constructor; [done|]. inversion Hs as [|? ? Hs' Hall]; subst. constructor; [done|].
    eapply Forall_impl; [exact Hall|]. intros y ?. by eapply (name_lt_trans prev n).
Qed.

Lemma check_sorted_no_panic prev names : check_sorted prev names ≠ Panic.
Proof.
  revert prev. induction names as [|n names IH]; intros prev; simpl; [done|].
  destruct (rcmp n prev); [|done|done]. unfold name_error, Component.try_from.
  by destruct (component_name_cases n) as [[-> _]|(e & -> & _)].
Qed.

Lemma name_ok_nonempty n : name_ok n → name_lt [] n.
Proof. intros [Hn _]. by destruct n. Qed.

Lemma sorted_nil_cons names :
  Forall name_ok names → StronglySorted name_lt names → StronglySorted name_lt ([] :: names).
Proof. intros Hn Hs. constructor; [done|]. eapply Forall_impl; [exact Hn|apply name_ok_nonempty]. Qed.

(** Items with strictly increasing names are determined by their multiset. *)
Lemma sorted_names_unique {A} (f : A → bytes) l1 l2 :
  StronglySorted name_lt (f <$> l1) → StronglySorted name_lt (f <$> l2) → l1 ≡ₚ l2 → l1 = l2.
Proof.
  assert (∀ l, StronglySorted name_lt (f <$> l) → StronglySorted (λ x y, name_lt (f x) (f y)) l) as H.
  { induction l as [|x l IH]; intros Hs; [constructor|]. inversion Hs; subst.
    constructor; [by apply IH|]. exact (proj1 (Forall_fmap f (name_lt (f x)) l) H2). }
  intros H1%H H2%H. apply (StronglySorted_unique_strong (λ x y, name_lt (f x) (f y))); [|done|done].
  intros x y _ _ ? ?. by destruct (name_lt_asym (f x) (f y)).
Qed.

(** The items of one kind in a directory are sorted. *)
Lemma sorted_kind {A} (g : bytes * Node → option A) (f : A → bytes) d :
  (∀ x a, g x = Some a → f a = x.1) → bt_sorted d → StronglySorted name_lt (f <$> omap g d).
Proof.
  intros Hg. induction 1 as [|x d Hd IH Hall]; simpl; [constructor|].
  destruct (g x) as [a|] eqn:E; [|done]. simpl. constructor; [done|].
  rewrite (Hg _ _ E). clear IH Hd. induction Hall as [|y d Hy Hall IH]; simpl; [constructor|].
  destruct (g y) as [b|] eqn:E'; [|done]. simpl. constructor; [by rewrite (Hg _ _ E')|done].
Qed.

Lemma kind_ok {A} (g : bytes * Node → option A) (f : A → bytes) d :
  (∀ x a, g x = Some a → f a = x.1) → Forall entry_ok d → Forall name_ok (f <$> omap g d).
Proof.
  intros Hg. induction 1 as [|x d [Hx _] Hd IH]; simpl; [constructor|].
  destruct (g x) as [a|] eqn:E; [|done]. simpl. constructor; [by rewrite (Hg _ _ E)|done].
Qed.

Lemma as_dir_name x a : as_dir x = Some a → d_name a = x.1.
Proof. destruct x as [n []]; unfold as_dir; naive_solver. Qed.
Lemma as_file_name x a : as_file x = Some a → f_name a = x.1.
Proof. destruct x as [n []]; unfold as_file; naive_solver. Qed.
Lemma as_symlink_name x a : as_symlink x = Some a → s_name a = x.1.
Proof. destruct x as [n []]; unfold as_symlink; naive_solver. Qed.

(** ** Converting the elements *)

Definition node_entry (n : node) : bytes * Node :=
  match n with PDirectory n => of_dir n | PFile n => of_file n | PSymlink n => of_symlink n end.

(** The [u64] fields of a message are within their type. *)
Definition u64_range (z : Z) : Prop := 0 ≤ z ≤ u64_MAX.
Definition message_ok (p : Message) : Prop :=
  Forall (λ n, u64_range (d_size n)) (directories p) ∧ Forall (λ n, u64_range (f_size n)) (files p).
Definition node_range (n : node) : Prop :=
  match n with PDirectory n => u64_range (d_size n) | PFile n => u64_range (f_size n) | _ => True end.

Lemma digest_try_from_Ok g g' : Digest.try_from g = Ok g' ↔ g' = g ∧ length g = 32%nat.
Proof.
  unfold Digest.try_from, Digest.B3_LEN. destruct (Nat.eqb_spec (length g) 32); simpl; naive_solver.
Qed.

Lemma try_into_name_and_node_Ok n e :
  node_range n → try_into_name_and_node (Some n) = Ok e ↔ e = node_entry n ∧ entry_ok e.
Proof.
  intros Hr. unfold try_into_name_and_node, try_into_unchecked_name_and_checked_node, name_error. simpl.
  split.
  - intros E. destruct n as [n|n|n]; inv_ok; repeat case_match; simplify_eq; inv_ok;
      repeat match goal with
      | H : Digest.try_from _ = Ok _ |- _ => apply digest_try_from_Ok in H as [-> ?]
      | H : SymlinkTarget.try_from _ = Ok _ |- _ => apply SymlinkTarget.symlink_try_from_Ok in H as [-> ?]
      | H : Component.try_from _ = Ok _ |- _ => apply component_try_from_Ok in H as [-> ?]
      end; subst; done.
  - intros [-> [Hn Hx]]. destruct n as [n|n|n]; simpl in *.
    + rewrite (proj2 (digest_try_from_Ok _ _)) by (split; [done|apply Hx]). simpl.
      by rewrite (proj2 (component_try_from_Ok _ _)) by done.
    + rewrite (proj2 (digest_try_from_Ok _ _)) by (split; [done|apply Hx]). simpl.
      by rewrite (proj2 (component_try_from_Ok _ _)) by done.
    + rewrite (proj2 (SymlinkTarget.symlink_try_from_Ok _ _)) by done. simpl.
      by rewrite (proj2 (component_try_from_Ok _ _)) by done.
Qed.

Lemma convert_all_Ok acc ns out :
  Forall node_range ns →
  convert_all acc ns = Ok out ↔ out = acc ++ (node_entry <$> ns) ∧ Forall entry_ok (node_entry <$> ns).
Proof.
  intros Hr. revert acc. induction Hr as [|n ns Hn Hns IH]; intros acc; simpl.
  { rewrite app_nil_r. naive_solver. }
  rewrite obind_Ok. split.
  - intros (e & [-> He]%try_into_name_and_node_Ok & [-> ?]%IH); [|done].
    rewrite <- app_assoc. split; [done|by constructor].
  - intros [-> [He Hes]%Forall_cons]. exists (node_entry n).
    rewrite try_into_name_and_node_Ok, IH by done. by rewrite <- app_assoc.
Qed.

Lemma message_ranges p : message_ok p →
  Forall node_range (PDirectory <$> directories p) ∧ Forall node_range (PFile <$> files p) ∧
  Forall node_range (PSymlink <$> symlinks p).
Proof.
  intros [Hd Hf]. rewrite !Forall_fmap. split_and!; [exact Hd|exact Hf|]. by apply Forall_true.
Qed.

(** The conversion, as conditions on the message. *)
Lemma try_from_iff p d :
  message_ok p →
  try_from p = Ok d ↔
    StronglySorted name_lt ([] :: (d_name <$> directories p)) ∧
    StronglySorted name_lt ([] :: (f_name <$> files p)) ∧
    StronglySorted name_lt ([] :: (s_name <$> symlinks p)) ∧
    Forall entry_ok (elements p) ∧ try_from_iter (elements p) = Ok d.
Proof.
  intros (Rd & Rf & Rs)%message_ranges. unfold try_from, elements.
  assert (∀ A (f : A → node) (g : A → bytes * Node) (l : list A), (∀ a, node_entry (f a) = g a) →
    node_entry <$> (f <$> l) = g <$> l) as Hfm.
  { intros A f g l Hfg. rewrite <- list_fmap_compose. apply list_fmap_ext. intros; apply Hfg. }
  rewrite obind_Ok. setoid_rewrite obind_Ok. setoid_rewrite obind_Ok.
  setoid_rewrite obind_Ok. setoid_rewrite obind_Ok. setoid_rewrite obind_Ok.
  setoid_rewrite (convert_all_Ok _ _ _ Rd). setoid_rewrite (convert_all_Ok _ _ _ Rf).
  setoid_rewrite (convert_all_Ok _ _ _ Rs).
  rewrite !(Hfm _ PDirectory of_dir), !(Hfm _ PFile of_file), !(Hfm _ PSymlink of_symlink) by done.
  rewrite <- !check_sorted_Ok, !Forall_app. split.
  - intros ([] & ? & [] & ? & [] & ? & l1 & [-> ?] & l2 & [-> ?] & l3 & [-> ?] & E).
    rewrite <- !app_assoc in E. split_and!; done.
  - intros (? & ? & ? & (? & ? & ?) & E). do 3 (exists tt; split; [done|]).
    eexists. split; [done|]. eexists. split; [done|]. eexists. split; [done|].
    rewrite <- !app_assoc. done.
Qed.

Lemma message_from d : dir_ok d → message_ok (from d).
Proof.
  intros [_ He _]. rewrite from_parts. unfold message_ok. simpl.
  induction He as [|[n [g s|g s e|t]] d [_ Hx] Hd IH]; simpl in *; [by repeat constructor|..];
    destruct IH; repeat constructor; unfold u64_range; simpl; naive_solver.
Qed.

Lemma roundtrip_from d : dir_ok d → try_from (from d) = Ok d.
Proof.
  intros Hd. rewrite try_from_iff by by apply message_from. pose proof (elements_from d) as Hp.
  assert (Forall entry_ok (elements (from d))) as He by (rewrite Hp; apply Hd).
  rewrite from_parts. simpl. split_and!.
  - apply sorted_nil_cons; [eapply kind_ok|eapply sorted_kind]; try apply Hd; apply as_dir_name.
  - apply sorted_nil_cons; [eapply kind_ok|eapply sorted_kind]; try apply Hd; apply as_file_name.
  - apply sorted_nil_cons; [eapply kind_ok|eapply sorted_kind]; try apply Hd; apply as_symlink_name.
  - by rewrite <- from_parts.
  - rewrite <- from_parts. pose proof (try_from_iter_cases _ He) as H.
    destruct (try_from_iter (elements (from d))) as [d'|[]|]; try done.
    + destruct H as (_ & Hd' & Hp'). f_equal. apply bt_sorted_perm; [apply Hd'|apply Hd|by rewrite Hp'].
    + destruct H as [_ Hn]. destruct Hn. rewrite Hp. apply bt_sorted_NoDup, Hd.
    + rewrite Hp in H. destruct Hd. lia.
Qed.

Lemma omap_perm {A B} (f : A → option B) l1 l2 : l1 ≡ₚ l2 → omap f l1 ≡ₚ omap f l2.
Proof. intros ->. done. Qed.

Lemma elements_kinds p :
  omap as_dir (elements p) = directories p ∧ omap as_file (elements p) = files p ∧
  omap as_symlink (elements p) = symlinks p.
Proof.
  unfold elements. rewrite !omap_app.
  assert (∀ {A B} (f : A → bytes * Node) (g : bytes * Node → option B) (l : list A), (∀ a, g (f a) = None) →
    omap g (f <$> l) = []) as Hnone.
  { intros A B' f g l H. induction l as [|a l IH]; simpl; [done|]. by rewrite H. }
  assert (∀ {A} (f : A → bytes * Node) (g : bytes * Node → option A) (l : list A), (∀ a, g (f a) = Some a) →
    omap g (f <$> l) = l) as Hsome.
  { intros A f g l H. induction l as [|a l IH]; simpl; [done|]. rewrite H. by f_equal. }
  split_and!.
  - rewrite Hsome, !Hnone by (by intros []). by rewrite !app_nil_r.
  - rewrite (Hnone _ _ of_dir), Hsome, Hnone by (by intros []). by rewrite app_nil_r.
  - rewrite (Hnone _ _ of_dir), (Hnone _ _ of_file), Hsome by (by intros []). done.
Qed.

Lemma try_from_canonical p d : message_ok p → try_from p = Ok d → dir_ok d ∧ from d = p.
Proof.
  intros Hm (Sd & Sf & Ss & He & E)%try_from_iff; [|done].
  pose proof (try_from_iter_cases _ He) as H. rewrite E in H. destruct H as (_ & Hd & Hp).
  split; [done|]. rewrite from_parts. destruct (elements_kinds p) as (K1 & K2 & K3).
  inversion Sd; inversion Sf; inversion Ss; subst. destruct p as [ds fs ss]. simpl in *. f_equal.
  - apply (sorted_names_unique d_name); [|done|].
    + eapply sorted_kind; [apply as_dir_name|apply Hd].
    + rewrite <- K1. by apply omap_perm.
  - apply (sorted_names_unique f_name); [|done|].
    + eapply sorted_kind; [apply as_file_name|apply Hd].
    + rewrite <- K2. by apply omap_perm.
  - apply (sorted_names_unique s_name); [|done|].
    + eapply sorted_kind; [apply as_symlink_name|apply Hd].
    + rewrite <- K3. by apply omap_perm.
Qed.

(** ** Sizes *)

Lemma checked_sum_from_Some acc l :
  0 ≤ acc → Forall (λ z, 0 ≤ z) l → acc + foldr Z.add 0 l ≤ u64_MAX →
  checked_sum_from acc l = Some (acc + foldr Z.add 0 l).
Proof.
  intros Hacc Hl. revert acc Hacc. induction Hl as [|z l Hz Hl IH]; intros acc Hacc Hb; simpl in *.
  { f_equal. lia. }
  assert (0 ≤ foldr Z.add 0 l) as Hs by (clear -Hl; induction Hl; simpl; lia).
  unfold u64_checked_add. rewrite (proj2 (Z.leb_le _ _)) by lia. simpl.
  rewrite IH by lia. f_equal. lia.
Qed.

Lemma total_kinds d :
  total d = Z.of_nat (length (omap as_file d)) + Z.of_nat (length (omap as_symlink d)) +
    Z.of_nat (length (omap as_dir d)) + foldr Z.add 0 (d_size <$> omap as_dir d).
Proof.
  induction d as [|[n [g s|g s e|t]] d IH]; [done|..]; cbn [total dir_size_field]; rewrite IH;
    unfold omap, fmap; cbn [list_omap list_fmap as_dir as_file as_symlink snd length foldr d_size]; lia.
Qed.

Lemma proto_size_from {E} dbg d : dir_ok d → proto_size (E := E) dbg (from d) = Ok (total d).
Proof.
  intros Hd. assert (size_checked (from d) = Some (total d)) as Es; [|unfold proto_size; rewrite Es; by destruct dbg].
  pose proof (message_from d Hd) as [Hr _]. destruct Hd as [_ _ Ht].
  rewrite from_parts in *. unfold size_checked. simpl in *. rewrite total_kinds in *.
  assert (Forall (λ z, 0 ≤ z) (d_size <$> omap as_dir d)) as Hz.
  { apply Forall_fmap. eapply Forall_impl; [exact Hr|]. intros n [? _]. done. }
  assert (0 ≤ foldr Z.add 0 (d_size <$> omap as_dir d)) as Hs by (clear -Hz; induction Hz; simpl; lia).
  unfold checked_sum. rewrite checked_sum_from_Some by (done || lia). simpl.
  change (checked_sum_from 0 [Z.of_nat (length (omap as_file d)); Z.of_nat (length (omap as_symlink d));
    Z.of_nat (length (omap as_dir d)); foldr Z.add 0 (d_size <$> omap as_dir d)] =
    Some (Z.of_nat (length (omap as_file d)) + Z.of_nat (length (omap as_symlink d)) +
    Z.of_nat (length (omap as_dir d)) + foldr Z.add 0 (d_size <$> omap as_dir d))).
  rewrite checked_sum_from_Some; [f_equal; simpl; lia|lia|repeat constructor; lia|simpl; lia].
Qed.

(** ** Properties *)

(** C9: a protobuf directory whose [u64] fields are in range converts to [d]
    exactly when [d] is well formed and the message is the one [d] converts
    to. So conversion is lossless in both directions, and no other message
    (unsorted, with a bad name, digest or target, with a duplicate across
    lists, or too large) is accepted: the encoding is canonical. *)
Theorem proto_directory_canonical (p : Message) (d : Directory) :
  message_ok p → try_from p = Ok d ↔ dir_ok d ∧ p = from d.
Proof.
  intros Hm. split.
  - intros E. destruct (try_from_canonical p d Hm E) as [? <-]. done.
  - intros [Hd ->]. by apply roundtrip_from.
Qed.

Definition sample_message : Message :=
  mkDirectory [mkDirectoryNode (B "a") sample_digest 7] [mkFileNode (B "z") sample_digest 5 true]
    [mkSymlinkNode (B "m") (B "a")].

Lemma proto_directory_canonical_witness :
  dir_ok [(B "a", DirectoryN sample_digest 7); (B "m", SymlinkN (B "a")); (B "z", FileN sample_digest 5 true)].
Proof.
  apply (proto_directory_canonical sample_message); [|by vm_compute].
  split; repeat constructor; unfold u64_range, u64_MAX; simpl; lia.
Defined.

(** The two sizes of one directory. [proto::Directory::size] is the
    documented number of elements plus the sizes of the directories among
    them, and never overflows on a well-formed directory.
    [Directory::size] counts every element twice: with debug assertions it is
    that size plus the number of elements, or a panic when the sum exceeds
    [u64::MAX]; without, the same modulo 2^64. The two differ on every
    directory that is not empty. *)
Theorem size_counts_twice (dbg : bool) (d : Directory) :
  dir_ok d →
  proto_size (E := DirectoryError) dbg (from d) = Ok (total d) ∧
  size (E := DirectoryError) dbg d =
    (if dbg then (if Z.of_nat (length d) + total d <=? u64_MAX
                  then Ok (Z.of_nat (length d) + total d) else Panic)
     else Ok ((Z.of_nat (length d) + total d) mod 2 ^ 64)) ∧
  (d ≠ [] → size (E := DirectoryError) dbg d ≠ proto_size dbg (from d)).
Proof.
  intros Hd. rewrite proto_size_from, size_spec by done. split_and!; [done|done|].
  intros Hne. pose proof (total_length d (dir_entries d Hd)) as Hl. destruct Hd as [_ _ Ht].
  assert (0 < Z.of_nat (length d)) by (destruct d; simpl in *; [done|lia]). unfold u64_MAX in *.
  destruct dbg.
  - case_match; [|done]. intros [= E]. lia.
  - intros [= E]. destruct (decide (Z.of_nat (length d) + total d < 2 ^ 64)) as [Hb|Hb].
    + rewrite Z.mod_small in E by lia. lia.
    + rewrite <- (Z_mod_plus_full _ (-1)), Z.mod_small in E; lia.
Qed.

Lemma size_counts_twice_witness :
  size (E := DirectoryError) true [(B "a", SymlinkN (B "b"))] ≠
    proto_size true (from [(B "a", SymlinkN (B "b"))]).
Proof.
  apply (size_counts_twice true [(B "a", SymlinkN (B "b"))]); [|done].
  constructor; [repeat constructor| |simpl; unfold u64_MAX; lia].
  constructor; [|constructor]. split; [by apply (bool_decide_unpack _); vm_compute|].
  apply (bool_decide_unpack _). by vm_compute.
Defined.

(** A consequence. A directory that [try_from_iter] accepts can be one on
    which [size] panics with debug assertions; without them [add] computes the
    current size as 0, accepts one element too many, and the result no longer
    survives the conversion to protobuf and back. *)
Theorem add_after_size_overflow :
  let d := [(B "a", DirectoryN sample_digest (u64_MAX - 1))] in
  try_from_iter d = Ok d ∧ size (E := DirectoryError) true d = Panic ∧
  ∃ d', add false d (B "b") (SymlinkN (B "a")) = Ok d' ∧ try_from (from d') = Err SizeOverflow.
Proof.
  split_and!; [by vm_compute|by vm_compute|].
  exists [(B "a", DirectoryN sample_digest (u64_MAX - 1)); (B "b", SymlinkN (B "a"))].
  split; by vm_compute.
Qed.
