(* ===== verification/CastoreOrder.v ===== *)
(** * [castore/src/directoryservice/order_validator.rs]: insertion orders

    The trait [OrderValidator] as a class, its two implementations over a
    [HashSet] of digests, and what a sequence of accepted directories is. The
    digest of a directory is a hash of its protobuf encoding; the hash and the
    encoder are parameters. *)

From stdpp Require Import strings gmap.
From S2P Require Import Prelude BTreeMap Castore CastoreProto.
#[local] Open Scope nat_scope.

(** [prost::Message::encode_to_vec] and [blake3::Hasher] *)
Class DirectoryHash := {
  encode_to_vec : Message → bytes;
  blake3 : bytes → bytes;
}.

(** [Directory::digest], of [proto/mod.rs] and [nodes/directory.rs] *)
Definition digest `{DirectoryHash} (d : Directory) : bytes := blake3 (encode_to_vec (from d)).

(** The digests of the subdirectories, in iteration order. *)
Definition child_digests (d : Directory) : list bytes :=
  omap (λ x, match x.2 with DirectoryN g _ => Some g | _ => None end) d.

(** The trait [OrderValidator] *)
Class OrderValidator (V : Type) := add_directory : V → Directory → V * bool.

(** Adding directories until one is refused. *)
Fixpoint add_all `{OrderValidator V} (o : V) (ds : list Directory) : option V :=
  match ds with
  | [] => Some o
  | d :: ds =>
      match add_directory o d with
      | (o, true) => add_all o ds
      | (_, false) => None
      end
  end.

(** ** [LeavesToRootValidator] *)

Record LeavesToRootValidator := mkLeavesToRoot { allowed_references : gset bytes }.
Definition leaves_to_root_default : LeavesToRootValidator := mkLeavesToRoot ∅.

#[global] Instance LeavesToRoot_OrderValidator `{DirectoryHash} : OrderValidator LeavesToRootValidator :=
  λ self directory,
    if forallb (λ g, bool_decide (g ∈ allowed_references self)) (child_digests directory)
    then (mkLeavesToRoot ({[ digest directory ]} ∪ allowed_references self), true)
    else (self, false).

(** ** [RootToLeavesValidator] *)

Record RootToLeavesValidator := mkRootToLeaves { expected_digests : gset bytes }.
Definition root_to_leaves_default : RootToLeavesValidator := mkRootToLeaves ∅.

Definition new_with_root_digest (root_digest : bytes) : RootToLeavesValidator :=
  mkRootToLeaves ({[ root_digest ]} ∪ expected_digests root_to_leaves_default).

Definition digest_allowed (self : RootToLeavesValidator) (g : bytes) : bool :=
  bool_decide (expected_digests self = ∅) || bool_decide (g ∈ expected_digests self).

Definition add_directory_unchecked `{DirectoryHash} (self : RootToLeavesValidator) (directory : Directory)
    : RootToLeavesValidator :=
  let expected := if bool_decide (expected_digests self = ∅)
                  then {[ digest directory ]} ∪ expected_digests self else expected_digests self in
  mkRootToLeaves (foldl (λ s g, {[ g ]} ∪ s) expected (child_digests directory)).

#[global] Instance RootToLeaves_OrderValidator `{DirectoryHash} : OrderValidator RootToLeavesValidator :=
  λ self directory,
    if negb (digest_allowed self (digest directory)) then (self, false)
    else (add_directory_unchecked self directory, true).

(** ** Accepted sequences *)

Section Orders.
Context `{DirectoryHash}.

Lemma elem_of_inserted (l : list bytes) (s : gset bytes) g :
  g ∈ foldl (λ s g, {[ g ]} ∪ s) s l ↔ g ∈ l ∨ g ∈ s.
Proof.
  revert s. induction l as [|x l IH]; intros s; simpl; [set_solver|]. rewrite IH. set_solver.
Qed.

(** The rule of each order, for the directory after [before]. *)
Definition leaves_first (before : list Directory) (d : Directory) : Prop :=
  ∀ g, g ∈ child_digests d → g ∈ digest <$> before.
Definition root_first (root : bytes) (before : list Directory) (d : Directory) : Prop :=
  digest d = root ∨ ∃ d', d' ∈ before ∧ digest d ∈ child_digests d'.

Fixpoint in_order (rule : list Directory → Directory → Prop) (before ds : list Directory) : Prop :=
  match ds with
  | [] => True
  | d :: ds => rule before d ∧ in_order rule (before ++ [d]) ds
  end.

Lemma leaves_add_all o before ds :
  (∀ g, g ∈ allowed_references o ↔ g ∈ digest <$> before) →
  is_Some (add_all o ds) ↔ in_order leaves_first before ds.
Proof.
  revert o before. induction ds as [|d ds IH]; intros o before Ho; simpl; [by split; eauto|].
  unfold add_directory, LeavesToRoot_OrderValidator.
  destruct (forallb _ (child_digests d)) eqn:E.
  - rewrite (IH _ (before ++ [d])).
    2:{ intros g. simpl. rewrite elem_of_union, elem_of_singleton, Ho, fmap_app, elem_of_app. set_solver. }
    split; [|by intros [_ ?]]. intros ?. split; [|done]. intros g Hg. apply Ho.
    rewrite forallb_forall in E. by apply (bool_decide_eq_true_1 _), E, list_elem_of_In.
  - split; [by intros [? ?]|]. intros [Hd _].
    apply not_true_iff_false in E. destruct E. apply forallb_forall. intros g Hg.
    apply bool_decide_eq_true, Ho, Hd. by apply list_elem_of_In.
Qed.

Lemma root_add_all r o before ds :
  (∀ g, g ∈ expected_digests o ↔ g = r ∨ ∃ d', d' ∈ before ∧ g ∈ child_digests d') →
  is_Some (add_all o ds) ↔ in_order (root_first r) before ds.
Proof.
  revert o before. induction ds as [|d ds IH]; intros o before Ho; simpl; [by split; eauto|].
  assert (expected_digests o ≠ ∅) as Hne.
  { intros Hz. assert (r ∈ expected_digests o) as Hr by (apply Ho; auto). set_solver. }
  unfold add_directory, RootToLeaves_OrderValidator, digest_allowed.
  rewrite bool_decide_eq_false_2 by done. simpl. case_bool_decide as Hd; simpl.
  - rewrite (IH _ (before ++ [d])).
    2:{ intros g. unfold add_directory_unchecked. rewrite bool_decide_eq_false_2 by done. simpl.
        rewrite elem_of_inserted, Ho. setoid_rewrite elem_of_app. setoid_rewrite list_elem_of_singleton.
        naive_solver. }
    split; [|by intros [_ ?]]. intros ?. split; [|done]. by apply Ho.
  - split; [by intros [? ?]|]. intros [Hr _]. destruct Hd. by apply Ho.
Qed.

(** Uploading. The leaves-to-root validator accepts a sequence of
    directories exactly when every subdirectory each one refers to is the
    digest of a directory that came before it. *)
Theorem leaves_to_root_accepts (ds : list Directory) :
  is_Some (add_all leaves_to_root_default ds) ↔ in_order leaves_first [] ds.
Proof. apply leaves_add_all. simpl. set_solver. Qed.

(** Downloading. The root-to-leaves validator with a given root accepts a
    sequence exactly when each directory is the root or a child of a directory
    that came before it. Without a given root, the first directory becomes it. *)
Theorem root_to_leaves_accepts (root : bytes) (ds : list Directory) :
  (is_Some (add_all (new_with_root_digest root) ds) ↔ in_order (root_first root) [] ds) ∧
  (is_Some (add_all root_to_leaves_default ds) ↔
     match ds with [] => True | d :: _ => in_order (root_first (digest d)) [] ds end).
Proof.
  split.
  { apply root_add_all. intros g. simpl. rewrite elem_of_union, elem_of_singleton.
    setoid_rewrite elem_of_nil. set_solver. }
  destruct ds as [|d ds]; [by split; eauto|]. cbn [add_all].
  unfold add_directory at 1, RootToLeaves_OrderValidator at 1, digest_allowed.
  rewrite bool_decide_eq_true_2 by done. simpl.
  rewrite (root_add_all (digest d) _ [d]).
  - split; [|by intros [_ ?]]. intros ?. split; [by left|done].
  - intros g. unfold add_directory_unchecked. rewrite bool_decide_eq_true_2 by done. simpl.
    rewrite elem_of_inserted. setoid_rewrite list_elem_of_singleton. set_solver.
Qed.
End Orders.
