(* ===== verification/PetGraph.v ===== *)
(** * The [petgraph] crate

    What the closure validator uses of [petgraph::graph::DiGraph]: a class of
    operations, a class of the laws its documentation states in terms of
    [raw_nodes] and [raw_edges], and an instance. Indices of nodes and edges
    count from 0 in the order of insertion; the order in which adjacent edges
    are walked is left open, and so is the order of a traversal as far as the
    kind of traversal leaves it open. *)

From stdpp Require Import base list gmap sorting relations.
From S2P Require Import Prelude.
#[local] Open Scope nat_scope.

Class PetGraph := {
  DiGraph : Type → Type → Type;
  new_graph {N E} : DiGraph N E;
  raw_nodes {N E} : DiGraph N E → list N;
  raw_edges {N E} : DiGraph N E → list (nat * nat * E);
  add_node {N E} : DiGraph N E → N → DiGraph N E * nat;
  add_edge {N E} : DiGraph N E → nat → nat → E → DiGraph N E;
  set_node_weight {N E} : DiGraph N E → nat → N → DiGraph N E;
  set_edge_weight {N E} : DiGraph N E → nat → E → DiGraph N E;
  (** [edges_directed(i, Incoming)], the edges' ids *)
  incoming_edges {N E} : DiGraph N E → nat → list nat;
  bfs {N E} : DiGraph N E → nat → list nat;
  dfs_post_order {N E} : DiGraph N E → nat → list nat;
}.

(** [u] has an edge to [v]. *)
Definition edge {E} (es : list (nat * nat * E)) (u v : nat) : Prop := ∃ w, (u, v, w) ∈ es.

(** [v] comes before [u] in the list. *)
Definition before (l : list nat) (v u : nat) : Prop :=
  ∀ i j, l !! i = Some v → l !! j = Some u → i < j.

(** The edges lead to nodes that exist. *)
Definition edges_ok {N E} (ns : list N) (es : list (nat * nat * E)) : Prop :=
  ∀ u v, edge es u v → u < length ns ∧ v < length ns.

Class PetGraphLaws `{PetGraph} : Prop := {
  new_nodes N E : raw_nodes (new_graph (N := N) (E := E)) = [];
  new_edges N E : raw_edges (new_graph (N := N) (E := E)) = [];
  add_node_index {N E} (g : DiGraph N E) n : (add_node g n).2 = length (raw_nodes g);
  add_node_nodes {N E} (g : DiGraph N E) n : raw_nodes (add_node g n).1 = raw_nodes g ++ [n];
  add_node_edges {N E} (g : DiGraph N E) n : raw_edges (add_node g n).1 = raw_edges g;
  add_edge_nodes {N E} (g : DiGraph N E) u v e : raw_nodes (add_edge g u v e) = raw_nodes g;
  add_edge_edges {N E} (g : DiGraph N E) u v e :
    u < length (raw_nodes g) → v < length (raw_nodes g) →
    raw_edges (add_edge g u v e) = raw_edges g ++ [(u, v, e)];
  set_node_nodes {N E} (g : DiGraph N E) i n : raw_nodes (set_node_weight g i n) = <[i := n]> (raw_nodes g);
  set_node_edges {N E} (g : DiGraph N E) i n : raw_edges (set_node_weight g i n) = raw_edges g;
  set_edge_nodes {N E} (g : DiGraph N E) i e : raw_nodes (set_edge_weight g i e) = raw_nodes g;
  set_edge_edges {N E} (g : DiGraph N E) i e :
    raw_edges (set_edge_weight g i e) = alter (λ x, (x.1.1, x.1.2, e)) i (raw_edges g);
  incoming_edges_NoDup {N E} (g : DiGraph N E) v : NoDup (incoming_edges g v);
  incoming_edges_spec {N E} (g : DiGraph N E) v i :
    i ∈ incoming_edges g v ↔ ∃ u e, raw_edges g !! i = Some (u, v, e);
  bfs_NoDup {N E} (g : DiGraph N E) r :
    edges_ok (raw_nodes g) (raw_edges g) → r < length (raw_nodes g) → NoDup (bfs g r);
  bfs_reachable {N E} (g : DiGraph N E) r v :
    edges_ok (raw_nodes g) (raw_edges g) → r < length (raw_nodes g) →
    v ∈ bfs g r ↔ rtc (edge (raw_edges g)) r v;
  dfs_NoDup {N E} (g : DiGraph N E) r :
    edges_ok (raw_nodes g) (raw_edges g) → r < length (raw_nodes g) → NoDup (dfs_post_order g r);
  dfs_reachable {N E} (g : DiGraph N E) r v :
    edges_ok (raw_nodes g) (raw_edges g) → r < length (raw_nodes g) →
    v ∈ dfs_post_order g r ↔ rtc (edge (raw_edges g)) r v;
  (** A node is left after the nodes it leads to, cycles aside. *)
  dfs_post {N E} (g : DiGraph N E) r u v :
    edges_ok (raw_nodes g) (raw_edges g) → r < length (raw_nodes g) →
    edge (raw_edges g) u v → ¬ rtc (edge (raw_edges g)) v u → before (dfs_post_order g r) v u;
}.

(** ** An instance *)

Module GraphModel.

Record Graph (N E : Type) := mkGraph { nodes : list N; edges : list (nat * nat * E) }.
Arguments mkGraph {N E} _ _.
Arguments nodes {N E} _.
Arguments edges {N E} _.

Definition successors {E} (es : list (nat * nat * E)) (s : gset nat) : gset nat :=
  list_to_set ((λ x, x.1.2) <$> filter (λ x, x.1.1 ∈ s) es).

(** What can be reached from [s] in [fuel] rounds. *)
Fixpoint close {E} (fuel : nat) (es : list (nat * nat * E)) (s : gset nat) : gset nat :=
  match fuel with
  | 0 => s
  | S fuel => if decide (successors es s ⊆ s) then s else close fuel es (s ∪ successors es s)
  end.

Definition reach {N E} (g : Graph N E) (r : nat) : gset nat := close (length (nodes g)) (edges g) {[ r ]}.

(** Nodes that reach fewer come first. *)
Definition narrower {N E} (g : Graph N E) (u v : nat) : Prop := size (reach g u) ≤ size (reach g v).
#[export] Instance narrower_dec {N E} (g : Graph N E) u v : Decision (narrower g u v) := decide (_ ≤ _).

#[export] Instance pet_graph : PetGraph := {|
  DiGraph := Graph;
  new_graph _ _ := mkGraph [] [];
  raw_nodes _ _ g := nodes g;
  raw_edges _ _ g := edges g;
  add_node _ _ g n := (mkGraph (nodes g ++ [n]) (edges g), length (nodes g));
  add_edge _ _ g u v e := mkGraph (nodes g) (edges g ++ [(u, v, e)]);
  set_node_weight _ _ g i n := mkGraph (<[i := n]> (nodes g)) (edges g);
  set_edge_weight _ _ g i e := mkGraph (nodes g) (alter (λ x, (x.1.1, x.1.2, e)) i (edges g));
  incoming_edges _ _ g v := (λ x, x.1) <$> filter (λ x, x.2.1.2 = v) (imap pair (edges g));
  bfs _ _ g r := elements (reach g r);
  dfs_post_order _ _ g r := merge_sort (narrower g) (elements (reach g r));
|}.

Lemma elem_of_successors {E} (es : list (nat * nat * E)) s v :
  v ∈ successors es s ↔ ∃ u, u ∈ s ∧ edge es u v.
Proof.
  unfold successors, edge. rewrite elem_of_list_to_set, list_elem_of_fmap. setoid_rewrite list_elem_of_filter. split.
  - intros ([[u v'] e] & -> & Hu & Hin). cbn in *. eauto.
  - intros (u & Hu & e & Hin). by exists (u, v, e).
Qed.

(** The closure within a set that contains the start and all targets. *)
Lemma close_spec {E} fuel (es : list (nat * nat * E)) (s U : gset nat) v :
  s ⊆ U → (∀ u v, edge es u v → v ∈ U) → size U ≤ size s + fuel →
  v ∈ close fuel es s ↔ ∃ u, u ∈ s ∧ rtc (edge es) u v.
Proof.
  revert s. induction fuel as [|fuel IH]; intros s Hs HU Hsz; cbn.
  - split; [eauto using rtc_refl|]. intros (u & Hu & Hr).
    assert (s = U) as -> by (apply set_eq; intros x; apply set_subseteq_size_eq in Hs; [set_solver|lia]).
    induction Hr as [|x y z Hxy _ IHr]; [done|]. eauto.
  - case_decide as Hc.
    + clear IH. split; [eauto using rtc_refl|]. intros (u & Hu & Hr). induction Hr as [|x y z Hxy _ IHr]; [done|].
      apply IHr, Hc, elem_of_successors. by exists x.
    + assert (s ∪ successors es s ⊆ U) as HU'.
      { apply union_subseteq. split; [done|]. intros x (u & _ & ?)%elem_of_successors. eauto. }
      assert (size s < size (s ∪ successors es s)) by (apply subset_size; set_solver).
      rewrite IH by (done || lia). split.
      * intros (u & [Hu|(u' & Hu' & He)%elem_of_successors]%elem_of_union & Hr); [eauto|].
        exists u'. split; [done|]. by eapply rtc_l.
      * intros (u & Hu & Hr). exists u. set_solver.
Qed.

Lemma reach_spec {N E} (g : Graph N E) r v :
  edges_ok (nodes g) (edges g) → r < length (nodes g) → v ∈ reach g r ↔ rtc (edge (edges g)) r v.
Proof.
  intros Hok Hr. unfold reach.
  rewrite (close_spec _ _ _ (set_seq 0 (length (nodes g)))).
  - set_solver.
  - intros x ->%elem_of_singleton. apply elem_of_set_seq. lia.
  - intros u w Huw. apply elem_of_set_seq. apply Hok in Huw. lia.
  - rewrite size_set_seq. lia.
Qed.

Lemma reach_lt {N E} (g : Graph N E) r v :
  edges_ok (nodes g) (edges g) → r < length (nodes g) → rtc (edge (edges g)) r v → v < length (nodes g).
Proof.
  intros Hok Hr H. revert Hr. induction H as [|x y z Hxy _ IH]; [done|]. intros _. apply IH. by destruct (Hok _ _ Hxy).
Qed.

#[export] Instance narrower_trans {N E} (g : Graph N E) : Transitive (narrower g).
Proof. intros u v w. unfold narrower. lia. Qed.
#[export] Instance narrower_total {N E} (g : Graph N E) : Total (narrower g).
Proof. intros u v. unfold narrower. lia. Qed.

Lemma elem_of_imap_pair {A} (l : list A) i x : (i, x) ∈ imap pair l ↔ l !! i = Some x.
Proof.
  rewrite list_elem_of_lookup. setoid_rewrite list_lookup_imap. split.
  - intros (j & (y & ? & ?)%fmap_Some). by simplify_eq.
  - intros Hi. exists i. by rewrite Hi.
Qed.

Lemma NoDup_imap_pair {A} (l : list A) : NoDup (imap pair l).
Proof.
  apply NoDup_alt. intros i j x. rewrite !list_lookup_imap. intros (y & ? & ->)%fmap_Some (z & ? & ?)%fmap_Some.
  by simplify_eq.
Qed.

(** In a sorted list, what is not above comes first. *)
Lemma sorted_before (R : relation nat) l v u :
  StronglySorted R l → (u ∈ l → v ∈ l → ¬ R u v) → u ≠ v → before l v u.
Proof.
  intros Hs Hn Hne i j Hi Hj. destruct (decide (i < j)) as [|Hij]; [done|]. exfalso.
  assert (j ≠ i) by (intros ->; congruence).
  apply Hn; [by eapply list_elem_of_lookup_2..|].
  rewrite <- (take_drop i l) in Hs. apply StronglySorted_app in Hs as (Hs & _ & _).
  apply Hs; apply list_elem_of_lookup.
  - exists j. rewrite lookup_take_Some. split; [done|lia].
  - exists 0. by rewrite lookup_drop, Nat.add_0_r.
Qed.

#[export] Instance pet_graph_laws : PetGraphLaws.
Proof.
  split; try done; intros N E g.
  - intros v. cbn. apply NoDup_fmap_fst; [|apply NoDup_filter, NoDup_imap_pair].
    intros i x y (_ & Hx)%list_elem_of_filter (_ & Hy)%list_elem_of_filter.
    apply elem_of_imap_pair in Hx, Hy. congruence.
  - intros v i. cbn. rewrite list_elem_of_fmap. setoid_rewrite list_elem_of_filter. split.
    + intros ([j [[u w] e]] & -> & Hw & Hin%elem_of_imap_pair). cbn in *. subst. eauto.
    + intros (u & e & Hi). exists (i, (u, v, e)). split_and!; [done..|]. by apply elem_of_imap_pair.
  - intros r _ _. apply NoDup_elements.
  - intros r v Hok Hr. cbn. rewrite elem_of_elements. by apply reach_spec.
  - intros r _ _. cbn. rewrite merge_sort_Permutation. apply NoDup_elements.
  - intros r v Hok Hr. cbn. rewrite merge_sort_Permutation, elem_of_elements. by apply reach_spec.
  - intros r u v Hok Hr Huv Hvu. cbn in *. apply (sorted_before (narrower g)); [| |intros ->; by apply Hvu].
    + apply StronglySorted_merge_sort; apply _.
    + intros Hu Hv Hn. rewrite merge_sort_Permutation, elem_of_elements, reach_spec in Hu by done.
      assert (u < length (nodes g) ∧ v < length (nodes g)) as [Hlu Hlv] by by apply Hok.
      assert (reach g v ⊂ reach g u) as Hsub%subset_size; [|unfold narrower in Hn; lia].
      split.
      * intros x. rewrite !reach_spec by done. intros Hx. by eapply rtc_l.
      * intros Hsub. apply Hvu. rewrite <- reach_spec by done. apply Hsub. rewrite reach_spec by done. constructor.
Qed.

End GraphModel.
