(* ===== verification/DirectoryGraph.v ===== *)
(** * [castore/src/directoryservice/directory_graph.rs]: directory closures

    A graph of the directories received, with an edge to every subdirectory,
    that is checked while it is filled and again when it is complete. The
    graph is a [PetGraph]. *)

From stdpp Require Import strings gmap sorting relations.
From S2P Require Import Prelude BTreeMap Castore CastoreProto CastoreOrder PetGraph.
#[local] Open Scope nat_scope.

Record EdgeWeight := mkEdgeWeight { edge_name : bytes; edge_size : Z }.

(** The message of [Error::ValidationError]. *)
Inductive Reason :=
| WrongSize (name : bytes) (specified recorded : Z)
| UnknownDirectoryReferenced
| UnexpectedDigest
| DisconnectedRoots
| GraphIncomplete.
Inductive Error := ValidationError (reason : Reason).

Section Graph.
Context `{!PetGraph, !DirectoryHash}.
Context (dbg : bool).

Definition G : Type := DiGraph (option Directory) (option EdgeWeight).

Record DirectoryGraph (O : Type) := mkDirectoryGraph {
  graph : G;
  digest_to_node_ix : gmap bytes nat;
  order_validator : O;
}.
Arguments mkDirectoryGraph {O} _ _ _.
Arguments graph {O} _.
Arguments digest_to_node_ix {O} _.
Arguments order_validator {O} _.

Record ValidatedDirectoryGraph := mkValidated {
  validated_graph : G;
  root : option nat;
}.

Definition check_edge (edge : EdgeWeight) (child : Directory) : outcome Error unit :=
  let? recorded := size dbg child in
  if (edge_size edge =? recorded)%Z then Ok tt
  else Err (ValidationError (WrongSize (edge_name edge) (edge_size edge) recorded)).

(** [DirectoryGraph::with_order] *)
Definition with_order {O} (o : O) : DirectoryGraph O := mkDirectoryGraph new_graph ∅ o.

(** [digest_to_node_ix.entry(digest).or_insert_with(|| graph.add_node(None))] *)
Definition node_for (g : G) (m : gmap bytes nat) (dg : bytes) : G * gmap bytes nat * nat :=
  match m !! dg with
  | Some ix => (g, m, ix)
  | None => let '(g, ix) := add_node g None in (g, <[dg := ix]> m, ix)
  end.

(** Edges to the subdirectories, checked if the child is there. *)
Fixpoint add_children (ix : nat) (nodes : Directory) (g : G) (m : gmap bytes nat)
    : G * gmap bytes nat * outcome Error unit :=
  match nodes with
  | [] => (g, m, Ok tt)
  | (name, DirectoryN dg sz) :: nodes =>
      let '(g, m, child_ix) := node_for g m dg in
      match raw_nodes g !! child_ix with
      | Some (Some child) =>
          match check_edge (mkEdgeWeight name sz) child with
          | Ok _ => add_children ix nodes (add_edge g ix child_ix None) m
          | r => (g, m, r)
          end
      | Some None => add_children ix nodes (add_edge g ix child_ix (Some (mkEdgeWeight name sz))) m
      | None => (g, m, Panic)
      end
  | _ :: nodes => add_children ix nodes g m
  end.

(** The pending edges from the parents. *)
Fixpoint check_incoming (ids : list nat) (directory : Directory) (g : G) : G * outcome Error unit :=
  match ids with
  | [] => (g, Ok tt)
  | id :: ids =>
      match raw_edges g !! id with
      | Some (_, _, Some weight) =>
          let g := set_edge_weight g id None in
          match check_edge weight directory with
          | Ok _ => check_incoming ids directory g
          | r => (g, r)
          end
      | _ => (g, Panic)
      end
  end.

Definition add_order_unchecked {O} (self : DirectoryGraph O) (directory : Directory)
    : DirectoryGraph O * outcome Error unit :=
  let o := order_validator self in
  let '(g, m, ix) := node_for (graph self) (digest_to_node_ix self) (digest directory) in
  match raw_nodes g !! ix with
  | None => (mkDirectoryGraph g m o, Panic)
  | Some (Some _) => (mkDirectoryGraph g m o, Ok tt)
  | Some None =>
      match add_children ix directory g m with
      | (g, m, Ok _) =>
          match check_incoming (incoming_edges g ix) directory g with
          | (g, Ok _) => (mkDirectoryGraph (set_node_weight g ix (Some directory)) m o, Ok tt)
          | (g, r) => (mkDirectoryGraph g m o, r)
          end
      | (g, m, r) => (mkDirectoryGraph g m o, r)
      end
  end.

Definition with_validator {O} (self : DirectoryGraph O) (o : O) : DirectoryGraph O :=
  mkDirectoryGraph (graph self) (digest_to_node_ix self) o.

(** [DirectoryGraph::<LeavesToRootValidator>::add]; the size that [#[instrument]]
    evaluates for the trace of the call is left out. *)
Definition add_leaves_to_root (self : DirectoryGraph LeavesToRootValidator) (directory : Directory)
    : DirectoryGraph LeavesToRootValidator * outcome Error unit :=
  match add_directory (order_validator self) directory with
  | (o, false) => (with_validator self o, Err (ValidationError UnknownDirectoryReferenced))
  | (o, true) => add_order_unchecked (with_validator self o) directory
  end.

(** [DirectoryGraph::<RootToLeavesValidator>::add] *)
Definition add_root_to_leaves (self : DirectoryGraph RootToLeavesValidator) (directory : Directory)
    : DirectoryGraph RootToLeavesValidator * outcome Error unit :=
  if negb (digest_allowed (order_validator self) (digest directory))
  then (self, Err (ValidationError UnexpectedDigest))
  else add_order_unchecked (with_validator self (add_directory_unchecked (order_validator self) directory)) directory.

Definition roots (g : G) : list nat :=
  filter (λ i, incoming_edges g i = []) (seq 0 (length (raw_nodes g))).

Definition validate {O} (self : DirectoryGraph O) : outcome Error ValidatedDirectoryGraph :=
  match roots (graph self) with
  | _ :: _ :: _ => Err (ValidationError DisconnectedRoots)
  | rs =>
      if existsb (λ n, match n with None => true | Some _ => false end) (raw_nodes (graph self))
      then Err (ValidationError GraphIncomplete)
      else Ok (mkValidated (graph self) (head rs))
  end.

(** [order.into_iter().filter_map(|i| nodes[i.index()].weight.take())] *)
Fixpoint take_weights (nodes : list (option Directory)) (order : list nat) : outcome Error (list Directory) :=
  match order with
  | [] => Ok []
  | i :: order =>
      match nodes !! i with
      | None => Panic
      | Some None => take_weights nodes order
      | Some (Some d) => let? ds := take_weights (<[i := None]> nodes) order in Ok (d :: ds)
      end
  end.

Definition drain_root_to_leaves (self : ValidatedDirectoryGraph) : outcome Error (list Directory) :=
  take_weights (raw_nodes (validated_graph self))
    (match root self with Some r => bfs (validated_graph self) r | None => [] end).

Definition drain_leaves_to_root (self : ValidatedDirectoryGraph) : outcome Error (list Directory) :=
  take_weights (raw_nodes (validated_graph self))
    (match root self with Some r => dfs_post_order (validated_graph self) r | None => [] end).

(** Adding directories in turn, up to the first error. *)
Fixpoint upload (self : DirectoryGraph LeavesToRootValidator) (ds : list Directory)
    : outcome Error (DirectoryGraph LeavesToRootValidator) :=
  match ds with
  | [] => Ok self
  | d :: ds =>
      match add_leaves_to_root self d with
      | (self, Ok _) => upload self ds
      | (_, Err e) => Err e
      | (_, Panic) => Panic
      end
  end.

(** ** Uploads *)

Context `{!PetGraphLaws}.

(** The references of a directory to others have these sizes. *)
Definition sizes_right (done : list Directory) (d : Directory) : Prop :=
  ∀ name dg sz, (name, DirectoryN dg sz) ∈ d → ∃ c, c ∈ done ∧ digest c = dg ∧ size (E := Error) dbg c = Ok sz.

(** The graph holds exactly the directories of [done], in this order. *)
Record holds (done : list Directory) (g : G) (m : gmap bytes nat) : Prop := {
  holds_nodes : raw_nodes g = Some <$> done;
  holds_index dg ix : m !! dg = Some ix ↔ ∃ d, done !! ix = Some d ∧ digest d = dg;
  holds_edges u v w : (u, v, w) ∈ raw_edges g →
    v < u ∧ ∃ du dv, done !! u = Some du ∧ done !! v = Some dv ∧ digest dv ∈ child_digests du;
  holds_children u du c : done !! u = Some du → c ∈ child_digests du →
    ∃ v dv, done !! v = Some dv ∧ digest dv = c ∧ edge (raw_edges g) u v;
  holds_sizes d : d ∈ done → sizes_right done d;
}.

Lemma holds_new : holds [] new_graph ∅.
Proof.
  split; intros *; rewrite ?new_nodes, ?new_edges; try done; try (by intros; simplify_eq).
  - rewrite lookup_empty. naive_solver.
  - by intros ?%elem_of_nil.
  - by intros ?%elem_of_nil.
Qed.

Lemma elem_of_child_digests c (d : Directory) : c ∈ child_digests d ↔ ∃ name sz, (name, DirectoryN c sz) ∈ d.
Proof.
  unfold child_digests. rewrite list_elem_of_omap. split.
  - intros ([name []] & Hin & [= ->]). eauto.
  - intros (name & sz & Hin). by exists (name, DirectoryN c sz).
Qed.

(** The edges of the node [n] for the subdirectories [cs]. *)
Definition edges_for (done : list Directory) (n : nat) (cs : list bytes) (es : list (nat * nat * option EdgeWeight)) : Prop :=
  (∀ u v w, (u, v, w) ∈ es → u = n ∧ ∃ c, done !! v = Some c ∧ digest c ∈ cs) ∧
  (∀ c, c ∈ cs → ∃ v dv, done !! v = Some dv ∧ digest dv = c ∧ edge es n v).

Lemma edges_for_cons done n cs es v dv :
  done !! v = Some dv → edges_for done n cs es → edges_for done n (digest dv :: cs) ((n, v, None) :: es).
Proof.
  intros Hv [He Hc]. split.
  - intros u v' w [[= -> -> ->]|Hin]%elem_of_cons; [split; [done|]; exists dv; set_solver|].
    destruct (He _ _ _ Hin) as (-> & c & ? & ?). split; [done|]. exists c. set_solver.
  - intros c [->|Hin]%elem_of_cons; [exists v, dv; split_and!; [done..|exists None; set_solver]|].
    destruct (Hc c Hin) as (v' & dv' & ? & ? & w & ?). exists v', dv'. split_and!; [done..|exists w; set_solver].
Qed.

Lemma sizes_right_cons done name dg sz (d : Directory) c :
  c ∈ done → digest c = dg → (∀ c', c' ∈ done → digest c' = dg → c' = c) →
  sizes_right done ((name, DirectoryN dg sz) :: d) ↔ size (E := Error) dbg c = Ok sz ∧ sizes_right done d.
Proof.
  intros Hc Hdg Hu. split.
  - intros Hs. split; [|intros n' dg' sz' Hin; apply (Hs n'); set_solver].
    destruct (Hs name dg sz) as (c' & Hc' & Hdg' & Hsz); [set_solver|]. by rewrite <- (Hu c' Hc' Hdg').
  - intros [Hsz Hs] n' dg' sz' [[= -> -> ->]|Hin]%elem_of_cons; [by exists c|by apply (Hs n')].
Qed.

Lemma add_children_spec done m n (ds : Directory) g :
  raw_nodes g = (Some <$> done) ++ [None] → n = length done →
  (∀ j c, done !! j = Some c → m !! digest c = Some j) →
  (∀ c, c ∈ child_digests ds → c ∈ digest <$> done) →
  ∃ g' r, add_children n ds g m = (g', m, r) ∧ (r = Ok tt ↔ sizes_right done ds) ∧
    (r = Ok tt → raw_nodes g' = raw_nodes g ∧
       ∃ es, raw_edges g' = raw_edges g ++ es ∧ edges_for done n (child_digests ds) es).
Proof.
  intros Hn -> Hm. revert g Hn. induction ds as [|[name node] ds IH]; intros g Hn Hc.
  { exists g, (Ok tt). split_and!; [done|split; [by intros _ ??? ?%elem_of_nil|done]|]. intros _. split; [done|].
    exists []. split; [by rewrite app_nil_r|]. split; [by intros ??? ?%elem_of_nil|by intros ? ?%elem_of_nil]. }
  destruct node as [dg sz|dg sz ex|tg].
  2,3: destruct (IH g Hn Hc) as (g' & r & E & Hr & Hok); exists g', r; split_and!; [done| |done];
    rewrite Hr; split; [intros Hs n' dg' sz' [?|?]%elem_of_cons; [done|by apply (Hs n')]
                       |intros Hs n' dg' sz' ?; apply (Hs n'); set_solver].
  assert (dg ∈ digest <$> done) as (c & -> & (j & Hj)%list_elem_of_lookup)%list_elem_of_fmap by (apply Hc; left).
  assert (j < length done) as Hlt by by eapply lookup_lt_Some.
  assert (c ∈ done) as Hin by by eapply list_elem_of_lookup_2.
  assert (∀ c', c' ∈ done → digest c' = digest c → c' = c) as Hu.
  { intros c' (j' & Hj')%list_elem_of_lookup E. apply Hm in Hj as Hmj. apply Hm in Hj' as Hmj'. congruence. }
  cbn [add_children]. unfold node_for. rewrite (Hm j c Hj), Hn.
  rewrite lookup_app_l by (by rewrite length_fmap). rewrite list_lookup_fmap, Hj. cbn.
  setoid_rewrite (sizes_right_cons done name (digest c) sz ds c Hin eq_refl Hu).
  unfold check_edge. cbn [edge_size].
  destruct (size dbg c) as [rec| |] eqn:Es; cbn [obind].
  2,3: eexists _, _; split_and!; [done|split; [done|by intros [? _]]|done].
  destruct (Z.eqb_spec sz rec) as [->|Hne]; cbn.
  2:{ eexists _, _. split_and!; [done|split; [done|]|done]. intros [[=] _]. congruence. }
  destruct (IH (add_edge g (length done) j None)) as (g' & r & E & Hr & Hok).
  { by rewrite add_edge_nodes. }
  { intros c' Hc'. apply Hc. by right. }
  exists g', r. split_and!; [done|rewrite Hr; naive_solver|]. intros Hr'.
  destruct (Hok Hr') as (Hn' & es & He & Hes). rewrite add_edge_nodes, Hn in Hn'. split; [done|].
  exists ((length done, j, None) :: es). split; [|by apply edges_for_cons].
  rewrite He, add_edge_edges; [by rewrite <- app_assoc|..]; rewrite Hn, length_app, length_fmap; cbn; lia.
Qed.

(** *** Adding a directory *)

Lemma holds_lookup done g m j c : holds done g m → done !! j = Some c → m !! digest c = Some j.
Proof. intros Hh Hj. apply (holds_index _ _ _ Hh). eauto. Qed.

Lemma holds_add done g m d g' es :
  holds done g m → digest d ∉ digest <$> done →
  (∀ c, c ∈ child_digests d → c ∈ digest <$> done) → sizes_right done d →
  raw_nodes g' = Some <$> done ++ [d] → raw_edges g' = raw_edges g ++ es →
  edges_for done (length done) (child_digests d) es →
  holds (done ++ [d]) g' (<[digest d := length done]> m).
Proof.
  intros Hh Hnew Hc Hsz Hn He [He1 He2].
  assert (∀ i x, done !! i = Some x → (done ++ [d]) !! i = Some x) as Hold.
  { intros i x Hi. apply lookup_app_Some. by left. }
  split; [done|..].
  - intros dg ix. destruct (decide (dg = digest d)) as [->|Hdg].
    + rewrite lookup_insert_eq. split.
      * intros [= <-]. exists d. split; [|done]. by rewrite lookup_app_r, Nat.sub_diag.
      * intros (x & [Hx|[Hle Hx]]%lookup_app_Some & E).
        -- destruct Hnew. rewrite <- E. apply list_elem_of_fmap_2. by eapply list_elem_of_lookup_2.
        -- destruct (ix - length done) eqn:E'; [f_equal; lia|done].
    + rewrite lookup_insert_ne by done. rewrite (holds_index _ _ _ Hh). split; [naive_solver|].
      intros (x & [Hx|[Hle Hx]]%lookup_app_Some & E); [eauto|].
      destruct (ix - length done); [cbn in Hx; simplify_eq|done].
  - intros u v w. rewrite He. intros [Hin|Hin]%elem_of_app.
    + destruct (holds_edges _ _ _ Hh u v w Hin) as (Hlt & du & dv & ? & ? & ?). split; [done|]. exists du, dv. split_and!; auto.
    + destruct (He1 u v w Hin) as (-> & c & Hv & Hcd). split; [by eapply lookup_lt_Some|].
      exists d, c. split_and!; [by rewrite lookup_app_r, Nat.sub_diag|auto|done].
  - intros u du c Hu Hcd. unfold edge. setoid_rewrite He. setoid_rewrite elem_of_app.
    apply lookup_app_Some in Hu as [Hu|[Hle Hu]].
    + destruct (holds_children _ _ _ Hh u du c Hu Hcd) as (v & dv & ? & ? & w & ?). exists v, dv.
      split_and!; eauto.
    + destruct (u - length done) eqn:E'; [cbn in Hu; simplify_eq|done].
      destruct (He2 c Hcd) as (v & dv & ? & ? & w & Hw). exists v, dv. split_and!; [auto|done|].
      exists w. right. by replace u with (length done) by lia.
  - intros x [Hx|Hx]%elem_of_app name dg sz Hin.
    + destruct (holds_sizes _ _ _ Hh x Hx name dg sz Hin) as (c & ? & ?). exists c. set_solver.
    + apply list_elem_of_singleton in Hx as ->. destruct (Hsz name dg sz Hin) as (c & ? & ?). exists c. set_solver.
Qed.

(** One directory in leaves-to-root order. *)
Lemma add_order_unchecked_spec {O} done (self : DirectoryGraph O) d :
  holds done (graph self) (digest_to_node_ix self) →
  (∀ c, c ∈ child_digests d → c ∈ digest <$> done) →
  if bool_decide (digest d ∈ digest <$> done)
  then add_order_unchecked self d = (self, Ok tt)
  else ∃ self' r, add_order_unchecked self d = (self', r) ∧ (r = Ok tt ↔ sizes_right done d) ∧
         (r = Ok tt → order_validator self' = order_validator self ∧
            holds (done ++ [d]) (graph self') (digest_to_node_ix self')).
Proof.
  intros Hh Hc. destruct self as [g m o]. unfold add_order_unchecked, node_for. cbn [graph digest_to_node_ix order_validator] in *.
  case_bool_decide as Hd.
  - apply list_elem_of_fmap in Hd as (c & E & (j & Hj)%list_elem_of_lookup).
    rewrite E, (holds_lookup _ _ _ _ _ Hh Hj), (holds_nodes _ _ _ Hh), list_lookup_fmap, Hj. done.
  - assert (m !! digest d = None) as ->.
    { apply eq_None_not_Some. intros (ix & (x & Hx & E)%(holds_index _ _ _ Hh)). destruct Hd.
      rewrite <- E. apply list_elem_of_fmap_2. by eapply list_elem_of_lookup_2. }
    destruct (add_node g None) as [g1 ix] eqn:Ea.
    assert (ix = length done) as ->.
    { pose proof (add_node_index g None) as Hi. rewrite Ea, (holds_nodes _ _ _ Hh), length_fmap in Hi. done. }
    assert (raw_nodes g1 = (Some <$> done) ++ [None]) as Hn1.
    { pose proof (add_node_nodes g None) as Hi. by rewrite Ea, (holds_nodes _ _ _ Hh) in Hi. }
    assert (raw_edges g1 = raw_edges g) as He1.
    { pose proof (add_node_edges g None) as Hi. by rewrite Ea in Hi. }
    rewrite Hn1, lookup_app_r, length_fmap, Nat.sub_diag by (by rewrite length_fmap). cbn.
    destruct (add_children_spec done (<[digest d := length done]> m) (length done) d g1 Hn1 eq_refl)
      as (g2 & r & -> & Hr & Hok).
    { intros j c Hj. rewrite lookup_insert_ne; [by eapply holds_lookup|]. intros E. apply Hd.
      rewrite E. apply list_elem_of_fmap_2. by eapply list_elem_of_lookup_2. }
    { done. }
    destruct r as [[]| |]; [|eexists _, _; split_and!; done..].
    destruct (Hok eq_refl) as (Hn2 & es & He2 & Hes).
    assert (incoming_edges g2 (length done) = []) as ->.
    { apply elem_of_nil_inv. intros i (u & w & Hi%list_elem_of_lookup_2)%incoming_edges_spec.
      rewrite He2, He1 in Hi. apply elem_of_app in Hi as [Hi|Hi].
      - destruct (holds_edges _ _ _ Hh _ _ _ Hi) as (_ & _ & dv & _ & Hv%lookup_lt_Some & _). lia.
      - destruct Hes as [Hes _]. destruct (Hes _ _ _ Hi) as (_ & c & Hv%lookup_lt_Some & _). lia. }
    cbn. eexists _, _. split_and!; [done|done|]. intros _. split; [done|]. cbn.
    apply (holds_add done g m d _ es); try done; [by apply Hr| |by rewrite set_node_edges, He2, He1].
    rewrite set_node_nodes, Hn2, Hn1, fmap_app.
    replace (length done) with (length (Some <$> done) + 0) by (rewrite length_fmap; lia). by rewrite insert_app_r.
Qed.

(** *** Sequences *)

(** The directories without those whose digest came before. *)
Fixpoint distinct (done ds : list Directory) : list Directory :=
  match ds with
  | [] => done
  | d :: ds => distinct (if bool_decide (digest d ∈ digest <$> done) then done else done ++ [d]) ds
  end.

(** Every directory comes after those it refers to, and has their sizes right. *)
Fixpoint consistent (done ds : list Directory) : Prop :=
  match ds with
  | [] => True
  | d :: ds =>
      (∀ c, c ∈ child_digests d → c ∈ digest <$> done) ∧
      if bool_decide (digest d ∈ digest <$> done) then consistent done ds
      else sizes_right done d ∧ consistent (done ++ [d]) ds
  end.

Definition allows (done : list Directory) (o : LeavesToRootValidator) : Prop :=
  ∀ g, g ∈ allowed_references o ↔ g ∈ digest <$> done.

Lemma upload_spec done self ds :
  holds done (graph self) (digest_to_node_ix self) → allows done (order_validator self) →
  (consistent done ds ↔ ∃ self', upload self ds = Ok self') ∧
  ∀ self', upload self ds = Ok self' → holds (distinct done ds) (graph self') (digest_to_node_ix self').
Proof.
  revert done self. induction ds as [|d ds IH]; intros done self Hh Ho; cbn.
  { split; [split; [by exists self|done]|]. by intros self' [= <-]. }
  unfold add_leaves_to_root, add_directory, LeavesToRoot_OrderValidator.
  destruct (forallb _ (child_digests d)) eqn:Ec.
  2:{ split; [|done]. split; [|by intros []]. intros [Hc _]. apply not_true_iff_false in Ec. destruct Ec.
      apply forallb_forall. intros g Hg. apply bool_decide_eq_true, Ho, Hc. by apply list_elem_of_In. }
  assert (∀ c, c ∈ child_digests d → c ∈ digest <$> done) as Hc.
  { intros c Hc. apply Ho. rewrite forallb_forall in Ec. apply list_elem_of_In, Ec in Hc.
    by apply bool_decide_eq_true in Hc. }
  set (self1 := with_validator self _).
  pose proof (add_order_unchecked_spec done self1 d Hh Hc) as Hadd. case_bool_decide as Hd.
  - rewrite Hadd. destruct (IH done self1) as [IH1 IH2]; [done| |].
    { intros g. cbn. rewrite elem_of_union, elem_of_singleton, (Ho g). set_solver. }
    split; [rewrite <- IH1; naive_solver|done].
  - destruct Hadd as (self' & r & -> & Hr & Hok). destruct r as [[]| |].
    2,3: split; [split; [by intros (_ & ?%Hr & _)|by intros []]|done].
    destruct (Hok eq_refl) as [Hv Hh']. destruct (IH (done ++ [d]) self') as [IH1 IH2]; [done| |].
    { intros g. rewrite Hv. cbn. rewrite elem_of_union, elem_of_singleton, (Ho g), fmap_app, elem_of_app. set_solver. }
    split; [|done]. rewrite <- IH1. split; [naive_solver|]. intros ?. split_and!; [done|by apply Hr|done].
Qed.

(** ** The closed graph *)

(** The graph holds exactly the directories of [done], each after those of
    smaller rank that it refers to. *)
Record closed (rank : nat → nat) (done : list Directory) (g : G) : Prop := {
  closed_nodes : raw_nodes g = Some <$> done;
  closed_edges u v w : (u, v, w) ∈ raw_edges g →
    rank v < rank u ∧ ∃ du dv, done !! u = Some du ∧ done !! v = Some dv ∧ digest dv ∈ child_digests du;
  closed_children u du c : done !! u = Some du → c ∈ child_digests du →
    ∃ v dv, done !! v = Some dv ∧ digest dv = c ∧ edge (raw_edges g) u v;
  closed_sizes d : d ∈ done → sizes_right done d;
}.

Lemma holds_closed done g m : holds done g m → closed id done g.
Proof. intros []. by split. Qed.

Section Closed.
Context (rank : nat → nat) (done : list Directory) (g : G) (Hh : closed rank done g).

Lemma closed_edges_ok : edges_ok (raw_nodes g) (raw_edges g).
Proof.
  intros u v [w Hw]. rewrite (closed_nodes _ _ _ Hh), length_fmap.
  destruct (closed_edges _ _ _ Hh u v w Hw) as (_ & du & dv & ?%lookup_lt_Some & ?%lookup_lt_Some & _). done.
Qed.

Lemma closed_down u v : rtc (edge (raw_edges g)) u v → rank v ≤ rank u.
Proof.
  induction 1 as [|x y z [w Hxy] _ IH]; [done|]. destruct (closed_edges _ _ _ Hh _ _ _ Hxy) as [? _]. lia.
Qed.

Lemma elem_of_roots v : v ∈ roots g ↔ v < length done ∧ incoming_edges g v = [].
Proof.
  unfold roots. rewrite list_elem_of_filter, elem_of_seq, (closed_nodes _ _ _ Hh), length_fmap.
  split; intros [? ?]; (split; [lia || done|lia || done]).
Qed.

(** With one root, everything is below it. *)
Lemma single_root n v : roots g = [n] → v < length done → rtc (edge (raw_edges g)) n v.
Proof.
  intros Hr. remember (max_list (rank <$> seq 0 (length done)) - rank v) as k eqn:Hk. revert v Hk.
  induction (lt_wf k) as [k _ IH]. intros v Hk Hv.
  destruct (decide (v = n)) as [->|Hne]; [constructor|].
  assert (v ∉ roots g) as Hv' by (rewrite Hr; set_solver). rewrite elem_of_roots in Hv'.
  destruct (incoming_edges g v) as [|i ids] eqn:Ei; [by destruct Hv'|].
  assert (i ∈ incoming_edges g v) as (u & w & Hi%list_elem_of_lookup_2)%incoming_edges_spec by (rewrite Ei; left).
  destruct (closed_edges _ _ _ Hh _ _ _ Hi) as (Hlt & du & _ & Hu%lookup_lt_Some & _).
  assert (rank u ≤ max_list (rank <$> seq 0 (length done))).
  { apply max_list_elem_of_le, list_elem_of_fmap_2, elem_of_seq. lia. }
  transitivity u; [eapply (IH (_ - rank u)); [|done|done]; lia|apply rtc_once; by exists w].
Qed.

(** The directories in an order of the nodes. *)
Definition listed (l : list nat) : list Directory := (λ i, default [] (done !! i)) <$> l.

Lemma take_weights_spec l ns :
  NoDup l → (∀ i, i ∈ l → ∃ d, ns !! i = Some (Some d) ∧ done !! i = Some d) → take_weights ns l = Ok (listed l).
Proof.
  intros Hl. revert ns. induction Hl as [|i l Hi Hl IH]; intros ns Hns; [done|]. cbn [take_weights].
  destruct (Hns i) as (d & -> & Hd); [left|]. rewrite IH; [cbn; by rewrite Hd|].
  intros j Hj. rewrite list_lookup_insert_ne by set_solver. apply Hns. by right.
Qed.

Lemma listed_seq : listed (seq 0 (length done)) = done.
Proof.
  apply list_eq_same_length with (length done); [done|unfold listed; by rewrite length_fmap, length_seq|].
  intros i x y Hi. unfold listed. rewrite list_lookup_fmap, lookup_seq_lt by done. cbn. intros [= <-] Hy. by rewrite Hy.
Qed.

Lemma listed_perm l : NoDup l → (∀ i, i ∈ l ↔ i < length done) → listed l ≡ₚ done.
Proof.
  intros Hl Hin. rewrite <- listed_seq at 1. apply fmap_Permutation, NoDup_Permutation; [done|apply NoDup_seq|].
  intros i. rewrite Hin, elem_of_seq. lia.
Qed.

Lemma in_order_alt rule pre ds :
  (∀ i d, ds !! i = Some d → rule (pre ++ take i ds) d) → in_order rule pre ds.
Proof.
  revert pre. induction ds as [|d ds IH]; intros pre Hr; [done|]. split.
  - specialize (Hr 0 d eq_refl). by rewrite take_0, app_nil_r in Hr.
  - apply IH. intros i x Hi. rewrite <- app_assoc. apply (Hr (S i) x Hi).
Qed.

Lemma listed_in_order l :
  NoDup l → (∀ i, i ∈ l ↔ i < length done) →
  (∀ u v, edge (raw_edges g) u v → before l v u) → in_order leaves_first [] (listed l).
Proof.
  intros Hl Hin Hb. apply in_order_alt. intros i d Hi c Hc. unfold listed in Hi.
  rewrite list_lookup_fmap in Hi. destruct (l !! i) as [u|] eqn:Eu; [|done]. cbn in Hi.
  destruct (lookup_lt_is_Some_2 done u) as [du Hu]; [apply Hin; by eapply list_elem_of_lookup_2|].
  rewrite Hu in Hi. simplify_eq/=.
  destruct (closed_children _ _ _ Hh u d c Hu Hc) as (v & dv & Hv & <- & He).
  assert (v ∈ l) as (k & Hk)%list_elem_of_lookup by (apply Hin; by eapply lookup_lt_Some).
  apply list_elem_of_fmap_2, list_elem_of_lookup. exists k.
  assert (k < i) by (eapply Hb; eauto). rewrite lookup_take_lt by done. unfold listed.
  rewrite list_lookup_fmap, Hk. cbn. by rewrite Hv.
Qed.

Lemma edges_refer r v dr dv :
  rtc (edge (raw_edges g)) r v → done !! r = Some dr → done !! v = Some dv →
  rtc (λ a b, b ∈ done ∧ digest b ∈ child_digests a) dr dv.
Proof.
  intros Hr. revert dr. induction Hr as [x|x y z [w Hxy] _ IH]; intros dr Hx Hz; [simplify_eq; constructor|].
  destruct (closed_edges _ _ _ Hh _ _ _ Hxy) as (_ & du & dy & Hu & Hy & Hc). simplify_eq.
  apply rtc_l with dy; [|by apply IH]. split; [by eapply list_elem_of_lookup_2|done].
Qed.

(** What a traversal from the last node lists. *)
Lemma traversal_spec n l :
  roots g = [n] → NoDup l → (∀ v, v ∈ l ↔ rtc (edge (raw_edges g)) n v) →
  take_weights (raw_nodes g) l = Ok (listed l) ∧ listed l ≡ₚ done ∧ ∀ i, i ∈ l ↔ i < length done.
Proof.
  intros Hr Hl Hin.
  assert (n < length done) as Hn by (apply elem_of_roots; rewrite Hr; left).
  assert (∀ i, i ∈ l ↔ i < length done) as Hall.
  { intros i. rewrite Hin. split; [|by apply single_root].
    intros Hni. apply rtc_inv_r in Hni as [->|(u & _ & [w Hu])]; [done|].
    destruct (closed_edges _ _ _ Hh _ _ _ Hu) as (_ & _ & dv & _ & ?%lookup_lt_Some & _). done. }
  split_and!; [|by apply listed_perm|done]. apply take_weights_spec; [done|]. intros i Hi%Hall.
  destruct (lookup_lt_is_Some_2 done i Hi) as [d Hd]. exists d.
  by rewrite (closed_nodes _ _ _ Hh), list_lookup_fmap, Hd.
Qed.

(** The root is left last. *)
Lemma dfs_order n u v i j :
  n < length done → rtc (edge (raw_edges g)) u v → dfs_post_order g n !! i = Some v →
  dfs_post_order g n !! j = Some u → u ∈ dfs_post_order g n → i ≤ j.
Proof.
  intros Hn Huv. assert (n < length (raw_nodes g)) as Hn' by by rewrite (closed_nodes _ _ _ Hh), length_fmap.
  pose proof closed_edges_ok as Hok. revert j. induction Huv as [x|x y z Hxy Hyz IH]; intros j Hi Hj Hx.
  { rewrite (NoDup_lookup _ _ _ _ (dfs_NoDup g n Hok Hn') Hi Hj). done. }
  assert (y ∈ dfs_post_order g n) as Hy.
  { apply dfs_reachable in Hx; [|done..]. apply dfs_reachable; [done..|]. by eapply rtc_r. }
  destruct (proj1 (list_elem_of_lookup _ _) Hy) as [k Hk]. specialize (IH k Hi Hk Hy).
  assert (k < j); [|lia]. eapply (dfs_post g n x y); [done..| |done|done].
  intros Hd%closed_down. destruct Hxy as [w Hw]. destruct (closed_edges _ _ _ Hh _ _ _ Hw) as [? _]. lia.
Qed.

Lemma closed_drains n r :
  roots g = [n] → done !! n = Some r →
  let v := mkValidated g (Some n) in
  ∃ up down, drain_leaves_to_root v = Ok up ∧ drain_root_to_leaves v = Ok down ∧
    up ≡ₚ done ∧ down ≡ₚ done ∧ in_order leaves_first [] up ∧ last up = Some r ∧
    ∀ d, d ∈ done → rtc (λ a b, b ∈ done ∧ digest b ∈ child_digests a) r d.
Proof.
  intros Hr Hn v. apply lookup_lt_Some in Hn as Hlt.
  assert (n < length (raw_nodes g)) as Hlt' by by rewrite (closed_nodes _ _ _ Hh), length_fmap.
  pose proof closed_edges_ok as Hok.
  destruct (traversal_spec n (dfs_post_order g n) Hr) as (E1 & P1 & A1);
    [by apply dfs_NoDup|intros; by apply dfs_reachable|].
  destruct (traversal_spec n (bfs g n) Hr) as (E2 & P2 & A2);
    [by apply bfs_NoDup|intros; by apply bfs_reachable|].
  exists (listed (dfs_post_order g n)), (listed (bfs g n)). split_and!; [done..| | |].
  - apply listed_in_order; [by apply dfs_NoDup|done|].
    intros u w Huw. apply dfs_post; [done..|]. intros Hd%closed_down.
    destruct Huw as [e He]. destruct (closed_edges _ _ _ Hh _ _ _ He) as [? _]. lia.
  - assert (n ∈ dfs_post_order g n) as Hin by by apply A1.
    destruct (proj1 (list_elem_of_lookup _ _) Hin) as [j Hj].
    destruct (last (dfs_post_order g n)) as [x|] eqn:Ex; [|apply last_None in Ex; by rewrite Ex in Hin; apply elem_of_nil in Hin].
    rewrite last_lookup in Ex.
    assert (pred (length (dfs_post_order g n)) ≤ j).
    { eapply (dfs_order n n x); [done| |done|done|done]. eapply dfs_reachable; [done..|]. by eapply list_elem_of_lookup_2. }
    apply lookup_lt_Some in Hj as ?. assert (j = pred (length (dfs_post_order g n))) as -> by lia.
    unfold listed. rewrite fmap_last, last_lookup, Hj. cbn. by rewrite Hn.
  - intros d (i & Hi)%list_elem_of_lookup. apply lookup_lt_Some in Hi as ?.
    apply (edges_refer n i); [by apply single_root|done..].
Qed.

End Closed.

(** The last directory received is a root. *)
Lemma roots_last done g m n : holds done g m → length done = S n → ∃ l, roots g = l ++ [n].
Proof.
  intros Hh Hn. unfold roots. rewrite (holds_nodes _ _ _ Hh), length_fmap, Hn, seq_S, filter_app. cbn [Nat.add].
  rewrite (filter_cons_True _ n); [by eexists|]. apply elem_of_nil_inv.
  intros i (u & w & Hi%list_elem_of_lookup_2)%incoming_edges_spec.
  destruct (holds_edges _ _ _ Hh _ _ _ Hi) as (Hlt & du & _ & Hu%lookup_lt_Some & _). lia.
Qed.

(** What validating tells of the roots. *)
Lemma validate_Ok {O} (self : DirectoryGraph O) v :
  validate self = Ok v → v = mkValidated (graph self) (head (roots (graph self))) ∧ length (roots (graph self)) ≤ 1 ∧
    ∀ n, n ∈ raw_nodes (graph self) → is_Some n.
Proof.
  unfold validate. destruct (roots (graph self)) as [|x [|y l]]; [..|done];
    (destruct (existsb _ _) eqn:Ex; [done|]); intros [= <-]; (split_and!; [done|cbn; lia|]);
    intros n Hn; (destruct n; [done|]); exfalso; apply not_true_iff_false in Ex; destruct Ex;
    apply existsb_exists; exists None; (split; [by apply list_elem_of_In|done]).
Qed.
End Graph.

Arguments mkDirectoryGraph {_ O} _ _ _.
Arguments graph {_ O} _.
Arguments digest_to_node_ix {_ O} _.
Arguments order_validator {_ O} _.

(** A directory of the list refers to another one. *)
Definition refers `{DirectoryHash} (ds : list Directory) (a b : Directory) : Prop :=
  b ∈ ds ∧ digest b ∈ child_digests a.

(** An upload is accepted exactly if every directory comes after all those it
    refers to, with their sizes right; directories sent again are ignored. *)
Theorem upload_accepts `{PetGraphLaws, DirectoryHash} (dbg : bool) (ds : list Directory) :
  (∃ self, upload dbg (with_order leaves_to_root_default) ds = Ok self) ↔ consistent dbg [] ds.
Proof.
  destruct (upload_spec dbg [] (with_order leaves_to_root_default) ds) as [Hs _];
    [by apply holds_new|intros g'; cbn; set_solver|]. by rewrite Hs.
Qed.

(** C26: a graph that was filled in leaves-to-root order and validated is a
    closure: both traversals give the distinct directories received; the
    one towards the root gives every directory after all it refers to,
    and all references have the right sizes; every directory is referred to,
    directly or not, by the last one received. *)
Theorem upload_closure `{PetGraphLaws, DirectoryHash} (dbg : bool) (ds : list Directory)
    (self : DirectoryGraph LeavesToRootValidator) (v : ValidatedDirectoryGraph) :
  upload dbg (with_order leaves_to_root_default) ds = Ok self → validate self = Ok v →
  let done := distinct [] ds in
  ∃ up down, drain_leaves_to_root v = Ok up ∧ drain_root_to_leaves v = Ok down ∧
    up ≡ₚ done ∧ down ≡ₚ done ∧ in_order leaves_first [] up ∧ (∀ d, d ∈ done → sizes_right dbg done d) ∧
    ∀ d, d ∈ done → ∃ r, last done = Some r ∧ rtc (refers done) r d.
Proof.
  intros Hup Hv done.
  assert (holds dbg done (graph self) (digest_to_node_ix self)) as Hh.
  { destruct (upload_spec dbg [] (with_order leaves_to_root_default) ds) as [_ Hs]; [by apply holds_new|intros g'; cbn; set_solver|].
    by apply Hs. }
  generalize dependent done. intros done Hh. apply validate_Ok in Hv as (-> & Hroots & _).
  destruct (length done) as [|n] eqn:Hn.
  { apply nil_length_inv in Hn as ->. unfold roots. rewrite (holds_nodes _ _ _ _ Hh). exists [], [].
    split_and!; try done; by intros ? ?%elem_of_nil. }
  destruct (roots_last dbg done _ _ n Hh Hn) as [l Hl].
  assert (roots (graph self) = [n]) as Hr.
  { rewrite Hl in *. rewrite length_app in Hroots. destruct l; [done|cbn in Hroots; lia]. }
  rewrite Hr. destruct (lookup_lt_is_Some_2 done n) as [r Hr']; [lia|].
  destruct (closed_drains dbg id done _ (holds_closed _ _ _ _ Hh) n r Hr Hr')
    as (up & down & ? & ? & ? & ? & ? & _ & Hreach).
  exists up, down. split_and!; try done; [apply (holds_sizes _ _ _ _ Hh)|].
  intros d Hd. exists r. split; [by rewrite last_lookup, Hn|by apply Hreach].
Qed.

(** ** Examples *)

Module Examples.
Import GraphModel.

(** A digest that tells directories apart by their number of subdirectories. *)
#[local] Instance counting_hash : DirectoryHash := {|
  encode_to_vec m := [z2b (Z.of_nat (length (directories m)))];
  blake3 bs := bs;
|}.

Definition leaf : Directory := [].
Definition parent : Directory := [(B "a", DirectoryN (digest leaf) 0); (B "b", FileN [] 3 false)].

Definition filled : DirectoryGraph LeavesToRootValidator :=
  match upload true (with_order leaves_to_root_default) [leaf; leaf; parent] with
  | Ok self => self
  | _ => with_order leaves_to_root_default
  end.
Definition validated : ValidatedDirectoryGraph :=
  match validate filled with Ok v => v | _ => mkValidated new_graph None end.

Lemma upload_accepts_witness :
  (∃ self, upload true (with_order leaves_to_root_default) [leaf; leaf; parent] = Ok self) ↔
  consistent true [] [leaf; leaf; parent].
Proof. apply (upload_accepts true [leaf; leaf; parent]). Defined.

Lemma upload_closure_witness :
  let done := distinct [] [leaf; leaf; parent] in
  ∃ up down, drain_leaves_to_root validated = Ok up ∧ drain_root_to_leaves validated = Ok down ∧
    up ≡ₚ done ∧ down ≡ₚ done ∧ in_order leaves_first [] up ∧ (∀ d, d ∈ done → sizes_right true done d) ∧
    ∀ d, d ∈ done → ∃ r, last done = Some r ∧ rtc (refers done) r d.
Proof.
  apply (upload_closure true [leaf; leaf; parent] filled validated); reflexivity.
Defined.

Example upload_computes :
  drain_leaves_to_root validated = Ok [leaf; parent].
Proof. reflexivity. Qed.

(** A wrong size is refused. *)
Example upload_wrong_size :
  upload true (with_order leaves_to_root_default) [leaf; [(B "a", DirectoryN (digest leaf) 1)]] =
    Err (ValidationError (WrongSize (B "a") 1 0)).
Proof. reflexivity. Qed.

(** Two roots are refused. *)
Example upload_two_roots :
  (let? self := upload true (with_order leaves_to_root_default)
                  [leaf; parent; [(B "a", DirectoryN (digest leaf) 0); (B "b", DirectoryN (digest leaf) 0)]] in
   validate self) = Err (ValidationError DisconnectedRoots).
Proof. reflexivity. Qed.

End Examples.
