(* ===== verification/DirectoryDownload.v ===== *)
(** * Directory closures received from the root

    The other direction of [directory_graph.rs]: directories come after one
    that refers to them, so that most edges of the graph are checked when
    their target arrives. *)

From stdpp Require Import strings gmap sorting relations.
From S2P Require Import Prelude BTreeMap Castore CastoreProto CastoreOrder PetGraph DirectoryGraph.
#[local] Open Scope nat_scope.

(** Adding directories in turn, up to the first error. *)
Fixpoint download `{PetGraph, DirectoryHash} (dbg : bool) (self : DirectoryGraph RootToLeavesValidator)
    (ds : list Directory) : outcome Error (DirectoryGraph RootToLeavesValidator) :=
  match ds with
  | [] => Ok self
  | d :: ds =>
      match add_root_to_leaves dbg self d with
      | (self, Ok _) => download dbg self ds
      | (_, Err e) => Err e
      | (_, Panic) => Panic
      end
  end.

Section Partial.
Context `{PetGraphLaws, !DirectoryHash}.
Context (dbg : bool).

Abbreviation psize c := (size (E := Error) dbg c).

(** The weight of an edge for the entry [name] to a node. *)
Definition weight_for (name : bytes) (sz : Z) (n : option Directory) : option EdgeWeight :=
  match n with None => Some (mkEdgeWeight name sz) | Some _ => None end.

(** The node is not there yet, or has the size. *)
Definition size_at (sz : Z) (n : option Directory) : Prop :=
  match n with None => True | Some c => psize c = Ok sz end.

(** A graph with an edge for every entry in [src u] that refers to a directory,
    still with its weight if that directory is not known. *)
Record partial (src : nat → Directory) (g : G) (m : gmap bytes nat) : Prop := {
  part_inj a b i : m !! a = Some i → m !! b = Some i → a = b;
  part_onto i : i < length (raw_nodes g) ↔ ∃ a, m !! a = Some i;
  part_nodes i d : raw_nodes g !! i = Some (Some d) → m !! digest d = Some i;
  part_src u : src u ≠ [] → u < length (raw_nodes g);
  part_edges u v w : (u, v, w) ∈ raw_edges g → ∃ name dg sz n,
    (name, DirectoryN dg sz) ∈ src u ∧ m !! dg = Some v ∧ raw_nodes g !! v = Some n ∧ w = weight_for name sz n;
  part_children u name dg sz : (name, DirectoryN dg sz) ∈ src u → ∃ v n,
    m !! dg = Some v ∧ raw_nodes g !! v = Some n ∧ (u, v, weight_for name sz n) ∈ raw_edges g ∧ size_at sz n;
}.

(** The entries of the directories that are there. *)
Definition known (g : G) (u : nat) : Directory :=
  match raw_nodes g !! u with Some (Some d) => d | _ => [] end.

Lemma partial_new : partial (known new_graph) new_graph ∅.
Proof.
  split; intros *; rewrite ?new_nodes, ?new_edges; unfold known; rewrite ?new_nodes; cbn; try done; try set_solver.
  split; [lia|]. intros [a Ha]. by rewrite lookup_empty in Ha.
Qed.

(** *** Nodes for digests *)

Lemma node_for_partial src g m dg :
  partial src g m →
  ∃ g' m' ix n, node_for g m dg = (g', m', ix) ∧ partial src g' m' ∧ m' !! dg = Some ix ∧
    raw_nodes g' !! ix = Some n ∧ raw_edges g' = raw_edges g ∧ m ⊆ m' ∧ dom m' = {[ dg ]} ∪ dom m ∧
    (∀ a, m !! dg = Some a → g' = g ∧ m' = m ∧ a = ix) ∧
    (m !! dg = None → n = None) ∧ (∃ k, raw_nodes g' = raw_nodes g ++ replicate k None).
Proof.
  intros Hp. unfold node_for. destruct (m !! dg) as [ix|] eqn:Em.
  - destruct (lookup_lt_is_Some_2 (raw_nodes g) ix) as [n Hn]; [apply (part_onto _ _ _ Hp); eauto|].
    assert (dg ∈ dom m) by (by apply elem_of_dom_2 in Em).
    exists g, m, ix, n. split_and!; try done; [set_solver|naive_solver|by exists 0; rewrite app_nil_r].
  - destruct (add_node g None) as [g' ix] eqn:Ea.
    pose proof (add_node_index g None) as Hi. pose proof (add_node_nodes g None) as Hn.
    pose proof (add_node_edges g None) as He. rewrite Ea in Hi, Hn, He. cbn in Hi, Hn, He.
    assert (∀ i n, raw_nodes g !! i = Some n → raw_nodes g' !! i = Some n) as Hold.
    { intros i n Hin. rewrite Hn. apply lookup_app_Some. by left. }
    exists g', (<[dg := ix]> m), ix, None. split_and!; try done.
    + split.
      * intros a b i. destruct (decide (a = dg)) as [->|], (decide (b = dg)) as [->|];
          rewrite ?lookup_insert_eq, ?lookup_insert_ne by done; try done.
        -- intros [= <-] Hb. exfalso. assert (ix < length (raw_nodes g)); [|lia]. apply (part_onto _ _ _ Hp). eauto.
        -- intros Ha [= <-]. exfalso. assert (ix < length (raw_nodes g)); [|lia]. apply (part_onto _ _ _ Hp). eauto.
        -- apply (part_inj _ _ _ Hp).
      * intros i. rewrite Hn, length_app. cbn. split.
        -- intros Hlt. destruct (decide (i = ix)) as [->|]; [exists dg; by rewrite lookup_insert_eq|].
           destruct (proj1 (part_onto _ _ _ Hp i)) as [a Ha]; [lia|]. exists a.
           rewrite lookup_insert_ne; [done|congruence].
        -- intros [a Ha]. destruct (decide (a = dg)) as [->|].
           ++ rewrite lookup_insert_eq in Ha. simplify_eq. lia.
           ++ rewrite lookup_insert_ne in Ha by done. assert (i < length (raw_nodes g)); [|lia]. apply (part_onto _ _ _ Hp). eauto.
      * intros i d. rewrite Hn. intros [Hl|[_ Hr]]%lookup_app_Some.
        -- apply (part_nodes _ _ _ Hp) in Hl. rewrite lookup_insert_ne; [done|congruence].
        -- by destruct (i - length (raw_nodes g)) as [|[]].
      * intros u Hu%(part_src _ _ _ Hp). rewrite Hn, length_app. lia.
      * intros u v w. rewrite He. intros (name & dg' & sz & n & ? & Hd & ? & ?)%(part_edges _ _ _ Hp).
        exists name, dg', sz, n. split_and!; auto. rewrite lookup_insert_ne; [done|congruence].
      * intros u name dg' sz (v & n & Hd & ? & ? & ?)%(part_children _ _ _ Hp).
        exists v, n. rewrite He. split_and!; auto. rewrite lookup_insert_ne; [done|congruence].
    + by rewrite lookup_insert_eq.
    + rewrite Hn. apply list_lookup_middle. lia.
    + by apply insert_subseteq.
    + set_solver.
    + by exists 1.
Qed.

(** *** Edges for the entries of one directory *)

Definition upd (src : nat → Directory) (ix : nat) (d : Directory) (u : nat) : Directory :=
  if decide (u = ix) then d else src u.

Lemma elem_of_upd src ix pre e x u : x ∈ upd src ix (pre ++ [e]) u ↔ x ∈ upd src ix pre u ∨ u = ix ∧ x = e.
Proof. unfold upd. destruct (decide (u = ix)); set_solver. Qed.

Lemma partial_ext src src' g m : (∀ u, src u = src' u) → partial src g m → partial src' g m.
Proof.
  intros He []. split; try done.
  - intros u. rewrite <- He. auto.
  - intros u v w. rewrite <- He. auto.
  - intros u name dg sz. rewrite <- He. auto.
Qed.

Lemma partial_skip src ix pre e g m :
  (∀ dg sz, e.2 ≠ DirectoryN dg sz) → ix < length (raw_nodes g) →
  partial (upd src ix pre) g m → partial (upd src ix (pre ++ [e])) g m.
Proof.
  intros He Hix Hp. split; try apply Hp.
  - intros u. destruct (decide (u = ix)) as [->|Hne]; [done|]. intros Hu. apply (part_src _ _ _ Hp).
    unfold upd in *. by destruct (decide (u = ix)).
  - intros u v w (name & dg & sz & n & ? & ?)%(part_edges _ _ _ Hp). exists name, dg, sz, n.
    split; [apply elem_of_upd; by left|done].
  - intros u name dg sz [Hin|[_ <-]]%elem_of_upd; [|by edestruct He]. by apply (part_children _ _ _ Hp).
Qed.

Lemma partial_add_edge src ix pre name dg sz v n g m :
  ix < length (raw_nodes g) → m !! dg = Some v → raw_nodes g !! v = Some n → size_at sz n →
  partial (upd src ix pre) g m →
  partial (upd src ix (pre ++ [(name, DirectoryN dg sz)])) (add_edge g ix v (weight_for name sz n)) m.
Proof.
  intros Hix Hm Hn Hsz Hp.
  assert (raw_edges (add_edge g ix v (weight_for name sz n)) = raw_edges g ++ [(ix, v, weight_for name sz n)]) as He.
  { apply add_edge_edges; [done|]. by eapply lookup_lt_Some. }
  split; rewrite ?add_edge_nodes, ?He; try apply Hp.
  - intros u. destruct (decide (u = ix)) as [->|Hne]; [done|]. intros Hu. apply (part_src _ _ _ Hp).
    unfold upd in *. by destruct (decide (u = ix)).
  - intros u v' w [Hin|Hin]%elem_of_app.
    + destruct (part_edges _ _ _ Hp _ _ _ Hin) as (name' & dg' & sz' & n' & ? & ?). exists name', dg', sz', n'.
      split; [apply elem_of_upd; by left|done].
    + apply list_elem_of_singleton in Hin as [= -> -> ->]. exists name, dg, sz, n.
      split_and!; try done. apply elem_of_upd. by right.
  - intros u name' dg' sz' [Hin|[-> [= -> -> ->]]]%elem_of_upd.
    + destruct (part_children _ _ _ Hp _ _ _ _ Hin) as (v' & n' & ? & ? & ? & ?). exists v', n'.
      split_and!; try done. apply elem_of_app. by left.
    + exists v, n. split_and!; try done. apply elem_of_app. right. by apply list_elem_of_singleton.
Qed.

(** The entries that refer to directories already there have their sizes. *)
Definition fits (g : G) (m : gmap bytes nat) (rest : Directory) : Prop :=
  ∀ name dg sz v c, (name, DirectoryN dg sz) ∈ rest → m !! dg = Some v →
    raw_nodes g !! v = Some (Some c) → psize c = Ok sz.

Lemma fits_grow g m g' m' rest k :
  (∀ i d, raw_nodes g !! i = Some (Some d) → m !! digest d = Some i) →
  (∀ a b i, m' !! a = Some i → m' !! b = Some i → a = b) →
  m ⊆ m' → raw_nodes g' = raw_nodes g ++ replicate k None → fits g' m' rest ↔ fits g m rest.
Proof.
  intros Hd Hinj Hm Hn. split; intros Hf name dg sz v c Hin Hv Hc.
  - apply (Hf name dg sz v c); [done|by eapply lookup_weaken|]. rewrite Hn. apply lookup_app_Some. by left.
  - rewrite Hn in Hc. apply lookup_app_Some in Hc as [Hc|[_ Hc]].
    + apply (Hf name dg sz v c); [done| |done]. pose proof (Hd _ _ Hc) as Hcv.
      rewrite (Hinj dg (digest c) v); [done|done|by eapply lookup_weaken].
    + by apply lookup_replicate in Hc as [? _].
Qed.

(** What adding the entries [rest] after [pre] does. *)
Definition added (ix : nat) (pre rest : Directory) (g : G) (m : gmap bytes nat) (src : nat → Directory) : Prop :=
  ∃ g' m' r, add_children dbg ix rest g m = (g', m', r) ∧ (r = Ok tt ↔ fits g m rest) ∧
    (r = Ok tt → partial (upd src ix (pre ++ rest)) g' m' ∧ m ⊆ m' ∧
       dom m' = list_to_set (child_digests rest) ∪ dom m ∧ ∃ k, raw_nodes g' = raw_nodes g ++ replicate k None).

Lemma add_children_skip ix pre e rest g m src :
  (∀ dg sz, e.2 ≠ DirectoryN dg sz) → added ix (pre ++ [e]) rest g m src → added ix pre (e :: rest) g m src.
Proof.
  intros He (g' & m' & r & E & Hr & Hok). exists g', m', r. destruct e as [name node].
  split_and!; [rewrite <- E; destruct node; [by edestruct He|done..]| |].
  - rewrite Hr. unfold fits. setoid_rewrite elem_of_cons. split; [|naive_solver].
    intros Hf ????? [[= _ <-]|Hin]; [by edestruct He|eauto].
  - intros Hr'. destruct (Hok Hr') as (Hp' & ? & Hd & ?). rewrite <- app_assoc in Hp'.
    split_and!; try done. rewrite Hd. destruct node; [by edestruct He|done..].
Qed.

Lemma add_children_partial ix rest g m pre src :
  partial (upd src ix pre) g m → raw_nodes g !! ix = Some None →
  added ix pre rest g m src.
Proof.
  revert g m pre. induction rest as [|[name node] rest IH]; intros g m pre Hp Hix.
  { exists g, m, (Ok tt). split_and!; [done|split; [by intros _ ????? ?%elem_of_nil|done]|].
    intros _. rewrite app_nil_r. split_and!; [done..|set_solver|exists 0; by rewrite app_nil_r]. }
  assert (ix < length (raw_nodes g)) as Hlt by by eapply lookup_lt_Some.
  destruct node as [dg sz|dg sz ex|tg]; [|by apply add_children_skip; [done|apply IH; [apply partial_skip|]]..].
  unfold added. cbn [add_children].
  destruct (node_for_partial _ g m dg Hp) as (g1 & m1 & v & n & -> & Hp1 & Hv & Hn & He1 & Hm1 & Hdom & Hsame & Hnew & k & Hk).
  rewrite Hn.
  assert (raw_nodes g1 !! ix = Some None) as Hix1 by (rewrite Hk; apply lookup_app_Some; by left).
  assert (fits g m ((name, DirectoryN dg sz) :: rest) ↔ size_at sz n ∧ fits g1 m1 rest) as Hfits.
  { rewrite (fits_grow g m g1 m1 rest k); [|apply (part_nodes _ _ _ Hp)|apply (part_inj _ _ _ Hp1)|done..]. split.
    - intros Hf. split; [|intros name' dg' sz' v' c' Hin; apply (Hf name' dg' sz' v' c'); by right].
      destruct n as [c|]; [|done]. destruct (m !! dg) as [a|] eqn:Ea; [|by specialize (Hnew eq_refl)].
      destruct (Hsame a eq_refl) as (-> & -> & ->). apply (Hf name dg sz v c); [left|done|done].
    - intros [Hs Hf] name' dg' sz' v' c' [[= -> -> ->]|Hin]%elem_of_cons Hv' Hc'; [|by eapply Hf].
      destruct (Hsame v' Hv') as (-> & _ & ->). rewrite Hc' in Hn. simplify_eq. done. }
  assert (size_at sz n → ∃ g' m' r, add_children dbg ix rest (add_edge g1 ix v (weight_for name sz n)) m1 = (g', m', r) ∧
      (r = Ok tt ↔ fits g1 m1 rest) ∧
      (r = Ok tt → partial (upd src ix (pre ++ (name, DirectoryN dg sz) :: rest)) g' m' ∧ m ⊆ m' ∧
       dom m' = list_to_set (child_digests ((name, DirectoryN dg sz) :: rest)) ∪ dom m ∧
       ∃ k, raw_nodes g' = raw_nodes g ++ replicate k None)) as Hstep.
  { intros Hs. apply lookup_lt_Some in Hix1 as Hlt1.
    destruct (IH _ m1 _ (partial_add_edge src ix pre name dg sz v n g1 m1 Hlt1 Hv Hn Hs Hp1)) as (g' & m' & r & E & Hr & Hok).
    { by rewrite add_edge_nodes. }
    exists g', m', r. split_and!; [done|rewrite Hr; unfold fits; by rewrite add_edge_nodes|].
    intros Hr'. destruct (Hok Hr') as (Hp' & Hm' & Hdom' & k' & Hk'). rewrite <- app_assoc in Hp'.
    split_and!; [done|by transitivity m1|rewrite Hdom', Hdom; cbn; set_solver|].
    exists (k + k'). rewrite Hk', add_edge_nodes, Hk, <- app_assoc. f_equal. symmetry. apply replicate_add. }
  destruct n as [c|]; cbn [weight_for size_at] in *.
  - unfold check_edge. cbn [edge_size]. destruct (psize c) as [rec| |] eqn:Es; cbn [obind].
    2,3: eexists _, _, _; split_and!; [done|rewrite Hfits; split; [done|by intros [? _]]|done].
    destruct (Z.eqb_spec sz rec) as [->|Hne]; cbn.
    + destruct (Hstep eq_refl) as (g' & m' & r & E & Hr & Hok). exists g', m', r.
      split_and!; [done|rewrite Hr, Hfits; naive_solver|done].
    + eexists _, _, _. split_and!; [done|rewrite Hfits; split; [done|]|done]. intros [[= ->] _]. done.
  - destruct (Hstep I) as (g' & m' & r & E & Hr & Hok). exists g', m', r.
    split_and!; [done|rewrite Hr, Hfits; naive_solver|done].
Qed.

(** *** The edges that waited for a directory *)

Lemma check_incoming_spec ids d g :
  NoDup ids → (∀ i, i ∈ ids → ∃ u v w, raw_edges g !! i = Some (u, v, Some w)) →
  ∃ g' r, check_incoming dbg ids d g = (g', r) ∧
    (r = Ok tt ↔ ∀ i u v w, i ∈ ids → raw_edges g !! i = Some (u, v, Some w) → psize d = Ok (edge_size w)) ∧
    (r = Ok tt → raw_nodes g' = raw_nodes g ∧
       ∀ i, raw_edges g' !! i = if decide (i ∈ ids) then (λ x, (x.1.1, x.1.2, None)) <$> raw_edges g !! i else raw_edges g !! i).
Proof.
  intros Hnd. revert g. induction Hnd as [|i ids Hi Hnd IH]; intros g Hids.
  { exists g, (Ok tt). split_and!; [done|split; [by intros _ ???? ?%elem_of_nil|done]|done]. }
  destruct (Hids i) as (u & v & w & Hw); [left|]. cbn [check_incoming]. rewrite Hw.
  set (g1 := set_edge_weight g i None).
  assert (∀ j, raw_edges g1 !! j = if decide (j = i) then Some (u, v, None) else raw_edges g !! j) as Hg1.
  { intros j. unfold g1. rewrite set_edge_edges. destruct (decide (j = i)) as [->|].
    - by rewrite list_lookup_alter_eq, Hw.
    - by rewrite list_lookup_alter_ne. }
  assert (psize d = Ok (edge_size w) →
    ∃ g' r, check_incoming dbg ids d g1 = (g', r) ∧
    (r = Ok tt ↔ ∀ j u v w, j ∈ ids → raw_edges g !! j = Some (u, v, Some w) → psize d = Ok (edge_size w)) ∧
    (r = Ok tt → raw_nodes g' = raw_nodes g ∧
       ∀ j, raw_edges g' !! j = if decide (j ∈ i :: ids) then (λ x, (x.1.1, x.1.2, None)) <$> raw_edges g !! j else raw_edges g !! j)) as Hstep.
  { intros _. destruct (IH g1) as (g' & r & E & Hr & Hok).
    { intros j Hj. rewrite Hg1, decide_False by congruence. apply Hids. by right. }
    exists g', r. split_and!; [done| |].
    - rewrite Hr. split; intros Hx j u' v' w' Hj Hjw; apply (Hx j u' v' w' Hj); [rewrite Hg1, decide_False by congruence; done|].
      rewrite Hg1, decide_False in Hjw by congruence. done.
    - intros Hr'. destruct (Hok Hr') as [Hn He]. unfold g1 in Hn. rewrite set_edge_nodes in Hn. split; [done|].
      intros j. rewrite He, Hg1. destruct (decide (j = i)) as [->|Hji].
      + rewrite decide_False, decide_True by (done || left). by rewrite Hw.
      + destruct (decide (j ∈ ids)), (decide (j ∈ i :: ids)); set_solver. }
  unfold check_edge. destruct (psize d) as [rec| |] eqn:Es; cbn [obind].
  2,3: eexists _, _; split_and!; [done|split; [done|]|done]; intros Hx; specialize (Hx i u v w (list_elem_of_here _ _) Hw); congruence.
  destruct (Z.eqb_spec (edge_size w) rec) as [Ew|Hne]; cbn.
  - destruct Hstep as (g' & r & E & Hr & Hok); [by rewrite Ew|]. exists g', r. split_and!; [done| |done].
    rewrite Hr. split; [|intros Hx j u' v' w' Hj; apply (Hx j u' v' w'); by right].
    intros Hx j u' v' w' [->|Hj]%elem_of_cons Hjw; [rewrite Hw in Hjw; injection Hjw as <- <- <-; by rewrite Ew|by eapply Hx].
  - eexists _, _. split_and!; [done|split; [done|]|done]. intros Hx.
    specialize (Hx i u v w (list_elem_of_here _ _) Hw). simplify_eq.
Qed.

(** *** One directory *)

Definition present (g : G) (d : Directory) : Prop := ∃ i, raw_nodes g !! i = Some (Some d).

(** A new directory agrees with the sizes in the others, and they with its own. *)
Definition agrees (P : Directory → Prop) (d : Directory) : Prop :=
  (∀ name c sz, P c → (name, DirectoryN (digest c) sz) ∈ d → psize c = Ok sz) ∧
  (∀ name a sz, P a ∨ a = d → (name, DirectoryN (digest d) sz) ∈ a → psize d = Ok sz).

(** Setting the weight of a node whose edges are checked. *)
Lemma partial_set g g' m ix d :
  partial (upd (known g) ix d) g m → raw_nodes g !! ix = Some None → m !! digest d = Some ix →
  (∀ name u sz, (name, DirectoryN (digest d) sz) ∈ upd (known g) ix d u → psize d = Ok sz) →
  raw_nodes g' = raw_nodes g →
  (∀ u v w, (u, v, w) ∈ raw_edges g' ↔ ∃ w0, (u, v, w0) ∈ raw_edges g ∧ w = if decide (v = ix) then None else w0) →
  partial (known (set_node_weight g' ix (Some d))) (set_node_weight g' ix (Some d)) m.
Proof.
  intros Hp Hix Hm Hsz Hn He.
  assert (raw_nodes (set_node_weight g' ix (Some d)) = <[ix := Some d]> (raw_nodes g)) as Hn' by (by rewrite set_node_nodes, Hn).
  assert (∀ u, upd (known g) ix d u = known (set_node_weight g' ix (Some d)) u) as Hk.
  { intros u. unfold known, upd. rewrite Hn'. destruct (decide (u = ix)) as [->|].
    - rewrite list_lookup_insert_eq; [done|by eapply lookup_lt_Some].
    - by rewrite list_lookup_insert_ne. }
  apply (partial_ext _ _ _ _ Hk). apply lookup_lt_Some in Hix as Hlt.
  assert (∀ v n, raw_nodes g !! v = Some n → v ≠ ix → <[ix := Some d]> (raw_nodes g) !! v = Some n) as Hold.
  { intros v n Hv Hne. by rewrite list_lookup_insert_ne. }
  split; rewrite ?Hn', ?set_node_edges, ?length_insert; try apply Hp.
  - intros i x. destruct (decide (i = ix)) as [->|].
    + rewrite list_lookup_insert_eq by done. by intros [= ->].
    + rewrite list_lookup_insert_ne by done. apply (part_nodes _ _ _ Hp).
  - intros u v w (w0 & Hw0 & ->)%He.
    destruct (part_edges _ _ _ Hp _ _ _ Hw0) as (name & dg & sz & n & Hin & Hv & Hnv & ->).
    destruct (decide (v = ix)) as [->|Hne].
    + exists name, dg, sz, (Some d). split_and!; [done|done|by rewrite list_lookup_insert_eq|done].
    + exists name, dg, sz, n. split_and!; auto.
  - intros u name dg sz Hin. destruct (part_children _ _ _ Hp _ _ _ _ Hin) as (v & n & Hv & Hnv & Huv & Hs).
    destruct (decide (v = ix)) as [->|Hne].
    + exists ix, (Some d). split_and!; [done|by rewrite list_lookup_insert_eq| |].
      * apply He. eexists. split; [done|]. by rewrite decide_True.
      * cbn. rewrite (part_inj _ _ _ Hp dg (digest d) ix) in Hin by done. by eapply Hsz.
    + exists v, n. split_and!; auto. apply He. eexists. split; [done|]. by rewrite decide_False.
Qed.

Lemma known_grow g g' k u : raw_nodes g' = raw_nodes g ++ replicate k None → known g' u = known g u.
Proof.
  intros Hn. unfold known. rewrite Hn. destruct (raw_nodes g !! u) as [n|] eqn:E.
  - by rewrite (lookup_app_l_Some _ _ _ _ E).
  - destruct ((raw_nodes g ++ replicate k None) !! u) as [[d|]|] eqn:E'; [|done..].
    apply lookup_app_Some in E' as [?|[_ (? & _)%lookup_replicate]]; [congruence|done].
Qed.

Lemma present_grow g g' k c : raw_nodes g' = raw_nodes g ++ replicate k None → present g' c ↔ present g c.
Proof.
  intros Hn. unfold present. setoid_rewrite Hn. split; intros [i Hi]; exists i.
  - apply lookup_app_Some in Hi as [?|[_ (? & _)%lookup_replicate]]; done.
  - apply lookup_app_Some. by left.
Qed.

Lemma known_present g u x : x ∈ known g u → ∃ d, present g d ∧ x ∈ d ∧ raw_nodes g !! u = Some (Some d).
Proof.
  unfold known. destruct (raw_nodes g !! u) as [[d|]|] eqn:E; try set_solver.
  intros Hx. exists d. split_and!; [by exists u|done..].
Qed.

Lemma fits_present g m d : partial (known g) g m →
  fits g m d ↔ ∀ name c sz, present g c → (name, DirectoryN (digest c) sz) ∈ d → psize c = Ok sz.
Proof.
  intros Hp. split.
  - intros Hf name c sz [i Hi] Hin. eapply (Hf name _ sz i c); [done|by apply (part_nodes _ _ _ Hp)|done].
  - intros Hf name dg sz v c Hin Hv Hc. apply (Hf name); [by exists v|].
    by rewrite (part_inj _ _ _ Hp (digest c) dg v); [|apply (part_nodes _ _ _ Hp)|].
Qed.

(** The edges into a node without directory, and what refers to it. *)
Lemma incoming_checked src g m ix d :
  partial src g m → raw_nodes g !! ix = Some None → m !! digest d = Some ix →
  (∀ i, i ∈ incoming_edges g ix → ∃ u v w, raw_edges g !! i = Some (u, v, Some w)) ∧
  ((∀ i u v w, i ∈ incoming_edges g ix → raw_edges g !! i = Some (u, v, Some w) → psize d = Ok (edge_size w)) ↔
   ∀ name u sz, (name, DirectoryN (digest d) sz) ∈ src u → psize d = Ok sz).
Proof.
  intros Hp Hix Hm. split; [|split].
  - intros i (u & w & Hi)%incoming_edges_spec. pose proof (list_elem_of_lookup_2 _ _ _ Hi) as Hin.
    destruct (part_edges _ _ _ Hp _ _ _ Hin) as (name & dg & sz & n & _ & _ & Hn & ->).
    rewrite Hix in Hn. injection Hn as <-. by exists u, ix, (mkEdgeWeight name sz).
  - intros Hx name u sz Hin.
    destruct (part_children _ _ _ Hp _ _ _ _ Hin) as (v & n & Hv & Hn & (i & Hi)%list_elem_of_lookup & _).
    rewrite Hm in Hv. injection Hv as <-. rewrite Hix in Hn. injection Hn as <-.
    apply (Hx i u ix (mkEdgeWeight name sz)); [|done]. apply incoming_edges_spec. eauto.
  - intros Hx i u v w (u' & w' & Hi)%incoming_edges_spec Hi'. rewrite Hi in Hi'. injection Hi' as -> <- ->.
    pose proof (list_elem_of_lookup_2 _ _ _ Hi) as Hin.
    destruct (part_edges _ _ _ Hp _ _ _ Hin) as (name & dg & sz & n & Hsrc & Hv & Hn & Hw).
    rewrite Hix in Hn. injection Hn as <-. injection Hw as ->. cbn.
    rewrite (part_inj _ _ _ Hp dg (digest d) ix) in Hsrc by done. by eapply Hx.
Qed.

Lemma elem_of_cleared {E} (es es' : list (nat * nat * option E)) (ids : list nat) ix :
  (∀ i, i ∈ ids ↔ ∃ u e, es !! i = Some (u, ix, e)) →
  (∀ i, es' !! i = if decide (i ∈ ids) then (λ x, (x.1.1, x.1.2, None)) <$> es !! i else es !! i) →
  ∀ u v w, (u, v, w) ∈ es' ↔ ∃ w0, (u, v, w0) ∈ es ∧ w = if decide (v = ix) then None else w0.
Proof.
  intros Hids He u v w. rewrite list_elem_of_lookup. setoid_rewrite He. split.
  - intros [i Hi]. destruct (es !! i) as [[[u' v'] w']|] eqn:Ei; [|by destruct (decide (i ∈ ids))].
    exists w'. destruct (decide (i ∈ ids)) as [Hin|Hin]; cbn in Hi; simplify_eq.
    + apply Hids in Hin as (u'' & e & ?). simplify_eq. split; [by eapply list_elem_of_lookup_2|]. by rewrite decide_True.
    + split; [by eapply list_elem_of_lookup_2|]. rewrite decide_False; [done|]. intros ->. apply Hin, Hids. eauto.
  - intros (w0 & (i & Hi)%list_elem_of_lookup & ->). exists i. rewrite Hi. destruct (decide (v = ix)) as [->|Hne].
    + rewrite decide_True; [done|]. apply Hids. eauto.
    + rewrite decide_False; [done|]. intros (u' & e & ?)%Hids. simplify_eq.
Qed.

Lemma add_order_unchecked_partial {O} (self : DirectoryGraph O) d :
  partial (known (graph self)) (graph self) (digest_to_node_ix self) →
  (∃ c, present (graph self) c ∧ digest c = digest d) ∧ add_order_unchecked dbg self d = (self, Ok tt) ∨
  (∀ c, present (graph self) c → digest c ≠ digest d) ∧
  ∃ self' r, add_order_unchecked dbg self d = (self', r) ∧ (r = Ok tt ↔ agrees (present (graph self)) d) ∧
    (r = Ok tt → partial (known (graph self')) (graph self') (digest_to_node_ix self') ∧
       order_validator self' = order_validator self ∧ (∀ c, present (graph self') c ↔ c = d ∨ present (graph self) c) ∧
       dom (digest_to_node_ix self') = {[ digest d ]} ∪ list_to_set (child_digests d) ∪ dom (digest_to_node_ix self)).
Proof.
  destruct self as [g m o]. cbn [graph digest_to_node_ix order_validator]. intros Hp. unfold add_order_unchecked. cbn [graph digest_to_node_ix order_validator].
  destruct (node_for_partial _ g m (digest d) Hp) as (g1 & m1 & ix & n & -> & Hp1 & Hix & Hn & He1 & Hm1 & Hdom1 & Hsame & Hnew & k1 & Hk1).
  rewrite Hn. destruct n as [c|].
  { left. destruct (m !! digest d) as [a|] eqn:Ea; [|by specialize (Hnew eq_refl)].
    destruct (Hsame a eq_refl) as (-> & -> & ->). split; [|done]. exists c. split; [by exists ix|].
    by apply (part_inj _ _ _ Hp (digest c) (digest d) ix); [apply (part_nodes _ _ _ Hp)|]. }
  right. assert (∀ c, present g c → digest c ≠ digest d) as Hfresh.
  { intros c [i Hi] E. pose proof (part_nodes _ _ _ Hp _ _ Hi) as Hci. rewrite E in Hci.
    destruct (Hsame i Hci) as (-> & _ & ->). congruence. }
  split; [done|].
  assert (partial (upd (known g1) ix []) g1 m1) as Hp1'.
  { eapply partial_ext; [|exact Hp1]. intros u. unfold upd. rewrite (known_grow g g1 k1 u Hk1).
    destruct (decide (u = ix)) as [->|]; [|done]. rewrite <- (known_grow g g1 k1 ix Hk1). unfold known. by rewrite Hn. }
  assert (partial (known g1) g1 m1) as Hp1''.
  { eapply partial_ext; [|exact Hp1]. intros u. symmetry. by eapply known_grow. }
  destruct (add_children_partial ix d g1 m1 [] (known g1) Hp1' Hn) as (g2 & m2 & r2 & -> & Hr2 & Hok2).
  rewrite (fits_present g1 m1 d Hp1'') in Hr2. setoid_rewrite (present_grow g g1 k1 _ Hk1) in Hr2.
  destruct r2 as [[]| |]; [|eexists _, _; split_and!; [done|split; [done|by intros (?%Hr2 & _)]|done]..].
  destruct (Hok2 eq_refl) as (Hp2 & Hm2 & Hdom2 & k2 & Hk2). cbn [app] in Hp2.
  assert (∀ u, upd (known g1) ix d u = upd (known g2) ix d u) as Hupd.
  { intros u. unfold upd. destruct (decide (u = ix)); [done|]. symmetry. by eapply known_grow. }
  apply (partial_ext _ _ _ _ Hupd) in Hp2.
  assert (raw_nodes g2 !! ix = Some None) as Hn2 by (rewrite Hk2; apply lookup_app_Some; by left).
  assert (m2 !! digest d = Some ix) as Hix2 by by eapply lookup_weaken.
  destruct (incoming_checked _ g2 m2 ix d Hp2 Hn2 Hix2) as [Hw Hiff].
  destruct (check_incoming_spec (incoming_edges g2 ix) d g2 (incoming_edges_NoDup _ _) Hw) as (g3 & r3 & -> & Hr3 & Hok3).
  rewrite Hiff in Hr3.
  assert (r3 = Ok tt ↔ agrees (present g) d) as Hag.
  { rewrite Hr3. unfold agrees. split.
    - intros Hx. split; [by apply Hr2|]. intros name a sz [(i & Hi)|Ha] Hin; [|subst a].
      + apply (Hx name i). unfold upd. destruct (decide (i = ix)) as [->|].
        * exfalso. rewrite Hk1 in Hn. rewrite (lookup_app_l_Some _ _ _ _ Hi) in Hn. done.
        * rewrite (known_grow g1 g2 k2 i Hk2), (known_grow g g1 k1 i Hk1). unfold known. by rewrite Hi.
      + apply (Hx name ix). unfold upd. by rewrite decide_True.
    - intros [_ Hx] name u sz. unfold upd. destruct (decide (u = ix)); [by apply Hx; right|].
      rewrite (known_grow g1 g2 k2 u Hk2), (known_grow g g1 k1 u Hk1).
      intros (a & Ha & Hin & _)%known_present. apply (Hx name a); [by left|done]. }
  destruct r3 as [[]| |]; eexists _, _; (split; [done|]); (split; [exact Hag|]); [intros _|done..].
  destruct (Hok3 eq_refl) as [Hn3 He3]. cbn [graph digest_to_node_ix order_validator].
  split_and!; [|done| |].
  - apply partial_set with g2; [done..|by apply Hr3|done|].
    apply (elem_of_cleared _ _ (incoming_edges g2 ix)); [apply incoming_edges_spec|done].
  - intros c. unfold present. rewrite set_node_nodes, Hn3. fold (present g c). rewrite <- (present_grow g g1 k1 c Hk1).
    rewrite <- (present_grow g1 g2 k2 c Hk2). split.
    + intros [i Hi]. destruct (decide (i = ix)) as [->|].
      * rewrite list_lookup_insert_eq in Hi by (by eapply lookup_lt_Some). left. by simplify_eq.
      * rewrite list_lookup_insert_ne in Hi by done. right. by exists i.
    + intros [->|[i Hi]].
      * exists ix. rewrite list_lookup_insert_eq; [done|by eapply lookup_lt_Some].
      * exists i. rewrite list_lookup_insert_ne; [done|]. intros ->. congruence.
  - rewrite Hdom2, Hdom1. set_solver.
Qed.

(** *** Sequences *)

(** What the graph and the validator hold after the directories [done]. *)
Record holds_down (root : bytes) (done : list Directory) (self : DirectoryGraph RootToLeavesValidator) : Prop := {
  down_partial : partial (known (graph self)) (graph self) (digest_to_node_ix self);
  down_present c : present (graph self) c ↔ c ∈ done;
  down_distinct : NoDup (digest <$> done);
  down_known a : a ∈ dom (digest_to_node_ix self) ↔ ∃ d, d ∈ done ∧ (a = digest d ∨ a ∈ child_digests d);
  down_expected a : a ∈ expected_digests (order_validator self) ↔ a = root ∨ ∃ d, d ∈ done ∧ a ∈ child_digests d;
  down_order : in_order (root_first root) [] done;
}.

(** What is accepted after [done]: the root or a child, with sizes that agree;
    something received before is accepted and ignored. *)
Fixpoint accepts (root : bytes) (done ds : list Directory) : Prop :=
  match ds with
  | [] => True
  | d :: ds =>
      root_first root done d ∧
      if bool_decide (digest d ∈ digest <$> done) then accepts root done ds
      else agrees (λ c, c ∈ done) d ∧ accepts root (done ++ [d]) ds
  end.

(** No two directories share a digest. *)
Definition collision_free (ds : list Directory) : Prop :=
  ∀ a b, a ∈ ds → b ∈ ds → digest a = digest b → a = b.

Lemma collision_free_incl l l' : (∀ d, d ∈ l → d ∈ l') → collision_free l' → collision_free l.
Proof. unfold collision_free. naive_solver. Qed.

Lemma in_order_snoc rule pre l d : in_order rule pre (l ++ [d]) ↔ in_order rule pre l ∧ rule (pre ++ l) d.
Proof.
  revert pre. induction l as [|x l IH]; intros pre; cbn; [rewrite app_nil_r; naive_solver|].
  rewrite IH, <- app_assoc. naive_solver.
Qed.

Lemma agrees_ext P Q d : (∀ c, P c ↔ Q c) → agrees P d ↔ agrees Q d.
Proof. intros HPQ. unfold agrees. by setoid_rewrite HPQ. Qed.

Lemma holds_down_new root : holds_down root [] (with_order (new_with_root_digest root)).
Proof.
  split; cbn; [apply partial_new| |constructor|..|done]; intros x.
  - unfold present. setoid_rewrite new_nodes. split; [by intros [? ?]|by intros ?%elem_of_nil].
  - rewrite dom_empty_L. set_solver.
  - set_solver.
Qed.

Lemma digest_allowed_down root done self d :
  holds_down root done self → digest_allowed (order_validator self) (digest d) = true ↔ root_first root done d.
Proof.
  intros Hh. unfold digest_allowed, root_first. rewrite bool_decide_eq_false_2.
  - cbn. by rewrite bool_decide_eq_true, (down_expected _ _ _ Hh).
  - intros E. assert (root ∈ expected_digests (order_validator self)) by (apply (down_expected _ _ _ Hh); by left). set_solver.
Qed.

Lemma expected_after root done self d a :
  holds_down root done self →
  a ∈ expected_digests (add_directory_unchecked (order_validator self) d) ↔
    a = root ∨ ∃ d', d' ∈ done ++ [d] ∧ a ∈ child_digests d'.
Proof.
  intros Hh. unfold add_directory_unchecked. rewrite bool_decide_eq_false_2.
  - cbn. rewrite elem_of_inserted, (down_expected _ _ _ Hh). setoid_rewrite elem_of_app.
    setoid_rewrite list_elem_of_singleton. naive_solver.
  - intros E. assert (root ∈ expected_digests (order_validator self)) by (apply (down_expected _ _ _ Hh); by left). set_solver.
Qed.

(** One directory. *)
Lemma add_root_to_leaves_spec root done self d :
  holds_down root done self → collision_free (d :: done) →
  if bool_decide (digest d ∈ digest <$> done)
  then (root_first root done d → ∃ self', add_root_to_leaves dbg self d = (self', Ok tt) ∧ holds_down root done self')
  else ∃ self' r, add_root_to_leaves dbg self d = (self', r) ∧
    (r = Ok tt ↔ root_first root done d ∧ agrees (λ c, c ∈ done) d) ∧
    (r = Ok tt → holds_down root (done ++ [d]) self').
Proof.
  intros Hh Hcf. unfold add_root_to_leaves.
  set (self1 := with_validator self (add_directory_unchecked (order_validator self) d)).
  destruct (add_order_unchecked_partial self1 d (down_partial _ _ _ Hh)) as [[(c & Hc & E) Eadd]|(Hfresh & self' & r & Eadd & Hr & Hok)].
  - assert (c = d) as ->.
    { apply Hcf; [right|left|done]. by apply (down_present _ _ _ Hh). }
    apply (down_present _ _ _ Hh) in Hc. rewrite bool_decide_eq_true_2 by (by apply list_elem_of_fmap_2).
    intros Hroot%(digest_allowed_down _ _ _ _ Hh). rewrite Hroot. cbn [negb]. rewrite Eadd. eexists. split; [done|].
    split; try apply Hh. intros a. etransitivity; [apply (expected_after _ _ _ _ _ Hh)|set_solver].
  - rewrite bool_decide_eq_false_2.
    2:{ intros (c & E & Hc)%list_elem_of_fmap. eapply Hfresh; [|done]. by apply (down_present _ _ _ Hh). }
    change (graph self1) with (graph self) in Hr. rewrite (agrees_ext _ _ d (down_present _ _ _ Hh)) in Hr. pose proof (digest_allowed_down root done self d Hh) as Hal.
    destruct (digest_allowed (order_validator self) (digest d)); cbn [negb].
    2:{ eexists _, _. split_and!; [done|split; [done|naive_solver]|done]. }
    exists self', r. assert (root_first root done d) as Hrf by by apply Hal. split_and!; [done|rewrite Hr; naive_solver|].
    intros Hr'. destruct (Hok Hr') as (Hp & Ho & Hpres & Hdom). split; [done|..].
    + intros c. rewrite Hpres. change (graph self1) with (graph self). rewrite (down_present _ _ _ Hh), elem_of_app, list_elem_of_singleton. naive_solver.
    + rewrite fmap_app. apply NoDup_app. split_and!; [apply Hh| |apply NoDup_singleton].
      intros x (c & -> & Hc)%list_elem_of_fmap Hx%list_elem_of_singleton. apply (Hfresh c); [|done]. by apply (down_present _ _ _ Hh).
    + intros a. rewrite Hdom. change (digest_to_node_ix self1) with (digest_to_node_ix self).
      rewrite !elem_of_union, elem_of_singleton, elem_of_list_to_set, (down_known _ _ _ Hh).
      setoid_rewrite elem_of_app. setoid_rewrite list_elem_of_singleton. naive_solver.
    + intros a. rewrite Ho. apply (expected_after _ _ _ _ _ Hh).
    + apply in_order_snoc. split; [apply Hh|done].
Qed.

Lemma download_spec root done self ds :
  holds_down root done self → collision_free (done ++ ds) →
  (accepts root done ds ↔ ∃ self', download dbg self ds = Ok self') ∧
  ∀ self', download dbg self ds = Ok self' → holds_down root (distinct done ds) self'.
Proof.
  revert done self. induction ds as [|d ds IH]; intros done self Hh Hcf; cbn.
  { split; [split; [by exists self|done]|]. by intros self' [= <-]. }
  assert (collision_free (d :: done)) as Hcf' by (eapply collision_free_incl; [|exact Hcf]; set_solver).
  pose proof (add_root_to_leaves_spec root done self d Hh Hcf') as Hadd. case_bool_decide as Hd.
  - assert (collision_free (done ++ ds)) by (eapply collision_free_incl; [|exact Hcf]; set_solver).
    destruct (decide (digest_allowed (order_validator self) (digest d) = true)) as [Hal|Hal].
    + apply (digest_allowed_down _ _ _ _ Hh) in Hal as Hrf.
      destruct (Hadd Hrf) as (self' & -> & Hh'). destruct (IH done self' Hh') as [IH1 IH2]; [done|].
      split; [|done]. rewrite <- IH1. tauto.
    + unfold add_root_to_leaves. apply not_true_is_false in Hal as Hal'. rewrite Hal'. cbn. split; [|done].
      split; [|by intros []]. rewrite <- (digest_allowed_down _ _ _ _ Hh). intros [? _]. congruence.
  - destruct Hadd as (self' & r & -> & Hr & Hok). destruct r as [[]| |].
    2,3: split; [|done]; split; [|by intros []]; intros (Hrf & Hag & _); by pose proof (proj2 Hr (conj Hrf Hag)).
    assert (collision_free ((done ++ [d]) ++ ds)) by (by rewrite <- app_assoc).
    destruct (IH (done ++ [d]) self' (Hok eq_refl)) as [IH1 IH2]; [done|]. split; [|done].
    rewrite <- IH1. destruct (proj1 Hr eq_refl). tauto.
Qed.

(** *** The finished graph *)

(** References lead to directories of smaller rank: no digest depends on itself. *)
Definition acyclic (rk : Directory → nat) (ds : list Directory) : Prop :=
  ∀ a b, a ∈ ds → b ∈ ds → digest b ∈ child_digests a → rk b < rk a.

Lemma in_order_lookup rule pre ds i d :
  in_order rule pre ds → ds !! i = Some d → rule (pre ++ take i ds) d.
Proof.
  revert pre i. induction ds as [|x ds IH]; intros pre i; [done|]. intros [Hx Hds] Hi. destruct i as [|i].
  - cbn in Hi. simplify_eq. by rewrite app_nil_r.
  - cbn in Hi. specialize (IH _ i Hds Hi). by rewrite <- app_assoc in IH.
Qed.

(** The first directory is the root, and no other has a larger rank. *)
Lemma down_first root done self rk d0 :
  holds_down root done self → acyclic rk done → head done = Some d0 →
  digest d0 = root ∧ ∀ d, d ∈ done → rk d ≤ rk d0.
Proof.
  intros Hh Hrk Hd0. rewrite head_lookup in Hd0.
  assert (digest d0 = root) as Hroot.
  { destruct (in_order_lookup _ _ _ _ _ (down_order _ _ _ Hh) Hd0) as [?|(d' & Hd' & _)]; [done|]. set_solver. }
  split; [done|]. intros d (i & Hi)%list_elem_of_lookup. revert d Hi. induction (lt_wf i) as [i _ IH]. intros d Hi.
  destruct (in_order_lookup _ _ _ _ _ (down_order _ _ _ Hh) Hi) as [E|(d' & Hd' & Hc)].
  - assert (i = 0) as ->; [|simplify_eq; done].
    eapply (NoDup_lookup _ _ _ (digest d)); [apply (down_distinct _ _ _ Hh)|by rewrite list_lookup_fmap, Hi|].
    by rewrite list_lookup_fmap, Hd0, E, <- Hroot.
  - cbn in Hd'. apply list_elem_of_lookup in Hd' as [j Hj]. apply lookup_take_Some in Hj as [Hj Hlt].
    specialize (IH j Hlt d' Hj). assert (rk d < rk d'); [|lia].
    apply Hrk; [by eapply list_elem_of_lookup_2|by eapply list_elem_of_lookup_2|done].
Qed.

(** The directories in the order of the nodes. *)
Definition dirs (g : G) : list Directory := omap id (raw_nodes g).

Lemma dirs_complete g : (∀ n, n ∈ raw_nodes g → is_Some n) → raw_nodes g = Some <$> dirs g.
Proof.
  unfold dirs. induction (raw_nodes g) as [|n ns IH]; intros Hn; [done|].
  destruct (Hn n) as [d ->]; [left|]. cbn. f_equal. apply IH. intros n Hin. apply Hn. by right.
Qed.

Lemma down_closed root done self rk :
  holds_down root done self → acyclic rk done → (∀ n, n ∈ raw_nodes (graph self) → is_Some n) →
  dirs (graph self) ≡ₚ done ∧
  closed dbg (λ i, rk (default [] (dirs (graph self) !! i))) (dirs (graph self)) (graph self).
Proof.
  intros Hh Hrk Hall. set (g := graph self) in *. pose proof (dirs_complete g Hall) as Hn.
  pose proof (down_partial _ _ _ Hh) as Hp. fold g in Hp.
  assert (∀ i d, dirs g !! i = Some d ↔ raw_nodes g !! i = Some (Some d)) as Hlk.
  { intros i d. rewrite Hn, list_lookup_fmap. destruct (dirs g !! i); cbn; naive_solver. }
  assert (∀ d, d ∈ dirs g ↔ d ∈ done) as Hin.
  { intros d. rewrite <- (down_present _ _ _ Hh), list_elem_of_lookup. unfold present. by setoid_rewrite Hlk. }
  assert (∀ i d, dirs g !! i = Some d → digest_to_node_ix self !! digest d = Some i) as Hix.
  { intros i d Hi%Hlk. by apply (part_nodes _ _ _ Hp). }
  assert (NoDup (dirs g)) as Hnd.
  { apply NoDup_alt. intros i j d Hi%Hix Hj%Hix. congruence. }
  assert (∀ u name dg sz du, dirs g !! u = Some du → (name, DirectoryN dg sz) ∈ du → ∃ v dv,
    dirs g !! v = Some dv ∧ digest dv = dg ∧ edge (raw_edges g) u v ∧ psize dv = Ok sz) as Hch.
  { intros u name dg sz du Hu Hd. assert (known g u = du) as Hk by (unfold known; by rewrite (proj1 (Hlk _ _) Hu)).
    rewrite <- Hk in Hd. destruct (part_children _ _ _ Hp _ _ _ _ Hd) as (v & n & Hv & Hnv & Huv & Hs).
    destruct (Hall n) as [dv ->]; [by eapply list_elem_of_lookup_2|]. exists v, dv. apply Hlk in Hnv as Hnv'.
    split_and!; [done|by apply (part_inj _ _ _ Hp _ _ v (Hix _ _ Hnv'))|by eexists|done]. }
  split; [apply NoDup_Permutation; [done|by eapply NoDup_fmap_1, Hh|done]|]. split; [done|..].
  - intros u v w Hw. destruct (part_edges _ _ _ Hp _ _ _ Hw) as (name & dg & sz & n & Hsrc & Hv & Hnv & _).
    destruct (known_present _ _ _ Hsrc) as (du & _ & Hdu & Hu%Hlk).
    destruct (Hall n) as [dv ->]; [by eapply list_elem_of_lookup_2|]. apply Hlk in Hnv as Hnv'.
    assert (digest dv = dg) as <- by by apply (part_inj _ _ _ Hp _ _ v (Hix _ _ Hnv')).
    assert (digest dv ∈ child_digests du) as Hc by (apply elem_of_child_digests; eauto).
    rewrite Hu, Hnv'. cbn. split; [|by exists du, dv].
    apply Hrk; [by eapply Hin, list_elem_of_lookup_2|by eapply Hin, list_elem_of_lookup_2|done].
  - intros u du c Hu (name & sz & Hd)%elem_of_child_digests.
    destruct (Hch u name c sz du Hu Hd) as (v & dv & ? & ? & ? & _). eauto.
  - intros d (u & Hu)%list_elem_of_lookup name dg sz Hd.
    destruct (Hch u name dg sz d Hu Hd) as (v & dv & Hv & ? & _ & ?). exists dv.
    split_and!; [by eapply list_elem_of_lookup_2|done..].
Qed.

(** The only root is the first directory. *)
Lemma down_roots root done self rk d0 :
  holds_down root done self → acyclic rk done → (∀ n, n ∈ raw_nodes (graph self) → is_Some n) → head done = Some d0 →
  ∃ n, dirs (graph self) !! n = Some d0 ∧ roots (graph self) = [n].
Proof.
  intros Hh Hrk Hall Hd0. set (g := graph self) in *.
  destruct (down_closed root done self rk Hh Hrk Hall) as [Hperm Hc]. fold g in Hperm, Hc.
  destruct (down_first root done self rk d0 Hh Hrk Hd0) as [Hroot Hmax].
  assert (d0 ∈ dirs g) as (n & Hn)%list_elem_of_lookup.
  { rewrite Hperm. rewrite head_lookup in Hd0. by eapply list_elem_of_lookup_2. }
  assert (∀ v dv, dirs g !! v = Some dv → ∀ i u w, raw_edges g !! i = Some (u, v, w) → dv ≠ d0) as Hno.
  { intros v dv Hv i u w Hi%list_elem_of_lookup_2 ->.
    destruct (closed_edges _ _ _ _ Hc _ _ _ Hi) as (Hlt & du & dv' & Hu & Hv' & _). rewrite Hu, Hv in Hlt. cbn in Hlt.
    assert (rk du ≤ rk d0); [|lia]. apply Hmax. rewrite <- Hperm. by eapply list_elem_of_lookup_2. }
  exists n. split; [done|].
  assert (∀ v, v ∈ roots g → v = n) as Hone.
  { intros v [Hv Hinc]%(elem_of_roots _ _ _ _ Hc). destruct (lookup_lt_is_Some_2 _ _ Hv) as [dv Hdv].
    assert (dv ∈ done) as (i & Hi)%list_elem_of_lookup by (rewrite <- Hperm; by eapply list_elem_of_lookup_2).
    assert (∀ a b da db, dirs g !! a = Some da → dirs g !! b = Some db → digest da = digest db → a = b) as Hinj.
    { intros a b da db Ha Hb E. apply (NoDup_lookup (digest <$> dirs g) a b (digest da)).
      - rewrite Hperm. apply Hh.
      - by rewrite list_lookup_fmap, Ha.
      - by rewrite list_lookup_fmap, Hb, E. }
    destruct (in_order_lookup _ _ _ _ _ (down_order _ _ _ Hh) Hi) as [E|(d' & Hd' & Hch)].
    - apply (Hinj _ _ _ _ Hdv Hn). by rewrite E, Hroot.
    - exfalso. assert (d' ∈ dirs g) as (u & Hu)%list_elem_of_lookup.
      { rewrite Hperm. cbn in Hd'. by apply elem_of_take in Hd' as (? & ?%list_elem_of_lookup_2 & _). }
      destruct (closed_children _ _ _ _ Hc u d' (digest dv) Hu Hch) as (v' & dv' & Hv' & E & w & Hw).
      assert (v' = v) as -> by (by eapply Hinj). apply list_elem_of_lookup in Hw as [k Hk].
      assert (k ∈ incoming_edges g v) as Hk' by (apply incoming_edges_spec; eauto). rewrite Hinc in Hk'. by apply elem_of_nil in Hk'. }
  assert (n ∈ roots g) as Hnr.
  { apply (elem_of_roots _ _ _ _ Hc). split; [by eapply lookup_lt_Some|]. apply elem_of_nil_inv.
    intros i (u & w & Hi)%incoming_edges_spec. by eapply Hno. }
  assert (NoDup (roots g)) as Hnd by (apply NoDup_filter, NoDup_seq).
  destruct (roots g) as [|a [|b l]]; [by apply elem_of_nil in Hnr|f_equal; apply Hone; left|].
  rewrite NoDup_cons in Hnd. destruct Hnd as [Hnd _]. destruct Hnd.
  rewrite (Hone a), (Hone b) by set_solver. left.
Qed.

End Partial.

(** All that is referred to was received. *)
Definition complete `{DirectoryHash} (ds : list Directory) : Prop :=
  ∀ d c, d ∈ ds → c ∈ child_digests d → c ∈ digest <$> ds.

Section Closure.
Context `{PetGraphLaws, !DirectoryHash}.
Context (dbg : bool).

Lemma download_new root ds :
  collision_free ds →
  (accepts dbg root [] ds ↔ ∃ self', download dbg (with_order (new_with_root_digest root)) ds = Ok self') ∧
  ∀ self', download dbg (with_order (new_with_root_digest root)) ds = Ok self' → holds_down dbg root (distinct [] ds) self'.
Proof. intros Hcf. apply download_spec; [apply holds_down_new|done]. Qed.

(** What draining the graph of [done] gives. *)
Definition drained (root : bytes) (done : list Directory) (v : ValidatedDirectoryGraph) : Prop :=
  ∃ r up down, digest r = root ∧ head done = Some r ∧
    drain_leaves_to_root v = Ok up ∧ drain_root_to_leaves v = Ok down ∧ up ≡ₚ done ∧ down ≡ₚ done ∧
    in_order leaves_first [] up ∧ last up = Some r ∧ (∀ d, d ∈ done → sizes_right dbg done d) ∧
    ∀ d, d ∈ done → rtc (refers done) r d.

Lemma sizes_right_perm l l' d : l ≡ₚ l' → sizes_right dbg l d → sizes_right dbg l' d.
Proof.
  intros Hp Hs name dg sz Hin. destruct (Hs name dg sz Hin) as (c & Hc & ?). exists c. by rewrite <- Hp.
Qed.

Lemma down_drained root done self rk v :
  holds_down dbg root done self → acyclic rk done → done ≠ [] → validate self = Ok v → drained root done v.
Proof.
  intros Hh Hrk Hne (-> & _ & Hall)%validate_Ok. destruct done as [|d0 done']; [done|]. set (done := d0 :: done') in *.
  destruct (down_closed dbg root done self rk Hh Hrk Hall) as [Hperm Hc].
  destruct (down_roots dbg root done self rk d0 Hh Hrk Hall eq_refl) as (n & Hn & Hr).
  destruct (down_first dbg root done self rk d0 Hh Hrk eq_refl) as [Hroot _].
  destruct (closed_drains dbg _ _ _ Hc n d0 Hr Hn) as (up & down & ? & ? & Hup & Hdown & ? & ? & Hreach).
  rewrite Hr. exists d0, up, down. rewrite Hperm in Hup, Hdown. split_and!; try done.
  - intros d Hd. apply (sizes_right_perm _ _ _ Hperm), (closed_sizes _ _ _ _ Hc). by rewrite Hperm.
  - intros d Hd. eapply rtc_subrel; [|apply Hreach; by rewrite Hperm]. intros a b [Hb Hab]. split; [by rewrite <- Hperm|done].
Qed.

Lemma down_validates root done self rk :
  holds_down dbg root done self → acyclic rk done → complete done → ∃ v, validate self = Ok v.
Proof.
  intros Hh Hrk Hcomp.
  assert (∀ n, n ∈ raw_nodes (graph self) → is_Some n) as Hall.
  { intros n (i & Hi)%list_elem_of_lookup. pose proof (down_partial _ _ _ _ Hh) as Hp.
    destruct (proj1 (part_onto _ _ _ _ Hp i)) as [a Ha]; [by eapply lookup_lt_Some|].
    assert (a ∈ digest <$> done) as (c & -> & Hc)%list_elem_of_fmap.
    { apply elem_of_dom_2 in Ha. apply (down_known _ _ _ _ Hh) in Ha as (d & Hd & [->|Hc]);
        [by apply list_elem_of_fmap_2|by eapply Hcomp]. }
    apply (down_present _ _ _ _ Hh) in Hc as [j Hj]. pose proof (part_nodes _ _ _ _ Hp _ _ Hj) as Hj'.
    rewrite Ha in Hj'. simplify_eq. eauto. }
  assert (length (roots (graph self)) ≤ 1) as Hr.
  { destruct done as [|d0 done'] eqn:Ed.
    - unfold roots. destruct (raw_nodes (graph self)) as [|n ns] eqn:En; [cbn; lia|].
      destruct (Hall n) as [d ->]; [left|]. assert (present (graph self) d) as Hd by (exists 0; by rewrite En).
      apply (down_present _ _ _ _ Hh) in Hd. by apply elem_of_nil in Hd.
    - destruct (down_roots dbg root _ self rk d0 Hh Hrk Hall eq_refl) as (n & _ & ->). done. }
  assert (existsb (λ n : option Directory, match n with None => true | Some _ => false end) (raw_nodes (graph self)) = false) as Hex.
  { apply not_true_iff_false. intros (n & Hn%list_elem_of_In & Hx)%existsb_exists. by destruct (Hall n Hn) as [? ->]. }
  unfold validate. destruct (roots (graph self)) as [|x [|y l]]; [| |cbn in Hr; lia]; rewrite Hex; by eexists.
Qed.

End Closure.

(** C27: a graph that was filled from the root downwards and validated is the
    closure of the expected root: both traversals give the distinct
    directories received, the one towards the root with every
    reference first and the root last; all references are there with the
    right sizes, and everything is referred to from the root. *)
Theorem download_closure `{PetGraphLaws, DirectoryHash} (dbg : bool) (root : bytes) (rk : Directory → nat)
    (ds : list Directory) (self : DirectoryGraph RootToLeavesValidator) (v : ValidatedDirectoryGraph) :
  collision_free ds → acyclic rk (distinct [] ds) → ds ≠ [] →
  download dbg (with_order (new_with_root_digest root)) ds = Ok self → validate self = Ok v →
  drained dbg root (distinct [] ds) v.
Proof.
  intros Hcf Hrk Hne Hdl Hv. destruct (download_new dbg root ds Hcf) as [_ Hh].
  apply (down_drained dbg root _ self rk v (Hh _ Hdl) Hrk); [|done].
  destruct ds as [|d ds]; [done|]. cbn. rewrite bool_decide_eq_false_2 by set_solver. cbn.
  clear. assert (∀ l l', l ≠ [] → distinct l l' ≠ []) as Hd; [|by apply Hd].
  intros l l'. revert l. induction l' as [|x l' IH]; intros l Hl; [done|]. cbn. apply IH. case_bool_decide; [done|]. by destruct l.
Qed.

Module Examples.
Import GraphModel.
Export DirectoryGraph.Examples.

#[local] Existing Instance counting_hash.

Definition received : DirectoryGraph RootToLeavesValidator :=
  match download true (with_order (new_with_root_digest (digest parent))) [parent; leaf; leaf] with
  | Ok self => self
  | _ => with_order root_to_leaves_default
  end.
Definition received_closure : ValidatedDirectoryGraph :=
  match validate received with Ok v => v | _ => mkValidated new_graph None end.

Lemma download_closure_witness : drained true (digest parent) (distinct [] [parent; leaf; leaf]) received_closure.
Proof.
  apply (download_closure true (digest parent) (λ d, length d) [parent; leaf; leaf] received received_closure).
  - intros a b Ha Hb E. repeat (apply elem_of_cons in Ha as [->|Ha]); repeat (apply elem_of_cons in Hb as [->|Hb]);
      try done; by apply elem_of_nil in Ha || apply elem_of_nil in Hb.
  - intros a b Ha Hb E. change (distinct [] [parent; leaf; leaf]) with [parent; leaf] in *.
    repeat (apply elem_of_cons in Ha as [->|Ha]); repeat (apply elem_of_cons in Hb as [->|Hb]); cbn in E |- *; try lia;
      first [by apply elem_of_nil in Ha|by apply elem_of_nil in Hb|by apply elem_of_nil in E|idtac].
    apply list_elem_of_singleton in E. discriminate E.
  - discriminate.
  - reflexivity.
  - reflexivity.
Defined.

(** Sizes are checked when the child arrives. *)
Example wrong_size_download :
  is_err (download true (with_order (new_with_root_digest (digest parent)))
            [[(B "a", DirectoryN (digest leaf) 7)]; leaf]) = true.
Proof. vm_compute. reflexivity. Qed.

End Examples.
