(* ===== verification/DirectoryService.v ===== *)
(** * [castore/src/directoryservice]: services for directories

    The traits, the service in memory with its putter, the traversals of
    closures and of paths, and the cache of one service in front of another.
    A service is its state: every call answers with the state after it. A
    stream is what it yields until it ends, polled to its end. *)

From stdpp Require Import strings gmap sorting relations.
From S2P Require Import Prelude Io BTreeMap Crates CastorePath Castore CastoreProto CastoreOrder PetGraph DirectoryGraph DirectoryDownload.
#[local] Open Scope nat_scope.

(** The codes of a [tonic::Status]. *)
Inductive Code := CodeNotFound | CodeInvalidArgument | CodeDataLoss | CodeUnimplemented | CodeInternal.

(** The messages of [crate::Error]; a failed lookup has that of its error, which
    is an invalid request or not. [Msg] is a fixed text, [IoError] an
    [std::io::Error], [Remote] the status of a remote call. *)
Inductive Why :=
| Msg (text : bytes) | IoError (kind : ErrorKind) | Remote (code : Code) (why : Why)
| AlreadyClosed | NoDirectories | Invalid (e : Error) | UnexpectedPutDigest | DigestMismatch (requested got : bytes)
| Corrupted (e : DirectoryError) | DoesNotExist (digest : bytes) | Unimplemented
| BadTarget (e : SymlinkTarget.SymlinkTargetError) | NotAdded (e : DirectoryError)
| LookupFailed (digest : bytes) (request : bool) (why : Why).

Inductive CError := InvalidRequest (why : Why) | StorageError (why : Why).

(** [From<std::io::Error> for Error] *)
Definition from_io (kind : ErrorKind) : CError :=
  if bool_decide (kind = InvalidInput) then InvalidRequest (IoError kind) else StorageError (IoError kind).

Definition lookup_failed (digest : bytes) (e : CError) : CError :=
  StorageError (match e with
                | InvalidRequest why => LookupFailed digest true why
                | StorageError why => LookupFailed digest false why
                end).

(** *** Calls that change the state of a service *)

Definition svc (S A : Type) : Type := S → outcome CError A * S.
Definition vret {S A} (a : A) : svc S A := λ s, (Ok a, s).
Definition vlift {S A} (m : outcome CError A) : svc S A := λ s, (m, s).
Definition vbind {S A B} (m : svc S A) (f : A → svc S B) : svc S B := λ s,
  match m s with
  | (Ok a, s) => f a s
  | (Err e, s) => (Err e, s)
  | (Panic, s) => (Panic, s)
  end.
Notation "'do!' x ':=' m 'in' k" := (vbind m (fun x => k))
  (at level 10, x pattern, m at level 100, k at level 200) : rust_scope.

(** What a stream yields; [None] if it has not ended. *)
Definition Stream : Type := list Directory * option (outcome CError unit).

(** The traits [DirectoryService] and [DirectoryPutter] *)
Class DirectoryService (S : Type) := {
  get : bytes → svc S (option Directory);
  put : Directory → svc S bytes;
  get_recursive : bytes → S → Stream * S;
  Putter : Type;
  put_multiple_start : Putter;
  putter_put : Directory → Putter → outcome CError unit * Putter;
  putter_close : Putter → S → outcome CError bytes * Putter * S;
}.

Section Services.
Context `{!PetGraph, !DirectoryHash}.
Context (dbg : bool).

(** ** [utils.rs] *)

(** The subdirectories that are queued after one is sent. *)
Definition enqueue (sent : gset bytes) (worklist : list bytes) (children : list bytes) : list bytes :=
  foldl (λ wl c, if bool_decide (c ∈ wl) || bool_decide (c ∈ sent) then wl else wl ++ [c]) worklist children.

(** [traverse_directory] *)
Fixpoint traverse {S} (get : bytes → svc S (option Directory)) (fuel : nat) (root : bytes)
    (worklist : list bytes) (sent : gset bytes) (s : S) : Stream * S :=
  match fuel with
  | O => (([], None), s)
  | Datatypes.S fuel =>
      match worklist with
      | [] => (([], Some (Ok tt)), s)
      | current :: worklist =>
          match get current s with
          | (Err e, s) => (([], Some (Err (lookup_failed current e))), s)
          | (Panic, s) => (([], Some Panic), s)
          | (Ok None, s) =>
              if bool_decide (current = root) then (([], Some (Ok tt)), s)
              else (([], Some (Err (StorageError (DoesNotExist current)))), s)
          | (Ok (Some dir), s) =>
              let sent := {[ current ]} ∪ sent in
              let worklist := enqueue sent worklist (child_digests dir) in
              let '((ds, e), s) := traverse get fuel root worklist sent s in
              ((dir :: ds, e), s)
          end
      end
  end.

Definition traverse_directory {S} (get : bytes → svc S (option Directory)) (fuel : nat) (root : bytes) (s : S) : Stream * S :=
  traverse get fuel root [root] ∅ s.

(** ** [traverse.rs] *)

Fixpoint descend {S} (get : bytes → svc S (option Directory)) (parent : Node) (components : list bytes) : svc S (option Node) :=
  match components with
  | [] => vret (Some parent)
  | component :: components =>
      match parent with
      | FileN _ _ _ | SymlinkN _ => vret None
      | DirectoryN digest _ =>
          do! o := get digest in
          do! directory := vlift (ok_or (StorageError (DoesNotExist digest)) o) in
          match list_find (λ x, x.1 = component) directory with
          | Some (_, (_, child)) => descend get child components
          | None => vret None
          end
      end
  end.

(** [descend_to] *)
Definition descend_to `{!BstrSplit} {S} (get : bytes → svc S (option Directory)) (root_node : Node) (path : bytes) : svc S (option Node) :=
  descend get root_node (Path.components_bytes path).

(** ** [simple_putter.rs] *)

Record SimplePutter := mkSimplePutter { directory_validator : option (DirectoryGraph LeavesToRootValidator) }.

(** [SimplePutter::new] *)
Definition new_simple_putter : SimplePutter := mkSimplePutter (Some (with_order leaves_to_root_default)).

Definition simple_put (directory : Directory) (self : SimplePutter) : outcome CError unit * SimplePutter :=
  match directory_validator self with
  | None => (Err (StorageError AlreadyClosed), self)
  | Some validator =>
      let '(validator, r) := add_leaves_to_root dbg validator directory in
      (omap_err (λ e, StorageError (Invalid e)) r, mkSimplePutter (Some validator))
  end.

(** The [put] of each directory. *)
Fixpoint put_all {S} (put : Directory → svc S bytes) (directories : list Directory) : svc S unit :=
  match directories with
  | [] => vret tt
  | directory :: directories =>
      do! actual_digest := put directory in
      if bool_decide (digest directory = actual_digest) then put_all put directories
      else vlift (Err (StorageError UnexpectedPutDigest))
  end.

Definition simple_close {S} (put : Directory → svc S bytes) (self : SimplePutter) (s : S)
    : outcome CError bytes * SimplePutter * S :=
  match directory_validator self with
  | None => (Err (InvalidRequest AlreadyClosed), self, s)
  | Some validator =>
      let '(r, s) := (do! v := vlift (omap_err (λ e, StorageError (Invalid e)) (validate validator)) in
                      do! directories := vlift (omap_err (λ e, StorageError (Invalid e)) (drain_leaves_to_root v)) in
                      do! root := vlift (ok_or (InvalidRequest NoDirectories) (last directories)) in
                      do! _ := put_all put directories in
                      vret (digest root)) s in
      (r, mkSimplePutter None, s)
  end.

(** ** [memory.rs] *)

Record MemoryDirectoryService := mkMemory { db : gmap bytes Message }.

Definition memory_get (requested : bytes) : svc MemoryDirectoryService (option Directory) := λ self,
  (match db self !! requested with
   | None => Ok None
   | Some directory =>
       let actual_digest := blake3 (encode_to_vec directory) in
       if negb (bool_decide (actual_digest = requested)) then Err (StorageError (DigestMismatch requested actual_digest))
       else omap_ok Some (omap_err (λ e, StorageError (Corrupted e)) (try_from directory))
   end, self).

Definition memory_put (directory : Directory) : svc MemoryDirectoryService bytes := λ self,
  (Ok (digest directory), mkMemory (<[digest directory := from directory]> (db self))).

(** The traversal asks for every stored directory at most once, and once for
    one that is not there. *)
#[global] Instance Memory_DirectoryService : DirectoryService MemoryDirectoryService := {|
  get := memory_get;
  put := memory_put;
  get_recursive root self := traverse_directory memory_get (Datatypes.S (Datatypes.S (base.size (dom (db self))))) root self;
  Putter := SimplePutter;
  put_multiple_start := new_simple_putter;
  putter_put := simple_put;
  putter_close := simple_close memory_put;
|}.

(** ** [combinators.rs] *)

Section Cache.
Context {N F : Type} `{NDS : !DirectoryService N, FDS : !DirectoryService F}.

Record Cache := mkCache { near : N; far : F }.

(** [put.put(dir)] for every directory, and [put.close()]. *)
Fixpoint putter_put_all {S} `{DS : DirectoryService S} (dirs : list Directory) (p : Putter) : outcome CError unit * Putter :=
  match dirs with
  | [] => (Ok tt, p)
  | dir :: dirs =>
      match putter_put dir p with
      | (Ok _, p) => putter_put_all dirs p
      | (e, p) => (e, p)
      end
  end.

(** [copy.add(dir)] for what the stream yields, and the end of the stream. To
    wait forever for the end counts as a panic. *)
Definition copy_stream (requested : bytes) (stream : Stream) : outcome CError (DirectoryGraph RootToLeavesValidator) :=
  let? copy := omap_err (λ e, StorageError (Invalid e))
                 (download dbg (with_order (new_with_root_digest requested)) stream.1) in
  match stream.2 with
  | Some (Ok _) => Ok copy
  | Some (Err e) => Err e
  | Some Panic | None => Panic
  end.

(** Validates the copy and puts it into [near]. *)
Definition store_near (copy : DirectoryGraph RootToLeavesValidator) : svc N unit := λ n,
  match omap_err (λ e, StorageError (Invalid e))
          (let? v := validate copy in drain_leaves_to_root v) with
  | Ok dirs =>
      match putter_put_all dirs (put_multiple_start (S := N)) with
      | (Ok _, p) => let '(r, _, n) := putter_close p n in (omap_ok (λ _, tt) r, n)
      | (e, _) => (e, n)
      end
  | Err e => (Err e, n)
  | Panic => (Panic, n)
  end.

(** What [get] and [get_recursive] do if [near] has nothing. *)
Definition fetch (requested : bytes) : svc Cache (list Directory) := λ self,
  let '(stream, f) := get_recursive requested (far self) in
  match copy_stream requested stream with
  | Ok copy => let '(r, n) := store_near copy (near self) in (omap_ok (λ _, stream.1) r, mkCache n f)
  | Err e => (Err e, mkCache (near self) f)
  | Panic => (Panic, mkCache (near self) f)
  end.

Definition cache_get (requested : bytes) : svc Cache (option Directory) := λ self,
  match get requested (near self) with
  | (Ok (Some directory), n) => (Ok (Some directory), mkCache n (far self))
  | (Ok None, n) => (do! dirs := fetch requested in vret (head dirs)) (mkCache n (far self))
  | (Err e, n) => (Err e, mkCache n (far self))
  | (Panic, n) => (Panic, mkCache n (far self))
  end.

Definition cache_put (directory : Directory) : svc Cache bytes := vlift (Err (StorageError Unimplemented)).

Definition cache_get_recursive (requested : bytes) (self : Cache) : Stream * Cache :=
  let '(stream, n) := get_recursive requested (near self) in
  match stream with
  | ([], Some (Ok _)) =>
      match fetch requested (mkCache n (far self)) with
      | (Ok dirs, self) => ((dirs, Some (Ok tt)), self)
      | (e, self) => (([], Some (omap_ok (λ _, tt) e)), self)
      end
  | _ => (stream, mkCache n (far self))
  end.

#[global] Instance Cache_DirectoryService : DirectoryService Cache := {|
  get := cache_get;
  put := cache_put;
  get_recursive := cache_get_recursive;
  Putter := SimplePutter;
  put_multiple_start := new_simple_putter;
  putter_put := simple_put;
  putter_close := simple_close cache_put;
|}.

End Cache.
End Services.
