(* ===== verification/DirectoryCache.v ===== *)
(** * Directory services: closures survive upload, traversal and caching

    The services of [DirectoryService] composed: what the traversal of the
    service in memory yields, what the putter stores, and that a cache in
    front of a service answers as the service does. *)

From stdpp Require Import strings gmap sorting relations.
From S2P Require Import Prelude BTreeMap Crates CastorePath Castore CastoreProto CastoreOrder PetGraph DirectoryGraph DirectoryDownload.
From S2P Require Import DirectoryService.
#[local] Open Scope nat_scope.

(** ** The service in memory as a map *)

Section Memory.
Context `{!DirectoryHash}.

(** Every message is that of a well-formed directory, under its digest. *)
Definition mem_ok (s : MemoryDirectoryService) : Prop :=
  ∀ dg m, db s !! dg = Some m → ∃ d, dir_ok d ∧ m = from d ∧ digest d = dg.

Definition dir_of (s : MemoryDirectoryService) (dg : bytes) : option Directory :=
  m ← db s !! dg; to_option (try_from m).

Lemma dir_of_Some s dg d :
  mem_ok s → dir_of s dg = Some d ↔ db s !! dg = Some (from d) ∧ dir_ok d ∧ digest d = dg.
Proof.
  intros Hs. unfold dir_of. destruct (db s !! dg) as [m|] eqn:E; [|naive_solver].
  destruct (Hs dg m E) as (d' & Hd' & -> & Hdg). cbn. rewrite roundtrip_from by done. cbn. split.
  - by intros [= <-].
  - intros ([= Ef] & Hd & _). f_equal. pose proof (roundtrip_from d Hd) as Hr. rewrite <- Ef, roundtrip_from in Hr by done.
    by simplify_eq.
Qed.

Lemma dir_of_digest s dg d : mem_ok s → dir_of s dg = Some d → digest d = dg.
Proof. intros Hs Hd%(dir_of_Some _ _ _ Hs). naive_solver. Qed.

Lemma dir_of_dom s dg d : dir_of s dg = Some d → dg ∈ dom (db s).
Proof. unfold dir_of. destruct (db s !! dg) eqn:E; [|done]. intros _. by apply elem_of_dom_2 in E. Qed.

Lemma memory_get_spec s dg : mem_ok s → memory_get dg s = (Ok (dir_of s dg), s).
Proof.
  intros Hs. unfold memory_get, dir_of. destruct (db s !! dg) as [m|] eqn:E; [|done]. cbn.
  destruct (Hs dg m E) as (d & Hd & -> & Hdg). rewrite bool_decide_eq_true_2 by done. cbn. by rewrite roundtrip_from.
Qed.

Lemma memory_put_spec s d dg :
  mem_ok s → dir_ok d →
  let s' := (memory_put d s).2 in
  mem_ok s' ∧ dir_of s' dg = if bool_decide (dg = digest d) then Some d else dir_of s dg.
Proof.
  intros Hs Hd s'. split.
  - intros dg' m. cbn. destruct (decide (dg' = digest d)) as [->|].
    + rewrite lookup_insert_eq. intros [= <-]. by exists d.
    + rewrite lookup_insert_ne by done. apply Hs.
  - unfold dir_of. cbn. case_bool_decide as E.
    + subst dg. rewrite lookup_insert_eq. cbn. by rewrite roundtrip_from.
    + by rewrite lookup_insert_ne.
Qed.

(** Storing several directories. *)
Lemma put_all_spec ds s :
  mem_ok s → Forall dir_ok ds → NoDup (digest <$> ds) →
  ∃ s', put_all memory_put ds s = (Ok tt, s') ∧ mem_ok s' ∧ (∀ d, d ∈ ds → dir_of s' (digest d) = Some d) ∧
    ∀ dg, dg ∉ digest <$> ds → dir_of s' dg = dir_of s dg.
Proof.
  revert s. induction ds as [|d ds IH]; intros s Hs Hok Hnd.
  { exists s. split_and!; [done|done|by intros ? ?%elem_of_nil|done]. }
  apply Forall_cons in Hok as [Hd Hok]. cbn in Hnd. apply NoDup_cons in Hnd as [Hnew Hnd].
  pose proof (λ dg, proj2 (memory_put_spec s d dg Hs Hd)) as Hput. pose proof (proj1 (memory_put_spec s d (digest d) Hs Hd)) as Hs1.
  cbn [put_all]. unfold vbind. cbn [memory_put]. rewrite bool_decide_eq_true_2 by done.
  destruct (IH (memory_put d s).2) as (s' & E & Hs' & Hin & Hout); [done..|]. exists s'. split_and!; [exact E|done|..].
  - intros d' [->|Hd']%elem_of_cons; [|by apply Hin]. rewrite Hout, Hput by done. by rewrite bool_decide_eq_true_2.
  - intros dg Hdg. cbn in Hdg. rewrite not_elem_of_cons in Hdg. destruct Hdg as [Hne Hdg].
    rewrite Hout, Hput by done. by rewrite bool_decide_eq_false_2.
Qed.

(** ** The traversal *)

Lemma elem_of_enqueue sent wl cs x :
  x ∈ enqueue sent wl cs ↔ x ∈ wl ∨ x ∈ cs ∧ x ∉ sent.
Proof.
  unfold enqueue. revert wl. induction cs as [|c cs IH]; intros wl; cbn; [set_solver|]. rewrite IH.
  destruct (bool_decide_reflect (c ∈ wl)), (bool_decide_reflect (c ∈ sent)); cbn; set_solver.
Qed.

Lemma NoDup_enqueue sent wl cs : NoDup wl → NoDup (enqueue sent wl cs).
Proof.
  unfold enqueue. revert wl. induction cs as [|c cs IH]; intros wl Hwl; cbn; [done|]. apply IH.
  destruct (bool_decide_reflect (c ∈ wl)), (bool_decide_reflect (c ∈ sent)); cbn; try done.
  apply NoDup_app. split_and!; [done|set_solver|apply NoDup_singleton].
Qed.

(** A store that has all that its directories refer to. *)
Definition closed_store (s : MemoryDirectoryService) : Prop :=
  ∀ dg d c, dir_of s dg = Some d → c ∈ child_digests d → is_Some (dir_of s c).

(** The directories of the closure of [root], each once, from the root down. *)
Record closure_of (s : MemoryDirectoryService) (root : bytes) (ds : list Directory) : Prop := {
  clo_stored d : d ∈ ds → dir_of s (digest d) = Some d;
  clo_distinct : NoDup (digest <$> ds);
  clo_order : in_order (root_first root) [] ds;
  clo_complete : complete ds;
}.

(** The state of the traversal after [pre] was sent. *)
Record traversing (s : MemoryDirectoryService) (root : bytes) (pre : list Directory) (wl : list bytes) (sent : gset bytes) : Prop := {
  tr_stored d : d ∈ pre → dir_of s (digest d) = Some d;
  tr_distinct : NoDup (digest <$> pre);
  tr_order : in_order (root_first root) [] pre;
  tr_sent x : x ∈ sent ↔ x ∈ digest <$> pre;
  tr_wl : NoDup wl;
  tr_fresh x : x ∈ wl → (x ∉ sent) ∧ is_Some (dir_of s x) ∧ (x = root ∨ ∃ d, d ∈ pre ∧ x ∈ child_digests d);
  tr_children d c : d ∈ pre → c ∈ child_digests d → c ∈ sent ∨ c ∈ wl;
}.

Lemma traversing_step s root pre x wl sent d :
  mem_ok s → closed_store s → traversing s root pre (x :: wl) sent → dir_of s x = Some d →
  traversing s root (pre ++ [d]) (enqueue ({[ x ]} ∪ sent) wl (child_digests d)) ({[ x ]} ∪ sent).
Proof.
  intros Hs Hcl Ht Hd. pose proof (dir_of_digest s x d Hs Hd) as Hx.
  destruct (tr_fresh _ _ _ _ _ Ht x) as (Hxs & _ & Hroot); [left|].
  pose proof (tr_wl _ _ _ _ _ Ht) as Hwl. apply NoDup_cons in Hwl as [Hxw Hwl].
  split.
  - intros d' [Hd'|Hd']%elem_of_app; [by apply Ht|]. apply list_elem_of_singleton in Hd' as ->. by rewrite Hx.
  - rewrite fmap_app. apply NoDup_app. split_and!; [apply Ht| |apply NoDup_singleton].
    intros y Hy Hy'%list_elem_of_singleton. subst y. apply Hxs, (tr_sent _ _ _ _ _ Ht). by rewrite <- Hx.
  - apply in_order_snoc. split; [apply Ht|]. cbn. unfold root_first. by rewrite Hx.
  - intros y. rewrite elem_of_union, elem_of_singleton, (tr_sent _ _ _ _ _ Ht), fmap_app, elem_of_app. cbn.
    rewrite Hx, list_elem_of_singleton. naive_solver.
  - by apply NoDup_enqueue.
  - intros y [Hy|[Hy Hny]]%elem_of_enqueue.
    + destruct (tr_fresh _ _ _ _ _ Ht y) as (? & ? & Hr); [by right|]. split_and!; [set_solver|done|]. set_solver.
    + split_and!; [done|by eapply Hcl|]. right. exists d. set_solver.
  - intros d' c [Hd'|Hd']%elem_of_app Hc; rewrite elem_of_enqueue.
    + destruct (tr_children _ _ _ _ _ Ht d' c Hd' Hc) as [?|[->|?]%elem_of_cons]; set_solver.
    + apply list_elem_of_singleton in Hd' as ->. destruct (decide (c ∈ {[ x ]} ∪ sent)); auto.
Qed.

Lemma traversing_length s root pre wl sent : traversing s root pre wl sent → length pre ≤ base.size (dom (db s)).
Proof.
  intros Ht. rewrite <- (length_fmap digest), <- (size_list_to_set (C := gset bytes) (digest <$> pre)) by apply Ht.
  apply subseteq_size. intros x. rewrite elem_of_list_to_set. intros (d & -> & Hd)%list_elem_of_fmap.
  by eapply dir_of_dom, Ht.
Qed.

Lemma traverse_spec s root fuel pre wl sent :
  mem_ok s → closed_store s → traversing s root pre wl sent → base.size (dom (db s)) < fuel + length pre →
  ∃ ds, traverse memory_get fuel root wl sent s = ((ds, Some (Ok tt)), s) ∧
    traversing s root (pre ++ ds) [] (list_to_set (digest <$> pre ++ ds)) ∧ (∀ x wl', wl = x :: wl' → ∃ d ds', ds = d :: ds' ∧ digest d = x).
Proof.
  intros Hs Hcl. revert pre wl sent. induction fuel as [|fuel IH]; intros pre wl sent Ht Hf.
  { pose proof (traversing_length _ _ _ _ _ Ht). lia. }
  destruct wl as [|x wl]; cbn [traverse].
  { exists []. rewrite app_nil_r. split_and!; [done| |done].
    split; [apply Ht|apply Ht|apply Ht|intros x; by rewrite elem_of_list_to_set|constructor|by intros ? ?%elem_of_nil|].
    intros d c Hd Hc. rewrite elem_of_list_to_set, <- (tr_sent _ _ _ _ _ Ht). by apply (tr_children _ _ _ _ _ Ht d). }
  rewrite memory_get_spec by done. destruct (tr_fresh _ _ _ _ _ Ht x) as (_ & [d Hd] & _); [left|]. rewrite Hd.
  destruct (IH _ _ _ (traversing_step s root pre x wl sent d Hs Hcl Ht Hd)) as (ds & E & Ht' & _).
  { rewrite length_app. cbn. lia. }
  rewrite E. exists (d :: ds). rewrite <- app_assoc in Ht'. split_and!; [done|done|].
  intros y wl' [= <- <-]. exists d, ds. split; [done|by eapply dir_of_digest].
Qed.

(** The recursive lookup yields the closure, and ends. *)
Lemma memory_get_recursive s root fuel :
  mem_ok s → closed_store s → base.size (dom (db s)) < fuel →
  match dir_of s root with
  | Some r => ∃ ds, traverse_directory memory_get fuel root s = ((r :: ds, Some (Ok tt)), s) ∧ closure_of s root (r :: ds)
  | None => traverse_directory memory_get fuel root s = (([], Some (Ok tt)), s)
  end.
Proof.
  intros Hs Hcl Hf. unfold traverse_directory. destruct (dir_of s root) as [r|] eqn:Er.
  - assert (traversing s root [] [root] ∅) as Ht.
    { split; try done; [by intros ? ?%elem_of_nil|constructor|set_solver|apply NoDup_singleton| |by intros ?? ?%elem_of_nil].
      intros x ->%list_elem_of_singleton. split_and!; [set_solver|by eexists|by left]. }
    destruct (traverse_spec s root fuel [] [root] ∅ Hs Hcl Ht) as (ds & E & Ht' & Hhd); [cbn; lia|].
    destruct (Hhd root [] eq_refl) as (d & ds' & -> & Hd). cbn [app] in Ht'.
    assert (d = r) as ->.
    { assert (dir_of s (digest d) = Some d) as Hd' by (apply Ht'; left). rewrite Hd, Er in Hd'. by simplify_eq. }
    exists ds'. split; [done|]. split; try apply Ht'.
    intros d' c Hd' Hc. destruct (tr_children _ _ _ _ _ Ht' d' c Hd' Hc) as [Hs'|[]%elem_of_nil].
    by apply elem_of_list_to_set in Hs'.
  - destruct fuel; [lia|]. cbn [traverse]. rewrite memory_get_spec by done. rewrite Er. by rewrite bool_decide_eq_true_2.
Qed.

End Memory.

(** ** Putting a closure *)

Section Closures.
Context `{PetGraphLaws, !DirectoryHash}.
Context (dbg : bool).

Lemma distinct_NoDup done ds : NoDup (digest <$> done ++ ds) → distinct done ds = done ++ ds.
Proof.
  revert done. induction ds as [|d ds IH]; intros done Hnd; cbn; [by rewrite app_nil_r|].
  rewrite bool_decide_eq_false_2.
  - by rewrite IH; rewrite <- app_assoc.
  - rewrite fmap_app in Hnd. apply NoDup_app in Hnd as (_ & Hnd & _). intros Hd. apply (Hnd _ Hd). left.
Qed.

Lemma distinct_incl pre ds d : d ∈ distinct pre ds → d ∈ pre ++ ds.
Proof.
  revert pre. induction ds as [|x ds IH]; intros pre; cbn; [by rewrite app_nil_r|].
  intros Hd%IH. case_bool_decide; set_solver.
Qed.

(** A list of directories that is a closure, each after those it refers to. *)
Record uploadable (up : list Directory) (r : Directory) : Prop := {
  up_distinct : NoDup (digest <$> up);
  up_order : in_order leaves_first [] up;
  up_sizes d : d ∈ up → sizes_right dbg up d;
  up_last : last up = Some r;
  up_reach d : d ∈ up → rtc (refers up) r d;
}.

Lemma uploadable_consistent done ds :
  NoDup (digest <$> done ++ ds) → in_order leaves_first done ds → (∀ d, d ∈ ds → sizes_right dbg (done ++ ds) d) →
  consistent dbg done ds.
Proof.
  revert done. induction ds as [|d ds IH]; intros done Hnd Hord Hsz; [exact I|]. destruct Hord as [Hd Hord]. cbn.
  split; [exact Hd|]. rewrite bool_decide_eq_false_2.
  - split.
    2:{ apply IH; [by rewrite <- app_assoc|done|]. intros x Hx. rewrite <- app_assoc. apply Hsz. by right. }
    intros name dg sz Hin. destruct (Hsz d (list_elem_of_here _ _) name dg sz Hin) as (c & Hc & Hdg & Hs).
    exists c. split_and!; [|done..]. assert (dg ∈ digest <$> done) as (c' & E & Hc')%list_elem_of_fmap.
    { apply Hd, elem_of_child_digests. eauto. }
    assert (c' = c) as <-; [|done]. apply list_elem_of_lookup in Hc as [i Hi]. apply list_elem_of_lookup in Hc' as [j Hj].
    assert ((done ++ d :: ds) !! j = Some c') as Hj' by (by apply lookup_app_l_Some).
    assert (i = j) as ->; [|by simplify_eq].
    apply (NoDup_lookup _ _ _ (digest c) Hnd); rewrite list_lookup_fmap; [by rewrite Hi|rewrite Hj'; cbn; congruence].
  - rewrite fmap_app in Hnd. apply NoDup_app in Hnd as (_ & Hnd & _). intros Hx. apply (Hnd _ Hx). left.
Qed.

Lemma putter_put_all_upload up g g' :
  upload dbg g up = Ok g' →
  putter_put_all (S := MemoryDirectoryService) (DS := Memory_DirectoryService dbg) up (mkSimplePutter (Some g)) =
  (Ok tt, mkSimplePutter (Some g')).
Proof.
  revert g. induction up as [|d up IH]; intros g; [by intros [= <-]|]. cbn -[add_leaves_to_root].
  unfold simple_put. cbn [directory_validator]. destruct (add_leaves_to_root dbg g d) as [g1 [[]| |]]; [|done..]. apply IH.
Qed.

Lemma putter_put_all_inv up g p :
  putter_put_all (S := MemoryDirectoryService) (DS := Memory_DirectoryService dbg) up (mkSimplePutter (Some g)) = (Ok tt, p) →
  ∃ g', upload dbg g up = Ok g' ∧ p = mkSimplePutter (Some g').
Proof.
  revert g. induction up as [|d up IH]; intros g; [intros [= <-]; eauto|]. cbn -[add_leaves_to_root].
  unfold simple_put. cbn [directory_validator]. destruct (add_leaves_to_root dbg g d) as [g1 [[]| |]]; [|done..]. apply IH.
Qed.

(** The last directory is the only one that nothing refers to. *)
Lemma upload_validates up r self :
  uploadable up r → holds dbg up (graph self) (digest_to_node_ix self) →
  ∃ n, validate (O := LeavesToRootValidator) self = Ok (mkValidated (graph self) (Some n)) ∧ roots (graph self) = [n] ∧ up !! n = Some r.
Proof.
  intros Hup Hh. pose proof (up_last _ _ Hup) as Hl. rewrite last_lookup in Hl.
  destruct (length up) as [|n] eqn:Hn; [by apply nil_length_inv in Hn as ->|]. cbn in Hl. exists n.
  destruct (roots_last dbg up _ _ n Hh Hn) as [l Hr].
  assert (NoDup (roots (graph self))) as Hnd by (apply NoDup_filter, NoDup_seq).
  assert (∀ v, v ∈ roots (graph self) → v = n) as Hone.
  { intros v [Hv Hinc]%(elem_of_roots _ _ _ _ (holds_closed _ _ _ _ Hh)). destruct (lookup_lt_is_Some_2 _ _ Hv) as [dv Hdv].
    assert (rtc (refers up) r dv) as Hreach by (apply Hup; by eapply list_elem_of_lookup_2).
    assert (∀ a b da, up !! a = Some da → up !! b = Some da → a = b) as Hinj.
    { intros a b da Ha Hb. apply (NoDup_lookup _ _ _ (digest da) (up_distinct _ _ Hup)); rewrite list_lookup_fmap; [by rewrite Ha|by rewrite Hb]. }
    apply rtc_inv_r in Hreach as [->|(a & Hra & _ & Hc)]; [by eapply Hinj|]. exfalso.
    assert (a ∈ up) as (u & Hu)%list_elem_of_lookup.
    { apply rtc_inv_r in Hra as [<-|(? & _ & ? & _)]; [by eapply list_elem_of_lookup_2|done]. }
    destruct (holds_children _ _ _ _ Hh u a (digest dv) Hu Hc) as (v' & dv' & Hv' & E & w & Hw).
    assert (v' = v) as ->.
    { apply (NoDup_lookup _ _ _ (digest dv) (up_distinct _ _ Hup)); rewrite list_lookup_fmap; [by rewrite Hv', <- E|by rewrite Hdv]. }
    apply list_elem_of_lookup in Hw as [k Hk].
    assert (k ∈ incoming_edges (graph self) v) as Hk' by (apply incoming_edges_spec; eauto). rewrite Hinc in Hk'. by apply elem_of_nil in Hk'. }
  assert (roots (graph self) = [n]) as Hroots.
  { destruct l as [|a l]; [done|]. rewrite Hr in Hnd, Hone. apply NoDup_cons in Hnd as [Hnd _].
    rewrite (Hone a) in Hnd by left. set_solver. }
  split_and!; [|done|done]. unfold validate. rewrite Hroots.
  destruct (existsb _ _) eqn:Ex; [|done]. exfalso. apply existsb_exists in Ex as (x & Hx%list_elem_of_In & Hx').
  rewrite (holds_nodes _ _ _ _ Hh) in Hx. by apply list_elem_of_fmap in Hx as (? & -> & _).
Qed.

(** Putting a sequence of directories into the service in memory. *)
Lemma put_upload ds r s :
  consistent dbg [] ds → uploadable (distinct [] ds) r → mem_ok s → Forall dir_ok ds →
  ∃ p s', putter_put_all (S := MemoryDirectoryService) (DS := Memory_DirectoryService dbg) ds new_simple_putter = (Ok tt, p) ∧
    simple_close memory_put p s = (Ok (digest r), mkSimplePutter None, s') ∧ mem_ok s' ∧
    (∀ d, d ∈ distinct [] ds → dir_of s' (digest d) = Some d) ∧
    ∀ dg, dg ∉ digest <$> distinct [] ds → dir_of s' dg = dir_of s dg.
Proof.
  intros Hcons Hup Hs Hok. unfold new_simple_putter.
  destruct (upload_spec dbg [] (with_order leaves_to_root_default) ds) as [Hacc Hholds];
    [by apply holds_new|intros g'; cbn; set_solver|]. apply Hacc in Hcons as [self Hself].
  specialize (Hholds self Hself). set (up := distinct [] ds) in *.
  apply putter_put_all_upload in Hself as Hputs. exists (mkSimplePutter (Some self)).
  destruct (upload_validates up r self Hup Hholds) as (n & Hv & Hroots & Hn).
  destruct (closed_drains dbg id up _ (holds_closed _ _ _ _ Hholds) n r Hroots Hn) as (up' & _ & Hdr & _ & Hperm & _ & _ & Hlast & _).
  destruct (put_all_spec up' s Hs) as (s' & Hput & Hs' & Hin & Hout).
  { rewrite Hperm. apply Forall_forall. intros d Hd%distinct_incl. by eapply Forall_forall in Hok. }
  { rewrite Hperm. apply Hup. }
  exists s'. split_and!; [done| |done|intros d Hd; apply Hin; by rewrite Hperm|].
  - unfold simple_close, vbind, vlift. cbn [directory_validator]. rewrite Hv. cbn [omap_err]. rewrite Hdr. cbn [omap_err].
    rewrite Hlast. cbn [ok_or]. by rewrite Hput.
  - intros dg Hdg. apply Hout. by rewrite Hperm.
Qed.

(** Putting such a closure. *)
Lemma put_closure up r s :
  uploadable up r → mem_ok s → Forall dir_ok up →
  ∃ p s', putter_put_all (S := MemoryDirectoryService) (DS := Memory_DirectoryService dbg) up new_simple_putter = (Ok tt, p) ∧
    simple_close memory_put p s = (Ok (digest r), mkSimplePutter None, s') ∧ mem_ok s' ∧
    (∀ d, d ∈ up → dir_of s' (digest d) = Some d) ∧ ∀ dg, dg ∉ digest <$> up → dir_of s' dg = dir_of s dg.
Proof.
  intros Hup Hs Hok. pose proof (put_upload up r s) as Hput. rewrite distinct_NoDup in Hput by apply Hup.
  apply Hput; [|done..]. apply uploadable_consistent; apply Hup.
Qed.

(** *** Directories that are sent several times *)

Lemma distinct_app acc a b : distinct acc (a ++ b) = distinct (distinct acc a) b.
Proof. revert acc. induction a as [|d a IH]; intros acc; [done|apply IH]. Qed.

Lemma elem_of_distinct acc ds d : collision_free (acc ++ ds) → d ∈ distinct acc ds ↔ d ∈ acc ∨ d ∈ ds.
Proof.
  revert acc. induction ds as [|x ds IH]; intros acc Hc; cbn; [set_solver|]. case_bool_decide as Hx.
  - apply list_elem_of_fmap in Hx as (y & E & Hy). assert (x = y) as <- by (apply Hc; set_solver).
    rewrite IH; [set_solver|]. eapply collision_free_incl; [|exact Hc]. set_solver.
  - rewrite IH; [set_solver|]. eapply collision_free_incl; [|exact Hc]. set_solver.
Qed.

Lemma distinct_digests acc ds : NoDup (digest <$> acc) → NoDup (digest <$> distinct acc ds).
Proof.
  revert acc. induction ds as [|x ds IH]; intros acc Hd; cbn; [done|]. apply IH. case_bool_decide as Hx; [done|].
  rewrite fmap_app. apply NoDup_app. split_and!; [done| |apply NoDup_singleton]. intros y Hy ->%list_elem_of_singleton. done.
Qed.

Lemma sizes_right_incl l l' d : (∀ c, c ∈ l → c ∈ l') → sizes_right dbg l d → sizes_right dbg l' d.
Proof. intros Hl Hs name dg sz Hd. destruct (Hs name dg sz Hd) as (c & ? & ?). eauto. Qed.

Lemma sizes_right_first l d : sizes_right dbg l d → leaves_first l d.
Proof.
  intros Hs c (name & sz & Hc)%elem_of_child_digests. destruct (Hs name c sz Hc) as (d' & Hd' & <- & _).
  by apply list_elem_of_fmap_2.
Qed.

(** Every directory after those it refers to. *)
Lemma sent_consistent pre acc ds :
  collision_free (pre ++ ds) → (∀ d, d ∈ acc ↔ d ∈ pre) → in_order (sizes_right dbg) pre ds → consistent dbg acc ds.
Proof.
  revert pre acc. induction ds as [|d ds IH]; intros pre acc Hc Hpre; [done|]. intros [Hd Hds]. cbn.
  assert (sizes_right dbg acc d) as Hd' by (eapply sizes_right_incl; [|done]; intros c; apply Hpre).
  split; [by apply sizes_right_first|].
  assert (collision_free ((pre ++ [d]) ++ ds)) as Hc' by by rewrite <- app_assoc.
  case_bool_decide as Hx; [|split; [done|]]; (apply (IH (pre ++ [d])); [done| |done]).
  - apply list_elem_of_fmap in Hx as (y & E & Hy%Hpre). assert (d = y) as <- by (apply Hc; set_solver). set_solver.
  - set_solver.
Qed.

Lemma distinct_order acc ds :
  in_order leaves_first [] acc → consistent dbg acc ds → in_order leaves_first [] (distinct acc ds).
Proof.
  revert acc. induction ds as [|d ds IH]; intros acc Hd; cbn; [done|]. intros [Hc Hds]. case_bool_decide; [by apply IH|].
  destruct Hds as [_ Hds]. apply IH; [|done]. by apply in_order_snoc.
Qed.

Lemma distinct_uploadable ds r :
  collision_free (ds ++ [r]) → in_order (sizes_right dbg) [] (ds ++ [r]) → r ∉ ds →
  (∀ d, d ∈ ds → rtc (refers (ds ++ [r])) r d) →
  consistent dbg [] (ds ++ [r]) ∧ uploadable (distinct [] (ds ++ [r])) r.
Proof.
  intros Hc Hord Hr Hreach. assert (consistent dbg [] (ds ++ [r])) as Hcons by (by apply (sent_consistent [])).
  assert (∀ d, d ∈ distinct [] (ds ++ [r]) ↔ d ∈ ds ++ [r]) as Hin.
  { intros d. rewrite elem_of_distinct by done. set_solver. }
  split; [done|]. split.
  - apply distinct_digests. constructor.
  - by apply distinct_order.
  - intros d Hd%Hin. eapply sizes_right_incl; [intros c; apply Hin|]. apply list_elem_of_lookup in Hd as [i Hi].
    eapply sizes_right_incl; [|by eapply in_order_lookup]. intros c. cbn. intros Hc'. eapply elem_of_take in Hc' as (j & Hj & _).
    by eapply list_elem_of_lookup_2.
  - rewrite distinct_app. cbn. rewrite bool_decide_eq_false_2; [by rewrite last_snoc|].
    intros (x & E & Hx%distinct_incl)%list_elem_of_fmap. apply Hr. assert (r = x) as -> by (apply Hc; set_solver). set_solver.
  - intros d Hd%Hin. eapply rtc_subrel.
    2:{ apply elem_of_app in Hd as [Hd| ->%list_elem_of_singleton]; [by apply Hreach|constructor]. }
    intros a b [Hb Hab]. split; [by apply Hin|done].
Qed.

End Closures.

(** ** The cache *)

(** A store of well-formed directories that has all they refer to, with the
    sizes they state; no directory refers to itself, directly or not. *)
Definition store_sound `{DirectoryHash} (dbg : bool) (s : MemoryDirectoryService) : Prop :=
  mem_ok s ∧
  (∀ dg d name c sz, dir_of s dg = Some d → (name, DirectoryN c sz) ∈ d →
     ∃ d', dir_of s c = Some d' ∧ size (E := Error) dbg d' = Ok sz) ∧
  ∃ rk : Directory → nat, ∀ a b dga dgb,
    dir_of s dga = Some a → dir_of s dgb = Some b → digest b ∈ child_digests a → rk b < rk a.

(** The state of a cache: [near] has closures of [far]. *)
Definition cache_ok `{DirectoryHash} (dbg : bool) (self : Cache (N := MemoryDirectoryService) (F := MemoryDirectoryService)) : Prop :=
  mem_ok (near self) ∧ closed_store (near self) ∧ store_sound dbg (far self) ∧
  ∀ dg d, dir_of (near self) dg = Some d → dir_of (far self) dg = Some d.

Section Cache.
Context `{PetGraphLaws, !DirectoryHash}.
Context (dbg : bool).
#[local] Instance mem_service : DirectoryService MemoryDirectoryService := Memory_DirectoryService dbg.

Lemma store_sound_closed s : store_sound dbg s → closed_store s.
Proof.
  intros (_ & Hsz & _) dg d c Hd (name & sz & Hin)%elem_of_child_digests.
  destruct (Hsz dg d name c sz Hd Hin) as (d' & ? & _). eauto.
Qed.

(** What the traversal of a sound store yields is accepted as a closure. *)
Lemma closure_accepted s root pre ds :
  store_sound dbg s → (∀ d, d ∈ pre ++ ds → dir_of s (digest d) = Some d) → NoDup (digest <$> pre ++ ds) →
  in_order (root_first root) pre ds → accepts dbg root pre ds.
Proof.
  intros Hs. destruct Hs as (Hmem & Hsz & rk & Hrk). revert pre. induction ds as [|d ds IH]; intros pre Hst Hnd Hord; [exact I|].
  destruct Hord as [Hd Hord]. cbn. split; [exact Hd|]. rewrite bool_decide_eq_false_2.
  - split; [|apply IH; rewrite <- ?app_assoc; done]. split.
    + intros name c sz Hc Hin. destruct (Hsz (digest d) d name (digest c) sz) as (d' & Hd' & ?); [apply Hst; set_solver|done|].
      rewrite (Hst c) in Hd' by set_solver. by simplify_eq.
    + intros name a sz Ha Hin. destruct (Hsz (digest a) a name (digest d) sz) as (d' & Hd' & ?);
        [apply Hst; destruct Ha; set_solver|done|]. rewrite (Hst d) in Hd' by set_solver. by simplify_eq.
  - rewrite fmap_app in Hnd. apply NoDup_app in Hnd as (_ & Hnd & _). intros Hx. apply (Hnd _ Hx). left.
Qed.

Lemma NoDup_digest_collision_free ds : NoDup (digest <$> ds) → collision_free ds.
Proof.
  intros Hnd a b (i & Hi)%list_elem_of_lookup (j & Hj)%list_elem_of_lookup E. assert (i = j) as ->; [|by simplify_eq].
  apply (NoDup_lookup _ _ _ (digest a) Hnd); rewrite list_lookup_fmap; [by rewrite Hi|by rewrite Hj, E].
Qed.

(** The copy of a closure can be drained and put. *)
Lemma copy_stream_closure s root ds r :
  store_sound dbg s → closure_of s root ds → head ds = Some r →
  ∃ copy v up, copy_stream dbg root (ds, Some (Ok tt)) = Ok copy ∧ validate copy = Ok v ∧
    drain_leaves_to_root v = Ok up ∧ up ≡ₚ ds ∧ uploadable dbg up r ∧ ∃ down, drain_root_to_leaves v = Ok down ∧ down ≡ₚ ds.
Proof.
  intros Hs Hcl Hr. pose proof (clo_distinct _ _ _ Hcl) as Hnd.
  destruct (download_new dbg root ds (NoDup_digest_collision_free ds Hnd)) as [Hacc Hholds].
  assert (accepts dbg root [] ds) as [copy Hcopy]%Hacc by exact (closure_accepted s root [] ds Hs (clo_stored _ _ _ Hcl) Hnd (clo_order _ _ _ Hcl)).
  specialize (Hholds copy Hcopy). rewrite distinct_NoDup in Hholds by done. cbn [app] in Hholds.
  assert (∃ rk, acyclic rk ds) as [rk Hrk].
  { destruct Hs as (_ & _ & rk & Hrk). exists rk. intros a b Ha%(clo_stored _ _ _ Hcl) Hb%(clo_stored _ _ _ Hcl). by eapply Hrk. }
  destruct (down_validates dbg root ds copy rk Hholds Hrk (clo_complete _ _ _ Hcl)) as [v Hv].
  destruct (down_drained dbg root ds copy rk v Hholds Hrk) as (r' & up & down & _ & Hhd & Hup & Hdown & Hperm & Hdperm & Hord & Hlast & Hsz & Hreach);
    [by intros ->|done|]. rewrite Hr in Hhd. injection Hhd as <-. exists copy, v, up. split_and!; [|done..| |by exists down].
  - unfold copy_stream. cbn. by rewrite Hcopy.
  - split; [by rewrite Hperm|done| |done|].
    + intros d Hd. apply (sizes_right_perm dbg ds up); [done|]. apply Hsz. by rewrite <- Hperm.
    + intros d Hd. eapply rtc_subrel; [|apply Hreach; by rewrite <- Hperm].
      intros a b [Hb Hab]. split; [by rewrite Hperm|done].
Qed.

(** Fetching a closure that [far] has. *)
Lemma fetch_found self dg r :
  cache_ok dbg self → dir_of (far self) dg = Some r →
  ∃ ds n', fetch dbg dg self = (Ok ds, mkCache n' (far self)) ∧ cache_ok dbg (mkCache n' (far self)) ∧
    closure_of (far self) dg ds ∧ head ds = Some r ∧ (∀ d, d ∈ ds → dir_of n' (digest d) = Some d) ∧
    ∀ dg' d, dir_of (near self) dg' = Some d → dir_of n' dg' = Some d.
Proof.
  intros (Hn & Hnc & Hf & Hsub) Hr. pose proof (store_sound_closed _ Hf) as Hfc. pose proof (proj1 Hf) as Hfm.
  pose proof (memory_get_recursive (far self) dg (S (S (base.size (dom (db (far self)))))) Hfm Hfc ltac:(lia)) as Hrec.
  rewrite Hr in Hrec. destruct Hrec as (ds & Hrec & Hcl).
  destruct (copy_stream_closure (far self) dg (r :: ds) r Hf Hcl eq_refl) as (copy & v & up & Hcopy & Hv & Hup & Hperm & Hupl & _).
  destruct (put_closure dbg up r (near self) Hupl Hn) as (p & n' & Hputs & Hclose & Hn' & Hin & Hout).
  { rewrite Hperm. apply Forall_forall. intros d Hd%(clo_stored _ _ _ Hcl). by apply (dir_of_Some _ _ _ Hfm) in Hd as (_ & ? & _). }
  exists (r :: ds), n'. assert (∀ d, d ∈ r :: ds → dir_of n' (digest d) = Some d) as Hin' by (intros d; rewrite <- Hperm; apply Hin).
  assert (∀ dg' d, dir_of n' dg' = Some d → d ∈ r :: ds ∨ dir_of (near self) dg' = Some d) as Hinv.
  { intros dg' d Hd. destruct (decide (dg' ∈ digest <$> up)) as [(c & -> & Hc)%list_elem_of_fmap|Hno].
    - rewrite (Hin c Hc) in Hd. injection Hd as ->. left. by rewrite <- Hperm.
    - right. by rewrite <- (Hout dg' Hno). }
  assert (∀ dg' d, dir_of (near self) dg' = Some d → dir_of n' dg' = Some d) as Hmono.
  { intros dg' d Hd. destruct (decide (dg' ∈ digest <$> up)) as [(c & -> & Hc)%list_elem_of_fmap|Hno]; [|by rewrite Hout].
    rewrite (Hin c Hc). rewrite Hperm in Hc. apply (clo_stored _ _ _ Hcl) in Hc. apply Hsub in Hd. congruence. }
  split_and!; [|split_and!; [done| |done|]|done..|done|done].
  - unfold fetch. cbn [get_recursive mem_service Memory_DirectoryService]. rewrite Hrec, Hcopy. unfold store_near.
    rewrite Hv. cbn [obind]. rewrite Hup. cbn [omap_err put_multiple_start mem_service Memory_DirectoryService].
    unfold mem_service. rewrite Hputs. cbn [putter_close Memory_DirectoryService]. by rewrite Hclose.
  - intros dg' d c Hd Hc. destruct (Hinv dg' d Hd) as [Hd'|Hd'].
    + destruct (proj1 (list_elem_of_fmap _ _ _) (clo_complete _ _ _ Hcl d c Hd' Hc)) as (c' & -> & Hc'). eauto.
    + destruct (Hnc dg' d c Hd' Hc) as [c' Hc']. eauto.
  - intros dg' d Hd. destruct (Hinv dg' d Hd) as [Hd'|Hd']; [|by apply Hsub].
    rewrite <- (dir_of_digest _ _ _ Hn' Hd). by apply (clo_stored _ _ _ Hcl).
Qed.

(** There is nothing to fetch, and nothing to put is an error. *)
Lemma fetch_missing self dg :
  cache_ok dbg self → dir_of (far self) dg = None → fetch dbg dg self = (Err (InvalidRequest NoDirectories), self).
Proof.
  intros (Hn & Hnc & Hf & Hsub) Hr. pose proof (store_sound_closed _ Hf) as Hfc. pose proof (proj1 Hf) as Hfm.
  pose proof (memory_get_recursive (far self) dg (S (S (base.size (dom (db (far self)))))) Hfm Hfc ltac:(lia)) as Hrec.
  rewrite Hr in Hrec. unfold fetch. cbn [get_recursive mem_service Memory_DirectoryService]. rewrite Hrec.
  assert (∀ O (o : O), validate (with_order o) = Ok (mkValidated new_graph None)) as Hempty.
  { intros O o. unfold validate, roots. cbn [graph with_order]. by rewrite new_nodes. }
  unfold copy_stream. cbn [obind omap_err fst snd download]. unfold store_near. rewrite Hempty.
  cbn [obind omap_err drain_leaves_to_root root take_weights putter_put_all].
  change (putter_close (put_multiple_start (S := MemoryDirectoryService))) with (simple_close memory_put new_simple_putter).
  unfold simple_close, vbind, vlift, new_simple_putter. cbn [directory_validator]. rewrite Hempty. by destruct self.
Qed.

(** C28: a cache in front of a service answers with what the service has: [get]
    and [get_recursive] of a directory that [far] has give that directory
    and its closure from the root down, whatever [near] holds of it; [near] then
    has it, keeps what it had, and still holds only closures of [far]. What
    [far] does not have is an error, where the trait promises [None] and an
    empty stream. *)
Theorem cache_refines_far (self : Cache) (dg : bytes) :
  cache_ok dbg self →
  match dir_of (far self) dg with
  | Some d =>
      (∃ self', cache_get dbg dg self = (Ok (Some d), self') ∧ cache_ok dbg self' ∧ far self' = far self ∧
         dir_of (near self') dg = Some d ∧ ∀ dg' d', dir_of (near self) dg' = Some d' → dir_of (near self') dg' = Some d') ∧
      ∃ ds self', cache_get_recursive dbg dg self = ((d :: ds, Some (Ok tt)), self') ∧ cache_ok dbg self' ∧
         far self' = far self ∧ closure_of (far self) dg (d :: ds) ∧ ∀ d', d' ∈ d :: ds → dir_of (near self') (digest d') = Some d'
  | None =>
      cache_get dbg dg self = (Err (InvalidRequest NoDirectories), self) ∧
      cache_get_recursive dbg dg self = (([], Some (Err (InvalidRequest NoDirectories))), self)
  end.
Proof.
  intros Hc. pose proof Hc as (Hn & Hnc & Hf & Hsub).
  pose proof (memory_get_recursive (near self) dg (S (S (base.size (dom (db (near self)))))) Hn Hnc ltac:(lia)) as Hrec.
  unfold cache_get, cache_get_recursive. cbn [get get_recursive mem_service Memory_DirectoryService].
  rewrite (memory_get_spec (near self) dg Hn). unfold vbind.
  destruct self as [n f]. cbn [near far] in *.
  destruct (dir_of f dg) as [d|] eqn:Ed.
  - destruct (dir_of n dg) as [d'|] eqn:En.
    + pose proof (Hsub _ _ En) as E. rewrite Ed in E. injection E as <-. destruct Hrec as (ds & Hrec & Hcl). rewrite Hrec. split.
      * eexists. by split_and!.
      * exists ds, (mkCache n f). split_and!; [done|done|done| |by apply Hcl]. split; try apply Hcl.
        intros d' Hd'. apply Hsub. by apply Hcl.
    + destruct (fetch_found (mkCache n f) dg d Hc Ed) as (ds & n' & Hfetch & Hok & Hcl & Hhd & Hin & Hmono).
      rewrite Hrec, Hfetch. destruct ds as [|r ds]; [done|]. injection Hhd as ->. cbn. split.
      * eexists. split_and!; [done..| |done]. cbn. rewrite <- (dir_of_digest f dg d (proj1 Hf) Ed). apply Hin. left.
      * exists ds, (mkCache n' f). by split_and!.
  - destruct (dir_of n dg) as [d'|] eqn:En; [by rewrite (Hsub _ _ En) in Ed|].
    rewrite Hrec. by rewrite (fetch_missing (mkCache n f) dg Hc Ed).
Qed.

End Cache.

(** ** Uploads *)

Section Roundtrip.
Context `{PetGraphLaws, !DirectoryHash}.
Context (dbg : bool).

(** The directories of a closure are those reachable from its root. *)
Lemma closure_of_perm s root r l up :
  closure_of s root (r :: l) → digest r = root → r ∈ up → NoDup (digest <$> up) → complete up →
  (∀ d, d ∈ up → dir_of s (digest d) = Some d) → (∀ d, d ∈ up → rtc (refers up) r d) → r :: l ≡ₚ up.
Proof.
  intros Hcl Hroot Hr Hnd Hcomp Hst Hreach.
  assert (∀ x y, dir_of s (digest x) = Some x → dir_of s (digest y) = Some y → digest x = digest y → x = y) as Hinj.
  { intros x y Hx Hy E. rewrite E, Hy in Hx. by simplify_eq. }
  apply NoDup_Permutation; [eapply NoDup_fmap_1, Hcl|by eapply NoDup_fmap_1|]. intros d. split.
  - intros (i & Hi)%list_elem_of_lookup. revert d Hi. induction (lt_wf i) as [i _ IH]. intros d Hi.
    assert (dir_of s (digest d) = Some d) as Hd by (apply Hcl; by eapply list_elem_of_lookup_2).
    destruct (in_order_lookup _ _ _ _ _ (clo_order _ _ _ Hcl) Hi) as [E|(d' & Hd' & Hc)].
    + rewrite (Hinj d r); [done|done|by apply Hst|congruence].
    + cbn in Hd'. apply list_elem_of_lookup in Hd' as [j Hj]. apply lookup_take_Some in Hj as [Hj Hlt].
      destruct (proj1 (list_elem_of_fmap _ _ _) (Hcomp d' (digest d) (IH j Hlt d' Hj) Hc)) as (c & E & Hc').
      by rewrite (Hinj d c) by auto.
  - intros Hd. specialize (Hreach d Hd). clear Hd. revert d Hreach.
    apply (rtc_ind_r (λ d, d ∈ r :: l) r); [left|]. intros x y Hrx [Hy Hxy] IH.
    destruct (proj1 (list_elem_of_fmap _ _ _) (clo_complete _ _ _ Hcl x (digest y) IH Hxy)) as (c & E & Hc).
    by rewrite (Hinj y c); [|apply Hst|apply Hcl|].
Qed.

(** C29: directories sent to the putter of the service in memory, all accepted
    and closed, are stored: the recursive lookup of the answered digest yields
    exactly the distinct directories sent, the last one first, each one after a
    directory that refers to it. *)
Theorem putter_roundtrip (s s' : MemoryDirectoryService) (ds : list Directory) (p p' : SimplePutter) (root : bytes) :
  mem_ok s → closed_store s → Forall dir_ok ds →
  putter_put_all (S := MemoryDirectoryService) (DS := Memory_DirectoryService dbg) ds new_simple_putter = (Ok tt, p) →
  simple_close memory_put p s = (Ok root, p', s') →
  ∃ r l, get_recursive (DirectoryService := Memory_DirectoryService dbg) root s' = ((r :: l, Some (Ok tt)), s') ∧
    r :: l ≡ₚ distinct [] ds ∧ last (distinct [] ds) = Some r ∧ in_order (root_first root) [] (r :: l).
Proof.
  intros Hs Hcl Hok (self & Hself & ->)%putter_put_all_inv Hclose.
  destruct (upload_spec dbg [] (with_order leaves_to_root_default) ds) as [_ Hh];
    [by apply holds_new|intros g'; cbn; set_solver|]. specialize (Hh self Hself).
  set (up := distinct [] ds) in *.
  assert (Forall dir_ok up) as Hok'.
  { apply Forall_forall. intros d Hd%distinct_incl. by eapply Forall_forall in Hok. }
  assert (NoDup (digest <$> up)) as Hnd.
  { apply NoDup_alt. intros i j x Hi Hj. rewrite list_lookup_fmap in Hi, Hj.
    destruct (up !! i) as [a|] eqn:Ea, (up !! j) as [b|] eqn:Eb; simplify_eq/=.
    assert (digest_to_node_ix self !! digest a = Some i) by (apply (holds_index _ _ _ _ Hh); eauto).
    assert (digest_to_node_ix self !! digest b = Some j) by (apply (holds_index _ _ _ _ Hh); eauto). congruence. }
  assert (complete up) as Hcomp.
  { intros d c (u & Hu)%list_elem_of_lookup Hc. destruct (holds_children _ _ _ _ Hh u d c Hu Hc) as (v & dv & Hv & <- & _).
    apply list_elem_of_fmap_2. by eapply list_elem_of_lookup_2. }
  unfold simple_close, vbind, vlift in Hclose. cbn [directory_validator] in Hclose.
  destruct (validate self) as [v|e|] eqn:Ev; [|done..]. apply validate_Ok in Ev as (-> & Hroots & _).
  destruct (length up) as [|n] eqn:Hn.
  { apply nil_length_inv in Hn. exfalso. revert Hclose. unfold roots. by rewrite (holds_nodes _ _ _ _ Hh), Hn. }
  destruct (roots_last dbg up _ _ n Hh Hn) as [l Hl].
  assert (roots (graph self) = [n]) as Hr.
  { rewrite Hl in *. rewrite length_app in Hroots. destruct l; [done|cbn in Hroots; lia]. }
  destruct (lookup_lt_is_Some_2 up n) as [r Hr']; [lia|].
  destruct (closed_drains dbg id up _ (holds_closed _ _ _ _ Hh) n r Hr Hr') as (up' & _ & Hdr & _ & Hperm & _ & _ & Hlast & Hreach).
  rewrite Hr in Hclose. cbn [head] in Hclose. cbn [omap_err] in Hclose. rewrite Hdr in Hclose. cbn [omap_err] in Hclose.
  rewrite Hlast in Hclose. cbn [ok_or] in Hclose.
  destruct (put_all_spec up' s Hs) as (s'' & Hput & Hs'' & Hin & Hout); [by rewrite Hperm|by rewrite Hperm|].
  rewrite Hput in Hclose. cbn in Hclose. injection Hclose as <- <- <-.
  assert (∀ d, d ∈ up → dir_of s'' (digest d) = Some d) as Hin' by (intros d; rewrite <- Hperm; apply Hin).
  assert (r ∈ up) as Hrup by by eapply list_elem_of_lookup_2.
  assert (closed_store s'') as Hcl''.
  { intros dg d c Hd Hc. destruct (decide (c ∈ digest <$> up)) as [(x & -> & Hx)%list_elem_of_fmap|Hc']; [eauto|].
    rewrite Hout by (by rewrite Hperm). destruct (decide (dg ∈ digest <$> up)) as [(x & -> & Hx)%list_elem_of_fmap|Hdg].
    - rewrite Hin' in Hd by done. simplify_eq. destruct Hc'. by eapply Hcomp.
    - rewrite Hout in Hd by (by rewrite Hperm). by eapply Hcl. }
  pose proof (memory_get_recursive s'' (digest r) (S (S (base.size (dom (db s''))))) Hs'' Hcl'' ltac:(lia)) as Hrec.
  rewrite (Hin' r Hrup) in Hrec. destruct Hrec as (l' & Hrec & Hclo). exists r, l'.
  split_and!; [exact Hrec| |by rewrite last_lookup, Hn|apply Hclo].
  by apply (closure_of_perm s'' (digest r)).
Qed.

End Roundtrip.

(** ** Paths *)

Section Paths.
Context `{!DirectoryHash, BstrSplitLaws}.

(** The node at a path below a node. *)
Inductive node_at (s : MemoryDirectoryService) : Node → list bytes → Node → Prop :=
| node_here n : node_at s n [] n
| node_below dg sz d c child cs n :
    dir_of s dg = Some d → (c, child) ∈ d → node_at s child cs n → node_at s (DirectoryN dg sz) (c :: cs) n.

(** The directory of a node, if it is one, is stored. *)
Definition node_stored (s : MemoryDirectoryService) (n : Node) : Prop :=
  match n with DirectoryN dg _ => is_Some (dir_of s dg) | _ => True end.

Lemma descend_spec s n cs :
  mem_ok s → closed_store s → node_stored s n →
  ∃ o, descend memory_get n cs s = (Ok o, s) ∧ ∀ n', o = Some n' ↔ node_at s n cs n'.
Proof.
  intros Hs Hcl. revert n. induction cs as [|c cs IH]; intros n Hn.
  { exists (Some n). split; [done|]. intros n'. split; [intros [= <-]; constructor|by inversion 1]. }
  destruct n as [dg sz|dg sz ex|tg]; cbn [descend]; [|exists None; split; [done|]; split; [done|by inversion 1]..].
  destruct Hn as [d Hd]. unfold vbind, vlift. rewrite memory_get_spec, Hd by done. cbn [ok_or].
  assert (NoDup d.*1) as Hnd by (apply bt_sorted_NoDup; apply (dir_of_Some _ _ _ Hs) in Hd; apply Hd).
  destruct (list_find _ d) as [[i [c' child]]|] eqn:Ef.
  - apply list_find_Some in Ef as (Hi & E & _). cbn in E. subst c'. apply list_elem_of_lookup_2 in Hi as Hin.
    destruct (IH child) as (o & Eo & Ho).
    { destruct child as [dg' sz'| |]; [|done..]. eapply Hcl; [done|]. apply elem_of_child_digests. eauto. }
    exists o. split; [done|]. intros n'. rewrite Ho. split; [by econstructor|].
    inversion 1 as [|? ? d' ? child' ? ? Hd' Hin' Hrest]; subst. rewrite Hd in Hd'. injection Hd' as <-.
    assert (child' = child) as ->; [|done]. apply list_elem_of_lookup in Hin' as [j Hj].
    assert (i = j) as ->; [|by simplify_eq].
    apply (NoDup_lookup _ _ _ c Hnd); rewrite list_lookup_fmap; [by rewrite Hi|by rewrite Hj].
  - exists None. split; [done|]. intros n'. split; [done|]. inversion 1 as [|? ? d' ? child' ? ? Hd' Hin']; subst.
    rewrite Hd in Hd'. injection Hd' as <-. apply list_find_None in Ef. eapply Forall_forall in Ef; [|done]. by destruct Ef.
Qed.

(** In a store that has all it refers to, descending from a stored node
    along a path of valid names never fails: it answers the node at the path, and
    nothing if there is none. *)
Theorem descend_to_spec (s : MemoryDirectoryService) (n : Node) (l : list bytes) :
  mem_ok s → closed_store s → node_stored s n → Path.names_ok l →
  ∃ o, descend_to memory_get n (Path.render l) s = (Ok o, s) ∧ ∀ n', o = Some n' ↔ node_at s n l n'.
Proof.
  intros Hs Hcl Hn Hl. unfold descend_to. rewrite Path.components_render by done. by apply descend_spec.
Qed.

End Paths.

(** ** Examples *)

Module Examples.
Import GraphModel Crates.Models.
Import DirectoryGraph.Examples.

#[local] Existing Instance counting_hash.

(** One digest per number of subdirectories, 32 bytes long. *)
#[local] Instance long_hash : DirectoryHash := {|
  encode_to_vec m := replicate 31 Byte.x00 ++ [z2b (Z.of_nat (length (directories m)))];
  blake3 bs := bs;
|}.

Definition bottom : Directory := [(B "x", FileN (digest leaf) 3 false)].
Definition top : Directory := [(B "a", DirectoryN (digest bottom) 2); (B "b", DirectoryN (digest bottom) 2)].
Definition empty : MemoryDirectoryService := DirectoryService.mkMemory ∅.
Definition full : MemoryDirectoryService := (memory_put top (memory_put bottom empty).2).2.

Lemma bottom_ok : dir_ok bottom.
Proof.
  apply (try_from_canonical (from bottom)); [|by vm_compute]. split; repeat constructor; unfold u64_range, u64_MAX; cbn; lia.
Qed.
Lemma top_ok : dir_ok top.
Proof.
  apply (try_from_canonical (from top)); [|by vm_compute]. split; repeat constructor; unfold u64_range, u64_MAX; cbn; lia.
Qed.

Lemma empty_ok : mem_ok empty.
Proof. intros dg m. cbn. by rewrite lookup_empty. Qed.
Lemma empty_closed : closed_store empty.
Proof. intros dg d c. unfold dir_of. cbn. by rewrite lookup_empty. Qed.

Lemma full_ok : mem_ok full.
Proof.
  apply (memory_put_spec _ top (digest top)); [|apply top_ok]. apply (memory_put_spec _ bottom (digest top)); [|apply bottom_ok].
  apply empty_ok.
Qed.

Lemma full_cases dg d : dir_of full dg = Some d → d = top ∨ d = bottom.
Proof.
  unfold full. rewrite (proj2 (memory_put_spec _ top dg (proj1 (memory_put_spec _ bottom dg empty_ok bottom_ok)) top_ok)).
  rewrite (proj2 (memory_put_spec _ bottom dg empty_ok bottom_ok)). unfold dir_of at 1. cbn. rewrite lookup_empty.
  repeat case_bool_decide; cbn; naive_solver.
Qed.

Lemma full_sound : store_sound true full.
Proof.
  split_and!; [apply full_ok| |exists (λ d, length d)].
  - intros dg d name c sz [->| ->]%full_cases Hin; cbn in Hin.
    + exists bottom. repeat (apply elem_of_cons in Hin as [[= -> -> ->]|Hin]; [by vm_compute|]). by apply elem_of_nil in Hin.
    + apply list_elem_of_singleton in Hin. done.
  - intros a b dga dgb [->| ->]%full_cases [->| ->]%full_cases Hc; cbn in Hc |- *; try lia.
    + exfalso. apply list_elem_of_In in Hc. cbn in Hc. destruct Hc as [Hc|[Hc|[]]]; discriminate Hc.
    + by apply elem_of_nil in Hc.
    + by apply elem_of_nil in Hc.
Qed.

Definition start : Cache := mkCache empty full.

Lemma start_ok : cache_ok true start.
Proof.
  split_and!; [apply empty_ok|apply empty_closed|apply full_sound|]. intros dg d. unfold dir_of at 1. cbn. by rewrite lookup_empty.
Qed.

Lemma start_far : dir_of (far start) (digest top) = Some top.
Proof. reflexivity. Qed.

Lemma cache_refines_far_witness : ∃ self',
  cache_get (NDS := Memory_DirectoryService true) (FDS := Memory_DirectoryService true) true (digest top) start =
    (Ok (Some top), self') ∧ dir_of (near self') (digest top) = Some top.
Proof.
  pose proof (cache_refines_far true start (digest top) start_ok) as Hc. rewrite start_far in Hc.
  destruct Hc as [(self' & E & _ & _ & Hn & _) _]. exists self'. exact (conj E Hn).
Defined.

(** What is not there is an error. *)
Example cache_missing :
  (cache_get (NDS := Memory_DirectoryService true) (FDS := Memory_DirectoryService true) true (B "?") start).1 =
  Err (InvalidRequest NoDirectories).
Proof. reflexivity. Qed.

Definition sent : outcome CError unit * SimplePutter :=
  putter_put_all (S := MemoryDirectoryService) (DS := Memory_DirectoryService true) [bottom; top] new_simple_putter.
Definition closed_put := simple_close memory_put sent.2 empty.

Lemma putter_roundtrip_witness :
  ∃ r l, get_recursive (DirectoryService := Memory_DirectoryService true) (digest top) closed_put.2 =
         ((r :: l, Some (Ok tt)), closed_put.2) ∧
    r :: l ≡ₚ distinct [] [bottom; top] ∧ last (distinct [] [bottom; top]) = Some r ∧ in_order (root_first (digest top)) [] (r :: l).
Proof.
  apply (putter_roundtrip true empty closed_put.2 [bottom; top] sent.2 closed_put.1.2 (digest top)).
  - apply empty_ok.
  - apply empty_closed.
  - exact (Forall_cons_2 _ _ _ bottom_ok (Forall_cons_2 _ _ _ top_ok (Forall_nil_2 _))).
  - reflexivity.
  - reflexivity.
Defined.

Lemma descend_to_spec_witness :
  ∃ o, descend_to memory_get (DirectoryN (digest top) 4) (Path.render [B "b"; B "x"]) full = (Ok o, full) ∧
    ∀ n', o = Some n' ↔ node_at full (DirectoryN (digest top) 4) [B "b"; B "x"] n'.
Proof.
  apply (descend_to_spec full (DirectoryN (digest top) 4) [B "b"; B "x"]).
  - apply full_ok.
  - apply (store_sound_closed true), full_sound.
  - vm_compute. by eexists.
  - by apply (bool_decide_unpack _); vm_compute.
Defined.

Example descend_finds :
  descend_to memory_get (DirectoryN (digest top) 4) (B "b/x") full = (Ok (Some (FileN (digest leaf) 3 false)), full).
Proof. reflexivity. Qed.
End Examples.
