(* ===== verification/BlobService.v ===== *)
(** * [castore/src/blobservice]: blobs in memory and blobs in chunks

    The traits [BlobReader] and [BlobService], the service that keeps its
    blobs in memory, and the reader that assembles a blob from its chunks and
    seeks in it. Every poll is one that is ready. *)

From stdpp Require Import strings gmap.
From S2P Require Import Prelude Io Castore.
#[local] Open Scope Z_scope.

(** ** [tokio::io] *)

(** [std::io::SeekFrom]; the offset of [FromStart] is a [u64], the others are [i64]. *)
Inductive SeekFrom := FromStart (n : Z) | FromEnd (n : Z) | FromCurrent (n : Z).

(** The traits; a buffer to read into is the number of bytes it has room for. *)
Class AsyncRead (R : Type) := poll_read : nat → R → outcome ErrorKind bytes * R.
Class AsyncSeek (R : Type) := {
  start_seek : SeekFrom → R → outcome ErrorKind unit * R;
  poll_complete : R → outcome ErrorKind Z * R;
}.

(** What a reader promises: it has some bytes left and ends, well or not, after
    them; a read takes some of them, none only at their end. *)
Class AsyncReadLaws (R : Type) `{AsyncRead R} := {
  unread : R → bytes;
  ending : R → outcome ErrorKind unit;
  poll_read_spec n r :
    match poll_read n r with
    | (Ok bs, r') => (length bs ≤ n)%nat ∧ unread r = bs ++ unread r' ∧ ending r' = ending r ∧
                     (bs = [] → n = 0%nat ∨ unread r = [] ∧ ending r = Ok tt)
    | (e, _) => unread r = [] ∧ ending r = omap_ok (λ _, tt) e
    end;
}.

(** [AsyncSeekExt::seek]: a seek that is in progress is completed first. *)
Definition seek `{AsyncSeek R} (from : SeekFrom) (r : R) : outcome ErrorKind Z * R :=
  match poll_complete r with
  | (Ok _, r) =>
      match start_seek from r with
      | (Ok _, r) => poll_complete r
      | (Err e, r) => (Err e, r)
      | (Panic, r) => (Panic, r)
      end
  | (e, r) => (e, r)
  end.

(** [u64::checked_add_signed] *)
Definition checked_add_signed (a b : Z) : option Z :=
  if (0 <=? a + b) && (a + b <=? u64_MAX) then Some (a + b) else None.

(** [std::io::Cursor<Vec<u8>>] *)
Record Cursor := mkCursor { inner : bytes; cursor_pos : N }.

#[global] Instance Cursor_AsyncRead : AsyncRead Cursor := λ n c,
  let bs := take n (drop (N.to_nat (cursor_pos c)) (inner c)) in
  (Ok bs, mkCursor (inner c) (cursor_pos c + N.of_nat (length bs))).

Definition cursor_target (from : SeekFrom) (c : Cursor) : option Z :=
  match from with
  | FromStart n => Some n
  | FromEnd n => checked_add_signed (Z.of_nat (length (inner c))) n
  | FromCurrent n => checked_add_signed (Z.of_N (cursor_pos c)) n
  end.

#[global] Instance Cursor_AsyncSeek : AsyncSeek Cursor := {|
  start_seek from c :=
    match cursor_target from c with
    | Some p => (Ok tt, mkCursor (inner c) (Z.to_N p))
    | None => (Err InvalidInput, c)
    end;
  poll_complete c := (Ok (Z.of_N (cursor_pos c)), c);
|}.

#[global] Program Instance Cursor_AsyncReadLaws : AsyncReadLaws Cursor := {|
  unread c := drop (N.to_nat (cursor_pos c)) (inner c);
  ending _ := Ok tt;
|}.
Next Obligation.
  intros n c. cbn. set (rest := drop (N.to_nat (cursor_pos c)) (inner c)).
  rewrite length_take. split_and!; [lia| |done|].
  - rewrite N2Nat.inj_add, Nat2N.id, <- drop_drop. fold rest.
    destruct (decide (n ≤ length rest)%nat).
    + by rewrite Nat.min_l, take_drop.
    + rewrite take_ge, drop_ge, app_nil_r; [done|lia..].
  - intros E. destruct n; [by left|]. right. split; [|done]. by destruct rest.
Qed.

(** ** The traits of [mod.rs] *)

Class BlobService (BS R : Type) := {
  has : bytes → BS → outcome ErrorKind bool;
  open_read : bytes → BS → outcome ErrorKind (option R);
}.

(** [BlobService::chunks], the default implementation *)
Definition default_chunks `{BlobService BS R} (digest : bytes) (self : BS)
    : outcome ErrorKind (option (list (bytes * Z))) :=
  let? h := has digest self in
  if negb h then Ok None else Ok (Some []).

(** A reader at the start of [c] in which one can seek forward. *)
Definition opened `{AsyncReadLaws R, !AsyncSeek R} (r : R) (c : bytes) : Prop :=
  unread r = c ∧ ending r = Ok tt ∧
  ∀ k, 0 ≤ k ≤ Z.of_nat (length c) →
    ∃ r', seek (FromStart k) r = (Ok k, r') ∧ unread r' = drop (Z.to_nat k) c ∧ ending r' = Ok tt.

(** What a blob service promises: it is a map from digests to blobs. *)
Class BlobServiceLaws (BS R : Type) `{BlobService BS R, AsyncReadLaws R, !AsyncSeek R} := {
  blob_of : BS → bytes → option bytes;
  has_spec dg s : has dg s = Ok (bool_decide (is_Some (blob_of s dg)));
  open_read_spec dg s :
    match blob_of s dg with
    | Some c => ∃ r, open_read dg s = Ok (Some r) ∧ opened r c
    | None => open_read dg s = Ok None
    end;
}.

(** ** [memory.rs] *)

(** blake3 as [update] and [finalize] compute it: the digest of all the data. *)
Class Blake3 := blake3_hash : bytes → bytes.

Record MemoryBlobService := mkMemory { db : gmap bytes bytes }.

#[global] Instance MemoryBlobService_BlobService : BlobService MemoryBlobService Cursor := {|
  has digest self := Ok (bool_decide (is_Some (db self !! digest)));
  open_read digest self := Ok ((λ x, mkCursor x 0) <$> db self !! digest);
|}.

Lemma cursor_opened c : opened (mkCursor c 0) c.
Proof.
  split_and!; [done..|]. intros k Hk. exists (mkCursor c (Z.to_N k)). unfold seek. cbn.
  rewrite Z2N.id by lia. split_and!; [done| |done]. by rewrite Z_N_nat.
Qed.

#[global] Program Instance MemoryBlobServiceLaws : BlobServiceLaws MemoryBlobService Cursor := {|
  blob_of s dg := db s !! dg;
|}.
Next Obligation. done. Qed.
Next Obligation.
  intros dg s. cbn. destruct (db s !! dg) as [c|]; [|done].
  exists (mkCursor c 0). split; [done|apply cursor_opened].
Qed.

(** [MemoryBlobWriter]; the shared map is passed to [close]. The buffer also
    stands for the state of the hasher that was fed the same bytes. *)
Record MemoryBlobWriter := mkWriter {
  writers : option bytes;
  writer_digest : option bytes;
}.

(** [MemoryBlobWriter::new] *)
Definition new_writer : MemoryBlobWriter := mkWriter (Some []) None.

Definition poll_write (b : bytes) (self : MemoryBlobWriter) : outcome ErrorKind nat * MemoryBlobWriter :=
  match writers self with
  | None => (Err NotConnected, self)
  | Some buf => (Ok (length b), mkWriter (Some (buf ++ b)) (writer_digest self))
  end.

Definition poll_flush (self : MemoryBlobWriter) : outcome ErrorKind unit :=
  match writers self with
  | None => Err NotConnected
  | Some _ => Ok tt
  end.

(** [MemoryBlobWriter::close] *)
Definition close_writer `{Blake3} (self : MemoryBlobWriter) (s : MemoryBlobService)
    : outcome ErrorKind bytes * MemoryBlobWriter * MemoryBlobService :=
  match writers self with
  | None =>
      match writer_digest self with
      | Some digest => (Ok digest, self, s)
      | None => (Err BrokenPipe, self, s)
      end
  | Some buf =>
      let digest := blake3_hash buf in
      let s := if bool_decide (is_Some (db s !! digest)) then s else mkMemory (<[digest := buf]> (db s)) in
      (Ok digest, mkWriter None (Some digest), s)
  end.

(** ** [chunked_reader.rs] *)

(** [slice::binary_search_by], without the insertion point of a failed search. *)
Fixpoint search_loop {E A} (fuel : nat) (f : A → outcome E comparison) (l : list A) (base size : nat)
    : outcome E nat :=
  match fuel with
  | O => Ok base
  | S fuel =>
      if (size <=? 1)%nat then Ok base else
      let half := (size / 2)%nat in
      let mid := (base + half)%nat in
      let? a := or_panic (l !! mid) in
      let? cmp := f a in
      search_loop fuel f l (match cmp with Gt => base | _ => mid end) (size - half)
  end.

Definition binary_search_by {E A} (f : A → outcome E comparison) (l : list A) : outcome E (option nat) :=
  match l with
  | [] => Ok None
  | _ =>
      let? base := search_loop (length l) f l 0 (length l) in
      let? a := or_panic (l !! base) in
      let? cmp := f a in
      Ok (match cmp with Eq => Some base | _ => None end)
  end.

(** *** [tokio_util]'s [ReaderStream] and [StreamReader]

    A stream of readers, flattened and read as one reader. *)

(** What is read from readers in turn, up to the first that fails. *)
Fixpoint joined `{AsyncReadLaws R} (items : list (outcome ErrorKind R)) : bytes * outcome ErrorKind unit :=
  match items with
  | [] => ([], Ok tt)
  | Ok r :: items =>
      match ending r with
      | Ok _ => let '(bs, e) := joined items in (unread r ++ bs, e)
      | e => (unread r, e)
      end
  | Err e :: _ => ([], Err e)
  | Panic :: _ => ([], Panic)
  end.

Class StreamReader (R : Type) := {
  SR : Type;
  stream_reader : list (outcome ErrorKind R) → SR;
  SR_AsyncRead :: AsyncRead SR;
}.

Class StreamReaderLaws (R : Type) `{StreamReader R, AsyncReadLaws R} := {
  SR_AsyncReadLaws :: AsyncReadLaws SR;
  stream_reader_spec items :
    (unread (stream_reader items), ending (stream_reader items)) = joined items;
}.

Section ChunkedReader.
Context `{BlobService BS R, !AsyncRead R, !AsyncSeek R, !StreamReader R}.
Context (dbg : bool).

(** Start, size and digest of every chunk. *)
Record ChunkedBlob := mkChunkedBlob {
  blob_service : BS;
  chunks : list (Z * Z * bytes);
}.

(** The boxed reader: at the end of the blob, or somewhere in the chunks. *)
Inductive Inner := AtEnd (c : Cursor) | InChunks (s : SR).

#[global] Instance Inner_AsyncRead : AsyncRead Inner := λ n r,
  match r with
  | AtEnd c => let '(o, c) := poll_read n c in (o, AtEnd c)
  | InChunks s => let '(o, s) := poll_read n s in (o, InChunks s)
  end.

Record ChunkedReader := mkChunkedReader {
  chunked_blob : ChunkedBlob;
  reader : Inner;
  pos : Z;
}.

Fixpoint from_iter_loop {E} (offset : Z) (chunks_it : list (bytes * Z)) : outcome E (list (Z * Z * bytes)) :=
  match chunks_it with
  | [] => Ok []
  | (chunk_digest, chunk_size) :: chunks_it =>
      let? next := u64_add dbg offset chunk_size in
      let? chunks := from_iter_loop next chunks_it in
      Ok ((offset, chunk_size, chunk_digest) :: chunks)
  end.

(** [ChunkedBlob::from_iter] *)
Definition from_iter {E} (chunks_it : list (bytes * Z)) (blob_service : BS) : outcome E ChunkedBlob :=
  let? chunks := from_iter_loop 0 chunks_it in
  match chunks with
  | [] => Panic
  | _ => Ok (mkChunkedBlob blob_service chunks)
  end.

Definition blob_length {E} (self : ChunkedBlob) : outcome E Z :=
  match last (chunks self) with
  | Some (chunk_offset, chunk_size, _) => u64_add dbg chunk_offset chunk_size
  | None => Ok 0
  end.

(** The comparison of a chunk with a position. *)
Definition chunk_cmp {E} (pos : Z) (chunk : Z * Z * bytes) : outcome E comparison :=
  let '(chunk_start_pos, chunk_size, _) := chunk in
  let? chunk_end := u64_add dbg chunk_start_pos chunk_size in
  Ok (if chunk_end <=? pos then Lt else if pos <? chunk_start_pos then Gt else Eq).

Definition get_chunk_idx_for_position {E} (self : ChunkedBlob) (pos : Z) : outcome E (option nat) :=
  binary_search_by (chunk_cmp pos) (chunks self).

(** The future of one chunk. *)
Definition open_chunk (bs : BS) (skip_first_chunk_bytes : Z) (nth_chunk : nat) (chunk_digest : bytes)
    : outcome ErrorKind R :=
  let? o := open_read chunk_digest bs in
  let? blob_reader := ok_or NotFound o in
  if (nth_chunk =? 0)%nat && (0 <? skip_first_chunk_bytes) then
    let '(o, blob_reader) := seek (FromStart skip_first_chunk_bytes) blob_reader in
    let? _ := o in Ok blob_reader
  else Ok blob_reader.

Definition reader_skipped_offset {E} (self : ChunkedBlob) (offset : Z) : outcome E Inner :=
  let? len := blob_length self in
  if offset =? len then Ok (AtEnd (mkCursor [] 0)) else
  let? idx := get_chunk_idx_for_position self offset in
  let? start_chunk_idx := or_panic idx in
  let? (start, _, _) := or_panic (chunks self !! start_chunk_idx) in
  let skip_first_chunk_bytes := offset - start in
  Ok (InChunks (stream_reader (imap (λ nth_chunk '(_, _, chunk_digest),
        open_chunk (blob_service self) skip_first_chunk_bytes nth_chunk chunk_digest)
        (drop start_chunk_idx (chunks self))))).

(** [ChunkedReader::from_chunks] *)
Definition from_chunks {E} (chunks_it : list (bytes * Z)) (blob_service : BS) : outcome E ChunkedReader :=
  let? chunked_blob := from_iter chunks_it blob_service in
  let? r := reader_skipped_offset chunked_blob 0 in
  Ok (mkChunkedReader chunked_blob r 0).

#[global] Instance ChunkedReader_AsyncRead : AsyncRead ChunkedReader := λ n self,
  match poll_read n (reader self) with
  | (Ok bs, r) =>
      match u64_add dbg (pos self) (Z.of_nat (length bs)) with
      | Ok p => (Ok bs, mkChunkedReader (chunked_blob self) r p)
      | e => (omap_ok (λ _, bs) e, mkChunkedReader (chunked_blob self) r (pos self))
      end
  | (e, r) => (e, mkChunkedReader (chunked_blob self) r (pos self))
  end.

Definition absolute_offset (total_len pos : Z) (position : SeekFrom) : option Z :=
  match position with
  | FromStart from_start => Some from_start
  | FromEnd from_end => checked_add_signed total_len from_end
  | FromCurrent from_current => checked_add_signed pos from_current
  end.

#[global] Instance ChunkedReader_AsyncSeek : AsyncSeek ChunkedReader := {|
  start_seek position self :=
    match blob_length (chunked_blob self) with
    | Ok total_len =>
        match absolute_offset total_len (pos self) position with
        | None => (Err InvalidInput, self)
        | Some off =>
            if off =? pos self then (Ok tt, self)
            else if total_len <? off then (Err InvalidInput, self)
            else match reader_skipped_offset (chunked_blob self) off with
                 | Ok r => (Ok tt, mkChunkedReader (chunked_blob self) r off)
                 | e => (omap_ok (λ _, tt) e, mkChunkedReader (chunked_blob self) (reader self) off)
                 end
        end
    | e => (omap_ok (λ _, tt) e, self)
    end;
  poll_complete self := (Ok (pos self), self);
|}.

End ChunkedReader.

(** ** Finding the chunk *)

Lemma search_loop_spec {E A} (f : A → outcome E comparison) l i fuel base size :
  (∀ j a, l !! j = Some a → f a = Ok (Nat.compare j i)) →
  (base ≤ i < base + size)%nat → (base + size ≤ length l)%nat → (size ≤ fuel)%nat →
  search_loop fuel f l base size = Ok i.
Proof.
  intros Hf. revert base size. induction fuel as [|fuel IH]; intros base size Hi Hl Hs; [lia|].
  cbn [search_loop]. destruct (Nat.leb_spec size 1); [f_equal; lia|].
  pose proof (Nat.div_lt size 2 ltac:(lia) ltac:(lia)). pose proof (Nat.div_str_pos size 2 ltac:(lia)).
  destruct (lookup_lt_is_Some_2 l (base + size / 2)) as [a Ha]; [lia|].
  rewrite Ha. cbn [or_panic obind]. rewrite (Hf _ _ Ha). cbn [obind].
  set (h := (size / 2)%nat) in *. destruct (Nat.compare_spec (base + h) i); apply IH; lia.
Qed.

Lemma binary_search_by_spec {E A} (f : A → outcome E comparison) l i :
  (i < length l)%nat → (∀ j a, l !! j = Some a → f a = Ok (Nat.compare j i)) →
  binary_search_by f l = Ok (Some i).
Proof.
  intros Hi Hf. unfold binary_search_by. destruct l as [|x l]; [cbn in Hi; lia|].
  rewrite (search_loop_spec f _ i); [|done|lia..]. cbn [obind].
  destruct (lookup_lt_is_Some_2 _ _ Hi) as [a Ha]. rewrite Ha. cbn [obind or_panic].
  by rewrite (Hf _ _ Ha), Nat.compare_refl.
Qed.

Lemma join_cons {A} (x : list A) l : mjoin (x :: l) = x ++ mjoin l.
Proof. done. Qed.

(** Where a call of [seek] is to go. *)
Definition target (blob : bytes) (p : Z) (from : SeekFrom) : Z :=
  match from with FromStart n => n | FromEnd n => Z.of_nat (length blob) + n | FromCurrent n => p + n end.

Section Blob.
Context `{BlobServiceLaws BS R, !StreamReader R, !StreamReaderLaws R}.
Context (dbg : bool) (bs : BS).

#[local] Program Instance Inner_AsyncReadLaws : AsyncReadLaws Inner := {|
  unread rd := match rd with AtEnd c => unread c | InChunks s => unread s end;
  ending rd := match rd with AtEnd c => ending c | InChunks s => ending s end;
|}.
Next Obligation.
  intros n [c|s]; unfold poll_read, Inner_AsyncRead;
    [pose proof (poll_read_spec n c) as Hs; destruct (poll_read n c) as [[] ?]
    |pose proof (poll_read_spec n s) as Hs; destruct (poll_read n s) as [[] ?]]; exact Hs.
Qed.

(** The data before chunk [i]. *)
Definition before (blobs : list bytes) (i : nat) : Z := Z.of_nat (length (mjoin (take i blobs))).

Lemma before_S blobs i c : blobs !! i = Some c → before blobs (S i) = before blobs i + Z.of_nat (length c).
Proof.
  intros Hi. unfold before. rewrite (take_S_r _ _ c) by done. rewrite join_app, length_app, join_cons. change (mjoin [] : bytes) with (@nil byte). rewrite app_nil_r. lia.
Qed.

Lemma before_mono blobs i j : (i ≤ j)%nat → before blobs i ≤ before blobs j.
Proof.
  intros Hij. unfold before. rewrite <- (take_drop i (take j blobs)), take_take, Nat.min_l by done.
  rewrite join_app, length_app. lia.
Qed.

Lemma before_all blobs : before blobs (length blobs) = Z.of_nat (length (mjoin blobs)).
Proof. unfold before. by rewrite take_ge. Qed.

(** Every position in the data is in a chunk. *)
Lemma locate blobs p :
  0 ≤ p < Z.of_nat (length (mjoin blobs)) →
  ∃ i c, blobs !! i = Some c ∧ before blobs i ≤ p < before blobs i + Z.of_nat (length c).
Proof.
  revert p. induction blobs as [|b blobs IH]; intros p Hp; [cbn in Hp; lia|].
  rewrite join_cons, length_app in Hp. destruct (decide (p < Z.of_nat (length b))).
  - exists 0%nat, b. unfold before. cbn. split; [done|lia].
  - destruct (IH (p - Z.of_nat (length b))) as (i & c & Hi & Hb); [lia|]. exists (S i), c.
    split; [done|]. unfold before in *. cbn [take]. rewrite join_cons, length_app. lia.
Qed.

(** The chunks are laid out one after the other. *)
Definition laid_out (cs : list (Z * Z * bytes)) (blobs : list bytes) : Prop :=
  length cs = length blobs ∧
  ∀ i c, blobs !! i = Some c → ∃ dg,
    cs !! i = Some (before blobs i, Z.of_nat (length c), dg) ∧ blob_of bs dg = Some c.

Definition stored (x : bytes * Z) (c : bytes) : Prop :=
  blob_of bs x.1 = Some c ∧ x.2 = Z.of_nat (length c).

Lemma from_iter_loop_spec {E} it blobs off :
  Forall2 stored it blobs → 0 ≤ off → off + Z.of_nat (length (mjoin blobs)) ≤ u64_MAX →
  ∃ cs, from_iter_loop (E := E) dbg off it = Ok cs ∧ length cs = length blobs ∧
    ∀ i c, blobs !! i = Some c → ∃ dg,
      cs !! i = Some (off + before blobs i, Z.of_nat (length c), dg) ∧ blob_of bs dg = Some c.
Proof.
  intros Hs. revert off. induction Hs as [|[dg sz] b it blobs [Hb Hsz] _ IH]; intros off Ho Hle.
  { by exists []. }
  cbn in Hb, Hsz. subst sz. rewrite join_cons, length_app in Hle. cbn [from_iter_loop].
  unfold u64_add. rewrite (proj2 (Z.leb_le _ _)) by lia. cbn [obind].
  destruct (IH (off + Z.of_nat (length b))) as (cs & -> & Hl & Hcs); [lia..|].
  eexists. split; [done|]. split; [cbn; by rewrite Hl|]. intros [|i] c Hi.
  - cbn in Hi. simplify_eq. exists dg. split; [|done]. cbn. by rewrite Z.add_0_r.
  - destruct (Hcs i c Hi) as (dg' & Hdg & ?). exists dg'. split; [|done]. etransitivity; [exact Hdg|].
    unfold before. cbn [take]. rewrite join_cons, length_app. do 3 f_equal. lia.
Qed.

Section Layout.
Context (cs : list (Z * Z * bytes)) (blobs : list bytes).
Context (Hout : laid_out cs blobs) (Hne : blobs ≠ []) (Hfit : Z.of_nat (length (mjoin blobs)) ≤ u64_MAX).

Let cb := mkChunkedBlob bs cs.
Let total := Z.of_nat (length (mjoin blobs)).

Lemma chunk_lookup j a : cs !! j = Some a → ∃ c dg,
  blobs !! j = Some c ∧ a = (before blobs j, Z.of_nat (length c), dg) ∧ blob_of bs dg = Some c.
Proof.
  destruct Hout as [Hl Hcs]. intros Ha. destruct (lookup_lt_is_Some_2 blobs j) as [c Hc].
  { rewrite <- Hl. by eapply lookup_lt_Some. }
  destruct (Hcs j c Hc) as (dg & Hj & ?). exists c, dg. by simplify_eq.
Qed.

Lemma chunk_end j c : blobs !! j = Some c → before blobs j + Z.of_nat (length c) ≤ total.
Proof.
  intros Hj. rewrite <- before_S by done. unfold total. rewrite <- before_all. apply before_mono.
  by apply lookup_lt_Some in Hj.
Qed.

Lemma blob_length_spec {E} : blob_length (E := E) dbg cb = Ok total.
Proof.
  unfold blob_length. cbn [chunks cb]. rewrite last_lookup. destruct Hout as [Hl _].
  destruct (length blobs) as [|n] eqn:En; [by apply nil_length_inv in En|]. rewrite Hl. cbn [pred].
  destruct (lookup_lt_is_Some_2 cs n) as [a Ha]; [lia|]. rewrite Ha.
  destruct (chunk_lookup n a Ha) as (c & dg & Hc & -> & _).
  unfold u64_add. pose proof (chunk_end n c Hc) as Hle. rewrite (proj2 (Z.leb_le _ _)) by (unfold total in *; lia).
  f_equal. rewrite <- before_S by done. unfold total. by rewrite <- before_all, En.
Qed.

Lemma get_chunk_idx_for_position_spec {E} i c p :
  blobs !! i = Some c → before blobs i ≤ p < before blobs i + Z.of_nat (length c) →
  get_chunk_idx_for_position (E := E) dbg cb p = Ok (Some i).
Proof.
  intros Hi Hp. apply binary_search_by_spec.
  { cbn. destruct Hout as [-> _]. by eapply lookup_lt_Some. }
  intros j a Ha. destruct (chunk_lookup j a Ha) as (b & dg & Hb & -> & _). unfold chunk_cmp, u64_add.
  pose proof (chunk_end j b Hb) as Hle. rewrite (proj2 (Z.leb_le _ _)) by (unfold total in *; lia).
  cbn [obind]. f_equal. destruct (Nat.compare_spec j i) as [->|Hlt|Hgt].
  - simplify_eq. rewrite (proj2 (Z.leb_gt _ _)), (proj2 (Z.ltb_ge _ _)) by lia. done.
  - pose proof (before_mono blobs (S j) i ltac:(lia)) as Hm. rewrite (before_S _ _ b Hb) in Hm.
    by rewrite (proj2 (Z.leb_le _ _)) by lia.
  - pose proof (before_mono blobs (S i) j ltac:(lia)) as Hm. rewrite (before_S _ _ c Hi) in Hm.
    rewrite (proj2 (Z.leb_gt _ _)), (proj2 (Z.ltb_lt _ _)) by lia. done.
Qed.

(** The chunks from [i] on, the first one without its first [skip] bytes. *)
Lemma open_chunk_first dg c skip :
  blob_of bs dg = Some c → 0 ≤ skip ≤ Z.of_nat (length c) →
  ∃ rd, open_chunk bs skip 0 dg = Ok rd ∧ unread rd = drop (Z.to_nat skip) c ∧ ending rd = Ok tt.
Proof.
  intros Hdg Hs. pose proof (open_read_spec dg bs) as Ho. rewrite Hdg in Ho.
  destruct Ho as (rd & Hr & Hu & He & Hseek). unfold open_chunk. rewrite Hr. cbn [obind ok_or Nat.eqb andb].
  destruct (Z.ltb_spec 0 skip).
  - destruct (Hseek skip Hs) as (r' & -> & Hu' & He'). by exists r'.
  - exists rd. assert (skip = 0) as -> by lia. by rewrite Hu.
Qed.

Lemma open_chunk_next dg c skip k :
  blob_of bs dg = Some c →
  ∃ rd, open_chunk bs skip (S k) dg = Ok rd ∧ unread rd = c ∧ ending rd = Ok tt.
Proof.
  intros Hdg. pose proof (open_read_spec dg bs) as Ho. rewrite Hdg in Ho.
  destruct Ho as (rd & Hr & Hu & He & _). unfold open_chunk. rewrite Hr. by exists rd.
Qed.

Lemma joined_next (l : list (Z * Z * bytes)) cl skip k :
  Forall2 (λ x c, blob_of bs x.2 = Some c) l cl →
  joined (imap (λ n '(_, _, dg), open_chunk bs skip (S k + n) dg) l) = (mjoin cl, Ok tt).
Proof.
  intros Hl. revert k. induction Hl as [|[[o sz] dg] c l cl Hc _ IH]; intros k; [done|].
  rewrite imap_cons. cbn [joined]. rewrite Nat.add_0_r. cbn in Hc.
  destruct (open_chunk_next dg c skip k Hc) as (rd & -> & Hu & He). rewrite He, Hu.
  specialize (IH (S k)). erewrite imap_ext; [rewrite IH; by rewrite join_cons|].
  intros n [[??]?] _. cbn. by rewrite Nat.add_succ_r.
Qed.

Lemma reader_skipped_offset_spec {E} p :
  0 ≤ p ≤ total → ∃ rd, reader_skipped_offset (E := E) dbg cb p = Ok rd ∧
    unread rd = drop (Z.to_nat p) (mjoin blobs) ∧ ending rd = Ok tt.
Proof.
  intros Hp. unfold reader_skipped_offset. rewrite blob_length_spec. cbn [obind].
  destruct (Z.eqb_spec p total) as [->|Hne'].
  { eexists. split_and!; [done| |done]. rewrite (drop_ge (mjoin blobs)); [done|unfold total; lia]. }
  destruct (locate blobs p) as (i & c & Hi & Hb); [unfold total in *; lia|].
  rewrite (get_chunk_idx_for_position_spec i c p Hi Hb). cbn [obind or_panic chunks cb].
  destruct Hout as [Hl Hcs]. destruct (Hcs i c Hi) as (dg & Hci & Hdg). rewrite Hci. cbn [obind or_panic].
  eexists. split; [done|]. cbn. set (items := imap _ _).
  enough (joined items = (drop (Z.to_nat p) (mjoin blobs), Ok tt)) as Hj.
  { pose proof (stream_reader_spec items) as Hs. rewrite Hj in Hs. by simplify_eq/=. }
  subst items. rewrite (drop_S cs _ i) by done. rewrite imap_cons. cbn [joined blob_service].
  destruct (open_chunk_first dg c (p - before blobs i) Hdg) as (rd & -> & Hu & He); [lia|]. rewrite He, Hu.
  rewrite (imap_ext _ (λ n '(_, _, dg), open_chunk bs (p - before blobs i) (1 + n) dg)) by (by intros n [[??]?] _).
  rewrite (joined_next _ (drop (S i) blobs) _ 0).
  - f_equal. replace (mjoin blobs) with (mjoin (take i blobs) ++ c ++ mjoin (drop (S i) blobs))
      by (by rewrite <- join_cons, <- join_app, take_drop_middle).
    assert (Z.to_nat p = length (mjoin (take i blobs)) + Z.to_nat (p - before blobs i))%nat as -> by (unfold before in *; lia).
    rewrite <- drop_drop, drop_app_length, drop_app_le; [done|lia].
  - apply Forall2_same_length_lookup. split; [rewrite !length_drop; lia|].
    intros j a b. rewrite !lookup_drop. intros Ha Hb'. destruct (Hcs _ _ Hb') as (dg' & Ha' & ?). by simplify_eq.
Qed.

(** *** Calls *)

(** The reader is at position [p] of the blob. *)
Definition at_position (rd : ChunkedReader) (p : Z) : Prop :=
  chunked_blob rd = cb ∧ pos rd = p ∧ 0 ≤ p ≤ total ∧
  unread (reader rd) = drop (Z.to_nat p) (mjoin blobs) ∧ ending (reader rd) = Ok tt.

Lemma poll_read_at n rd p :
  at_position rd p →
  ∃ b rd', poll_read (AsyncRead := ChunkedReader_AsyncRead dbg) n rd = (Ok b, rd') ∧
    at_position rd' (p + Z.of_nat (length b)) ∧ (length b ≤ n)%nat ∧
    b `prefix_of` drop (Z.to_nat p) (mjoin blobs) ∧ (b = [] → n = 0%nat ∨ p = total).
Proof.
  destruct rd as [cb' rd p']. intros (Hcb & Hpos & Hp & Hu & He). cbn [chunked_blob pos reader] in *. subst cb' p'.
  unfold poll_read at 1, ChunkedReader_AsyncRead. cbn [reader pos chunked_blob].
  pose proof (poll_read_spec n rd) as Hs. destruct (poll_read n rd) as [[b|e|] rd'].
  2,3: destruct Hs as [_ Hx]; by rewrite He in Hx.
  destruct Hs as (Hn & Hu' & He' & Hb).
  assert (length b + length (unread rd') = length (mjoin blobs) - Z.to_nat p)%nat as Hlen.
  { rewrite <- length_app, <- Hu', Hu. by rewrite length_drop. }
  unfold total in *. unfold u64_add. rewrite (proj2 (Z.leb_le _ _)) by lia.
  eexists b, _. split_and!; [done| |done|rewrite <- Hu, Hu'; by eexists|].
  - unfold at_position. cbn [chunked_blob pos reader]. unfold total. split_and!; [done|done|lia|lia| |by rewrite He'].
    rewrite Z2Nat.inj_add, Nat2Z.id by lia. rewrite <- drop_drop, <- Hu, Hu'. by rewrite drop_app_length.
  - intros Eb. destruct (Hb Eb) as [?|[Eu _]]; [by left|]. right.
    apply (f_equal length) in Hu as Hl. rewrite Eu, length_drop in Hl. cbn in Hl. lia.
Qed.

Lemma seek_at from rd p :
  at_position rd p → (∀ n, from = FromStart n → 0 ≤ n) →
  (0 ≤ target (mjoin blobs) p from ≤ total ∧
     ∃ rd', seek (H := ChunkedReader_AsyncSeek dbg) from rd = (Ok (target (mjoin blobs) p from), rd') ∧ at_position rd' (target (mjoin blobs) p from)) ∨
  (¬ (0 ≤ target (mjoin blobs) p from ≤ total) ∧ seek (H := ChunkedReader_AsyncSeek dbg) from rd = (Err InvalidInput, rd)).
Proof.
  intros Hat Hfrom. pose proof Hat as (Hcb & Hpos & Hp & Hr). unfold seek. cbn [start_seek poll_complete ChunkedReader_AsyncSeek].
  rewrite Hcb, blob_length_spec, Hpos.
  set (t := target (mjoin blobs) p from).
  assert (absolute_offset total p from = Some t ∧ 0 ≤ t ∨ (absolute_offset total p from = None ∧ ¬ 0 ≤ t ≤ total)) as Habs.
  { unfold absolute_offset, checked_add_signed, t, target. destruct from as [n|n|n]; [left; split; [done|by apply Hfrom]|..];
      unfold total in *; destruct (Z.leb_spec 0 (Z.of_nat (length (mjoin blobs)) + n)), (Z.leb_spec 0 (p + n));
      destruct (Z.leb_spec (Z.of_nat (length (mjoin blobs)) + n) u64_MAX), (Z.leb_spec (p + n) u64_MAX); cbn;
      (left; split; [done|lia]) || (right; split; [done|lia]). }
  destruct Habs as [[-> Ht]|[-> Hout']]; [|by right].
  destruct (Z.eqb_spec t p) as [Et|Hne'].
  - left. split; [lia|]. exists rd. cbn. rewrite Hpos, Et. done.
  - destruct (Z.ltb_spec total t); [right; split; [lia|done]|].
    left. split; [lia|]. destruct (reader_skipped_offset_spec (E := ErrorKind) t) as (rd' & -> & Hu' & He'); [lia|].
    cbn. eexists. split; [done|]. split_and!; [done|done|lia|lia|exact Hu'|exact He'].
Qed.

End Layout.

(** ** The reader as a whole *)

(** The calls a client makes, and what it gets. *)
Inductive call := CRead (n : nat) | CSeek (from : SeekFrom).
Inductive answer := ARead (b : bytes) | ASeek (p : Z).

Definition do_call (c : call) (rd : ChunkedReader) : outcome ErrorKind answer * ChunkedReader :=
  match c with
  | CRead n => let '(o, rd) := poll_read (AsyncRead := ChunkedReader_AsyncRead dbg) n rd in (omap_ok ARead o, rd)
  | CSeek from => let '(o, rd) := seek (H := ChunkedReader_AsyncSeek dbg) from rd in (omap_ok ASeek o, rd)
  end.

Fixpoint run (cl : list call) (rd : ChunkedReader) : list (call * outcome ErrorKind answer) :=
  match cl with
  | [] => []
  | c :: cl => let '(o, rd) := do_call c rd in (c, o) :: run cl rd
  end.

(** The offset of [FromStart] is unsigned. *)
Definition call_ok (c : call) : Prop := match c with CSeek (FromStart n) => 0 ≤ n | _ => True end.

End Blob.

(** A client sees one string of bytes and a position in it: reads answer what
    is next, nothing only at the end; seeks go to any position of the string,
    its end included, and nowhere else. *)
Fixpoint obeys (blob : bytes) (p : Z) (t : list (call * outcome ErrorKind answer)) : Prop :=
  match t with
  | [] => True
  | (CRead n, Ok (ARead b)) :: t =>
      (length b ≤ n)%nat ∧ b `prefix_of` drop (Z.to_nat p) blob ∧
      (b = [] → n = 0%nat ∨ p = Z.of_nat (length blob)) ∧ obeys blob (p + Z.of_nat (length b)) t
  | (CSeek from, Ok (ASeek p')) :: t =>
      p' = target blob p from ∧ 0 ≤ p' ≤ Z.of_nat (length blob) ∧ obeys blob p' t
  | (CSeek from, Err e) :: t =>
      e = InvalidInput ∧ ¬ (0 ≤ target blob p from ≤ Z.of_nat (length blob)) ∧ obeys blob p t
  | _ => False
  end.

Section Obeys.
Context `{BlobServiceLaws BS R, !StreamReader R, !StreamReaderLaws R}.
Context (dbg : bool) (bs : BS) (cs : list (Z * Z * bytes)) (blobs : list bytes).
Context (Hout : laid_out bs cs blobs) (Hne : blobs ≠ []) (Hfit : Z.of_nat (length (mjoin blobs)) ≤ u64_MAX).

Lemma run_obeys cl rd p :
  at_position bs cs blobs rd p → Forall call_ok cl → obeys (mjoin blobs) p (run dbg cl rd).
Proof.
  intros Hat Hcl. revert rd p Hat. induction Hcl as [|c cl Hc _ IH]; intros rd p Hat; [done|].
  destruct c as [n|from]; cbn [run do_call].
  - destruct (poll_read_at dbg bs cs blobs Hfit n rd p Hat) as (b & rd' & -> & Hat' & ? & ? & ?).
    cbn [omap_ok obeys]. split_and!; auto.
  - assert (∀ n, from = FromStart n → 0 ≤ n) as Hfrom by (by intros n ->).
    destruct (seek_at dbg bs cs blobs Hout Hne Hfit from rd p Hat Hfrom)
      as [(Ht & rd' & -> & Hat')|(Ht & ->)]; cbn [omap_ok obeys]; auto.
Qed.

End Obeys.

(** C30: a chunked reader over stored chunks is made without panic, and whatever
    reads and seeks a client does, it behaves as one string of bytes, the
    concatenation of the chunks: no call panics, no read fails, and
    a seek fails exactly if it would leave the blob. *)
Theorem chunked_reader_refines_blob `{BlobServiceLaws BS R, !StreamReader R, !StreamReaderLaws R}
    (dbg : bool) (bs : BS) (it : list (bytes * Z)) (blobs : list bytes) (cl : list call) :
  Forall2 (stored bs) it blobs → it ≠ [] → Z.of_nat (length (mjoin blobs)) ≤ u64_MAX → Forall call_ok cl →
  ∃ rd, from_chunks (E := ErrorKind) dbg it bs = Ok rd ∧ obeys (mjoin blobs) 0 (run dbg cl rd).
Proof.
  intros Hst Hne Hfit Hcl.
  destruct (from_iter_loop_spec (E := ErrorKind) dbg bs it blobs 0 Hst) as (cs & Hcs & Hl & Hlay); [lia..|].
  assert (laid_out bs cs blobs) as Hout by (split; auto).
  assert (blobs ≠ []) as Hne' by (intros ->; by apply Forall2_nil_inv_r in Hst).
  destruct (reader_skipped_offset_spec (E := ErrorKind) dbg bs cs blobs Hout Hne' Hfit 0) as (rd & Hrd & Hu & He); [lia|].
  exists (mkChunkedReader (mkChunkedBlob bs cs) rd 0). split.
  - unfold from_chunks, from_iter. rewrite Hcs. cbn [obind].
    destruct cs as [|c cs]; [by destruct blobs|]. cbn [obind]. by rewrite Hrd.
  - apply (run_obeys dbg bs cs blobs Hout Hne' Hfit); [|done]. split_and!; [done|done|lia|lia|exact Hu|exact He].
Qed.

(** ** Blobs in memory *)

(** Every blob is stored under its digest. *)
Definition content_addressed `{Blake3} (s : MemoryBlobService) : Prop :=
  ∀ dg c, db s !! dg = Some c → blake3_hash c = dg.

(** Writing [data] piece by piece. *)
Definition write_all (data : list bytes) (w : MemoryBlobWriter) : MemoryBlobWriter :=
  foldl (λ w b, (poll_write b w).2) w data.

Lemma write_all_buffer data buf dg :
  write_all data (mkWriter (Some buf) dg) = mkWriter (Some (buf ++ mjoin data)) dg.
Proof.
  revert buf. induction data as [|b data IH]; intros buf; [cbn; by rewrite app_nil_r|].
  change (write_all (b :: data) (mkWriter (Some buf) dg)) with (write_all data (mkWriter (Some (buf ++ b)) dg)).
  rewrite IH. by rewrite join_cons, app_assoc.
Qed.

Lemma write_close `{Blake3} (data : list bytes) (s : MemoryBlobService) :
  content_addressed s → ∃ w' s', let digest := blake3_hash (mjoin data) in
    close_writer (write_all data new_writer) s = (Ok digest, w', s') ∧ content_addressed s' ∧
    db s ⊆ db s' ∧ (∀ dg, dg ≠ digest → db s' !! dg = db s !! dg) ∧
    (∃ c, db s' !! digest = Some c ∧ blake3_hash c = digest ∧ (db s !! digest = None → c = mjoin data)) ∧
    close_writer w' s' = (Ok digest, w', s').
Proof.
  intros Hs. unfold new_writer. rewrite write_all_buffer. cbn. unfold close_writer at 1. cbn.
  set (digest := blake3_hash (mjoin data)). case_bool_decide as Hd.
  - eexists _, _. destruct Hd as [c Hc]. split_and!; [done..| |done]. exists c.
    split_and!; [done|by apply Hs|congruence].
  - eexists _, _. apply eq_None_not_Some in Hd. split_and!; [done|..|done]; cbn.
    + intros dg c. cbn. destruct (decide (dg = digest)) as [->|Hne].
      * rewrite lookup_insert_eq. by intros [= <-].
      * rewrite lookup_insert_ne by done. apply Hs.
    + by apply insert_subseteq.
    + intros dg Hne. by rewrite lookup_insert_ne.
    + exists (mjoin data). by rewrite lookup_insert_eq.
Qed.

(** ** A stream reader *)

Module StreamModel.

(** Readers in turn; a read that yields nothing ends one. *)
Fixpoint read_items `{AsyncRead R} (n : nat) (items : list (outcome ErrorKind R))
    : outcome ErrorKind bytes * list (outcome ErrorKind R) :=
  match items with
  | [] => (Ok [], [])
  | Ok rd :: rest =>
      match poll_read n rd with
      | (Ok [], rd) => if (n =? 0)%nat then (Ok [], Ok rd :: rest) else read_items n rest
      | (o, rd) => (o, Ok rd :: rest)
      end
  | Err e :: rest => (Err e, rest)
  | Panic :: rest => (Panic, rest)
  end.

#[global] Instance list_StreamReader `{AsyncRead R} : StreamReader R := {|
  SR := list (outcome ErrorKind R);
  stream_reader items := items;
  SR_AsyncRead := read_items;
|}.

#[global] Program Instance list_AsyncReadLaws `{AsyncReadLaws R} : AsyncReadLaws (list (outcome ErrorKind R)) (H := read_items) := {|
  unread items := (joined items).1;
  ending items := (joined items).2;
|}.
Next Obligation.
  intros R ? ? n items. unfold poll_read. induction items as [|[rd|e|] items IH]; cbn [read_items]; [|  |done..].
  { cbn. split_and!; [lia|done|done|by right]. }
  pose proof (poll_read_spec n rd) as Hr. destruct (poll_read n rd) as [[[|b bs]|e|] rd'].
  3,4: cbn [joined]; destruct Hr as [-> ->]; done.
  - destruct Hr as (_ & Hu & He & Hend). destruct (Nat.eqb_spec n 0) as [->|Hn].
    + cbn [joined] in *. rewrite He, Hu. cbn. destruct (ending rd); [destruct (joined items)|..]; cbn; split_and!; auto with lia.
    + destruct (Hend eq_refl) as [?|[Hu0 He0]]; [done|]. cbn [joined]. rewrite He0, Hu0.
      destruct (joined items) as [bs0 e0] eqn:Ej. destruct (read_items n items) as [[]?]; exact IH.
  - destruct Hr as (Hn & Hu & He & _). cbn [joined]. rewrite He.
    destruct (ending rd); [destruct (joined items)|..]; cbn; rewrite Hu; (split_and!; [done|cbn; by rewrite <- ?app_assoc|done|done]).
Qed.

#[global] Instance list_StreamReaderLaws `{AsyncReadLaws R} : StreamReaderLaws R.
Proof. refine {| SR_AsyncReadLaws := list_AsyncReadLaws |}. intros items. symmetry. apply surjective_pairing. Qed.

End StreamModel.

(** ** Examples *)

Module Examples.
Import StreamModel.

#[local] Instance first_byte : Blake3 := λ bs, take 1 bs.

Definition data : list bytes := [B "ab"; B "cdef"; B "g"].
Definition store : MemoryBlobService :=
  foldl (λ s b, (close_writer (write_all [b] new_writer) s).2) (mkMemory ∅) data.
Definition listing : list (bytes * Z) := [(B "a", 2); (B "c", 4); (B "g", 1)].
Definition calls : list call :=
  [CRead 3; CSeek (FromStart 3); CRead 2; CSeek (FromEnd (-1)); CRead 5; CRead 5; CSeek (FromCurrent 1)].

Lemma listing_stored : Forall2 (stored store) listing data.
Proof. repeat constructor. Qed.

Lemma chunked_reader_refines_blob_witness :
  ∃ rd, from_chunks (E := ErrorKind) true listing store = Ok rd ∧ obeys (B "abcdefg") 0 (run true calls rd).
Proof.
  apply (chunked_reader_refines_blob true store listing data calls listing_stored).
  - discriminate.
  - vm_compute. discriminate.
  - repeat constructor. discriminate.
Defined.

Example chunked_reader_runs :
  (let? rd := from_chunks (E := ErrorKind) true listing store in Ok ((run true calls rd).*2)) =
  Ok [Ok (ARead (B "ab")); Ok (ASeek 3); Ok (ARead (B "de")); Ok (ASeek 6); Ok (ARead (B "g"));
      Ok (ARead []); Err InvalidInput].
Proof. vm_compute. reflexivity. Qed.

(** No chunks at all is refused. *)
Example no_chunks_panics : from_chunks (E := ErrorKind) true [] store = Panic.
Proof. reflexivity. Qed.

End Examples.
