(* ===== verification/Ingest.v ===== *)
(** * [castore/src/import]: ingesting entries

    [ingest_entries] builds the directories of a stream of entries, children
    before their parents, and sends them to a directory service; the uploader
    of blobs sends small files in the background. *)

From stdpp Require Import strings gmap sorting.
From S2P Require Import Prelude Io BTreeMap Crates CastorePath Castore CastoreProto CastoreOrder PetGraph DirectoryGraph.
From S2P Require Import DirectoryDownload DirectoryService BlobService AsyncIo.
#[local] Open Scope nat_scope.

(** ** [mod.rs] *)

Inductive IngestionEntry :=
| ERegular (path : bytes) (size : Z) (executable : bool) (digest : bytes)
| ESymlink (path target : bytes)
| EDir (path : bytes).

(** [IngestionEntry::path] and [is_dir] *)
Definition entry_path (e : IngestionEntry) : bytes :=
  match e with ERegular path _ _ _ | ESymlink path _ | EDir path => path end.
Definition is_dir (e : IngestionEntry) : bool := match e with EDir _ => true | _ => false end.

Inductive IngestionError (E : Type) :=
| Producer (e : E)
| UploadDirectoryError (path : bytes) (e : CError)
| FinalizeDirectoryUpload (e : CError).
Arguments Producer {E}. Arguments UploadDirectoryError {E}. Arguments FinalizeDirectoryUpload {E}.

Section Ingest.
Context `{!DirectoryHash, !BstrSplit} {DS : Type} `{!DirectoryService DS} {E : Type}.
Context (dbg : bool).

Record Ingest := mkIngest {
  directories : gmap bytes Directory;
  maybe_directory_putter : option Putter;
}.

(** The node of an entry; a directory is complete and sent to the putter. *)
Definition entry_node (entry : IngestionEntry) (self : Ingest) : outcome (IngestionError E) (Node * Ingest) :=
  match entry with
  | EDir path =>
      let directory := default [] (directories self !! path) in
      let? directory_size := size dbg directory in
      match putter_put directory (default put_multiple_start (maybe_directory_putter self)) with
      | (Ok _, p) => Ok (DirectoryN (digest directory) directory_size, mkIngest (delete path (directories self)) (Some p))
      | (Err e, _) => Err (UploadDirectoryError path e)
      | (Panic, _) => Panic
      end
  | ESymlink path target =>
      let? target := omap_err (λ e, UploadDirectoryError path (StorageError (BadTarget e))) (SymlinkTarget.try_from target) in
      Ok (SymlinkN target, self)
  | ERegular _ size executable digest => Ok (FileN digest size executable, self)
  end.

(** One turn of the loop: the root node, or the directories with the node added. *)
Definition ingest_entry (entry : IngestionEntry) (self : Ingest) : outcome (IngestionError E) (Node * Ingest + Ingest) :=
  let? (node, self) := entry_node entry self in
  let? parent := or_panic (Path.parent (entry_path entry)) in
  if bool_decide (parent = Path.ROOT) then Ok (inl (node, self)) else
  let? name := (match Path.file_name_bytes (entry_path entry) with
                | Some name => Ok name
                | None => match Component.try_from [] with Ok name => Ok name | _ => Panic end
                end) in
  let? directory := omap_err (λ e, UploadDirectoryError (entry_path entry) (StorageError (NotAdded e)))
                      (add dbg (default [] (directories self !! parent)) name node) in
  Ok (inr (mkIngest (<[parent := directory]> (directories self)) (maybe_directory_putter self))).

(** The loop: the root node, the state, and what is left of the stream. *)
Fixpoint ingest_loop (entries : list (E + IngestionEntry)) (self : Ingest)
    : outcome (IngestionError E) (Node * Ingest * list (E + IngestionEntry)) :=
  match entries with
  | [] => Panic
  | inl e :: _ => Err (Producer e)
  | inr entry :: entries =>
      let? r := ingest_entry entry self in
      match r with
      | inl (node, self) => Ok (node, self, entries)
      | inr self => ingest_loop entries self
      end
  end.

Definition ingest_entries (entries : list (E + IngestionEntry)) (directory_service : DS)
    : outcome (IngestionError E) Node * DS :=
  match ingest_loop entries (mkIngest ∅ None) with
  | Err e => (Err e, directory_service)
  | Panic => (Panic, directory_service)
  | Ok (root_node, self, entries) =>
      if negb (length entries =? 0) then (Panic, directory_service) else
      if negb (bool_decide (directories self = ∅)) then (Panic, directory_service) else
      match maybe_directory_putter self with
      | None => (Ok root_node, directory_service)
      | Some directory_putter =>
          match putter_close directory_putter directory_service with
          | (Err e, _, directory_service) => (Err (FinalizeDirectoryUpload e), directory_service)
          | (Panic, _, directory_service) => (Panic, directory_service)
          | (Ok root_directory_digest, _, directory_service) =>
              (if dbg then
                 match root_node with
                 | DirectoryN digest _ => if bool_decide (root_directory_digest = digest) then Ok root_node else Panic
                 | _ => Panic
                 end
               else Ok root_node, directory_service)
          end
      end
  end.

End Ingest.

(** ** [blobs.rs] *)

Definition CONCURRENT_BLOB_UPLOAD_THRESHOLD : Z := 1024 * 1024.

Inductive BlobError :=
| BlobRead (path : bytes) (e : ErrorKind)
| BlobCheck (path : bytes) (e : ErrorKind)
| BlobFinalize (path : bytes) (e : ErrorKind)
| UnexpectedSize (path : bytes) (wanted got : Z)
| JoinError.

(** [BlobService::open_write] and the trait [BlobWriter] *)
Class BlobWriter (BS W : Type) := {
  open_write : BS → W;
  write_blob : bytes → W → outcome ErrorKind W;
  close_blob : W → BS → outcome ErrorKind bytes * BS;
}.

#[global] Instance Memory_BlobWriter `{Blake3} : BlobWriter MemoryBlobService MemoryBlobWriter := {|
  open_write _ := new_writer;
  write_blob b w := let '(o, w) := poll_write b w in let? _ := o in Ok w;
  close_blob w s := let '(o, _, s) := close_writer w s in (o, s);
|}.

(** [tokio::io::copy] with a buffer of [cap] bytes: the bytes copied, and the writer. *)
Fixpoint copy {S W} (rd : nat → poll S bytes) (wr : bytes → W → outcome ErrorKind W) (cap fuel : nat) (amt : Z) (w : W) (s : S)
    : option (outcome ErrorKind (Z * W) * S) :=
  match fuel with
  | O => None
  | Datatypes.S fuel =>
      match rd cap s with
      | (None, s) => copy rd wr cap fuel amt w s
      | (Some (Ok []), s) => Some (Ok (amt, w), s)
      | (Some (Ok bs), s) =>
          match wr bs w with
          | Ok w => copy rd wr cap fuel (amt + Z.of_nat (length bs)) w s
          | Err e => Some (Err e, s)
          | Panic => Some (Panic, s)
          end
      | (Some (Err e), s) => Some (Err e, s)
      | (Some Panic, s) => Some (Panic, s)
      end
  end.

(** A [Vec<u8>] takes all it is given. *)
Definition to_vec (bs : bytes) (v : bytes) : outcome ErrorKind bytes := Ok (v ++ bs).

(** Polls of a reader that is always ready. *)
Definition ready {R} `{AsyncRead R} (n : nat) : poll R bytes := λ r, let '(o, r) := poll_read n r in (Some o, r).

(** What the uploader keeps: the service, and the tasks that were spawned, each
    with the path, the digest and the contents of a file. *)
Record Uploader (BS : Type) := mkUploader {
  service : BS;
  upload_tasks : list (bytes * bytes * bytes);
}.
Arguments mkUploader {BS}. Arguments service {BS}. Arguments upload_tasks {BS}.

(** The order in which the tasks that were spawned finish. *)
Class Schedule := schedule : list (bytes * bytes * bytes) → list (bytes * bytes * bytes).
Class ScheduleLaws `{Schedule} := schedule_perm l : schedule l ≡ₚ l.

Section Blobs.
Context {BS R W : Type} `{!BlobService BS R, !BlobWriter BS W, !Blake3}.
(** The size of the buffer of [copy]. *)
Context (cap : nat).

(** [upload_blob] *)
Definition upload_blob {S} (rd : nat → poll S bytes) (path : bytes) (expected_size : Z) (fuel : nat) (bs : BS) (s : S)
    : option (outcome BlobError bytes * S * BS) :=
  match copy rd write_blob cap fuel 0 (open_write bs) s with
  | None => None
  | Some (Err e, s) => Some (Err (BlobRead path e), s, bs)
  | Some (Panic, s) => Some (Panic, s, bs)
  | Some (Ok (size, writer), s) =>
      match close_blob writer bs with
      | (Err e, bs) => Some (Err (BlobFinalize path e), s, bs)
      | (Panic, bs) => Some (Panic, s, bs)
      | (Ok digest, bs) =>
          if negb (size =? expected_size)%Z then Some (Err (UnexpectedSize path expected_size size), s, bs)
          else Some (Ok digest, s, bs)
      end
  end.

(** [ConcurrentBlobUploader::upload] *)
Definition upload {S} (rd : nat → poll S bytes) (path : bytes) (expected_size : Z) (fuel : nat) (self : Uploader BS) (s : S)
    : option (outcome BlobError bytes * S * Uploader BS) :=
  if (expected_size <? CONCURRENT_BLOB_UPLOAD_THRESHOLD)%Z then
    match copy rd to_vec cap fuel 0 [] s with
    | None => None
    | Some (Err e, s) => Some (Err (BlobRead path e), s, self)
    | Some (Panic, s) => Some (Panic, s, self)
    | Some (Ok (size, buffer), s) =>
        let digest := blake3_hash buffer in
        if negb (size =? expected_size)%Z then Some (Err (UnexpectedSize path expected_size size), s, self)
        else Some (Ok digest, s, mkUploader (service self) (upload_tasks self ++ [(path, digest, buffer)]))
    end
  else
    match upload_blob rd path expected_size fuel (service self) s with
    | None => None
    | Some (o, s, bs) => Some (o, s, mkUploader bs (upload_tasks self))
    end.

(** The body of a spawned task. *)
Definition run_task (fuel : nat) (task : bytes * bytes * bytes) (bs : BS) : option (outcome BlobError unit * BS) :=
  let '(path, expected_digest, buffer) := task in
  match has expected_digest bs with
  | Err e => Some (Err (BlobCheck path e), bs)
  | Panic => Some (Panic, bs)
  | Ok true => Some (Ok tt, bs)
  | Ok false =>
      match upload_blob (ready (R := Cursor)) path (Z.of_nat (length buffer)) fuel bs (mkCursor buffer 0) with
      | None => None
      | Some (Err e, _, bs) => Some (Err e, bs)
      | Some (Panic, _, bs) => Some (Panic, bs)
      | Some (Ok digest, _, bs) => Some (if bool_decide (digest = expected_digest) then Ok tt else Panic, bs)
      end
  end.

Fixpoint run_tasks (fuel : nat) (tasks : list (bytes * bytes * bytes)) (bs : BS) : option (outcome BlobError unit * BS) :=
  match tasks with
  | [] => Some (Ok tt, bs)
  | task :: tasks =>
      match run_task fuel task bs with
      | None => None
      | Some (Ok _, bs) => run_tasks fuel tasks bs
      | Some (Err e, bs) => Some (Err e, bs)
      | Some (Panic, bs) => Some (Err JoinError, bs)
      end
  end.

(** [ConcurrentBlobUploader::join] *)
Definition join `{!Schedule} (fuel : nat) (self : Uploader BS) : option (outcome BlobError unit * BS) :=
  run_tasks fuel (schedule (upload_tasks self)) (service self).

End Blobs.
