(* ===== verification/IngestSpec.v ===== *)
(** * What ingesting a tree does

    The node, the directories and the blobs that a tree stands for in the
    store, and that [ingest_entries] on the entries of the tree builds these
    directories, sends them to the putter and answers this node. *)

From stdpp Require Import strings gmap sorting.
From S2P Require Import Prelude Io BTreeMap Crates NarWire NarWriter.
From S2P Require CastorePath.
From S2P Require Import Castore CastoreProto CastoreOrder PetGraph DirectoryGraph DirectoryDownload DirectoryService DirectoryCache BlobService Ingest.
Import CastorePath.
#[local] Open Scope nat_scope.

(** The laws of the two interfaces to BLAKE3: digests have 32 bytes. *)
Class DigestLaws `{DirectoryHash, Blake3} : Prop := {
  blake3_length x : length (blake3 x) = 32;
  blake3_hash_length x : length (blake3_hash x) = 32;
}.

(** ** A tree in the store *)

Section Trees.
Context `{!DirectoryHash, !Blake3}.

(** The size that is recorded for a directory. *)
Definition recorded_size (d : Directory) : Z := (Z.of_nat (length d) + total d)%Z.

Fixpoint castore_of (t : tree) : Node :=
  match t with
  | TSymlink target => SymlinkN target
  | TFile x data => FileN (blake3_hash data) (Z.of_nat (length data)) x
  | TDir es =>
      let d := map (λ e, match e with (n, t) => (n, castore_of t) end) es in
      DirectoryN (digest d) (recorded_size d)
  end.

Definition dir_of_entries (es : list (bytes * tree)) : Directory :=
  map (λ e, match e with (n, t) => (n, castore_of t) end) es.

(** All directories, each after those below it. *)
Fixpoint dirs_of (t : tree) : list Directory :=
  match t with
  | TDir es => flat_map (λ e, match e with (_, t) => dirs_of t end) es ++ [dir_of_entries es]
  | _ => []
  end.

Definition subdirs (es : list (bytes * tree)) : list Directory := flat_map (λ e, match e with (_, t) => dirs_of t end) es.

Lemma dirs_of_dir es : dirs_of (TDir es) = subdirs es ++ [dir_of_entries es].
Proof. done. Qed.

Lemma castore_of_dir es : castore_of (TDir es) = DirectoryN (digest (dir_of_entries es)) (recorded_size (dir_of_entries es)).
Proof. done. Qed.

(** The contents of all files. *)
Fixpoint blobs_of (t : tree) : list bytes :=
  match t with
  | TSymlink _ => []
  | TFile _ data => [data]
  | TDir es => flat_map (λ e, match e with (_, t) => blobs_of t end) es
  end.

(** The entry of a tree at a path, and those below it, children first. *)
Definition own_entry (path : list bytes) (t : tree) : IngestionEntry :=
  match t with
  | TSymlink target => ESymlink (Path.render path) target
  | TFile x data => ERegular (Path.render path) (Z.of_nat (length data)) x (blake3_hash data)
  | TDir _ => EDir (Path.render path)
  end.

Fixpoint inner_entries (path : list bytes) (t : tree) : list IngestionEntry :=
  match t with
  | TDir es => flat_map (λ e, match e with (n, t) => inner_entries (path ++ [n]) t ++ [own_entry (path ++ [n]) t] end) es
  | _ => []
  end.

Definition child_entries (path : list bytes) (es : list (bytes * tree)) : list IngestionEntry :=
  flat_map (λ e, match e with (n, t) => inner_entries (path ++ [n]) t ++ [own_entry (path ++ [n]) t] end) es.

(** The recorded sizes of all directories fit into 64 bits. *)
Definition fits (t : tree) : Prop := ∀ d, d ∈ dirs_of t → (recorded_size d ≤ u64_MAX)%Z.

Lemma fits_child n t es : fits (TDir es) → (n, t) ∈ es → fits t.
Proof.
  intros Hf He d Hd. apply Hf. rewrite dirs_of_dir. apply elem_of_app. left. apply list_elem_of_In, in_flat_map.
  exists (n, t). split; by apply list_elem_of_In.
Qed.

Lemma castore_of_size t : fits t → (0 ≤ dir_size_field (castore_of t) ≤ u64_MAX)%Z ∨ ∃ es, t = TDir es.
Proof. destruct t; [left; cbn; unfold u64_MAX; lia..|by right; eexists]. Qed.

End Trees.

(** ** Names *)

Lemma entry_name_ok_name n : entry_name_ok n ↔ Component.name_ok n.
Proof.
  unfold entry_name_ok, Component.name_ok, NarWire.MAX_NAME_LEN. split.
  - intros (Hl & ? & ? & ? & ?). split_and!; try done; [|lia]. intros ->. cbn in Hl. lia.
  - intros (? & ? & ? & ? & ? & ?). split_and!; try done. by destruct n; [|cbn; lia].
Qed.

(** The entries of a valid directory, in order. *)
Lemma entries_ok_elem p es n t : entries_ok p es → (n, t) ∈ es → entry_name_ok n ∧ tree_ok t ∧ lex_cmp p n = Lt.
Proof.
  revert p. induction es as [|[n' t'] es IH]; intros p; [by intros ? ?%elem_of_nil|].
  cbn. intros (Hn & Hp & Ht & Hes) [[= -> ->]|He]%elem_of_cons; [done|].
  destruct (IH n' Hes He) as (? & ? & ?). split_and!; [done|done|]. by eapply (rcmp_lt_trans (A := list byte)).
Qed.

(** ** The directories of a tree *)

Section Directories.
Context `{!DirectoryHash, !Blake3, !DigestLaws}.

Lemma elem_of_dir_of_entries n x es : (n, x) ∈ dir_of_entries es ↔ ∃ t, (n, t) ∈ es ∧ x = castore_of t.
Proof.
  unfold dir_of_entries. change (map ?f es) with (f <$> es). rewrite list_elem_of_fmap. split.
  - intros ([n' t] & [= -> ->] & ?). eauto.
  - intros (t & ? & ->). by exists (n, t).
Qed.

Lemma elem_of_subdirs d es : d ∈ subdirs es ↔ ∃ n t, (n, t) ∈ es ∧ d ∈ dirs_of t.
Proof.
  unfold subdirs. rewrite list_elem_of_In, in_flat_map. setoid_rewrite <- list_elem_of_In. split.
  - intros ([n t] & ? & ?). eauto.
  - intros (n & t & ? & ?). by exists (n, t).
Qed.

Lemma entries_sorted p es : entries_ok p es → bt_sorted (dir_of_entries es).
Proof.
  revert p. induction es as [|[n t] es IH]; intros p; [constructor|]. intros (Hn & Hp & Ht & Hes). cbn. constructor; [by eapply IH|].
  apply Forall_forall. intros [n' x] (t' & Ht' & _)%elem_of_dir_of_entries. by apply (entries_ok_elem n es n' t').
Qed.

Lemma dir_of_entries_ok es :
  Forall (λ e, tree_ok e.2 → fits e.2 → node_ok (castore_of e.2)) es → tree_ok (TDir es) → fits (TDir es) → dir_ok (dir_of_entries es).
Proof.
  intros IH Hes Hf. rewrite tree_ok_dir in Hes.
  assert (Forall entry_ok (dir_of_entries es)) as He.
  { apply Forall_forall. intros [n x] (t & Ht & ->)%elem_of_dir_of_entries. destruct (entries_ok_elem _ _ _ _ Hes Ht) as (Hn & Hok & _).
    split; [by apply entry_name_ok_name|]. eapply Forall_forall in IH; [|done]. apply IH; [done|]. by eapply fits_child. }
  split; [by eapply entries_sorted|done|]. pose proof (total_length _ He).
  assert (recorded_size (dir_of_entries es) ≤ u64_MAX)%Z as Hr by (apply Hf; rewrite dirs_of_dir; set_solver).
  unfold recorded_size in Hr. lia.
Qed.

Lemma castore_of_ok t : tree_ok t → fits t → node_ok (castore_of t).
Proof.
  induction t as [target|x data|es IH] using tree_ind'; intros Hok Hf.
  - destruct Hok as [Hl Hn]. split_and!; [|unfold NarWire.MAX_TARGET_LEN in Hl; lia|done]. intros E. cbn in E. subst. cbn in Hl. lia.
  - cbn in *. split; [apply blake3_hash_length|unfold u64_MAX; lia].
  - pose proof (dir_of_entries_ok es IH Hok Hf) as Hd. pose proof (total_nonneg _ (dir_entries _ Hd)).
    rewrite castore_of_dir. split; [apply blake3_length|]. unfold recorded_size. split; [lia|]. apply Hf. rewrite dirs_of_dir. set_solver.
Qed.

Lemma tree_dir_ok es : tree_ok (TDir es) → fits (TDir es) → dir_ok (dir_of_entries es).
Proof. intros. apply dir_of_entries_ok; [|done..]. apply Forall_forall. intros. by apply castore_of_ok. Qed.

(** Induction over the directories of a valid tree. *)
Lemma dirs_of_ok t d : tree_ok t → fits t → d ∈ dirs_of t → dir_ok d.
Proof.
  induction t as [target|x data|es IH] using tree_ind'; intros Hok Hf; [by intros ?%elem_of_nil..|].
  rewrite dirs_of_dir, elem_of_app, list_elem_of_singleton. intros [(n & t & Ht & Hd)%elem_of_subdirs| ->]; [|by apply tree_dir_ok].
  eapply (Forall_forall _ _) in IH; [|exact Ht]. apply IH; [|by eapply fits_child|done].
  rewrite tree_ok_dir in Hok. by apply (entries_ok_elem [] es n t).
Qed.

Lemma dir_size {E} dbg es : tree_ok (TDir es) → fits (TDir es) →
  size (E := E) dbg (dir_of_entries es) = Ok (recorded_size (dir_of_entries es)).
Proof.
  intros Hok Hf. pose proof (tree_dir_ok es Hok Hf) as Hd. pose proof (total_nonneg _ (dir_entries _ Hd)). rewrite size_spec by done.
  assert (recorded_size (dir_of_entries es) ≤ u64_MAX)%Z as Hr by (apply Hf; rewrite dirs_of_dir; set_solver). unfold recorded_size in *.
  rewrite (proj2 (Z.leb_le _ _)), Z.mod_small by (unfold u64_MAX in *; lia). by destruct dbg.
Qed.

(** Adding the entry with the greatest name. *)
Lemma add_last dbg d n x :
  dir_ok (d ++ [(n, x)]) → (recorded_size (d ++ [(n, x)]) ≤ u64_MAX)%Z → add dbg d n x = Ok (d ++ [(n, x)]).
Proof.
  intros Hd Hr. unfold recorded_size in Hr. rewrite total_app, length_app in Hr. cbn in Hr.
  pose proof (dir_entries _ Hd) as He. apply Forall_app in He as [He [Hn Hx]%Forall_singleton]. cbn in Hn, Hx.
  pose proof (dir_size_field_nonneg _ Hx). pose proof (dir_sorted _ Hd) as Hs. apply StronglySorted_app in Hs as (Hlt & Hs & _).
  assert (dir_ok d) as Hd' by (split; [done|done|lia]).
  pose proof (add_cases dbg d n x Hd' Hn Hx ltac:(lia)) as Hadd. destruct (add dbg d n x) as [d'|e|]; [|destruct e; try done|done].
  - destruct Hadd as [Hd'' Hp]. f_equal. apply bt_sorted_perm; [apply Hd''|apply Hd|]. rewrite Hp. apply Permutation_cons_append.
  - destruct Hadd as [_ Hin]. pose proof (bt_sorted_NoDup _ (dir_sorted _ Hd)) as Hnd. rewrite fmap_app in Hnd.
    apply NoDup_app in Hnd as (_ & Hnd & _). destruct (Hnd n Hin). cbn. set_solver.
  - lia.
Qed.

(** *** Their order *)

Lemma in_order_app rule pre a b : in_order rule pre (a ++ b) ↔ in_order rule pre a ∧ in_order rule (pre ++ a) b.
Proof.
  revert pre. induction a as [|d a IH]; intros pre; cbn; [rewrite app_nil_r; naive_solver|].
  rewrite IH, <- app_assoc. naive_solver.
Qed.

Lemma dir_of_entries_sizes dbg pre es :
  tree_ok (TDir es) → fits (TDir es) → sizes_right dbg (pre ++ subdirs es) (dir_of_entries es).
Proof.
  intros Hok Hf name dg sz (t & Ht & E)%elem_of_dir_of_entries. destruct t as [| |es']; [done..|].
  rewrite castore_of_dir in E. injection E as -> ->. rewrite tree_ok_dir in Hok.
  destruct (entries_ok_elem _ _ _ _ Hok Ht) as (_ & Hok' & _).
  exists (dir_of_entries es'). split_and!; [|done|apply dir_size; [done|by eapply fits_child]].
  apply elem_of_app. right. apply elem_of_subdirs. exists name, (TDir es'). split; [done|]. rewrite dirs_of_dir. set_solver.
Qed.

Lemma dirs_of_order dbg t pre : tree_ok t → fits t → in_order (sizes_right dbg) pre (dirs_of t).
Proof.
  revert pre. induction t as [target|x data|es IH] using tree_ind'; intros pre Hok Hf; [done..|].
  rewrite dirs_of_dir, in_order_app. split; [|split; [by apply dir_of_entries_sizes|done]].
  assert (∀ n t, (n, t) ∈ es → tree_ok t ∧ fits t) as Hes.
  { intros n t Ht. split; [|by eapply fits_child]. rewrite tree_ok_dir in Hok. by apply (entries_ok_elem [] es n t). }
  clear Hok Hf. revert pre. induction IH as [|[n t] es Ht _ IH]; intros pre; [done|]. cbn. apply in_order_app. split.
  - apply Ht; apply (Hes n); left.
  - apply IH. intros n' t' Ht'. apply (Hes n'). by right.
Qed.

(** A directory has a greater size than those below it. *)
Lemma total_elem d n x : Forall entry_ok d → (n, x) ∈ d → (1 + dir_size_field x ≤ total d)%Z.
Proof.
  intros Hd. induction Hd as [|[n' x'] d [_ Hx] Hd IH]; [by intros ?%elem_of_nil|]. pose proof (total_nonneg d Hd).
  pose proof (dir_size_field_nonneg _ Hx). cbn in *. intros [[= -> ->]|Hin]%elem_of_cons; [lia|]. specialize (IH Hin). lia.
Qed.

Lemma subdirs_smaller es d :
  tree_ok (TDir es) → fits (TDir es) → d ∈ subdirs es → (recorded_size d < recorded_size (dir_of_entries es))%Z.
Proof.
  assert (∀ t d, tree_ok t → fits t → d ∈ dirs_of t → (recorded_size d ≤ dir_size_field (castore_of t))%Z ∧
    ∀ es, t = TDir es → d ∈ subdirs es → (recorded_size d < recorded_size (dir_of_entries es))%Z) as Hall.
  2:{ intros Hok Hf Hd. eapply (Hall (TDir es)); [done..| |done|done]. rewrite dirs_of_dir. set_solver. }
  clear es d. induction t as [target|x data|es IH] using tree_ind'; intros d Hok Hf; [by intros ?%elem_of_nil..|].
  intros Hd. rewrite castore_of_dir. cbn [dir_size_field].
  assert (d ∈ subdirs es → recorded_size d < recorded_size (dir_of_entries es))%Z as Hsub.
  { intros (n & t & Ht & Hdt)%elem_of_subdirs. rewrite tree_ok_dir in Hok. destruct (entries_ok_elem _ _ _ _ Hok Ht) as (_ & Hok' & _).
    eapply (Forall_forall _ _) in IH; [|exact Ht]. destruct (IH d Hok') as [Hle _]; [by eapply fits_child|done|]. cbn in Hle.
    rewrite <- tree_ok_dir in Hok. pose proof (dir_entries _ (tree_dir_ok es Hok Hf)) as He.
    pose proof (total_elem _ n (castore_of t) He ltac:(apply elem_of_dir_of_entries; eauto)). unfold recorded_size in *. lia. }
  split; [|intros ? [= <-]; done]. rewrite dirs_of_dir, elem_of_app, list_elem_of_singleton in Hd.
  destruct Hd as [Hd| ->]; [|done]. specialize (Hsub Hd). lia.
Qed.

Lemma dirs_of_reach t d root all :
  (∀ d, d ∈ dirs_of t → d ∈ all) → (∀ es, t = TDir es → rtc (refers all) root (dir_of_entries es)) →
  d ∈ dirs_of t → rtc (refers all) root d.
Proof.
  revert d root. induction t as [target|x data|es IH] using tree_ind'; intros d root Hall Hroot; [by intros ?%elem_of_nil..|].
  rewrite dirs_of_dir, elem_of_app, list_elem_of_singleton. intros [(n & t & Ht & Hd)%elem_of_subdirs| ->]; [|by apply Hroot].
  eapply (Forall_forall _ _) in IH; [|exact Ht]. cbn in IH.
  assert (∀ d, d ∈ dirs_of t → d ∈ subdirs es) as Hsub by (intros d' ?; apply elem_of_subdirs; eauto).
  apply IH; [intros d' ?%Hsub; apply Hall; rewrite dirs_of_dir; set_solver| |done].
  intros es' ->. etransitivity; [by apply Hroot|]. apply rtc_once. split.
  - apply Hall. rewrite dirs_of_dir. apply elem_of_app. left. apply Hsub. rewrite dirs_of_dir. set_solver.
  - apply elem_of_child_digests. exists n, (recorded_size (dir_of_entries es')). apply elem_of_dir_of_entries. exists (TDir es').
    by rewrite castore_of_dir.
Qed.

Lemma dirs_of_uploadable `{PetGraphLaws} dbg es :
  tree_ok (TDir es) → fits (TDir es) → collision_free (dirs_of (TDir es)) →
  consistent dbg [] (dirs_of (TDir es)) ∧ uploadable dbg (distinct [] (dirs_of (TDir es))) (dir_of_entries es).
Proof.
  intros Hok Hf Hc. rewrite dirs_of_dir in *. apply distinct_uploadable; [done| | |].
  - rewrite <- dirs_of_dir. by apply dirs_of_order.
  - intros Hd. pose proof (subdirs_smaller es _ Hok Hf Hd). lia.
  - intros d Hd. rewrite <- dirs_of_dir. apply (dirs_of_reach (TDir es)); [done|intros ? [= <-]; constructor|].
    rewrite dirs_of_dir. set_solver.
Qed.

End Directories.

(** ** The loop *)

Section Loop.
Context `{!DirectoryHash, !Blake3, !DigestLaws} {HB : BstrSplit} `{!BstrSplitLaws} {DS : Type} `{!DirectoryService DS} {E : Type}.
Context (dbg : bool).

(** Sending directories, with a putter that is opened for the first of them. *)
Fixpoint sends (ds : list Directory) (p p' : option Putter) : Prop :=
  match ds with
  | [] => p' = p
  | d :: ds => ∃ p1, putter_put d (default put_multiple_start p) = (Ok tt, p1) ∧ sends ds (Some p1) p'
  end.

Lemma sends_app a b p p' : sends (a ++ b) p p' ↔ ∃ p1, sends a p p1 ∧ sends b p1 p'.
Proof.
  revert p. induction a as [|d a IH]; intros p; cbn; [naive_solver|]. setoid_rewrite IH. naive_solver.
Qed.

Lemma sends_all ds p p' :
  putter_put_all ds p = (Ok tt, p') → sends ds (Some p) (Some p').
Proof.
  revert p. induction ds as [|d ds IH]; intros p; cbn; [by intros [= ->]|].
  destruct (putter_put d p) as [[[]| |] p1] eqn:Hp; [|done..]. intros. exists p1. split; [done|by apply IH].
Qed.

Lemma sends_start ds p' : ds ≠ [] → putter_put_all ds put_multiple_start = (Ok tt, p') → sends ds None (Some p').
Proof. intros Hds Hp%sends_all. by destruct ds. Qed.

(** No directory is being built at or below a path. *)
Definition clear (m : gmap bytes Directory) (path : list bytes) : Prop :=
  ∀ suf, Path.names_ok (path ++ suf) → m !! Path.render (path ++ suf) = None.

Lemma render_inj l l' : Path.names_ok l → Path.names_ok l' → Path.render l = Path.render l' → l = l'.
Proof. intros Hl Hl' E'. rewrite <- (Path.components_render l), <- (Path.components_render l') by done. by rewrite E'. Qed.

Lemma clear_child m path d n : Path.names_ok path → clear m (path ++ [n]) → clear (<[Path.render path := d]> m) (path ++ [n]).
Proof.
  intros Hp Hm suf Hs. rewrite lookup_insert_ne; [by apply Hm|]. rewrite <- app_assoc in *. intros E'%render_inj; [|done..].
  apply (f_equal length) in E'. rewrite length_app in E'. cbn in E'. lia.
Qed.

(** The directory of [path], once the entries below it have been added. *)
Definition built (path : list bytes) (t : tree) (m : gmap bytes Directory) : gmap bytes Directory :=
  match t with
  | TDir ((_ :: _) as es) => <[Path.render path := dir_of_entries es]> m
  | _ => m
  end.

Definition below (t : tree) : list Directory := match t with TDir es => subdirs es | _ => [] end.

Definition node_dirs (t : tree) : list Directory := match t with TDir es => [dir_of_entries es] | _ => [] end.

Lemma dirs_of_split t : dirs_of t = below t ++ node_dirs t.
Proof. by destruct t. Qed.

Lemma own_path path t : entry_path (own_entry path t) = Path.render path.
Proof. by destruct t. Qed.

Lemma own_node path t m p p' :
  Path.names_ok path → tree_ok t → fits t → clear m path → sends (node_dirs t) p p' →
  entry_node (E := E) dbg (own_entry path t) (mkIngest (built path t m) p) = Ok (castore_of t, mkIngest m p').
Proof.
  intros Hp Hok Hf Hm Hs. assert (m !! Path.render path = None) as Hpath.
  { specialize (Hm []). rewrite app_nil_r in Hm. by apply Hm. }
  destruct t as [target|x data|es]; unfold entry_node, own_entry.
  - pose proof (castore_of_ok _ Hok Hf) as Ht. rewrite (proj2 (SymlinkTarget.symlink_try_from_Ok target target)) by done. cbn in *. by subst.
  - cbn in *. by subst.
  - destruct Hs as (p1 & Hput & ->). cbn [directories].
    assert (default [] (built path (TDir es) m !! Path.render path) = dir_of_entries es) as ->.
    { destruct es; cbn [built]; [by rewrite Hpath|by rewrite lookup_insert_eq]. }
    rewrite dir_size by done. cbn [obind maybe_directory_putter]. rewrite Hput. rewrite castore_of_dir. do 3 f_equal.
    destruct es; cbn [built]; [|rewrite delete_insert_eq]; by apply delete_id.
Qed.

Lemma own_is_EDir path t : is_dir (own_entry path t) = match t with TDir _ => true | _ => false end.
Proof. by destruct t. Qed.

(** The entry of a child is added to the directory of its parent. *)
Lemma ingest_child path pre n t m p p' :
  Path.names_ok (path ++ [n]) → path ≠ [] → tree_ok t → fits t → clear m (path ++ [n]) → sends (node_dirs t) p p' →
  default [] (m !! Path.render path) = dir_of_entries pre →
  dir_ok (dir_of_entries (pre ++ [(n, t)])) → (recorded_size (dir_of_entries (pre ++ [(n, t)])) ≤ u64_MAX)%Z →
  ingest_entry (E := E) dbg (own_entry (path ++ [n]) t) (mkIngest (built (path ++ [n]) t m) p) =
  Ok (inr (mkIngest (<[Path.render path := dir_of_entries (pre ++ [(n, t)])]> m) p')).
Proof.
  intros Hp Hne Hok Hf Hm Hs Hpre Hd Hr. pose proof Hp as [Hpath Hn]%Forall_app.
  unfold ingest_entry. erewrite own_node by done. cbn [obind]. rewrite own_path, Path.parent_render by done. cbn [obind or_panic].
  rewrite bool_decide_eq_false_2 by (unfold Path.ROOT; by rewrite Path.render_nil).
  unfold Path.file_name_bytes. rewrite Path.components_render, last_snoc by done. cbn [obind directories]. rewrite Hpre.
  unfold dir_of_entries in *. rewrite map_app in *. cbn [map] in *. by rewrite add_last.
Qed.

(** A valid list of entries, from one on. *)
Lemma dir_of_prefix pre es : tree_ok (TDir (pre ++ es)) → fits (TDir (pre ++ es)) →
  dir_ok (dir_of_entries pre) ∧ (recorded_size (dir_of_entries pre) ≤ u64_MAX)%Z.
Proof.
  intros Hok Hf. pose proof (tree_dir_ok _ Hok Hf) as Hd. pose proof (dir_entries _ Hd) as He.
  assert (recorded_size (dir_of_entries (pre ++ es)) ≤ u64_MAX)%Z as Hr by (apply Hf; rewrite dirs_of_dir; set_solver).
  unfold dir_of_entries in *. rewrite map_app in *. apply Forall_app in He as [He1 He2].
  pose proof (total_nonneg _ He2). pose proof (dir_total _ Hd) as Ht. pose proof (dir_sorted _ Hd) as Hs. apply StronglySorted_app in Hs as (_ & Hs & _).
  unfold recorded_size in *. rewrite total_app, ?length_app in *. split; [split; [done|done|lia]|lia].
Qed.

(** What the loop does with the entries below a path. *)
Definition ingests (path : list bytes) (t : tree) : Prop := ∀ m p p' rest,
  clear m path → sends (below t) p p' →
  ingest_loop (E := E) dbg ((inr <$> inner_entries path t) ++ rest) (mkIngest m p) =
  ingest_loop dbg rest (mkIngest (built path t m) p').

Lemma ingest_children path pre es m p p' rest :
  (∀ n t, (n, t) ∈ es → ingests (path ++ [n]) t) →
  Path.names_ok path → path ≠ [] → tree_ok (TDir (pre ++ es)) → fits (TDir (pre ++ es)) →
  (∀ n, n ∈ es.*1 → clear m (path ++ [n])) → default [] (m !! Path.render path) = dir_of_entries pre → sends (subdirs es) p p' →
  ingest_loop (E := E) dbg ((inr <$> child_entries path es) ++ rest) (mkIngest m p) =
  ingest_loop dbg rest (mkIngest (match es with [] => m | _ => <[Path.render path := dir_of_entries (pre ++ es)]> m end) p').
Proof.
  revert pre m p. induction es as [|[n t] es IH]; intros pre m p Hin Hp Hne Hok Hf Hm Hpre Hs; [by cbn in Hs; subst|].
  assert (tree_ok t ∧ entry_name_ok n) as [Htok Hn].
  { rewrite tree_ok_dir in Hok. edestruct (entries_ok_elem [] (pre ++ (n, t) :: es) n t) as (? & ? & _); [done|set_solver|done]. }
  assert (fits t) as Htf by (apply (fits_child n t (pre ++ (n, t) :: es)); [done|set_solver]).
  apply entry_name_ok_name in Hn. assert (Path.names_ok (path ++ [n])) as Hpn by (apply Forall_app; split; [done|by apply Forall_singleton]).
  cbn [subdirs flat_map] in Hs. rewrite dirs_of_split, <- app_assoc in Hs. apply sends_app in Hs as (p1 & Hs1 & Hs).
  apply sends_app in Hs as (p2 & Hs2 & Hs).
  cbn [child_entries flat_map]. rewrite !fmap_app, <- !app_assoc. rewrite (Hin n t ltac:(left) m p p1); [|apply Hm; cbn; set_solver|done].
  cbn [app fmap list_fmap ingest_loop]. rewrite (cons_middle (n, t)), app_assoc in Hok, Hf.
  destruct (dir_of_prefix _ _ Hok Hf) as [Hd Hr]. rewrite (ingest_child path pre n t m p1 p2) by (first [done|apply Hm; cbn; set_solver]).
  cbn [obind]. rewrite (IH (pre ++ [(n, t)])); [|..|exact Hs]; [|intros n' t' ?; apply Hin; by right|done|done|done|done| |by rewrite lookup_insert_eq].
  - f_equal. f_equal. destruct es; [done|]. by rewrite insert_insert_eq, <- app_assoc.
  - intros n' Hn'. apply clear_child; [done|]. apply Hm. cbn. set_solver.
Qed.

Lemma ingest_below path t :
  Path.names_ok path → path ≠ [] → tree_ok t → fits t → ingests path t.
Proof.
  revert path. induction t as [target|x data|es IH] using tree_ind'; intros path Hp Hne Hok Hf m p p' rest Hm Hs; [by cbn in Hs; subst..|].
  change (inner_entries path (TDir es)) with (child_entries path es). rewrite (ingest_children path [] es m p p'); [by destruct es|..|done].
  - intros n t Ht. pose proof Hok as Hes. rewrite tree_ok_dir in Hes. destruct (entries_ok_elem _ _ _ _ Hes Ht) as (Hn & ? & _).
    apply entry_name_ok_name in Hn. eapply (Forall_forall _ _) in IH; [|exact Ht]. apply IH; [|by destruct path|done|by eapply fits_child].
    apply Forall_app. split; [done|by apply Forall_singleton].
  - done.
  - done.
  - done.
  - done.
  - intros n _ suf Hsuf. rewrite <- app_assoc in *. by apply Hm.
  - specialize (Hm []). rewrite app_nil_r in Hm. by rewrite Hm.
Qed.

(** The entries of a tree, children first. *)
Definition tree_entries (name : bytes) (t : tree) : list IngestionEntry := inner_entries [name] t ++ [own_entry [name] t].

(** The whole loop. *)
Lemma ingest_loop_tree name t p' :
  entry_name_ok name → tree_ok t → fits t → sends (dirs_of t) None p' →
  ingest_loop (E := E) dbg (inr <$> tree_entries name t) (mkIngest ∅ None) = Ok (castore_of t, mkIngest ∅ p', []).
Proof.
  intros Hn Hok Hf Hs. rewrite dirs_of_split in Hs. apply sends_app in Hs as (p1 & Hs1 & Hs2).
  assert (Path.names_ok [name]) as Hp by (by apply Forall_singleton, entry_name_ok_name).
  assert (clear ∅ [name]) as Hm by (intros suf _; apply lookup_empty).
  unfold tree_entries. rewrite fmap_app. rewrite (ingest_below [name] t Hp ltac:(done) Hok Hf ∅ None p1) by done.
  cbn [fmap list_fmap ingest_loop]. unfold ingest_entry. erewrite own_node by done. cbn [obind]. rewrite own_path.
  change [name] with ([] ++ [name]). rewrite Path.parent_render by done. cbn [or_panic obind]. by rewrite bool_decide_eq_true_2.
Qed.

End Loop.

(** ** Ingesting a tree *)

(** What a memory directory service has after the directories of a tree were put. *)
Definition has_tree `{DirectoryHash, Blake3} (t : tree) (s s' : MemoryDirectoryService) : Prop :=
  mem_ok s' ∧ (∀ d, d ∈ dirs_of t → dir_of s' (digest d) = Some d) ∧
  ∀ dg, dg ∉ digest <$> dirs_of t → dir_of s' dg = dir_of s dg.

Lemma ingest_tree_memory `{!DirectoryHash, !Blake3, !DigestLaws, PetGraphLaws} {HB : BstrSplit} `{!BstrSplitLaws} {E : Type}
    (dbg : bool) (name : bytes) (t : tree) (s : MemoryDirectoryService) :
  entry_name_ok name → tree_ok t → fits t → collision_free (dirs_of t) → mem_ok s →
  ∃ s', ingest_entries (DirectoryService0 := Memory_DirectoryService dbg) (E := E) dbg (inr <$> tree_entries name t) s = (Ok (castore_of t), s') ∧ has_tree t s s'.
Proof.
  intros Hn Hok Hf Hc Hs. unfold ingest_entries. destruct t as [target|x data|es].
  1,2: exists s; erewrite (ingest_loop_tree dbg) by done; split; [done|]; split_and!; [done|by intros ? ?%elem_of_nil|done].
  destruct (dirs_of_uploadable dbg es Hok Hf Hc) as [Hcons Hup].
  destruct (put_upload dbg _ _ s Hcons Hup Hs) as (p & s' & Hputs & Hclose & Hs' & Hin & Hout).
  { apply Forall_forall. intros d. by apply dirs_of_ok. }
  assert (∀ d, d ∈ distinct [] (dirs_of (TDir es)) ↔ d ∈ dirs_of (TDir es)) as Hd.
  { intros d. rewrite elem_of_distinct by done. set_solver. }
  exists s'. erewrite (ingest_loop_tree dbg (DirectoryService0 := Memory_DirectoryService dbg)); [|done..|].
  2:{ apply sends_start; [|exact Hputs]. rewrite dirs_of_dir. by destruct (subdirs es). }
  cbn [length Nat.eqb negb directories maybe_directory_putter]. rewrite bool_decide_eq_true_2 by done. cbn [negb putter_close Memory_DirectoryService].
  rewrite Hclose. split.
  - rewrite castore_of_dir. destruct dbg; [|done]. by rewrite bool_decide_eq_true_2.
  - split_and!; [done|intros d Hdd%Hd; by apply Hin|]. intros dg Hdg. apply Hout. intros (d & -> & Hdd%Hd)%list_elem_of_fmap.
    apply Hdg. by apply list_elem_of_fmap_2.
Qed.

(** C13: [ingest_entries] on the entries of a tree, each directory after what is
    in it, answers the node of the tree and leaves all its directories in
    the service, each under its digest, and nothing else. *)
Theorem ingest_tree `{!DirectoryHash, !Blake3, !DigestLaws, PetGraphLaws} {HB : BstrSplit} `{!BstrSplitLaws} {E : Type}
    (dbg : bool) (name : bytes) (t : tree) (s : MemoryDirectoryService) :
  entry_name_ok name → tree_ok t → fits t → collision_free (dirs_of t) → mem_ok s →
  ∃ s', ingest_entries (DirectoryService0 := Memory_DirectoryService dbg) (E := E) dbg (inr <$> tree_entries name t) s = (Ok (castore_of t), s') ∧
    mem_ok s' ∧ (∀ d, d ∈ dirs_of t → dir_of s' (digest d) = Some d) ∧
    ∀ dg, dg ∉ digest <$> dirs_of t → dir_of s' dg = dir_of s dg.
Proof. apply ingest_tree_memory. Qed.

(** ** Examples *)

Module Examples.
Import GraphModel Crates.Models.

(** Digests that tell directories apart by their numbers of entries, and files
    by their length. *)
#[local] Instance dir_hash : DirectoryHash := {|
  encode_to_vec m := (λ n, z2b (Z.of_nat n)) <$> [length (CastoreProto.directories m); length (CastoreProto.files m); length (CastoreProto.symlinks m)];
  blake3 bs := take 32 (bs ++ replicate 32 Byte.x00);
|}.
#[local] Instance file_hash : Blake3 := λ bs, z2b (Z.of_nat (length bs)) :: replicate 31 Byte.x00.

#[local] Instance example_digests : DigestLaws.
Proof.
  split; [|done]. intros x. unfold blake3, dir_hash. rewrite length_take, length_app, length_replicate. lia.
Qed.

Definition sample : tree :=
  TDir [(B "bin", TDir [(B "run", TFile true (B "#!")); (B "sh", TSymlink (B "run"))]); (B "doc", TDir []);
        (B "lib", TDir [(B "run", TFile true (B "#!")); (B "sh", TSymlink (B "run"))]); (B "src", TDir [(B "a", TDir [])])].

Lemma sample_ok : tree_ok sample.
Proof.
  repeat (split; [first [done | cbn; lia | by apply (bool_decide_unpack _); vm_compute] |]); cbn; try done.
Qed.

Lemma sample_fits : fits sample.
Proof.
  assert (Forall (λ d, recorded_size d ≤ u64_MAX)%Z (dirs_of sample)) as H by (by apply (bool_decide_unpack _); vm_compute).
  intros d Hd. by eapply Forall_forall in H.
Qed.

Lemma sample_collision_free : collision_free (dirs_of sample).
Proof.
  assert (Forall (λ a, Forall (λ b, digest a = digest b → a = b) (dirs_of sample)) (dirs_of sample)) as H.
  { by apply (bool_decide_unpack _); vm_compute. }
  intros a b Ha Hb. eapply Forall_forall in H; [|exact Ha]. by eapply Forall_forall in H.
Qed.

Definition empty : MemoryDirectoryService := DirectoryService.mkMemory ∅.
Lemma none_ok : mem_ok empty.
Proof. intros dg m. cbn. by rewrite lookup_empty. Qed.

Lemma ingest_tree_witness :
  ∃ s', ingest_entries (DirectoryService0 := Memory_DirectoryService true) (E := unit) true (inr <$> tree_entries (B "root") sample) empty = (Ok (castore_of sample), s') ∧
    mem_ok s' ∧ (∀ d, d ∈ dirs_of sample → dir_of s' (digest d) = Some d) ∧
    ∀ dg, dg ∉ digest <$> dirs_of sample → dir_of s' dg = dir_of empty dg.
Proof.
  apply (ingest_tree true (B "root") sample empty); [|apply sample_ok|apply sample_fits|apply sample_collision_free|apply none_ok].
  by apply entry_name_ok_name, (bool_decide_unpack _); vm_compute.
Defined.

End Examples.
