(* ===== verification/UploadSpec.v ===== *)
(** * What the blob uploader does

    That [upload] and [join] of [castore/src/import/blobs.rs] leave every
    file that was uploaded in the blob service, in whatever order the tasks
    finish. *)

From stdpp Require Import strings gmap.
From S2P Require Import Prelude Io Castore BlobService AsyncIo Ingest.
#[local] Open Scope nat_scope.

(** ** Streams *)

(** What the polls of a reader deliver until its end. *)
Inductive streams {S} (rd : nat → poll S bytes) (cap : nat) : S → bytes → S → Prop :=
| streams_end s s' : rd cap s = (Some (Ok []), s') → streams rd cap s [] s'
| streams_wait s s1 data s' : rd cap s = (None, s1) → streams rd cap s1 data s' → streams rd cap s data s'
| streams_chunk s s1 b bs data s' :
    rd cap s = (Some (Ok (b :: bs)), s1) → streams rd cap s1 data s' → streams rd cap s ((b :: bs) ++ data) s'.

(** [inv w bs]: the writer has taken [bs], and takes whatever comes. *)
Definition takes_all {W} (wr : bytes → W → outcome ErrorKind W) (inv : W → bytes → Prop) : Prop :=
  ∀ w bs b, inv w bs → ∃ w', wr b w = Ok w' ∧ inv w' (bs ++ b).

Lemma copy_streams {S W} (rd : nat → poll S bytes) (wr : bytes → W → outcome ErrorKind W) inv cap s data s' amt w pre :
  takes_all wr inv → streams rd cap s data s' → inv w pre →
  ∃ f0 w', (∀ f, f0 ≤ f → copy rd wr cap f amt w s = Some (Ok ((amt + Z.of_nat (length data))%Z, w'), s')) ∧ inv w' (pre ++ data).
Proof.
  intros Hwr Hs. revert amt w pre. induction Hs as [s s' E|s s1 data s' E _ IH|s s1 b bs data s' E _ IH]; intros amt w pre Hw.
  - exists 1, w. rewrite app_nil_r. split; [|done]. intros [|f] ?; [lia|]. cbn. rewrite E. by rewrite Z.add_0_r.
  - destruct (IH amt w pre Hw) as (f0 & w' & Hrun & Hw'). exists (Datatypes.S f0), w'. split; [|done].
    intros [|f] ?; [lia|]. cbn. rewrite E. apply Hrun. lia.
  - destruct (Hwr w pre (b :: bs) Hw) as (w1 & Ew & Hw1).
    destruct (IH (amt + Z.of_nat (length (b :: bs)))%Z w1 _ Hw1) as (f0 & w' & Hrun & Hw'). exists (Datatypes.S f0), w'.
    split; [|by rewrite app_assoc]. intros [|f] ?; [lia|]. cbn [copy]. rewrite E, Ew, Hrun by lia.
    rewrite length_app. do 4 f_equal. lia.
Qed.

(** Conversely, what was copied was delivered. *)
Lemma copy_Ok {S W} (rd : nat → poll S bytes) (wr : bytes → W → outcome ErrorKind W) inv cap f s s' amt n w w' pre :
  takes_all wr inv → inv w pre → copy rd wr cap f amt w s = Some (Ok (n, w'), s') →
  ∃ data, streams rd cap s data s' ∧ n = (amt + Z.of_nat (length data))%Z ∧ inv w' (pre ++ data).
Proof.
  intros Hwr. revert amt w pre s. induction f as [|f IH]; intros amt w pre s Hw; [done|]. cbn [copy].
  destruct (rd cap s) as [[[[|b bs]|e|]|] s1] eqn:E; [|..|done|done|].
  - intros [= -> -> ->]. exists []. rewrite app_nil_r, Z.add_0_r. split_and!; [by apply streams_end|done|done].
  - destruct (Hwr w pre (b :: bs) Hw) as (w1 & -> & Hw1). intros (data & Hs & -> & Hw')%(IH _ _ _ _ Hw1).
    exists ((b :: bs) ++ data). rewrite app_assoc. split_and!; [by eapply streams_chunk| |done]. rewrite length_app. lia.
  - intros (data & Hs & -> & Hw')%(IH _ _ _ _ Hw). exists data. split_and!; [by eapply streams_wait|done|done].
Qed.

Lemma to_vec_takes : takes_all to_vec (=).
Proof. intros w bs b ->. by eexists. Qed.

(** A reader that is always ready delivers what it has. *)
Lemma ready_streams `{AsyncReadLaws R} cap (r : R) : 0 < cap → ending r = Ok tt → ∃ r', streams ready cap r (unread r) r'.
Proof.
  intros Hcap. remember (length (unread r)) as n eqn:Hn. revert r Hn. induction (lt_wf n) as [n _ IH]. intros r -> He.
  pose proof (poll_read_spec cap r) as Hp. destruct (poll_read cap r) as [[bs|e|] r1] eqn:E.
  - destruct Hp as (Hl & Hu & He1 & Hend). destruct bs as [|b bs].
    + destruct (Hend eq_refl) as [|[-> _]]; [lia|]. exists r1. apply streams_end. unfold ready. by rewrite E.
    + destruct (IH (length (unread r1))) with (r := r1) as [r' Hr']; [rewrite Hu, length_app; cbn; lia|done|by rewrite He1|].
      exists r'. rewrite Hu. eapply streams_chunk; [unfold ready; by rewrite E|done].
  - destruct Hp as [_ Hp]. cbn in Hp. by rewrite He in Hp.
  - destruct Hp as [_ Hp]. cbn in Hp. by rewrite He in Hp.
Qed.

(** ** Writers *)

(** The service has what it had, something for every blob of [l], and nothing
    else. *)
Record stores `{BlobServiceLaws BS R, !Blake3} (l : list bytes) (s s' : BS) : Prop := {
  stores_old dg x : blob_of s dg = Some x → blob_of s' dg = Some x;
  stores_new x : x ∈ l → is_Some (blob_of s' (blake3_hash x));
  stores_only dg x : blob_of s' dg = Some x → blob_of s dg = Some x ∨ x ∈ l ∧ blake3_hash x = dg;
}.

(** What a writer promises: it takes all bytes, and leaves them in the service. *)
Class BlobWriterLaws (BS R W : Type) `{BlobServiceLaws BS R, !BlobWriter BS W, !Blake3} := {
  written : W → bytes → Prop;
  open_write_spec s : written (open_write s) [];
  write_blob_spec : takes_all write_blob written;
  close_blob_spec w bs s : written w bs → ∃ s', close_blob w s = (Ok (blake3_hash bs), s') ∧ stores [bs] s s';
}.

#[global] Program Instance MemoryBlobWriterLaws `{Blake3} : BlobWriterLaws MemoryBlobService Cursor MemoryBlobWriter := {|
  written w bs := writers w = Some bs;
|}.
Next Obligation. done. Qed.
Next Obligation. intros H w bs b Hw. cbn. unfold poll_write. rewrite Hw. by eexists. Qed.
Next Obligation.
  intros H w bs s Hw. cbn. unfold close_writer. rewrite Hw. eexists. split; [done|]. case_bool_decide as Hb.
  - split; cbn; [done|by intros x ->%list_elem_of_singleton|by left].
  - split; cbn.
    + intros dg x Hx. rewrite lookup_insert_ne; [done|]. intros <-. destruct Hb. by exists x.
    + intros x ->%list_elem_of_singleton. rewrite lookup_insert_eq. by exists bs.
    + intros dg x [[<- <-]|[_ ?]]%lookup_insert_Some; [right; set_solver|by left].
Qed.

Section Stores.
Context `{BlobServiceLaws BS R, !Blake3}.
Implicit Types (s : BS) (l : list bytes).

Lemma stores_nil s : stores [] s s.
Proof. split; [done|by intros x ?%elem_of_nil|by left]. Qed.

Lemma stores_app l1 l2 s1 s2 s3 : stores l1 s1 s2 → stores l2 s2 s3 → stores (l1 ++ l2) s1 s3.
Proof.
  intros Ha Hb. split.
  - intros dg x Hx. by apply Hb, Ha.
  - intros x [Hx|Hx]%elem_of_app; [|by apply Hb]. destruct (stores_new _ _ _ Ha x Hx) as [y Hy]. exists y. by apply Hb.
  - intros dg x [Hx|[Hx ?]]%(stores_only _ _ _ Hb); [|right; set_solver].
    apply (stores_only _ _ _ Ha) in Hx as [?|[? ?]]; [by left|right; set_solver].
Qed.

#[global] Instance stores_perm : Proper ((≡ₚ) ==> (=) ==> (=) ==> iff) stores.
Proof.
  intros l l' Hl s ? <- s' ? <-. split; intros [Ho Hn Hi]; split; try done.
  - intros x. rewrite <- Hl. apply Hn.
  - intros dg x. rewrite <- Hl. apply Hi.
  - intros x. rewrite Hl. apply Hn.
  - intros dg x. rewrite Hl. apply Hi.
Qed.

(** A blob that is there already. *)
Lemma stores_present b s : is_Some (blob_of s (blake3_hash b)) → stores [b] s s.
Proof. intros Hb. split; [done|by intros x ->%list_elem_of_singleton|by left]. Qed.

(** Without collisions, each blob is there under its digest. *)
Lemma stores_blob l s s' b :
  stores l s s' → b ∈ l → (∀ a, a ∈ l → blake3_hash a = blake3_hash b → a = b) →
  (∀ c, blob_of s (blake3_hash b) = Some c → c = b) → blob_of s' (blake3_hash b) = Some b.
Proof.
  intros Hs Hb Hl Hc. destruct (stores_new _ _ _ Hs b Hb) as [x Hx]. rewrite Hx. f_equal.
  apply (stores_only _ _ _ Hs) in Hx as [Hx|[Hx Hd]]; [by apply Hc|by apply Hl].
Qed.
End Stores.

(** ** The uploader *)

Section Uploads.
Context {BS R W : Type} `{BlobWriterLaws BS R W}.
Context (cap : nat) (Hcap : 0 < cap).
Implicit Types (s : BS) (u : Uploader BS).

Lemma upload_blob_stores {S} (rd : nat → poll S bytes) path (st st' : S) data s :
  streams rd cap st data st' →
  ∃ f0 s', (∀ f, f0 ≤ f → upload_blob cap rd path (Z.of_nat (length data)) f s st = Some (Ok (blake3_hash data), st', s')) ∧ stores [data] s s'.
Proof.
  intros Hst. destruct (copy_streams rd write_blob written cap st data st' 0 (open_write s) [] write_blob_spec Hst (open_write_spec s))
    as (f0 & w & Hrun & Hw). destruct (close_blob_spec _ _ s Hw) as (s' & Hclose & Hs'). exists f0, s'. split; [|done].
  intros f Hf. unfold upload_blob. rewrite Hrun by done. rewrite Hclose. cbn [app]. by rewrite Z.add_0_l, Z.eqb_refl.
Qed.

(** A task stores its file. *)
Lemma run_task_stores path data s :
  ∃ f0 s', (∀ f, f0 ≤ f → run_task cap f (path, blake3_hash data, data) s = Some (Ok tt, s')) ∧ stores [data] s s'.
Proof.
  destruct (cursor_opened data) as (Hu & He & _). destruct (ready_streams cap (mkCursor data 0) Hcap He) as [c Hc]. rewrite Hu in Hc.
  destruct (upload_blob_stores ready path _ _ data s Hc) as (f0 & s' & Hrun & Hs').
  unfold run_task. rewrite has_spec. case_bool_decide as Hb.
  - exists 0, s. split; [done|by apply stores_present].
  - exists f0, s'. split; [|done]. intros f Hf. rewrite Hrun by done. by rewrite bool_decide_eq_true_2.
Qed.

(** The digest of a task is that of its contents. *)
Definition task_ok (t : bytes * bytes * bytes) : Prop := t.1.2 = blake3_hash t.2.

Lemma run_tasks_stores tasks s :
  Forall task_ok tasks → ∃ f0 s', (∀ f, f0 ≤ f → run_tasks cap f tasks s = Some (Ok tt, s')) ∧ stores tasks.*2 s s'.
Proof.
  intros Ht. revert s. induction Ht as [|[[path dg] data] tasks Hdg _ IH]; intros s; [exists 0, s; split; [done|apply stores_nil]|].
  unfold task_ok in Hdg. cbn in Hdg. subst dg. destruct (run_task_stores path data s) as (f1 & s1 & Hrun1 & Hs1). destruct (IH s1) as (f2 & s2 & Hrun2 & Hs2).
  exists (f1 `max` f2), s2. split; [|exact (stores_app [data] _ _ _ _ Hs1 Hs2)].
  intros f Hf. cbn [run_tasks]. rewrite Hrun1, Hrun2 by lia. done.
Qed.

(** From [u] to [u'] the files of [l] were uploaded: some are in the service,
    the others are in tasks. *)
Definition uploads (l : list bytes) (u u' : Uploader BS) : Prop :=
  ∃ now tasks, l ≡ₚ now ++ tasks.*2 ∧ Forall task_ok tasks ∧ upload_tasks u' = upload_tasks u ++ tasks ∧
    stores now (service u) (service u').

Lemma uploads_nil u : uploads [] u u.
Proof. exists [], []. split_and!; [done|done|by rewrite app_nil_r|apply stores_nil]. Qed.

Lemma uploads_app l1 l2 u1 u2 u3 : uploads l1 u1 u2 → uploads l2 u2 u3 → uploads (l1 ++ l2) u1 u3.
Proof.
  intros (n1 & t1 & Hl1 & Ht1 & E1 & Hs1) (n2 & t2 & Hl2 & Ht2 & E2 & Hs2). exists (n1 ++ n2), (t1 ++ t2). split_and!.
  - rewrite Hl1, Hl2, fmap_app. solve_Permutation.
  - by apply Forall_app.
  - by rewrite E2, E1, app_assoc.
  - by eapply stores_app.
Qed.

Lemma upload_uploads {S} (rd : nat → poll S bytes) path (st st' : S) data u :
  streams rd cap st data st' →
  ∃ f0 u', (∀ f, f0 ≤ f → upload cap rd path (Z.of_nat (length data)) f u st = Some (Ok (blake3_hash data), st', u')) ∧ uploads [data] u u'.
Proof.
  intros Hst. unfold upload. destruct (_ <? _)%Z.
  - destruct (copy_streams rd to_vec (=) cap st data st' 0 [] [] to_vec_takes Hst eq_refl) as (f0 & w & Hrun & ->).
    exists f0, (mkUploader (service u) (upload_tasks u ++ [(path, blake3_hash data, data)])).
    split; [intros f Hf; rewrite Hrun by done; cbn [app]; by rewrite Z.add_0_l, Z.eqb_refl|].
    exists [], [(path, blake3_hash data, data)]. split_and!; [done|by constructor|done|apply stores_nil].
  - destruct (upload_blob_stores rd path st st' data (service u) Hst) as (f0 & s' & Hrun & Hs').
    exists f0, (mkUploader s' (upload_tasks u)). split; [intros f Hf; by rewrite Hrun|].
    exists [data], []. split_and!; [done|done|by rewrite app_nil_r|done].
Qed.

(** What was uploaded was delivered, with the size that was expected. *)
Lemma upload_Ok {S} (rd : nat → poll S bytes) path size f u u' (st st' : S) dg :
  upload cap rd path size f u st = Some (Ok dg, st', u') →
  ∃ data, streams rd cap st data st' ∧ size = Z.of_nat (length data) ∧ dg = blake3_hash data.
Proof.
  unfold upload, upload_blob. destruct (_ <? _)%Z.
  - destruct (copy rd to_vec cap f 0 [] st) as [[[[n v]| |] st1]|] eqn:E; [|done..].
    destruct (copy_Ok rd to_vec (=) _ _ _ _ _ _ _ _ [] to_vec_takes eq_refl E) as (data & Hs & -> & ->).
    destruct (Z.eqb_spec (0 + Z.of_nat (length data)) size) as [<-|]; [|done]. intros [= <- <- <-]. eauto.
  - destruct (copy rd write_blob cap f 0 (open_write (service u)) st) as [[[[n w]| |] st1]|] eqn:E; [|done..].
    destruct (copy_Ok rd write_blob written _ _ _ _ _ _ _ _ [] write_blob_spec (open_write_spec _) E) as (data & Hs & -> & Hw).
    destruct (close_blob_spec _ _ (service u) Hw) as (s' & -> & _).
    destruct (Z.eqb_spec (0 + Z.of_nat (length data)) size) as [<-|]; [|done]. intros [= <- <- <-]. eauto.
Qed.

(** After [join] all files are in the service, in whatever order the tasks ended. *)
Lemma join_stores `{ScheduleLaws} l s u :
  uploads l (mkUploader s []) u →
  ∃ f0 s', (∀ f, f0 ≤ f → join cap f u = Some (Ok tt, s')) ∧ stores l s s'.
Proof.
  intros (now & tasks & Hl & Ht & Etasks & Hs). cbn in Etasks, Hs.
  destruct (run_tasks_stores (schedule (upload_tasks u)) (service u)) as (f0 & s' & Hrun & Hs').
  { rewrite Etasks. by rewrite schedule_perm. }
  exists f0, s'. split; [done|]. rewrite Hl. eapply stores_app; [done|].
  rewrite <- (fmap_Permutation snd _ _ (schedule_perm tasks)), <- Etasks. done.
Qed.

End Uploads.
