(* ===== verification/RefScan.v ===== *)
(** * [castore/src/refscan.rs]: scanning for references

    A scanner that looks for the candidates of a pattern, and a reader that
    scans all that is read through it. The search itself is the [wu_manber]
    crate, a class with a left-to-right search as its instance. *)

From stdpp Require Import strings.
From S2P Require Import Prelude Io BTreeMap AsyncIo Ingest UploadSpec.
#[local] Open Scope nat_scope.

(** ** [wu_manber] *)

(** [c] is in [h] at [p]. *)
Definition occurs (c : bytes) (p : nat) (h : bytes) : Prop := p + length c ≤ length h ∧ take (length c) (drop p h) = c.

#[global] Instance occurs_dec c p h : Decision (occurs c p h).
Proof. apply _. Defined.

(** No other occurrence in [h] overlaps that of the candidate [i] at [p]. *)
Definition alone (cs : list bytes) (h : bytes) (i p : nat) : Prop :=
  ∀ c j c' q, cs !! i = Some c → cs !! j = Some c' → occurs c' q h →
    q < p + length c → p < q + length c' → j = i ∧ q = p.

(** [TwoByteWM::new] and [find]: the patterns of the matches, from left to right. *)
Class WuManber := wm_find : list bytes → bytes → list nat.

(** Patterns of two bytes or more are found where they are, and all of them are
    but for those that overlap others. *)
Class WuManberLaws `{WuManber} : Prop := {
  wm_sound cs h i : Forall (λ c, 2 ≤ length c) cs → i ∈ wm_find cs h → ∃ c p, cs !! i = Some c ∧ occurs c p h;
  wm_complete cs h i c p : Forall (λ c, 2 ≤ length c) cs → cs !! i = Some c → occurs c p h → alone cs h i p → i ∈ wm_find cs h;
}.

(** ** The scanner *)

Section RefScan.
Context `{WuManber}.
(** The build profile. *)
Context (dbg : bool).

Record ReferencePattern := mkPattern { candidates : list bytes; longest_candidate : nat }.

(** [ReferencePattern::new] *)
Definition pattern_new (candidates : list bytes) : ReferencePattern :=
  mkPattern candidates (foldl (λ v c, v `max` length c) 0 candidates).

Record ReferenceScanner := mkScanner { pattern : ReferencePattern; matches : list bool }.

(** [ReferenceScanner::new] *)
Definition scanner_new (pattern : ReferencePattern) : ReferenceScanner :=
  mkScanner pattern (replicate (length (candidates pattern)) false).

(** [self.matches[m.pat_idx].store(true)] for every match *)
Fixpoint store_matches (found : list nat) (matches : list bool) : outcome ErrorKind (list bool) :=
  match found with
  | [] => Ok matches
  | pat_idx :: found =>
      if length matches <=? pat_idx then Panic else store_matches found (<[pat_idx := true]> matches)
  end.

(** [ReferenceScanner::scan] *)
Definition scan (self : ReferenceScanner) (haystack : bytes) : outcome ErrorKind ReferenceScanner :=
  if length haystack <? longest_candidate (pattern self) then Ok self else
  match candidates (pattern self) with
  | [] => Ok self
  | cs =>
      let? m := store_matches (wm_find cs haystack) (matches self) in
      Ok (mkScanner (pattern self) m)
  end.

(** [ReferenceScanner::candidate_matches] *)
Definition candidate_matches (self : ReferenceScanner) : list bytes :=
  omap (λ x, match x with (c, found) => if found : bool then Some c else None end) (zip (candidates (pattern self)) (matches self)).

(** [ReferenceScanner::finalise] *)
Definition finalise (self : ReferenceScanner) : BTreeSet bytes := bs_of_list (candidate_matches self).

(** ** The reader *)

Definition DEFAULT_BUF_SIZE : nat := 8 * 1024.

(** The buffer holds at most [capacity] bytes. *)
Record ReferenceReader := mkReader {
  scanner : ReferenceScanner;
  capacity : nat;
  buffer : bytes;
  consumed : nat;
  reader : areader;
}.

(** [ReferenceReader::with_capacity] *)
Definition with_capacity (cap : nat) (scanner : ReferenceScanner) (r : areader) : ReferenceReader :=
  mkReader scanner (cap `max` longest_candidate (pattern scanner)) [] 0 r.

Definition set_buffer (self : ReferenceReader) (buffer : bytes) (consumed : nat) (r : areader) : ReferenceReader :=
  mkReader (scanner self) (capacity self) buffer consumed r.

(** [longest_candidate().checked_sub(1).unwrap_or(0)] *)
Definition overlap_of (self : ReferenceReader) : nat := longest_candidate (pattern (scanner self)) - 1.

(** Moves the last [overlap] bytes to the front, if all was consumed and more than that. *)
Definition keep_overlap (self : ReferenceReader) : ReferenceReader :=
  let overlap := overlap_of self in
  if overlap <? consumed self then
    set_buffer self (drop (length (buffer self) - overlap) (buffer self)) overlap (reader self)
  else self.

(** The loop that reads until there is more than the overlap; every turn but the
    last reads something, so that [turns] bounds their number. *)
Fixpoint read_turns (turns : nat) (self : ReferenceReader) : option (outcome ErrorKind unit) * ReferenceReader :=
  match turns with
  | O => (Some Panic, self)
  | S turns =>
      match apoll_read (capacity self - length (buffer self)) (reader self) with
      | (None, r) => (None, set_buffer self (buffer self) (consumed self) r)
      | (Some (Err e), r) => (Some (Err e), set_buffer self (buffer self) (consumed self) r)
      | (Some Panic, r) => (Some Panic, set_buffer self (buffer self) (consumed self) r)
      | (Some (Ok filled), r) =>
          let self := set_buffer self (buffer self ++ filled) (consumed self) r in
          if (length filled =? 0) || (overlap_of self <? length (buffer self)) then (Some (Ok tt), self)
          else read_turns turns self
      end
  end.

(** [AsyncBufRead::poll_fill_buf] *)
Definition poll_fill_buf : poll ReferenceReader bytes := λ self,
  if consumed self <? length (buffer self) then (Some (Ok (drop (consumed self) (buffer self))), self) else
  let self := keep_overlap self in
  match read_turns (S (S (overlap_of self))) self with
  | (None, self) => (None, self)
  | (Some (Err e), self) => (Some (Err e), self)
  | (Some Panic, self) => (Some Panic, self)
  | (Some (Ok _), self) =>
      match scan (scanner self) (buffer self) with
      | Ok scanner =>
          (Some (Ok (drop (consumed self) (buffer self))),
           mkReader scanner (capacity self) (buffer self) (consumed self) (reader self))
      | Err e => (Some (Err e), self)
      | Panic => (Some Panic, self)
      end
  end.

(** [AsyncBufRead::consume] *)
Definition consume (amt : nat) (self : ReferenceReader) : outcome ErrorKind ReferenceReader :=
  if dbg && (length (buffer self) <? consumed self + amt) then Panic else
  Ok (set_buffer self (buffer self) (consumed self + amt) (reader self)).

(** [AsyncRead::poll_read] into a buffer with room for [n] bytes *)
Definition poll_read (n : nat) : poll ReferenceReader bytes := λ self,
  match poll_fill_buf self with
  | (Some (Ok internal_buf), self) =>
      let amt := n `min` length internal_buf in
      match consume amt self with
      | Ok self => (Some (Ok (take amt internal_buf)), self)
      | Err e => (Some (Err e), self)
      | Panic => (Some Panic, self)
      end
  | (Some (Err e), self) => (Some (Err e), self)
  | (Some Panic, self) => (Some Panic, self)
  | (None, self) => (None, self)
  end.

End RefScan.

(** ** What scanning finds *)

(** The candidate [i] is somewhere in [h]. *)
Definition found_in (cs : list bytes) (h : bytes) (i : nat) : Prop := ∃ c p, cs !! i = Some c ∧ occurs c p h.

Lemma occurs_app c p h h' : occurs c p h → occurs c p (h ++ h').
Proof.
  intros [Hl Ht]. split; [rewrite length_app; lia|]. rewrite drop_app_le by lia. by rewrite take_app_le by (rewrite length_drop; lia).
Qed.

Lemma occurs_suffix c p h pre : occurs c p h ↔ occurs c (length pre + p) (pre ++ h).
Proof.
  unfold occurs. rewrite drop_app_ge by lia. rewrite length_app. replace (length pre + p - length pre) with p by lia.
  split; intros [? ?]; (split; [lia|done]).
Qed.

(** An occurrence that begins in the second part. *)
Lemma occurs_app_r c p pre h : length pre ≤ p → occurs c p (pre ++ h) → occurs c (p - length pre) h.
Proof. intros Hp Ho. apply (occurs_suffix c (p - length pre) h pre). by replace (length pre + (p - length pre)) with p by lia. Qed.

Lemma occurs_take c p h h' : occurs c p (h ++ h') → p + length c ≤ length h → occurs c p h.
Proof.
  intros [_ Ht] Hl. split; [done|]. rewrite drop_app_le in Ht by lia. by rewrite take_app_le in Ht by (rewrite length_drop; lia).
Qed.

Lemma found_in_app cs h h' i : found_in cs h i → found_in cs (h ++ h') i.
Proof. intros (c & p & Hc & Ho). exists c, p. split; [done|by apply occurs_app]. Qed.

Lemma found_in_suffix cs h pre i : found_in cs h i → found_in cs (pre ++ h) i.
Proof. intros (c & p & Hc & Ho). exists c, (length pre + p). split; [done|by apply occurs_suffix]. Qed.

Lemma alone_part cs pre h post i p : alone cs (pre ++ h ++ post) i (length pre + p) → alone cs h i p.
Proof.
  intros Ha c j c' q Hc Hc' Ho' H1 H2.
  destruct (Ha c j c' (length pre + q)) as [-> ?]; [done|done|apply occurs_suffix, occurs_app; done|lia|lia|split; [done|lia]].
Qed.

Lemma longest_spec cs : longest_candidate (pattern_new cs) = foldr (λ c v, length c `max` v) 0 cs.
Proof.
  unfold pattern_new. cbn. assert (∀ v, foldl (λ v c, v `max` length c) v cs = v `max` foldr (λ c v, length c `max` v) 0 cs) as ->; [|lia].
  induction cs as [|c cs IH]; intros v; cbn; [lia|]. rewrite IH. lia.
Qed.

Lemma longest_elem cs i c : cs !! i = Some c → length c ≤ longest_candidate (pattern_new cs).
Proof.
  rewrite longest_spec. revert i. induction cs as [|c' cs IH]; intros [|i]; cbn; [done..|intros [= ->]; lia|]. intros Hc%IH. lia.
Qed.

Lemma store_matches_spec found m :
  Forall (λ i, i < length m) found → ∃ m', store_matches found m = Ok m' ∧ length m' = length m ∧
    ∀ i, m' !! i = Some true ↔ m !! i = Some true ∨ i ∈ found.
Proof.
  revert m. induction found as [|i found IH]; intros m; [intros _; exists m; set_solver|]. intros [Hi Hf]%Forall_cons. cbn.
  rewrite (proj2 (Nat.leb_gt _ _)) by done. destruct (IH (<[i := true]> m)) as (m' & E & Hl & Hm).
  { by rewrite length_insert. }
  exists m'. rewrite length_insert in Hl. split_and!; [done|done|]. intros k. rewrite Hm. destruct (decide (k = i)) as [->|].
  - rewrite list_lookup_insert_eq by done. set_solver.
  - rewrite list_lookup_insert_ne by done. set_solver.
Qed.

Lemma scan_eq `{WuManber} s h :
  longest_candidate (pattern s) ≤ length h → candidates (pattern s) ≠ [] →
  scan s h = (let? m := store_matches (wm_find (candidates (pattern s)) h) (matches s) in Ok (mkScanner (pattern s) m)).
Proof. intros Hl Hc. unfold scan. rewrite (proj2 (Nat.ltb_ge _ _)) by done. by destruct (candidates (pattern s)). Qed.

Section Scans.
Context `{WuManberLaws} (cs : list bytes) (Hcs : Forall (λ c, 2 ≤ length c) cs).
(** All that will have been read at the end. *)
Context (full : bytes).

(** A scanner for [cs] that has found nothing that is not in [h]. *)
Record scanner_ok (h : bytes) (s : ReferenceScanner) : Prop := {
  sc_pattern : pattern s = pattern_new cs;
  sc_length : length (matches s) = length cs;
  sc_sound i : matches s !! i = Some true → found_in cs h i;
}.

(** It has found all that is in [h], which begins at [off], but for what overlaps something else. *)
Definition scanned (off : nat) (h : bytes) (s : ReferenceScanner) : Prop :=
  ∀ i c p, cs !! i = Some c → occurs c p h → alone cs full i (off + p) → matches s !! i = Some true.

Lemma scanner_new_ok : scanner_ok [] (scanner_new (pattern_new cs)).
Proof. split; [done|by cbn; rewrite length_replicate|]. intros i Hi. by apply lookup_replicate in Hi as []. Qed.

(** Scanning a part of a text finds what is in the part. *)
Lemma scan_part pre h post s :
  scanner_ok (pre ++ h) s → full = pre ++ h ++ post →
  ∃ s', scan s h = Ok s' ∧ scanner_ok (pre ++ h) s' ∧ (∀ i, matches s !! i = Some true → matches s' !! i = Some true) ∧
    (longest_candidate (pattern_new cs) ≤ length h → scanned (length pre) h s') ∧ (length h < longest_candidate (pattern_new cs) → s' = s).
Proof.
  intros Hok Hfull. pose proof Hok as [Hp Hl Hs]. destruct (decide (longest_candidate (pattern_new cs) ≤ length h)) as [Hlong|Hlong].
  2:{ exists s. unfold scan. rewrite Hp, (proj2 (Nat.ltb_lt _ _)) by lia. split_and!; [done|done|done|lia|done]. }
  destruct (decide (cs = [])) as [Hnil|Hne].
  { exists s. unfold scan. rewrite Hp, (proj2 (Nat.ltb_ge _ _)) by done. rewrite Hnil at 1. cbn [candidates pattern_new].
    split_and!; [done|done|done| |done]. intros _ i c p Hc. by rewrite Hnil in Hc. }
  assert (Forall (λ i, i < length (matches s)) (wm_find cs h)) as Hin.
  { apply Forall_forall. intros i (c & p & Hc%lookup_lt_Some & _)%wm_sound; [|done]. lia. }
  destruct (store_matches_spec _ _ Hin) as (m' & E & Hl' & Hm).
  rewrite scan_eq by (by rewrite Hp). rewrite Hp. cbn [candidates pattern_new]. rewrite E. cbn [obind].
  eexists. split_and!; [done| | | |lia].
  - split; [done|cbn; lia|]. intros i [Hi|Hi]%Hm; [by apply Hs|]. apply wm_sound in Hi; [|done]. by apply found_in_suffix.
  - intros i Hi. apply Hm. by left.
  - intros _ i c p Hc Ho Ha. apply Hm. right. eapply wm_complete; [done|done|done|]. rewrite Hfull in Ha. by eapply alone_part.
Qed.

(** ** The reader *)

(** The state of a reader that has read [text]: the buffer is the end of it, at
    least as long as the overlap unless it is all of it; and it was scanned,
    unless it is all there and too short. *)
Record reader_ok (text : bytes) (st : ReferenceReader) : Prop := {
  rd_scanner : scanner_ok text (scanner st);
  rd_capacity : overlap_of st < capacity st;
  rd_consumed : consumed st ≤ length (buffer st) ≤ capacity st;
  rd_buffer : ∃ pre, text = pre ++ buffer st ∧ (pre = [] ∨ overlap_of st ≤ length (buffer st)) ∧
    (scanned 0 text (scanner st) ∨ pre = [] ∧ length (buffer st) ≤ overlap_of st);
}.

(** What was read and not consumed. *)
Definition unconsumed (st : ReferenceReader) : bytes := drop (consumed st) (buffer st).

Lemma scanner_ok_grow h h' s : scanner_ok h s → scanner_ok (h ++ h') s.
Proof. intros [? ? Hs]. split; [done..|]. intros i Hi. by apply found_in_app, Hs. Qed.

Lemma overlap_eq st text : scanner_ok text (scanner st) → overlap_of st = longest_candidate (pattern_new cs) - 1.
Proof. intros [Hp _ _]. unfold overlap_of. by rewrite Hp. Qed.

(** Nothing is lost with what is dropped from the buffer. *)
Lemma keep_overlap_ok text st :
  reader_ok text st → length (buffer st) ≤ consumed st →
  let st' := keep_overlap st in
  reader_ok text st' ∧ reader st' = reader st ∧ length (buffer st') ≤ overlap_of st' ∧ unconsumed st' = [] ∧ consumed st' = length (buffer st').
Proof.
  intros [Hsc Hcap Hcons (pre & -> & Hpre & Hb)] Hall. unfold keep_overlap. destruct (Nat.ltb_spec (overlap_of st) (consumed st)) as [Hlt|Hle].
  - assert (length (buffer st) - (length (buffer st) - overlap_of st) = overlap_of st) as Hl by lia.
    set (k := length (buffer st) - overlap_of st) in *. split_and!; [|done|..].
    + split; [done|done|cbn; rewrite length_drop; lia|]. exists (pre ++ take k (buffer st)). cbn.
      rewrite <- app_assoc, take_drop. split_and!; [done|right|left].
      { rewrite length_drop. change (overlap_of (set_buffer _ _ _ _)) with (overlap_of st). lia. }
      destruct Hb as [?|[-> ?]]; [done|lia].
    + cbn. rewrite length_drop. change (overlap_of (set_buffer _ _ _ _)) with (overlap_of st). lia.
    + unfold unconsumed. cbn. by rewrite drop_ge by (rewrite length_drop; lia).
    + cbn. rewrite length_drop. lia.
  - split_and!; [split; [done|done|done|eauto]|done|lia| |lia]. unfold unconsumed. by rewrite drop_ge by lia.
Qed.

(** The loop reads [ys] and leaves [zs]. *)
Lemma read_turns_spec turns st xs :
  rest (reader st) xs → overlap_of st < capacity st → length (buffer st) ≤ overlap_of st → S (overlap_of st) - length (buffer st) < turns →
  ∃ o ys zs r', read_turns turns st = (o, set_buffer st (buffer st ++ ys) (consumed st) r') ∧ xs = ys ++ zs ∧ rest r' zs ∧
    length (buffer st ++ ys) ≤ capacity st ∧ weight r' ≤ weight (reader st) ∧ (ys ≠ [] ∨ o = None → weight r' < weight (reader st)) ∧
    match o with
    | None => length (buffer st ++ ys) ≤ overlap_of st
    | Some (Ok _) => overlap_of st < length (buffer st ++ ys) ∧ ys ≠ [] ∨ length (buffer st ++ ys) ≤ overlap_of st ∧ zs = []
    | _ => False
    end.
Proof.
  intros Hr Hcap. revert st xs Hr Hcap. induction turns as [|turns IH]; intros st xs Hr Hcap Hl Ht; [lia|]. cbn [read_turns].
  destruct (apoll_read_case (capacity st - length (buffer st)) (reader st) xs) as [(r1 & E & Hr1 & Hw)|[(-> & E0 & E)|(b & bs & ys & r1 & E & -> & Hle & Hr1 & Hw)]];
    [lia|done|..]; rewrite E.
  - exists None, [], xs, r1. rewrite app_nil_r. split_and!; [done|done|done|lia|lia|lia|done].
  - cbn [length Nat.eqb orb]. exists (Some (Ok tt)), [], [], []. rewrite !app_nil_r. split_and!; [done|done|by rewrite E0 in Hr|lia|unfold weight at 1; cbn; lia| |by right].
    intros [|]; done.
  - cbn [length Nat.eqb orb]. set (st1 := set_buffer st (buffer st ++ b :: bs) (consumed st) r1).
    change (overlap_of st1) with (overlap_of st).
    assert (length (buffer st ++ b :: bs) = length (buffer st) + S (length bs)) as Hlen by (rewrite length_app; done).
    destruct (Nat.ltb_spec (overlap_of st) (length (buffer st1))) as [Hlt|Hge]; cbn [buffer st1 set_buffer] in *.
    + exists (Some (Ok tt)), (b :: bs), ys, r1. split_and!; [done|done|done|lia|lia|done|by left].
    + destruct (IH st1 ys) as (o & ys' & zs & r' & E' & -> & Hr' & Hc' & Hw1 & Hw2 & Ho); [done|done|done|cbn in *; change (overlap_of st1) with (overlap_of st); lia|].
      exists o, ((b :: bs) ++ ys'), zs, r'. cbn [buffer st1 set_buffer reader consumed capacity] in *. change (overlap_of st1) with (overlap_of st) in *.
      rewrite <- !app_assoc in *. split_and!; [exact E'|done|done|done|lia|lia|].
      destruct o as [[[]|e|]|]; [|done..]. destruct Ho as [[? ?]|[? ?]]; [left; by split|by right].
Qed.

(** The part that was read after the last scan. *)
Lemma scanned_more pre buf ys s s' :
  scanner_ok (pre ++ buf) s → scanned 0 (pre ++ buf) s ∨ pre = [] → pre = [] ∨ longest_candidate (pattern_new cs) - 1 ≤ length buf →
  (∀ i, matches s !! i = Some true → matches s' !! i = Some true) → scanned (length pre) (buf ++ ys) s' → scanned 0 ((pre ++ buf) ++ ys) s'.
Proof.
  intros Hok Hs Hpre Hmono Hs' i c p Hc Ho Ha. pose proof (longest_elem _ _ _ Hc) as Hl.
  destruct (decide (length pre ≤ p)) as [Hp|Hp].
  { rewrite <- app_assoc in Ho. apply (Hs' i c (p - length pre)); [done|by apply occurs_app_r|]. by replace (length pre + (p - length pre)) with (0 + p) by lia. }
  destruct Hpre as [->|Hpre]; [cbn in Hp; lia|]. destruct Hs as [Hs| ->]; [|cbn in Hp; lia]. apply Hmono, (Hs i c p); [done| |done]. apply (occurs_take _ _ _ ys); [done|]. rewrite length_app. lia.
Qed.

Lemma scanned_none text s : longest_candidate (pattern_new cs) = 0 → scanned 0 text s.
Proof.
  intros Hl i c p Hc _ _. pose proof (longest_elem _ _ _ Hc). eapply Forall_lookup_1 in Hcs; [|exact Hc]. cbn in Hcs. lia.
Qed.

Lemma poll_fill_buf_spec text st xs :
  reader_ok text st → rest (reader st) xs → full = text ++ xs →
  ∃ o ys zs st', poll_fill_buf st = (o, st') ∧ xs = ys ++ zs ∧ rest (reader st') zs ∧ reader_ok (text ++ ys) st' ∧
    unconsumed st' = unconsumed st ++ ys ∧ weight (reader st') ≤ weight (reader st) ∧
    (length (text ++ ys) < longest_candidate (pattern_new cs) → scanner st' = scanner st) ∧
    match o with
    | None => weight (reader st') < weight (reader st)
    | Some (Ok bs) => bs = unconsumed st' ∧ (ys ≠ [] → weight (reader st') < weight (reader st)) ∧
        (bs = [] → zs = [] ∧ (scanned 0 (text ++ ys) (scanner st') ∨ length (text ++ ys) < longest_candidate (pattern_new cs)))
    | _ => False
    end.
Proof.
  intros Hok Hr Ha. unfold poll_fill_buf. destruct (Nat.ltb_spec (consumed st) (length (buffer st))) as [Hlt|Hge].
  { exists (Some (Ok (unconsumed st))), [], xs, st. rewrite !app_nil_r. split_and!; try done.
    intros E. apply (f_equal length) in E. unfold unconsumed in E. rewrite length_drop in E. cbn in E. lia. }
  assert (scanner (keep_overlap st) = scanner st) as Esc by (unfold keep_overlap; by destruct (_ <? _)).
  destruct (keep_overlap_ok text st Hok Hge) as (Hok1 & Er & Hlen & Hun & Hcons). set (st1 := keep_overlap st) in *.
  pose proof Hok1 as [Hsc Hcap Hc (pre & Htext & Hpre & Hb)]. rewrite (overlap_eq _ _ Hsc) in *.
  assert (unconsumed st = []) as -> by (unfold unconsumed; by rewrite drop_ge).
  destruct (read_turns_spec (S (S (overlap_of st1))) st1 xs) as (o & ys & zs & r' & E & -> & Hr' & Hc' & Hw & Hw' & Ho);
    [by rewrite Er|rewrite (overlap_eq _ _ Hsc); lia|rewrite (overlap_eq _ _ Hsc); lia|lia|].
  rewrite (overlap_eq _ _ Hsc) in *. rewrite Er in Hw, Hw'. rewrite E. set (st2 := set_buffer st1 _ _ _).
  assert (∀ s', scanner_ok (text ++ ys) s' → (∀ i, matches (scanner st1) !! i = Some true → matches s' !! i = Some true) →
    scanned 0 (text ++ ys) s' ∨ length (buffer st1 ++ ys) ≤ longest_candidate (pattern_new cs) - 1 →
    reader_ok (text ++ ys) (mkReader s' (capacity st2) (buffer st2) (consumed st2) (reader st2))) as Hmk.
  { intros s' Hs' Hmono Hsc'. pose proof (overlap_eq (mkReader s' (capacity st2) (buffer st2) (consumed st2) (reader st2)) _ Hs') as Ho'.
    split; [done|by rewrite Ho'|cbn; rewrite length_app in *; lia|]. rewrite Ho'. exists pre. cbn [buffer scanner st2 set_buffer]. split_and!.
    - by rewrite app_assoc, <- Htext.
    - destruct Hpre as [|]; [by left|right; rewrite length_app; lia].
    - destruct Hsc' as [?|Hshort]; [by left|]. destruct Hpre as [Hnil|Hpre]; [by right|].
      rewrite length_app in Hshort. destruct ys; [|cbn [length] in Hshort; lia]. rewrite !app_nil_r in *.
      destruct Hb as [Hb|[? ?]]; [left|right; by split]. intros i c p ? ? ?. by eapply Hmono, Hb. }
  assert (drop (consumed st1) (buffer st1 ++ ys) = ys) as Hdrop by (by rewrite Hcons, drop_app_length).
  destruct o as [[[]|e|]|]; [|done..|].
  2:{ exists None, ys, zs, st2. split_and!; [done|done|done| |done|done|intros _; exact Esc|cbn; apply Hw'; by right].
      exact (Hmk (scanner st1) (scanner_ok_grow _ _ _ Hsc) (λ _ Hi, Hi) (or_intror Ho)). }
  assert (scanner_ok (pre ++ (buffer st1 ++ ys)) (scanner st1)) as Hsc2.
  { rewrite app_assoc, <- Htext. by apply scanner_ok_grow. }
  change (scan (scanner st2) (buffer st2)) with (scan (scanner st1) (buffer st1 ++ ys)).
  destruct (scan_part pre (buffer st1 ++ ys) zs (scanner st1) Hsc2) as (s' & -> & Hs' & Hmono & Hall & Hsame).
  { by rewrite Ha, Htext, <- !app_assoc. }
  rewrite app_assoc, <- Htext in Hs'.
  exists (Some (Ok (unconsumed (mkReader s' (capacity st2) (buffer st2) (consumed st2) (reader st2))))), ys, zs, (mkReader s' (capacity st2) (buffer st2) (consumed st2) (reader st2)).
  split_and!; [done|done|done| |done|done| |done|intros; apply Hw'; by left|].
  2:{ rewrite Htext, <- app_assoc, length_app. intros Hshort. cbn [scanner]. rewrite Hsame by lia. exact Esc. }
  - apply Hmk; [done|done|]. destruct Ho as [[Hlong _]|[Hshort _]]; [left|by right]. rewrite Htext.
    apply (scanned_more _ _ _ (scanner st1)); [by rewrite <- Htext|rewrite <- Htext; naive_solver|done|done|apply Hall; lia].
  - intros E0. unfold unconsumed in E0. cbn [buffer consumed st2 set_buffer] in E0. rewrite Hdrop in E0. subst ys.
    destruct Ho as [[_ ?]|[Hshort ->]]; [done|]. split; [done|]. rewrite !app_nil_r in *. cbn [scanner].
    destruct (decide (longest_candidate (pattern_new cs) = 0)) as [|Hz]; [left; by apply scanned_none|].
    destruct Hb as [Hb|[-> _]]; [left; intros i c p ? ? ?; by eapply Hmono, Hb|right]. rewrite Htext. cbn [app]. lia.
Qed.

(** Reading on to the end. *)
Lemma reader_streams dbg n text st xs :
  0 < n → reader_ok text st → rest (reader st) xs → full = text ++ xs →
  ∃ st', streams (poll_read dbg) n st (unconsumed st ++ xs) st' ∧ reader_ok (text ++ xs) st' ∧
    (scanned 0 (text ++ xs) (scanner st') ∨ length (text ++ xs) < longest_candidate (pattern_new cs)) ∧
    (length (text ++ xs) < longest_candidate (pattern_new cs) → scanner st' = scanner st).
Proof.
  intros Hn. remember (weight (reader st)) as w eqn:Ew. revert text st xs Ew. induction (lt_wf w) as [w _ IHw].
  intros text st xs. remember (length (unconsumed st)) as k eqn:Ek. revert text st xs Ek. induction (lt_wf k) as [k _ IHk].
  intros text st xs -> -> Hok Hr Ha. destruct (poll_fill_buf_spec text st xs Hok Hr Ha) as (o & ys & zs & st1 & E & -> & Hr1 & Hok1 & Hun & Hw & Hsame & Ho).
  rewrite app_assoc in Ha. destruct o as [[bs|e|]|]; [|done..|].
  2:{ destruct (IHw _ Ho (text ++ ys) st1 zs eq_refl Hok1 Hr1 Ha) as (st' & Hs & Hok' & Hf & Hsame'). exists st'. rewrite Hun, <- app_assoc in Hs.
      rewrite (app_assoc text). split_and!; [|done|done|].
      - eapply streams_wait; [|exact Hs]. unfold poll_read. by rewrite E.
      - intros Hshort. rewrite Hsame' by done. apply Hsame. rewrite length_app in Hshort. lia. }
  destruct Ho as (Hbs & Hw1 & Hend). destruct (decide (bs = [])) as [Hnil|Hne].
  { destruct (Hend Hnil) as [-> Hf]. rewrite Hnil in Hbs. rewrite <- Hbs in Hun. symmetry in Hun. apply app_nil in Hun as [Hu ->].
    rewrite !app_nil_r in *. exists (set_buffer st1 (buffer st1) (consumed st1 + 0) (reader st1)). rewrite Hu. split_and!.
    - apply streams_end. unfold poll_read. rewrite E, Hnil. cbn [length]. rewrite Nat.min_0_r. unfold consume.
      pose proof (rd_consumed _ _ Hok1). rewrite (proj2 (Nat.ltb_ge _ _)), andb_false_r by lia. done.
    - rewrite Nat.add_0_r. by destruct st1.
    - done.
    - done. }
  set (amt := n `min` length bs). assert (0 < amt ≤ length bs) as Hamt by (unfold amt; destruct bs; [done|cbn [length]; lia]).
  pose proof (rd_consumed _ _ Hok1) as Hc1. assert (length bs = length (buffer st1) - consumed st1) as Hlbs.
  { rewrite Hbs. unfold unconsumed. by rewrite length_drop. }
  set (st2 := set_buffer st1 (buffer st1) (consumed st1 + amt) (reader st1)).
  assert (reader_ok (text ++ ys) st2) as Hok2 by (destruct Hok1; split; [done|done|cbn; lia|done]).
  assert (unconsumed st2 = drop amt bs) as Hun2 by (rewrite Hbs; unfold unconsumed; cbn; by rewrite drop_drop).
  assert (∃ st', streams (poll_read dbg) n st2 (unconsumed st2 ++ zs) st' ∧ reader_ok ((text ++ ys) ++ zs) st' ∧
    (scanned 0 ((text ++ ys) ++ zs) (scanner st') ∨ length ((text ++ ys) ++ zs) < longest_candidate (pattern_new cs)) ∧
    (length ((text ++ ys) ++ zs) < longest_candidate (pattern_new cs) → scanner st' = scanner st2)) as (st' & Hs & Hok' & Hf & Hsame').
  { destruct (decide (ys = [])) as [->|Hys]; [|eapply IHw; [by apply Hw1|done|done|done|done]].
    destruct (decide (weight (reader st1) < weight (reader st))) as [Hlt|Hge]; [eapply IHw; [exact Hlt|done|done|done|done]|].
    eapply IHk; [|reflexivity|cbn [reader st2 set_buffer]; lia|done|done|done]. rewrite Hun2, length_drop. rewrite app_nil_r in Hun. rewrite <- Hun, <- Hbs. lia. }
  exists st'. rewrite (app_assoc text). split_and!; [|done|done|].
  - rewrite (app_assoc _ ys zs), <- Hun, <- Hbs. rewrite Hun2 in Hs. rewrite <- (take_drop amt bs), <- app_assoc.
    destruct (take amt bs) as [|b bs'] eqn:Et; [apply (f_equal length) in Et; rewrite length_take in Et; cbn in Et; lia|].
    eapply streams_chunk; [|exact Hs]. unfold poll_read. rewrite E. fold amt. unfold consume.
    rewrite (proj2 (Nat.ltb_ge _ _)), andb_false_r by lia. by rewrite Et.
  - intros Hshort. rewrite Hsame' by done. cbn [scanner st2 set_buffer]. apply Hsame. rewrite length_app in Hshort. lia.
Qed.

End Scans.

(** ** The result *)

Lemma bs_contains_get (c : bytes) s : bs_contains c s = bool_decide (bt_get c s = Some tt).
Proof.
  unfold bs_contains, bt_get. destruct (bt_entry c s) as [[k []]|]; cbn; [by rewrite bool_decide_eq_true_2|by rewrite bool_decide_eq_false_2].
Qed.

Lemma bs_contains_of_list (c : bytes) l : bs_contains c (bs_of_list l) = true ↔ c ∈ l.
Proof.
  rewrite bs_contains_get, bool_decide_eq_true. unfold bs_of_list, bt_of_list.
  assert (∀ m, bt_get c (foldl (λ m x, bt_insert x.1 x.2 m) m ((λ k, (k, tt)) <$> l)) = Some tt ↔ c ∈ l ∨ bt_get c m = Some tt) as Hm.
  { induction l as [|k l IH]; intros m; cbn; [set_solver|]. etransitivity; [apply IH|]. destruct (decide (k = c)) as [->|Hne].
    - rewrite bt_get_insert_eq by apply rcmp_refl. set_solver.
    - rewrite bt_get_insert_ne by (by intros E%rcmp_eq). set_solver. }
  etransitivity; [apply Hm|]. unfold bt_get. cbn. split; [by intros [?|?]|by left].
Qed.

Lemma elem_of_candidate_matches c s :
  length (matches s) = length (candidates (pattern s)) →
  c ∈ candidate_matches s ↔ ∃ i, candidates (pattern s) !! i = Some c ∧ matches s !! i = Some true.
Proof.
  unfold candidate_matches. generalize (candidates (pattern s)) (matches s). intros cs m. revert m.
  induction cs as [|c' cs IH]; intros [|b m]; cbn; [|done..|].
  - intros _. split; [by intros ?%elem_of_nil|by intros (i & ? & _)].
  - intros [= Hl]. specialize (IH m Hl). destruct b; cbn; [rewrite elem_of_cons|]; rewrite IH.
    + split; [intros [->|(i & ? & ?)]; [by exists 0|by exists (S i)]|intros ([|i] & ? & ?); cbn in *; [left; congruence|right; eauto]].
    + split; [intros (i & ? & ?); by exists (S i)|intros ([|i] & ? & ?); cbn in *; [done|eauto]].
Qed.

(** C19: a [ReferenceReader] passes on exactly what it reads, for every source
    without faults, whatever its chunks and delays, every capacity and every size
    of reads. What the scanner holds at its end are candidates that are in the
    text; and if the text has at least the length of the longest candidate, each
    one is held that is somewhere in the text without overlapping
    another occurrence of a candidate, wherever reads have split it. A shorter text is not
    scanned: the scanner holds nothing then, even if a shorter candidate is there. *)
Theorem reference_reader_spec `{WuManberLaws} (dbg : bool) (cs : list bytes) (cap n : nat) (r : areader) (xs : bytes) :
  Forall (λ c, 2 ≤ length c) cs → 0 < cap → 0 < n → rest r xs →
  ∃ st, streams (poll_read dbg) n (with_capacity cap (scanner_new (pattern_new cs)) r) xs st ∧
    (∀ c, bs_contains c (finalise (scanner st)) = true →
       longest_candidate (pattern_new cs) ≤ length xs ∧ c ∈ cs ∧ ∃ p, occurs c p xs) ∧
    ∀ i c p, longest_candidate (pattern_new cs) ≤ length xs → cs !! i = Some c → occurs c p xs → alone cs xs i p →
      bs_contains c (finalise (scanner st)) = true.
Proof.
  intros Hcs Hcap Hn Hr.
  assert (reader_ok cs xs [] (with_capacity cap (scanner_new (pattern_new cs)) r)) as Hok.
  { split; [apply scanner_new_ok|cbn -[longest_candidate pattern_new]; unfold overlap_of; cbn -[longest_candidate pattern_new]; lia|cbn; lia|].
    exists []. split_and!; [done|by left|right; split; [done|cbn; lia]]. }
  destruct (reader_streams cs Hcs xs dbg n [] _ xs Hn Hok Hr eq_refl) as (st & Hs & Hok' & Hf & Hshort). exists st. split; [done|].
  pose proof (rd_scanner _ _ _ _ Hok') as [Hp Hl Hsound].
  assert (∀ c, bs_contains c (finalise (scanner st)) = true ↔ ∃ i, cs !! i = Some c ∧ matches (scanner st) !! i = Some true) as Hfin.
  { intros c. unfold finalise. rewrite bs_contains_of_list, elem_of_candidate_matches by (by rewrite Hp). by rewrite Hp. }
  cbn [app] in *. split.
  - intros c (i & Hc & Hi)%Hfin. destruct (decide (length xs < longest_candidate (pattern_new cs))) as [Hlt|Hge].
    { rewrite Hshort in Hi by done. cbn in Hi. by apply lookup_replicate in Hi as []. }
    destruct (Hsound i Hi) as (c' & p & Hc' & Ho). rewrite Hc in Hc'. injection Hc' as <-.
    split_and!; [lia|by eapply list_elem_of_lookup_2|eauto].
  - intros i c p Hlong Hi Ho Ha. apply Hfin. exists i. split; [done|]. destruct Hf as [Hf|Hf]; [|lia]. by eapply Hf.
Qed.

(** ** A search *)

Module WuManberModel.

(** The first candidate that begins here. *)
Definition match_here (cs : list bytes) (h : bytes) : option (nat * bytes) := list_find (λ c, occurs c 0 h) cs.

(** Matches from left to right, each after the end of the one before. *)
Fixpoint find_loop (fuel : nat) (cs : list bytes) (h : bytes) : list nat :=
  match fuel with
  | O => []
  | S fuel =>
      match h with
      | [] => []
      | _ :: rst =>
          match match_here cs h with
          | Some (i, c) => i :: find_loop fuel cs (drop (length c) h)
          | None => find_loop fuel cs rst
          end
      end
  end.

#[global] Instance left_to_right : WuManber := λ cs h, find_loop (length h) cs h.

Lemma match_here_Some cs h i c : match_here cs h = Some (i, c) → cs !! i = Some c ∧ occurs c 0 h.
Proof. intros (? & ? & _)%list_find_Some. done. Qed.

Lemma occurs_drop c p k h : k ≤ length h → occurs c p (drop k h) ↔ occurs c (k + p) h.
Proof. intros Hk. unfold occurs. rewrite length_drop, drop_drop. split; intros [? ?]; (split; [lia|done]). Qed.

Lemma find_loop_sound fuel cs h i : i ∈ find_loop fuel cs h → ∃ c p, cs !! i = Some c ∧ occurs c p h.
Proof.
  revert h. induction fuel as [|fuel IH]; intros h; cbn; [by intros ?%elem_of_nil|]. destruct h as [|b rst]; [by intros ?%elem_of_nil|].
  destruct (match_here cs (b :: rst)) as [[j c]|] eqn:E.
  - apply match_here_Some in E as [Hc Ho]. intros [->|(c' & p & Hc' & Ho')%IH]%elem_of_cons; [eauto|].
    exists c', (length c + p). split; [done|]. apply occurs_drop; [|done]. by destruct Ho.
  - intros (c & p & Hc & Ho)%IH. exists c, (1 + p). split; [done|]. by apply (occurs_drop c p 1 (b :: rst)); [cbn; lia|].
Qed.

Lemma find_loop_complete fuel cs h i c p :
  Forall (λ c, 2 ≤ length c) cs → length h ≤ fuel → cs !! i = Some c → occurs c p h → alone cs h i p → i ∈ find_loop fuel cs h.
Proof.
  intros Hcs. revert h p. induction fuel as [|fuel IH]; intros h p Hf Hc Ho Ha.
  { eapply Forall_lookup_1 in Hcs; [|exact Hc]. destruct Ho as [Hl _]. cbn in Hcs. lia. }
  assert (2 ≤ length c) as Hlen by (by eapply Forall_lookup_1 in Hcs; [|exact Hc]).
  destruct h as [|b rst]; [destruct Ho as [Hl _]; cbn in Hl; lia|]. cbn [find_loop].
  assert (∀ k, 0 < k → k ≤ length (b :: rst) → k ≤ p → i ∈ find_loop fuel cs (drop k (b :: rst))) as Hstep.
  { intros k Hk Hk' Hkp. apply (IH _ (p - k)).
    - rewrite length_drop. lia.
    - done.
    - apply occurs_drop; [done|]. by replace (k + (p - k)) with p by lia.
    - intros c1 j c' q Hc1 Hc' Ho'%occurs_drop H1 H2; [|done]. rewrite Hc in Hc1. injection Hc1 as <-.
      destruct (Ha c j c' (k + q) Hc Hc' Ho') as [-> ?]; [lia|lia|split; [done|lia]]. }
  destruct (match_here cs (b :: rst)) as [[j c']|] eqn:E.
  - apply match_here_Some in E as [Hc' Ho']. assert (2 ≤ length c') by (by eapply Forall_lookup_1 in Hcs; [|exact Hc']).
    destruct (decide (length c' ≤ p)) as [Hle|Hgt].
    + right. apply Hstep; [lia|by destruct Ho'|done].
    + destruct (Ha c j c' 0 Hc Hc' Ho') as [-> _]; [lia|lia|left].
  - destruct (decide (p = 0)) as [->|]; [|apply (Hstep 1); cbn; lia].
    exfalso. unfold match_here in E. apply list_find_None in E. eapply Forall_lookup_1 in E; [|exact Hc]. done.
Qed.

#[global] Instance left_to_right_ok : WuManberLaws.
Proof.
  split; intros.
  - by apply find_loop_sound in H0.
  - by eapply find_loop_complete.
Qed.

End WuManberModel.

(** ** Examples *)

Module Examples.
Import WuManberModel.

Definition hashes : list bytes := [B "33l4p0pn"; B "cp65c8nk"; B "fn7zvafq"].
Definition text : bytes := B "[/nix/store/33l4p0pn-hello,/nix/store/cp65c8nk-env]".

(** Both hashes are split by the chunks, and there is a delay in the first. *)
Definition chunks : areader :=
  (λ bs, match bs with [] => None | b :: bs => Some (Chunk b bs) end) <$> [take 14 text; []; take 26 (drop 14 text); drop 40 text].

(** The second hash is nowhere near an occurrence of another one. *)
Lemma second_alone : alone hashes text 1 38.
Proof.
  assert (Forall (λ q, Forall (λ x, occurs x.2 q text → x.1 = 1 ∧ q = 38 ∨ q < 30) (imap pair hashes)) (seq 0 (length text))) as Hall
    by (by apply (bool_decide_unpack _); vm_compute).
  intros c j c' q [= <-] Hc' Ho _ Hq. assert (length c' = 8) as Hl by (do 3 (destruct j as [|j]; [by injection Hc' as <-|]); done).
  assert (q ∈ seq 0 (length text)) as Hin by (apply elem_of_seq; destruct Ho as [Ho _]; lia).
  eapply Forall_forall in Hall; [|exact Hin]. apply (Forall_lookup_1 _ _ j (j, c')) in Hall; [|by rewrite list_lookup_imap, Hc'].
  destruct (Hall Ho) as [|?]; [done|lia].
Qed.

Lemma reference_reader_spec_witness :
  ∃ st, streams (poll_read true) 5 (with_capacity 1 (scanner_new (pattern_new hashes)) chunks) text st ∧
    (∀ c, bs_contains c (finalise (scanner st)) = true → c ∈ hashes ∧ ∃ p, occurs c p text) ∧
    bs_contains (B "cp65c8nk") (finalise (scanner st)) = true.
Proof.
  destruct (reference_reader_spec true hashes 1 5 chunks text) as (st & Hs & Hsound & Hfound); [repeat constructor; cbn; lia|lia|lia| |].
  { split; [repeat constructor|by vm_compute]. }
  exists st. split_and!; [exact Hs|intros c Hc; apply (Hsound c Hc)|]. apply (Hfound 1 (B "cp65c8nk") 38); [|done| |apply second_alone].
  - apply (bool_decide_unpack _). by vm_compute.
  - apply (bool_decide_unpack _). by vm_compute.
Defined.

(** Of two candidates that overlap in the text only one may be found. *)
Example overlap_missed :
  omap_ok candidate_matches (scan (scanner_new (pattern_new [B "abcd"; B "cdef"])) (B "abcdef")) = (Ok [B "abcd"] : outcome ErrorKind _).
Proof. reflexivity. Qed.

(** A candidate in a text that is shorter than another candidate. *)
Example short_text_missed :
  omap_ok candidate_matches (scan (scanner_new (pattern_new [B "abc"; B "long candidate"])) (B "xabcx")) = (Ok [] : outcome ErrorKind _).
Proof. reflexivity. Qed.

End Examples.
