(* ===== verification/PathInfo.v ===== *)
(** * [store]: path infos, their messages and services

    [path_info.rs], the conversions of [proto/mod.rs], and the services of
    [pathinfoservice]: in memory, with a limit, in front of another, signing,
    and over gRPC. Lists and maps of the source keep their order here only
    where the source promises one. *)

From stdpp Require Import strings gmap.
From S2P Require Import Prelude Io Crates NixHash StorePath.
From S2P Require NarInfo.
From S2P Require Import Castore CastoreProto DirectoryService.
Import StorePath.
#[local] Open Scope nat_scope.

Abbreviation SPath := StorePath.StorePath.
Abbreviation Sig := NarInfo.Signature.Signature.

(** ** [path_info.rs] *)

Record PathInfo := mkPathInfo {
  store_path : SPath;
  node : Castore.Node;
  references : list SPath;
  nar_size : Z;
  nar_sha256 : bytes;
  signatures : list Sig;
  deriver : option SPath;
  ca : option CAHash;
}.

(** [PathInfo::to_narinfo] *)
Definition to_narinfo (self : PathInfo) : NarInfo.NarInfo :=
  NarInfo.mkNarInfo 0 (store_path self) (nar_sha256 self) (nar_size self) (references self) (signatures self)
    (ca self) None (deriver self) [] (Some (B "none")) None None.

(** ** The messages of pathinfo.proto *)

Module Proto.

Record Signature := mkSignature { s_name : bytes; s_data : bytes }.
Record StorePath := mkStorePath { sp_name : bytes; sp_digest : bytes }.
Record Ca := mkCa { ca_type : Z; ca_digest : bytes }.

Record NarInfo := mkNarInfo {
  n_nar_size : Z;
  n_nar_sha256 : bytes;
  n_signatures : list Signature;
  n_reference_names : list bytes;
  n_deriver : option StorePath;
  n_ca : option Ca;
}.

Record PathInfo := mkPathInfo {
  p_node : option (option CastoreProto.node);
  p_references : list bytes;
  p_narinfo : option NarInfo;
}.

End Proto.

(** The enum [CA.Hash] with its numbers. *)
Inductive Hash :=
| NarSha256 | NarSha1 | NarSha512 | NarMd5 | TextSha256 | FlatSha1 | FlatMd5 | FlatSha256 | FlatSha512.

Definition hash_number (h : Hash) : Z :=
  match h with
  | NarSha256 => 0 | NarSha1 => 1 | NarSha512 => 2 | NarMd5 => 3 | TextSha256 => 4
  | FlatSha1 => 5 | FlatMd5 => 6 | FlatSha256 => 7 | FlatSha512 => 8
  end.

(** ** [proto/mod.rs] *)

Inductive ConvertCAError := InvalidCaDigestLen (len : nat) (typ : bytes) | UnknownHashType (typ : Z).

Inductive ValidatePathInfoError :=
| InvalidReferenceDigestLen (i len : nat)
| NoNodePresent
| InvalidRootNode (e : DirectoryError)
| InvalidNodeName (name : bytes) (e : StorePath.Error)
| InvalidNarSha256DigestLen (len : nat)
| InconsistentNumberOfReferences (references names : nat)
| InvalidNarinfoReferenceName (i : nat) (name : bytes)
| InconsistentNarinfoReferenceNameDigest (i : nat) (expected got : bytes)
| InvalidDeriverField (e : StorePath.Error)
| NarInfoFieldMissing
| InvalidCaField (e : ConvertCAError)
| InvalidSignature (i : nat) (e : NarInfo.Signature.Error).

(** [digest[..].try_into()] into an array of the size of the type *)
Definition ca_array (size : nat) (typ : bytes) (digest : bytes) : outcome ConvertCAError bytes :=
  if length digest =? size then Ok digest else Err (InvalidCaDigestLen (length digest) typ).

(** [TryFrom<&nar_info::Ca> for CAHash] *)
Definition ca_try_from (value : Proto.Ca) : outcome ConvertCAError CAHash :=
  let typ := Proto.ca_type value in
  let digest := Proto.ca_digest value in
  if (typ =? hash_number NarSha256)%Z then let? d := ca_array 32 (B "NarSha256") digest in Ok (Nar (NHSha256 d))
  else if (typ =? hash_number NarSha1)%Z then let? d := ca_array 20 (B "NarSha1") digest in Ok (Nar (NHSha1 d))
  else if (typ =? hash_number NarSha512)%Z then let? d := ca_array 64 (B "NarSha512") digest in Ok (Nar (NHSha512 d))
  else if (typ =? hash_number NarMd5)%Z then let? d := ca_array 16 (B "NarMd5") digest in Ok (Nar (NHMd5 d))
  else if (typ =? hash_number TextSha256)%Z then let? d := ca_array 32 (B "TextSha256") digest in Ok (Text d)
  else if (typ =? hash_number FlatSha1)%Z then let? d := ca_array 20 (B "FlatSha1") digest in Ok (Flat (NHSha1 d))
  else if (typ =? hash_number FlatMd5)%Z then let? d := ca_array 16 (B "FlatMd5") digest in Ok (Flat (NHMd5 d))
  else if (typ =? hash_number FlatSha256)%Z then let? d := ca_array 32 (B "FlatSha256") digest in Ok (Flat (NHSha256 d))
  else if (typ =? hash_number FlatSha512)%Z then let? d := ca_array 64 (B "FlatSha512") digest in Ok (Flat (NHSha512 d))
  else Err (UnknownHashType typ).

(** [From<&CAHash> for nar_info::ca::Hash] *)
Definition ca_hash_type (value : CAHash) : Hash :=
  match value with
  | Flat (NHMd5 _) => FlatMd5
  | Flat (NHSha1 _) => FlatSha1
  | Flat (NHSha256 _) => FlatSha256
  | Flat (NHSha512 _) => FlatSha512
  | Nar (NHMd5 _) => NarMd5
  | Nar (NHSha1 _) => NarSha1
  | Nar (NHSha256 _) => NarSha256
  | Nar (NHSha512 _) => NarSha512
  | Text _ => TextSha256
  end.

(** [From<&CAHash> for nar_info::Ca] *)
Definition ca_from (value : CAHash) : Proto.Ca :=
  Proto.mkCa (hash_number (ca_hash_type value)) (digest_as_bytes (ca_hash value)).

(** [From<CAHash> for nar_info::Ca], in import.rs *)
Definition ca_from_owned (value : CAHash) : Proto.Ca :=
  Proto.mkCa (hash_number (ca_hash_type value)) (NixHash_fmt (ca_hash value)).

(** [From<PathInfo> for proto::PathInfo] *)
Definition path_info_from (value : PathInfo) : Proto.PathInfo :=
  Proto.mkPathInfo
    (Some (from_name_and_node (to_string (store_path value)) (node value)))
    (digest <$> references value)
    (Some (Proto.mkNarInfo (nar_size value) (nar_sha256 value)
      ((λ sig, Proto.mkSignature (NarInfo.Signature.name sig) (NarInfo.Signature.signature_bytes sig)) <$> signatures value)
      (to_string <$> references value)
      ((λ sp, Proto.mkStorePath (name sp) (digest sp)) <$> deriver value)
      (ca_from <$> ca value))).

(** The lengths of the references. *)
Fixpoint check_reference_lens (i : nat) (references : list bytes) : outcome ValidatePathInfoError unit :=
  match references with
  | [] => Ok tt
  | reference :: references =>
      if negb (length reference =? DIGEST_SIZE) then Err (InvalidReferenceDigestLen i (length reference))
      else check_reference_lens (S i) references
  end.

(** The loop over [narinfo.reference_names]. *)
Fixpoint parse_reference_names (i : nat) (references : list bytes) (names : list bytes)
    : outcome ValidatePathInfoError (list SPath) :=
  match names with
  | [] => Ok []
  | reference_name :: names =>
      let? reference_names_store_path := omap_err (λ _, InvalidNarinfoReferenceName i reference_name) (from_bytes reference_name) in
      let? reference := or_panic (references !! i) in
      let? reference_digest := if length reference =? DIGEST_SIZE then Ok reference else Panic in
      if bool_decide (digest reference_names_store_path = reference_digest) then
        let? parsed := parse_reference_names (S i) references names in
        Ok (reference_names_store_path :: parsed)
      else Err (InconsistentNarinfoReferenceNameDigest i reference_digest (digest reference_names_store_path))
  end.

Fixpoint convert_signatures (i : nat) (signatures : list Proto.Signature) : outcome ValidatePathInfoError (list Sig) :=
  match signatures with
  | [] => Ok []
  | signature :: signatures =>
      let? data :=
        if length (Proto.s_data signature) =? NarInfo.Signature.SIGNATURE_LENGTH then Ok (Proto.s_data signature)
        else Err (InvalidSignature i (NarInfo.Signature.InvalidSignatureLen (length (Proto.s_data signature)))) in
      let? converted := convert_signatures (S i) signatures in
      Ok (NarInfo.Signature.mkSignature (Proto.s_name signature) data :: converted)
  end.

Definition convert_deriver (deriver : option Proto.StorePath) : outcome ValidatePathInfoError (option SPath) :=
  match deriver with
  | None => Ok None
  | Some d => omap_ok Some (omap_err InvalidDeriverField (from_name_and_digest (Proto.sp_name d) (Proto.sp_digest d)))
  end.

Definition convert_ca (ca : option Proto.Ca) : outcome ValidatePathInfoError (option CAHash) :=
  match ca with
  | None => Ok None
  | Some ca => omap_ok Some (omap_err InvalidCaField (ca_try_from ca))
  end.

(** [TryFrom<proto::PathInfo> for PathInfo] *)
Definition path_info_try_from (value : Proto.PathInfo) : outcome ValidatePathInfoError PathInfo :=
  let? narinfo := ok_or NarInfoFieldMissing (Proto.p_narinfo value) in
  let? _ := check_reference_lens 0 (Proto.p_references value) in
  if negb (length (Proto.n_reference_names narinfo) =? length (Proto.p_references value))
  then Err (InconsistentNumberOfReferences (length (Proto.p_references value)) (length (Proto.n_reference_names narinfo)))
  else
    let? references := parse_reference_names 0 (Proto.p_references value) (Proto.n_reference_names narinfo) in
    let? node := ok_or NoNodePresent (Proto.p_node value) in
    let? (name, node) := omap_err InvalidRootNode (try_into_name_and_node node) in
    let? store_path := omap_err (InvalidNodeName name) (from_bytes name) in
    let? nar_sha256 :=
      if length (Proto.n_nar_sha256 narinfo) =? 32 then Ok (Proto.n_nar_sha256 narinfo)
      else Err (InvalidNarSha256DigestLen (length (Proto.n_nar_sha256 narinfo))) in
    let? deriver := convert_deriver (Proto.n_deriver narinfo) in
    let? signatures := convert_signatures 0 (Proto.n_signatures narinfo) in
    let? ca := convert_ca (Proto.n_ca narinfo) in
    Ok (mkPathInfo store_path node references (Proto.n_nar_size narinfo) nar_sha256 signatures deriver ca).

(** ** [pathinfoservice/mod.rs] *)

(** The trait [PathInfoService]; a listing is what its stream yields. *)
Class PathInfoService (S : Type) := {
  ps_get : bytes → svc S (option PathInfo);
  ps_put : PathInfo → svc S PathInfo;
  ps_list : S → list (outcome CError PathInfo);
}.

(** [*path_info.store_path.digest()] *)
Definition key_of (path_info : PathInfo) : bytes := digest (store_path path_info).

(** ** [memory.rs] *)

Record MemoryPathInfoService := mkMemory { db : gmap bytes PathInfo }.

#[global] Instance Memory_PathInfoService : PathInfoService MemoryPathInfoService := {|
  ps_get digest self := (Ok (db self !! digest), self);
  ps_put path_info self := (Ok path_info, mkMemory (<[ key_of path_info := path_info ]> (db self)));
  ps_list self := Ok ∘ snd <$> map_to_list (db self);
|}.

(** ** [lru.rs] *)

(** [lru::LruCache] from digests; [lru_peek] looks up without a use. *)
Class LruCache (V : Type) := {
  Lru : Type;
  lru_new : nat → Lru;
  lru_get : bytes → Lru → option V * Lru;
  lru_put : bytes → V → Lru → Lru;
  lru_peek : bytes → Lru → option V;
  lru_iter : Lru → list (bytes * V);
}.

Section LruService.
Context `{!LruCache PathInfo}.

Record LruPathInfoService := mkLru { lru : Lru }.

(** [LruPathInfoService::with_capacity] *)
Definition with_capacity (capacity : nat) : LruPathInfoService := mkLru (lru_new capacity).

#[global] Instance Lru_PathInfoService : PathInfoService LruPathInfoService := {|
  ps_get digest self := let '(o, lru) := lru_get digest (lru self) in (Ok o, mkLru lru);
  ps_put path_info self := (Ok path_info, mkLru (lru_put (key_of path_info) path_info (lru self)));
  ps_list self := Ok ∘ snd <$> lru_iter (lru self);
|}.

End LruService.

(** ** [combinators.rs] *)

Record Cache (PS1 PS2 : Type) := mkCache { near : PS1; far : PS2 }.
Arguments mkCache {PS1 PS2} _ _.
Arguments near {PS1 PS2} _.
Arguments far {PS1 PS2} _.

Section Cache.
Context {PS1 PS2 : Type} `{!PathInfoService PS1, !PathInfoService PS2}.

Definition on_near {A} (m : svc PS1 A) : svc (Cache PS1 PS2) A := λ self,
  let '(o, near) := m (near self) in (o, mkCache near (far self)).
Definition on_far {A} (m : svc PS2 A) : svc (Cache PS1 PS2) A := λ self,
  let '(o, far) := m (far self) in (o, mkCache (near self) far).

Definition cache_get (digest : bytes) : svc (Cache PS1 PS2) (option PathInfo) :=
  do! cached := on_near (ps_get digest) in
  match cached with
  | Some path_info => vret (Some path_info)
  | None =>
      do! found := on_far (ps_get digest) in
      match found with
      | None => vret None
      | Some path_info =>
          do! _ := on_near (ps_put path_info) in
          vret (Some path_info)
      end
  end.

#[global] Instance Cache_PathInfoService : PathInfoService (Cache PS1 PS2) := {|
  ps_get := cache_get;
  ps_put _ := vlift (Err (StorageError (Msg (B "unimplemented"))));
  ps_list _ := [Err (StorageError (Msg (B "unimplemented")))];
|}.

End Cache.

(** ** [signing_wrapper.rs] *)

Record SigningPathInfoService (T : Type) := mkSigning { inner : T; signing_key : NarInfo.SigningKey }.
Arguments mkSigning {T} _ _.
Arguments inner {T} _.
Arguments signing_key {T} _.

(** [nar_info.signatures.clear()] *)
Definition clear_signatures (n : NarInfo.NarInfo) : NarInfo.NarInfo :=
  NarInfo.mkNarInfo (NarInfo.flags n) (NarInfo.store_path n) (NarInfo.nar_hash n) (NarInfo.nar_size n)
    (NarInfo.references n) [] (NarInfo.ca n) (NarInfo.system n) (NarInfo.deriver n) (NarInfo.url n)
    (NarInfo.compression n) (NarInfo.file_hash n) (NarInfo.file_size n).

Section Signing.
Context {T : Type} `{!PathInfoService T}.
Context (dbg : bool).

(** The signature that [put] pushes. *)
Definition new_signature (key : NarInfo.SigningKey) (path_info : PathInfo) : outcome CError Sig :=
  let nar_info := NarInfo.add_signature key (clear_signatures (to_narinfo path_info)) in
  let? s := or_panic (last (NarInfo.signatures nar_info)) in
  if dbg && negb (bool_decide (removelast (NarInfo.signatures nar_info) = [])) then Panic
  else Ok (NarInfo.Signature.mkSignature (NarInfo.Signature.name s) (NarInfo.Signature.signature_bytes s)).

Definition push_signature (s : Sig) (p : PathInfo) : PathInfo :=
  mkPathInfo (store_path p) (node p) (references p) (nar_size p) (nar_sha256 p) (signatures p ++ [s]) (deriver p) (ca p).

Definition on_inner {A} (m : svc T A) : svc (SigningPathInfoService T) A := λ self,
  let '(o, inner) := m (inner self) in (o, mkSigning inner (signing_key self)).

Definition signing_put (path_info : PathInfo) : svc (SigningPathInfoService T) PathInfo := λ self,
  (do! s := vlift (new_signature (signing_key self) path_info) in
   on_inner (ps_put (push_signature s path_info))) self.

#[global] Instance Signing_PathInfoService : PathInfoService (SigningPathInfoService T) := {|
  ps_get digest := on_inner (ps_get digest);
  ps_put := signing_put;
  ps_list self := ps_list (inner self);
|}.

End Signing.

(** ** [nar/mod.rs] *)

(** The trait [NarCalculationService] *)
Class NarCalculationService (N : Type) := calculate_nar : Castore.Node → svc N (Z * bytes).

(** ** Over gRPC *)

Record Status := mkStatus { code : Code; message : Why }.

(** [From<Error> for Status] *)
Definition status_from (value : CError) : Status :=
  match value with
  | InvalidRequest msg => mkStatus CodeInvalidArgument msg
  | StorageError msg => mkStatus CodeDataLoss msg
  end.

(** The service of rpc_pathinfo.proto, as a client calls it. *)
Class RpcPathInfoService (C : Type) := {
  rpc_get : option bytes → C → outcome Status Proto.PathInfo * C;
  rpc_put : Proto.PathInfo → C → outcome Status Proto.PathInfo * C;
  rpc_calculate_nar : option CastoreProto.node → C → outcome Status (Z * bytes) * C;
  rpc_list : C → outcome Status (list (outcome Status Proto.PathInfo));
}.

(** *** [grpc_pathinfoservice_wrapper.rs] *)

Record GRPCPathInfoServiceWrapper (PS NS : Type) := mkWrapper { path_info_service : PS; nar_calculation_service : NS }.
Arguments mkWrapper {PS NS} _ _.
Arguments path_info_service {PS NS} _.
Arguments nar_calculation_service {PS NS} _.

Section Wrapper.
Context {PS NS : Type} `{!PathInfoService PS, !NarCalculationService NS}.
Abbreviation W := (GRPCPathInfoServiceWrapper PS NS).

Definition wrapper_get (by_what : option bytes) (self : W) : outcome Status Proto.PathInfo * W :=
  match by_what with
  | None => (Err (mkStatus CodeUnimplemented (Msg (B "by_what needs to be specified"))), self)
  | Some output_digest =>
      if negb (length output_digest =? DIGEST_SIZE)
      then (Err (mkStatus CodeInvalidArgument (Msg (B "invalid output digest length"))), self)
      else
        let '(o, ps) := ps_get output_digest (path_info_service self) in
        (match o with
         | Ok None => Err (mkStatus CodeNotFound (Msg (B "PathInfo not found")))
         | Ok (Some path_info) => Ok (path_info_from path_info)
         | Err e => Err (status_from e)
         | Panic => Panic
         end, mkWrapper ps (nar_calculation_service self))
  end.

Definition wrapper_put (path_info_proto : Proto.PathInfo) (self : W) : outcome Status Proto.PathInfo * W :=
  match path_info_try_from path_info_proto with
  | Err _ => (Err (mkStatus CodeInvalidArgument (Msg (B "Invalid path info"))), self)
  | Panic => (Panic, self)
  | Ok path_info =>
      let '(o, ps) := ps_put path_info (path_info_service self) in
      (omap_ok path_info_from (omap_err status_from o), mkWrapper ps (nar_calculation_service self))
  end.

Definition wrapper_calculate_nar (request : option CastoreProto.node) (self : W) : outcome Status (Z * bytes) * W :=
  match try_into_anonymous_node request with
  | Err _ => (Err (mkStatus CodeInvalidArgument (Msg (B "invalid root node"))), self)
  | Panic => (Panic, self)
  | Ok root_node =>
      let '(o, ns) := calculate_nar root_node (nar_calculation_service self) in
      (omap_err status_from o, mkWrapper (path_info_service self) ns)
  end.

Definition wrapper_list (self : W) : outcome Status (list (outcome Status Proto.PathInfo)) :=
  Ok ((λ item, omap_ok path_info_from (omap_err (λ e, mkStatus CodeInternal (message (status_from e))) item))
      <$> ps_list (path_info_service self)).

(** A connection to the wrapper that loses no message. *)
#[global] Instance served : RpcPathInfoService W := {|
  rpc_get := wrapper_get;
  rpc_put := wrapper_put;
  rpc_calculate_nar := wrapper_calculate_nar;
  rpc_list := wrapper_list;
|}.

End Wrapper.

(** *** [grpc.rs] *)

Record GRPCPathInfoService (C : Type) := from_client { grpc_client : C }.
Arguments from_client {C} _.
Arguments grpc_client {C} _.

Section Client.
Context {C : Type} `{!RpcPathInfoService C}.

(** [Error::StorageError(e.to_string())] *)
Definition remote_error (e : Status) : CError := StorageError (Remote (code e) (message e)).

Definition call {A} (m : C → outcome Status A * C) : GRPCPathInfoService C → outcome Status A * GRPCPathInfoService C := λ self,
  let '(o, c) := m (grpc_client self) in (o, from_client c).

Definition validated (path_info : Proto.PathInfo) : outcome CError PathInfo :=
  omap_err (λ _, StorageError (Msg (B "Invalid path info"))) (path_info_try_from path_info).

Definition client_get (digest : bytes) : svc (GRPCPathInfoService C) (option PathInfo) := λ self,
  match call (rpc_get (Some digest)) self with
  | (Ok path_info, self) => (omap_ok Some (validated path_info), self)
  | (Err e, self) => (match code e with CodeNotFound => Ok None | _ => Err (remote_error e) end, self)
  | (Panic, self) => (Panic, self)
  end.

Definition client_put (path_info : PathInfo) : svc (GRPCPathInfoService C) PathInfo := λ self,
  let '(o, self) := call (rpc_put (path_info_from path_info)) self in
  (let? path_info := omap_err remote_error o in validated path_info, self).

(** The stream ends with its first error. *)
Fixpoint yield_all (items : list (outcome Status Proto.PathInfo)) : list (outcome CError PathInfo) :=
  match items with
  | [] => []
  | item :: items =>
      match (let? path_info := omap_err remote_error item in validated path_info) with
      | Ok path_info => Ok path_info :: yield_all items
      | e => [e]
      end
  end.

Definition client_list (self : GRPCPathInfoService C) : list (outcome CError PathInfo) :=
  match rpc_list (grpc_client self) with
  | Ok items => yield_all items
  | Err e => [Err (remote_error e)]
  | Panic => [Panic]
  end.

#[global] Instance Client_PathInfoService : PathInfoService (GRPCPathInfoService C) := {|
  ps_get := client_get;
  ps_put := client_put;
  ps_list := client_list;
|}.

#[global] Instance Client_NarCalculationService : NarCalculationService (GRPCPathInfoService C) := λ root_node self,
  let '(o, self) := call (rpc_calculate_nar (from_name_and_node [] root_node)) self in
  (let? (nar_size, nar_sha256) := omap_err remote_error o in
   if length nar_sha256 =? 32 then Ok (nar_size, nar_sha256)
   else Err (StorageError (Msg (B "invalid digest length"))), self).

End Client.
