(* ===== verification/PathInfoSpec.v ===== *)
(** * [store]: what the conversions and services of path infos guarantee

    The messages of path infos are canonical; a client of the gRPC service sees
    the service behind it; a cache answers what is far; what a signing service
    stores carries a signature that verifies. *)

From stdpp Require Import strings gmap.
From S2P Require Import Prelude Io Crates NixBase32 NixHash StorePath.
From S2P Require NarInfo NarInfoKeys CastorePath.
From S2P Require Import Castore CastoreProto DirectoryService PathInfo.
Import StorePath.
#[local] Open Scope nat_scope.

(** ** Messages *)

(** What the types of the fields require. *)
Definition sig_ok (s : Sig) : Prop := length (NarInfo.Signature.signature_bytes s) = NarInfo.Signature.SIGNATURE_LENGTH.

Record path_info_ok (p : PathInfo) : Prop := {
  pi_store_path : StorePath_wf (store_path p);
  pi_node : node_ok (node p);
  pi_references : Forall StorePath_wf (references p);
  pi_nar_size : u64_range (nar_size p);
  pi_nar_sha256 : length (nar_sha256 p) = 32;
  pi_signatures : Forall sig_ok (signatures p);
  pi_deriver d : deriver p = Some d → StorePath_wf d;
  pi_ca c : ca p = Some c → CAHash_wf c;
}.

(** The numbers of a message are within their types. *)
Definition proto_ok (m : Proto.PathInfo) : Prop :=
  (∀ n, Proto.p_node m = Some (Some n) → node_range n) ∧
  (∀ n, Proto.p_narinfo m = Some n → u64_range (Proto.n_nar_size n)).

Lemma store_path_component p : StorePath_wf p → CastorePath.Component.name_ok (to_string p).
Proof.
  intros Hwf. pose proof (length_to_string p Hwf) as Hl. pose proof (wf_name _ Hwf) as [Hn _].
  change ENCODED_DIGEST_SIZE with 32 in Hl. unfold CastorePath.Component.name_ok.
  split_and!; try (intros E; apply (f_equal length) in E; simpl in E; lia); [lia| |by apply to_string_no_slash].
  intros Hin. assert (Byte.x00 ∈ to_absolute_path p) as Ha.
  { unfold to_absolute_path. rewrite elem_of_app. by right. }
  apply (proj1 (Forall_forall _ _) (to_absolute_path_chars p Hwf)) in Ha as [Ha|Ha]; by vm_compute in Ha.
Qed.

Lemma ca_canonical m c : ca_try_from m = Ok c ↔ CAHash_wf c ∧ ca_from c = m.
Proof.
  destruct m as [t d]. split.
  - unfold ca_try_from, ca_array. cbn. intros E. repeat case_match; simplify_eq; cbn in *; simplify_eq;
      repeat match goal with H : (_ =? _)%Z = true |- _ => apply Z.eqb_eq in H | H : (_ =? _) = true |- _ => apply Nat.eqb_eq in H end;
      subst; by split.
  - intros [Hwf [= <- <-]]. unfold CAHash_wf, NixHash_wf in Hwf. unfold ca_try_from, ca_array.
    destruct c as [[]|[]|]; cbn in Hwf |- *; by rewrite Hwf.
Qed.

Lemma check_reference_lens_Ok i rs : check_reference_lens i rs = Ok tt ↔ Forall (λ r, length r = DIGEST_SIZE) rs.
Proof.
  revert i. induction rs as [|r rs IH]; intros i; cbn [check_reference_lens]; [split; auto|].
  destruct (Nat.eqb_spec (length r) DIGEST_SIZE) as [E|E]; cbn [negb]; rewrite Forall_cons; [rewrite IH|]; naive_solver.
Qed.

(** Parsing stops with an error or answers the paths of names and digests. *)
Lemma parse_names_inv i rs names l :
  parse_reference_names i rs names = Ok l →
  names = to_string <$> l ∧ Forall StorePath_wf l ∧ take (length names) (drop i rs) = digest <$> l.
Proof.
  revert i l. induction names as [|n names IH]; intros i l E; cbn [parse_reference_names] in E; [by simplify_eq|].
  inv_ok. apply from_bytes_inv in Ha as [Hwf ->]. destruct (rs !! i) as [r|] eqn:Hr; [|done].
  cbn in Ha0. injection Ha0 as <-. destruct (_ =? _); [|done]. injection Ha1 as <-. case_bool_decide; [|done]. inv_ok. subst.
  apply IH in Ha as (-> & Hl & Ht). rewrite fmap_cons. split_and!; [done|by constructor|].
  cbn [length fmap list_fmap]. rewrite length_fmap in Ht |- *. rewrite (drop_S _ _ _ Hr). cbn [take]. by rewrite Ht.
Qed.

Lemma parse_names_Ok pre l :
  Forall StorePath_wf l → parse_reference_names (length pre) (pre ++ (digest <$> l)) (to_string <$> l) = Ok l.
Proof.
  revert pre. induction l as [|p l IH]; intros pre Hl; [done|]. apply Forall_cons in Hl as [Hp Hl].
  cbn [parse_reference_names fmap list_fmap]. rewrite from_bytes_to_string by done. cbn [omap_err obind].
  rewrite lookup_app_r, Nat.sub_diag by lia. cbn [lookup list_lookup or_panic obind].
  rewrite (wf_digest _ Hp), Nat.eqb_refl. cbn [obind]. rewrite bool_decide_eq_true_2 by done.
  specialize (IH (pre ++ [digest p]) Hl). rewrite length_app, <- app_assoc in IH. cbn [length app] in IH.
  rewrite Nat.add_1_r in IH. by rewrite IH.
Qed.

Definition proto_sig (s : Sig) : Proto.Signature :=
  Proto.mkSignature (NarInfo.Signature.name s) (NarInfo.Signature.signature_bytes s).

Lemma convert_signatures_Ok i ms l : convert_signatures i ms = Ok l ↔ Forall sig_ok l ∧ ms = proto_sig <$> l.
Proof.
  revert i l. induction ms as [|[n d] ms IH]; intros i l; cbn [convert_signatures Proto.s_data Proto.s_name].
  { split; [by intros [= <-]|]. intros [_ E]. by destruct l. }
  split.
  - intros E. destruct (Nat.eqb_spec (length d) NarInfo.Signature.SIGNATURE_LENGTH); [|done]. cbn in E. inv_ok.
    apply IH in Ha as [Hl ->]. subst l. split; [by constructor|done].
  - intros [Hl E]. destruct l as [|[n' d'] l]; [done|]. rewrite fmap_cons in E. unfold proto_sig at 1 in E. cbn in E. simplify_eq.
    apply Forall_cons in Hl as [Hs Hl]. unfold sig_ok in Hs. cbn in Hs. rewrite Hs, Nat.eqb_refl. cbn [obind].
    by rewrite (proj2 (IH (S i) l)).
Qed.

Lemma convert_deriver_Ok m d :
  convert_deriver m = Ok d ↔ (∀ p, d = Some p → StorePath_wf p) ∧ m = (λ sp, Proto.mkStorePath (name sp) (digest sp)) <$> d.
Proof.
  destruct m as [[n dg]|]; cbn [convert_deriver Proto.sp_name Proto.sp_digest].
  - unfold from_name_and_digest, from_name_and_digest_fixed. split.
    + intros E. destruct (Nat.eqb_spec (length dg) DIGEST_SIZE); [|done]. cbn in E.
      destruct (validate_name n) as [n'| |] eqn:En; [|done..]. cbn in E. simplify_eq.
      apply validate_name_Ok in En as [Hn ->]. split; [|done]. intros p [= <-]. by split.
    + intros [Hwf E]. destruct d as [[dg' n']|]; [|done]. cbn in E. simplify_eq. destruct (Hwf _ eq_refl) as [Hd Hn].
      cbn in Hd, Hn. rewrite Hd. cbn. by rewrite validate_name_ok.
  - split; [by intros [= <-]|]. intros [_ E]. by destruct d.
Qed.

Lemma convert_ca_Ok m c : convert_ca m = Ok c ↔ (∀ h, c = Some h → CAHash_wf h) ∧ m = ca_from <$> c.
Proof.
  destruct m as [m|]; cbn [convert_ca].
  - split.
    + intros E. destruct (ca_try_from m) as [h| |] eqn:Em; [|done..]. cbn in E. simplify_eq.
      apply ca_canonical in Em as [Hwf <-]. split; [by intros ? [= <-]|done].
    + intros [Hwf E]. destruct c as [h|]; [|done]. cbn in E. simplify_eq. by rewrite (proj2 (ca_canonical _ h) (conj (Hwf _ eq_refl) eq_refl)).
  - split; [by intros [= <-]|]. intros [_ E]. by destruct c.
Qed.

(** Nothing that the conversion calls panics. *)
Lemma obind_no_panic {E A C} (m : outcome E A) (f : A → outcome E C) :
  m ≠ Panic → (∀ a, m = Ok a → f a ≠ Panic) → obind m f ≠ Panic.
Proof. destruct m; cbn; auto. Qed.

Lemma omap_err_no_panic {E E' A} (f : E → E') (m : outcome E A) : m ≠ Panic → omap_err f m ≠ Panic.
Proof. by destruct m. Qed.

Lemma parse_names_no_panic i rs names :
  Forall (λ r, length r = DIGEST_SIZE) rs → i + length names ≤ length rs → parse_reference_names i rs names ≠ Panic.
Proof.
  intros Hrs. revert i. induction names as [|n names IH]; intros i Hi; cbn [parse_reference_names length] in *; [done|].
  apply obind_no_panic; [apply omap_err_no_panic, from_bytes_no_panic|]. intros p _.
  destruct (lookup_lt_is_Some_2 rs i) as [r Hr]; [lia|]. rewrite Hr. cbn [or_panic obind].
  rewrite (proj1 (Forall_lookup _ _) Hrs _ _ Hr). cbn. case_bool_decide; [|done].
  apply obind_no_panic; [apply IH; lia|done].
Qed.

Lemma convert_signatures_no_panic i ms : convert_signatures i ms ≠ Panic.
Proof. revert i. induction ms as [|m ms IH]; intros i; cbn; [done|]. case_match; cbn; [|done]. by apply obind_no_panic. Qed.

Lemma convert_deriver_no_panic m : convert_deriver m ≠ Panic.
Proof.
  destruct m as [[n d]|]; [|done]. cbn. unfold from_name_and_digest, from_name_and_digest_fixed. case_match; [|done]. cbn.
  destruct (validate_name_spec n) as [[_ E]|[[_ E]|(? & ? & _ & _ & _ & _ & E)]]; simpl in E; by rewrite E.
Qed.

Lemma convert_ca_no_panic m : convert_ca m ≠ Panic.
Proof. destruct m as [m|]; [|done]. cbn. unfold ca_try_from, ca_array. by repeat case_match. Qed.

Lemma name_no_panic n : CastorePath.Component.validate_name n ≠ Panic.
Proof. unfold CastorePath.Component.validate_name. by repeat case_match. Qed.

Lemma target_no_panic t : SymlinkTarget.validate_symlink_target t ≠ Panic.
Proof. unfold SymlinkTarget.validate_symlink_target. by repeat case_match. Qed.

Lemma unchecked_no_panic n : try_into_unchecked_name_and_checked_node n ≠ Panic.
Proof.
  unfold try_into_unchecked_name_and_checked_node, Digest.try_from, SymlinkTarget.try_from.
  destruct n as [[n|n|n]|]; [..|done]; cbn; repeat (case_match; cbn; try done). by destruct (target_no_panic (s_target n)).
Qed.

Lemma node_no_panic n : try_into_name_and_node n ≠ Panic.
Proof.
  apply obind_no_panic; [apply unchecked_no_panic|]. intros [name node] _.
  apply obind_no_panic; [|done]. apply omap_err_no_panic. unfold CastorePath.Component.try_from.
  pose proof (name_no_panic name). by destruct (CastorePath.Component.validate_name name).
Qed.

Lemma path_info_no_panic m : path_info_try_from m ≠ Panic.
Proof.
  unfold path_info_try_from. apply obind_no_panic; [by destruct (Proto.p_narinfo m)|]. intros n _.
  destruct (check_reference_lens 0 (Proto.p_references m)) as [[]|e|] eqn:Hl; cbn [obind]; [|done|].
  2:{ exfalso. revert Hl. generalize 0. induction (Proto.p_references m) as [|r rs IH]; intros i; cbn; [done|]. case_match; [done|apply IH]. }
  apply check_reference_lens_Ok in Hl. destruct (Nat.eqb_spec (length (Proto.n_reference_names n)) (length (Proto.p_references m))) as [E|]; [|done].
  cbn [negb]. apply obind_no_panic; [apply parse_names_no_panic; [done|lia]|]. intros refs _.
  apply obind_no_panic; [by destruct (Proto.p_node m)|]. intros node _.
  apply obind_no_panic; [apply omap_err_no_panic, node_no_panic|]. intros [name node'] _.
  apply obind_no_panic; [apply omap_err_no_panic, from_bytes_no_panic|]. intros sp _.
  case_match; [|done]. cbn [obind].
  apply obind_no_panic; [apply convert_deriver_no_panic|]. intros d _.
  apply obind_no_panic; [apply convert_signatures_no_panic|]. intros sigs _.
  apply obind_no_panic; [apply convert_ca_no_panic|done].
Qed.

Lemma node_roundtrip name nd :
  node_ok nd → CastorePath.Component.name_ok name → try_into_name_and_node (from_name_and_node name nd) = Ok (name, nd).
Proof.
  intros Hn Hname. destruct nd; cbn [from_name_and_node];
    (apply try_into_name_and_node_Ok; [first [apply Hn | exact I]|split; [done|by split]]).
Qed.

(** The message of a valid path info is converted back, and nothing else is. *)
Lemma path_info_roundtrip p : path_info_ok p → path_info_try_from (path_info_from p) = Ok p.
Proof.
  intros [Hsp Hn Hrefs Hsize Hsha Hsigs Hd Hc]. unfold path_info_try_from, path_info_from.
  cbn [ok_or obind Proto.p_narinfo Proto.p_references Proto.n_reference_names Proto.p_node Proto.n_nar_sha256 Proto.n_deriver Proto.n_signatures Proto.n_ca Proto.n_nar_size].
  rewrite (proj2 (check_reference_lens_Ok 0 _)). 2:{ apply Forall_fmap. eapply Forall_impl; [exact Hrefs|]. apply wf_digest. }
  cbn [obind]. rewrite !length_fmap, Nat.eqb_refl. cbn [negb].
  pose proof (parse_names_Ok [] (references p) Hrefs) as Hr. cbn [app length] in Hr. rewrite Hr. cbn [obind ok_or].
  rewrite node_roundtrip by (done || by apply store_path_component). cbn [omap_err obind].
  rewrite from_bytes_to_string by done. cbn [omap_err obind]. rewrite Hsha, Nat.eqb_refl. cbn [obind].
  rewrite (proj2 (convert_deriver_Ok _ (deriver p))) by done. cbn [obind].
  rewrite (proj2 (convert_signatures_Ok 0 _ (signatures p))) by done. cbn [obind].
  rewrite (proj2 (convert_ca_Ok _ (ca p))) by done. by destruct p.
Qed.

Lemma path_info_inv m p : proto_ok m → path_info_try_from m = Ok p → path_info_ok p ∧ path_info_from p = m.
Proof.
  destruct m as [onode refs [[size sha sigs names dv oca]|]]; [|done].
  intros [Hnode Hsize] E. unfold path_info_try_from in E. cbn in E.
  destruct (check_reference_lens 0 refs) as [[]| |] eqn:Hl; [|done..]. apply check_reference_lens_Ok in Hl. cbn in E.
  destruct (Nat.eqb_spec (length names) (length refs)) as [El|]; [|done]. cbn in E.
  apply obind_Ok in E as (l & Hp & E). apply parse_names_inv in Hp as (-> & Hwf & Ht).
  destruct onode as [onode|]; [|done]. cbn in E. apply obind_Ok in E as ([n nd] & Hn & E). apply omap_err_Ok in Hn.
  destruct onode as [pn|]; [|done]. apply try_into_name_and_node_Ok in Hn as [Hent [_ Hok]]; [|by apply Hnode].
  apply obind_Ok in E as (sp & Hsp & E). apply omap_err_Ok, from_bytes_inv in Hsp as [Hsp ->].
  destruct (Nat.eqb_spec (length sha) 32) as [Hsha|]; [|done]. cbn in E.
  apply obind_Ok in E as (d & Hd & E). apply convert_deriver_Ok in Hd as [Hd ->].
  apply obind_Ok in E as (s & Hs & E). apply convert_signatures_Ok in Hs as [Hs ->].
  apply obind_Ok in E as (c & Hc & [= <-]). apply convert_ca_Ok in Hc as [Hc ->].
  rewrite length_fmap in *. rewrite drop_0, take_ge in Ht by lia. subst refs.
  split; [split; try done; by apply (Hsize _ eq_refl)|].
  unfold path_info_from. cbn. repeat f_equal. unfold node_entry, of_dir, of_file, of_symlink in Hent.
  destruct pn as [[]|[]|[]]; cbn in Hent; injection Hent as <- ->; done.
Qed.

(** C22: the messages of path infos are canonical. Converting a message, whatever
    it holds, does not panic, and answers a path info exactly if the path info is
    valid and the message is the one that it is converted to: nothing is lost on
    the way to another store and back, and no two messages are one path info. *)
Theorem path_info_canonical (m : Proto.PathInfo) (p : PathInfo) :
  proto_ok m →
  path_info_try_from m ≠ Panic ∧
  (path_info_try_from m = Ok p ↔ path_info_ok p ∧ path_info_from p = m).
Proof.
  intros Hm. split; [apply path_info_no_panic|]. split; [by apply path_info_inv|].
  intros [Hp <-]. by apply path_info_roundtrip.
Qed.

(** ** What the services promise *)

(** A service that can be read: it has a path info, or none, under each digest,
    and asking changes nothing of that. *)
Class PathInfoReads (S : Type) `{!PathInfoService S} := {
  reads_ok : S → Prop;
  view : S → bytes → option PathInfo;
  reads_get s dg : reads_ok s → length dg = DIGEST_SIZE →
    ∃ s', ps_get dg s = (Ok (view s dg), s') ∧ reads_ok s' ∧ ∀ dg', view s' dg' = view s dg';
  reads_key s dg p : reads_ok s → view s dg = Some p → key_of p = dg ∧ path_info_ok p;
}.

(** A service that can be written has what was put last, and may forget others. *)
Class PathInfoWrites (S : Type) `{PathInfoReads S} :=
  writes_put s p : reads_ok s → path_info_ok p →
    ∃ s', ps_put p s = (Ok p, s') ∧ reads_ok s' ∧ view s' (key_of p) = Some p ∧
      ∀ dg, dg ≠ key_of p → view s' dg = view s dg ∨ view s' dg = None.

(** A store forgets nothing. *)
Class PathInfoStores (S : Type) `{PathInfoReads S} :=
  stores_put s p : reads_ok s → path_info_ok p →
    ∃ s', ps_put p s = (Ok p, s') ∧ reads_ok s' ∧
      ∀ dg, view s' dg = if bool_decide (dg = key_of p) then Some p else view s dg.

Lemma key_length p : path_info_ok p → length (key_of p) = DIGEST_SIZE.
Proof. intros []. by apply wf_digest. Qed.

#[global, refine] Instance Memory_reads : PathInfoReads MemoryPathInfoService := {|
  reads_ok s := map_Forall (λ dg p, key_of p = dg ∧ path_info_ok p) (db s);
  view s dg := db s !! dg;
  reads_get := _;
  reads_key := _;
|}.
Proof.
  - intros s dg Hs _. by exists s.
  - intros s dg p Hs Hp. by apply Hs.
Defined.

#[global] Instance Memory_stores : PathInfoStores MemoryPathInfoService.
Proof.
  intros s p Hs Hp. eexists. split; [done|]. split.
  - by apply map_Forall_insert_2.
  - intros dg. cbn. case_bool_decide; subst; [by rewrite lookup_insert_eq|by rewrite lookup_insert_ne].
Qed.

#[global] Instance stores_write {S : Type} `{PathInfoStores S} : PathInfoWrites S.
Proof.
  intros s p Hs Hp. destruct (stores_put s p Hs Hp) as (s' & E & Hs' & Hv). exists s'. split_and!; [done..| |].
  - by rewrite Hv, bool_decide_eq_true_2.
  - intros dg Hne. left. by rewrite Hv, bool_decide_eq_false_2.
Qed.

(** *** [lru] *)

(** Looking up is what a use answers, and changes nothing of what is there; what
    was put last is there; room is only made by dropping entries. *)
Class LruCacheLaws {V : Type} `{!LruCache V} : Prop := {
  lru_get_peek k c : (lru_get k c).1 = lru_peek k c;
  lru_peek_get k k' c : lru_peek k' (lru_get k c).2 = lru_peek k' c;
  lru_peek_put k v c : lru_peek k (lru_put k v c) = Some v;
  lru_peek_put_ne k k' v c : k' ≠ k → lru_peek k' (lru_put k v c) = lru_peek k' c ∨ lru_peek k' (lru_put k v c) = None;
  lru_peek_new cap k : lru_peek k (lru_new cap) = None;
}.

Section LruReads.
Context `{!LruCache PathInfo, !LruCacheLaws}.

#[global, refine] Instance Lru_reads : PathInfoReads LruPathInfoService := {|
  reads_ok s := ∀ dg p, lru_peek dg (lru s) = Some p → key_of p = dg ∧ path_info_ok p;
  view s dg := lru_peek dg (lru s);
  reads_get := _;
  reads_key := _;
|}.
Proof.
  - intros s dg Hs _. cbn. pose proof (lru_get_peek dg (lru s)) as Hg. pose proof (λ k, lru_peek_get dg k (lru s)) as Hp.
    destruct (lru_get dg (lru s)) as [o c]. cbn in Hg, Hp. subst o. exists (mkLru c). split_and!; [done| |done].
    intros dg' p. cbn. rewrite Hp. apply Hs.
  - intros s dg p Hs. apply Hs.
Defined.

#[global] Instance Lru_writes : PathInfoWrites LruPathInfoService.
Proof.
  intros s p Hs Hp. eexists. split; [done|]. split_and!.
  - intros dg q. cbn. destruct (decide (dg = key_of p)) as [->|Hne].
    + rewrite lru_peek_put. by intros [= <-].
    + destruct (lru_peek_put_ne (key_of p) dg p (lru s) Hne) as [-> | ->]; [apply Hs|done].
  - apply lru_peek_put.
  - intros dg Hne. by apply lru_peek_put_ne.
Qed.

End LruReads.

(** *** Caches *)

Section Caching.
Context {PS1 PS2 : Type} `{PathInfoWrites PS1, PathInfoReads PS2}.

(** What is near is far. *)
Definition cached (c : Cache PS1 PS2) : Prop :=
  reads_ok (near c) ∧ reads_ok (far c) ∧ ∀ dg p, view (near c) dg = Some p → view (far c) dg = Some p.

Lemma cache_get_spec c dg : cached c → length dg = DIGEST_SIZE →
  ∃ c', cache_get dg c = (Ok (view (far c) dg), c') ∧ cached c' ∧ (∀ dg', view (far c') dg' = view (far c) dg') ∧
    view (near c') dg = view (far c) dg.
Proof.
  intros (Hn & Hf & Hsub) Hdg. destruct (reads_get (near c) dg Hn Hdg) as (n & En & Hn' & Hvn).
  unfold cache_get, vbind, on_near at 1. rewrite En. destruct (view (near c) dg) as [p|] eqn:Ep.
  { unfold vret. rewrite (Hsub _ _ Ep). eexists. split_and!; [done| |done|].
    - split_and!; cbn; [done..|]. intros dg' q. rewrite Hvn. apply Hsub.
    - cbn. by rewrite Hvn. }
  destruct (reads_get (far c) dg Hf Hdg) as (f & Ef & Hf' & Hvf). unfold on_far. cbn [far near]. rewrite Ef.
  destruct (view (far c) dg) as [p|] eqn:Epf.
  2:{ unfold vret. eexists. split_and!; [done| |done|].
      - split_and!; cbn; [done..|]. intros dg' q. rewrite Hvn, Hvf. apply Hsub.
      - cbn. by rewrite Hvn. }
  destruct (reads_key (far c) dg p Hf Epf) as [Hk Hp]. destruct (writes_put n p Hn' Hp) as (n' & Ep' & Hn'' & Hself & Hother).
  unfold on_near, vret. cbn [near far]. rewrite Ep'. eexists. rewrite Hk in *. split_and!; [done| |done|done].
  split_and!; cbn; [done..|]. intros dg' q Hq. rewrite Hvf. destruct (decide (dg' = dg)) as [->|Hne].
  - congruence.
  - destruct (Hother dg' Hne) as [E|E]; rewrite E in Hq; [|done]. rewrite Hvn in Hq. by apply Hsub.
Qed.

#[global, refine] Instance Cache_reads : PathInfoReads (Cache PS1 PS2) := {|
  reads_ok := cached;
  view c := view (far c);
  reads_get := _;
  reads_key := _;
|}.
Proof.
  - intros c dg Hc Hdg. destruct (cache_get_spec c dg Hc Hdg) as (c' & E & Hc' & Hv & _). by exists c'.
  - intros c dg p (_ & Hf & _). by apply reads_key.
Defined.

End Caching.

(** *** gRPC *)

Section Remote.
Context {PS NS : Type} `{PathInfoReads PS, !NarCalculationService NS}.
Abbreviation Remote := (GRPCPathInfoService (GRPCPathInfoServiceWrapper PS NS)).

Definition connect (s : PS) (n : NS) : Remote := from_client (mkWrapper s n).
Definition behind (c : Remote) : PS := path_info_service (grpc_client c).

Lemma validated_roundtrip p : path_info_ok p → validated (path_info_from p) = Ok p.
Proof. intros Hp. unfold validated. by rewrite path_info_roundtrip. Qed.

#[global, refine] Instance Remote_reads : PathInfoReads Remote := {|
  reads_ok c := reads_ok (behind c);
  view c := view (behind c);
  reads_get := _;
  reads_key := _;
|}.
Proof.
  - intros [[s n]] dg Hs Hdg. destruct (reads_get s dg Hs Hdg) as (s' & E & Hs' & Hv). exists (connect s' n).
    split; [|by split]. cbn. unfold client_get, call, behind. cbn. unfold wrapper_get. rewrite Hdg, Nat.eqb_refl. cbn. rewrite E.
    destruct (view s dg) as [p|] eqn:Ep; [|done]. cbn.
    destruct (reads_key s dg p Hs Ep) as [_ Hp]. by rewrite validated_roundtrip.
  - intros c dg p Hc. by apply reads_key.
Defined.

#[global] Instance Remote_stores `{!PathInfoStores PS} : PathInfoStores Remote.
Proof.
  intros [[s n]] p Hs Hp. destruct (stores_put s p Hs Hp) as (s' & E & Hs' & Hv). exists (connect s' n).
  split; [|by split]. cbn. unfold client_put, call. cbn. unfold wrapper_put. rewrite path_info_roundtrip by done.
  cbn. rewrite E. cbn. by rewrite validated_roundtrip.
Qed.

Lemma remote_list (s : PS) (n : NS) :
  Forall (λ item, ∃ p, item = Ok p ∧ path_info_ok p) (ps_list s) → ps_list (connect s n) = ps_list s.
Proof.
  intros Hl. cbn. unfold client_list. cbn. unfold wrapper_list. cbn.
  induction Hl as [|item items (p & -> & Hp) _ IH]; [done|]. cbn. rewrite validated_roundtrip by done. by f_equal.
Qed.

Lemma anonymous_roundtrip nd : node_ok nd → try_into_anonymous_node (from_name_and_node [] nd) = Ok nd.
Proof.
  intros Hn. unfold try_into_anonymous_node, try_into_unchecked_name_and_checked_node. destruct nd; cbn.
  1, 2: rewrite (proj2 (digest_try_from_Ok _ _)) by (split; [done|apply Hn]); done.
  by rewrite (proj2 (SymlinkTarget.symlink_try_from_Ok target target)).
Qed.

Lemma remote_calculate_nar (s : PS) (n n' : NS) nd size sha :
  node_ok nd → length sha = 32 → calculate_nar nd n = (Ok (size, sha), n') →
  calculate_nar nd (connect s n) = (Ok (size, sha), connect s n').
Proof.
  intros Hn Hsha E. unfold calculate_nar at 1, Client_NarCalculationService, call. cbn. unfold wrapper_calculate_nar.
  rewrite anonymous_roundtrip by done. cbn [nar_calculation_service]. rewrite E. cbn. by rewrite Hsha.
Qed.

End Remote.

(** ** Clients *)

Inductive ps_call := CGet (digest : bytes) | CPut (path_info : PathInfo).
Definition answer : Type := outcome CError (option PathInfo).

Definition call_ok (c : ps_call) : Prop :=
  match c with CGet digest => length digest = DIGEST_SIZE | CPut p => path_info_ok p end.

Fixpoint run_service {S} `{!PathInfoService S} (calls : list ps_call) (s : S) : list answer * S :=
  match calls with
  | [] => ([], s)
  | c :: calls =>
      let '(a, s) := match c with
                     | CGet digest => ps_get digest s
                     | CPut p => let '(o, s) := ps_put p s in (omap_ok Some o, s)
                     end in
      let '(answers, s) := run_service calls s in (a :: answers, s)
  end.

(** The calls on a map from digests to path infos. *)
Fixpoint run_map (calls : list ps_call) (m : bytes → option PathInfo) : list answer :=
  match calls with
  | [] => []
  | CGet digest :: calls => Ok (m digest) :: run_map calls m
  | CPut p :: calls => Ok (Some p) :: run_map calls (λ dg, if bool_decide (dg = key_of p) then Some p else m dg)
  end.

Lemma run_map_ext calls m m' : (∀ dg, m dg = m' dg) → run_map calls m = run_map calls m'.
Proof.
  revert m m'. induction calls as [|[dg|p] calls IH]; intros m m' Hm; cbn; [done|..].
  - f_equal; [by rewrite Hm|by apply IH].
  - f_equal. apply IH. intros dg. by rewrite Hm.
Qed.

Lemma run_service_map {S} `{PathInfoStores S} calls (s : S) :
  reads_ok s → Forall call_ok calls → (run_service calls s).1 = run_map calls (view s).
Proof.
  revert s. induction calls as [|c calls IH]; intros s Hs Hc; [done|]. apply Forall_cons in Hc as [Hc Hcs]. cbn.
  destruct c as [dg|p].
  - destruct (reads_get s dg Hs Hc) as (s' & -> & Hs' & Hv). specialize (IH s' Hs' Hcs).
    destruct (run_service calls s'). cbn in *. rewrite IH. f_equal. by apply run_map_ext.
  - destruct (stores_put s p Hs Hc) as (s' & -> & Hs' & Hv). specialize (IH s' Hs' Hcs).
    destruct (run_service calls s'). cbn in *. rewrite IH. f_equal. by apply run_map_ext.
Qed.

(** C23: a path info service over gRPC is the service itself: whatever valid calls a
    client makes, through the client, the messages and the wrapper in
    front of a store, it gets the answers of a map from digests to path infos
    that starts with what the store has; listing and calculating the size and
    digest of archives answer what they answer on the other side. *)
Theorem grpc_service_refines {PS NS : Type} `{PathInfoStores PS, !NarCalculationService NS} (s : PS) (n : NS) (calls : list ps_call) :
  reads_ok s → Forall call_ok calls →
  (run_service calls (connect s n)).1 = run_map calls (view s) ∧
  (Forall (λ item, ∃ p, item = Ok p ∧ path_info_ok p) (ps_list s) → ps_list (connect s n) = ps_list s) ∧
  ∀ nd size sha n', node_ok nd → length sha = 32 → calculate_nar nd n = (Ok (size, sha), n') →
    calculate_nar nd (connect s n) = (Ok (size, sha), connect s n').
Proof.
  intros Hs Hc. split; [exact (run_service_map calls (connect s n) Hs Hc)|].
  split; [apply remote_list|]. intros. by apply remote_calculate_nar.
Qed.

(** C24: a cache answers what the service behind it answers: whatever digests are
    asked for, in any order, each answer is what far has under the digest, what
    far has does not change, and what was found is near afterwards. Near may forget what it likes. *)
Theorem cached_gets_answer_far {PS1 PS2 : Type} `{PathInfoWrites PS1, PathInfoReads PS2} (c : Cache PS1 PS2) (dgs : list bytes) (dg : bytes) :
  cached c → Forall (λ dg, length dg = DIGEST_SIZE) (dgs ++ [dg]) →
  ∃ c', run_service (CGet <$> dgs ++ [dg]) c = ((λ dg, Ok (view (far c) dg)) <$> dgs ++ [dg], c') ∧
    cached c' ∧ (∀ dg', view (far c') dg' = view (far c) dg') ∧ view (near c') dg = view (far c) dg.
Proof.
  revert c. induction dgs as [|d dgs IH]; intros c Hc Hd; apply Forall_cons in Hd as [Hd Hds].
  - destruct (cache_get_spec c dg Hc Hd) as (c' & E & ?). exists c'. cbn. by rewrite E.
  - destruct (cache_get_spec c d Hc Hd) as (c1 & E & Hc1 & Hv & _). destruct (IH c1 Hc1 Hds) as (c' & E' & Hc' & Hv' & Hn).
    exists c'. split_and!; [|done| |].
    + cbn [app fmap list_fmap run_service ps_get Cache_PathInfoService]. rewrite E. cbn [app] in E'.
      change (CGet <$> dgs ++ [dg]) with (CGet <$> (dgs ++ [dg])) in E'. rewrite E'. f_equal. f_equal.
      apply list_fmap_ext. intros ? x _. by rewrite Hv.
    + intros dg'. by rewrite Hv', Hv.
    + by rewrite Hn, Hv.
Qed.

(** ** Signing *)

Section Signing.
Context `{!DataEncoding, !NarInfo.UnicodeTables, !NarInfoKeys.Ed25519, !NarInfoKeys.Ed25519Laws}.

Lemma parse_keypair_inv input k vk :
  NarInfoKeys.parse_keypair input = Ok (k, vk) →
  NarInfoKeys.vk_name vk = NarInfo.key_name k ∧ ∀ m, length (NarInfo.key_sign k m) = NarInfo.Signature.SIGNATURE_LENGTH.
Proof.
  unfold NarInfoKeys.parse_keypair. destruct (split_once _ _) as [[n b]|]; cbn [ok_or obind]; [|done].
  destruct (_ || _); [done|]. destruct (negb _); [done|]. destruct (BASE64_decode b) as [|buf]; [done|].
  destruct (_ =? _); [|done]. intros E. apply obind_Ok in E as (v & _ & [= <- <-]).
  split; [done|]. intros m. apply NarInfoKeys.sk_sign_length.
Qed.

Lemma fingerprint_push sig p : NarInfo.fingerprint (to_narinfo (push_signature sig p)) = NarInfo.fingerprint (to_narinfo p).
Proof. done. Qed.

Lemma push_signature_ok sig p : sig_ok sig → path_info_ok p → path_info_ok (push_signature sig p).
Proof. intros Hs []. split; try done. cbn. apply Forall_app. by split; [|constructor]. Qed.

(** What is put into a signing service is stored with one more signature, which
    the verifying key of the pair accepts for the fingerprint of what is
    stored; the fingerprint is that of what was put, so the signatures that it
    came with are as good as before. No assertion fails. *)
Theorem signed_put_verifies {T : Type} `{PathInfoWrites T} (dbg : bool) (input : bytes) (k : NarInfo.SigningKey)
    (vk : NarInfoKeys.VerifyingKey) (p : PathInfo) (s : T) :
  NarInfoKeys.parse_keypair input = Ok (k, vk) →
  (∀ m, NarInfoKeys.vk_verify_strict (NarInfoKeys.verifying_key vk) m (NarInfo.key_sign k m) = true) →
  reads_ok s → path_info_ok p →
  ∃ s' sig, signing_put dbg p (mkSigning s k) = (Ok (push_signature sig p), mkSigning s' k) ∧
    reads_ok s' ∧ view s' (key_of p) = Some (push_signature sig p) ∧ path_info_ok (push_signature sig p) ∧
    NarInfoKeys.VerifyingKey_verify vk (NarInfo.fingerprint (to_narinfo (push_signature sig p))) sig = true ∧
    NarInfo.fingerprint (to_narinfo (push_signature sig p)) = NarInfo.fingerprint (to_narinfo p).
Proof.
  intros Hk Hv Hs Hp. destruct (parse_keypair_inv _ _ _ Hk) as [Hname Hlen].
  set (sig := NarInfo.sign k (NarInfo.fingerprint (to_narinfo p))).
  destruct (writes_put s (push_signature sig p) Hs) as (s' & E & Hs' & Hself & _).
  { by apply push_signature_ok; [apply Hlen|]. }
  exists s', sig. split_and!; [|done|done| | |done].
  - unfold signing_put, new_signature, vbind, vlift, on_inner. cbn. rewrite andb_false_r. cbn.
    change (NarInfo.Signature.mkSignature _ _) with sig. by rewrite E.
  - by apply push_signature_ok; [apply Hlen|].
  - rewrite fingerprint_push. unfold NarInfoKeys.VerifyingKey_verify. rewrite Hname, bool_decide_eq_true_2 by done. apply Hv.
Qed.

End Signing.

(** ** A cache of limited size *)

Module LruModel.

(** The entries, the most recently used one first. *)
Record entries (V : Type) := mkEntries { capacity : nat; items : list (bytes * V) }.
Arguments mkEntries {V} _ _.
Arguments capacity {V} _.
Arguments items {V} _.

Fixpoint peek {V} (k : bytes) (l : list (bytes * V)) : option V :=
  match l with
  | [] => None
  | (k', v) :: l => if bool_decide (k' = k) then Some v else peek k l
  end.

Definition without {V} (k : bytes) (l : list (bytes * V)) : list (bytes * V) := filter (λ e, e.1 ≠ k) l.

#[global] Instance recency (V : Type) : LruCache V := {|
  Lru := entries V;
  lru_new cap := mkEntries cap [];
  lru_get k c := match peek k (items c) with
                 | Some v => (Some v, mkEntries (capacity c) ((k, v) :: without k (items c)))
                 | None => (None, c)
                 end;
  lru_put k v c := mkEntries (capacity c) (take (1 `max` capacity c) ((k, v) :: without k (items c)));
  lru_peek k c := peek k (items c);
  lru_iter := items;
|}.

Lemma peek_without {V} k k' (l : list (bytes * V)) : k' ≠ k → peek k' (without k l) = peek k' l.
Proof.
  intros Hne. induction l as [|[j v] l IH]; [done|]. unfold without in *. rewrite filter_cons. cbn.
  case_decide; cbn; [by rewrite IH|]. rewrite IH. case_bool_decide; [|done]. naive_solver.
Qed.

Lemma peek_take {V} n k (l : list (bytes * V)) : peek k (take n l) = peek k l ∨ peek k (take n l) = None.
Proof. revert n. induction l as [|[j v] l IH]; intros [|n]; cbn; auto. case_bool_decide; auto. Qed.

#[global] Instance recency_laws (V : Type) : LruCacheLaws (V := V).
Proof.
  split.
  - intros k c. cbn. by destruct (peek k (items c)).
  - intros k k' c. cbn. destruct (peek k (items c)) as [v|] eqn:E; [|done]. cbn. case_bool_decide; subst; [done|by apply peek_without].
  - intros k v c. cbn. destruct (1 `max` capacity c) eqn:E; [lia|]. cbn. by rewrite bool_decide_eq_true_2.
  - intros k k' v c Hne. cbn. destruct (1 `max` capacity c) eqn:E; [lia|]. cbn. rewrite bool_decide_eq_false_2 by done.
    destruct (peek_take n k' (without k (items c))) as [-> | ->]; [left; by apply peek_without|by right].
  - done.
Qed.

End LruModel.

(** ** Witnesses *)

Module Examples.

Import Crates.Models.
#[local] Existing Instance NarInfoKeys.toy_ed25519.
#[local] Existing Instance NarInfoKeys.toy_ed25519_laws.
#[local] Existing Instance NarInfoKeys.ascii_tables.
#[local] Existing Instance NarInfoKeys.ascii_laws.

Definition hello : PathInfo :=
  mkPathInfo StorePath.sample (FileN (replicate 32 Byte.x07) 5 true) [StorePath.sample] 128 (replicate 32 Byte.x08)
    [NarInfo.Signature.mkSignature (B "cache-1") (replicate 64 Byte.x09)] None (Some (Nar (NHSha256 (replicate 32 Byte.x08)))).

Definition other : PathInfo :=
  mkPathInfo (mkStorePath (replicate 20 Byte.x02) (B "other")) (SymlinkN (B "hello")) [] 96 (replicate 32 Byte.x0a) [] None None.

Lemma hello_ok : path_info_ok hello.
Proof.
  split; [apply sample_wf|by split|constructor; [apply sample_wf|constructor]|done|done|by repeat constructor|done|].
  by intros c [= <-].
Qed.

Lemma other_ok : path_info_ok other.
Proof.
  split; [|cbn|constructor|done|done|constructor|done|done].
  - split; [done|]. split; [cbn; lia|by repeat constructor].
  - split_and!; [done|cbn; lia|]. apply (bool_decide_unpack _). by vm_compute.
Qed.

Lemma path_info_canonical_witness :
  proto_ok (path_info_from hello) ∧ path_info_try_from (path_info_from hello) ≠ Panic ∧
  (path_info_try_from (path_info_from hello) = Ok hello ↔ path_info_ok hello ∧ path_info_from hello = path_info_from hello).
Proof.
  assert (proto_ok (path_info_from hello)) as Hm.
  { split; intros n [= <-]; unfold node_range, u64_range; cbn; by split. }
  split; [done|]. by apply (path_info_canonical (path_info_from hello) hello).
Defined.

(** A renderer that has one answer. *)
#[local] Instance constant_nar : NarCalculationService unit := λ _ n, (Ok (128, replicate 32 Byte.x08)%Z, n).

Definition store : MemoryPathInfoService := mkMemory {[ key_of hello := hello ]}.

Lemma store_ok : reads_ok store.
Proof. apply map_Forall_singleton. split; [done|apply hello_ok]. Qed.

Definition calls : list ps_call := [CGet (key_of other); CPut other; CGet (key_of other); CGet (key_of hello)].

Lemma calls_ok : Forall call_ok calls.
Proof. constructor; [done|]. constructor; [apply other_ok|]. by repeat constructor. Qed.

Lemma grpc_service_refines_witness :
  (run_service calls (connect store tt)).1 = [Ok None; Ok (Some other); Ok (Some other); Ok (Some hello)].
Proof. rewrite (proj1 (grpc_service_refines store tt calls store_ok calls_ok)). by vm_compute. Defined.

Definition cache : Cache LruPathInfoService (GRPCPathInfoService (GRPCPathInfoServiceWrapper MemoryPathInfoService unit)) :=
  mkCache (with_capacity 1) (connect store tt).

Lemma cached_gets_answer_far_witness :
  ∃ c', run_service (CGet <$> [key_of hello; key_of other] ++ [key_of hello]) cache = ([Ok (Some hello); Ok None; Ok (Some hello)], c') ∧
    cached c' ∧ view (near c') (key_of hello) = Some hello.
Proof.
  destruct (cached_gets_answer_far cache [key_of hello; key_of other] (key_of hello)) as (c' & E & Hc' & _ & Hn).
  - split_and!; [done|apply store_ok|done].
  - by repeat constructor.
  - exists c'. split_and!; [rewrite E; by vm_compute|done|]. rewrite Hn. by vm_compute.
Defined.

(** With room for one path info, the first is asked for again. *)
Example cache_forgets : (run_service (S := Cache LruPathInfoService MemoryPathInfoService) (CGet <$> [key_of hello; key_of other])
    (mkCache (with_capacity 1) (mkMemory (<[ key_of other := other ]> (db store))))).2 =
  mkCache (mkLru (LruModel.mkEntries 1 [(key_of other, other)])) (mkMemory (<[ key_of other := other ]> (db store))).
Proof. by vm_compute. Qed.

Definition cache_key : NarInfo.SigningKey :=
  NarInfo.mkSigningKey (B "cache.nixos.org-1") (NarInfoKeys.sk_sign (NarInfoKeys.sk_from_bytes (replicate 32 Byte.x42))).
Definition cache_verifying_key : NarInfoKeys.VerifyingKey := NarInfoKeys.mkVerifyingKey (B "cache.nixos.org-1") NarInfoKeys.sample_public.
Definition key_text : bytes :=
  B "cache.nixos.org-1" ++ B ":" ++ BASE64_encode (replicate 32 Byte.x42 ++ NarInfoKeys.vk_as_bytes NarInfoKeys.sample_public).

Lemma key_text_parses : NarInfoKeys.parse_keypair key_text = Ok (cache_key, cache_verifying_key).
Proof.
  apply NarInfoKeys.parse_keypair_printed; [|done]. split; [done|]. apply (bool_decide_unpack _). by vm_compute.
Qed.

Lemma cache_keys_pair m :
  NarInfoKeys.vk_verify_strict (NarInfoKeys.verifying_key cache_verifying_key) m (NarInfo.key_sign cache_key m) = true.
Proof. by apply bool_decide_eq_true_2. Qed.

Lemma signed_put_verifies_witness : ∃ s' sig,
  signing_put true hello (mkSigning store cache_key) = (Ok (push_signature sig hello), mkSigning s' cache_key) ∧
  view s' (key_of hello) = Some (push_signature sig hello) ∧
  NarInfoKeys.VerifyingKey_verify cache_verifying_key (NarInfo.fingerprint (to_narinfo (push_signature sig hello))) sig = true.
Proof.
  destruct (signed_put_verifies true key_text cache_key cache_verifying_key hello store key_text_parses cache_keys_pair store_ok hello_ok)
    as (s' & sig & Hput & _ & Hv & _ & Hsig & _).
  by exists s', sig.
Defined.

(** The two conversions of content hashes to messages differ: one sends the digest, the
    other its text, which is refused on the other side. *)
Example owned_ca_differs (h := Nar (NHSha256 (replicate 32 Byte.x08))) :
  ca_try_from (ca_from h) = Ok h ∧ ca_try_from (ca_from_owned h) = Err (InvalidCaDigestLen 59 (B "NarSha256")).
Proof. by vm_compute. Qed.

End Examples.
