(* ===== verification/Fs.v ===== *)
(** * [castore/src/fs]: the store as a filesystem

    The inode tracker and the calls of the FUSE filesystem over a blob service,
    a directory service and a provider of root nodes. The state is that of
    [TvixStoreFs]; every call runs alone. Inode numbers and handles, which the
    code counts up in 64 bits, are unbounded here. *)

From stdpp Require Import strings gmap.
From S2P Require Import Prelude Io BTreeMap Crates.
From S2P Require CastorePath.
From S2P Require Import Castore DirectoryService BlobService AsyncIo Ingest.
Import CastorePath.
#[local] Open Scope N_scope.

(** ** [inodes.rs] *)

Inductive DirectoryInodeData :=
| Sparse (digest : bytes) (size : Z)
| Populated (digest : bytes) (children : list (N * bytes * Node)).

Inductive InodeData :=
| Regular (digest : bytes) (size : Z) (executable : bool)
| Symlink (target : bytes)
| DirectoryI (data : DirectoryInodeData).

(** [InodeData::from_node] *)
Definition from_node (node : Node) : InodeData :=
  match node with
  | DirectoryN digest size => DirectoryI (Sparse digest size)
  | FileN digest size executable => Regular digest size executable
  | SymlinkN target => Symlink target
  end.

(** The fields of [fuse_abi::Attr] that are set, and [filesystem::Entry]. *)
Record Attr := mkAttr { attr_ino : N; attr_blocks : Z; attr_size : Z; attr_mode : Z }.
Record Entry := mkEntry { entry_inode : N; entry_attr : Attr }.

(** [S_IFREG], [S_IFLNK] and [S_IFDIR] of [libc] *)
Definition S_IFREG : Z := 32768.
Definition S_IFLNK : Z := 40960.
Definition S_IFDIR : Z := 16384.

(** [as_fuse_type] *)
Definition as_fuse_type (self : InodeData) : Z :=
  match self with
  | Regular _ _ _ => S_IFREG
  | Symlink _ => S_IFLNK
  | DirectoryI _ => S_IFDIR
  end.

(** [mode]: 0o444 or 0o555 *)
Definition mode (self : InodeData) : Z :=
  match self with
  | Regular _ _ false | Symlink _ => 292
  | Regular _ _ true | DirectoryI _ => 365
  end.

(** [as_fuse_file_attr] *)
Definition as_fuse_file_attr (self : InodeData) (inode : N) : Attr :=
  mkAttr inode 1024
    (match self with
     | Regular _ size _ => size
     | Symlink target => Z.of_nat (length target)
     | DirectoryI (Sparse _ size) => size
     | DirectoryI (Populated _ children) => Z.of_nat (length children)
     end)
    (Z.lor (as_fuse_type self) (mode self)).

(** [as_fuse_entry] *)
Definition as_fuse_entry (self : InodeData) (inode : N) : Entry := mkEntry inode (as_fuse_file_attr self inode).

(** [ROOT_ID] of the FUSE protocol, and [ROOT_FILE_ATTR] *)
Definition ROOT_ID : N := 1.
Definition ROOT_FILE_ATTR : Attr := mkAttr ROOT_ID 0 0 (Z.lor S_IFDIR 365).

(** ** [inode_tracker.rs] *)

(** [next_inode] is a [u64] and the counters of handles below are [AtomicU64]s:
    they count the entries of maps that are in memory, and are not bounded here. *)
Record InodeTracker := mkTracker {
  data : gmap N InodeData;
  blob_digest_to_inode : gmap bytes N;
  symlink_target_to_inode : gmap bytes N;
  directory_digest_to_inode : gmap bytes N;
  next_inode : N;
}.

(** [InodeTracker::default] *)
Definition tracker_default : InodeTracker := mkTracker ∅ ∅ ∅ ∅ 2.

(** [InodeTracker::get] *)
Definition tracker_get (ino : N) (self : InodeTracker) : option InodeData := data self !! ino.

Definition set_data (self : InodeTracker) (d : gmap N InodeData) : InodeTracker :=
  mkTracker d (blob_digest_to_inode self) (symlink_target_to_inode self) (directory_digest_to_inode self) (next_inode self).

(** [InodeTracker::replace] *)
Definition replace {E} (ino : N) (d : InodeData) (self : InodeTracker) : outcome E InodeTracker :=
  match data self !! ino with
  | Some _ => Ok (set_data self (<[ino := d]> (data self)))
  | None => Panic
  end.

(** [InodeTracker::insert_and_increment] *)
Definition insert_and_increment (d : InodeData) (self : InodeTracker) : N * InodeTracker :=
  let ino := next_inode self in
  let '(blobs, symlinks, directories) :=
    match d with
    | Regular digest _ _ =>
        (<[digest := ino]> (blob_digest_to_inode self), symlink_target_to_inode self, directory_digest_to_inode self)
    | Symlink target =>
        (blob_digest_to_inode self, <[target := ino]> (symlink_target_to_inode self), directory_digest_to_inode self)
    | DirectoryI (Sparse digest _) | DirectoryI (Populated digest _) =>
        (blob_digest_to_inode self, symlink_target_to_inode self, <[digest := ino]> (directory_digest_to_inode self))
    end in
  (ino, mkTracker (<[ino := d]> (data self)) blobs symlinks directories (ino + 1)).

(** [InodeTracker::put] *)
Definition tracker_put {E} (d : InodeData) (self : InodeTracker) : outcome E (N * InodeTracker) :=
  match d with
  | Regular digest _ _ =>
      match blob_digest_to_inode self !! digest with
      | Some found_ino => Ok (found_ino, self)
      | None => Ok (insert_and_increment d self)
      end
  | Symlink target =>
      match symlink_target_to_inode self !! target with
      | Some found_ino => Ok (found_ino, self)
      | None => Ok (insert_and_increment d self)
      end
  | DirectoryI (Sparse digest _) =>
      match directory_digest_to_inode self !! digest with
      | Some found_ino => Ok (found_ino, self)
      | None => Ok (insert_and_increment d self)
      end
  | DirectoryI (Populated _ _) => Panic
  end.

(** ** [root_nodes.rs] *)

Class RootNodes (RN : Type) := {
  get_by_basename : bytes → RN → outcome CError (option Node);
  list_nodes : RN → list (outcome CError (bytes * Node));
}.

(** A [BTreeMap] of nodes *)
#[global] Instance BTreeMap_RootNodes : RootNodes (list (bytes * Node)) := {|
  get_by_basename name self := Ok (bt_get name self);
  list_nodes self := Ok <$> self;
|}.

(** ** [mod.rs] *)

Inductive Errno := EIO | ENOENT | ENOTDIR | EPERM | EISDIR | ENOSYS | EINVAL | ENODATA | ERANGE.

(** An [io::Error]: of a number, of a kind, or of a service. *)
Inductive FsError := Os (e : Errno) | Kind (e : ErrorKind) | Service (e : CError).

(** [filesystem::DirEntry] *)
Record DirEntry := mkDirEntry { de_ino : N; de_offset : N; de_type : Z; de_name : bytes }.

Section Fs.
Context {BS R DS RN : Type} `{!BlobService BS R, !AsyncRead R, !AsyncSeek R, !DirectoryService DS, !RootNodes RN}.

(** What is still to come from the channel of an opened root directory. *)
Definition channel : Type := list (nat * outcome CError (bytes * Node)).

Record TvixStoreFs := mkFs {
  blob_service : BS;
  directory_service : DS;
  root_nodes_provider : RN;
  list_root : bool;
  show_xattr : bool;
  root_nodes : gmap bytes N;
  inode_tracker : InodeTracker;
  dir_handles : gmap N channel;
  next_dir_handle : N;
  file_handles : gmap N R;
  next_file_handle : N;
}.

(** [TvixStoreFs::new] *)
Definition new (blob_service : BS) (directory_service : DS) (root_nodes_provider : RN) (list_root show_xattr : bool) : TvixStoreFs :=
  mkFs blob_service directory_service root_nodes_provider list_root show_xattr ∅ tracker_default ∅ 1 ∅ 1.

Definition set_service (self : TvixStoreFs) (ds : DS) : TvixStoreFs :=
  mkFs (blob_service self) ds (root_nodes_provider self) (list_root self) (show_xattr self) (root_nodes self)
    (inode_tracker self) (dir_handles self) (next_dir_handle self) (file_handles self) (next_file_handle self).
Definition set_inodes (self : TvixStoreFs) (names : gmap bytes N) (tracker : InodeTracker) : TvixStoreFs :=
  mkFs (blob_service self) (directory_service self) (root_nodes_provider self) (list_root self) (show_xattr self) names
    tracker (dir_handles self) (next_dir_handle self) (file_handles self) (next_file_handle self).
Definition set_dir_handles (self : TvixStoreFs) (handles : gmap N channel) (next : N) : TvixStoreFs :=
  mkFs (blob_service self) (directory_service self) (root_nodes_provider self) (list_root self) (show_xattr self) (root_nodes self)
    (inode_tracker self) handles next (file_handles self) (next_file_handle self).
Definition set_file_handles (self : TvixStoreFs) (handles : gmap N R) (next : N) : TvixStoreFs :=
  mkFs (blob_service self) (directory_service self) (root_nodes_provider self) (list_root self) (show_xattr self) (root_nodes self)
    (inode_tracker self) (dir_handles self) (next_dir_handle self) handles next.

(** A call changes the state, whether or not it fails. *)
Definition fsm (A : Type) : Type := TvixStoreFs → outcome FsError A * TvixStoreFs.
Definition fret {A} (a : A) : fsm A := λ s, (Ok a, s).
Definition ffail {A} (e : Errno) : fsm A := λ s, (Err (Os e), s).
Definition fbind {A C} (m : fsm A) (f : A → fsm C) : fsm C := λ s,
  match m s with
  | (Ok a, s) => f a s
  | (Err e, s) => (Err e, s)
  | (Panic, s) => (Panic, s)
  end.

(** [get_inode_for_root_name] *)
Definition get_inode_for_root_name (name : bytes) (self : TvixStoreFs) : option N := root_nodes self !! name.

(** [self.inode_tracker.read().get(ino).unwrap()] *)
Definition known_inode (ino : N) : fsm InodeData := λ self,
  match tracker_get ino (inode_tracker self) with
  | Some d => (Ok d, self)
  | None => (Panic, self)
  end.

(** [inode_tracker.put] *)
Definition put_inode (d : InodeData) : fsm N := λ self,
  match tracker_put d (inode_tracker self) with
  | Ok (ino, tracker) => (Ok ino, set_inodes self (root_nodes self) tracker)
  | Err e => (Err e, self)
  | Panic => (Panic, self)
  end.

Definition replace_inode (ino : N) (d : InodeData) : fsm unit := λ self,
  match replace ino d (inode_tracker self) with
  | Ok tracker => (Ok tt, set_inodes self (root_nodes self) tracker)
  | Err e => (Err e, self)
  | Panic => (Panic, self)
  end.

(** [root_nodes.insert] *)
Definition insert_root (name : bytes) (ino : N) : fsm unit := λ self,
  (Ok tt, set_inodes self (<[name := ino]> (root_nodes self)) (inode_tracker self)).

(** Inodes for the entries of a directory. *)
Fixpoint put_children (nodes : list (bytes * Node)) : fsm (list (N * bytes * Node)) :=
  match nodes with
  | [] => fret []
  | (child_name, child_node) :: nodes =>
      fbind (put_inode (from_node child_node)) (λ child_ino,
      fbind (put_children nodes) (λ children,
      fret ((child_ino, child_name, child_node) :: children)))
  end.

Definition fetch_directory (parent_digest : bytes) : fsm Directory := λ self,
  match get parent_digest (directory_service self) with
  | (Ok (Some directory), ds) => (Ok directory, set_service self ds)
  | (Ok None, ds) => (Err (Os EIO), set_service self ds)
  | (Err e, ds) => (Err (Service e), set_service self ds)
  | (Panic, ds) => (Panic, set_service self ds)
  end.

(** [get_directory_children] *)
Definition get_directory_children (ino : N) : fsm (bytes * list (N * bytes * Node)) :=
  fbind (known_inode ino) (λ d,
  match d with
  | DirectoryI (Populated parent_digest children) => fret (parent_digest, children)
  | DirectoryI (Sparse parent_digest _) =>
      fbind (fetch_directory parent_digest) (λ directory,
      fbind (put_children directory) (λ children,
      fbind (replace_inode ino (DirectoryI (Populated parent_digest children))) (λ _,
      fret (parent_digest, children))))
  | Regular _ _ _ | Symlink _ => ffail ENOTDIR
  end).

(** [name_in_root_to_ino_and_data] *)
Definition name_in_root_to_ino_and_data (name : bytes) : fsm (N * InodeData) := λ self,
  match get_inode_for_root_name name self with
  | Some inode => fbind (known_inode inode) (λ d, fret (inode, d)) self
  | None =>
      match get_by_basename name (root_nodes_provider self) with
      | Err _ => (Err (Os EIO), self)
      | Panic => (Panic, self)
      | Ok None => (Err (Os ENOENT), self)
      | Ok (Some root_node) =>
          match root_nodes self !! name with
          | Some ino => fbind (known_inode ino) (λ d, fret (ino, d)) self
          | None =>
              let inode_data := from_node root_node in
              fbind (put_inode inode_data) (λ ino,
              fbind (insert_root name ino) (λ _,
              fret (ino, inode_data))) self
          end
      end
  end.

(** [getattr] *)
Definition getattr (inode : N) : fsm Attr := λ self,
  if inode =? ROOT_ID then (Ok ROOT_FILE_ATTR, self) else
  match tracker_get inode (inode_tracker self) with
  | None => (Err (Os ENOENT), self)
  | Some inode_data => (Ok (as_fuse_file_attr inode_data inode), self)
  end.

(** [lookup]; the name is that of a C string. *)
Definition lookup (parent : N) (name : bytes) : fsm Entry := λ self,
  match Component.try_from name with
  | Err _ => (Err (Kind NotFound), self)
  | Panic => (Panic, self)
  | Ok name =>
      (if parent =? ROOT_ID then
         fbind (name_in_root_to_ino_and_data name) (λ x, fret (as_fuse_entry x.2 x.1))
       else
         fbind (get_directory_children parent) (λ x,
         match list_find (λ c, c.1.2 = name) x.2 with
         | Some (_, (child_ino, _, _)) =>
             fbind (known_inode child_ino) (λ child_inode_data, fret (as_fuse_entry child_inode_data child_ino))
         | None => ffail ENOENT
         end)) self
  end.

(** [opendir]; the task that fills the channel sends what the provider lists. *)
Definition opendir (inode : N) : fsm (option N) := λ self,
  if inode =? ROOT_ID then
    if negb (list_root self) then (Err (Os EPERM), self) else
    let stream := imap pair (list_nodes (root_nodes_provider self)) in
    let dh := next_dir_handle self in
    (Ok (Some dh), set_dir_handles self (<[dh := stream]> (dir_handles self)) (dh + 1))
  else (Ok None, self).

(** [releasedir] *)
Definition releasedir (inode handle : N) : fsm unit := λ self,
  if inode =? ROOT_ID then (Ok tt, set_dir_handles self (delete handle (dir_handles self)) (next_dir_handle self))
  else (Ok tt, self).

(** [open] *)
Definition open (inode : N) : fsm (option N) :=
  if inode =? ROOT_ID then ffail ENOSYS else
  fbind (known_inode inode) (λ d,
  match d with
  | DirectoryI _ | Symlink _ => ffail EISDIR
  | Regular blob_digest _ _ => λ self,
      match open_read blob_digest (blob_service self) with
      | Ok None | Err _ => (Err (Os EIO), self)
      | Panic => (Panic, self)
      | Ok (Some blob_reader) =>
          let fh := next_file_handle self in
          (Ok (Some fh), set_file_handles self (<[fh := blob_reader]> (file_handles self)) (fh + 1))
      end
  end).

(** [release] *)
Definition release (handle : N) : fsm unit := λ self,
  (Ok tt, set_file_handles self (delete handle (file_handles self)) (next_file_handle self)).

(** [tokio::io::Take], with what it may still read *)
Definition take_poll (n : nat) : poll (nat * R) bytes := λ s,
  let '(limit, r) := s in
  if (limit =? 0)%nat then (Some (Ok []), s) else
  match poll_read (n `min` limit) r with
  | (Ok bs, r) => (Some (Ok bs), ((limit - length bs)%nat, r))
  | (Err e, r) => (Some (Err e), (limit, r))
  | (Panic, r) => (Some Panic, (limit, r))
  end.

(** The future of [read]: the bytes from an offset, with a buffer of [cap] bytes for [copy]. *)
Definition read_at (dbg : bool) (cap fuel : nat) (size : nat) (offset : Z) (blob_reader : R) : option (outcome FsError bytes * R) :=
  match seek (FromStart offset) blob_reader with
  | (Err _, r) => Some (Err (Os EIO), r)
  | (Panic, r) => Some (Panic, r)
  | (Ok pos, r) =>
      if dbg && negb (offset =? pos)%Z then Some (Panic, r) else
      match copy take_poll to_vec cap fuel 0%Z [] (size, r) with
      | None => None
      | Some (o, (_, r)) => Some (omap_err Kind (omap_ok snd o), r)
      end
  end.

(** [read]: the bytes that [io::copy] hands to the writer, all of them or an error. *)
Definition read {W} `{Write W} (dbg : bool) (cap fuel : nat) (handle : N) (size : nat) (offset : Z) (w : W) (self : TvixStoreFs)
    : option (outcome FsError Z * W * TvixStoreFs) :=
  match file_handles self !! handle with
  | None => Some (Err (Os EIO), w, self)
  | Some blob_reader =>
      match read_at dbg cap fuel size offset blob_reader with
      | None => None
      | Some (o, r) =>
          let self := set_file_handles self (<[handle := r]> (file_handles self)) (next_file_handle self) in
          match o with
          | Ok buf =>
              match Io.write_all buf w with
              | Ok w => Some (Ok (Z.of_nat (length buf)), w, self)
              | Err e => Some (Err (Kind e), w, self)
              | Panic => Some (Panic, w, self)
              end
          | Err e => Some (Err e, w, self)
          | Panic => Some (Panic, w, self)
          end
      end
  end.

(** [readlink] *)
Definition readlink (inode : N) : fsm bytes :=
  if inode =? ROOT_ID then ffail ENOSYS else
  fbind (known_inode inode) (λ d,
  match d with
  | DirectoryI _ | Regular _ _ _ => ffail EINVAL
  | Symlink target => fret target
  end).

(** *** Listing directories *)

Section Listing.
(** What the callback [add_entry] keeps, and how an error of the provider is
    reported; [readdir] and [readdirplus] differ in these only. *)
Context {K : Type} (failed : Errno) (add_entry : DirEntry → InodeData → N → K → outcome FsError nat * K).

Definition fkm (A : Type) : Type := TvixStoreFs * K → outcome FsError A * (TvixStoreFs * K).
Definition kbind {A C} (m : fkm A) (f : A → fkm C) : fkm C := λ s,
  match m s with
  | (Ok a, s) => f a s
  | (Err e, s) => (Err e, s)
  | (Panic, s) => (Panic, s)
  end.
Definition on_fs {A} (m : fsm A) : fkm A := λ s, let '(o, self) := m s.1 in (o, (self, s.2)).
Definition emit (e : DirEntry) (d : InodeData) (ino : N) : fkm nat := λ s,
  let '(o, k) := add_entry e d ino s.2 in (o, (s.1, k)).

(** The inode of an entry of the root, or a new one. *)
Definition root_entry_inode (name : bytes) (inode_data : InodeData) : fsm N := λ self,
  match get_inode_for_root_name name self with
  | Some ino => (Ok ino, self)
  | None => fbind (put_inode inode_data) (λ ino, fbind (insert_root name ino) (λ _, fret ino)) self
  end.

(** [rx.blocking_recv()]: the channel without its first element *)
Definition receive (handle : N) (rest : channel) : fsm unit := λ self,
  (Ok tt, set_dir_handles self (<[handle := rest]> (dir_handles self)) (next_dir_handle self)).

Fixpoint read_root (handle offset : N) (rx : channel) : fkm unit :=
  match rx with
  | [] => λ s, (Ok tt, s)
  | (i, n) :: rx =>
      kbind (on_fs (receive handle rx)) (λ _,
      match n with
      | Err _ => λ s, (Err (Os failed), s)
      | Panic => λ s, (Panic, s)
      | Ok (name, node) =>
          let inode_data := from_node node in
          kbind (on_fs (root_entry_inode name inode_data)) (λ ino,
          kbind (emit (mkDirEntry ino (offset + N.of_nat i + 1) (as_fuse_type inode_data) name) inode_data ino) (λ written,
          if (written =? 0)%nat then λ s, (Ok tt, s) else read_root handle offset rx))
      end)
  end.

(** The children after [offset]; [i] counts them. *)
Fixpoint read_children (offset : N) (i : nat) (children : list (N * bytes * Node)) : fkm unit :=
  match children with
  | [] => λ s, (Ok tt, s)
  | (ino, child_name, child_node) :: children =>
      let inode_data := from_node child_node in
      kbind (emit (mkDirEntry ino (offset + N.of_nat i + 1) (as_fuse_type inode_data) child_name) inode_data ino) (λ written,
      if (written =? 0)%nat then λ s, (Ok tt, s) else read_children offset (S i) children)
  end.

Definition list_directory (inode handle offset : N) : fkm unit := λ s,
  if inode =? ROOT_ID then
    if negb (list_root s.1) then (Err (Os EPERM), s) else
    match dir_handles s.1 !! handle with
    | Some rx => read_root handle offset rx s
    | None => (Err (Os EIO), s)
    end
  else
    kbind (on_fs (get_directory_children inode)) (λ x, read_children offset 0 (drop (N.to_nat offset) x.2)) s.

End Listing.

(** [readdir] *)
Definition readdir {K} (add_entry : DirEntry → K → outcome FsError nat * K) (inode handle offset : N) : fkm (K := K) unit :=
  list_directory EIO (λ e _ _, add_entry e) inode handle offset.

(** [readdirplus] *)
Definition readdirplus {K} (add_entry : DirEntry → Entry → K → outcome FsError nat * K) (inode handle offset : N) : fkm (K := K) unit :=
  list_directory EPERM (λ e d ino, add_entry e (as_fuse_entry d ino)) inode handle offset.

(** *** Extended attributes *)

Definition XATTR_NAME_DIRECTORY_DIGEST : bytes := B "user.tvix.castore.directory.digest".
Definition XATTR_NAME_BLOB_DIGEST : bytes := B "user.tvix.castore.blob.digest".

(** [GetxattrReply] and [ListxattrReply]: the length of the answer, or the answer. *)
Inductive XattrReply := Count (n : Z) | Value (v : bytes).

Definition sized_reply (size : Z) (v : bytes) : outcome FsError XattrReply :=
  if (size =? 0)%Z then Ok (Count (Z.of_nat (length v)))
  else if (size <? Z.of_nat (length v))%Z then Err (Os ERANGE)
  else Ok (Value v).

(** [B3Digest::to_string] *)
Definition digest_to_string `{DataEncoding} (digest : bytes) : bytes := B "b3:" ++ BASE64_encode digest.

(** [getxattr] *)
Definition getxattr `{DataEncoding} (inode : N) (name : bytes) (size : Z) : fsm XattrReply := λ self,
  if negb (show_xattr self) then (Err (Os ENOSYS), self) else
  match tracker_get inode (inode_tracker self) with
  | None => (Err (Os ENODATA), self)
  | Some d =>
      match match d with
            | DirectoryI (Sparse digest _) | DirectoryI (Populated digest _) =>
                if bool_decide (name = XATTR_NAME_DIRECTORY_DIGEST) then Some digest else None
            | Regular digest _ _ => if bool_decide (name = XATTR_NAME_BLOB_DIGEST) then Some digest else None
            | Symlink _ => None
            end with
      | Some digest => (sized_reply size (digest_to_string digest), self)
      | None => (Err (Os ENODATA), self)
      end
  end.

(** [listxattr]: the names, each with a zero byte behind it *)
Definition listxattr (inode : N) (size : Z) : fsm XattrReply := λ self,
  if negb (show_xattr self) then (Err (Os ENOSYS), self) else
  let xattrs_names :=
    match tracker_get inode (inode_tracker self) with
    | Some (DirectoryI _) => XATTR_NAME_DIRECTORY_DIGEST ++ [Byte.x00]
    | Some (Regular _ _ _) => XATTR_NAME_BLOB_DIGEST ++ [Byte.x00]
    | _ => []
    end in
  (sized_reply size xattrs_names, self).

End Fs.
