(* ===== verification/NarStore.v ===== *)
(** * [store/src/nar]: archives into and out of the store

    [ingest_nar] reads an archive, sends its files to a blob service and its
    directories to a directory service; [write_nar] renders a node of the
    store as an archive again. *)

From stdpp Require Import strings gmap sorting.
From S2P Require Import Prelude Io BTreeMap Crates NarWire NarWriter AsyncIo WireBytes NarAsync.
From S2P Require CastorePath.
From S2P Require Import Castore CastoreProto CastoreOrder PetGraph DirectoryGraph DirectoryDownload DirectoryService BlobService Ingest.
Import CastorePath.
#[local] Open Scope nat_scope.

(** ** [import.rs] *)

Inductive Error := IO (e : ErrorKind) | BlobUpload (e : BlobError).

Section Importer.
Context {BS R W : Type} `{!BlobService BS R, !BlobWriter BS W, !Blake3, !BstrSplit, !Schedule}.
(** The build profile, and the size of the buffers of [copy]. *)
Context (dbg : bool) (cap : nat).

(** The archive, the uploader, and what was sent to the consumer. *)
Record PState := mkP {
  preader : areader;
  uploader : Uploader BS;
  sent : list (Error + IngestionEntry);
}.

Definition pm (A : Type) : Type := nat → PState → option (outcome Error A * PState).

Definition pret {A} (a : A) : pm A := λ _ s, Some (Ok a, s).
Definition ppanic {A} : pm A := λ _ s, Some (Panic, s).
Definition pbind {A C} (m : pm A) (f : A → pm C) : pm C := λ fuel s,
  match m fuel s with
  | None => None
  | Some (Ok a, s) => f a fuel s
  | Some (Err e, s) => Some (Err e, s)
  | Some (Panic, s) => Some (Panic, s)
  end.
Notation "'prod!' x ':=' m 'in' k" := (pbind m (fun x => k))
  (at level 10, x pattern, m at level 100, k at level 200).

Definition on_reader {A} (m : am areader A) : pm A := λ fuel s,
  match m fuel (preader s) with
  | None => None
  | Some (o, r) => Some (omap_err IO o, mkP r (uploader s) (sent s))
  end.

(** [tx.send(Ok(entry))] *)
Definition send (entry : IngestionEntry) : pm unit := λ _ s,
  Some (Ok tt, mkP (preader s) (uploader s) (sent s ++ [inr entry])).

(** [blob_uploader.upload] of a file of the archive *)
Definition upload_file (path : bytes) (size : Z) (reader : FileReader) : pm bytes := λ fuel s,
  match upload cap (WireBytes.poll_read (tag := PadPar)) path size fuel (uploader s) (reader, preader s) with
  | None => None
  | Some (o, (_, r), u) => Some (omap_err BlobUpload o, mkP r u (sent s))
  end.

(** The entries of a directory; [n] bounds their number. *)
Fixpoint produce_entries (produce : NarAsync.Node → bytes → pm IngestionEntry) (n : nat) (dir_reader : DirReader) (path : bytes)
    : pm IngestionEntry :=
  match n with
  | O => λ _ _, None
  | S n =>
      prod! entry := on_reader (dir_next dbg dir_reader) in
      match entry with
      | None => pret (EDir path)
      | Some (name, node) =>
          match Path.try_push path name with
          | Ok entry_path =>
              prod! entry := produce node entry_path in
              prod! _ := send entry in
              produce_entries produce n name path
          | _ => ppanic
          end
      end
  end.

(** [produce_nar_inner]; [n] bounds the depth of the tree. *)
Fixpoint produce_nar_inner (n : nat) (node : NarAsync.Node) (path : bytes) : pm IngestionEntry :=
  match n with
  | O => λ _ _, None
  | S n =>
      match node with
      | NarAsync.Symlink target => pret (ESymlink path target)
      | NarAsync.File executable reader =>
          let size := remaining_len reader in
          prod! digest := upload_file path size reader in
          pret (ERegular path size executable digest)
      | NarAsync.Directory dir_reader => produce_entries (produce_nar_inner n) n dir_reader path
      end
  end.

Context {DS : Type} `{!DirectoryHash, !DirectoryService DS}.

(** [ingest_nar]: what [produce] sends is consumed as it arrives, so that on an
    error fewer blobs may have been uploaded than here. *)
Definition ingest_nar (fuel : nat) (r : areader) (blob_service : BS) (directory_service : DS)
    : option (outcome (IngestionError Error) Castore.Node * areader * BS * DS) :=
  match open_reader dbg fuel r with
  | None => None
  | Some (Err e, r) => Some (Err (Producer (IO e)), r, blob_service, directory_service)
  | Some (Panic, r) => Some (Panic, r, blob_service, directory_service)
  | Some (Ok root_node, r) =>
      match produce_nar_inner fuel root_node (B "root") fuel (mkP r (mkUploader blob_service []) []) with
      | None => None
      | Some (Panic, s) => Some (Panic, preader s, blob_service, directory_service)
      | Some (res, s) =>
          match join cap fuel (uploader s) with
          | None => None
          | Some (joined, blob_service) =>
              let join_error := match joined with Err e => [inl (BlobUpload e)] | _ => [] end in
              let last := match res with Err e => inl e | Ok entry => inr entry | Panic => inl (IO Other) end in
              let '(o, directory_service) := ingest_entries dbg (sent s ++ join_error ++ [last]) directory_service in
              Some (o, preader s, blob_service, directory_service)
          end
      end
  end.

End Importer.

(** ** [renderer.rs] *)

Inductive RenderError :=
| StoreError (e : ErrorKind)
| StoreErrorDirectory (e : CError)
| DirectoryNotFound (digest name : bytes)
| NARWriterError (e : ErrorKind).

(** [tokio::io::BufReader] on a blob: the chunks it will have. *)
Class BufReader (R : Type) := buf_reader : R → list event.

Class BufReaderLaws (R : Type) `{!BufReader R, !AsyncRead R, !AsyncReadLaws R} :=
  buf_reader_spec (r : R) : ending r = Ok tt → no_fault (buf_reader r) ∧ contents (buf_reader r) = unread r.

Section Render.
Context {BS R DS W : Type} `{!BlobService BS R, !BufReader R, !DirectoryService DS, !Write W}.
Context (dbg : bool) (blob_service : BS).

Definition rm (A : Type) : Type := W * DS → outcome RenderError A * (W * DS).
Definition rret {A} (a : A) : rm A := λ s, (Ok a, s).
Definition rlift {A} (o : outcome RenderError A) : rm A := λ s, (o, s).
Definition rbind {A C} (m : rm A) (f : A → rm C) : rm C := λ s,
  match m s with
  | (Ok a, s) => f a s
  | (Err e, s) => (Err e, s)
  | (Panic, s) => (Panic, s)
  end.
Notation "'ren!' x ':=' m 'in' k" := (rbind m (fun x => k))
  (at level 10, x pattern, m at level 100, k at level 200).

(** A call of the writer. *)
Definition nar_writer {A} (m : sm W A) : rm A := λ s,
  let '(o, w) := m s.1 in (omap_err NARWriterError o, (w, s.2)).

Definition write_file (executable : bool) (size : Z) (blob_reader : R) : rm unit := λ s,
  let '(o, (w, _)) := file executable size (s.1, buf_reader blob_reader) in (omap_err NARWriterError o, (w, s.2)).

Definition get_directory (digest : bytes) : rm (option Castore.Directory) := λ s,
  let '(o, ds) := get digest s.2 in (omap_err StoreErrorDirectory o, (s.1, ds)).

(** The entries of a directory. *)
Fixpoint walk_nodes (walk : Castore.Node → bytes → rm unit) (nodes : Castore.Directory) (nar_node_directory : option bytes) : rm unit :=
  match nodes with
  | [] => nar_writer (close nar_node_directory)
  | (name, node) :: nodes =>
      ren! nar_node_directory := nar_writer (entry dbg nar_node_directory name) in
      ren! _ := walk node name in
      walk_nodes walk nodes nar_node_directory
  end.

(** [walk_node]; a panic where the fuel ends, before the nodes do. *)
Fixpoint walk_node (fuel : nat) (castore_node : Castore.Node) (name : bytes) : rm unit :=
  match fuel with
  | O => rlift Panic
  | S fuel =>
      match castore_node with
      | SymlinkN target => nar_writer (symlink dbg target)
      | FileN digest size executable =>
          ren! o := rlift (omap_err StoreError (open_read digest blob_service)) in
          ren! blob_reader := rlift (ok_or (NARWriterError NotFound) o) in
          write_file executable size blob_reader
      | DirectoryN digest _ =>
          ren! o := get_directory digest in
          ren! directory := rlift (ok_or (DirectoryNotFound digest name) o) in
          ren! nar_node_directory := nar_writer NarWriter.directory in
          walk_nodes (walk_node fuel) directory nar_node_directory
      end
  end.

(** [write_nar] *)
Definition write_nar (fuel : nat) (root_node : Castore.Node) : rm unit :=
  ren! _ := nar_writer open in
  walk_node fuel root_node [].

End Render.

(** [calculate_size_and_sha256]: the hasher and the counter see what is written. *)
Definition calculate_size_and_sha256 {BS R DS} `{!BlobService BS R, !BufReader R, !DirectoryService DS, !Sha2}
    (dbg : bool) (blob_service : BS) (fuel : nat) (root_node : Castore.Node) (directory_service : DS)
    : outcome RenderError (Z * bytes) * DS :=
  let '(o, (w, ds)) := write_nar (W := bytes) dbg blob_service fuel root_node ([], directory_service) in
  (let? _ := o in Ok (Z.of_nat (length w), Sha256 w), ds).
