(* ===== verification/NarStoreSpec.v ===== *)
(** * Archives into the store and out of it again

    [write_nar] of a node whose blobs and directories are in the store gives
    the archive of the tree it stands for; [ingest_nar] of an archive puts
    all blobs and directories of its tree into the store. *)

From stdpp Require Import strings gmap sorting relations.
From S2P Require Import Prelude Io BTreeMap Crates NarWire NarWriter AsyncIo WireBytes NarAsync.
From S2P Require CastorePath.
From S2P Require Import Castore CastoreProto CastoreOrder PetGraph DirectoryGraph DirectoryDownload DirectoryService DirectoryCache BlobService Ingest IngestSpec UploadSpec NarStore.
Import CastorePath.
#[local] Open Scope nat_scope.

(** ** Rendering *)

(** The depth of a tree. *)
Fixpoint height (t : tree) : nat :=
  match t with
  | TDir es => S (max_list (map (λ e, match e with (_, t) => height t end) es))
  | _ => 1
  end.

Lemma height_child n t es : (n, t) ∈ es → height t < height (TDir es).
Proof.
  intros Hin. cbn. apply Nat.lt_succ_r, max_list_elem_of_le. apply list_elem_of_In, in_map_iff. exists (n, t). split; [done|].
  by apply list_elem_of_In.
Qed.

Section Render.
Context {BS R DS : Type} `{BlobServiceLaws BS R, !BufReader R, !BufReaderLaws R, !DirectoryHash, !Blake3, !DigestLaws, !DirectoryService DS}.
Context (dbg : bool) (bs : BS) (ds : DS).

(** The store has all blobs and directories of a tree. *)
Definition stored (t : tree) : Prop :=
  (∀ d, d ∈ dirs_of t → get (digest d) ds = (Ok (Some d), ds)) ∧
  ∀ b, b ∈ blobs_of t → blob_of bs (blake3_hash b) = Some b.

Lemma stored_child n t es : (n, t) ∈ es → stored (TDir es) → stored t.
Proof.
  intros Hin [Hd Hb]. split.
  - intros d Hdt. apply Hd. rewrite dirs_of_dir. apply elem_of_app. left. apply elem_of_subdirs. eauto.
  - intros b Hbt. apply Hb. apply list_elem_of_In, in_flat_map. exists (n, t). split; by apply list_elem_of_In.
Qed.

(** [m] writes exactly [out] and answers [a]. *)
Definition renders {A} (m : rm (DS := DS) (W := bytes) A) (out : bytes) (a : A) : Prop :=
  ∀ w, m (w, ds) = (Ok a, (w ++ out, ds)).

Lemma renders_bind {A C} (m : rm A) (f : A → rm C) xs ys a c :
  renders m xs a → renders (f a) ys c → renders (rbind m f) (xs ++ ys) c.
Proof. intros Hm Hf w. unfold rbind. by rewrite Hm, Hf, app_assoc. Qed.

Lemma renders_bind_nil {A C} (m : rm A) (f : A → rm C) ys a c :
  renders m [] a → renders (f a) ys c → renders (rbind m f) ys c.
Proof. apply renders_bind. Qed.

Lemma renders_lift {A} (o : outcome RenderError A) a : o = Ok a → renders (rlift o) [] a.
Proof. intros -> w. by rewrite app_nil_r. Qed.

Lemma renders_writer {A} (m : sm bytes A) out a : appends m out a → renders (nar_writer m) out a.
Proof. intros Hm w. unfold nar_writer. cbn. by rewrite Hm. Qed.

Lemma renders_file x data : blob_of bs (blake3_hash data) = Some data →
  renders (walk_node dbg bs 1 (castore_of (TFile x data)) []) (node_bytes (TFile x data)) tt.
Proof.
  intros Hb. pose proof (open_read_spec (blake3_hash data) bs) as Ho. rewrite Hb in Ho. destruct Ho as (r & Ho & Hr & He & _).
  cbn [walk_node castore_of]. rewrite Ho.
  eapply renders_bind_nil; [by apply renders_lift|]. eapply renders_bind_nil; [by apply renders_lift|].
  intros w. unfold write_file. cbn [fst snd]. destruct (buf_reader_spec r He) as [Hn Hc].
  destruct (file_spec x data (buf_reader r) w Hn) as [r' ->]; [by rewrite Hc|done].
Qed.

Lemma renders_nodes (walk : Castore.Node → bytes → rm unit) es p :
  (∀ n t, (n, t) ∈ es → renders (walk (castore_of t) n) (node_bytes t) tt) → entries_ok (default [] p) es →
  renders (walk_nodes dbg walk (dir_of_entries es) p) (rest_bytes p es) tt.
Proof.
  revert p. induction es as [|[n t] es IH]; intros p Hw Hok; cbn [dir_of_entries map walk_nodes].
  - rewrite rest_bytes_nil. apply renders_writer, appends_close.
  - destruct Hok as (Hn & Hlt & Hok & Hrest). rewrite rest_bytes_cons.
    eapply renders_bind; [apply renders_writer, appends_entry; [done|by intros ? ->]|].
    eapply renders_bind; [apply Hw; left|]. apply (IH (Some n)); [|done]. intros n' t' ?. apply Hw. by right.
Qed.

Lemma renders_node fuel t name :
  height t ≤ fuel → tree_ok t → stored t → renders (walk_node dbg bs fuel (castore_of t) name) (node_bytes t) tt.
Proof.
  revert fuel name. induction t as [target|x data|es IH] using tree_ind'; intros fuel name Hfuel Hok Hs.
  - destruct fuel; [cbn in Hfuel; lia|]. by apply renders_writer, appends_symlink.
  - destruct fuel; [cbn in Hfuel; lia|]. apply renders_file, Hs. cbn. set_solver.
  - destruct fuel as [|fuel]; [cbn in Hfuel; lia|]. rewrite castore_of_dir, node_bytes_dir. cbn [walk_node].
    eapply renders_bind_nil.
    { intros w. unfold get_directory. cbn [fst snd]. rewrite (proj1 Hs (dir_of_entries es)); [|rewrite dirs_of_dir; set_solver].
      by rewrite app_nil_r. }
    eapply renders_bind_nil; [by apply renders_lift|]. eapply renders_bind.
    { apply renders_writer. unfold directory. rewrite <- (app_nil_r TOK_DIR). eapply appends_bind; [apply appends_write|apply appends_ret]. }
    apply (renders_nodes _ es None); [|by rewrite tree_ok_dir in Hok].
    intros n t Ht. pose proof (height_child _ _ _ Ht) as Hh. rewrite tree_ok_dir in Hok. destruct (entries_ok_elem _ _ _ _ Hok Ht) as (_ & ? & _).
    eapply (Forall_forall _ _) in IH; [|exact Ht]. apply IH; [|done|by eapply stored_child]. cbn [snd]. lia.
Qed.

Lemma renders_nar fuel t : height t ≤ fuel → tree_ok t → stored t → renders (write_nar dbg bs fuel (castore_of t)) (nar t) tt.
Proof.
  intros. rewrite nar_node_bytes. unfold write_nar. eapply renders_bind; [apply renders_writer, appends_write|by apply renders_node].
Qed.

End Render.

(** ** Producing *)

#[local] Existing Instance PadPar.

(** What [copy] reads of a file is what [read_all] gives. *)
Lemma copy_loop_streams cap f dst s all s' :
  copy_loop (tag := PadPar) cap f dst s = Some (Ok all, s') → ∃ data, all = dst ++ data ∧ streams (WireBytes.poll_read (tag := PadPar)) cap s data s'.
Proof.
  revert dst s. induction f as [|f IH]; intros dst s; [done|]. cbn [copy_loop].
  destruct (WireBytes.poll_read cap s) as [[[[|b bs]|e|]|] s1] eqn:E; [|..|done|done|]; intros Hf.
  - injection Hf as <- <-. exists []. rewrite app_nil_r. split; [done|by apply streams_end].
  - apply IH in Hf as (data & -> & Hs). exists ((b :: bs) ++ data). split; [by rewrite app_assoc|by eapply streams_chunk].
  - apply IH in Hf as (data & -> & Hs). exists data. split; [done|by eapply streams_wait].
Qed.

Lemma read_all_streams cap st f r data r' :
  read_all cap st f r = Some (Ok data, r') → ∃ st', streams (WireBytes.poll_read (tag := PadPar)) cap (st, r) data (st', r').
Proof.
  unfold read_all. destruct (copy_loop cap f [] (st, r)) as [[o [st' r1]]|] eqn:E; [|done]. intros [= -> ->].
  apply copy_loop_streams in E as (d & -> & Hs). by exists st'.
Qed.

Lemma streams_read_all cap st r data st' r' :
  streams (WireBytes.poll_read (tag := PadPar)) cap (st, r) data (st', r') → ∃ f, read_all cap st f r = Some (Ok data, r').
Proof.
  assert (∀ s s', streams (WireBytes.poll_read (tag := PadPar)) cap s data s' →
    ∀ dst, ∃ f, copy_loop (tag := PadPar) cap f dst s = Some (Ok (dst ++ data), s')) as Hcopy.
  { induction 1 as [s s' E|s s1 data s' E _ IH|s s1 b bs data s' E _ IH]; intros dst.
    - exists 1. cbn [copy_loop]. by rewrite E, app_nil_r.
    - destruct (IH dst) as [f Hf]. exists (S f). cbn [copy_loop]. by rewrite E.
    - destruct (IH (dst ++ b :: bs)) as [f Hf]. exists (S f). cbn [copy_loop]. by rewrite E, Hf, <- app_assoc. }
  intros Hs. destruct (Hcopy _ _ Hs []) as [f Hf]. exists f. unfold read_all. by rewrite Hf.
Qed.

Section Produce.
Context {BS R W : Type} `{BlobWriterLaws BS R W} {HB : BstrSplit} `{!BstrSplitLaws}.
Context (dbg : bool) (cap : nat) (Hcap : 0 < cap).

(** [m] reads exactly [xs], sends [out], uploads the blobs [l] and answers [a], if its
    bounds and its fuel are large enough. *)
Definition preads {A} (m : nat → nat → pm (BS := BS) A) (xs : bytes) (out : list IngestionEntry) (l : list bytes) (a : A) : Prop :=
  ∀ s ys, rest (preader s) (xs ++ ys) → ∃ f0 s',
    (∀ n k f, f0 ≤ n → f0 ≤ k → f0 ≤ f → m n k f s = Some (Ok a, s')) ∧
    rest (preader s') ys ∧ sent s' = sent s ++ (inr <$> out) ∧ uploads l (uploader s) (uploader s').

Lemma preads_bind {A C} (m : nat → nat → pm A) (g : nat → nat → A → pm C) xs ys o1 o2 l1 l2 a c :
  preads m xs o1 l1 a → preads (λ n k, g n k a) ys o2 l2 c →
  preads (λ n k, pbind (m n k) (g n k)) (xs ++ ys) (o1 ++ o2) (l1 ++ l2) c.
Proof.
  intros Hm Hg s zs Hr. rewrite <- app_assoc in Hr. destruct (Hm s _ Hr) as (f1 & s1 & E1 & Hr1 & Hs1 & Hu1).
  destruct (Hg s1 _ Hr1) as (f2 & s2 & E2 & Hr2 & Hs2 & Hu2). exists (f1 `max` f2), s2. split_and!; [|done|..].
  - intros n k f Hn Hk Hf. unfold pbind. rewrite E1 by lia. apply E2; lia.
  - by rewrite Hs2, Hs1, fmap_app, app_assoc.
  - by eapply uploads_app.
Qed.

Lemma preads_ret {A} (a : A) : preads (λ _ _, pret a) [] [] [] a.
Proof. intros s ys Hr. exists 0, s. split_and!; [done|done|by rewrite app_nil_r|apply uploads_nil]. Qed.

Lemma preads_send e : preads (λ _ _, send e) [] [e] [] tt.
Proof. intros s ys Hr. eexists 0, _. split_and!; [done|done|done|apply uploads_nil]. Qed.

Lemma preads_reader {A} (m : am areader A) xs a : areads m xs a → preads (λ _ _, on_reader m) xs [] [] a.
Proof.
  intros Hm s ys Hr. destruct (Hm _ _ Hr) as (f0 & r' & E & Hr'). exists f0, (mkP r' (uploader s) (sent s)). split_and!.
  - intros n k f _ _ Hf. unfold on_reader. by rewrite E.
  - done.
  - by rewrite app_nil_r.
  - apply uploads_nil.
Qed.

Lemma preads_bound_k {A} (m : nat → nat → pm A) xs out l a :
  preads m xs out l a → preads (λ n k, match k with O => λ _ _, None | S k => m n k end) xs out l a.
Proof.
  intros Hm s ys Hr. destruct (Hm s ys Hr) as (f0 & s' & E & Hs'). exists (S f0), s'. split; [|done].
  intros n [|k] f ? ? ?; [lia|]. apply E; lia.
Qed.

(** A file is uploaded. *)
Lemma preads_file x data path :
  tree_ok (TFile x data) → Path.names_ok path →
  preads (λ n _, pbind (on_reader (node_new dbg)) (λ node, produce_nar_inner (W := W) dbg cap n node (Path.render path)))
    (node_bytes (TFile x data)) [] [data] (own_entry path (TFile x data)).
Proof.
  intros Hok Hp s ys Hr. destruct (file_reads dbg cap Hcap x data _ _ Hok Hr) as (f0 & st & r1 & r' & Hrun & Hlen & Hr').
  destruct (Hrun f0 ltac:(lia)) as [_ [st' Hs]%read_all_streams].
  destruct (upload_uploads cap _ (Path.render path) _ _ data (uploader s) Hs) as (f1 & u' & Hup & Hu).
  exists (S (f0 `max` f1)), (mkP r' u' (sent s)). split_and!; [|done|by rewrite app_nil_r|done].
  intros [|n] k f ? ? ?; [lia|]. unfold pbind at 1, on_reader. destruct (Hrun f ltac:(lia)) as [-> _]. cbn [omap_err].
  cbn [produce_nar_inner]. unfold pbind, upload_file. cbn [preader uploader sent]. rewrite Hlen, Hup by lia. done.
Qed.

(** The entries of a directory are sent as they are read. *)
Lemma produce_entries_step (produce : NarAsync.Node → bytes → pm (BS := BS) IngestionEntry) k p path f s :
  produce_entries dbg produce (S k) p path f s =
  pbind (on_reader (next_name p)) (λ o,
    match o with
    | None => pret (EDir path)
    | Some name =>
        pbind (on_reader (node_new dbg)) (λ node,
          match Path.try_push path name with
          | Ok entry_path => pbind (produce node entry_path) (λ entry, pbind (send entry) (λ _, produce_entries dbg produce k name path))
          | _ => ppanic
          end)
    end) f s.
Proof.
  cbn [produce_entries]. unfold pbind, on_reader, dir_next, abind, aret.
  destruct (next_name p f (preader s)) as [[[[name|]| |] r]|]; [|done..]. cbn [omap_err preader uploader sent].
  destruct (node_new dbg f r) as [[[node| |] r1]|]; [|done..]. cbn [omap_err]. by destruct (Path.try_push path name).
Qed.

(** A child: the entries below it, and its own. *)
Definition produces (path : list bytes) (t : tree) : Prop :=
  preads (λ n _, pbind (on_reader (node_new dbg)) (λ node, produce_nar_inner (W := W) dbg cap n node (Path.render path)))
    (node_bytes t) (inner_entries path t) (blobs_of t) (own_entry path t).

Lemma preads_ext {A} (m m' : nat → nat → pm A) xs out l a :
  (∀ n k f s, m n k f s = m' n k f s) → preads m' xs out l a → preads m xs out l a.
Proof.
  intros Hext Hm s ys Hr. destruct (Hm s ys Hr) as (f0 & s' & E & Hs'). exists f0, s'. split; [|done].
  intros n k f ? ? ?. rewrite Hext. by apply E.
Qed.

Lemma pbind_assoc {A C D} (m : pm A) (g : A → pm C) (h : C → pm (BS := BS) D) f s :
  pbind (pbind m g) h f s = pbind m (λ a, pbind (g a) h) f s.
Proof. unfold pbind. by destruct (m f s) as [[[a| |] s1]|]. Qed.

Lemma preads_entries_step (produce : nat → NarAsync.Node → bytes → pm (BS := BS) IngestionEntry) p path xs out l a :
  preads (λ n k, pbind (on_reader (next_name p)) (λ o,
    match o with
    | None => pret (EDir path)
    | Some name =>
        pbind (on_reader (node_new dbg)) (λ node,
          match Path.try_push path name with
          | Ok entry_path => pbind (produce n node entry_path) (λ entry, pbind (send entry) (λ _, produce_entries dbg (produce n) k name path))
          | _ => ppanic
          end)
    end)) xs out l a →
  preads (λ n k, produce_entries dbg (produce n) k p path) xs out l a.
Proof.
  intros Hm s ys Hr. destruct (Hm s ys Hr) as (f0 & s' & E & Hs'). exists (S f0), s'. split; [|done].
  intros n [|k] f ? ? ?; [lia|]. rewrite produce_entries_step. apply E; lia.
Qed.

Lemma preads_entries path d es :
  Path.names_ok path → (∀ n t, (n, t) ∈ es → produces (path ++ [n]) t) →
  sep (default [] d) = match d with Some _ => TOK_PAR | None => [] end → entries_ok (default [] d) es →
  preads (λ n k, produce_entries dbg (produce_nar_inner (W := W) dbg cap n) k (default [] d) (Path.render path))
    (rest_bytes d es) (child_entries path es) (flat_map (λ e, match e with (_, t) => blobs_of t end) es) (EDir (Path.render path)).
Proof.
  intros Hp Hin. revert d. induction es as [|[name t] es IH]; intros d Hsep Hok; apply preads_entries_step.
  - rewrite rest_bytes_nil, <- Hsep, <- (app_nil_r (sep _ ++ TOK_PAR)).
    apply (preads_bind _ _ _ _ [] [] [] []) with (a := None); [apply preads_reader, areads_next_end|apply preads_ret].
  - destruct Hok as (Hn & Hlt & Ht & Hes). rewrite rest_bytes_cons, <- Hsep.
    apply (preads_bind _ _ _ _ [] _ [] _) with (a := Some name); [by apply preads_reader, areads_next_name|].
    eapply preads_ext.
    { intros n k f s. rewrite Path.push_render by done. rewrite bool_decide_eq_true_2 by (by apply entry_name_ok_name).
      symmetry. apply pbind_assoc. }
    cbn [flat_map].
    change (child_entries path ((name, t) :: es)) with
      ((inner_entries (path ++ [name]) t ++ [own_entry (path ++ [name]) t]) ++ child_entries path es).
    rewrite <- (app_assoc (inner_entries _ _)). eapply preads_bind; [apply (Hin name t); left|].
    apply (preads_bind _ _ [] _ [own_entry (path ++ [name]) t] _ []) with (a := tt); [apply preads_send|].
    apply (IH (λ n t Hnt, Hin n t ltac:(by right)) (Some name)); [|done]. destruct Hn as [Hl _]. unfold sep. cbn.
    destruct name; [cbn in Hl; lia|done].
Qed.

Lemma produces_tree path t : Path.names_ok path → tree_ok t → produces path t.
Proof.
  revert path. induction t as [target|x data|es IH] using tree_ind'; intros path Hp Hok.
  - unfold produces. rewrite <- (app_nil_r (node_bytes _)). apply (preads_bind _ _ _ _ [] [] [] []) with (a := Symlink target);
      [by apply preads_reader, (areads_symlink dbg cap Hcap)|].
    intros s ys Hr. exists 1, s. split_and!; [|done|by rewrite app_nil_r|apply uploads_nil]. intros [|n] k f ? ? ?; [lia|done].
  - by apply preads_file.
  - unfold produces. rewrite node_bytes_dir. apply (preads_bind _ _ _ _ [] _ [] _) with (a := NarAsync.Directory []);
      [apply preads_reader, areads_dir|].
    assert (∀ n t, (n, t) ∈ es → produces (path ++ [n]) t) as Hin.
    { intros n t Ht. rewrite tree_ok_dir in Hok. destruct (entries_ok_elem _ _ _ _ Hok Ht) as (Hn & ? & _). apply entry_name_ok_name in Hn.
      eapply (Forall_forall _ _) in IH; [|exact Ht]. apply IH; [|done]. apply Forall_app. split; [done|by apply Forall_singleton]. }
    rewrite tree_ok_dir in Hok. intros s ys Hr. destruct (preads_entries path None es Hp Hin eq_refl Hok s ys Hr) as (f0 & s' & E & Hs').
    exists (S f0), s'. split; [|done]. intros [|n] k f ? ? ?; [lia|]. cbn [produce_nar_inner]. apply E; lia.
Qed.

(** *** What was produced is what was read *)

Lemma pbind_Ok {A C} (m : pm A) (g : A → pm (BS := BS) C) f s c s' :
  pbind m g f s = Some (Ok c, s') → ∃ a s1, m f s = Some (Ok a, s1) ∧ g a f s1 = Some (Ok c, s').
Proof. unfold pbind. destruct (m f s) as [[[a| |] s1]|]; [|done..]. eauto. Qed.

Lemma on_reader_Ok {A} (m : am areader A) f s (a : A) s' :
  on_reader (BS := BS) m f s = Some (Ok a, s') → ∃ r, m f (preader s) = Some (Ok a, r) ∧ s' = mkP r (uploader s) (sent s).
Proof. unfold on_reader. destruct (m f (preader s)) as [[[x| |] r]|]; [|done..]. intros [= <- <-]. eauto. Qed.

(** The node of a tree at a path, and what was sent before. *)
Definition produced_only (n : nat) : Prop := ∀ path f s s1 s' xs node e,
  Path.names_ok path → rest (preader s) xs → on_reader (node_new dbg) f s = Some (Ok node, s1) →
  produce_nar_inner (W := W) dbg cap n node (Path.render path) f s1 = Some (Ok e, s') →
  ∃ t ys, tree_ok t ∧ xs = node_bytes t ++ ys ∧ rest (preader s') ys ∧ e = own_entry path t ∧
    sent s' = sent s ++ (inr <$> inner_entries path t).

Lemma produced_entries n k d path f s s' xs e :
  produced_only n → Path.names_ok path → rest (preader s) xs →
  sep (default [] d) = match d with Some _ => TOK_PAR | None => [] end →
  produce_entries dbg (produce_nar_inner (W := W) dbg cap n) k (default [] d) (Path.render path) f s = Some (Ok e, s') →
  ∃ es ys, entries_ok (default [] d) es ∧ xs = rest_bytes d es ++ ys ∧ rest (preader s') ys ∧ e = EDir (Path.render path) ∧
    sent s' = sent s ++ (inr <$> child_entries path es).
Proof.
  intros IHn Hp. revert d s xs. induction k as [|k IH]; intros d s xs Hr Hsep E; [done|]. rewrite produce_entries_step in E.
  apply pbind_Ok in E as (o & s1 & (r1 & E1 & ->)%on_reader_Ok & E).
  destruct (aonly_next_name _ _ _ _ _ _ Hr E1) as (ys & zs & -> & Hr1 & Ho). destruct o as [name|]; cbn [next_ok] in Ho.
  - destruct Ho as (Hn & Hlt & ->). apply pbind_Ok in E as (node & s2 & E2 & E). rewrite Path.push_render in E by done.
    assert (Path.names_ok (path ++ [name])) as Hpn by (apply Forall_app; split; [done|by apply Forall_singleton, entry_name_ok_name]).
    rewrite bool_decide_eq_true_2 in E by (by apply entry_name_ok_name). apply pbind_Ok in E as (e1 & s3 & E3 & E).
    destruct (IHn (path ++ [name]) f (mkP r1 (uploader s) (sent s)) s2 s3 zs node e1 Hpn Hr1 E2 E3) as (t & zs' & Ht & -> & Hr3 & -> & Hs3).
    apply pbind_Ok in E as ([] & s4 & [= <-] & E). destruct (IH (Some name) (mkP (preader s3) (uploader s3) (sent s3 ++ [inr (own_entry (path ++ [name]) t)])) zs' Hr3) as (es & ys & Hes & -> & Hr' & -> & Hs'); [|exact E|].
    { destruct Hn as [Hl _]. unfold sep. cbn. by destruct name; [cbn in Hl; lia|]. }
    exists ((name, t) :: es), ys. split_and!; [by split_and!| |done|done|].
    + by rewrite rest_bytes_cons, <- Hsep, <- !app_assoc.
    + rewrite Hs'. cbn [sent]. rewrite Hs3. cbn [sent].
      change (child_entries path ((name, t) :: es)) with
        ((inner_entries (path ++ [name]) t ++ [own_entry (path ++ [name]) t]) ++ child_entries path es).
      by rewrite !fmap_app, <- !app_assoc.
  - subst ys. injection E as <- <-. exists [], zs. split_and!; [done| |done|done|by rewrite app_nil_r].
    by rewrite rest_bytes_nil, <- Hsep.
Qed.

Lemma produced_tree n : produced_only n.
Proof.
  induction n as [|n IH]; intros path f s s1 s' xs node e Hp Hr (r1 & E1 & ->)%on_reader_Ok E; [done|].
  pose proof (node_new_only dbg cap Hcap _ _ _ _ _ Hr E1) as Hn. cbn [produce_nar_inner] in E. destruct node as [target|x st|p].
  - destruct Hn as (Ht & zs & -> & Hr1). injection E as <- <-. exists (TSymlink target), zs. split_and!; [done..|by rewrite app_nil_r].
  - apply pbind_Ok in E as (dg & s2 & E2 & [= <- <-]). unfold upload_file in E2. cbn [uploader preader sent] in E2.
    destruct (upload _ _ _ _ _ _ _) as [[[[dg'| |] [st' r']] u]|] eqn:Eu; [|done..]. injection E2 as <- <-.
    apply upload_Ok in Eu as (data & Hs & Hsize & ->). apply streams_read_all in Hs as [f' Hall].
    destruct (Hn f' data r' Hall) as (_ & Ht & zs & -> & Hr'). exists (TFile x data), zs.
    split_and!; [done|done|done|by rewrite Hsize|by rewrite app_nil_r].
  - destruct Hn as (-> & zs & -> & Hr1).
    destruct (produced_entries n n None path f (mkP r1 (uploader s) (sent s)) s' zs e IH Hp Hr1 eq_refl E) as (es & ys & Hes & -> & Hr' & -> & Hs').
    exists (TDir es), ys. split_and!; [by rewrite tree_ok_dir|by unfold rest_bytes; rewrite node_bytes_dir, <- !app_assoc|done|done|done].
Qed.

End Produce.

(** ** Ingesting an archive *)

Section IngestNar.
Context {BS R W : Type} `{BlobWriterLaws BS R W, !BufReader R, !BufReaderLaws R, !DirectoryHash, !DigestLaws, PetGraphLaws, ScheduleLaws}.
Context {HB : BstrSplit} `{!BstrSplitLaws}.
Context (dbg : bool) (cap : nat) (Hcap : 0 < cap).

(** [blake3] tells the files of a tree apart, from each other and from what
    the service has. *)
Definition blobs_apart (t : tree) (bs : BS) : Prop :=
  (∀ a b, a ∈ blobs_of t → b ∈ blobs_of t → blake3_hash a = blake3_hash b → a = b) ∧
  ∀ a c, a ∈ blobs_of t → blob_of bs (blake3_hash a) = Some c → c = a.

Lemma root_ok : Path.names_ok [B "root"].
Proof. by apply (bool_decide_unpack _); vm_compute. Qed.

(** What [produce] does with an archive. *)
Lemma produce_nar_runs t r ys (bs : BS) :
  tree_ok t → rest r (nar t ++ ys) → ∃ f0 u r', rest r' ys ∧ uploads (blobs_of t) (mkUploader bs []) u ∧
    ∀ f, f0 ≤ f → ∃ node r1, open_reader dbg f r = Some (Ok node, r1) ∧
      produce_nar_inner (W := W) dbg cap f node (B "root") f (mkP r1 (mkUploader bs []) []) =
      Some (Ok (own_entry [B "root"] t), mkP r' u (inr <$> inner_entries [B "root"] t)).
Proof.
  intros Hok Hr. rewrite nar_node_bytes, <- app_assoc in Hr. destruct (areads_token TOK_NAR r _ Hr) as (f1 & r0 & E0 & Hr0).
  destruct (produces_tree (R := R) (W := W) dbg cap Hcap [B "root"] t root_ok Hok (mkP r0 (mkUploader bs []) []) ys Hr0)
    as (f2 & [r' u sent'] & E & Hr' & Hsent & Hu).
  cbn in Hr', Hsent, Hu. subst sent'. exists (f1 `max` f2), u, r'. split_and!; [done|done|]. intros f Hf.
  specialize (E f f f ltac:(lia) ltac:(lia) ltac:(lia)). unfold pbind, on_reader in E. cbn [preader uploader sent] in E.
  unfold open_reader, abind. rewrite E0 by lia. destruct (node_new dbg f r0) as [[[node| |] r1]|]; [|done..].
  exists node, r1. split; [done|]. exact E.
Qed.

Lemma ingest_nar_stores t r ys (bs : BS) (ds : MemoryDirectoryService) :
  tree_ok t → fits t → collision_free (dirs_of t) → blobs_apart t bs → mem_ok ds → rest r (nar t ++ ys) →
  ∃ f0 r' bs' ds', (∀ f, f0 ≤ f →
      ingest_nar (W := W) (DirectoryService0 := Memory_DirectoryService dbg) dbg cap f r bs ds = Some (Ok (castore_of t), r', bs', ds')) ∧
    rest r' ys ∧ stores (blobs_of t) bs bs' ∧ has_tree t ds ds'.
Proof.
  intros Hok Hf Hc Hb Hds Hr. destruct (produce_nar_runs t r ys bs Hok Hr) as (f1 & u & r' & Hr' & Hu & Hrun).
  destruct (join_stores cap Hcap _ _ _ Hu) as (f2 & bs' & Hjoin & Hs).
  assert (entry_name_ok (B "root")) as Hn by (apply entry_name_ok_name; by apply Forall_singleton, root_ok).
  destruct (ingest_tree_memory (E := Error) dbg (B "root") t ds Hn Hok Hf Hc Hds) as (ds' & Hing & Hds').
  exists (f1 `max` f2), r', bs', ds'. split_and!; [|done..]. intros f Hfuel. unfold ingest_nar.
  destruct (Hrun f ltac:(lia)) as (node & r1 & -> & ->). cbn [uploader preader sent]. rewrite Hjoin by lia.
  cbn [app]. change ([inr (own_entry [B "root"] t)]) with (inr (A := Error) <$> [own_entry [B "root"] t]). rewrite <- fmap_app.
  fold (tree_entries (B "root") t). by rewrite Hing.
Qed.

Lemma stored_after t (bs bs' : BS) ds ds' :
  blobs_apart t bs → stores (blobs_of t) bs bs' → has_tree t ds ds' →
  stored (DirectoryService0 := Memory_DirectoryService dbg) bs' ds' t.
Proof.
  intros [Hb1 Hb2] Hs (Hmem & Hd & _). split.
  - intros d Hdt. cbn. rewrite memory_get_spec by done. by rewrite Hd.
  - intros b Hbt. eapply stores_blob; [done|done|intros a Ha; by apply Hb1|intros c; by apply Hb2].
Qed.

End IngestNar.

(** C3: the archive of a tree survives the store: whatever chunks and delays its
    bytes come in, and in whatever order the background uploads finish,
    [ingest_nar] consumes exactly the archive, answers the node of the tree, and
    [write_nar] of that node with what the services then have writes the same
    archive again. *)
Theorem nar_store_roundtrip {BS R W : Type} `{BlobWriterLaws BS R W, !BufReader R, !BufReaderLaws R, !DirectoryHash, !DigestLaws, PetGraphLaws, ScheduleLaws}
    {HB : BstrSplit} `{!BstrSplitLaws} (dbg : bool) (cap : nat) (t : tree) (r : areader) (ys : bytes) (bs : BS) (ds : MemoryDirectoryService) :
  0 < cap → tree_ok t → fits t → collision_free (dirs_of t) → blobs_apart t bs → mem_ok ds → rest r (nar t ++ ys) →
  ∃ f0 r' bs' ds', rest r' ys ∧ ∀ f, f0 ≤ f →
    ingest_nar (W := W) (DirectoryService0 := Memory_DirectoryService dbg) dbg cap f r bs ds = Some (Ok (castore_of t), r', bs', ds') ∧
    ∀ w, write_nar (DirectoryService0 := Memory_DirectoryService dbg) dbg bs' f (castore_of t) (w, ds') = (Ok tt, (w ++ nar t, ds')).
Proof.
  intros Hcap Hok Hf Hc Hb Hds Hr.
  destruct (ingest_nar_stores dbg cap Hcap t r ys bs ds Hok Hf Hc Hb Hds Hr) as (f0 & r' & bs' & ds' & Hrun & Hr' & Hs & Hd).
  pose proof (stored_after dbg t bs bs' ds ds' Hb Hs Hd) as Hst. exists (f0 `max` height t), r', bs', ds'. split; [done|].
  intros f Hfuel. split; [apply Hrun; lia|]. apply renders_nar; [lia|done..].
Qed.

Lemma ingest_loop_all `{!DirectoryHash, !BstrSplit, !DirectoryService DS} {E} dbg (entries : list (E + IngestionEntry)) self x :
  ingest_loop dbg entries self = Ok (x, []) → ∀ e, inl e ∉ entries.
Proof.
  revert self. induction entries as [|[e|entry] entries IH]; intros self; cbn; [done|done|].
  destruct (ingest_entry dbg entry self) as [[[node s]|s]| |]; cbn; [|intros Hr|done|done].
  - intros [= _ ->] e [|?%elem_of_nil]%elem_of_cons; done.
  - intros e [|He]%elem_of_cons; [done|]. by apply (IH s Hr e).
Qed.

Lemma ingest_entries_all `{!DirectoryHash, !BstrSplit, !DirectoryService DS} {E} dbg (entries : list (E + IngestionEntry)) ds node ds' :
  ingest_entries dbg entries ds = (Ok node, ds') → ∀ e, inl e ∉ entries.
Proof.
  unfold ingest_entries. destruct (ingest_loop dbg entries (mkIngest ∅ None)) as [[[n self] l]| |] eqn:E'; [|done..].
  destruct l as [|e l]; [|done]. intros _. by eapply ingest_loop_all.
Qed.

Lemma ingest_nar_accepts {BS R W : Type} `{BlobWriterLaws BS R W, !DirectoryHash, !DigestLaws, PetGraphLaws, !Schedule}
    {HB : BstrSplit} `{!BstrSplitLaws} (dbg : bool) (cap fuel : nat) (r r' : areader) (xs : bytes) (bs bs' : BS) (ds ds' : MemoryDirectoryService) (node : Castore.Node) :
  0 < cap → rest r xs →
  ingest_nar (W := W) (DirectoryService0 := Memory_DirectoryService dbg) dbg cap fuel r bs ds = Some (Ok node, r', bs', ds') →
  ∃ t ys, tree_ok t ∧ xs = nar t ++ ys ∧ rest r' ys ∧
    (fits t → collision_free (dirs_of t) → mem_ok ds → node = castore_of t).
Proof.
  intros Hcap Hr E. unfold ingest_nar in E. destruct (open_reader dbg fuel r) as [[[root| |] r0]|] eqn:E0; [|done..].
  apply abind_Ok in E0 as ([] & r1 & E1 & E0). destruct (aonly_token _ _ _ _ _ _ Hr E1) as (ys & zs & -> & Hr1 & ->).
  destruct (produce_nar_inner dbg cap fuel root (B "root") fuel _) as [[res s]|] eqn:E2; [|done].
  assert (∃ e, res = Ok e ∧ ∃ o, ingest_entries (DirectoryService0 := Memory_DirectoryService dbg) dbg (sent s ++ [inr e]) ds = (Ok node, o) ∧ preader s = r')
    as (e & -> & o & Hing & <-).
  { destruct res as [e|e|]; [..|done].
    - exists e. split; [done|]. destruct (join cap fuel (uploader s)) as [[joined bs1]|]; [|done].
      destruct (ingest_entries _ _ _) as [o ds1] eqn:Ei. injection E as -> -> -> ->.
      destruct joined as [[]|je|]; [by exists ds'| |by exists ds']. exfalso.
      eapply (ingest_entries_all dbg _ _ _ _ Ei (BlobUpload je)). set_solver.
    - destruct (join cap fuel (uploader s)) as [[joined bs1]|]; [|done].
      destruct (ingest_entries _ _ _) as [o ds1] eqn:Ei. injection E as -> -> -> ->.
      exfalso. eapply (ingest_entries_all dbg _ _ _ _ Ei e). set_solver. }
  destruct (produced_tree dbg cap Hcap fuel [B "root"] fuel (mkP r1 (mkUploader bs []) []) (mkP r0 (mkUploader bs []) []) s zs root e)
    as (t & ys & Ht & -> & Hr' & -> & Hsent); [apply root_ok|done| |exact E2|].
  { unfold on_reader. cbn [preader]. by rewrite E0. }
  exists t, ys. rewrite nar_node_bytes, <- app_assoc. split_and!; [done..|]. intros Hf Hc Hds.
  assert (entry_name_ok (B "root")) as Hn by (apply entry_name_ok_name; by apply Forall_singleton, root_ok).
  destruct (ingest_tree_memory (E := Error) dbg (B "root") t ds Hn Ht Hf Hc Hds) as (ds2 & Hing2 & _).
  unfold tree_entries in Hing2. rewrite fmap_app in Hing2. rewrite Hsent in Hing. cbn [sent app fmap list_fmap] in Hing, Hing2.
  rewrite Hing in Hing2. by injection Hing2.
Qed.

(** C4: whatever [ingest_nar] accepts, from any source without faults, is the
    archive of a valid tree in its one encoding, of which it consumes exactly the
    bytes; the node it answers is that of the tree. *)
Theorem ingest_nar_canonical {BS R W : Type} `{BlobWriterLaws BS R W, !DirectoryHash, !DigestLaws, PetGraphLaws, !Schedule}
    {HB : BstrSplit} `{!BstrSplitLaws} (dbg : bool) (cap fuel : nat) (r r' : areader) (xs : bytes) (bs bs' : BS) (ds ds' : MemoryDirectoryService) (node : Castore.Node) :
  0 < cap → rest r xs →
  ingest_nar (W := W) (DirectoryService0 := Memory_DirectoryService dbg) dbg cap fuel r bs ds = Some (Ok node, r', bs', ds') →
  ∃ t ys, tree_ok t ∧ xs = nar t ++ ys ∧ rest r' ys ∧
    (fits t → collision_free (dirs_of t) → mem_ok ds → node = castore_of t).
Proof. apply ingest_nar_accepts. Qed.

(** ** Examples *)

Module Examples.
Import GraphModel Crates.Models.
Import IngestSpec.Examples.
#[local] Existing Instances dir_hash file_hash example_digests.

#[local] Instance cursor_buffer : BufReader Cursor := λ c,
  match drop (N.to_nat (cursor_pos c)) (inner c) with [] => [] | b :: bs => [Chunk b bs] end.
#[local] Instance cursor_buffer_ok : BufReaderLaws Cursor.
Proof. intros c _. unfold buf_reader, cursor_buffer. cbn. destruct (drop _ _); cbn; rewrite ?app_nil_r; (split; [repeat constructor|done]). Qed.

(** The last task that was spawned ends first. *)
#[local] Instance last_first : Schedule := λ l, rev l.
#[local] Instance last_first_ok : ScheduleLaws.
Proof. intros l. symmetry. apply Permutation_rev. Qed.

Definition no_blobs : MemoryBlobService := BlobService.mkMemory ∅.
Definition no_dirs : MemoryDirectoryService := IngestSpec.Examples.empty.

(** The archive in two chunks, after a delay, and more bytes behind it. *)
Definition chunk (bs : bytes) : option event := match bs with [] => None | b :: bs => Some (Chunk b bs) end.
Definition source : areader := [None; chunk (take 100 (nar sample)); None; chunk (drop 100 (nar sample) ++ B "more")].

Lemma archive_source_rest : rest source (nar sample ++ B "more").
Proof. split; [repeat constructor|by vm_compute]. Qed.

Lemma sample_blobs_apart : blobs_apart sample no_blobs.
Proof.
  split; [|done]. assert (Forall (λ a, Forall (λ b, a = b) (blobs_of sample)) (blobs_of sample)) as Hs by (by apply (bool_decide_unpack _); vm_compute).
  intros a b Ha Hb _. eapply Forall_forall in Hs; [|exact Ha]. by eapply Forall_forall in Hs.
Qed.

Lemma nar_store_roundtrip_witness :
  ∃ f0 r' bs' ds', rest r' (B "more") ∧ ∀ f, f0 ≤ f →
    ingest_nar (W := MemoryBlobWriter) (DirectoryService0 := Memory_DirectoryService true) true 16 f source no_blobs no_dirs =
      Some (Ok (castore_of sample), r', bs', ds') ∧
    ∀ w, write_nar (DirectoryService0 := Memory_DirectoryService true) true bs' f (castore_of sample) (w, ds') = (Ok tt, (w ++ nar sample, ds')).
Proof.
  apply (nar_store_roundtrip true 16 sample source (B "more") no_blobs no_dirs); [lia|apply sample_ok|apply sample_fits|apply sample_collision_free|
    apply sample_blobs_apart|apply none_ok|apply archive_source_rest].
Defined.

Definition ingested := ingest_nar (W := MemoryBlobWriter) (DirectoryService0 := Memory_DirectoryService true) true 16 100 source no_blobs no_dirs.

Definition ingested_node : option Castore.Node := match ingested with Some (Ok node, _, _, _) => Some node | _ => None end.

Lemma ingested_computes : ingested_node = Some (castore_of sample).
Proof. by vm_compute. Qed.

Lemma ingest_nar_canonical_witness : ∃ r' t ys,
  tree_ok t ∧ nar sample ++ B "more" = nar t ++ ys ∧ rest r' ys ∧
  (fits t → collision_free (dirs_of t) → mem_ok no_dirs → castore_of sample = castore_of t).
Proof.
  pose proof ingested_computes as E. unfold ingested_node in E.
  destruct ingested as [[[[[node| |] r'] bs'] ds']|] eqn:Ei; try discriminate E. injection E as ->.
  exists r'. apply (ingest_nar_canonical true 16 100 source r' (nar sample ++ B "more") no_blobs bs' no_dirs ds' (castore_of sample)); [lia|apply archive_source_rest|].
  exact Ei.
Defined.

End Examples.
