(* ===== verification/Faults.v ===== *)
(** * Sources that fail

    An archive that comes over the network may end in a fault. Whatever was
    read from such a source without an error is what would have been read if the
    source had ended where it failed: nothing behind a fault is looked at. *)

From stdpp Require Import strings gmap.
From S2P Require Import Prelude Io Crates NarWire NarWriter AsyncIo WireBytes NarAsync.
From S2P Require CastorePath.
From S2P Require Import Castore CastoreOrder PetGraph DirectoryGraph DirectoryDownload DirectoryService DirectoryCache BlobService Ingest IngestSpec UploadSpec NarStore NarStoreSpec.
#[local] Open Scope nat_scope.

(** ** Up to the first fault *)

Fixpoint before_fault (r : areader) : areader :=
  match r with
  | [] | Some (Fault _) :: _ => []
  | e :: r => e :: before_fault r
  end.

Fixpoint from_fault (r : areader) : areader :=
  match r with
  | [] => []
  | Some (Fault _) :: _ => r
  | _ :: r => from_fault r
  end.

(** The bytes that come before the first fault. *)
Definition good_bytes (r : areader) : bytes := contents (deliver (before_fault r)).

Lemma before_fault_rest r : rest (before_fault r) (good_bytes r).
Proof.
  split; [|done]. unfold deliver. induction r as [|[[b bs|k]|] r IH]; cbn; [constructor|by apply no_fault_cons|constructor|done].
Qed.

Lemma before_fault_id r : no_fault (deliver r) → before_fault r = r.
Proof.
  unfold deliver. induction r as [|[[b bs|k]|] r IH]; cbn; [done|..].
  - intros [_ Hr]%no_fault_cons. by rewrite IH.
  - by intros [? _]%no_fault_cons.
  - intros Hr. by rewrite IH.
Qed.

Lemma from_fault_nil r : no_fault (deliver r) → from_fault r = [].
Proof. unfold deliver. induction r as [|[[b bs|k]|] r IH]; cbn; [done|intros [_ Hr]%no_fault_cons; by apply IH|by intros [? _]%no_fault_cons|done]. Qed.

Lemma good_bytes_rest r xs : rest r xs → good_bytes r = xs.
Proof. intros [Hr <-]. unfold good_bytes. by rewrite before_fault_id. Qed.

Lemma contents_split r : contents (deliver r) = good_bytes r ++ contents (deliver (from_fault r)).
Proof.
  unfold good_bytes, deliver. induction r as [|[[b bs|k]|] r IH]; cbn; [done| |done|done]. by rewrite IH, <- app_assoc.
Qed.

(** ** Programs that stop at a fault *)

(** A state with a source in it. *)
Class Source (S : Type) := { cut : S → S; behind : S → areader }.
#[export] Instance areader_Source : Source areader := {| cut := before_fault; behind := from_fault |}.
#[export] Instance pair_Source {A S} `{Source S} : Source (A * S) := {| cut '(a, s) := (a, cut s); behind '(_, s) := behind s |}.

(** A successful run is one of the source cut at its fault, and leaves what is behind it. *)
Definition heeds {E S A} `{Source S} (m : nat → S → option (outcome E A * S)) : Prop :=
  ∀ f s a s', m f s = Some (Ok a, s') → m f (cut s) = Some (Ok a, cut s') ∧ behind s' = behind s.

Definition poll_heeds {S A} `{Source S} (p : poll S A) : Prop :=
  ∀ s o s', p s = (o, s') → match o with Some (Ok _) | None => p (cut s) = (o, cut s') ∧ behind s' = behind s | _ => True end.

Create HintDb heeds discriminated.

Section Programs.
Context {S A C : Type} `{Source S}.

Lemma heeds_ret (a : A) : heeds (S := S) (aret a).
Proof. by intros f s a' s' [= <- <-]. Qed.
Lemma heeds_throw e : heeds (S := S) (A := A) (athrow e).
Proof. by intros f s a' s'. Qed.
Lemma heeds_panic : heeds (S := S) (A := A) apanic.
Proof. by intros f s a' s'. Qed.
Lemma heeds_lift (o : outcome ErrorKind A) : heeds (S := S) (alift o).
Proof. by intros f s a' s' [= -> <-]. Qed.

Lemma heeds_bind (m : am S A) (k : A → am S C) : heeds m → (∀ a, heeds (k a)) → heeds (abind m k).
Proof.
  intros Hm Hk f s c s'' (a & s' & E1 & E2)%abind_Ok. destruct (Hm _ _ _ _ E1) as [E1' <-], (Hk _ _ _ _ _ E2) as [E2' ->].
  split; [|done]. apply abind_Ok. eauto.
Qed.

Lemma heeds_await (p : poll S A) : poll_heeds p → heeds (await p).
Proof.
  intros Hp f. unfold await. induction f as [|f IH]; intros s a s' E; [done|]. cbn in *.
  destruct (p s) as [[o|] s1] eqn:Ep; specialize (Hp _ _ _ Ep).
  - injection E as -> ->. destruct Hp as [-> ->]. done.
  - destruct Hp as [-> <-]. by apply IH.
Qed.

End Programs.

#[export] Hint Resolve heeds_ret heeds_throw heeds_panic heeds_lift heeds_bind heeds_await : heeds.

(** Case analyses and sequences of what is known to stop at faults. *)
Ltac heeds := intros; repeat first
  [ progress eauto with heeds nocore | apply heeds_bind; [|intros] | case_match ].

(** ** Reading *)

Lemma apoll_read_heeds n : poll_heeds (apoll_read n).
Proof.
  intros r o r'. unfold apoll_read. destruct (n =? 0); [by intros [= <- <-]|].
  destruct r as [|[[b bs|k]|] r]; intros [= <- <-]; [done| |done|done].
  cbn [cut areader_Source before_fault]. split; [|unfold aconsume; by destruct (drop n (b :: bs))].
  f_equal. unfold aconsume. by destruct (drop n (b :: bs)).
Qed.

(** A loop over polls: one turn, and the turns after it. *)
Ltac poll_step n r :=
  let Hp := fresh "Hp" in
  destruct (apoll_read n r) as [[[bs|e|]|] r1] eqn:Hr; pose proof (apoll_read_heeds n r _ _ Hr) as Hp;
  cbn [cut behind areader_Source] in Hp |- *; lazymatch type of Hp with
  | _ ∧ _ => let Hb := fresh "Hb" in destruct Hp as [Hp Hb]; rewrite Hp, <- ?Hb
  | _ => idtac
  end.

Lemma read_exact_loop_heeds n buf : heeds (λ f r, read_exact_loop f n buf r).
Proof.
  intros f. revert n buf. induction f as [|f IH]; intros n buf r a r' E; [done|]. cbn [read_exact_loop] in *.
  destruct (n =? 0); [by injection E as <- <-|]. poll_step n r; [|done..|by apply IH]. destruct bs; [done|by apply IH].
Qed.
Lemma heeds_read_exact n : heeds (aread_exact n).
Proof. apply read_exact_loop_heeds. Qed.

Lemma read_limited_loop_heeds n buf : heeds (λ f r, read_limited_loop f n buf r).
Proof.
  intros f. revert n buf. induction f as [|f IH]; intros n buf r a r' E; [done|]. cbn [read_limited_loop] in *.
  destruct (n =? 0); [by injection E as <- <-|]. poll_step n r; [|done..|by apply IH]. destruct bs; [by injection E as <- <-|by apply IH].
Qed.
Lemma heeds_read_limited n : heeds (aread_limited n).
Proof. apply read_limited_loop_heeds. Qed.

Lemma heeds_fill n buf : heeds (λ f r, fill_loop f n buf r).
Proof.
  intros f. revert n buf. induction f as [|f IH]; intros n buf r a r' E; [done|]. cbn [fill_loop] in *.
  destruct (n =? 0); [by injection E as <- <-|]. poll_step n r; [by apply IH|done..|by apply IH].
Qed.

Lemma heeds_token tok : heeds (token tok).
Proof.
  intros f. unfold token. revert tok. induction f as [|f IH]; intros tok r a r' E; [done|]. cbn [token_loop] in *.
  destruct tok as [|t tok]; [by injection E as <- <-|]. poll_step (length (t :: tok)) r; [|done..|by apply IH].
  destruct bs; [done|]. case_bool_decide; [by apply IH|done].
Qed.

#[export] Hint Resolve heeds_read_exact heeds_read_limited heeds_fill heeds_token : heeds.

Lemma heeds_u64_le : heeds aread_u64_le.
Proof. unfold aread_u64_le. heeds. Qed.
#[export] Hint Resolve heeds_u64_le : heeds.

Lemma heeds_read_len lo hi : heeds (read_len lo hi).
Proof. unfold read_len. heeds. Qed.
#[export] Hint Resolve heeds_read_len : heeds.

Lemma heeds_read_bytes dbg lo hi : heeds (read_bytes dbg lo hi).
Proof. unfold read_bytes. heeds. Qed.
Lemma heeds_read_bytes_buf N lo hi : heeds (read_bytes_buf N lo hi).
Proof. unfold read_bytes_buf. heeds. Qed.
Lemma heeds_tag T `{Tag T, EqDecision T} : heeds (read_tag T).
Proof. unfold read_tag. heeds. Qed.
#[export] Hint Resolve heeds_read_bytes heeds_read_bytes_buf heeds_tag : heeds.

(** ** Packets *)

Section Packets.
Context {tag : PacketTag}.

Lemma poll_trailer_heeds turns : poll_heeds (poll_trailer turns).
Proof.
  induction turns as [|turns IH]; intros [t r] o s'; cbn [poll_trailer]; [by intros [= <- <-]|].
  intros E. cbn [cut pair_Source poll_trailer]. destruct ((_ <=? _) && _); [by injection E as <- <-|].
  destruct (filled t =? length PATTERN); [by injection E as <- <-|].
  poll_step (length PATTERN - filled t) r; [|by injection E as <- <-..|].
  - destruct bs as [|b bs]; [by injection E as <- <-|]. specialize (IH _ _ _ E). destruct o as [[x|e|]|]; [|done..|];
      (destruct IH as [IH Hb']; split; [exact IH|etransitivity; [exact Hb'|exact Hb]]).
  - injection E as <- <-. by split.
Qed.

Lemma in_trailer_heeds {A} t r (k : bytes → areader → option (outcome ErrorKind A) * (State * areader)) o s' :
  (∀ data r o s', k data r = (o, s') → match o with Some (Ok _) | None => k data (cut r) = (o, cut s') ∧ behind s' = behind r | _ => True end) →
  in_trailer t r k = (o, s') → match o with Some (Ok _) | None => in_trailer t (cut r) k = (o, cut s') ∧ behind s' = behind r | _ => True end.
Proof.
  intros Hk. unfold in_trailer. destruct (poll_trailer trailer_turns (t, r)) as [o1 [t1 r1]] eqn:E1.
  pose proof (poll_trailer_heeds _ _ _ _ E1) as H1. destruct o1 as [[data|e|]|]; [|by intros [= <- <-]..|].
  - intros E. specialize (Hk _ _ _ _ E). destruct H1 as [H1 Hb1]. cbn [cut behind pair_Source] in *. rewrite H1.
    destruct o as [[x|e|]|]; [|done..|]; (destruct Hk as [Hk ->]; split; [exact Hk|exact Hb1]).
  - intros [= <- <-]. destruct H1 as [H1 Hb1]. cbn [cut behind pair_Source] in *. by rewrite H1.
Qed.

Lemma release_heeds n data r o s' :
  release n 0 data r = (o, s') → match o with Some (Ok _) | None => release n 0 data (cut r) = (o, cut s') ∧ behind s' = behind r | _ => True end.
Proof. by intros [= <- <-]. Qed.

Lemma poll_read_heeds n : poll_heeds (WireBytes.poll_read n).
Proof.
  intros [st r] o s'. unfold WireBytes.poll_read. cbn [cut behind pair_Source]. destruct st as [consumed user_len|fut|consumed data].
  - destruct (split_user_len user_len) as [body_len tail_len]. destruct (Z.eqb (body_len - consumed) 0).
    + unfold to_trailer. destruct (read_trailer (Z.to_nat tail_len)) as [t|e|]; [|by intros [= <- <-]..]. intros E. apply (in_trailer_heeds _ _ _ _ _ (λ d r o s', release_heeds n d r o s') E).
    + poll_step (n `min` Z.to_nat (body_len - consumed)) r; intros [= <- <-]; [|done..|by split]. by destruct bs.
  - intros E. apply (in_trailer_heeds _ _ _ _ _ (λ d r o s', release_heeds n d r o s') E).
  - by intros [= <- <-].
Qed.

Lemma heeds_start size : heeds (start size).
Proof.
  unfold start. destruct (size =? 0)%Z; [|heeds]. apply heeds_bind; [heeds|intros t]. apply heeds_bind; [|heeds].
  intros f r data r' E. destruct (await (poll_trailer trailer_turns) f (t, r)) as [[o [t1 r1]]|] eqn:Ea; [|done]. injection E as -> ->.
  apply (heeds_await _ (poll_trailer_heeds _)) in Ea as [Ea Hb]. cbn [cut behind pair_Source] in *. by rewrite Ea.
Qed.

Lemma heeds_new_internal lo hi : heeds (new_internal lo hi).
Proof. unfold new_internal. apply heeds_bind; [heeds|]. intros size. destruct (negb _); [heeds|apply heeds_start]. Qed.

End Packets.

#[export] Hint Resolve heeds_new_internal : heeds.

(** ** Archives *)

Lemma heeds_node_new dbg : heeds (node_new dbg).
Proof. unfold node_new. heeds. Qed.
#[export] Hint Resolve heeds_node_new : heeds.

Lemma heeds_open_reader dbg : heeds (open_reader dbg).
Proof. unfold open_reader. heeds. Qed.

Lemma heeds_next_name prev : heeds (next_name prev).
Proof. unfold next_name. heeds. Qed.
#[export] Hint Resolve heeds_next_name : heeds.

Lemma heeds_dir_next dbg prev : heeds (dir_next dbg prev).
Proof. unfold dir_next. heeds. Qed.

(** ** Uploads *)

Section Uploads.
Context {BS R W : Type} `{!BlobService BS R, !BlobWriter BS W, !Blake3} {S : Type} `{Source S}.
Context (rd : nat → poll S bytes) (Hrd : ∀ n, poll_heeds (rd n)) (cap : nat).

Lemma copy_heeds {V} (wr : bytes → V → outcome ErrorKind V) amt v : heeds (λ f s, copy rd wr cap f amt v s).
Proof.
  intros f. revert amt v. induction f as [|f IH]; intros amt v s a s' E; [done|]. cbn [copy] in *.
  destruct (rd cap s) as [[[bs|e|]|] s1] eqn:Er; pose proof (Hrd _ _ _ _ Er) as Hp; cbn in Hp; [|done..|].
  - destruct Hp as [-> <-]. destruct bs as [|b bs]; [by injection E as <- <-|]. destruct (wr (b :: bs) v); [by apply IH|done..].
  - destruct Hp as [-> <-]. by apply IH.
Qed.

Lemma upload_blob_heeds path size f (bs bs' : BS) s dg s' :
  upload_blob cap rd path size f bs s = Some (Ok dg, s', bs') →
  upload_blob cap rd path size f bs (cut s) = Some (Ok dg, cut s', bs') ∧ behind s' = behind s.
Proof.
  unfold upload_blob. destruct (copy rd write_blob cap f 0 (open_write bs) s) as [[[[n w]|e|] s1]|] eqn:E; [|done..].
  apply copy_heeds in E as [-> Hb]. destruct (close_blob w bs) as [[d|e|] bs1]; [|done..]. destruct (negb _); [done|].
  by intros [= <- <- <-].
Qed.

Lemma upload_heeds path size f (u u' : Uploader BS) s dg s' :
  upload cap rd path size f u s = Some (Ok dg, s', u') →
  upload cap rd path size f u (cut s) = Some (Ok dg, cut s', u') ∧ behind s' = behind s.
Proof.
  unfold upload. destruct (_ <? _)%Z.
  - destruct (copy rd to_vec cap f 0 [] s) as [[[[n w]|e|] s1]|] eqn:E; [|done..].
    apply copy_heeds in E as [-> Hb]. destruct (negb _); [done|]. by intros [= <- <- <-].
  - destruct (upload_blob cap rd path size f (service u) s) as [[[o s1] bs1]|] eqn:E; [|done].
    intros [= -> <- <-]. by apply upload_blob_heeds in E as [-> ?].
Qed.

End Uploads.

(** ** Ingestion *)

Section Ingestion.
Context {BS R W : Type} `{!BlobService BS R, !BlobWriter BS W, !Blake3, !BstrSplit, !Schedule}.
Context (dbg : bool) (cap : nat).

#[export] Instance PState_Source : Source (@PState BS) := {|
  cut s := mkP (before_fault (preader s)) (uploader s) (sent s);
  behind s := from_fault (preader s);
|}.

Lemma heeds_pret {A} (a : A) : heeds (pret (BS := BS) a).
Proof. by intros f s a' s' [= <- <-]. Qed.

Lemma heeds_pbind {A C} (m : pm A) (k : A → pm (BS := BS) C) : heeds m → (∀ a, heeds (k a)) → heeds (pbind m k).
Proof.
  intros Hm Hk f s c s''. unfold pbind. destruct (m f s) as [[[a|e|] s']|] eqn:E1; [|done..]. intros E2.
  destruct (Hm _ _ _ _ E1) as [-> <-]. by apply Hk.
Qed.

Lemma heeds_on_reader {A} (m : am areader A) : heeds m → heeds (on_reader (BS := BS) m).
Proof.
  intros Hm f s a s'. unfold on_reader. destruct (m f (preader s)) as [[[x|e|] r]|] eqn:E; [|done..]. intros [= -> <-].
  apply Hm in E as [E Hb]. cbn [cut behind areader_Source PState_Source preader] in *. by rewrite E.
Qed.

Lemma heeds_upload_file path size reader : heeds (upload_file (W := W) cap path size reader).
Proof.
  intros f s a s'. unfold upload_file.
  destruct (upload cap _ path size f (uploader s) (reader, preader s)) as [[[[x|e|] [st r]] u]|] eqn:E; [|done..]. intros [= -> <-].
  apply upload_heeds in E as [E Hb]; [|apply poll_read_heeds]. cbn [cut behind areader_Source pair_Source PState_Source preader uploader] in *. by rewrite E.
Qed.

Lemma heeds_send e : heeds (send (BS := BS) e).
Proof. by intros f s a s' [= <- <-]. Qed.

Lemma heeds_entries produce n : (∀ node path, heeds (produce node path)) → ∀ rd path, heeds (produce_entries (BS := BS) dbg produce n rd path).
Proof.
  intros Hp. induction n as [|n IH]; intros rd path; [done|]. cbn [produce_entries].
  apply heeds_pbind; [apply heeds_on_reader, heeds_dir_next|intros [[name node]|]; [|apply heeds_pret]].
  destruct (CastorePath.Path.try_push path name) as [p|e|]; [|done..].
  apply heeds_pbind; [apply Hp|intros e]. apply heeds_pbind; [apply heeds_send|intros _; apply IH].
Qed.

Lemma heeds_produce n node path : heeds (produce_nar_inner (W := W) dbg cap n node path).
Proof.
  revert node path. induction n as [|n IH]; intros node path; [done|]. cbn [produce_nar_inner]. destruct node as [target|x rd|rd].
  - apply heeds_pret.
  - apply heeds_pbind; [apply heeds_upload_file|intros dg; apply heeds_pret].
  - by apply heeds_entries.
Qed.

Context {DS : Type} `{!DirectoryHash, !DirectoryService DS}.

(** What is ingested from a source was all there before it failed. *)
Lemma ingest_nar_heeds f r (bs bs' : BS) (ds ds' : DS) node r' :
  ingest_nar (W := W) dbg cap f r bs ds = Some (Ok node, r', bs', ds') →
  ingest_nar (W := W) dbg cap f (before_fault r) bs ds = Some (Ok node, before_fault r', bs', ds') ∧ from_fault r' = from_fault r.
Proof.
  unfold ingest_nar. destruct (open_reader dbg f r) as [[[root|e|] r0]|] eqn:E0; [|done..].
  apply heeds_open_reader in E0 as [E0 Hb0]. cbn [cut behind areader_Source] in E0, Hb0. rewrite E0.
  destruct (produce_nar_inner dbg cap f root (B "root") f _) as [[res s]|] eqn:E2; [|done]. destruct res as [e|e|]; [| |done].
  - apply heeds_produce in E2 as [E2 Hb2]. cbn [cut behind PState_Source preader uploader sent] in E2, Hb2. rewrite E2. cbn [uploader sent preader].
    destruct (join cap f (uploader s)) as [[joined bs1]|]; [|done]. destruct (ingest_entries _ _ _) as [o ds1]. intros [= -> <- <- <-].
    split; [done|]. by rewrite Hb2.
  - destruct (join cap f (uploader s)) as [[joined bs1]|]; [|done]. destruct (ingest_entries _ _ _) as [o ds1] eqn:Ei.
    intros [= -> _ _ _]. exfalso. eapply (ingest_entries_all dbg _ _ _ _ Ei e). set_solver.
Qed.

End Ingestion.
