(* ===== verification/Seekable.v ===== *)
(** * [store/src/nar/seekable.rs]: an archive one can seek in

    A reader that renders a node of the store: the bytes between the file
    contents are precomputed, the contents are read from the blob service when
    the reader comes to them. Every poll is one that is ready. *)

From stdpp Require Import strings gmap sorting.
From S2P Require Import Prelude Io BTreeMap Crates NarWire NarWriter Castore CastoreProto CastoreOrder PetGraph DirectoryGraph DirectoryDownload DirectoryService BlobService NarStore.
#[local] Open Scope Z_scope.

(** ** [slice::binary_search_by_key] *)

(** A slice in order for a comparison with a key. *)
Definition ordered {A} (f : A → comparison) (l : list A) : Prop :=
  ∃ l1 l2 l3, l = l1 ++ l2 ++ l3 ∧ Forall (λ a, f a = Lt) l1 ∧ Forall (λ a, f a = Eq) l2 ∧ Forall (λ a, f a = Gt) l3.

(** The place of an element that is equal, or the one to insert at. The
    Standard Library says which place to insert at, but not which of several
    equal elements is found. *)
Class BinarySearch := {
  binary_search_by {A : Type} (f : A → comparison) (l : list A) : nat + nat;
}.
Class BinarySearchLaws `{BinarySearch} := {
  search_found {A} (f : A → comparison) l i : ordered f l → binary_search_by f l = inl i → f <$> l !! i = Some Eq;
  search_missing {A} (f : A → comparison) l i : ordered f l → binary_search_by f l = inr i →
    (i ≤ length l)%nat ∧ Forall (λ a, f a = Lt) (take i l) ∧ Forall (λ a, f a = Gt) (drop i l);
}.

(** A search that finds the last of equal elements. *)
Definition takes_last `{BinarySearch} : Prop :=
  ∀ A (f : A → comparison) l i a, ordered f l → binary_search_by f l = inl i → l !! S i = Some a → f a = Gt.

(** ** The segments *)

(** A blob is the [BlobRef] of its digest and size. *)
Inductive Data := Literal (data : bytes) | Blob (digest : bytes) (size : Z).

(** [Data::len] *)
Definition data_len (self : Data) : Z :=
  match self with
  | Literal data => Z.of_nat (length data)
  | Blob _ size => size
  end.

(** [futures::future::TryMaybeDone] of a future that opens a blob or seeks in one. *)
Inductive TryMaybeDone (R : Type) :=
| Opening (digest : bytes) (offset_in_segment : Z)
| Reseeking (prev : TryMaybeDone R) (offset_in_segment : Z)
| Done (reader : R)
| Gone.
Arguments Opening {R} _ _.
Arguments Reseeking {R} _ _.
Arguments Done {R} _.
Arguments Gone {R}.

Record Reader (BS R : Type) := mkReader {
  segments : list (Z * Data);
  position_bytes : Z;
  position_index : nat;
  blob_service : BS;
  seeking : bool;
  current_blob : TryMaybeDone R;
}.
Arguments mkReader {BS R} _ _ _ _ _ _.
Arguments segments {BS R} _.
Arguments position_bytes {BS R} _.
Arguments position_index {BS R} _.
Arguments blob_service {BS R} _.
Arguments seeking {BS R} _.
Arguments current_blob {BS R} _.

(** *** Construction *)

Section Build.
(** The build profile. *)
Context (dbg : bool).

(** The buffer of the current segment, and the segments with the next offset. *)
Definition layout : Type := list (Z * Data) * Z.
Definition bm (A : Type) : Type := rm (DS := layout) (W := bytes) A.
Notation "'seg!' x ':=' m 'in' k" := (rbind (DS := layout) (W := bytes) m (fun x => k))
  (at level 10, x pattern, m at level 100, k at level 200).

(** [flush_segment] with [mem::take] of the buffer *)
Definition flush_segment : bm unit := λ s,
  let '(cur_segment, (segments, offset)) := s in
  let segments := segments ++ [(offset, Literal cur_segment)] in
  match u64_add dbg offset (Z.of_nat (length cur_segment)) with
  | Ok offset => (Ok tt, ([], (segments, offset)))
  | Err e => (Err e, ([], (segments, offset)))
  | Panic => (Panic, ([], (segments, offset)))
  end.

(** [segments.push] of a blob *)
Definition push_blob (digest : bytes) (size : Z) : bm unit := λ s,
  let '(cur_segment, (segments, offset)) := s in
  let segments := segments ++ [(offset, Blob digest size)] in
  match u64_add dbg offset size with
  | Ok offset => (Ok tt, (cur_segment, (segments, offset)))
  | Err e => (Err e, (cur_segment, (segments, offset)))
  | Panic => (Panic, (cur_segment, (segments, offset)))
  end.

(** The entries of a directory. *)
Fixpoint walk_directory (walk : Castore.Node → bm unit) (nodes : Castore.Directory) (nar_node_directory : option bytes) : bm unit :=
  match nodes with
  | [] => nar_writer (close nar_node_directory)
  | (name, node) :: nodes =>
      seg! nar_node_directory := nar_writer (entry dbg nar_node_directory name) in
      seg! _ := walk node in
      walk_directory walk nodes nar_node_directory
  end.

(** [walk_node]; a panic where the fuel ends, before the nodes do. *)
Fixpoint walk_node (get_directory : bytes → outcome RenderError Castore.Directory) (fuel : nat) (node : Castore.Node) : bm unit :=
  match fuel with
  | O => rlift Panic
  | S fuel =>
      match node with
      | SymlinkN target => nar_writer (symlink dbg target)
      | FileN digest size executable =>
          seg! skip := nar_writer (file_manual_write executable size) in
          seg! _ := flush_segment in
          seg! _ := push_blob digest size in
          nar_writer (file_manual_close skip)
      | DirectoryN digest _ =>
          seg! directory := rlift (get_directory digest) in
          seg! nar_node_directory := nar_writer NarWriter.directory in
          walk_directory (walk_node get_directory fuel) directory nar_node_directory
      end
  end.

Context `{!PetGraph, !DirectoryHash, !BinarySearch}.

(** The vector of directories, sorted by their digests. *)
Fixpoint insert_directories (dirs : list Castore.Directory) (directories : list (bytes * Castore.Directory))
    : outcome RenderError (list (bytes * Castore.Directory)) :=
  match dirs with
  | [] => Ok directories
  | dir :: dirs =>
      match binary_search_by (λ x, lex_cmp x.1 (digest dir)) directories with
      | inl _ => Panic
      | inr pos => insert_directories dirs (take pos directories ++ (digest dir, dir) :: drop pos directories)
      end
  end.

Definition find_directory (directories : list (bytes * Castore.Directory)) (digest : bytes) : outcome RenderError Castore.Directory :=
  match binary_search_by (λ x, lex_cmp x.1 digest) directories with
  | inl pos => or_panic (snd <$> directories !! pos)
  | inr _ => Panic
  end.

Context {BS R : Type}.

(** [Reader::new_with_directory_closure] *)
Definition new_with_directory_closure (fuel : nat) (root_node : Castore.Node) (blob_service : BS)
    (directory_closure : option ValidatedDirectoryGraph) : outcome RenderError (Reader BS R) :=
  let? directories :=
    match directory_closure with
    | Some closure =>
        let? drained := omap_err (λ e, StoreErrorDirectory (StorageError (Invalid e))) (drain_root_to_leaves closure) in
        insert_directories drained []
    | None => Ok []
    end in
  let '(o, (_, (segments, _))) :=
    (seg! _ := nar_writer NarWriter.open in
     seg! _ := walk_node (find_directory directories) fuel root_node in
     flush_segment) ([], ([], 0)) in
  let? _ := o in
  Ok (mkReader segments 0 0 blob_service false Gone).

(** The closure that [new] fetches; [copy_stream] is the same loop. *)
Definition fetch_closure `{!DirectoryService DS} (root_node : Castore.Node) (directory_service : DS)
    : outcome RenderError (option ValidatedDirectoryGraph) * DS :=
  match root_node with
  | DirectoryN digest _ =>
      let '(stream, directory_service) := get_recursive digest directory_service in
      (omap_err StoreErrorDirectory
         (let? closure := copy_stream dbg digest stream in
          let? v := omap_err (λ e, StorageError (Invalid e)) (validate closure) in
          Ok (Some v)), directory_service)
  | _ => (Ok None, directory_service)
  end.

(** [Reader::new] *)
Definition new `{!DirectoryService DS} (fuel : nat) (root_node : Castore.Node) (blob_service : BS) (directory_service : DS)
    : outcome RenderError (Reader BS R) * DS :=
  let '(o, directory_service) := fetch_closure root_node directory_service in
  (let? maybe_directory_closure := o in
   new_with_directory_closure fuel root_node blob_service maybe_directory_closure, directory_service).

End Build.

(** ** Seeking and reading *)

Section Reader.
Context {BS R : Type} `{!BlobService BS R, !AsyncRead R, !AsyncSeek R, !BinarySearch}.
Context (dbg : bool).
Abbreviation Reader := (Reader BS R).

Definition set_position (self : Reader) (p : Z) (i : nat) : Reader :=
  mkReader (segments self) p i (blob_service self) (seeking self) (current_blob self).
Definition set_seeking (self : Reader) (b : bool) : Reader :=
  mkReader (segments self) (position_bytes self) (position_index self) (blob_service self) b (current_blob self).
Definition set_blob (self : Reader) (f : TryMaybeDone R) : Reader :=
  mkReader (segments self) (position_bytes self) (position_index self) (blob_service self) (seeking self) f.

(** [reader.seek(SeekFrom::Start(offset))] in a future *)
Definition seek_blob (offset : Z) (reader : R) : outcome ErrorKind unit * TryMaybeDone R :=
  match seek (FromStart offset) reader with
  | (Ok _, reader) => (Ok tt, Done reader)
  | (Err e, _) => (Err e, Gone)
  | (Panic, _) => (Panic, Gone)
  end.

(** [TryMaybeDone::poll] *)
Definition poll_blob (bs : BS) (f : TryMaybeDone R) : outcome ErrorKind unit * TryMaybeDone R :=
  match f with
  | Opening digest offset =>
      match open_read digest bs with
      | Ok (Some reader) => if negb (offset =? 0) then seek_blob offset reader else (Ok tt, Done reader)
      | Ok None => (Err NotFound, Gone)
      | Err e => (Err e, Gone)
      | Panic => (Panic, Gone)
      end
  | Reseeking (Done reader) offset => seek_blob offset reader
  | Reseeking _ _ => (Panic, Gone)
  | Done reader => (Ok tt, Done reader)
  | Gone => (Panic, Gone)
  end.

(** [FusedFuture::is_terminated] *)
Definition is_terminated (f : TryMaybeDone R) : bool :=
  match f with Opening _ _ | Reseeking _ _ => false | Done _ | Gone => true end.

(** [Reader::stream_len] *)
Definition stream_len {E} (self : Reader) : outcome E Z :=
  let? x := or_panic (last (segments self)) in
  u64_add dbg x.1 (data_len x.2).

(** [z as i64] *)
Definition as_i64 (z : Z) : Z := if z <? 2 ^ 63 then z else z - 2 ^ 64.

(** [(a as i64 + n) as u64] *)
Definition add_signed {E} (a n : Z) : outcome E Z :=
  let sum := as_i64 a + n in
  if (- 2 ^ 63 <=? sum) && (sum <? 2 ^ 63) then Ok (sum mod 2 ^ 64)
  else if dbg then Panic else Ok (sum mod 2 ^ 64).

(** [AsyncSeek::start_seek]: the position, then the blob for it. *)
Definition seek_position {E} (pos : SeekFrom) (stream_len position_bytes : Z) : outcome E Z :=
  let? pos := match pos with
              | FromStart n => Ok n
              | FromEnd n => add_signed stream_len n
              | FromCurrent n => add_signed position_bytes n
              end in
  Ok (Z.min pos stream_len).

Definition seek_index {E} (position_bytes : Z) (segments : list (Z * Data)) : outcome E nat :=
  match binary_search_by (λ x, x.1 ?= position_bytes) segments with
  | inl idx => Ok idx
  | inr O => Panic
  | inr (S idx) => Ok idx
  end.

Definition start_seek_blob (prev_position_bytes : Z) (prev_position_index : nat) (self : Reader) : outcome ErrorKind unit * Reader :=
  match segments self !! position_index self with
  | Some (offset, Blob digest _) =>
      match u64_sub dbg (position_bytes self) offset with
      | Ok offset_in_segment =>
          if prev_position_bytes =? position_bytes self then (Ok tt, self)
          else if (prev_position_index =? position_index self)%nat then
            (Ok tt, set_blob self (Reseeking (current_blob self) offset_in_segment))
          else (Ok tt, set_blob self (Opening digest offset_in_segment))
      | Err e => (Err e, self)
      | Panic => (Panic, self)
      end
  | _ => (Ok tt, set_blob self Gone)
  end.

Definition reader_start_seek (pos : SeekFrom) (self : Reader) : outcome ErrorKind unit * Reader :=
  match stream_len self with
  | Ok len =>
      if seeking self then (Err Other, self) else
      let self := set_seeking self true in
      match seek_position pos len (position_bytes self) with
      | Ok p =>
          match seek_index p (segments self) with
          | Ok i => start_seek_blob (position_bytes self) (position_index self) (set_position self p i)
          | Err e => (Err e, self)
          | Panic => (Panic, self)
          end
      | Err e => (Err e, self)
      | Panic => (Panic, self)
      end
  | Err e => (Err e, self)
  | Panic => (Panic, self)
  end.

(** [self.current_blob.poll_unpin(cx)] *)
Definition poll_current (self : Reader) : outcome ErrorKind unit * Reader :=
  let '(o, f) := poll_blob (blob_service self) (current_blob self) in (o, set_blob self f).

(** [AsyncSeek::poll_complete] *)
Definition reader_poll_complete (self : Reader) : outcome ErrorKind Z * Reader :=
  if is_terminated (current_blob self) then (Ok (position_bytes self), set_seeking self false) else
  match poll_current self with
  | (Ok _, self) => (Ok (position_bytes self), set_seeking self false)
  | (Err e, self) => (Err e, self)
  | (Panic, self) => (Panic, self)
  end.

#[global] Instance Reader_AsyncSeek : AsyncSeek Reader := {|
  start_seek := reader_start_seek;
  poll_complete := reader_poll_complete;
|}.

(** What is read of the current segment into a buffer with room for [n] bytes. *)
Definition read_literal {E} (n : nat) (data : bytes) (offset_in_segment : Z) : outcome E bytes :=
  let? remaining_data := u64_sub dbg (Z.of_nat (length data)) offset_in_segment in
  let read_size := Z.min remaining_data (Z.of_nat n) in
  if offset_in_segment + read_size <=? Z.of_nat (length data)
  then Ok (take (Z.to_nat read_size) (drop (Z.to_nat offset_in_segment) data)) else Panic.

Definition check_blob_read (read : bytes) (maximum_expected_read_length : Z) : outcome ErrorKind bytes :=
  let read_length := Z.of_nat (length read) in
  match read_length =? 0, maximum_expected_read_length <? read_length with
  | true, false => Err UnexpectedEof
  | false, true => Err InvalidInput
  | _, _ => Ok read
  end.

Definition read_blob (n : nat) (offset size : Z) (self : Reader) : outcome ErrorKind bytes * Reader :=
  match poll_current self with
  | (Ok _, self) =>
      let self := set_seeking self false in
      match current_blob self with
      | Done blob =>
          match poll_read n blob with
          | (Ok read, blob) =>
              (let? end_ := u64_add dbg offset size in
               let? maximum_expected_read_length := u64_sub dbg end_ (position_bytes self) in
               check_blob_read read maximum_expected_read_length, set_blob self (Done blob))
          | (Err e, blob) => (Err e, set_blob self (Done blob))
          | (Panic, blob) => (Panic, set_blob self (Done blob))
          end
      | _ => (Panic, self)
      end
  | (Err e, self) => (Err e, self)
  | (Panic, self) => (Panic, self)
  end.

Definition read_segment (n : nat) (x : Z * Data) (self : Reader) : outcome ErrorKind bytes * Reader :=
  let '(offset, segment) := x in
  match segment with
  | Literal data =>
      (let? offset_in_segment := u64_sub dbg (position_bytes self) offset in read_literal n data offset_in_segment, self)
  | Blob _ size => read_blob n offset size self
  end.

(** The [while] over the segments that were read to their end. *)
Fixpoint past_segments {E} (p : Z) (rest : list (Z * Data)) (position_index : nat) : outcome E nat :=
  match rest with
  | [] => Ok position_index
  | (offset, segment) :: rest =>
      let? read := u64_sub dbg p offset in
      if data_len segment <=? read then past_segments p rest (S position_index) else Ok position_index
  end.

(** The blob of the next segment, if there is a next one. *)
Definition enter_segment (prev_position_index : nat) (self : Reader) : Reader :=
  if (prev_position_index =? position_index self)%nat then self else
  match segments self !! position_index self with
  | Some (_, Blob digest _) => set_blob self (Opening digest 0)
  | _ => set_blob self Gone
  end.

(** [AsyncRead::poll_read] *)
Definition reader_poll_read (n : nat) (self : Reader) : outcome ErrorKind bytes * Reader :=
  match segments self !! position_index self with
  | None => (Ok [], self)
  | Some x =>
      match read_segment n x self with
      | (Ok read, self) =>
          match (let? p := u64_add dbg (position_bytes self) (Z.of_nat (length read)) in
                 let? i := past_segments p (drop (position_index self) (segments self)) (position_index self) in
                 Ok (p, i)) with
          | Ok (p, i) => (Ok read, enter_segment (position_index self) (set_position self p i))
          | Err e => (Err e, self)
          | Panic => (Panic, self)
          end
      | (Err e, self) => (Err e, self)
      | (Panic, self) => (Panic, self)
      end
  end.

#[global] Instance Reader_AsyncRead : AsyncRead Reader := reader_poll_read.

End Reader.
