(* ===== verification/NixHttp.v ===== *)
(** * [store]: binary caches

    [ingest_nar_and_hash] of [nar/import.rs], the renderer as a service that
    calculates digests of archives, and [pathinfoservice/nix_http.rs]: a service
    that fetches path infos and archives from a Nix binary cache. *)

From stdpp Require Import strings gmap.
From S2P Require Import Prelude Io BTreeMap Crates NixBase32 NixHash.
From S2P Require NarInfo NarInfoKeys.
From S2P Require Import AsyncIo Castore CastoreOrder DirectoryService BlobService Ingest NarStore Faults PathInfo.
#[local] Open Scope nat_scope.

(** ** [renderer.rs] *)

Record SimpleRenderer (BS DS : Type) := mkRenderer { r_blob_service : BS; r_directory_service : DS }.
Arguments mkRenderer {BS DS} _ _.
Arguments r_blob_service {BS DS} _.
Arguments r_directory_service {BS DS} _.

(** [NarCalculationService for SimpleRenderer] *)
#[global] Instance SimpleRenderer_calculate {BS R DS} `{!BlobService BS R, !BufReader R, !DirectoryService DS, !Sha2} (dbg : bool) (fuel : nat) :
    NarCalculationService (SimpleRenderer BS DS) := λ root_node self,
  let '(o, ds) := calculate_size_and_sha256 dbg (r_blob_service self) fuel root_node (r_directory_service self) in
  (omap_err (λ _, StorageError (Msg (B "failed rendering nar"))) o, mkRenderer (r_blob_service self) ds).

(** ** [import.rs] *)

(** [tokio::io::BufReader] on a [tokio_util::io::InspectReader]: what it serves,
    and what it has read of its source ahead of what was taken from it. *)
Class BufInspect := {
  buffered : areader → areader;
  read_ahead : areader → areader → bytes;
}.

(** It serves what its source has, up to the first fault if there is one, and
    reads ahead no more than is there. *)
Class BufInspectLaws `{BufInspect} : Prop := {
  buffered_rest r xs : rest r xs → rest (buffered r) xs;
  buffered_good r : good_bytes (buffered r) = good_bytes r;
  read_ahead_good r r' : read_ahead r r' `prefix_of` good_bytes r';
}.

(** What the closure of the [InspectReader] was called with, when [r'] is left of [r]. *)
Definition inspected `{BufInspect} (r r' : areader) : bytes :=
  let all := contents (deliver r) in
  take (length all - length (contents (deliver r'))) all ++ read_ahead r r'.

Section Hashed.
Context {BS R W DS : Type} `{!BlobService BS R, !BlobWriter BS W, !Blake3, !BstrSplit, !Schedule, !DirectoryHash, !DirectoryService DS, !Sha2, !BufInspect}.
Context (dbg : bool) (cap : nat).

(** [ingest_nar_and_hash]; the sum of the lengths is added up in one step. *)
Definition ingest_nar_and_hash (fuel : nat) (r : areader) (blob_service : BS) (directory_service : DS)
    : option (outcome (IngestionError Error) (Castore.Node * bytes * Z) * BS * DS) :=
  match ingest_nar (W := W) dbg cap fuel (buffered r) blob_service directory_service with
  | None => None
  | Some (o, r', bs, ds) =>
      Some (let? root_node := o in
            let seen := inspected (buffered r) r' in
            let? nar_size := u64_add dbg 0 (Z.of_nat (length seen)) in
            Ok (root_node, Crates.Sha256 seen, nar_size), bs, ds)
  end.

End Hashed.

(** ** [nix_http.rs] *)

Record Response := mkResponse { status : Z; text : option bytes; body : areader }.

(** [url::Url::join], and [reqwest] against the network [N]. *)
Class Http (N : Type) := {
  Url : Type;
  url_join : Url → bytes → option Url;
  http_get : Url → N → option Response * N;
}.

(** The decoders of [async_compression]. *)
Inductive Codec := BzDecoder | GzipDecoder | XzDecoder | ZstdDecoder.
Class Decoders := decoded : Codec → areader → areader.

Record NixHTTPPathInfoService {N : Type} {H : Http N} (BS DS : Type) `{!NarInfoKeys.Ed25519} := mkNixHTTP {
  base_url : Url;
  http_client : N;
  blob_service : BS;
  directory_service : DS;
  public_keys : option (list NarInfoKeys.VerifyingKey);
}.
Arguments mkNixHTTP {N H BS DS _} _ _ _ _ _.
Arguments base_url {N H BS DS _} _.
Arguments http_client {N H BS DS _} _.
Arguments blob_service {N H BS DS _} _.
Arguments directory_service {N H BS DS _} _.
Arguments public_keys {N H BS DS _} _.

Section NixHttp.
Context {N BS R W DS : Type} `{!Http N, !Decoders, !BlobService BS R, !BlobWriter BS W, !Blake3, !BstrSplit, !Schedule, !DirectoryHash, !DirectoryService DS, !Sha2, !BufInspect}
  `{!DataEncoding, !NarInfo.UnicodeTables, !NarInfoKeys.Ed25519}.
Context (dbg : bool) (cap : nat).
Abbreviation Service := (NixHTTPPathInfoService (N := N) BS DS).

(** [NixHTTPPathInfoService::new] and [set_public_keys] *)
Definition new (base_url : Url) (net : N) (blob_service : BS) (directory_service : DS) : Service :=
  mkNixHTTP base_url net blob_service directory_service None.
Definition set_public_keys (public_keys : list NarInfoKeys.VerifyingKey) (self : Service) : Service :=
  mkNixHTTP (base_url self) (http_client self) (blob_service self) (directory_service self) (Some public_keys).

Definition io_error {A} (kind : ErrorKind) : outcome CError A := Err (from_io kind).

(** One request. *)
Definition request (url : Url) (self : Service) : option Response * Service :=
  let '(resp, net) := http_get url (http_client self) in
  (resp, mkNixHTTP (base_url self) net (blob_service self) (directory_service self) (public_keys self)).

(** The NARInfo of a digest; [None] if there is none. *)
Definition fetch_narinfo (digest : bytes) : svc Service (option NarInfo.NarInfo) := λ self,
  match url_join (base_url self) (encode digest ++ B ".narinfo") with
  | None => (io_error InvalidInput, self)
  | Some narinfo_url =>
      match request narinfo_url self with
      | (None, self) => (io_error InvalidInput, self)
      | (Some resp, self) =>
          if ((status resp =? 404) || (status resp =? 403))%Z then (Ok None, self) else
          (let? narinfo_str := ok_or (from_io InvalidData) (text resp) in
           let? narinfo := omap_err (λ _, from_io InvalidData) (NarInfo.parse narinfo_str) in
           Ok (Some narinfo), self)
      end
  end.

(** At least one signature by one of the keys, if there are keys. *)
Definition check_signatures (public_keys : option (list NarInfoKeys.VerifyingKey)) (narinfo : NarInfo.NarInfo) : outcome CError unit :=
  match public_keys with
  | None => Ok tt
  | Some public_keys =>
      let fingerprint := NarInfo.fingerprint narinfo in
      if existsb (λ pubkey, existsb (NarInfoKeys.VerifyingKey_verify pubkey fingerprint) (NarInfo.signatures narinfo)) public_keys
      then Ok tt else io_error InvalidData
  end.

(** The body of the archive's URL. *)
Definition fetch_nar (url : bytes) : svc Service areader := λ self,
  match url_join (base_url self) url with
  | None => (io_error InvalidInput, self)
  | Some nar_url =>
      match request nar_url self with
      | (None, self) => (io_error InvalidInput, self)
      | (Some resp, self) =>
          if ((200 <=? status resp) && (status resp <? 300))%Z then (Ok (body resp), self)
          else (Err (StorageError (Msg (B "unable to retrieve NAR"))), self)
      end
  end.

(** The decoder that the compression field asks for. *)
Definition decompress (compression : option bytes) (r : areader) : outcome CError areader :=
  match compression with
  | None => Ok r
  | Some c =>
      if bool_decide (c = B "bzip2") then Ok (decoded BzDecoder r)
      else if bool_decide (c = B "gzip") then Ok (decoded GzipDecoder r)
      else if bool_decide (c = B "xz") then Ok (decoded XzDecoder r)
      else if bool_decide (c = B "zstd") then Ok (decoded ZstdDecoder r)
      else Err (StorageError (Msg (B "unsupported compression")))
  end.

(** The path info of the NARInfo, if what was ingested is what it says. *)
Definition check_nar (narinfo : NarInfo.NarInfo) (root_node : Castore.Node) (nar_hash : bytes) (nar_size : Z) : outcome CError PathInfo :=
  if negb (NarInfo.nar_size narinfo =? nar_size)%Z then io_error InvalidData
  else if negb (bool_decide (NarInfo.nar_hash narinfo = nar_hash)) then io_error InvalidData
  else Ok (mkPathInfo (NarInfo.store_path narinfo) root_node (NarInfo.references narinfo) (NarInfo.nar_size narinfo)
             (NarInfo.nar_hash narinfo) (NarInfo.signatures narinfo) (NarInfo.deriver narinfo) (NarInfo.ca narinfo)).

(** Download, ingestion and checks of the archive of a NARInfo. *)
Definition ingest (fuel : nat) (narinfo : NarInfo.NarInfo) (self : Service) : option (outcome CError PathInfo * Service) :=
  match fetch_nar (NarInfo.url narinfo) self with
  | (Err e, self) => Some (Err e, self)
  | (Panic, self) => Some (Panic, self)
  | (Ok r, self) =>
      match decompress (NarInfo.compression narinfo) r with
      | Err e => Some (Err e, self)
      | Panic => Some (Panic, self)
      | Ok r =>
          match ingest_nar_and_hash (W := W) dbg cap fuel r (blob_service self) (directory_service self) with
          | None => None
          | Some (o, bs, ds) =>
              Some (let? (root_node, nar_hash, nar_size) := omap_err (λ _, from_io Other) o in
                    check_nar narinfo root_node nar_hash nar_size,
                    mkNixHTTP (base_url self) (http_client self) bs ds (public_keys self))
          end
      end
  end.

(** [PathInfoService::get] *)
Definition nix_get (fuel : nat) (digest : bytes) (self : Service) : option (outcome CError (option PathInfo) * Service) :=
  match fetch_narinfo digest self with
  | (Err e, self) => Some (Err e, self)
  | (Panic, self) => Some (Panic, self)
  | (Ok None, self) => Some (Ok None, self)
  | (Ok (Some narinfo), self) =>
      match check_signatures (public_keys self) narinfo with
      | Err e => Some (Err e, self)
      | Panic => Some (Panic, self)
      | Ok _ =>
          match ingest fuel narinfo self with
          | None => None
          | Some (o, self) => Some (omap_ok Some o, self)
          end
      end
  end.

(** [PathInfoService::put] and [list] *)
Definition nix_put (path_info : PathInfo) (self : Service) : outcome CError PathInfo * Service :=
  (Err (InvalidRequest (Msg (B "put not supported for this backend"))), self).
Definition nix_list (self : Service) : list (outcome CError PathInfo) :=
  [Err (InvalidRequest (Msg (B "list not supported for this backend")))].

End NixHttp.
