(* ===== verification/NixHttpSpec.v ===== *)
(** * [store]: what binary caches can make the store believe

    Whatever a server sends, a path info that [NixHTTPPathInfoService::get]
    answers has a signature by one of the keys, and its node is that of the tree
    whose archive has the signed digest; and a cache that sends what it should
    is answered. *)

From stdpp Require Import strings gmap.
From S2P Require Import Prelude Io BTreeMap Crates NixBase32 NarWire NarWriter.
From S2P Require NarInfo NarInfoKeys NarReader CastorePath.
From S2P Require Import AsyncIo Castore CastoreOrder PetGraph DirectoryGraph DirectoryDownload DirectoryService DirectoryCache BlobService Ingest IngestSpec UploadSpec NarStore NarStoreSpec Faults PathInfo NixHttp.
#[local] Open Scope nat_scope.

(** No archive is the beginning of another. *)
Lemma nar_prefix_free t t0 ys : tree_ok t → tree_ok t0 → nar t ++ ys = nar t0 → t = t0 ∧ ys = [].
Proof.
  intros Ht Ht0 E. set (r := match nar t0 with [] => [] | b :: bs => [Chunk b bs] end).
  assert (no_fault r ∧ contents r = nar t0) as [Hf Hc].
  { unfold r. destruct (nar t0); cbn; rewrite ?app_nil_r; split; auto; repeat constructor. }
  set (f := 2 * length (nar t) + 2 `max` (2 * length (nar t0) + 2)).
  destruct (NarReader.read_nar_reads true t r ys (2 * length (nar t0) + 2) Ht Hf) as (s & Es & _ & Hs); [congruence| |].
  { rewrite <- E, length_app. lia. }
  destruct (NarReader.read_nar_reads true t0 r [] (2 * length (nar t0) + 2) Ht0 Hf) as (s0 & Es0 & _ & Hs0); [by rewrite app_nil_r|lia|].
  rewrite Es in Es0. injection Es0 as -> ->. split; [done|congruence].
Qed.

Section Inspecting.
Context `{!BufInspect, !BufInspectLaws}.

(** What was hashed is what was taken and what was read ahead. *)
Lemma inspected_spec r r' xs :
  good_bytes r = xs ++ good_bytes r' → from_fault r' = from_fault r → ∃ zs ws, good_bytes r' = zs ++ ws ∧ inspected r r' = xs ++ zs.
Proof.
  intros Hr Hf. destruct (read_ahead_good r r') as [ws E]. exists (read_ahead r r'), ws. split; [done|].
  unfold inspected. rewrite (contents_split r), (contents_split r'), Hr, Hf, <- app_assoc, (length_app xs), Nat.add_sub, take_app_length. done.
Qed.

End Inspecting.

Section Http.
Context {N BS R W : Type} `{!Http N, !Decoders, !BufInspect, !BufInspectLaws, !Sha2} `{BlobWriterLaws BS R W, !DirectoryHash, !DigestLaws, PetGraphLaws, !Schedule}
  {HB : BstrSplit} `{!BstrSplitLaws} `{!DataEncoding, !NarInfo.UnicodeTables, !NarInfoKeys.Ed25519}.
Context (dbg : bool) (cap : nat) (Hcap : 0 < cap).
#[local] Instance memory_directories : DirectoryService MemoryDirectoryService := Memory_DirectoryService dbg.

Lemma ingest_and_hash_accepts fuel r (bs bs' : BS) ds ds' node h size :
  ingest_nar_and_hash (W := W) dbg cap fuel r bs ds = Some (Ok (node, h, size), bs', ds') →
  ∃ t zs, tree_ok t ∧ (nar t ++ zs) `prefix_of` good_bytes r ∧ h = Sha256 (nar t ++ zs) ∧
    (fits t → collision_free (dirs_of t) → mem_ok ds → node = castore_of t).
Proof.
  intros E. unfold ingest_nar_and_hash in E.
  destruct (ingest_nar dbg cap fuel (buffered r) bs ds) as [[[[o r'] bs1] ds1]|] eqn:Ei; [|done].
  injection E as E -> ->. apply obind_Ok in E as (root & -> & E). apply obind_Ok in E as (sz & _ & [= -> <- <-]).
  apply ingest_nar_heeds in Ei as [Ei Hf].
  destruct (ingest_nar_accepts dbg cap fuel _ _ _ _ _ _ _ _ Hcap (before_fault_rest _) Ei) as (t & ys & Ht & Hg & [_ Hr'] & Hn).
  change (good_bytes r' = ys) in Hr'. subst ys. destruct (inspected_spec _ _ _ Hg Hf) as (zs & ws & E & ->). rewrite buffered_good in Hg.
  exists t, zs. split_and!; [done| |done|done]. exists ws. by rewrite Hg, E, app_assoc.
Qed.

Lemma ingest_and_hash_stores `{!ScheduleLaws} t r (bs : BS) ds :
  tree_ok t → fits t → collision_free (dirs_of t) → blobs_apart t bs → mem_ok ds → rest r (nar t) →
  (Z.of_nat (length (nar t)) ≤ u64_MAX)%Z →
  ∃ f0 bs' ds', (∀ f, f0 ≤ f → ingest_nar_and_hash (W := W) dbg cap f r bs ds =
      Some (Ok (castore_of t, Sha256 (nar t), Z.of_nat (length (nar t))), bs', ds')) ∧
    stored bs' ds' t.
Proof.
  intros Hok Hf Hc Hb Hds Hr Hlen. pose proof (buffered_rest r (nar t) Hr) as Hr'. rewrite <- (app_nil_r (nar t)) in Hr'.
  destruct (ingest_nar_stores dbg cap Hcap t _ [] bs ds Hok Hf Hc Hb Hds Hr') as (f0 & r' & bs' & ds' & Hrun & Hrest & Hs & Hd).
  exists f0, bs', ds'. split; [|by apply (stored_after dbg t bs bs' ds ds')]. intros f Hle. unfold ingest_nar_and_hash.
  rewrite Hrun by done. destruct (inspected_spec (buffered r) r' (nar t)) as (zs & ws & E & ->).
  { by rewrite (good_bytes_rest _ _ Hr'), (good_bytes_rest _ _ Hrest). }
  { by rewrite (from_fault_nil _ (proj1 Hr')), (from_fault_nil _ (proj1 Hrest)). }
  rewrite (good_bytes_rest _ _ Hrest) in E.
  symmetry in E. apply app_nil in E as [-> _]. rewrite app_nil_r. cbn [obind].
  unfold u64_add. rewrite Z.add_0_l, (proj2 (Z.leb_le _ _) Hlen). done.
Qed.

(** ** Whatever a cache sends *)

Abbreviation Service := (NixHTTPPathInfoService (N := N) BS MemoryDirectoryService).

(** A NARInfo with the node of its archive. *)
Definition path_info_of (n : NarInfo.NarInfo) (nd : Castore.Node) : PathInfo :=
  mkPathInfo (NarInfo.store_path n) nd (NarInfo.references n) (NarInfo.nar_size n) (NarInfo.nar_hash n) (NarInfo.signatures n)
    (NarInfo.deriver n) (NarInfo.ca n).

(** The text of a NARInfo that the server has for a digest; the network is then [net]. *)
Definition sent_narinfo (self : Service) (digest : bytes) (n : NarInfo.NarInfo) (net : N) : Prop :=
  ∃ url resp txt, url_join (base_url self) (encode digest ++ B ".narinfo") = Some url ∧
    http_get url (http_client self) = (Some resp, net) ∧ text resp = Some txt ∧ NarInfo.parse txt = Ok n.

(** The bytes that the server has sent for the archive of a NARInfo,
    uncompressed: all of them, or those before the transfer or the decoder failed. *)
Definition sent_archive (self : Service) (net : N) (n : NarInfo.NarInfo) (xs : bytes) : Prop :=
  ∃ url resp net' r, url_join (base_url self) (NarInfo.url n) = Some url ∧ http_get url net = (Some resp, net') ∧
    decompress (NarInfo.compression n) (body resp) = Ok r ∧ xs = good_bytes r.

Definition signed_by (keys : list NarInfoKeys.VerifyingKey) (n : NarInfo.NarInfo) : Prop :=
  ∃ k sig, k ∈ keys ∧ sig ∈ NarInfo.signatures n ∧ NarInfoKeys.VerifyingKey_verify k (NarInfo.fingerprint n) sig = true.

Lemma check_signatures_Ok keys n : check_signatures (Some keys) n = Ok tt → signed_by keys n.
Proof.
  cbn. destruct (existsb _ keys) eqn:E; [intros _|done]. apply existsb_exists in E as (k & Hk & E).
  apply existsb_exists in E as (sig & Hs & E). exists k, sig. by rewrite !list_elem_of_In.
Qed.

Lemma check_nar_Ok n nd h size p : check_nar n nd h size = Ok p → p = path_info_of n nd ∧ NarInfo.nar_hash n = h.
Proof.
  unfold check_nar. destruct (negb (NarInfo.nar_size n =? size)%Z); [done|]. case_bool_decide as Hh; [|done].
  by intros [= <-].
Qed.

Lemma fetch_narinfo_Ok dg (self self' : Service) n :
  fetch_narinfo dg self = (Ok (Some n), self') →
  sent_narinfo self dg n (http_client self') ∧ public_keys self' = public_keys self ∧ base_url self' = base_url self ∧
  directory_service self' = directory_service self.
Proof.
  unfold fetch_narinfo, request, sent_narinfo. destruct (url_join _ _) as [url|]; [|done].
  destruct (http_get url (http_client self)) as [[resp|] net] eqn:Eg; [|done]. destruct (_ || _)%Z; [done|].
  intros [= E <-]. split; [|done]. apply obind_Ok in E as (txt & Ht & E). apply obind_Ok in E as (n' & Hn & [= ->]).
  apply omap_err_Ok in Hn. destruct (text resp) as [txt'|] eqn:Et; [|done]. injection Ht as ->. by exists url, resp, txt.
Qed.

Lemma ingest_Ok fuel n (self self' : Service) p :
  mem_ok (directory_service self) → ingest (W := W) dbg cap fuel n self = Some (Ok p, self') →
  ∃ nd t zs, p = path_info_of n nd ∧ tree_ok t ∧ NarInfo.nar_hash n = Sha256 (nar t ++ zs) ∧
    (fits t → collision_free (dirs_of t) → nd = castore_of t) ∧
    ∃ xs, sent_archive self (http_client self) n xs ∧ (nar t ++ zs) `prefix_of` xs.
Proof.
  intros Hds E. unfold ingest, fetch_nar, request in E. destruct (url_join _ _) as [url|] eqn:Eu; [|done].
  destruct (http_get url (http_client self)) as [[resp|] net] eqn:Eg; [|done]. destruct (_ && _)%Z; [|done].
  destruct (decompress (NarInfo.compression n) (body resp)) as [r| |] eqn:Er; [|done..]. cbn [blob_service directory_service] in E.
  destruct (ingest_nar_and_hash dbg cap fuel r (blob_service self) (directory_service self)) as [[[o bs] ds]|] eqn:Ei; [|done].
  injection E as E _. apply obind_Ok in E as ([[nd h] size] & Ho & E). apply omap_err_Ok in Ho as ->.
  apply check_nar_Ok in E as [-> Hh].
  destruct (ingest_and_hash_accepts fuel r _ _ _ _ _ _ _ Ei) as (t & zs & Ht & Hp & -> & Hn).
  exists nd, t, zs. split_and!; [done..|by intros; apply Hn|]. exists (good_bytes r). split; [|done]. by exists url, resp, net, r.
Qed.

(** C20: whatever a binary cache sends, truncated and corrupt streams included: a
    path info that [get] answers is that of
    a NARInfo the server has sent for the digest, with a signature by one of the
    keys if there are keys; and if the digest it promises is that of the archive
    of a tree, and nothing collides with it that the server sent at the URL of
    the NARInfo, the node of the path info is the node of that tree. *)
Theorem nix_http_get_sound (fuel : nat) (dg : bytes) (self self' : Service) (p : PathInfo) :
  mem_ok (directory_service self) → nix_get (W := W) dbg cap fuel dg self = Some (Ok (Some p), self') →
  ∃ n net xs, sent_narinfo self dg n net ∧ (∀ keys, public_keys self = Some keys → signed_by keys n) ∧
    p = path_info_of n (node p) ∧ sent_archive self net n xs ∧
    ∀ t, tree_ok t → fits t → collision_free (dirs_of t) → NarInfo.nar_hash n = Sha256 (nar t) →
      (∀ y, y `prefix_of` xs → Sha256 y = Sha256 (nar t) → y = nar t) → node p = castore_of t.
Proof.
  intros Hds E. unfold nix_get in E. destruct (fetch_narinfo dg self) as [[[n|]| |] s1] eqn:Ef; [|done..].
  destruct (fetch_narinfo_Ok _ _ _ _ Ef) as (Hsent & Hkeys & Hbase & Hd). rewrite Hkeys in E.
  destruct (check_signatures (public_keys self) n) as [[]| |] eqn:Es; [|done..].
  destruct (ingest dbg cap fuel n s1) as [[o s2]|] eqn:Ei; [|done]. destruct o as [q| |]; [|done..]. injection E as -> _.
  destruct (ingest_Ok fuel n s1 s2 p) as (nd & t & zs & -> & Ht & Hh & Hn & xs & Hx & Hp); [by rewrite Hd|done|].
  exists n, (http_client s1), xs. split_and!; [done| |done| |].
  - intros keys Hk. rewrite Hk in Es. by apply check_signatures_Ok.
  - unfold sent_archive in *. by rewrite Hbase in Hx.
  - intros t0 Ht0 Hf Hc Hh0 Hcoll. cbn. rewrite Hh in Hh0.
    destruct (nar_prefix_free t t0 zs Ht Ht0 (Hcoll _ Hp Hh0)) as [-> _]. by apply Hn.
Qed.

(** ** What a cache has to send *)

(** A server that has the NARInfo and the archive of a tree. *)
Definition serves (self : Service) (dg : bytes) (n : NarInfo.NarInfo) (t : tree) : Prop :=
  ∃ url resp net txt url' resp' net' r,
    url_join (base_url self) (encode dg ++ B ".narinfo") = Some url ∧ http_get url (http_client self) = (Some resp, net) ∧
    status resp = 200%Z ∧ text resp = Some txt ∧ NarInfo.parse txt = Ok n ∧
    url_join (base_url self) (NarInfo.url n) = Some url' ∧ http_get url' net = (Some resp', net') ∧ status resp' = 200%Z ∧
    decompress (NarInfo.compression n) (body resp') = Ok r ∧ rest r (nar t).

(** C21: a binary cache that has what it should is answered: a NARInfo that is signed as
    asked, with the size and digest of the archive of a tree, and the archive.
    [get] then ends with the path info of the NARInfo and the node of the tree,
    and everything the node refers to is in the services. *)
Theorem nix_http_get_serves `{!ScheduleLaws} (dg : bytes) (self : Service) (n : NarInfo.NarInfo) (t : tree) :
  serves self dg n t → check_signatures (public_keys self) n = Ok tt →
  NarInfo.nar_hash n = Sha256 (nar t) → NarInfo.nar_size n = Z.of_nat (length (nar t)) → (NarInfo.nar_size n ≤ u64_MAX)%Z →
  tree_ok t → fits t → collision_free (dirs_of t) → blobs_apart t (blob_service self) → mem_ok (directory_service self) →
  ∃ f0 self', (∀ f, f0 ≤ f → nix_get (W := W) dbg cap f dg self = Some (Ok (Some (path_info_of n (castore_of t))), self')) ∧
    stored (blob_service self') (directory_service self') t.
Proof.
  intros (url & resp & net & txt & url' & resp' & net' & r & Hu & Hg & Hst & Ht & Hp & Hu' & Hg' & Hst' & Hr & Hrest).
  intros Hsig Hh Hsize Hmax Hok Hf Hc Hb Hds.
  destruct (ingest_and_hash_stores t r (blob_service self) (directory_service self)) as (f0 & bs' & ds' & Hrun & Hstored); [done..|lia|].
  exists f0, (mkNixHTTP (base_url self) net' bs' ds' (public_keys self)). split; [|done].
  intros f Hle. unfold nix_get, fetch_narinfo, request. rewrite Hu, Hg, Hst, Ht. cbn [ok_or obind]. rewrite Hp. cbn.
  rewrite Hsig. unfold ingest, fetch_nar, request. cbn. rewrite Hu', Hg', Hst'. cbn. rewrite Hr, (Hrun f Hle). cbn.
  unfold check_nar. rewrite Hsize, Z.eqb_refl, Hh, bool_decide_eq_true_2 by done. cbn. unfold path_info_of. by rewrite Hsize, Hh.
Qed.

End Http.

(** ** Witnesses *)

Module Examples.
Import GraphModel Crates.Models.
Import IngestSpec.Examples NarStoreSpec.Examples.
#[local] Existing Instances dir_hash file_hash example_digests last_first last_first_ok.
#[local] Existing Instances NarInfoKeys.toy_ed25519 NarInfoKeys.ascii_tables.
#[local] Instance directories : DirectoryService MemoryDirectoryService := memory_directories true.

(** Polls of the buffer read a chunk of the source each. *)
#[local] Instance event_eq_dec : EqDecision event.
Proof. solve_decision. Defined.

#[local] Instance whole_chunks : BufInspect := {|
  buffered r := r;
  read_ahead r r' := match r' with
                     | Some (Chunk b bs) :: _ => if bool_decide (drop (length r - length r') r = r') then [] else b :: bs
                     | _ => []
                     end;
|}.

#[local] Instance whole_chunks_ok : BufInspectLaws.
Proof.
  split; [done..|]. intros r r'. cbn. destruct r' as [|[[b bs|k]|] r']; try apply prefix_nil.
  case_bool_decide; [apply prefix_nil|]. unfold good_bytes. cbn. by exists (contents (deliver (before_fault r'))).
Qed.

(** A cache with one archive, whatever it is asked for. *)
Definition key : NarInfo.SigningKey :=
  NarInfo.mkSigningKey (B "cache-1") (NarInfoKeys.sk_sign (NarInfoKeys.sk_from_bytes (replicate 32 Byte.x42))).
Definition verifying : NarInfoKeys.VerifyingKey := NarInfoKeys.mkVerifyingKey (B "cache-1") NarInfoKeys.sample_public.

Definition info : NarInfo.NarInfo :=
  NarInfo.add_signature key
    (NarInfo.mkNarInfo 0 StorePath.StorePath.sample (Sha256 (nar sample)) (Z.of_nat (length (nar sample))) [] [] None None None
      (B "nar/1.nar.xz") (Some (B "xz")) None None).

Definition archive : areader := [None; chunk (take 100 (nar sample)); None; chunk (drop 100 (nar sample))].

#[local] Instance one_archive : Http unit := {|
  Url := bytes;
  url_join base path := Some (base ++ path);
  http_get url net :=
    (Some (if bool_decide (url = B "http://cache/nar/1.nar.xz") then mkResponse 200 None archive
           else mkResponse 200 (Some (NarInfo.to_string info)) []), net);
|}.
#[local] Instance uncompressed : Decoders := λ _ r, r.

Definition service : NixHTTPPathInfoService (N := unit) MemoryBlobService MemoryDirectoryService :=
  set_public_keys [verifying] (new (B "http://cache/") tt no_blobs no_dirs).

Definition asked : bytes := StorePath.StorePath.digest StorePath.StorePath.sample.

Lemma info_parses : NarInfo.parse (NarInfo.to_string info) = Ok info.
Proof. by vm_compute. Qed.

Lemma service_serves : serves service asked info sample.
Proof.
  eexists _, _, _, _, _, _, _, archive. split; [reflexivity|]. split; [reflexivity|].
  rewrite bool_decide_eq_false_2 by (intros E; by vm_compute in E). split_and!; [done|done|apply info_parses|reflexivity|reflexivity|..].
  - by rewrite bool_decide_eq_true_2.
  - by rewrite bool_decide_eq_true_2.
  - split; [repeat constructor|by vm_compute].
Qed.

Lemma info_signed : check_signatures (public_keys service) info = Ok tt.
Proof. by vm_compute. Qed.

Lemma nix_http_get_serves_witness : ∃ f0 self',
  (∀ f, f0 ≤ f → nix_get (W := MemoryBlobWriter) true 16 f asked service = Some (Ok (Some (path_info_of info (castore_of sample))), self')) ∧
  stored (blob_service self') (directory_service self') sample.
Proof.
  apply (nix_http_get_serves true 16 ltac:(lia) asked service info sample);
    [apply service_serves|apply info_signed|reflexivity|reflexivity|by vm_compute|apply sample_ok|apply sample_fits|apply sample_collision_free|
     apply sample_blobs_apart|apply none_ok].
Defined.

Definition path_info_in {S} (o : option (outcome CError (option PathInfo) * S)) : option PathInfo :=
  match o with Some (Ok (Some p), _) => Some p | _ => None end.

Lemma path_info_in_answer {S} (o : option (outcome CError (option PathInfo) * S)) p :
  path_info_in o = Some p → ∃ s, o = Some (Ok (Some p), s).
Proof. destruct o as [[[[q|]| |] s]|]; cbn; try done. intros [= ->]. by exists s. Qed.

Abbreviation answered dg :=
  (path_info_in (nix_get (W := MemoryBlobWriter) (DirectoryService0 := memory_directories true) true 16 100 dg service)).

(** Asked for another path, the service answers what the server sends all the
    same: nobody compares the digests. *)
Example other_path_accepted :
  answered (replicate 20 Byte.x00) = Some (path_info_of info (castore_of sample)) ∧ key_of (path_info_of info (castore_of sample)) ≠ replicate 20 Byte.x00.
Proof. split; [by vm_compute|done]. Qed.

Definition the_path_info : PathInfo := path_info_of info (castore_of sample).

Lemma answered_computes : answered asked = Some the_path_info.
Proof. by vm_compute. Qed.

Lemma nix_http_get_sound_witness : ∃ n net xs,
  sent_narinfo service asked n net ∧ (∀ keys, public_keys service = Some keys → signed_by keys n) ∧
  the_path_info = path_info_of n (node the_path_info) ∧ sent_archive service net n xs ∧
  ∀ t, tree_ok t → fits t → collision_free (dirs_of t) → NarInfo.nar_hash n = Sha256 (nar t) →
    (∀ y, y `prefix_of` xs → Sha256 y = Sha256 (nar t) → y = nar t) → node the_path_info = castore_of t.
Proof.
  destruct (path_info_in_answer _ _ answered_computes) as [self' Eg].
  exact (nix_http_get_sound true 16 (ltac:(lia) : 0 < 16) 100 asked service self' the_path_info none_ok Eg).
Defined.

End Examples.
