(* ===== verification/SeekableSpec.v ===== *)
(** * The seekable archive is the archive

    The segments that [Reader::new] lays out for a node of the store make up
    the archive of the tree, and reading and seeking in them is reading and
    seeking in that archive. *)

From stdpp Require Import strings gmap sorting.
From S2P Require Import Prelude Io BTreeMap Crates NarWire NarWriter Castore CastoreProto CastoreOrder PetGraph DirectoryGraph DirectoryDownload DirectoryService DirectoryCache BlobService IngestSpec NarStore NarStoreSpec Seekable.
#[local] Open Scope Z_scope.

(** ** Searching a sorted vector *)

(** A sorted slice is in order for comparisons that respect the sorting. *)
Lemma sorted_ordered {A} (R : relation A) (f : A → comparison) l :
  StronglySorted R l → (∀ x y, R x y → match f x with Lt => True | Eq => f y ≠ Lt | Gt => f y = Gt end) → ordered f l.
Proof.
  intros Hs Hf. induction Hs as [|x l _ (l1 & l2 & l3 & -> & H1 & H2 & H3) Hx]; [by exists [], [], []|].
  apply (Forall_impl _ _ _ Hx) in Hf as Hfx. clear Hx. destruct (f x) eqn:E.
  - destruct l1 as [|y l1]; [|apply Forall_cons in H1 as [Hy _], Hfx as [Hy' _]; congruence].
    exists [], (x :: l2), l3. split_and!; [done..|by constructor|done].
  - exists (x :: l1), l2, l3. split_and!; [done|by constructor|done..].
  - exists [], [], (x :: l1 ++ l2 ++ l3). split_and!; [done..|]. by constructor.
Qed.

Lemma lookup_StronglySorted {A} (R : relation A) l :
  (∀ i j x y, (i < j)%nat → l !! i = Some x → l !! j = Some y → R x y) → StronglySorted R l.
Proof.
  induction l as [|x l IH]; intros Hl; constructor.
  - apply IH. intros i j a b Hij Hi Hj. by apply (Hl (S i) (S j)); [lia|..].
  - apply Forall_lookup. intros i y Hy. by apply (Hl O (S i)); [lia|..].
Qed.

Section Search.
Context `{BinarySearchLaws}.

(** An element that is equal is found. *)
Lemma search_equal {A} (f : A → comparison) l a :
  ordered f l → a ∈ l → f a = Eq → ∃ i a', binary_search_by f l = inl i ∧ l !! i = Some a' ∧ f a' = Eq.
Proof.
  intros Ho Ha Hf. destruct (binary_search_by f l) as [i|i] eqn:E.
  - pose proof (search_found f l i Ho E) as Hi. destruct (l !! i) as [a'|] eqn:Ea; [|done]. exists i, a'. cbn in Hi. split_and!; congruence.
  - destruct (search_missing f l i Ho E) as (_ & Hlt & Hgt). rewrite <- (take_drop i l) in Ha.
    apply elem_of_app in Ha as [Ha|Ha].
    + apply (proj1 (Forall_forall _ _) Hlt) in Ha. congruence.
    + apply (proj1 (Forall_forall _ _) Hgt) in Ha. congruence.
Qed.

(** If no element is equal, the answer is where the greater ones begin. *)
Lemma search_fresh {A} (f : A → comparison) l :
  ordered f l → Forall (λ a, f a ≠ Eq) l →
  ∃ i, binary_search_by f l = inr i ∧ Forall (λ a, f a = Lt) (take i l) ∧ Forall (λ a, f a = Gt) (drop i l).
Proof.
  intros Ho Hne. destruct (binary_search_by f l) as [i|i] eqn:E.
  - pose proof (search_found f l i Ho E) as Hi. destruct (l !! i) as [a|] eqn:Ea; [|done]. cbn in Hi. injection Hi as Hi.
    by eapply Forall_lookup_1 in Hne; [|exact Ea].
  - exists i. split; [done|]. by apply (search_missing f l i Ho E).
Qed.

End Search.

(** *** The vector of directories *)

Section Sorted.
Context {V : Type}.
Implicit Types l : list (bytes * V).

Lemma sorted_keys_ordered l key : bt_sorted l → ordered (λ x, lex_cmp x.1 key) l.
Proof.
  intros Hs. eapply sorted_ordered; [exact Hs|]. intros x y Hxy. assert (lex_cmp x.1 y.1 = Lt) as Hlt by exact Hxy.
  destruct (lex_cmp x.1 key) eqn:E; [|done|].
  - apply (rcmp_eq (A := bytes)) in E. rewrite E in Hlt. assert (lex_cmp y.1 key = Gt) as Hgt by by apply (rcmp_gt_lt (A := bytes)). by rewrite Hgt.
  - apply (rcmp_gt_lt (A := bytes)) in E. apply (rcmp_gt_lt (A := bytes)). by eapply (rcmp_lt_trans (A := bytes)).
Qed.

Lemma sorted_insert l1 l2 key v :
  bt_sorted (l1 ++ l2) → Forall (λ x, lex_cmp x.1 key = Lt) l1 → Forall (λ x, lex_cmp x.1 key = Gt) l2 →
  bt_sorted (l1 ++ (key, v) :: l2).
Proof.
  intros Hs H1 H2. unfold bt_sorted in *. apply StronglySorted_app in Hs as (H12 & Hs1 & Hs2).
  apply StronglySorted_app. split_and!; [|done|].
  - intros x y Hx [->|Hy]%elem_of_cons; [by eapply Forall_forall in H1|by apply H12].
  - constructor; [done|]. eapply Forall_impl; [exact H2|]. intros y Hy. by apply (rcmp_gt_lt (A := bytes)).
Qed.

End Sorted.

Section Directories.
Context `{!DirectoryHash, BinarySearchLaws}.
Implicit Types l : list (bytes * Castore.Directory).

(** The directories, with distinct digests, are all put into the vector. *)
Lemma insert_directories_spec dirs l :
  bt_sorted l → NoDup (l.*1 ++ (digest <$> dirs)) →
  ∃ l', insert_directories dirs l = Ok l' ∧ bt_sorted l' ∧ l' ≡ₚ l ++ ((λ d, (digest d, d)) <$> dirs).
Proof.
  revert l. induction dirs as [|d dirs IH]; intros l Hs Hnd.
  { exists l. by rewrite app_nil_r. }
  cbn [insert_directories]. destruct (search_fresh (λ x, lex_cmp x.1 (digest d)) l) as (pos & -> & Hlt & Hgt); [by apply sorted_keys_ordered| |].
  { apply Forall_forall. intros x Hx E%(rcmp_eq (A := bytes)). apply NoDup_app in Hnd as (_ & Hnd & _).
    apply (Hnd x.1); [by apply list_elem_of_fmap_2|]. rewrite E. left. }
  set (l1 := take pos l) in *. set (l2 := drop pos l) in *. assert (l = l1 ++ l2) as El by (unfold l1, l2; by rewrite take_drop).
  clearbody l1 l2. subst l. destruct (IH (l1 ++ (digest d, d) :: l2)) as (l' & E & Hs' & Hp).
  { by apply sorted_insert. }
  { revert Hnd. apply NoDup_Permutation_proper. rewrite !fmap_app. cbn. rewrite <- !app_assoc. apply Permutation_app_head.
    apply (Permutation_middle (l2.*1)). }
  exists l'. split_and!; [done..|]. rewrite Hp, <- !app_assoc. cbn [app fmap list_fmap]. apply Permutation_app_head. apply Permutation_middle.
Qed.

Lemma find_directory_spec l dg d : bt_sorted l → (dg, d) ∈ l → find_directory l dg = Ok d.
Proof.
  intros Hs Hd. unfold find_directory.
  destruct (search_equal (λ x, lex_cmp x.1 dg) l (dg, d)) as (i & [dg' d'] & -> & Hi & E); [by apply sorted_keys_ordered|done|apply (rcmp_refl (A := bytes))|].
  apply (rcmp_eq (A := bytes)) in E. cbn in E. subst dg'. rewrite Hi. cbn. f_equal. apply bt_sorted_NoDup in Hs.
  apply list_elem_of_lookup in Hd as [j Hj]. assert (i = j) as <-; [|by rewrite Hi in Hj; injection Hj].
  eapply NoDup_lookup; [exact Hs| |]; by rewrite list_lookup_fmap, ?Hi, ?Hj.
Qed.

End Directories.

(** ** The layout of the segments *)

Section Layout.
Context `{BlobServiceLaws BS R}.
Context (dbg : bool) (bs : BS).

(** What a segment stands for. *)
Definition content (d : Data) (x : bytes) : Prop :=
  match d with
  | Literal data => data = x
  | Blob digest size => blob_of bs digest = Some x ∧ size = Z.of_nat (length x)
  end.

Lemma content_len d x : content d x → data_len d = Z.of_nat (length x).
Proof. destruct d; [by intros <-|by intros [_ ->]]. Qed.

Definition is_literal (d : Data) : Prop := match d with Literal _ => True | Blob _ _ => False end.

(** The segments stand for [xs], one after the other; the first is a literal. *)
Definition laid (segs : list (Z * Data)) (xs : list bytes) : Prop :=
  length segs = length xs ∧ (∀ i x, xs !! i = Some x → ∃ d, segs !! i = Some (before xs i, d) ∧ content d x) ∧
  ∀ x, head segs = Some x → is_literal x.2.

Lemma laid_snoc segs xs d x : laid segs xs → content d x → segs ≠ [] ∨ is_literal d → laid (segs ++ [(Z.of_nat (length (mjoin xs)), d)]) (xs ++ [x]).
Proof.
  intros (Hl & Hs & Hhd) Hd Hfirst. split_and!; [rewrite !length_app; cbn; lia| |].
  2:{ destruct segs; [|done]. destruct Hfirst; [done|]. by intros y [= <-]. }
  intros i y [Hi|[Hge Hi]]%lookup_app_Some.
  - destruct (Hs i y Hi) as (d' & Hd' & ?). exists d'. split; [|done]. apply lookup_app_Some. left. rewrite Hd'. do 2 f_equal.
    unfold before. apply lookup_lt_Some in Hi. by rewrite take_app_le by lia.
  - destruct (i - length xs)%nat as [|k] eqn:Ek; [|done]. injection Hi as ->. replace i with (length xs) by lia.
    exists d. split; [|done]. apply lookup_app_Some. right. rewrite Hl, Nat.sub_diag. split; [done|]. cbn. do 2 f_equal.
    unfold before. by rewrite take_app_length.
Qed.

(** What was in the buffer begins the next segment. *)
Definition begins (cur : bytes) (xs : list bytes) (cur' : bytes) (xs' : list bytes) : Prop :=
  ∃ zs ws, xs' ++ [cur'] = xs ++ (cur ++ zs) :: ws.

Lemma begins_refl cur xs zs : begins cur xs (cur ++ zs) xs.
Proof. by exists zs, []. Qed.

Lemma begins_trans cur xs cur1 xs1 cur2 xs2 : begins cur xs cur1 xs1 → begins cur1 xs1 cur2 xs2 → begins cur xs cur2 xs2.
Proof.
  intros (zs1 & ws1 & E1) (zs2 & ws2 & E2). unfold begins. rewrite E2. destruct ws1 as [|w ws1 _] using rev_ind.
  - apply app_inj_tail in E1 as [-> ->]. exists (zs1 ++ zs2), ws2. by rewrite app_assoc.
  - rewrite app_comm_cons, app_assoc in E1. apply app_inj_tail in E1 as [-> ->]. exists zs1, (ws1 ++ (w ++ zs2) :: ws2). by rewrite <- app_assoc.
Qed.

(** No segment is empty, if no file of the archive is. *)
Context (no_empty_file : Prop).
Definition full (xs : list bytes) : Prop := no_empty_file → Forall (λ x, x ≠ []) xs.

Lemma full_snoc xs x : full xs → (no_empty_file → x ≠ []) → full (xs ++ [x]).
Proof. intros Hf Hx He. apply Forall_app. split; [by apply Hf|]. by apply Forall_singleton, Hx. Qed.

(** [m] adds [out] to the archive and answers [a], if the archive is not too long. *)
Definition lays {A} (m : bm A) (out : bytes) (a : A) : Prop :=
  ∀ cur segs xs, laid segs xs → Z.of_nat (length (mjoin xs ++ cur ++ out)) ≤ u64_MAX →
    ∃ cur' segs' xs', m (cur, (segs, Z.of_nat (length (mjoin xs)))) = (Ok a, (cur', (segs', Z.of_nat (length (mjoin xs'))))) ∧
      laid segs' xs' ∧ mjoin xs' ++ cur' = mjoin xs ++ cur ++ out ∧ begins cur xs cur' xs' ∧
      (cur ≠ [] ∨ out ≠ [] → cur' ≠ []) ∧ (cur ≠ [] → full xs → full xs').

Lemma lays_bind {A C} (m : bm A) (f : A → bm C) xs ys a c :
  lays m xs a → lays (f a) ys c → lays (rbind m f) (xs ++ ys) c.
Proof.
  intros Hm Hf cur segs ls Hl Hlen. rewrite !length_app in Hlen.
  destruct (Hm cur segs ls Hl) as (cur1 & segs1 & ls1 & E1 & Hl1 & Ht1 & Hb1 & Hn1 & Hf1); [rewrite !length_app; lia|].
  destruct (Hf cur1 segs1 ls1 Hl1) as (cur2 & segs2 & ls2 & E2 & Hl2 & Ht2 & Hb2 & Hn2 & Hf2).
  { rewrite (assoc _ (mjoin ls1)), Ht1, !length_app. lia. }
  exists cur2, segs2, ls2. split_and!; [|done| |by eapply begins_trans| |].
  - unfold rbind. by rewrite E1, E2.
  - by rewrite Ht2, (assoc _ (mjoin ls1)), Ht1, <- !app_assoc.
  - intros Hne. apply Hn2. destruct Hne as [?|Hne]; [left; apply Hn1; by left|]. destruct ys; [|by right].
    left. apply Hn1. right. by destruct xs.
  - intros Hne Hfl. apply Hf2; [apply Hn1; by left|by apply Hf1].
Qed.

Lemma lays_bind_nil {A C} (m : bm A) (f : A → bm C) ys a c : lays m [] a → lays (f a) ys c → lays (rbind m f) ys c.
Proof. apply (lays_bind m f []). Qed.

Lemma lays_lift {A} (o : outcome RenderError A) a : o = Ok a → lays (rlift o) [] a.
Proof. intros -> cur segs xs Hl _. exists cur, segs, xs. rewrite app_nil_r. split_and!; try done; [|naive_solver]. exists [], []. by rewrite app_nil_r. Qed.

Lemma lays_writer {A} (m : sm bytes A) out a : appends m out a → lays (nar_writer m) out a.
Proof.
  intros Hm cur segs xs Hl _. exists (cur ++ out), segs, xs. split_and!; [|done|done|apply begins_refl|by destruct cur; naive_solver|done].
  unfold nar_writer. cbn [fst snd]. by rewrite Hm.
Qed.

Lemma u64_add_Ok {E} a b : a + b ≤ u64_MAX → u64_add (E := E) dbg a b = Ok (a + b).
Proof. intros. unfold u64_add. by rewrite (proj2 (Z.leb_le _ _)). Qed.

Lemma u64_sub_Ok {E} a b : b ≤ a → u64_sub (E := E) dbg a b = Ok (a - b).
Proof. intros. unfold u64_sub. by rewrite (proj2 (Z.leb_le _ _)). Qed.

Lemma length_join_snoc (xs : list bytes) x : Z.of_nat (length (mjoin (xs ++ [x]))) = Z.of_nat (length (mjoin xs)) + Z.of_nat (length x).
Proof. rewrite join_app, length_app, join_cons. change (mjoin [] : bytes) with (@nil byte). rewrite app_nil_r. lia. Qed.

Lemma join_snoc (xs : list bytes) x : mjoin (xs ++ [x]) = mjoin xs ++ x.
Proof. rewrite join_app, join_cons. change (mjoin [] : bytes) with (@nil byte). by rewrite app_nil_r. Qed.

(** A blob, with the bytes before it as a segment, and what is written behind it. *)
Lemma lays_blob {A} data (m : sm bytes A) out a :
  blob_of bs data.1 = Some data.2 → (no_empty_file → data.2 ≠ []) → appends m out a → out ≠ [] →
  lays (rbind (flush_segment dbg) (λ _, rbind (push_blob dbg data.1 (Z.of_nat (length data.2))) (λ _, nar_writer m))) (data.2 ++ out) a.
Proof.
  destruct data as [dg data]. cbn [fst snd]. intros Hb Hne Hm Hout cur segs xs Hl Hlen. rewrite !length_app in Hlen.
  assert (laid (segs ++ [(Z.of_nat (length (mjoin xs)), Literal cur)]) (xs ++ [cur])) as Hl1 by (apply laid_snoc; [done..|by right]).
  assert (content (Blob dg (Z.of_nat (length data))) data) as Hd by done.
  pose proof (laid_snoc _ _ _ _ Hl1 Hd ltac:(left; by destruct segs)) as Hl2.
  exists out, ((segs ++ [(Z.of_nat (length (mjoin xs)), Literal cur)]) ++ [(Z.of_nat (length (mjoin (xs ++ [cur]))), Blob dg (Z.of_nat (length data)))]), ((xs ++ [cur]) ++ [data]).
  split_and!; [|done|by rewrite !join_snoc, <- !app_assoc| |done|].
  - unfold rbind, flush_segment, push_blob. rewrite u64_add_Ok by lia. rewrite u64_add_Ok by lia.
    unfold nar_writer. cbn [fst snd]. rewrite Hm, !length_join_snoc. done.
  - exists [], [data; out]. by rewrite app_nil_r, <- !app_assoc.
  - intros Hc Hf. apply full_snoc; [|done]. by apply full_snoc.
Qed.

(** *** Trees *)

Context `{!DirectoryHash, !Blake3}.

Lemma lays_file dirs fuel x data :
  blob_of bs (blake3_hash data) = Some data → (no_empty_file → data ≠ []) →
  lays (walk_node dbg dirs (S fuel) (castore_of (TFile x data))) (node_bytes (TFile x data)) tt.
Proof.
  intros Hb Hne. cbn [walk_node castore_of node_bytes].
  replace ((if x then TOK_EXE else TOK_REG) ++ str data ++ TOK_PAR) with
    (((if x then TOK_EXE else TOK_REG) ++ le_bytes 8 (Z.of_nat (length data))) ++ data ++ zeroes (pad_len (length data)) ++ TOK_PAR)
    by (unfold str; by rewrite <- !app_assoc).
  eapply lays_bind.
  { apply lays_writer. unfold file_manual_write. eapply appends_bind; [apply appends_write|]. rewrite <- (app_nil_r (le_bytes _ _)).
    eapply appends_bind; [apply appends_write|apply appends_ret]. }
  apply (lays_blob (blake3_hash data, data)); [done..| |by destruct (zeroes _)]. unfold file_manual_close.
  eapply appends_bind; [apply appends_pad|apply appends_write].
Qed.

Lemma lays_entries (walk : Castore.Node → bm unit) es p :
  (∀ n t, (n, t) ∈ es → lays (walk (castore_of t)) (node_bytes t) tt) → entries_ok (default [] p) es →
  lays (walk_directory dbg walk (dir_of_entries es) p) (rest_bytes p es) tt.
Proof.
  revert p. induction es as [|[n t] es IH]; intros p Hw Hok; cbn [dir_of_entries map walk_directory].
  - rewrite rest_bytes_nil. apply lays_writer, appends_close.
  - destruct Hok as (Hn & Hlt & Hok & Hrest). rewrite rest_bytes_cons.
    eapply lays_bind; [apply lays_writer, appends_entry; [done|by intros ? ->]|].
    eapply lays_bind; [apply (Hw n t); left|]. apply (IH (Some n)); [|done]. intros n' t' ?. apply (Hw n' t'). by right.
Qed.

(** The directories and blobs of a tree are at hand. *)
Definition at_hand (dirs : bytes → outcome RenderError Castore.Directory) (t : tree) : Prop :=
  (∀ d, d ∈ dirs_of t → dirs (digest d) = Ok d) ∧
  ∀ b, b ∈ blobs_of t → blob_of bs (blake3_hash b) = Some b ∧ (no_empty_file → b ≠ []).

Lemma at_hand_child dirs n t es : (n, t) ∈ es → at_hand dirs (TDir es) → at_hand dirs t.
Proof.
  intros Hin [Hd Hb]. split.
  - intros d Hdt. apply Hd. rewrite dirs_of_dir. apply elem_of_app. left. apply elem_of_subdirs. eauto.
  - intros b Hbt. apply Hb. apply list_elem_of_In, in_flat_map. exists (n, t). split; by apply list_elem_of_In.
Qed.

Lemma lays_node dirs fuel t :
  (height t ≤ fuel)%nat → tree_ok t → at_hand dirs t → lays (walk_node dbg dirs fuel (castore_of t)) (node_bytes t) tt.
Proof.
  revert fuel. induction t as [target|x data|es IH] using tree_ind'; intros fuel Hfuel Hok Hs.
  - destruct fuel; [cbn in Hfuel; lia|]. by apply lays_writer, appends_symlink.
  - destruct fuel; [cbn in Hfuel; lia|]. apply lays_file; apply Hs; cbn; set_solver.
  - destruct fuel as [|fuel]; [cbn in Hfuel; lia|]. rewrite castore_of_dir, node_bytes_dir. cbn [walk_node].
    eapply lays_bind_nil; [apply lays_lift, Hs; rewrite dirs_of_dir; set_solver|]. eapply lays_bind.
    { apply lays_writer. unfold directory. rewrite <- (app_nil_r TOK_DIR). eapply appends_bind; [apply appends_write|apply appends_ret]. }
    apply (lays_entries _ es None); [|by rewrite tree_ok_dir in Hok].
    intros n t Ht. pose proof (height_child _ _ _ Ht) as Hh. rewrite tree_ok_dir in Hok. destruct (entries_ok_elem _ _ _ _ Hok Ht) as (_ & ? & _).
    eapply (Forall_forall _ _) in IH; [|exact Ht]. apply IH; [|done|by eapply at_hand_child]. cbn [snd]. lia.
Qed.

(** The segments of a whole archive; the first one is not empty, and the last
    one is a literal. *)
Definition layout_of (text : bytes) (segs : list (Z * Data)) (xs : list bytes) : Prop :=
  laid segs xs ∧ mjoin xs = text ∧ (∃ off data, last segs = Some (off, Literal data)) ∧ head xs ≠ Some [].

Lemma lays_archive dirs fuel t :
  (height t ≤ fuel)%nat → tree_ok t → at_hand dirs t → Z.of_nat (length (nar t)) ≤ u64_MAX →
  ∃ cur segs xs off,
    (rbind (nar_writer NarWriter.open) (λ _, rbind (walk_node dbg dirs fuel (castore_of t)) (λ _, flush_segment dbg))) ([], ([], 0)) =
      (Ok tt, (cur, (segs, off))) ∧ layout_of (nar t) segs xs ∧ full xs.
Proof.
  intros Hh Hok Hs Hlen. assert (laid [] []) as Hnil by by split_and!.
  pose proof (lays_node dirs fuel t Hh Hok Hs) as Hlay. rewrite nar_node_bytes, length_app in Hlen.
  destruct (Hlay TOK_NAR [] [] Hnil) as (cur & segs & xs & E & Hl & Ht & (zs & ws & Hb) & Hcur & Hfull).
  { rewrite !length_app. change (length (mjoin [] : bytes)) with 0%nat. lia. }
  change (mjoin [] ++ TOK_NAR ++ node_bytes t) with (TOK_NAR ++ node_bytes t) in Ht.
  exists [], (segs ++ [(Z.of_nat (length (mjoin xs)), Literal cur)]), (xs ++ [cur]), (Z.of_nat (length (nar t))). split.
  - unfold rbind. change (nar_writer NarWriter.open ([], ([], 0))) with (Ok (E := RenderError) tt, (TOK_NAR, (@nil (Z * Data), 0))). cbn iota.
    change (Z.of_nat (length (mjoin []))) with 0 in E. rewrite E. unfold flush_segment. rewrite nar_node_bytes.
    apply (f_equal length) in Ht. rewrite !length_app in Ht. rewrite u64_add_Ok by lia. rewrite length_app. do 4 f_equal. lia.
  - split; [|apply full_snoc; [apply Hfull; [done|by intros _]|intros _; apply Hcur; by left]].
    split_and!; [apply laid_snoc; [done..|by right]|by rewrite join_snoc, nar_node_bytes| |by rewrite Hb].
    exists (Z.of_nat (length (mjoin xs))), cur. by rewrite last_snoc.
Qed.

End Layout.

(** ** Reading and seeking *)

(** A blob reader that stays one of the same blob, in which one can seek
    back and forth whatever was read before. Behind the end there is nothing
    to read, or seeking there fails: both are in the contract of [AsyncSeek]. *)
Class RandomAccess (BS R : Type) `{BlobServiceLaws BS R} := {
  holds : R → bytes → Prop;
  open_holds dg s c r : blob_of s dg = Some c → open_read dg s = Ok (Some r) → holds r c;
  read_holds n r c b r' : holds r c → poll_read n r = (Ok b, r') → holds r' c;
  seek_holds r c k : holds r c → 0 ≤ k ≤ Z.of_nat (length c) →
    ∃ r', seek (FromStart k) r = (Ok k, r') ∧ unread r' = drop (Z.to_nat k) c ∧ ending r' = Ok tt ∧ holds r' c;
  seek_behind r c k : holds r c → Z.of_nat (length c) < k →
    ∃ o r', seek (FromStart k) r = (o, r') ∧ holds r' c ∧
      match o with Ok p => p = k ∧ unread r' = [] ∧ ending r' = Ok tt | Err _ => True | Panic => False end;
}.

#[global] Program Instance Memory_RandomAccess : RandomAccess MemoryBlobService Cursor := {|
  holds c data := inner c = data;
|}.
Next Obligation. intros dg s c r. cbn. intros ->. by intros [= <-]. Qed.
Next Obligation. intros n r c b r' <-. by intros [= _ <-]. Qed.
Next Obligation.
  intros r c k <- Hk. eexists. unfold seek. cbn. rewrite Z2N.id by lia. split_and!; [done| |done..]. cbn. by rewrite Z_N_nat.
Qed.
Next Obligation.
  intros r c k <- Hk. eexists _, _. split; [reflexivity|]. split; [done|]. cbn. rewrite Z2N.id by lia. split_and!; [done| |done].
  rewrite drop_ge; [done|]. lia.
Qed.

Section Reading.
Context `{RandomAccess BS R, BinarySearchLaws}.
Context (dbg : bool) (bs : BS) (text : bytes) (segs : list (Z * Data)) (xs : list bytes).
Context (Hlay : layout_of bs text segs xs) (Hlen : Z.of_nat (length text) < 2 ^ 63).
Context (Hsearch : takes_last ∨ Forall (λ x, x ≠ []) xs).

Let total := Z.of_nat (length text).

Lemma before_end : before xs (length xs) = total.
Proof. rewrite before_all. unfold total. by destruct Hlay as (_ & <- & _). Qed.

Lemma before_le i : before xs i ≤ total.
Proof.
  destruct (decide (i ≤ length xs)%nat); [rewrite <- before_end; by apply before_mono|]. rewrite <- before_end. unfold before.
  rewrite !take_ge by lia. done.
Qed.

Lemma before_nonneg i : 0 ≤ before xs i.
Proof. unfold before. lia. Qed.

Lemma segment_at i : (i < length xs)%nat → ∃ d c, segs !! i = Some (before xs i, d) ∧ xs !! i = Some c ∧ content bs d c ∧
  before xs (S i) = before xs i + Z.of_nat (length c).
Proof.
  intros Hi. destruct (lookup_lt_is_Some_2 xs i Hi) as [c Hc]. destruct Hlay as ((_ & Hs & _) & _). destruct (Hs i c Hc) as (d & Hd & ?).
  exists d, c. split_and!; [done..|by apply before_S].
Qed.

Lemma segment_inv i x : segs !! i = Some x → (i < length xs)%nat.
Proof. intros Hi%lookup_lt_Some. destruct Hlay as ([<- _] & _). done. Qed.

Lemma last_literal i off d : segs !! i = Some (off, d) → S i = length xs → ∃ data, d = Literal data.
Proof.
  destruct Hlay as ([Hl _] & _ & (off' & data & Hlast) & _). rewrite last_lookup, Hl in Hlast. intros Hi Hn. rewrite <- Hn in Hlast. cbn in Hlast.
  rewrite Hi in Hlast. injection Hlast as -> ->. eauto.
Qed.

(** [i] is the segment with the byte at [p]; at the end, the last one or none. *)
Definition positioned (p : Z) (i : nat) : Prop :=
  (p < total → (i < length xs)%nat ∧ before xs i ≤ p < before xs (S i)) ∧ (p = total → i = length xs ∨ S i = length xs).

Lemma located p : 0 ≤ p < total → ∃ i, (i < length xs)%nat ∧ before xs i ≤ p < before xs (S i).
Proof.
  intros Hp. destruct (locate xs p) as (i & c & Hi & Hb); [unfold total in Hp; by destruct Hlay as (_ & -> & _)|].
  exists i. rewrite (before_S _ _ _ Hi). split; [by eapply lookup_lt_Some|done].
Qed.

Lemma segments_nonempty : (0 < length xs)%nat.
Proof. destruct Hlay as ([Hl _] & _ & (off & data & Hlast) & _). rewrite <- Hl. by destruct segs; [|cbn; lia]. Qed.

Lemma segments_ordered p : ordered (λ x : Z * Data, x.1 ?= p) segs.
Proof.
  apply (sorted_ordered (λ x y, x.1 ≤ y.1)).
  - apply lookup_StronglySorted. intros i j x y Hij Hx Hy. destruct (segment_at i (segment_inv _ _ Hx)) as (d & c & Hd & _).
    destruct (segment_at j (segment_inv _ _ Hy)) as (d' & c' & Hd' & _). rewrite Hx in Hd. rewrite Hy in Hd'. injection Hd as ->. injection Hd' as ->.
    apply before_mono. lia.
  - intros x y Hxy. destruct (Z.compare_spec x.1 p); [rewrite Z.compare_lt_iff|done|rewrite Z.compare_gt_iff]; lia.
Qed.

(** The segment that a search finds is not empty, or the last one there. *)
Lemma found_positioned p i x : segs !! i = Some x → x.1 = p → binary_search_by (λ x : Z * Data, x.1 ?= p) segs = inl i → positioned p i.
Proof.
  intros Hx Hp Hf. pose proof (segment_inv _ _ Hx) as Hi. destruct (segment_at i Hi) as (d & c & Hd & Hc & Hcon & Hnext).
  rewrite Hx in Hd. injection Hd as ->. cbn in Hp. subst p. pose proof (before_le (S i)) as Hle.
  assert (S i = length xs ∨ before xs i < before xs (S i)) as [Hend|Hlt].
  { destruct Hsearch as [Hlast|Hne].
    - destruct (decide (S i = length xs)) as [|Hn]; [by left|]. destruct (segment_at (S i)) as (d' & c' & Hd' & _); [lia|].
      pose proof (Hlast _ _ _ _ _ (segments_ordered _) Hf Hd') as Hgt. cbn in Hgt. rewrite Z.compare_gt_iff in Hgt. by right.
    - eapply Forall_lookup_1 in Hne; [|exact Hc]. right. destruct c; [done|]. cbn in Hnext. lia. }
  - split; [|by right]. intros Ht. rewrite Hend, before_end in *. lia.
  - split; [done|lia].
Qed.

Lemma seek_index_spec {E} p : 0 ≤ p ≤ total → ∃ i, seek_index (E := E) p segs = Ok i ∧ positioned p i ∧ (i < length xs)%nat.
Proof.
  intros Hp. pose proof segments_nonempty as Hne. pose proof (segments_ordered p) as Ho. unfold seek_index.
  assert (length segs = length xs) as Hl by apply Hlay.
  destruct (binary_search_by _ segs) as [i|k] eqn:Es.
  - pose proof (search_found _ _ _ Ho Es) as Hf. destruct (segs !! i) as [x|] eqn:Ex; [|done]. cbn in Hf. injection Hf as Hf.
    apply Z.compare_eq in Hf. exists i. split_and!; [done| |by eapply segment_inv]. by eapply found_positioned.
  - destruct (search_missing _ _ _ Ho Es) as (Hk & Hlt & Hgt).
    assert (∀ j x, segs !! j = Some x → if decide (j < k)%nat then before xs j < p else p < before xs j) as Hj.
    { intros j x Hx. destruct (segment_at j (segment_inv _ _ Hx)) as (d & c & Hd & _). rewrite Hx in Hd. injection Hd as ->. case_decide.
      - rewrite <- (lookup_take_lt _ k) in Hx by done. eapply Forall_lookup_1 in Hlt; [|exact Hx]. exact Hlt.
      - replace j with (k + (j - k))%nat in Hx at 1 by lia. rewrite <- lookup_drop in Hx. eapply Forall_lookup_1 in Hgt; [|exact Hx].
        by apply Z.compare_gt_iff in Hgt. }
    destruct k as [|i].
    { destruct (segment_at O) as (d & c & Hd & _); [done|]. specialize (Hj _ _ Hd). rewrite decide_False in Hj by lia.
      change (before xs 0) with 0 in Hj. lia. }
    destruct (segment_at i) as (d & c & Hd & _); [lia|]. pose proof (Hj _ _ Hd) as Hi. rewrite decide_True in Hi by lia.
    exists i. split_and!; [done| |lia]. destruct (decide (S i = length xs)) as [Hend|Hn].
    + split; [|by right]. intros ?. rewrite Hend, before_end. lia.
    + destruct (segment_at (S i)) as (d' & c' & Hd' & _); [lia|]. pose proof (Hj _ _ Hd') as Hi'. rewrite decide_False in Hi' by lia.
      split; [lia|]. pose proof (before_le (S i)). lia.
Qed.

Lemma past_segments_spec {E} p i :
  (i ≤ length xs)%nat → before xs i ≤ p ≤ total →
  ∃ i', past_segments (E := E) dbg p (drop i segs) i = Ok i' ∧ (i ≤ i')%nat ∧ positioned p i' ∧ before xs i' ≤ p.
Proof.
  intros Hi Hp. remember (length xs - i)%nat as k eqn:Ek. revert i Hi Hp Ek. induction k as [|k IH]; intros i Hi Hp Ek.
  - assert (i = length xs) as -> by lia. destruct Hlay as ([Hl _] & _). rewrite drop_ge by lia. rewrite before_end in Hp. exists (length xs).
    split_and!; [done|done|split; lia|rewrite before_end; lia].
  - destruct (segment_at i) as (d & c & Hd & Hc & Hcon & Hnext); [lia|]. rewrite (drop_S _ _ _ Hd). cbn [past_segments].
    rewrite u64_sub_Ok by lia. cbn [obind]. rewrite (content_len _ _ _ Hcon). destruct (Z.leb_spec (Z.of_nat (length c)) (p - before xs i)).
    + destruct (IH (S i)) as (i' & E' & Hle & Hpos & ?); [lia..|]. exists i'. split_and!; [done|lia|done|done].
    + exists i. pose proof (before_le (S i)). split_and!; [done|done| |lia]. split; [intros _; split; lia|lia].
Qed.

(** *** States *)

Abbreviation Reader := (Reader BS R).

(** An open reader at [o] in [c]. *)
Definition open_at (r : R) (c : bytes) (o : Z) : Prop := holds r c ∧ unread r = drop (Z.to_nat o) c ∧ ending r = Ok tt.

(** The blob of the segment [i] is, or will be, open at [p]. *)
Definition blob_ready (p : Z) (i : nat) (f : TryMaybeDone R) : Prop :=
  match segs !! i with
  | Some (off, Blob dg _) => ∃ c, xs !! i = Some c ∧
      match f with
      | Opening dg' o => dg' = dg ∧ o = p - off
      | Reseeking (Done r) o => holds r c ∧ o = p - off
      | Done r => open_at r c (p - off)
      | _ => False
      end
  | _ => f = Gone
  end.

Record at_pos (st : Reader) (p : Z) : Prop := {
  at_segments : segments st = segs;
  at_service : blob_service st = bs;
  at_bytes : position_bytes st = p;
  at_bounds : 0 ≤ p ≤ total;
  at_index : positioned p (position_index st);
  at_blob : blob_ready p (position_index st) (current_blob st);
}.

(** A position in a blob is before its end. *)
Lemma blob_bounds p i off dg sz : positioned p i → 0 ≤ p ≤ total → segs !! i = Some (off, Blob dg sz) →
  ∃ c, xs !! i = Some c ∧ blob_of bs dg = Some c ∧ sz = Z.of_nat (length c) ∧ off = before xs i ∧ off ≤ p < off + sz ∧
    before xs (S i) = off + sz.
Proof.
  intros [Hlt Hend] Hp Hi. pose proof (segment_inv _ _ Hi) as Hn. destruct (segment_at i Hn) as (d & c & Hd & Hc & Hcon & Hnext).
  rewrite Hi in Hd. injection Hd as -> <-. destruct Hcon as [Hb ->]. exists c.
  assert (p < total) as Hpt.
  { destruct (decide (p = total)) as [E|]; [|lia]. destruct (Hend E) as [|Hs]; [lia|]. by destruct (last_literal _ _ _ Hi Hs). }
  destruct (Hlt Hpt) as [_ Hb']. split_and!; try done; lia.
Qed.

Lemma seek_blob_at r c o : holds r c → 0 ≤ o ≤ Z.of_nat (length c) → ∃ r', seek_blob o r = (Ok tt, Done r') ∧ open_at r' c o.
Proof. intros Hr Ho. destruct (seek_holds r c o Hr Ho) as (r' & E & ? & ? & ?). exists r'. unfold seek_blob. by rewrite E. Qed.

Lemma poll_blob_at p i off dg sz f :
  positioned p i → 0 ≤ p ≤ total → segs !! i = Some (off, Blob dg sz) → blob_ready p i f →
  ∃ r c, xs !! i = Some c ∧ poll_blob bs f = (Ok tt, Done r) ∧ open_at r c (p - off).
Proof.
  intros Hpos Hp Hi. destruct (blob_bounds _ _ _ _ _ Hpos Hp Hi) as (c & Hc & Hb & -> & -> & Hbd & _). unfold blob_ready. rewrite Hi.
  intros (c' & Hc' & Hf). rewrite Hc in Hc'. injection Hc' as <-.
  destruct f as [dg' o|[| |r|] o|r|]; try done; cbn [poll_blob].
  - destruct Hf as [-> ->]. pose proof (open_read_spec dg bs) as Ho. rewrite Hb in Ho. destruct Ho as (r & Ho & Hu & He & _).
    rewrite Ho. pose proof (open_holds _ _ _ _ Hb Ho) as Hr. destruct (Z.eqb_spec (p - before xs i) 0) as [E|]; cbn [negb].
    + exists r, c. split_and!; [done..|]. rewrite E. by split_and!.
    + destruct (seek_blob_at r c (p - before xs i) Hr) as (r' & -> & ?); [lia|]. by exists r', c.
  - destruct Hf as [Hr ->]. destruct (seek_blob_at r c (p - before xs i) Hr) as (r' & -> & ?); [lia|]. by exists r', c.
  - by exists r, c.
Qed.

Lemma blob_ready_done p i off dg sz r c : segs !! i = Some (off, Blob dg sz) → xs !! i = Some c → open_at r c (p - off) → blob_ready p i (Done r).
Proof. intros Hi Hc Hr. unfold blob_ready. rewrite Hi. by exists c. Qed.

(** Completing a seek. *)
Lemma poll_complete_at st p : at_pos st p →
  ∃ st', reader_poll_complete st = (Ok p, st') ∧ at_pos st' p ∧ seeking st' = false ∧ position_index st' = position_index st ∧
    (current_blob st' = Gone ∨ ∃ r, current_blob st' = Done r).
Proof.
  intros [Hsg Hbs Hp Hbd Hpos Hblob]. unfold reader_poll_complete. destruct (is_terminated (current_blob st)) eqn:Et.
  - rewrite Hp. exists (set_seeking st false). split_and!; [done|by split|done|done|]. cbn. destruct (current_blob st); [done|done|eauto|eauto].
  - destruct (segs !! position_index st) as [[off [data|dg sz]]|] eqn:Ei.
    1,3: (unfold blob_ready in Hblob; rewrite Ei in Hblob; by rewrite Hblob in Et).
    destruct (poll_blob_at _ _ _ _ _ _ Hpos Hbd Ei Hblob) as (r & c & Hc & E & Hr).
    unfold poll_current. rewrite Hbs, E. cbn. rewrite Hp. eexists. split_and!; [done| |done|done|by right; eexists].
    split; try done. cbn. by eapply blob_ready_done.
Qed.

(** *** Seeking *)

(** Where a seek goes: not behind the end, and to the end instead of before the start. *)
Definition seek_to (p : Z) (from : SeekFrom) : Z := let q := target text p from in if q <? 0 then total else Z.min q total.

(** The offset is a [u64] or an [i64]. *)
Definition seek_ok (from : SeekFrom) : Prop :=
  match from with
  | FromStart n => 0 ≤ n < 2 ^ 64
  | FromEnd n | FromCurrent n => - 2 ^ 63 ≤ n < 2 ^ 63
  end.

(** The sum of a position and an offset is not an [i64], with overflow checks. *)
Definition seek_overflows (p : Z) (from : SeekFrom) : bool :=
  dbg && match from with FromStart _ => false | FromEnd _ | FromCurrent _ => 2 ^ 63 <=? target text p from end.

Lemma stream_len_spec {E} st : segments st = segs → stream_len (E := E) dbg (st : Reader) = Ok total.
Proof.
  intros Hs. unfold stream_len. rewrite Hs. pose proof segments_nonempty as Hne. destruct (segment_at (length xs - 1)) as (d & c & Hd & _ & Hcon & Hnext); [lia|].
  destruct Hlay as ([Hl _] & _). rewrite last_lookup, Hl. replace (Nat.pred (length xs)) with (length xs - 1)%nat by lia. rewrite Hd.
  cbn [or_panic obind fst snd]. rewrite (content_len _ _ _ Hcon). replace (S (length xs - 1)) with (length xs) in Hnext by lia.
  rewrite before_end in Hnext. rewrite u64_add_Ok; [by rewrite <- Hnext|]. unfold u64_MAX. unfold total in *. lia.
Qed.

Lemma seek_position_spec {E} p from : 0 ≤ p ≤ total → seek_ok from →
  seek_position (E := E) dbg from total p = if seek_overflows p from then Panic else Ok (seek_to p from).
Proof.
  intros Hp Hok. assert (∀ a n, 0 ≤ a ≤ total → - 2 ^ 63 ≤ n < 2 ^ 63 →
    add_signed (E := E) dbg a n = if dbg && (2 ^ 63 <=? a + n) then Panic else Ok ((a + n) mod 2 ^ 64)) as Hadd.
  { intros a n Ha Hn. unfold add_signed, as_i64. rewrite (proj2 (Z.ltb_lt a _)) by (unfold total in *; lia).
    rewrite (proj2 (Z.leb_le _ (a + n))) by lia. rewrite Z.leb_antisym. by destruct (a + n <? 2 ^ 63), dbg. }
  assert (∀ a n, 0 ≤ a ≤ total → - 2 ^ 63 ≤ n < 2 ^ 63 → Z.min ((a + n) mod 2 ^ 64) total = if a + n <? 0 then total else Z.min (a + n) total) as Hmin.
  { intros a n Ha Hn. destruct (Z.ltb_spec (a + n) 0).
    - rewrite <- (Z.mod_add _ 1), Z.mod_small by (unfold total in *; lia). unfold total in *. lia.
    - by rewrite Z.mod_small by (unfold total in *; lia). }
  unfold seek_position, seek_to, seek_overflows, target. destruct from as [n|n|n]; cbn [seek_ok] in Hok.
  - cbn [obind]. by rewrite (proj2 (Z.ltb_ge _ _)), andb_false_r by lia.
  - rewrite Hadd by (unfold total; lia). fold total. destruct (dbg && _); [done|]. cbn [obind]. by rewrite Hmin by (unfold total in *; lia).
  - rewrite Hadd by done. destruct (dbg && _); [done|]. cbn [obind]. by rewrite Hmin.
Qed.

Lemma seek_to_bounds p from : 0 ≤ seek_to p from ≤ total.
Proof. unfold seek_to. destruct (Z.ltb_spec (target text p from) 0); unfold total; lia. Qed.

Lemma positioned_unique p i j : p < total → positioned p i → positioned p j → i = j.
Proof.
  intros Hp [Hi _] [Hj _]. destruct (Hi Hp) as [_ Hbi], (Hj Hp) as [_ Hbj].
  destruct (Nat.lt_trichotomy i j) as [Hlt|[?|Hlt]]; [|done|].
  - pose proof (before_mono xs (S i) j Hlt). lia.
  - pose proof (before_mono xs (S j) i Hlt). lia.
Qed.

(** The blob for a new position. *)
Lemma start_seek_blob_at st p p' i' :
  at_pos st p → (current_blob st = Gone ∨ ∃ r, current_blob st = Done r) → 0 ≤ p' ≤ total → positioned p' i' → (i' < length xs)%nat →
  ∃ st', start_seek_blob dbg (position_bytes st) (position_index st) (set_position st p' i') = (Ok tt, st') ∧ at_pos st' p'.
Proof.
  intros [Hsg Hbs Hp Hbd Hpos Hblob] Hset Hp' Hpos' Hi'. unfold start_seek_blob. cbn [segments set_position position_index position_bytes current_blob].
  rewrite Hsg, Hp. destruct (segment_at i' Hi') as (d & c & Hd & Hc & Hcon & Hnext). rewrite Hd. destruct d as [data|dg sz].
  { eexists. split; [done|]. split; try done. cbn. unfold blob_ready. by rewrite Hd. }
  destruct (blob_bounds _ _ _ _ _ Hpos' Hp' Hd) as (c' & Hc' & Hb & -> & _ & Hbd' & _). rewrite Hc in Hc'. injection Hc' as <-.
  rewrite u64_sub_Ok by lia. pose proof (before_le (S i')) as Hle. destruct (Z.eqb_spec p p') as [->|Hne].
  - assert (position_index st = i') as Ei by (eapply positioned_unique; [|done..]; lia). eexists. split; [done|]. split; try done. cbn. by rewrite <- Ei.
  - destruct (Nat.eqb_spec (position_index st) i') as [Ei|Hne'].
    + eexists. split; [done|]. split; try done. cbn. unfold blob_ready in *. rewrite Hd. exists c. split; [done|].
      rewrite Ei, Hd in Hblob. destruct Hblob as (c' & Hc' & Hf). rewrite Hc in Hc'. injection Hc' as <-.
      destruct Hset as [E|[r E]]; rewrite E in *; [done|]. split; [apply Hf|done].
    + eexists. split; [done|]. split; try done. cbn. unfold blob_ready. rewrite Hd. by exists c.
Qed.

Lemma nar_seek_at st p from : at_pos st p → seek_ok from →
  ∃ o st', seek (H := Reader_AsyncSeek dbg) from st = (o, st') ∧
    if seek_overflows p from then o = Panic else o = Ok (seek_to p from) ∧ at_pos st' (seek_to p from).
Proof.
  intros Hat Hok. unfold seek. cbn [poll_complete start_seek Reader_AsyncSeek].
  destruct (poll_complete_at st p Hat) as (st1 & -> & Hat1 & Hseek & _ & Hset). pose proof Hat1 as [Hsg Hbs Hp Hbd Hpos Hblob].
  pose proof (seek_to_bounds p from) as Hto. unfold reader_start_seek. rewrite (stream_len_spec st1 Hsg), Hseek.
  cbn [position_bytes set_seeking segments]. rewrite Hp, seek_position_spec by done. destruct (seek_overflows p from); [by do 2 eexists|]. rewrite Hsg.
  destruct (seek_index_spec (E := ErrorKind) (seek_to p from) Hto) as (i' & -> & Hpos' & Hi').
  assert (at_pos (set_seeking st1 true) p) as Hat2 by by split.
  destruct (start_seek_blob_at _ _ _ _ Hat2 Hset Hto Hpos' Hi') as (st2 & E & Hat3). cbn [position_bytes set_seeking] in E. rewrite Hp in E. rewrite E.
  destruct (poll_complete_at st2 _ Hat3) as (st3 & -> & Hat4 & _). by exists (Ok (seek_to p from)), st3.
Qed.

(** *** Reading *)

Lemma drop_segment i c p : xs !! i = Some c → before xs i ≤ p ≤ before xs (S i) →
  drop (Z.to_nat (p - before xs i)) c `prefix_of` drop (Z.to_nat p) text.
Proof.
  intros Hc Hp. rewrite (before_S _ _ _ Hc) in Hp. assert (text = mjoin (take i xs) ++ c ++ mjoin (drop (S i) xs)) as ->.
  { destruct Hlay as (_ & <- & _). rewrite <- (take_drop_middle xs i c Hc) at 1. by rewrite join_app, join_cons. }
  rewrite drop_app_ge by (unfold before in Hp; lia). rewrite drop_app_le by (unfold before in Hp; lia).
  replace (Z.to_nat p - length (mjoin (take i xs)))%nat with (Z.to_nat (p - before xs i)) by (unfold before; lia).
  by eexists.
Qed.

(** What reading from a segment gives. *)
Record segment_read (n i : nat) (p : Z) (b : bytes) (st' : Reader) : Prop := {
  sr_segments : segments st' = segs;
  sr_service : blob_service st' = bs;
  sr_bytes : position_bytes st' = p;
  sr_index : position_index st' = i;
  sr_length : (length b ≤ n)%nat;
  sr_prefix : b `prefix_of` drop (Z.to_nat p) text;
  sr_end : b = [] → n = 0%nat ∨ p = before xs (S i);
  sr_range : before xs i ≤ p ∧ p + Z.of_nat (length b) ≤ before xs (S i);
  sr_blob : blob_ready (p + Z.of_nat (length b)) i (current_blob st');
}.

Lemma in_segment p i : 0 ≤ p ≤ total → positioned p i → (i < length xs)%nat → before xs i ≤ p ≤ before xs (S i).
Proof.
  intros Hbd [Hlt Hend] Hi. destruct (decide (p = total)) as [E|]; [|destruct Hlt; lia].
  destruct (Hend E) as [|Hs]; [lia|]. pose proof (before_le i). rewrite Hs, before_end. lia.
Qed.

Lemma read_literal_at n st p off data : at_pos st p → segs !! position_index st = Some (off, Literal data) →
  ∃ b st', read_segment dbg n (off, Literal data) st = (Ok b, st') ∧ segment_read n (position_index st) p b st'.
Proof.
  intros [Hsg Hbs Hp Hbd Hpos Hblob] Hx. set (i := position_index st) in *.
  pose proof (segment_inv _ _ Hx) as Hi. destruct (segment_at i Hi) as (d & c & Hd & Hc & Hcon & Hnext). rewrite Hx in Hd.
  injection Hd as -> <-. cbn in Hcon. subst data. pose proof (in_segment p i Hbd Hpos Hi) as Hpi.
  pose proof (drop_segment i c p Hc Hpi) as Hpre. cbn [read_segment]. rewrite Hp, u64_sub_Ok by lia. cbn [obind].
  unfold read_literal. rewrite u64_sub_Ok by lia. cbn [obind]. rewrite (proj2 (Z.leb_le _ _)) by lia. set (o := Z.to_nat (p - before xs i)) in *.
  exists (take (Z.to_nat (Z.min (Z.of_nat (length c) - (p - before xs i)) (Z.of_nat n))) (drop o c)), st.
  split; [done|]. split; rewrite ?length_take, ?length_drop; [done..|lia| | |lia|].
  - etransitivity; [apply prefix_take|done].
  - intros E%(f_equal length). rewrite length_take, length_drop in E. cbn in E. lia.
  - unfold blob_ready in *. by rewrite Hx in *.
Qed.

(** An open blob answers what is left of it. *)
Lemma open_read_at n r c o : open_at r c o → 0 ≤ o < Z.of_nat (length c) →
  ∃ b r', poll_read n r = (Ok b, r') ∧ (length b ≤ n)%nat ∧ (length b = 0 ↔ n = 0)%nat ∧ o + Z.of_nat (length b) ≤ Z.of_nat (length c) ∧
    b `prefix_of` drop (Z.to_nat o) c ∧ open_at r' c (o + Z.of_nat (length b)).
Proof.
  intros (Hr & Hu & He) Ho. pose proof (poll_read_spec n r) as Hread. destruct (poll_read n r) as [[b|e|] r'] eqn:Er.
  2,3: (exfalso; destruct Hread as [Hu' _]; rewrite Hu in Hu'; apply (f_equal length) in Hu'; rewrite length_drop in Hu'; cbn in Hu'; lia).
  destruct Hread as (Hl & Hub & He' & Hnil). rewrite Hu in Hub. pose proof (f_equal length Hub) as Hlb. rewrite length_drop, length_app in Hlb.
  exists b, r'. split_and!; [done..| |lia|rewrite Hub; by eexists|].
  - destruct b; [|cbn in *; lia]. cbn. split; [intros _|done]. destruct (Hnil eq_refl) as [|[Hu' _]]; [lia|]. rewrite Hu in Hu'. apply (f_equal length) in Hu'.
    rewrite length_drop in Hu'. cbn in Hu'. lia.
  - split_and!; [by eapply read_holds| |by rewrite He'].
    replace (Z.to_nat (o + Z.of_nat (length b))) with (Z.to_nat o + length b)%nat by lia. by rewrite <- drop_drop, Hub, drop_app_length.
Qed.

(** A blob answers what comes next; to a read without room, that it is too short. *)
Lemma read_blob_at n st p off dg sz : at_pos st p → segs !! position_index st = Some (off, Blob dg sz) →
  ∃ o st', read_segment dbg n (off, Blob dg sz) st = (o, st') ∧
    match o with
    | Ok b => segment_read n (position_index st) p b st'
    | Err e => n = 0%nat ∧ e = UnexpectedEof ∧ at_pos st' p
    | Panic => False
    end.
Proof.
  intros [Hsg Hbs Hp Hbd Hpos Hblob] Hx. destruct (blob_bounds _ _ _ _ _ Hpos Hbd Hx) as (c & Hc & _ & -> & -> & Hbd' & Hnext).
  destruct (poll_blob_at _ _ _ _ _ _ Hpos Hbd Hx Hblob) as (r & c' & Hc' & E & Hr). rewrite Hc in Hc'. injection Hc' as <-.
  pose proof (before_le (S (position_index st))) as Hle. pose proof (before_nonneg (position_index st)).
  destruct (open_read_at n r c (p - before xs (position_index st)) Hr) as (b & r' & Er & Hl & Hn & Hlb & Hpre & Hr'); [lia|].
  cbn [read_segment]. unfold read_blob, poll_current. rewrite Hbs, E. cbn [current_blob set_seeking set_blob position_bytes]. rewrite Er.
  rewrite u64_add_Ok by (unfold u64_MAX, total in *; lia). cbn [obind]. rewrite Hp, u64_sub_Ok by lia. cbn [obind].
  unfold check_blob_read. rewrite (proj2 (Z.ltb_ge _ _)) by lia.
  assert (blob_ready (p + Z.of_nat (length b)) (position_index st) (Done r')) as Hready.
  { apply (blob_ready_done _ _ _ _ _ _ _ Hx Hc).
    by replace (p + Z.of_nat (length b) - before xs (position_index st)) with (p - before xs (position_index st) + Z.of_nat (length b)) by lia. }
  do 2 eexists. split; [done|]. destruct (Z.eqb_spec (Z.of_nat (length b)) 0) as [E0|Hb].
  - split_and!; [lia|done|]. split; try done. rewrite E0, Z.add_0_r in Hready. exact Hready.
  - split; try done; [|by intros ->|lia]. etransitivity; [exact Hpre|]. apply (drop_segment _ c p Hc). lia.
Qed.

Lemma nar_read_at n st p : at_pos st p →
  ∃ o st', reader_poll_read dbg n st = (o, st') ∧
    match o with
    | Ok b => at_pos st' (p + Z.of_nat (length b)) ∧ (length b ≤ n)%nat ∧ b `prefix_of` drop (Z.to_nat p) text ∧ (b = [] → n = 0%nat ∨ p = total)
    | Err e => n = 0%nat ∧ e = UnexpectedEof ∧ at_pos st' p
    | Panic => False
    end.
Proof.
  intros Hat. pose proof Hat as [Hsg Hbs Hp Hbd Hpos Hblob]. unfold reader_poll_read. rewrite Hsg.
  destruct (segs !! position_index st) as [x|] eqn:Ex.
  2:{ exists (Ok []), st. cbn. rewrite Z.add_0_r. split_and!; [done..|lia|apply prefix_nil|]. intros _. right. destruct Hpos as [Hlt _].
      destruct (decide (p = total)); [done|]. destruct Hlt as [Hi _]; [lia|]. apply lookup_ge_None in Ex. destruct Hlay as ([Hl _] & _). lia. }
  assert (∃ o st', read_segment dbg n x st = (o, st') ∧
    match o with Ok b => segment_read n (position_index st) p b st' | Err e => n = 0%nat ∧ e = UnexpectedEof ∧ at_pos st' p | Panic => False end)
    as (o & st1 & -> & Hsr).
  { destruct x as [off [data|dg sz]]; [|by apply read_blob_at]. destruct (read_literal_at n st p off data Hat Ex) as (b & st' & ? & ?). by exists (Ok b), st'. }
  destruct o as [b|e|]; [|by do 2 eexists|done].
  set (i := position_index st) in *. destruct Hsr as [Hsg' Hbs' Hp' Hi' Hl Hpre Hend Hr Hblob']. rewrite Hsg', Hp', Hi'. pose proof (before_le (S i)).
  rewrite u64_add_Ok by (unfold u64_MAX, total in *; lia). cbn [obind]. pose proof (segment_inv _ _ Ex) as Hi.
  destruct (past_segments_spec (E := ErrorKind) (p + Z.of_nat (length b)) i) as (j & -> & Hij & Hposj & Hbj); [lia..|]. cbn [obind].
  assert (0 ≤ p + Z.of_nat (length b) ≤ total) as Hbd' by lia. exists (Ok b). eexists _. split; [done|]. split_and!; [|done..|].
  - unfold enter_segment. cbn [position_index set_position segments]. rewrite Hsg'. destruct (Nat.eqb_spec i j) as [<-|Hne]; [by split|].
    pose proof (before_mono xs (S i) j ltac:(lia)). assert (before xs j = p + Z.of_nat (length b)) as Ej by lia.
    destruct (segs !! j) as [[off [data|dg sz]]|] eqn:Exj; (split; [done..|cbn; unfold blob_ready; rewrite Exj; try done]).
    destruct (blob_bounds _ _ _ _ _ Hposj ltac:(lia) Exj) as (c & Hc & _ & _ & -> & _). exists c. split; [done|]. split; [done|lia].
  - intros [?|Hb]%Hend; [by left|]. right. destruct Hpos as [Hlt _]. destruct (decide (p = total)); [done|]. destruct Hlt; lia.
Qed.

End Reading.

(** ** Opening the archive of a stored tree *)

Section Stores.
Context `{!DirectoryHash, !Blake3, !DigestLaws}.

(** The directories of a tree are those of its subtrees. *)
Lemma dirs_of_inv t d : tree_ok t → fits t → d ∈ dirs_of t →
  ∃ es, d = dir_of_entries es ∧ tree_ok (TDir es) ∧ fits (TDir es) ∧ ∀ d', d' ∈ subdirs es → d' ∈ dirs_of t.
Proof.
  induction t as [target|x data|es IH] using tree_ind'; intros Hok Hf; [by intros ?%elem_of_nil..|].
  rewrite dirs_of_dir, elem_of_app, list_elem_of_singleton. intros [(n & t & Ht & Hd)%elem_of_subdirs| ->].
  - eapply (Forall_forall _ _) in IH; [|exact Ht]. pose proof Hok as Hok'. rewrite tree_ok_dir in Hok'.
    destruct (entries_ok_elem _ _ _ _ Hok' Ht) as (_ & Ht' & _). destruct (IH Ht') as (es' & -> & ? & ? & Hsub); [by eapply fits_child|done|].
    exists es'. split_and!; [done..|]. intros d' Hd'. apply elem_of_app. left. apply elem_of_subdirs. exists n, t. split; [done|]. by apply Hsub.
  - exists es. split_and!; [done..|]. intros d' ?. apply elem_of_app. by left.
Qed.

(** Nothing but the directories of a valid tree makes a sound store. *)
Lemma tree_store_sound dbg t s :
  tree_ok t → fits t → collision_free (dirs_of t) → mem_ok s → (∀ d, d ∈ dirs_of t → dir_of s (digest d) = Some d) →
  (∀ dg d, dir_of s dg = Some d → d ∈ dirs_of t) → store_sound dbg s.
Proof.
  intros Hok Hf Hc Hs Hin Hout.
  assert (∀ es n c sz, (∀ d', d' ∈ subdirs es → d' ∈ dirs_of t) → tree_ok (TDir es) → fits (TDir es) → (n, DirectoryN c sz) ∈ dir_of_entries es →
    ∃ es', dir_of_entries es' ∈ subdirs es ∧ c = digest (dir_of_entries es') ∧ sz = recorded_size (dir_of_entries es') ∧ tree_ok (TDir es') ∧ fits (TDir es')) as Hchild.
  { intros es n c sz Hsub Hes Hfes (t' & Ht' & E)%elem_of_dir_of_entries. destruct t' as [|x data|es']; try done. rewrite castore_of_dir in E. injection E as -> ->.
    rewrite tree_ok_dir in Hes. exists es'. split_and!; [|done..|by apply (entries_ok_elem _ _ _ _ Hes Ht')|by eapply fits_child].
    apply elem_of_subdirs. exists n, (TDir es'). split; [done|]. rewrite dirs_of_dir. set_solver. }
  split_and!; [done| |exists (λ d, Z.to_nat (recorded_size d))].
  - intros dg d name c sz Hd Hn. destruct (dirs_of_inv t d Hok Hf (Hout _ _ Hd)) as (es & -> & Hes & Hfes & Hsub).
    destruct (Hchild es name c sz) as (es' & Hes' & -> & -> & ? & ?); [done..|]. exists (dir_of_entries es'). split; [by apply Hin, Hsub|by apply dir_size].
  - intros a b dga dgb Ha Hb (name & sz & Hn)%elem_of_child_digests. destruct (dirs_of_inv t a Hok Hf (Hout _ _ Ha)) as (es & -> & Hes & Hfes & Hsub).
    destruct (Hchild es name (digest b) sz) as (es' & Hes' & E & _ & ? & ?); [done..|].
    apply Hc in E; [|by eapply Hout|by apply Hsub]. subst b. pose proof (subdirs_smaller es (dir_of_entries es') Hes Hfes Hes').
    pose proof (total_nonneg _ (dir_entries _ (tree_dir_ok es' ltac:(done) ltac:(done)))). unfold recorded_size in *. lia.
Qed.

End Stores.

(** *** What a client sees *)

Fixpoint run_calls {S} `{AsyncRead S, AsyncSeek S} (cl : list call) (rd : S) : list (call * outcome ErrorKind answer) :=
  match cl with
  | [] => []
  | c :: cl =>
      let '(o, rd) := match c with
                      | CRead n => let '(o, rd) := poll_read n rd in (omap_ok ARead o, rd)
                      | CSeek from => let '(o, rd) := seek from rd in (omap_ok ASeek o, rd)
                      end in
      (c, o) :: run_calls cl rd
  end.

(** One string of bytes and a position in it: reads answer what is next, and
    nothing only at the end or if they have no room; seeks stay in the string.
    A read without room may also fail, and leaves the position as it is; with
    overflow checks a seek panics that adds to more than an [i64] can hold. *)
Fixpoint behaves (dbg : bool) (text : bytes) (p : Z) (t : list (call * outcome ErrorKind answer)) : Prop :=
  match t with
  | [] => True
  | (CRead n, Ok (ARead b)) :: t =>
      (length b ≤ n)%nat ∧ b `prefix_of` drop (Z.to_nat p) text ∧ (b = [] → n = 0%nat ∨ p = Z.of_nat (length text)) ∧
      behaves dbg text (p + Z.of_nat (length b)) t
  | (CRead n, Err e) :: t => n = 0%nat ∧ e = UnexpectedEof ∧ behaves dbg text p t
  | (CSeek from, o) :: t =>
      if seek_overflows dbg text p from then o = Panic
      else o = Ok (ASeek (seek_to text p from)) ∧ behaves dbg text (seek_to text p from) t
  | _ => False
  end.

(** The offsets of seeks have their types. *)
Definition client_ok (c : call) : Prop :=
  match c with CRead n => True | CSeek from => seek_ok from end.

Section Opening.
Context `{RandomAccess BS R, !DirectoryHash, !Blake3, PetGraphLaws, BinarySearchLaws}.
Context (dbg : bool) (bs : BS) (ds : MemoryDirectoryService).
#[local] Instance memory_service : DirectoryService MemoryDirectoryService := Memory_DirectoryService dbg.

Section Calls.
Context (text : bytes) (segs : list (Z * Data)) (xs : list bytes).
Context (Hlay : layout_of bs text segs xs) (Hlen : Z.of_nat (length text) < 2 ^ 63) (Hsearch : takes_last ∨ Forall (λ x, x ≠ []) xs).

Lemma calls_behave cl (st : Seekable.Reader BS R) p :
  Forall client_ok cl → at_pos bs text segs xs st p →
  behaves dbg text p (run_calls (H := Reader_AsyncRead dbg) (H0 := Reader_AsyncSeek dbg) cl st).
Proof.
  intros Hcl. revert st p. induction Hcl as [|c cl Hc _ IH]; intros st p Hat; [done|]. destruct c as [n|from]; cbn [run_calls].
  - destruct (nar_read_at dbg bs text segs xs Hlay Hlen n st p Hat) as (o & st' & E & Ho).
    unfold poll_read, Reader_AsyncRead. rewrite E. destruct o as [b|e|]; cbn [omap_ok behaves]; [|destruct Ho as (? & ? & ?)|done].
    + destruct Ho as (? & ? & ? & ?). split_and!; [done..|]. by apply IH.
    + split_and!; [done..|]. by apply IH.
  - destruct (nar_seek_at dbg bs text segs xs Hlay Hlen Hsearch st p from Hat Hc) as (o & st' & -> & Ho). cbn [behaves].
    destruct (seek_overflows dbg text p from); [by subst o|]. destruct Ho as [-> Hat']. split; [done|]. by apply IH.
Qed.

Lemma nar_at_start : at_pos bs text segs xs (mkReader segs 0 0 bs false Gone : Seekable.Reader BS R) 0.
Proof.
  pose proof (segments_nonempty bs text segs xs Hlay) as Hne. destruct (segment_at bs text segs xs Hlay 0 Hne) as (d & c & Hd & Hc & Hcon & Hnext).
  assert (c ≠ []) as Hcne by (intros ->; destruct Hlay as (_ & _ & _ & Hhd); by destruct xs; simplify_eq/=).
  change (before xs 0) with 0 in *. assert (is_literal d) as Hlit.
  { destruct Hlay as ((_ & _ & Hfirst) & _). apply (Hfirst (0, d)). by destruct segs; simplify_eq/=. }
  assert (0 < before xs 1) by (rewrite Hnext; destruct c; [done|cbn; lia]). pose proof (before_le bs text segs xs Hlay Hlen 1).
  split; try done; cbn; [lia| |unfold blob_ready; rewrite Hd; by destruct d].
  split; [|lia]. intros _. split; [done|]. change (before xs 0) with 0. lia.
Qed.

End Calls.

(** A closure with the root of a stored tree has all its directories. *)
Lemma closure_has_tree t root l :
  (∀ d, d ∈ dirs_of t → dir_of ds (digest d) = Some d) → closure_of ds root l →
  (∀ es, t = TDir es → dir_of_entries es ∈ l) → ∀ d, d ∈ dirs_of t → d ∈ l.
Proof.
  intros Hst Hcl. induction t as [target|x data|es IH] using tree_ind'; intros Hin d; [by intros ?%elem_of_nil..|].
  rewrite dirs_of_dir, elem_of_app, list_elem_of_singleton. intros [(n & t & Ht & Hd)%elem_of_subdirs| ->]; [|by apply Hin].
  assert (∀ d, d ∈ dirs_of t → d ∈ dirs_of (TDir es)) as Hsub.
  { intros d' Hd'. rewrite dirs_of_dir. apply elem_of_app. left. apply elem_of_subdirs. by exists n, t. }
  eapply (Forall_forall _ _) in IH; [|exact Ht]. cbn [snd] in IH. apply IH; [by intros d' ?%Hsub; apply Hst| |done].
  intros es' ->. assert (digest (dir_of_entries es') ∈ digest <$> l) as (c & E & Hc)%list_elem_of_fmap.
  { apply (clo_complete _ _ _ Hcl (dir_of_entries es)); [by apply Hin|]. apply elem_of_child_digests.
    exists n, (recorded_size (dir_of_entries es')). apply elem_of_dir_of_entries. by exists (TDir es'). }
  pose proof (clo_stored _ _ _ Hcl c Hc) as Hc'. rewrite <- E, Hst in Hc'; [by injection Hc' as ->|].
  apply Hsub. rewrite dirs_of_dir. set_solver.
Qed.

(** The closure of a stored tree. *)
Lemma fetch_closure_spec t :
  store_sound dbg ds → stored bs ds t →
  ∃ o, fetch_closure dbg (castore_of t) ds = (Ok o, ds) ∧
    match o with
    | Some v => ∃ down, drain_root_to_leaves v = Ok down ∧ NoDup (digest <$> down) ∧ ∀ d, d ∈ dirs_of t → d ∈ down
    | None => dirs_of t = []
    end.
Proof.
  intros Hs [Hst _]. destruct t as [target|x data|es]; [by exists None..|]. rewrite castore_of_dir. cbn [fetch_closure get_recursive memory_service Memory_DirectoryService].
  assert (∀ d, d ∈ dirs_of (TDir es) → dir_of ds (digest d) = Some d) as Hst'.
  { intros d Hd. specialize (Hst d Hd). cbn in Hst. rewrite memory_get_spec in Hst by apply Hs. by injection Hst. }
  assert (dir_of ds (digest (dir_of_entries es)) = Some (dir_of_entries es)) as Hroot by (apply Hst'; rewrite dirs_of_dir; set_solver).
  pose proof (memory_get_recursive ds (digest (dir_of_entries es)) (S (S (base.size (dom (DirectoryService.db ds))))) (proj1 Hs) (store_sound_closed dbg ds Hs) ltac:(lia)) as Hrec.
  rewrite Hroot in Hrec. destruct Hrec as (l & Hrec & Hcl). rewrite Hrec.
  destruct (copy_stream_closure dbg ds _ _ _ Hs Hcl eq_refl) as (copy & v & up & Hcopy & Hv & _ & _ & _ & down & Hdown & Hperm).
  rewrite Hcopy. cbn [obind]. rewrite Hv. cbn [obind omap_err]. exists (Some v). split; [done|]. exists down.
  split_and!; [done|rewrite Hperm; by apply Hcl|]. intros d Hd. rewrite Hperm.
  apply (closure_has_tree (TDir es) (digest (dir_of_entries es)) (dir_of_entries es :: l)); [done..| |done].
  intros es' [= <-]. left.
Qed.

(** The reader for a stored tree, with the segments of its archive. *)
Lemma new_spec fuel t :
  tree_ok t → (height t ≤ fuel)%nat → Z.of_nat (length (nar t)) ≤ u64_MAX → store_sound dbg ds → stored bs ds t →
  ∃ segs xs, new (R := R) dbg fuel (castore_of t) bs ds = (Ok (mkReader segs 0 0 bs false Gone), ds) ∧ layout_of bs (nar t) segs xs ∧
    (Forall (λ b, b ≠ []) (blobs_of t) → Forall (λ x, x ≠ []) xs).
Proof.
  intros Hok Hh Hlen Hs Hst. destruct (fetch_closure_spec t Hs Hst) as (o & E & Ho). unfold new. rewrite E. cbn [obind].
  unfold new_with_directory_closure.
  assert (∃ directories, match o with
     | Some closure => let? drained := omap_err (λ e, StoreErrorDirectory (StorageError (Invalid e))) (drain_root_to_leaves closure) in insert_directories drained []
     | None => Ok []
     end = Ok directories ∧ ∀ d, d ∈ dirs_of t → find_directory directories (digest d) = Ok d) as (directories & -> & Hfind).
  { destruct o as [v|]; [|exists []; split; [done|]; rewrite Ho; by intros d ?%elem_of_nil]. destruct Ho as (down & -> & Hnd & Hin).
    cbn [omap_err obind]. destruct (insert_directories_spec down []) as (l & -> & Hsort & Hperm); [constructor|done|].
    exists l. split; [done|]. intros d Hd%Hin. apply find_directory_spec; [done|]. rewrite Hperm. by apply (list_elem_of_fmap_2 (λ d, (digest d, d))). }
  cbn [obind]. destruct (lays_archive dbg bs (Forall (λ b, b ≠ []) (blobs_of t)) (find_directory directories) fuel t Hh Hok) as (cur & segs & xs & off & -> & Hlay & Hfull);
    [split; [done|]; intros b Hb; split; [by apply Hst|]; intros Hne; by eapply Forall_forall in Hne|done|].
  by exists segs, xs.
Qed.

End Opening.

(** C14: the reader that [new] makes for a stored tree is an archive one can
    seek in: it is made without an error, its length is that of the archive,
    and whatever reads and seeks a client does, every read answers the next bytes
    of the archive, none only at its end, and every seek succeeds and stays in the
    archive. A seek behind the end goes to the end, and so does one to before
    the start. There are two exceptions: a read into an empty buffer may fail with
    [UnexpectedEof], which changes nothing, and with overflow checks a seek
    whose target is above [i64::MAX] panics. The tree has no empty file, or
    [binary_search_by_key] finds the last of several equal offsets: which one is
    not specified, and the segment of an empty file begins where the next does. *)
Theorem seekable_reader_refines_nar `{RandomAccess BS R, !DirectoryHash, !Blake3, PetGraphLaws, BinarySearchLaws}
    (dbg : bool) (fuel : nat) (t : tree) (bs : BS) (ds : MemoryDirectoryService) (cl : list call) :
  tree_ok t → (height t ≤ fuel)%nat → Z.of_nat (length (nar t)) < 2 ^ 63 → store_sound dbg ds →
  stored (DirectoryService0 := Memory_DirectoryService dbg) bs ds t → takes_last ∨ Forall (λ b, b ≠ []) (blobs_of t) → Forall client_ok cl →
  ∃ rd, new (R := R) (DirectoryService0 := Memory_DirectoryService dbg) dbg fuel (castore_of t) bs ds = (Ok rd, ds) ∧
    stream_len (E := ErrorKind) dbg rd = Ok (Z.of_nat (length (nar t))) ∧
    behaves dbg (nar t) 0 (run_calls (H := Reader_AsyncRead dbg) (H0 := Reader_AsyncSeek dbg) cl rd).
Proof.
  intros Hok Hh Hlen Hs Hst Hsearch Hcl. destruct (new_spec dbg bs ds fuel t Hok Hh) as (segs & xs & E & Hlay & Hfull); [unfold u64_MAX; lia|done..|].
  eexists. split; [exact E|]. split; [by apply (stream_len_spec dbg bs _ _ _ Hlay Hlen)|].
  assert (takes_last ∨ Forall (λ x, x ≠ []) xs) as Hxs by naive_solver.
  by apply (calls_behave dbg bs _ _ _ Hlay Hlen Hxs), (nar_at_start bs _ _ _ Hlay Hlen).
Qed.

(** ** Two searches *)

(** Searching by halving, as the Standard Library does now: the last of equal elements. *)
Module Halving.

Fixpoint halve {A} (fuel : nat) (f : A → comparison) (l : list A) (base size : nat) : nat :=
  match fuel with
  | O => base
  | S fuel =>
      if (size <=? 1)%nat then base else
      let half := (size / 2)%nat in
      let base := match f <$> l !! (base + half)%nat with Some Gt => base | _ => (base + half)%nat end in
      halve fuel f l base (size - half)
  end.

Definition search {A} (f : A → comparison) (l : list A) : nat + nat :=
  let base := halve (length l) f l 0 (length l) in
  match f <$> l !! base with None => inr O | Some Eq => inl base | Some Lt => inr (S base) | Some Gt => inr base end.

#[local] Instance halving : BinarySearch := {| binary_search_by := @search |}.

Lemma halve_last {A} (f : A → comparison) l k fuel base size :
  (∀ j a, l !! j = Some a → f a = Gt ↔ (k ≤ j)%nat) →
  (base ≤ k - 1 < base + size)%nat → (base + size ≤ length l)%nat → (size ≤ fuel)%nat → halve fuel f l base size = (k - 1)%nat.
Proof.
  intros Hf. revert base size. induction fuel as [|fuel IH]; intros base size Hk Hl Hs; [lia|].
  cbn [halve]. destruct (Nat.leb_spec size 1); [lia|].
  pose proof (Nat.div_lt size 2 ltac:(lia) ltac:(lia)). pose proof (Nat.div_str_pos size 2 ltac:(lia)).
  pose proof (Nat.Div0.mul_div_le size 2).
  destruct (lookup_lt_is_Some_2 l (base + size / 2)) as [a Ha]; [lia|].
  rewrite Ha. pose proof (Hf _ _ Ha) as Hg. set (h := (size / 2)%nat) in *. cbn [fmap option_fmap option_map].
  destruct (decide (k ≤ base + h)%nat) as [Hle|Hlt].
  - rewrite (proj2 Hg Hle). apply IH; lia.
  - destruct (f a); [apply IH; lia..|]. by destruct Hlt; apply Hg.
Qed.

(** It answers by the parts of the slice: the end of the equal elements, if there are any. *)
Lemma search_parts {A} (f : A → comparison) l1 l2 l3 :
  Forall (λ a, f a = Lt) l1 → Forall (λ a, f a = Eq) l2 → Forall (λ a, f a = Gt) l3 →
  search f (l1 ++ l2 ++ l3) = match l2 with [] => inr (length l1) | _ => inl (length l1 + length l2 - 1)%nat end.
Proof.
  intros H1 H2 H3. set (l := l1 ++ l2 ++ l3). set (k := (length l1 + length l2)%nat).
  assert (∀ j a, l !! j = Some a → f a = if decide (j < length l1)%nat then Lt else if decide (j < k)%nat then Eq else Gt) as Hf.
  { intros j a [Ha|[Hj [Ha|[Hj' Ha]]%lookup_app_Some]]%lookup_app_Some.
    - pose proof (lookup_lt_Some _ _ _ Ha). rewrite decide_True by done. by eapply Forall_lookup_1 in H1.
    - pose proof (lookup_lt_Some _ _ _ Ha). rewrite decide_False, decide_True by lia. by eapply Forall_lookup_1 in H2.
    - rewrite !decide_False by lia. by eapply Forall_lookup_1 in H3. }
  assert (length l = k + length l3)%nat as Hl by (unfold l, k; rewrite !length_app; lia).
  unfold search. destruct (decide (length l = 0)%nat) as [E0|E0].
  { apply nil_length_inv in E0. unfold l in *. by destruct l1, l2; rewrite ?E0. }
  rewrite (halve_last f l k); [|intros j a Ha; rewrite (Hf _ _ Ha); repeat case_decide; split; intros; (done || lia)|lia..].
  destruct (lookup_lt_is_Some_2 l (k - 1)) as [a Ha]; [lia|]. rewrite Ha. cbn [fmap option_fmap option_map]. rewrite (Hf _ _ Ha).
  unfold k in *. destruct l2 as [|x l2]; cbn [length] in *; repeat case_decide; try lia; f_equal; lia.
Qed.

Lemma halving_ok : BinarySearchLaws.
Proof.
  split; intros A f l i (l1 & l2 & l3 & -> & H1 & H2 & H3); cbn [binary_search_by halving]; rewrite search_parts by done.
  - destruct l2 as [|x l2]; [done|]. intros [= <-]. rewrite lookup_app_r by (cbn; lia). rewrite lookup_app_l by (cbn; lia).
    cbn [length]. replace (length l1 + S (length l2) - 1 - length l1)%nat with (length l2) by lia.
    destruct (lookup_lt_is_Some_2 (x :: l2) (length l2)) as [y Hy]; [cbn; lia|]. rewrite Hy. cbn. f_equal. by eapply Forall_lookup_1 in H2.
  - destruct l2; [|done]. intros [= <-]. cbn [app]. rewrite take_app_length, drop_app_length, length_app. split; [lia|done].
Qed.

Lemma halving_last : takes_last.
Proof.
  intros A f l i a (l1 & l2 & l3 & -> & H1 & H2 & H3). cbn [binary_search_by halving]. rewrite search_parts by done.
  destruct l2 as [|x l2]; [done|]. intros [= <-] Ha. cbn [length] in Ha. replace (S (length l1 + S (length l2) - 1)) with (length l1 + S (length l2))%nat in Ha by lia.
  rewrite lookup_app_r in Ha by lia. rewrite lookup_app_r in Ha by (cbn; lia). by eapply Forall_lookup_1 in H3.
Qed.

End Halving.

(** A search from the front: the first of equal elements. *)
Module Linear.

Fixpoint search {A} (f : A → comparison) (l : list A) : nat + nat :=
  match l with
  | [] => inr O
  | a :: l => match f a with Eq => inl O | Gt => inr O | Lt => match search f l with inl i => inl (S i) | inr i => inr (S i) end end
  end.

#[local] Instance linear : BinarySearch := {| binary_search_by := @search |}.

Lemma linear_ok : BinarySearchLaws.
Proof.
  split; intros A f l i (l1 & l2 & l3 & -> & H1 & H2 & H3); cbn [binary_search_by linear]; revert i;
    induction H1 as [|x l1 Hx H1 IH]; intros i; cbn [app search].
  - destruct H2 as [|x l2 Hx H2]; [destruct H3 as [|x l3 Hx H3]; [done|]; cbn [app search]; by rewrite Hx|]. cbn [app search].
    rewrite Hx. intros [= <-]. cbn. by rewrite Hx.
  - rewrite Hx. destruct (search f _) as [j|j]; intros [= <-]. by apply IH.
  - destruct H2 as [|x l2 Hx H2]; cbn [app search]; [|by rewrite Hx]. destruct H3 as [|x l3 Hx H3]; cbn [search].
    + intros [= <-]. by split_and!.
    + rewrite Hx. intros [= <-]. cbn. split_and!; [lia|done|by constructor].
  - rewrite Hx. destruct (search f _) as [j|j]; intros [= <-]. destruct (IH j eq_refl) as (? & ? & ?). cbn. split_and!; [lia|by constructor|done].
Qed.

End Linear.

(** ** Examples *)

Module Examples.
Import GraphModel Crates.Models.
Import IngestSpec.Examples NarStoreSpec.Examples.
#[local] Existing Instances dir_hash file_hash example_digests.
#[local] Existing Instances last_first last_first_ok Halving.halving Halving.halving_ok.

Definition calls : list call := [CRead 100; CSeek (FromStart 300); CRead 5; CSeek (FromCurrent (-2)); CRead 1000; CSeek (FromEnd (-1)); CRead 7; CRead 0; CRead 7; CSeek (FromEnd (2 ^ 63 - 1))].

(** The services after an archive was ingested into empty ones. *)
Lemma seekable_reader_refines_nar_witness : ∃ (bs : MemoryBlobService) ds rd,
  new (R := Cursor) (DirectoryService0 := Memory_DirectoryService true) true 10 (castore_of sample) bs ds = (Ok rd, ds) ∧
  stream_len (E := ErrorKind) true rd = Ok (Z.of_nat (length (nar sample))) ∧
  behaves true (nar sample) 0 (run_calls (H := Reader_AsyncRead true) (H0 := Reader_AsyncSeek true) calls rd).
Proof.
  destruct (ingest_nar_stores (W := MemoryBlobWriter) true 16 ltac:(lia) sample source (B "more") no_blobs no_dirs
    sample_ok sample_fits sample_collision_free sample_blobs_apart none_ok archive_source_rest) as (f0 & r' & bs & ds & _ & _ & Hb & Hd).
  exists bs, ds. apply (seekable_reader_refines_nar true 10 sample bs ds calls).
  - apply sample_ok.
  - by vm_compute; lia.
  - by vm_compute.
  - destruct Hd as (Hmem & Hin & Hout). apply (tree_store_sound true sample); [apply sample_ok|apply sample_fits|apply sample_collision_free|done|done|].
    intros dg d Hd. destruct (decide (dg ∈ digest <$> dirs_of sample)) as [(d' & -> & Hd')%list_elem_of_fmap|Hno].
    + rewrite (Hin d' Hd') in Hd. by injection Hd as <-.
    + rewrite (Hout dg Hno) in Hd. discriminate Hd.
  - apply (stored_after true sample no_blobs bs no_dirs ds sample_blobs_apart Hb Hd).
  - left. exact Halving.halving_last.
  - repeat constructor; cbn; lia.
Defined.

(** A file and the empty one in the blob service, and one that is missing. *)
Definition blobs : MemoryBlobService := BlobService.mkMemory (<[file_hash [] := []]> {[ file_hash (B "hello world") := B "hello world" ]}).

Definition opened `{BinarySearch} (content : bytes) : Seekable.Reader MemoryBlobService Cursor :=
  match new_with_directory_closure (R := Cursor) true 5 (castore_of (TFile false content)) blobs None with
  | Ok rd => rd
  | _ => mkReader [] 0 0 blobs false Gone
  end.

Definition answers `{BinarySearch} (cl : list call) (content : bytes) : list (outcome ErrorKind answer) :=
  snd <$> run_calls (H := Reader_AsyncRead true) (H0 := Reader_AsyncSeek true) cl (opened content).

Example file_computes : answers [CSeek (FromStart 96); CRead 5; CRead 100; CSeek (FromCurrent (-5)); CRead 100] (B "hello world") =
  [Ok (ASeek 96); Ok (ARead (B "hello")); Ok (ARead (B " world")); Ok (ASeek 102); Ok (ARead (B "world"))].
Proof. vm_compute. reflexivity. Qed.

(** A read without room is an error inside a blob. *)
Example empty_read_fails : answers [CSeek (FromStart 96); CRead 0] (B "hello world") = [Ok (ASeek 96); Err UnexpectedEof].
Proof. vm_compute. reflexivity. Qed.

(** A search that finds the first of equal offsets ends at the empty file, of
    which nothing can be read, although there is more of the archive. *)
Example first_of_equal_fails :
  answers (H := Linear.linear) [CSeek (FromStart 96); CRead 5] [] = [Ok (ASeek 96); Err UnexpectedEof] ∧
  answers [CSeek (FromStart 96); CRead 5] [] = [Ok (ASeek 96); Ok (ARead (take 5 (drop 96 (nar (TFile false [])))))].
Proof. split; vm_compute; reflexivity. Qed.

(** A seek to before the start goes to the end. *)
Example seek_before_start : answers [CSeek (FromCurrent (-1))] (B "hello world") = [Ok (ASeek 128)].
Proof. vm_compute. reflexivity. Qed.

(** After a failure to open a blob, the next call panics. *)
Example missing_blob_panics : answers [CRead 96; CRead 5; CRead 5] (B "missing") = [Ok (ARead (take 96 (nar (TFile false (B "missing"))))); Err NotFound; Panic].
Proof. vm_compute. reflexivity. Qed.

End Examples.
