(* ===== verification/FsSpec.v ===== *)
(** * The filesystem shows what the store has

    The inode tracker gives every content one inode, which it keeps; looking
    up a path finds the node that the directories have at the path; listing
    a directory in pages gives every entry once; and reading a file at any
    offsets gives its blob. *)

From stdpp Require Import strings gmap.
From S2P Require Import Prelude Io BTreeMap Crates.
From S2P Require CastorePath.
From S2P Require Import Castore DirectoryService BlobService AsyncIo Ingest UploadSpec SeekableSpec Fs.
Import CastorePath.
#[local] Open Scope N_scope.

(** ** What an inode stands for *)

(** A blob, a symlink or a directory. *)
Inductive key := KBlob (digest : bytes) | KLink (target : bytes) | KDir (digest : bytes).

#[global] Instance key_eq_dec : EqDecision key.
Proof. solve_decision. Defined.

Definition key_of (d : InodeData) : key :=
  match d with
  | Regular digest _ _ => KBlob digest
  | Symlink target => KLink target
  | DirectoryI (Sparse digest _) | DirectoryI (Populated digest _) => KDir digest
  end.

Definition node_key (n : Node) : key := key_of (from_node n).

Definition type_of_key (k : key) : Z := match k with KBlob _ => S_IFREG | KLink _ => S_IFLNK | KDir _ => S_IFDIR end.

Lemma fuse_type_key d : as_fuse_type d = type_of_key (key_of d).
Proof. by destruct d as [| |[]]. Qed.

Definition inode_of (t : InodeTracker) (k : key) : option N :=
  match k with
  | KBlob digest => blob_digest_to_inode t !! digest
  | KLink target => symlink_target_to_inode t !! target
  | KDir digest => directory_digest_to_inode t !! digest
  end.

Definition stands_for (t : InodeTracker) (i : N) (k : key) : Prop := ∃ d, data t !! i = Some d ∧ key_of d = k.

(** The tables are the inverse of the data; the inodes are those given out. *)
Record tracker_ok (t : InodeTracker) : Prop := {
  tr_next : 2 ≤ next_inode t;
  tr_given i : is_Some (data t !! i) ↔ 2 ≤ i < next_inode t;
  tr_keys k i : inode_of t k = Some i ↔ stands_for t i k;
}.

Lemma tracker_default_ok : tracker_ok tracker_default.
Proof.
  split; cbn; [lia| |].
  - intros i. rewrite lookup_empty. split; [by intros []|lia].
  - intros k i. unfold stands_for. cbn. setoid_rewrite lookup_empty. split; [by destruct k|by intros (? & ? & _)].
Qed.

(** No two inodes stand for the same. *)
Lemma stands_for_inj t i j k : tracker_ok t → stands_for t i k → stands_for t j k → i = j.
Proof. intros Ht Hi%(tr_keys _ Ht) Hj%(tr_keys _ Ht). congruence. Qed.

Lemma stands_for_fun t i k k' : stands_for t i k → stands_for t i k' → k = k'.
Proof. intros (d & Hd & <-) (d' & Hd' & <-). congruence. Qed.

Lemma stands_for_bounds t i k : tracker_ok t → stands_for t i k → 2 ≤ i < next_inode t.
Proof. intros Ht (d & Hd & _). apply (tr_given _ Ht). by eexists. Qed.

Lemma inode_of_insert d t k :
  inode_of (insert_and_increment d t).2 k = if decide (k = key_of d) then Some (next_inode t) else inode_of t k.
Proof.
  destruct d as [dg sz x|tg|[dg sz|dg ch]], k as [k|k|k]; cbn; try done; case_decide as E; simplify_eq; try done;
    (by rewrite lookup_insert_eq) || (rewrite lookup_insert_ne; [done|congruence]).
Qed.

Lemma insert_data d t : data (insert_and_increment d t).2 = <[next_inode t := d]> (data t).
Proof. by destruct d as [| |[]]. Qed.

Lemma insert_next d t : next_inode (insert_and_increment d t).2 = next_inode t + 1.
Proof. by destruct d as [| |[]]. Qed.

Lemma insert_ino d t : (insert_and_increment d t).1 = next_inode t.
Proof. by destruct d as [| |[]]. Qed.

Lemma insert_ok d t : tracker_ok t → inode_of t (key_of d) = None →
  let t' := (insert_and_increment d t).2 in tracker_ok t' ∧ data t ⊆ data t'.
Proof.
  intros Ht Hnew. assert (data t !! next_inode t = None) as Hfresh.
  { apply eq_None_not_Some. intros Hs%(tr_given _ Ht). lia. }
  cbn. split; [|rewrite insert_data; by apply insert_subseteq]. split.
  - rewrite insert_next. pose proof (tr_next _ Ht). lia.
  - intros i. rewrite insert_data, insert_next. pose proof (tr_given _ Ht i) as Hi. pose proof (tr_next _ Ht).
    destruct (decide (i = next_inode t)) as [->|Hne]; [rewrite lookup_insert_eq; split; [lia|by eexists]|].
    rewrite lookup_insert_ne by done. rewrite Hi. lia.
  - intros k i. rewrite inode_of_insert. unfold stands_for. rewrite insert_data. case_decide as E.
    + subst k. split; [intros [= <-]; exists d; by rewrite lookup_insert_eq|]. intros (d' & Hd' & Hk).
      destruct (decide (i = next_inode t)) as [->|Hne]; [done|]. rewrite lookup_insert_ne in Hd' by done.
      assert (inode_of t (key_of d) = Some i) by (apply (tr_keys _ Ht); by exists d'). congruence.
    + rewrite (tr_keys _ Ht). unfold stands_for. destruct (decide (i = next_inode t)) as [->|Hne].
      * rewrite lookup_insert_eq. split; intros (d' & Hd' & Hk); congruence.
      * by rewrite lookup_insert_ne.
Qed.

(** [put] finds the inode of a content or makes one; nothing else changes. *)
Lemma tracker_put_spec {E} n t : tracker_ok t →
  ∃ i t', tracker_put (E := E) (from_node n) t = Ok (i, t') ∧ tracker_ok t' ∧ stands_for t' i (node_key n) ∧ data t ⊆ data t' ∧
    ∀ j d, data t' !! j = Some d → data t !! j = Some d ∨ d = from_node n.
Proof.
  intros Ht.
  assert (tracker_put (E := E) (from_node n) t =
    match inode_of t (node_key n) with Some i => Ok (i, t) | None => Ok (insert_and_increment (from_node n) t) end) as -> by (by destruct n).
  destruct (inode_of t (node_key n)) as [i|] eqn:Ei.
  - exists i, t. apply (tr_keys _ Ht) in Ei. split_and!; auto.
  - destruct (insert_ok (from_node n) t Ht Ei) as [Ht' Hsub]. destruct (insert_and_increment (from_node n) t) as [i t'] eqn:E'.
    pose proof (insert_ino (from_node n) t) as Hi. pose proof (insert_data (from_node n) t) as Hd. rewrite E' in *. cbn in *.
    exists i, t'. split_and!; [done|done| |done|].
    + exists (from_node n). rewrite Hd, Hi. by rewrite lookup_insert_eq.
    + intros j d. rewrite Hd. destruct (decide (j = next_inode t)) as [->|]; [rewrite lookup_insert_eq; intros [= <-]; by right|].
      rewrite lookup_insert_ne by done. by left.
Qed.

(** [replace] by data of the same key. *)
Lemma replace_ok {E} i d d' t : tracker_ok t → data t !! i = Some d → key_of d = key_of d' →
  ∃ t', replace (E := E) i d' t = Ok t' ∧ tracker_ok t' ∧ data t' = <[i := d']> (data t) ∧ ∀ j k, stands_for t j k ↔ stands_for t' j k.
Proof.
  intros Ht Hd Hk. unfold replace. rewrite Hd. eexists. split; [done|].
  assert (∀ j k, stands_for t j k ↔ stands_for (set_data t (<[i:=d']> (data t))) j k) as Hst.
  { intros j k. unfold stands_for. cbn. destruct (decide (j = i)) as [->|Hne]; [|by rewrite lookup_insert_ne].
    rewrite lookup_insert_eq. split; intros (? & ? & ?); simplify_eq; eauto. }
  split_and!; [|done|done]. split; [apply Ht| |].
  - intros j. cbn. rewrite <- (tr_given _ Ht j). destruct (decide (j = i)) as [->|Hne]; [rewrite lookup_insert_eq, Hd; split; by eexists|].
    by rewrite lookup_insert_ne.
  - intros k j. rewrite <- Hst, <- (tr_keys _ Ht). by destruct k.
Qed.

(** ** The state of the filesystem *)

Section Fs.
Context {BS R DS RN : Type} `{!BlobService BS R, !AsyncRead R, !AsyncSeek R, !DirectoryService DS, !RootNodes RN}.
Abbreviation Fs := (@TvixStoreFs BS R DS RN).
Abbreviation run A := (fsm (BS := BS) (R := R) (DS := DS) (RN := RN) A).

(** What is behind the filesystem: a service with the directories [dirs], and
    a provider that lists nothing but what it has. *)
Context (bs : BS) (ds : DS) (dirs : bytes → option Directory) (rn : RN).
Context (Hget : ∀ dg, get dg ds = (Ok (dirs dg), ds)).
Context (Hlist : ∀ name node, Ok (name, node) ∈ list_nodes rn → get_by_basename name rn = Ok (Some node)).

Definition inode_is (s : Fs) (i : N) (k : key) : Prop := stands_for (inode_tracker s) i k.

(** Children with their inodes. *)
Definition child_entry (c : N * bytes * Node) : bytes * Node := (c.1.2, c.2).
Definition children_of (s : Fs) (dg : bytes) (ch : list (N * bytes * Node)) : Prop :=
  dirs dg = Some (child_entry <$> ch) ∧ Forall (λ c, inode_is s c.1.1 (node_key c.2)) ch.

Record fs_ok (s : Fs) : Prop := {
  fs_bs : blob_service s = bs;
  fs_ds : directory_service s = ds;
  fs_rn : root_nodes_provider s = rn;
  fs_tracker : tracker_ok (inode_tracker s);
  fs_children i dg ch : data (inode_tracker s) !! i = Some (DirectoryI (Populated dg ch)) → children_of s dg ch;
  fs_roots name i : root_nodes s !! name = Some i → ∃ node, get_by_basename name rn = Ok (Some node) ∧ inode_is s i (node_key node);
  fs_channels h rx : dir_handles s !! h = Some rx → rx `suffix_of` imap pair (list_nodes rn);
}.

(** What every call leaves as it is: what inodes stand for, the inodes of the
    root, the open files and the configuration. *)
Record keeps (s s' : Fs) : Prop := {
  kp_inodes i k : inode_is s i k → inode_is s' i k;
  kp_roots : root_nodes s ⊆ root_nodes s';
  kp_list : list_root s' = list_root s;
}.

#[global] Instance keeps_preorder : PreOrder keeps.
Proof.
  split; [intros s; by split|]. intros a b c [] []. split; [auto|by etransitivity|congruence].
Qed.

Lemma fs_new_ok lr sx : fs_ok (new bs ds rn lr sx).
Proof. split; try done; [apply tracker_default_ok|..]; cbn; intros *; by rewrite lookup_empty. Qed.

(** Changes of the tracker and the inodes of the root. *)
Lemma set_inodes_ok s names t :
  fs_ok s → tracker_ok t → (∀ i k, inode_is s i k → stands_for t i k) → root_nodes s ⊆ names →
  (∀ i dg ch, data t !! i = Some (DirectoryI (Populated dg ch)) → children_of (set_inodes s names t) dg ch) →
  (∀ name i, names !! name = Some i → ∃ node, get_by_basename name rn = Ok (Some node) ∧ stands_for t i (node_key node)) →
  fs_ok (set_inodes s names t) ∧ keeps s (set_inodes s names t).
Proof. intros [] Ht Hst Hsub Hch Hroots. split; [by split|]. by split. Qed.

Lemma children_of_mono s s' dg ch : (∀ i k, inode_is s i k → inode_is s' i k) → children_of s dg ch → children_of s' dg ch.
Proof. intros Hk [Hd Hch]. split; [done|]. eapply Forall_impl; [exact Hch|]. intros c. apply Hk. Qed.

Lemma put_inode_spec n s : fs_ok s →
  ∃ i s', put_inode (from_node n) s = (Ok i, s') ∧ fs_ok s' ∧ keeps s s' ∧ inode_is s' i (node_key n) ∧
    root_nodes s' = root_nodes s ∧ dir_handles s' = dir_handles s ∧ file_handles s' = file_handles s ∧ data (inode_tracker s) ⊆ data (inode_tracker s').
Proof.
  intros Hs. destruct (tracker_put_spec (E := FsError) n (inode_tracker s) (fs_tracker _ Hs)) as (i & t & E & Ht & Hi & Hsub & Hinv).
  exists i, (set_inodes s (root_nodes s) t). unfold put_inode. rewrite E.
  assert (∀ j k, inode_is s j k → stands_for t j k) as Hst.
  { intros j k (d & Hd & Hk). exists d. split; [|done]. by eapply lookup_weaken. }
  destruct (set_inodes_ok s (root_nodes s) t Hs Ht Hst) as [Hs' Hk]; [done|..].
  - intros j dg ch Hj. destruct (Hinv j _ Hj) as [Hj'|Hn]; [|by destruct n].
    eapply (children_of_mono s); [exact Hst|]. by eapply fs_children.
  - intros name j Hj. destruct (fs_roots _ Hs name j Hj) as (node & ? & Hn). exists node. split; [done|]. by apply Hst.
  - by split_and!.
Qed.

(** What the calls inside of one call leave as it is. *)
Record same_handles (s s' : Fs) : Prop := {
  sh_roots : root_nodes s' = root_nodes s;
  sh_dirs : dir_handles s' = dir_handles s;
  sh_files : file_handles s' = file_handles s;
}.

#[global] Instance same_handles_preorder : PreOrder same_handles.
Proof. split; [intros s; by split|]. intros a b c [] []. split; congruence. Qed.

Lemma put_children_spec nodes s : fs_ok s →
  ∃ ch s', put_children nodes s = (Ok ch, s') ∧ fs_ok s' ∧ keeps s s' ∧ same_handles s s' ∧ child_entry <$> ch = nodes ∧
    Forall (λ c, inode_is s' c.1.1 (node_key c.2)) ch ∧ data (inode_tracker s) ⊆ data (inode_tracker s').
Proof.
  revert s. induction nodes as [|[name node] nodes IH]; intros s Hs.
  { exists [], s. by split_and!. }
  destruct (put_inode_spec node s Hs) as (i & s1 & E1 & Hs1 & Hk1 & Hi & ? & ? & ? & Hd1).
  destruct (IH s1 Hs1) as (ch & s2 & E2 & Hs2 & Hk2 & Hh2 & Hch & Hst & Hd2).
  exists ((i, name, node) :: ch), s2. split_and!; [|done|by etransitivity|transitivity s1; [by split|done]|cbn; by rewrite Hch| |by etransitivity].
  - cbn [put_children]. unfold fbind. by rewrite E1, E2.
  - constructor; [|done]. by apply (kp_inodes _ _ Hk2).
Qed.

Lemma fetch_directory_spec dg s : fs_ok s →
  fetch_directory dg s = (match dirs dg with Some d => Ok d | None => Err (Os EIO) end, s).
Proof.
  intros Hs. unfold fetch_directory. rewrite (fs_ds _ Hs), Hget. assert (set_service s ds = s) as ->; [|by destruct (dirs dg)].
  rewrite <- (fs_ds _ Hs). by destruct s.
Qed.

Lemma get_children_eq s i d : data (inode_tracker s) !! i = Some d →
  get_directory_children i s =
    match d with
    | DirectoryI (Populated parent_digest children) => (Ok (parent_digest, children), s)
    | DirectoryI (Sparse parent_digest _) =>
        (fbind (fetch_directory parent_digest) (λ directory, fbind (put_children directory) (λ children,
           fbind (replace_inode i (DirectoryI (Populated parent_digest children))) (λ _, fret (parent_digest, children)))) : run _) s
    | _ => (Err (Os ENOTDIR), s)
    end.
Proof. intros Hd. unfold get_directory_children, fbind at 1, known_inode, tracker_get. rewrite Hd. by destruct d as [| |[]]. Qed.

(** The children of a directory, which from then on is populated with them. *)
Lemma get_directory_children_spec s i dg : fs_ok s → inode_is s i (KDir dg) →
  match dirs dg with
  | Some d => ∃ ch s', get_directory_children i s = (Ok (dg, ch), s') ∧ fs_ok s' ∧ keeps s s' ∧ same_handles s s' ∧ child_entry <$> ch = d ∧
      Forall (λ c, inode_is s' c.1.1 (node_key c.2)) ch ∧ data (inode_tracker s') !! i = Some (DirectoryI (Populated dg ch))
  | None => get_directory_children i s = (Err (Os EIO), s)
  end.
Proof.
  intros Hs (d & Hd & Hk). rewrite (get_children_eq _ _ _ Hd).
  destruct d as [| |[dg' sz|dg' ch]]; try done; injection Hk as ->.
  - unfold fbind. rewrite fetch_directory_spec by done. destruct (dirs dg) as [directory|] eqn:Edir; [|done].
    destruct (put_children_spec directory s Hs) as (ch & s1 & E1 & Hs1 & Hk1 & Hh1 & Hch & Hst & Hdata).
    assert (data (inode_tracker s1) !! i = Some (DirectoryI (Sparse dg sz))) as Hi by (by eapply lookup_weaken).
    destruct (replace_ok (E := FsError) i _ (DirectoryI (Populated dg ch)) (inode_tracker s1) (fs_tracker _ Hs1) Hi eq_refl) as (t & E2 & Ht & Htd & Hsf).
    destruct (set_inodes_ok s1 (root_nodes s1) t Hs1 Ht) as [Hs2 Hk2]; [intros j k; apply Hsf|done| | |].
    + intros j dg' ch'. rewrite Htd. destruct (decide (j = i)) as [->|Hne].
      * rewrite lookup_insert_eq. intros [= <- <-]. split; [by rewrite Hch|]. eapply Forall_impl; [exact Hst|]. intros c. apply Hsf.
      * rewrite lookup_insert_ne by done. intros Hj. eapply (children_of_mono s1); [intros ??; apply Hsf|by eapply fs_children].
    + intros name j Hj. destruct (fs_roots _ Hs1 name j Hj) as (node & ? & Hn). exists node. split; [done|]. by apply Hsf.
    + exists ch, (set_inodes s1 (root_nodes s1) t). split_and!; [|done|by etransitivity|transitivity s1; [done|by split]|done| |].
      * rewrite E1. unfold replace_inode. by rewrite E2.
      * eapply Forall_impl; [exact Hst|]. intros c. apply Hsf.
      * cbn. rewrite Htd. by rewrite lookup_insert_eq.
  - destruct (fs_children _ Hs _ _ _ Hd) as [-> Hst]. by exists ch, s.
Qed.

(** Not a directory. *)
Lemma get_children_not_dir s i k : inode_is s i k → (∀ dg, k ≠ KDir dg) → get_directory_children i s = (Err (Os ENOTDIR), s).
Proof.
  intros (d & Hd & <-) Hk. rewrite (get_children_eq _ _ _ Hd).
  destruct d as [| |[dg sz|dg ch]]; [done|done|by destruct (Hk dg)..].
Qed.

Lemma known_inode_spec s i k : inode_is s i k → ∃ d, known_inode i s = (Ok d, s) ∧ key_of d = k.
Proof. intros (d & Hd & Hk). exists d. unfold known_inode, tracker_get. by rewrite Hd. Qed.

(** *** Names in the root *)

Lemma insert_root_spec name i node s : fs_ok s → get_by_basename name rn = Ok (Some node) → inode_is s i (node_key node) →
  root_nodes s !! name = None → ∃ s', insert_root name i s = (Ok tt, s') ∧ fs_ok s' ∧ keeps s s' ∧ root_nodes s' !! name = Some i ∧
    inode_tracker s' = inode_tracker s ∧ dir_handles s' = dir_handles s.
Proof.
  intros Hs Hn Hi Hnone. unfold insert_root. eexists. split; [done|].
  destruct (set_inodes_ok s (<[name := i]> (root_nodes s)) (inode_tracker s) Hs (fs_tracker _ Hs)) as [Hs' Hk];
    [done|by apply insert_subseteq| | |split_and!; [done|done|cbn; by rewrite lookup_insert_eq|done|done]].
  - intros j dg ch. apply (fs_children _ Hs).
  - intros name' j. destruct (decide (name' = name)) as [->|]; [rewrite lookup_insert_eq; intros [= <-]; by exists node|].
    rewrite lookup_insert_ne by done. apply (fs_roots _ Hs).
Qed.

(** The inode of a name is that of the node that the provider has. *)
Lemma name_in_root_spec name s : fs_ok s →
  match get_by_basename name rn with
  | Ok (Some node) => ∃ i d s', name_in_root_to_ino_and_data name s = (Ok (i, d), s') ∧ fs_ok s' ∧ keeps s s' ∧
      inode_is s' i (node_key node) ∧ key_of d = node_key node
  | Ok None => name_in_root_to_ino_and_data name s = (Err (Os ENOENT), s)
  | Err _ => name_in_root_to_ino_and_data name s = (Err (Os EIO), s)
  | Panic => name_in_root_to_ino_and_data name s = (Panic, s)
  end.
Proof.
  intros Hs. unfold name_in_root_to_ino_and_data, get_inode_for_root_name. rewrite (fs_rn _ Hs). destruct (root_nodes s !! name) as [i|] eqn:Ei.
  - destruct (fs_roots _ Hs _ _ Ei) as (node & -> & Hi). destruct (known_inode_spec _ _ _ Hi) as (d & E & Hk).
    exists i, d, s. unfold fbind. rewrite E. by split_and!.
  - destruct (get_by_basename name rn) as [[node|]| |] eqn:En; [|done..].
    destruct (put_inode_spec node s Hs) as (i & s1 & E1 & Hs1 & Hk1 & Hi & Hr & ? & _).
    destruct (insert_root_spec name i node s1 Hs1 En Hi) as (s2 & E2 & Hs2 & Hk2 & _ & Ht & _); [by rewrite Hr|].
    exists i, (from_node node), s2. unfold fbind. rewrite E1, E2. split_and!; [done|done|by etransitivity| |done].
    unfold inode_is. by rewrite Ht.
Qed.

(** *** Paths *)

(** The node at a path below a node, as the directories have it. *)
Fixpoint resolve (n : Node) (names : list bytes) : outcome FsError Node :=
  match names with
  | [] => Ok n
  | name :: names =>
      match n with
      | DirectoryN dg _ =>
          match dirs dg with
          | Some d =>
              match list_find (λ e, e.1 = name) d with
              | Some (_, (_, child)) => resolve child names
              | None => Err (Os ENOENT)
              end
          | None => Err (Os EIO)
          end
      | _ => Err (Os ENOTDIR)
      end
  end.

Definition resolve_root (name : bytes) (names : list bytes) : outcome FsError Node :=
  match get_by_basename name rn with
  | Ok (Some node) => resolve node names
  | Ok None => Err (Os ENOENT)
  | Err _ => Err (Os EIO)
  | Panic => Panic
  end.

Fixpoint lookup_path (parent : N) (names : list bytes) : run N :=
  match names with
  | [] => fret parent
  | name :: names => fbind (lookup parent name) (λ e, lookup_path (entry_inode e) names)
  end.

(** [r] is the answer of a call on [s] that left the filesystem in order, for
    the node [o] or the error [o]. *)
Definition finds {A} (ino : A → N) (s : Fs) (o : outcome FsError Node) (r : outcome FsError A * Fs) : Prop :=
  let '(res, s') := r in
  match o, res with
  | Ok node, Ok a => fs_ok s' ∧ keeps s s' ∧ inode_is s' (ino a) (node_key node)
  | Err e, Err e' => e' = e ∧ fs_ok s' ∧ keeps s s'
  | Panic, Panic => True
  | _, _ => False
  end.

Lemma inode_not_root s i k : fs_ok s → inode_is s i k → i ≠ ROOT_ID.
Proof. intros Hs Hi%(stands_for_bounds _ _ _ (fs_tracker _ Hs)). unfold ROOT_ID. lia. Qed.

Lemma find_child name ch : list_find (λ e : bytes * Node, e.1 = name) (child_entry <$> ch) =
  prod_map id child_entry <$> list_find (λ c : N * bytes * Node, c.1.2 = name) ch.
Proof.
  induction ch as [|c ch IH]; [done|]. cbn. unfold decide, bool_decide. destruct (decide_rel _ _ _); [done|]. rewrite IH.
  by destruct (list_find _ ch) as [[]|].
Qed.

Lemma lookup_child_spec s i n name : fs_ok s → inode_is s i (node_key n) → Component.name_ok name →
  finds entry_inode s (resolve n [name]) (lookup i name s).
Proof.
  intros Hs Hi Hname. unfold lookup. rewrite (proj2 (Component.component_try_from_Ok name name)) by done.
  rewrite (proj2 (N.eqb_neq _ _)) by (by eapply inode_not_root). unfold fbind at 1. cbn [resolve].
  destruct n as [dg sz|dg sz x|tg]; cbn [node_key from_node key_of] in Hi.
  2,3: (rewrite (get_children_not_dir s i _ Hi) by done; by split_and!).
  pose proof (get_directory_children_spec s i dg Hs Hi) as Hch. destruct (dirs dg) as [d|]; [|rewrite Hch; by split_and!].
  destruct Hch as (ch & s1 & -> & Hs1 & Hk1 & _ & <- & Hst & _). cbn [snd]. rewrite find_child.
  destruct (list_find _ ch) as [[j [[ci cn] cnode]]|] eqn:Ef; cbn; [|by split_and!].
  apply list_find_Some in Ef as (Hj & _). eapply Forall_lookup_1 in Hst; [|exact Hj]. cbn in Hst.
  destruct (known_inode_spec s1 ci _ Hst) as (cd & E & Hk). unfold fbind. by rewrite E.
Qed.

Lemma lookup_root_spec s name : fs_ok s → Component.name_ok name → finds entry_inode s (resolve_root name []) (lookup ROOT_ID name s).
Proof.
  intros Hs Hname. unfold lookup. rewrite (proj2 (Component.component_try_from_Ok name name)) by done. rewrite N.eqb_refl. unfold fbind, resolve_root.
  pose proof (name_in_root_spec name s Hs) as Hn. destruct (get_by_basename name rn) as [[node|]|e|]; [|rewrite Hn; by split_and!..|by rewrite Hn].
  destruct Hn as (i & d & s1 & -> & ? & ? & ? & _). by split_and!.
Qed.

Lemma finds_bind {A C} (ino : A → N) (ino' : C → N) s o r o' (f : A → run C) :
  finds ino s o r →
  (∀ node a s', o = Ok node → r = (Ok a, s') → fs_ok s' → keeps s s' → inode_is s' (ino a) (node_key node) → finds ino' s' (o' node) (f a s')) →
  finds ino' s (obind o o') (match r with (Ok a, s) => f a s | (Err e, s) => (Err e, s) | (Panic, s) => (Panic, s) end).
Proof.
  destruct r as [[a|e|] s1], o as [node|e'|]; cbn; try done. intros (Hs1 & Hk1 & Hi) Hf. specialize (Hf node a s1 eq_refl eq_refl Hs1 Hk1 Hi).
  destruct (f a s1) as [[c|e|] s2], (o' node) as [node'|e'|]; cbn in *; try done.
  - destruct Hf as (? & ? & ?). split_and!; [done|by etransitivity|done].
  - destruct Hf as (? & ? & ?). split_and!; [done|done|by etransitivity].
Qed.

Lemma lookup_below s i n names : fs_ok s → inode_is s i (node_key n) → Forall Component.name_ok names →
  finds id s (resolve n names) (lookup_path i names s).
Proof.
  intros Hs Hi Hn. revert s i n Hs Hi. induction Hn as [|name names Hname _ IH]; intros s i n Hs Hi; [by split_and!|].
  assert (resolve n (name :: names) = obind (resolve n [name]) (λ child, resolve child names)) as ->.
  { cbn. destruct n; [|done..]. destruct (dirs _); [|done]. by destruct (list_find _ _) as [[? []]|]. }
  cbn [lookup_path]. unfold fbind. apply (finds_bind entry_inode); [by apply lookup_child_spec|]. intros node a s' _ _ Hs' _ Hi'. by apply IH.
Qed.

(** *** Every call *)

Lemma set_handles_ok s dh n fh m : fs_ok s → (∀ h rx, dh !! h = Some rx → rx `suffix_of` imap pair (list_nodes rn)) →
  fs_ok (set_file_handles (set_dir_handles s dh n) fh m) ∧ keeps s (set_file_handles (set_dir_handles s dh n) fh m).
Proof. intros [] Hdh. split; by split. Qed.

Lemma set_dirs_ok s dh n : fs_ok s → (∀ h rx, dh !! h = Some rx → rx `suffix_of` imap pair (list_nodes rn)) →
  fs_ok (set_dir_handles s dh n) ∧ keeps s (set_dir_handles s dh n).
Proof. intros [] Hdh. split; by split. Qed.

Lemma set_files_ok s fh m : fs_ok s → fs_ok (set_file_handles s fh m) ∧ keeps s (set_file_handles s fh m).
Proof. intros []. split; by split. Qed.

(** Whether an inode is known, and of what. *)
Lemma inode_cases s i : data (inode_tracker s) !! i = None ∨ ∃ n, inode_is s i (node_key n).
Proof.
  destruct (data (inode_tracker s) !! i) as [d|] eqn:E; [right|by left]. destruct d as [dg sz x|tg|[dg sz|dg ch]].
  - exists (FileN dg sz x). by eexists.
  - exists (SymlinkN tg). by eexists.
  - exists (DirectoryN dg sz). by eexists.
  - exists (DirectoryN dg 0). by eexists.
Qed.

(** A call keeps the filesystem in order, whatever it answers. *)
Definition orderly {A} (m : run A) : Prop := ∀ s, fs_ok s → fs_ok (m s).2 ∧ keeps s (m s).2.

Lemma orderly_known i : orderly (known_inode i).
Proof. intros s Hs. unfold known_inode. by destruct (tracker_get _ _). Qed.

Lemma orderly_bind {A C} (m : run A) (f : A → run C) : orderly m → (∀ a, orderly (f a)) → orderly (fbind m f).
Proof.
  intros Hm Hf s Hs. unfold fbind. destruct (Hm s Hs) as [Hs1 Hk1]. destruct (m s) as [[a|e|] s1]; cbn in *; [|done..].
  destruct (Hf a s1 Hs1) as [Hs2 Hk2]. split; [done|by etransitivity].
Qed.

Lemma orderly_ret {A} (a : A) : orderly (fret a).
Proof. intros s Hs. done. Qed.

Lemma orderly_fail {A} e : orderly (ffail e : run A).
Proof. intros s Hs. done. Qed.

Lemma orderly_children i : orderly (get_directory_children i).
Proof.
  intros s Hs. destruct (inode_cases s i) as [Hn|[n Hi]].
  - unfold get_directory_children, fbind, known_inode, tracker_get. by rewrite Hn.
  - destruct n as [dg sz|dg sz x|tg]; [|by rewrite (get_children_not_dir s i _ Hi)..].
    pose proof (get_directory_children_spec s i dg Hs Hi) as Hc. destruct (dirs dg); [|by rewrite Hc].
    by destruct Hc as (ch & s1 & -> & ? & ? & _).
Qed.

Lemma orderly_lookup i name : orderly (lookup i name).
Proof.
  intros s Hs. unfold lookup. destruct (Component.try_from name) as [c| |]; [|done..]. destruct (i =? ROOT_ID).
  - apply orderly_bind; [|intros; apply orderly_ret|done]. intros s1 Hs1. pose proof (name_in_root_spec c s1 Hs1) as Hn.
    destruct (get_by_basename c rn) as [[node|]| |]; [|by rewrite Hn..]. by destruct Hn as (? & ? & ? & -> & ? & ? & _).
  - apply orderly_bind; [apply orderly_children| |done]. intros x. destruct (list_find _ _) as [[? [[]]]|]; [|apply orderly_fail].
    apply orderly_bind; [apply orderly_known|intros; apply orderly_ret].
Qed.

Lemma orderly_open i : orderly (open i).
Proof.
  unfold open. destruct (i =? ROOT_ID); [apply orderly_fail|]. apply orderly_bind; [apply orderly_known|]. intros [dg sz x|tg|d]; [|apply orderly_fail..].
  intros s Hs. destruct (open_read dg _) as [[r|]| |]; [|done..]. by apply set_files_ok.
Qed.

Lemma orderly_opendir i : orderly (opendir i).
Proof.
  intros s Hs. unfold opendir. destruct (i =? ROOT_ID); [|done]. destruct (negb _); [done|]. apply set_dirs_ok; [done|].
  intros h rx. rewrite (fs_rn _ Hs). destruct (decide (h = next_dir_handle s)) as [->|]; [rewrite lookup_insert_eq; by intros [= <-]|].
  rewrite lookup_insert_ne by done. apply (fs_channels _ Hs).
Qed.

Lemma orderly_releasedir i h : orderly (releasedir i h).
Proof.
  intros s Hs. unfold releasedir. destruct (i =? ROOT_ID); [|done]. apply set_dirs_ok; [done|].
  intros h' rx [_ Hh]%lookup_delete_Some. by eapply fs_channels.
Qed.

Section Lists.
Context {K : Type} (failed : Errno) (add_entry : DirEntry → InodeData → N → K → outcome FsError nat * K).

(** Listing the root gives inodes to names that the provider has. *)
Lemma orderly_root handle offset rx s k : fs_ok s → rx `suffix_of` imap pair (list_nodes rn) →
  let s' := (read_root failed add_entry handle offset rx (s, k)).2.1 in fs_ok s' ∧ keeps s s'.
Proof.
  revert s k. induction rx as [|[i n] rx IH]; intros s k Hs Hrx; [done|]. cbn [read_root]. unfold kbind, on_fs, receive. cbn [fst snd].
  assert (rx `suffix_of` imap pair (list_nodes rn)) as Hrx' by (etransitivity; [|exact Hrx]; by exists [(i, n)]).
  set (s0 := set_dir_handles s (<[handle := rx]> (dir_handles s)) (next_dir_handle s)).
  destruct (set_dirs_ok s (<[handle := rx]> (dir_handles s)) (next_dir_handle s) Hs) as [Hs0 Hk0].
  { intros h rx'. destruct (decide (h = handle)) as [->|]; [rewrite lookup_insert_eq; by intros [= <-]|].
    rewrite lookup_insert_ne by done. apply (fs_channels _ Hs). }
  fold s0 in Hs0, Hk0. destruct n as [[name node]|e|]; [|done..].
  assert (get_by_basename name rn = Ok (Some node)) as Hn.
  { apply Hlist. destruct Hrx as [pre Hpre]. assert ((i, Ok (name, node)) ∈ imap pair (list_nodes rn)) as Hin by (rewrite Hpre; set_solver).
    apply elem_of_lookup_imap in Hin as (j & y & [= -> ->] & Hj). by eapply list_elem_of_lookup_2. }
  assert (orderly (root_entry_inode name (from_node node))) as Hent.
  { intros s1 Hs1. unfold root_entry_inode, get_inode_for_root_name. destruct (root_nodes s1 !! name) eqn:Er; [done|].
    destruct (put_inode_spec node s1 Hs1) as (j & s2 & E2 & Hs2 & Hk2 & Hj & Hr & _).
    destruct (insert_root_spec name j node s2 Hs2 Hn Hj) as (s3 & E3 & Hs3 & Hk3 & _); [by rewrite Hr|].
    unfold fbind. rewrite E2, E3. cbn. split; [done|by etransitivity]. }
  cbn [fst snd]. change (set_dir_handles s _ _) with s0. destruct (Hent s0 Hs0) as [Hs1 Hk1]. destruct (root_entry_inode name (from_node node) s0) as [[j|e|] s1]; cbn [snd] in *;
    [|split; [done|by etransitivity]..].
  unfold emit. cbn [fst snd]. destruct (add_entry _ _ _ k) as [[written|e|] k']; cbn [fst snd]; [|split; [done|by etransitivity]..].
  destruct (written =? 0)%nat; cbn [fst snd]; [split; [done|by etransitivity]|].
  destruct (IH s1 k' Hs1 Hrx') as [Hs2 Hk2]. split; [done|]. transitivity s0; [done|]. by transitivity s1.
Qed.

Lemma read_children_state offset i ch (s : Fs) k : (read_children add_entry offset i ch (s, k)).2.1 = s.
Proof.
  revert i k. induction ch as [|[[ino name] node] ch IH]; intros i k; [done|]. cbn [read_children]. unfold kbind, emit. cbn [fst snd].
  destruct (add_entry _ _ _ k) as [[written|e|] k']; [|done..]. destruct (written =? 0)%nat; [done|]. apply IH.
Qed.

Lemma orderly_list inode handle offset s k : fs_ok s →
  let s' := (list_directory failed add_entry inode handle offset (s, k)).2.1 in fs_ok s' ∧ keeps s s'.
Proof.
  intros Hs. unfold list_directory. cbn [fst snd]. destruct (inode =? ROOT_ID).
  - destruct (negb _); [done|]. destruct (dir_handles s !! handle) eqn:Eh; [|done]. apply orderly_root; [done|]. by eapply fs_channels.
  - unfold kbind, on_fs. cbn [fst snd]. destruct (orderly_children inode s Hs) as [Hs1 Hk1].
    destruct (get_directory_children inode s) as [[x|e|] s1]; cbn [fst snd] in *; [|done..]. by rewrite read_children_state.
Qed.

End Lists.

(** A call of the kernel, with whatever it answers. *)
Inductive step `{DataEncoding} (s : Fs) : Fs → Prop :=
| step_getattr i : step s (getattr i s).2
| step_lookup parent name : step s (lookup parent name s).2
| step_opendir i : step s (opendir i s).2
| step_list {K} failed (add_entry : DirEntry → InodeData → N → K → outcome FsError nat * K) i handle offset k :
    step s (list_directory failed add_entry i handle offset (s, k)).2.1
| step_releasedir i handle : step s (releasedir i handle s).2
| step_open i : step s (open i s).2
| step_read {W} `{Write W} dbg cap fuel handle size offset (w w' : W) o s' : read dbg cap fuel handle size offset w s = Some (o, w', s') → step s s'
| step_release handle : step s (release handle s).2
| step_readlink i : step s (readlink i s).2
| step_getxattr i name size : step s (getxattr i name size s).2
| step_listxattr i size : step s (listxattr i size s).2.

Lemma step_ok `{DataEncoding} s s' : step s s' → fs_ok s → fs_ok s' ∧ keeps s s'.
Proof.
  intros [i|parent name|i|K failed add_entry i handle offset k|i handle|i|W HW dbg cap fuel handle size offset w w' o s2 E|handle|i|i name size|i size] Hs.
  - unfold getattr. destruct (i =? ROOT_ID); [done|]. by destruct (tracker_get _ _).
  - by apply orderly_lookup.
  - by apply orderly_opendir.
  - by apply orderly_list.
  - by apply orderly_releasedir.
  - by apply orderly_open.
  - revert E. unfold read. destruct (file_handles s !! handle) as [r|]; [|by intros [= _ _ <-]].
    destruct (read_at _ _ _ _ _ r) as [[[buf|e|] r']|]; [|intros [= _ _ <-]; by apply set_files_ok..|done].
    destruct (Io.write_all buf w) as [w1|e|]; intros [= _ _ <-]; by apply set_files_ok.
  - by apply set_files_ok.
  - unfold readlink. destruct (i =? ROOT_ID); [done|]. apply orderly_bind; [apply orderly_known|intros [| |]; [apply orderly_fail|apply orderly_ret|apply orderly_fail]|done].
  - unfold getxattr. destruct (negb _); [done|]. destruct (tracker_get _ _) as [d|]; [|done]. by destruct (match d with Regular _ _ _ => _ | _ => _ end).
  - unfold listxattr. by destruct (negb _).
Qed.

Lemma steps_ok `{DataEncoding} s s' : rtc step s s' → fs_ok s → fs_ok s' ∧ keeps s s'.
Proof.
  induction 1 as [s|s s1 s2 Hst _ IH]; intros Hs; [done|]. destruct (step_ok _ _ Hst Hs) as [Hs1 Hk1]. destruct (IH Hs1) as [Hs2 Hk2].
  split; [done|by etransitivity].
Qed.

End Fs.

(** C15: the inodes of the filesystem, in every state that calls of the kernel
    lead to, in any order and with any arguments: the inodes that were given out
    stand for a blob, a symlink target or a directory each, no two for the same,
    and are what the tables of the tracker have; no later call changes what an
    inode stands for; the names known in the root have the inodes
    of the nodes that the provider has under them. *)
Theorem fs_inodes_stable {BS R DS RN : Type} `{!BlobService BS R, !AsyncRead R, !AsyncSeek R, !DirectoryService DS, !RootNodes RN, !DataEncoding}
    (bs : BS) (ds : DS) (dirs : bytes → option Directory) (rn : RN) (list_root show_xattr : bool) (s s' : @TvixStoreFs BS R DS RN) :
  (∀ dg, get dg ds = (Ok (dirs dg), ds)) → (∀ name node, Ok (name, node) ∈ list_nodes rn → get_by_basename name rn = Ok (Some node)) →
  rtc step (new bs ds rn list_root show_xattr) s → rtc step s s' →
  (∀ i, is_Some (data (inode_tracker s) !! i) ↔ 2 ≤ i < next_inode (inode_tracker s)) ∧
  (∀ k i, inode_of (inode_tracker s) k = Some i ↔ inode_is s i k) ∧
  (∀ i k, inode_is s i k → inode_is s' i k ∧ ∀ j, inode_is s' j k → j = i) ∧
  ∀ name i, root_nodes s !! name = Some i → root_nodes s' !! name = Some i ∧
    ∃ node, get_by_basename name rn = Ok (Some node) ∧ inode_is s i (node_key node).
Proof.
  intros Hget Hlist H1 H2. destruct (steps_ok bs ds dirs rn Hget Hlist _ _ H1 (fs_new_ok _ _ _ _ _ _)) as [Hs _].
  destruct (steps_ok bs ds dirs rn Hget Hlist _ _ H2 Hs) as [Hs' Hk]. pose proof (fs_tracker _ _ _ _ _ Hs) as Ht. split_and!; [apply Ht|apply Ht| |].
  - intros i k Hi%(kp_inodes _ _ Hk). split; [done|]. intros j Hj. by eapply stands_for_inj; [apply Hs'| |].
  - intros name i Hi. split; [by eapply lookup_weaken; [|apply Hk]|]. by apply (fs_roots _ _ _ _ _ Hs).
Qed.

(** C16: looking up a path, name by name from the root, gives what the directories
    say: the inode of the node that is at the path below the node that the
    provider has for the first name; ENOENT where a name is missing, ENOTDIR
    below a file or a symlink, EIO where a directory is not in the service. A
    lookup panics only if the provider does, the filesystem is in order
    afterwards, and all inodes stand for what they stood for. *)
Theorem fs_lookup_path {BS R DS RN : Type} `{!BlobService BS R, !AsyncRead R, !AsyncSeek R, !DirectoryService DS, !RootNodes RN}
    (bs : BS) (ds : DS) (dirs : bytes → option Directory) (rn : RN) (s : @TvixStoreFs BS R DS RN) (name : bytes) (names : list bytes) :
  (∀ dg, get dg ds = (Ok (dirs dg), ds)) → fs_ok bs ds dirs rn s → Forall Component.name_ok (name :: names) →
  finds bs ds dirs rn id s (resolve_root dirs rn name names) (lookup_path ROOT_ID (name :: names) s).
Proof.
  intros Hget Hs [Hn Hns]%Forall_cons. cbn [lookup_path]. unfold fbind.
  assert (resolve_root dirs rn name names = obind (resolve_root dirs rn name []) (λ n, resolve dirs n names)) as ->.
  { unfold resolve_root. by destruct (get_by_basename name rn) as [[]| |]. }
  apply (finds_bind bs ds dirs rn entry_inode); [by apply lookup_root_spec|]. intros node a s' _ _ Hs' _ Hi. by apply (lookup_below bs ds dirs rn Hget).
Qed.

(** ** Listing a directory in pages *)

(** A buffer of the kernel: its room, and the entries in it. *)
Definition page_add (e : DirEntry) (k : nat * list DirEntry) : outcome FsError nat * (nat * list DirEntry) :=
  match k with
  | (O, l) => (Ok O, (O, l))
  | (S room, l) => (Ok 1%nat, (room, l ++ [e]))
  end.

Section Pages.
Context {BS R DS RN : Type} `{!BlobService BS R, !AsyncRead R, !AsyncSeek R, !DirectoryService DS, !RootNodes RN}.
Abbreviation Fs := (@TvixStoreFs BS R DS RN).

(** What a client reads with buffers of the given sizes, each time from the
    offset of the last entry it got. *)
Fixpoint list_pages (rooms : list nat) (inode handle offset : N) (s : Fs) : outcome FsError (list DirEntry) * Fs :=
  match rooms with
  | [] => (Ok [], s)
  | room :: rooms =>
      match readdir page_add inode handle offset (s, (room, [])) with
      | (Ok _, (s, (_, page))) =>
          let '(o, s) := list_pages rooms inode handle (match last page with Some e => de_offset e | None => offset end) s in
          (omap_ok (λ rest, page ++ rest) o, s)
      | (Err e, (s, _)) => (Err e, s)
      | (Panic, (s, _)) => (Panic, s)
      end
  end.

(** The entry for a child, and those for the children from a number on. *)
Definition dir_entry (j : nat) (c : N * bytes * Node) : DirEntry :=
  mkDirEntry c.1.1 (N.of_nat j + 1) (type_of_key (node_key c.2)) c.1.2.

Lemma read_children_page (s : Fs) offset i ch room page :
  read_children (λ e _ _, page_add e) offset i ch (s, (room, page)) =
    (Ok tt, (s, ((room - length ch)%nat, page ++ take room (imap (λ j, dir_entry (N.to_nat offset + i + j)) ch)))).
Proof.
  revert i room page. induction ch as [|[[ino name] node] ch IH]; intros i room page.
  { cbn. by rewrite Nat.sub_0_r, take_nil, app_nil_r. }
  cbn [read_children]. unfold kbind, emit. cbn [fst snd]. destruct room as [|room]; cbn [page_add].
  { cbn [Nat.eqb]. cbn. by rewrite app_nil_r. }
  cbn [Nat.eqb]. rewrite IH. cbn [length imap Nat.sub take]. rewrite <- app_assoc. cbn [app]. do 4 f_equal. f_equal.
  - unfold dir_entry. cbn. f_equal; [lia|apply fuse_type_key].
  - f_equal. apply imap_ext. intros j x _. cbn. f_equal. lia.
Qed.

Lemma drop_entries ch k : drop k (imap dir_entry ch) = imap (λ j, dir_entry (k + j)) (drop k ch).
Proof.
  apply list_eq. intros j. by rewrite lookup_drop, !list_lookup_imap, lookup_drop.
Qed.

Lemma readdir_populated (s : Fs) i dg ch handle k room : i ≠ ROOT_ID → data (inode_tracker s) !! i = Some (DirectoryI (Populated dg ch)) →
  readdir page_add i handle (N.of_nat k) (s, (room, [])) =
    (Ok tt, (s, ((room - length (drop k ch))%nat, take room (drop k (imap dir_entry ch))))).
Proof.
  intros Hi Hd. unfold readdir, list_directory. rewrite (proj2 (N.eqb_neq _ _)) by done. unfold kbind, on_fs. cbn [fst snd].
  rewrite (get_children_eq _ _ _ Hd). cbn [fst snd]. rewrite read_children_page, Nat2N.id, drop_entries. cbn [app]. do 4 f_equal.
  apply imap_ext. intros. f_equal. lia.
Qed.

(** The offset after a page. *)
Lemma page_offset ch k room :
  match last (take room (drop k (imap dir_entry ch))) with Some e => de_offset e | None => N.of_nat k end = N.of_nat (k + length (take room (drop k ch))).
Proof.
  rewrite last_lookup, lookup_take, !length_take, length_drop, length_imap, length_drop.
  destruct (decide (room `min` (length ch - k) = 0)%nat) as [E0|Hne].
  - rewrite E0. destruct room; cbn; [f_equal; lia|]. rewrite lookup_drop. destruct (imap dir_entry ch !! (k + 0)%nat) eqn:E; [|rewrite Nat.add_0_r; by case_decide].
    apply lookup_lt_Some in E. rewrite length_imap in E. lia.
  - destruct (decide (Nat.pred (room `min` (length ch - k)) < room)%nat); [|lia]. rewrite lookup_drop, list_lookup_imap.
    destruct (lookup_lt_is_Some_2 ch (k + Nat.pred (room `min` (length ch - k)))) as [c Hc]; [lia|]. rewrite Hc. cbn. lia.
Qed.

Lemma list_pages_populated (s : Fs) rooms i dg ch handle k : i ≠ ROOT_ID → data (inode_tracker s) !! i = Some (DirectoryI (Populated dg ch)) →
  list_pages rooms i handle (N.of_nat k) s = (Ok (take (sum_list rooms) (drop k (imap dir_entry ch))), s).
Proof.
  intros Hi Hd. revert k. induction rooms as [|room rooms IH]; intros k; [done|]. cbn [list_pages]. rewrite (readdir_populated s i dg ch) by done.
  rewrite page_offset, IH. cbn [omap_ok]. change (sum_list (room :: rooms)) with (room + sum_list rooms)%nat. do 2 f_equal. rewrite length_take, length_drop.
  etransitivity; [|apply (take_drop room)]. rewrite take_take, (Nat.min_l room (room + _)) by lia. f_equal.
  rewrite skipn_firstn_comm, drop_drop. replace (room + sum_list rooms - room)%nat with (sum_list rooms) by lia.
  destruct (decide (room ≤ length ch - k)%nat); [do 2 f_equal; lia|]. rewrite !drop_ge; [done|rewrite length_imap; lia..].
Qed.

End Pages.

(** C17: listing a directory below the root in pages: with buffers of any
    sizes, each call continuing after the last entry of the one before, a client
    gets the entries of the directory in order, each once, up to
    the room it had in all: with the inode that stands for the entry's node,
    its type, its name and the offset after it. *)
Theorem readdir_pages {BS R DS RN : Type} `{!BlobService BS R, !AsyncRead R, !AsyncSeek R, !DirectoryService DS, !RootNodes RN}
    (bs : BS) (ds : DS) (dirs : bytes → option Directory) (rn : RN) (s : @TvixStoreFs BS R DS RN) (i handle : N) (dg : bytes) (d : Directory)
    (room : nat) (rooms : list nat) :
  (∀ dg, get dg ds = (Ok (dirs dg), ds)) → fs_ok bs ds dirs rn s → inode_is s i (KDir dg) → dirs dg = Some d →
  ∃ ch s', list_pages (room :: rooms) i handle 0 s = (Ok (take (sum_list (room :: rooms)) (imap dir_entry ch)), s') ∧
    child_entry <$> ch = d ∧ Forall (λ c, inode_is s' c.1.1 (node_key c.2)) ch ∧ fs_ok bs ds dirs rn s' ∧ keeps s s'.
Proof.
  intros Hget Hs Hi Hd. pose proof (inode_not_root bs ds dirs rn s i _ Hs Hi) as Hne.
  pose proof (get_directory_children_spec bs ds dirs rn Hget s i dg Hs Hi) as Hc. rewrite Hd in Hc.
  destruct Hc as (ch & s1 & E & Hs1 & Hk & _ & Hch & Hst & Hpop). exists ch, s1. split_and!; [|done..].
  assert (readdir page_add i handle 0 (s, (room, [])) = readdir page_add i handle 0 (s1, (room, []))) as Hfirst.
  { unfold readdir, list_directory. rewrite (proj2 (N.eqb_neq _ _)) by done. unfold kbind, on_fs. cbn [fst snd].
    rewrite E, (get_children_eq _ _ _ Hpop). done. }
  pose proof (list_pages_populated s1 (room :: rooms) i dg ch handle 0 Hne Hpop) as Hp. cbn [list_pages] in Hp |- *.
  change (N.of_nat 0) with 0 in Hp. by rewrite Hfirst.
Qed.

(** ** Reading files *)

Section Reads.
Context {BS R DS RN : Type} `{RandomAccess BS R, !DirectoryService DS, !RootNodes RN}.
Abbreviation Fs := (@TvixStoreFs BS R DS RN).
Context (dbg : bool) (cap : nat) (Hcap : (0 < cap)%nat).

(** [Take] delivers what it may of what the reader has. *)
Lemma take_streams limit (r : R) c : holds r c → ending r = Ok tt →
  ∃ s', streams take_poll cap (limit, r) (take limit (unread r)) s' ∧ holds s'.2 c.
Proof.
  remember (length (unread r)) as n eqn:Hn. revert limit r Hn. induction (lt_wf n) as [n _ IH]. intros limit r -> Hr He.
  destruct (decide (limit = 0)%nat) as [->|Hl]; [exists (0%nat, r); split; [by apply streams_end|done]|].
  assert (∀ o r', poll_read (cap `min` limit) r = (o, r') → take_poll cap (limit, r) =
    match o with Ok bs => (Some (Ok bs), ((limit - length bs)%nat, r')) | Err e => (Some (Err e), (limit, r')) | Panic => (Some Panic, (limit, r')) end) as Etake.
  { intros o r' E. unfold take_poll. rewrite (proj2 (Nat.eqb_neq _ _)) by done. rewrite E. by destruct o. }
  pose proof (poll_read_spec (cap `min` limit) r) as Hp. destruct (poll_read (cap `min` limit) r) as [[bs|e|] r1] eqn:E; specialize (Etake _ _ eq_refl).
  2,3: (destruct Hp as [_ Hp]; cbn in Hp; by rewrite He in Hp).
  destruct Hp as (Hlen & Hu & He1 & Hend). pose proof (read_holds _ _ _ _ _ Hr E) as Hr1. destruct bs as [|b bs].
  - destruct (Hend eq_refl) as [|[-> _]]; [lia|]. exists ((limit - 0)%nat, r1). rewrite take_nil. split; [by apply streams_end|done].
  - destruct (IH (length (unread r1))) with (limit := (limit - length (b :: bs))%nat) (r := r1) as ([l' r'] & Hs & Hr');
      [rewrite Hu, length_app; cbn; lia|done|done|by rewrite He1|].
    exists (l', r'). split; [|done]. rewrite Hu, take_app, (take_ge (b :: bs)) by lia. by eapply streams_chunk.
Qed.

(** A handle of an open file with the contents [c]. *)
Definition opened_at (s : Fs) (h : N) (c : bytes) : Prop := ∃ r, file_handles s !! h = Some r ∧ holds r c.

Definition slice (c : bytes) (x : nat * Z) : bytes := take x.1 (drop (Z.to_nat x.2) c).

(** What a read of a size at an offset answers and hands to the writer: the
    bytes there; behind the end none, or an error where the reader cannot seek there. *)
Definition read_answer (c : bytes) (x : nat * Z) (y : outcome FsError Z * bytes) : Prop :=
  y = (Ok (Z.of_nat (length (slice c x))), slice c x) ∨ (Z.of_nat (length c) < x.2)%Z ∧ y = (Err (Os EIO), []).

Lemma fs_read_spec (s : Fs) h c size offset : opened_at s h c → (0 ≤ offset)%Z →
  ∃ f0 s' y, opened_at s' h c ∧ read_answer c (size, offset) y ∧ ∀ f, (f0 ≤ f)%nat → read dbg cap f h size offset [] s = Some (y, s').
Proof.
  intros (r & Hh & Hr) Ho.
  assert (∃ o r1, seek (FromStart offset) r = (o, r1) ∧ holds r1 c ∧
    match o with Ok p => p = offset ∧ unread r1 = drop (Z.to_nat offset) c ∧ ending r1 = Ok tt | Err _ => (Z.of_nat (length c) < offset)%Z | Panic => False end)
    as (o & r1 & E & Hr1 & Hp).
  { destruct (decide (offset ≤ Z.of_nat (length c))%Z) as [Hle|Hgt].
    - destruct (seek_holds r c offset Hr) as (r1 & E & ? & ? & ?); [done|]. by exists (Ok offset), r1.
    - destruct (seek_behind r c offset Hr) as (o & r1 & E & ? & Hp); [lia|]. exists o, r1. split_and!; [done..|].
      destruct o; [|lia|done]. rewrite drop_ge by lia. naive_solver. }
  assert (opened_at (set_file_handles s (<[h := r1]> (file_handles s)) (next_file_handle s)) h c) as Hopen1.
  { exists r1. cbn. by rewrite lookup_insert_eq. }
  destruct o as [p|e|]; [|eexists O, _, _; split; [exact Hopen1|]; split; [by right|]; intros f _; unfold read; rewrite Hh; unfold read_at; by rewrite E|done].
  destruct Hp as (-> & Hu & He). destruct (take_streams size r1 c Hr1 He) as ([l' r2] & Hs & Hr2).
  destruct (copy_streams take_poll to_vec eq cap _ _ _ 0%Z [] [] to_vec_takes Hs eq_refl) as (f0 & w' & Hcopy & Hw).
  exists f0, (set_file_handles s (<[h := r2]> (file_handles s)) (next_file_handle s)). eexists. split; [|split; [by left|]].
  { exists r2. cbn. by rewrite lookup_insert_eq. }
  intros f Hf. unfold read. rewrite Hh. unfold read_at. rewrite E, Z.eqb_refl. cbn [negb]. rewrite andb_false_r, Hcopy by done.
  cbn [omap_ok omap_err snd]. cbn in Hw. rewrite Hw, Hu. done.
Qed.

(** Reads of sizes at offsets, and what the writer of each is given. *)
Fixpoint fs_reads (f : nat) (h : N) (l : list (nat * Z)) (s : Fs) : option (list (outcome FsError Z * bytes)) :=
  match l with
  | [] => Some []
  | (size, offset) :: l =>
      match read dbg cap f h size offset [] s with
      | None => None
      | Some (o, w, s) => cons (o, w) <$> fs_reads f h l s
      end
  end.

Lemma fs_reads_spec (s : Fs) h c l : opened_at s h c → Forall (λ x, 0 ≤ x.2)%Z l →
  ∃ f0 res, Forall2 (read_answer c) l res ∧ ∀ f, (f0 ≤ f)%nat → fs_reads f h l s = Some res.
Proof.
  intros Hs Hl. revert s Hs. induction Hl as [|[size offset] l Ho _ IH]; intros s Hs; [by exists O, []|].
  destruct (fs_read_spec s h c size offset Hs Ho) as (f1 & s1 & [o w] & Hs1 & Hy & E1). destruct (IH s1 Hs1) as (f2 & res & Hres & E2).
  exists (f1 `max` f2)%nat, ((o, w) :: res). split; [by constructor|]. intros f Hf. cbn [fs_reads]. rewrite E1 by lia. by rewrite E2 by lia.
Qed.

End Reads.

(** C18: a file of the filesystem has the contents of its blob: opening the inode
    of a blob that is in the service gives a handle, and whatever reads
    are made with it, at any offsets, in any order, each hands
    exactly the bytes of the blob from its offset on to the writer, as many as
    asked for or as there are, and answers their number. Only behind the end,
    where there is nothing to hand over, a reader that refuses to seek there
    (as that of a chunked blob does) makes the answer an error, EIO; the reads
    after it are not affected. *)
Theorem fs_reads_blob {BS R DS RN : Type} `{RandomAccess BS R, !DirectoryService DS, !RootNodes RN} (dbg : bool) (cap : nat)
    (bs : BS) (ds : DS) (dirs : bytes → option Directory) (rn : RN) (s : @TvixStoreFs BS R DS RN) (i : N) (dg c : bytes) (l : list (nat * Z)) :
  (0 < cap)%nat → fs_ok bs ds dirs rn s → inode_is s i (KBlob dg) → blob_of bs dg = Some c → Forall (λ x, 0 ≤ x.2)%Z l →
  ∃ h s' f0 res, open i s = (Ok (Some h), s') ∧ fs_ok bs ds dirs rn s' ∧ keeps s s' ∧ Forall2 (read_answer c) l res ∧
    ∀ f, (f0 ≤ f)%nat → fs_reads dbg cap f h l s' = Some res.
Proof.
  intros Hcap Hs Hi Hb Hl. pose proof (inode_not_root bs ds dirs rn s i _ Hs Hi) as Hne. pose proof (open_read_spec dg bs) as Ho. rewrite Hb in Ho.
  destruct Ho as (r & Ho & _). pose proof (open_holds _ _ _ _ Hb Ho) as Hr. destruct Hi as (d & Hd & Hk).
  destruct d as [dg' sz x| |[]]; try done. injection Hk as ->.
  set (s' := set_file_handles s (<[next_file_handle s := r]> (file_handles s)) (next_file_handle s + 1)).
  destruct (set_files_ok bs ds dirs rn s (<[next_file_handle s := r]> (file_handles s)) (next_file_handle s + 1) Hs) as [Hs' Hk].
  destruct (fs_reads_spec dbg cap Hcap s' (next_file_handle s) c l) as (f0 & res & Hres & Hf); [exists r; cbn; by rewrite lookup_insert_eq|done|].
  exists (next_file_handle s), s', f0, res. split_and!; [|done..]. unfold open. rewrite (proj2 (N.eqb_neq _ _)) by done.
  unfold fbind, known_inode, tracker_get. rewrite Hd, (fs_bs _ _ _ _ _ Hs), Ho. done.
Qed.

(** ** Examples *)

Module Examples.

(** Two files with the same contents, one of them executable, and a directory. *)
Definition bytes32 (b : byte) : bytes := replicate 32 b.
Definition script : bytes := B "#!/bin/sh".
Definition tools : Directory := [(B "a", FileN (bytes32 Byte.x01) 9 false); (B "b", FileN (bytes32 Byte.x01) 9 true); (B "c", SymlinkN (B "a"))].

#[local] Instance one_directory : DirectoryService unit := {|
  get dg s := (Ok (if bool_decide (dg = bytes32 Byte.x02) then Some tools else None), s);
  put d s := (Err (StorageError Unimplemented), s);
  get_recursive dg s := (([], Some (Ok tt)), s);
  Putter := unit;
  put_multiple_start := tt;
  putter_put d p := (Ok tt, p);
  putter_close p s := (Err (StorageError Unimplemented), p, s);
|}.

Definition the_dirs (dg : bytes) : option Directory := if bool_decide (dg = bytes32 Byte.x02) then Some tools else None.
Definition blobs : MemoryBlobService := BlobService.mkMemory {[ bytes32 Byte.x01 := script ]}.
Definition roots : list (bytes * Node) := [(B "bin", DirectoryN (bytes32 Byte.x02) 3); (B "run", FileN (bytes32 Byte.x01) 9 true)].

Definition start : @TvixStoreFs MemoryBlobService Cursor unit (list (bytes * Node)) := new blobs tt roots true true.

Lemma the_get dg : get dg tt = (Ok (the_dirs dg), tt).
Proof. done. Qed.

Lemma the_list name node : Ok (name, node) ∈ list_nodes roots → get_by_basename name roots = Ok (Some node).
Proof.
  cbn. rewrite !elem_of_cons. intros [[= -> ->]|[[= -> ->]|[]%elem_of_nil]]; reflexivity.
Qed.

Lemma start_fs_ok : fs_ok blobs tt the_dirs roots start.
Proof. apply fs_new_ok. Qed.

(** A file and its executable twin have one inode, which is executable if the
    executable one came first, and not if it came last. *)
Definition attr_of (names : list bytes) (s : @TvixStoreFs MemoryBlobService Cursor unit (list (bytes * Node))) :=
  match lookup_path ROOT_ID names s with (Ok i, s) => (getattr i s).1 | (Err e, _) => Err e | (Panic, _) => Panic end.

Example executable_lost : attr_of [B "bin"; B "b"] start = Ok (mkAttr 3 1024 9 (Z.lor S_IFREG 292)).
Proof. vm_compute. reflexivity. Qed.

Definition after_run := (lookup_path ROOT_ID [B "run"] start).2.
Example executable_gained : attr_of [B "bin"; B "a"] after_run = Ok (mkAttr 2 1024 9 (Z.lor S_IFREG 365)).
Proof. vm_compute. reflexivity. Qed.

(** The root in pages of one entry: the second entry is lost. *)
Definition root_opened := (opendir ROOT_ID start).2.
Example root_listing_loses_entries :
  omap_ok (λ l, de_name <$> l) (list_pages [1; 1; 1]%nat ROOT_ID 1 0 root_opened).1 = Ok [B "bin"].
Proof. vm_compute. reflexivity. Qed.

Lemma fs_lookup_path_witness : finds blobs tt the_dirs roots id start (Ok (SymlinkN (B "a"))) (lookup_path ROOT_ID [B "bin"; B "c"] start).
Proof.
  assert (resolve_root the_dirs roots (B "bin") [B "c"] = Ok (SymlinkN (B "a"))) as <- by (vm_compute; reflexivity).
  apply (fs_lookup_path blobs tt the_dirs roots start (B "bin") [B "c"]); [apply the_get|apply start_fs_ok|].
  by apply (bool_decide_unpack _); vm_compute.
Defined.

(** The state after a name was looked up in the root. *)
Lemma root_found name node i :
  Component.name_ok name → bt_get name roots = Some node → omap_ok entry_inode (lookup ROOT_ID name start).1 = Ok i →
  fs_ok blobs tt the_dirs roots (lookup ROOT_ID name start).2 ∧ inode_is (lookup ROOT_ID name start).2 i (node_key node).
Proof.
  intros Hn Hnode Hi. pose proof (lookup_root_spec blobs tt the_dirs roots start name start_fs_ok Hn) as Hf.
  unfold resolve_root in Hf. cbn [get_by_basename BTreeMap_RootNodes] in Hf. rewrite Hnode in Hf. cbn [resolve] in Hf.
  destruct (lookup ROOT_ID name start) as [[e|e|] s']; [|done..]. injection Hi as <-. by destruct Hf as (? & _ & ?).
Qed.

Definition in_bin := (lookup ROOT_ID (B "bin") start).2.
Lemma in_bin_ok : fs_ok blobs tt the_dirs roots in_bin ∧ inode_is in_bin 2 (KDir (bytes32 Byte.x02)).
Proof.
  apply (root_found (B "bin") (DirectoryN (bytes32 Byte.x02) 3)); [by apply (bool_decide_unpack _); vm_compute|by vm_compute|by vm_compute].
Qed.

Lemma readdir_pages_witness : ∃ ch s', list_pages [1; 0; 5]%nat 2 0 0 in_bin = (Ok (take 6 (imap dir_entry ch)), s') ∧
  child_entry <$> ch = tools ∧ Forall (λ c, inode_is s' c.1.1 (node_key c.2)) ch ∧ fs_ok blobs tt the_dirs roots s' ∧ keeps in_bin s'.
Proof. apply (readdir_pages blobs tt the_dirs roots in_bin 2 0 (bytes32 Byte.x02) tools 1 [0; 5]%nat); [apply the_get|apply in_bin_ok..|reflexivity]. Defined.

Definition with_run := (lookup ROOT_ID (B "run") start).2.
Lemma with_run_ok : fs_ok blobs tt the_dirs roots with_run ∧ inode_is with_run 2 (KBlob (bytes32 Byte.x01)).
Proof.
  apply (root_found (B "run") (FileN (bytes32 Byte.x01) 9 true)); [by apply (bool_decide_unpack _); vm_compute|by vm_compute|by vm_compute].
Qed.

Definition some_reads : list (nat * Z) := [(3%nat, 2%Z); (100%nat, 0%Z); (5%nat, 9%Z); (5%nat, 20%Z)].
Lemma fs_reads_blob_witness : ∃ h s' f0 res, open 2 with_run = (Ok (Some h), s') ∧ fs_ok blobs tt the_dirs roots s' ∧ keeps with_run s' ∧
  Forall2 (read_answer script) some_reads res ∧ ∀ f, (f0 ≤ f)%nat → fs_reads true 4 f h some_reads s' = Some res.
Proof.
  apply (fs_reads_blob true 4 blobs tt the_dirs roots with_run 2 (bytes32 Byte.x01) script some_reads); [lia|apply with_run_ok..|reflexivity|].
  repeat constructor; cbn; lia.
Defined.

Definition opened_run := (open 2 with_run).2.
Example reads_compute : fs_reads true 4 100 1 some_reads opened_run =
  Some [(Ok 3%Z, B "/bi"); (Ok 9%Z, script); (Ok 0%Z, []); (Ok 0%Z, [])].
Proof. vm_compute. reflexivity. Qed.

(** The root and the directory in it are listed after the first lookup. *)
Definition listed := (readdir (K := nat * list DirEntry) page_add 2 0 0 (in_bin, (5%nat, []))).2.1.

Lemma fs_inodes_stable_witness :
  (∀ k i, inode_of (inode_tracker in_bin) k = Some i ↔ inode_is in_bin i k) ∧
  ∀ i k, inode_is in_bin i k → inode_is listed i k ∧ ∀ j, inode_is listed j k → j = i.
Proof.
  destruct (fs_inodes_stable (H := Crates.Models.data_encoding) blobs tt the_dirs roots true true in_bin listed) as (_ & H1 & H2 & _).
  - apply the_get.
  - apply the_list.
  - apply rtc_once, step_lookup.
  - apply rtc_once, (step_list _ EIO (λ e _ _, page_add e)).
  - split; [exact H1|exact H2].
Defined.

End Examples.
