(* ===== verification/Bytecode.v ===== *)
(** * [eval/src/opcode.rs] and [eval/src/chunk.rs]: bytecode

    The instruction set with its byte encoding, upvalue positions packed into
    a [u64], and the [Chunk] the compiler writes and the VM reads. The varint
    codec (crate [vu128]) is a parameter; constants and source spans are of
    any type. *)

From stdpp Require Import strings sorting.
From S2P Require Import Prelude.
#[local] Open Scope Z_scope.

(** ** opcode.rs *)

Module Opcode.

(** [Op]; a constructor is the variant's name after [Op]. *)
Inductive Op :=
| OpConstant | OpPop | OpInvert | OpNegate | OpAdd | OpSub | OpMul | OpDiv | OpEqual
| OpLess | OpLessOrEq | OpMore | OpMoreOrEq | OpJump | OpJumpIfTrue | OpJumpIfFalse
| OpJumpIfCatchable | OpJumpIfNotFound | OpJumpIfNoFinaliseRequest | OpAttrs
| OpAttrsUpdate | OpAttrsSelect | OpAttrsTrySelect | OpHasAttr | OpValidateClosedFormals
| OpPushWith | OpPopWith | OpResolveWith | OpList | OpConcat | OpInterpolate
| OpCoerceToString | OpFindFile | OpResolveHomePath | OpAssertBool | OpAssertAttrs
| OpGetLocal | OpCloseScope | OpAssertFail | OpCall | OpGetUpvalue | OpClosure
| OpThunkClosure | OpThunkSuspended | OpForce | OpFinalise | OpReturn | OpInvalid.

#[global] Instance Op_eq_dec : EqDecision Op.
Proof. solve_decision. Defined.

(** The variants in declaration order, which numbers them. *)
Definition variants : list Op :=
  [OpConstant; OpPop; OpInvert; OpNegate; OpAdd; OpSub; OpMul; OpDiv; OpEqual; OpLess;
   OpLessOrEq; OpMore; OpMoreOrEq; OpJump; OpJumpIfTrue; OpJumpIfFalse;
   OpJumpIfCatchable; OpJumpIfNotFound; OpJumpIfNoFinaliseRequest; OpAttrs;
   OpAttrsUpdate; OpAttrsSelect; OpAttrsTrySelect; OpHasAttr; OpValidateClosedFormals;
   OpPushWith; OpPopWith; OpResolveWith; OpList; OpConcat; OpInterpolate;
   OpCoerceToString; OpFindFile; OpResolveHomePath; OpAssertBool; OpAssertAttrs;
   OpGetLocal; OpCloseScope; OpAssertFail; OpCall; OpGetUpvalue; OpClosure;
   OpThunkClosure; OpThunkSuspended; OpForce; OpFinalise; OpReturn; OpInvalid].

(** [op as u8] *)
Definition as_u8 (op : Op) : Z :=
  match list_find (λ o, o = op) variants with Some (i, _) => Z.of_nat i | None => 0 end.

(** [From<u8> for Op]; the transmute is the variant with that number. *)
Definition from_u8 (num : Z) : Op :=
  if num >=? as_u8 OpInvalid then OpInvalid
  else default OpInvalid (variants !! Z.to_nat num).

Inductive OpArg := ArgNone | ArgUvarint | ArgFixed | ArgCustom.

(** [Op::arg_type] *)
Definition arg_type (self : Op) : OpArg :=
  match self with
  | OpConstant | OpAttrs | OpPushWith | OpList | OpInterpolate | OpGetLocal | OpCloseScope
  | OpGetUpvalue | OpFinalise => ArgUvarint
  | OpJump | OpJumpIfTrue | OpJumpIfFalse | OpJumpIfCatchable | OpJumpIfNotFound
  | OpJumpIfNoFinaliseRequest => ArgFixed
  | OpCoerceToString | OpClosure | OpThunkClosure | OpThunkSuspended => ArgCustom
  | _ => ArgNone
  end.

(** *** [Position]: the low two bits tell what the other 62 index. *)

(** [(idx as u64) << 2]: the two high bits are shifted out. *)
Definition shl2 (idx : Z) : Z := Z.shiftl idx 2 mod 2 ^ 64.

Definition stack_index (idx : Z) : Z := shl2 idx.
Definition deferred_local (idx : Z) : Z := Z.lor (shl2 idx) 1.
Definition upvalue_index (idx : Z) : Z := Z.lor (shl2 idx) 2.

Definition runtime_stack_index (self : Z) : option Z :=
  if Z.land self 3 =? 0 then Some (Z.shiftr self 2) else None.
Definition runtime_deferred_local (self : Z) : option Z :=
  if Z.land self 3 =? 1 then Some (Z.shiftr self 2) else None.
Definition runtime_upvalue_index (self : Z) : option Z :=
  if Z.land self 3 =? 2 then Some (Z.shiftr self 2) else None.

Lemma shl2_mul idx : 0 ≤ idx → shl2 idx = 4 * (idx mod 2 ^ 62).
Proof.
  intros. unfold shl2. rewrite Z.shiftl_mul_pow2 by lia.
  change (2 ^ 64) with (2 ^ 62 * 2 ^ 2). rewrite Zmult_mod_distr_r. lia.
Qed.

Lemma lor_tag idx t : 0 ≤ idx → 0 ≤ t < 4 → Z.lor (shl2 idx) t = 4 * (idx mod 2 ^ 62) + t.
Proof.
  intros Hi Ht. rewrite shl2_mul by done. rewrite Z.lor_comm.
  replace (4 * (idx mod 2 ^ 62)) with (Z.shiftl (idx mod 2 ^ 62) 2) by (rewrite Z.shiftl_mul_pow2; lia).
  rewrite lor_shiftl_add by lia. rewrite Z.shiftl_mul_pow2 by lia. lia.
Qed.

Lemma position_bits x t :
  0 ≤ t < 4 → Z.land (4 * x + t) 3 = t ∧ Z.shiftr (4 * x + t) 2 = x.
Proof.
  intros Ht. split.
  - change 3 with (Z.ones 2). rewrite Z.land_ones by lia. change (2 ^ 2) with 4.
    rewrite Z.add_comm, Z.mul_comm, Z_mod_plus_full. by apply Z.mod_small.
  - rewrite Z.shiftr_div_pow2 by lia. change (2 ^ 2) with 4.
    rewrite Z.add_comm, Z.mul_comm, Z.div_add by lia. rewrite Z.div_small; lia.
Qed.

(** Every instruction survives the byte encoding, and every byte that is
    not the number of a valid instruction decodes to [Invalid]. *)
Theorem op_encoding :
  (∀ op, from_u8 (as_u8 op) = op ∧ 0 ≤ as_u8 op < 256) ∧
  (∀ n, 0 ≤ n < 256 → from_u8 n = OpInvalid ∨ as_u8 (from_u8 n) = n).
Proof.
  split; [by intros []; vm_compute|].
  intros n Hn. unfold from_u8. change (as_u8 OpInvalid) with (Z.of_nat (length variants - 1)).
  destruct (Z.geb_spec n (Z.of_nat (length variants - 1))) as [|Hlt]; [by left|right].
  assert (∀ i, (i < length variants)%nat → as_u8 (default OpInvalid (variants !! i)) = Z.of_nat i) as Hi.
  { intros i Hi. do 48 (destruct i as [|i]; [by vm_compute|]). simpl in Hi. lia. }
  rewrite Hi by lia. lia.
Qed.

Lemma op_encoding_witness : from_u8 200 = OpInvalid ∨ as_u8 (from_u8 200) = 200.
Proof. apply op_encoding. lia. Defined.

(** A position is read back by the decoder of its kind, and by no other,
    for every index below 2^62; a larger one loses its two high bits. *)
Theorem position_roundtrip (idx : Z) :
  0 ≤ idx →
  (runtime_stack_index (stack_index idx), runtime_deferred_local (stack_index idx),
   runtime_upvalue_index (stack_index idx)) = (Some (idx mod 2 ^ 62), None, None) ∧
  (runtime_stack_index (deferred_local idx), runtime_deferred_local (deferred_local idx),
   runtime_upvalue_index (deferred_local idx)) = (None, Some (idx mod 2 ^ 62), None) ∧
  (runtime_stack_index (upvalue_index idx), runtime_deferred_local (upvalue_index idx),
   runtime_upvalue_index (upvalue_index idx)) = (None, None, Some (idx mod 2 ^ 62)).
Proof.
  intros Hi. unfold stack_index, deferred_local, upvalue_index.
  unfold runtime_stack_index, runtime_deferred_local, runtime_upvalue_index.
  rewrite !lor_tag by lia. rewrite shl2_mul by done. rewrite <- (Z.add_0_r (4 * _)) at 1 2 3.
  set (x := idx mod 2 ^ 62).
  destruct (position_bits x 0 ltac:(lia)) as [E1 E2], (position_bits x 1 ltac:(lia)) as [E3 E4],
    (position_bits x 2 ltac:(lia)) as [E5 E6].
  rewrite ?Z.add_0_r in *. by rewrite E1, E2, E3, E4, E5, E6.
Qed.

Lemma position_roundtrip_witness :
  runtime_deferred_local (deferred_local 42) = Some 42.
Proof.
  destruct (position_roundtrip 42 ltac:(lia)) as (_ & E & _). exact (f_equal (λ p, p.1.2) E).
Defined.

End Opcode.

(** ** chunk.rs *)

(** The crate [vu128]: [encode_u64] writes 1 to 9 bytes, [decode_u64] reads
    them back from 9 bytes, whatever follows. *)
Class Vu128 := {
  encode_u64 : Z → bytes;
  decode_u64 : bytes → Z * nat;
}.
Class Vu128Laws `{Vu128} : Prop := {
  encode_length z : 0 ≤ z < 2 ^ 64 → (1 ≤ length (encode_u64 z) ≤ 9)%nat;
  decode_encode_u64 z rest : 0 ≤ z < 2 ^ 64 → length (encode_u64 z ++ rest) = 9%nat →
    decode_u64 (encode_u64 z ++ rest) = (z, length (encode_u64 z));
}.

(** One instance: a tag byte and the 8 bytes of the number. *)
Module VarintModel.
#[export] Instance vu128 : Vu128 := {|
  encode_u64 z := Byte.x08 :: le_bytes 8 z;
  decode_u64 bs := (le_val (take 8 (tail bs)), 9%nat);
|}.
#[export] Instance vu128_laws : Vu128Laws.
Proof.
  constructor; intros z.
  - intros _. cbn [encode_u64 vu128 length]. rewrite length_le_bytes. lia.
  - intros rest Hz Hl. cbn [encode_u64 decode_u64 vu128 app tail length].
    rewrite take_app_le, take_ge, le_val_le_bytes, length_le_bytes by (rewrite length_le_bytes; lia).
    change (256 ^ Z.of_nat 8) with (2 ^ 64). by rewrite Z.mod_small.
Qed.
End VarintModel.

Module Chunk.
Import Opcode.

Definition U64_VARINT_SIZE : nat := 9.

Section Chunk.
Context {Value Span : Type} `{EqDecision Span} `{Vu128}.

Record SourceSpan := mkSourceSpan { span : Span; start : nat }.

Record Chunk := mkChunk {
  code : bytes;
  constants : list Value;
  spans : list SourceSpan;
  last_op : nat;
}.

Definition Chunk_default : Chunk := mkChunk [] [] [] 0.

Definition set_code (c : Chunk) (bs : bytes) : Chunk :=
  mkChunk bs (constants c) (spans c) (last_op c).

(** [Chunk::push_span] *)
Definition push_span (c : Chunk) (s : Span) (at_ : nat) : Chunk :=
  match last (spans c) with
  | Some l =>
      if bool_decide (span l = s) then c
      else mkChunk (code c) (constants c) (spans c ++ [mkSourceSpan s at_]) (last_op c)
  | None => mkChunk (code c) (constants c) (spans c ++ [mkSourceSpan s at_]) (last_op c)
  end.

(** [Chunk::push_op]: the chunk and the index of the instruction. *)
Definition push_op (c : Chunk) (op : Op) (s : Span) : Chunk * nat :=
  let idx := length (code c) in
  let c := mkChunk (code c ++ [z2b (as_u8 op)]) (constants c) (spans c) idx in
  (push_span c s idx, idx).

(** [Chunk::push_uvarint] *)
Definition push_uvarint (c : Chunk) (data : Z) : Chunk := set_code c (code c ++ encode_u64 data).

(** [Chunk::read_uvarint]: past the end, [debug_assert!] or the subtraction or
    slice of the release build panics, except right at the end. *)
Definition read_uvarint {E} (dbg : bool) (c : Chunk) (idx : nat) : outcome E (Z * nat) :=
  if dbg && negb (idx <? length (code c))%nat then Panic else
  if (length (code c) <? idx)%nat then Panic else
  if (U64_VARINT_SIZE <=? length (code c) - idx)%nat
  then Ok (decode_u64 (take U64_VARINT_SIZE (drop idx (code c))))
  else Ok (decode_u64 (drop idx (code c) ++
             replicate (U64_VARINT_SIZE - (length (code c) - idx)) Byte.x00)).

(** [Chunk::push_u16] *)
Definition push_u16 (c : Chunk) (data : Z) : Chunk := set_code c (code c ++ le_bytes 2 data).

(** [Chunk::patch_jump]: [as u16] truncates; an operand outside of the code is
    an underflow or a slice out of range. *)
Definition patch_jump {E} (c : Chunk) (idx : nat) : outcome E Chunk :=
  if (length (code c) <? idx + 3)%nat then Panic else
  let offset := Z.of_nat (length (code c) - idx - 1 - 2) mod 2 ^ 16 in
  Ok (set_code c (take (idx + 1) (code c) ++ le_bytes 2 offset ++ drop (idx + 3) (code c))).

(** [Chunk::read_u16] *)
Definition read_u16 {E} (c : Chunk) (idx : nat) : outcome E Z :=
  if (length (code c) <? idx + 2)%nat then Panic
  else Ok (le_val (take 2 (drop idx (code c)))).

(** [Chunk::last_op] *)
Definition get_last_op (c : Chunk) : option (outcome Empty_set Op * nat) :=
  match code c with
  | [] => None
  | _ => Some (match code c !! last_op c with
               | Some b => Ok (from_u8 (b2z b))
               | None => Panic
               end, last_op c)
  end.

(** [Chunk::push_constant] and [Chunk::get_constant] *)
Definition push_constant (c : Chunk) (data : Value) : Chunk * nat :=
  (mkChunk (code c) (constants c ++ [data]) (spans c) (last_op c), length (constants c)).
Definition get_constant (c : Chunk) (constant : nat) : option Value := constants c !! constant.

(** [first_span] *)
Definition first_span {E} (c : Chunk) : outcome E Span := or_panic (span <$> head (spans c)).

(** [binary_search_by] on entries with increasing [start]: the entry found, or
    where it would be inserted. *)
Fixpoint search_from (i : nat) (l : list SourceSpan) (offset : nat) : nat + nat :=
  match l with
  | [] => inr i
  | s :: l =>
      if (start s =? offset)%nat then inl i
      else if (offset <? start s)%nat then inr i
      else search_from (S i) l offset
  end.

(** [Chunk::get_span] *)
Definition get_span {E} (c : Chunk) (offset : nat) : outcome E Span :=
  let index := match search_from 0 (spans c) offset with
               | inl index => index
               | inr index => if (index =? 0)%nat then 0%nat else (index - 1)%nat
               end in
  or_panic (span <$> spans c !! index).

(** *** Operands *)

Context `{!Vu128Laws}.

Lemma read_uvarint_at {E} dbg c pre z suf :
  0 ≤ z < 2 ^ 64 → code c = pre ++ encode_u64 z ++ suf →
  read_uvarint (E := E) dbg c (length pre) = Ok (z, length (encode_u64 z)).
Proof.
  intros Hz Hc. pose proof (encode_length z Hz) as He. unfold read_uvarint, U64_VARINT_SIZE.
  rewrite Hc, !length_app.
  rewrite (proj2 (Nat.ltb_lt _ _)), andb_false_r by lia. rewrite (proj2 (Nat.ltb_ge _ _)) by lia.
  rewrite drop_app_length.
  replace (length pre + (length (encode_u64 z) + length suf) - length pre)%nat
    with (length (encode_u64 z) + length suf)%nat by lia.
  destruct (Nat.leb_spec 9 (length (encode_u64 z) + length suf)).
  - rewrite take_app_ge by lia. f_equal. apply decode_encode_u64; [done|].
    rewrite length_app, length_take. lia.
  - rewrite <- app_assoc. f_equal. apply decode_encode_u64; [done|].
    rewrite !length_app, length_replicate. lia.
Qed.

(** The code of a patched jump. *)
Lemma patch_jump_code {E} c pre b hole body :
  code c = pre ++ b :: hole ++ body → length hole = 2%nat →
  patch_jump (E := E) c (length pre) =
    Ok (set_code c (pre ++ b :: le_bytes 2 (Z.of_nat (length body) mod 2 ^ 16) ++ body)).
Proof.
  intros Hc Hh. unfold patch_jump. rewrite Hc.
  assert (length (pre ++ b :: hole ++ body) = length pre + 3 + length body)%nat as Hl.
  { rewrite !length_app. cbn [length]. rewrite length_app. lia. }
  rewrite Hl, (proj2 (Nat.ltb_ge _ _)) by lia.
  replace (length pre + 3 + length body - length pre - 1 - 2)%nat with (length body) by lia.
  do 2 f_equal. rewrite take_app_ge, drop_app_ge by lia.
  replace (length pre + 1 - length pre)%nat with 1%nat by lia.
  replace (length pre + 3 - length pre)%nat with 3%nat by lia.
  destruct hole as [|x [|y []]]; try done. by rewrite <- app_assoc.
Qed.

Lemma read_u16_at {E} c pre z suf :
  code c = pre ++ le_bytes 2 z ++ suf →
  read_u16 (E := E) c (length pre) = Ok (z mod 2 ^ 16).
Proof.
  intros Hc. unfold read_u16. rewrite Hc, !length_app, length_le_bytes.
  rewrite (proj2 (Nat.ltb_ge _ _)) by lia. rewrite drop_app_length.
  rewrite take_app_le, take_ge by (rewrite length_le_bytes; lia). by rewrite le_val_le_bytes.
Qed.

(** *** Source spans *)

Definition spans_sorted (l : list SourceSpan) : Prop :=
  StronglySorted (λ a b, (start a < start b)%nat) l.

Definition upto (offset : nat) (l : list SourceSpan) : list SourceSpan :=
  filter (λ s, (start s ≤ offset)%nat) l.

Lemma upto_none offset l :
  Forall (λ s, (offset < start s)%nat) l → upto offset l = [].
Proof.
  induction 1 as [|s l Hs Hl IH]; [done|]. unfold upto. rewrite filter_cons_False by lia. done.
Qed.

Lemma upto_all offset l : Forall (λ s, (start s ≤ offset)%nat) l → upto offset l = l.
Proof.
  induction 1 as [|s l Hs Hl IH]; [done|]. unfold upto in *. by rewrite filter_cons_True, IH.
Qed.

Lemma search_from_upto i l offset :
  spans_sorted l →
  (match search_from i l offset with inl k => k | inr k => k - 1 end)%nat
    = (i + length (upto offset l) - 1)%nat.
Proof.
  intros Hl. revert i. induction Hl as [|s l Hl IH Hs]; intros i; simpl; [lia|]. unfold upto.
  destruct (Nat.eqb_spec (start s) offset) as [E|E].
  - rewrite filter_cons_True by lia. fold (upto offset l). rewrite upto_none; [simpl; lia|].
    eapply Forall_impl; [exact Hs|]. simpl. lia.
  - destruct (Nat.ltb_spec offset (start s)).
    + rewrite filter_cons_False by lia. fold (upto offset l). rewrite upto_none; [simpl; lia|].
      eapply Forall_impl; [exact Hs|]. simpl. lia.
    + rewrite filter_cons_True by lia. fold (upto offset l). rewrite IH. simpl. lia.
Qed.

Lemma upto_prefix offset l :
  spans_sorted l → ∃ suf, l = upto offset l ++ suf.
Proof.
  induction 1 as [|s l Hl [suf IH] Hs]; [by exists []|]. unfold upto.
  destruct (decide (start s ≤ offset)%nat).
  - rewrite filter_cons_True by done. fold (upto offset l). exists suf. simpl. by rewrite <- IH.
  - rewrite filter_cons_False by done. fold (upto offset l). rewrite upto_none; [by exists (s :: l)|].
    eapply Forall_impl; [exact Hs|]. simpl. lia.
Qed.

Lemma get_span_last {E} c offset s :
  spans_sorted (spans c) → last (upto offset (spans c)) = Some s →
  get_span (E := E) c offset = Ok (span s).
Proof.
  intros Hs Hl. unfold get_span.
  assert (match search_from 0 (spans c) offset with
          | inl k => k | inr k => if (k =? 0)%nat then 0%nat else (k - 1)%nat end
          = (length (upto offset (spans c)) - 1)%nat) as ->.
  { rewrite <- (Nat.add_0_l (length _)), <- (search_from_upto 0) by done.
    destruct (search_from 0 (spans c) offset) as [k|[|k]]; simpl; done || lia. }
  destruct (upto_prefix offset (spans c) Hs) as [suf E'].
  rewrite last_lookup, <- Nat.sub_1_r in Hl. apply (lookup_app_l_Some _ suf) in Hl.
  rewrite <- E' in Hl. by rewrite Hl.
Qed.

(** An emitted instruction: its operation, source span and operand bytes. *)
Definition instr : Type := Op * Span * bytes.

Definition emit (c : Chunk) (i : instr) : Chunk :=
  let c := (push_op c i.1.1 i.1.2).1 in set_code c (code c ++ i.2).

Definition emit_all (ins : list instr) : Chunk := foldl emit Chunk_default ins.

Definition instr_size (i : instr) : nat := S (length i.2).
Definition code_size (ins : list instr) : nat := sum_list_with instr_size ins.

Lemma push_span_code c s at_ : code (push_span c s at_) = code c.
Proof. unfold push_span. by repeat case_match. Qed.

Lemma emit_all_snoc ins i : emit_all (ins ++ [i]) = emit (emit_all ins) i.
Proof. unfold emit_all. by rewrite foldl_app. Qed.

Lemma emit_code c i : length (code (emit c i)) = (length (code c) + instr_size i)%nat.
Proof.
  unfold emit, push_op. cbn [fst set_code code]. rewrite !length_app, push_span_code. simpl.
  rewrite length_app. simpl. unfold instr_size. lia.
Qed.

Lemma emit_all_code ins : length (code (emit_all ins)) = code_size ins.
Proof.
  induction ins as [|i ins IH] using rev_ind; [done|].
  rewrite emit_all_snoc, emit_code, IH. unfold code_size. rewrite sum_list_with_app. cbn [sum_list_with]. lia.
Qed.

(** The spans after one more instruction: sorted, with the instruction's span
    from its index on and the same spans before it. *)
Lemma emit_spans c i :
  spans_sorted (spans c) → Forall (λ s, (start s < length (code c))%nat) (spans c) →
  spans_sorted (spans (emit c i)) ∧
  Forall (λ s, (start s < length (code (emit c i)))%nat) (spans (emit c i)) ∧
  (∀ offset, (length (code c) ≤ offset)%nat →
     span <$> last (upto offset (spans (emit c i))) = Some i.1.2) ∧
  (∀ offset, (offset < length (code c))%nat →
     upto offset (spans (emit c i)) = upto offset (spans c)).
Proof.
  intros Hs Hb. rewrite emit_code. unfold instr_size.
  assert (∀ offset, (length (code c) ≤ offset)%nat → upto offset (spans c) = spans c) as Hall.
  { intros o Ho. apply upto_all. eapply Forall_impl; [exact Hb|]. simpl. lia. }
  set (e := mkSourceSpan i.1.2 (length (code c))).
  assert (spans (emit c i) = spans c ∧ span <$> last (spans c) = Some i.1.2 ∨
          spans (emit c i) = spans c ++ [e]) as [[-> Hl]| ->].
  { unfold emit, push_op, push_span. cbn [fst set_code spans code constants last_op].
    destruct (last (spans c)) as [l|] eqn:El; [|by right].
    case_bool_decide as Hsp; [left|by right]. simpl. by rewrite Hsp. }
  - split_and!; [done| | |done].
    + eapply Forall_impl; [exact Hb|]. simpl. lia.
    + intros o Ho. by rewrite Hall.
  - split_and!.
    + apply StronglySorted_app. split_and!; [|done|repeat constructor].
      intros x y Hx ->%list_elem_of_singleton. simpl. by apply (proj1 (Forall_forall _ _) Hb).
    + apply Forall_app. split; [|repeat constructor; simpl; lia].
      eapply Forall_impl; [exact Hb|]. simpl. lia.
    + intros o Ho. unfold upto. rewrite filter_app, filter_cons_True by (simpl; lia).
      by rewrite filter_nil, last_snoc.
    + intros o Ho. unfold upto. rewrite filter_app, filter_cons_False by (simpl; lia).
      by rewrite filter_nil, app_nil_r.
Qed.

Lemma emit_all_spans ins :
  spans_sorted (spans (emit_all ins)) ∧
  Forall (λ s, (start s < length (code (emit_all ins)))%nat) (spans (emit_all ins)) ∧
  ∀ pre i post j, ins = pre ++ i :: post → (j < instr_size i)%nat →
    span <$> last (upto (code_size pre + j) (spans (emit_all ins))) = Some i.1.2.
Proof.
  induction ins as [|i ins (Hs & Hb & IH)] using rev_ind.
  { split_and!; [constructor|constructor|]. by intros [] ? ? ? ? ?. }
  rewrite emit_all_snoc. destruct (emit_spans (emit_all ins) i Hs Hb) as (Hs' & Hb' & Hnew & Hold).
  split_and!; [done|done|]. intros pre i' post j E Hj.
  rewrite emit_all_code in Hnew, Hold.
  destruct post as [|x post _] using rev_ind.
  - apply app_inj_tail in E as [-> ->]. apply Hnew. lia.
  - rewrite app_comm_cons, app_assoc in E. apply app_inj_tail in E as [-> ->].
    rewrite Hold; [by eapply IH|]. unfold code_size. rewrite sum_list_with_app. cbn [sum_list_with]. lia.
Qed.
End Chunk.

(** ** Properties *)

(** A varint operand reads back as written, with its encoded size,
    wherever it is in the code and whatever follows it, in both build
    profiles: near the end of the code the reader pads, and the padding does
    not matter. *)
Theorem uvarint_roundtrip {Value Span : Type} `{Vu128Laws} (dbg : bool) (c : @Chunk Value Span)
    (data : Z) (suffix : bytes) :
  0 ≤ data < 2 ^ 64 →
  let c' := set_code (push_uvarint c data) (code (push_uvarint c data) ++ suffix) in
  read_uvarint (E := Empty_set) dbg c' (length (code c)) = Ok (data, length (encode_u64 data)).
Proof.
  intros Hd c'. apply (read_uvarint_at dbg c' (code c) data suffix Hd).
  unfold c', push_uvarint. simpl. by rewrite <- app_assoc.
Qed.

Import VarintModel.

Lemma uvarint_roundtrip_witness :
  read_uvarint (Value := unit) (Span := unit) (E := Empty_set) true
    (mkChunk (encode_u64 300) [] [] 0) 0 = Ok (300, 9%nat).
Proof.
  exact (uvarint_roundtrip true (Chunk_default (Value := unit) (Span := unit)) 300 [] ltac:(lia)).
Defined.

(** C39: jumps. After a jump instruction with a placeholder operand and any
    code behind it, [patch_jump] does not panic and changes only the operand (no
    other byte of the code, no constant and no span), which the VM reads as the length of that code modulo 2^16. So the jump
    lands on the next instruction emitted exactly when less than 65536 bytes
    are in between; a longer distance is truncated silently. *)
Theorem patch_jump_target {Value Span : Type} `{EqDecision Span} (c : @Chunk Value Span) (op : Op) (s : Span)
    (body : bytes) :
  let '(c1, idx) := push_op c op s in
  let c2 := push_u16 c1 0 in
  let c3 := set_code c2 (code c2 ++ body) in
  ∃ c4, patch_jump (E := Empty_set) c3 idx = Ok c4 ∧
    length (code c4) = length (code c3) ∧ take (idx + 1) (code c4) = take (idx + 1) (code c3) ∧
    drop (idx + 3) (code c4) = body ∧ constants c4 = constants c3 ∧ spans c4 = spans c3 ∧ last_op c4 = last_op c3 ∧
    read_u16 (E := Empty_set) c4 (idx + 1) = Ok (Z.of_nat (length body) mod 2 ^ 16) ∧
    (Z.of_nat (idx + 3) + Z.of_nat (length body) mod 2 ^ 16 = Z.of_nat (length (code c4)) ↔
     Z.of_nat (length body) < 2 ^ 16).
Proof.
  cbn [push_op]. set (c1 := push_span _ _ _). set (b := z2b (as_u8 op)).
  assert (code c1 = code c ++ [b]) as Hc1 by (unfold c1; by rewrite push_span_code).
  set (c2 := push_u16 c1 0). set (c3 := set_code c2 (code c2 ++ body)).
  assert (code c3 = code c ++ b :: le_bytes 2 0 ++ body) as Hc3.
  { unfold c3, c2, push_u16. simpl. rewrite Hc1. by rewrite <- !app_assoc. }
  eexists. split; [by apply (patch_jump_code c3 (code c) b (le_bytes 2 0) body)|].
  cbn [code set_code]. rewrite Hc3. set (off := Z.of_nat (length body) mod 2 ^ 16).
  assert (∀ z, length (code c ++ b :: le_bytes 2 z ++ body) = length (code c) + 3 + length body)%nat as Hl.
  { intros z. rewrite length_app. cbn [length]. rewrite length_app, length_le_bytes. lia. }
  rewrite !Hl. split_and!.
  - done.
  - rewrite !take_app_ge by lia. by replace (length (code c) + 1 - length (code c))%nat with 1%nat by lia.
  - rewrite drop_app_ge by lia. by replace (length (code c) + 3 - length (code c))%nat with 3%nat by lia.
  - done.
  - done.
  - done.
  - replace (length (code c) + 1)%nat with (length (code c ++ [b])) by (rewrite length_app; simpl; lia).
    rewrite (read_u16_at _ (code c ++ [b]) off body) by (simpl; by rewrite <- app_assoc).
    unfold off. by rewrite Z.mod_mod by lia.
  - unfold off. pose proof (Z.mod_pos_bound (Z.of_nat (length body)) (2 ^ 16) ltac:(lia)).
    split; intros; [lia|]. rewrite Z.mod_small by lia. lia.
Qed.

(** Every byte of every emitted instruction, operands included, maps back
    to the source span the instruction was emitted with, although runs of
    equal spans are stored once. *)
Theorem get_span_emitted {Value Span : Type} `{EqDecision Span}
    (pre post : list instr) (op : Op) (s : Span) (args : bytes) (j : nat) :
  (j ≤ length args)%nat →
  get_span (Value := Value) (E := Empty_set) (emit_all (pre ++ (op, s, args) :: post)) (code_size pre + j)
    = Ok s.
Proof.
  intros Hj. destruct (emit_all_spans (Value := Value) (pre ++ (op, s, args) :: post)) as (Hs & _ & Hsp).
  specialize (Hsp pre (op, s, args) post j eq_refl ltac:(unfold instr_size; simpl; lia)).
  destruct (last (upto _ _)) as [e|] eqn:El; [|done]. simpl in Hsp. injection Hsp as <-.
  by apply (get_span_last (Value := Value) (emit_all _) _ e Hs El).
Qed.

Lemma get_span_emitted_witness :
  get_span (Value := unit) (Span := nat) (E := Empty_set)
    (emit_all [(OpConstant, 1%nat, [Byte.x00]); (OpPop, 1%nat, []); (OpReturn, 2%nat, [])]) 2 = Ok 1%nat.
Proof.
  exact (get_span_emitted (Value := unit) [(OpConstant, 1%nat, [Byte.x00])] [(OpReturn, 2%nat, [])]
           OpPop 1%nat [] 0 ltac:(simpl; lia)).
Defined.

End Chunk.
