(* ===== verification/Scope.v ===== *)
(** * [eval/src/compiler/scope.rs]: the compiler's scopes

    The stack of locals and its by-name index. A local's span is of any type;
    counters that may underflow are [usize] values, with the build profile
    deciding between a panic and wrapping. *)

From stdpp Require Import strings gmap.
From S2P Require Import Prelude.
#[local] Open Scope nat_scope.

Inductive LocalName := Ident (name : bytes) | Phantom.

Inductive LocalPosition := Unknown | Known (idx : nat) | Recursive (idx : nat).

Inductive UpvalueKind := UpLocal (idx : nat) | UpUpvalue (idx : nat).

#[export] Instance UpvalueKind_eq_dec : EqDecision UpvalueKind.
Proof. solve_decision. Defined.

(** ** [ByName] *)

Inductive ByName := Single (idx : nat) | Shadowed (indices : list nat).

(** [ByName::add_idx] *)
Definition add_idx (self : ByName) (new : nat) : ByName :=
  match self with
  | Shadowed indices => Shadowed (indices ++ [new])
  | Single idx => Shadowed [idx; new]
  end.

(** [ByName::remove_idx] *)
Definition remove_idx (self : ByName) : ByName * bool :=
  match self with
  | Single _ => (self, false)
  | Shadowed [fst; _] => (Single fst, true)
  | Shadowed indices => (Shadowed (removelast indices), true)
  end.

(** [ByName::index]; [None] is the failed [unwrap]. *)
Definition index (self : ByName) : option nat :=
  match self with Single idx => Some idx | Shadowed vec => last vec end.

Section Scope.
Context {Span : Type}.

Record Local := mkLocal {
  name : LocalName;
  span : option Span;
  depth : Z;
  initialised : bool;
  used : bool;
  needs_finaliser : bool;
  must_thunk : bool;
}.

Record Scope := mkScope {
  locals : list Local;
  upvalues : list UpvalueKind;
  by_name : gmap bytes ByName;
  scope_depth : Z;
  with_stack_size : Z;
}.

(** ** [Local] *)

(** [Local::name] *)
Definition local_name (l : Local) : option bytes :=
  match name l with Phantom => None | Ident n => Some n end.

(** [Local::is_ignored] *)
Definition is_ignored (l : Local) : bool :=
  match name l with Ident n => starts_with (B "_") n | Phantom => false end.

(** [Local::is_used] *)
Definition is_used (l : Local) : bool := (depth l =? 0)%Z || used l || is_ignored l.

(** ** [Scope] *)

Definition set_locals (s : Scope) (ls : list Local) : Scope :=
  mkScope ls (upvalues s) (by_name s) (scope_depth s) (with_stack_size s).

(** A [usize] counter minus one. *)
Definition usize_pred {E : Type} (dbg : bool) (n : Z) : outcome E Z :=
  if (n =? 0)%Z then (if dbg then Panic else Ok (2 ^ 64 - 1)%Z) else Ok (n - 1)%Z.

(** [Scope::inherit] *)
Definition inherit (s : Scope) : Scope :=
  mkScope [] [] ∅ (scope_depth s + 1)%Z (with_stack_size s).

(** [Scope::push_with], [Scope::pop_with] and [Scope::has_with] *)
Definition push_with (s : Scope) : Scope :=
  mkScope (locals s) (upvalues s) (by_name s) (scope_depth s) (with_stack_size s + 1)%Z.
Definition pop_with {E : Type} (dbg : bool) (s : Scope) : outcome E Scope :=
  let? n := usize_pred dbg (with_stack_size s) in
  Ok (mkScope (locals s) (upvalues s) (by_name s) (scope_depth s) n).

(** [Compiler::add_upvalue] on the scope: the index of the upvalue that has the
    kind already, or else a new one. *)
Fixpoint find_upvalue (i : nat) (kind : UpvalueKind) (us : list UpvalueKind) : option nat :=
  match us with
  | [] => None
  | u :: us => if decide (u = kind) then Some i else find_upvalue (S i) kind us
  end.
Definition push_upvalue (s : Scope) (kind : UpvalueKind) : Scope :=
  mkScope (locals s) (upvalues s ++ [kind]) (by_name s) (scope_depth s) (with_stack_size s).
Definition has_with (s : Scope) : bool := (with_stack_size s >? 0)%Z.

Definition set_used (l : Local) : Local :=
  mkLocal (name l) (span l) (depth l) (initialised l) true (needs_finaliser l) (must_thunk l).

(** [Scope::resolve_local] *)
Definition resolve_local {E : Type} (s : Scope) (n : bytes) : outcome E (LocalPosition * Scope) :=
  match by_name s !! n with
  | None => Ok (Unknown, s)
  | Some entry =>
      let? idx := or_panic (index entry) in
      let? local := or_panic (locals s !! idx) in
      let s := set_locals s (<[idx := set_used local]> (locals s)) in
      if negb (initialised local) then Ok (Recursive idx, s) else Ok (Known idx, s)
  end.

(** [Scope::declare_phantom] *)
Definition declare_phantom (s : Scope) (sp : Span) (init : bool) : Scope * nat :=
  (set_locals s (locals s ++ [mkLocal Phantom (Some sp) (scope_depth s) init true false false]),
   length (locals s)).

(** [Scope::declare_local]: the new local and the one it shadows. *)
Definition declare_local {E : Type} (s : Scope) (n : bytes) (sp : Span)
    : outcome E (Scope * nat * option nat) :=
  let idx := length (locals s) in
  let ls := locals s ++ [mkLocal (Ident n) (Some sp) (scope_depth s) false false false false] in
  match by_name s !! n with
  | Some existing =>
      let? shadowed := or_panic (index existing) in
      Ok (mkScope ls (upvalues s) (<[n := add_idx existing idx]> (by_name s)) (scope_depth s)
            (with_stack_size s), idx, Some shadowed)
  | None =>
      Ok (mkScope ls (upvalues s) (<[n := Single idx]> (by_name s)) (scope_depth s)
            (with_stack_size s), idx, None)
  end.

(** [Scope::declare_constant] *)
Definition declare_constant (s : Scope) (n : bytes) : Scope * nat :=
  let idx := length (locals s) in
  (mkScope (locals s ++ [mkLocal (Ident n) None 0 true false false false]) (upvalues s)
     (<[n := Single idx]> (by_name s)) (scope_depth s) (with_stack_size s), idx).

(** [Scope::mark_initialised], [mark_needs_finaliser] and [mark_must_thunk]; an
    index out of range panics. *)
Definition mark {E : Type} (f : Local → Local) (s : Scope) (idx : nat) : outcome E Scope :=
  let? l := or_panic (locals s !! idx) in
  Ok (set_locals s (<[idx := f l]> (locals s))).

Definition set_initialised (l : Local) : Local :=
  mkLocal (name l) (span l) (depth l) true (used l) (needs_finaliser l) (must_thunk l).
Definition set_needs_finaliser (l : Local) : Local :=
  mkLocal (name l) (span l) (depth l) (initialised l) (used l) true (must_thunk l).
Definition set_must_thunk (l : Local) : Local :=
  mkLocal (name l) (span l) (depth l) (initialised l) (used l) (needs_finaliser l) true.

Definition mark_initialised {E : Type} := mark (E := E) set_initialised.
Definition mark_needs_finaliser {E : Type} := mark (E := E) set_needs_finaliser.
Definition mark_must_thunk {E : Type} := mark (E := E) set_must_thunk.

(** [Scope::stack_index]; [self[idx]] is looked up only for locals that are not
    initialised, so an index one past the end can go unnoticed. *)
Definition stack_index {E : Type} (s : Scope) (idx : nat) : outcome E nat :=
  match locals s !! idx with
  | Some l =>
      Ok (idx - length (filter (λ x, is_true (negb (initialised x) && (depth x <? depth l)%Z))
                          (take idx (locals s))))
  | None =>
      if (idx =? length (locals s)) && forallb initialised (locals s) then Ok idx else Panic
  end.

(** [Scope::begin_scope] *)
Definition begin_scope (s : Scope) : Scope :=
  mkScope (locals s) (upvalues s) (by_name s) (scope_depth s + 1)%Z (with_stack_size s).

(** Dropping the by-name entry of a popped local. *)
Definition remove_name (m : gmap bytes ByName) (n : LocalName) : gmap bytes ByName :=
  match n with
  | Phantom => m
  | Ident n =>
      match m !! n with
      | None => m
      | Some entry =>
          match remove_idx entry with
          | (entry, true) => <[n := entry]> m
          | (_, false) => delete n m
          end
      end
  end.

(** The [while] of [Scope::end_scope], on the locals from the back. *)
Fixpoint end_loop {E : Type} (d : Z) (rlocals : list Local) (m : gmap bytes ByName) (pops : nat)
    (unused_spans : list Span) : outcome E (list Local * gmap bytes ByName * nat * list Span) :=
  match rlocals with
  | [] => Panic
  | local :: rest =>
      if (depth local =? d)%Z then
        end_loop d rest (remove_name m (name local))
          (if initialised local then S pops else pops)
          (if is_used local then unused_spans ++ from_option (λ sp, [sp]) [] (span local) else unused_spans)
      else Ok (rlocals, m, pops, unused_spans)
  end.

(** [Scope::end_scope]: the scope, the count of initialised locals dropped and
    the spans it reports. *)
Definition end_scope {E : Type} (dbg : bool) (s : Scope) : outcome E (Scope * nat * list Span) :=
  if dbg && (scope_depth s =? 0)%Z then Panic else
  let? (rls, m, pops, unused) := end_loop (scope_depth s) (rev (locals s)) (by_name s) 0 [] in
  let? d := usize_pred dbg (scope_depth s) in
  Ok (mkScope (rev rls) (upvalues s) m d (with_stack_size s), pops, unused).

(** ** The by-name index *)

(** The positions of a name among the names of the locals. *)
Fixpoint indices_from (i : nat) (n : bytes) (names : list (option bytes)) : list nat :=
  match names with
  | [] => []
  | x :: names => (if bool_decide (x = Some n) then [i] else []) ++ indices_from (S i) n names
  end.
Definition indices := indices_from 0.

Definition names (s : Scope) : list (option bytes) := local_name <$> locals s.

(** How the index stores a list of positions. *)
Definition enc (l : list nat) : option ByName :=
  match l with
  | [] => None
  | [x] => Some (Single x)
  | _ => Some (Shadowed l)
  end.

Lemma indices_from_app i n l l' :
  indices_from i n (l ++ l') = indices_from i n l ++ indices_from (i + length l) n l'.
Proof.
  revert i. induction l as [|x l IH]; intros i; simpl; [by rewrite Nat.add_0_r|].
  by rewrite IH, app_assoc, Nat.add_succ_comm.
Qed.

Lemma indices_snoc n l x :
  indices n (l ++ [x]) = indices n l ++ (if bool_decide (x = Some n) then [length l] else []).
Proof. unfold indices. rewrite indices_from_app. simpl. by rewrite app_nil_r. Qed.

Lemma indices_lookup n l i : i ∈ indices n l ↔ l !! i = Some (Some n).
Proof.
  induction l as [|x l IH] using rev_ind; [by rewrite lookup_nil; split; [intros ?%not_elem_of_nil|]|].
  rewrite indices_snoc, elem_of_app, IH. split.
  - intros [Hi|Hi]; [by apply lookup_app_l_Some|]. case_bool_decide; [|by apply not_elem_of_nil in Hi].
    apply list_elem_of_singleton in Hi as ->. subst. by rewrite list_lookup_middle.
  - intros [Hi|[Hl Hi]]%lookup_app_Some; [by left|right].
    apply list_lookup_singleton_Some in Hi as [? ->]. rewrite bool_decide_eq_true_2 by done.
    apply list_elem_of_singleton. lia.
Qed.

Lemma indices_lt n l i : i ∈ indices n l → i < length l.
Proof. rewrite indices_lookup. apply lookup_lt_Some. Qed.

(** The positions increase, so the last one is the greatest. *)
Lemma indices_last_max n l i j : last (indices n l) = Some i → j ∈ indices n l → j ≤ i.
Proof.
  induction l as [|x l IH] using rev_ind; [done|]. rewrite indices_snoc.
  case_bool_decide; [|rewrite app_nil_r; apply IH]. rewrite last_snoc. intros [= <-].
  rewrite elem_of_app, list_elem_of_singleton. intros [?%indices_lt| ->]; lia.
Qed.

Lemma enc_add l x : enc (l ++ [x]) = Some (match enc l with None => Single x | Some e => add_idx e x end).
Proof. by destruct l as [|a [|b l]]. Qed.

Lemma enc_index l e : enc l = Some e → index e = last l.
Proof. destruct l as [|a [|b l]]; simpl; intros; simplify_eq; done. Qed.

Lemma enc_remove l x e :
  enc (l ++ [x]) = Some e →
  match remove_idx e with (e, true) => Some e | (_, false) => None end = enc l.
Proof.
  destruct l as [|a [|b l]]; simpl; intros; simplify_eq; [done..|].
  cbn [remove_idx]. destruct (l ++ [x]) as [|c l'] eqn:E; [by destruct l|].
  change (a :: b :: c :: l') with ([a; b] ++ (c :: l')). rewrite <- E, app_assoc, removelast_last. done.
Qed.

Definition scope_ok (s : Scope) : Prop := ∀ n, by_name s !! n = enc (indices n (names s)).

Lemma names_insert s idx l l' :
  locals s !! idx = Some l → local_name l' = local_name l →
  names (set_locals s (<[idx := l']> (locals s))) = names s.
Proof.
  intros Hl Hn. unfold names. simpl. rewrite list_fmap_insert. apply list_insert_id.
  by rewrite list_lookup_fmap, Hl, Hn.
Qed.

Lemma names_snoc s x : local_name <$> (locals s ++ [x]) = names s ++ [local_name x].
Proof. by rewrite fmap_app. Qed.

Lemma length_names s : length (names s) = length (locals s).
Proof. apply length_fmap. Qed.

(** [resolve_local] by the index: the most recent local of that name. *)
Lemma resolve_local_spec {E : Type} s n :
  scope_ok s →
  match last (indices n (names s)) with
  | None => resolve_local (E := E) s n = Ok (Unknown, s)
  | Some idx =>
      ∃ l, locals s !! idx = Some l ∧ local_name l = Some n ∧
        resolve_local (E := E) s n =
          Ok (if initialised l then Known idx else Recursive idx,
              set_locals s (<[idx := set_used l]> (locals s)))
  end.
Proof.
  intros Hok. unfold resolve_local. rewrite Hok.
  destruct (last (indices n (names s))) as [idx|] eqn:El.
  - pose proof El as Hin. apply last_Some_elem_of, indices_lookup in Hin.
    unfold names in Hin. rewrite list_lookup_fmap_Some in Hin. destruct Hin as (l & Hname & Hl).
    exists l. split_and!; [done|done|].
    destruct (enc (indices n (names s))) as [e|] eqn:Ee.
    + rewrite (enc_index _ _ Ee), El. simpl. rewrite Hl. simpl. by destruct (initialised l).
    + destruct (indices n (names s)) as [|a [|b r]]; done.
  - apply last_None in El. by rewrite El.
Qed.

Lemma declare_local_spec {E : Type} s n sp :
  scope_ok s →
  ∃ s', declare_local (E := E) s n sp = Ok (s', length (locals s), last (indices n (names s))) ∧
    scope_ok s' ∧ scope_depth s' = scope_depth s ∧ with_stack_size s' = with_stack_size s ∧ upvalues s' = upvalues s ∧
    locals s' = locals s ++ [mkLocal (Ident n) (Some sp) (scope_depth s) false false false false].
Proof.
  intros Hok. unfold declare_local. rewrite Hok.
  set (x := mkLocal (Ident n) _ _ _ _ _ _).
  assert (∀ e, Some e = enc (indices n (names s) ++ [length (locals s)]) →
    scope_ok (mkScope (locals s ++ [x]) (upvalues s) (<[n := e]> (by_name s)) (scope_depth s) (with_stack_size s)))
    as Hok'.
  { intros e He m. simpl. unfold names at 1. cbn [locals]. rewrite names_snoc, indices_snoc.
    change (local_name x) with (Some n). rewrite length_names.
    destruct (decide (n = m)) as [<-|Hne].
    - rewrite lookup_insert_eq, He. by rewrite bool_decide_eq_true_2.
    - rewrite lookup_insert_ne, Hok by done. rewrite bool_decide_eq_false_2 by congruence.
      by rewrite app_nil_r. }
  destruct (enc (indices n (names s))) as [e|] eqn:Ee.
  - rewrite (enc_index _ _ Ee). destruct (last (indices n (names s))) as [k|] eqn:El.
    + eexists. split; [done|]. split_and!; [apply Hok'|done..]. by rewrite enc_add, Ee.
    + apply last_None in El. by rewrite El in Ee.
  - assert (indices n (names s) = []) as E0 by (destruct (indices n (names s)) as [|a [|]]; done).
    rewrite E0. eexists. split; [done|]. split_and!; [apply Hok'|done..]. by rewrite E0.
Qed.

(** ** Ending a scope *)

Lemma remove_name_enc m l x :
  (∀ n, m !! n = enc (indices n (l ++ [local_name x]))) →
  ∀ n, remove_name m (name x) !! n = enc (indices n l).
Proof.
  intros Hm n. unfold remove_name. specialize (Hm n) as Hn. rewrite indices_snoc in Hn.
  unfold local_name in *. destruct (name x) as [nx|] eqn:Ex.
  2:{ rewrite bool_decide_eq_false_2, app_nil_r in Hn by done. done. }
  destruct (decide (nx = n)) as [->|Hne].
  - rewrite bool_decide_eq_true_2 in Hn by done. rewrite enc_add in Hn. pose proof (enc_add (indices n l) (length l)) as Ha.
    rewrite <- Hn in Ha. destruct (m !! n) as [e|] eqn:Em; [|done]. symmetry in Ha.
    pose proof (enc_remove (indices n l) (length l) e) as Hr. rewrite <- Hr by (rewrite enc_add; congruence).
    destruct (remove_idx e) as [e' []]; [by rewrite lookup_insert_eq|by rewrite lookup_delete_eq].
  - rewrite bool_decide_eq_false_2, app_nil_r in Hn by congruence. rewrite <- Hn.
    destruct (m !! nx) as [e|]; [|done].
    destruct (remove_idx e) as [e' []]; [by rewrite lookup_insert_ne|by rewrite lookup_delete_ne].
Qed.

(** What leaves the scope: the initialised locals and the reported spans. *)
Definition init_count (top : list Local) : nat := length (filter (λ l, is_true (initialised l)) top).
Definition used_spans (top : list Local) : list Span :=
  top ≫= λ l, if is_used l then from_option (λ sp, [sp]) [] (span l) else [].

Lemma end_loop_spec {E : Type} d base top m pops un :
  Forall (λ l, depth l = d) top → (∃ l, last base = Some l ∧ depth l ≠ d) →
  (∀ n, m !! n = enc (indices n (local_name <$> base ++ top))) →
  ∃ m', end_loop (E := E) d (rev (base ++ top)) m pops un =
          Ok (rev base, m', pops + init_count top, un ++ used_spans (rev top)) ∧
        ∀ n, m' !! n = enc (indices n (local_name <$> base)).
Proof.
  intros Htop (lb & Hlb & Hd). revert m pops un Htop.
  induction top as [|x top IH] using rev_ind; intros m pops un Htop Hm.
  - rewrite app_nil_r in *. exists m. split; [|done]. simpl. rewrite Nat.add_0_r, app_nil_r.
    destruct base as [|y base _] using rev_ind; [done|]. rewrite last_snoc in Hlb. simplify_eq.
    rewrite rev_app_distr. simpl. by rewrite (proj2 (Z.eqb_neq _ _)) by done.
  - apply Forall_app in Htop as [Htop [Hx _]%Forall_cons]. rewrite app_assoc, rev_app_distr. simpl.
    rewrite (proj2 (Z.eqb_eq _ _)) by done.
    rewrite app_assoc, fmap_app in Hm. simpl in Hm.
    destruct (IH (remove_name m (name x)) (if initialised x then S pops else pops)
      (if is_used x then un ++ from_option (λ sp, [sp]) [] (span x) else un)) as (m' & E' & Hm');
      [done|by apply remove_name_enc|].
    exists m'. split; [|done]. rewrite E'. do 2 f_equal.
    + f_equal. unfold init_count. rewrite filter_app, length_app.
      destruct (initialised x) eqn:Ei;
        [rewrite filter_cons_True by (by rewrite Ei)|rewrite filter_cons_False by (by rewrite Ei)];
        rewrite filter_nil; simpl; lia.
    + rewrite rev_app_distr. simpl. by destruct (is_used x); rewrite <- ?app_assoc.
Qed.

(** ** Compiling within a scope *)

(** The calls a compiler makes on the scope of one context between
    [begin_scope] and [end_scope]: bodies of [with] between [push_with] and
    [pop_with], and nested scopes, included. [declare_constant] is not among
    them: the compiler calls it while it is set up, for the names of the
    environment given to it ([compile_env]), before the program is compiled. *)
Inductive runs (dbg : bool) : Scope → Scope → Prop :=
| runs_refl s : runs dbg s s
| runs_trans s1 s2 s3 : runs dbg s1 s2 → runs dbg s2 s3 → runs dbg s1 s3
| runs_resolve s n p s' : resolve_local (E := Empty_set) s n = Ok (p, s') → runs dbg s s'
| runs_phantom s sp init : runs dbg s (declare_phantom s sp init).1
| runs_local s n sp s' i sh :
    declare_local (E := Empty_set) s n sp = Ok (s', i, sh) → runs dbg s s'
| runs_initialised s i s' : mark_initialised (E := Empty_set) s i = Ok s' → runs dbg s s'
| runs_finaliser s i s' : mark_needs_finaliser (E := Empty_set) s i = Ok s' → runs dbg s s'
| runs_thunk s i s' : mark_must_thunk (E := Empty_set) s i = Ok s' → runs dbg s s'
| runs_upvalue s kind : find_upvalue 0 kind (upvalues s) = None → runs dbg s (push_upvalue s kind)
| runs_with s s1 s2 :
    runs dbg (push_with s) s1 → pop_with (E := Empty_set) dbg s1 = Ok s2 → runs dbg s s2
| runs_block s s1 s2 pops sp :
    runs dbg (begin_scope s) s1 → end_scope (E := Empty_set) dbg s1 = Ok (s2, pops, sp) →
    runs dbg s s2.

(** What identifies a local through the marks. *)
Definition key (l : Local) : option bytes * Z := (local_name l, depth l).

Record scope_wf (s : Scope) : Prop := {
  wf_index : scope_ok s;
  wf_depths : Forall (λ k, k.2 ≤ scope_depth s)%Z (key <$> locals s);
  wf_slot : locals s ≠ [];
  wf_depth : (0 ≤ scope_depth s)%Z;
  wf_withs : (0 ≤ with_stack_size s)%Z;
}.

(** [s'] is [s] with more locals of the current depth and more upvalues, up to marks. *)
Definition extends (s s' : Scope) : Prop :=
  scope_wf s' ∧ scope_depth s' = scope_depth s ∧ with_stack_size s' = with_stack_size s ∧
  upvalues s `prefix_of` upvalues s' ∧
  ∃ top, key <$> locals s' = (key <$> locals s) ++ top ∧ Forall (λ k, k.2 = scope_depth s) top.

Lemma names_key s : names s = fst <$> (key <$> locals s).
Proof. unfold names. by rewrite <- list_fmap_compose. Qed.

Lemma extends_same s s' :
  scope_wf s → by_name s' = by_name s → scope_depth s' = scope_depth s → with_stack_size s' = with_stack_size s →
  upvalues s `prefix_of` upvalues s' → key <$> locals s' = key <$> locals s → extends s s'.
Proof.
  intros [Hok Hd Hne H0 Hw0] Hb Hsd Hw Hu Hk. split; [|do 3 (split; [done|])].
  - constructor.
    + intros n. by rewrite Hb, Hok, !names_key, Hk.
    + by rewrite Hk, Hsd.
    + intros E. rewrite E in Hk. by destruct (locals s).
    + by rewrite Hsd.
    + by rewrite Hw.
  - exists []. by rewrite app_nil_r.
Qed.

Lemma extends_mark {E : Type} s i f s' :
  scope_wf s → (∀ l, key (f l) = key l) → mark (E := E) f s i = Ok s' → extends s s'.
Proof.
  intros Hwf Hf E'. unfold mark in E'. destruct (locals s !! i) as [l|] eqn:El; simpl in E'; [|done].
  simplify_eq. apply extends_same; [done..|]. simpl. rewrite list_fmap_insert.
  apply list_insert_id. by rewrite list_lookup_fmap, El, Hf.
Qed.

Lemma extends_snoc s s' x :
  scope_wf s → scope_ok s' → scope_depth s' = scope_depth s → with_stack_size s' = with_stack_size s → upvalues s' = upvalues s →
  locals s' = locals s ++ [x] → depth x = scope_depth s → extends s s'.
Proof.
  intros [Hok Hd Hne H0 Hw0] Hok' Hsd Hw Hu Hl Hx. split; [|do 2 (split; [done|]); split; [by rewrite Hu|]].
  - constructor; [done| | |by rewrite Hsd|by rewrite Hw]; rewrite Hl.
    + rewrite fmap_app, Hsd. apply Forall_app. split; [done|]. repeat constructor. simpl. lia.
    + by destruct (locals s).
  - exists [key x]. rewrite Hl, fmap_app. split; [done|]. by repeat constructor.
Qed.

Lemma extends_trans s1 s2 s3 : extends s1 s2 → extends s2 s3 → extends s1 s3.
Proof.
  intros (_ & Hsd2 & Hw2 & Hu2 & t2 & Hk2 & Ht2) (Hwf3 & Hsd3 & Hw3 & Hu3 & t3 & Hk3 & Ht3).
  split; [done|]. split; [congruence|]. split; [congruence|]. split; [by etransitivity|].
  exists (t2 ++ t3). rewrite Hk3, Hk2, app_assoc. split; [done|]. apply Forall_app. by rewrite Hsd2 in Ht3.
Qed.

Lemma scope_wf_begin s : scope_wf s → scope_wf (begin_scope s).
Proof.
  intros [Hok Hd Hne H0 Hw]. constructor; [done| |done|simpl; lia|done].
  eapply Forall_impl; [exact Hd|]. simpl. lia.
Qed.

(** The body of a [with]. *)
Lemma extends_with dbg s s1 s2 :
  (scope_wf (push_with s) → extends (push_with s) s1) → pop_with (E := Empty_set) dbg s1 = Ok s2 → scope_wf s → extends s s2.
Proof.
  intros Hs1 E [Hok Hd Hne H0 Hw0]. destruct Hs1 as ([Hok1 Hd1 Hne1 H01 Hw1] & Hsd & Hw & Hu & Hl).
  { split; try done. cbn. lia. }
  unfold pop_with, usize_pred in E. rewrite Hw in E. cbn [push_with with_stack_size] in *.
  rewrite (proj2 (Z.eqb_neq _ _)) in E by lia. cbn in E. injection E as <-.
  split; [split; try done; cbn; lia|]. cbn in *. split_and!; [done|lia|done|done].
Qed.

(** Ending the scope that [begin_scope] started. *)
Lemma end_scope_spec {E : Type} dbg s s1 :
  scope_wf s → extends (begin_scope s) s1 →
  let top := drop (length (locals s)) (locals s1) in
  ∃ s2, end_scope (E := E) dbg s1 = Ok (s2, init_count top, used_spans (rev top)) ∧
    by_name s2 = by_name s ∧ scope_depth s2 = scope_depth s ∧ with_stack_size s2 = with_stack_size s ∧
    upvalues s `prefix_of` upvalues s2 ∧ key <$> locals s2 = key <$> locals s.
Proof.
  intros Hwf ([Hok1 _ _ _ _] & Hsd & Hw & Hu & top & Hk & Htop) topl. destruct Hwf as [Hok Hd Hne H0 _].
  set (base := take (length (locals s)) (locals s1)).
  assert (locals s1 = base ++ topl) as Hsplit by (unfold base, topl; by rewrite take_drop).
  assert (key <$> base = key <$> locals s) as Hbase.
  { unfold base. rewrite fmap_take, Hk. simpl. rewrite take_app_le by (by rewrite length_fmap).
    apply take_ge. by rewrite length_fmap. }
  assert (key <$> topl = top) as Htopl.
  { unfold topl. rewrite fmap_drop, Hk. simpl.
    rewrite <- (length_fmap key (locals s)). apply drop_app_length. }
  assert (∃ l, last base = Some l ∧ depth l ≠ scope_depth s1) as Hlast.
  { destruct (last base) as [l|] eqn:El.
    - exists l. split; [done|]. rewrite Hsd. simpl. apply last_Some_elem_of in El.
      assert (key l ∈ key <$> locals s) as Hin by (rewrite <- Hbase; by apply list_elem_of_fmap_2).
      apply (proj1 (Forall_forall _ _) Hd) in Hin. simpl in Hin. lia.
    - apply last_None in El. rewrite El in Hbase. by destruct (locals s). }
  assert (Forall (λ l, depth l = scope_depth s1) topl) as Hdt.
  { rewrite Hsd, <- Htopl in *. by apply Forall_fmap in Htop. }
  destruct (end_loop_spec (E := E) (scope_depth s1) base topl (by_name s1) 0 []) as (m' & El & Hm');
    [done|done|intros n; rewrite Hok1; unfold names; by rewrite Hsplit|].
  unfold end_scope. rewrite Hsplit, El, Hsd. simpl.
  rewrite (proj2 (Z.eqb_neq (scope_depth s + 1) 0)), andb_false_r by lia.
  unfold usize_pred. rewrite (proj2 (Z.eqb_neq (scope_depth s + 1) 0)) by lia. simpl.
  eexists. split; [done|]. simpl. rewrite rev_involutive. split_and!; [|lia|done|done|done].
  apply map_eq. intros n. rewrite Hm', Hok, names_key, <- Hbase, <- list_fmap_compose. done.
Qed.

Lemma runs_extends dbg s s' : runs dbg s s' → scope_wf s → extends s s'.
Proof.
  induction 1 as [s|s1 s2 s3 _ IH1 _ IH2|s n p s' E|s sp init|s n sp s' i sh E|s i s' E|s i s' E|s i s' E
                 |s kind _|s s1 s2 _ IH E|s s1 s2 pops sp _ IH E]; intros Hwf.
  - by apply extends_same.
  - eapply extends_trans; [by apply IH1|]. apply IH2. by destruct (IH1 Hwf).
  - pose proof (resolve_local_spec (E := Empty_set) s n (wf_index s Hwf)) as H. rewrite E in H.
    destruct (last _) as [idx|]; [|simplify_eq; by apply extends_same].
    destruct H as (l & Hl & _ & [= _ ->]).
    apply (extends_mark (E := Empty_set) s idx set_used); [done|by intros []|].
    unfold mark. by rewrite Hl.
  - eapply extends_snoc; [done| |done..]. intros n. simpl.
    unfold names. cbn [locals set_locals]. rewrite names_snoc, indices_snoc. simpl.
    rewrite app_nil_r. apply Hwf.
  - destruct (declare_local_spec (E := Empty_set) s n sp (wf_index s Hwf)) as (s2 & E2 & Hok & Hsd & Hw & Hu & Hl).
    rewrite E in E2. simplify_eq. by eapply extends_snoc.
  - eapply extends_mark; [done| |exact E]. by intros [].
  - eapply extends_mark; [done| |exact E]. by intros [].
  - eapply extends_mark; [done| |exact E]. by intros [].
  - apply extends_same; try done. by apply prefix_app_r.
  - by eapply extends_with.
  - destruct (end_scope_spec (E := Empty_set) dbg s s1) as (s2' & E2 & Hb & Hsd & Hw & Hu & Hk);
      [done|by apply IH, scope_wf_begin|]. rewrite E in E2. simplify_eq. by apply extends_same.
Qed.
End Scope.

Arguments Local : clear implicits.
Arguments Scope : clear implicits.

(** ** Properties *)

(** Name resolution. On a scope whose index agrees with its locals (every
    scope the calls below build), [resolve_local] does not panic; it answers
    [Unknown] exactly when no local has the name, and otherwise the latest
    local with it, as [Recursive] while that local is being initialised; the
    only change is that this local is marked as used. *)
Theorem resolve_local_latest {Span : Type} (s : Scope Span) (n : bytes) :
  scope_wf s →
  match resolve_local (E := Empty_set) s n with
  | Ok (Unknown, s') => s' = s ∧ ∀ l, l ∈ locals s → local_name l ≠ Some n
  | Ok (Known idx, s') | Ok (Recursive idx, s') =>
      ∃ l, locals s !! idx = Some l ∧ local_name l = Some n ∧
        (∀ j l', idx < j → locals s !! j = Some l' → local_name l' ≠ Some n) ∧
        resolve_local (E := Empty_set) s n =
          Ok (if initialised l then Known idx else Recursive idx, s') ∧
        s' = set_locals s (<[idx := set_used l]> (locals s))
  | _ => False
  end.
Proof.
  intros [Hok _ _ _ _]. pose proof (resolve_local_spec (E := Empty_set) s n Hok) as H.
  destruct (last (indices n (names s))) as [idx|] eqn:El.
  - destruct H as (l & Hl & Hn & E).
    assert (∀ j l', idx < j → locals s !! j = Some l' → local_name l' ≠ Some n) as Hlater.
    { intros j l' Hj Hl' Hn'. assert (j ∈ indices n (names s)) as Hin.
      { apply indices_lookup. unfold names. by rewrite list_lookup_fmap, Hl', <- Hn'. }
      pose proof (indices_last_max _ _ _ _ El Hin). lia. }
    rewrite E. destruct (initialised l) eqn:Ei; exists l; rewrite ?Ei; split_and!; done.
  - rewrite H. split; [done|]. intros l Hl Hn. apply last_None in El.
    apply list_elem_of_lookup in Hl as [i Hl]. apply (not_elem_of_nil i). rewrite <- El.
    apply indices_lookup. unfold names. by rewrite list_lookup_fmap, Hl, <- Hn.
Qed.

(** C10: a block of bindings. Whatever calls the compiler makes between
    [begin_scope] and [end_scope] (declarations with shadowing, phantoms,
    resolutions, marks, upvalues, bodies of [with] between [push_with] and
    [pop_with], nested blocks), [end_scope] succeeds and restores the enclosing scope: the
    by-name index is the one before the block, the locals are those before it
    (up to marks), the depth and the size of the [with] stack are as before,
    upvalues were only added, and the count it answers is the number of
    initialised locals of the block, which is what [CloseScope] must pop. *)
Theorem block_restores_scope {Span : Type} (dbg : bool) (s s1 : Scope Span) :
  scope_wf s → runs dbg (begin_scope s) s1 →
  ∃ s2 pops spans, end_scope (E := Empty_set) dbg s1 = Ok (s2, pops, spans) ∧
    by_name s2 = by_name s ∧ scope_depth s2 = scope_depth s ∧ with_stack_size s2 = with_stack_size s ∧
    upvalues s `prefix_of` upvalues s2 ∧ key <$> locals s2 = key <$> locals s ∧
    pops = init_count (drop (length (locals s)) (locals s1)).
Proof.
  intros Hwf Hr. apply runs_extends in Hr; [|by apply scope_wf_begin].
  destruct (end_scope_spec (E := Empty_set) dbg s s1 Hwf Hr) as (s2 & E & ?). naive_solver.
Qed.

(** The spans [end_scope] reports for the warning on unused bindings are
    those of the locals of the block that were used (or are ignored): the test
    is inverted, so an unused binding is never reported and every used one is. *)
Theorem end_scope_reports_used {Span : Type} (dbg : bool) (s s1 : Scope Span) :
  scope_wf s → runs dbg (begin_scope s) s1 →
  ∃ s2 pops spans, end_scope (E := Empty_set) dbg s1 = Ok (s2, pops, spans) ∧
    ∀ sp, sp ∈ spans ↔
      ∃ l, l ∈ drop (length (locals s)) (locals s1) ∧ span l = Some sp ∧ is_used l = true.
Proof.
  intros Hwf Hr. apply runs_extends in Hr; [|by apply scope_wf_begin].
  destruct (end_scope_spec (E := Empty_set) dbg s s1 Hwf Hr) as (s2 & E & _).
  do 3 eexists. split; [exact E|]. intros sp. unfold used_spans. rewrite list_elem_of_bind.
  setoid_rewrite list_elem_of_In at 2. setoid_rewrite <- in_rev. setoid_rewrite <- list_elem_of_In.
  split.
  - intros (l & Hsp & Hl). exists l. split; [done|]. destruct (is_used l); [|by apply not_elem_of_nil in Hsp].
    destruct (span l) as [x|]; simpl in Hsp; [|by apply not_elem_of_nil in Hsp].
    apply list_elem_of_singleton in Hsp as ->. done.
  - intros (l & Hl & Hsp & Hu). exists l. rewrite Hu, Hsp. split; [by left|done].
Qed.

(** A scope as [compile_lambda_or_thunk] opens it, for the witnesses. *)
Definition sample_scope : Scope nat :=
  (declare_phantom (mkScope [] [] ∅ 1 0) 0%nat false).1.

Lemma sample_scope_wf : scope_wf sample_scope.
Proof.
  constructor; [|repeat constructor; simpl; lia|done|simpl; lia|done]. intros n. unfold sample_scope. simpl.
  by rewrite lookup_empty.
Qed.

Lemma resolve_local_latest_witness :
  match resolve_local (E := Empty_set) sample_scope (B "x") with
  | Ok (Unknown, s') => s' = sample_scope ∧ ∀ l, l ∈ locals sample_scope → local_name l ≠ Some (B "x")
  | _ => False
  end.
Proof. exact (resolve_local_latest sample_scope (B "x") sample_scope_wf). Defined.

(** The scope after [let x = ...; y = with ...; x; in ...] has been compiled. *)
Definition sample_body : Scope nat :=
  let x := mkLocal (Ident (B "x")) (Some 1%nat) 2 true true false false in
  let y := mkLocal (Ident (B "y")) (Some 2%nat) 2 true false false false in
  mkScope (locals sample_scope ++ [x; y]) [UpLocal 1] (<[B "y" := Single 2]> (<[B "x" := Single 1]> ∅)) 2 0.

Lemma sample_body_runs : runs true (begin_scope sample_scope) sample_body.
Proof.
  eapply runs_trans; [by eapply (runs_local _ _ (B "x") 1%nat)|].
  eapply runs_trans; [by eapply (runs_initialised _ _ 1)|].
  eapply runs_trans; [by eapply (runs_local _ _ (B "y") 2%nat)|].
  eapply runs_trans; [by eapply (runs_initialised _ _ 2)|].
  eapply runs_trans; [by apply (runs_upvalue _ _ (UpLocal 1))|].
  eapply (runs_with _ _ _ sample_body); [by eapply (runs_resolve _ _ (B "x"))|done].
Qed.

Lemma block_restores_scope_witness :
  ∃ s2 pops spans, end_scope (E := Empty_set) true sample_body = Ok (s2, pops, spans) ∧
    by_name s2 = by_name sample_scope ∧ scope_depth s2 = scope_depth sample_scope ∧
    with_stack_size s2 = with_stack_size sample_scope ∧ upvalues sample_scope `prefix_of` upvalues s2 ∧
    key <$> locals s2 = key <$> locals sample_scope ∧
    pops = init_count (drop (length (locals sample_scope)) (locals sample_body)).
Proof. exact (block_restores_scope true sample_scope sample_body sample_scope_wf sample_body_runs). Defined.

Lemma end_scope_reports_used_witness :
  ∃ s2 pops spans, end_scope (E := Empty_set) true sample_body = Ok (s2, pops, spans) ∧
    (1%nat ∈ spans ∧ 2%nat ∉ spans).
Proof.
  destruct (end_scope_reports_used true sample_scope sample_body sample_scope_wf sample_body_runs)
    as (s2 & pops & spans & E & H).
  exists s2, pops, spans. split; [exact E|]. rewrite !H. split.
  - exists (mkLocal (Ident (B "x")) (Some 1%nat) 2 true true false false).
    split; [|done]. simpl. left.
  - intros (l & Hl & Hsp & Hu). simpl in Hl.
    apply elem_of_cons in Hl as [->|Hl]; [done|]. apply list_elem_of_singleton in Hl as ->. done.
Defined.
