(* ===== verification/NixString.v ===== *)
(** * [eval/src/value/string]: strings of the language

    [context.rs] and [mod.rs]: string contexts, strings with their interner and
    the escaping used to print them. A string is its bytes and an optional
    context; the allocation behind it is not modelled. The interner keeps
    strings of at most 32 bytes by the 64-bit hash of their bytes, which is a
    parameter ([rustc_hash]). *)

From stdpp Require Import strings gmap.
From S2P Require Import Prelude.
#[local] Open Scope nat_scope.

(** ** context.rs *)

Inductive NixContextElement :=
| Plain (path : bytes)
| SingleOutput (name derivation : bytes)
| DerivationPath (path : bytes).

#[global] Instance NixContextElement_eq_dec : EqDecision NixContextElement.
Proof. solve_decision. Defined.

#[global] Instance NixContextElement_countable : Countable NixContextElement.
Proof.
  refine (inj_countable'
    (λ e, match e with
          | Plain p => inl p
          | SingleOutput n d => inr (inl (n, d))
          | DerivationPath p => inr (inr p)
          end)
    (λ e, match e with
          | inl p => Plain p
          | inr (inl (n, d)) => SingleOutput n d
          | inr (inr p) => DerivationPath p
          end) _).
  by intros [].
Defined.

(** A hash set; its iteration order is left open. *)
Definition NixContext : Type := gset NixContextElement.

Definition NixContext_new : NixContext := ∅.
Definition NixContext_append (c : NixContext) (e : NixContextElement) : NixContext := {[ e ]} ∪ c.
Definition NixContext_extend (c : NixContext) (es : NixContext) : NixContext := c ∪ es.

(** [iter_plain], [iter_derivation] and [iter_single_outputs] *)
Definition iter_plain (c : NixContext) : gset bytes :=
  set_omap (λ e, match e with Plain s => Some s | _ => None end) c.
Definition iter_derivation (c : NixContext) : gset bytes :=
  set_omap (λ e, match e with DerivationPath s => Some s | _ => None end) c.
Definition iter_single_outputs (c : NixContext) : gset (bytes * bytes) :=
  set_omap (λ e, match e with SingleOutput n d => Some (n, d) | _ => None end) c.

(** [to_owned_references] *)
Definition element_reference (e : NixContextElement) : bytes :=
  match e with
  | DerivationPath p => p
  | Plain p => p
  | SingleOutput _ d => d
  end.
Definition to_owned_references (c : NixContext) : list bytes := element_reference <$> elements c.

(** ** mod.rs *)

Record NixString := mkNixString {
  contents : bytes;
  context : option NixContext;
}.

(** [PartialEq] and [Ord] compare the bytes only. *)
Definition NixString_eqb (a b : NixString) : bool := bool_decide (contents a = contents b).
Definition NixString_cmp (a b : NixString) : comparison := lex_cmp (contents a) (contents b).

#[global] Instance NixString_ord : RustOrd NixString := NixString_cmp.

Definition has_context (s : NixString) : bool :=
  match context s with Some _ => true | None => false end.

Definition take_context (s : NixString) : option NixContext * NixString :=
  (context s, mkNixString (contents s) None).

(** [From<&str>] and the like, the interner aside. *)
Definition plain_string (s : bytes) : NixString := mkNixString s None.

Definition new_context_from (c : NixContext) (s : bytes) : NixString :=
  mkNixString s (if decide (c = ∅) then None else Some c).

Definition new_inherit_context_from (other : NixString) (s : bytes) : NixString :=
  mkNixString s (context other).

Definition concat (a b : NixString) : NixString :=
  let ctx := foldl (λ acc c, NixContext_extend acc c) NixContext_new
               (option_list (context a) ++ option_list (context b)) in
  new_context_from ctx (contents a ++ contents b).

(** *** The interner *)

Definition INTERN_THRESHOLD : nat := 32.

(** [FxHasher] on the bytes. *)
Class FxHash := fx_hash : bytes → Z.

(** [InternerInner]: the map from hashes to the strings they stand for. *)
Definition intern `{FxHash} (i : gmap Z NixString) (s : bytes) : gmap Z NixString * NixString :=
  match i !! fx_hash s with
  | Some s' => (i, s')
  | None => let string := mkNixString s None in (<[fx_hash s := string]> i, string)
  end.

(** [NixString::new], in the default build that leaks strings. *)
Definition new `{FxHash} (i : gmap Z NixString) (s : bytes) (ctx : option NixContext)
    : gmap Z NixString * NixString :=
  if (length s <=? INTERN_THRESHOLD) && bool_decide (ctx = None) then intern i s
  else (i, mkNixString s ctx).

(** *** Escaping *)

Definition nix_escape_char (ch : byte) (next : option byte) : option bytes :=
  match ch, next with
  | Byte.x5c, _ => Some [Byte.x5c; Byte.x5c]
  | Byte.x22, _ => Some [Byte.x5c; Byte.x22]
  | Byte.x0a, _ => Some [Byte.x5c; Byte.x6e]
  | Byte.x09, _ => Some [Byte.x5c; Byte.x74]
  | Byte.x0d, _ => Some [Byte.x5c; Byte.x72]
  | Byte.x24, Some Byte.x7b => Some [Byte.x5c; Byte.x24]
  | _, _ => None
  end.

(** The inner loop, from the character after the first escape. *)
Fixpoint escape_rest (s : bytes) : bytes :=
  match s with
  | [] => []
  | c :: s => match nix_escape_char c (head s) with
              | Some esc => esc ++ escape_rest s
              | None => c :: escape_rest s
              end
  end.

(** [Cow]: whether the string was left as it is. *)
Inductive Cow := Borrowed (s : bytes) | Owned (s : bytes).
Definition into_owned (c : Cow) : bytes := match c with Borrowed s | Owned s => s end.

(** The outer loop, with the characters it has passed: none of them is escaped. *)
Fixpoint escape_from (passed : bytes) (input : bytes) : Cow :=
  match input with
  | [] => Borrowed passed
  | c :: rest => match nix_escape_char c (head rest) with
                 | Some esc => Owned (passed ++ esc ++ escape_rest rest)
                 | None => escape_from (passed ++ [c]) rest
                 end
  end.

Definition nix_escape_string (input : bytes) : Cow := escape_from [] input.

Definition is_keyword (s : bytes) : bool :=
  bool_decide (s ∈ [B "if"; B "then"; B "else"; B "assert"; B "with"; B "let"; B "in"; B "rec";
                    B "inherit"]).

Definition in_range (lo hi : byte) (c : byte) : bool := (b2z lo <=? b2z c)%Z && (b2z c <=? b2z hi)%Z.

Definition ident_start (c : byte) : bool :=
  in_range Byte.x61 Byte.x7a c || in_range Byte.x41 Byte.x5a c || bool_decide (c = Byte.x5f).
Definition ident_char (c : byte) : bool :=
  in_range Byte.x61 Byte.x7a c || in_range Byte.x41 Byte.x5a c || in_range Byte.x30 Byte.x39 c
  || bool_decide (c ∈ [Byte.x5f; Byte.x2d; Byte.x27]).

Definition is_valid_nix_identifier (s : bytes) : bool :=
  match s with
  | [] => false
  | c :: cs => ident_start c && forallb ident_char cs
  end.

Definition quoted (s : bytes) : bytes := [Byte.x22] ++ s ++ [Byte.x22].

(** [ident_str] and [Display], on the UTF-8 text of the string. *)
Definition ident_str (s : bytes) : bytes :=
  match nix_escape_string s with
  | Borrowed e => if is_valid_nix_identifier e && negb (is_keyword e) then e else quoted e
  | Owned e => quoted e
  end.

Definition display (s : bytes) : bytes := quoted (into_owned (nix_escape_string s)).

(** ** What the interner answers *)

Section Interner.
Context `{FxHash}.

(** The interner after short strings were created, in this order. *)
Definition intern_all (i : gmap Z NixString) (ss : list bytes) : gmap Z NixString :=
  foldl (λ i s, (intern i s).1) i ss.

(** The first of the strings with a given hash. *)
Definition first_with (h : Z) (ss : list bytes) : option bytes :=
  head (filter (λ s, fx_hash s = h) ss).

Lemma first_with_snoc h ss s :
  first_with h (ss ++ [s]) =
    match first_with h ss with
    | Some t => Some t
    | None => if decide (fx_hash s = h) then Some s else None
    end.
Proof.
  unfold first_with. rewrite filter_app. destruct (filter _ ss) as [|t ts]; [|done].
  cbn. by destruct (decide _).
Qed.

Lemma intern_all_lookup ss h :
  intern_all ∅ ss !! h = plain_string <$> first_with h ss.
Proof.
  induction ss as [|s ss IH] using rev_ind; [by apply lookup_empty|].
  unfold intern_all. rewrite foldl_app. cbn [foldl]. fold (intern_all ∅ ss).
  rewrite first_with_snoc. unfold intern.
  destruct (intern_all ∅ ss !! fx_hash s) as [t|] eqn:E; cbv zeta; cbn [fst].
  - rewrite IH. destruct (decide (fx_hash s = h)) as [<-|]; [|by destruct (first_with h ss)].
    rewrite IH in E. by destruct (first_with (fx_hash s) ss).
  - destruct (decide (fx_hash s = h)) as [<-|Hne].
    + rewrite lookup_insert_eq. rewrite IH in E. by destruct (first_with (fx_hash s) ss).
    + rewrite lookup_insert_ne, IH by done. by destruct (first_with h ss).
Qed.

(** A short string without context that is created after the strings [ss] is
    the first of [ss] with the same 64-bit hash, if there is one: the interner
    never compares the bytes, so it answers the string asked for exactly when
    that first one is equal to it. Longer strings, and strings with a context,
    are always the ones asked for. *)
Theorem new_contents (ss : list bytes) (s : bytes) (ctx : option NixContext) :
  let r := (new (intern_all ∅ ss) s ctx).2 in
  context r = ctx ∧
  (contents r = s ↔
    (INTERN_THRESHOLD < length s ∨ ctx ≠ None ∨ ∀ t, first_with (fx_hash s) ss = Some t → t = s)).
Proof.
  unfold new. destruct (Nat.leb_spec (length s) INTERN_THRESHOLD) as [Hl|Hl]; [|cbn; split; [done|tauto]].
  cbn [andb]. destruct (bool_decide_reflect (ctx = None)) as [->|]; [|cbn; split; [done|tauto]].
  unfold intern. rewrite intern_all_lookup. destruct (first_with (fx_hash s) ss) as [t|]; cbn.
  - split; [done|]. split; [by intros -> ; right; right; intros ? [= <-]|].
    intros [?|[?|Ht]]; [lia|done|by apply Ht].
  - split; [done|]. split; [|done]. intros _. right. by right.
Qed.

End Interner.

(** With a hash that only counts bytes, the second string of a length is the
    first. *)
Lemma new_contents_witness :
  let _ : FxHash := λ s, Z.of_nat (length s) in
  contents (new (intern_all ∅ [B "foo"]) (B "bar") None).2 = B "foo" ∧
  ~ (contents (new (intern_all ∅ [B "foo"]) (B "bar") None).2 = B "bar").
Proof.
  split; [reflexivity|].
  intros E. apply (new_contents (H := λ s, Z.of_nat (length s)) [B "foo"] (B "bar") None) in E
    as [Hl|[Hc|Ht]].
  - by vm_compute in Hl; lia.
  - done.
  - specialize (Ht (B "foo") eq_refl). discriminate.
Defined.

(** ** What escaping guarantees *)

(** The characters of a double-quoted literal up to its closing quote: [None]
    where the lexer would end the string or start an interpolation. *)
Fixpoint unescape (s : bytes) : option bytes :=
  match s with
  | [] => Some []
  | Byte.x22 :: _ => None
  | Byte.x24 :: Byte.x7b :: _ => None
  | Byte.x5c :: c :: s =>
      t ← unescape s;
      Some (match c with
            | Byte.x6e => Byte.x0a
            | Byte.x74 => Byte.x09
            | Byte.x72 => Byte.x0d
            | c => c
            end :: t)
  | Byte.x5c :: [] => None
  | c :: s => t ← unescape s; Some (c :: t)
  end.

Lemma escape_from_rest passed s : into_owned (escape_from passed s) = passed ++ escape_rest s.
Proof.
  revert passed. induction s as [|c s IH]; intros passed; cbn [escape_from escape_rest into_owned].
  { by rewrite app_nil_r. }
  destruct (nix_escape_char c (head s)); [done|]. rewrite IH, <- app_assoc. done.
Qed.

(** An escaped text starts with a brace only if the text does. *)
Lemma escape_rest_head s : head (escape_rest s) = Some Byte.x7b → head s = Some Byte.x7b.
Proof.
  destruct s as [|c s]; [done|]. cbn [escape_rest].
  destruct (nix_escape_char c (head s)) as [esc|] eqn:E; [|done].
  unfold nix_escape_char in E. destruct c; try discriminate;
    first [injection E as <- | destruct (head s) as [[]|]; try discriminate; injection E as <-];
    discriminate.
Qed.

Lemma unescape_plain c s :
  c ≠ Byte.x22 → c ≠ Byte.x5c → (c = Byte.x24 → head s ≠ Some Byte.x7b) →
  unescape (c :: s) = t ← unescape s; Some (c :: t).
Proof.
  intros Hq Hb Hd. destruct c; try done. destruct s as [|[] s]; try done. by specialize (Hd eq_refl).
Qed.

Lemma escape_plain c next :
  nix_escape_char c next = None →
  c ≠ Byte.x22 ∧ c ≠ Byte.x5c ∧ (c = Byte.x24 → next ≠ Some Byte.x7b).
Proof. intros E. split_and!; intros ->; try discriminate. by intros ->. Qed.

Lemma unescape_escape_rest s : unescape (escape_rest s) = Some s.
Proof.
  induction s as [|c s IH]; [done|]. cbn [escape_rest].
  destruct (nix_escape_char c (head s)) as [esc|] eqn:E.
  - unfold nix_escape_char in E.
    destruct c; try discriminate;
      first [injection E as <- | destruct (head s) as [[]|]; try discriminate; injection E as <-];
      cbn [app unescape]; by rewrite IH.
  - apply escape_plain in E as (Hq & Hb & Hd). rewrite unescape_plain; [by rewrite IH|done..|].
    intros Hc Hh%escape_rest_head. by apply Hd.
Qed.

Lemma escape_from_borrowed passed s t :
  escape_from passed s = Borrowed t → t = passed ++ s ∧ escape_rest s = s.
Proof.
  revert passed. induction s as [|c s IH]; intros passed; cbn [escape_from escape_rest].
  { intros [= ->]. by rewrite app_nil_r. }
  destruct (nix_escape_char c (head s)) as [esc|]; [done|]. intros [-> ->]%IH.
  by rewrite <- app_assoc.
Qed.

Lemma escape_longer s : length s ≤ length (escape_rest s).
Proof.
  induction s as [|c s IH]; [done|]. cbn [escape_rest].
  destruct (nix_escape_char c (head s)) as [esc|] eqn:E; [|cbn; lia].
  rewrite length_app. enough (0 < length esc) by (cbn; lia). destruct esc; [|cbn; lia].
  unfold nix_escape_char in E. destruct c; try discriminate; destruct (head s) as [[]|]; discriminate.
Qed.

Lemma escape_from_owned passed s :
  escape_rest s = s → escape_from passed s = Borrowed (passed ++ s).
Proof.
  revert passed. induction s as [|c s IH]; intros passed; cbn [escape_from escape_rest].
  { by rewrite app_nil_r. }
  destruct (nix_escape_char c (head s)) as [esc|] eqn:E.
  - intros Hs%(f_equal length). rewrite length_app in Hs. pose proof (escape_longer s). cbn in Hs.
    assert (length esc = 2) as Hl; [|lia].
    unfold nix_escape_char in E. destruct c; try discriminate;
      first [by injection E as <- | destruct (head s) as [[]|]; try discriminate; by injection E as <-].
  - intros [= Hs]. rewrite IH by done. by rewrite <- app_assoc.
Qed.

(** The text [Display] puts between the quotes is read back as the string it
    was made from, with no character that ends the literal or starts an
    interpolation; the two loops do what one pass over the characters does, and
    the string is borrowed exactly when that pass changes nothing. *)
Theorem nix_escape_string_roundtrip (s : bytes) :
  unescape (into_owned (nix_escape_string s)) = Some s ∧
  into_owned (nix_escape_string s) = escape_rest s ∧
  (nix_escape_string s = Borrowed s ↔ escape_rest s = s).
Proof.
  unfold nix_escape_string. rewrite escape_from_rest. split_and!; [apply unescape_escape_rest|done|].
  split; [by intros [_ ?]%escape_from_borrowed|apply (escape_from_owned [])].
Qed.

(** Concatenation joins the bytes and unites the contexts, and the result
    has no context exactly when neither operand has a non-empty one: an empty
    context is never stored. *)
Theorem concat_context (a b : NixString) :
  let elems s := default ∅ (context s) in
  contents (concat a b) = contents a ++ contents b ∧
  elems (concat a b) = elems a ∪ elems b ∧
  (context (concat a b) = None ↔ elems a ∪ elems b = ∅) ∧ context (concat a b) ≠ Some ∅.
Proof.
  cbv zeta. unfold concat, new_context_from. cbn [contents].
  assert (foldl (λ acc c, NixContext_extend acc c) NixContext_new
            (option_list (context a) ++ option_list (context b)) =
          default ∅ (context a) ∪ default ∅ (context b)) as ->.
  { unfold NixContext_extend, NixContext_new. destruct (context a), (context b); cbn; set_solver. }
  split; [done|]. cbn [context]. destruct (decide _) as [Hu|Hu]; cbn; [by rewrite Hu|].
  split_and!; [done| |congruence]. by split.
Qed.
