(* ===== verification/NixAttrs.v ===== *)
(** * [eval/src/value/attrs.rs]: attribute sets

    The three representations of an attribute set, its operations, and the
    finite map they all stand for. The values are of any type; of a value used
    as a key only its kind matters. *)

From stdpp Require Import strings gmap sorting.
From S2P Require Import Prelude BTreeMap NixString.
#[local] Open Scope nat_scope.

Definition NAME : NixString := plain_string (B "name").
Definition VALUE : NixString := plain_string (B "value").

Inductive AttrsRep (V : Type) :=
| Empty
| Map (m : list (NixString * V))
| KV (name value : V).
Arguments Empty {V}.
Arguments Map {V} _.
Arguments KV {V} _ _.

Section Attrs.
Context {V : Type}.
Implicit Types a b : AttrsRep V.

(** A map is searched by bytes: [NixString: Borrow<BStr>]. *)
Definition select (k : bytes) a : option V :=
  match a with
  | Empty => None
  | KV name value =>
      if decide (k = B "name") then Some name
      else if decide (k = B "value") then Some value else None
  | Map m => bt_get (plain_string k) m
  end.

Definition contains (k : bytes) a : bool :=
  match a with
  | Empty => false
  | KV _ _ => bool_decide (k = B "name") || bool_decide (k = B "value")
  | Map m => match bt_get (plain_string k) m with Some _ => true | None => false end
  end.

(** [FromIterator] and [From<BTreeMap>] *)
Definition attrs_from_iter (l : list (NixString * V)) : AttrsRep V := Map (bt_of_list l).

(** [Entry::Vacant(e) => e.insert(v)], and nothing on an occupied entry. *)
Definition insert_vacant (k : NixString) (v : V) (m : list (NixString * V)) : list (NixString * V) :=
  match bt_entry k m with Some _ => m | None => bt_insert k v m end.

Definition update a b : AttrsRep V :=
  match a, b with
  | Empty, Empty => a
  | Empty, _ => b
  | _, Empty => a
  | KV _ _, KV _ _ => b
  | Map m, KV name value => Map (bt_insert VALUE value (bt_insert NAME name m))
  | KV name value, Map m => Map (insert_vacant VALUE value (insert_vacant NAME name m))
  | Map m1, Map m2 => Map (foldl (λ m x, bt_insert x.1 x.2 m) m1 m2)
  end.

Definition attrs_len a : nat :=
  match a with Map m => length m | Empty => 0 | KV _ _ => 2 end.

Definition attrs_is_empty a : bool :=
  match a with Map m => length m =? 0 | Empty => true | KV _ _ => false end.

(** [iter], [into_iter] and their sorted variants, run to the end. *)
Definition iter a : list (NixString * V) :=
  match a with
  | Map m => m
  | Empty => []
  | KV name value => [(NAME, name); (VALUE, value)]
  end.

Definition keys a : list NixString :=
  match a with
  | Empty => []
  | KV _ _ => [NAME; VALUE]
  | Map m => m.*1
  end.

(** *** Construction from the stack *)

(** What a value is as a key. *)
Inductive KeyView (C : Type) :=
| KString (s : NixString)
| KNull
| KCatchable (c : C)
| KOther.
Arguments KString {C} _.
Arguments KNull {C}.
Arguments KCatchable {C} _.
Arguments KOther {C}.

Inductive ConstructError :=
| DuplicateAttrsKey (key : bytes)
| InvalidAttributeName (v : V).

Context {C : Type} (view : V → KeyView C).

Definition set_attr (m : list (NixString * V)) (key : NixString) (value : V)
    : outcome ConstructError (list (NixString * V)) :=
  match bt_entry key m with
  | Some (k, _) => Err (DuplicateAttrsKey (contents k))
  | None => Ok (bt_insert key value m)
  end.

(** [attempt_optimise_kv] on the four values of the slice. *)
Definition attempt_optimise_kv (s0 s1 s2 s3 : V) : option (AttrsRep V) :=
  match view s2, view s0 with
  | KString k2, KString k0 =>
      if NixString_eqb k2 NAME && NixString_eqb k0 VALUE then Some (KV s3 s1)
      else if NixString_eqb k2 VALUE && NixString_eqb k0 NAME then Some (KV s1 s3)
      else None
  | _, _ => None
  end.

(** The loop of [construct]: pairs are popped from the end of the slice, so the
    list is the slice reversed. *)
Fixpoint construct_loop (count : nat) (rev_slice : list V) (m : list (NixString * V))
    : outcome ConstructError (C + list (NixString * V)) :=
  match count with
  | 0 => Ok (inr m)
  | S count =>
      match rev_slice with
      | value :: key :: rest =>
          match view key with
          | KString ks => let? m := set_attr m ks value in construct_loop count rest m
          | KNull => construct_loop count rest m
          | KCatchable c => Ok (inl c)
          | KOther => Err (InvalidAttributeName key)
          end
      | _ => Panic
      end
  end.

Definition construct_map (count : nat) (slice : list V) : outcome ConstructError (C + AttrsRep V) :=
  let? r := construct_loop count (rev slice) [] in
  Ok (match r with inl c => inl c | inr m => inr (Map m) end).

Definition construct (count : nat) (slice : list V) : outcome ConstructError (C + AttrsRep V) :=
  if count =? 0 then Ok (inr Empty)
  else match (if count =? 2 then
                match slice with
                | [s0; s1; s2; s3] => attempt_optimise_kv s0 s1 s2 s3
                | _ => None
                end
              else None) with
       | Some kv => Ok (inr kv)
       | None => construct_map count slice
       end.

End Attrs.
Arguments KeyView : clear implicits.
Arguments KString {C} _.
Arguments KNull {C}.
Arguments KCatchable {C} _.
Arguments KOther {C}.
Arguments ConstructError : clear implicits.

(** ** The finite map an attribute set stands for *)

#[global] Instance NixString_ord_laws : RustOrdLaws NixString.
Proof.
  constructor; intros *; unfold rcmp, NixString_ord, NixString_cmp.
  - apply (rcmp_refl (A := list byte)).
  - apply (rcmp_antisym (A := list byte)).
  - apply (rcmp_lt_trans (A := list byte)).
  - apply (rcmp_eq_l (A := list byte)).
Qed.

Lemma NixString_cmp_eq s t : rcmp s t = Eq ↔ contents s = contents t.
Proof.
  unfold rcmp, NixString_ord, NixString_cmp. split.
  - apply (rcmp_eq (A := list byte)).
  - intros ->. apply (rcmp_refl (A := list byte)).
Qed.

Section Spec.
Context {V : Type}.
Implicit Types a b : AttrsRep V.
Implicit Types m : list (NixString * V).

Definition entry_of (x : NixString * V) : bytes * V := (contents x.1, x.2).

Definition map_of m : gmap bytes V := list_to_map (entry_of <$> m).

(** The abstraction. *)
Definition to_map a : gmap bytes V := map_of (iter a).

(** The entries are in the order of their keys, each key once. *)
Definition attrs_wf a : Prop := bt_sorted (iter a).

Lemma map_of_nil : map_of [] = ∅.
Proof. reflexivity. Qed.

Lemma map_of_cons x m : map_of (x :: m) = <[contents x.1 := x.2]> (map_of m).
Proof. reflexivity. Qed.

Lemma map_of_kv (name value : V) :
  map_of [(NAME, name); (VALUE, value)] = <[B "name" := name]> {[ B "value" := value ]}.
Proof. reflexivity. Qed.

Lemma map_of_lookup m k : map_of m !! k = bt_get (plain_string k) m.
Proof.
  unfold bt_get. induction m as [|[k' v] m IH]; [done|]. cbn [bt_entry].
  rewrite map_of_cons. cbn [fst snd].
  destruct (rcmp (plain_string k) k') eqn:E.
  - apply NixString_cmp_eq in E. cbn in E. subst k. by rewrite lookup_insert_eq.
  - rewrite lookup_insert_ne; [done|]. intros Hk.
    by rewrite (proj2 (NixString_cmp_eq (plain_string k) k')) in E.
  - rewrite lookup_insert_ne; [done|]. intros Hk.
    by rewrite (proj2 (NixString_cmp_eq (plain_string k) k')) in E.
Qed.

Lemma bt_get_contents k m : bt_get k m = map_of m !! contents k.
Proof.
  rewrite map_of_lookup. unfold bt_get. f_equal. induction m as [|[k' v] m IH]; [done|]. cbn [bt_entry].
  rewrite IH. by rewrite (rcmp_eq_l (plain_string (contents k)) k k') by (by apply NixString_cmp_eq).
Qed.

Lemma map_of_insert k v m : map_of (bt_insert k v m) = <[contents k := v]> (map_of m).
Proof.
  apply map_eq. intros j. rewrite (map_of_lookup (bt_insert _ _ _)).
  destruct (decide (contents k = j)) as [<-|Hne].
  - rewrite lookup_insert_eq. apply bt_get_insert_eq. by apply NixString_cmp_eq.
  - rewrite lookup_insert_ne, map_of_lookup by done. apply bt_get_insert_ne.
    by intros E%NixString_cmp_eq.
Qed.

Lemma map_of_insert_vacant k v m :
  map_of (insert_vacant k v m) = map_of m ∪ {[ contents k := v ]}.
Proof.
  pose proof (bt_get_contents k m) as Hk. unfold insert_vacant, bt_get in *.
  destruct (bt_entry k m) as [x|]; cbn in Hk.
  - apply map_eq. intros j. rewrite lookup_union. destruct (decide (contents k = j)) as [<-|].
    + by rewrite <- Hk, lookup_singleton_eq.
    + rewrite lookup_singleton_ne by done. by destruct (map_of m !! j).
  - rewrite map_of_insert, <- insert_union_singleton_r by done. done.
Qed.

Lemma sorted_fresh x m : bt_sorted (x :: m) → map_of m !! contents x.1 = None.
Proof.
  intros [Hx _]%bt_sorted_cons. rewrite map_of_lookup. unfold bt_get.
  rewrite (proj2 (bt_entry_None _ _)); [done|]. intros y Hy.
  apply (proj1 (Forall_forall _ _) Hx) in Hy. unfold bt_lt in Hy.
  by rewrite (rcmp_eq_l (plain_string (contents x.1)) x.1 y.1), Hy by (by apply NixString_cmp_eq).
Qed.

Lemma map_of_extend m1 m2 :
  bt_sorted m2 → map_of (foldl (λ m x, bt_insert x.1 x.2 m) m1 m2) = map_of m2 ∪ map_of m1.
Proof.
  revert m1. induction m2 as [|x m2 IH]; intros m1 Hs; [by rewrite map_of_nil, (left_id_L ∅ (∪))|].
  cbn [foldl]. pose proof (sorted_fresh _ _ Hs) as Hx. apply bt_sorted_cons in Hs as [_ Hs].
  rewrite IH, map_of_insert, map_of_cons by done. by rewrite <- insert_union_r, insert_union_l.
Qed.

Lemma extend_sorted m1 m2 : bt_sorted m1 → bt_sorted (foldl (λ m x, bt_insert x.1 x.2 m) m1 m2).
Proof. revert m1. induction m2 as [|x m2 IH]; intros m1 Hs; [done|]. by apply IH, bt_insert_sorted. Qed.

Lemma insert_vacant_sorted k v m : bt_sorted m → bt_sorted (insert_vacant k v m).
Proof. intros Hs. unfold insert_vacant. destruct (bt_entry k m); [done|]. by apply bt_insert_sorted. Qed.

Lemma kv_sorted (name value : V) : bt_sorted [(NAME, name); (VALUE, value)].
Proof. apply bt_sorted_cons. split; [|by repeat constructor]. constructor; [by vm_compute|constructor]. Qed.

Lemma select_spec k a : select k a = to_map a !! k.
Proof.
  destruct a as [|m|name value]; unfold to_map; cbn [select iter]; [done|by rewrite map_of_lookup|].
  rewrite map_of_kv.
  destruct (decide (k = B "name")) as [->|Hn]; [by rewrite lookup_insert_eq|].
  rewrite lookup_insert_ne by congruence.
  destruct (decide (k = B "value")) as [->|Hv]; [by rewrite lookup_singleton_eq|].
  by rewrite lookup_singleton_ne by congruence.
Qed.

(** Equality of maps built from the two fixed keys. *)
Ltac kv_ext :=
  apply map_eq; intros j; cbn [contents NAME VALUE plain_string];
  destruct (decide (B "name" = j)) as [<-|]; [|destruct (decide (B "value" = j)) as [<-|]];
  rewrite ?lookup_union;
  repeat first [rewrite lookup_insert_eq | rewrite lookup_singleton_eq | rewrite lookup_insert_ne by done
               | rewrite lookup_singleton_ne by done | rewrite lookup_empty];
  repeat (destruct (_ !! _)); reflexivity.

Lemma update_spec a b : attrs_wf a → attrs_wf b →
  attrs_wf (update a b) ∧ to_map (update a b) = to_map b ∪ to_map a.
Proof.
  intros Ha Hb. unfold attrs_wf, to_map in *.
  destruct a as [|m1|n1 v1], b as [|m2|n2 v2]; cbn [update iter] in *;
    try (split; [done|by rewrite ?map_of_nil, ?(left_id_L ∅ (∪)), ?(right_id_L ∅ (∪))]).
  - split; [by apply extend_sorted|by apply map_of_extend].
  - split; [by apply bt_insert_sorted, bt_insert_sorted|].
    rewrite !map_of_insert, map_of_kv, insert_insert_ne by done.
    kv_ext.
  - split; [by apply insert_vacant_sorted, insert_vacant_sorted|].
    rewrite !map_of_insert_vacant, <- (assoc_L (∪)), map_of_kv. reflexivity.
Qed.

Lemma contains_spec k a : contains k a = bool_decide (is_Some (to_map a !! k)).
Proof.
  rewrite <- select_spec. destruct a as [|m|name value]; cbn [contains select]; [done| |].
  - destruct (bt_get _ m); [by rewrite bool_decide_eq_true_2 by eauto|done].
  - repeat case_decide; repeat case_bool_decide; naive_solver.
Qed.

Lemma map_of_size m : bt_sorted m → size (map_of m) = length m.
Proof.
  induction m as [|x m IH]; intros Hs; [apply map_size_empty|].
  rewrite map_of_cons, map_size_insert_None by (by apply sorted_fresh).
  apply bt_sorted_cons in Hs as [_ Hs]. cbn. by rewrite IH.
Qed.

Lemma keys_iter a : keys a = (iter a).*1.
Proof. by destruct a. Qed.

Lemma len_iter a : attrs_len a = length (iter a).
Proof. by destruct a. Qed.

(** C32: whatever its representation, an attribute set behaves as the finite map
    of its entries: selection and membership are lookup, the size is the number
    of keys, keys come in their order, and [//] is the union in which the right
    operand wins, again well formed. *)
Theorem attrs_refine_map a b :
  attrs_wf a → attrs_wf b →
  (∀ k, select k a = to_map a !! k ∧ contains k a = bool_decide (is_Some (to_map a !! k))) ∧
  attrs_len a = size (to_map a) ∧ (attrs_is_empty a = true ↔ to_map a = ∅) ∧
  StronglySorted (λ s t, NixString_cmp s t = Lt) (keys a) ∧
  (list_to_set (contents <$> keys a) : gset bytes) = dom (to_map a) ∧
  attrs_wf (update a b) ∧ to_map (update a b) = to_map b ∪ to_map a.
Proof.
  intros Ha Hb. split_and!.
  - intros k. split; [apply select_spec|apply contains_spec].
  - unfold to_map. by rewrite map_of_size, len_iter.
  - rewrite <- map_size_empty_iff. unfold to_map. rewrite map_of_size, <- len_iter by done.
    destruct a; cbn; [done|apply Nat.eqb_eq|done].
  - rewrite keys_iter. unfold attrs_wf in Ha. induction Ha as [|x l Hl IH Hx]; [constructor|].
    cbn. constructor; [done|]. by apply Forall_fmap.
  - rewrite keys_iter. unfold to_map. induction (iter a) as [|x l IH]; [done|].
    rewrite map_of_cons, dom_insert_L. cbn. by rewrite IH.
  - by apply update_spec.
  - by apply update_spec.
Qed.

(** *** Construction *)

Context {C : Type} (view : V → KeyView C).

(** The meaning of the pairs, the last one first. *)
Fixpoint build (ps : list (V * V)) (m : gmap bytes V) : outcome (ConstructError V) (C + gmap bytes V) :=
  match ps with
  | [] => Ok (inr m)
  | (key, value) :: ps =>
      match view key with
      | KString ks =>
          match m !! contents ks with
          | Some _ => Err (DuplicateAttrsKey (contents ks))
          | None => build ps (<[contents ks := value]> m)
          end
      | KNull => build ps m
      | KCatchable c => Ok (inl c)
      | KOther => Err (InvalidAttributeName key)
      end
  end.

Definition flat (ps : list (V * V)) : list V := ps ≫= λ p, [p.1; p.2].

(** What a result stands for. *)
Definition result_map (r : outcome (ConstructError V) (C + AttrsRep V))
    : outcome (ConstructError V) (C + gmap bytes V) :=
  match r with
  | Ok (inr a) => Ok (inr (to_map a))
  | Ok (inl c) => Ok (inl c)
  | Err e => Err e
  | Panic => Panic
  end.

Lemma flat_snoc ps k v : flat (ps ++ [(k, v)]) = flat ps ++ [k; v].
Proof. unfold flat. rewrite bind_app. done. Qed.

Lemma construct_loop_build ps m :
  bt_sorted m →
  match construct_loop view (length ps) (rev (flat ps)) m with
  | Ok (inr m') => bt_sorted m' ∧ build (rev ps) (map_of m) = Ok (inr (map_of m'))
  | Ok (inl c) => build (rev ps) (map_of m) = Ok (inl c)
  | Err e => build (rev ps) (map_of m) = Err e
  | Panic => False
  end.
Proof.
  revert m. induction ps as [|[k v] ps IH] using rev_ind; intros m Hm; [done|].
  rewrite flat_snoc, !rev_app_distr, length_app, Nat.add_comm. cbn [length rev app plus construct_loop build].
  destruct (view k) as [ks| |c|]; [|by apply IH|done|done].
  unfold set_attr. pose proof (bt_get_contents ks m) as Hg. unfold bt_get in Hg.
  destruct (bt_entry ks m) as [[k' v']|] eqn:E; cbn in Hg |- *; rewrite <- Hg.
  - enough (contents k' = contents ks) as -> by done. clear -E.
    induction m as [|[j w] m IH]; [done|]. cbn in E. destruct (rcmp ks j) eqn:Ec; [|by apply IH..].
    injection E as -> ->. symmetry. by apply NixString_cmp_eq.
  - rewrite <- map_of_insert. by apply IH, bt_insert_sorted.
Qed.

Lemma construct_map_build ps :
  result_map (construct_map view (length ps) (flat ps)) = build (rev ps) ∅ ∧
  ∀ a, construct_map view (length ps) (flat ps) = Ok (inr a) → attrs_wf a.
Proof.
  unfold construct_map. pose proof (construct_loop_build ps [] ltac:(constructor)) as Hc.
  rewrite map_of_nil in Hc. destruct (construct_loop _ _ _ _) as [[c|m]|e|]; cbn in *.
  - split; [done|]. intros a [=].
  - destruct Hc as [Hs Hb]. split; [done|]. by intros a [= <-].
  - split; [done|]. intros a [=].
  - done.
Qed.

(** [construct], with its shortcuts for the empty set and for name/value
    pairs, gives what inserting the pairs from the last to the first into a map
    gives: keys that are null are skipped, a catchable key ends construction
    with it, a repeated key and a key that is no string are errors; it never
    panics on a slice of the announced length. *)
Theorem construct_refines_build (ps : list (V * V)) :
  result_map (construct view (length ps) (flat ps)) = build (rev ps) ∅ ∧
  ∀ a, construct view (length ps) (flat ps) = Ok (inr a) → attrs_wf a.
Proof.
  unfold construct. destruct (Nat.eqb_spec (length ps) 0) as [Hl|_].
  { apply nil_length_inv in Hl as ->. split; [done|]. intros a [= <-]. constructor. }
  destruct (Nat.eqb_spec (length ps) 2) as [Hl|_]; [|apply construct_map_build].
  destruct ps as [|[k1 v1] [|[k2 v2] [|? ?]]]; try done. cbn [flat mbind list_bind app fst snd].
  unfold attempt_optimise_kv.
  destruct (view k2) as [s2| | |] eqn:E2; try apply (construct_map_build [(k1, v1); (k2, v2)]).
  destruct (view k1) as [s1| | |] eqn:E1; try apply (construct_map_build [(k1, v1); (k2, v2)]).
  unfold NixString_eqb.
  destruct (bool_decide _ && bool_decide _) eqn:Ea; [|clear Ea; destruct (bool_decide _ && bool_decide _) eqn:Ea;
    [|apply (construct_map_build [(k1, v1); (k2, v2)])]].
  all: apply andb_true_iff in Ea as [Ea%bool_decide_eq_true Eb%bool_decide_eq_true].
  all: split; [|intros a [= <-]; apply kv_sorted].
  all: cbn [result_map rev app build]; rewrite E2, E1, lookup_empty;
    repeat match goal with H : contents _ = contents _ |- _ => rewrite H end;
    cbn [contents NAME VALUE plain_string]; rewrite lookup_insert_ne, lookup_empty by done;
    unfold to_map; cbn [iter].
  all: rewrite map_of_kv; do 2 f_equal; kv_ext.
Qed.

End Spec.

(** ** Witnesses *)

(** Keys are naturals here: 0 is null, 1 a failure, others name attributes. *)
Definition nat_view (n : nat) : KeyView unit :=
  match n with
  | 0 => KNull
  | 1 => KCatchable tt
  | 2 => KOther
  | 3 => KString NAME
  | 4 => KString VALUE
  | n => KString (plain_string (replicate n Byte.x61))
  end.

Lemma attrs_refine_map_witness :
  to_map (update (KV 10 20) (attrs_from_iter [(VALUE, 5); (plain_string (B "a"), 6)])) =
    to_map (attrs_from_iter [(VALUE, 5); (plain_string (B "a"), 6)]) ∪ to_map (KV 10 20).
Proof.
  apply (attrs_refine_map (KV 10 20) (attrs_from_iter [(VALUE, 5); (plain_string (B "a"), 6)])).
  - apply kv_sorted.
  - apply bt_of_list_sorted.
Defined.

(** The optimised pair, a null key, and a repeated key. *)
Example construct_samples :
  construct nat_view 2 [4; 7; 3; 8] = Ok (inr (KV 8 7)) ∧
  construct nat_view 2 [0; 7; 5; 8] = Ok (inr (Map [(plain_string (B "aaaaa"), 8)])) ∧
  construct nat_view 2 [3; 7; 3; 8] = Err (DuplicateAttrsKey (B "name")).
Proof. by vm_compute. Qed.
