(* ===== verification/Value.v ===== *)
(** * [eval/src/value]: runtime values

    The value type with its lambdas, closures, upvalues, builtins and thunks
    ([value/mod.rs], [function.rs], [builtin.rs], [thunk.rs], [upvalues.rs]),
    the casts, and number arithmetic ([vm/macros.rs]).

    A thunk is the address of a cell in a heap, because forcing one changes it
    for everyone who holds it. Lists, attribute sets and closures carry the
    address of their reference-counted allocation, which pointer equality looks
    at. Floats are IEEE binary64 numbers with one NaN. The values of
    [serde_json] that the JSON generator passes around are left out. *)

From stdpp Require Import strings gmap.
From Stdlib Require Import SpecFloat.
From S2P Require Import Prelude BTreeMap NixString NixAttrs Bytecode.
#[local] Open Scope Z_scope.

(** [codemap::Span]: a range of positions in the source text. *)
Record Span := mkSpan { low : Z; high : Z }.
#[global] Instance Span_eq_dec : EqDecision Span.
Proof. solve_decision. Defined.

(** ** Data *)

Record CoercionKind := mkCoercionKind { strong : bool; import_paths : bool }.

(** [From<CoercionKind> for u8] and back *)
Definition coercion_to_u8 (k : CoercionKind) : Z :=
  Z.lor (Z.b2z (strong k)) (Z.shiftl (Z.b2z (import_paths k)) 1).
Definition coercion_of_u8 (b : Z) : CoercionKind :=
  mkCoercionKind (negb (Z.land b 0x01 =? 0)) (negb (Z.land b 0x02 =? 0)).

Inductive CatchableErrorKind :=
| Throw (s : bytes)
| AssertionFailed
| UnimplementedFeature (s : bytes)
| NixPathResolution (s : bytes).

(** Whether an argument has a default. *)
Record Formals := mkFormals {
  arguments : list (NixString * bool);
  ellipsis : bool;
  formals_span : Span;
  formals_name : option bytes;
}.

Definition formals_contains (f : Formals) (arg : bytes) : bool :=
  ellipsis f || match bt_get (plain_string arg) (arguments f) with Some _ => true | None => false end.

Record Lambda (V : Type) := mkLambda {
  chunk : @Chunk.Chunk V Span;
  name : option bytes;
  upvalue_count : nat;
  formals : option Formals;
}.
Arguments mkLambda {V} _ _ _ _.
Arguments chunk {V} _.
Arguments name {V} _.
Arguments upvalue_count {V} _.
Arguments formals {V} _.

Definition Lambda_default {V} : Lambda V := mkLambda Chunk.Chunk_default None 0 None.

Record Upvalues (V : Type) := mkUpvalues {
  static_upvalues : list V;
  with_stack : option (list V);
}.
Arguments mkUpvalues {V} _ _.
Arguments static_upvalues {V} _.
Arguments with_stack {V} _.

(** [Upvalues::with_capacity] *)
Definition no_upvalues {V} : Upvalues V := mkUpvalues [] None.

Record Closure (V : Type) := mkClosure {
  closure_lambda : Lambda V;
  closure_upvalues : Upvalues V;
}.
Arguments mkClosure {V} _ _.
Arguments closure_lambda {V} _.
Arguments closure_upvalues {V} _.

(** The function of a builtin is known by the builtin's name. *)
Record BuiltinRepr (V : Type) := mkBuiltin {
  builtin_name : bytes;
  arg_count : nat;
  partials : list V;
}.
Arguments mkBuiltin {V} _ _ _.
Arguments builtin_name {V} _.
Arguments arg_count {V} _.
Arguments partials {V} _.

(** Addresses of thunks, and of the allocations of lists, sets and closures. *)
Abbreviation Addr := nat.

Inductive Value :=
| VNull
| VBool (b : bool)
| VInteger (i : Z)
| VFloat (f : spec_float)
| VString (s : NixString)
| VPath (p : bytes)
| VAttrs (rc : Addr) (a : AttrsRep Value)
| VList (rc : Addr) (l : list Value)
| VClosure (rc : Addr) (c : Closure Value)
| VBuiltin (b : BuiltinRepr Value)
| VThunk (t : Addr)
| VAttrNotFound
| VBlueprint (l : Lambda Value)
| VDeferredUpvalue (idx : nat)
| VUnresolvedPath (p : bytes)
| VFinaliseRequest (b : bool)
| VCatchable (c : CatchableErrorKind).

(** The errors the modelled operations raise. *)
Inductive ErrorKind :=
| DivisionByZero
| DuplicateAttrsKey (key : bytes)
| InvalidAttributeName (v : Value)
| AttributeNotFound (name : bytes)
| TypeError (expected actual : bytes)
| Incomparable (lhs rhs : bytes)
| UnknownDynamicVariable (name : bytes)
| NotCallable (type : bytes)
| InfiniteRecursion (first_force : Span) (suspended_at content_span : option Span)
| NotCoercibleToString (from : bytes) (kind : CoercionKind)
| UnexpectedArgumentFormals (arg : NixString) (formals_span : Span)
| TvixBug (msg : bytes)
| Abort (message : bytes)
| IndexOutOfBounds (index : Z)
| TailEmptyList
| NotAnAbsolutePath (p : bytes)
| Utf8
| NotImplemented (what : bytes)
| UnknownHashType (algo : bytes)
| WithContext (context : bytes) (underlying : ErrorKind)
| OtherError (e : bytes).

(** ** Thunks *)

(** The function of a native thunk is known by a number. *)
Inductive ThunkRepr :=
| Suspended (lambda : Lambda Value) (upvalues : Upvalues Value) (span : Span)
| Native (f : nat)
| Blackhole (forced_at : Span) (suspended_at content_span : option Span)
| Evaluated (v : Value).

Definition Heap : Type := gmap Addr ThunkRepr.

Definition repr_is_forced (r : ThunkRepr) : bool :=
  match r with
  | Evaluated (VThunk _) => false
  | Evaluated _ => true
  | _ => false
  end.

(** [Thunk::value] *)
Definition thunk_value {E} (h : Heap) (t : Addr) : outcome E Value :=
  match h !! t with
  | Some (Evaluated v) => Ok v
  | _ => Panic
  end.

(** ** Casts *)

Definition type_of (v : Value) : bytes :=
  match v with
  | VNull => B "null"
  | VBool _ => B "bool"
  | VInteger _ => B "int"
  | VFloat _ => B "float"
  | VString _ => B "string"
  | VPath _ => B "path"
  | VAttrs _ _ => B "set"
  | VList _ _ => B "list"
  | VClosure _ _ | VBuiltin _ => B "lambda"
  | VThunk _ => B "internal[thunk]"
  | VAttrNotFound => B "internal[attr_not_found]"
  | VBlueprint _ => B "internal[blueprint]"
  | VDeferredUpvalue _ => B "internal[deferred_upvalue]"
  | VUnresolvedPath _ => B "internal[unresolved_path]"
  | VFinaliseRequest _ => B "internal[finaliser_sentinel]"
  | VCatchable _ => B "internal[catchable]"
  end.

Definition type_error (expected : bytes) (v : Value) : ErrorKind := TypeError expected (type_of v).

Section Casts.
Context (h : Heap).

(** [gen_cast!]: a thunk is looked through. Thunks of thunks are followed by
    the number of cells there are, which bounds an acyclic chain. *)
Fixpoint cast_fuel {A} (fuel : nat) (expected : bytes) (sel : Value → option A) (v : Value)
    : outcome ErrorKind A :=
  match sel v with
  | Some a => Ok a
  | None =>
      match v with
      | VThunk t =>
          match fuel with
          | 0%nat => Panic
          | S fuel => let? v := thunk_value h t in cast_fuel fuel expected sel v
          end
      | other => Err (type_error expected other)
      end
  end.

Definition cast {A} (expected : bytes) (sel : Value → option A) (v : Value) : outcome ErrorKind A :=
  cast_fuel (size h) expected sel v.

Definition as_bool : Value → outcome ErrorKind bool :=
  cast (B "bool") (λ v, match v with VBool b => Some b | _ => None end).
Definition as_int : Value → outcome ErrorKind Z :=
  cast (B "int") (λ v, match v with VInteger i => Some i | _ => None end).
Definition as_float : Value → outcome ErrorKind spec_float :=
  cast (B "float") (λ v, match v with VFloat f => Some f | _ => None end).
Definition as_closure : Value → outcome ErrorKind (Closure Value) :=
  cast (B "lambda") (λ v, match v with VClosure _ c => Some c | _ => None end).
Definition to_str : Value → outcome ErrorKind NixString :=
  cast (B "contextless strings")
    (λ v, match v with VString s => if has_context s then None else Some s | _ => None end).
Definition to_contextful_str : Value → outcome ErrorKind NixString :=
  cast (B "contextful string") (λ v, match v with VString s => Some s | _ => None end).
Definition to_attrs : Value → outcome ErrorKind (Addr * AttrsRep Value) :=
  cast (B "set") (λ v, match v with VAttrs rc a => Some (rc, a) | _ => None end).
Definition to_list : Value → outcome ErrorKind (Addr * list Value) :=
  cast (B "list") (λ v, match v with VList rc l => Some (rc, l) | _ => None end).

(** [gen_is!] *)
Fixpoint is_fuel (fuel : nat) (p : Value → bool) (v : Value) : outcome ErrorKind bool :=
  if p v then Ok true
  else match v with
       | VThunk t =>
           match fuel with
           | 0%nat => Panic
           | S fuel => let? v := thunk_value h t in is_fuel fuel p v
           end
       | _ => Ok false
       end.

Definition is_ (p : Value → bool) (v : Value) : outcome ErrorKind bool := is_fuel (size h) p v.

Definition is_number : Value → outcome ErrorKind bool :=
  is_ (λ v, match v with VInteger _ | VFloat _ => true | _ => false end).
Definition is_bool : Value → outcome ErrorKind bool :=
  is_ (λ v, match v with VBool _ => true | _ => false end).
Definition is_attrs : Value → outcome ErrorKind bool :=
  is_ (λ v, match v with VAttrs _ _ => true | _ => false end).
Definition is_path : Value → outcome ErrorKind bool :=
  is_ (λ v, match v with VPath _ => true | _ => false end).
Definition is_catchable : Value → outcome ErrorKind bool :=
  is_ (λ v, match v with VCatchable _ => true | _ => false end).

End Casts.

(** ** Numbers *)

Definition f64_add : spec_float → spec_float → spec_float := SFadd 53 1024.
Definition f64_sub : spec_float → spec_float → spec_float := SFsub 53 1024.
Definition f64_mul : spec_float → spec_float → spec_float := SFmul 53 1024.
Definition f64_div : spec_float → spec_float → spec_float := SFdiv 53 1024.

(** [i as f64] *)
Definition f64_of_i64 (i : Z) : spec_float := binary_normalize 53 1024 i 0 false.

(** [f64::total_cmp], a NaN being positive. *)
Definition f64_rank (f : spec_float) : Z :=
  match f with
  | S754_nan => 3
  | S754_infinity false => 2
  | S754_infinity true => -2
  | S754_zero true => -1
  | S754_zero false => 0
  | S754_finite true _ _ => -1
  | S754_finite false _ _ => 1
  end.

Definition f64_total_cmp (a b : spec_float) : comparison :=
  match a, b with
  | S754_finite _ _ _, S754_finite _ _ _ =>
      match SFcompare a b with Some c => c | None => Eq end
  | S754_zero true, S754_finite true _ _ => Gt
  | S754_finite true _ _, S754_zero true => Lt
  | _, _ => f64_rank a ?= f64_rank b
  end.

Definition i64_min : Z := - 2 ^ 63.
Definition i64_wrap (z : Z) : Z := (z + 2 ^ 63) mod 2 ^ 64 - 2 ^ 63.
Definition in_i64 (z : Z) : bool := (i64_min <=? z) && (z <? 2 ^ 63).

(** [+], [-], [*] and unary [-] on [i64]: overflow checks decide between a
    panic and wrapping. *)
Definition i64_result {E} (dbg : bool) (z : Z) : outcome E Z :=
  if in_i64 z then Ok z else if dbg then Panic else Ok (i64_wrap z).

(** [/] on [i64] by a number that is not 0: [i64::MIN / -1] always panics. *)
Definition i64_div {E} (a b : Z) : outcome E Z :=
  if in_i64 (Z.quot a b) then Ok (Z.quot a b) else Panic.

Inductive ArithOp := OAdd | OSub | OMul | ODiv.

Definition i64_op {E} (dbg : bool) (op : ArithOp) (a b : Z) : outcome E Z :=
  match op with
  | OAdd => i64_result dbg (a + b)
  | OSub => i64_result dbg (a - b)
  | OMul => i64_result dbg (a * b)
  | ODiv => if b =? 0 then Panic else i64_div a b
  end.

Definition f64_op (op : ArithOp) (a b : spec_float) : spec_float :=
  match op with
  | OAdd => f64_add a b
  | OSub => f64_sub a b
  | OMul => f64_mul a b
  | ODiv => f64_div a b
  end.

(** [arithmetic_op!] *)
Definition arithmetic_op (dbg : bool) (h : Heap) (op : ArithOp) (a b : Value) : outcome ErrorKind Value :=
  match a, b with
  | VInteger i1, VInteger i2 => let? z := i64_op dbg op i1 i2 in Ok (VInteger z)
  | VFloat f1, VFloat f2 => Ok (VFloat (f64_op op f1 f2))
  | VInteger i1, VFloat f2 => Ok (VFloat (f64_op op (f64_of_i64 i1) f2))
  | VFloat f1, VInteger i2 => Ok (VFloat (f64_op op f1 (f64_of_i64 i2)))
  | v1, v2 =>
      let? n := is_number h v1 in
      Err (TypeError (B "number (either int or float)") (if n : bool then type_of v2 else type_of v1))
  end.
