(* ===== verification/Compiler.v ===== *)
(** * [eval/src/compiler]: from syntax trees to bytecode

    The state of the compiler, what it emits, identifier access and the
    expression forms without bindings ([compiler/mod.rs], the identifier access
    of [bindings.rs]). The syntax tree is what [rnix] gives to the compiler, a
    node carrying its span and strings their normalised parts.

    The compiler is a state monad over its fields; the thunks and closures it
    allocates for constants live in the heap the virtual machine goes on with. *)

From stdpp Require Import strings gmap.
From Stdlib Require Import SpecFloat.
From S2P Require Import Prelude BTreeMap NixString NixAttrs Bytecode Scope Value.
Import Opcode.
#[local] Open Scope nat_scope.

(** ** Syntax trees *)

Inductive LiteralKind :=
| LFloat (f : spec_float)
| LInteger (v : option Z)
| LUri (s : bytes).

Inductive UnaryOpKind := Invert | Negate.

Inductive BinOpKind :=
| Concat | Update | Add | Sub | Mul | Div | And | Equal | Implication | Less | LessOrEq | More
| MoreOrEq | NotEqual | Or.

#[global] Instance BinOpKind_eq_dec : EqDecision BinOpKind.
Proof. solve_decision. Defined.

(** Parts of strings and fragments of attribute paths, over any expressions. *)
Inductive InterpolPart (E : Type) :=
| PLiteral (s : bytes)
| PInterpolation (sp : Span) (e : E).
Arguments PLiteral {E} _.
Arguments PInterpolation {E} _ _.

Inductive Attr (E : Type) :=
| ADynamic (sp : Span) (e : E)
| AStr (sp : Span) (parts : list (InterpolPart E))
| AIdent (sp : Span) (ident : bytes).
Arguments ADynamic {E} _ _.
Arguments AStr {E} _ _.
Arguments AIdent {E} _ _.

(** [inherit (from) attrs;] and [path = value;] *)
Inductive Inherit (E : Type) := mkInherit (sp : Span) (from : option E) (attrs : list (Attr E)).
Arguments mkInherit {E} _ _ _.

Inductive AttrpathValue (E : Type) := mkEntry (sp : Span) (path : list (Attr E)) (value : E).
Arguments mkEntry {E} _ _ _.

(** A parameter: an identifier, or a pattern with the name of the whole set, the
    names and defaults in it, and whether it ends in an ellipsis. *)
Inductive PatEntry (E : Type) := mkPatEntry (ident_sp : Span) (ident : bytes) (default : option E).
Arguments mkPatEntry {E} _ _ _.

Inductive Param (E : Type) :=
| PIdent (sp : Span) (ident : bytes)
| PPattern (sp : Span) (bind : option (Span * bytes)) (entries : list (PatEntry E)) (ellipsis : bool).
Arguments PIdent {E} _ _.
Arguments PPattern {E} _ _ _ _.

Inductive Expr :=
| ELiteral (sp : Span) (l : LiteralKind)
| EStr (sp : Span) (parts : list (InterpolPart Expr))
| EUnaryOp (sp : Span) (op : UnaryOpKind) (e : Expr)
| EBinOp (sp : Span) (op : BinOpKind) (lhs rhs : Expr)
| EHasAttr (sp : Span) (e : Expr) (path : list (Attr Expr))
| EList (sp : Span) (items : list Expr)
| ESelect (sp : Span) (set : Expr) (path_sp : Span) (path : list (Attr Expr)) (default : option Expr)
| EAssert (sp : Span) (condition body : Expr)
| EIfElse (sp : Span) (condition body else_body : Expr)
| EIdent (sp : Span) (ident : bytes)
| EWith (sp : Span) (namespace body : Expr)
| ELambda (sp : Span) (param : Param Expr) (body : Expr)
| EApply (sp : Span) (lambda argument : Expr)
| EParen (sp : Span) (e : Expr)
| EPath (sp : Span) (raw_path : bytes)
| EAttrSet (sp : Span) (is_rec : bool) (inherits : list (Inherit Expr)) (entries : list (AttrpathValue Expr))
| ELetIn (sp : Span) (inherits : list (Inherit Expr)) (entries : list (AttrpathValue Expr)) (body : Expr)
| ELegacyLet (sp : Span) (inherits : list (Inherit Expr)) (entries : list (AttrpathValue Expr)).

Definition span_of (e : Expr) : Span :=
  match e with
  | ELiteral sp _ | EStr sp _ | EUnaryOp sp _ _ | EBinOp sp _ _ _ | EHasAttr sp _ _ | EList sp _
  | ESelect sp _ _ _ _ | EAssert sp _ _ | EIfElse sp _ _ _ | EIdent sp _ | EWith sp _ _
  | ELambda sp _ _ | EApply sp _ _ | EParen sp _ | EPath sp _ | EAttrSet sp _ _ _ | ELetIn sp _ _ _
  | ELegacyLet sp _ _ => sp
  end.

Definition attr_span {E} (a : Attr E) : Span :=
  match a with ADynamic sp _ | AStr sp _ | AIdent sp _ => sp end.

Definition part_map {E F} (f : E → F) (p : InterpolPart E) : InterpolPart F :=
  match p with
  | PLiteral s => PLiteral s
  | PInterpolation sp e => PInterpolation sp (f e)
  end.

Definition attr_map {E F} (f : E → F) (a : Attr E) : Attr F :=
  match a with
  | ADynamic sp e => ADynamic sp (f e)
  | AStr sp parts => AStr sp (map (part_map f) parts)
  | AIdent sp i => AIdent sp i
  end.

Definition inherit_map {E F} (f : E → F) (i : Inherit E) : Inherit F :=
  match i with mkInherit sp from attrs => mkInherit sp (option_map f from) (map (attr_map f) attrs) end.

Definition entry_map {E F} (f : E → F) (e : AttrpathValue E) : AttrpathValue F :=
  match e with mkEntry sp path value => mkEntry sp (map (attr_map f) path) (f value) end.

Definition pat_map {E F} (f : E → F) (e : PatEntry E) : PatEntry F :=
  match e with mkPatEntry sp ident default => mkPatEntry sp ident (option_map f default) end.

Definition param_map {E F} (f : E → F) (p : Param E) : Param F :=
  match p with
  | PIdent sp ident => PIdent sp ident
  | PPattern sp bind entries ellipsis => PPattern sp bind (map (pat_map f) entries) ellipsis
  end.

(** [expr_static_str] and [expr_static_attr_str] *)
Definition expr_static_str {E} (parts : list (InterpolPart E)) : option bytes :=
  match parts with [PLiteral lit] => Some lit | _ => None end.

Definition expr_static_attr_str (a : Attr Expr) : option bytes :=
  match a with
  | AIdent _ ident => Some ident
  | AStr _ parts => expr_static_str parts
  | ADynamic _ (EStr _ parts) => expr_static_str parts
  | ADynamic _ _ => None
  end.

(** ** The compiler's state *)

Inductive WarningKind :=
| DeprecatedLiteralURL
| UnusedBinding
| ShadowedGlobal (name : bytes)
| UselessBoolOperation (msg : bytes)
| EmptyInherit | UselessInherit | EmptyLet | DeprecatedLegacyLet.

Inductive CompileError :=
| ParseIntError
| UnknownStaticVariable
| VariableAlreadyDefined (other : option Span)
| DynamicKeyInScope (what : bytes)
| UnmergeableInherit (name : bytes)
| UnmergeableValue.

Record LambdaCtx := mkLambdaCtx {
  lambda : Lambda Value;
  scope : Scope Span;
  captures_with_stack : bool;
}.

(** [next] is the next free address. *)
Record Compiler := mkCompiler {
  contexts : list LambdaCtx;
  warnings : list (WarningKind * Span);
  errors : list (CompileError * Span);
  dead_scope : Z;
  heap : Heap;
  next : Addr;
}.

Definition Scope_default : Scope Span := mkScope [] [] ∅ 0 0.

Definition LambdaCtx_new : LambdaCtx := mkLambdaCtx Lambda_default Scope_default false.

Definition LambdaCtx_inherit (c : LambdaCtx) : LambdaCtx :=
  mkLambdaCtx Lambda_default (inherit (scope c)) false.

(** ** The monad: panics are the only failure *)

Definition M (A : Type) : Type := Compiler → outcome Empty_set (A * Compiler).

Definition mret {A} (a : A) : M A := λ c, Ok (a, c).
Definition mbind_ {A B} (m : M A) (f : A → M B) : M B :=
  λ c, let? (a, c) := m c in f a c.
Definition mpanic {A} : M A := λ _, Panic.
Definition mlift {A} (o : outcome Empty_set A) : M A := λ c, let? a := o in Ok (a, c).

Declare Scope compile_scope.
Delimit Scope compile_scope with compile.
Notation "'let!' x ':=' m 'in' k" := (mbind_ m (fun x => k))
  (at level 10, x pattern, m at level 100, k at level 200) : compile_scope.
Notation "m ';;;' k" := (mbind_ m (fun _ => k))
  (at level 100, k at level 200, right associativity) : compile_scope.
#[local] Open Scope compile_scope.

(** Code that is compiled to a slot. *)
Abbreviation Code := (nat → M unit).

(** [context], [context_mut]: the last of the contexts. *)
Definition get_context : M LambdaCtx := λ c, let? x := or_panic (last (contexts c)) in Ok (x, c).

Definition set_contexts (xs : list LambdaCtx) (c : Compiler) : Compiler :=
  mkCompiler xs (warnings c) (errors c) (dead_scope c) (heap c) (next c).

Definition put_context (x : LambdaCtx) : M unit :=
  λ c, match contexts c with
       | [] => Panic
       | _ => Ok (tt, set_contexts (take (length (contexts c) - 1) (contexts c) ++ [x]) c)
       end.

Definition get_chunk : M (@Chunk.Chunk Value Span) :=
  let! x := get_context in mret (chunk (lambda x)).

Definition set_chunk (l : Lambda Value) (ch : @Chunk.Chunk Value Span) : Lambda Value :=
  mkLambda ch (Value.name l) (upvalue_count l) (formals l).

Definition put_chunk (ch : @Chunk.Chunk Value Span) : M unit :=
  let! x := get_context in
  put_context (mkLambdaCtx (set_chunk (lambda x) ch) (scope x) (captures_with_stack x)).

Definition get_scope : M (Scope Span) := let! x := get_context in mret (scope x).
Definition put_scope (s : Scope Span) : M unit :=
  let! x := get_context in put_context (mkLambdaCtx (lambda x) s (captures_with_stack x)).

Definition is_dead : M bool := λ c, Ok ((0 <? dead_scope c)%Z, c).
Definition set_dead (f : Z → Z) : M unit :=
  λ c, Ok (tt, mkCompiler (contexts c) (warnings c) (errors c) (f (dead_scope c)) (heap c) (next c)).

Definition emit_warning (sp : Span) (k : WarningKind) : M unit :=
  λ c, Ok (tt, mkCompiler (contexts c) (warnings c ++ [(k, sp)]) (errors c) (dead_scope c) (heap c) (next c)).
Definition emit_error (sp : Span) (k : CompileError) : M unit :=
  λ c, Ok (tt, mkCompiler (contexts c) (warnings c) (errors c ++ [(k, sp)]) (dead_scope c) (heap c) (next c)).

(** [Thunk::new_suspended], and a fresh address for an [Rc]. *)
Definition alloc_thunk (r : ThunkRepr) : M Addr :=
  λ c, Ok (next c, mkCompiler (contexts c) (warnings c) (errors c) (dead_scope c)
                     (<[next c := r]> (heap c)) (S (next c))).
Definition alloc_rc : M Addr :=
  λ c, Ok (next c, mkCompiler (contexts c) (warnings c) (errors c) (dead_scope c) (heap c) (S (next c))).


Section Compile.
Context `{!Vu128}.
(** The build profile, and the global identifiers. *)
Context (dbg : bool) (globals : gmap bytes Value).

(** ** Emitting code *)

Definition push_op (op : Op) (sp : Span) : M nat :=
  let! dead := is_dead in
  if dead : bool then mret 0
  else let! ch := get_chunk in
       let '(ch, idx) := Chunk.push_op ch op sp in
       put_chunk ch;;; mret idx.

Definition push_u8 (data : Z) : M unit :=
  let! dead := is_dead in
  if dead : bool then mret tt
  else let! ch := get_chunk in put_chunk (Chunk.set_code ch (Chunk.code ch ++ [z2b data])).

Definition push_uvarint (data : Z) : M unit :=
  let! dead := is_dead in
  if dead : bool then mret tt
  else let! ch := get_chunk in put_chunk (Chunk.push_uvarint ch data).

Definition push_u16 (data : Z) : M unit :=
  let! dead := is_dead in
  if dead : bool then mret tt
  else let! ch := get_chunk in put_chunk (Chunk.push_u16 ch data).

Definition push_constant (v : Value) : M nat :=
  let! ch := get_chunk in
  let '(ch, idx) := Chunk.push_constant ch v in
  put_chunk ch;;; mret idx.

Definition emit_constant (v : Value) (sp : Span) : M unit :=
  let! dead := is_dead in
  if dead : bool then mret tt
  else let! idx := push_constant v in
       push_op OpConstant sp;;;
       push_uvarint (Z.of_nat idx).

Definition emit_force (sp : Span) : M unit := push_op OpForce sp;;; mret tt.

Definition emit_literal_ident (ident : bytes) (sp : Span) : M unit :=
  emit_constant (VString (plain_string ident)) sp.

(** Not guarded against dead code. *)
Definition patch_jump (idx : nat) : M unit :=
  let! ch := get_chunk in
  let! ch := mlift (Chunk.patch_jump ch idx) in
  put_chunk ch.

(** A jump with a placeholder for its distance. *)
Definition push_jump (op : Op) (sp : Span) : M nat :=
  let! idx := push_op op sp in push_u16 0;;; mret idx.

(** ** Scopes *)

Definition on_scope {A} (f : Scope Span → outcome Empty_set (A * Scope Span)) : M A :=
  let! s := get_scope in
  let! (a, s) := mlift (f s) in
  put_scope s;;; mret a.

Definition m_declare_phantom (sp : Span) (init : bool) : M nat :=
  on_scope (λ s, let '(s, idx) := declare_phantom s sp init in Ok (idx, s)).
Definition m_begin_scope : M unit := on_scope (λ s, Ok (tt, begin_scope s)).
Definition m_end_scope : M (nat * list Span) :=
  on_scope (λ s, let? (s, pops, unused) := end_scope dbg s in Ok ((pops, unused), s)).
Definition m_mark_initialised (idx : nat) : M unit :=
  on_scope (λ s, let? s := mark_initialised s idx in Ok (tt, s)).
Definition m_mark_needs_finaliser (idx : nat) : M unit :=
  on_scope (λ s, let? s := mark_needs_finaliser s idx in Ok (tt, s)).
Definition m_mark_must_thunk (idx : nat) : M unit :=
  on_scope (λ s, let? s := mark_must_thunk s idx in Ok (tt, s)).
Definition m_resolve_local (n : bytes) : M LocalPosition := on_scope (λ s, resolve_local s n).
Definition m_stack_index (idx : nat) : M nat := on_scope (λ s, let? i := Scope.stack_index s idx in Ok (i, s)).

(** [self.scope()[idx]] *)
Definition m_local (idx : nat) : M (Local Span) :=
  on_scope (λ s, let? l := or_panic (locals s !! idx) in Ok (l, s)).

Fixpoint emit_warnings (sps : list Span) (k : WarningKind) : M unit :=
  match sps with
  | [] => mret tt
  | sp :: sps => emit_warning sp k;;; emit_warnings sps k
  end.

Definition cleanup_scope (sp : Span) : M unit :=
  let! (popcount, unused_spans) := m_end_scope in
  emit_warnings unused_spans UnusedBinding;;;
  if (0 <? popcount) then push_op OpCloseScope sp;;; push_uvarint (Z.of_nat popcount) else mret tt.

Definition m_declare_local (sp : Span) (n : bytes) : M nat :=
  let! s := get_scope in
  let depth := scope_depth s in
  (match globals !! n with Some _ => emit_warning sp (ShadowedGlobal n) | None => mret tt end);;;
  let! (idx, shadowed) := on_scope (λ s, let? (s, idx, shadowed) := declare_local s n sp in Ok ((idx, shadowed), s)) in
  match shadowed with
  | Some shadow_idx =>
      let! other := m_local shadow_idx in
      (if (Scope.depth other =? depth)%Z then emit_error sp (VariableAlreadyDefined (Scope.span other))
       else mret tt);;;
      mret idx
  | None => mret idx
  end.

(** ** Contexts *)

Definition new_context : M unit :=
  λ c, let? x := or_panic (last (contexts c)) in
       Ok (tt, set_contexts (contexts c ++ [LambdaCtx_inherit x]) c).

Definition pop_context : M LambdaCtx :=
  λ c, let? x := or_panic (last (contexts c)) in
       Ok (x, set_contexts (take (length (contexts c) - 1) (contexts c)) c).

Definition set_name (n : option bytes) : M unit :=
  let! x := get_context in
  let l := lambda x in
  put_context (mkLambdaCtx (mkLambda (chunk l) n (upvalue_count l) (formals l)) (scope x) (captures_with_stack x)).

Definition set_captures_with_stack : M unit :=
  let! x := get_context in put_context (mkLambdaCtx (lambda x) (scope x) true).

(** [has_dynamic_ancestor], over the contexts from the outermost. *)
Fixpoint mark_captures (ancestor_has_with : bool) (xs : list LambdaCtx) : bool * list LambdaCtx :=
  match xs with
  | [] => (ancestor_has_with, [])
  | x :: xs =>
      if ancestor_has_with then
        let '(r, xs) := mark_captures true xs in
        (r, mkLambdaCtx (lambda x) (scope x) true :: xs)
      else
        let '(r, xs) := mark_captures (has_with (scope x)) xs in (r, x :: xs)
  end.

Definition has_dynamic_ancestor : M bool :=
  λ c, let '(r, xs) := mark_captures false (contexts c) in Ok (r, set_contexts xs c).

(** *** Upvalues *)

Definition get_ctx (idx : nat) : M LambdaCtx :=
  λ c, let? x := or_panic (contexts c !! idx) in Ok (x, c).
Definition put_ctx (idx : nat) (x : LambdaCtx) : M unit :=
  λ c, if idx <? length (contexts c) then Ok (tt, set_contexts (<[idx := x]> (contexts c)) c) else Panic.

Definition add_upvalue (ctx_idx : nat) (kind : UpvalueKind) : M nat :=
  let! x := get_ctx ctx_idx in
  match find_upvalue 0 kind (Scope.upvalues (scope x)) with
  | Some idx => mret idx
  | None =>
      let s := push_upvalue (scope x) kind in
      let l := lambda x in
      let idx := upvalue_count l in
      put_ctx ctx_idx (mkLambdaCtx (mkLambda (chunk l) (Value.name l) (S idx) (formals l)) s (captures_with_stack x));;;
      mret idx
  end.

Fixpoint resolve_upvalue (ctx_idx : nat) (n : bytes) : M (option nat) :=
  match ctx_idx with
  | 0 => mret None
  | S parent =>
      let! x := get_ctx parent in
      let! (pos, s) := mlift (resolve_local (scope x) n) in
      put_ctx parent (mkLambdaCtx (lambda x) s (captures_with_stack x));;;
      match pos with
      | Known idx | Recursive idx =>
          let! idx := add_upvalue ctx_idx (UpLocal idx) in mret (Some idx)
      | Unknown =>
          let! r := resolve_upvalue parent n in
          match r with
          | Some idx => let! idx := add_upvalue ctx_idx (UpUpvalue idx) in mret (Some idx)
          | None => mret None
          end
      end
  end.

Definition last_ctx : M nat := λ c, if length (contexts c) =? 0 then Panic else Ok (length (contexts c) - 1, c).

Fixpoint emit_upvalues (slot : nat) (us : list UpvalueKind) : M unit :=
  match us with
  | [] => mret tt
  | UpLocal idx :: us =>
      let! target := m_local idx in
      let! stack_idx := m_stack_index idx in
      (if negb (initialised target) then
         push_uvarint (Opcode.deferred_local (Z.of_nat stack_idx));;; m_mark_needs_finaliser slot
       else
         (if slot =? idx then m_mark_must_thunk slot else mret tt);;;
         push_uvarint (Opcode.stack_index (Z.of_nat stack_idx)));;;
      emit_upvalues slot us
  | UpUpvalue idx :: us => push_uvarint (Opcode.upvalue_index (Z.of_nat idx));;; emit_upvalues slot us
  end.

Definition emit_upvalue_data (slot : nat) (us : list UpvalueKind) (capture_with : bool) : M unit :=
  let count := Z.shiftl (Z.of_nat (length us)) 1 in
  push_uvarint (if capture_with then Z.lor count 1 else count);;;
  emit_upvalues slot us.

(** ** Thunks and closures *)

Definition set_code_at (idx : nat) (op : Op) : M unit :=
  let! ch := get_chunk in
  if idx <? length (Chunk.code ch)
  then put_chunk (Chunk.set_code ch (<[idx := z2b (as_u8 op)]> (Chunk.code ch)))
  else mpanic.

Definition compile_lambda_or_thunk (is_suspended_thunk : bool) (outer_slot : nat) (sp : Span)
    (content : nat → M (option nat)) : M unit :=
  let! outer := m_local outer_slot in
  new_context;;;
  set_name (local_name outer);;;
  let! slot := m_declare_phantom sp false in
  m_begin_scope;;;
  let! throw_idx := content slot in
  cleanup_scope sp;;;
  (match throw_idx with Some throw_idx => patch_jump throw_idx | None => mret tt end);;;
  let! compiled := pop_context in
  let l := lambda compiled in
  let l := set_chunk l (Chunk.push_op (chunk l) OpReturn sp).1 in
  if (upvalue_count l =? 0) && negb (captures_with_stack compiled) then
    if is_suspended_thunk then
      let! t := alloc_thunk (Suspended l no_upvalues sp) in emit_constant (VThunk t) sp
    else
      let! rc := alloc_rc in emit_constant (VClosure rc (mkClosure l no_upvalues)) sp
  else
    let! blueprint_idx := push_constant (VBlueprint l) in
    let! code_idx := push_op (if is_suspended_thunk then OpThunkSuspended else OpThunkClosure) sp in
    push_uvarint (Z.of_nat blueprint_idx);;;
    emit_upvalue_data outer_slot (Scope.upvalues (scope compiled)) (captures_with_stack compiled);;;
    if is_suspended_thunk then mret tt
    else
      let! outer := m_local outer_slot in
      if needs_finaliser outer then mret tt
      else if negb (must_thunk outer) then set_code_at code_idx OpClosure
      else if dbg then
        push_op OpFinalise sp;;;
        let! stack_idx := m_stack_index outer_slot in
        push_uvarint (Z.of_nat stack_idx)
      else mret tt.

Definition thunk (outer_slot : nat) (sp : Span) (content : Code) : M unit :=
  compile_lambda_or_thunk true outer_slot sp (λ slot, content slot;;; mret None).

(** ** Identifiers ([bindings.rs]) *)

Definition is_user_defined (ident : bytes) : M bool :=
  let! pos := m_resolve_local ident in
  mret (match pos with Known _ | Recursive _ => true | Unknown => false end).

Definition compile_identifier_access (slot : nat) (ident : bytes) (sp : Span) : M unit :=
  let! pos := m_resolve_local ident in
  match pos with
  | Unknown =>
      let! ctx_idx := last_ctx in
      let! up := resolve_upvalue ctx_idx ident in
      match up with
      | Some idx => push_op OpGetUpvalue sp;;; push_uvarint (Z.of_nat idx)
      | None =>
          match globals !! ident with
          | Some global => emit_constant global sp
          | None =>
              let! dynamic := has_dynamic_ancestor in
              if dynamic : bool then
                thunk slot sp (λ _,
                  set_captures_with_stack;;;
                  emit_constant (VString (plain_string ident)) sp;;;
                  push_op OpResolveWith sp;;; mret tt)
              else emit_error sp UnknownStaticVariable
          end
      end
  | Known idx =>
      let! stack_idx := m_stack_index idx in
      push_op OpGetLocal sp;;; push_uvarint (Z.of_nat stack_idx)
  | Recursive idx =>
      thunk slot sp (λ _,
        let! ctx_idx := last_ctx in
        let! upvalue_idx := add_upvalue ctx_idx (UpLocal idx) in
        push_op OpGetUpvalue sp;;; push_uvarint (Z.of_nat upvalue_idx))
  end.

(** ** Expression forms

    Each takes the code of its subexpressions and their spans. *)

Definition compile_literal (sp : Span) (l : LiteralKind) : M unit :=
  match l with
  | LFloat f => emit_constant (VFloat f) sp
  | LInteger (Some v) => emit_constant (VInteger v) sp
  | LInteger None => emit_error sp ParseIntError
  | LUri u =>
      emit_warning sp DeprecatedLiteralURL;;;
      emit_constant (VString (plain_string u)) sp
  end.

(** The parts, the last one first. *)
Fixpoint compile_parts_rev (slot : nat) (sp : Span) (parts : list (InterpolPart Code)) : M unit :=
  match parts with
  | [] => mret tt
  | part :: parts =>
      compile_parts_rev slot sp parts;;;
      match part with
      | PInterpolation isp e =>
          e slot;;;
          push_op OpCoerceToString isp;;;
          push_u8 (coercion_to_u8 (mkCoercionKind false true))
      | PLiteral lit => emit_constant (VString (plain_string lit)) sp
      end
  end.

Definition compile_str_parts (slot : nat) (sp : Span) (parts : list (InterpolPart Code)) : M unit :=
  compile_parts_rev slot sp parts;;;
  if negb (length parts =? 1)
  then push_op OpInterpolate sp;;; push_uvarint (Z.of_nat (length parts))
  else mret tt.

Definition compile_str (slot : nat) (sp : Span) (parts : list (InterpolPart Code)) : M unit :=
  match parts with
  | [PLiteral _] => compile_str_parts slot sp parts
  | _ => thunk slot sp (λ s, compile_str_parts s sp parts)
  end.

Definition compile_unary_op (slot : nat) (sp : Span) (op : UnaryOpKind) (e : Code) : M unit :=
  e slot;;;
  emit_force sp;;;
  push_op (match op with Invert => OpInvert | Negate => OpNegate end) sp;;;
  mret tt.

(** The three operators that evaluate their right operand only if needed. *)
Definition compile_and (slot : nat) (sp : Span) (lhs : Code) (lsp : Span) (rhs : Code) (rsp : Span) : M unit :=
  lhs slot;;;
  emit_force lsp;;;
  let! throw_idx := push_jump OpJumpIfCatchable sp in
  let! end_idx := push_jump OpJumpIfFalse sp in
  push_op OpPop sp;;;
  rhs slot;;;
  emit_force rsp;;;
  patch_jump end_idx;;;
  push_op OpAssertBool sp;;;
  patch_jump throw_idx.

Definition compile_or (slot : nat) (sp : Span) (lhs : Code) (lsp : Span) (rhs : Code) (rsp : Span) : M unit :=
  lhs slot;;;
  emit_force lsp;;;
  let! throw_idx := push_jump OpJumpIfCatchable sp in
  let! end_idx := push_jump OpJumpIfTrue sp in
  push_op OpPop sp;;;
  rhs slot;;;
  emit_force rsp;;;
  patch_jump end_idx;;;
  push_op OpAssertBool sp;;;
  patch_jump throw_idx.

Definition compile_implication (slot : nat) (sp : Span) (lhs : Code) (lsp : Span) (rhs : Code) (rsp : Span) : M unit :=
  lhs slot;;;
  emit_force lsp;;;
  let! throw_idx := push_jump OpJumpIfCatchable sp in
  push_op OpInvert sp;;;
  let! end_idx := push_jump OpJumpIfTrue sp in
  push_op OpPop sp;;;
  rhs slot;;;
  emit_force rsp;;;
  patch_jump end_idx;;;
  push_op OpAssertBool sp;;;
  patch_jump throw_idx.

(** The instructions of the other operators. *)
Definition binop_code (op : BinOpKind) : list Op :=
  match op with
  | Add => [OpAdd]
  | Sub => [OpSub]
  | Mul => [OpMul]
  | Div => [OpDiv]
  | Update => [OpAttrsUpdate]
  | Equal => [OpEqual]
  | Less => [OpLess]
  | LessOrEq => [OpLessOrEq]
  | More => [OpMore]
  | MoreOrEq => [OpMoreOrEq]
  | Concat => [OpConcat]
  | NotEqual => [OpEqual; OpInvert]
  | And | Implication | Or => []
  end.

Fixpoint push_ops (ops : list Op) (sp : Span) : M unit :=
  match ops with
  | [] => mret tt
  | op :: ops => push_op op sp;;; push_ops ops sp
  end.

Definition compile_binop (slot : nat) (sp : Span) (op : BinOpKind) (lhs : Code) (lsp : Span) (rhs : Code)
    (rsp : Span) : M unit :=
  match op with
  | And => compile_and slot sp lhs lsp rhs rsp
  | Or => compile_or slot sp lhs lsp rhs rsp
  | Implication => compile_implication slot sp lhs lsp rhs rsp
  | _ =>
      lhs slot;;;
      emit_force lsp;;;
      rhs slot;;;
      emit_force rsp;;;
      push_ops (binop_code op) sp
  end.

Fixpoint compile_items (slot count : nat) (items : list (Span * Code)) : M nat :=
  match items with
  | [] => mret count
  | (isp, item) :: items =>
      let! item_slot := match count with 0 => mret slot | _ => m_declare_phantom isp false end in
      item item_slot;;;
      m_mark_initialised item_slot;;;
      compile_items slot (S count) items
  end.

Definition compile_list (slot : nat) (sp : Span) (items : list (Span * Code)) : M unit :=
  m_begin_scope;;;
  let! count := compile_items slot 0 items in
  push_op OpList sp;;;
  push_uvarint (Z.of_nat count);;;
  m_end_scope;;; mret tt.

Definition compile_attr (slot : nat) (a : Attr (Span * Code)) : M unit :=
  match a with
  | ADynamic _ (esp, e) => e slot;;; emit_force esp
  | AStr sp parts => compile_str slot sp (map (part_map snd) parts);;; emit_force sp
  | AIdent sp ident => emit_literal_ident ident sp
  end.

Fixpoint compile_has_attr_path (slot count : nat) (path : list (Attr (Span * Code))) : M unit :=
  match path with
  | [] => mret tt
  | fragment :: path =>
      (if 0 <? count then
         push_op OpAttrsTrySelect (attr_span fragment);;; emit_force (attr_span fragment)
       else mret tt);;;
      compile_attr slot fragment;;;
      compile_has_attr_path slot (S count) path
  end.

Definition compile_has_attr (slot : nat) (sp : Span) (e : Code) (path : list (Attr (Span * Code))) : M unit :=
  e slot;;;
  emit_force sp;;;
  compile_has_attr_path slot 0 path;;;
  push_op OpHasAttr sp;;; mret tt.

(** [optimise_select], given the static name of a path of one element. *)
Definition optimise_select (static : option bytes) : M bool :=
  let! ch := get_chunk in
  match Chunk.get_last_op ch with
  | Some (Ok OpConstant, op_idx) =>
      let! (idx, _) := mlift (Chunk.read_uvarint dbg ch (op_idx + 1)) in
      match Chunk.constants ch !! Z.to_nat idx with
      | None => mpanic
      | Some (VAttrs _ attrs) =>
          match static with
          | Some ident =>
              match select ident attrs with
              | Some selected =>
                  put_chunk (Chunk.mkChunk (Chunk.code ch) (<[Z.to_nat idx := selected]> (Chunk.constants ch))
                               (Chunk.spans ch) (Chunk.last_op ch));;;
                  mret true
              | None => mret false
              end
          | None => mret false
          end
      | Some _ => mret false
      end
  | Some (Panic, _) => mpanic
  | _ => mret false
  end.

Fixpoint compile_select_path (slot : nat) (set_sp : Span) (path : list (Attr (Span * Code))) : M unit :=
  match path with
  | [] => mret tt
  | fragment :: path =>
      emit_force set_sp;;;
      compile_attr slot fragment;;;
      push_op OpAttrsSelect (attr_span fragment);;;
      compile_select_path slot set_sp path
  end.

Fixpoint compile_select_or_path (slot : nat) (path : list (Attr (Span * Code))) : M (list nat) :=
  match path with
  | [] => mret []
  | fragment :: path =>
      emit_force (attr_span fragment);;;
      compile_attr slot fragment;;;
      push_op OpAttrsTrySelect (attr_span fragment);;;
      let! jump := push_jump OpJumpIfNotFound (attr_span fragment) in
      let! jumps := compile_select_or_path slot path in
      mret (jump :: jumps)
  end.

Fixpoint patch_jumps (jumps : list nat) : M unit :=
  match jumps with
  | [] => mret tt
  | jump :: jumps => patch_jump jump;;; patch_jumps jumps
  end.

Definition compile_select_or (slot : nat) (set : Code) (path_sp : Span) (path : list (Attr (Span * Code)))
    (static : option bytes) (default : Code) : M unit :=
  set slot;;;
  let! optimised := optimise_select static in
  if optimised : bool then mret tt
  else
    let! jumps := compile_select_or_path slot path in
    let! final_jump := push_jump OpJump path_sp in
    patch_jumps jumps;;;
    default slot;;;
    patch_jump final_jump.

Definition compile_select (slot : nat) (set : Code) (set_sp : Span) (path_sp : Span)
    (path : list (Attr (Span * Code))) (static : option bytes) (default : option Code) : M unit :=
  match default with
  | Some default => compile_select_or slot set path_sp path static default
  | None =>
      set slot;;;
      let! optimised := optimise_select static in
      if optimised : bool then mret tt else compile_select_path slot set_sp path
  end.

Definition compile_assert (slot : nat) (sp : Span) (condition : Code) (csp : Span) (body : Code) : M unit :=
  condition slot;;;
  emit_force csp;;;
  let! throw_idx := push_jump OpJumpIfCatchable sp in
  let! then_idx := push_jump OpJumpIfFalse sp in
  push_op OpPop sp;;;
  body slot;;;
  let! else_idx := push_jump OpJump sp in
  patch_jump then_idx;;;
  push_op OpPop sp;;;
  push_op OpAssertFail csp;;;
  patch_jump else_idx;;;
  patch_jump throw_idx.

Definition compile_if_else (slot : nat) (sp : Span) (condition : Code) (csp : Span) (body else_body : Code) : M unit :=
  condition slot;;;
  emit_force csp;;;
  let! throw_idx := push_jump OpJumpIfCatchable csp in
  let! then_idx := push_jump OpJumpIfFalse csp in
  push_op OpPop sp;;;
  body slot;;;
  let! else_idx := push_jump OpJump sp in
  patch_jump then_idx;;;
  push_op OpPop sp;;;
  else_body slot;;;
  patch_jump else_idx;;;
  patch_jump throw_idx.

Definition compile_with (slot : nat) (sp : Span) (namespace : Code) (nsp : Span) (body : Code) : M unit :=
  m_begin_scope;;;
  namespace slot;;;
  let! local_idx := m_declare_phantom nsp true in
  let! with_idx := m_stack_index local_idx in
  on_scope (λ s, Ok (tt, push_with s));;;
  push_op OpPushWith nsp;;;
  push_uvarint (Z.of_nat with_idx);;;
  body slot;;;
  push_op OpPopWith sp;;;
  on_scope (λ s, let? s := pop_with dbg s in Ok (tt, s));;;
  cleanup_scope sp.

Definition compile_apply (slot : nat) (sp : Span) (f : Code) (fsp : Span) (argument : Code) : M unit :=
  argument slot;;;
  f slot;;;
  emit_force fsp;;;
  push_op OpCall sp;;; mret tt.

(** ** The optimiser *)

Inductive LitBool := LBExpr | LBTrue | LBFalse.

Definition is_lit_bool (e : Expr) : LitBool :=
  match e with
  | EIdent _ ident =>
      if decide (ident = B "true") then LBTrue
      else if decide (ident = B "false") then LBFalse else LBExpr
  | _ => LBExpr
  end.

(** Which expression is compiled: the operation itself or one of its operands. *)
Inductive Optimised := Unchanged | TakeLhs | TakeRhs.

Definition compile_dead_code (slot : nat) (e : Code) : M unit :=
  set_dead (λ n, n + 1)%Z;;; e slot;;; set_dead (λ n, n - 1)%Z.

Definition useless_arm (sp : Span) (lit : bytes) : M unit :=
  emit_warning sp (UselessBoolOperation
    (B "this `" ++ lit ++ B "` has no effect on the result of the comparison")).
Definition always (sp : Span) (lit : bytes) : M unit :=
  emit_warning sp (UselessBoolOperation (B "this expression is always " ++ lit)).

Definition optimise_bin_op (slot : nat) (sp : Span) (op : BinOpKind) (lhs rhs : LitBool) (lsp rsp : Span)
    (dead_rhs : Code) : M Optimised :=
  let! t := is_user_defined (B "true") in
  let! f := if t : bool then mret true else is_user_defined (B "false") in
  if f : bool then mret Unchanged
  else match op, lhs, rhs with
       | Or, LBFalse, LBExpr => useless_arm lsp (B "false");;; mret TakeRhs
       | Or, LBExpr, LBFalse => useless_arm rsp (B "false");;; mret TakeLhs
       | And, LBTrue, LBExpr => useless_arm lsp (B "true");;; mret TakeRhs
       | And, LBExpr, LBTrue => useless_arm rsp (B "true");;; mret TakeLhs
       | Or, LBTrue, LBExpr => always sp (B "true");;; compile_dead_code slot dead_rhs;;; mret TakeLhs
       | Or, _, LBTrue => always sp (B "true");;; mret TakeRhs
       | Or, LBTrue, _ => always sp (B "true");;; mret TakeLhs
       | And, LBFalse, LBExpr => always sp (B "false");;; compile_dead_code slot dead_rhs;;; mret TakeLhs
       | And, _, LBFalse => always sp (B "false");;; mret TakeRhs
       | Or, LBFalse, _ => always sp (B "false");;; mret TakeLhs
       | _, _, _ => mret Unchanged
       end.

End Compile.
