(* ===== verification/Bindings.v ===== *)
(** * [compiler/bindings.rs]: names and what they are bound to

    [let] expressions, attribute sets with nested and merged keys, inherits,
    functions with argument patterns, and path literals. Each form takes the
    compiled subexpressions: a [Node] has the code of an expression and what
    the compiler looks at in its syntax. *)

From stdpp Require Import strings gmap.
From S2P Require Import Prelude StdPath BTreeMap NixString NixAttrs Bytecode Scope Value Compiler.
Import Opcode.
#[local] Open Scope nat_scope.
#[local] Open Scope compile_scope.

(** An expression: its code (with or without the optimiser on top), its span,
    its text if it is a plain string, and its contents if it is an attribute set. *)
Inductive Node := mkNode (code : bool → Code) (sp : Span) (str : option bytes)
  (set : option (bool * list (Inherit Node) * list (AttrpathValue Node))).

Definition node_code (n : Node) (slot : nat) : M unit := let 'mkNode code _ _ _ := n in code true slot.
Definition node_span (n : Node) : Span := let 'mkNode _ sp _ _ := n in sp.
Definition node_str (n : Node) : option bytes := let 'mkNode _ _ str _ := n in str.
Definition node_set (n : Node) : option (bool * list (Inherit Node) * list (AttrpathValue Node)) :=
  let 'mkNode _ _ _ set := n in set.

Definition attr_code (a : Attr Node) : Attr (Span * Code) := attr_map (λ n, (node_span n, node_code n)) a.

(** [expr_static_attr_str] *)
Definition static_attr (a : Attr Node) : option bytes :=
  match a with
  | AIdent _ ident => Some ident
  | AStr _ parts => expr_static_str parts
  | ADynamic _ n => node_str n
  end.

Inductive BindingsKind := KLetIn | KAttrs | KRecAttrs.
#[global] Instance BindingsKind_eq_dec : EqDecision BindingsKind.
Proof. solve_decision. Defined.

Definition is_attrs (k : BindingsKind) : bool := match k with KLetIn => false | _ => true end.
Definition kind_of (is_rec : bool) : BindingsKind := if is_rec then KRecAttrs else KAttrs.

Record AttributeSet := mkAttributeSet {
  as_span : Span;
  as_kind : BindingsKind;
  as_inherits : list (Inherit Node);
  as_entries : list (AttrpathValue Node);
}.

Inductive Binding :=
| InheritFrom (namespace : Node) (name : bytes) (sp : Span)
| Plain (expr : Node)
| BSet (s : AttributeSet).

Inductive KeySlot :=
| KeyNone (name : bytes)
| KeyStatic (slot : nat) (name : bytes)
| KeyDynamic (slot : nat) (attr : Attr Node).

Record TrackedBinding := mkTracked {
  key_slot : KeySlot;
  value_slot : nat;
  binding : Binding;
}.

(** [TrackedBinding::matches] *)
Definition matches_key (self : TrackedBinding) (key : bytes) : bool :=
  match key_slot self with
  | KeyNone name | KeyStatic _ name => bool_decide (name = key)
  | KeyDynamic _ _ => false
  end.

(** ** Merging *)

(** The case of [Binding::merge] for a set. *)
Definition merge_set (existing : AttributeSet) (sp : Span) (remaining_path : list (Attr Node)) (value : Node)
    : M AttributeSet :=
  match remaining_path with
  | _ :: _ =>
      mret (mkAttributeSet (as_span existing) (as_kind existing) (as_inherits existing)
              (as_entries existing ++ [mkEntry sp remaining_path value]))
  | [] =>
      match node_set value with
      | Some (_, inherits, entries) =>
          mret (mkAttributeSet (as_span existing) (as_kind existing) (as_inherits existing ++ inherits)
                  (as_entries existing ++ entries))
      | None => mpanic
      end
  end.

(** [Binding::merge] *)
Definition merge (self : Binding) (sp : Span) (remaining_path : list (Attr Node)) (value : Node) : M Binding :=
  match self with
  | InheritFrom _ name isp => emit_error isp (UnmergeableInherit name);;; mret self
  | Plain expr =>
      match node_set expr with
      | Some (is_rec, inherits, entries) =>
          let nested := mkAttributeSet (node_span expr) (kind_of is_rec) inherits entries in
          let! s := merge_set nested sp remaining_path value in mret (BSet s)
      | None => emit_error (node_span value) UnmergeableValue;;; mret self
      end
  | BSet existing => let! s := merge_set existing sp remaining_path value in mret (BSet s)
  end.

(** Merges into the first binding with the key. *)
Fixpoint merge_first (key : bytes) (bindings : list TrackedBinding) (sp : Span) (remaining_path : list (Attr Node))
    (value : Node) : M (bool * list TrackedBinding) :=
  match bindings with
  | [] => mret (false, [])
  | b :: bindings =>
      if matches_key b key then
        let! m := merge (binding b) sp remaining_path value in
        mret (true, mkTracked (key_slot b) (value_slot b) m :: bindings)
      else
        let! (merged, bindings) := merge_first key bindings sp remaining_path value in
        mret (merged, b :: bindings)
  end.

(** [TrackedBindings::try_merge] *)
Definition try_merge (bindings : list TrackedBinding) (sp : Span) (name : Attr Node) (remaining_path : list (Attr Node))
    (value : Node) : M (bool * list TrackedBinding) :=
  if (length remaining_path =? 0) && (match node_set value with None => true | Some _ => false end)
  then mret (false, bindings)
  else match static_attr name with
       | None => mret (false, bindings)
       | Some name => merge_first name bindings sp remaining_path value
       end.

Section Bindings.
Context `{!Vu128}.
(** The build profile and the globals; the directory paths are relative to, the
    span of the whole file, and [path_clean]'s [clean]. *)
Context (dbg : bool) (globals : gmap bytes Value).

Record Site := mkSite { root_dir : bytes; file_span : Span; clean : bytes → bytes }.
Context (site : Site).

(** ** Inherits *)

(** One name of a plain [inherit]; whether it counts as an entry. *)
Definition inherit_one (slot : nat) (kind : BindingsKind) (attr : Attr Node) : M bool :=
  match static_attr attr with
  | None => emit_error (attr_span attr) (DynamicKeyInScope (B "inherit"));;; mret false
  | Some name =>
      let! useless :=
        if bool_decide (kind = KLetIn) then
          let! pos := m_resolve_local name in mret (match pos with Known _ => true | _ => false end)
        else mret false in
      if useless : bool then emit_warning (attr_span attr) UselessInherit;;; mret false
      else
        (if is_attrs kind then
           emit_constant (VString (plain_string name)) (attr_span attr);;;
           m_declare_phantom (attr_span attr) true;;; mret tt
         else mret tt);;;
        compile_identifier_access dbg globals slot name (attr_span attr);;;
        let! idx := if bool_decide (kind = KAttrs) then m_declare_phantom (attr_span attr) false
                    else m_declare_local globals (attr_span attr) name in
        m_mark_initialised idx;;; mret true
  end.

Fixpoint inherit_all (slot : nat) (kind : BindingsKind) (attrs : list (Attr Node)) : M nat :=
  match attrs with
  | [] => mret 0
  | attr :: attrs =>
      let! counted := inherit_one slot kind attr in
      let! n := inherit_all slot kind attrs in
      mret (Nat.b2n counted + n)
  end.

(** The names of an [inherit (from)]. *)
Fixpoint inherit_from (from : Node) (attrs : list (Attr Node)) : M (list (Node * bytes * Span)) :=
  match attrs with
  | [] => mret []
  | attr :: attrs =>
      match static_attr attr with
      | None =>
          emit_error (attr_span attr) (DynamicKeyInScope (B "inherit"));;; inherit_from from attrs
      | Some name =>
          let! froms := inherit_from from attrs in mret ((from, name, attr_span attr) :: froms)
      end
  end.

(** The number of entries, and those that have a namespace to inherit from. *)
Fixpoint compile_plain_inherits (slot : nat) (kind : BindingsKind) (inherits : list (Inherit Node))
    : M (nat * list (Node * bytes * Span)) :=
  match inherits with
  | [] => mret (0, [])
  | mkInherit sp from attrs :: inherits =>
      let! (n, froms) :=
        match attrs with
        | [] => emit_warning sp EmptyInherit;;; mret (0, [])
        | _ =>
            match from with
            | None =>
                let! useless := if negb (is_attrs kind)
                                then let! d := has_dynamic_ancestor in mret (negb d) else mret false in
                if useless : bool then emit_warning sp UselessInherit;;; mret (0, [])
                else let! n := inherit_all slot kind attrs in mret (n, [])
            | Some from =>
                let! froms := inherit_from from attrs in mret (length froms, froms)
            end
        end in
      let! (n', froms') := compile_plain_inherits slot kind inherits in
      mret (n + n', froms ++ froms')
  end.

Fixpoint declare_namespaced_inherits (kind : BindingsKind) (inherit_froms : list (Node * bytes * Span))
    : M (list TrackedBinding) :=
  match inherit_froms with
  | [] => mret []
  | (from, name, sp) :: inherit_froms =>
      let! key_slot := if is_attrs kind
                       then let! slot := m_declare_phantom sp false in mret (KeyStatic slot name)
                       else mret (KeyNone name) in
      let! value_slot := match kind with
                         | KLetIn | KRecAttrs => m_declare_local globals sp name
                         | KAttrs => m_declare_phantom sp false
                         end in
      let! bindings := declare_namespaced_inherits kind inherit_froms in
      mret (mkTracked key_slot value_slot (InheritFrom from name sp) :: bindings)
  end.

(** ** Declaring *)

(** A binding of its own for [path = value]; [None] if its key is refused. *)
Definition declare_new (kind : BindingsKind) (sp : Span) (key : Attr Node) (path : list (Attr Node)) (value : Node)
    : M (option TrackedBinding) :=
  let! ks :=
    match static_attr key with
    | Some name =>
        if is_attrs kind then let! slot := m_declare_phantom (attr_span key) false in mret (Some (KeyStatic slot name))
        else mret (Some (KeyNone name))
    | None =>
        if is_attrs kind then let! slot := m_declare_phantom (attr_span key) false in mret (Some (KeyDynamic slot key))
        else emit_error (attr_span key) (DynamicKeyInScope (B "let-expression"));;; mret None
    end in
  match ks with
  | None => mret None
  | Some ks =>
      let! value_slot :=
        match kind, ks with
        | (KLetIn | KRecAttrs), (KeyNone name | KeyStatic _ name) => m_declare_local globals (attr_span key) name
        | _, _ => m_declare_phantom (attr_span key) false
        end in
      mret (Some (mkTracked ks value_slot
        (match path with
         | _ :: _ => BSet (mkAttributeSet sp KAttrs [] [mkEntry sp path value])
         | [] => Plain value
         end)))
  end.

Fixpoint declare_bindings (kind : BindingsKind) (count : nat) (bindings : list TrackedBinding)
    (entries : list (AttrpathValue Node)) : M (nat * list TrackedBinding) :=
  match entries with
  | [] => mret (count, bindings)
  | mkEntry sp path value :: entries =>
      match path with
      | [] => mpanic
      | key :: path =>
          let! (merged, bindings) := try_merge bindings sp key path value in
          if merged : bool then declare_bindings kind count bindings entries
          else
            let! b := declare_new kind sp key path value in
            declare_bindings kind (S count)
              (match b with Some b => bindings ++ [b] | None => bindings end) entries
      end
  end.

(** ** Binding *)

Definition or_file (sp : option Span) : Span := default (file_span site) sp.

Definition bind_key (k : KeySlot) : M unit :=
  match k with
  | KeyNone _ => mret tt
  | KeyStatic slot name =>
      let! l := m_local slot in
      emit_constant (VString (plain_string name)) (or_file (Scope.span l));;;
      m_mark_initialised slot
  | KeyDynamic slot attr => compile_attr dbg slot (attr_code attr);;; m_mark_initialised slot
  end.

Section BindValues.
(** [compile_bindings] for a nested set, in its thunk. *)
Context (nested : nat → AttributeSet → M unit).

Definition bind_value (b : TrackedBinding) : M unit :=
  bind_key (key_slot b);;;
  (match binding b with
   | InheritFrom namespace name sp =>
       thunk dbg (value_slot b) (node_span namespace) (λ s,
         node_code namespace s;;;
         emit_force (node_span namespace);;;
         emit_constant (VString (plain_string name)) sp;;;
         push_op OpAttrsSelect sp;;; mret tt)
   | Plain expr => node_code expr (value_slot b)
   | BSet set =>
       thunk dbg (value_slot b) (as_span set) (λ _,
         m_begin_scope;;;
         nested (value_slot b) set;;;
         m_end_scope dbg;;; mret tt)
   end);;;
  m_mark_initialised (value_slot b).

Fixpoint bind_all (bindings : list TrackedBinding) : M unit :=
  match bindings with
  | [] => mret tt
  | b :: bindings => bind_value b;;; bind_all bindings
  end.

End BindValues.

Fixpoint emit_finalisers (slots : list nat) : M unit :=
  match slots with
  | [] => mret tt
  | idx :: slots =>
      let! l := m_local idx in
      (if needs_finaliser l then
         let! stack_idx := m_stack_index idx in
         push_op OpFinalise (or_file (Scope.span l));;;
         push_uvarint (Z.of_nat stack_idx)
       else mret tt);;;
      emit_finalisers slots
  end.

(** [bind_values] *)
Definition bind_values (nested : nat → AttributeSet → M unit) (bindings : list TrackedBinding) : M unit :=
  bind_all nested bindings;;;
  emit_finalisers (value_slot <$> bindings).

(** [compile_bindings]; nested sets are those of merged keys, whose paths and
    contents get smaller, as [fuel] does. *)
Fixpoint compile_bindings (fuel : nat) (slot : nat) (kind : BindingsKind) (sp : Span)
    (inherits : list (Inherit Node)) (entries : list (AttrpathValue Node)) : M unit :=
  match fuel with
  | 0 => mpanic
  | S fuel =>
      m_begin_scope;;;
      let! (count, inherit_froms) := compile_plain_inherits slot kind inherits in
      let! bindings := declare_namespaced_inherits kind inherit_froms in
      let! (count, bindings) := declare_bindings kind count bindings entries in
      if count =? 0 then
        if is_attrs kind then
          let! rc := alloc_rc in emit_constant (VAttrs rc NixAttrs.Empty) sp
        else emit_warning sp EmptyLet
      else
        bind_values (λ s set, compile_bindings fuel s (as_kind set) (as_span set) (as_inherits set) (as_entries set)) bindings;;;
        if is_attrs kind then push_op OpAttrs sp;;; push_uvarint (Z.of_nat count) else mret tt
  end.

(** ** Sizes *)

(** What the paths and nested sets of an expression add up to. *)
Fixpoint node_size (n : Node) : nat :=
  match n with
  | mkNode _ _ _ (Some (_, _, entries)) =>
      S (sum_list (map (λ e, match e with mkEntry _ path value => length path + node_size value end) entries))
  | mkNode _ _ _ None => 1
  end.

Definition entry_size (e : AttrpathValue Node) : nat :=
  match e with mkEntry _ path value => length path + node_size value end.

Definition entries_size (entries : list (AttrpathValue Node)) : nat := sum_list (map entry_size entries).

(** ** The binding forms *)

Definition compile_attr_set (slot : nat) (sp : Span) (is_rec : bool) (inherits : list (Inherit Node))
    (entries : list (AttrpathValue Node)) : M unit :=
  m_begin_scope;;;
  compile_bindings (S (entries_size entries)) slot (kind_of is_rec) sp inherits entries;;;
  m_end_scope dbg;;; mret tt.

Definition compile_let_in (slot : nat) (sp : Span) (inherits : list (Inherit Node)) (entries : list (AttrpathValue Node))
    (body : Code) : M unit :=
  compile_bindings (S (entries_size entries)) slot KLetIn sp inherits entries;;;
  body slot;;;
  cleanup_scope dbg sp.

Definition compile_legacy_let (slot : nat) (sp : Span) (inherits : list (Inherit Node)) (entries : list (AttrpathValue Node))
    : M unit :=
  emit_warning sp DeprecatedLegacyLet;;;
  m_begin_scope;;;
  compile_bindings (S (entries_size entries)) slot KRecAttrs sp inherits entries;;;
  m_end_scope dbg;;;
  emit_constant (VString (plain_string (B "body"))) sp;;;
  push_op OpAttrsSelect sp;;; mret tt.

(** ** Path literals *)

Definition compile_path (slot : nat) (sp : Span) (raw_path : bytes) : M unit :=
  let path p := emit_constant (VPath (clean site p)) sp in
  if starts_with (B "/") raw_path then path raw_path
  else if starts_with (B "~") raw_path then
    if dbg && negb ((2 <? length raw_path) && starts_with (B "~/") raw_path) then mpanic else
    if length raw_path <? 2 then mpanic else
    emit_constant (VUnresolvedPath (drop 2 raw_path)) sp;;;
    push_op OpResolveHomePath sp;;; mret tt
  else if starts_with (B "<") raw_path then
    if length raw_path =? 2 then
      emit_constant (VCatchable (NixPathResolution (B "Empty <> path not allowed"))) sp
    else if length raw_path <? 2 then mpanic else
    thunk dbg slot sp (λ _,
      emit_constant (VUnresolvedPath (take (length raw_path - 2) (drop 1 raw_path))) sp;;;
      push_op OpFindFile sp;;; mret tt)
  else path (path_push (root_dir site) raw_path).

(** ** Functions *)

(** Local, slot of the finalise request and default of a formal. *)
Inductive TrackedFormal :=
| NoDefault (local_idx : nat) (ident_sp : Span) (ident : bytes)
| WithDefault (local_idx : nat) (finalise_request_idx : nat) (ident_sp : Span) (ident : bytes) (default : Node).

Definition formal_idx (f : TrackedFormal) : nat :=
  match f with NoDefault idx _ _ | WithDefault idx _ _ _ _ => idx end.

Fixpoint declare_formals (arguments : list (NixString * bool)) (entries : list (PatEntry Node))
    : M (list (NixString * bool) * list TrackedFormal) :=
  match entries with
  | [] => mret (arguments, [])
  | mkPatEntry isp ident default :: entries =>
      let! idx := m_declare_local globals isp ident in
      let arguments := bt_insert (plain_string ident) (match default with Some _ => true | None => false end) arguments in
      let! f := match default with
                | Some d => let! request := m_declare_phantom (node_span d) false in mret (WithDefault idx request isp ident d)
                | None => mret (NoDefault idx isp ident)
                end in
      let! (arguments, fs) := declare_formals arguments entries in
      mret (arguments, f :: fs)
  end.

(** The value of one formal, selected from the argument. *)
Definition bind_formal (sp : Span) (stack_idx : nat) (f : TrackedFormal) : M unit :=
  push_op OpGetLocal sp;;;
  push_uvarint (Z.of_nat stack_idx);;;
  match f with
  | WithDefault idx request isp ident d =>
      emit_literal_ident ident isp;;;
      push_op OpAttrsTrySelect isp;;;
      let! jump_to_default := push_jump OpJumpIfNotFound (node_span d) in
      emit_constant (VFinaliseRequest false) (node_span d);;;
      let! jump_over_default := push_jump OpJump (node_span d) in
      patch_jump jump_to_default;;;
      node_code d idx;;;
      emit_constant (VFinaliseRequest true) (node_span d);;;
      patch_jump jump_over_default;;;
      m_mark_initialised idx;;;
      m_mark_initialised request
  | NoDefault idx isp ident =>
      emit_literal_ident ident isp;;;
      push_op OpAttrsSelect isp;;;
      m_mark_initialised idx
  end.

Fixpoint bind_formals (sp : Span) (stack_idx : nat) (fs : list TrackedFormal) : M unit :=
  match fs with
  | [] => mret tt
  | f :: fs => bind_formal sp stack_idx f;;; bind_formals sp stack_idx fs
  end.

(** Finalises the defaults that were used and need it. *)
Fixpoint finalise_formals (sp : Span) (fs : list TrackedFormal) : M unit :=
  match fs with
  | [] => mret tt
  | f :: fs =>
      let! l := m_local (formal_idx f) in
      (if needs_finaliser l then
         let! stack_idx := m_stack_index (formal_idx f) in
         match f with
         | NoDefault _ _ _ => mpanic
         | WithDefault _ request _ _ _ =>
             let! request_stack_idx := m_stack_index request in
             push_op OpGetLocal sp;;;
             push_uvarint (Z.of_nat request_stack_idx);;;
             let! jump_over_finalise := push_jump OpJumpIfNoFinaliseRequest sp in
             push_op OpFinalise sp;;;
             push_uvarint (Z.of_nat stack_idx);;;
             patch_jump jump_over_finalise;;;
             push_op OpPop sp;;; mret tt
         end
       else mret tt);;;
      finalise_formals sp fs
  end.

Definition compile_param_pattern (sp : Span) (bind : option (Span * bytes)) (entries : list (PatEntry Node)) (ellipsis : bool)
    : M (Formals * nat) :=
  let! set_idx := match bind with
                  | Some (bsp, name) => m_declare_local globals bsp name
                  | None => m_declare_phantom sp true
                  end in
  m_mark_initialised set_idx;;;
  emit_force sp;;;
  let! throw_idx := push_jump OpJumpIfCatchable sp in
  push_op OpAssertAttrs sp;;;
  (if negb ellipsis then push_op OpValidateClosedFormals sp;;; mret tt else mret tt);;;
  let! (arguments, fs) := declare_formals [] entries in
  let! stack_idx := m_stack_index set_idx in
  bind_formals sp stack_idx fs;;;
  finalise_formals sp fs;;;
  mret (mkFormals arguments ellipsis sp (option_map snd bind), throw_idx).

Definition set_formals (f : option Formals) : M unit :=
  let! x := get_context in
  let l := lambda x in
  put_context (mkLambdaCtx (mkLambda (chunk l) (Value.name l) (upvalue_count l) f) (scope x) (captures_with_stack x)).

Definition compile_lambda (slot : nat) (param : Param Node) (body : Code) : M (option nat) :=
  let! formals :=
    match param with
    | PPattern sp bind entries ellipsis =>
        let! r := compile_param_pattern sp bind entries ellipsis in mret (Some r)
    | PIdent sp name =>
        let! idx := m_declare_local globals sp name in
        m_mark_initialised idx;;; mret None
    end in
  body slot;;;
  match formals with
  | Some (formals, throw_idx) => set_formals (Some formals);;; mret (Some throw_idx)
  | None => set_formals None;;; mret None
  end.

End Bindings.
