(* ===== verification/Compile.v ===== *)
(** * [compiler/mod.rs]: compiling expressions

    The dispatch over all expression forms, and the entry point without an
    environment of its own. *)

From stdpp Require Import strings gmap.
From S2P Require Import Prelude BTreeMap NixString NixAttrs Bytecode Scope Value Compiler Bindings.
Import Opcode.
#[local] Open Scope nat_scope.
#[local] Open Scope compile_scope.

Section Compile.
Context `{!Vu128}.
Context (dbg : bool) (globals : gmap bytes Value) (site : Site).

(** Every expression with its code. The code takes whether [optimise_expr] is
    still to be applied to the expression, which it is to all but the operand it
    answered. *)
Fixpoint comp (e : Expr) : Node :=
  mkNode (λ optim slot,
    match e with
    | ELiteral sp l => compile_literal sp l
    | EPath sp raw_path => compile_path dbg site slot sp raw_path
    | EStr sp parts => compile_str dbg slot sp (map (part_map (λ e, node_code (comp e))) parts)
    | EUnaryOp sp op e => thunk dbg slot sp (λ s, compile_unary_op s sp op (node_code (comp e)))
    | EBinOp sp op lhs rhs =>
        let keep := thunk dbg slot sp (λ s, compile_binop s sp op (node_code (comp lhs)) (span_of lhs)
                                              (node_code (comp rhs)) (span_of rhs)) in
        if optim : bool then
          let! r := optimise_bin_op slot sp op (is_lit_bool lhs) (is_lit_bool rhs) (span_of lhs) (span_of rhs)
                      (node_code (comp rhs)) in
          match r with
          | Unchanged => keep
          | TakeLhs => let 'mkNode code _ _ _ := comp lhs in code false slot
          | TakeRhs => let 'mkNode code _ _ _ := comp rhs in code false slot
          end
        else keep
    | EHasAttr sp e path =>
        thunk dbg slot sp (λ s, compile_has_attr dbg s sp (node_code (comp e))
          (map (attr_map (λ e, (span_of e, node_code (comp e)))) path))
    | EList sp items =>
        thunk dbg slot sp (λ s, compile_list dbg s sp (map (λ e, (span_of e, node_code (comp e))) items))
    | EAttrSet sp is_rec inherits entries =>
        thunk dbg slot sp (λ s, compile_attr_set dbg globals site s sp is_rec
          (map (inherit_map comp) inherits) (map (entry_map comp) entries))
    | ESelect sp set path_sp path default =>
        thunk dbg slot sp (λ s, compile_select dbg s (node_code (comp set)) (span_of set) path_sp
          (map (attr_map (λ e, (span_of e, node_code (comp e)))) path)
          (match path with [a] => expr_static_attr_str a | _ => None end)
          (match default with Some d => Some (node_code (comp d)) | None => None end))
    | EAssert sp condition body =>
        thunk dbg slot sp (λ s, compile_assert s sp (node_code (comp condition)) (span_of condition) (node_code (comp body)))
    | EIfElse sp condition body else_body =>
        thunk dbg slot sp (λ s, compile_if_else s sp (node_code (comp condition)) (span_of condition)
          (node_code (comp body)) (node_code (comp else_body)))
    | ELetIn sp inherits entries body =>
        thunk dbg slot sp (λ s, compile_let_in dbg globals site s sp
          (map (inherit_map comp) inherits) (map (entry_map comp) entries) (node_code (comp body)))
    | EIdent sp ident => compile_identifier_access dbg globals slot ident sp
    | EWith sp namespace body =>
        thunk dbg slot sp (λ s, compile_with dbg s sp (node_code (comp namespace)) (span_of namespace) (node_code (comp body)))
    | ELambda sp param body =>
        thunk dbg slot sp (λ s, compile_lambda_or_thunk dbg false s sp (λ s,
          compile_lambda globals s (param_map comp param) (node_code (comp body))))
    | EApply sp f argument =>
        thunk dbg slot sp (λ s, compile_apply s sp (node_code (comp f)) (span_of f) (node_code (comp argument)))
    | EParen _ e => node_code (comp e) slot
    | ELegacyLet sp inherits entries =>
        thunk dbg slot sp (λ s, compile_legacy_let dbg globals site s sp
          (map (inherit_map comp) inherits) (map (entry_map comp) entries))
    end)
    (span_of e)
    (match e with EStr _ parts => expr_static_str parts | _ => None end)
    (match e with
     | EAttrSet _ is_rec inherits entries =>
         Some (is_rec, map (inherit_map comp) inherits, map (entry_map comp) entries)
     | _ => None
     end).

Definition compile (optim : bool) (e : Expr) (slot : nat) : M unit :=
  let 'mkNode code _ _ _ := comp e in code optim slot.

(** [compile_env]: the environment as a list, in the order the map iterates. *)
Fixpoint compile_env (env : list (bytes * Value)) : M unit :=
  match env with
  | [] => mret tt
  | (name, value) :: env =>
      on_scope (λ s, let '(s, _) := declare_constant s name in Ok (tt, s));;;
      emit_constant value (file_span site);;;
      compile_env env
  end.

(** The fields of a new compiler. *)
Definition Compiler_new : Compiler := mkCompiler [LambdaCtx_new] [] [] 0 ∅ 0.

(** [compiler::compile]; the state that is left has the warnings, the errors
    and the heap. *)
Definition compile_toplevel (env : option (list (bytes * Value))) (e : Expr) : M (Lambda Value) :=
  from_option compile_env (mret tt) env;;;
  let sp := span_of e in
  let! root_slot := m_declare_phantom sp false in
  compile true e root_slot;;;
  emit_force sp;;;
  (match env with
   | Some ((_ :: _) as env) => push_op OpCloseScope sp;;; push_uvarint (Z.of_nat (length env))
   | _ => mret tt
   end);;;
  push_op OpReturn sp;;;
  let! x := pop_context in
  mret (lambda x).

End Compile.
