(* ===== verification/BindingsSpec.v ===== *)
(** * Nested and merged bindings

    What the compiler tracks for the entries of a set or [let]: the recursion
    into nested sets ends, and merging keeps every entry at its path. *)

From stdpp Require Import strings gmap sorting.
From S2P Require Import Prelude BTreeMap NixString NixAttrs Bytecode Scope Value Compiler Bindings.
#[local] Open Scope nat_scope.
#[local] Open Scope compile_scope.

(** ** The monad *)

Lemma mbind_Ok {A B} (m : M A) (f : A → M B) c b c'' :
  mbind_ m f c = Ok (b, c'') ↔ ∃ a c', m c = Ok (a, c') ∧ f a c' = Ok (b, c'').
Proof.
  unfold mbind_. destruct (m c) as [[a c']|[]|]; cbn; [|naive_solver].
  split; [by eauto|]. by intros (? & ? & [= <- <-] & ?).
Qed.

(** Splits a run that succeeds into the runs of its steps. *)
Ltac inv_run :=
  repeat match goal with
  | H : mbind_ _ _ _ = Ok _ |- _ =>
      let a := fresh "a" in let c := fresh "c" in let Ha := fresh "Ha" in
      apply mbind_Ok in H as (a & c & Ha & H)
  | H : mret _ _ = Ok _ |- _ => injection H as H
  | H : mpanic _ = Ok _ |- _ => discriminate H
  end; simplify_eq.

(** Programs that do the same in every state. *)
Definition meq {A} (m m' : M A) : Prop := ∀ c, m c = m' c.
#[local] Infix "≃" := meq (at level 70).

#[global] Instance meq_equiv {A} : Equivalence (@meq A).
Proof. split; [done|intros ?? E c; by rewrite E|intros ??? E1 E2 c; by rewrite E1, E2]. Qed.

#[global] Instance mbind_proper {A B} : Proper (meq ==> pointwise_relation A meq ==> meq) (@mbind_ A B).
Proof.
  intros m m' Hm f f' Hf c. unfold mbind_. rewrite Hm. destruct (m' c) as [[a c']|[]|]; [apply Hf|done].
Qed.

(** Two continuations need only agree on what the first program answers. *)
Lemma mbind_meq {A B} (m : M A) (f f' : A → M B) :
  (∀ a c c', m c = Ok (a, c') → f a ≃ f' a) → mbind_ m f ≃ mbind_ m f'.
Proof.
  intros Hf c. unfold mbind_. destruct (m c) as [[a c']|[]|] eqn:E; [|done]. cbn. by rewrite (Hf a c c' E).
Qed.

Lemma thunk_meq `{!Vu128} dbg slot sp (f f' : Code) :
  (∀ s, f s ≃ f' s) → thunk dbg slot sp f ≃ thunk dbg slot sp f'.
Proof.
  intros Hf. unfold thunk, compile_lambda_or_thunk. repeat (apply mbind_meq; intros ? ? ? _); try done.
  by rewrite (Hf a2).
Qed.

(** ** Sizes *)

Lemma entries_size_app es es' : entries_size (es ++ es') = entries_size es + entries_size es'.
Proof. unfold entries_size. rewrite map_app. induction es as [|e es IH]; cbn; [done|]. rewrite IH. lia. Qed.

Lemma entries_size_cons e es : entries_size (e :: es) = entry_size e + entries_size es.
Proof. done. Qed.

Lemma node_size_set code sp str r inh es :
  node_size (mkNode code sp str (Some (r, inh, es))) = S (entries_size es).
Proof. done. Qed.

Lemma node_size_pos n : 0 < node_size n.
Proof. destruct n as [? ? ? [[[? ?] ?]|]]; cbn; lia. Qed.

Definition binding_size (b : Binding) : nat :=
  match b with
  | InheritFrom _ _ _ => 0
  | Plain n => node_size n
  | BSet s => S (entries_size (as_entries s))
  end.

Definition total_size (bs : list TrackedBinding) : nat := sum_list (map (λ b, binding_size (binding b)) bs).

Lemma total_size_app bs bs' : total_size (bs ++ bs') = total_size bs + total_size bs'.
Proof. unfold total_size. rewrite map_app. induction bs as [|b bs IH]; cbn; [done|]. rewrite IH. lia. Qed.

Lemma merge_set_size existing sp path v c s c' :
  merge_set existing sp path v c = Ok (s, c') →
  entries_size (as_entries s) ≤ entries_size (as_entries existing) + length path + node_size v.
Proof.
  unfold merge_set. destruct path as [|a path].
  - destruct v as [code vsp str [[[r inh] es]|]]; cbn [node_set]; [|done]. intros [= <- <-].
    cbn [as_entries]. rewrite entries_size_app, node_size_set. lia.
  - intros [= <- <-]. cbn [as_entries]. rewrite entries_size_app. unfold entries_size at 2. cbn. lia.
Qed.

Lemma merge_size b sp path v c b' c' :
  merge b sp path v c = Ok (b', c') → binding_size b' ≤ binding_size b + length path + node_size v.
Proof.
  destruct b as [ns nm isp|n|s]; cbn [merge]; intros Hm.
  - inv_run. cbn. lia.
  - destruct n as [code nsp str [[[r inh] es]|]]; cbn [node_set] in Hm; inv_run; [|cbn; lia].
    apply merge_set_size in Ha. cbn [as_entries] in Ha. cbn [binding_size]. rewrite node_size_set. lia.
  - inv_run. apply merge_set_size in Ha. cbn [binding_size]. lia.
Qed.

Lemma merge_first_size key bs sp path v c merged bs' c' :
  merge_first key bs sp path v c = Ok ((merged, bs'), c') →
  total_size bs' ≤ total_size bs + length path + node_size v ∧ (merged = false → bs' = bs).
Proof.
  revert merged bs' c c'. induction bs as [|b bs IH]; intros merged bs' c c' Hm; cbn [merge_first] in Hm.
  { inv_run. split; [cbn; lia|done]. }
  destruct (matches_key b key); inv_run.
  - apply merge_size in Ha. split; [|done]. unfold total_size in *. cbn. lia.
  - destruct a as [m bs'']. inv_run. apply IH in Ha as [Hs He]. split; [unfold total_size in *; cbn; lia|].
    intros Hf. by rewrite He.
Qed.

Lemma try_merge_size bs sp key path v c merged bs' c' :
  try_merge bs sp key path v c = Ok ((merged, bs'), c') →
  total_size bs' ≤ total_size bs + length path + node_size v ∧ (merged = false → bs' = bs).
Proof.
  unfold try_merge. case_match; [intros Hm; inv_run; split; [lia|done]|].
  destruct (static_attr key); [apply merge_first_size|intros Hm; inv_run; split; [lia|done]].
Qed.

Section Size.
Context (globals : gmap bytes Value).

Lemma declare_new_size kind sp key path v c b c' :
  declare_new globals kind sp key path v c = Ok (Some b, c') → binding_size (binding b) ≤ S (length path + node_size v).
Proof.
  unfold declare_new. intros Hd. apply mbind_Ok in Hd as (ks & c1 & _ & Hd). destruct ks as [ks|]; [|inv_run].
  apply mbind_Ok in Hd as (vs & c2 & _ & Hd). inv_run. cbn [binding]. destruct path; cbn; lia.
Qed.

Lemma declare_bindings_size kind count bs es c n bs' c' :
  declare_bindings globals kind count bs es c = Ok ((n, bs'), c') →
  total_size bs' ≤ total_size bs + entries_size es.
Proof.
  revert count bs c. induction es as [|[sp path v] es IH]; intros count bs c Hd; cbn [declare_bindings] in Hd.
  { inv_run. lia. }
  rewrite entries_size_cons. destruct path as [|key path]; [inv_run|]. cbn [entry_size length].
  apply mbind_Ok in Hd as ([merged bs1] & c1 & Hm & Hd). apply try_merge_size in Hm as [Hs He]. destruct merged.
  - apply IH in Hd. lia.
  - rewrite (He eq_refl) in *. apply mbind_Ok in Hd as (b & c2 & Hn & Hd). apply IH in Hd. destruct b as [b|]; [|lia].
    apply declare_new_size in Hn. rewrite total_size_app in Hd. unfold total_size in Hd at 3. cbn in Hd. lia.
Qed.

Lemma inherits_size kind froms c bs c' :
  declare_namespaced_inherits globals kind froms c = Ok (bs, c') → total_size bs = 0.
Proof.
  revert bs c c'. induction froms as [|[[from nm] sp] froms IH]; intros bs c c' Hd; cbn [declare_namespaced_inherits] in Hd.
  { by inv_run. }
  apply mbind_Ok in Hd as (ks & ? & _ & Hd). apply mbind_Ok in Hd as (vs & ? & _ & Hd).
  apply mbind_Ok in Hd as (bs1 & ? & Hi & Hd). apply IH in Hi. inv_run. unfold total_size in *. cbn. done.
Qed.

Lemma total_size_nested b bs s : b ∈ bs → binding b = BSet s → entries_size (as_entries s) < total_size bs.
Proof.
  intros Hb Hs. induction Hb as [b bs|b b' bs _ IH]; unfold total_size in *; cbn; [rewrite Hs; cbn; lia|].
  specialize (IH Hs). lia.
Qed.

End Size.

(** ** The recursion into nested sets *)

Lemma bind_all_meq `{!Vu128} dbg site (f f' : nat → AttributeSet → M unit) bs :
  (∀ b s slot, b ∈ bs → binding b = BSet s → f slot s ≃ f' slot s) →
  bind_all dbg site f bs ≃ bind_all dbg site f' bs.
Proof.
  intros Hf. induction bs as [|b bs IH]; [done|]. cbn [bind_all]. apply mbind_proper.
  - unfold bind_value. apply mbind_meq. intros _ ? ? _. apply mbind_proper; [|done].
    destruct (binding b) as [| |s] eqn:Eb; [done..|]. apply thunk_meq. intros _. apply mbind_meq. intros _ ? ? _.
    apply mbind_proper; [|done]. apply (Hf b); [left|done].
  - intros _. apply IH. intros b' s slot Hb'. apply Hf. by right.
Qed.

Lemma compile_bindings_enough `{!Vu128} dbg globals site fuel fuel' slot kind sp inh es :
  entries_size es < fuel → entries_size es < fuel' →
  compile_bindings dbg globals site fuel slot kind sp inh es ≃ compile_bindings dbg globals site fuel' slot kind sp inh es.
Proof.
  revert fuel' slot kind sp inh es. induction fuel as [|fuel IH]; intros fuel' slot kind sp inh es Hf Hf'; [lia|].
  destruct fuel' as [|fuel']; [lia|]. cbn [compile_bindings].
  apply mbind_meq. intros _ ? ? _. apply mbind_meq. intros [count froms] ? ? _.
  apply mbind_meq. intros bs0 ? ? Hinh. apply mbind_meq. intros [n bs] ? ? Hdecl.
  destruct (n =? 0); [done|]. apply mbind_proper; [|done]. unfold bind_values. apply mbind_proper; [|done].
  apply bind_all_meq. intros b s slot' Hb Hs.
  apply declare_bindings_size in Hdecl. rewrite (inherits_size _ _ _ _ _ _ Hinh) in Hdecl.
  pose proof (total_size_nested b bs s Hb Hs). apply IH; lia.
Qed.

(** ** Entries at their paths *)

(** The elements of a path: names, and keys known only at run time. *)
Abbreviation key_path := (list (bytes + Attr Node)).

Definition key_of (a : Attr Node) : bytes + Attr Node :=
  match static_attr a with Some name => inl name | None => inr a end.

(** What is bound at a path. *)
Inductive content :=
| CValue (n : Node)
| CInherit (i : Inherit Node)
| CFrom (namespace : Node) (name : bytes).

(** The values and inherits of an expression at [p], those of nested sets at
    their full paths. *)
Fixpoint node_leaves (p : key_path) (n : Node) : list (key_path * content) :=
  match n with
  | mkNode _ _ _ (Some (_, inherits, entries)) =>
      map (λ i, (p, CInherit i)) inherits ++
      flat_map (λ e, match e with mkEntry _ path v => node_leaves (p ++ map key_of path) v end) entries
  | mkNode _ _ _ None => [(p, CValue n)]
  end.

Definition entries_leaves (p : key_path) (es : list (AttrpathValue Node)) : list (key_path * content) :=
  flat_map (λ e, match e with mkEntry _ path v => node_leaves (p ++ map key_of path) v end) es.

Definition slot_key (k : KeySlot) : bytes + Attr Node :=
  match k with KeyNone name | KeyStatic _ name => inl name | KeyDynamic _ attr => inr attr end.

Definition binding_leaves (k : bytes + Attr Node) (b : Binding) : list (key_path * content) :=
  match b with
  | InheritFrom namespace name _ => [([k], CFrom namespace name)]
  | Plain n => node_leaves [k] n
  | BSet s => map (λ i, ([k], CInherit i)) (as_inherits s) ++ entries_leaves [k] (as_entries s)
  end.

Definition all_leaves (bs : list TrackedBinding) : list (key_path * content) :=
  flat_map (λ b, binding_leaves (slot_key (key_slot b)) (binding b)) bs.

Lemma entries_leaves_app p es es' : entries_leaves p (es ++ es') = entries_leaves p es ++ entries_leaves p es'.
Proof. apply flat_map_app. Qed.

Lemma all_leaves_app bs bs' : all_leaves (bs ++ bs') = all_leaves bs ++ all_leaves bs'.
Proof. apply flat_map_app. Qed.

(** *** Errors are kept *)

Definition keeps_errors {A} (m : M A) : Prop := ∀ c a c', m c = Ok (a, c') → ∃ l, errors c' = errors c ++ l.

Create HintDb errors discriminated.

Lemma keeps_ret {A} (a : A) : keeps_errors (mret a).
Proof. intros c ? ? [= <- <-]. exists []. by rewrite app_nil_r. Qed.
Lemma keeps_bind {A B} (m : M A) (f : A → M B) : keeps_errors m → (∀ a, keeps_errors (f a)) → keeps_errors (mbind_ m f).
Proof.
  intros Hm Hf c b c'' (a & c' & H1%Hm & H2%Hf)%mbind_Ok. destruct H1 as [l E1], H2 as [l' E2].
  exists (l ++ l'). by rewrite E2, E1, app_assoc.
Qed.
Lemma keeps_lift {A} o : keeps_errors (@mlift A o).
Proof. intros c a c'. unfold mlift. destruct o; cbn; [|done..]. intros [= <- <-]. exists []. by rewrite app_nil_r. Qed.
Lemma keeps_context : keeps_errors get_context.
Proof. intros c a c'. unfold get_context. destruct (last _); cbn; [|done]. intros [= <- <-]. exists []. by rewrite app_nil_r. Qed.
Lemma keeps_put_context x : keeps_errors (put_context x).
Proof. intros c a c'. unfold put_context. destruct (contexts c); [done|]. intros [= <- <-]. exists []. by rewrite app_nil_r. Qed.
Lemma keeps_warning sp k : keeps_errors (emit_warning sp k).
Proof. intros c a c' [= <- <-]. exists []. by rewrite app_nil_r. Qed.
Lemma keeps_error sp k : keeps_errors (emit_error sp k).
Proof. intros c a c' [= <- <-]. by eexists. Qed.

Lemma keeps_panic {A} : keeps_errors (@mpanic A).
Proof. by intros c a c'. Qed.

#[export] Hint Resolve keeps_panic keeps_ret keeps_bind keeps_lift keeps_context keeps_put_context keeps_warning keeps_error : errors.

(** Walks through a program of such steps. *)
Ltac keeps := intros; repeat first
  [ progress eauto with errors nocore | apply keeps_bind; [|intros] | case_match ].

Lemma keeps_scope {A} f : keeps_errors (@on_scope A f).
Proof. unfold on_scope, get_scope, put_scope. keeps. Qed.
#[export] Hint Resolve keeps_scope : errors.
Lemma keeps_phantom sp b : keeps_errors (m_declare_phantom sp b).
Proof. apply keeps_scope. Qed.
Lemma keeps_local globals sp n : keeps_errors (m_declare_local globals sp n).
Proof. unfold m_declare_local, get_scope, m_local. keeps. Qed.
#[export] Hint Resolve keeps_phantom keeps_local : errors.

Lemma keeps_declare_new globals kind sp key path v : keeps_errors (declare_new globals kind sp key path v).
Proof. unfold declare_new. keeps. Qed.

(** *** Merging keeps all entries *)

Lemma merge_set_leaves existing sp path v c s c' k :
  merge_set existing sp path v c = Ok (s, c') →
  binding_leaves k (BSet s) ≡ₚ binding_leaves k (BSet existing) ++ node_leaves (k :: map key_of path) v ∧ c' = c.
Proof.
  unfold merge_set. destruct path as [|a path].
  - destruct v as [code vsp str [[[r inh] es]|]]; cbn [node_set]; [|done]. intros [= <- <-]. split; [|done].
    cbn [binding_leaves as_inherits as_entries map]. rewrite map_app, entries_leaves_app. cbn [node_leaves].
    change (flat_map _ es) with (entries_leaves [k] es). solve_Permutation.
  - intros [= <- <-]. split; [|done]. cbn [binding_leaves as_inherits as_entries]. rewrite entries_leaves_app.
    unfold entries_leaves at 2. cbn [flat_map]. rewrite app_nil_r, <- app_assoc. done.
Qed.

Lemma merge_leaves b sp path v c b' c' k :
  merge b sp path v c = Ok (b', c') → errors c' = errors c →
  binding_leaves k b' ≡ₚ binding_leaves k b ++ node_leaves (k :: map key_of path) v.
Proof.
  assert (∀ sp k u, emit_error sp k c = Ok (u, c') → errors c' ≠ errors c) as Hemit.
  { intros sp' k' u [= _ <-]. cbn. intros E. apply (f_equal length) in E. rewrite length_app in E. cbn in E. lia. }
  destruct b as [ns nm isp|n|s]; cbn [merge]; intros Hm Herr.
  - inv_run. by apply Hemit in Ha.
  - destruct n as [code nsp str [[[r inh] es]|]]; cbn [node_set] in Hm; inv_run; [|by apply Hemit in Ha].
    by apply (merge_set_leaves _ _ _ _ _ _ _ k) in Ha as [-> _].
  - inv_run. by apply (merge_set_leaves _ _ _ _ _ _ _ k) in Ha as [-> _].
Qed.

Lemma keeps_merge b sp path v : keeps_errors (merge b sp path v).
Proof. unfold merge, merge_set. keeps. Qed.
#[export] Hint Resolve keeps_merge : errors.

Lemma merge_first_leaves key bs sp path v c merged bs' c' :
  merge_first key bs sp path v c = Ok ((merged, bs'), c') → errors c' = errors c →
  (if merged then all_leaves bs' ≡ₚ all_leaves bs ++ node_leaves (inl key :: map key_of path) v else bs' = bs) ∧
  key_slot <$> bs' = key_slot <$> bs ∧ (∀ b, b ∈ bs → matches_key b key = true → merged = true).
Proof.
  revert merged bs' c c'. induction bs as [|b bs IH]; intros merged bs' c c' Hm Herr; cbn [merge_first] in Hm.
  { inv_run. split_and!; [done|done|by intros ? ?%elem_of_nil]. }
  destruct (matches_key b key) eqn:Ek; inv_run.
  - assert (slot_key (key_slot b) = inl key) as Hk.
    { unfold matches_key in Ek. destruct (key_slot b); cbn; [..|done]; apply bool_decide_eq_true in Ek; by subst. }
    apply (merge_leaves _ _ _ _ _ _ _ (slot_key (key_slot b))) in Ha; [|done]. split_and!; [|done|done].
    unfold all_leaves. cbn [flat_map key_slot binding]. rewrite Ha, Hk. solve_Permutation.
  - destruct a as [m bs'']. inv_run. destruct (IH _ _ _ _ Ha Herr) as (Hl & Hs & Hin). split_and!.
    + destruct merged; [|by f_equal]. unfold all_leaves in *. cbn [flat_map]. rewrite Hl. by rewrite app_assoc.
    + cbn. by f_equal.
    + intros b' [->|Hb']%elem_of_cons Hb; [congruence|by eapply Hin].
Qed.

Lemma keeps_merge_first key bs sp path v : keeps_errors (merge_first key bs sp path v).
Proof. induction bs as [|b bs IH]; cbn [merge_first]; keeps. Qed.
#[export] Hint Resolve keeps_merge_first : errors.

(** Only values that are no sets have the key of an earlier binding. *)
Definition grouped (bs : list TrackedBinding) : Prop :=
  ∀ i j b b' name, i < j → bs !! i = Some b → bs !! j = Some b' →
    slot_key (key_slot b) = inl name → slot_key (key_slot b') = inl name →
    match binding b' with Plain n => node_set n = None | InheritFrom _ _ _ => True | BSet _ => False end.

Lemma matches_key_slot b key : matches_key b key = true ↔ slot_key (key_slot b) = inl key.
Proof. unfold matches_key. destruct (key_slot b); cbn; rewrite ?bool_decide_eq_true; naive_solver. Qed.

(** A merge changes a binding that is the first of its key, and no key. *)
Lemma merge_first_changes key bs sp path v c merged bs' c' j b' :
  merge_first key bs sp path v c = Ok ((merged, bs'), c') → bs' !! j = Some b' →
  ∃ b, bs !! j = Some b ∧ key_slot b = key_slot b' ∧
    (b = b' ∨ matches_key b key = true ∧ ∀ i bi, i < j → bs !! i = Some bi → matches_key bi key = false).
Proof.
  revert merged bs' c c' j b'. induction bs as [|b bs IH]; intros merged bs' c c' j b' Hm Hj; cbn [merge_first] in Hm.
  { inv_run. }
  destruct (matches_key b key) eqn:Ek; inv_run.
  - destruct j as [|j]; [|by exists b'; eauto]. injection Hj as <-. exists b. split_and!; [done..|]. right. split; [done|]. lia.
  - destruct a as [m bs'']. inv_run. destruct j as [|j]; [injection Hj as <-; by exists b; eauto|].
    destruct (IH _ _ _ _ _ _ Ha Hj) as (b0 & Hb0 & Hk & Hor). exists b0. split_and!; [done..|].
    destruct Hor as [?|[? Hfst]]; [by left|right; split; [done|]]. intros [|i] bi Hi Hbi; [by injection Hbi as <-|].
    apply (Hfst i); [lia|done].
Qed.

Lemma merge_first_grouped key bs sp path v c merged bs' c' :
  merge_first key bs sp path v c = Ok ((merged, bs'), c') → grouped bs → grouped bs'.
Proof.
  intros Hm Hg i j b b' name Hij Hi Hj Hb Hb'.
  destruct (merge_first_changes _ _ _ _ _ _ _ _ _ _ _ Hm Hi) as (bi & Hbi & Ei & _).
  destruct (merge_first_changes _ _ _ _ _ _ _ _ _ _ _ Hm Hj) as (bj & Hbj & Ej & Hor). rewrite <- Ei in Hb. rewrite <- Ej in Hb'.
  destruct Hor as [->|[Hkj Hfst]]; [by eapply (Hg i j)|]. specialize (Hfst i bi Hij Hbi).
  apply matches_key_slot in Hkj. apply not_true_iff_false in Hfst. rewrite matches_key_slot in Hfst. congruence.
Qed.

(** What [try_merge] answers when no error is recorded: the entry was merged,
    or no earlier binding could have taken it. *)
Lemma try_merge_spec bs sp key path v c merged bs' c' :
  try_merge bs sp key path v c = Ok ((merged, bs'), c') → errors c' = errors c →
  (grouped bs → grouped bs') ∧ length bs' = length bs ∧
  if merged then all_leaves bs' ≡ₚ all_leaves bs ++ node_leaves (map key_of (key :: path)) v
  else bs' = bs ∧ (path = [] ∧ node_set v = None ∨ ∀ b name, b ∈ bs → slot_key (key_slot b) = inl name → key_of key ≠ inl name).
Proof.
  unfold try_merge. intros Hm Herr. case_match eqn:E.
  { inv_run. split_and!; [done..|]. left. apply andb_prop in E as [E1%Nat.eqb_eq E2]. by destruct path, (node_set v). }
  assert (key_of key = match static_attr key with Some name => inl name | None => inr key end) as -> by done.
  destruct (static_attr key) as [name|] eqn:Es; [|inv_run; split_and!; [done..|by right]].
  pose proof (merge_first_grouped _ _ _ _ _ _ _ _ _ Hm). apply merge_first_leaves in Hm as (Hl & Hs & Hin); [|done].
  split_and!; [done|by rewrite <- (length_fmap key_slot), Hs, length_fmap|].
  destruct merged; [cbn [map]; unfold key_of at 1; by rewrite Es|]. split; [done|].
  right. intros b name' Hb Hk [= ->]. apply matches_key_slot in Hk. by specialize (Hin b Hb Hk).
Qed.

Lemma grouped_snoc bs b :
  grouped bs →
  match binding b with Plain n => node_set n = None | InheritFrom _ _ _ => True | BSet _ => False end ∨
    (∀ b' name, b' ∈ bs → slot_key (key_slot b') = inl name → slot_key (key_slot b) ≠ inl name) →
  grouped (bs ++ [b]).
Proof.
  intros Hg Hb i j bi bj name Hij Hi Hj Hki Hkj.
  apply lookup_snoc_Some in Hj as [[Hlj Hj]|[-> <-]]; rewrite lookup_app_l in Hi by lia; [by eapply (Hg i j)|].
  destruct Hb as [?|Hb]; [done|]. exfalso. eapply Hb; [by eapply list_elem_of_lookup_2|done..].
Qed.

Lemma keeps_try_merge bs sp key path v : keeps_errors (try_merge bs sp key path v).
Proof. unfold try_merge. keeps. Qed.

Section Declare.
Context (globals : gmap bytes Value).

Lemma declare_new_leaves kind sp key path v c o c' :
  declare_new globals kind sp key path v c = Ok (o, c') → errors c' = errors c →
  ∃ b, o = Some b ∧ slot_key (key_slot b) = key_of key ∧
    binding_leaves (slot_key (key_slot b)) (binding b) = node_leaves (map key_of (key :: path)) v ∧
    binding b = match path with [] => Plain v | _ => BSet (mkAttributeSet sp KAttrs [] [mkEntry sp path v]) end.
Proof.
  unfold declare_new. intros Hd Herr. apply mbind_Ok in Hd as (ks & c1 & Hk & Hd).
  assert (∃ ks', ks = Some ks' ∧ slot_key ks' = key_of key) as (ks' & -> & Hks).
  { unfold key_of. destruct (static_attr key), (is_attrs kind); inv_run; eauto.
    exfalso. injection Hd as _ <-. injection Ha as _ <-. cbn in Herr. apply (f_equal length) in Herr. rewrite length_app in Herr. cbn in Herr. lia. }
  apply mbind_Ok in Hd as (vs & c2 & _ & Hd). inv_run. eexists. split_and!; [done|done| |by destruct path].
  cbn [key_slot binding]. rewrite Hks. destruct path as [|a path]; [done|]. cbn [binding_leaves as_inherits as_entries map].
  unfold entries_leaves. cbn [flat_map]. by rewrite app_nil_r.
Qed.

Lemma keeps_declare kind count bs es : keeps_errors (declare_bindings globals kind count bs es).
Proof.
  revert count bs. induction es as [|[sp path v] es IH]; intros count bs; cbn [declare_bindings]; [keeps|].
  destruct path as [|key path]; [keeps|]. apply keeps_bind; [apply keeps_try_merge|]. intros [[] ?]; [apply IH|].
  apply keeps_bind; [apply keeps_declare_new|]. intros. apply IH.
Qed.

(** A step in the middle of a run with no new errors has none. *)
Lemma no_errors_between {A} (m : M A) c1 c2 c3 l a :
  keeps_errors m → errors c2 = errors c1 ++ l → m c2 = Ok (a, c3) → errors c3 = errors c1 → errors c2 = errors c1.
Proof.
  intros Hk H1 H2 Herr. apply Hk in H2 as [l' H2]. rewrite H1 in H2 |- *. rewrite H2, <- app_assoc in Herr.
  rewrite <- (app_nil_r (errors c1)) in Herr at 2. apply app_inv_head, app_eq_nil in Herr as [-> _]. apply app_nil_r.
Qed.

Lemma declare_leaves kind count bs es c n bs' c' :
  declare_bindings globals kind count bs es c = Ok ((n, bs'), c') → errors c' = errors c →
  all_leaves bs' ≡ₚ all_leaves bs ++ entries_leaves [] es ∧ (grouped bs → grouped bs') ∧ n + length bs = count + length bs'.
Proof.
  revert count bs c. induction es as [|[sp path v] es IH]; intros count bs c Hd Herr; cbn [declare_bindings] in Hd.
  { inv_run. split_and!; [by rewrite app_nil_r|done|lia]. }
  destruct path as [|key path]; [inv_run|]. apply mbind_Ok in Hd as ([merged bs1] & c1 & Hm & Hd).
  destruct (keeps_try_merge _ _ _ _ _ _ _ _ Hm) as [l Hl].
  change (entries_leaves [] (mkEntry sp (key :: path) v :: es))
    with (node_leaves (map key_of (key :: path)) v ++ entries_leaves [] es). destruct merged.
  - assert (errors c1 = errors c) as E1 by (eapply no_errors_between; [apply keeps_declare|done..]).
    apply try_merge_spec in Hm as (Hg & Hlen & Hp); [|done]. apply IH in Hd as (Hp' & Hg' & Hn); [|congruence].
    split_and!; [|auto|lia]. rewrite Hp', Hp. by rewrite <- app_assoc.
  - apply mbind_Ok in Hd as (o & c2 & Hn & Hd). destruct (keeps_declare_new _ _ _ _ _ _ _ _ _ Hn) as [l2 Hl2].
    assert (errors c2 = errors c) as E2.
    { eapply (no_errors_between _ _ _ _ (l ++ l2)); [apply keeps_declare| |done..]. by rewrite Hl2, Hl, app_assoc. }
    assert (errors c1 = errors c) as E1 by (eapply no_errors_between; [apply keeps_declare_new|done..]).
    apply try_merge_spec in Hm as (_ & _ & -> & Hor); [|done]. apply declare_new_leaves in Hn as (b & -> & Hk & Hbl & Hb); [|congruence].
    apply IH in Hd as (Hp' & Hg' & Hn); [|congruence]. rewrite length_app in Hn. cbn [length] in Hn. split_and!; [| |lia].
    + rewrite Hp', all_leaves_app. unfold all_leaves at 2. cbn [flat_map]. by rewrite Hbl, app_nil_r, <- app_assoc.
    + intros Hg. apply Hg', grouped_snoc; [done|]. destruct Hor as [[-> Hv]|Hor]; [left; by rewrite Hb|right].
      intros b' name Hb' Hk'. rewrite Hk. by eapply Hor.
Qed.

End Declare.

(** C34: compiling bindings ends. Every set nested in the bindings that are
    declared for some entries is smaller than these entries, so that the fuel
    that the binding forms give, one more than the size of their entries, is
    never used up: any larger fuel gives the same program. *)
Theorem compile_bindings_terminates `{!Vu128} dbg globals site kind es :
  (∀ froms c0 bs0 c1 count n bs c2 b s,
    declare_namespaced_inherits globals kind froms c0 = Ok (bs0, c1) →
    declare_bindings globals kind count bs0 es c1 = Ok ((n, bs), c2) →
    b ∈ bs → binding b = BSet s → entries_size (as_entries s) < entries_size es) ∧
  (∀ fuel slot sp inh c, S (entries_size es) ≤ fuel →
    compile_bindings dbg globals site fuel slot kind sp inh es c =
    compile_bindings dbg globals site (S (entries_size es)) slot kind sp inh es c).
Proof.
  split; [|intros; apply compile_bindings_enough; lia].
  intros froms c0 bs0 c1 count n bs c2 b s Hi Hd Hb Hs. apply inherits_size in Hi. apply declare_bindings_size in Hd.
  pose proof (total_size_nested b bs s Hb Hs). lia.
Qed.

(** C33: when no error is recorded, the bindings that are declared for the
    entries of a set or [let] hold these entries, each at the path it was
    written with: keys that are merged or nested neither lose nor duplicate one.
    Of the bindings with one key all but the first are plain values (or
    inherits), which the set or [let] reports when it is built, and the number
    of bindings grows as the counter of elements does. *)
Theorem declare_bindings_keeps_entries globals kind count bs es c n bs' c' :
  declare_bindings globals kind count bs es c = Ok ((n, bs'), c') → errors c' = errors c →
  all_leaves bs' ≡ₚ all_leaves bs ++ entries_leaves [] es ∧ (grouped bs → grouped bs') ∧ n + length bs = count + length bs'.
Proof. apply declare_leaves. Qed.

Module Examples.
Import VarintModel.

Definition here : Span := mkSpan 0 1.
(** An expression with no code, told apart by its span. *)
Definition leaf (z : Z) : Node := mkNode (λ _ _, mret tt) (mkSpan z (z + 1)) None None.
Definition key (s : string) : Attr Node := AIdent here (B s).
Definition entry (path : list string) (v : Node) : AttrpathValue Node := mkEntry here (map key path) v.
Definition set_of (es : list (AttrpathValue Node)) : Node := mkNode (λ _ _, mret tt) here None (Some (false, [], es)).
Definition start : Compiler := mkCompiler [LambdaCtx_new] [] [] 0%Z ∅ 0.

(** [{ a.b = 1; c = 2; a.d.e = 3; a = { f = 4; }; }] *)
Definition entries : list (AttrpathValue Node) :=
  [entry ["a"; "b"]%string (leaf 1); entry ["c"]%string (leaf 2); entry ["a"; "d"; "e"]%string (leaf 3);
   entry ["a"]%string (set_of [entry ["f"]%string (leaf 4)])].

Definition declared : M (nat * list TrackedBinding) := declare_bindings ∅ KAttrs 0 [] entries.

Definition paths (bs : list TrackedBinding) : list (list bytes) :=
  map (λ l, omap (λ k, match k with inl n => Some n | inr _ => None end) l.1) (all_leaves bs).

(** What is declared for [entries]: two bindings, the first of which holds three entries. *)
Definition result : list TrackedBinding * Compiler :=
  match declared start with Ok ((_, bs), c) => (bs, c) | _ => ([], start) end.

Lemma declared_result : declared start = Ok ((2, result.1), result.2).
Proof. vm_compute. reflexivity. Qed.

Lemma result_no_errors : errors result.2 = errors start.
Proof. vm_compute. reflexivity. Qed.

Example result_paths : paths result.1 = [[B "a"; B "b"]; [B "a"; B "d"; B "e"]; [B "a"; B "f"]; [B "c"]].
Proof. vm_compute. reflexivity. Qed.

Lemma declare_bindings_keeps_entries_witness : all_leaves result.1 ≡ₚ [] ++ entries_leaves [] entries.
Proof.
  exact (proj1 (declare_bindings_keeps_entries ∅ KAttrs 0 [] entries start 2 result.1 result.2 declared_result result_no_errors)).
Defined.

Lemma compile_bindings_terminates_witness :
  entries_size entries = 13 ∧
  compile_bindings true ∅ (mkSite [] here (λ p, p)) 100 0 KAttrs here [] entries start =
  compile_bindings true ∅ (mkSite [] here (λ p, p)) (S (entries_size entries)) 0 KAttrs here [] entries start.
Proof.
  split; [reflexivity|].
  exact (proj2 (compile_bindings_terminates true ∅ (mkSite [] here (λ p, p)) KAttrs entries) 100 0 here [] start
           ltac:(vm_compute; lia)).
Defined.

(** [{ a = 1; a.b = 2; }] is refused. *)
Example unmergeable :
  match declare_bindings ∅ KAttrs 0 [] [entry ["a"]%string (leaf 1); entry ["a"; "b"]%string (leaf 2)] start with
  | Ok ((n, _), c) => n = 1 ∧ map fst (errors c) = [UnmergeableValue]
  | _ => False
  end.
Proof. split; reflexivity. Qed.

End Examples.
