(* ===== verification/Generators.v ===== *)
(** * [eval/src/vm/generators.rs] and the generators of [eval/src]

    The asynchronous functions that run on the virtual machine: forcing
    ([value/thunk.rs]), equality, ordering, string coercion and deep forcing
    ([value/mod.rs]), addition, comparison and dynamic lookup ([vm/mod.rs]).

    A generator is a tree of requests to the machine; the answer selects the
    rest of the computation. Reading and writing thunk cells are steps of their
    own. A [loop] without bound is a label: awaiting it runs one turn of its
    body, which may await it again, so no fuel is involved. Reference counts
    are not modelled: where [Rc::try_unwrap] would let a thunk be reused in
    place, the shared case is taken. *)

From stdpp Require Import strings gmap.
From Stdlib Require Import SpecFloat.
From S2P Require Import Prelude Crates StdText BTreeMap NixString NixAttrs Bytecode Value.
#[local] Open Scope nat_scope.

Inductive PointerEquality := ForbidAll | AllowNested | AllowAll.

Definition ptr_rank (p : PointerEquality) : nat :=
  match p with ForbidAll => 0 | AllowNested => 1 | AllowAll => 2 end.
Definition ptr_max (p q : PointerEquality) : PointerEquality :=
  if ptr_rank p <? ptr_rank q then q else p.

(** ** Requests and responses *)

Inductive VMRequest :=
| ForceValue (v : Value)
| DeepForceValue (v : Value)
| WithValue (idx : nat)
| CapturedWithValue (idx : nat)
| NixEquality (a b : Value) (ptr_eq : PointerEquality)
| StackPush (v : Value)
| StackPop
| StringCoerce (v : Value) (kind : CoercionKind)
| Call (v : Value)
| EnterLambda (l : Lambda Value) (u : Upvalues Value) (span : Span)
| PathImport (p : bytes)
| TryForce (v : Value)
| EmitWarningKind (w : bytes)
| RequestSpan.

Inductive VMResponse :=
| RespEmpty
| RespValue (v : Value)
| RespPath (p : bytes)
| RespSpan (sp : Span).

(** The loops, with their variables. *)
Inductive Loop :=
| LForce (myself : Addr) (also_update : list Addr) (span : Span)
| LDeepForce (vals : list Value) (thunk_set : gset Addr) (span : Span)
| LEq (vals : list (Value * Value * PointerEquality)) (span : Span)
| LCmp (vals : list (Value * Value * PointerEquality)) (span : Span)
| LCoerce (vals : list Value) (is_list_head : option bool) (ctx : NixContext) (result : bytes)
    (kind : CoercionKind) (span : Span)
| LWith (ident : bytes) (vm_with captured_with : nat)
| LSort (comparator : Value) (data : list Value) (len : nat)
| LClosure (operator : Value) (work_set res done_keys : list Value)
| LSplit (regex : bytes) (s : NixString) (pos : nat) (ret : list Value).

(** What a loop answers, errors aside. *)
Inductive LoopResult :=
| LValue (v : Value)
| LUnchanged
| LOrdering (r : CatchableErrorKind + comparison).

Inductive Gen :=
| GDone (r : LoopResult)
| GErr (e : ErrorKind)
| GPanic
| GYield (r : VMRequest) (k : VMResponse → Gen)
| GRead (k : Heap → Gen)
| GSet (t : Addr) (r : ThunkRepr) (k : Gen)
| GAlloc (k : Addr → Gen)
| GAwait (l : Loop) (k : LoopResult → Gen).

(** [m.await?] followed by [f] *)
Fixpoint gbind (m : Gen) (f : LoopResult → Gen) : Gen :=
  match m with
  | GDone r => f r
  | GErr e => GErr e
  | GPanic => GPanic
  | GYield r k => GYield r (λ x, gbind (k x) f)
  | GRead k => GRead (λ h, gbind (k h) f)
  | GSet t r k => GSet t r (gbind k f)
  | GAlloc k => GAlloc (λ a, gbind (k a) f)
  | GAwait l k => GAwait l (λ x, gbind (k x) f)
  end.

Definition GValue (v : Value) : Gen := GDone (LValue v).

(** Running the loop to its end is the result. *)
Definition gloop (l : Loop) : Gen := GAwait l GDone.

(** A fallible cast, with the heap. *)
Definition gtry {A} (f : Heap → outcome ErrorKind A) (k : A → Gen) : Gen :=
  GRead (λ h, match f h with Ok a => k a | Err e => GErr e | Panic => GPanic end).

(** A request answered by a value. *)
Definition grequest (r : VMRequest) (k : Value → Gen) : Gen :=
  GYield r (λ resp, match resp with RespValue v => k v | _ => GPanic end).

(** What the machine is given: I/O, the native functions behind builtins and
    native thunks, path cleaning ([path_clean]), float formatting and regular
    expressions. *)
Class EvalEnv := {
  io_import_path : bytes → outcome ErrorKind bytes;
  search_path_resolve : bytes → outcome ErrorKind (CatchableErrorKind + bytes);
  home_dir : option bytes;
  builtin_func : bytes → list Value → Gen;
  native_func : nat → outcome ErrorKind Value;
  canon_path : bytes → bytes;
  format_float_6 : spec_float → bytes;
  env_regex :: Regex;
}.

Section Generators.
Context `{!EvalEnv}.
Context (dbg : bool).

(** ** Forcing *)

(** [Thunk::prepare_blackhole] *)
Definition prepare_blackhole (r : ThunkRepr) (forced_at : Span) : outcome ErrorKind ThunkRepr :=
  match r with
  | Suspended l _ sp =>
      let? content := Chunk.first_span (chunk l) in
      Ok (Blackhole forced_at (Some sp) (Some content))
  | _ => Ok (Blackhole forced_at None None)
  end.

Fixpoint update_all (ts : list Addr) (v : Value) (k : Gen) : Gen :=
  match ts with
  | [] => k
  | t :: ts => GSet t (Evaluated v) (update_all ts v k)
  end.

(** A turn of [Thunk::force_]. Where an inner thunk has no other owner the code
    takes its representation out of the [Rc] instead of cloning it: no one else
    can look at that thunk. *)
Definition force_body (myself : Addr) (also_update : list Addr) (span : Span) : Gen :=
  GRead (λ h,
    match h !! myself with
    | None => GPanic
    | Some inner =>
        if repr_is_forced inner then
          match inner with
          | Evaluated v => update_all also_update v (GValue v)
          | _ => GPanic
          end
        else
          match prepare_blackhole inner span with
          | Ok blackhole =>
              GSet myself blackhole
                (match inner with
                 | Blackhole forced_at suspended_at content_span =>
                     GErr (InfiniteRecursion forced_at suspended_at content_span)
                 | Native f =>
                     match native_func f with
                     | Ok v => GSet myself (Evaluated v) (gloop (LForce myself also_update span))
                     | Err e => GErr e
                     | Panic => GPanic
                     end
                 | Suspended l u sp =>
                     grequest (EnterLambda l u sp) (λ v,
                       GSet myself (Evaluated v) (gloop (LForce myself also_update span)))
                 | Evaluated (VThunk inner_thunk) =>
                     GRead (λ h,
                       match h !! inner_thunk with
                       | None => GPanic
                       | Some r =>
                           if repr_is_forced r then
                             match r with
                             | Evaluated v =>
                                 GSet myself (Evaluated v) (gloop (LForce myself also_update span))
                             | _ => GPanic
                             end
                           else gloop (LForce inner_thunk (also_update ++ [myself]) span)
                       end)
                 | Evaluated v => GValue v
                 end)
          | Err e => GErr e
          | Panic => GPanic
          end
    end).

(** [Value::force] *)
Definition force (v : Value) (span : Span) (k : Value → Gen) : Gen :=
  match v with
  | VThunk t => GAwait (LForce t [] span) (λ r, match r with LValue v => k v | _ => GPanic end)
  | v => k v
  end.

(** [request_force] *)
Definition request_force (v : Value) (k : Value → Gen) : Gen :=
  match v with
  | VThunk _ => grequest (ForceValue v) k
  | v => k v
  end.

(** [Value::deep_force_] and [deep_force] *)
Definition deep_force_body (vals : list Value) (thunk_set : gset Addr) (span : Span) : Gen :=
  match vals with
  | [] => GDone LUnchanged
  | v :: vals =>
      let go thunk_set value :=
        match value with
        | VNull | VBool _ | VInteger _ | VFloat _ | VString _ | VPath _ | VClosure _ _ | VBuiltin _ =>
            gloop (LDeepForce vals thunk_set span)
        | VList _ l => gloop (LDeepForce (l ++ vals) thunk_set span)
        | VAttrs _ a => gloop (LDeepForce ((iter a).*2 ++ vals) thunk_set span)
        | VCatchable _ => GValue value
        | _ => GPanic
        end in
      match v with
      | VThunk t =>
          if bool_decide (t ∈ thunk_set) then gloop (LDeepForce vals thunk_set span)
          else force v span (go ({[ t ]} ∪ thunk_set))
      | v => go thunk_set v
      end
  end.

Definition deep_force (v : Value) (span : Span) : Gen :=
  GAwait (LDeepForce [v] ∅ span) (λ r, match r with LUnchanged => GValue v | r => GDone r end).

(** ** Equality *)

(** [Thunk::ptr_eq] *)
Definition thunk_ptr_eq (h : Heap) (t u : Addr) : bool :=
  bool_decide (t = u) ||
  match h !! t, h !! u with
  | Some (Evaluated (VClosure c1 _)), Some (Evaluated (VClosure c2 _)) => bool_decide (c1 = c2)
  | _, _ => false
  end.

Definition f64_eqb (a b : spec_float) : bool := SFeqb a b.

(** The values of two attribute sets and their keys, in the order in which they
    are compared. *)
Definition attr_pairs (p : PointerEquality) (a b : AttrsRep Value) : list (Value * Value * PointerEquality) :=
  zip (iter a) (iter b) ≫= λ '((k1, v1), (k2, v2)), [(VString k1, VString k2, p); (v1, v2, p)].

(** Derivations are compared by [outPath] only. *)
Definition eq_derivations (a1 a2 : AttrsRep Value) (span : Span) (next : Gen) (otherwise : Gen) : Gen :=
  match select (B "type") a1, select (B "type") a2 with
  | Some v1, Some v2 =>
      force v1 span (λ s1,
      gtry (λ h, is_catchable h s1) (λ c1 : bool,
      if c1 then GValue s1
      else force v2 span (λ s2,
      gtry (λ h, is_catchable h s2) (λ c2 : bool,
      if c2 then GValue s2
      else GRead (λ h,
        match to_str h s1, to_str h s2 with
        | Ok s1, Ok s2 =>
            if bool_decide (contents s1 = B "derivation") && bool_decide (contents s2 = B "derivation") then
              match select (B "outPath") a1, select (B "outPath") a2 with
              | Some out1, Some out2 =>
                  force out1 span (λ out1, force out2 span (λ out2,
                  gtry (λ h, is_catchable h out1) (λ c1 : bool,
                  if c1 then GValue out1
                  else gtry (λ h, is_catchable h out2) (λ c2 : bool,
                  if c2 then GValue out2
                  else gtry (λ h, to_contextful_str h out1) (λ o1,
                       gtry (λ h, to_contextful_str h out2) (λ o2,
                       if NixString_eqb o1 o2 then next else GValue (VBool false)))))))
              | _, _ => GErr (AttributeNotFound (B "outPath"))
              end
            else otherwise
        | Panic, _ | _, Panic => GPanic
        | _, _ => otherwise
        end)))))
  | _, _ => otherwise
  end.

(** A turn of [Value::nix_eq], on values that are forced. *)
Definition eq_forced (a b : Value) (ptr_eq : PointerEquality) (vals : list (Value * Value * PointerEquality))
    (span : Span) : Gen :=
  let next := gloop (LEq vals span) in
  let result (r : bool) := if r then next else GValue (VBool false) in
  let nested := ptr_max ptr_eq AllowNested in
  match a, b with
  | VCatchable _, _ => GValue a
  | _, VCatchable _ => GValue b
  | VNull, VNull => result true
  | VBool b1, VBool b2 => result (Bool.eqb b1 b2)
  | VString s1, VString s2 => result (NixString_eqb s1 s2)
  | VPath p1, VPath p2 => result (bool_decide (p1 = p2))
  | VInteger i1, VInteger i2 => result (i1 =? i2)%Z
  | VInteger i, VFloat f => result (f64_eqb (f64_of_i64 i) f)
  | VFloat f1, VFloat f2 => result (f64_eqb f1 f2)
  | VFloat f, VInteger i => result (f64_eqb (f64_of_i64 i) f)
  | VList r1 l1, VList r2 l2 =>
      if (ptr_rank AllowNested <=? ptr_rank ptr_eq) && bool_decide (r1 = r2) then next
      else if negb (length l1 =? length l2) then GValue (VBool false)
      else gloop (LEq (zip_with (λ x y, (x, y, nested)) l1 l2 ++ vals) span)
  | _, VList _ _ | VList _ _, _ => GValue (VBool false)
  | VAttrs r1 a1, VAttrs r2 a2 =>
      if (ptr_rank AllowNested <=? ptr_rank ptr_eq) && bool_decide (r1 = r2) then next
      else eq_derivations a1 a2 span next
             (if negb (attrs_len a1 =? attrs_len a2) then GValue (VBool false)
              else gloop (LEq (attr_pairs nested a1 a2 ++ vals) span))
  | VAttrs _ _, _ | _, VAttrs _ _ => GValue (VBool false)
  | VClosure c1 _, VClosure c2 _ =>
      if ptr_rank AllowNested <=? ptr_rank ptr_eq then
        if bool_decide (c1 = c2) then next else GValue (VBool false)
      else GValue (VBool false)
  | _, _ => GValue (VBool false)
  end.

Definition eq_body (vals : list (Value * Value * PointerEquality)) (span : Span) : Gen :=
  match vals with
  | [] => GValue (VBool true)
  | (a, b, ptr_eq) :: vals =>
      let rest a := force b span (λ b, eq_forced a b ptr_eq vals span) in
      match a with
      | VThunk t =>
          match ptr_eq, b with
          | AllowAll, VThunk t1 =>
              GRead (λ h, if thunk_ptr_eq h t1 t then gloop (LEq vals span) else force a span rest)
          | _, _ => force a span rest
          end
      | a => rest a
      end
  end.

Definition nix_eq (a b : Value) (ptr_eq : PointerEquality) (span : Span) : Gen :=
  gloop (LEq [(a, b, ptr_eq)] span).

(** ** Ordering *)

(** The pairs of a list comparison, from the first element on; where one list
    ends, a pair of integers decides. *)
Fixpoint list_pairs (l1 l2 : list Value) : list (Value * Value * PointerEquality) :=
  match l1, l2 with
  | [], [] => []
  | _ :: l1, [] => (VInteger 1, VInteger 0, ForbidAll) :: list_pairs l1 []
  | [], _ :: l2 =>
      (VInteger 0, VInteger 1, ForbidAll) :: replicate (length l2) (VInteger 0, VInteger 1, ForbidAll)
  | x :: l1, y :: l2 => (x, y, AllowAll) :: list_pairs l1 l2
  end.

Definition cmp_forced (a b : Value) (vals : list (Value * Value * PointerEquality)) (span : Span) : Gen :=
  let result (c : comparison) :=
    match c with Eq => gloop (LCmp vals span) | c => GDone (LOrdering (inr c)) end in
  match a, b with
  | VCatchable c, _ => GDone (LOrdering (inl c))
  | _, VCatchable c => GDone (LOrdering (inl c))
  | VInteger i1, VInteger i2 => result (i1 ?= i2)%Z
  | VFloat f1, VFloat f2 => result (f64_total_cmp f1 f2)
  | VString s1, VString s2 => result (NixString_cmp s1 s2)
  | VList _ l1, VList _ l2 => gloop (LCmp (list_pairs l1 l2 ++ vals) span)
  | VInteger i1, VFloat f2 => result (f64_total_cmp (f64_of_i64 i1) f2)
  | VFloat f1, VInteger i2 => result (f64_total_cmp f1 (f64_of_i64 i2))
  | lhs, rhs => GErr (Incomparable (type_of lhs) (type_of rhs))
  end.

Definition cmp_body (vals : list (Value * Value * PointerEquality)) (span : Span) : Gen :=
  match vals with
  | [] => GDone (LOrdering (inr Eq))
  | (a, b, AllowAll) :: vals =>
      GAwait (LEq [(a, b, AllowAll)] span) (λ r,
        match r with
        | LValue v =>
            gtry (λ h, as_bool h v) (λ eq : bool,
              if eq then gloop (LCmp vals span)
              else force a span (λ a, force b span (λ b, cmp_forced a b vals span)))
        | _ => GPanic
        end)
  | (a, b, _) :: vals => cmp_forced a b vals span
  end.

Inductive CmpOp := CLess | CLessOrEq | CMore | CMoreOrEq.

(** [cmp_op!(@order ...)] *)
Definition cmp_result (op : CmpOp) (c : comparison) : bool :=
  match op, c with
  | CLess, Lt => true
  | CMore, Gt => true
  | CLessOrEq, (Eq | Lt) => true
  | CMoreOrEq, (Eq | Gt) => true
  | _, _ => false
  end.

(** The [compare] function of [cmp_op!] *)
Definition compare (op : CmpOp) (a b : Value) : Gen :=
  request_force a (λ a,
  request_force b (λ b,
  GYield RequestSpan (λ resp,
    match resp with
    | RespSpan span =>
        GAwait (LCmp [(a, b, ForbidAll)] span) (λ r,
          match r with
          | LOrdering (inl c) => GValue (VCatchable c)
          | LOrdering (inr c) => GValue (VBool (cmp_result op c))
          | _ => GPanic
          end)
    | _ => GPanic
    end))).

(** ** Coercion to strings *)

Definition i64_to_string (i : Z) : bytes :=
  if (i <? 0)%Z then B "-" ++ u64_to_string (- i) else u64_to_string i.

(** The head of a list is not preceded by a space. *)
Definition push_coerced (is_list_head : option bool) (result s : bytes) : option bool * bytes :=
  match is_list_head with
  | Some true => (Some false, result ++ s)
  | Some false => (Some false, result ++ [Byte.x20] ++ s)
  | None => (None, result ++ s)
  end.

Definition coerce_body (vals : list Value) (is_list_head : option bool) (ctx : NixContext) (result : bytes)
    (kind : CoercionKind) (span : Span) : Gen :=
  match vals with
  | [] => GValue (VString (new_context_from ctx result))
  | v :: vals =>
      force v span (λ value,
        let coerced ctx s :=
          let '(head, result) := push_coerced is_list_head result s in
          gloop (LCoerce vals head ctx result kind span) in
        let fail := GErr (NotCoercibleToString (type_of value) kind) in
        match value with
        | VString s =>
            coerced (match context s with Some c => NixContext_extend ctx c | None => ctx end) (contents s)
        | VPath p =>
            if import_paths kind then
              GYield (PathImport p) (λ resp,
                match resp with
                | RespPath imported => coerced (NixContext_append ctx (Plain imported)) imported
                | _ => GPanic
                end)
            else coerced ctx p
        | VAttrs rc attrs =>
            match select (B "__toString") attrs with
            | Some to_string =>
                force to_string span (λ callable,
                GYield (StackPush (VAttrs rc attrs)) (λ resp,
                match resp with
                | RespEmpty =>
                    request_force callable (λ callable,
                    grequest (Call callable) (λ r,
                      gloop (LCoerce (r :: vals) is_list_head ctx result kind span)))
                | _ => GPanic
                end))
            | None =>
                match select (B "outPath") attrs with
                | Some out_path => gloop (LCoerce (out_path :: vals) is_list_head ctx result kind span)
                | None => GErr (NotCoercibleToString (B "set") kind)
                end
            end
        | VNull | VBool false => if strong kind then coerced ctx [] else fail
        | VBool true => if strong kind then coerced ctx (B "1") else fail
        | VInteger i => if strong kind then coerced ctx (i64_to_string i) else fail
        | VFloat f => if strong kind then coerced ctx (format_float_6 f) else fail
        | VList _ l =>
            if strong kind then
              gloop (LCoerce (l ++ vals) (match is_list_head with None => Some true | h => h end) ctx result
                       kind span)
            else fail
        | VClosure _ _ | VBuiltin _ => fail
        | VCatchable _ => GValue value
        | VThunk _ | VAttrNotFound | VBlueprint _ | VDeferredUpvalue _ | VUnresolvedPath _
        | VFinaliseRequest _ => GPanic
        end)
  end.

Definition coerce_to_string (v : Value) (kind : CoercionKind) (span : Span) : Gen :=
  gloop (LCoerce [v] None NixContext_new [] kind span).

(** [request_string_coerce] *)
Definition request_string_coerce (v : Value) (kind : CoercionKind) (k : CatchableErrorKind + NixString → Gen) : Gen :=
  match v with
  | VString s => k (inr s)
  | v => grequest (StringCoerce v kind) (λ r,
           match r with
           | VCatchable c => k (inl c)
           | r => GRead (λ h, match to_contextful_str h r with Ok s => k (inr s) | _ => GPanic end)
           end)
  end.

(** ** Addition *)

Definition add_values (a b : Value) : Gen :=
  match a, b with
  | VPath p, v =>
      request_string_coerce v (mkCoercionKind false false) (λ r,
        match r with
        | inr vs => GValue (VPath (canon_path (p ++ contents vs)))
        | inl c => GValue (VCatchable c)
        end)
  | VString s1, VString s2 => GValue (VString (concat s1 s2))
  | VString s1, v =>
      request_string_coerce v (mkCoercionKind false true) (λ r,
        match r with
        | inr s2 => GValue (VString (concat s1 s2))
        | inl c => GValue (VCatchable c)
        end)
  | VInteger _, b | VFloat _, b => gtry (λ h, arithmetic_op dbg h OAdd a b) GValue
  | a, b =>
      request_string_coerce a (mkCoercionKind false false) (λ r1,
      request_string_coerce b (mkCoercionKind false false) (λ r2,
        match r1, r2 with
        | inr s1, inr s2 => GValue (VString (concat s1 s2))
        | inl c, _ => GValue (VCatchable c)
        | _, inl c => GValue (VCatchable c)
        end))
  end.

(** ** Dynamic lookup *)

(** A turn of the two loops of [resolve_with], from the innermost set. *)
Definition with_body (ident : bytes) (vm_with captured_with : nat) : Gen :=
  let look v next :=
    gtry (λ h, is_catchable h v) (λ c : bool,
    if c then GValue v
    else gtry (λ h, to_attrs h v) (λ a,
         match select ident a.2 with Some v => GValue v | None => next end)) in
  match vm_with, captured_with with
  | S idx, n => grequest (WithValue idx) (λ v, look v (gloop (LWith ident idx n)))
  | 0, S idx => grequest (CapturedWithValue idx) (λ v, look v (gloop (LWith ident 0 idx)))
  | 0, 0 => GErr (UnknownDynamicVariable ident)
  end.

Definition resolve_with (ident : bytes) (vm_with captured_with : nat) : Gen :=
  gloop (LWith ident vm_with captured_with).

(** ** Calling sets *)

Definition request_call (callable : Value) (k : Value → Gen) : Gen :=
  request_force callable (λ callable, grequest (Call callable) k).

Definition call_functor (v : Value) : Gen :=
  gtry (λ h, to_attrs h v) (λ a,
    match select (B "__functor") a.2 with
    | None => GErr (NotCallable (B "set without `__functor_` attribute"))
    | Some functor =>
        request_force functor (λ functor,
        GYield (StackPush v) (λ resp,
          match resp with
          | RespEmpty => request_call functor (λ primed, request_call primed GValue)
          | _ => GPanic
          end))
    end).

(** ** Helpers of builtins *)

(** [for x in l], with the variables [s] of the loop; [f] continues with its
    last argument, or returns early. *)
Fixpoint gfor {A S} (f : A → S → (S → Gen) → Gen) (l : list A) (s : S) (k : S → Gen) : Gen :=
  match l with
  | [] => k s
  | x :: l => f x s (λ s, gfor f l s k)
  end.

(** [try_value!] *)
Definition try_value (v : Value) (k : Value → Gen) : Gen :=
  gtry (λ h, is_catchable h v) (λ c : bool, if c then GValue v else k v).

Definition request_stack_push (v : Value) (k : Gen) : Gen :=
  GYield (StackPush v) (λ resp, match resp with RespEmpty => k | _ => GPanic end).

Definition request_span (k : Span → Gen) : Gen :=
  GYield RequestSpan (λ resp, match resp with RespSpan span => k span | _ => GPanic end).

Definition request_deep_force (v : Value) (k : Value → Gen) : Gen := grequest (DeepForceValue v) k.

Definition request_try_force (v : Value) (k : Value → Gen) : Gen :=
  match v with
  | VThunk _ => grequest (TryForce v) k
  | v => k v
  end.

Definition emit_warning_kind (w : bytes) (k : Gen) : Gen :=
  GYield (EmitWarningKind w) (λ resp, match resp with RespEmpty => k | _ => GPanic end).

(** The arguments are pushed from the last one on, then the callable and its
    results are called as often. *)
Fixpoint call_times (n : nat) (callable : Value) (k : Value → Gen) : Gen :=
  match n with
  | 0 => k callable
  | S n => request_call callable (λ r, call_times n r k)
  end.
Definition request_call_with (callable : Value) (args : list Value) (k : Value → Gen) : Gen :=
  if dbg && (length args =? 0) then GPanic
  else gfor (λ arg _ next, request_stack_push arg (next tt)) (rev args) tt
         (λ _, call_times (length args) callable k).

Definition check_equality (a b : Value) (ptr_eq : PointerEquality) (k : CatchableErrorKind + bool → Gen) : Gen :=
  grequest (NixEquality a b ptr_eq) (λ v,
    match v with
    | VBool b => k (inr b)
    | VCatchable c => k (inl c)
    | _ => GPanic
    end).

(** A new list or set. *)
Definition new_list (l : list Value) (k : Value → Gen) : Gen := GAlloc (λ rc, k (VList rc l)).
Definition new_attrs (a : AttrsRep Value) (k : Value → Gen) : Gen := GAlloc (λ rc, k (VAttrs rc a)).

Definition select_required (key : bytes) (a : AttrsRep Value) : outcome ErrorKind Value :=
  ok_or (AttributeNotFound key) (select key a).

(** [builtins.sort]: a turn of the inner loop compares with the element before, *)
Definition sort_turn (comparator : Value) (i : nat) (st : list Value * nat) (next : list Value * nat → Gen) : Gen :=
  let '(data, new_len) := st in
  match data !! i, data !! (i - 1) with
  | Some x, Some y =>
      request_call_with comparator [x; y] (λ r,
      request_force r (λ r,
      try_value r (λ r,
      gtry (λ h, omap_err (WithContext (B "evaluating comparator in `builtins.sort`")) (as_bool h r))
        (λ b : bool, if b then next (<[i := y]> (<[i - 1 := x]> data), i) else next (data, new_len)))))
  | _, _ => GPanic
  end.

(** and a turn of the outer loop passes over the elements before [len]. *)
Definition sort_body (comparator : Value) (data : list Value) (len : nat) : Gen :=
  gfor (sort_turn comparator) (seq 1 (len - 1)) (data, 0)
    (λ st, if st.2 =? 0 then new_list st.1 GValue else gloop (LSort comparator st.1 st.2)).

(** [bgc_insert_key]: whether the key is new, and the keys with it. *)
Definition bgc_insert_key (key : Value) (done : list Value) (k : CatchableErrorKind + bool → list Value → Gen) : Gen :=
  gfor (λ existing _ next,
      check_equality existing key ForbidAll (λ r,
        match r with
        | inr true => k (inr false) done
        | inr false => next tt
        | inl c => k (inl c) done
        end))
    done tt (λ _, k (inr true) (done ++ [key])).

(** A turn of the loop of [builtins.genericClosure]. *)
Definition closure_body (operator : Value) (work_set res done_keys : list Value) : Gen :=
  match work_set with
  | [] => new_list res GValue
  | val :: work_set =>
      request_force val (λ val,
      gtry (λ h, to_attrs h val) (λ attrs,
      gtry (λ _, select_required (B "key") attrs.2) (λ key,
      bgc_insert_key key done_keys (λ value_missing done_keys,
        match value_missing with
        | inl c => GValue (VCatchable c)
        | inr false => gloop (LClosure operator work_set res done_keys)
        | inr true =>
            request_call_with operator [val] (λ r,
            request_force r (λ op_result,
            gtry (λ h, to_list h op_result) (λ l,
              gloop (LClosure operator (work_set ++ l.2) (res ++ [val]) done_keys))))
        end))))
  end.

(** [&text[lo..hi]] *)
Definition is_char_boundary (s : bytes) (i : nat) : bool :=
  (i =? 0) || match s !! i with
              | None => i =? length s
              | Some b => negb ((0x80 <=? b2z b)%Z && (b2z b <? 0xC0)%Z)
              end.
Definition str_slice {E} (s : bytes) (lo hi : nat) : outcome E bytes :=
  if (lo <=? hi) && is_char_boundary s lo && is_char_boundary s hi then Ok (take (hi - lo) (drop lo s)) else Panic.

(** A turn of the loop of [builtins.split] on text that is UTF-8. *)
Definition split_body (regex : bytes) (s : NixString) (pos : nat) (ret : list Value) : Gen :=
  let text := contents s in
  let finish ret := gtry (λ _, str_slice text pos (length text)) (λ rest,
                      new_list (ret ++ [VString (plain_string rest)]) GValue) in
  match captures_read_at regex text pos with
  | None => finish ret
  | Some (m_start, m_end, groups) =>
      gtry (λ _, str_slice text pos m_start) (λ before,
      gfor (λ g vs next,
          match g with
          | None => next (vs ++ [VNull])
          | Some (lo, hi) => gtry (λ _, str_slice text lo hi) (λ t, next (vs ++ [VString (plain_string t)]))
          end)
        groups [] (λ vs,
      new_list vs (λ v,
        let ret := ret ++ [VString (new_inherit_context_from s before); v] in
        if pos =? length text then finish ret
        else gloop (LSplit regex s m_end ret))))
  end.

(** ** Loops *)

Definition loop_body (l : Loop) : Gen :=
  match l with
  | LForce myself also_update span => force_body myself also_update span
  | LDeepForce vals thunk_set span => deep_force_body vals thunk_set span
  | LEq vals span => eq_body vals span
  | LCmp vals span => cmp_body vals span
  | LCoerce vals head ctx result kind span => coerce_body vals head ctx result kind span
  | LWith ident n m => with_body ident n m
  | LSort comparator data len => sort_body comparator data len
  | LClosure operator work_set res done_keys => closure_body operator work_set res done_keys
  | LSplit regex s pos ret => split_body regex s pos ret
  end.

End Generators.
