(* ===== verification/Vm.v ===== *)
(** * [eval/src/vm/mod.rs]: the virtual machine

    Frames, the value stack, the stack of [with] scopes and the heap of thunks,
    and a step function: one instruction of the bytecode frame on top, or one
    step of the generator on top. The frame stack and the value stack are lists
    with their top first; an absolute index counts from the bottom.

    Errors carry their kind; the spans and the chain of frames that
    [WithSpan] adds for printing are left out, and so are observers, warnings
    and the requests of impure builtins. *)

From stdpp Require Import strings gmap.
From S2P Require Import Prelude StdPath BTreeMap NixString NixAttrs Bytecode Value Generators.
Import Opcode.
#[local] Open Scope nat_scope.

Record CallFrame := mkCallFrame {
  cf_lambda : Lambda Value;
  cf_upvalues : Upvalues Value;
  ip : nat;
  stack_offset : nat;
}.

(** [GeneratorState] says what a suspended generator is sent; [Resumed] is a
    generator that is being driven. *)
Inductive GeneratorState := Running | AwaitingValue.

Inductive Frame :=
| FCall (f : CallFrame) (span : Span)
| FGenerator (span : Span) (state : GeneratorState) (g : VMResponse → Gen)
| FResumed (span : Span) (g : Gen).

Record VM := mkVM {
  frames : list Frame;
  stack : list Value;
  vm_with_stack : list nat;
  vm_heap : Heap;
  vm_next : Addr;
  reasonable_span : Span;
}.

Section Vm.
Context `{!Vu128, !EvalEnv}.
Context (dbg : bool).

Abbreviation R := (outcome ErrorKind).

(** ** The state *)

Definition set_frames (fs : list Frame) (vm : VM) : VM :=
  mkVM fs (stack vm) (vm_with_stack vm) (vm_heap vm) (vm_next vm) (reasonable_span vm).
Definition set_stack (s : list Value) (vm : VM) : VM :=
  mkVM (frames vm) s (vm_with_stack vm) (vm_heap vm) (vm_next vm) (reasonable_span vm).
Definition set_with_stack (w : list nat) (vm : VM) : VM :=
  mkVM (frames vm) (stack vm) w (vm_heap vm) (vm_next vm) (reasonable_span vm).
Definition set_heap (h : Heap) (vm : VM) : VM :=
  mkVM (frames vm) (stack vm) (vm_with_stack vm) h (vm_next vm) (reasonable_span vm).
Definition set_reasonable_span (sp : Span) (vm : VM) : VM :=
  mkVM (frames vm) (stack vm) (vm_with_stack vm) (vm_heap vm) (vm_next vm) sp.

(** A fresh address. *)
Definition alloc (vm : VM) : Addr * VM :=
  (vm_next vm, mkVM (frames vm) (stack vm) (vm_with_stack vm) (vm_heap vm) (S (vm_next vm)) (reasonable_span vm)).

Definition push_frame (f : Frame) (vm : VM) : VM := set_frames (f :: frames vm) vm.
Definition push_call_frame (span : Span) (f : CallFrame) (vm : VM) : VM := push_frame (FCall f span) vm.

(** [enqueue_generator] and [reenqueue_generator] *)
Definition enqueue_generator (span : Span) (g : Gen) (vm : VM) : VM :=
  push_frame (FGenerator span Running (λ _, g)) vm.
Definition reenqueue_generator (span : Span) (k : VMResponse → Gen) (vm : VM) : VM :=
  push_frame (FGenerator span AwaitingValue k) vm.

Definition stack_push (v : Value) (vm : VM) : VM := set_stack (v :: stack vm) vm.

Definition stack_pop (vm : VM) : R (Value * VM) :=
  match stack vm with
  | v :: s => Ok (v, set_stack s vm)
  | [] => Panic
  end.

(** [stack_peek(0)] *)
Definition stack_peek (vm : VM) : R Value := or_panic (head (stack vm)).

(** [self.stack[idx]] *)
Definition stack_get (vm : VM) (idx : nat) : option Value := rev (stack vm) !! idx.

Fixpoint last_call_frame (fs : list Frame) : option CallFrame :=
  match fs with
  | [] => None
  | FCall f _ :: _ => Some f
  | _ :: fs => last_call_frame fs
  end.

(** ** Reading instructions *)

Definition set_ip (i : nat) (f : CallFrame) : CallFrame :=
  mkCallFrame (cf_lambda f) (cf_upvalues f) i (stack_offset f).

Definition cf_chunk (f : CallFrame) : @Chunk.Chunk Value Span := chunk (cf_lambda f).

Definition inc_ip (f : CallFrame) : R (Op * CallFrame) :=
  let? b := or_panic (Chunk.code (cf_chunk f) !! ip f) in
  Ok (from_u8 (b2z b), set_ip (S (ip f)) f).

Definition frame_read_uvarint (f : CallFrame) : R (nat * CallFrame) :=
  let? (arg, size) := Chunk.read_uvarint dbg (cf_chunk f) (ip f) in
  Ok (Z.to_nat arg, set_ip (ip f + size) f).

Definition frame_read_u16 (f : CallFrame) : R (nat * CallFrame) :=
  let? arg := Chunk.read_u16 (cf_chunk f) (ip f) in
  Ok (Z.to_nat arg, set_ip (ip f + 2) f).

Definition current_span (f : CallFrame) : R Span := Chunk.get_span (cf_chunk f) (ip f - 1).

Definition get_const (f : CallFrame) (idx : nat) : R Value := or_panic (Chunk.constants (cf_chunk f) !! idx).

(** The next instruction of the same frame. *)
Definition continue (span : Span) (f : CallFrame) (vm : VM) : R VM := Ok (push_call_frame span f vm).

(** [lifted_pop!]: operands are popped, and the first of them that is a failure
    is the result. *)
Definition lifted_pop1 (span : Span) (f : CallFrame) (vm : VM) (body : Value → VM → R VM) : R VM :=
  let? (a, vm) := stack_pop vm in
  let? c := is_catchable (vm_heap vm) a in
  if c : bool then continue span f (stack_push a vm) else body a vm.

Definition lifted_pop2 (span : Span) (f : CallFrame) (vm : VM) (body : Value → Value → VM → R VM) : R VM :=
  let? (a, vm) := stack_pop vm in
  let? (b, vm) := stack_pop vm in
  let? c := is_catchable (vm_heap vm) a in
  if c : bool then continue span f (stack_push a vm)
  else let? c := is_catchable (vm_heap vm) b in
       if c : bool then continue span f (stack_push b vm) else body a b vm.

(** Suspends the frame in favour of a generator. *)
Definition suspend (span : Span) (f : CallFrame) (g : Span → Gen) (vm : VM) : R VM :=
  let? gen_span := current_span f in
  Ok (enqueue_generator gen_span (g gen_span) (push_call_frame span f vm)).

(** ** Calls *)

Definition apply_arg (b : BuiltinRepr Value) (arg : Value) : R (BuiltinRepr Value) :=
  let b := mkBuiltin (builtin_name b) (arg_count b) (partials b ++ [arg]) in
  if dbg && negb (length (partials b) <=? arg_count b) then Panic else Ok b.

Definition call_builtin (span : Span) (b : BuiltinRepr Value) (vm : VM) : R VM :=
  let? (arg, vm) := stack_pop vm in
  let? b := apply_arg b arg in
  if length (partials b) =? arg_count b
  then Ok (push_frame (FGenerator span Running (λ _, builtin_func (builtin_name b) (partials b))) vm)
  else Ok (stack_push (VBuiltin b) vm).

Definition push_parent (parent : option (Span * CallFrame)) (vm : VM) : VM :=
  match parent with Some (sp, f) => push_call_frame sp f vm | None => vm end.

(** [call_value] on a value that is no thunk. *)
Definition call_forced (span : Span) (parent : option (Span * CallFrame)) (callable : Value) (vm : VM) : R VM :=
  match callable with
  | VBuiltin b => call_builtin span b vm
  | VClosure _ c =>
      if length (stack vm) =? 0 then Panic
      else Ok (push_call_frame span
                 (mkCallFrame (closure_lambda c) (closure_upvalues c) 0 (length (stack vm) - 1))
                 (push_parent parent vm))
  | VAttrs _ _ => Ok (enqueue_generator span (call_functor callable) (push_parent parent vm))
  | VCatchable _ => Ok (stack_push callable (set_stack (tail (stack vm)) vm))
  | v => Err (NotCallable (type_of v))
  end.

(** Thunks are looked through, as often as there are cells. *)
Fixpoint call_fuel (fuel : nat) (span : Span) (parent : option (Span * CallFrame)) (callable : Value) (vm : VM) : R VM :=
  match callable with
  | VThunk t =>
      match fuel with
      | 0 => Panic
      | S fuel => let? v := thunk_value (vm_heap vm) t in call_fuel fuel span parent v vm
      end
  | v => call_forced span parent v vm
  end.

Definition call_value (span : Span) (parent : option (Span * CallFrame)) (callable : Value) (vm : VM) : R VM :=
  call_fuel (S (size (vm_heap vm))) span parent callable vm.

(** ** Upvalues *)

Fixpoint populate_static (count : nat) (vm : VM) (f : CallFrame) (acc : list Value)
    : R (list Value * CallFrame) :=
  match count with
  | 0 => Ok (acc, f)
  | S count =>
      let? (arg, size) := Chunk.read_uvarint dbg (cf_chunk f) (ip f) in
      let f := set_ip (ip f + size) f in
      match runtime_stack_index arg with
      | Some i =>
          match stack_get vm (stack_offset f + Z.to_nat i) with
          | Some v => populate_static count vm f (acc ++ [v])
          | None => Err (TvixBug (B "upvalue to be captured was missing on stack"))
          end
      | None =>
          match runtime_deferred_local arg with
          | Some i => populate_static count vm f (acc ++ [VDeferredUpvalue (Z.to_nat i)])
          | None =>
              match runtime_upvalue_index arg with
              | Some i =>
                  let? v := or_panic (static_upvalues (cf_upvalues f) !! Z.to_nat i) in
                  populate_static count vm f (acc ++ [v])
              | None => Panic
              end
          end
      end
  end.

Fixpoint captured_withs (vm : VM) (idxs : list nat) : R (list Value) :=
  match idxs with
  | [] => Ok []
  | idx :: idxs =>
      let? v := or_panic (stack_get vm idx) in
      let? vs := captured_withs vm idxs in
      Ok (v :: vs)
  end.

(** [populate_upvalues], on fresh upvalues. *)
Definition populate_upvalues (vm : VM) (f : CallFrame) (count : nat) : R (Upvalues Value * CallFrame) :=
  let capture_with := Nat.odd count in
  let? w :=
    if capture_with then
      let? vs := captured_withs vm (vm_with_stack vm) in
      Ok (Some (default [] (Value.with_stack (cf_upvalues f)) ++ vs))
    else Ok None in
  let? (us, f) := populate_static (Nat.div2 count) vm f [] in
  Ok (mkUpvalues us w, f).

(** [Upvalues::resolve_deferred_upvalues], on the part of the stack from
    [offset] on. *)
Fixpoint resolve_deferred (vm : VM) (offset : nat) (us : list Value) : R (list Value) :=
  match us with
  | [] => Ok []
  | u :: us =>
      let? u := match u with
                | VDeferredUpvalue idx => or_panic (stack_get vm (offset + idx))
                | u => Ok u
                end in
      let? us := resolve_deferred vm offset us in
      Ok (u :: us)
  end.

(** [Thunk::finalise] *)
Definition finalise (vm : VM) (offset : nat) (t : Addr) : R VM :=
  match vm_heap vm !! t with
  | Some (Suspended l u sp) =>
      let? us := resolve_deferred vm offset (static_upvalues u) in
      Ok (set_heap (<[t := Suspended l (mkUpvalues us (Value.with_stack u)) sp]> (vm_heap vm)) vm)
  | Some (Evaluated (VClosure rc c)) =>
      let u := closure_upvalues c in
      let? us := resolve_deferred vm offset (static_upvalues u) in
      Ok (set_heap (<[t := Evaluated (VClosure rc (mkClosure (closure_lambda c) (mkUpvalues us (Value.with_stack u))))]>
                      (vm_heap vm)) vm)
  | _ => Panic
  end.

(** ** Instructions *)

Definition drop_count (count : nat) (vm : VM) : R (list Value * VM) :=
  if length (stack vm) <? count then Panic
  else Ok (rev (take count (stack vm)), set_stack (drop count (stack vm)) vm).

(** [run_attrset] *)
Definition attr_key_view (v : Value) : KeyView CatchableErrorKind :=
  match v with
  | VString s => KString s
  | VNull => KNull
  | VCatchable c => KCatchable c
  | _ => KOther
  end.

Definition construct_error (e : ConstructError Value) : ErrorKind :=
  match e with
  | NixAttrs.DuplicateAttrsKey k => DuplicateAttrsKey k
  | NixAttrs.InvalidAttributeName v => InvalidAttributeName v
  end.

Definition run_attrset (count : nat) (vm : VM) : R VM :=
  let? (slice, vm) := drop_count (count * 2) vm in
  let? r := omap_err construct_error (construct attr_key_view count slice) in
  match r with
  | inl c => Ok (stack_push (VCatchable c) vm)
  | inr a => let '(rc, vm) := alloc vm in Ok (stack_push (VAttrs rc a) vm)
  end.

(** [run_interpolate]: [count] fragments are left. *)
Fixpoint interpolate (count : nat) (out : bytes) (ctx : NixContext) (vm : VM) : R VM :=
  match count with
  | 0 => Ok (stack_push (VString (new_context_from ctx out)) vm)
  | S count =>
      let? (v, vm) := stack_pop vm in
      let? c := is_catchable (vm_heap vm) v in
      if c : bool then Ok (stack_push v (set_stack (drop count (stack vm)) vm))
      else
        let? s := to_contextful_str (vm_heap vm) v in
        interpolate count (out ++ contents s)
          (match context s with Some c => NixContext_extend ctx c | None => ctx end) vm
  end.

Definition run_interpolate (count : nat) (vm : VM) : R VM := interpolate count [] NixContext_new vm.

(** The distance of a jump, which is never 0. *)
Definition read_jump (f : CallFrame) : R (nat * CallFrame) :=
  let? (offset, f) := frame_read_u16 f in
  if dbg && (offset =? 0) then Panic else Ok (offset, f).

Definition jump (offset : nat) (f : CallFrame) : CallFrame := set_ip (ip f + offset) f.

Definition blueprint (f : CallFrame) (idx : nat) : R (Lambda Value) :=
  let? v := get_const f idx in
  match v with VBlueprint l => Ok l | _ => Panic end.

(** [ThunkSuspended] and [ThunkClosure]: the thunk is on the stack before its
    upvalues are captured. *)
Definition exec_thunk (is_closure : bool) (span : Span) (f : CallFrame) (vm : VM) : R VM :=
  let? (idx, f) := frame_read_uvarint f in
  let? l := blueprint f idx in
  let? (count, f) := frame_read_uvarint f in
  if dbg && negb (Nat.div2 count =? upvalue_count l) then Panic else
  if dbg && is_closure && negb ((0 <? Nat.div2 count) || Nat.odd count) then Panic else
  let? sp := current_span f in
  let '(t, vm) := alloc vm in
  let '(rc, vm) := if is_closure then alloc vm else (t, vm) in
  let vm := stack_push (VThunk t) vm in
  let? (u, f) := populate_upvalues vm f count in
  continue span f
    (set_heap (<[t := if is_closure then Evaluated (VClosure rc (mkClosure l u)) else Suspended l u sp]> (vm_heap vm)) vm).

Definition exec_closure (span : Span) (f : CallFrame) (vm : VM) : R VM :=
  let? (idx, f) := frame_read_uvarint f in
  let? l := blueprint f idx in
  let? (count, f) := frame_read_uvarint f in
  if dbg && negb (Nat.div2 count =? upvalue_count l) then Panic else
  if dbg && negb ((0 <? Nat.div2 count) || Nat.odd count) then Panic else
  let? (u, f) := populate_upvalues vm f count in
  let '(rc, vm) := alloc vm in
  continue span f (stack_push (VClosure rc (mkClosure l u)) vm).

Definition exec_arith (op : ArithOp) (span : Span) (f : CallFrame) (vm : VM) : R VM :=
  lifted_pop2 span f vm (λ b a vm,
    let? r := arithmetic_op dbg (vm_heap vm) op a b in
    continue span f (stack_push r vm)).

Definition exec_div (span : Span) (f : CallFrame) (vm : VM) : R VM :=
  lifted_pop2 span f vm (λ b a vm,
    match b with
    | VInteger 0 => Err DivisionByZero
    | VFloat (SpecFloat.S754_zero _) => Err DivisionByZero
    | _ =>
        let? r := arithmetic_op dbg (vm_heap vm) ODiv a b in
        continue span f (stack_push r vm)
    end).

Definition exec_cmp (op : CmpOp) (span : Span) (f : CallFrame) (vm : VM) : R VM :=
  lifted_pop2 span f vm (λ b a vm, suspend span f (λ _, compare op a b) vm).

Definition assert_type (is_type : Heap → Value → R bool) (expected : bytes) (vm : VM) : R unit :=
  let? v := stack_peek vm in
  let? c := is_catchable (vm_heap vm) v in
  if c : bool then Ok tt
  else let? t := is_type (vm_heap vm) v in
       if t : bool then Ok tt else Err (TypeError expected (type_of v)).

Fixpoint unexpected_arg (fm : Formals) (ks : list NixString) : option NixString :=
  match ks with
  | [] => None
  | k :: ks => if formals_contains fm (contents k) then unexpected_arg fm ks else Some k
  end.

Definition exec_get_upvalue (span : Span) (f : CallFrame) (vm : VM) : R VM :=
  let? (idx, f) := frame_read_uvarint f in
  let? v := or_panic (static_upvalues (cf_upvalues f) !! idx) in
  continue span f (stack_push v vm).

Definition exec_call (span : Span) (f : CallFrame) (vm : VM) : R VM :=
  let? (callable, vm) := stack_pop vm in
  let? sp := current_span f in
  call_value sp (Some (span, f)) callable vm.

Definition exec_close_scope (span : Span) (f : CallFrame) (vm : VM) : R VM :=
  let? (count, f) := frame_read_uvarint f in
  let? (v, vm) := stack_pop vm in
  if (count =? 0) || (length (stack vm) <? count) then Panic
  else continue span f (stack_push v (set_stack (drop count (stack vm)) vm)).

Definition exec_attrs_select (span : Span) (f : CallFrame) (vm : VM) : R VM :=
  lifted_pop2 span f vm (λ key attrs vm,
    let? key := to_str (vm_heap vm) key in
    let? attrs := to_attrs (vm_heap vm) attrs in
    match select (contents key) attrs.2 with
    | Some v => continue span f (stack_push v vm)
    | None => Err (AttributeNotFound (contents key))
    end).

Definition exec_jump_if_no_finalise_request (span : Span) (f : CallFrame) (vm : VM) : R VM :=
  let? (offset, f) := read_jump f in
  let? v := stack_peek vm in
  match v with
  | VFinaliseRequest b => continue span (if negb b then jump offset f else f) vm
  | _ => Panic
  end.

Definition exec_attrs_try_select (span : Span) (f : CallFrame) (vm : VM) : R VM :=
  let? (key, vm) := stack_pop vm in
  let? key := to_str (vm_heap vm) key in
  let? (attrs, vm) := stack_pop vm in
  let v := match attrs with
           | VAttrs _ a => match select (contents key) a with Some v => v | None => VAttrNotFound end
           | _ => VAttrNotFound
           end in
  continue span f (stack_push v vm).

Definition exec_get_local (span : Span) (f : CallFrame) (vm : VM) : R VM :=
  let? (idx, f) := frame_read_uvarint f in
  let? v := or_panic (stack_get vm (stack_offset f + idx)) in
  continue span f (stack_push v vm).

Definition exec_jump_if_not_found (span : Span) (f : CallFrame) (vm : VM) : R VM :=
  let? (offset, f) := read_jump f in
  let? v := stack_peek vm in
  match v with
  | VAttrNotFound => continue span (jump offset f) (set_stack (tail (stack vm)) vm)
  | _ => continue span f vm
  end.

Definition exec_attrs_update (span : Span) (f : CallFrame) (vm : VM) : R VM :=
  lifted_pop2 span f vm (λ rhs lhs vm,
    let? rhs := to_attrs (vm_heap vm) rhs in
    let? lhs := to_attrs (vm_heap vm) lhs in
    let '(rc, vm) := alloc vm in
    continue span f (stack_push (VAttrs rc (update lhs.2 rhs.2)) vm)).

Definition exec_list (span : Span) (f : CallFrame) (vm : VM) : R VM :=
  let? (count, f) := frame_read_uvarint f in
  let? (l, vm) := drop_count count vm in
  let '(rc, vm) := alloc vm in
  continue span f (stack_push (VList rc l) vm).

Definition exec_has_attr (span : Span) (f : CallFrame) (vm : VM) : R VM :=
  lifted_pop2 span f vm (λ key attrs vm,
    let? key := to_str (vm_heap vm) key in
    let r := match attrs with VAttrs _ a => contains (contents key) a | _ => false end in
    continue span f (stack_push (VBool r) vm)).

Definition exec_concat (span : Span) (f : CallFrame) (vm : VM) : R VM :=
  lifted_pop2 span f vm (λ rhs lhs vm,
    let? rhs := to_list (vm_heap vm) rhs in
    let? lhs := to_list (vm_heap vm) lhs in
    let '(rc, vm) := alloc vm in
    continue span f (stack_push (VList rc (lhs.2 ++ rhs.2)) vm)).

Definition exec_resolve_with (span : Span) (f : CallFrame) (vm : VM) : R VM :=
  let? (ident, vm) := stack_pop vm in
  let? ident := to_str (vm_heap vm) ident in
  let captured := length (default [] (Value.with_stack (cf_upvalues f))) in
  suspend span f (λ _, resolve_with (contents ident) (length (vm_with_stack vm)) captured) vm.

Definition exec_finalise (span : Span) (f : CallFrame) (vm : VM) : R VM :=
  let? (idx, f) := frame_read_uvarint f in
  let? v := or_panic (stack_get vm (stack_offset f + idx)) in
  match v with
  | VThunk t => let? vm := finalise vm (stack_offset f) t in continue span f vm
  | _ => Panic
  end.

Definition exec_coerce_to_string (span : Span) (f : CallFrame) (vm : VM) : R VM :=
  let? b := or_panic (Chunk.code (cf_chunk f) !! ip f) in
  let kind := coercion_of_u8 (b2z b) in
  let f := set_ip (S (ip f)) f in
  let? (v, vm) := stack_pop vm in
  suspend span f (λ sp, coerce_to_string v kind sp) vm.

Definition exec_validate_closed_formals (span : Span) (f : CallFrame) (vm : VM) : R VM :=
  let? fm := or_panic (formals (cf_lambda f)) in
  let? v := stack_peek vm in
  let? c := is_catchable (vm_heap vm) v in
  if c : bool then continue span f vm
  else let? args := to_attrs (vm_heap vm) v in
       match unexpected_arg fm (keys args.2) with
       | Some arg => Err (UnexpectedArgumentFormals arg (formals_span fm))
       | None => continue span f vm
       end.

Definition exec_find_file (span : Span) (f : CallFrame) (vm : VM) : R VM :=
  let? (v, vm) := stack_pop vm in
  match v with
  | VUnresolvedPath p =>
      let? r := search_path_resolve p in
      continue span f (stack_push (match r with inr p => VPath p | inl c => VCatchable c end) vm)
  | _ => Panic
  end.

Definition exec_resolve_home_path (span : Span) (f : CallFrame) (vm : VM) : R VM :=
  let? (v, vm) := stack_pop vm in
  match v with
  | VUnresolvedPath p =>
      match home_dir with
      | None => Err (OtherError (B "failed to determine home directory"))
      | Some home => continue span f (stack_push (VPath (path_push home p)) vm)
      end
  | _ => Panic
  end.

(** One turn of the loop of [execute_bytecode]; [vm] has the frame popped. *)
Definition execute_op (op : Op) (span : Span) (f : CallFrame) (vm : VM) : R VM :=
  match op with
  | OpThunkSuspended => exec_thunk false span f vm
  | OpThunkClosure => exec_thunk true span f vm
  | OpForce =>
      match stack vm with
      | VThunk t :: s => suspend span f (λ sp, gloop (LForce t [] sp)) (set_stack s vm)
      | _ => continue span f vm
      end
  | OpGetUpvalue => exec_get_upvalue span f vm
  | OpReturn =>
      if (length (stack vm) =? 0) then (if dbg then Panic else Ok vm)
      else if dbg && negb (length (stack vm) - 1 <=? stack_offset f) then Panic else Ok vm
  | OpConstant =>
      let? (idx, f) := frame_read_uvarint f in
      let? v := get_const f idx in
      continue span f (stack_push v vm)
  | OpCall => exec_call span f vm
  | OpCloseScope => exec_close_scope span f vm
  | OpClosure => exec_closure span f vm
  | OpAttrsSelect => exec_attrs_select span f vm
  | OpJumpIfFalse =>
      let? (offset, f) := read_jump f in
      let? v := stack_peek vm in
      let? b := as_bool (vm_heap vm) v in
      continue span (if negb b then jump offset f else f) vm
  | OpJumpIfCatchable =>
      let? (offset, f) := read_jump f in
      let? v := stack_peek vm in
      let? c := is_catchable (vm_heap vm) v in
      continue span (if c : bool then jump offset f else f) vm
  | OpJumpIfNoFinaliseRequest => exec_jump_if_no_finalise_request span f vm
  | OpPop => continue span f (set_stack (tail (stack vm)) vm)
  | OpAttrsTrySelect => exec_attrs_try_select span f vm
  | OpGetLocal => exec_get_local span f vm
  | OpJumpIfNotFound => exec_jump_if_not_found span f vm
  | OpJump =>
      let? (offset, f) := read_jump f in
      continue span (jump offset f) vm
  | OpEqual =>
      lifted_pop2 span f vm (λ b a vm, suspend span f (λ sp, nix_eq a b ForbidAll sp) vm)
  | OpAssertBool => let? _ := assert_type is_bool (B "bool") vm in continue span f vm
  | OpAssertAttrs => let? _ := assert_type is_attrs (B "set") vm in continue span f vm
  | OpAttrs =>
      let? (count, f) := frame_read_uvarint f in
      let? vm := run_attrset count vm in
      continue span f vm
  | OpAttrsUpdate => exec_attrs_update span f vm
  | OpInvert =>
      lifted_pop1 span f vm (λ v vm,
        let? b := as_bool (vm_heap vm) v in
        continue span f (stack_push (VBool (negb b)) vm))
  | OpList => exec_list span f vm
  | OpJumpIfTrue =>
      let? (offset, f) := read_jump f in
      let? v := stack_peek vm in
      let? b := as_bool (vm_heap vm) v in
      continue span (if b : bool then jump offset f else f) vm
  | OpHasAttr => exec_has_attr span f vm
  | OpConcat => exec_concat span f vm
  | OpResolveWith => exec_resolve_with span f vm
  | OpFinalise => exec_finalise span f vm
  | OpCoerceToString => exec_coerce_to_string span f vm
  | OpInterpolate =>
      let? (count, f) := frame_read_uvarint f in
      let? vm := run_interpolate count vm in
      continue span f vm
  | OpValidateClosedFormals => exec_validate_closed_formals span f vm
  | OpAdd => lifted_pop2 span f vm (λ b a vm, suspend span f (λ _, add_values dbg a b) vm)
  | OpSub => exec_arith OSub span f vm
  | OpMul => exec_arith OMul span f vm
  | OpDiv => exec_div span f vm
  | OpNegate =>
      let? (v, vm) := stack_pop vm in
      match v with
      | VInteger i => let? z := i64_result dbg (- i)%Z in continue span f (stack_push (VInteger z) vm)
      | VFloat x => continue span f (stack_push (VFloat (SpecFloat.SFopp x)) vm)
      | VCatchable c => continue span f (stack_push v vm)
      | v => Err (TypeError (B "number (either int or float)") (type_of v))
      end
  | OpLess => exec_cmp CLess span f vm
  | OpLessOrEq => exec_cmp CLessOrEq span f vm
  | OpMore => exec_cmp CMore span f vm
  | OpMoreOrEq => exec_cmp CMoreOrEq span f vm
  | OpFindFile => exec_find_file span f vm
  | OpResolveHomePath => exec_resolve_home_path span f vm
  | OpPushWith =>
      let? (idx, f') := frame_read_uvarint f in
      continue span f' (set_with_stack (vm_with_stack vm ++ [stack_offset f + idx]) vm)
  | OpPopWith =>
      continue span f (set_with_stack (take (length (vm_with_stack vm) - 1) (vm_with_stack vm)) vm)
  | OpAssertFail => continue span f (stack_push (VCatchable AssertionFailed) vm)
  | OpInvalid => Panic
  end.

(** ** Generators on the machine *)

(** A generator's request: answered at once, or by a frame above it. *)
Definition handle_request (span : Span) (r : VMRequest) (k : VMResponse → Gen) (vm : VM) : R VM :=
  let respond resp vm := Ok (push_frame (FResumed span (k resp)) vm) in
  match r with
  | StackPush v => respond RespEmpty (stack_push v vm)
  | StackPop => let? (v, vm) := stack_pop vm in respond (RespValue v) vm
  | ForceValue v => Ok (enqueue_generator span (force v span GValue) (reenqueue_generator span k vm))
  | DeepForceValue v => Ok (enqueue_generator span (deep_force v span) (reenqueue_generator span k vm))
  | WithValue idx =>
      let? i := or_panic (vm_with_stack vm !! idx) in
      let? v := or_panic (stack_get vm i) in
      Ok (enqueue_generator span (force v span GValue) (reenqueue_generator span k vm))
  | CapturedWithValue idx =>
      let? f := or_panic (last_call_frame (frames vm)) in
      let? ws := or_panic (Value.with_stack (cf_upvalues f)) in
      let? v := or_panic (ws !! idx) in
      Ok (enqueue_generator span (force v span GValue) (reenqueue_generator span k vm))
  | NixEquality a b ptr_eq => Ok (enqueue_generator span (nix_eq a b ptr_eq span) (reenqueue_generator span k vm))
  | StringCoerce v kind => Ok (enqueue_generator span (coerce_to_string v kind span) (reenqueue_generator span k vm))
  | Call callable => call_value span None callable (reenqueue_generator span k vm)
  | EnterLambda l u sp =>
      Ok (push_call_frame sp (mkCallFrame l u 0 (length (stack vm))) (reenqueue_generator sp k vm))
  | TryForce v => Ok (enqueue_generator span (force v span GValue) (reenqueue_generator span k vm))
  | EmitWarningKind _ => respond RespEmpty vm
  | PathImport p => let? imported := io_import_path p in respond (RespPath imported) vm
  | RequestSpan => respond (RespSpan (reasonable_span vm)) vm
  end.

(** ** Steps *)

Definition step (vm : VM) : R (Value + VM) :=
  match frames vm with
  | [] => let? (v, _) := stack_pop vm in Ok (inl v)
  | FCall f span :: fs =>
      let vm := set_reasonable_span span (set_frames fs vm) in
      let? (op, f) := inc_ip f in
      let? vm := execute_op op span f vm in Ok (inr vm)
  | FGenerator span state k :: fs =>
      let vm := set_reasonable_span span (set_frames fs vm) in
      match state with
      | Running => Ok (inr (push_frame (FResumed span (k RespEmpty)) vm))
      | AwaitingValue =>
          let? (v, vm) := stack_pop vm in
          Ok (inr (push_frame (FResumed span (k (RespValue v))) vm))
      end
  | FResumed span g :: fs =>
      let vm := set_frames fs vm in
      match g with
      | GDone (LValue v) => Ok (inr (stack_push v vm))
      | GDone _ => Panic
      | GErr e => Err e
      | GPanic => Panic
      | GRead k => Ok (inr (push_frame (FResumed span (k (vm_heap vm))) vm))
      | GSet t r k => Ok (inr (push_frame (FResumed span k) (set_heap (<[t := r]> (vm_heap vm)) vm)))
      | GAlloc k => let '(a, vm) := alloc vm in Ok (inr (push_frame (FResumed span (k a)) vm))
      | GAwait l k => Ok (inr (push_frame (FResumed span (gbind (loop_body dbg l) k)) vm))
      | GYield r k => let? vm := handle_request span r k vm in Ok (inr vm)
      end
  end.

(** [execute], for at most so many steps: [None] if they are not enough. *)
Fixpoint run (fuel : nat) (vm : VM) : option (R Value) :=
  match fuel with
  | 0 => None
  | S fuel =>
      match step vm with
      | Ok (inl v) => Some (Ok v)
      | Ok (inr vm) => run fuel vm
      | Err e => Some (Err e)
      | Panic => Some Panic
      end
  end.

(** [run_lambda] with [EvalMode::Lazy] and [EvalMode::Strict], on the heap the
    compiler left. *)
Definition initial_vm (strict : bool) (l : Lambda Value) (h : Heap) (next : Addr) : R VM :=
  let? root_span := Chunk.get_span (chunk l) (length (Chunk.code (chunk l)) - 1) in
  let vm := mkVM [] [] [] h next root_span in
  let vm := if strict then
              enqueue_generator root_span
                (grequest StackPop (λ v, grequest (DeepForceValue v) GValue)) vm
            else vm in
  Ok (push_call_frame root_span (mkCallFrame l no_upvalues 0 0) vm).

End Vm.
