(* ===== verification/EvalSpec.v ===== *)
(** * Reference semantics of scalar expressions

    What expressions without variables, lists and sets mean, as a function on
    syntax trees: literals, the global constants, unary and binary operators,
    [assert], [if] and parentheses. Failures that [tryEval] could catch are
    values. [eval] follows the choices of the compiler's optimiser; [eval_ref]
    gives every operator its meaning. *)

From stdpp Require Import strings gmap.
From Stdlib Require Import SpecFloat.
From S2P Require Import Prelude BTreeMap NixString NixAttrs Bytecode Value Compiler Generators.
#[local] Open Scope nat_scope.

(** Values with no structure. *)
Definition scalar (v : Value) : Prop :=
  match v with
  | VNull | VBool _ | VInteger _ | VFloat _ | VString _ | VCatchable _ => True
  | _ => False
  end.

Definition catchable (v : Value) : bool := match v with VCatchable _ => true | _ => false end.

Section Eval.
Context (dbg : bool).

Abbreviation R := (outcome ErrorKind).

Definition s_as_bool (v : Value) : R bool :=
  match v with VBool b => Ok b | v => Err (type_error (B "bool") v) end.

(** A failure on the right wins over one on the left. *)
Definition s_lift (a b : Value) (k : R Value) : R Value :=
  if catchable b then Ok b else if catchable a then Ok a else k.

Definition s_number (v : Value) : bool := match v with VInteger _ | VFloat _ => true | _ => false end.

Definition s_arith (op : ArithOp) (a b : Value) : R Value :=
  match a, b with
  | VInteger i1, VInteger i2 => let? z := i64_op dbg op i1 i2 in Ok (VInteger z)
  | VFloat f1, VFloat f2 => Ok (VFloat (f64_op op f1 f2))
  | VInteger i1, VFloat f2 => Ok (VFloat (f64_op op (f64_of_i64 i1) f2))
  | VFloat f1, VInteger i2 => Ok (VFloat (f64_op op f1 (f64_of_i64 i2)))
  | v1, v2 => Err (TypeError (B "number (either int or float)") (type_of (if s_number v1 then v2 else v1)))
  end.

Definition s_zero (v : Value) : bool :=
  match v with VInteger 0 => true | VFloat (S754_zero _) => true | _ => false end.

(** Adding to a string needs a string, adding to a number a number; nothing
    else can be added to. *)
Definition s_add (a b : Value) : R Value :=
  match a, b with
  | VString s1, VString s2 => Ok (VString (concat s1 s2))
  | VString _, v => Err (NotCoercibleToString (type_of v) (mkCoercionKind false true))
  | VInteger _, b | VFloat _, b => s_arith OAdd a b
  | a, _ => Err (NotCoercibleToString (type_of a) (mkCoercionKind false false))
  end.

Definition s_eq (a b : Value) : bool :=
  match a, b with
  | VNull, VNull => true
  | VBool b1, VBool b2 => Bool.eqb b1 b2
  | VString s1, VString s2 => NixString_eqb s1 s2
  | VInteger i1, VInteger i2 => (i1 =? i2)%Z
  | VInteger i, VFloat f => f64_eqb (f64_of_i64 i) f
  | VFloat f1, VFloat f2 => f64_eqb f1 f2
  | VFloat f, VInteger i => f64_eqb (f64_of_i64 i) f
  | _, _ => false
  end.

Definition s_cmp (a b : Value) : R comparison :=
  match a, b with
  | VInteger i1, VInteger i2 => Ok (i1 ?= i2)%Z
  | VFloat f1, VFloat f2 => Ok (f64_total_cmp f1 f2)
  | VString s1, VString s2 => Ok (NixString_cmp s1 s2)
  | VInteger i1, VFloat f2 => Ok (f64_total_cmp (f64_of_i64 i1) f2)
  | VFloat f1, VInteger i2 => Ok (f64_total_cmp f1 (f64_of_i64 i2))
  | a, b => Err (Incomparable (type_of a) (type_of b))
  end.

Definition s_binop (op : BinOpKind) (a b : Value) : R Value :=
  s_lift a b
    (match op with
     | Add => s_add a b
     | Sub => s_arith OSub a b
     | Mul => s_arith OMul a b
     | Div => if s_zero b then Err DivisionByZero else s_arith ODiv a b
     | Equal => Ok (VBool (s_eq a b))
     | NotEqual => Ok (VBool (negb (s_eq a b)))
     | Less => let? c := s_cmp a b in Ok (VBool (cmp_result CLess c))
     | LessOrEq => let? c := s_cmp a b in Ok (VBool (cmp_result CLessOrEq c))
     | More => let? c := s_cmp a b in Ok (VBool (cmp_result CMore c))
     | MoreOrEq => let? c := s_cmp a b in Ok (VBool (cmp_result CMoreOrEq c))
     | _ => Panic
     end).

Definition s_unop (op : UnaryOpKind) (v : Value) : R Value :=
  if catchable v then Ok v
  else match op, v with
       | Invert, v => let? b := s_as_bool v in Ok (VBool (negb b))
       | Negate, VInteger i => let? z := i64_result dbg (- i)%Z in Ok (VInteger z)
       | Negate, VFloat f => Ok (VFloat (SFopp f))
       | Negate, v => Err (TypeError (B "number (either int or float)") (type_of v))
       end.

(** The operand of a lazy operator: a failure or a boolean. *)
Definition s_assert_bool (v : Value) : R Value :=
  if catchable v then Ok v
  else match v with VBool _ => Ok v | v => Err (TypeError (B "bool") (type_of v)) end.

(** [stop] is the value of the left operand that decides. *)
Definition s_lazy (stop : bool) (a : Value) (rhs : R Value) : R Value :=
  if catchable a then Ok a
  else let? b := s_as_bool a in
       if Bool.eqb b stop then Ok (VBool b)
       else let? v := rhs in s_assert_bool v.

(** [if] and [assert]: the branch a condition selects. *)
Definition s_cond {A} (c : Value) (fail : Value → R A) (yes no : R A) : R A :=
  if catchable c then fail c
  else let? b := s_as_bool c in if b : bool then yes else no.

Definition literal_value (l : LiteralKind) : option Value :=
  match l with
  | LFloat f => Some (VFloat f)
  | LInteger i => VInteger <$> i
  | LUri u => Some (VString (plain_string u))
  end.

Definition global_value (ident : bytes) : option Value :=
  if decide (ident = B "true") then Some (VBool true)
  else if decide (ident = B "false") then Some (VBool false)
  else if decide (ident = B "null") then Some VNull else None.

(** The choice of the optimiser, when [true] and [false] are the globals. *)
Definition choose (op : BinOpKind) (lhs rhs : LitBool) : Optimised :=
  match op, lhs, rhs with
  | Or, LBFalse, LBExpr => TakeRhs
  | Or, LBExpr, LBFalse => TakeLhs
  | And, LBTrue, LBExpr => TakeRhs
  | And, LBExpr, LBTrue => TakeLhs
  | Or, LBTrue, LBExpr => TakeLhs
  | Or, _, LBTrue => TakeRhs
  | Or, LBTrue, _ => TakeLhs
  | And, LBFalse, LBExpr => TakeLhs
  | And, _, LBFalse => TakeRhs
  | Or, LBFalse, _ => TakeLhs
  | _, _, _ => Unchanged
  end.

(** The meaning of an operator from the meanings of its operands. *)
Definition s_binary (op : BinOpKind) (a : R Value) (b : R Value) : R Value :=
  match op with
  | And => let? a := a in s_lazy false a b
  | Or => let? a := a in s_lazy true a b
  | Implication => let? a := a in let? a := s_unop Invert a in s_lazy true a b
  | op => let? a := a in let? b := b in s_binop op a b
  end.

(** The reference semantics. *)
Fixpoint eval_ref (e : Expr) : R Value :=
  match e with
  | ELiteral _ l => or_panic (literal_value l)
  | EStr _ [PLiteral s] => Ok (VString (plain_string s))
  | EUnaryOp _ op e => let? v := eval_ref e in s_unop op v
  | EBinOp _ op l r => s_binary op (eval_ref l) (eval_ref r)
  | EAssert _ c b => let? c := eval_ref c in s_cond c Ok (eval_ref b) (Ok (VCatchable AssertionFailed))
  | EIfElse _ c t e => let? c := eval_ref c in s_cond c Ok (eval_ref t) (eval_ref e)
  | EIdent _ ident => or_panic (global_value ident)
  | EParen _ e => eval_ref e
  | _ => Panic
  end.

(** The semantics with the optimiser: [optim] says whether it still applies. *)
Fixpoint eval (optim : bool) (e : Expr) {struct e} : R Value :=
  match e with
  | ELiteral _ l => or_panic (literal_value l)
  | EStr _ [PLiteral s] => Ok (VString (plain_string s))
  | EUnaryOp _ op e => let? v := eval true e in s_unop op v
  | EBinOp _ op l r =>
      match (if optim then choose op (is_lit_bool l) (is_lit_bool r) else Unchanged) with
      | TakeLhs => eval false l
      | TakeRhs => eval false r
      | Unchanged => s_binary op (eval true l) (eval true r)
      end
  | EAssert _ c b => let? c := eval true c in s_cond c Ok (eval true b) (Ok (VCatchable AssertionFailed))
  | EIfElse _ c t e => let? c := eval true c in s_cond c Ok (eval true t) (eval true e)
  | EIdent _ ident => or_panic (global_value ident)
  | EParen _ e => eval true e
  | _ => Panic
  end.

(** The expressions covered; an operand that the optimiser compiles as dead
    code is excluded. *)
Definition dead_operand (op : BinOpKind) (lhs rhs : LitBool) : bool :=
  match op, lhs, rhs with
  | Or, LBTrue, LBExpr => true
  | And, LBFalse, LBExpr => true
  | _, _, _ => false
  end.

Fixpoint simple (e : Expr) : bool :=
  match e with
  | ELiteral _ (LInteger None) => false
  | ELiteral _ _ => true
  | EStr _ [PLiteral _] => true
  | EUnaryOp _ _ e => simple e
  | EBinOp _ op l r =>
      match op with Concat | Update => false | _ => true end
      && negb (dead_operand op (is_lit_bool l) (is_lit_bool r)) && simple l && simple r
  | EAssert _ c b => simple c && simple b
  | EIfElse _ c t e => simple c && simple t && simple e
  | EIdent _ ident => match global_value ident with Some _ => true | None => false end
  | EParen _ e => simple e
  | _ => false
  end.

(** ** The optimiser *)

Lemma lit_true e : is_lit_bool e = LBTrue → eval_ref e = Ok (VBool true).
Proof.
  destruct e; try done. cbn. unfold global_value. repeat case_decide; try done; congruence.
Qed.
Lemma lit_false e : is_lit_bool e = LBFalse → eval_ref e = Ok (VBool false).
Proof.
  destruct e; try done. cbn. unfold global_value. repeat case_decide; try done; congruence.
Qed.

(** [m'] has the proper values of [m]. *)
Definition refines_values (m m' : R Value) : Prop := ∀ v, m = Ok v → catchable v = false → m' = Ok v.

Lemma s_assert_bool_Ok v w : s_assert_bool v = Ok w → w = v.
Proof. unfold s_assert_bool. destruct v; cbn; by intros [= <-]. Qed.

Lemma s_lazy_mono stop a m m' :
  refines_values m m' → refines_values (s_lazy stop a m) (s_lazy stop a m').
Proof.
  intros Hm v. unfold s_lazy. destruct (catchable a); [done|].
  destruct (s_as_bool a) as [b| |]; cbn; [|done..]. destruct (Bool.eqb b stop); [done|].
  destruct m as [w| |]; cbn; [|done..]. intros Hv Hc. pose proof (s_assert_bool_Ok _ _ Hv) as ->.
  by rewrite (Hm w eq_refl Hc).
Qed.

Lemma s_lift_Ok a b k v :
  s_lift a b k = Ok v → catchable v = false → catchable a = false ∧ catchable b = false.
Proof. unfold s_lift. destruct (catchable b) eqn:Eb, (catchable a) eqn:Ea; naive_solver congruence. Qed.

Lemma s_unop_Ok op a v : s_unop op a = Ok v → catchable v = false → catchable a = false.
Proof. unfold s_unop. destruct (catchable a) eqn:E; [|done]. intros [= <-]. congruence. Qed.

Lemma s_lazy_Ok stop a m v : s_lazy stop a m = Ok v → catchable v = false → catchable a = false.
Proof. unfold s_lazy. destruct (catchable a) eqn:E; [|done]. intros [= <-]. congruence. Qed.

Lemma s_binary_mono op a b a' b' :
  refines_values a a' → refines_values b b' → refines_values (s_binary op a b) (s_binary op a' b').
Proof.
  intros Ha Hb v. destruct a as [va| |]; [|by destruct op..].
  assert (catchable va = false → a' = Ok va) as Ha' by (by intros; apply Ha).
  assert (∀ stop w, s_lazy stop w b = Ok v → catchable v = false → s_lazy stop w b' = Ok v) as Hl
    by (intros stop w; by apply s_lazy_mono).
  destruct op; cbn [s_binary obind];
    try (destruct b as [vb| |]; cbn [obind]; [|done..]; intros Hv Hc;
         destruct (s_lift_Ok _ _ _ _ Hv Hc) as [Hca Hcb]; rewrite (Ha' Hca), (Hb vb eq_refl Hcb); exact Hv).
  - intros Hv Hc. rewrite Ha' by (by eapply s_lazy_Ok). cbn. by apply Hl.
  - destruct (s_unop Invert va) as [w| |] eqn:E; cbn [obind]; [|done..]. intros Hv Hc.
    rewrite Ha' by (eapply s_unop_Ok; [exact E|by eapply s_lazy_Ok]). cbn. rewrite E. cbn. by apply Hl.
  - intros Hv Hc. rewrite Ha' by (by eapply s_lazy_Ok). cbn. by apply Hl.
Qed.

Lemma s_cond_mono (c : Value) (m n m' n' : R Value) :
  refines_values m m' → refines_values n n' →
  refines_values (s_cond c Ok m n) (s_cond c Ok m' n').
Proof.
  intros Hm Hn v. unfold s_cond. destruct (catchable c); [done|].
  destruct (s_as_bool c) as [[]| |]; cbn; [apply Hm|apply Hn|done..].
Qed.

Lemma s_cond_Ok c m n v : s_cond c Ok m n = Ok v → catchable v = false → catchable c = false.
Proof. unfold s_cond. destruct (catchable c) eqn:E; [|done]. intros [= <-]. congruence. Qed.

Lemma bind_mono (m m' : R Value) (f f' : Value → R Value) :
  refines_values m m' → (∀ w, refines_values (f w) (f' w)) →
  (∀ w v, f w = Ok v → catchable v = false → catchable w = false) →
  refines_values (let? w := m in f w) (let? w := m' in f' w).
Proof.
  intros Hm Hf Hs v. destruct m as [w| |]; cbn; [|done..]. intros Hv Hc.
  rewrite (Hm w eq_refl) by (by eapply Hs). cbn. by apply Hf.
Qed.

(** The operand that the optimiser takes has the value of the operation. *)
Lemma choose_value op l r a b v :
  (l = LBTrue → a = Ok (VBool true)) → (l = LBFalse → a = Ok (VBool false)) →
  (r = LBTrue → b = Ok (VBool true)) → (r = LBFalse → b = Ok (VBool false)) →
  s_binary op a b = Ok v → catchable v = false →
  match choose op l r with
  | TakeLhs => a = Ok v
  | TakeRhs => b = Ok v
  | Unchanged => True
  end.
Proof.
  intros Hlt Hlf Hrt Hrf.
  destruct op; try done; destruct l, r; cbn [choose];
    try specialize (Hlt eq_refl); try specialize (Hlf eq_refl);
    try specialize (Hrt eq_refl); try specialize (Hrf eq_refl); subst; try done;
    cbn [s_binary obind];
    try (destruct a as [[]| |]; try done; cbn; try (by intros [= <-]); []);
    try (destruct b as [[]| |]; try done; cbn; try (by intros [= <-])).
  all: repeat match goal with |- context [Bool.eqb ?x ?y] => destruct x; cbn end; by intros [= <-].
Qed.

(** The optimiser keeps every proper value: an expression that evaluates to
    something other than a failure evaluates to the same with the optimiser. *)
Theorem optimiser_keeps_values (optim : bool) (e : Expr) (v : Value) :
  eval_ref e = Ok v → catchable v = false → eval optim e = Ok v.
Proof.
  revert optim v. change (∀ optim, refines_values (eval_ref e) (eval optim e)).
  induction e; intros optim; cbn [eval_ref eval]; try (by intros v Hv _).
  - apply bind_mono; [done| |]; [intros w v; done|intros w v; apply s_unop_Ok].
  - destruct optim; [|by apply s_binary_mono].
    intros v Hv Hc.
    pose proof (choose_value op (is_lit_bool e1) (is_lit_bool e2) (eval_ref e1) (eval_ref e2) v
      (lit_true e1) (lit_false e1) (lit_true e2) (lit_false e2) Hv Hc) as Hch.
    destruct (choose _ _ _); [by eapply s_binary_mono|by apply IHe1|by apply IHe2].
  - apply bind_mono; [done| |intros w v; apply s_cond_Ok]. intros w. apply s_cond_mono; [done|by intros v].
  - apply bind_mono; [done| |intros w v; apply s_cond_Ok]. intros w. by apply s_cond_mono.
  - done.
Qed.

(** No operand of [&&] or [||] is a boolean constant. *)
Fixpoint no_choice (e : Expr) : bool :=
  match e with
  | EUnaryOp _ _ e | EParen _ e => no_choice e
  | EBinOp _ op l r =>
      match choose op (is_lit_bool l) (is_lit_bool r) with Unchanged => no_choice l && no_choice r | _ => false end
  | EAssert _ c b => no_choice c && no_choice b
  | EIfElse _ c t e => no_choice c && no_choice t && no_choice e
  | _ => true
  end.

(** Where the optimiser has nothing to choose, failures and errors are kept too. *)
Lemma no_choice_eval (optim : bool) (e : Expr) : no_choice e → eval optim e = eval_ref e.
Proof.
  revert optim. induction e; intros optim; cbn [no_choice eval eval_ref]; rewrite ?andb_True; intros Hn; try done.
  - by rewrite IHe.
  - destruct (choose _ _ _); [|done..]. apply andb_True in Hn as [? ?]. rewrite IHe1, IHe2 by done. by destruct optim.
  - destruct Hn. by rewrite IHe1, IHe2.
  - destruct Hn as [[? ?] ?]. by rewrite IHe1, IHe2, IHe3.
  - by apply IHe.
Qed.

End Eval.
