(* ===== verification/VmSteps.v ===== *)
(** * Runs of the virtual machine

    Where a machine lands: the steps it takes until it reaches a state, or
    until a step fails. Instructions at a place in the code, and the generators
    on scalar values, as facts about runs. *)

From stdpp Require Import strings gmap relations.
From Stdlib Require Import SpecFloat.
From S2P Require Import Prelude BTreeMap NixString NixAttrs Bytecode Value Compiler Generators Vm EvalSpec.
Import Opcode.
#[local] Open Scope nat_scope.

(** The fields of a machine, and one step of it. *)
Ltac vm_cbn :=
  cbv beta iota delta
    [push_frame push_call_frame enqueue_generator reenqueue_generator set_frames set_heap set_stack
     set_reasonable_span stack_push frames stack vm_with_stack vm_heap vm_next reasonable_span
     gloop GValue obind];
  cbn [gbind].

Section VmSteps.
Context {varint : Vu128} {varint_laws : Vu128Laws} {env : EvalEnv}.
Context (dbg : bool).

Abbreviation R := (outcome ErrorKind).

(** ** Runs *)

Definition next_vm (vm vm' : VM) : Prop := step dbg vm = Ok (inr vm').
Definition steps : VM → VM → Prop := rtc next_vm.

(** The machine stops with the error or the panic. *)
Definition fails {A} (vm : VM) (r : R A) : Prop :=
  match r with
  | Ok _ => False
  | Err e => ∃ vm', steps vm vm' ∧ step dbg vm' = Err e
  | Panic => ∃ vm', steps vm vm' ∧ step dbg vm' = Panic
  end.

(** The machine comes to a state that is right for the result, or stops with
    its error. *)
Definition lands {A} (vm : VM) (r : R A) (Q : A → VM → Prop) : Prop :=
  match r with
  | Ok a => ∃ vm', steps vm vm' ∧ Q a vm'
  | r => fails vm r
  end.

Lemma fails_steps {A} vm vm' (r : R A) : steps vm vm' → fails vm' r → fails vm r.
Proof.
  intros Hs. destruct r; cbn; [done|..]; intros (vm'' & Hs' & He); exists vm''; split; [|done| |done];
    by etrans.
Qed.

Lemma lands_steps {A} vm vm' (r : R A) Q : steps vm vm' → lands vm' r Q → lands vm r Q.
Proof.
  intros Hs. destruct r; cbn [lands]; [|by apply fails_steps..].
  intros (vm'' & Hs' & HQ). exists vm''. split; [by etrans|done].
Qed.

Lemma lands_step {A} vm vm' (r : R A) Q : step dbg vm = Ok (inr vm') → lands vm' r Q → lands vm r Q.
Proof. intros Hs. apply lands_steps. by apply rtc_once. Qed.

Lemma lands_bind_eq {A B} vm (m : R A) (f : A → R B) P Q :
  lands vm m P → (∀ a vm', m = Ok a → P a vm' → lands vm' (f a) Q) → lands vm (obind m f) Q.
Proof.
  intros Hm Hf. destruct m as [a|e|]; cbn; [|done..].
  destruct Hm as (vm' & Hs & HP). eapply lands_steps; [done|]. by apply Hf.
Qed.

Lemma lands_bind {A B} vm (m : R A) (f : A → R B) P Q :
  lands vm m P → (∀ a vm', P a vm' → lands vm' (f a) Q) → lands vm (obind m f) Q.
Proof. intros Hm Hf. eapply lands_bind_eq; [done|]. intros a vm' _. apply Hf. Qed.

Lemma lands_ok {A} vm (a : A) (Q : A → VM → Prop) : Q a vm → lands vm (Ok a) Q.
Proof. intros HQ. exists vm. split; [constructor|done]. Qed.

Lemma lands_weaken {A} vm (r : R A) (P Q : A → VM → Prop) :
  lands vm r P → (∀ a vm', P a vm' → Q a vm') → lands vm r Q.
Proof. intros HP HPQ. destruct r; cbn in *; naive_solver. Qed.

Lemma lands_then {A} vm (r : R A) (P Q : A → VM → Prop) :
  lands vm r P → (∀ a vm', P a vm' → ∃ vm'', steps vm' vm'' ∧ Q a vm'') → lands vm r Q.
Proof.
  intros HP HPQ. destruct r as [a|e|]; [|done..]. destruct HP as (vm' & Hs & HP).
  eapply lands_steps; [exact Hs|]. by apply HPQ.
Qed.

(** A step that fails. *)
Lemma fails_err {A} vm e : step dbg vm = Err e → fails (A := A) vm (Err e).
Proof. intros He. exists vm. split; [constructor|done]. Qed.
Lemma fails_panic {A} vm : step dbg vm = Panic → fails (A := A) vm Panic.
Proof. intros He. exists vm. split; [constructor|done]. Qed.

(** Runs have enough fuel. *)
Lemma run_steps vm vm' fuel r :
  steps vm vm' → run dbg fuel vm' = Some r → ∃ fuel', run dbg fuel' vm = Some r.
Proof.
  intros Hs Hr. induction Hs as [|vm vm1 vm' E1 _ IH]; [by exists fuel|].
  destruct (IH Hr) as [n Hn]. exists (S n). cbn. by rewrite E1.
Qed.

Lemma run_fails vm (r : R Value) : fails vm r → ∃ fuel, run dbg fuel vm = Some r.
Proof.
  destruct r; cbn; [done|..]; intros (vm' & Hs & He);
    apply (run_steps vm vm' 1); [done|cbn; by rewrite He|done|cbn; by rewrite He].
Qed.

Ltac vstep := eapply lands_step; [reflexivity|]; vm_cbn.

(** ** Casts on scalars *)

Lemma scalar_as_bool h v : scalar v → as_bool h v = s_as_bool v.
Proof. intros Hv. unfold as_bool, cast. destruct (size h), v; done. Qed.
Lemma scalar_is_catchable h v : scalar v → is_catchable h v = Ok (catchable v).
Proof. intros Hv. unfold is_catchable, is_. destruct (size h), v; done. Qed.
Lemma scalar_is_bool h v :
  scalar v → is_bool h v = Ok (match v with VBool _ => true | _ => false end).
Proof. intros Hv. unfold is_bool, is_. destruct (size h), v; done. Qed.
Lemma scalar_is_number h v : scalar v → is_number h v = Ok (s_number v).
Proof. intros Hv. unfold is_number, is_. destruct (size h), v; done. Qed.

Lemma scalar_arithmetic h op a b : scalar a → scalar b → arithmetic_op dbg h op a b = s_arith dbg op a b.
Proof.
  intros Ha Hb. unfold arithmetic_op, s_arith.
  destruct a; try done; destruct b; try done; rewrite scalar_is_number by done; done.
Qed.

Lemma s_arith_scalar op a b w : s_arith dbg op a b = Ok w → scalar w.
Proof. unfold s_arith, i64_op, i64_div, i64_result. intros E. by repeat case_match; simplify_eq/=. Qed.

(** ** Instructions *)

(** The code of a lambda from an index on. *)
Definition at_code (l : Lambda Value) (i : nat) (bs : bytes) : Prop := drop i (Chunk.code (chunk l)) = bs.

Definition op_byte (op : Op) : byte := z2b (as_u8 op).

Lemma op_byte_from op : from_u8 (b2z (op_byte op)) = op.
Proof. by destruct op; vm_compute. Qed.

Lemma at_code_lt l i b bs : at_code l i (b :: bs) → i < length (Chunk.code (chunk l)).
Proof.
  unfold at_code. intros E. destruct (decide (i < length (Chunk.code (chunk l)))); [done|].
  rewrite drop_ge in E by lia. done.
Qed.

Lemma at_code_app l i bs bs' : at_code l i (bs ++ bs') → at_code l (i + length bs) bs'.
Proof.
  unfold at_code. intros E. rewrite <- drop_drop, E. apply drop_app_length.
Qed.

Lemma at_code_split l i b bs :
  at_code l i (b :: bs) →
  Chunk.code (chunk l) = take i (Chunk.code (chunk l)) ++ b :: bs ∧ length (take i (Chunk.code (chunk l))) = i.
Proof.
  intros E. pose proof (at_code_lt _ _ _ _ E). split; [|rewrite length_take; lia].
  unfold at_code in E. rewrite <- E. by rewrite take_drop.
Qed.

Section Frame.
Context (l : Lambda Value) (u : Upvalues Value) (off : nat) (sp : Span).
Context (fs : list Frame) (ws : list nat) (nx : Addr).
(** The lambda's instructions have spans. *)
Context (Hspans : Chunk.spans (chunk l) ≠ []).

(** The machine in the frame. *)
Definition at_ (i : nat) (s : list Value) (H : Heap) (rs : Span) : VM :=
  mkVM (FCall (mkCallFrame l u i off) sp :: fs) s ws H nx rs.

(** An instruction is being executed. *)
Definition below (s : list Value) (H : Heap) : VM := mkVM fs s ws H nx sp.

Lemma step_op i s H rs op bs :
  at_code l i (op_byte op :: bs) →
  step dbg (at_ i s H rs) =
    let? vm := execute_op dbg op sp (mkCallFrame l u (S i) off) (below s H) in Ok (inr vm).
Proof.
  intros E. unfold step. cbn [at_ frames]. unfold inc_ip, cf_chunk. cbn [ip cf_lambda].
  assert (Chunk.code (chunk l) !! i = Some (op_byte op)) as ->.
  { unfold at_code in E. by rewrite <- (Nat.add_0_r i), <- lookup_drop, E. }
  cbn [or_panic obind]. by rewrite op_byte_from.
Qed.

Lemma read_uvarint_code i z bs :
  (0 ≤ z < 2 ^ 64)%Z → at_code l i (encode_u64 z ++ bs) →
  frame_read_uvarint dbg (mkCallFrame l u i off) = Ok (Z.to_nat z, mkCallFrame l u (i + length (encode_u64 z)) off).
Proof.
  intros Hz E. unfold frame_read_uvarint. unfold cf_chunk; cbn [cf_lambda ip].
  pose proof (encode_length z Hz) as Hl.
  assert (∃ b r, encode_u64 z ++ bs = b :: r) as (b & r & Ebr)
    by (destruct (encode_u64 z); [cbn in Hl; lia|by do 2 eexists]).
  rewrite Ebr in E. destruct (at_code_split _ _ _ _ E) as [E' Hi]. rewrite <- Ebr in E'.
  rewrite <- Hi at 1. rewrite (Chunk.read_uvarint_at dbg _ _ z bs Hz E'). done.
Qed.

Lemma read_jump_code i d bs :
  0 < d < 100 → at_code l i (le_bytes 2 (Z.of_nat d) ++ bs) →
  read_jump dbg (mkCallFrame l u i off) = Ok (d, mkCallFrame l u (i + 2) off).
Proof.
  intros Hd E. unfold read_jump, frame_read_u16. unfold cf_chunk; cbn [cf_lambda ip].
  assert (∃ b r, le_bytes 2 (Z.of_nat d) ++ bs = b :: r) as (b & r & Ebr) by (cbn; by do 2 eexists).
  rewrite Ebr in E. destruct (at_code_split _ _ _ _ E) as [E' Hi]. rewrite <- Ebr in E'.
  rewrite <- Hi at 1. rewrite (Chunk.read_u16_at _ _ _ bs E'). cbn [obind].
  rewrite Z.mod_small, Nat2Z.id by lia.
  by rewrite (proj2 (Nat.eqb_neq d 0)), andb_false_r by lia.
Qed.

Lemma get_span_ok {E} i : ∃ s, Chunk.get_span (E := E) (chunk l) i = Ok s.
Proof.
  unfold Chunk.get_span. set (idx := match Chunk.search_from _ _ _ with inl _ => _ | inr _ => _ end).
  assert (∀ k (ss : list (@Chunk.SourceSpan Span)), match Chunk.search_from k ss i with inl j => k ≤ j < k + length ss | inr j => k ≤ j ≤ k + length ss end) as Hs.
  { intros k ss. revert k. induction ss as [|x ss IH]; intros k; cbn; [lia|].
    repeat case_match; try lia; specialize (IH (S k)); case_match; simplify_eq; lia. }
  specialize (Hs 0 (Chunk.spans (chunk l))).
  assert (idx < length (Chunk.spans (chunk l))) as Hlt.
  { assert (length (Chunk.spans (chunk l)) ≠ 0) by (destruct (Chunk.spans (chunk l)); cbn; [done|lia]).
    unfold idx. destruct (Chunk.search_from _ _ _) as [j|[|j]]; cbn in *; lia. }
  destruct (lookup_lt_is_Some_2 _ _ Hlt) as [x Hx]. exists (Chunk.span x). by rewrite Hx.
Qed.

(** *** Constants and jumps *)

Definition const_code (idx : nat) : bytes := op_byte OpConstant :: encode_u64 (Z.of_nat idx).

Lemma run_constant i s H rs idx v bs :
  (Z.of_nat idx < 2 ^ 64)%Z → at_code l i (const_code idx ++ bs) → Chunk.constants (chunk l) !! idx = Some v →
  steps (at_ i s H rs) (at_ (i + length (const_code idx)) (v :: s) H sp) ∧
  at_code l (i + length (const_code idx)) bs.
Proof.
  intros Hi E Hv. split; [|by apply at_code_app]. apply rtc_once. unfold next_vm.
  rewrite (step_op _ _ _ _ _ _ E). apply (at_code_app l i [op_byte OpConstant]) in E.
  rewrite Nat.add_1_r in E. cbn [execute_op]. rewrite (read_uvarint_code _ (Z.of_nat idx) bs ltac:(lia) E).
  rewrite Nat2Z.id. cbn [obind]. unfold get_const. unfold cf_chunk; cbn [cf_lambda]. rewrite Hv. cbn.
  by rewrite Nat.add_succ_r.
Qed.

(** A conditional jump: [go] says whether it is taken on the value on top. *)
Definition jumps (op : Op) (v : Value) (go : R bool) : Prop :=
  ∀ H s f, execute_op dbg op sp f (below (v :: s) H) =
    let? (offset, f) := read_jump dbg f in
    let? b := go in continue sp (if b : bool then jump offset f else f) (below (v :: s) H).

Lemma jump_if_catchable v : scalar v → jumps OpJumpIfCatchable v (Ok (catchable v)).
Proof.
  intros Hv H s f. cbn [execute_op]. destruct (read_jump dbg f) as [[o f']| |]; [|done..].
  cbn [obind stack_peek below stack head or_panic vm_heap]. by rewrite scalar_is_catchable.
Qed.
Lemma jump_if_false v : scalar v → jumps OpJumpIfFalse v (let? b := s_as_bool v in Ok (negb b)).
Proof.
  intros Hv H s f. cbn [execute_op]. destruct (read_jump dbg f) as [[o f']| |]; [|done..].
  cbn [obind stack_peek below stack head or_panic vm_heap]. rewrite scalar_as_bool by done.
  by destruct (s_as_bool v).
Qed.
Lemma jump_if_true v : scalar v → jumps OpJumpIfTrue v (s_as_bool v).
Proof.
  intros Hv H s f. cbn [execute_op]. destruct (read_jump dbg f) as [[o f']| |]; [|done..].
  cbn [obind stack_peek below stack head or_panic vm_heap]. rewrite scalar_as_bool by done.
  by destruct (s_as_bool v).
Qed.
Lemma jump_always v : jumps OpJump v (Ok true).
Proof. intros H s f. cbn [execute_op]. by destruct (read_jump dbg f) as [[o f']| |]. Qed.

Definition jump_code (op : Op) (body : bytes) : bytes :=
  op_byte op :: le_bytes 2 (Z.of_nat (length body)) ++ body.

Lemma at_code_jump op i body bs :
  at_code l i (jump_code op body ++ bs) →
  at_code l (S i) (le_bytes 2 (Z.of_nat (length body)) ++ body ++ bs) ∧
  at_code l (i + 3) (body ++ bs) ∧ at_code l (i + 3 + length body) bs.
Proof.
  intros E.
  assert (at_code l (S i) (le_bytes 2 (Z.of_nat (length body)) ++ body ++ bs)) as E1.
  { apply (at_code_app l i [op_byte op]) in E. by rewrite Nat.add_1_r in E. }
  assert (at_code l (i + 3) (body ++ bs)) as E3.
  { apply at_code_app in E1. rewrite length_le_bytes in E1. by replace (i + 3) with (S i + 2) by lia. }
  split_and!; [done|done|by apply at_code_app].
Qed.

Lemma run_jump op i v s H rs body bs go :
  jumps op v go → at_code l i (jump_code op body ++ bs) → 0 < length body < 100 →
  lands (at_ i (v :: s) H rs) go
    (λ b vm, vm = at_ (if b : bool then i + 3 + length body else i + 3) (v :: s) H sp).
Proof.
  intros Hj E Hb. destruct (at_code_jump _ _ _ _ E) as (E1 & _).
  assert (∀ r, (let? b := go in continue sp (if b : bool then jump (length body) (mkCallFrame l u (i + 3) off)
                                  else mkCallFrame l u (i + 3) off) (below (v :: s) H)) = r →
    step dbg (at_ i (v :: s) H rs) = let? vm := r in Ok (inr vm)) as Hstep.
  { intros r <-. rewrite (step_op _ _ _ _ op _ E), Hj, (read_jump_code _ _ _ Hb E1).
    cbn [obind]. by replace (S i + 2) with (i + 3) by lia. }
  destruct go as [b|e|]; cbn [obind] in Hstep; specialize (Hstep _ eq_refl).
  - exists (at_ (if b : bool then i + 3 + length body else i + 3) (v :: s) H sp). split; [|done].
    apply rtc_once. unfold next_vm. rewrite Hstep. by destruct b.
  - by apply fails_err.
  - by apply fails_panic.
Qed.

End Frame.

(** ** Meanings of values

    A value with its part [lo, hi) of the heap stands for a result: forcing it
    gives the result and changes nothing else. *)

Lemma heap_ne (H : Heap) a b r : a ≠ b → <[a := r]> H !! b = H !! b.
Proof. apply lookup_insert_ne. Qed.
Lemma heap_eq (H : Heap) a r : <[a := r]> H !! a = Some r.
Proof. apply lookup_insert_eq. Qed.

Definition agree (lo hi : Addr) (H h : Heap) : Prop := ∀ a, lo ≤ a < hi → H !! a = h !! a.
Definition outside (lo hi : Addr) (H H' : Heap) : Prop := ∀ a, ¬ (lo ≤ a < hi) → H' !! a = H !! a.

Definition forced (fs : list Frame) (s : list Value) (ws : list nat) (nx : Addr) (k : LoopResult → Gen)
    (lo hi : Addr) (us : list Addr) (H : Heap) (w : Value) (vm : VM) : Prop :=
  ∃ H' rs sp, vm = mkVM (FResumed sp (k (LValue w)) :: fs) s ws H' nx rs ∧ scalar w ∧
    ∀ a, ¬ (lo ≤ a < hi) → a ∉ us → H' !! a = H !! a.

Definition means (h : Heap) (lo hi : Addr) (v : Value) (r : R Value) : Prop :=
  match v with
  | VThunk t =>
      lo ≤ t < hi ∧ (∃ rp, h !! t = Some rp ∧ repr_is_forced rp = false) ∧
      ∀ H fs s ws nx rs sp sp' us k, agree lo hi H h → Forall (λ a, ¬ (lo ≤ a < hi)) us →
        lands (mkVM (FResumed sp (GAwait (LForce t us sp') k) :: fs) s ws H nx rs) r
          (forced fs s ws nx k lo hi us H)
  | v => scalar v ∧ r = Ok v
  end.

Lemma means_scalar h lo hi v : scalar v → means h lo hi v (Ok v).
Proof. by destruct v. Qed.

Lemma agree_trans lo hi H H' H'' : agree lo hi H H' → agree lo hi H' H'' → agree lo hi H H''.
Proof. intros H1 H2 a Ha. by rewrite H1, H2. Qed.
Lemma agree_sub lo hi lo' hi' H H' : lo ≤ lo' → hi' ≤ hi → agree lo hi H H' → agree lo' hi' H H'.
Proof. intros ?? Ha a ?. apply Ha. lia. Qed.
Lemma outside_agree lo hi lo' hi' H H' :
  hi ≤ lo' ∨ hi' ≤ lo → outside lo hi H H' → agree lo' hi' H' H.
Proof. intros Hd Ho a ?. apply Ho. lia. Qed.
Lemma outside_trans lo hi H H' H'' : outside lo hi H H' → outside lo hi H' H'' → outside lo hi H H''.
Proof. intros H1 H2 a Ha. by rewrite H2, H1. Qed.
Lemma outside_sub lo hi lo' hi' H H' : lo' ≤ lo → hi ≤ hi' → outside lo hi H H' → outside lo' hi' H H'.
Proof. intros ?? Ho a ?. apply Ho. lia. Qed.

Lemma means_agree h h' lo hi v r : agree lo hi h' h → means h lo hi v r → means h' lo hi v r.
Proof.
  intros Ha. destruct v; try done. cbn. intros (Ht & (rp & Hrp & Hf) & Hm). split_and!; [lia|lia| |].
  - exists rp. split; [|done]. by rewrite Ha.
  - intros. apply Hm; [by eapply agree_trans|done].
Qed.

(** The machine fails, or gets to a state. *)
Definition gets (vm : VM) (r : R Value) (Q : VM → Prop) : Prop :=
  fails vm r ∨ ∃ vm', steps vm vm' ∧ Q vm'.

Lemma gets_steps vm vm' r Q : steps vm vm' → gets vm' r Q → gets vm r Q.
Proof.
  intros Hs [Hf|(vm'' & Hs' & HQ)]; [left; by eapply fails_steps|right].
  exists vm''. split; [by etrans|done].
Qed.

Lemma gets_bind {A} vm (m : R A) (f : A → R Value) P Q :
  lands vm m P → (∀ a vm', P a vm' → gets vm' (f a) Q) → gets vm (obind m f) Q.
Proof.
  intros Hm Hf. destruct m as [a|e|]; cbn; [|by left..].
  destruct Hm as (vm' & Hs & HP). eapply gets_steps; [done|]. by apply Hf.
Qed.

Lemma gets_lands vm (r : R Value) P Q : lands vm r P → (∀ w vm', r = Ok w → P w vm' → Q vm') → gets vm r Q.
Proof.
  intros Hl HQ. destruct r as [w|e|]; [|by left..]. destruct Hl as (vm' & Hs & HP).
  right. exists vm'. split; [done|by eapply HQ].
Qed.

(** What a frame leaves: a value that stands for the result. *)
Definition returned (fs : list Frame) (s : list Value) (ws : list nat) (nx : Addr) (H : Heap)
    (lo hi : Addr) (r : R Value) (vm : VM) : Prop :=
  ∃ v H' rs lo' hi', vm = mkVM fs (v :: s) ws H' nx rs ∧ lo ≤ lo' ∧ hi' ≤ hi ∧ outside lo hi H H' ∧
    means H' lo' hi' v r.

Definition returns (l : Lambda Value) (h : Heap) (lo hi : Addr) (r : R Value) : Prop :=
  ∀ H fs s ws nx rs sp, agree lo hi H h →
    gets (mkVM (FCall (mkCallFrame l no_upvalues 0 (length s)) sp :: fs) s ws H nx rs) r
      (returned fs s ws nx H lo hi r).

(** *** Forcing a thunk *)

Lemma update_all_bind us v g k : gbind (update_all us v g) k = update_all us v (gbind g k).
Proof. induction us as [|t us IH]; cbn; [done|]. by rewrite IH. Qed.

Lemma run_update_all us v g fs s ws H nx rs sp :
  ∃ H', steps (mkVM (FResumed sp (update_all us v g) :: fs) s ws H nx rs)
              (mkVM (FResumed sp g :: fs) s ws H' nx rs) ∧ ∀ a, a ∉ us → H' !! a = H !! a.
Proof.
  revert H. induction us as [|t us IH]; intros H; cbn [update_all].
  { exists H. split; [constructor|done]. }
  destruct (IH (<[t := Evaluated v]> H)) as (H' & Hs & Ho). exists H'. split.
  - eapply rtc_l; [|exact Hs]. done.
  - intros a [Hne Hin]%not_elem_of_cons. rewrite Ho by done. by apply heap_ne.
Qed.

(** The turn of the loop after the frame has returned. *)
Lemma run_force_evaluated t v fs s ws H nx rs sp sp' us k lo hi lo' hi' r :
  H !! t = Some (Evaluated v) → t = hi → lo ≤ lo' → hi' ≤ hi → means H lo' hi' v r →
  Forall (λ a, ¬ (lo ≤ a < S hi)) us →
  lands (mkVM (FResumed sp (GAwait (LForce t us sp') k) :: fs) s ws H nx rs) r
    (forced fs s ws nx k lo (S hi) us H).
Proof.
  intros Ht -> Hlo Hhi Hm Hus.
  vstep. unfold loop_body, force_body. vm_cbn. vstep. rewrite Ht.
  destruct (repr_is_forced (Evaluated v)) eqn:Ef.
  - assert (scalar v ∧ r = Ok v) as [Hv ->] by (by destruct v).
    rewrite update_all_bind. destruct (run_update_all us v (gbind (GValue v) k) fs s ws H nx rs sp) as (H' & Hs & Ho).
    eapply lands_steps; [exact Hs|]. apply lands_ok. exists H', rs, sp. split_and!; [done|done|].
    intros a _ Ha. by apply Ho.
  - destruct v as [| | | | | | | | | |t| | | | | |]; try done.
    destruct Hm as (Htr & (rp & Hrp & Hf) & Hm). cbn [prepare_blackhole].
    vm_cbn. vstep. vstep.
    rewrite heap_ne, Hrp, Hf by lia. vm_cbn.
    eapply lands_weaken; [apply Hm|].
    + intros a Ha. apply heap_ne. lia.
    + apply Forall_app. split; [|repeat constructor; lia]. eapply Forall_impl; [exact Hus|]. cbn. lia.
    + intros w vm' (H' & rs' & sp'' & -> & Hw & Ho). exists H', rs', sp''. split_and!; [done|done|].
      intros a Ha Hau. rewrite Ho; [apply heap_ne; lia|lia|].
      rewrite not_elem_of_app, list_elem_of_singleton. split; [done|lia].
Qed.

Lemma means_thunk l h lo hi r sp :
  Chunk.spans (chunk l) ≠ [] → lo ≤ hi → returns l h lo hi r →
  means (<[hi := Suspended l no_upvalues sp]> h) lo (S hi) (VThunk hi) r.
Proof.
  intros Hsp Hlo Hl. cbn. split_and!; [lia|lia| |].
  { eexists. split; [apply heap_eq|done]. }
  intros H fs s ws nx rs sp1 sp' us k Ha Hus.
  vstep. unfold loop_body, force_body. vm_cbn. vstep.
  rewrite (Ha hi), heap_eq by lia. cbn [repr_is_forced prepare_blackhole].
  assert (∃ c, Chunk.first_span (E := ErrorKind) (chunk l) = Ok c) as [c ->].
  { unfold Chunk.first_span. destruct (Chunk.spans (chunk l)); [done|]. by eexists. }
  vm_cbn. vstep. vstep.
  set (H1 := <[hi := _]> H).
  match goal with |- lands (mkVM (_ :: ?fs') _ _ _ _ ?rs') _ _ =>
    destruct (Hl H1 fs' s ws nx rs' sp) as [Hf|(vm' & Hs & Hr)] end;
    [| |eapply lands_steps; [exact Hs|]].
  - intros a Hh. unfold H1. rewrite heap_ne by lia. rewrite Ha by lia. apply heap_ne. lia.
  - destruct r; [done|exact Hf|exact Hf].
  - destruct Hr as (v & H' & rs' & lo' & hi' & -> & Hlo' & Hhi' & Ho & Hm).
    vstep. vstep.
    eapply lands_weaken; [eapply (run_force_evaluated hi v _ _ _ _ _ _ _ _ _ _ lo hi lo' hi')|]; try done.
    + apply heap_eq.
    + eapply means_agree; [|exact Hm]. intros a ?. apply heap_ne. lia.
    + intros w vm' (H2 & rs2 & sp2 & -> & Hw & Ho2). exists H2, rs2, sp2. split_and!; [done|done|].
      intros a Hna Hau. rewrite Ho2 by done. rewrite heap_ne by lia. rewrite Ho by lia.
      apply heap_ne. lia.
Qed.

(** ** Instructions on scalars *)

Section Operations.
Context (l : Lambda Value) (u : Upvalues Value) (off : nat) (sp : Span).
Context (fs : list Frame) (ws : list nat) (nx : Addr).
Context (Hspans : Chunk.spans (chunk l) ≠ []).

#[local] Abbreviation here := (at_ l u off sp fs ws nx).
#[local] Abbreviation frame i := (mkCallFrame l u i off).
#[local] Abbreviation machine := (below sp fs ws nx).

(** A scalar has been pushed. *)
Definition done_at (i : nat) (s : list Value) (H : Heap) (w : Value) (vm : VM) : Prop :=
  scalar w ∧ ∃ rs, vm = here i (w :: s) H rs.

(** What an instruction makes of the machine. *)
Definition yields (o : R VM) (k : R Value) (Q : Value → VM → Prop) : Prop :=
  match o with
  | Ok vm => lands vm k Q
  | Err e => k = Err e
  | Panic => k = Panic
  end.

Lemma lands_op i s H rs op bs k Q :
  at_code l i (op_byte op :: bs) → yields (execute_op dbg op sp (frame (S i)) (machine s H)) k Q →
  lands (here i s H rs) k Q.
Proof.
  intros E Hy. pose proof (step_op l u off sp fs ws nx i s H rs op bs E) as Hs.
  destruct (execute_op _ _ _ _ _) as [vm|e|]; cbn in *.
  - by eapply lands_step.
  - subst. by apply fails_err.
  - subst. by apply fails_panic.
Qed.

Lemma yields_continue i w s H :
  scalar w → yields (continue sp (frame i) (stack_push w (machine s H))) (Ok w) (done_at i s H).
Proof. intros Hw. apply lands_ok. split; [done|by eexists]. Qed.

Lemma yields_bind {A} (m : R A) (f : A → R VM) (g : A → R Value) Q :
  (∀ a, m = Ok a → yields (f a) (g a) Q) → yields (obind m f) (obind m g) Q.
Proof. intros Hf. destruct m; cbn; [by apply Hf|done..]. Qed.

Lemma yields_lifted2 i a b s H k body :
  scalar a → scalar b →
  (catchable a = false → catchable b = false → yields (body b a (machine s H)) k (done_at i s H)) →
  yields (lifted_pop2 sp (frame i) (machine (b :: a :: s) H) body) (s_lift a b k) (done_at i s H).
Proof.
  intros Ha Hb Hk. unfold lifted_pop2, s_lift, stack_pop. cbn [below stack obind set_stack vm_heap].
  rewrite (scalar_is_catchable _ b), (scalar_is_catchable _ a) by done. cbn [obind].
  destruct (catchable b); [by apply yields_continue|].
  destruct (catchable a); [by apply yields_continue|]. by apply Hk.
Qed.

(** A generator runs to its value. *)
Definition generates (fs' : list Frame) (s : list Value) (H : Heap) (w : Value) (vm : VM) : Prop :=
  scalar w ∧ ∃ rs sp', vm = mkVM (FResumed sp' (GValue w) :: fs') s ws H nx rs.

Lemma yields_suspend i s H k g :
  (∀ gsp rs fs', lands (mkVM (FResumed gsp (g gsp) :: fs') s ws H nx rs) k (generates fs' s H)) →
  yields (suspend sp (frame i) g (machine s H)) k (done_at i s H).
Proof.
  intros Hg. unfold suspend, current_span. unfold cf_chunk. cbn [cf_lambda].
  destruct (get_span_ok l Hspans (E := ErrorKind) (ip (frame i) - 1)) as [gsp ->].
  cbn [obind yields]. vm_cbn. vstep.
  eapply lands_weaken; [|intros w vm' Hw; exact Hw].
  destruct k as [w|e|]; [|apply Hg..].
  specialize (Hg gsp gsp (FCall (frame i) sp :: fs)). destruct Hg as (vm' & Hs & Hw & rs' & sp' & ->).
  eapply lands_steps; [exact Hs|]. vstep. apply lands_ok. split; [done|by eexists].
Qed.

Lemma generates_eq a b s H gsp rs fs' :
  scalar a → scalar b → catchable a = false → catchable b = false →
  lands (mkVM (FResumed gsp (nix_eq a b ForbidAll gsp) :: fs') s ws H nx rs) (Ok (VBool (s_eq a b)))
    (generates fs' s H).
Proof.
  intros Ha Hb Hca Hcb. unfold nix_eq. vm_cbn. vstep. unfold loop_body, eq_body.
  assert (∀ r : bool, lands (mkVM (FResumed gsp (gbind (if r then gloop (LEq [] gsp) else GValue (VBool false)) GDone) :: fs')
      s ws H nx rs) (Ok (VBool r)) (generates fs' s H)) as Hr.
  { intros []; vm_cbn; [vstep|]; apply lands_ok; (split; [done|by do 2 eexists]). }
  destruct a; try done; destruct b; try done;
    match goal with |- lands _ (Ok (VBool ?r)) _ => exact (Hr r) end.
Qed.

Lemma generates_cmp op a b s H gsp rs fs' :
  scalar a → scalar b → catchable a = false → catchable b = false →
  lands (mkVM (FResumed gsp (compare op a b) :: fs') s ws H nx rs)
    (let? c := s_cmp a b in Ok (VBool (cmp_result op c))) (generates fs' s H).
Proof.
  intros Ha Hb Hca Hcb. unfold compare.
  assert (∀ v k, scalar v → request_force v k = k v) as Hf by (by intros []).
  rewrite !Hf by done. vstep. vstep. unfold loop_body, cmp_body, cmp_forced.
  match goal with |- context [gbind _ ?kk] => set (K := kk) end.
  assert (∀ c rs, lands (mkVM (FResumed gsp (gbind (match c with Eq => gloop (LCmp [] rs) | c => GDone (LOrdering (inr c)) end) K) :: fs')
      s ws H nx rs) (Ok (VBool (cmp_result op c))) (generates fs' s H)) as Hr.
  { intros [] rs'; vm_cbn; [vstep| |]; apply lands_ok; (split; [done|by do 2 eexists]). }
  destruct a; try done; destruct b; try done; cbn [s_cmp obind];
    match goal with
    | |- lands _ (Ok (VBool (cmp_result _ ?c))) _ => exact (Hr c _)
    | |- _ => by apply fails_err
    end.
Qed.

(** Scalars that are no strings are not coerced. *)
Lemma coerce_scalar v kind s H gsp rs fs' k r :
  scalar v → catchable v = false → strong kind = false → (∀ x, v ≠ VString x) →
  r = Err (NotCoercibleToString (type_of v) kind) →
  lands (mkVM (FResumed gsp (request_string_coerce v kind k) :: fs') s ws H nx rs) r
    (generates fs' s H).
Proof.
  intros Hv Hc Hk Hs ->. unfold request_string_coerce. destruct v; try done; try (by destruct (Hs s0));
    unfold grequest; vstep; vstep; unfold coerce_to_string; vstep;
    unfold loop_body, coerce_body, force; rewrite ?Hk; try (destruct b); by apply fails_err.
Qed.

Lemma generates_add a b s H gsp rs fs' :
  scalar a → scalar b → catchable a = false → catchable b = false →
  lands (mkVM (FResumed gsp (add_values dbg a b) :: fs') s ws H nx rs) (s_add dbg a b) (generates fs' s H).
Proof.
  intros Ha Hb Hca Hcb. unfold add_values, s_add.
  assert (lands (mkVM (FResumed gsp (gtry (λ h, arithmetic_op dbg h OAdd a b) GValue) :: fs') s ws H nx rs)
            (s_arith dbg OAdd a b) (generates fs' s H)) as Hn.
  { unfold gtry. vstep. rewrite scalar_arithmetic by done.
    destruct (s_arith dbg OAdd a b) as [w|e|] eqn:E; [|by apply fails_err|by apply fails_panic].
    apply lands_ok. split; [by eapply s_arith_scalar|by do 2 eexists]. }
  destruct a; try done; destruct b; try done; try (by apply coerce_scalar).
  apply lands_ok. split; [done|by do 2 eexists].
Qed.

(** Arithmetic, comparison and equality: the instruction of an operator. *)
Lemma yields_arith op i a b s H :
  scalar a → scalar b →
  yields (exec_arith dbg op sp (frame i) (machine (b :: a :: s) H)) (s_lift a b (s_arith dbg op a b)) (done_at i s H).
Proof.
  intros Ha Hb. apply yields_lifted2; [done..|]. intros _ _. cbn [below vm_heap]. rewrite scalar_arithmetic by done.
  destruct (s_arith dbg op a b) as [w|e|] eqn:E; [|done..]. apply yields_continue. by eapply s_arith_scalar.
Qed.

Lemma yields_div i a b s H :
  scalar a → scalar b →
  yields (exec_div dbg sp (frame i) (machine (b :: a :: s) H))
    (s_lift a b (if s_zero b then Err DivisionByZero else s_arith dbg ODiv a b)) (done_at i s H).
Proof.
  intros Ha Hb. apply yields_lifted2; [done..|]. intros _ _. cbn [below vm_heap].
  assert (yields (let? r := arithmetic_op dbg H ODiv a b in continue sp (frame i) (stack_push r (machine s H)))
            (s_arith dbg ODiv a b) (done_at i s H)) as Hd.
  { rewrite scalar_arithmetic by done.
    destruct (s_arith dbg ODiv a b) as [w|e|] eqn:E; [|done..]. apply yields_continue. by eapply s_arith_scalar. }
  destruct b as [| |z|f| | | | | | | | | | | | |]; try done; [by destruct z|by destruct f].
Qed.

Lemma yields_cmp op i a b s H :
  scalar a → scalar b →
  yields (exec_cmp op sp (frame i) (machine (b :: a :: s) H))
    (s_lift a b (let? c := s_cmp a b in Ok (VBool (cmp_result op c)))) (done_at i s H).
Proof.
  intros Ha Hb. apply yields_lifted2; [done..|]. intros Hca Hcb.
  apply yields_suspend. intros. by apply generates_cmp.
Qed.

Lemma yields_eq i a b s H :
  scalar a → scalar b →
  yields (execute_op dbg OpEqual sp (frame i) (machine (b :: a :: s) H))
    (s_lift a b (Ok (VBool (s_eq a b)))) (done_at i s H).
Proof.
  intros Ha Hb. apply yields_lifted2; [done..|]. intros Hca Hcb.
  apply yields_suspend. intros. by apply generates_eq.
Qed.

Lemma yields_add i a b s H :
  scalar a → scalar b →
  yields (execute_op dbg OpAdd sp (frame i) (machine (b :: a :: s) H))
    (s_lift a b (s_add dbg a b)) (done_at i s H).
Proof.
  intros Ha Hb. apply yields_lifted2; [done..|]. intros Hca Hcb.
  apply yields_suspend. intros. by apply generates_add.
Qed.

Lemma yields_unop op i v s H :
  scalar v →
  yields (execute_op dbg (match op with Invert => OpInvert | Negate => OpNegate end) sp (frame i) (machine (v :: s) H))
    (s_unop dbg op v) (done_at i s H).
Proof.
  intros Hv. destruct op; cbn [execute_op].
  - unfold lifted_pop1, s_unop, stack_pop. cbn [below stack obind set_stack vm_heap].
    rewrite scalar_is_catchable by done. cbn [obind]. destruct (catchable v); [by apply yields_continue|].
    rewrite scalar_as_bool by done. apply yields_bind. intros b _. by apply yields_continue.
  - unfold s_unop, stack_pop. cbn [below stack obind set_stack].
    destruct v; try done; cbn [catchable]; try (by apply yields_continue).
    apply yields_bind. intros z _. by apply yields_continue.
Qed.

Lemma run_unop op i v s H rs bs :
  scalar v → at_code l i (op_byte (match op with Invert => OpInvert | Negate => OpNegate end) :: bs) →
  lands (here i (v :: s) H rs) (s_unop dbg op v) (done_at (S i) s H).
Proof. intros Hv E. eapply lands_op; [exact E|]. by apply yields_unop. Qed.

(** The operators that evaluate both operands. *)
Definition eager (op : BinOpKind) : bool :=
  match op with Concat | Update | And | Or | Implication => false | _ => true end.

Lemma run_binop op i a b s H rs bs :
  eager op → scalar a → scalar b → at_code l i (map op_byte (binop_code op) ++ bs) →
  lands (here i (b :: a :: s) H rs) (s_binop dbg op a b) (done_at (i + length (binop_code op)) s H).
Proof.
  intros Ho Ha Hb E. unfold s_binop. destruct op; try done; cbn [binop_code length map app] in *;
    try (rewrite Nat.add_1_r; eapply lands_op; [exact E|];
         first [by apply yields_add|by apply (yields_arith OSub)|by apply (yields_arith OMul)|by apply yields_div
               |by apply yields_eq|by apply (yields_cmp CLess)|by apply (yields_cmp CLessOrEq)
               |by apply (yields_cmp CMore)|by apply (yields_cmp CMoreOrEq)]).
  replace (i + 2) with (S (S i)) by lia.
  assert (s_lift a b (Ok (VBool (negb (s_eq a b)))) =
          let? v := s_lift a b (Ok (VBool (s_eq a b))) in s_unop dbg Invert v) as ->.
  { unfold s_lift, s_unop. destruct (catchable b) eqn:Eb; [cbn; by rewrite Eb|].
    destruct (catchable a) eqn:Ea; [cbn; by rewrite Ea|done]. }
  eapply lands_bind.
  - eapply lands_op; [exact E|]. by apply yields_eq.
  - intros w vm' (Hw & rs' & ->). eapply (run_unop Invert); [done|].
    apply (at_code_app l i [op_byte OpEqual]) in E. by rewrite Nat.add_1_r in E.
Qed.

(** An operand: a constant that is forced. *)
Definition operand_code (idx : nat) : bytes := const_code idx ++ [op_byte OpForce].

Definition operand_at (i : nat) (s : list Value) (lo hi : Addr) (H : Heap) (w : Value) (vm : VM) : Prop :=
  scalar w ∧ ∃ H' rs, vm = here i (w :: s) H' rs ∧ outside lo hi H H'.

Lemma run_operand i s H rs idx v bs h lo hi r :
  idx < 100 → at_code l i (operand_code idx ++ bs) → Chunk.constants (chunk l) !! idx = Some v →
  means h lo hi v r → agree lo hi H h →
  at_code l (i + length (operand_code idx)) bs ∧
  lands (here i s H rs) r (operand_at (i + length (operand_code idx)) s lo hi H).
Proof.
  intros Hidx E Hv Hm Ha. split; [by apply at_code_app|]. unfold operand_code in *. rewrite <- app_assoc in E.
  destruct (run_constant l u off sp fs ws nx i s H rs idx v _ ltac:(lia) E Hv) as [Hs E'].
  eapply lands_steps; [exact Hs|]. rewrite length_app, Nat.add_assoc, Nat.add_1_r.
  set (j := i + length (const_code idx)) in *. eapply lands_op; [exact E'|]. cbn [execute_op below stack].
  destruct v as [| | | | | | | | | |t| | | | | |];
    try (destruct Hm as [Hw ->]; apply lands_ok; split; [done|]; exists H, sp; done).
  unfold suspend, current_span, cf_chunk. cbn [cf_lambda].
  destruct (get_span_ok l Hspans (E := ErrorKind) (ip (frame (S j)) - 1)) as [gsp ->].
  destruct Hm as (_ & _ & Hm). cbn [obind yields set_stack]. vm_cbn. vstep.
  specialize (Hm H (FCall (frame (S j)) sp :: fs) s ws nx gsp gsp gsp [] GDone Ha (Forall_nil_2 _)).
  destruct r as [w|e|]; [|exact Hm..]. destruct Hm as (vm' & Hs' & H' & rs' & sp' & -> & Hw & Ho).
  eapply lands_steps; [exact Hs'|]. vstep. apply lands_ok. split; [done|].
  exists H', rs'. split; [done|]. intros a Hna. apply Ho; [done|]. apply not_elem_of_nil.
Qed.

Lemma run_assert_bool i v s H rs bs :
  scalar v → at_code l i (op_byte OpAssertBool :: bs) →
  lands (here i (v :: s) H rs) (s_assert_bool v) (done_at (S i) s H).
Proof.
  intros Hv E. eapply lands_op; [exact E|]. cbn [execute_op]. unfold assert_type, s_assert_bool, stack_peek.
  cbn [below stack head or_panic obind vm_heap]. rewrite scalar_is_catchable, scalar_is_bool by done. cbn [obind].
  destruct v; try done; (apply lands_ok; split; [done|by eexists]).
Qed.

(** Simple instructions that do not fail. *)
Lemma run_pop i v s H rs bs :
  at_code l i (op_byte OpPop :: bs) →
  steps (here i (v :: s) H rs) (here (S i) s H sp) ∧ at_code l (S i) bs.
Proof.
  intros E. split.
  - apply rtc_once. unfold next_vm. by rewrite (step_op l u off sp fs ws nx _ _ _ _ _ _ E).
  - apply (at_code_app l i [op_byte OpPop]) in E. by rewrite Nat.add_1_r in E.
Qed.

Lemma run_assert_fail i s H rs bs :
  at_code l i (op_byte OpAssertFail :: bs) →
  steps (here i s H rs) (here (S i) (VCatchable AssertionFailed :: s) H sp) ∧ at_code l (S i) bs.
Proof.
  intros E. split.
  - apply rtc_once. unfold next_vm. by rewrite (step_op l u off sp fs ws nx _ _ _ _ _ _ E).
  - apply (at_code_app l i [op_byte OpAssertFail]) in E. by rewrite Nat.add_1_r in E.
Qed.

Lemma run_return i v s H rs bs :
  length s = off → at_code l i (op_byte OpReturn :: bs) →
  steps (here i (v :: s) H rs) (mkVM fs (v :: s) ws H nx sp).
Proof.
  intros Hs E. apply rtc_once. unfold next_vm. rewrite (step_op l u off sp fs ws nx _ _ _ _ _ _ E).
  cbn [execute_op below stack length stack_offset]. cbn [Nat.eqb]. rewrite Nat.sub_succ, Nat.sub_0_r, Hs, Nat.leb_refl.
  by rewrite andb_false_r.
Qed.

End Operations.
End VmSteps.
