(* ===== verification/EvalCode.v ===== *)
(** * Code of scalar expressions

    The code that the compiler emits for each form of scalar expression, whose
    operands are constants, and what a frame that runs it returns. *)

From stdpp Require Import strings gmap relations.
From S2P Require Import Prelude BTreeMap NixString NixAttrs Bytecode Value Compiler Generators Vm EvalSpec VmSteps.
Import Opcode.
#[local] Open Scope nat_scope.

Section EvalCode.
Context {varint : Vu128} {varint_laws : Vu128Laws} {env : EvalEnv}.
Context (dbg : bool).

Abbreviation R := (outcome ErrorKind).

(** ** Layouts *)

(** A jump over [d] bytes. *)
Definition jump_head (op : Op) (d : nat) : bytes := op_byte op :: le_bytes 2 (Z.of_nat d).

Definition unary_code (op : UnaryOpKind) : bytes :=
  operand_code 0 ++ [op_byte (match op with Invert => OpInvert | Negate => OpNegate end)].

Definition eager_code (op : BinOpKind) : bytes :=
  operand_code 0 ++ operand_code 1 ++ map op_byte (binop_code op).

(** The right operand of an operator that may not need it, decided by [stop]. *)
Definition rhs_code (stop : bool) : bytes :=
  jump_code (if stop then OpJumpIfTrue else OpJumpIfFalse) (op_byte OpPop :: operand_code 1) ++ [op_byte OpAssertBool].

Definition lazy_code (op : BinOpKind) : bytes :=
  operand_code 0 ++ jump_code OpJumpIfCatchable
    (match op with
     | And => rhs_code false
     | Or => rhs_code true
     | _ => op_byte OpInvert :: rhs_code true
     end).

(** The two arms of a condition, the second being [rest]. *)
Definition arms_code (rest : bytes) : bytes :=
  jump_code OpJumpIfFalse (op_byte OpPop :: const_code 1 ++ jump_head OpJump (length rest)) ++ rest.

Definition cond_code (rest : bytes) : bytes := operand_code 0 ++ jump_code OpJumpIfCatchable (arms_code rest).

Definition assert_rest : bytes := [op_byte OpPop; op_byte OpAssertFail].
Definition else_rest : bytes := op_byte OpPop :: const_code 2.

Lemma const_code_length idx : idx < 100 → 2 ≤ length (const_code idx) ≤ 10.
Proof. intros Hi. pose proof (encode_length (Z.of_nat idx) ltac:(lia)). cbn [const_code length]. lia. Qed.
Lemma operand_code_length idx : idx < 100 → 3 ≤ length (operand_code idx) ≤ 11.
Proof.
  intros Hi. pose proof (const_code_length idx Hi). unfold operand_code. rewrite length_app. cbn [length]. lia.
Qed.
Lemma jump_code_length op body : length (jump_code op body) = 3 + length body.
Proof. unfold jump_code. cbn [length]. rewrite length_app, length_le_bytes. lia. Qed.

(** ** Frames *)

Section Frame.
Context (l : Lambda Value) (sp : Span) (fs : list Frame) (s : list Value) (ws : list nat) (nx : Addr).
Context (Hspans : Chunk.spans (chunk l) ≠ []).
#[local] Abbreviation here := (at_ l no_upvalues (length s) sp fs ws nx).
#[local] Abbreviation pushed := (operand_at l no_upvalues (length s) sp fs ws nx).
#[local] Abbreviation pushed_same := (done_at l no_upvalues (length s) sp fs ws nx).

Lemma pushed_widen i s' lo hi lo' hi' H H' w vm :
  lo' ≤ lo → hi ≤ hi' → outside lo' hi' H H' → pushed i s' lo hi H' w vm → pushed i s' lo' hi' H w vm.
Proof.
  intros ?? Ho (Hw & H'' & rs & -> & Ho'). split; [done|]. exists H'', rs. split; [done|].
  eapply outside_trans; [done|]. by eapply outside_sub.
Qed.

Lemma pushed_same_widen i s' lo hi H H' w vm :
  outside lo hi H H' → pushed_same i s' H' w vm → pushed i s' lo hi H w vm.
Proof. intros Ho (Hw & rs & ->). split; [done|]. by exists H', rs. Qed.

(** A frame at its end. *)
Lemma gets_pushed vm i H lo hi r :
  lands dbg vm r (pushed i s lo hi H) → at_code l i [op_byte OpReturn] →
  gets dbg vm r (returned dbg fs s ws nx H lo hi r).
Proof.
  intros Hl E. destruct r as [w|e|]; [|by left..]. destruct Hl as (vm' & Hs & Hw & H' & rs' & -> & Ho).
  right. eexists. split; [etrans; [exact Hs|by eapply run_return]|].
  exists w, H', sp, lo, hi. split_and!; [done|done|done|done|]. by apply means_scalar.
Qed.

Lemma run_unary op H rs h lo hi v r bs :
  at_code l 0 (unary_code op ++ bs) → Chunk.constants (chunk l) !! 0 = Some v → means dbg h lo hi v r →
  agree lo hi H h →
  lands dbg (here 0 s H rs) (let? v := r in s_unop dbg op v) (pushed (length (unary_code op)) s lo hi H).
Proof.
  intros E Hv Hm Ha. unfold unary_code in *. rewrite <- app_assoc in E.
  destruct (run_operand dbg l no_upvalues (length s) sp fs ws nx Hspans 0 s H rs 0 v _ h lo hi r ltac:(lia) E Hv Hm Ha)
    as [E1 Hl].
  eapply lands_bind; [exact Hl|]. intros w vm' (Hw & H' & rs' & -> & Ho).
  rewrite length_app, Nat.add_1_r. eapply lands_weaken; [by eapply run_unop|].
  intros w' vm'. by apply pushed_same_widen.
Qed.

Lemma run_eager op H rs h lo mid hi v0 v1 r0 r1 bs :
  eager op → at_code l 0 (eager_code op ++ bs) → Chunk.constants (chunk l) !! 0 = Some v0 →
  Chunk.constants (chunk l) !! 1 = Some v1 → lo ≤ mid ≤ hi → means dbg h lo mid v0 r0 → means dbg h mid hi v1 r1 →
  agree lo hi H h →
  lands dbg (here 0 s H rs) (s_binary dbg op r0 r1) (pushed (length (eager_code op)) s lo hi H).
Proof.
  intros Hop E Hv0 Hv1 Hmid Hm0 Hm1 Ha. unfold eager_code in *. rewrite <- !app_assoc in E.
  assert (s_binary dbg op r0 r1 = let? a := r0 in let? b := r1 in s_binop dbg op a b) as -> by (by destruct op).
  destruct (run_operand dbg l no_upvalues (length s) sp fs ws nx Hspans 0 s H rs 0 v0 _ h lo mid r0 ltac:(lia) E Hv0 Hm0)
    as [E1 Hl]; [eapply agree_sub; [| |done]; lia|].
  eapply lands_bind; [exact Hl|]. clear Hl. intros a vm' (Hwa & H1 & rs1 & -> & Ho1).
  destruct (run_operand dbg l no_upvalues (length s) sp fs ws nx Hspans _ (a :: s) H1 rs1 1 v1 _ h mid hi r1 ltac:(lia) E1 Hv1 Hm1)
    as [E2 Hl].
  { eapply agree_trans; [eapply outside_agree, Ho1; lia|]. eapply agree_sub; [| |done]; lia. }
  eapply lands_bind; [exact Hl|]. intros b vm' (Hwb & H2 & rs2 & -> & Ho2).
  rewrite !length_app, length_map, !Nat.add_assoc. eapply lands_weaken; [by eapply run_binop|].
  intros w vm'. apply pushed_same_widen. eapply outside_trans; (eapply outside_sub; [| |done]; lia).
Qed.

(** The right operand of a lazy operator, after a left one that is no failure. *)
Lemma run_rhs stop i a H rs h mid hi v1 r1 bs :
  scalar a → catchable a = false → at_code l i (rhs_code stop ++ bs) → Chunk.constants (chunk l) !! 1 = Some v1 →
  means dbg h mid hi v1 r1 → agree mid hi H h →
  lands dbg (here i (a :: s) H rs) (s_lazy stop a r1) (pushed (i + length (rhs_code stop)) s mid hi H).
Proof.
  intros Hsa Hca E Hv1 Hm Ha. unfold s_lazy, rhs_code in *. rewrite Hca. rewrite <- app_assoc in E.
  set (body := op_byte OpPop :: operand_code 1) in *.
  assert (0 < length body < 100) as Hb.
  { pose proof (operand_code_length 1 ltac:(lia)). cbn [body length]. lia. }
  assert (jumps dbg sp fs ws nx (if stop then OpJumpIfTrue else OpJumpIfFalse) a
            (let? b := s_as_bool a in Ok (Bool.eqb b stop))) as Hj.
  { pose proof (jump_if_true dbg sp fs ws nx a Hsa) as Ht. pose proof (jump_if_false dbg sp fs ws nx a Hsa) as Hf.
    destruct stop, (s_as_bool a) as [[]| |]; done. }
  pose proof (run_jump dbg l no_upvalues (length s) sp fs ws nx _ i a s H rs body _ _ Hj E Hb) as Hl.
  destruct (at_code_jump l _ _ _ _ E) as (_ & E1 & E2). clear Hj. rewrite length_app, jump_code_length. cbn [length].
  replace (i + (3 + length body + 1)) with (S (i + 3 + length body)) by lia.
  destruct a as [|b| | | | | | | | | | | | | | |]; try exact Hl; [].
  cbn [s_as_bool obind] in Hl |- *. destruct Hl as (vm' & Hs & ->). eapply lands_steps; [exact Hs|].
  destruct (Bool.eqb b stop).
  - change (Ok (VBool b)) with (s_assert_bool (VBool b)). eapply lands_weaken; [by eapply run_assert_bool|].
    intros w vm'. by apply pushed_same_widen.
  - destruct (run_pop dbg l no_upvalues (length s) sp fs ws nx _ (VBool b) s H sp _ E1) as [Hp E3].
    eapply lands_steps; [exact Hp|].
    destruct (run_operand dbg l no_upvalues (length s) sp fs ws nx Hspans _ s H sp 1 v1 _ h mid hi r1 ltac:(lia) E3 Hv1 Hm Ha)
      as [E4 Hl].
    eapply lands_bind; [exact Hl|]. intros w vm' (Hw & H' & rs' & -> & Ho).
    replace (i + 3 + length body) with (S (i + 3) + length (operand_code 1)) by (cbn [body length]; lia).
    eapply lands_weaken; [by eapply run_assert_bool|]. intros w' vm'. by apply pushed_same_widen.
Qed.

(** The operand of a condition, and whether it is a failure. *)
Lemma run_condition H rs h lo mid v0 r0 body bs :
  at_code l 0 ((operand_code 0 ++ jump_code OpJumpIfCatchable body) ++ bs) → 0 < length body < 100 →
  Chunk.constants (chunk l) !! 0 = Some v0 → means dbg h lo mid v0 r0 → agree lo mid H h →
  let last := length (operand_code 0 ++ jump_code OpJumpIfCatchable body) in
  let start := length (operand_code 0) + 3 in
  at_code l last bs ∧ at_code l start (body ++ bs) ∧ last = start + length body ∧
  lands dbg (here 0 s H rs) r0 (λ c vm, scalar c ∧ ∃ H' rs', outside lo mid H H' ∧
    vm = here (if catchable c then last else start) (c :: s) H' rs').
Proof.
  intros E Hb Hv0 Hm Ha last start. rewrite <- app_assoc in E.
  destruct (run_operand dbg l no_upvalues (length s) sp fs ws nx Hspans 0 s H rs 0 v0 _ h lo mid r0 ltac:(lia) E Hv0 Hm Ha)
    as [E1 Hl]. cbn [Nat.add] in *.
  assert (last = start + length body) as Hlast by (unfold last; rewrite length_app, jump_code_length; lia).
  destruct (at_code_jump l _ _ _ _ E1) as (_ & E2 & E3).
  split_and!; [by rewrite Hlast|done|done|].
  eapply lands_then; [exact Hl|]. intros c vm' (Hw & H' & rs' & -> & Ho).
  destruct (run_jump dbg l no_upvalues (length s) sp fs ws nx _ _ c s H' rs' body _ _ (jump_if_catchable dbg sp fs ws nx c Hw) E1 Hb)
    as (vm' & Hs & ->).
  eexists. split; [exact Hs|]. split; [done|]. exists H', sp. split; [done|]. by rewrite Hlast.
Qed.

Lemma run_lazy op H rs h lo mid hi v0 v1 r0 r1 bs :
  op = And ∨ op = Or ∨ op = Implication → at_code l 0 (lazy_code op ++ bs) →
  Chunk.constants (chunk l) !! 0 = Some v0 → Chunk.constants (chunk l) !! 1 = Some v1 →
  lo ≤ mid ≤ hi → means dbg h lo mid v0 r0 → means dbg h mid hi v1 r1 → agree lo hi H h →
  lands dbg (here 0 s H rs) (s_binary dbg op r0 r1) (pushed (length (lazy_code op)) s lo hi H).
Proof.
  intros Hop E Hv0 Hv1 Hmid Hm0 Hm1 Ha. unfold lazy_code in *. set (body := match op with And => _ | _ => _ end) in *.
  pose proof (operand_code_length 1 ltac:(lia)) as Hl1.
  assert (∀ stop, 5 ≤ length (rhs_code stop) < 50) as Hlr.
  { intros stop. unfold rhs_code. rewrite length_app, jump_code_length. cbn [length]. lia. }
  assert (0 < length body < 100) as Hb.
  { pose proof (Hlr true). pose proof (Hlr false). unfold body. destruct op; cbn [length]; lia. }
  destruct (run_condition H rs h lo mid v0 r0 body bs E Hb Hv0 Hm0) as (E1 & E2 & Elast & Hl);
    [eapply agree_sub; [| |done]; lia|].
  set (last := length (operand_code 0 ++ jump_code OpJumpIfCatchable body)) in *. set (start := length (operand_code 0) + 3) in *.
  assert (∀ f, s_binary dbg op r0 r1 = (let? c := r0 in f c) →
    (∀ c, catchable c = true → f c = Ok c) →
    (∀ c H' rs', catchable c = false → scalar c → outside lo mid H H' → agree mid hi H' h →
       lands dbg (here start (c :: s) H' rs') (f c) (pushed last s mid hi H')) →
    lands dbg (here 0 s H rs) (s_binary dbg op r0 r1) (pushed last s lo hi H)) as Hwith.
  { intros f -> Hf Hnext. eapply lands_bind; [exact Hl|]. intros c vm' (Hc & H' & rs' & Ho & ->).
    destruct (catchable c) eqn:Ec.
    - rewrite Hf by done. apply lands_ok. split; [done|]. exists H', rs'. split; [done|].
      eapply outside_sub; [| |done]; lia.
    - eapply lands_weaken; [apply Hnext; try done|].
      + eapply agree_trans; [eapply outside_agree, Ho; lia|]. eapply agree_sub; [| |done]; lia.
      + intros w vm'. apply pushed_widen; [lia|lia|]. eapply outside_sub; [| |done]; lia. }
  destruct Hop as [->|[->| ->]].
  - apply (Hwith (λ a, s_lazy false a r1)); [done|by intros c Hc; unfold s_lazy; rewrite Hc|].
    intros c H' rs' Hc Hsc Ho Ha'. rewrite Elast. by eapply run_rhs.
  - apply (Hwith (λ a, s_lazy true a r1)); [done|by intros c Hc; unfold s_lazy; rewrite Hc|].
    intros c H' rs' Hc Hsc Ho Ha'. rewrite Elast. by eapply run_rhs.
  - apply (Hwith (λ a, let? a := s_unop dbg Invert a in s_lazy true a r1)); [done| |].
    { intros c Hc. unfold s_unop, s_lazy. rewrite Hc. cbn. by rewrite Hc. }
    intros c H' rs' Hc Hsc Ho Ha'. change (body ++ bs) with (op_byte OpInvert :: rhs_code true ++ bs) in E2.
    eapply lands_bind_eq; [by eapply (run_unop dbg l no_upvalues (length s) sp fs ws nx Invert)|].
    intros w vm' Ew (Hw & rs2 & ->). rewrite Elast. unfold body. cbn [length]. rewrite Nat.add_succ_r, <- Nat.add_succ_l.
    eapply run_rhs; try done.
    + unfold s_unop in Ew. rewrite Hc in Ew. destruct c; naive_solver.
    + apply (at_code_app l start [op_byte OpInvert]) in E2. by rewrite Nat.add_1_r in E2.
Qed.

(** A frame that returns a constant as it is. *)
Lemma gets_value i v H H' rs h lo hi lo' hi' r :
  at_code l i [op_byte OpReturn] → means dbg h lo' hi' v r → agree lo' hi' H' h → lo ≤ lo' → hi' ≤ hi →
  outside lo hi H H' → gets dbg (here i (v :: s) H' rs) r (returned dbg fs s ws nx H lo hi r).
Proof.
  intros E Hm Ha ?? Ho. right. eexists. split; [by eapply run_return|].
  exists v, H', sp, lo', hi'. split_and!; [done..|]. by eapply means_agree.
Qed.

(** The second arm of a condition, with the condition still on the stack. *)
Definition run_rest (h : Heap) (lo hi : Addr) (rest : bytes) (r : R Value) : Prop :=
  ∀ i c H rs, at_code l i (rest ++ [op_byte OpReturn]) →
    ∃ v lo' hi' rs', steps dbg (here i (c :: s) H rs) (here (i + length rest) (v :: s) H rs') ∧
      lo ≤ lo' ∧ hi' ≤ hi ∧ means dbg h lo' hi' v r.

Lemma assert_rest_runs h lo hi : run_rest h lo hi assert_rest (Ok (VCatchable AssertionFailed)).
Proof.
  intros i c H rs E. destruct (run_pop dbg l no_upvalues (length s) sp fs ws nx _ c s H rs _ E) as [Hs1 E1].
  destruct (run_assert_fail dbg l no_upvalues (length s) sp fs ws nx _ s H sp _ E1) as [Hs2 E2].
  exists (VCatchable AssertionFailed), lo, hi, sp. split_and!; [|done..].
  replace (i + length assert_rest) with (S (S i)) by (cbn; lia). by etrans.
Qed.

Lemma else_rest_runs h lo hi v2 r2 :
  Chunk.constants (chunk l) !! 2 = Some v2 → means dbg h lo hi v2 r2 → run_rest h lo hi else_rest r2.
Proof.
  intros Hv Hm i c H rs E. destruct (run_pop dbg l no_upvalues (length s) sp fs ws nx _ c s H rs _ E) as [Hs1 E1].
  destruct (run_constant dbg l no_upvalues (length s) sp fs ws nx _ s H sp 2 v2 _ ltac:(lia) E1 Hv) as [Hs2 E2].
  exists v2, lo, hi, sp. split_and!; [|done..].
  replace (i + length else_rest) with (S i + length (const_code 2)) by (cbn [else_rest length]; lia). by etrans.
Qed.

(** The arms, after a condition that is no failure. *)
Lemma run_arms i c rest h lo mid mid' hi H0 H rs v1 r1 r2 :
  scalar c → at_code l i (arms_code rest ++ [op_byte OpReturn]) → 0 < length rest < 50 →
  Chunk.constants (chunk l) !! 1 = Some v1 → means dbg h mid mid' v1 r1 → run_rest h mid' hi rest r2 →
  lo ≤ mid ≤ mid' → mid' ≤ hi → agree mid hi H h → outside lo hi H0 H →
  gets dbg (here i (c :: s) H rs) (let? b := s_as_bool c in if b : bool then r1 else r2)
    (returned dbg fs s ws nx H0 lo hi (let? b := s_as_bool c in if b : bool then r1 else r2)).
Proof.
  intros Hc E Hlr Hv1 Hm1 Hrest Hlo Hhi Ha Ho. unfold arms_code in E. rewrite <- app_assoc in E.
  set (body := op_byte OpPop :: const_code 1 ++ jump_head OpJump (length rest)) in *.
  pose proof (const_code_length 1 ltac:(lia)) as Hl1.
  assert (length body = 4 + length (const_code 1)) as Hlb.
  { unfold body. cbn [length]. rewrite length_app. unfold jump_head. cbn [length]. rewrite length_le_bytes. lia. }
  pose proof (run_jump dbg l no_upvalues (length s) sp fs ws nx _ i c s H rs body _ _
                (jump_if_false dbg sp fs ws nx c Hc) E ltac:(lia)) as Hl.
  destruct (at_code_jump l _ _ _ _ E) as (_ & E1 & E2).
  destruct (s_as_bool c) as [b|e|] eqn:Eb; cbn [obind] in *; [|by left..].
  destruct Hl as (vm' & Hs & ->). eapply gets_steps; [exact Hs|]. destruct b; cbn [negb].
  - assert (at_code l (i + 3) (op_byte OpPop :: const_code 1 ++ jump_code OpJump rest ++ [op_byte OpReturn])) as E1'.
    { unfold at_code in E1 |- *. rewrite E1. unfold body, jump_head, jump_code. cbn [app]. by rewrite <- !app_assoc. }
    destruct (run_pop dbg l no_upvalues (length s) sp fs ws nx _ c s H sp _ E1') as [Hs1 E3].
    destruct (run_constant dbg l no_upvalues (length s) sp fs ws nx _ s H sp 1 v1 _ ltac:(lia) E3 Hv1) as [Hs2 E5].
    destruct (run_jump dbg l no_upvalues (length s) sp fs ws nx _ _ v1 s H sp rest _ _ (jump_always dbg sp fs ws nx v1) E5 ltac:(lia))
      as (vm' & Hs3 & ->).
    destruct (at_code_jump l _ _ _ _ E5) as (_ & _ & E6).
    eapply gets_steps; [etrans; [exact Hs1|etrans; [exact Hs2|exact Hs3]]|].
    eapply gets_value; [done|exact Hm1|eapply agree_sub; [| |exact Ha]; lia|lia|lia|done].
  - destruct (Hrest _ c H sp E2) as (v & lo' & hi' & rs' & Hs2 & ? & ? & Hm2).
    apply at_code_app in E2. eapply gets_steps; [exact Hs2|].
    eapply gets_value; [done|exact Hm2|eapply agree_sub; [| |exact Ha]; lia|lia|lia|done].
Qed.

Lemma run_cond rest H rs h lo mid mid' hi v0 v1 r0 r1 r2 :
  at_code l 0 (cond_code rest ++ [op_byte OpReturn]) → 0 < length rest < 50 →
  Chunk.constants (chunk l) !! 0 = Some v0 → Chunk.constants (chunk l) !! 1 = Some v1 →
  means dbg h lo mid v0 r0 → means dbg h mid mid' v1 r1 → run_rest h mid' hi rest r2 →
  lo ≤ mid ≤ mid' → mid' ≤ hi → agree lo hi H h →
  gets dbg (here 0 s H rs) (let? c := r0 in s_cond c Ok r1 r2)
    (returned dbg fs s ws nx H lo hi (let? c := r0 in s_cond c Ok r1 r2)).
Proof.
  intros E Hlr Hv0 Hv1 Hm0 Hm1 Hrest Hlo Hhi Ha. unfold cond_code in E.
  pose proof (const_code_length 1 ltac:(lia)) as Hl1.
  assert (0 < length (arms_code rest) < 100) as Hb.
  { unfold arms_code. rewrite length_app, jump_code_length. unfold jump_head. cbn [length].
    rewrite length_app. cbn [length]. rewrite length_le_bytes. lia. }
  destruct (run_condition H rs h lo mid v0 r0 _ _ E Hb Hv0 Hm0) as (E1 & E2 & Elast & Hl);
    [eapply agree_sub; [| |done]; lia|].
  destruct r0 as [c|e|]; [|by left..]. cbn [obind]. destruct Hl as (vm' & Hs & Hc & H' & rs' & Ho & ->).
  eapply gets_steps; [exact Hs|]. unfold s_cond.
  assert (outside lo hi H H') as Ho' by (eapply outside_sub; [| |exact Ho]; lia).
  destruct (catchable c).
  - eapply gets_value; [done|by apply (means_scalar dbg H' lo hi c)|done|lia|lia|done].
  - eapply (run_arms _ c rest h lo mid mid' hi); try done.
    eapply agree_trans; [eapply outside_agree, Ho; lia|]. eapply agree_sub; [| |exact Ha]; lia.
Qed.

End Frame.
End EvalCode.
