(* ===== verification/EvalCompile.v ===== *)
(** * Compiling scalar expressions

    What the compiler emits for a scalar expression: exactly one constant,
    which stands for the value of the expression. *)

From stdpp Require Import strings gmap relations.
From S2P Require Import Prelude BTreeMap NixString NixAttrs Bytecode Scope Value Compiler Generators Vm EvalSpec.
From S2P Require Import VmSteps EvalCode Bindings Compile.
Import Opcode.
#[local] Open Scope nat_scope.
#[local] Open Scope compile_scope.

Section EvalCompile.
Context {varint : Vu128} {varint_laws : Vu128Laws} {env : EvalEnv}.
Context (dbg : bool) (globals : gmap bytes Value).

Abbreviation R := (outcome ErrorKind).

(** ** Specifications of compiler actions *)

Definition emits {A} (m : M A) (c : Compiler) (Q : A → Compiler → Prop) : Prop :=
  ∃ a c', m c = Ok (a, c') ∧ Q a c'.

Lemma emits_bind {A B} (m : M A) (f : A → M B) c Q :
  emits m c (λ a c', emits (f a) c' Q) → emits (mbind_ m f) c Q.
Proof.
  intros (a & c' & E & b & c'' & E' & HQ). exists b, c''. split; [|done].
  unfold mbind_. rewrite E. exact E'.
Qed.

Lemma emits_ret {A} (a : A) c (Q : A → Compiler → Prop) : Q a c → emits (mret a) c Q.
Proof. intros HQ. by exists a, c. Qed.

(** The compiler with its last context in view: the contexts below, the scope,
    code and constants of the last, the errors, and the heap up to the next
    address. Warnings are not looked at. *)
Definition sees (c : Compiler) (xs : list LambdaCtx) (sc : Scope Span) (bs : bytes) (cs : list Value)
    (es : list (CompileError * Span)) (h : Heap) (n : Addr) : Prop :=
  ∃ x, contexts c = xs ++ [x] ∧ scope x = sc ∧ captures_with_stack x = false ∧ upvalue_count (lambda x) = 0 ∧
    Chunk.code (chunk (lambda x)) = bs ∧ Chunk.constants (chunk (lambda x)) = cs ∧
    (bs ≠ [] → Chunk.spans (chunk (lambda x)) ≠ []) ∧
    dead_scope c = 0%Z ∧ errors c = es ∧ heap c = h ∧ next c = n.

Lemma get_context_last c xs x : contexts c = xs ++ [x] → get_context c = Ok (x, c).
Proof. intros E. unfold get_context. by rewrite E, last_snoc. Qed.

Lemma put_context_last c xs x y :
  contexts c = xs ++ [x] → put_context y c = Ok (tt, set_contexts (xs ++ [y]) c).
Proof.
  intros E. unfold put_context. rewrite E. destruct (xs ++ [x]) as [|z zs] eqn:E'; [by destruct xs|].
  rewrite <- E', length_app, Nat.add_sub. by rewrite take_app_length.
Qed.

Section View.
Context (xs : list LambdaCtx) (es : list (CompileError * Span)).

(** Replacing the chunk. *)
Lemma emits_put_chunk c sc bs cs h n ch (Q : unit → Compiler → Prop) :
  sees c xs sc bs cs es h n → (Chunk.code ch ≠ [] → Chunk.spans ch ≠ []) →
  (∀ c', sees c' xs sc (Chunk.code ch) (Chunk.constants ch) es h n → Q tt c') → emits (put_chunk ch) c Q.
Proof.
  intros (x & Hx & Hsc & Hw & Hu & Hbs & Hcs & Hsp & Hd & He & Hh & Hn) Hs HQ.
  unfold put_chunk. apply emits_bind. exists x, c. split; [by eapply get_context_last|].
  do 2 eexists. split; [by eapply put_context_last|]. apply HQ.
  eexists. split; [done|]. by destruct c.
Qed.

Lemma emits_live c sc bs cs h n {A} (m k : M A) Q :
  sees c xs sc bs cs es h n → emits k c Q →
  emits (let! dead := is_dead in if dead : bool then m else k) c Q.
Proof.
  intros (x & Hx & Hsc & Hw & Hu & Hbs & Hcs & Hsp & Hd & He & Hh & Hn) HQ.
  apply emits_bind. exists false, c. split; [|done]. unfold is_dead. by rewrite Hd.
Qed.

Lemma emits_get_chunk c sc bs cs h n (Q : Chunk.Chunk → Compiler → Prop) :
  sees c xs sc bs cs es h n →
  (∀ ch, Chunk.code ch = bs → Chunk.constants ch = cs → (bs ≠ [] → Chunk.spans ch ≠ []) → Q ch c) →
  emits get_chunk c Q.
Proof.
  intros (x & Hx & Hsc & Hw & Hu & Hbs & Hcs & Hsp & Hd & He & Hh & Hn) HQ.
  unfold get_chunk. apply emits_bind. exists x, c. split; [by eapply get_context_last|].
  apply emits_ret. by apply HQ.
Qed.

Lemma push_span_nonempty (ch : @Chunk.Chunk Value Span) sp i : Chunk.spans (Chunk.push_span ch sp i) ≠ [].
Proof.
  unfold Chunk.push_span. destruct (last (Chunk.spans ch)) as [y|] eqn:El; [case_bool_decide|]; cbn.
  - intros E. by rewrite E in El.
  - by destruct (Chunk.spans ch).
  - by destruct (Chunk.spans ch).
Qed.

Lemma push_span_constants (ch : @Chunk.Chunk Value Span) sp i :
  Chunk.constants (Chunk.push_span ch sp i) = Chunk.constants ch.
Proof. unfold Chunk.push_span. by repeat case_match. Qed.

Lemma emits_push_op c sc bs cs h n op sp (Q : nat → Compiler → Prop) :
  sees c xs sc bs cs es h n →
  (∀ c', sees c' xs sc (bs ++ [op_byte op]) cs es h n → Q (length bs) c') → emits (push_op op sp) c Q.
Proof.
  intros Hc HQ. unfold push_op. eapply emits_live; [done|].
  apply emits_bind. eapply emits_get_chunk; [done|]. intros ch <- <- Hsp.
  cbn [Chunk.push_op]. apply emits_bind. eapply emits_put_chunk; [done|intros _; apply push_span_nonempty|].
  intros c' Hc'. apply emits_ret, HQ. rewrite Chunk.push_span_code, push_span_constants in Hc'. done.
Qed.

Lemma emits_push_bytes c sc bs cs h n bs' (f : @Chunk.Chunk Value Span → Chunk.Chunk) (Q : unit → Compiler → Prop) :
  sees c xs sc bs cs es h n → bs ≠ [] →
  (∀ ch, f ch = Chunk.set_code ch (Chunk.code ch ++ bs')) →
  (∀ c', sees c' xs sc (bs ++ bs') cs es h n → Q tt c') →
  emits (let! dead := is_dead in if dead : bool then mret tt else let! ch := get_chunk in put_chunk (f ch)) c Q.
Proof.
  intros Hc Hne Hf HQ. eapply emits_live; [done|]. apply emits_bind. eapply emits_get_chunk; [done|].
  intros ch <- <- Hsp. rewrite Hf. eapply emits_put_chunk; [done|intros _; by apply Hsp|]. intros c' Hc'. by apply HQ.
Qed.

Lemma emits_push_uvarint c sc bs cs h n z (Q : unit → Compiler → Prop) :
  sees c xs sc bs cs es h n → bs ≠ [] →
  (∀ c', sees c' xs sc (bs ++ encode_u64 z) cs es h n → Q tt c') → emits (push_uvarint z) c Q.
Proof. intros. by eapply emits_push_bytes. Qed.

Lemma emits_emit_constant c sc bs cs h n v sp (Q : unit → Compiler → Prop) :
  sees c xs sc bs cs es h n →
  (∀ c', sees c' xs sc (bs ++ const_code (length cs)) (cs ++ [v]) es h n → Q tt c') →
  emits (emit_constant v sp) c Q.
Proof.
  intros Hc HQ. unfold emit_constant. eapply emits_live; [done|]. apply emits_bind. unfold push_constant.
  apply emits_bind. eapply emits_get_chunk; [done|]. intros ch <- <- Hsp. cbn [Chunk.push_constant].
  apply emits_bind. eapply emits_put_chunk; [done|exact Hsp|]. intros c1 Hc1. apply emits_ret, emits_bind.
  eapply emits_push_op; [done|]. intros c2 Hc2. eapply emits_push_uvarint; [done|by destruct (Chunk.code _)|].
  intros c3 Hc3. apply HQ. cbn in Hc3. by rewrite <- app_assoc in Hc3.
Qed.

(** *** Jumps *)

Definition hole (op : Op) : bytes := jump_head op 0.

Lemma jump_head_length op d : length (jump_head op d) = 3.
Proof. done. Qed.

Lemma emits_push_jump c sc bs cs h n op sp (Q : nat → Compiler → Prop) :
  sees c xs sc bs cs es h n →
  (∀ c', sees c' xs sc (bs ++ hole op) cs es h n → Q (length bs) c') → emits (push_jump op sp) c Q.
Proof.
  intros Hc HQ. unfold push_jump. apply emits_bind. eapply emits_push_op; [done|]. intros c1 Hc1.
  apply emits_bind. eapply (emits_push_bytes _ _ _ _ _ _ (le_bytes 2 0)); [done|by destruct bs|done|].
  intros c2 Hc2. apply emits_ret, HQ. by rewrite <- app_assoc in Hc2.
Qed.

Lemma emits_patch_jump c sc bs cs h n pre op body idx (Q : unit → Compiler → Prop) :
  sees c xs sc bs cs es h n → bs = pre ++ hole op ++ body → idx = length pre → length body < 100 →
  (∀ c', sees c' xs sc (pre ++ jump_code op body) cs es h n → Q tt c') → emits (patch_jump idx) c Q.
Proof.
  intros Hc Hbs -> Hl HQ. unfold patch_jump. apply emits_bind. eapply emits_get_chunk; [done|].
  intros ch Hcode <- Hsp. apply emits_bind. unfold mlift.
  exists (Chunk.set_code ch (pre ++ jump_code op body)), c. split.
  - rewrite (Chunk.patch_jump_code ch pre (op_byte op) (le_bytes 2 0) body) by (by rewrite Hcode, Hbs || done).
    cbn [obind]. rewrite Z.mod_small by lia. done.
  - eapply emits_put_chunk; [done| |].
    + intros _. apply Hsp. rewrite Hbs. by destruct pre.
    + intros c' Hc'. by apply HQ.
Qed.

Lemma emits_emit_warning c sc bs cs h n sp k (Q : unit → Compiler → Prop) :
  sees c xs sc bs cs es h n → (∀ c', sees c' xs sc bs cs es h n → Q tt c') → emits (emit_warning sp k) c Q.
Proof.
  intros (x & Hc) HQ. do 2 eexists. split; [done|]. apply HQ. exists x. by destruct c.
Qed.

Lemma emits_emit_force c sc bs cs h n sp (Q : unit → Compiler → Prop) :
  sees c xs sc bs cs es h n →
  (∀ c', sees c' xs sc (bs ++ [op_byte OpForce]) cs es h n → Q tt c') → emits (emit_force sp) c Q.
Proof.
  intros Hc HQ. unfold emit_force. apply emits_bind. eapply emits_push_op; [done|].
  intros c1 Hc1. by apply emits_ret, HQ.
Qed.

Lemma emits_push_ops c sc bs cs h n ops sp (Q : unit → Compiler → Prop) :
  sees c xs sc bs cs es h n →
  (∀ c', sees c' xs sc (bs ++ map op_byte ops) cs es h n → Q tt c') → emits (push_ops ops sp) c Q.
Proof.
  revert c bs. induction ops as [|op ops IH]; intros c bs Hc HQ; cbn [push_ops].
  - apply emits_ret, HQ. by rewrite app_nil_r.
  - apply emits_bind. eapply emits_push_op; [done|]. intros c1 Hc1. eapply IH; [done|].
    intros c' Hc'. apply HQ. by rewrite <- app_assoc in Hc'.
Qed.

(** *** Scopes *)

(** An action on the scope. *)
Lemma emits_on_scope c sc bs cs h n {A} (f : Scope Span → outcome Empty_set (A * Scope Span)) a sc'
    (Q : A → Compiler → Prop) :
  sees c xs sc bs cs es h n → f sc = Ok (a, sc') →
  (∀ c', sees c' xs sc' bs cs es h n → Q a c') → emits (on_scope f) c Q.
Proof.
  intros (x & Hx & Hsc & Hw & Hu & Hbs & Hcs & Hsp & Hd & He & Hh & Hn) Hf HQ.
  unfold on_scope, get_scope, put_scope. apply emits_bind, emits_bind.
  exists x, c. split; [by eapply get_context_last|]. apply emits_ret, emits_bind.
  exists (a, sc'), c. split; [unfold mlift; by rewrite Hsc, Hf|].
  apply emits_bind, emits_bind. exists x, c. split; [by eapply get_context_last|].
  do 2 eexists. split; [by eapply put_context_last|]. apply emits_ret, HQ.
  eexists. split; [done|]. by destruct c.
Qed.

End View.

(** ** Thunks *)

(** Nothing is bound in the contexts. *)
Definition free (s : Scope Span) : Prop := by_name s = ∅.

Definition good (xs : list LambdaCtx) (sc : Scope Span) : Prop :=
  Forall (λ x, free (scope x)) xs ∧ free sc ∧ (0 ≤ scope_depth sc)%Z.

(** The scope in which the content of a thunk is compiled. *)
Definition inner_scope (sc : Scope Span) (sp : Span) : Scope Span :=
  mkScope [mkLocal Phantom (Some sp) (scope_depth sc + 1) false true false false] [] ∅ (scope_depth sc + 1 + 1)
    (with_stack_size sc).

Lemma end_inner_scope sc sp :
  (0 ≤ scope_depth sc)%Z → ∃ sc', end_scope (E := Empty_set) dbg (inner_scope sc sp) = Ok (sc', 0, []).
Proof.
  intros Hd. unfold end_scope, inner_scope. cbn [scope_depth locals by_name rev app end_loop depth].
  rewrite (proj2 (Z.eqb_neq (scope_depth sc + 1 + 1) 0)), andb_false_r by lia.
  rewrite (proj2 (Z.eqb_neq (scope_depth sc + 1) (scope_depth sc + 1 + 1))) by lia. cbn [obind].
  unfold usize_pred. rewrite (proj2 (Z.eqb_neq (scope_depth sc + 1 + 1) 0)) by lia. cbn [obind]. by eexists.
Qed.

(** Entering and leaving a context. *)
Lemma emits_new_context c xs sc bs cs es h n (Q : unit → Compiler → Prop) :
  sees c xs sc bs cs es h n →
  (∀ c' x, scope x = sc → (∀ c'', contexts c'' = xs ++ [x] → dead_scope c'' = 0%Z → errors c'' = es →
                              sees c'' xs sc bs cs es (heap c'') (next c'')) →
     sees c' (xs ++ [x]) (inherit sc) [] [] es h n → Q tt c') →
  emits new_context c Q.
Proof.
  intros (x & Hx & Hsc & Hw & Hu & Hbs & Hcs & Hsp & Hdead & He & Hh & Hn) HQ.
  exists tt, (set_contexts ((xs ++ [x]) ++ [LambdaCtx_inherit x]) c). split.
  { unfold new_context. by rewrite Hx, last_snoc. }
  apply (HQ _ x); [done| |].
  - intros c'' Hx' Hd' He'. by exists x.
  - exists (LambdaCtx_inherit x). rewrite <- Hsc. by destruct c.
Qed.

Lemma emits_set_name c xs sc bs cs es h n nm (Q : unit → Compiler → Prop) :
  sees c xs sc bs cs es h n → (∀ c', sees c' xs sc bs cs es h n → Q tt c') → emits (set_name nm) c Q.
Proof.
  intros (x & Hx & Hc) HQ. unfold set_name. apply emits_bind. exists x, c. split; [by eapply get_context_last|].
  do 2 eexists. split; [by eapply put_context_last|]. apply HQ. eexists. split; [done|]. by destruct c.
Qed.

Lemma emits_cleanup c xs sc es h n bs cs sc' sp (Q : unit → Compiler → Prop) :
  sees c xs sc bs cs es h n → end_scope (E := Empty_set) dbg sc = Ok (sc', 0, []) →
  (∀ c', sees c' xs sc' bs cs es h n → Q tt c') → emits (cleanup_scope dbg sp) c Q.
Proof.
  intros Hc Hend HQ. unfold cleanup_scope, m_end_scope. apply emits_bind.
  eapply emits_on_scope; [done|by rewrite Hend|]. intros c1 Hc1. cbn [fst snd].
  apply emits_bind, emits_ret, emits_ret. by apply HQ.
Qed.

Lemma emits_thunk c xs sc bs cs es h n slot sp (content : Code) P (Q : unit → Compiler → Prop) :
  sees c xs sc bs cs es h n → good xs sc → slot < length (locals sc) →
  (∀ c1 xs1, sees c1 xs1 (inner_scope sc sp) [] [] es h n → good xs1 (inner_scope sc sp) →
     emits (content 0) c1 (λ _ c2, ∃ bs2 cs2 h2 n2,
       sees c2 xs1 (inner_scope sc sp) bs2 cs2 es h2 n2 ∧ P bs2 cs2 h2 n2)) →
  (∀ c' bs2 cs2 h2 n2 l, P bs2 cs2 h2 n2 → Chunk.code (chunk l) = bs2 ++ [op_byte OpReturn] →
     Chunk.constants (chunk l) = cs2 → Chunk.spans (chunk l) ≠ [] →
     sees c' xs sc (bs ++ const_code (length cs)) (cs ++ [VThunk n2]) es
       (<[n2 := Suspended l no_upvalues sp]> h2) (S n2) → Q tt c') →
  emits (thunk dbg slot sp content) c Q.
Proof.
  intros Hc (Hfree & Hfsc & Hd) Hslot Hcontent HQ. unfold thunk, compile_lambda_or_thunk.
  apply emits_bind. destruct (lookup_lt_is_Some_2 _ _ Hslot) as [outer Hout].
  eapply emits_on_scope; [done|by rewrite Hout|]. clear dependent c. intros c Hc.
  apply emits_bind. eapply emits_new_context; [done|]. clear dependent c. intros c x Hx Hback Hc.
  apply emits_bind. eapply emits_set_name; [done|]. clear dependent c. intros c Hc.
  apply emits_bind. eapply emits_on_scope; [done|done|]. clear dependent c. intros c Hc.
  apply emits_bind. eapply emits_on_scope; [done|done|]. clear dependent c. intros c Hc.
  apply emits_bind, emits_bind.
  assert (good (xs ++ [x]) (inner_scope sc sp)) as Hgood.
  { split_and!; [|done|cbn; lia]. apply Forall_app. split; [done|]. repeat constructor. by rewrite Hx. }
  destruct (Hcontent c (xs ++ [x]) Hc Hgood) as ([] & c2 & E2 & bs2 & cs2 & h2 & n2 & Hc2 & HP).
  exists tt, c2. split; [exact E2|]. clear dependent c. apply emits_ret.
  destruct (end_inner_scope sc sp Hd) as [sc' Hend].
  apply emits_bind. eapply emits_cleanup; [done|done|]. clear dependent c2. intros c Hc.
  apply emits_bind, emits_ret, emits_bind.
  destruct Hc as (x2 & Hx2 & Hsc2 & Hw2 & Hu2 & Hbs2 & Hcs2 & Hsp2 & Hdead & He & Hh & Hn).
  exists x2, (set_contexts (xs ++ [x]) c). split.
  { unfold pop_context. rewrite Hx2, last_snoc, length_app, Nat.add_sub. cbn [or_panic obind]. by rewrite take_app_length. }
  set (l := set_chunk _ _). assert (upvalue_count l = 0) as -> by done. rewrite Hw2. cbn [Nat.eqb negb andb].
  apply emits_bind. do 2 eexists. split; [done|]. cbn [set_contexts contexts warnings errors dead_scope heap next].
  rewrite Hh, Hn. eapply (emits_emit_constant xs es).
  { apply Hback; [done|exact Hdead|exact He]. }
  intros c' Hc'. cbn [heap next] in Hc'.
  apply (HQ c' bs2 cs2 h2 n2 l); [done| | | |done]; unfold l, Chunk.push_op; cbn [set_chunk chunk fst].
  - rewrite Chunk.push_span_code. cbn. by rewrite Hbs2.
  - rewrite push_span_constants. done.
  - apply push_span_nonempty.
Qed.

(** ** Identifiers *)

Lemma resolve_free {E} (sc : Scope Span) ident : free sc → resolve_local (E := E) sc ident = Ok (Unknown, sc).
Proof. unfold free, resolve_local. intros ->. by rewrite lookup_empty. Qed.

Lemma resolve_upvalue_free c k ident :
  Forall (λ x, free (scope x)) (take k (contexts c)) → k ≤ length (contexts c) →
  resolve_upvalue k ident c = Ok (None, c).
Proof.
  revert c. induction k as [|k IH]; intros c Hf Hk; [done|]. cbn [resolve_upvalue].
  destruct (lookup_lt_is_Some_2 (contexts c) k ltac:(lia)) as [x Hx].
  rewrite (take_S_r _ _ _ Hx), Forall_app in Hf. destruct Hf as [Hf Hfx]. rewrite Forall_singleton in Hfx.
  unfold mbind_, get_ctx. rewrite Hx. cbn [or_panic obind]. unfold mlift. rewrite resolve_free by done. cbn [obind].
  unfold put_ctx. rewrite (proj2 (Nat.ltb_lt _ _)) by lia. cbn [obind].
  rewrite list_insert_id by (destruct x; exact Hx).
  replace (set_contexts (contexts c) c) with c by (by destruct c).
  rewrite IH by (done || lia). done.
Qed.

Lemma emits_user_defined c xs sc bs cs es h n ident (Q : bool → Compiler → Prop) :
  sees c xs sc bs cs es h n → good xs sc → (∀ c', sees c' xs sc bs cs es h n → Q false c') →
  emits (is_user_defined ident) c Q.
Proof.
  intros Hc (_ & Hf & _) HQ. unfold is_user_defined. apply emits_bind.
  eapply emits_on_scope; [done|by apply resolve_free|]. intros c' Hc'. by apply emits_ret, HQ.
Qed.

Lemma emits_global c xs sc bs cs es h n slot ident v sp (Q : unit → Compiler → Prop) :
  sees c xs sc bs cs es h n → good xs sc → globals !! ident = Some v →
  (∀ c', sees c' xs sc (bs ++ const_code (length cs)) (cs ++ [v]) es h n → Q tt c') →
  emits (compile_identifier_access dbg globals slot ident sp) c Q.
Proof.
  intros Hc (Hfree & Hf & _) Hv HQ. unfold compile_identifier_access. apply emits_bind.
  eapply emits_on_scope; [done|by apply resolve_free|]. clear c Hc. intros c Hc.
  pose proof Hc as (x & Hx & _). apply emits_bind.
  exists (length xs), c. split.
  { unfold last_ctx. rewrite Hx, length_app, Nat.add_sub. cbn [length]. by rewrite Nat.add_1_r. }
  apply emits_bind. exists None, c. split.
  { apply resolve_upvalue_free; rewrite Hx, ?take_app_length; [done|]. rewrite length_app. lia. }
  rewrite Hv. by eapply emits_emit_constant.
Qed.

(** ** The optimiser *)

Lemma emits_optimise c xs sc bs cs es h n slot sp op lhs rhs lsp rsp dead (Q : Optimised → Compiler → Prop) :
  sees c xs sc bs cs es h n → good xs sc → dead_operand op lhs rhs = false →
  (∀ c', sees c' xs sc bs cs es h n → Q (choose op lhs rhs) c') →
  emits (optimise_bin_op slot sp op lhs rhs lsp rsp dead) c Q.
Proof.
  intros Hc Hg Hdead HQ. unfold optimise_bin_op.
  apply emits_bind. eapply emits_user_defined; [done|done|]. clear c Hc. intros c Hc.
  apply emits_bind. eapply emits_user_defined; [done|done|]. clear c Hc. intros c Hc.
  destruct op, lhs, rhs; try done; cbn [choose] in HQ; try (by apply emits_ret, HQ);
    (apply emits_bind; eapply emits_emit_warning; [done|]; intros c' Hc'; by apply emits_ret, HQ).
Qed.

(** ** Expression forms *)

(** A piece of code that emits one constant standing for a result. *)
Definition one_constant (m : Code) (r : R Value) : Prop :=
  ∀ c xs sc bs cs es h n slot Q, sees c xs sc bs cs es h n → good xs sc → slot < length (locals sc) → 
    (∀ c' v h' n', sees c' xs sc (bs ++ const_code (length cs)) (cs ++ [v]) es h' n' → n ≤ n' →
       outside n n' h h' → means dbg h' n n' v r → Q tt c') →
    emits (m slot) c Q.

Lemma one_constant_value (m : Code) v :
  scalar v →
  (∀ c xs sc bs cs es h n slot (Q : unit → Compiler → Prop),
     sees c xs sc bs cs es h n → good xs sc →
     (∀ c', sees c' xs sc (bs ++ const_code (length cs)) (cs ++ [v]) es h n → Q tt c') → emits (m slot) c Q) →
  one_constant m (Ok v).
Proof.
  intros Hv Hm c xs sc bs cs es h n slot Q Hc Hg Hs HQ. eapply Hm; [done|done|].
  intros c' Hc'. eapply HQ; [done|done|done|]. by apply means_scalar.
Qed.

(** A thunk whose content is compiled to a frame that returns the result. *)
Lemma one_constant_thunk sp (content : Code) r :
  (∀ c xs sc es h n Q, sees c xs sc [] [] es h n → good xs sc → locals sc ≠ [] →
     (∀ c' bs cs h' n', sees c' xs sc bs cs es h' n' → n ≤ n' → outside n n' h h' →
        (∀ l, Chunk.code (chunk l) = bs ++ [op_byte OpReturn] → Chunk.constants (chunk l) = cs →
           Chunk.spans (chunk l) ≠ [] → returns dbg l h' n n' r) → Q tt c') →
     emits (content 0) c Q) →
  one_constant (λ slot, thunk dbg slot sp content) r.
Proof.
  intros Hcontent c xs sc bs cs es h n slot Q Hc Hg Hslot HQ.
  eapply (emits_thunk _ _ _ _ _ _ _ _ _ _ _ (λ bs2 cs2 h2 n2, n ≤ n2 ∧ outside n n2 h h2 ∧
    ∀ l, Chunk.code (chunk l) = bs2 ++ [op_byte OpReturn] → Chunk.constants (chunk l) = cs2 →
           Chunk.spans (chunk l) ≠ [] → returns dbg l h2 n n2 r)); [done|done|done| |].
  - intros c1 xs1 Hc1 Hg1. eapply Hcontent; [done|done|done|].
    intros c' bs' cs' h' n' Hc' Hn Ho Hr. by exists bs', cs', h', n'.
  - intros c' bs2 cs2 h2 n2 l (Hn & Ho & Hr) Hcode Hconst Hsp Hc'. eapply HQ; [done|lia| |].
    + intros a Ha. rewrite heap_ne by lia. apply Ho. lia.
    + apply means_thunk; [done|done|]. by apply Hr.
Qed.

Lemma at_start l bs : Chunk.code (chunk l) = bs → at_code l 0 bs.
Proof. by intros <-. Qed.

Lemma returns_pushed l bs h lo hi r :
  Chunk.code (chunk l) = bs ++ [op_byte OpReturn] →
  (∀ H fs s ws nx rs sp, agree lo hi H h →
     lands dbg (at_ l no_upvalues (length s) sp fs ws nx 0 s H rs) r
       (operand_at l no_upvalues (length s) sp fs ws nx (length bs) s lo hi H)) →
  returns dbg l h lo hi r.
Proof.
  intros Hcode Hl H fs s ws nx rs sp Ha. eapply gets_pushed; [by apply Hl|].
  apply at_start in Hcode. by apply at_code_app in Hcode.
Qed.

Lemma nonempty_lt {A} (xs : list A) : xs ≠ [] → 0 < length xs.
Proof. destruct xs; [done|cbn; lia]. Qed.

Lemma form_unary m r sp op :
  one_constant m r →
  one_constant (λ slot, thunk dbg slot sp (λ s, compile_unary_op s sp op m)) (let? v := r in s_unop dbg op v).
Proof.
  intros Hm. apply one_constant_thunk. intros c xs sc es h n Q Hc Hg Hl HQ. unfold compile_unary_op.
  apply emits_bind. eapply Hm; [done|done|by apply nonempty_lt|]. clear dependent c. intros c v h' n' Hc Hn Ho Hv.
  apply emits_bind. eapply emits_emit_force; [done|]. clear dependent c. intros c Hc.
  apply emits_bind. eapply emits_push_op; [done|]. clear dependent c. intros c Hc. apply emits_ret.
  eapply HQ; [done|done|done|]. intros l Hcode Hconst Hsp.
  eapply (returns_pushed l (unary_code op)); [done|]. intros H fs s ws nx rs sp' Ha.
  eapply run_unary; [done|by apply at_start|by rewrite Hconst|done|done].
Qed.

Lemma form_eager m0 r0 m1 r1 sp sp0 sp1 op :
  eager op → one_constant m0 r0 → one_constant m1 r1 →
  one_constant (λ slot, thunk dbg slot sp (λ s, compile_binop s sp op m0 sp0 m1 sp1)) (s_binary dbg op r0 r1).
Proof.
  intros Hop Hm0 Hm1. apply one_constant_thunk. intros c xs sc es h n Q Hc Hg Hl HQ.
  apply nonempty_lt in Hl.
  assert (emits (m0 0;;; emit_force sp0;;; m1 0;;; emit_force sp1;;; push_ops (binop_code op) sp) c Q) as He.
  { apply emits_bind. eapply Hm0; [done..|]. clear dependent c. intros c v0 h0 n0 Hc Hn0 Ho0 Hv0.
    apply emits_bind. eapply emits_emit_force; [done|]. clear dependent c. intros c Hc.
    apply emits_bind. eapply Hm1; [done..|]. clear dependent c. intros c v1 h1 n1 Hc Hn1 Ho1 Hv1.
    apply emits_bind. eapply emits_emit_force; [done|]. clear dependent c. intros c Hc.
    eapply emits_push_ops; [done|]. clear dependent c. intros c Hc.
    eapply HQ; [done|lia| |].
    - eapply outside_trans; (eapply outside_sub; [| |done]; lia).
    - intros l Hcode Hconst Hsp. eapply (returns_pushed l (eager_code op)).
      { rewrite Hcode. unfold eager_code, operand_code. by rewrite <- !app_assoc. }
      intros H fs s ws nx rs sp' Ha.
      eapply (run_eager dbg l sp' fs s ws nx Hsp op H rs h1 n n0 n1 v0 v1 r0 r1 [op_byte OpReturn]); try done.
      + apply at_start. rewrite Hcode. unfold eager_code, operand_code. by rewrite <- !app_assoc.
      + by rewrite Hconst.
      + by rewrite Hconst.
      + eapply means_agree; [|done]. eapply outside_agree, Ho1. lia. }
  by destruct op.
Qed.

(** Equal code, up to how it is put together. *)
Ltac code_eq :=
  unfold operand_code, hole, jump_head, jump_code in *; cbn [app length] in *; rewrite <- ?app_assoc; cbn [app];
  rewrite <- ?app_assoc; cbn [app]; done.

(** From the decision of a lazy operator on, which [pre] leads to. *)
Lemma emits_rhs c xs sc pre mid es h n v0 m1 r1 sp sp1 (stop : bool) (Q : unit → Compiler → Prop) :
  sees c xs sc (pre ++ hole OpJumpIfCatchable ++ mid) [v0] es h n → good xs sc → locals sc ≠ [] →
  one_constant m1 r1 → length mid < 10 →
  (∀ c' v1 h' n', sees c' xs sc (pre ++ jump_code OpJumpIfCatchable (mid ++ rhs_code stop)) [v0; v1] es h' n' → n ≤ n' →
     outside n n' h h' → means dbg h' n n' v1 r1 → Q tt c') →
  emits (let! end_idx := push_jump (if stop then OpJumpIfTrue else OpJumpIfFalse) sp in
         push_op OpPop sp;;; m1 0;;; emit_force sp1;;;
         patch_jump end_idx;;; push_op OpAssertBool sp;;; patch_jump (length pre)) c Q.
Proof.
  intros Hc Hg Hl Hm1 Hmid HQ. apply nonempty_lt in Hl. set (jop := if stop then OpJumpIfTrue else OpJumpIfFalse).
  pose proof (operand_code_length 1 ltac:(lia)) as Hl1.
  apply emits_bind. eapply emits_push_jump; [done|]. clear dependent c. intros c Hc.
  apply emits_bind. eapply emits_push_op; [done|]. clear dependent c. intros c Hc.
  apply emits_bind. eapply Hm1; [done..|]. clear dependent c. intros c v1 h1 n1 Hc Hn1 Ho1 Hv1.
  apply emits_bind. eapply emits_emit_force; [done|]. clear dependent c. intros c Hc.
  apply emits_bind.
  eapply (emits_patch_jump _ _ _ _ _ _ _ _ (pre ++ hole OpJumpIfCatchable ++ mid) jop (op_byte OpPop :: operand_code 1));
    [done|code_eq|done|cbn [length]; lia|].
  clear dependent c. intros c Hc. apply emits_bind. eapply emits_push_op; [done|]. clear dependent c. intros c Hc.
  eapply (emits_patch_jump _ _ _ _ _ _ _ _ pre OpJumpIfCatchable (mid ++ rhs_code stop)).
  - done.
  - unfold rhs_code. fold jop. by rewrite <- !app_assoc.
  - done.
  - unfold rhs_code. rewrite !length_app, jump_code_length. cbn [length]. lia.
  - intros c' Hc'. eapply HQ; [exact Hc'|done..].
Qed.

Lemma form_lazy m0 r0 m1 r1 sp sp0 sp1 op :
  op = And ∨ op = Or ∨ op = Implication → one_constant m0 r0 → one_constant m1 r1 →
  one_constant (λ slot, thunk dbg slot sp (λ s, compile_binop s sp op m0 sp0 m1 sp1)) (s_binary dbg op r0 r1).
Proof.
  intros Hop Hm0 Hm1. apply one_constant_thunk. intros c xs sc es h n Q Hc Hg Hl HQ.
  assert (∀ c v0 v1 h0 n0 h1 n1,
    sees c xs sc (lazy_code op) [v0; v1] es h1 n1 → n ≤ n0 → n0 ≤ n1 → outside n n0 h h0 → outside n0 n1 h0 h1 →
    means dbg h0 n n0 v0 r0 → means dbg h1 n0 n1 v1 r1 → Q tt c) as Hend.
  { clear c Hc. intros c v0 v1 h0 n0 h1 n1 Hc Hn0 Hn1 Ho0 Ho1 Hv0 Hv1. eapply HQ; [done|lia| |].
    - eapply outside_trans; (eapply outside_sub; [| |done]; lia).
    - intros l Hcode Hconst Hsp. eapply (returns_pushed l (lazy_code op)); [done|].
      intros H fs s ws nx rs sp' Ha.
      eapply (run_lazy dbg l sp' fs s ws nx Hsp op H rs h1 n n0 n1 v0 v1 r0 r1 [op_byte OpReturn]); try done.
      + by rewrite Hconst.
      + by rewrite Hconst.
      + eapply means_agree; [|done]. eapply outside_agree, Ho1. lia. }
  clear HQ. pose proof (nonempty_lt _ Hl) as Hl'.
  assert (∀ k, (∀ c v0 h0 n0, sees c xs sc (operand_code 0 ++ hole OpJumpIfCatchable ++ []) [v0] es h0 n0 → n ≤ n0 →
      outside n n0 h h0 → means dbg h0 n n0 v0 r0 → emits (k (length (operand_code 0))) c Q) →
    emits (m0 0;;; emit_force sp0;;; let! throw_idx := push_jump OpJumpIfCatchable sp in k throw_idx) c Q) as Hstart.
  { intros k Hk. apply emits_bind. eapply Hm0; [done..|]. clear dependent c. intros c v0 h0 n0 Hc Hn0 Ho0 Hv0.
    apply emits_bind. eapply emits_emit_force; [done|]. clear dependent c. intros c Hc.
    apply emits_bind. eapply emits_push_jump; [done|]. clear dependent c. intros c Hc. eapply Hk; try done. }
  destruct Hop as [->|[->| ->]]; apply Hstart; clear dependent c; intros c v0 h0 n0 Hc Hn0 Ho0 Hv0.
  - eapply (emits_rhs c xs sc (operand_code 0) [] es h0 n0 v0 m1 r1 sp sp1 false);
      [exact Hc|exact Hg|exact Hl|exact Hm1|cbn; lia|].
    intros. eapply Hend; [eassumption|exact Hn0|eassumption..].
  - eapply (emits_rhs c xs sc (operand_code 0) [] es h0 n0 v0 m1 r1 sp sp1 true);
      [exact Hc|exact Hg|exact Hl|exact Hm1|cbn; lia|].
    intros. eapply Hend; [eassumption|exact Hn0|eassumption..].
  - apply emits_bind. eapply emits_push_op; [exact Hc|]. clear dependent c. intros c Hc.
    rewrite <- !app_assoc in Hc.
    eapply (emits_rhs c xs sc (operand_code 0) [op_byte OpInvert] es h0 n0 v0 m1 r1 sp sp1 true);
      [exact Hc|exact Hg|exact Hl|exact Hm1|cbn; lia|].
    intros. eapply Hend; [eassumption|exact Hn0|eassumption..].
Qed.

(** Conditions: [k] compiles the rest of the second arm, which is the code
    [rest]. *)
Definition rest_compiled {A} (k : nat → M A) (rest : bytes) (r : R Value) : Prop :=
  ∀ c xs sc es bs v0 v1 h n Q, sees c xs sc bs [v0; v1] es h n → good xs sc → locals sc ≠ [] →
    (∀ c' a cs h' n', sees c' xs sc (bs ++ rest) ([v0; v1] ++ cs) es h' n' → n ≤ n' → outside n n' h h' →
       (∀ l sp fs s ws nx, Chunk.constants (chunk l) = [v0; v1] ++ cs →
          run_rest dbg l sp fs s ws nx h' n n' (op_byte OpPop :: rest) r) → Q a c') →
    emits (k 0) c Q.

Lemma form_cond {A} m0 r0 m1 r1 (k : nat → M A) rest r2 sp sp0 jsp :
  one_constant m0 r0 → one_constant m1 r1 → rest_compiled k rest r2 → length rest < 40 →
  one_constant (λ slot, thunk dbg slot sp (λ s,
      m0 s;;; emit_force sp0;;;
      let! throw_idx := push_jump OpJumpIfCatchable jsp in
      let! then_idx := push_jump OpJumpIfFalse jsp in
      push_op OpPop sp;;; m1 s;;;
      let! else_idx := push_jump OpJump sp in
      patch_jump then_idx;;; push_op OpPop sp;;; k s;;;
      patch_jump else_idx;;; patch_jump throw_idx))
    (let? c := r0 in s_cond c Ok r1 r2).
Proof.
  intros Hm0 Hm1 Hk Hrest. apply one_constant_thunk. intros c xs sc es h n Q Hc Hg Hl HQ.
  pose proof (nonempty_lt _ Hl) as Hl'. pose proof (const_code_length 1 ltac:(lia)) as Hl1.
  apply emits_bind. eapply Hm0; [exact Hc|exact Hg|exact Hl'|]. clear dependent c. intros c v0 h0 n0 Hc Hn0 Ho0 Hv0.
  apply emits_bind. eapply emits_emit_force; [exact Hc|]. clear dependent c. intros c Hc.
  change (([] ++ const_code (length [])) ++ [op_byte OpForce]) with (operand_code 0) in Hc.
  apply emits_bind. eapply emits_push_jump; [exact Hc|]. clear dependent c. intros c Hc.
  apply emits_bind. eapply emits_push_jump; [exact Hc|]. clear dependent c. intros c Hc.
  apply emits_bind. eapply emits_push_op; [exact Hc|]. clear dependent c. intros c Hc.
  apply emits_bind. eapply Hm1; [exact Hc|exact Hg|exact Hl'|]. clear dependent c. intros c v1 h1 n1 Hc Hn1 Ho1 Hv1.
  apply emits_bind. eapply emits_push_jump; [exact Hc|]. clear dependent c. intros c Hc.
  apply emits_bind.
  eapply (emits_patch_jump _ _ _ _ _ _ _ _ (operand_code 0 ++ hole OpJumpIfCatchable) OpJumpIfFalse
            (op_byte OpPop :: const_code 1 ++ hole OpJump)); [exact Hc| | | |].
  { cbn [length app]. rewrite <- !app_assoc. done. }
  { done. }
  { cbn [length]. rewrite length_app. change (length (hole OpJump)) with 3. lia. }
  clear dependent c. intros c Hc.
  apply emits_bind. eapply emits_push_op; [exact Hc|]. clear dependent c. intros c Hc.
  apply emits_bind. eapply Hk; [exact Hc|exact Hg|exact Hl|]. clear dependent c.
  intros c a cs h2 n2 Hc Hn2 Ho2 Hrun.
  set (body := op_byte OpPop :: const_code 1 ++ hole OpJump) in Hc.
  apply emits_bind.
  eapply (emits_patch_jump _ _ _ _ _ _ _ _
            (operand_code 0 ++ hole OpJumpIfCatchable ++ jump_head OpJumpIfFalse (length body) ++ op_byte OpPop :: const_code 1)
            OpJump (op_byte OpPop :: rest)); [exact Hc| | | |].
  { unfold jump_code, jump_head, body. do 3 (rewrite <- ?app_assoc; cbn [app]). done. }
  { unfold hole. cbn [length app]. rewrite !length_app, !jump_head_length. cbn [length]. lia. }
  { cbn [length]. lia. }
  clear dependent c. intros c Hc.
  eapply (emits_patch_jump _ _ _ _ _ _ _ _ (operand_code 0) OpJumpIfCatchable (arms_code (op_byte OpPop :: rest)));
    [exact Hc| |done| |].
  { unfold arms_code, body, jump_code, jump_head. rewrite <- !app_assoc. cbn [app length].
    rewrite !length_app. cbn [length]. rewrite !length_le_bytes. do 3 (rewrite <- ?app_assoc; cbn [app]). done. }
  { unfold arms_code, jump_head. rewrite length_app, jump_code_length. cbn [length]. rewrite !length_app. cbn [length].
    rewrite length_le_bytes. lia. }
  clear dependent c. intros c Hc. eapply HQ; [exact Hc|lia| |].
  { eapply outside_trans; [eapply outside_sub; [| |exact Ho0]; lia|].
    eapply outside_trans; (eapply outside_sub; [| |done]; lia). }
  intros l Hcode Hconst Hsp H fs s ws nx rs sp' Ha.
  eapply (run_cond dbg l sp' fs s ws nx Hsp (op_byte OpPop :: rest) H rs h2 n n0 n1 n2 v0 v1 r0 r1 r2).
  - by apply at_start.
  - cbn [length]. lia.
  - by rewrite Hconst.
  - by rewrite Hconst.
  - eapply means_agree; [|exact Hv0].
    eapply agree_trans; [eapply outside_agree, Ho2; lia|eapply outside_agree, Ho1; lia].
  - eapply means_agree; [|exact Hv1]. eapply outside_agree, Ho2. lia.
  - by apply Hrun.
  - lia.
  - lia.
  - done.
Qed.

Lemma form_assert m0 r0 m1 r1 sp sp0 :
  one_constant m0 r0 → one_constant m1 r1 →
  one_constant (λ slot, thunk dbg slot sp (λ s, compile_assert s sp m0 sp0 m1))
    (let? c := r0 in s_cond c Ok r1 (Ok (VCatchable AssertionFailed))).
Proof.
  intros Hm0 Hm1.
  apply (form_cond m0 r0 m1 r1 (λ _, push_op OpAssertFail sp0) [op_byte OpAssertFail]); [done|done| |cbn; lia].
  intros c xs sc es bs v0 v1 h n Q Hc Hg Hl HQ. eapply emits_push_op; [exact Hc|]. intros c' Hc'.
  eapply (HQ _ _ []); [exact Hc'|done|done|]. intros. apply assert_rest_runs.
Qed.

Lemma form_if_else m0 r0 m1 r1 m2 r2 sp sp0 :
  one_constant m0 r0 → one_constant m1 r1 → one_constant m2 r2 →
  one_constant (λ slot, thunk dbg slot sp (λ s, compile_if_else s sp m0 sp0 m1 m2))
    (let? c := r0 in s_cond c Ok r1 r2).
Proof.
  intros Hm0 Hm1 Hm2. pose proof (const_code_length 2 ltac:(lia)) as Hl2.
  apply (form_cond m0 r0 m1 r1 m2 (const_code 2)); [done|done| |lia].
  intros c xs sc es bs v0 v1 h n Q Hc Hg Hl HQ. eapply Hm2; [exact Hc|exact Hg|by apply nonempty_lt|].
  intros c' v2 h' n' Hc' Hn Ho Hv. eapply (HQ _ _ [v2]); [exact Hc'|done|done|].
  intros l sp' fs s ws nx Hconst. eapply else_rest_runs; [by rewrite Hconst|exact Hv].
Qed.

(** ** The compiler *)

(** The globals mean what they say. *)
Definition globals_ok : Prop := ∀ ident v, global_value ident = Some v → globals !! ident = Some v.

Lemma global_value_scalar ident v : global_value ident = Some v → scalar v.
Proof. unfold global_value. repeat case_decide; by intros [= <-]. Qed.

Lemma compile_one_constant (site : Site) (Hglob : globals_ok) e optim :
  simple e → one_constant (compile dbg globals site optim e) (eval dbg optim e).
Proof.
  revert optim. induction e; intros optim He; unfold compile; cbn [comp eval simple] in *; try done.
  - destruct l as [f|[i|]|u]; cbn [literal_value or_panic fmap option_fmap option_map]; [..|done|].
    + apply one_constant_value; [done|]. intros. by eapply emits_emit_constant.
    + apply one_constant_value; [done|]. intros. by eapply emits_emit_constant.
    + apply one_constant_value; [done|]. intros. cbn [compile_literal]. apply emits_bind.
      eapply emits_emit_warning; [done|]. intros. by eapply emits_emit_constant.
  - destruct parts as [|[s|] []]; try done. apply one_constant_value; [done|]. intros. cbn.
    unfold compile_str_parts. cbn. apply emits_bind, emits_bind, emits_ret. eapply emits_emit_constant; [done|].
    intros. apply emits_ret. auto.
  - by apply form_unary, IHe.
  - apply andb_prop_elim in He as [[[Hop Hdead]%andb_prop_elim He1]%andb_prop_elim He2].
    apply negb_prop_elim in Hdead.
    assert (one_constant (λ slot, thunk dbg slot sp (λ s, compile_binop s sp op (compile dbg globals site true e1) (span_of e1)
              (compile dbg globals site true e2) (span_of e2))) (s_binary dbg op (eval dbg true e1) (eval dbg true e2))) as Hkeep.
    { destruct (eager op) eqn:Eop; [apply form_eager; [by rewrite Eop|auto..]|].
      apply form_lazy; [destruct op; auto; done|auto..]. }
    destruct optim; [|exact Hkeep].
    intros c xs sc bs cs es h n slot Q Hc Hg Hs HQ. apply emits_bind.
    eapply emits_optimise; [done|done|by destruct (dead_operand _ _ _)|]. clear c Hc. intros c Hc.
    destruct (choose _ _ _); [by eapply Hkeep|by eapply IHe1|by eapply IHe2].
  - apply andb_prop_elim in He as [??]. apply form_assert; [by apply (IHe1 true)|by apply (IHe2 true)].
  - apply andb_prop_elim in He as [[??]%andb_prop_elim ?].
    apply form_if_else; [by apply (IHe1 true)|by apply (IHe2 true)|by apply (IHe3 true)].
  - destruct (global_value ident) as [v|] eqn:Ev; [|done]. apply one_constant_value; [by eapply global_value_scalar|].
    intros. by eapply emits_global; [done|done|apply Hglob|].
  - by apply (IHe true).
Qed.

End EvalCompile.
