(* ===== verification/EvalCorrect.v ===== *)
(** * The evaluator on scalar expressions

    Compiling and running an expression gives what the reference semantics
    says, errors and panics included, and always ends. *)

From stdpp Require Import strings gmap relations.
From Stdlib Require Import SpecFloat.
From S2P Require Import Prelude Crates BTreeMap NixString NixAttrs Bytecode Scope Value Compiler Generators Vm EvalSpec.
From S2P Require Import VmSteps EvalCode Bindings Compile EvalCompile.
Import Opcode.
#[local] Open Scope nat_scope.

(** Fuel beyond what is needed changes nothing. *)
Lemma run_more `{!Vu128, !EvalEnv} dbg fuel fuel' vm r :
  run dbg fuel vm = Some r → fuel ≤ fuel' → run dbg fuel' vm = Some r.
Proof.
  revert fuel' vm. induction fuel as [|fuel IH]; intros [|fuel'] vm Hr Hf; try done; try lia.
  cbn in *. destruct (step dbg vm) as [[v|vm']| |]; try done. apply IH; [done|lia].
Qed.

Section EvalCorrect.
Context {varint : Vu128} {varint_laws : Vu128Laws} {env : EvalEnv}.
Context (dbg : bool) (globals : gmap bytes Value) (site : Site).

(** [compile] and [execute_bytecode] of [lib.rs], one after the other: the
    errors of the compiler, or the result of the machine if the fuel is
    enough. *)
Definition evaluate (fuel : nat) (e : Expr) : outcome (list (CompileError * Span)) (option (outcome ErrorKind Value)) :=
  match compile_toplevel dbg globals site None e Compiler_new with
  | Ok (l, c) =>
      match errors c with
      | [] =>
          match initial_vm false l (heap c) (next c) with
          | Ok vm => Ok (run dbg fuel vm)
          | Err e => Ok (Some (Err e))
          | Panic => Panic
          end
      | es => Err es
      end
  | Err e => match e with end
  | Panic => Panic
  end.

Lemma compile_toplevel_simple e :
  globals_ok globals → simple e →
  ∃ l c v, compile_toplevel dbg globals site None e Compiler_new = Ok (l, c) ∧ errors c = [] ∧
    Chunk.code (chunk l) = operand_code 0 ++ [op_byte OpReturn] ∧ Chunk.constants (chunk l) = [v] ∧
    Chunk.spans (chunk l) ≠ [] ∧ means dbg (heap c) 0 (next c) v (eval dbg true e).
Proof.
  intros Hglob He.
  assert (emits (compile_toplevel dbg globals site None e) Compiler_new (λ l c, ∃ v, errors c = [] ∧
    Chunk.code (chunk l) = operand_code 0 ++ [op_byte OpReturn] ∧ Chunk.constants (chunk l) = [v] ∧
    Chunk.spans (chunk l) ≠ [] ∧ means dbg (heap c) 0 (next c) v (eval dbg true e))) as (l & c & E & v & H);
    [|by exists l, c, v].
  assert (sees Compiler_new [] Scope_default [] [] [] ∅ 0) as Hc by (by exists LambdaCtx_new).
  unfold compile_toplevel. generalize dependent Compiler_new. intros c Hc. cbn [from_option].
  apply emits_bind, emits_ret, emits_bind. eapply emits_on_scope; [exact Hc|reflexivity|]. clear c Hc. intros c Hc.
  apply emits_bind. eapply (compile_one_constant dbg globals site Hglob e true He); [exact Hc| |cbn; lia|].
  { split_and!; [constructor|done|done]. }
  clear c Hc. intros c v h n Hc _ _ Hv.
  apply emits_bind. eapply emits_emit_force; [exact Hc|]. clear c Hc. intros c Hc.
  apply emits_bind, emits_ret, emits_bind. eapply emits_push_op; [exact Hc|]. clear c Hc. intros c Hc.
  destruct Hc as (x & Hx & _ & _ & _ & Hbs & Hcs & Hsp & _ & Herr & <- & <-).
  apply emits_bind. exists x, (set_contexts [] c). split.
  { unfold pop_context. by rewrite Hx. }
  apply emits_ret. exists v. split_and!; [done|done|done| |done]. by apply Hsp.
Qed.

(** Compiling and running gives what [eval] says, which follows the optimiser. *)
Lemma evaluate_eval (e : Expr) :
  globals_ok globals → simple e →
  ∃ fuel, ∀ fuel', fuel ≤ fuel' → evaluate fuel' e = Ok (Some (eval dbg true e)).
Proof.
  intros Hglob He. destruct (compile_toplevel_simple e Hglob He) as (l & c & v & E & Herr & Hcode & Hconst & Hsp & Hv).
  destruct (get_span_ok l Hsp (E := ErrorKind) (length (Chunk.code (chunk l)) - 1)) as [sp Hspan].
  set (vm0 := mkVM [FCall (mkCallFrame l no_upvalues 0 0) sp] [] [] (heap c) (next c) sp).
  assert (∃ fuel, run dbg fuel vm0 = Some (eval dbg true e)) as [fuel Hrun].
  { destruct (run_operand dbg l no_upvalues 0 sp [] [] (next c) Hsp 0 [] (heap c) sp 0 v [op_byte OpReturn]
                (heap c) 0 (next c) (eval dbg true e)) as [E1 Hl]; [lia|by apply at_start|by rewrite Hconst|done|done|].
    destruct (eval dbg true e) as [w|er|]; [|by apply run_fails..].
    destruct Hl as (vm' & Hs & Hw & H' & rs & -> & Ho). eapply (run_steps dbg vm0 (mkVM [] [w] [] H' (next c) sp) 1); [|done].
    etrans; [exact Hs|]. by eapply (run_return dbg l no_upvalues 0 sp [] [] (next c)). }
  exists fuel. intros fuel' Hf. unfold evaluate. rewrite E, Herr. unfold initial_vm. rewrite Hspan. cbn [obind].
  f_equal. by eapply run_more.
Qed.

(** C5: the compiler and the virtual machine agree with the reference semantics
    [eval_ref]: an expression of literals, global constants, unary and binary
    operators (other than on lists and sets), [assert], [if] and parentheses,
    without an operand that the compiler takes for dead code ([true || e],
    [false && e] with [e] not a constant), compiles, and the machine
    always ends, in both build profiles. If the reference semantics gives the
    expression a value that is not a failure, that is the result. If no
    operand of [&&] or [||] is a boolean constant, the result is that of the
    reference semantics in every case: a value, a catchable failure, an error
    or a panic. With such an operand the optimiser may drop the check of the
    other one, which changes failures and errors only. *)
Theorem evaluate_correct (e : Expr) :
  globals_ok globals → simple e →
  ∃ result, (∃ fuel, ∀ fuel', fuel ≤ fuel' → evaluate fuel' e = Ok (Some result)) ∧
    (∀ v, eval_ref dbg e = Ok v → catchable v = false → result = Ok v) ∧
    (no_choice e → result = eval_ref dbg e).
Proof.
  intros Hglob He. exists (eval dbg true e). split; [by apply evaluate_eval|]. split.
  - intros v. apply optimiser_keeps_values.
  - apply no_choice_eval.
Qed.

End EvalCorrect.

(** ** What the optimiser changes *)

(** The compiler panics on dead code with jumps: [true || (if ...)] puts the
    right operand into dead code, where no instructions are emitted, but jump
    offsets are patched all the same. *)
Theorem dead_code_panics `{!Vu128, !EvalEnv} (dbg : bool) (globals : gmap bytes Value) (site : Site) (fuel : nat)
    (sp1 sp2 sp3 sp4 sp5 : Span) (l1 l2 : LiteralKind) (e : Expr) :
  evaluate dbg globals site fuel
    (EBinOp sp1 Or (EIdent sp2 (B "true")) (EIfElse sp3 (ELiteral sp4 l1) (ELiteral sp5 l2) e)) = Panic.
Proof. destruct dbg, l1 as [|[]|], l2 as [|[]|]; vm_compute; reflexivity. Qed.

(** ** Examples *)

Module Examples.
Import VarintModel.

(** An environment in which nothing can be imported or called. *)
#[local] Instance no_env : EvalEnv := {|
  io_import_path _ := Panic; search_path_resolve _ := Panic; home_dir := None; builtin_func _ _ := GPanic;
  native_func _ := Panic; canon_path p := p; format_float_6 _ := []; env_regex := literal_regex |}.

Definition here : Span := mkSpan 0 1.
Definition no_site : Site := mkSite (B "/") here (λ p, p).
Definition constants_only : gmap bytes Value :=
  {[ B "true" := VBool true; B "false" := VBool false; B "null" := VNull ]}.

Definition ident (s : string) : Expr := EIdent here (B s).
Definition int (z : Z) : Expr := ELiteral here (LInteger (Some z)).

Lemma constants_only_ok : globals_ok constants_only.
Proof.
  intros i v. unfold global_value.
  repeat case_decide; intros [= <-]; subst; vm_compute; reflexivity.
Qed.

(** [if 1 < 2 && !false then 6 * 7 else 1 / 0] *)
Definition expr42 : Expr :=
  EIfElse here (EBinOp here And (EBinOp here Less (int 1) (int 2)) (EUnaryOp here Invert (ident "false")))
    (EBinOp here Mul (int 6) (int 7)) (EBinOp here Div (int 1) (int 0)).

Lemma evaluate_correct_witness :
  ∃ result, (∃ fuel, ∀ fuel', fuel ≤ fuel' → evaluate true constants_only no_site fuel' expr42 = Ok (Some result)) ∧
    (∀ v, eval_ref true expr42 = Ok v → catchable v = false → result = Ok v) ∧ (no_choice expr42 → result = eval_ref true expr42).
Proof. exact (evaluate_correct true constants_only no_site expr42 constants_only_ok I). Defined.

Example expr42_value : eval_ref true expr42 = Ok (VInteger 42) ∧ no_choice expr42 = true.
Proof. split; by vm_compute. Qed.

Lemma optimiser_keeps_values_witness :
  eval true true (EBinOp here Or (EBinOp here Less (int 1) (int 2)) (ident "true")) = Ok (VBool true).
Proof.
  exact (optimiser_keeps_values true true (EBinOp here Or (EBinOp here Less (int 1) (int 2)) (ident "true")) (VBool true)
           eq_refl eq_refl).
Defined.

(** [true && 5] is 5, where [(true) && 5] is a type error. *)
Example useless_arm_unchecked :
  evaluate true constants_only no_site 100 (EBinOp here And (ident "true") (int 5)) = Ok (Some (Ok (VInteger 5))) ∧
  evaluate true constants_only no_site 100 (EBinOp here And (EParen here (ident "true")) (int 5))
    = Ok (Some (Err (TypeError (B "bool") (B "int")))).
Proof. split; vm_compute; reflexivity. Qed.

(** In [(true: [ (true && 5) ]) 7], the inner [true] is the argument, but is
    taken for the literal. *)
Example outer_true_overlooked :
  ∃ rc, evaluate true constants_only no_site 100
    (EApply here (ELambda here (PIdent here (B "true")) (EList here [EBinOp here And (ident "true") (int 5)])) (int 7))
  = Ok (Some (Ok (VList rc [VInteger 5]))).
Proof. eexists. vm_compute. reflexivity. Qed.

(** [[ (assert false; 5) ] < [ 1 ]] is a type error and not the failure. *)
Example list_order_failure :
  evaluate true constants_only no_site 300
    (EBinOp here Less (EList here [EAssert here (ident "false") (int 5)]) (EList here [int 1]))
  = Ok (Some (Err (TypeError (B "bool") (B "internal[catchable]")))).
Proof. vm_compute. reflexivity. Qed.

(** *** Bindings *)

Definition key (s : string) : Attr Expr := AIdent here (B s).
Definition bind (path : list (Attr Expr)) (e : Expr) : AttrpathValue Expr := mkEntry here path e.
Definition select_ (e : Expr) (path : list (Attr Expr)) : Expr := ESelect here e here path None.
Definition plus (e1 e2 : Expr) : Expr := EBinOp here Add e1 e2.

(** [let a = b + 1; b = 41; in a] *)
Example let_forward :
  evaluate true constants_only no_site 300
    (ELetIn here [] [bind [key "a"] (plus (ident "b") (int 1)); bind [key "b"] (int 41)] (ident "a"))
  = Ok (Some (Ok (VInteger 42))).
Proof. vm_compute. reflexivity. Qed.

(** [let f = n: if n == 0 then 0 else n + f (n - 1); in f 4] *)
Example let_recursion :
  evaluate true constants_only no_site 2000
    (ELetIn here [] [bind [key "f"] (ELambda here (PIdent here (B "n"))
       (EIfElse here (EBinOp here Equal (ident "n") (int 0)) (int 0)
          (plus (ident "n") (EApply here (ident "f") (EBinOp here Sub (ident "n") (int 1))))))]
       (EApply here (ident "f") (int 4)))
  = Ok (Some (Ok (VInteger 10))).
Proof. vm_compute. reflexivity. Qed.

(** [let s = { a.b = 40; a.c = 2; }; in s.a.b + s.a.c], and the same with one of them in a literal *)
Definition nested_sum (entries : list (AttrpathValue Expr)) : Expr :=
  ELetIn here [] [bind [key "s"] (EAttrSet here false [] entries)]
    (plus (select_ (ident "s") [key "a"; key "b"]) (select_ (ident "s") [key "a"; key "c"])).

Example nested_keys :
  evaluate true constants_only no_site 1000
    (nested_sum [bind [key "a"; key "b"] (int 40); bind [key "a"; key "c"] (int 2)]) = Ok (Some (Ok (VInteger 42))) ∧
  evaluate true constants_only no_site 1000
    (nested_sum [bind [key "a"] (EAttrSet here false [] [bind [key "b"] (int 40)]); bind [key "a"; key "c"] (int 2)])
  = Ok (Some (Ok (VInteger 42))).
Proof. split; vm_compute; reflexivity. Qed.

(** [(rec { x = y; y = 42; }).x] and [let { body = x; x = 42; }] *)
Example recursive_sets :
  evaluate true constants_only no_site 1000
    (select_ (EParen here (EAttrSet here true [] [bind [key "x"] (ident "y"); bind [key "y"] (int 42)])) [key "x"])
  = Ok (Some (Ok (VInteger 42))) ∧
  evaluate true constants_only no_site 1000
    (ELegacyLet here [] [bind [key "body"] (ident "x"); bind [key "x"] (int 42)]) = Ok (Some (Ok (VInteger 42))).
Proof. split; vm_compute; reflexivity. Qed.

(** [let x = 40; s = { inherit x; inherit ({ y = 2; }) y; }; in s.x + s.y] *)
Example inherits_ :
  evaluate true constants_only no_site 1000
    (ELetIn here [] [bind [key "x"] (int 40);
       bind [key "s"] (EAttrSet here false
         [mkInherit here None [key "x"]; mkInherit here (Some (EAttrSet here false [] [bind [key "y"] (int 2)])) [key "y"]] [])]
       (plus (select_ (ident "s") [key "x"]) (select_ (ident "s") [key "y"])))
  = Ok (Some (Ok (VInteger 42))).
Proof. vm_compute. reflexivity. Qed.

(** [({ x, y ? x + 1, ... }: x + y) { x = 20; z = 0; }], and a missing or unexpected argument *)
Definition pattern_fun (ellipsis : bool) (arg : list (AttrpathValue Expr)) : Expr :=
  EApply here (ELambda here (PPattern here None
      [mkPatEntry here (B "x") None; mkPatEntry here (B "y") (Some (plus (ident "x") (int 1)))] ellipsis)
    (plus (ident "x") (ident "y"))) (EAttrSet here false [] arg).

Example patterns :
  evaluate true constants_only no_site 1000 (pattern_fun true [bind [key "x"] (int 20); bind [key "z"] (int 0)])
    = Ok (Some (Ok (VInteger 41))) ∧
  evaluate true constants_only no_site 1000 (pattern_fun false [bind [key "x"] (int 20); bind [key "y"] (int 22)])
    = Ok (Some (Ok (VInteger 42))) ∧
  evaluate true constants_only no_site 1000 (pattern_fun false [bind [key "x"] (int 20); bind [key "z"] (int 0)])
    = Ok (Some (Err (UnexpectedArgumentFormals (plain_string (B "z")) here))).
Proof. split_and!; vm_compute; reflexivity. Qed.

(** [{ a = 1; a.b = 2; }] is refused; [let x = 1; x = 2; in x] too. *)
Example refused_bindings :
  evaluate true constants_only no_site 1000
    (EAttrSet here false [] [bind [key "a"] (int 1); bind [key "a"; key "b"] (int 2)]) = Err [(UnmergeableValue, here)] ∧
  evaluate true constants_only no_site 1000
    (ELetIn here [] [bind [key "x"] (int 1); bind [key "x"] (int 2)] (ident "x")) = Err [(VariableAlreadyDefined (Some here), here)].
Proof. split; vm_compute; reflexivity. Qed.

(** [y + x] in an environment of two variables, as of the REPL. *)
Example environment :
  match compile_toplevel true constants_only no_site (Some [(B "x", VInteger 40); (B "y", VInteger 2)])
          (EBinOp here Add (ident "y") (ident "x")) Compiler_new with
  | Ok (l, c) => errors c = [] ∧
      match initial_vm false l (heap c) (next c) with
      | Ok vm => run true 100 vm = Some (Ok (VInteger 42))
      | _ => False
      end
  | _ => False
  end.
Proof. vm_compute. split; reflexivity. Qed.

End Examples.
