(* ===== verification/EvalForce.v ===== *)
(** * Deep forcing

    [Value::deep_force] on a heap whose thunks are evaluated, which may be
    cyclic: it visits every thunk once and comes to an end. *)

From stdpp Require Import strings gmap relations.
From S2P Require Import Prelude Crates BTreeMap NixString NixAttrs Bytecode Value Generators Vm EvalSpec VmSteps.
#[local] Open Scope nat_scope.

(** Values without internal ones, whose thunks are evaluated. *)
Fixpoint ready (H : Heap) (v : Value) : bool :=
  match v with
  | VThunk t => match H !! t with Some r => repr_is_forced r | None => false end
  | VList _ l => forallb (ready H) l
  | VAttrs _ (Map m) => forallb (λ kv, ready H kv.2) m
  | VAttrs _ (KV n v) => ready H n && ready H v
  | VAttrNotFound | VBlueprint _ | VDeferredUpvalue _ | VUnresolvedPath _ | VFinaliseRequest _ => false
  | _ => true
  end.

Definition heap_ready (H : Heap) : Prop := ∀ t w, H !! t = Some (Evaluated w) → ready H w.

(** The number of nodes of a value, thunks not entered. *)
Fixpoint vsize (v : Value) : nat :=
  match v with
  | VList _ l => S (sum_list_with vsize l)
  | VAttrs _ (Map m) => S (sum_list_with (λ kv, vsize kv.2) m)
  | VAttrs _ (KV n v) => S (vsize n + vsize v)
  | _ => 1
  end.

Definition vsizes (vs : list Value) : nat := sum_list_with vsize vs.

Lemma vsizes_app vs ws : vsizes (vs ++ ws) = vsizes vs + vsizes ws.
Proof. unfold vsizes. apply sum_list_with_app. Qed.

Lemma vsizes_attrs rc a : vsizes (iter a).*2 < vsize (VAttrs rc a).
Proof.
  destruct a as [|m|n v]; cbn; [lia| |unfold vsizes; cbn; lia].
  unfold vsizes. induction m as [|kv m IH]; cbn; lia.
Qed.

Lemma ready_attrs H rc a : ready H (VAttrs rc a) → Forall (λ v, Is_true (ready H v)) (iter a).*2.
Proof.
  destruct a as [|m|n v]; cbn; [constructor| |].
  - intros Hm. apply Forall_fmap, Forall_forall. intros kv Hkv.
    apply Is_true_true in Hm. rewrite forallb_forall in Hm. apply Is_true_true. apply (Hm kv). by apply list_elem_of_In.
  - intros [??]%andb_prop_elim. by repeat constructor.
Qed.

Section EvalForce.
Context {varint : Vu128} {varint_laws : Vu128Laws} {env : EvalEnv}.
Context (dbg : bool).

(** Forcing an evaluated thunk. *)
Lemma run_force_ready t w H sp sp' k fs s ws nx rs :
  H !! t = Some (Evaluated w) → repr_is_forced (Evaluated w) = true →
  steps dbg (mkVM (FResumed sp (GAwait (LForce t [] sp') k) :: fs) s ws H nx rs)
            (mkVM (FResumed sp (k (LValue w)) :: fs) s ws H nx rs).
Proof.
  intros Ht Hf. eapply rtc_l; [reflexivity|]. unfold loop_body, force_body. vm_cbn.
  eapply rtc_l; [reflexivity|]. vm_cbn. rewrite Ht, Hf. constructor.
Qed.

(** What deep forcing answers: nothing, or the failure it found. *)
Definition deep_answer (r : LoopResult) : Prop := r = LUnchanged ∨ ∃ c, r = LValue (VCatchable c).

Definition deep_runs (H : Heap) (vals : list Value) (set : gset Addr) : Prop :=
  ∀ sp sp' k fs s ws nx rs, ∃ r, deep_answer r ∧
    steps dbg (mkVM (FResumed sp (GAwait (LDeepForce vals set sp') k) :: fs) s ws H nx rs)
              (mkVM (FResumed sp (k r) :: fs) s ws H nx rs).

(** The values that are left after a turn on a forced value. *)
Definition deep_children (v : Value) : list Value :=
  match v with
  | VList _ l => l
  | VAttrs _ a => (iter a).*2
  | _ => []
  end.

Lemma deep_children_size v : vsizes (deep_children v) < vsize v.
Proof. destruct v; try (cbn; lia). apply vsizes_attrs. Qed.

Lemma deep_children_ready H v : ready H v → Forall (λ v, Is_true (ready H v)) (deep_children v).
Proof.
  destruct v; try (by constructor).
  - apply ready_attrs.
  - cbn. intros Hl. apply Forall_forall. intros x Hx. apply Is_true_true in Hl. rewrite forallb_forall in Hl.
    apply Is_true_true. apply (Hl x). by apply list_elem_of_In.
Qed.

(** One turn on a value that is no thunk. *)
Lemma deep_body_value H v vals set sp :
  ready H v → (∀ t, v ≠ VThunk t) →
  deep_force_body (v :: vals) set sp =
    if catchable v then GValue v else gloop (LDeepForce (deep_children v ++ vals) set sp).
Proof. intros Hr Ht. destruct v; try done. by destruct (Ht t). Qed.

(** The turn after the value is known, given the runs on what it leaves. *)
Lemma deep_runs_value H v vals set sp sp' k fs s ws nx rs :
  ready H v → (∀ t, v ≠ VThunk t) → deep_runs H (deep_children v ++ vals) set →
  ∃ r, deep_answer r ∧
    steps dbg (mkVM (FResumed sp (gbind (deep_force_body (v :: vals) set sp') k) :: fs) s ws H nx rs)
              (mkVM (FResumed sp (k r) :: fs) s ws H nx rs).
Proof.
  intros Hr Ht Hrest. rewrite (deep_body_value H) by done. destruct (catchable v) eqn:Ec.
  - exists (LValue v). split; [right; destruct v; try done; by eexists|constructor].
  - apply Hrest.
Qed.

Lemma deep_runs_all H vals set :
  heap_ready H → Forall (λ v, Is_true (ready H v)) vals → deep_runs H vals set.
Proof.
  intros HH. remember (size (dom H ∖ set)) as n eqn:En. revert set En vals.
  induction (lt_wf n) as [n _ IHn]. intros set -> vals.
  remember (vsizes vals) as m eqn:Em. revert vals Em.
  induction (lt_wf m) as [m _ IHm]. intros vals -> Hvals sp sp' k fs s ws nx rs.
  destruct vals as [|v vals].
  { exists LUnchanged. split; [by left|]. by eapply rtc_l. }
  apply Forall_cons in Hvals as [Hv Hvals].
  assert (∀ w, Is_true (ready H w) → Forall (λ v, Is_true (ready H v)) (deep_children w ++ vals)) as Hch.
  { intros w Hw. apply Forall_app. split; [by apply deep_children_ready|done]. }
  assert ((∃ t, v = VThunk t) ∨ ∀ t, v ≠ VThunk t) as [[t ->]|Hnt] by (destruct v; naive_solver).
  - cbn in Hv. destruct (H !! t) as [rp|] eqn:Ht; [|done].
    assert (∃ w, rp = Evaluated w ∧ ∀ t, w ≠ VThunk t) as (w & -> & Hw) by (destruct rp as [| | |[]]; naive_solver).
    destruct (decide (t ∈ set)) as [Hin|Hin].
    + destruct (IHm (vsizes vals)) with (vals := vals) (sp := sp) (sp' := sp') (k := k) (fs := fs) (s := s)
        (ws := ws) (nx := nx) (rs := rs) as (r & Hr & Hs); [unfold vsizes; cbn; lia|done|done|].
      exists r. split; [done|]. eapply rtc_l; [|exact Hs]. unfold next_vm. cbn.
      by rewrite bool_decide_eq_true_2.
    + assert (deep_runs H (deep_children w ++ vals) ({[t]} ∪ set)) as Hrest.
      { eapply IHn; [|done|by apply Hch, (HH t)]. apply subset_size.
        apply elem_of_dom_2 in Ht. set_solver. }
      destruct (deep_runs_value H w vals ({[t]} ∪ set) sp sp' k fs s ws nx rs (HH t w Ht) Hw Hrest) as (r & Hr & Hs).
      exists r. split; [done|]. eapply rtc_l; [|etrans; [|exact Hs]].
      * unfold next_vm. cbn. by rewrite bool_decide_eq_false_2.
      * cbn. etrans; [apply (run_force_ready t w); [done|by apply Is_true_true]|]. by destruct w.
  - destruct (deep_runs_value H v vals set sp sp' k fs s ws nx rs Hv Hnt) as (r & Hr & Hs).
    { intros sp1 sp1' k1 fs1 s1 ws1 nx1 rs1. eapply IHm; [|done|by apply Hch].
      rewrite vsizes_app. cbn. pose proof (deep_children_size v). unfold vsizes in *. lia. }
    exists r. split; [done|]. by eapply rtc_l.
Qed.

(** C35: deep forcing comes to an end on every heap whose thunks are evaluated,
    cyclic ones included, in every state of the machine around it: it answers
    the value it was given or a failure found in it, and changes neither the
    stack nor the heap. *)
Theorem deep_force_terminates (H : Heap) (v : Value) (sp sp' : Span) (fs : list Frame) (s : list Value)
    (ws : list nat) (nx : Addr) (rs : Span) :
  heap_ready H → ready H v →
  ∃ w, (w = v ∨ ∃ c, w = VCatchable c) ∧
    steps dbg (mkVM (FResumed sp (deep_force v sp') :: fs) s ws H nx rs) (mkVM fs (w :: s) ws H nx rs).
Proof.
  intros HH Hv. unfold deep_force.
  destruct (deep_runs_all H [v] ∅ HH ltac:(by constructor) sp sp'
              (λ r, match r with LUnchanged => GValue v | r => GDone r end) fs s ws nx rs) as (r & [->|[c ->]] & Hs).
  - exists v. split; [by left|]. etrans; [exact Hs|]. by apply rtc_once.
  - exists (VCatchable c). split; [right; by eexists|]. etrans; [exact Hs|]. by apply rtc_once.
Qed.

End EvalForce.

(** A list that contains itself. *)
Module Examples.
Import VarintModel.

#[local] Instance no_env : EvalEnv := {|
  io_import_path _ := Panic; search_path_resolve _ := Panic; home_dir := None; builtin_func _ _ := GPanic;
  native_func _ := Panic; canon_path p := p; format_float_6 _ := []; env_regex := literal_regex |}.

Definition cyclic : Heap := {[ 0 := Evaluated (VList 1 [VInteger 7; VThunk 0]) ]}.

Lemma cyclic_ready : heap_ready cyclic.
Proof.
  intros t w Ht. destruct (decide (t = 0)) as [->|Hne]; [vm_compute in Ht; by injection Ht as <-|].
  assert (cyclic !! t = None) as E by (apply (lookup_singleton_ne (M := gmap nat)); lia). congruence.
Qed.

Lemma deep_force_terminates_witness :
  ∃ w, (w = VThunk 0 ∨ ∃ c, w = VCatchable c) ∧
    steps true (mkVM [FResumed (mkSpan 0 1) (deep_force (VThunk 0) (mkSpan 0 1))] [] [] cyclic 2 (mkSpan 0 1))
      (mkVM [] [w] [] cyclic 2 (mkSpan 0 1)).
Proof. exact (deep_force_terminates true cyclic (VThunk 0) _ _ [] [] [] 2 _ cyclic_ready I). Defined.

End Examples.
