(* ===== verification/EvalLists.v ===== *)
(** * Ordering lists

    The loop of [Value::nix_cmp_ordering_] on lists of scalars, which works on
    a stack of pairs, against the lexicographic order. *)

From stdpp Require Import strings gmap relations.
From S2P Require Import Prelude Crates BTreeMap NixString NixAttrs Bytecode Value Generators Vm EvalSpec VmSteps.
#[local] Open Scope nat_scope.

Abbreviation R := (outcome ErrorKind).

(** Elements that are equal are skipped; the first others decide, unless they
    compare as equal all the same, as a NaN does with itself. *)
Fixpoint lex_cmp (l1 l2 : list Value) : R comparison :=
  match l1, l2 with
  | [], [] => Ok Eq
  | _ :: _, [] => Ok Gt
  | [], _ :: _ => Ok Lt
  | x :: l1, y :: l2 =>
      if s_eq x y then lex_cmp l1 l2
      else let? c := s_cmp x y in
           match c with Eq => lex_cmp l1 l2 | c => Ok c end
  end.

(** Scalars that are no failures. *)
Definition plain (v : Value) : Prop := scalar v ∧ catchable v = false.

Section EvalLists.
Context {varint : Vu128} {varint_laws : Vu128Laws} {env : EvalEnv}.
Context (dbg : bool).
Context (fs : list Frame) (s : list Value) (ws : list nat) (nx : Addr) (H : Heap) (rs sp : Span).

#[local] Abbreviation gen g := (mkVM (FResumed sp g :: fs) s ws H nx rs).

(** Equality of two plain values, awaited. *)
Lemma run_eq_plain a b p sp' k :
  plain a → plain b → steps dbg (gen (GAwait (LEq [(a, b, p)] sp') k)) (gen (k (LValue (VBool (s_eq a b))))).
Proof.
  intros [Ha Hca] [Hb Hcb]. eapply rtc_l; [reflexivity|]. unfold loop_body, eq_body.
  assert (∀ r : bool, steps dbg (gen (gbind (if r then gloop (LEq [] sp') else GValue (VBool false)) k))
            (gen (k (LValue (VBool r))))) as Hr.
  { intros []; vm_cbn; [by eapply rtc_l|constructor]. }
  destruct a; try done; destruct b; try done;
    match goal with |- context [LValue (VBool (s_eq ?x ?y))] => exact (Hr (s_eq x y)) end.
Qed.

(** The order of two plain values decides, or leaves the rest of the pairs. *)
Lemma run_cmp_forced a b vals sp' k r :
  plain a → plain b →
  lands dbg (gen (GAwait (LCmp vals sp') k)) r (λ c vm, vm = gen (k (LOrdering (inr c)))) →
  lands dbg (gen (gbind (cmp_forced a b vals sp') k))
    (let? c := s_cmp a b in match c with Eq => r | c => Ok c end) (λ c vm, vm = gen (k (LOrdering (inr c)))).
Proof.
  intros [Ha Hca] [Hb Hcb] Hr. unfold cmp_forced.
  assert (∀ c, lands dbg (gen (gbind (match c with Eq => gloop (LCmp vals sp') | c => GDone (LOrdering (inr c)) end) k))
            (match c with Eq => r | c => Ok c end) (λ c vm, vm = gen (k (LOrdering (inr c))))) as Hc.
  { intros []; vm_cbn; [exact Hr|by apply lands_ok..]. }
  destruct a; try done; destruct b; try done; cbn [s_cmp obind];
    first [by apply fails_err | match goal with |- lands _ _ (match ?c with _ => _ end) _ => exact (Hc c) end].
Qed.

Lemma plain_no_thunk a sp' k : plain a → force a sp' k = k a.
Proof. by intros [Ha _]; destruct a. Qed.

Lemma run_list_pairs l1 l2 sp' k :
  Forall plain l1 → Forall plain l2 →
  lands dbg (gen (GAwait (LCmp (list_pairs l1 l2) sp') k)) (lex_cmp l1 l2) (λ c vm, vm = gen (k (LOrdering (inr c)))).
Proof.
  intros Hl1. revert l2. induction Hl1 as [|x l1 Hx Hl1 IH]; intros l2 Hl2.
  - destruct l2 as [|y l2]; (eapply lands_step; [reflexivity|]); by apply lands_ok.
  - destruct Hl2 as [|y l2 Hy Hl2]; [eapply lands_step; [reflexivity|]; by apply lands_ok|].
    cbn [list_pairs lex_cmp]. eapply lands_step; [reflexivity|]. vm_cbn. unfold loop_body, cmp_body. vm_cbn.
    eapply lands_steps; [by apply run_eq_plain|]. cbn [gtry gbind]. eapply lands_step; [reflexivity|]. vm_cbn.
    rewrite scalar_as_bool by done. cbn [s_as_bool]. destruct (s_eq x y); [by apply IH|].
    rewrite !plain_no_thunk by done. apply run_cmp_forced; [done|done|by apply IH].
Qed.

End EvalLists.

Section Compare.
Context {varint : Vu128} {varint_laws : Vu128Laws} {env : EvalEnv}.

(** The order of lists of scalars is lexicographic: the comparison ends, in
    every state of the machine around it, with the answer of the operator on
    the lexicographic order, or with the error of the first pair that cannot be
    compared. *)
Theorem list_order_lexicographic (dbg : bool) (op : CmpOp) (rc1 rc2 : Addr) (l1 l2 : list Value)
    (fs : list Frame) (s : list Value) (ws : list nat) (nx : Addr) (H : Heap) (rs sp : Span) :
  Forall plain l1 → Forall plain l2 →
  lands dbg (mkVM (FResumed sp (compare op (VList rc1 l1) (VList rc2 l2)) :: fs) s ws H nx rs)
    (lex_cmp l1 l2) (λ c vm, vm = mkVM fs (VBool (cmp_result op c) :: s) ws H nx rs).
Proof.
  intros Hl1 Hl2. unfold compare. cbn [request_force].
  eapply lands_step; [reflexivity|]. vm_cbn. eapply lands_step; [reflexivity|]. vm_cbn.
  unfold loop_body, cmp_body, cmp_forced. rewrite app_nil_r.
  eapply lands_then; [by apply run_list_pairs|]. intros c vm ->. cbn.
  eexists. split; [by apply rtc_once|done].
Qed.

End Compare.

Module Examples.
Import VarintModel.

#[local] Instance no_env : EvalEnv := {|
  io_import_path _ := Panic; search_path_resolve _ := Panic; home_dir := None; builtin_func _ _ := GPanic;
  native_func _ := Panic; canon_path p := p; format_float_6 _ := []; env_regex := literal_regex |}.

Lemma list_order_lexicographic_witness :
  lands true (mkVM [FResumed (mkSpan 0 1) (compare CLess (VList 0 [VInteger 1; VInteger 2])
                                             (VList 1 [VInteger 1; VInteger 2; VNull]))] [] [] ∅ 2 (mkSpan 0 1))
    (Ok Lt) (λ c vm, vm = mkVM [] [VBool (cmp_result CLess c)] [] ∅ 2 (mkSpan 0 1)).
Proof.
  apply (list_order_lexicographic true CLess 0 1 [VInteger 1; VInteger 2] [VInteger 1; VInteger 2; VNull]);
    repeat constructor.
Defined.

End Examples.
