(* ===== verification/Versions.v ===== *)
(** * [eval/src/builtins/versions.rs]: version strings

    Splitting a version into parts and comparing versions, as
    [builtins.splitVersion] and [builtins.compareVersions] use them. The
    decoding of a byte string into characters (crate [bstr]) is a parameter. *)

From stdpp Require Import strings.
From S2P Require Import Prelude.
#[local] Open Scope nat_scope.

Definition REPLACEMENT : Z := 0xFFFD.

(** [char::len_utf8] *)
Definition len_utf8 (c : Z) : nat :=
  if (c <? 0x80)%Z then 1 else if (c <? 0x800)%Z then 2 else if (c <? 0x10000)%Z then 3 else 4.

(** [ByteSlice::char_indices]: start, end and character; bytes that are not
    UTF-8 give a replacement character for the bytes skipped. *)
Class BstrChars := char_indices : bytes → list (nat * nat * Z).

(** Items that cover the string from [i] on, each with its character. *)
Fixpoint covers (v : bytes) (i : nat) (items : list (nat * nat * Z)) : Prop :=
  match items with
  | [] => i = length v
  | (s, e, c) :: items =>
      s = i ∧ s < e ∧ e ≤ length v ∧
      (∀ b, v !! s = Some b → (b2z b < 0x80)%Z → e = S s ∧ c = b2z b) ∧
      (v !! s = Some Byte.xff → e = S s ∧ c = REPLACEMENT) ∧
      covers v e items
  end.

Class BstrCharsLaws `{BstrChars} : Prop := char_indices_covers v : covers v 0 (char_indices v).

(** ** Parts *)

Inductive VersionPart := Word (s : bytes) | Number (s : bytes).

(** [InternalPart]; ranges are inclusive. *)
Inductive InternalPart := INumber (lo hi : nat) | IWord (lo hi : nat) | Break.

Abbreviation items := (list (nat * nat * Z)).

(** [VersionPartsIter] *)
Record VersionPartsIter := mkIter { cached_part : InternalPart; iter : items; version : bytes }.

(** [VersionPartsIter::new] *)
Definition new `{BstrChars} (v : bytes) : VersionPartsIter := mkIter Break (char_indices v) v.

(** [&version[lo..=hi]] *)
Definition slice {E : Type} (v : bytes) (lo hi : nat) : outcome E bytes :=
  if (lo <=? S hi) && (S hi <=? length v) then Ok (take (S hi - lo) (drop lo v)) else Panic.

Definition is_ascii_digit (c : Z) : bool := (0x30 <=? c)%Z && (c <=? 0x39)%Z.
Definition is_divider (c : Z) : bool := (c =? 0x2e)%Z || (c =? 0x2d)%Z.

(** A part that is complete: the item [next] answers. *)
Definition yield_part {E : Type} (v : bytes) (p : InternalPart) : outcome E (option VersionPart) :=
  match p with
  | Break => Ok None
  | INumber lo hi => let? s := slice v lo hi in Ok (Some (Number s))
  | IWord lo hi => let? s := slice v lo hi in Ok (Some (Word s))
  end.

(** [Iterator::next] for [VersionPartsIter]: the item, and the state after it. *)
Fixpoint next_from {E : Type} (v : bytes) (cached : InternalPart) (it : items)
    : outcome E (option VersionPart) * (InternalPart * items) :=
  match it with
  | [] => (yield_part v cached, (Break, []))
  | (start, end_, c) :: it =>
      if is_divider c then
        match cached with
        | Break => next_from v Break it
        | _ => (yield_part v cached, (Break, it))
        end
      else if is_ascii_digit c then
        match cached with
        | INumber lo hi => next_from v (INumber lo (hi + 1)) it
        | IWord _ _ => (yield_part v cached, (INumber start (end_ - 1), it))
        | Break => next_from v (INumber start (end_ - 1)) it
        end
      else
        match cached with
        | IWord lo hi => next_from v (IWord lo (hi + len_utf8 c)) it
        | INumber _ _ => (yield_part v cached, (IWord start (end_ - 1), it))
        | Break => next_from v (IWord start (end_ - 1)) it
        end
  end.

Definition next {E : Type} (self : VersionPartsIter) : outcome E (option VersionPart) * VersionPartsIter :=
  match next_from (version self) (cached_part self) (iter self) with
  | (o, (p, it)) => (o, mkIter p it (version self))
  end.

(** Collecting the parts; [None] when the fuel ends first. *)
Fixpoint collect {E : Type} (fuel : nat) (self : VersionPartsIter) : option (outcome E (list VersionPart)) :=
  match fuel with
  | O => None
  | S fuel =>
      match next self with
      | (Ok None, _) => Some (Ok [])
      | (Ok (Some p), self) =>
          match collect fuel self with
          | Some (Ok ps) => Some (Ok (p :: ps))
          | r => r
          end
      | (Err e, _) => Some (Err e)
      | (Panic, _) => Some Panic
      end
  end.

(** The list [builtins.splitVersion] builds from the parts. *)
Definition part_bytes (p : VersionPart) : bytes := match p with Number n => n | Word w => w end.
Definition split_version {E : Type} `{BstrChars} (v : bytes) : option (outcome E (list bytes)) :=
  match collect (length (char_indices v) + 2) (new v) with
  | None => None
  | Some o => Some (omap_ok (map part_bytes) o)
  end.

(** ** Comparison *)

(** [str::parse::<u64>] of a non-empty string of digits *)
Definition digits_value (s : bytes) : Z := foldl (λ n b, n * 10 + (b2z b - 0x30))%Z 0%Z s.
Definition parse_u64 (s : bytes) : option Z :=
  if (digits_value s <? 2 ^ 64)%Z then Some (digits_value s) else None.

(** [Ord for VersionPart]; the [unwrap]s panic on a number beyond [u64]. *)
Definition part_cmp {E : Type} (self other : VersionPart) : outcome E comparison :=
  match self, other with
  | Number s1, Number s2 =>
      let? n1 := or_panic (parse_u64 s1) in
      let? n2 := or_panic (parse_u64 s2) in
      Ok (Z.compare n1 n2)
  | Word x, Word y =>
      if bool_decide (x = B "pre") && bool_decide (y = B "pre") then Ok Eq
      else if bool_decide (x = B "pre") then Ok Lt
      else if bool_decide (y = B "pre") then Ok Gt
      else Ok (lex_cmp x y)
  | Word _, Number _ => Ok Lt
  | Number _, Word _ => Ok Gt
  end.

(** [new_for_cmp]: the iterator chained with one empty word. *)
Record CmpIter := mkCmpIter { parts : VersionPartsIter; once : bool }.
Definition new_for_cmp `{BstrChars} (v : bytes) : CmpIter := mkCmpIter (new v) true.

Definition cmp_next {E : Type} (self : CmpIter) : outcome E (option VersionPart) * CmpIter :=
  match next (parts self) with
  | (Ok None, p) => (Ok (if once self then Some (Word []) else None), mkCmpIter p false)
  | (o, p) => (o, mkCmpIter p (once self))
  end.

(** [Iterator::cmp] *)
Fixpoint iter_cmp {E : Type} (fuel : nat) (x y : CmpIter) : option (outcome E comparison) :=
  match fuel with
  | O => None
  | S fuel =>
      match cmp_next x with
      | (Err e, _) => Some (Err e)
      | (Panic, _) => Some Panic
      | (Ok px, x) =>
          match cmp_next y with
          | (Err e, _) => Some (Err e)
          | (Panic, _) => Some Panic
          | (Ok py, y) =>
              match px, py with
              | None, None => Some (Ok Eq)
              | None, Some _ => Some (Ok Lt)
              | Some _, None => Some (Ok Gt)
              | Some px, Some py =>
                  match part_cmp px py with
                  | Ok Eq => iter_cmp fuel x y
                  | o => Some o
                  end
              end
          end
      end
  end.

(** The integer [builtins.compareVersions] answers. *)
Definition compare_versions {E : Type} `{BstrChars} (s1 s2 : bytes) : option (outcome E Z) :=
  match iter_cmp (length (char_indices s1) + 3) (new_for_cmp s1) (new_for_cmp s2) with
  | None => None
  | Some o => Some (omap_ok (λ c, match c with Lt => (-1)%Z | Eq => 0%Z | Gt => 1%Z end) o)
  end.

(** ** A reference tokenizer

    Over characters with their text: maximal runs of digits and of other
    characters, dividers dropped. *)

Definition flush (cur : option VersionPart) : list VersionPart := from_option (λ p, [p]) [] cur.

Fixpoint group (cur : option VersionPart) (l : list (Z * bytes)) : list VersionPart :=
  match l with
  | [] => flush cur
  | (c, t) :: l =>
      if is_divider c then flush cur ++ group None l
      else if is_ascii_digit c then
        match cur with
        | Some (Number a) => group (Some (Number (a ++ t))) l
        | _ => flush cur ++ group (Some (Number t)) l
        end
      else
        match cur with
        | Some (Word a) => group (Some (Word (a ++ t))) l
        | _ => flush cur ++ group (Some (Word t)) l
        end
  end.

Definition text (v : bytes) (lo hi : nat) : bytes := take (hi - lo) (drop lo v).
Definition item_text (v : bytes) (x : nat * nat * Z) : Z * bytes := (x.2, text v x.1.1 x.1.2).

(** No replacement of a wrong width, as in every valid UTF-8 string. *)
Definition widths_ok (it : items) : Prop := Forall (λ x, x.1.2 - x.1.1 = len_utf8 x.2) it.

Definition reference_parts `{BstrChars} (v : bytes) : list VersionPart :=
  group None (item_text v <$> char_indices v).

Lemma text_app v lo i hi : lo ≤ i → i ≤ hi → text v lo i ++ text v i hi = text v lo hi.
Proof.
  intros. unfold text. replace (drop i v) with (drop (i - lo) (drop lo v)).
  - rewrite take_take_drop. f_equal. lia.
  - rewrite drop_drop. f_equal. lia.
Qed.

Lemma len_utf8_pos c : 1 ≤ len_utf8 c.
Proof. unfold len_utf8. repeat case_match; lia. Qed.

Lemma digit_len c : is_ascii_digit c = true → len_utf8 c = 1.
Proof.
  unfold is_ascii_digit, len_utf8. rewrite andb_true_iff, !Z.leb_le. intros ?.
  by rewrite (proj2 (Z.ltb_lt _ _)) by lia.
Qed.

(** The part under construction, with the text up to [i]. *)
Definition building (v : bytes) (i : nat) (p : InternalPart) (cur : option VersionPart) : Prop :=
  match p with
  | Break => cur = None
  | INumber lo hi => lo ≤ hi ∧ S hi = i ∧ i ≤ length v ∧ cur = Some (Number (text v lo i))
  | IWord lo hi => lo ≤ hi ∧ S hi = i ∧ i ≤ length v ∧ cur = Some (Word (text v lo i))
  end.

Lemma yield_building {E : Type} v i p cur :
  building v i p cur → yield_part (E := E) v p = Ok cur.
Proof.
  destruct p as [lo hi|lo hi|]; simpl; [| |by intros ->]; intros (? & <- & ? & ->); unfold slice, text;
    rewrite (proj2 (Nat.leb_le lo (S hi))), (proj2 (Nat.leb_le (S hi) (length v))) by lia; done.
Qed.

Definition pending (p : InternalPart) : nat := match p with Break => 0 | _ => 1 end.

(** The state of the iterator before the parts [ps]. *)
Definition before_parts (v : bytes) (p : InternalPart) (it : items) (ps : list VersionPart) : Prop :=
  ∃ i cur, covers v i it ∧ widths_ok it ∧ building v i p cur ∧ group cur (item_text v <$> it) = ps.

Lemma before_parts_cons v p it ps i cur :
  covers v i it → widths_ok it → building v i p cur → group cur (item_text v <$> it) = ps →
  before_parts v p it ps.
Proof. intros. by exists i, cur. Qed.

(** Yielding the part under construction. *)
Lemma next_yield {E : Type} v i e p p' cur cur' it q :
  building v i p cur → covers v e it → widths_ok it → cur = Some q → building v e p' cur' →
  ∃ p2 it2, (yield_part (E := E) v p, (p', it)) = (Ok (Some q), (p2, it2)) ∧
    before_parts v p2 it2 (group cur' (item_text v <$> it)) ∧
    pending p2 + length it2 < pending p + S (length it).
Proof.
  intros Hb Hcov Hw -> Hb'. exists p', it. rewrite (yield_building _ _ _ _ Hb). split; [done|].
  split; [by eapply before_parts_cons|]. destruct p; simpl in *; [| |done]; destruct p'; simpl; lia.
Qed.

(** One call of [next] takes the first part, or ends. *)
Lemma next_from_spec {E : Type} v i p cur it :
  covers v i it → widths_ok it → building v i p cur →
  match group cur (item_text v <$> it) with
  | [] => next_from (E := E) v p it = (Ok None, (Break, []))
  | q :: ps =>
      ∃ p' it', next_from (E := E) v p it = (Ok (Some q), (p', it')) ∧ before_parts v p' it' ps ∧
        pending p' + length it' < pending p + length it
  end.
Proof.
  revert i p cur. induction it as [|[[s e] c] it IH]; intros i p cur Hcov Hw Hb.
  - simpl. rewrite (yield_building _ _ _ _ Hb). destruct p; simpl in Hb; [| |by subst].
    + destruct Hb as (? & ? & ? & ->). simpl. exists Break, []. split; [done|]. split; [|simpl; lia].
      eapply (before_parts_cons v Break [] [] (length v) None); done.
    + destruct Hb as (? & ? & ? & ->). simpl. exists Break, []. split; [done|]. split; [|simpl; lia].
      eapply (before_parts_cons v Break [] [] (length v) None); done.
  - destruct Hcov as (-> & Hse & Hel & _ & _ & Hcov). apply Forall_cons in Hw as [Hwc Hw]. simpl in Hwc.
    cbn [next_from fmap list_fmap item_text group fst snd].
    assert (building v e (INumber i (e - 1)) (Some (Number (text v i e)))) as Hnum.
    { simpl. split_and!; [lia|lia|lia|done]. }
    assert (building v e (IWord i (e - 1)) (Some (Word (text v i e)))) as Hword.
    { simpl. split_and!; [lia|lia|lia|done]. }
    pose proof (λ q p' cur', next_yield (E := E) v i e p p' cur cur' it q Hb Hcov Hw) as Hyield.
    assert (∀ p' cur', building v e p' cur' → pending p' ≤ pending p + 1 →
      match group cur' (item_text v <$> it) with
      | [] => next_from (E := E) v p' it = (Ok None, (Break, []))
      | q :: ps => ∃ p2 it2, next_from (E := E) v p' it = (Ok (Some q), (p2, it2)) ∧ before_parts v p2 it2 ps ∧
          pending p2 + length it2 < pending p + S (length it)
      end) as Hgo.
    { intros p' cur' Hb' Hp. specialize (IH e p' cur' Hcov Hw Hb'). destruct (group _ _); [done|].
      destruct IH as (p2 & it2 & ? & ? & ?). exists p2, it2. split_and!; [done|done|lia]. }
    destruct (is_divider c) eqn:Ed; [|destruct (is_ascii_digit c) eqn:Eg].
    + destruct p as [lo hi|lo hi|]; simpl in Hb.
      * destruct Hb as (? & ? & ? & ->). by apply (Hyield _ Break None).
      * destruct Hb as (? & ? & ? & ->). by apply (Hyield _ Break None).
      * subst cur. apply (Hgo Break None); simpl; [done|lia].
    + apply digit_len in Eg. destruct p as [lo hi|lo hi|]; simpl in Hb.
      * destruct Hb as (? & <- & ? & ->). rewrite text_app by lia.
        apply (Hgo (INumber lo (hi + 1))); simpl; [|lia]. split_and!; [lia|lia|lia|done].
      * destruct Hb as (? & ? & ? & ->). by eapply Hyield.
      * subst cur. apply (Hgo _ _ Hnum). simpl. lia.
    + pose proof (len_utf8_pos c). destruct p as [lo hi|lo hi|]; simpl in Hb.
      * destruct Hb as (? & ? & ? & ->). by eapply Hyield.
      * destruct Hb as (? & <- & ? & ->). rewrite text_app by lia.
        apply (Hgo (IWord lo (hi + len_utf8 c))); simpl; [|lia]. split_and!; [lia|lia|lia|done].
      * subst cur. apply (Hgo _ _ Hword). simpl. lia.
Qed.

Definition at_parts (self : VersionPartsIter) (ps : list VersionPart) : Prop :=
  before_parts (version self) (cached_part self) (iter self) ps.

Definition measure (self : VersionPartsIter) : nat := pending (cached_part self) + length (iter self).

Lemma next_spec {E : Type} self ps :
  at_parts self ps →
  ∃ self', next (E := E) self = (Ok (head ps), self') ∧ at_parts self' (tail ps) ∧
    (ps ≠ [] → measure self' < measure self).
Proof.
  destruct self as [p it v]. intros (i & cur & Hc & Hw & Hb & Hg). simpl in *.
  pose proof (next_from_spec (E := E) v i p cur it Hc Hw Hb) as H. rewrite Hg in H. unfold next. simpl.
  destruct ps as [|q ps].
  - rewrite H. eexists. split; [done|]. split; [|done].
    eapply (before_parts_cons v Break [] [] (length v) None); [done|constructor|done|done].
  - destruct H as (p' & it' & -> & Hp & Hm). eexists. split; [done|]. split; [done|]. intros _. exact Hm.
Qed.

Lemma at_parts_length self ps : at_parts self ps → length ps ≤ measure self.
Proof.
  intros H. remember (measure self) as m eqn:Em. revert self ps Em H.
  induction m as [m IH] using lt_wf_ind. intros self ps -> H.
  destruct ps as [|q ps]; [simpl; lia|].
  destruct (next_spec (E := unit) self (q :: ps) H) as (self' & _ & H' & Hm).
  specialize (Hm ltac:(done)). specialize (IH _ Hm self' ps eq_refl H'). simpl. lia.
Qed.

Lemma collect_spec {E : Type} fuel self ps :
  at_parts self ps → length ps < fuel → collect (E := E) fuel self = Some (Ok ps).
Proof.
  revert self ps. induction fuel as [|fuel IH]; intros self ps H Hf; [lia|]. cbn [collect].
  destruct (next_spec (E := E) self ps H) as (self' & -> & H' & _).
  destruct ps as [|q ps]; [done|]. simpl in *. by rewrite (IH self' ps) by (done || lia).
Qed.

Section Laws.
Context `{BstrCharsLaws}.

Lemma new_at v : widths_ok (char_indices v) → at_parts (new v) (reference_parts v).
Proof.
  intros Hw. eapply (before_parts_cons v Break (char_indices v) _ 0 None);
    [apply char_indices_covers|done|done|done].
Qed.

Lemma length_reference v :
  widths_ok (char_indices v) → length (reference_parts v) ≤ length (char_indices v).
Proof. intros Hw. apply new_at in Hw. apply at_parts_length in Hw. done. Qed.

(** ** Comparing *)

Fixpoint cmp_list {E : Type} (xs ys : list VersionPart) : outcome E comparison :=
  match xs, ys with
  | [], [] => Ok Eq
  | [], _ => Ok Lt
  | _, [] => Ok Gt
  | x :: xs, y :: ys =>
      match part_cmp x y with
      | Ok Eq => cmp_list xs ys
      | o => o
      end
  end.

Definition cmp_at (self : CmpIter) (l : list VersionPart) : Prop :=
  ∃ ps, at_parts (parts self) ps ∧ l = (if once self then ps ++ [Word []] else ps) ∧
    (once self = false → ps = []).

Lemma cmp_next_spec {E : Type} self l :
  cmp_at self l →
  ∃ self', cmp_next (E := E) self = (Ok (head l), self') ∧ cmp_at self' (tail l).
Proof.
  intros (ps & Hp & -> & Ho). destruct (next_spec (E := E) (parts self) ps Hp) as (p' & E' & Hp' & _).
  unfold cmp_next. rewrite E'. destruct ps as [|q ps]; simpl.
  - eexists. split; [by destruct (once self)|]. exists []. by destruct (once self).
  - destruct (once self) eqn:Eo; [|by specialize (Ho eq_refl)]. eexists. split; [done|].
    exists ps. simpl. done.
Qed.

Lemma iter_cmp_spec {E : Type} fuel x y xs ys :
  cmp_at x xs → cmp_at y ys → length xs < fuel → iter_cmp (E := E) fuel x y = Some (cmp_list xs ys).
Proof.
  revert x y xs ys. induction fuel as [|fuel IH]; intros x y xs ys Hx Hy Hf; [lia|]. cbn [iter_cmp].
  destruct (cmp_next_spec (E := E) x xs Hx) as (x' & -> & Hx').
  destruct (cmp_next_spec (E := E) y ys Hy) as (y' & -> & Hy').
  destruct xs as [|p xs], ys as [|q ys]; simpl in *; try done.
  destruct (part_cmp p q) as [[]| |]; try done. apply IH; [done|done|lia].
Qed.

(** The list a version is compared by. *)
Definition cmp_parts (v : bytes) : list VersionPart := reference_parts v ++ [Word []].

Definition sign (c : comparison) : Z := match c with Lt => -1 | Eq => 0 | Gt => 1 end%Z.

Lemma compare_versions_list {E : Type} v1 v2 :
  widths_ok (char_indices v1) → widths_ok (char_indices v2) →
  compare_versions (E := E) v1 v2 = Some (omap_ok sign (cmp_list (cmp_parts v1) (cmp_parts v2))).
Proof.
  intros H1 H2. unfold compare_versions.
  rewrite (iter_cmp_spec _ _ _ (cmp_parts v1) (cmp_parts v2)); [done|..].
  - eexists. split; [by apply new_at|done].
  - eexists. split; [by apply new_at|done].
  - unfold cmp_parts. rewrite length_app. pose proof (length_reference v1 H1). simpl. lia.
Qed.
End Laws.

(** *** The order on parts *)

Inductive part_key := KPre | KWord (s : bytes) | KNumber (n : Z).

#[global] Instance part_key_RustOrd : RustOrd part_key := λ a b,
  match a, b with
  | KPre, KPre => Eq
  | KPre, _ => Lt
  | _, KPre => Gt
  | KWord x, KWord y => rcmp x y
  | KWord _, KNumber _ => Lt
  | KNumber _, KWord _ => Gt
  | KNumber x, KNumber y => rcmp x y
  end.

#[global] Instance part_key_RustOrdLaws : RustOrdLaws part_key.
Proof.
  constructor.
  - intros [|x|x]; [done|exact (rcmp_refl x)|exact (rcmp_refl x)].
  - intros [|x|x] [|y|y]; try done; exact (rcmp_antisym x y).
  - intros [|x|x] [|y|y] [|z|z]; try done; exact (rcmp_lt_trans x y z).
  - intros [|x|x] [|y|y] [|z|z]; try done; exact (rcmp_eq_l x y z).
Qed.

Definition key_of (p : VersionPart) : part_key :=
  match p with
  | Word s => if bool_decide (s = B "pre") then KPre else KWord s
  | Number s => KNumber (digits_value s)
  end.

(** The numbers of a part fit [u64]. *)
Definition part_fits (p : VersionPart) : Prop :=
  match p with Word _ => True | Number s => (digits_value s < 2 ^ 64)%Z end.

#[global] Instance part_fits_dec p : Decision (part_fits p).
Proof. destruct p; simpl; apply _. Defined.

(** A version on which nothing panics. *)
Definition version_ok `{BstrChars} (v : bytes) : Prop :=
  widths_ok (char_indices v) ∧ Forall part_fits (reference_parts v).

#[global] Instance version_ok_dec `{BstrChars} v : Decision (version_ok v).
Proof. unfold version_ok, widths_ok. apply _. Defined.

Lemma part_cmp_key {E : Type} p q :
  part_fits p → part_fits q → part_cmp (E := E) p q = Ok (rcmp (key_of p) (key_of q)).
Proof.
  destruct p as [x|x], q as [y|y]; simpl; intros Hp Hq.
  - repeat case_bool_decide; done.
  - by case_bool_decide.
  - by case_bool_decide.
  - unfold parse_u64. by rewrite !(proj2 (Z.ltb_lt _ _)) by done.
Qed.

Lemma cmp_list_keys {E : Type} xs ys :
  Forall part_fits xs → Forall part_fits ys →
  cmp_list (E := E) xs ys = Ok (lex_cmp (key_of <$> xs) (key_of <$> ys)).
Proof.
  intros Hx. revert ys. induction Hx as [|p xs Hp Hx IH]; intros [|q ys] Hy; try done.
  apply Forall_cons in Hy as [Hq Hy]. simpl. rewrite part_cmp_key by done.
  destruct (rcmp (key_of p) (key_of q)); [by apply IH|done..].
Qed.

(** *** ASCII strings *)

Fixpoint ascii_items (i : nat) (s : bytes) : items :=
  match s with [] => [] | b :: s => (i, S i, b2z b) :: ascii_items (S i) s end.

Definition ascii (s : bytes) : Prop := Forall (λ b, (b2z b < 0x80)%Z) s.

Lemma covers_ascii pre s post it :
  ascii s → covers (pre ++ s ++ post) (length pre) it →
  ∃ it', it = ascii_items (length pre) s ++ it' ∧ covers (pre ++ s ++ post) (length pre + length s) it'.
Proof.
  intros Hs. revert pre it. induction Hs as [|b s Hb Hs IH]; intros pre it Hc.
  { exists it. by rewrite Nat.add_0_r. }
  destruct it as [|[[x e] c] it].
  { simpl in Hc. rewrite !length_app in Hc. simpl in Hc. lia. }
  destruct Hc as (-> & _ & _ & Ha & _ & Hc).
  destruct (Ha b) as [-> ->]; [by apply (list_lookup_middle pre (s ++ post) b)|done|].
  replace (pre ++ (b :: s) ++ post) with ((pre ++ [b]) ++ s ++ post) in * by (by rewrite <- app_assoc).
  replace (S (length pre)) with (length (pre ++ [b])) in * by (rewrite length_app; simpl; lia).
  destruct (IH _ _ Hc) as (it' & -> & Hc').
  exists it'. simpl. rewrite length_app in *. simpl in *.
  replace (length pre + 1) with (S (length pre)) in * by lia.
  split; [done|]. by replace (length pre + S (length s)) with (S (length pre + length s)) by lia.
Qed.

Lemma covers_end v it : covers v (length v) it → it = [].
Proof. destruct it as [|[[s e] c] it]; [done|]. intros (-> & ? & ? & _). lia. Qed.

Lemma char_indices_ascii `{BstrCharsLaws} s : ascii s → char_indices s = ascii_items 0 s.
Proof.
  intros Hs. pose proof (char_indices_covers s) as Hc.
  rewrite <- (app_nil_r s) in Hc at 1. destruct (covers_ascii [] s [] _ Hs Hc) as (it' & E & Hc').
  simpl in *. rewrite app_nil_r in Hc'. apply covers_end in Hc' as ->. by rewrite E, app_nil_r.
Qed.

Lemma ascii_widths i s : ascii s → widths_ok (ascii_items i s).
Proof.
  intros Hs. revert i. induction Hs as [|b s Hb Hs IH]; intros i; constructor; [|apply IH].
  simpl. unfold len_utf8. rewrite (proj2 (Z.ltb_lt _ _)) by done. lia.
Qed.

Definition digit (b : byte) : Prop := is_ascii_digit (b2z b) = true.

Lemma digits_ascii s : Forall digit s → ascii s.
Proof.
  intros Hs. eapply Forall_impl; [exact Hs|]. intros b Hb. unfold digit, is_ascii_digit in Hb.
  apply andb_true_iff in Hb as [_ Hb%Z.leb_le]. lia.
Qed.

Lemma digit_not_divider b : digit b → is_divider (b2z b) = false.
Proof.
  unfold digit, is_ascii_digit, is_divider. rewrite andb_true_iff, !Z.leb_le, orb_false_iff, !Z.eqb_neq. lia.
Qed.

Lemma group_digits v i a s :
  Forall digit s → v = take i v ++ s →
  i ≤ length v →
  group (Some (Number a)) (item_text v <$> ascii_items i s) = [Number (a ++ s)].
Proof.
  intros Hs. revert v i a. induction Hs as [|b s Hb Hs IH]; intros v i a Hv Hi; simpl.
  { by rewrite app_nil_r. }
  unfold item_text. cbn [fst snd]. rewrite digit_not_divider by done. rewrite Hb.
  assert (drop i v = b :: s) as Hd.
  { rewrite Hv at 1. rewrite drop_app_ge by (rewrite length_take; lia).
    rewrite length_take, Nat.min_l, Nat.sub_diag by done. done. }
  fold (item_text v). change (λ x, item_text v x) with (item_text v).
  assert (text v i (S i) = [b]) as ->.
  { unfold text. rewrite Hd. by replace (S i - i) with 1 by lia. }
  assert (i < length v) as Hlt.
  { apply (f_equal length) in Hd. rewrite length_drop in Hd. simpl in Hd. lia. }
  change (group (Some (Number (a ++ [b]))) (item_text v <$> ascii_items (S i) s) = [Number (a ++ b :: s)]).
  rewrite IH; [by rewrite <- app_assoc| |lia].
  rewrite (take_S_r v i b), <- app_assoc; [done|]. rewrite <- (Nat.add_0_r i), <- lookup_drop, Hd. done.
Qed.

Lemma reference_digits `{BstrCharsLaws} s :
  Forall digit s → s ≠ [] → reference_parts s = [Number s].
Proof.
  intros Hs Hne. unfold reference_parts. rewrite char_indices_ascii by by apply digits_ascii.
  destruct Hs as [|b s Hb Hs]; [done|]. cbn [ascii_items fmap list_fmap item_text group fst snd].
  rewrite digit_not_divider, Hb by done. simpl.
  change (group (Some (Number [b])) (item_text (b :: s) <$> ascii_items 1 s) = [Number (b :: s)]).
  rewrite group_digits; [done|done|done|simpl; lia].
Qed.

(** A word that a byte that is not UTF-8 ends: the range exceeds the string. *)
Definition letter (b : byte) : Prop :=
  (b2z b < 0x80)%Z ∧ is_divider (b2z b) = false ∧ is_ascii_digit (b2z b) = false.

Lemma next_letters {E : Type} v i lo hi s it :
  Forall letter s →
  next_from (E := E) v (IWord lo hi) (ascii_items i s ++ it) = next_from v (IWord lo (hi + length s)) it.
Proof.
  intros Hs. revert i hi. induction Hs as [|b s (Hb & Hd & Hg) Hs IH]; intros i hi; simpl.
  { by rewrite Nat.add_0_r. }
  rewrite Hd, Hg, IH. unfold len_utf8. rewrite (proj2 (Z.ltb_lt _ _)) by done. do 2 f_equal. lia.
Qed.

Module CharModel.
(** One character per byte, replaced unless it is ASCII. *)
Definition byte_char (b : byte) : Z := if (b2z b <? 0x80)%Z then b2z b else REPLACEMENT.
Fixpoint items_from (i : nat) (s : bytes) : items :=
  match s with [] => [] | b :: s => (i, S i, byte_char b) :: items_from (S i) s end.
#[export] Instance chars : BstrChars := items_from 0.
#[export] Instance chars_laws : BstrCharsLaws.
Proof.
  intros v. unfold char_indices, chars.
  assert (∀ pre s, covers (pre ++ s) (length pre) (items_from (length pre) s)) as H; [|apply (H [] v)].
  intros pre s. revert pre. induction s as [|b s IH]; intros pre; simpl.
  { by rewrite app_nil_r. }
  split_and!; [done|lia|rewrite length_app; simpl; lia| | |].
  - intros b'. rewrite list_lookup_middle by done. intros [= <-] Hb. split; [done|].
    unfold byte_char. by rewrite (proj2 (Z.ltb_lt _ _)).
  - rewrite list_lookup_middle by done. intros [= ->]. done.
  - specialize (IH (pre ++ [b])). rewrite <- app_assoc, length_app in IH. simpl in IH.
    by replace (length pre + 1) with (S (length pre)) in IH by lia.
Qed.
End CharModel.

(** ** Properties *)

(** On a string whose characters all have their own width (every valid
    UTF-8 string), the lazy iterator with its cached ranges never slices out
    of range, ends within one call per character, and yields exactly the
    reference tokens: maximal runs of digits and of other characters, with the
    dividers ['.'] and ['-'] dropped. *)
Theorem split_version_reference `{BstrCharsLaws} (v : bytes) :
  widths_ok (char_indices v) →
  split_version (E := Empty_set) v = Some (Ok (part_bytes <$> reference_parts v)).
Proof.
  intros Hw. unfold split_version. rewrite (collect_spec _ _ (reference_parts v)); [done|by apply new_at|].
  pose proof (length_reference v Hw). lia.
Qed.

(** Comparing versions is a total preorder: on strings whose characters
    have their width and whose numbers fit [u64], [compareVersions] answers an
    integer, answers the negation with the arguments swapped, 0 on equal
    arguments, and is transitive. *)
Theorem compare_versions_preorder `{BstrCharsLaws} (x y z : bytes) :
  Forall version_ok [x; y; z] →
  ∃ xy yz xz,
    compare_versions (E := Empty_set) x y = Some (Ok xy) ∧
    compare_versions (E := Empty_set) y z = Some (Ok yz) ∧
    compare_versions (E := Empty_set) x z = Some (Ok xz) ∧
    compare_versions (E := Empty_set) y x = Some (Ok (- xy)%Z) ∧
    compare_versions (E := Empty_set) x x = Some (Ok 0%Z) ∧
    (xy ≤ 0 → yz ≤ 0 → xz ≤ 0)%Z.
Proof.
  intros [[Wx Fx] [[Wy Fy] [[Wz Fz] _]%Forall_cons]%Forall_cons]%Forall_cons.
  assert (∀ v, Forall part_fits (reference_parts v) → Forall part_fits (cmp_parts v)) as Hfit.
  { intros v Hv. apply Forall_app. split; [done|]. by repeat constructor. }
  rewrite !compare_versions_list by done. rewrite !cmp_list_keys by auto. simpl.
  set (kx := key_of <$> cmp_parts x). set (ky := key_of <$> cmp_parts y). set (kz := key_of <$> cmp_parts z).
  change (lex_cmp kx ky) with (rcmp kx ky). change (lex_cmp ky kz) with (rcmp ky kz).
  change (lex_cmp kx kz) with (rcmp kx kz). change (lex_cmp ky kx) with (rcmp ky kx).
  change (lex_cmp kx kx) with (rcmp kx kx).
  do 3 eexists. split_and!; [done|done|done| |by rewrite rcmp_refl|].
  - rewrite (rcmp_antisym kx ky). by destruct (rcmp kx ky).
  - destruct (rcmp kx ky) eqn:E1; [rewrite (rcmp_eq_l _ _ kz E1); simpl; lia| |simpl; lia].
    destruct (rcmp ky kz) eqn:E2; [|by rewrite (rcmp_lt_trans _ _ _ E1 E2)|simpl; lia].
    by rewrite <- (rcmp_eq_r kx _ _ E2), E1.
Qed.

(** Numbers are compared as [u64] with an [unwrap]: comparing two versions
    that are plain numbers panics exactly when one of them exceeds [u64::MAX]. *)
Theorem compare_versions_number_panics `{BstrCharsLaws} (a b : bytes) :
  Forall digit a → Forall digit b → a ≠ [] → b ≠ [] →
  compare_versions (E := Empty_set) a b = Some Panic ↔
    (2 ^ 64 ≤ digits_value a)%Z ∨ (2 ^ 64 ≤ digits_value b)%Z.
Proof.
  intros Ha Hb Hna Hnb.
  rewrite compare_versions_list
    by (rewrite char_indices_ascii by (by apply digits_ascii); by apply ascii_widths, digits_ascii).
  unfold cmp_parts. rewrite !reference_digits by done. simpl. unfold parse_u64.
  destruct (Z.ltb_spec (digits_value a) (2 ^ 64)), (Z.ltb_spec (digits_value b) (2 ^ 64)); simpl;
    [|naive_solver lia..].
  split; [|lia]. by destruct (digits_value a ?= digits_value b)%Z.
Qed.

(** A word followed by a byte that is not UTF-8 makes the iterator panic:
    the cached range grows by the width of the replacement character, three
    bytes, and the slice is out of range. *)
Theorem split_version_invalid_utf8_panics `{BstrCharsLaws} (b : byte) (w : bytes) :
  Forall letter (b :: w) → split_version (E := Empty_set) (b :: w ++ [Byte.xff]) = Some Panic.
Proof.
  intros Hl. set (v := b :: w ++ [Byte.xff]).
  assert (ascii (b :: w)) as Ha by (eapply Forall_impl; [exact Hl|]; by intros ? [? _]).
  destruct (covers_ascii [] (b :: w) [Byte.xff] _ Ha (char_indices_covers v)) as (it & E & Hc).
  assert (it = [(S (length w), S (S (length w)), REPLACEMENT)]) as ->.
  { destruct it as [|[[x e] c] it].
    - simpl in Hc. rewrite length_app in Hc. simpl in Hc. lia.
    - destruct Hc as (-> & _ & _ & _ & Hff & Hc). destruct Hff as [-> ->].
      { simpl. by apply (list_lookup_middle w [] Byte.xff). }
      replace (S (length [] + length (b :: w))) with (length v) in Hc.
      + apply covers_end in Hc as ->. done.
      + unfold v. simpl. rewrite length_app. simpl. lia. }
  apply Forall_cons in Hl as [(Hb & Hd & Hg) Hl].
  unfold split_version, new. rewrite E. rewrite length_app. simpl. unfold next. cbn [version cached_part iter].
  simpl. rewrite Hd, Hg. rewrite next_letters by done. simpl. unfold slice.
  change (len_utf8 REPLACEMENT) with 3. rewrite andb_comm. rewrite (proj2 (Nat.leb_gt (S (length w + 3)) (length v))); [done|].
  unfold v. simpl. rewrite length_app. simpl. lia.
Qed.

Import CharModel.

Lemma split_version_reference_witness :
  split_version (E := Empty_set) (B "1.2pre-rc3") = Some (Ok [B "1"; B "2"; B "pre"; B "rc"; B "3"]).
Proof.
  exact (split_version_reference (B "1.2pre-rc3") ltac:(by apply (bool_decide_unpack _); vm_compute)).
Defined.

Lemma compare_versions_preorder_witness :
  ∃ xy yz xz,
    compare_versions (E := Empty_set) (B "2.3pre") (B "2.3") = Some (Ok xy) ∧
    compare_versions (E := Empty_set) (B "2.3") (B "2.10") = Some (Ok yz) ∧
    compare_versions (E := Empty_set) (B "2.3pre") (B "2.10") = Some (Ok xz) ∧
    compare_versions (E := Empty_set) (B "2.3") (B "2.3pre") = Some (Ok (- xy)%Z) ∧
    compare_versions (E := Empty_set) (B "2.3pre") (B "2.3pre") = Some (Ok 0%Z) ∧
    (xy ≤ 0 → yz ≤ 0 → xz ≤ 0)%Z.
Proof.
  apply (compare_versions_preorder (B "2.3pre") (B "2.3") (B "2.10")).
  apply (bool_decide_unpack _). by vm_compute.
Defined.

Lemma compare_versions_number_panics_witness :
  compare_versions (E := Empty_set) (B "18446744073709551616") (B "1") = Some Panic.
Proof.
  apply (compare_versions_number_panics (B "18446744073709551616") (B "1")).
  - apply (bool_decide_unpack _). by vm_compute.
  - apply (bool_decide_unpack _). by vm_compute.
  - done.
  - done.
  - left. vm_compute. done.
Defined.

Lemma split_version_invalid_utf8_panics_witness :
  split_version (E := Empty_set) (B "abc" ++ [Byte.xff]) = Some Panic.
Proof.
  apply (split_version_invalid_utf8_panics Byte.x61 (B "bc")).
  apply (bool_decide_unpack _). by vm_compute.
Defined.
