(* ===== verification/Builtins.v ===== *)
(** * [eval/src/builtins/mod.rs]: the pure builtins

    Each builtin is a generator over its arguments. The attribute macro
    [#[builtins]] (builtin-macros/src/lib.rs) wraps its body: arguments are
    popped from the last to the first, and a strict one is forced and returned
    at once if it is a failure.

    Left out are the builtins that are a call of a serialisation library
    ([fromJSON], [toJSON], [fromTOML], [toXML]) or print ([trace]). *)

From stdpp Require Import strings gmap sorting.
From Stdlib Require Import SpecFloat.
From S2P Require Import Versions Prelude Crates StdText BTreeMap Aterm NixString NixAttrs Bytecode Value Generators.
Import Opcode.
#[local] Open Scope nat_scope.

(** [let! x := m in k]: [m] is a request, [k] what follows its answer. *)
Notation "'let!' x ':=' m 'in' k" := (m (fun x => k))
  (at level 10, x binder, m at level 100, k at level 200, only parsing).

Class Digests := {
  md5 : bytes → bytes;
  sha1 : bytes → bytes;
  sha256 : bytes → bytes;
  sha512 : bytes → bytes;
}.

Section Builtins.
Context `{!Vu128, !EvalEnv, !BstrChars, !DataEncoding, !Digests}.
Context (dbg : bool).

(** ** Arguments *)

Definition Arg : Type := Value → (Value → Gen) → Gen.

Definition strict_arg : Arg := λ v k, let! v := request_force v in try_value v k.
Definition lazy_arg : Arg := λ v k, k v.

Definition builtin1 (a1 : Arg) (f : Value → Gen) (values : list Value) : Gen :=
  match values with
  | [x] => let! x := a1 x in f x
  | _ => GPanic
  end.
Definition builtin2 (a1 a2 : Arg) (f : Value → Value → Gen) (values : list Value) : Gen :=
  match values with
  | [x; y] => let! y := a2 y in let! x := a1 x in f x y
  | _ => GPanic
  end.
Definition builtin3 (a1 a2 a3 : Arg) (f : Value → Value → Value → Gen) (values : list Value) : Gen :=
  match values with
  | [x; y; z] => let! z := a3 z in let! y := a2 y in let! x := a1 x in f x y z
  | _ => GPanic
  end.

(** Casts of the value, with [?]. *)
Definition get_bool (v : Value) : (bool → Gen) → Gen := gtry (λ h, as_bool h v).
Definition get_int (v : Value) : (Z → Gen) → Gen := gtry (λ h, as_int h v).
Definition get_float (v : Value) : (spec_float → Gen) → Gen := gtry (λ h, as_float h v).
Definition get_str (v : Value) : (NixString → Gen) → Gen := gtry (λ h, to_str h v).
Definition get_contextful_str (v : Value) : (NixString → Gen) → Gen := gtry (λ h, to_contextful_str h v).
Definition get_list (v : Value) (k : list Value → Gen) : Gen := gtry (λ h, to_list h v) (λ l, k l.2).
Definition get_attrs (v : Value) (k : AttrsRep Value → Gen) : Gen := gtry (λ h, to_attrs h v) (λ a, k a.2).

Definition get {A} (o : outcome ErrorKind A) : (A → Gen) → Gen := gtry (λ _, o).

Definition ret_bool (b : bool) : Gen := GValue (VBool b).
Definition ret_list (l : list Value) : Gen := new_list l GValue.
Definition ret_attrs (a : AttrsRep Value) : Gen := new_attrs a GValue.

(** [generators::request_force] of [request_call_with] *)
Definition call_force (f : Value) (args : list Value) (k : Value → Gen) : Gen :=
  let! r := request_call_with dbg f args in request_force r k.

(** [coerce_to_string(co, kind, span).await?] with the span of the request. *)
Definition coerced (v : Value) (kind : CoercionKind) (k : Value → Gen) : Gen :=
  let! span := request_span in
  gbind (coerce_to_string v kind span) (λ r, match r with LValue v => k v | _ => GPanic end).

(** ** Numbers *)

Definition arith (op : ArithOp) : list Value → Gen :=
  builtin2 strict_arg strict_arg (λ x y, gtry (λ h, arithmetic_op dbg h op x y) GValue).
Definition builtin_add := arith OAdd.
Definition builtin_div := arith ODiv.
Definition builtin_mul := arith OMul.
Definition builtin_sub := arith OSub.

Definition bitwise (op : Z → Z → Z) : list Value → Gen :=
  builtin2 strict_arg strict_arg (λ x y,
    let! x := get_int x in let! y := get_int y in GValue (VInteger (op x y))).
Definition builtin_bit_and := bitwise Z.land.
Definition builtin_bit_or := bitwise Z.lor.
Definition builtin_bit_xor := bitwise Z.lxor.

(** [f.floor() as i64] and [f.ceil() as i64]: the cast saturates. *)
Definition i64_saturate (z : Z) : Z := (i64_min `max` (z `min` (2 ^ 63 - 1)))%Z.
Definition finite_floor (s : bool) (m : positive) (e : Z) : Z :=
  let m := if s then Zneg m else Zpos m in
  (if 0 <=? e then m * 2 ^ e else m / 2 ^ (- e))%Z.
Definition floor_i64 (f : spec_float) : Z :=
  match f with
  | S754_nan | S754_zero _ => 0%Z
  | S754_infinity s => if s then i64_min else (2 ^ 63 - 1)%Z
  | S754_finite s m e => i64_saturate (finite_floor s m e)
  end.
Definition ceil_i64 (f : spec_float) : Z :=
  match f with
  | S754_finite s m e => i64_saturate (- finite_floor (negb s) m e)
  | f => floor_i64 f
  end.
Definition builtin_floor : list Value → Gen :=
  builtin1 strict_arg (λ double, let! f := get_float double in GValue (VInteger (floor_i64 f))).
Definition builtin_ceil : list Value → Gen :=
  builtin1 strict_arg (λ double, let! f := get_float double in GValue (VInteger (ceil_i64 f))).

(** ** Types *)

Definition is_type (p : Value → bool) : list Value → Gen :=
  builtin1 strict_arg (λ value, try_value value (λ value, ret_bool (p value))).
Definition builtin_is_attrs := is_type (λ v, match v with VAttrs _ _ => true | _ => false end).
Definition builtin_is_bool := is_type (λ v, match v with VBool _ => true | _ => false end).
Definition builtin_is_float := is_type (λ v, match v with VFloat _ => true | _ => false end).
Definition builtin_is_function :=
  is_type (λ v, match v with VClosure _ _ | VBuiltin _ => true | _ => false end).
Definition builtin_is_int := is_type (λ v, match v with VInteger _ => true | _ => false end).
Definition builtin_is_list := is_type (λ v, match v with VList _ _ => true | _ => false end).
Definition builtin_is_null := is_type (λ v, match v with VNull => true | _ => false end).
Definition builtin_is_path := is_type (λ v, match v with VPath _ => true | _ => false end).
Definition builtin_is_string := is_type (λ v, match v with VString _ => true | _ => false end).
Definition builtin_type_of : list Value → Gen :=
  builtin1 strict_arg (λ x, try_value x (λ x, GValue (VString (plain_string (type_of x))))).

(** ** Control *)

Definition builtin_abort : list Value → Gen :=
  builtin1 strict_arg (λ message, let! s := get_contextful_str message in GErr (Abort (contents s))).
Definition builtin_throw : list Value → Gen :=
  builtin1 strict_arg (λ message,
    let! message := try_value message in
    let! s := get_contextful_str message in GValue (VCatchable (Throw (contents s)))).
Definition builtin_seq : list Value → Gen := builtin2 strict_arg strict_arg (λ _ y, GValue y).
Definition builtin_deep_seq : list Value → Gen :=
  builtin2 strict_arg strict_arg (λ x y, let! _ := request_deep_force x in GValue y).
Definition builtin_try_eval : list Value → Gen :=
  builtin1 lazy_arg (λ e,
    let! v := request_try_force e in
    let res := match v with
               | VCatchable _ => [(B "value", VBool false); (B "success", VBool false)]
               | value => [(B "value", value); (B "success", VBool true)]
               end in
    ret_attrs (attrs_from_iter (prod_map plain_string id <$> res))).
Definition builtin_less_than : list Value → Gen :=
  builtin2 strict_arg strict_arg (λ x y,
    let! span := request_span in
    GAwait (LCmp [(x, y, ForbidAll)] span) (λ r,
      match r with
      | LOrdering (inl c) => GValue (VCatchable c)
      | LOrdering (inr c) => ret_bool (match c with Lt => true | _ => false end)
      | _ => GPanic
      end)).
Definition builtin_add_error_context : list Value → Gen :=
  builtin2 lazy_arg lazy_arg (λ _ val, emit_warning_kind (B "builtins.addErrorContext") (GValue val)).

(** ** Lists *)

Definition builtin_all : list Value → Gen :=
  builtin2 strict_arg strict_arg (λ pred list,
    let! l := get_list list in
    gfor (λ value _ next,
        let! r := call_force pred [value] in
        let! r := try_value r in
        let! b := get_bool r in
        if b then next tt else ret_bool false)
      l tt (λ _, ret_bool true)).

Definition builtin_any : list Value → Gen :=
  builtin2 strict_arg strict_arg (λ pred list,
    let! l := get_list list in
    gfor (λ value _ next,
        let! r := call_force pred [value] in
        let! r := try_value r in
        let! b := get_bool r in
        if b then ret_bool true else next tt)
      l tt (λ _, ret_bool false)).

Definition builtin_filter : list Value → Gen :=
  builtin2 strict_arg strict_arg (λ pred list,
    let! l := get_list list in
    gfor (λ value out next,
        let! r := call_force pred [value] in
        let! verdict := try_value r in
        let! b := get_bool verdict in
        next (if b then out ++ [value] else out))
      l [] ret_list).

Definition builtin_partition : list Value → Gen :=
  builtin2 strict_arg strict_arg (λ pred list,
    let! l := get_list list in
    gfor (λ elem '(rights, wrongs) next,
        let! r := call_force pred [elem] in
        let! r := try_value r in
        let! b := get_bool r in
        next (if b then (rights ++ [elem], wrongs) else (rights, wrongs ++ [elem])))
      l ([], []) (λ '(rights, wrongs),
    let! rights := new_list rights in
    let! wrongs := new_list wrongs in
    ret_attrs (attrs_from_iter [(plain_string (B "right"), rights); (plain_string (B "wrong"), wrongs)]))).

Definition builtin_concat_lists : list Value → Gen :=
  builtin1 strict_arg (λ lists,
    let! l := get_list lists in
    gfor (λ value out next,
        let! v := request_force value in
        let! v := try_value v in
        let! list := get_list v in
        next (out ++ list))
      l [] ret_list).

Definition builtin_concat_map : list Value → Gen :=
  builtin2 strict_arg strict_arg (λ f list,
    let! l := get_list list in
    gfor (λ val res next,
        let! out := call_force f [val] in
        let! out := try_value out in
        let! list := get_list out in
        next (res ++ list))
      l [] ret_list).

Definition builtin_foldl : list Value → Gen :=
  builtin3 strict_arg lazy_arg strict_arg (λ op nul list,
    let! l := get_list list in
    gfor (λ val nul next,
        let! nul := call_force op [nul; val] in
        match nul with VCatchable _ => GValue nul | nul => next nul end)
      l nul GValue).

Definition builtin_elem : list Value → Gen :=
  builtin2 strict_arg strict_arg (λ x xs,
    let! l := get_list xs in
    gfor (λ val _ next,
        check_equality x val AllowAll (λ r,
          match r with
          | inr true => ret_bool true
          | inr false => next tt
          | inl c => GValue (VCatchable c)
          end))
      l tt (λ _, ret_bool false)).

Definition list_get (l : list Value) (i : Z) : option Value :=
  if (i <? Z.of_nat (length l))%Z then l !! Z.to_nat i else None.

Definition builtin_elem_at : list Value → Gen :=
  builtin2 strict_arg strict_arg (λ xs i,
    let! l := get_list xs in
    let! i := get_int i in
    if (i <? 0)%Z then GErr (IndexOutOfBounds i)
    else match list_get l i with
         | Some x => GValue x
         | None => GErr (IndexOutOfBounds i)
         end).

Definition builtin_head : list Value → Gen :=
  builtin1 strict_arg (λ list,
    let! list := try_value list in
    let! l := get_list list in
    match l with x :: _ => GValue x | [] => GErr (IndexOutOfBounds 0) end).

Definition builtin_tail : list Value → Gen :=
  builtin1 strict_arg (λ list,
    let! list := try_value list in
    let! l := get_list list in
    match l with [] => GErr TailEmptyList | _ :: l => ret_list l end).

Definition builtin_length : list Value → Gen :=
  builtin1 strict_arg (λ list,
    let! list := try_value list in
    let! l := get_list list in
    GValue (VInteger (Z.of_nat (length l)))).

(** [Thunk::new_suspended_call] *)
Definition suspended_call_lambda (callee arg : Value) (span : Span) : Lambda Value :=
  let '(c, arg_idx) := Chunk.push_constant Chunk.Chunk_default arg in
  let '(c, f_idx) := Chunk.push_constant c callee in
  let c := (Chunk.push_op c OpConstant span).1 in
  let c := Chunk.push_uvarint c (Z.of_nat arg_idx) in
  let c := (Chunk.push_op c OpConstant span).1 in
  let c := Chunk.push_uvarint c (Z.of_nat f_idx) in
  let c := (Chunk.push_op c OpForce span).1 in
  let c := (Chunk.push_op c OpCall span).1 in
  let c := (Chunk.push_op c OpReturn span).1 in
  mkLambda c None 0 None.
Definition new_suspended_call (callee arg : Value) (span : Span) (k : Value → Gen) : Gen :=
  GAlloc (λ t, GSet t (Suspended (suspended_call_lambda callee arg span) no_upvalues span) (k (VThunk t))).

Definition builtin_map : list Value → Gen :=
  builtin2 lazy_arg strict_arg (λ f list_val,
    let! l := get_list list_val in
    let! span := request_span in
    gfor (λ val out next,
        let! result := new_suspended_call f val span in
        next (out ++ [result]))
      l [] ret_list).

(** [Vec::with_capacity] for values of 16 bytes: the allocation is at most
    [isize::MAX] bytes. *)
Definition capacity_ok (len : Z) : bool := (len * 16 <? 2 ^ 63)%Z.

Definition builtin_gen_list : list Value → Gen :=
  builtin2 lazy_arg strict_arg (λ generator length,
    let! len := get_int length in
    if (len <? 0)%Z then GErr (Abort (B "can not create list of size " ++ i64_to_string len))
    else if negb (capacity_ok len) then GPanic
    else
      let! span := request_span in
      gfor (λ i out next,
          let! val := new_suspended_call generator (VInteger (Z.of_nat i)) span in
          next (out ++ [val]))
        (seq 0 (Z.to_nat len)) [] ret_list).

Definition builtin_sort : list Value → Gen :=
  builtin2 strict_arg strict_arg (λ comparator list,
    let! l := get_list list in
    gloop (LSort comparator l (length l))).

Definition builtin_generic_closure : list Value → Gen :=
  builtin1 strict_arg (λ input,
    let! attrs := get_attrs input in
    let! start := get (select_required (B "startSet") attrs) in
    let! start := request_force start in
    let! work_set := get_list start in
    let! operator := get (select_required (B "operator") attrs) in
    gloop (LClosure operator work_set [] [])).

(** ** Attribute sets *)

Definition builtin_attr_names : list Value → Gen :=
  builtin1 strict_arg (λ set,
    let! xs := get_attrs set in
    ret_list ((λ x, VString x.1) <$> iter xs)).

Definition builtin_attr_values : list Value → Gen :=
  builtin1 strict_arg (λ set,
    let! xs := get_attrs set in
    ret_list (iter xs).*2).

Definition builtin_cat_attrs : list Value → Gen :=
  builtin2 strict_arg strict_arg (λ key list,
    let! key := get_str key in
    let! l := get_list list in
    gfor (λ item output next,
        let! set := request_force item in
        let! set := get_attrs set in
        next (match select (contents key) set with Some v => output ++ [v] | None => output end))
      l [] ret_list).

Definition builtin_get_attr : list Value → Gen :=
  builtin2 strict_arg strict_arg (λ key set,
    let! k := get_str key in
    let! xs := get_attrs set in
    match select (contents k) xs with
    | Some x => GValue x
    | None => GErr (AttributeNotFound (contents k))
    end).

Definition builtin_has_attr : list Value → Gen :=
  builtin2 strict_arg strict_arg (λ key set,
    let! k := get_str key in
    let! xs := get_attrs set in
    ret_bool (contains (contents k) xs)).

Definition builtin_function_args : list Value → Gen :=
  builtin1 strict_arg (λ f,
    let! c := gtry (λ h, as_closure h f) in
    match formals (closure_lambda c) with
    | None => ret_attrs Empty
    | Some fs => ret_attrs (attrs_from_iter (prod_map id VBool <$> arguments fs))
    end).

(** [res.entry(key).or_default().push(val)] *)
Definition group_push (key : NixString) (val : Value) (res : list (NixString * list Value))
    : list (NixString * list Value) :=
  bt_insert key (default [] (bt_get key res) ++ [val]) res.

Definition builtin_group_by : list Value → Gen :=
  builtin2 strict_arg strict_arg (λ f list,
    let! l := get_list list in
    gfor (λ val res next,
        let! key := call_force f [val] in
        let! key := try_value key in
        let! key := get_str key in
        next (group_push key val res))
      l [] (λ res,
    gfor (λ '(k, v) out next, let! v := new_list v in next (out ++ [(k, v)]))
      res [] (λ out, ret_attrs (attrs_from_iter out)))).

Definition builtin_list_to_attrs : list Value → Gen :=
  builtin1 strict_arg (λ list,
    let! l := get_list list in
    gfor (λ val map next,
        let! v := request_force val in
        let! v := try_value v in
        let! attrs := get_attrs v in
        let! name := get (select_required (B "name") attrs) in
        let! name := request_force name in
        let! name := try_value name in
        let! name := get_str name in
        let! value := get (select_required (B "value") attrs) in
        next (insert_vacant name value map))
      l [] (λ map, ret_attrs (attrs_from_iter map))).

Definition builtin_map_attrs : list Value → Gen :=
  builtin2 lazy_arg strict_arg (λ f attrs,
    let! attrs := get_attrs attrs in
    let! span := request_span in
    gfor (λ '(key, value) out next,
        let! result := new_suspended_call f (VString key) span in
        let! result := new_suspended_call result value span in
        next (bt_insert key result out))
      (iter attrs) [] (λ out, ret_attrs (Map out))).

(** [.map(to_str).collect::<Result<FxHashSet, _>>()]: the keys are not forced. *)
Fixpoint key_set (h : Heap) (keys : list Value) : outcome ErrorKind (gset bytes) :=
  match keys with
  | [] => Ok ∅
  | v :: keys =>
      let? s := to_str h v in
      let? r := key_set h keys in
      Ok ({[ contents s ]} ∪ r)
  end.

Definition builtin_remove_attrs : list Value → Gen :=
  builtin2 strict_arg strict_arg (λ attrs keys,
    let! attrs := get_attrs attrs in
    let! l := get_list keys in
    let! keys := gtry (λ h, key_set h l) in
    ret_attrs (attrs_from_iter (filter (λ x, contents x.1 ∉ keys) (iter attrs)))).

(** The loop of [intersectAttrs] over two iterators of keys, whose next elements
    are [left] and [right]. *)
Fixpoint intersect_loop (right_set : AttrsRep Value) (left : NixString) (left_keys : list NixString)
    {struct left_keys} : NixString → list NixString → list (NixString * Value) → list (NixString * Value) :=
  fix go (right : NixString) (right_keys : list NixString) (out : list (NixString * Value))
      {struct right_keys} :=
    if NixString_eqb left right then
      let out := match select (contents right) right_set with
                 | Some v => bt_insert right v out
                 | None => out
                 end in
      match left_keys, right_keys with
      | l :: left_keys, r :: right_keys => intersect_loop right_set l left_keys r right_keys out
      | _, _ => out
      end
    else
      match NixString_cmp left right with
      | Lt => match left_keys with
              | [] => out
              | l :: left_keys => intersect_loop right_set l left_keys right right_keys out
              end
      | _ => match right_keys with
             | [] => out
             | r :: right_keys => go r right_keys out
             end
      end.

Definition intersect_attrs (left_set right_set : AttrsRep Value) : AttrsRep Value :=
  if attrs_is_empty left_set then Empty
  else if attrs_is_empty right_set then Empty
  else match keys left_set, keys right_set with
       | l :: left_keys, r :: right_keys => Map (intersect_loop right_set l left_keys r right_keys [])
       | _, _ => Empty
       end.

Definition builtin_intersect_attrs : list Value → Gen :=
  builtin2 strict_arg strict_arg (λ x y,
    let! x := try_value x in
    let! y := try_value y in
    let! left_set := get_attrs x in
    if attrs_is_empty left_set then ret_attrs Empty
    else let! right_set := get_attrs y in ret_attrs (intersect_attrs left_set right_set)).

Definition builtin_unsafe_get_attr_pos : list Value → Gen :=
  builtin2 strict_arg strict_arg (λ _ _,
    emit_warning_kind (B "builtins.unsafeGetAttrsPos")
      (ret_attrs (attrs_from_iter (prod_map plain_string id <$>
        [(B "line", VInteger 42); (B "column", VInteger 42);
         (B "file", VString (plain_string (B "/deep/thought")))])))).

(** ** Strings *)

(** [rfind_char] of an ASCII character *)
Fixpoint rfind_char (c : byte) (s : bytes) : option nat :=
  match s with
  | [] => None
  | b :: s =>
      match rfind_char c s with
      | Some i => Some (S i)
      | None => if decide (b = c) then Some 0 else None
      end
  end.

Definition weak : CoercionKind := mkCoercionKind false false.
Definition weak_import : CoercionKind := mkCoercionKind false true.

Definition base_name (s : bytes) : bytes :=
  match rfind_char Byte.x2f s with Some i => drop (S i) s | None => s end.

Definition builtin_base_name_of : list Value → Gen :=
  builtin1 strict_arg (λ s,
    let! s := coerced s weak in
    let! s := get_contextful_str s in
    GValue (VString (new_inherit_context_from s (base_name (contents s))))).

Definition dir_name (s : bytes) : bytes :=
  match rfind_char Byte.x2f s with
  | Some i => match take i s with [] => B "/" | x => x end
  | None => B "."
  end.

Definition builtin_dir_of : list Value → Gen :=
  builtin1 strict_arg (λ s,
    let! is_path := gtry (λ h, is_path h s) in
    let! s := coerced s weak in
    let! s := get_contextful_str s in
    let result := dir_name (contents s) in
    GValue (if is_path : bool then VPath result else VString (new_inherit_context_from s result))).

Definition take_into (ctx : NixContext) (s : NixString) : NixContext :=
  match context s with Some c => NixContext_extend ctx c | None => ctx end.

Definition builtin_concat_strings_sep : list Value → Gen :=
  builtin2 strict_arg strict_arg (λ separator list,
    let! separator := get_contextful_str separator in
    let! l := get_list list in
    gfor (λ val '(i, res, ctx) next,
        let res := if i =? 0 then res else res ++ contents separator in
        request_string_coerce val weak_import (λ r,
          match r with
          | inr s => next (S i, res ++ contents s, take_into ctx s)
          | inl c => GValue (VCatchable c)
          end))
      l (0, [], take_into NixContext_new separator)
      (λ '(_, res, ctx), GValue (VString (new_context_from ctx res)))).

Definition builtin_string_length : list Value → Gen :=
  builtin1 lazy_arg (λ s,
    let! s := coerced s weak_import in
    let! s := try_value s in
    let! s := get_contextful_str s in
    GValue (VInteger (Z.of_nat (length (contents s))))).

(** The end of the slice: [cmp::min(beg + (len as usize), x.len())] *)
Definition substring_of (beg len : Z) (x : bytes) : outcome ErrorKind bytes :=
  let n := Z.of_nat (length x) in
  if (beg <? 0)%Z then Err (IndexOutOfBounds beg)
  else if (n <=? beg)%Z then Ok []
  else
    let end_ := if (len <? 0)%Z then n else ((beg + len) `min` n)%Z in
    Ok (take (Z.to_nat (end_ - beg)) (drop (Z.to_nat beg) x)).

Definition builtin_substring : list Value → Gen :=
  builtin3 strict_arg strict_arg strict_arg (λ start len s,
    let! beg := get_int start in
    let! len := get_int len in
    let! x := coerced s weak_import in
    let! x := try_value x in
    let! x := get_contextful_str x in
    let! r := get (substring_of beg len (contents x)) in
    GValue (VString (new_inherit_context_from x r))).

Definition builtin_to_string : list Value → Gen :=
  builtin1 lazy_arg (λ x, coerced x (mkCoercionKind true false) GValue).

Definition coerce_value_to_path (v : Value) (k : CatchableErrorKind + bytes → Gen) : Gen :=
  let! value := request_force v in
  match value with
  | VPath p => k (inr p)
  | value =>
      request_string_coerce value weak (λ r,
        match r with
        | inr vs =>
            if starts_with (B "/") (contents vs) then k (inr (contents vs))
            else GErr (NotAnAbsolutePath (contents vs))
        | inl c => k (inl c)
        end)
  end.

Definition builtin_to_path : list Value → Gen :=
  builtin1 strict_arg (λ s,
    let! s := try_value s in
    let! r := coerce_value_to_path s in
    match r with
    | inl c => GValue (VCatchable c)
    | inr path => coerced (VPath (canon_path path)) weak GValue
    end).

Definition is_ascii_alphabetic (b : byte) : bool :=
  ((0x41 <=? b2z b) && (b2z b <=? 0x5a) || (0x61 <=? b2z b) && (b2z b <=? 0x7a))%Z.

(** The first dash that something other than a letter follows. *)
Fixpoint version_dash (s : bytes) : option nat :=
  match s with
  | b :: ((c1 :: _) as s') =>
      if bool_decide (b = Byte.x2d) && negb (is_ascii_alphabetic c1) then Some 0
      else S <$> version_dash s'
  | _ => None
  end.

Definition split_drv_name (s : bytes) : bytes * bytes :=
  let idx := default (length s) (version_dash s) in
  (take idx s, match drop idx s with [] => [] | _ :: version => version end).

Definition utf8_or (e : ErrorKind) (s : bytes) : outcome ErrorKind bytes :=
  if utf8_valid s then Ok s else Err e.
Definition FromUtf8Error : ErrorKind :=
  NotImplemented (B "FromUtf8Error not handled: https://b.tvl.fyi/issues/189").

Definition builtin_parse_drv_name : list Value → Gen :=
  builtin1 strict_arg (λ s,
    let! s := try_value s in
    let! s := get_str s in
    let '(name, version) := split_drv_name (contents s) in
    let! version := get (utf8_or FromUtf8Error version) in
    let! name := get (utf8_or FromUtf8Error name) in
    ret_attrs (attrs_from_iter
      [(plain_string (B "name"), VString (plain_string name));
       (plain_string (B "version"), VString (plain_string version))])).

(** *** [replaceStrings] *)

(** The [for] over the pairs: the first [from] that the string goes on with at
    [i], the empty one only if it was not applied just before. *)
Fixpoint replace_match (h : Heap) (pairs : list (Value * Value)) (string : bytes) (i : nat) (empty_done : bool)
    : outcome ErrorKind (option (NixString * NixString)) :=
  match pairs with
  | [] => Ok None
  | (f, t) :: pairs =>
      let? from := to_contextful_str h f in
      let? to := to_contextful_str h t in
      if length string <? i + length (contents from) then replace_match h pairs string i empty_done
      else if empty_done && bool_decide (contents from = []) then replace_match h pairs string i empty_done
      else if bool_decide (take (length (contents from)) (drop i string) = contents from) then Ok (Some (from, to))
      else replace_match h pairs string i empty_done
  end.

(** The loop ['outer]: a turn advances, or applies an empty [from] once. *)
Fixpoint replace_loop (fuel : nat) (h : Heap) (pairs : list (Value * Value)) (string : bytes) (i : nat)
    (empty_done : bool) (res : bytes) (ctx : NixContext) : option (outcome ErrorKind (bytes * NixContext)) :=
  match fuel with
  | 0 => None
  | S fuel =>
      if length string <=? i then Some (Ok (res, ctx))
      else
        match replace_match h pairs string i empty_done with
        | Ok (Some (from, to)) =>
            replace_loop fuel h pairs string (i + length (contents from)) (bool_decide (contents from = []))
              (res ++ contents to) (take_into ctx to)
        | Ok None => replace_loop fuel h pairs string (i + 1) false (res ++ take 1 (drop i string)) ctx
        | Err e => Some (Err e)
        | Panic => Some Panic
        end
  end.

(** At the end of the string the first empty [from] applies. *)
Fixpoint replace_end (h : Heap) (pairs : list (Value * Value)) (res : bytes) (ctx : NixContext)
    : outcome ErrorKind (bytes * NixContext) :=
  match pairs with
  | [] => Ok (res, ctx)
  | (f, t) :: pairs =>
      let? from := to_contextful_str h f in
      let? to := to_contextful_str h t in
      if bool_decide (contents from = []) then Ok (res ++ contents to, take_into ctx to)
      else replace_end h pairs res ctx
  end.

Definition replace_strings (h : Heap) (from to : list Value) (string : NixString) : outcome ErrorKind NixString :=
  let s := contents string in
  let pairs := zip from to in
  match replace_loop (2 * length s + 1) h pairs s 0 false [] (take_into NixContext_new string) with
  | None => Panic
  | Some r =>
      let? (res, ctx) := r in
      let? (res, ctx) := replace_end h pairs res ctx in
      Ok (new_context_from ctx res)
  end.

Definition force_all (l : list Value) (k : Gen) : Gen :=
  gfor (λ val _ next, let! v := request_force val in let! _ := try_value v in next tt) l tt (λ _, k).

Definition builtin_replace_strings : list Value → Gen :=
  builtin3 strict_arg strict_arg strict_arg (λ from to s,
    let! from := get_list from in
    force_all from (
    let! to := get_list to in
    force_all to (
    let! string := get_contextful_str s in
    let! r := gtry (λ h, replace_strings h from to string) in
    GValue (VString r)))).

(** *** Versions and hashes *)

(** The iterators' fuel always suffices. *)
Definition ran {A} (r : option (outcome ErrorKind A)) : outcome ErrorKind A := default Panic r.

Definition builtin_compare_versions : list Value → Gen :=
  builtin2 strict_arg strict_arg (λ x y,
    let! s1 := get_str x in
    let! s2 := get_str y in
    let! z := get (ran (compare_versions (contents s1) (contents s2))) in
    GValue (VInteger z)).

Definition builtin_split_version : list Value → Gen :=
  builtin1 strict_arg (λ s,
    let! s := try_value s in
    let! s := get_str s in
    let! parts := get (ran (split_version (contents s))) in
    ret_list ((λ p, VString (plain_string p)) <$> parts)).

Definition hash_nix_string (algo s : bytes) : outcome ErrorKind bytes :=
  if decide (algo = B "md5") then Ok (HEXLOWER_encode (md5 s))
  else if decide (algo = B "sha1") then Ok (HEXLOWER_encode (sha1 s))
  else if decide (algo = B "sha256") then Ok (HEXLOWER_encode (sha256 s))
  else if decide (algo = B "sha512") then Ok (HEXLOWER_encode (sha512 s))
  else Err (UnknownHashType algo).

Definition builtin_hash_string : list Value → Gen :=
  builtin2 strict_arg strict_arg (λ algo s,
    let! algo := get_str algo in
    let! s := get_str s in
    let! r := get (hash_nix_string (contents algo) (contents s)) in
    GValue (VString (plain_string r))).

(** *** Regular expressions *)

(** [Regex::new(re).unwrap()] *)
Definition regex_new (re : bytes) : outcome ErrorKind bytes := if regex_valid re then Ok re else Panic.

Definition builtin_match : list Value → Gen :=
  builtin2 strict_arg strict_arg (λ regex str,
    let! s := try_value str in
    let! s := get_contextful_str s in
    let! re := try_value regex in
    let! re := get_str re in
    let! re := get (utf8_or Utf8 (contents re)) in
    let! re := get (regex_new (B "^" ++ re ++ B "$")) in
    let! text := get (utf8_or Utf8 (contents s)) in
    match captures_read_at re text 0 with
    | None => GValue VNull
    | Some (_, _, groups) =>
        gfor (λ g vs next,
            match g with
            | None => next (vs ++ [VNull])
            | Some (lo, hi) => let! t := get (str_slice text lo hi) in next (vs ++ [VString (plain_string t)])
            end)
          groups [] ret_list
    end).

Definition builtin_split : list Value → Gen :=
  builtin2 strict_arg strict_arg (λ regex str,
    let! str := try_value str in
    let! regex := try_value regex in
    let! s := get_contextful_str str in
    let! _ := get (utf8_or Utf8 (contents s)) in
    let! re := get_str regex in
    let! re := get (utf8_or Utf8 (contents re)) in
    let! re := get (regex_new re) in
    gloop (LSplit re s 0 [])).

(** ** Contexts *)

Definition builtin_hasContext : list Value → Gen :=
  builtin1 strict_arg (λ e,
    let! e := try_value e in
    let! v := get_contextful_str e in
    ret_bool (has_context v)).

#[global] Instance bytes_le_dec (a b : NixString) : Decision (NixString_cmp a b ≠ Gt).
Proof. apply _. Defined.

(** The attributes of the elements that refer to [key]. *)
Definition context_outputs (key : bytes) (c : NixContext) : list NixString :=
  omap (λ e, match e with
             | SingleOutput name derivation => if decide (derivation = key) then Some (plain_string name) else None
             | _ => None
             end) (elements c).

Definition context_group (key : bytes) (c : NixContext) (k : Value → Gen) : Gen :=
  let outputs := context_outputs key c in
  let path := if bool_decide (Plain key ∈ c) then [(plain_string (B "path"), VBool true)] else [] in
  let all := if bool_decide (DerivationPath key ∈ c) then [(plain_string (B "allOutputs"), VBool true)] else [] in
  match outputs with
  | [] => new_attrs (attrs_from_iter (path ++ all)) k
  | _ =>
      let! l := new_list (VString <$> merge_sort (λ a b, NixString_cmp a b ≠ Gt) outputs) in
      new_attrs (attrs_from_iter (path ++ all ++ [(plain_string (B "outputs"), l)])) k
  end.

Definition builtin_getContext : list Value → Gen :=
  builtin1 strict_arg (λ e,
    let! e := try_value e in
    let! v := coerced e (mkCoercionKind true true) in
    let! s := get_contextful_str v in
    let c := default ∅ (context s) in
    gfor (λ key out next, let! v := context_group key c in next (out ++ [(plain_string key, v)]))
      (remove_dups (element_reference <$> elements c)) [] (λ out, ret_attrs (attrs_from_iter out))).

(** The elements one entry of the added context stands for. Nothing is forced. *)
Fixpoint single_outputs (h : Heap) (key : bytes) (l : list Value) : outcome ErrorKind NixContext :=
  match l with
  | [] => Ok ∅
  | output :: l =>
      let? o := to_str h output in
      let? c := single_outputs h key l in
      Ok ({[ SingleOutput (contents o) key ]} ∪ c)
  end.

Definition flag_element (h : Heap) (name : bytes) (e : NixContextElement) (a : AttrsRep Value)
    : outcome ErrorKind NixContext :=
  match select name a with
  | None => Ok ∅
  | Some v => let? b := as_bool h v in Ok (if b : bool then {[ e ]} else ∅)
  end.

Definition added_elements (h : Heap) (key : bytes) (v : Value) : outcome ErrorKind NixContext :=
  let? a := to_attrs h v in
  let? c1 := flag_element h (B "path") (Plain key) a.2 in
  let? c2 := flag_element h (B "allOutputs") (DerivationPath key) a.2 in
  let? c3 := match select (B "outputs") a.2 with
             | None => Ok ∅
             | Some v => let? l := to_list h v in single_outputs h key l.2
             end in
  Ok (c1 ∪ c2 ∪ c3).

Fixpoint all_added (h : Heap) (l : list (NixString * Value)) : outcome ErrorKind NixContext :=
  match l with
  | [] => Ok ∅
  | (k, v) :: l =>
      let? c := added_elements h (contents k) v in
      let? r := all_added h l in
      Ok (c ∪ r)
  end.

Definition builtin_appendContext : list Value → Gen :=
  builtin2 strict_arg strict_arg (λ origin added_context,
    let! origin := coerced origin (mkCoercionKind true true) in
    let! origin := get_contextful_str origin in
    let! added := get_attrs added_context in
    let! elems := gtry (λ h, all_added h (iter added)) in
    GValue (VString (mkNixString (contents origin)
      (match context origin with Some c => Some (NixContext_extend c elems) | None => None end)))).

Definition builtin_unsafe_discard_string_context : list Value → Gen :=
  builtin1 strict_arg (λ s,
    let! v := coerced s weak_import in
    let! v := get_contextful_str v in
    GValue (VString (take_context v).2)).

Definition discard_output (e : NixContextElement) : NixContextElement :=
  match e with DerivationPath drv_path => Plain drv_path | e => e end.

Definition builtin_unsafe_discard_output_dependency : list Value → Gen :=
  builtin1 strict_arg (λ s,
    let! v := coerced s weak_import in
    let! v := get_contextful_str v in
    GValue (VString
      (match take_context v with
       | (Some c, v) => new_context_from (NixContext_extend NixContext_new (set_map discard_output c)) (contents v)
       | (None, v) => v
       end))).

(** [builtins()] of the two modules: names, numbers of arguments, functions. *)
Definition pure_builtins : list (bytes * nat * (list Value → Gen)) :=
  [ (B "abort", 1, builtin_abort);
    (B "add", 2, builtin_add);
    (B "all", 2, builtin_all);
    (B "any", 2, builtin_any);
    (B "attrNames", 1, builtin_attr_names);
    (B "attrValues", 1, builtin_attr_values);
    (B "baseNameOf", 1, builtin_base_name_of);
    (B "bitAnd", 2, builtin_bit_and);
    (B "bitOr", 2, builtin_bit_or);
    (B "bitXor", 2, builtin_bit_xor);
    (B "catAttrs", 2, builtin_cat_attrs);
    (B "ceil", 1, builtin_ceil);
    (B "compareVersions", 2, builtin_compare_versions);
    (B "concatLists", 1, builtin_concat_lists);
    (B "concatMap", 2, builtin_concat_map);
    (B "concatStringsSep", 2, builtin_concat_strings_sep);
    (B "deepSeq", 2, builtin_deep_seq);
    (B "div", 2, builtin_div);
    (B "dirOf", 1, builtin_dir_of);
    (B "elem", 2, builtin_elem);
    (B "elemAt", 2, builtin_elem_at);
    (B "filter", 2, builtin_filter);
    (B "floor", 1, builtin_floor);
    (B "foldl'", 3, builtin_foldl);
    (B "functionArgs", 1, builtin_function_args);
    (B "genericClosure", 1, builtin_generic_closure);
    (B "genList", 2, builtin_gen_list);
    (B "getAttr", 2, builtin_get_attr);
    (B "groupBy", 2, builtin_group_by);
    (B "hasAttr", 2, builtin_has_attr);
    (B "hasContext", 1, builtin_hasContext);
    (B "getContext", 1, builtin_getContext);
    (B "appendContext", 2, builtin_appendContext);
    (B "hashString", 2, builtin_hash_string);
    (B "head", 1, builtin_head);
    (B "intersectAttrs", 2, builtin_intersect_attrs);
    (B "isAttrs", 1, builtin_is_attrs);
    (B "isBool", 1, builtin_is_bool);
    (B "isFloat", 1, builtin_is_float);
    (B "isFunction", 1, builtin_is_function);
    (B "isInt", 1, builtin_is_int);
    (B "isList", 1, builtin_is_list);
    (B "isNull", 1, builtin_is_null);
    (B "isPath", 1, builtin_is_path);
    (B "isString", 1, builtin_is_string);
    (B "length", 1, builtin_length);
    (B "lessThan", 2, builtin_less_than);
    (B "listToAttrs", 1, builtin_list_to_attrs);
    (B "map", 2, builtin_map);
    (B "mapAttrs", 2, builtin_map_attrs);
    (B "match", 2, builtin_match);
    (B "mul", 2, builtin_mul);
    (B "parseDrvName", 1, builtin_parse_drv_name);
    (B "partition", 2, builtin_partition);
    (B "removeAttrs", 2, builtin_remove_attrs);
    (B "replaceStrings", 3, builtin_replace_strings);
    (B "seq", 2, builtin_seq);
    (B "split", 2, builtin_split);
    (B "sort", 2, builtin_sort);
    (B "splitVersion", 1, builtin_split_version);
    (B "stringLength", 1, builtin_string_length);
    (B "sub", 2, builtin_sub);
    (B "substring", 3, builtin_substring);
    (B "tail", 1, builtin_tail);
    (B "throw", 1, builtin_throw);
    (B "toString", 1, builtin_to_string);
    (B "toPath", 1, builtin_to_path);
    (B "tryEval", 1, builtin_try_eval);
    (B "typeOf", 1, builtin_type_of);
    (B "unsafeDiscardStringContext", 1, builtin_unsafe_discard_string_context);
    (B "unsafeDiscardOutputDependency", 1, builtin_unsafe_discard_output_dependency);
    (B "addErrorContext", 2, builtin_add_error_context);
    (B "unsafeGetAttrPos", 2, builtin_unsafe_get_attr_pos) ].

(** The function of the builtin with that name. *)
Definition pure_builtin_func (name : bytes) (values : list Value) : Gen :=
  match list_find (λ b, b.1.1 = name) pure_builtins with
  | Some (_, b) => b.2 values
  | None => GPanic
  end.

(** The value of a builtin before it is applied. *)
Definition builtin_value (name : bytes) : option Value :=
  b ← list_find (λ b, b.1.1 = name) pure_builtins; Some (VBuiltin (mkBuiltin name b.2.1.2 [])).

End Builtins.

(** The machine with the pure builtins. *)
Definition with_builtins `{!Vu128, !BstrChars, !DataEncoding, !Digests} (dbg : bool) (env : EvalEnv) : EvalEnv := {|
  io_import_path := io_import_path;
  search_path_resolve := search_path_resolve;
  home_dir := home_dir;
  builtin_func := pure_builtin_func dbg;
  native_func := native_func;
  canon_path := canon_path;
  format_float_6 := format_float_6;
  env_regex := env_regex;
|}.
