(* ===== verification/BuiltinRuns.v ===== *)
(** * Runs of builtins

    How a builtin's generator runs on the machine: what a function value
    answers, how loops over lists unfold into folds, and the steps of casts,
    arguments and allocations. *)

From stdpp Require Import strings gmap relations.
From Stdlib Require Import FunctionalExtensionality.
From S2P Require Import Versions Prelude Crates BTreeMap NixString NixAttrs Bytecode Value Generators Vm VmSteps Builtins.
#[local] Open Scope nat_scope.

(** [m] followed by nothing is [m]. *)
Lemma gbind_done (g : Gen) : gbind g GDone = g.
Proof.
  induction g as [| | |r k IH|k IH|t r k IH|k IH|l k IH]; cbn; [done..| | | | |];
    f_equal; try done; extensionality x; apply IH.
Qed.

(** Forced, and no failure. *)
Definition proper (v : Value) : Prop := match v with VThunk _ | VCatchable _ => False | _ => True end.

Section Runs.
Context {varint : Vu128} {env : EvalEnv} {chars : BstrChars} {enc : DataEncoding} {digests : Digests}.
Context (dbg : bool).

(** What is known of the heap and of the next address. *)
Context (I : Heap → Addr → Prop).

(** Calling [f] and forcing what it returns gives [r]. *)
Definition answers (f : Value) (args : list Value) (r : Value) : Prop :=
  ∀ sp fs s ws H nx rs k, I H nx →
    ∃ H' nx' rs', I H' nx' ∧
      steps dbg (mkVM (FResumed sp (call_force dbg f args k) :: fs) s ws H nx rs)
        (mkVM (FResumed sp (k r) :: fs) s ws H' nx' rs').

Section Machine.
Context (sp : Span) (fs : list Frame) (s : list Value) (ws : list nat).

(** The machine at a generator. *)
Definition at_gen (g : Gen) (H : Heap) (nx : Addr) (rs : Span) : VM := mkVM (FResumed sp g :: fs) s ws H nx rs.

(** The generator runs to one with [Q]. *)
Definition runs (g : Gen) (Q : Gen → Prop) : Prop :=
  ∀ H nx rs, I H nx →
    ∃ g' H' nx' rs', Q g' ∧ I H' nx' ∧ steps dbg (at_gen g H nx rs) (at_gen g' H' nx' rs').

Lemma runs_here g (Q : Gen → Prop) : Q g → runs g Q.
Proof. intros HQ H nx rs HH. exists g, H, nx, rs. split_and!; [done..|constructor]. Qed.

Lemma runs_weaken g (P Q : Gen → Prop) : runs g P → (∀ g', P g' → Q g') → runs g Q.
Proof. intros HP HPQ H nx rs HH. destruct (HP H nx rs HH) as (g' & ?). exists g'. naive_solver. Qed.

(** A step that leaves the heap alone. *)
Lemma runs_step g g' Q :
  (∀ H nx rs, step dbg (at_gen g H nx rs) = Ok (inr (at_gen (g' H) H nx rs))) → (∀ H, runs (g' H) Q) → runs g Q.
Proof.
  intros Hs HQ H nx rs HH. destruct (HQ H H nx rs HH) as (g'' & H' & nx' & rs' & ? & ? & Hst).
  exists g'', H', nx', rs'. split_and!; [done..|]. eapply rtc_l; [apply Hs|done].
Qed.

Lemma runs_gtry {A} (f : Heap → outcome ErrorKind A) a k Q :
  (∀ h, f h = Ok a) → runs (k a) Q → runs (gtry f k) Q.
Proof.
  intros Hf Hk. apply (runs_step _ (λ h, match f h with Ok a => k a | Err e => GErr e | Panic => GPanic end));
    [reflexivity|]. intros h. by rewrite Hf.
Qed.

Lemma runs_alloc k Q : (∀ H nx, I H nx → I H (S nx)) → (∀ rc, runs (k rc) Q) → runs (GAlloc k) Q.
Proof.
  intros HI HQ H nx rs HH. destruct (HQ nx H (S nx) rs (HI _ _ HH)) as (g'' & H' & nx' & rs' & ? & ? & Hst).
  exists g'', H', nx', rs'. split_and!; [done..|]. eapply rtc_l; [reflexivity|done].
Qed.

Lemma runs_loop l Q : runs (loop_body dbg l) Q → runs (gloop l) Q.
Proof.
  intros Hl. apply (runs_step _ (λ _, loop_body dbg l)); [|done].
  intros H nx rs. cbn. by rewrite gbind_done.
Qed.

Lemma runs_call f args r k Q : answers f args r → runs (k r) Q → runs (call_force dbg f args k) Q.
Proof.
  intros Ha HQ H nx rs HH. destruct (Ha sp fs s ws H nx rs k HH) as (H' & nx' & rs' & HH' & S1).
  destruct (HQ H' nx' rs' HH') as (g'' & H'' & nx'' & rs'' & ? & ? & S2).
  exists g'', H'', nx'', rs''. split_and!; [done..|by etrans].
Qed.

Lemma runs_try v k Q : proper v → runs (k v) Q → runs (try_value v k) Q.
Proof.
  intros Hv HQ. eapply (runs_gtry _ false); [|done]. intros h. unfold is_catchable, is_.
  by destruct (size h), v.
Qed.

Lemma runs_strict v k Q : proper v → runs (k v) Q → runs (strict_arg v k) Q.
Proof. intros Hv HQ. destruct v; try done; by apply runs_try. Qed.

Lemma runs_bool b k Q : runs (k b) Q → runs (get_bool (VBool b) k) Q.
Proof. intros HQ. eapply runs_gtry; [|done]. intros h. unfold as_bool, cast. by destruct (size h). Qed.
Lemma runs_list rc l k Q : runs (k l) Q → runs (get_list (VList rc l) k) Q.
Proof. intros HQ. eapply (runs_gtry _ (rc, l)); [|done]. intros h. unfold to_list, cast. by destruct (size h). Qed.
Lemma runs_attrs rc a k Q : runs (k a) Q → runs (get_attrs (VAttrs rc a) k) Q.
Proof. intros HQ. eapply (runs_gtry _ (rc, a)); [|done]. intros h. unfold to_attrs, cast. by destruct (size h). Qed.

(** A loop whose turns all continue is a fold. *)
Lemma runs_gfor {A S} (f : A → S → (S → Gen) → Gen) (g : S → A → S) l (st : S) k Q :
  (∀ x st next, x ∈ l → runs (next (g st x)) Q → runs (f x st next) Q) →
  runs (k (foldl g st l)) Q → runs (gfor f l st k) Q.
Proof.
  intros Hf. revert st. induction l as [|x l IH]; intros st Hk; [done|]. cbn [gfor].
  apply Hf; [set_solver|]. apply IH; [|done]. intros y st' next Hy. apply Hf. set_solver.
Qed.

End Machine.
End Runs.

(** ** [builtins.lessThan] on integers *)

Section LessThan.
Context {varint : Vu128} {chars : BstrChars} {enc : DataEncoding} {digests : Digests} (base : EvalEnv).
Context (dbg : bool).

Definition less_than : Value := VBuiltin (mkBuiltin (B "lessThan") 2 []).
(** [builtins.lessThan a] *)
Definition above (a : Z) : Value := VBuiltin (mkBuiltin (B "lessThan") 2 [VInteger a]).

Ltac run_less_than E Hc :=
  repeat (first [rewrite Hc | eapply rtc_l; [reflexivity|]; vm_cbn |
    unfold loop_body, cmp_body, cmp_forced; rewrite E; vm_cbn]); constructor.

Lemma less_than_answers I a b :
  answers (env := with_builtins dbg base) dbg I less_than [VInteger a; VInteger b] (VBool (a <? b)%Z).
Proof.
  intros sp fs s ws H nx rs k HH. exists H, nx, sp. split; [done|].
  unfold call_force, request_call_with, Z.ltb. cbn [length Nat.eqb]. rewrite andb_false_r. cbn.
  assert (∀ z, is_catchable H (VInteger z) = Ok false) as Hc by (intros z; by rewrite scalar_is_catchable).
  destruct dbg, (a ?= b)%Z eqn:E; run_less_than E Hc.
Qed.

Lemma above_answers I a b :
  answers (env := with_builtins dbg base) dbg I (above a) [VInteger b] (VBool (a <? b)%Z).
Proof.
  intros sp fs s ws H nx rs k HH. exists H, nx, sp. split; [done|].
  unfold call_force, request_call_with, Z.ltb. cbn [length Nat.eqb]. rewrite andb_false_r. cbn.
  assert (∀ z, is_catchable H (VInteger z) = Ok false) as Hc by (intros z; by rewrite scalar_is_catchable).
  destruct dbg, (a ?= b)%Z eqn:E; run_less_than E Hc.
Qed.

Definition int_of (v : Value) : Z := match v with VInteger a => a | _ => 0%Z end.

End LessThan.

(** A machine to evaluate examples on. *)
Module TestMachine.

#[export] Instance no_chars : BstrChars := λ _, [].
#[export] Instance no_digests : Digests := {| md5 _ := []; sha1 _ := []; sha256 _ := []; sha512 _ := [] |}.
#[export] Instance hex : DataEncoding := Models.data_encoding.
Definition base : EvalEnv := {|
  io_import_path _ := Panic; search_path_resolve _ := Panic; home_dir := None; builtin_func _ _ := GPanic;
  native_func _ := Panic; canon_path p := p; format_float_6 _ := []; env_regex := literal_regex |}.
#[export] Instance test_env : EvalEnv := with_builtins (H := VarintModel.vu128) true base.

Definition here : Span := mkSpan 0 1.
Definition empty : Heap := ∅.
(** The generator on a machine with nothing else to do. *)
Definition machine (g : Gen) : VM := mkVM [FResumed here g] [] [] ∅ 1 here.

End TestMachine.
