(* ===== verification/BuiltinSort.v ===== *)
(** * [builtins.sort]

    The bubble sort of [builtins.sort] calls a comparator written in Nix. With
    any comparator that answers it ends with a permutation of the list; with
    one that is a strict weak order the result is sorted, and elements the
    comparator cannot tell apart keep their order. *)

From stdpp Require Import strings gmap sorting relations.
From S2P Require Import Versions Prelude Crates BTreeMap NixString NixAttrs Bytecode Value Generators Vm VmSteps Builtins BuiltinRuns.
#[local] Open Scope nat_scope.

(** ** One pass over a list *)

Section Bubble.
Context {A : Type} (lt : A → A → bool).
Implicit Types l P C : list A.

(** [P] has been passed over, [m] is its last element; [n] is the index of the
    last swap. *)
Fixpoint pass P (m : A) (l : list A) (n : nat) : list A * nat :=
  match l with
  | [] => (P ++ [m], n)
  | x :: l =>
      if lt x m then pass (P ++ [x]) m l (S (length P)) else pass (P ++ [m]) x l n
  end.

Lemma pass_perm P m l n : (pass P m l n).1 ≡ₚ P ++ m :: l.
Proof.
  revert P m n. induction l as [|x l IH]; intros P m n; [done|]. cbn [pass].
  destruct (lt x m); rewrite IH, <- app_assoc; cbn; [|done]. f_equiv. constructor.
Qed.

Lemma pass_index P m l n : n ≤ length P → (pass P m l n).2 ≤ length P + length l.
Proof.
  revert P m n. induction l as [|x l IH]; intros P m n Hn; [cbn; lia|]. cbn [pass].
  destruct (lt x m); (etrans; [apply IH|]); rewrite ?length_app; cbn; lia.
Qed.

Lemma swap_adjacent P (m x : A) l :
  <[S (length P) := m]> (<[S (length P) - 1 := x]> (P ++ m :: x :: l)) = P ++ x :: m :: l.
Proof.
  replace (S (length P) - 1) with (length P + 0) by lia.
  replace (S (length P)) with (length P + 1) by lia. by rewrite !insert_app_r.
Qed.

(** *** Strict weak orders *)

Definition le (x y : A) : Prop := lt y x = false.

Context (Hasym : ∀ x y, lt x y = true → lt y x = false).
Context (Hneg : ∀ x y z, lt x z = true → lt x y = true ∨ lt y z = true).

Lemma le_trans x y z : le x y → le y z → le x z.
Proof.
  unfold le. intros Hxy Hyz. apply not_true_is_false. intros Hzx.
  destruct (Hneg z y x Hzx); congruence.
Qed.

(** From index [n] on the list is sorted and above the rest. *)
Definition settled l (n : nat) : Prop :=
  StronglySorted le (drop n l) ∧ ∀ x y, x ∈ take n l → y ∈ drop n l → le x y.

Lemma settled_last P m n x : n ≤ length P → settled (P ++ [m]) n → x ∈ P ++ [m] → le x m ∨ x = m.
Proof.
  intros Hn [Hs Hb] Hx. rewrite <- (take_drop n (P ++ [m])) in Hx.
  rewrite drop_app_le in * by done. rewrite take_app_le in * by done.
  apply elem_of_app in Hx as [Hx|Hx]; [left; apply Hb; set_solver|].
  apply elem_of_app in Hx as [Hx|Hx%list_elem_of_singleton]; [left|by right].
  revert Hs Hx. clear. induction (drop n P) as [|y l IH]; intros Hs Hx; [set_solver|].
  cbn in Hs. apply StronglySorted_inv in Hs as [Hs Hy]. rewrite Forall_forall in Hy.
  apply elem_of_cons in Hx as [->|Hx]; [apply Hy; set_solver|by apply IH].
Qed.

Lemma StronglySorted_snoc l x : StronglySorted le l → (∀ y, y ∈ l → le y x) → StronglySorted le (l ++ [x]).
Proof.
  induction 1 as [|y l Hs IH Hy]; intros Hx; cbn; [repeat constructor|].
  constructor; [apply IH; set_solver|]. apply Forall_app. split; [done|].
  constructor; [apply Hx; set_solver|done].
Qed.

Lemma pass_settled P m l n :
  n ≤ length P → settled (P ++ [m]) n → settled (pass P m l n).1 (pass P m l n).2.
Proof.
  revert P m n. induction l as [|x l IH]; intros P m n Hn Hs; [done|]. cbn [pass].
  assert (∀ y, y ∈ P ++ [m] → le y m ∨ y = m) as Hm by (intros y; by apply (settled_last P m n)).
  destruct (lt x m) eqn:Hxm; apply IH; rewrite ?length_app; cbn; [lia| |lia|]; split.
  - rewrite drop_app_length' by (rewrite length_app; cbn; lia). repeat constructor.
  - rewrite take_app_length', drop_app_length' by (rewrite length_app; cbn; lia).
    intros a b Ha ->%list_elem_of_singleton. apply elem_of_app in Ha as [Ha| ->%list_elem_of_singleton].
    + destruct (Hm a) as [?| ->]; [set_solver|done|]. unfold le.
      destruct (lt m m) eqn:E; [|done]. by rewrite <- (Hasym m m E).
    + by apply Hasym.
  - assert (n ≤ length (P ++ [m])) by (rewrite length_app; cbn; lia).
    rewrite drop_app_le by done. apply StronglySorted_snoc; [apply Hs|].
    intros y Hy. assert (y ∈ P ++ [m]) as Hy' by (rewrite <- (take_drop n (P ++ [m])); set_solver).
    destruct (Hm y Hy') as [?| ->]; [by apply (le_trans _ m)|done].
  - assert (n ≤ length (P ++ [m])) by (rewrite length_app; cbn; lia).
    rewrite drop_app_le, take_app_le by done. intros a b Ha Hb.
    apply elem_of_app in Hb as [Hb| ->%list_elem_of_singleton]; [by apply Hs|].
    assert (a ∈ P ++ [m]) as Ha' by (rewrite <- (take_drop n (P ++ [m])); set_solver).
    destruct (Hm a Ha') as [?| ->]; [by apply (le_trans _ m)|done].
Qed.

(** *** Stability *)

Definition alike (x y : A) : bool := negb (lt x y) && negb (lt y x).

Lemma alike_swap z x m : lt x m = true → alike z x = true → alike z m = false.
Proof.
  unfold alike. intros Hxm [Hzx Hxz]%andb_prop. apply negb_true_iff in Hzx, Hxz.
  destruct (Hneg x z m Hxm) as [?|Hzm]; [congruence|]. by rewrite Hzm.
Qed.

Lemma pass_stable z P m l n :
  filter (λ x, alike z x = true) (pass P m l n).1 = filter (λ x, alike z x = true) (P ++ m :: l).
Proof.
  revert P m n. induction l as [|x l IH]; intros P m n; [done|]. cbn [pass].
  destruct (lt x m) eqn:E; rewrite IH, <- app_assoc; cbn; [|done].
  rewrite !filter_app. f_equal. rewrite !filter_cons.
  destruct (decide (alike z x = true)) as [Hx|Hx], (decide (alike z m = true)) as [Hm|Hm]; try done.
  by rewrite (alike_swap z x m E Hx) in Hm.
Qed.

End Bubble.

(** ** The machine *)

Section Sort.
Context {varint : Vu128} {env : EvalEnv} {chars : BstrChars} {enc : DataEncoding} {digests : Digests}.
Context (dbg : bool) (I : Heap → Addr → Prop) (HI : ∀ H nx, I H nx → I H (S nx)).
Context (sp : Span) (fs : list Frame) (s : list Value) (ws : list nat).
Context (comparator : Value) (lt : Value → Value → bool).

Abbreviation runs := (runs dbg I sp fs s ws).

(** The list is the values passed to the comparator. *)
Definition decides (l : list Value) : Prop :=
  ∀ x y, x ∈ l → y ∈ l → answers dbg I comparator [x; y] (VBool (lt x y)).

Lemma sort_turn_runs P m x l n next Q :
  answers dbg I comparator [x; m] (VBool (lt x m)) →
  runs (next (if lt x m then (P ++ x :: m :: l, S (length P)) else (P ++ m :: x :: l, n))) Q →
  runs (sort_turn dbg comparator (S (length P)) (P ++ m :: x :: l, n) next) Q.
Proof.
  intros Ha HQ. unfold sort_turn.
  assert ((P ++ m :: x :: l) !! S (length P) = Some x) as ->.
  { rewrite lookup_app_r by lia. by replace (S (length P) - length P) with 1 by lia. }
  assert ((P ++ m :: x :: l) !! (S (length P) - 1) = Some m) as ->.
  { rewrite lookup_app_r by lia. by replace (S (length P) - 1 - length P) with 0 by lia. }
  eapply runs_call in Ha; [exact Ha|]. apply runs_try; [done|].
  eapply (runs_gtry _ _ _ _ _ _ _ (lt x m)); [intros h; unfold as_bool, cast; by destruct (size h)|].
  destruct (lt x m); [|done]. by rewrite swap_adjacent.
Qed.

Lemma sort_pass P m l C n k Q :
  decides (P ++ m :: l) →
  runs (k ((pass lt P m l n).1 ++ C, (pass lt P m l n).2)) Q →
  runs (gfor (sort_turn dbg comparator) (seq (S (length P)) (length l)) (P ++ m :: l ++ C, n) k) Q.
Proof.
  revert P m n. induction l as [|x l IH]; intros P m n Hd HQ; [cbn in HQ; by rewrite <- app_assoc in HQ|].
  cbn [pass] in HQ. rewrite <- app_comm_cons. cbn [length seq gfor]. apply sort_turn_runs; [apply Hd; set_solver|].
  destruct (lt x m).
  - replace (S (S (length P))) with (S (length (P ++ [x]))) by (rewrite length_app; cbn; lia).
    replace (P ++ x :: m :: l ++ C) with ((P ++ [x]) ++ m :: l ++ C) by by rewrite <- app_assoc.
    apply IH; [|done]. intros a b Ha Hb. apply Hd; set_solver.
  - replace (S (S (length P))) with (S (length (P ++ [m]))) by (rewrite length_app; cbn; lia).
    replace (P ++ m :: x :: l ++ C) with ((P ++ [m]) ++ x :: l ++ C) by by rewrite <- app_assoc.
    apply IH; [|done]. intros a b Ha Hb. apply Hd; set_solver.
Qed.

(** What the sorted list is to the list. *)
Definition strict_weak_order : Prop :=
  (∀ x y, lt x y = true → lt y x = false) ∧ (∀ x y z, lt x z = true → lt x y = true ∨ lt y z = true).

Definition stably_sorted (l l' : list Value) : Prop :=
  StronglySorted (λ x y, lt y x = false) l' ∧
  ∀ z, filter (λ x, alike lt z x = true) l' = filter (λ x, alike lt z x = true) l.

(** [data] has been sorted from [len] on. *)
Definition sorting (l data : list Value) (len : nat) : Prop :=
  data ≡ₚ l ∧ len ≤ length data ∧
  (strict_weak_order → settled lt data len ∧
     ∀ z, filter (λ x, alike lt z x = true) data = filter (λ x, alike lt z x = true) l).

Lemma settled_pass P C n :
  (∀ x y z, lt x z = true → lt x y = true ∨ lt y z = true) →
  n ≤ length P → settled lt P n → StronglySorted (le lt) C → (∀ x y, x ∈ P → y ∈ C → le lt x y) →
  settled lt (P ++ C) n.
Proof.
  intros Hneg Hn [Hs Hb] HC HPC. split; rewrite drop_app_le by done.
  - assert (∀ x y, x ∈ drop n P → y ∈ C → le lt x y) as HD.
    { intros x y Hx. apply HPC. rewrite <- (take_drop n P). set_solver. }
    revert Hs HD. clear -HC. induction (drop n P) as [|x l IH]; intros Hs HD; [done|].
    apply StronglySorted_inv in Hs as [Hs Hx]. cbn. constructor; [apply IH; set_solver|].
    apply Forall_app. split; [done|]. apply Forall_forall. intros y. apply HD. set_solver.
  - rewrite take_app_le by done. intros x y Hx Hy.
    apply elem_of_app in Hy as [Hy|Hy]; [by apply Hb|]. apply HPC; [|done].
    rewrite <- (take_drop n P). set_solver.
Qed.

Lemma sorting_pass l m P C :
  sorting l (m :: P ++ C) (S (length P)) →
  let r := pass lt [] m P 0 in r.2 ≤ length P ∧ sorting l (r.1 ++ C) r.2.
Proof.
  intros (Hp & _ & Hw) r.
  assert (r.2 ≤ length P) as Hr by by apply (pass_index lt [] m P 0).
  assert (r.1 ≡ₚ m :: P) as Hperm by apply (pass_perm lt [] m P 0).
  split; [done|]. split_and!.
  - rewrite Hperm. by rewrite <- Hp.
  - rewrite length_app, Hperm. cbn. lia.
  - intros Ho. destruct (Hw Ho) as [[HsC HbC] Hst], Ho as [Hasym Hneg].
    cbn [drop take] in HsC, HbC. rewrite drop_app_length in HsC. rewrite take_app_length, drop_app_length in HbC.
    split.
    + apply settled_pass; [done|rewrite Hperm; cbn; lia| |done|].
      * apply pass_settled; [done|done|cbn; lia|]. split; [repeat constructor|set_solver].
      * intros x y. rewrite Hperm. apply HbC.
    + intros z. rewrite <- Hst, filter_app. unfold r.
      by rewrite (pass_stable lt Hneg z [] m P 0), <- filter_app.
Qed.

Lemma sort_loop l data len :
  decides l → sorting l data len →
  runs (gloop (LSort comparator data len))
    (λ g, ∃ rc l', g = GValue (VList rc l') ∧ l' ≡ₚ l ∧ (strict_weak_order → stably_sorted l l')).
Proof.
  intros Hd. revert data. induction (lt_wf len) as [len _ IH]. intros data Hs. apply runs_loop.
  cbn [loop_body]. unfold sort_body.
  destruct len as [|len].
  { cbn. apply runs_alloc; [done|]. intros rc. apply runs_here. destruct Hs as (Hp & _ & Hw).
    exists rc, data. split_and!; [done..|]. intros Ho. destruct (Hw Ho) as [[Hs _] Hst]. done. }
  assert (∃ m P C, data = m :: P ++ C ∧ length P = len) as (m & P & C & -> & <-).
  { destruct Hs as (_ & Hl & _). destruct data as [|m data]; [cbn in Hl; lia|].
    exists m, (take len data), (drop len data). rewrite take_drop. split; [done|].
    cbn in Hl. rewrite length_take. lia. }
  destruct (sorting_pass _ _ _ _ Hs) as [Hr Hs'].
  replace (S (length P) - 1) with (length P) by lia.
  refine (sort_pass [] m P C 0 _ _ _ _).
  { intros x y Hx Hy. destruct Hs as (Hp & _). apply Hd; rewrite <- Hp; set_solver. }
  cbn [fst snd]. destruct (_ =? 0) eqn:E.
  - apply Nat.eqb_eq in E. rewrite E in Hs'. apply runs_alloc; [done|]. intros rc. apply runs_here.
    destruct Hs' as (Hp & _ & Hw). exists rc, ((pass lt [] m P 0).1 ++ C). split_and!; [done..|].
    intros Ho. destruct (Hw Ho) as [[Hs' _] Hst]. done.
  - apply IH; [lia|done].
Qed.

End Sort.

(** C36: [builtins.sort] ends for every comparator that answers with a boolean,
    with a new list that is a permutation of the list; if the comparator is a
    strict weak order the result is sorted, and elements that it does not
    tell apart keep their order. *)
Theorem sort_stable `{Vu128, EvalEnv, BstrChars, DataEncoding, Digests} (dbg : bool) (I : Heap → Addr → Prop)
    (sp : Span) (fs : list Frame) (s : list Value) (ws : list nat)
    (comparator : Value) (lt : Value → Value → bool) (rc : Addr) (l : list Value) :
  (∀ H nx, I H nx → I H (S nx)) → proper comparator → decides dbg I comparator lt l →
  runs dbg I sp fs s ws (builtin_sort [comparator; VList rc l])
    (λ g, ∃ rc' l', g = GValue (VList rc' l') ∧ l' ≡ₚ l ∧ (strict_weak_order lt → stably_sorted lt l l')).
Proof.
  intros HI Hc Hd. apply runs_strict; [done|]. apply runs_strict; [done|]. apply runs_list.
  apply sort_loop; [done..|]. split_and!; [done|done|]. intros _.
  split; [|done]. split; rewrite drop_ge by done; [constructor|set_solver].
Qed.

(** ** With [builtins.lessThan] on integers *)

Section LessThan.
Context {varint : Vu128} {chars : BstrChars} {enc : DataEncoding} {digests : Digests} (base : EvalEnv).
Context (dbg : bool).

Definition int_lt (x y : Value) : bool := (int_of x <? int_of y)%Z.

Lemma int_lt_order : strict_weak_order int_lt.
Proof. unfold int_lt. split; [intros x y|intros x y z]; lia. Qed.
Lemma less_than_decides I (zs : list Z) :
  decides (env := with_builtins dbg base) dbg I less_than int_lt (VInteger <$> zs).
Proof.
  intros x y (a & -> & _)%list_elem_of_fmap (b & -> & _)%list_elem_of_fmap. apply less_than_answers.
Qed.

End LessThan.

(** ** Examples *)

Module Examples.
Import VarintModel TestMachine.

Lemma sort_stable_witness :
  runs true (λ _ _, True) here [] [] []
    (builtin_sort [less_than; VList 0 (VInteger <$> [3; 1; 2]%Z)])
    (λ g, ∃ rc' l', g = GValue (VList rc' l') ∧ l' ≡ₚ (VInteger <$> [3; 1; 2]%Z) ∧
       (strict_weak_order int_lt → stably_sorted int_lt (VInteger <$> [3; 1; 2]%Z) l')).
Proof.
  apply (sort_stable true (λ _ _, True) here [] [] [] less_than int_lt 0
           (VInteger <$> [3; 1; 2]%Z)); [done|done|apply less_than_decides].
Defined.

(** The machine computes it. *)
Example sort_computes :
  run true 200 (machine (builtin_sort [less_than; VList 0 (VInteger <$> [3; 1; 2]%Z)])) =
    Some (Ok (VList 1 (VInteger <$> [1; 2; 3]%Z))).
Proof. vm_compute. reflexivity. Qed.

End Examples.
