(* ===== verification/BuiltinSpecs.v ===== *)
(** * What the builtins compute

    Builtins on lists, sets and strings against the functions they stand for,
    and the inputs on which they panic, loop or drop information. *)

From stdpp Require Import strings gmap sorting relations.
From S2P Require Import Versions Prelude Crates BTreeMap Aterm NixString NixAttrs Bytecode Value Generators Vm VmSteps.
From S2P Require Import Builtins BuiltinRuns.
#[local] Open Scope nat_scope.

(** ** [intersectAttrs] *)

Section Intersect.
Implicit Types k : bytes.

Definition key_lt (a b : NixString) : Prop := rcmp a b = Lt.

Lemma key_lt_ne a b : key_lt a b → contents a ≠ contents b.
Proof. intros Hab E. apply NixString_cmp_eq in E. unfold key_lt in Hab. congruence. Qed.

(** Keys of both, looked up on the right. *)
Definition meet (right_set : AttrsRep Value) (ls rs : list NixString) (out : gmap bytes Value) k : option Value :=
  if decide (k ∈ contents <$> ls ∧ k ∈ contents <$> rs)
  then match select k right_set with Some v => Some v | None => out !! k end
  else out !! k.

Lemma meet_drop_left right_set l ls rs out k :
  contents l ∉ contents <$> rs → meet right_set (l :: ls) rs out k = meet right_set ls rs out k.
Proof.
  intros Hl. unfold meet. destruct (decide (k ∈ contents <$> ls ∧ k ∈ contents <$> rs)) as [?|Hn].
  - by rewrite decide_True by set_solver.
  - by rewrite decide_False by set_solver.
Qed.
Lemma meet_drop_right right_set ls r rs out k :
  contents r ∉ contents <$> ls → meet right_set ls (r :: rs) out k = meet right_set ls rs out k.
Proof.
  intros Hl. unfold meet. destruct (decide (k ∈ contents <$> ls ∧ k ∈ contents <$> rs)) as [?|Hn].
  - by rewrite decide_True by set_solver.
  - by rewrite decide_False by set_solver.
Qed.

Lemma sorted_below l r rs :
  key_lt l r → StronglySorted key_lt (r :: rs) → contents l ∉ contents <$> (r :: rs).
Proof.
  intros Hlr Hs (x & Hx & Hin)%list_elem_of_fmap. apply (key_lt_ne l x); [|done].
  apply elem_of_cons in Hin as [->|Hin]; [done|]. apply StronglySorted_inv in Hs as [_ Hs].
  rewrite Forall_forall in Hs. eapply rcmp_lt_trans; [done|by apply Hs].
Qed.

Lemma sorted_fresh_head x l : StronglySorted key_lt (x :: l) → contents x ∉ contents <$> l.
Proof.
  intros [_ Hx]%StronglySorted_inv (y & Hy & Hin)%list_elem_of_fmap.
  rewrite Forall_forall in Hx. by apply (key_lt_ne x y); [apply Hx|].
Qed.

Lemma meet_equal right_set l ls r rs out k :
  contents l = contents r → StronglySorted key_lt (l :: ls) → StronglySorted key_lt (r :: rs) →
  meet right_set (l :: ls) (r :: rs) (map_of out) k =
  meet right_set ls rs (map_of (match select (contents r) right_set with
                                | Some v => bt_insert r v out | None => out end)) k.
Proof.
  intros E Hl%sorted_fresh_head Hr%sorted_fresh_head. unfold meet. cbn [fmap list_fmap].
  destruct (decide (k = contents r)) as [->|Hk].
  - rewrite decide_True by set_solver. rewrite (decide_False (P := _ ∧ _)) by set_solver.
    destruct (select (contents r) right_set) eqn:Es; [|done]. rewrite map_of_insert. by simplify_map_eq.
  - assert (map_of (match select (contents r) right_set with Some v => bt_insert r v out | None => out end) !! k
              = map_of out !! k) as ->.
    { destruct (select _ _); [|done]. rewrite map_of_insert. by simplify_map_eq. }
    destruct (decide (k ∈ contents <$> ls ∧ k ∈ contents <$> rs)) as [?|Hn].
    + rewrite decide_True by set_solver. done.
    + rewrite decide_False by (rewrite E; set_solver). done.
Qed.

Lemma meet_nil_l right_set rs out k : meet right_set [] rs out k = out !! k.
Proof. unfold meet. by rewrite decide_False by set_solver. Qed.
Lemma meet_nil_r right_set ls out k : meet right_set ls [] out k = out !! k.
Proof. unfold meet. by rewrite decide_False by set_solver. Qed.

(** One turn of the loop when the keys differ. *)
Lemma meet_step right_set l ls r rs out k :
  contents l ≠ contents r → StronglySorted key_lt (l :: ls) → StronglySorted key_lt (r :: rs) →
  meet right_set (l :: ls) (r :: rs) out k =
    match NixString_cmp l r with Lt => meet right_set ls (r :: rs) out k | _ => meet right_set (l :: ls) rs out k end.
Proof.
  intros E Hl Hr. destruct (NixString_cmp l r) eqn:C.
  - by apply NixString_cmp_eq in C.
  - apply meet_drop_left. by apply sorted_below.
  - apply meet_drop_right. apply sorted_below; [|done]. unfold key_lt. rewrite (rcmp_antisym l r).
    change (rcmp l r) with (NixString_cmp l r). by rewrite C.
Qed.

Lemma intersect_loop_meet right_set ls : ∀ l rs r out k,
  StronglySorted key_lt (l :: ls) → StronglySorted key_lt (r :: rs) →
  map_of (intersect_loop right_set l ls r rs out) !! k = meet right_set (l :: ls) (r :: rs) (map_of out) k.
Proof.
  induction ls as [|l' ls IHl]; intros l rs; induction rs as [|r' rs IHr]; intros r out k Hl Hr; cbn [intersect_loop];
    unfold NixString_eqb;
    (destruct (bool_decide_reflect (contents l = contents r)) as [E|E];
      [rewrite (meet_equal right_set l _ r _ out k E Hl Hr), ?meet_nil_l, ?meet_nil_r; try done;
       try (apply IHl; by eapply StronglySorted_inv)
      |rewrite (meet_step right_set l _ r _ (map_of out) k E Hl Hr);
       destruct (NixString_cmp l r); rewrite ?meet_nil_l, ?meet_nil_r; try done;
       first [apply IHl|apply IHr]; try done; by eapply StronglySorted_inv]).
Qed.

Lemma intersect_loop_sorted right_set ls : ∀ l rs r out,
  bt_sorted out → bt_sorted (intersect_loop right_set l ls r rs out).
Proof.
  induction ls as [|l' ls IHl]; intros l rs; induction rs as [|r' rs IHr]; intros r out Hs; cbn [intersect_loop];
    repeat case_match; try first [apply IHl|apply IHr]; try done; by apply bt_insert_sorted.
Qed.

Lemma keys_sorted (a : AttrsRep Value) : attrs_wf a → StronglySorted key_lt (keys a).
Proof.
  rewrite keys_iter. unfold attrs_wf, bt_sorted. induction 1 as [|x m Hm IH Hx]; cbn; constructor; [done|].
  apply Forall_fmap. by eapply Forall_impl.
Qed.

Lemma elem_of_keys k (a : AttrsRep Value) : k ∈ contents <$> keys a ↔ is_Some (select k a).
Proof.
  rewrite select_spec, keys_iter. unfold to_map. generalize (iter a). intros m.
  induction m as [|x m IH]; [rewrite map_of_nil, lookup_empty; split; [set_solver|by intros []]|].
  rewrite map_of_cons. cbn [fmap list_fmap]. rewrite elem_of_cons, IH, lookup_insert_is_Some.
  destruct (decide (contents x.1 = k)); naive_solver.
Qed.

Lemma intersect_attrs_wf (a b : AttrsRep Value) : attrs_wf (intersect_attrs a b).
Proof.
  unfold intersect_attrs. repeat case_match; try constructor. apply intersect_loop_sorted. constructor.
Qed.

Lemma intersect_attrs_select k (a b : AttrsRep Value) :
  attrs_wf a → attrs_wf b →
  select k (intersect_attrs a b) = if contains k a then select k b else None.
Proof.
  intros Ha%keys_sorted Hb%keys_sorted. unfold intersect_attrs.
  pose proof (elem_of_keys k a) as Hka. pose proof (elem_of_keys k b) as Hkb.
  rewrite contains_spec, <- select_spec.
  assert (∀ x : AttrsRep Value, attrs_is_empty x = true ↔ keys x = []) as He.
  { intros [|[]|]; cbn; naive_solver. }
  destruct (attrs_is_empty a) eqn:Ea.
  { apply He in Ea. rewrite Ea in Hka. case_bool_decide as Hs; [|done]. apply Hka in Hs. set_solver. }
  destruct (attrs_is_empty b) eqn:Eb.
  { apply He in Eb. rewrite Eb in Hkb. case_bool_decide; [|done].
    destruct (select k b) eqn:E; [|done]. destruct Hkb as [_ Hkb]. specialize (Hkb ltac:(done)). set_solver. }
  destruct (keys a) as [|l ls] eqn:Eka; [by apply He in Eka; congruence|].
  destruct (keys b) as [|r rs] eqn:Ekb; [by apply He in Ekb; congruence|].
  cbn [select]. rewrite <- map_of_lookup, intersect_loop_meet by done. unfold meet. rewrite map_of_nil, lookup_empty.
  case_bool_decide as Hs; case_decide as Hd.
  - by destruct (select k b).
  - destruct (select k b) eqn:E; [|done]. exfalso. apply Hd. rewrite Hka, Hkb. done.
  - rewrite Hka in Hd. naive_solver.
  - done.
Qed.

End Intersect.

(** ** Lists *)

Section Lists.
Context {varint : Vu128} {env : EvalEnv} {chars : BstrChars} {enc : DataEncoding} {digests : Digests}.
Context (dbg : bool) (I : Heap → Addr → Prop) (HI : ∀ H nx, I H nx → I H (S nx)).
Context (sp : Span) (fs : list Frame) (s : list Value) (ws : list nat).

Abbreviation runs := (runs dbg I sp fs s ws).

(** [f] is a predicate on the elements. *)
Definition tests (f : Value) (p : Value → bool) (l : list Value) : Prop :=
  ∀ x, x ∈ l → answers dbg I f [x] (VBool (p x)).

Lemma runs_test f p l x k Q :
  tests f p l → x ∈ l → runs (k (p x)) Q →
  runs (let! r := call_force dbg f [x] in let! r := try_value r in get_bool r k) Q.
Proof.
  intros Hf Hx HQ. eapply runs_call; [by apply Hf|]. apply runs_try; [done|]. by apply runs_bool.
Qed.

Lemma runs_new_list l k Q : (∀ rc, runs (k (VList rc l)) Q) → runs (new_list l k) Q.
Proof. by apply runs_alloc. Qed.

Lemma runs_all f p rc l :
  proper f → tests f p l →
  runs (builtin_all dbg [f; VList rc l]) (λ g, g = GValue (VBool (forallb p l))).
Proof.
  intros Hp Hf. do 2 (apply runs_strict; [done|]). apply runs_list.
  induction l as [|x l IH]; [by apply runs_here|]. cbn [gfor forallb].
  eapply (runs_test f p); [done|set_solver|]. destruct (p x); [|by apply runs_here].
  apply IH. intros y Hy. apply Hf. set_solver.
Qed.

Lemma runs_any f p rc l :
  proper f → tests f p l →
  runs (builtin_any dbg [f; VList rc l]) (λ g, g = GValue (VBool (existsb p l))).
Proof.
  intros Hp Hf. do 2 (apply runs_strict; [done|]). apply runs_list.
  induction l as [|x l IH]; [by apply runs_here|]. cbn [gfor existsb].
  eapply (runs_test f p); [done|set_solver|]. destruct (p x); [by apply runs_here|].
  apply IH. intros y Hy. apply Hf. set_solver.
Qed.

Lemma foldl_filter (p : Value → bool) l out :
  foldl (λ out x, if p x then out ++ [x] else out) out l = out ++ List.filter p l.
Proof.
  revert out. induction l as [|x l IH]; intros out; cbn; [by rewrite app_nil_r|].
  rewrite IH. destruct (p x); [by rewrite <- app_assoc|done].
Qed.

Lemma runs_filter f p rc l :
  proper f → tests f p l →
  runs (builtin_filter dbg [f; VList rc l]) (λ g, ∃ rc', g = GValue (VList rc' (List.filter p l))).
Proof.
  intros Hp Hf. do 2 (apply runs_strict; [done|]). apply runs_list.
  apply (runs_gfor _ _ _ _ _ _ _ (λ out x, if p x then out ++ [x] else out)).
  - intros x out next Hx HQ. by apply (runs_test f p l).
  - rewrite foldl_filter. apply runs_new_list. intros rc'. apply runs_here. by exists rc'.
Qed.

Lemma foldl_partition (p : Value → bool) l a b :
  foldl (λ '(rights, wrongs) x, if p x then (rights ++ [x], wrongs) else (rights, wrongs ++ [x])) (a, b) l
  = (a ++ List.filter p l, b ++ List.filter (λ x, negb (p x)) l).
Proof.
  revert a b. induction l as [|x l IH]; intros a b; cbn; [by rewrite !app_nil_r|].
  destruct (p x); rewrite IH; cbn; by rewrite <- app_assoc.
Qed.

Lemma runs_partition f p rc l :
  proper f → tests f p l →
  runs (builtin_partition dbg [f; VList rc l])
    (λ g, ∃ rc' rc1 rc2 a, g = GValue (VAttrs rc' a) ∧
       to_map a = {[ B "right" := VList rc1 (List.filter p l);
                     B "wrong" := VList rc2 (List.filter (λ x, negb (p x)) l) ]}).
Proof.
  intros Hp Hf. do 2 (apply runs_strict; [done|]). apply runs_list.
  apply (runs_gfor _ _ _ _ _ _ _
    (λ '(rights, wrongs) x, if p x then (rights ++ [x], wrongs) else (rights, wrongs ++ [x]))).
  - intros x [a b] next Hx HQ. by apply (runs_test f p l).
  - rewrite foldl_partition. apply runs_new_list. intros rc1. apply runs_new_list. intros rc2.
    apply runs_alloc; [done|]. intros rc'. apply runs_here. exists rc', rc1, rc2. eexists. split; [done|].
    unfold to_map, attrs_from_iter. cbn [iter]. change (bt_of_list _) with
      [(plain_string (B "right"), VList rc1 (List.filter p l));
       (plain_string (B "wrong"), VList rc2 (List.filter (λ x, negb (p x)) l))].
    by rewrite !map_of_cons, map_of_nil.
Qed.

(** [op] computes [g] on the accumulators and elements it is applied to. *)
Lemma runs_foldl op (g : Value → Value → Value) rc nul l :
  proper op → (∀ acc x, x ∈ l → answers dbg I op [acc; x] (g acc x)) → (∀ acc x, proper (g acc x)) →
  runs (builtin_foldl dbg [op; nul; VList rc l]) (λ r, r = GValue (foldl g nul l)).
Proof.
  intros Hp Hop Hg. do 2 (apply runs_strict; [done|]). apply runs_list.
  apply (runs_gfor _ _ _ _ _ _ _ g); [|by apply runs_here].
  intros x acc next Hx HQ. eapply runs_call; [by apply Hop|].
  specialize (Hg acc x). by destruct (g acc x).
Qed.

End Lists.

(** ** [replaceStrings] *)

(** A piece of the result: a byte that is copied, or a replacement. *)
Definition piece : Type := byte + NixString.
Definition piece_bytes (p : piece) : bytes := match p with inl c => [c] | inr t => contents t end.
Definition piece_context (p : piece) : NixContext :=
  match p with inl _ => ∅ | inr t => default ∅ (context t) end.

Section Replace.
Implicit Types pairs : list (NixString * NixString).

(** The first pair whose pattern the text starts with, empty patterns only if
    [empties]. *)
Fixpoint first_match pairs (empties : bool) (text : bytes) : option (NixString * NixString) :=
  match pairs with
  | [] => None
  | (f, t) :: pairs =>
      if starts_with (contents f) text && (empties || negb (bool_decide (contents f = [])))
      then Some (f, t) else first_match pairs empties text
  end.

(** The specification: at every place of the text that is not inside of a
    match, the first pattern that fits is replaced; an empty pattern inserts its
    replacement and then the place is tried once more without empty patterns.
    [skip] bytes belong to the last match. *)
Fixpoint replaced_from pairs (skip : nat) (text : bytes) : list piece :=
  match text with
  | [] => []
  | c :: rest =>
      match skip with
      | S skip => replaced_from pairs skip rest
      | 0 =>
          let place empties :=
            match first_match pairs empties text with
            | Some (f, t) => inr t :: replaced_from pairs (length (contents f) - 1) rest
            | None => inl c :: replaced_from pairs 0 rest
            end in
          match first_match pairs true text with
          | Some (f, t) => if bool_decide (contents f = []) then inr t :: place false else place true
          | None => place true
          end
      end
  end.

(** At the end of the text there is a place for an empty pattern. *)
Definition replaced pairs (text : bytes) : list piece :=
  replaced_from pairs 0 text ++ match first_match pairs true [] with Some (_, t) => [inr t] | None => [] end.

(** *** The loop *)

Definition placed pairs (empties : bool) (text : bytes) : list piece :=
  match text with
  | [] => []
  | c :: rest =>
      match first_match pairs empties text with
      | Some (f, t) => inr t :: replaced_from pairs (length (contents f) - 1) rest
      | None => inl c :: replaced_from pairs 0 rest
      end
  end.

Lemma replaced_from_skip pairs k text : replaced_from pairs k text = replaced_from pairs 0 (drop k text).
Proof.
  revert k. induction text as [|c text IH]; intros k; [by rewrite drop_nil|].
  destruct k as [|k]; [done|]. cbn [drop]. by rewrite <- IH.
Qed.

Lemma starts_with_take p s : starts_with p s = bool_decide (take (length p) s = p).
Proof.
  unfold starts_with. destruct (strip_prefix p s) as [r|] eqn:E.
  - apply strip_prefix_Some in E as ->. by rewrite take_app_length, bool_decide_true.
  - rewrite bool_decide_false; [done|]. intros Ht.
    assert (strip_prefix p s = Some (drop (length p) s)); [|congruence].
    apply strip_prefix_Some. by rewrite <- Ht at 1; rewrite take_drop.
Qed.

Lemma first_match_prefix pairs empties text f t :
  first_match pairs empties text = Some (f, t) →
  take (length (contents f)) text = contents f ∧ (empties = false → contents f ≠ []).
Proof.
  induction pairs as [|[f' t'] pairs IH]; cbn; [done|].
  destruct (starts_with _ _ && _) eqn:E; [|done]. intros [= -> ->].
  apply andb_prop in E as [E1 E2]. rewrite starts_with_take in E1. apply bool_decide_eq_true in E1.
  split; [done|]. intros ->. cbn in E2. by apply negb_true_iff, bool_decide_eq_false in E2.
Qed.

Definition result_of (res : bytes) (ctx : NixContext) (ps : list piece) : bytes * NixContext :=
  (res ++ mjoin (piece_bytes <$> ps), ctx ∪ ⋃ (piece_context <$> ps)).

Lemma result_of_cons res ctx p ps :
  result_of (res ++ piece_bytes p) (ctx ∪ piece_context p) ps = result_of res ctx (p :: ps).
Proof. unfold result_of. cbn. rewrite <- app_assoc. f_equal. by rewrite <- (assoc_L (∪)). Qed.

Lemma take_into_piece ctx t : take_into ctx t = ctx ∪ piece_context (inr t).
Proof. unfold take_into, NixContext_extend. cbn. destruct (context t); cbn; set_solver. Qed.

Context (h : Heap) (vpairs : list (Value * Value)) (pairs : list (NixString * NixString)).
Context (Hpairs : Forall2 (λ v p, to_contextful_str h v.1 = Ok p.1 ∧ to_contextful_str h v.2 = Ok p.2) vpairs pairs).

Lemma replace_match_spec string i ed :
  i ≤ length string → replace_match h vpairs string i ed = Ok (first_match pairs (negb ed) (drop i string)).
Proof.
  intros Hi. induction Hpairs as [|[v1 v2] [f t] vs ps [E1 E2] Hps IH]; [done|]. cbn [fst snd] in *.
  cbn [replace_match first_match]. rewrite E1, E2. cbn [obind]. rewrite starts_with_take.
  destruct (length string <? i + length (contents f)) eqn:Hl.
  - apply Nat.ltb_lt in Hl. rewrite (bool_decide_false (take _ _ = _)); [cbn; by apply IH|].
    intros Ht%(f_equal length). rewrite length_take, length_drop in Ht. lia.
  - destruct ed; cbn [negb orb andb].
    + rewrite (IH Hps). destruct (bool_decide (contents f = [])) eqn:Ef.
      * by rewrite andb_false_r.
      * cbn [negb]. rewrite andb_true_r. clear Ef. by repeat case_bool_decide.
    + rewrite andb_true_r, (IH Hps). by repeat case_bool_decide.
Qed.

Lemma replace_loop_spec string fuel i ed res ctx :
  i ≤ length string → (ed = true → i < length string) →
  2 * (length string - i) + (if ed : bool then 0 else 1) ≤ fuel →
  replace_loop fuel h vpairs string i ed res ctx =
    Some (Ok (result_of res ctx (if ed then placed pairs false (drop i string) else replaced_from pairs 0 (drop i string)))).
Proof.
  revert i ed res ctx. induction fuel as [|fuel IH]; intros i ed res ctx Hi Hed Hf;
    [destruct ed; [specialize (Hed eq_refl)|]; lia|].
  cbn [replace_loop]. destruct (length string <=? i) eqn:Hle.
  { apply Nat.leb_le in Hle. destruct ed; [specialize (Hed eq_refl); lia|]. rewrite drop_ge by done.
    unfold result_of. cbn. by rewrite app_nil_r, (right_id_L ∅ (∪)). }
  apply Nat.leb_gt in Hle. rewrite replace_match_spec by done.
  destruct (drop i string) as [|c rest] eqn:Hd; [apply (f_equal length) in Hd; rewrite length_drop in Hd; cbn in Hd; lia|].
  assert (∀ k, drop (i + S k) string = drop k rest) as Hrest by (intros k; by rewrite <- drop_drop, Hd).
  (* a turn that advances *)
  assert (Hplace : ∀ empties,
    (∀ f t, first_match pairs empties (c :: rest) = Some (f, t) → contents f ≠ []) →
    match first_match pairs empties (c :: rest) with
    | Some (from, to) =>
        replace_loop fuel h vpairs string (i + length (contents from)) (bool_decide (contents from = []))
          (res ++ contents to) (take_into ctx to)
    | None => replace_loop fuel h vpairs string (i + 1) false (res ++ take 1 (c :: rest)) ctx
    end = Some (Ok (result_of res ctx (placed pairs empties (c :: rest))))).
  { intros empties Hne. cbn [placed]. destruct (first_match pairs empties (c :: rest)) as [[f t]|] eqn:Em.
    - specialize (Hne f t eq_refl). destruct (first_match_prefix _ _ _ _ _ Em) as [Hp _].
      apply (f_equal length) in Hp as Hp'. rewrite <- Hd, length_take, length_drop in Hp'.
      rewrite bool_decide_false by done. destruct (contents f) as [|x f'] eqn:Ef; [done|]. cbn [length] in *.
      rewrite IH by (try done; lia). rewrite Hrest, take_into_piece. cbn [Nat.sub]. rewrite Nat.sub_0_r.
      rewrite (replaced_from_skip pairs (length f')). by rewrite <- result_of_cons.
    - rewrite IH by (try done; lia). rewrite Hrest, drop_0. rewrite <- result_of_cons. cbn [piece_bytes piece_context take].
      by rewrite (right_id_L ∅ (∪)). }
  destruct ed; cbn [negb].
  - rewrite <- (Hplace false); [by destruct (first_match _ _ _) as [[]|]|].
    intros f t Em. by apply (first_match_prefix _ _ _ _ _ Em).
  - cbn [replaced_from]. destruct (first_match pairs true (c :: rest)) as [[f t]|] eqn:Em.
    + destruct (bool_decide_reflect (contents f = [])) as [Ef|Ef].
      * rewrite Ef. cbn [length]. rewrite Nat.add_0_r, IH by (try done; lia).
        rewrite Hd, take_into_piece. by rewrite <- result_of_cons.
      * specialize (Hplace true). rewrite Em in Hplace. rewrite (bool_decide_false _ Ef) in Hplace.
        cbn [placed] in Hplace. rewrite Em in Hplace. apply Hplace. intros f' t' [= -> ->]. done.
    + specialize (Hplace true). rewrite Em in Hplace. cbn [placed] in Hplace. rewrite Em in Hplace. apply Hplace. done.
Qed.

Lemma replace_end_spec res ctx :
  replace_end h vpairs res ctx =
    Ok (result_of res ctx (match first_match pairs true [] with Some (_, t) => [inr t] | None => [] end)).
Proof.
  induction Hpairs as [|[v1 v2] [f t] vs ps [E1 E2] Hps IH].
  { unfold result_of. cbn. by rewrite app_nil_r, (right_id_L ∅ (∪)). }
  cbn [fst snd] in *. cbn [replace_end first_match]. rewrite E1, E2. cbn [obind].
  rewrite orb_true_l, andb_true_r, starts_with_take, take_nil.
  destruct (decide (contents f = [])) as [Ef|Ef].
  - rewrite Ef, !bool_decide_true by done. rewrite take_into_piece. unfold result_of. cbn.
    by rewrite app_nil_r, (right_id_L ∅ (∪)).
  - rewrite !bool_decide_false by done. apply (IH Hps).
Qed.

End Replace.

(** ** [split] *)

(** A machine that always comes back to [P] never stops. *)
Lemma run_diverges `{Vu128, EvalEnv} dbg (P : VM → Prop) :
  (∀ vm, P vm → ∃ vm', tc (next_vm dbg) vm vm' ∧ P vm') →
  ∀ fuel vm, (∃ vm', steps dbg vm vm' ∧ P vm') → run dbg fuel vm = None.
Proof.
  intros HP fuel. induction fuel as [|fuel IH]; intros vm (vm' & Hs & Hvm'); [done|].
  assert (∃ vm1 vm2, next_vm dbg vm vm1 ∧ steps dbg vm1 vm2 ∧ P vm2) as (vm1 & vm2 & E & Hs2 & H2).
  { inversion Hs as [|? vm1 ? E Hs1]; subst; [|by exists vm1, vm'].
    destruct (HP vm' Hvm') as (vm2 & Htc & H2).
    inversion Htc as [? ? E|? vm1 ? E Hs1]; subst; [exists vm2, vm2; split_and!; [done|constructor|done]|].
    exists vm1, vm2. split_and!; [done|by apply tc_rtc|done]. }
  cbn. unfold next_vm in E. rewrite E. apply IH. by exists vm2.
Qed.

Section Split.
Context {varint : Vu128} {env : EvalEnv} {chars : BstrChars} {enc : DataEncoding} {digests : Digests}.
Context (dbg : bool) (sp : Span) (fs : list Frame) (st : list Value) (ws : list nat).
Context (re : bytes) (s : NixString) (pos : nat) (groups : list (option (nat * nat))).

Abbreviation runs := (runs dbg (λ _ _, True) sp fs st ws).

(** The ranges of the groups are ranges of the text. *)
Definition in_text (text : bytes) (g : option (nat * nat)) : Prop :=
  match g with
  | Some (lo, hi) => ∃ r, str_slice (E := ErrorKind) text lo hi = Ok r
  | None => True
  end.

Lemma split_turn ret :
  pos < length (contents s) → is_char_boundary (contents s) pos = true →
  captures_read_at re (contents s) pos = Some (pos, pos, groups) → Forall (in_text (contents s)) groups →
  runs (loop_body dbg (LSplit re s pos ret)) (λ g, ∃ ret', g = gloop (LSplit re s pos ret')).
Proof.
  intros Hpos Hb Hc Hg. cbn [loop_body]. unfold split_body. rewrite Hc.
  eapply (runs_gtry _ _ _ _ _ _ _ []); [intros h; unfold str_slice; by rewrite Nat.leb_refl, Hb, Nat.sub_diag|].
  apply (runs_gfor _ _ _ _ _ _ _ (λ vs g, vs ++ [match g with
    | Some (lo, hi) => match str_slice (E := ErrorKind) (contents s) lo hi with
                       | Ok t => VString (plain_string t) | _ => VNull end
    | None => VNull end])).
  - intros [[lo hi]|] vs next Hin HQ; [|done]. rewrite Forall_forall in Hg.
    destruct (Hg _ Hin) as [r Hr]. eapply (runs_gtry _ _ _ _ _ _ _ r); [done|]. by rewrite Hr in HQ.
  - apply runs_alloc; [done|]. intros rc. rewrite (proj2 (Nat.eqb_neq _ _)) by lia.
    apply runs_here. by eexists.
Qed.

Definition splitting (vm : VM) : Prop :=
  ∃ ret H nx rs, vm = at_gen sp fs st ws (gloop (LSplit re s pos ret)) H nx rs.

Lemma splitting_again vm :
  pos < length (contents s) → is_char_boundary (contents s) pos = true →
  captures_read_at re (contents s) pos = Some (pos, pos, groups) → Forall (in_text (contents s)) groups →
  splitting vm → ∃ vm', tc (next_vm dbg) vm vm' ∧ splitting vm'.
Proof.
  intros Hpos Hb Hc Hg (ret' & H' & nx' & rs' & ->).
  destruct (split_turn ret' Hpos Hb Hc Hg H' nx' rs' I) as (g & H2 & nx2 & rs2 & (ret2 & ->) & _ & Hs).
  eexists. split; [|by do 4 eexists]. eapply tc_rtc_r; [|exact Hs]. apply tc_once. unfold next_vm.
  cbn. by rewrite gbind_done.
Qed.

End Split.

(** ** Theorems *)

(** [builtins.intersectAttrs] builds a well-formed set that has the
    attributes of the right set whose names the left set has as well. *)
Theorem intersect_attrs_spec `{Vu128, EvalEnv, BstrChars, DataEncoding, Digests} (dbg : bool)
    (I : Heap → Addr → Prop) (sp : Span) (fs : list Frame) (s : list Value) (ws : list nat)
    (rc1 rc2 : Addr) (a b : AttrsRep Value) :
  (∀ H nx, I H nx → I H (S nx)) → attrs_wf a → attrs_wf b →
  runs dbg I sp fs s ws (builtin_intersect_attrs [VAttrs rc1 a; VAttrs rc2 b])
    (λ g, ∃ rc c, g = GValue (VAttrs rc c) ∧ attrs_wf c ∧
       ∀ k, select k c = if contains k a then select k b else None).
Proof.
  intros HI Ha Hb. do 2 (apply runs_strict; [done|]). do 2 (apply runs_try; [done|]). apply runs_attrs.
  assert (∀ rc, ∃ rc' c, GValue (VAttrs rc (intersect_attrs a b)) = GValue (VAttrs rc' c) ∧ attrs_wf c ∧
       ∀ k, select k c = if contains k a then select k b else None) as Hres.
  { intros rc. exists rc, (intersect_attrs a b). split_and!; [done| |intros k; by apply intersect_attrs_select].
    by apply intersect_attrs_wf. }
  destruct (attrs_is_empty a) eqn:E.
  - apply runs_alloc; [done|]. intros rc. apply runs_here. specialize (Hres rc). unfold intersect_attrs in Hres.
    by rewrite E in Hres.
  - apply runs_attrs. apply runs_alloc; [done|]. intros rc. apply runs_here. apply Hres.
Qed.

(** C37: [builtins.replaceStrings] ends, and its result consists of the bytes
    that are copied and of the replacements of the patterns found from left to
    right, at each place the first pattern that fits; the context of the result
    is that of the string and of the replacements used. *)
Theorem replace_strings_spec (h : Heap) (from to : list Value) (pairs : list (NixString * NixString)) (s : NixString) :
  Forall2 (λ v p, to_contextful_str h v.1 = Ok p.1 ∧ to_contextful_str h v.2 = Ok p.2) (zip from to) pairs →
  let ps := replaced pairs (contents s) in
  replace_strings h from to s =
    Ok (new_context_from (default ∅ (context s) ∪ ⋃ (piece_context <$> ps)) (mjoin (piece_bytes <$> ps))).
Proof.
  intros Hp ps. unfold replace_strings.
  rewrite (replace_loop_spec h _ pairs Hp (contents s)) by (try done; cbn; lia).
  cbn [obind]. unfold result_of at 1. rewrite (replace_end_spec h _ pairs Hp). cbn [obind result_of fst snd].
  unfold ps, replaced. rewrite drop_0, !fmap_app, union_list_app_L, join_app, app_nil_l, (assoc_L (∪)).
  assert (take_into NixContext_new s = default ∅ (context s)) as ->; [|done].
  rewrite take_into_piece. unfold NixContext_new. cbn. set_solver.
Qed.

(** [builtins.split] does not end when the expression matches the empty
    string at the start of a text that is not empty: the next search starts
    where this one did. *)
Theorem split_diverges `{Vu128, EvalEnv, BstrChars, DataEncoding, Digests} (dbg : bool) (sp : Span)
    (fs : list Frame) (st : list Value) (ws : list nat) (h : Heap) (nx : Addr) (rs : Span)
    (re : bytes) (s : NixString) (groups : list (option (nat * nat))) :
  contents s ≠ [] → utf8_valid (contents s) = true → utf8_valid re = true → regex_valid re = true →
  captures_read_at re (contents s) 0 = Some (0, 0, groups) → Forall (in_text (contents s)) groups →
  ∀ fuel, run dbg fuel
    (mkVM (FResumed sp (builtin_split [VString (plain_string re); VString s]) :: fs) st ws h nx rs) = None.
Proof.
  intros Hs Hus Hur Hr Hc Hg fuel.
  assert (runs dbg (λ _ _, True) sp fs st ws (builtin_split [VString (plain_string re); VString s])
            (λ g, g = gloop (LSplit re s 0 []))) as Hrun.
  { do 2 (apply runs_strict; [done|]). do 2 (apply runs_try; [done|]).
    eapply (runs_gtry _ _ _ _ _ _ _ s); [intros h'; unfold to_contextful_str, cast; by destruct (size h')|].
    eapply (runs_gtry _ _ _ _ _ _ _ (contents s)); [intros h'; unfold utf8_or; by rewrite Hus|].
    eapply (runs_gtry _ _ _ _ _ _ _ (plain_string re)); [intros h'; unfold to_str, cast; by destruct (size h')|].
    eapply (runs_gtry _ _ _ _ _ _ _ re); [intros h'; unfold utf8_or; cbn [contents plain_string]; by rewrite Hur|].
    eapply (runs_gtry _ _ _ _ _ _ _ re); [intros h'; unfold regex_new; by rewrite Hr|]. by apply runs_here. }
  destruct (Hrun h nx rs I) as (g & h' & nx' & rs' & -> & _ & Hst).
  assert (0 < length (contents s)) by (destruct (contents s); cbn; [done|lia]).
  apply (run_diverges dbg (splitting sp fs st ws re s 0)).
  - intros vm. by apply (splitting_again dbg _ _ _ _ _ _ _ groups).
  - eexists. split; [exact Hst|by do 4 eexists].
Qed.

(** With a function that answers a boolean on every element, [filter] and
    [partition] keep the elements it holds for, and the others, in their order;
    [all] and [any] are conjunction and disjunction. *)
Theorem predicate_builtins_spec `{Vu128, EvalEnv, BstrChars, DataEncoding, Digests} (dbg : bool)
    (I : Heap → Addr → Prop) (sp : Span) (fs : list Frame) (s : list Value) (ws : list nat)
    (f : Value) (p : Value → bool) (rc : Addr) (l : list Value) :
  (∀ H nx, I H nx → I H (S nx)) → proper f → tests dbg I f p l →
  runs dbg I sp fs s ws (builtin_filter dbg [f; VList rc l])
    (λ g, ∃ rc', g = GValue (VList rc' (List.filter p l))) ∧
  runs dbg I sp fs s ws (builtin_partition dbg [f; VList rc l])
    (λ g, ∃ rc' rc1 rc2 a, g = GValue (VAttrs rc' a) ∧
       to_map a = {[ B "right" := VList rc1 (List.filter p l);
                     B "wrong" := VList rc2 (List.filter (λ x, negb (p x)) l) ]}) ∧
  runs dbg I sp fs s ws (builtin_all dbg [f; VList rc l]) (λ g, g = GValue (VBool (forallb p l))) ∧
  runs dbg I sp fs s ws (builtin_any dbg [f; VList rc l]) (λ g, g = GValue (VBool (existsb p l))).
Proof.
  intros HI Hp Hf.
  split_and!; [by apply runs_filter|by apply runs_partition|by apply runs_all|by apply runs_any].
Qed.

(** [builtins.div] by the integer 0 panics, where the instruction for [/]
    reports an error. *)
Theorem div_by_zero_panics `{Vu128, EvalEnv, BstrChars, DataEncoding, Digests} (dbg : bool) (sp : Span)
    (fs : list Frame) (f : CallFrame) (s : list Value) (ws : list nat) (h : Heap) (nx : Addr) (rs : Span) (a : Z) :
  (∃ fuel, run dbg fuel
     (mkVM (FResumed sp (builtin_div dbg [VInteger a; VInteger 0]) :: fs) s ws h nx rs) = Some Panic) ∧
  execute_op dbg Opcode.OpDiv sp f (mkVM fs (VInteger 0 :: VInteger a :: s) ws h nx rs) = Err DivisionByZero.
Proof.
  split.
  - apply (run_fails dbg _ Panic).
    assert (runs dbg (λ _ _, True) sp fs s ws (builtin_div dbg [VInteger a; VInteger 0])
              (λ g, g = gtry (λ h, arithmetic_op dbg h ODiv (VInteger a) (VInteger 0)) GValue)) as Hr.
    { do 2 (apply runs_strict; [done|]). by apply runs_here. }
    destruct (Hr h nx rs I) as (g & h' & nx' & rs' & -> & _ & Hst).
    eexists. split; [eapply rtc_r; [exact Hst|reflexivity]|reflexivity].
  - cbn [execute_op]. unfold exec_div, lifted_pop2. cbn. unfold is_catchable, is_. by destruct (size h).
Qed.

(** ** Examples *)

Module Examples.
Import VarintModel TestMachine.

Definition str (s : string) : Value := VString (plain_string (B s)).
Definition set (l : list (string * Value)) : AttrsRep Value :=
  attrs_from_iter (prod_map (λ k, plain_string (B k)) id <$> l).
Definition ints (zs : list Z) : list Value := VInteger <$> zs.

Lemma intersect_attrs_spec_witness :
  runs true (λ _ _, True) here [] [] []
    (builtin_intersect_attrs [VAttrs 0 (set [("a", VNull); ("b", VNull)]); VAttrs 1 (KV (VInteger 1) (VInteger 2))])
    (λ g, ∃ rc c, g = GValue (VAttrs rc c) ∧ attrs_wf c ∧
       ∀ k, select k c = if contains k (set [("a", VNull); ("b", VNull)])
                         then select k (KV (VInteger 1) (VInteger 2)) else None).
Proof.
  apply (intersect_attrs_spec true (λ _ _, True) here [] [] [] 0 1
           (set [("a", VNull); ("b", VNull)]) (KV (VInteger 1) (VInteger 2)));
    [done|apply bt_of_list_sorted|apply kv_sorted].
Defined.

Lemma replace_strings_spec_witness :
  replace_strings empty [str "a"; str ""] [str "xy"; str "-"] (plain_string (B "ab")) =
    Ok (new_context_from (default ∅ None ∪ ⋃ (piece_context <$> replaced
          [(plain_string (B "a"), plain_string (B "xy")); (plain_string [], plain_string (B "-"))] (B "ab")))
        (mjoin (piece_bytes <$> replaced
          [(plain_string (B "a"), plain_string (B "xy")); (plain_string [], plain_string (B "-"))] (B "ab")))).
Proof.
  apply (replace_strings_spec empty [str "a"; str ""] [str "xy"; str "-"]
           [(plain_string (B "a"), plain_string (B "xy")); (plain_string [], plain_string (B "-"))]
           (plain_string (B "ab"))).
  repeat constructor.
Defined.

Example replace_strings_computes :
  replace_strings empty [str "a"; str ""] [str "xy"; str "-"] (plain_string (B "ab")) =
    Ok (plain_string (B "xy-b-")).
Proof. vm_compute. reflexivity. Qed.

Lemma split_diverges_witness :
  run true 100000
    (mkVM [FResumed here (builtin_split [VString (plain_string []); VString (plain_string (B "ab"))])] [] [] ∅ 1 here)
    = None.
Proof.
  apply (split_diverges true here [] [] [] ∅ 1 here [] (plain_string (B "ab")) []);
    [done|reflexivity|reflexivity|reflexivity|reflexivity|constructor].
Defined.

Lemma predicate_builtins_spec_witness :
  let p v := (1 <? int_of v)%Z in
  runs true (λ _ _, True) here [] [] [] (builtin_filter true [above 1; VList 0 (ints [1; 2; 3]%Z)])
    (λ g, ∃ rc', g = GValue (VList rc' (List.filter p (ints [1; 2; 3]%Z)))) ∧
  runs true (λ _ _, True) here [] [] [] (builtin_partition true [above 1; VList 0 (ints [1; 2; 3]%Z)])
    (λ g, ∃ rc' rc1 rc2 a, g = GValue (VAttrs rc' a) ∧
       to_map a = {[ B "right" := VList rc1 (List.filter p (ints [1; 2; 3]%Z));
                     B "wrong" := VList rc2 (List.filter (λ x, negb (p x)) (ints [1; 2; 3]%Z)) ]}) ∧
  runs true (λ _ _, True) here [] [] [] (builtin_all true [above 1; VList 0 (ints [1; 2; 3]%Z)])
    (λ g, g = GValue (VBool (forallb p (ints [1; 2; 3]%Z)))) ∧
  runs true (λ _ _, True) here [] [] [] (builtin_any true [above 1; VList 0 (ints [1; 2; 3]%Z)])
    (λ g, g = GValue (VBool (existsb p (ints [1; 2; 3]%Z)))).
Proof.
  intros p.
  apply (predicate_builtins_spec true (λ _ _, True) here [] [] [] (above 1) p 0 (ints [1; 2; 3]%Z)); [done|done|].
  intros x (z & -> & _)%list_elem_of_fmap. apply above_answers.
Defined.

(** [appendContext] drops the added context when the string has none. *)
Example append_context_dropped :
  run true 100 (machine (builtin_appendContext
    [str "x"; VAttrs 0 (set [("/nix/store/a", VAttrs 0 (set [("path", VBool true)]))])])) = Some (Ok (str "x")).
Proof. vm_compute. reflexivity. Qed.

(** A key that is a thunk makes [removeAttrs] panic: keys are not forced. *)
Example remove_attrs_lazy_key_panics :
  run true 100 (mkVM [FResumed here (builtin_remove_attrs [VAttrs 0 (set [("a", VNull)]); VList 0 [VThunk 0]])]
    [] [] {[ 0 := Suspended (suspended_call_lambda less_than (str "a") here) no_upvalues here ]} 1 here) = Some Panic.
Proof. vm_compute. reflexivity. Qed.

(** The second argument of [seq] is forced first. *)
Example seq_second_first :
  run true 100 (machine (builtin_seq [VCatchable (Throw (B "first")); VCatchable (Throw (B "second"))])) =
    Some (Ok (VCatchable (Throw (B "second")))).
Proof. vm_compute. reflexivity. Qed.

(** A failure inside of the first argument of [deepSeq] is forgotten. *)
Example deep_seq_forgets_failure :
  run true 100 (machine (builtin_deep_seq [VList 0 [VCatchable (Throw (B "inside"))]; VInteger 1])) =
    Some (Ok (VInteger 1)).
Proof. vm_compute. reflexivity. Qed.

(** An element of [catAttrs] that fails is a type error, which [tryEval] does
    not catch. *)
Example cat_attrs_type_error :
  run true 100 (machine (builtin_cat_attrs [str "a"; VList 0 [VCatchable (Throw (B "inside"))]])) =
    Some (Err (TypeError (B "set") (B "internal[catchable]"))).
Proof. vm_compute. reflexivity. Qed.

End Examples.
